(* ===== verification/_CoqProject ===== *)
-Q . S2P
Prelude.v
JsMap.v
JsString.v
Bytes.v
Merkle.v
Json.v
PubValidate.v
PubStore.v
PubEngine.v
RelPayload.v
RelMessages.v
RelStore.v
RelEngine.v
RelAsync.v
RelReconciler.v
RelHub.v
HttpBase.v
PubSnapshot.v
PubHttp.v
RelHttp.v
RelGossip.v
AspSet.v
AspPolicy.v
AspManifest.v
AspEngine.v
SdkCodec.v
SdkSchema.v
SdkWorkerPool.v
SdkPool.v
SdkGateway.v
SdkRpc.v
SdkStealth.v
SdkStorage.v
SdkChain.v
SdkRpcClient.v
SdkPayments.v
SdkPoolService.v
SdkReputation.v
Soroban.v
RegContract.v
RegProofs.v
PoolContract.v
PoolProofs.v
PoolEndToEnd.v
WebErrors.v
WebSoroban.v
WebChain.v
WebStealth.v
WebSpend.v
WebScan.v
WebTx.v
WebNotes.v
WebSweep.v
WebBackup.v
WebPrograms.v
WebProver.v
