(* ===== verification/Prelude.v ===== *)
    (** * Opaque on Stellar: services, client SDK, web application core and the contracts
    that hold funds

    Opaque is a privacy protocol on Stellar.  Contracts hold a shielded pool, a stealth
    registry and announcer, a registry of relayers and a registry of attestations; around
    them run three services, a client library and a web application.  Modelled are the
    services, the library, the core of the web application and the two contracts that hold
    funds:

    - the publisher ([publisher/src]) collects leaf commitments of attestation holders,
      checks them against the chain, keeps them in an append-only Merkle tree per verifier
      and posts the tree's root;
    - the relayer ([relayer/src]) bids on withdrawal jobs, accepts one on chain, submits the
      withdrawal and survives a restart at any point; a hub gossips bids, assignments,
      heartbeats and outcomes between nodes;
    - the ASP, association set provider ([asp/src]), screens the pool's deposits, publishes
      the set of approved ones and serves manifests and inclusion paths;
    - the SDK ([sdk/src]) derives stealth addresses, pays and scans for payments, deposits
      into the pool, proves withdrawals, talks to the relayer market and keeps notes;
    - the privacy pool ([contracts/privacy-pool]) takes deposits and pays withdrawals with a
      valid proof, the relayer registry ([contracts/relayer-registry]) holds stakes and fees
      and submits relayed withdrawals to the pool;
    - the web application ([frontend/src]) has its own stealth protocol, a compiled scanner
      ([scanner/src]), vault, payments, sweeps, contract calls and transaction history, and
      its own pool notes, backups, sweeps into the pool and withdrawal prover.

    They meet at data: the publisher's and the ASP's trees are the same class as the
    prover's; the job the SDK drafts is validated by the relayer and its payload hash is
    recomputed there and by the registry; the note the SDK stores after a deposit is what
    its prover opens; the context and the public inputs the prover binds are the ones the
    pool recomputes; the leaves the SDK rebuilds are read from the pool's events; the web
    application's payments are found by the Rust scanner it compiles.

    ** Files

    Shared: [Prelude] (results, the state-and-error monad [M], sorting, tactics and hints),
    [JsMap] (insertion-ordered [Map] and [Set]), [JsString] (string methods, [BigInt] and
    printing of integers), [Bytes] (hex, base64, fixed-width integers), [Json] (untyped
    values), [Merkle] (the Poseidon tree with cached zero subtrees, its roots and paths).

    Publisher: [PubValidate] (types.ts, validate.ts, identity.ts), [PubStore] (store.ts),
    [PubEngine] (engine.ts, publish.ts: [mergeLeaves], [runPublisherTick]), [PubSnapshot]
    (snapshot.ts), [PubHttp] (http.ts, metrics.ts), [HttpBase] (auth.ts, body.ts,
    rate-limit.ts, trusted-proxy.ts).

    Relayer: [RelPayload] (shared/payload.ts), [RelMessages] (messages.ts), [RelStore]
    (job-queue.ts, store.ts, [JobLedger]), [RelEngine] (engine.ts, each handler run alone),
    [RelAsync] (its deliveries and recovery passes interleaved), [RelReconciler]
    (reconciler.ts), [RelHub] (hub.ts, runtime.ts), [RelHttp] (http.ts), [RelGossip]
    (gossip.ts).

    ASP: [AspSet] (merkle.ts, set.ts), [AspPolicy] (policy.ts, policy-engine.ts,
    reorg-guard.ts, monitor.ts, backoff.ts, metrics.ts), [AspManifest] (publish.ts,
    manifest-service.ts), [AspEngine] (engine.ts, store.ts).

    SDK: [SdkCodec] (crypto/amount.ts, memo.ts, note-codec.ts), [SdkSchema]
    (crypto/schema-codec.ts), [SdkPool] (crypto/notes.ts, prove/pool.ts, serialize.ts,
    asp-client.ts, and the withdrawal circuit), [SdkWorkerPool] (prove/worker-pool.ts,
    worker-runtime.ts), [SdkGateway] (relayer-protocol/gateway.ts, messages.ts), [SdkRpc]
    (rpc/events.ts), [SdkStealth] (crypto/dksap.ts, scan.ts), [SdkStorage] (storage/),
    [SdkChain] (rpc/scval.ts, signer, the invoker interface), [SdkPayments]
    (contracts/payments.ts, services/payments.ts), [SdkPoolService] (contracts/pool.ts,
    services/pool.ts), [SdkRpcClient] (rpc/client.ts, rpc/diagnostics.ts), [SdkReputation]
    (prove/reputation.ts, contracts/verifier.ts, and the reputation circuit).

    Contracts: [Soroban] (the host: ledger, authorization, traps, widths and the class of
    token contracts), [RegContract] and [RegProofs] (relayer-registry), [PoolContract] and
    [PoolProofs] (privacy-pool), [PoolEndToEnd] (prover, registry and pool together).

    Web application: [WebErrors] (lib/errors.ts, lib/retryPolicy.ts), [WebSoroban]
    (lib/sorobanErrors.ts, services/networkValidation.ts), [WebChain] (lib/stellar.ts),
    [WebStealth] (lib/stealth.ts and the scanner crate), [WebSpend] and [WebScan]
    (lib/stealthLifecycle.ts, store/vaultStore.ts, lib/horizonBackoff.ts), [WebTx]
    (pendingTxStore.ts, pending-tx-poller.ts, txTracking.ts, txHistoryStore.ts,
    history-reconciliation.ts), [WebNotes] (lib/poolNotes.ts, store/poolNoteStore.ts,
    lib/depositBackupGate.ts, lib/proofRateLimiter.ts), [WebSweep] (lib/poolSweep.ts,
    contracts/poolConfig.ts), [WebBackup] (lib/poolNoteBackup.ts), [WebPrograms]
    (lib/programs.ts), [WebProver] (lib/poolProver.ts).

    ** How code becomes definitions

    A function that cannot fail is a function; one that throws returns [res]; one that
    changes state runs in [M S], which keeps the state also when it throws, as mutated
    objects and files do.  An [await] is a bind, and the definition says what the function
    does when nothing else runs in between.  Where the result depends on what overtakes it,
    the steps are separate: [SdkStorage.notes_load] and [notes_push], the events of
    [SdkWorkerPool], the messages of [RelHub], and in [RelAsync] the relayer's handlers as
    trees of actions, run in any interleaving with crashes between any two of them.  Objects used as
    maps keep their insertion order.  Numbers are integers; where the code relies on the
    width it is written out (32-bit operators in [SdkPool.ToInt32], 64- and 128-bit fields
    in [RelPayload] and [RelMessages]); token buckets and delays are rationals, and
    the retry delays of the web application also overflow as doubles do.

    Code outside the repository is a parameter: Poseidon, Keccak-256 and SHA-256 are
    functions, with a collision as the other case of a binding theorem; Ed25519,
    secp256k1, Web Crypto, circomlib's templates and XDR are classes with their documented
    laws and a concrete instance for the examples; the chain, the RPC servers, file systems
    and other peers are arbitrary state transformers or answer functions, so a theorem holds
    for peers that fail or lie unless it names the law it needs.

    ** What is proved

    - Trees: the tree equals a reference that hashes all leaves; its paths verify, and a
      root binds its leaves ([Merkle], [PubSnapshot]).
    - Publisher and ASP: merging is append-only, only eligible leaves are saved, verdicts are
      final; the servers write only what was checked ([PubEngine], [PubHttp], [AspEngine]).
    - Relayer: in every interleaving a transaction is sent only after the job's intent was
      saved, an intent is removed only for a reason the chain gave or hid, and the disk holds
      exactly the intents saved and not removed; the queue survives a restart; hub states are
      consistent; failover moves a job only to a live bidder; backend calls are guarded; the
      limiter admits a bounded number of requests ([RelStore], [RelEngine], [RelAsync],
      [RelHub], [RelHttp], [HttpBase]).
    - Pool: the prover's witness satisfies the circuit, a requestable withdrawal is proved,
      the worker pool never stalls and answers as serial proving does, a deposited note can
      be withdrawn, reconstructed leaves are the tree's, no note is burned for a withdrawal
      that was not confirmed ([SdkPool], [SdkWorkerPool], [SdkPoolService]).
    - Payments: a payment to a meta-address is found by its owner's scan, in one run of the
      cryptography and end to end through the announcer; a scan's cursor passes only what was
      handed out and the rest of a ledger that a page cut in two; view-only and full scans
      agree ([SdkStealth], [SdkPayments]).
    - Chain client and reputation: an invocation submits at most once and returns only a
      confirmed hash, polling ends; a leaf the publisher serves can be proved against the
      root it publishes ([SdkRpcClient], [SdkReputation]).
    - Contracts: while no offence is reported the registry holds what it owes and its debts
      can be collected; job terms never change; the pool is backed, spends a nullifier once
      and pauses withdrawals only with notice; what the SDK proves the pool pays, directly
      and through the registry, and the tree the SDK rebuilds is the pool's ([RegProofs],
      [PoolProofs], [PoolEndToEnd]).  A run is any interleaving of calls by anybody with other
      activity on the ledger.
    - Web application: its stealth protocol agrees with the SDK's and the compiled scanner
      finds what it sends; a poll of the class scanner moves on in order and never throws,
      but with the values the RPC client returns it finds nothing; a sweep pays all but the
      reserve from the account that was paid; announcing a ghost spends from the ghost only;
      the wallet is asked once, on the right network, after a simulation; an account is
      absent only when the network says so; retries end, with delays bounded or undefined;
      pending transactions are tracked to their outcome and history has one row each
      ([WebStealth], [WebScan], [WebSpend], [WebChain], [WebErrors], [WebTx]).
    - Web application, pool: a sweep, interleaved with anybody's calls of the pool contract,
      accounts for every stroop by notes it stored, except a deposit whose confirmation was
      lost; a plan fits the balance; backups restore their notes and refuse a changed
      ciphertext; accounts do not touch each other's notes; the web prover's proof is the
      SDK's; the contracts read the application's calls as they are meant ([WebSweep],
      [WebBackup], [WebNotes], [WebProver], [WebPrograms]).
    - Stores and codecs: encrypted and memory stores agree on the newest note of each
      commitment; notes, attestations and drafted jobs survive their round trips
      ([SdkStorage], [SdkCodec], [SdkSchema], [SdkGateway]).
    - Where the code does less than it says, the theorem states what it does: stores that
      cannot save, messages peers reject, scans one announcement stops, leaves reported
      complete with a hole, notes lost between two awaits, a report that empties the registry,
      a job bonded to a relayer that no longer has it queued.

    ** Recursion

    Loops over data are structural.  A loop bounded by a counter of the code recurses on
    that counter: attempts of a submission ([RelEngine.submit_loop], [maxAttempts]), of a
    request ([SdkGateway.fetch_loop], [retries + 1]), pages of a scan ([SdkRpc.pages_loop],
    the page cap).  Draining the stream buffer uses the buffer's length as fuel, which is
    proved enough ([RelGossip]); polling for a transaction has 61 iterations, one more than
    the time limit allows ([SdkRpcClient.poll_terminates]); the web application's polling
    has fuel for every interval of its limit, which is enough ([WebChain.poll_total]), its
    retries, its twenty pages, the three attempts of a deposit ([WebSweep.chunk_loop]) and
    the 200 pages of the prover's scan recurse on their counters.  Nothing else needs fuel.

    ** Not modelled

    RPC and Horizon clients of the services, environment and log output, the file-system
    calls under the stores (a write is all-or-nothing, a file that does not parse is moved
    aside), sockets and timers (a timer's body is a step), wallets, the life time of
    contract storage, the contracts other than the pool and the relayer registry, and of the
    front end the components, hooks and workers, what it persists and the libraries that
    repeat the SDK's.  Of the SDK: payment links, backups and the relayer, publisher and
    schema services with their bindings. *)
From stdpp Require Import base tactics list strings.
From Stdlib Require Import ZArith Lia Sorted.

(** ** Errors and results

    A JavaScript [throw] carries an error object; the sources distinguish
    errors by class ([instanceof PayloadTooLargeError]) and read [.message]. *)
Inductive jserr : Type :=
  | JsError (msg : string)
  | TypeError (msg : string)
  | ReferenceError (msg : string)
  | SyntaxError (msg : string)
  | RangeError (msg : string)
  | PayloadTooLargeError (limitBytes : Z).

Definition err_message (e : jserr) : string :=
  match e with
  | JsError m | TypeError m | ReferenceError m | SyntaxError m | RangeError m => m
  | PayloadTooLargeError _ => "request body exceeds the byte limit"
  end.

Inductive res (A : Type) : Type :=
  | Ok (a : A)
  | Err (e : jserr).
Arguments Ok {A} a.
Arguments Err {A} e.

Global Instance res_ret : MRet res := @Ok.
Global Instance res_bind : MBind res := λ A B f m,
  match m with Ok a => f a | Err e => Err e end.
Global Instance res_fmap : FMap res := λ A B f m,
  match m with Ok a => Ok (f a) | Err e => Err e end.

Definition is_ok {A} (r : res A) : bool :=
  match r with Ok _ => true | Err _ => false end.

Definition ok_or {A} (o : option A) (e : jserr) : res A :=
  match o with Some a => Ok a | None => Err e end.

Lemma Ok_inj {A} (a b : A) : Ok a = Ok b → a = b.
Proof. by intros [= ->]. Qed.

Lemma bind_ok {A B} (m : res A) (f : A → res B) b :
  m ≫= f = Ok b ↔ ∃ a, m = Ok a ∧ f a = Ok b.
Proof.
  split; [destruct m as [a|e]; simpl; naive_solver|].
  intros (a & -> & Hf). exact Hf.
Qed.

(** Run a fallible function over a list, stopping at the first error. *)
Fixpoint mapM_res {A B} (f : A → res B) (l : list A) : res (list B) :=
  match l with
  | [] => Ok []
  | x :: l' => y ← f x; ys ← mapM_res f l'; Ok (y :: ys)
  end.

Lemma mapM_res_Forall2 {A B} (f : A → res B) l ys :
  mapM_res f l = Ok ys ↔ Forall2 (λ x y, f x = Ok y) l ys.
Proof.
  split.
  - revert ys. induction l as [|x l IH]; intros ys H; simpl in H.
    { simplify_eq. constructor. }
    destruct (f x) as [y|] eqn:Hx; simpl in H; [|done].
    destruct (mapM_res f l) as [ys'|]; simpl in H; [|done].
    simplify_eq. eauto.
  - induction 1 as [|x y l ys Hx _ IH]; simpl; [done|].
    by rewrite Hx; simpl; rewrite IH.
Qed.

Lemma mapM_res_length {A B} (f : A → res B) l ys :
  mapM_res f l = Ok ys → length ys = length l.
Proof. intros H. apply mapM_res_Forall2 in H. symmetry. by eapply Forall2_length. Qed.

(** ** Sublists *)
Lemma sublist_fmap {A B} (f : A → B) l l' : sublist l l' → sublist (f <$> l) (f <$> l').
Proof. induction 1; simpl; by constructor. Qed.

Lemma sublist_elem {A} (x : A) l l' : sublist l l' → x ∈ l → x ∈ l'.
Proof.
  induction 1 as [|y l l' _ IH|y l l' _ IH]; [done|..].
  - intros [->|Hx]%elem_of_cons; [by left|right; auto].
  - intros Hx. right. auto.
Qed.

Lemma sublist_NoDup {A} (l l' : list A) : NoDup l' → sublist l l' → NoDup l.
Proof.
  intros Hnd Hs. induction Hs as [|y l l' Hs IH|y l l' _ IH].
  - constructor.
  - apply NoDup_cons in Hnd as [Hy Hnd]. constructor; [|by apply IH].
    intros Hin. apply Hy. by eapply sublist_elem.
  - apply NoDup_cons in Hnd as [_ Hnd]. by apply IH.
Qed.

Lemma sublist_Forall {A} (P : A → Prop) l l' : Forall P l' → sublist l l' → Forall P l.
Proof.
  rewrite !Forall_forall. intros HP Hs x Hx. apply HP. by eapply sublist_elem.
Qed.

(** ** The effect monad

    An [async] function of the services is a state transformer that either
    returns or throws; effects performed before a throw stay performed. *)
Definition M (S A : Type) : Type := S → res A * S.

Global Instance M_ret {S} : MRet (M S) := λ A a s, (Ok a, s).
Global Instance M_bind {S} : MBind (M S) := λ A B f m s,
  match m s with
  | (Ok a, s') => f a s'
  | (Err e, s') => (Err e, s')
  end.

Section effects.
Context {S : Type}.

Definition throw {A} (e : jserr) : M S A := λ s, (Err e, s).
Definition gets {A} (f : S → A) : M S A := λ s, (Ok (f s), s).
Definition modify (f : S → S) : M S unit := λ s, (Ok tt, f s).
Definition lift_res {A} (r : res A) : M S A := λ s, (r, s).

(** [try { m } catch (e) { h(e) }] *)
Definition try_catch {A} (m : M S A) (h : jserr → M S A) : M S A := λ s,
  match m s with
  | (Ok a, s') => (Ok a, s')
  | (Err e, s') => h e s'
  end.

(** [try { m } finally { f }] for a cleanup that does not throw. *)
Definition finally {A} (m : M S A) (f : S → S) : M S A := λ s,
  let '(r, s') := m s in (r, f s').

(** [m.catch(() => null)] *)
Definition catch_null {A} (m : M S (option A)) : M S (option A) :=
  try_catch m (λ _, mret None).

Definition when (b : bool) (m : M S unit) : M S unit :=
  if b then m else mret tt.

(** [for (const x of l) body(x)] *)
Fixpoint for_each {A} (l : list A) (body : A → M S unit) : M S unit :=
  match l with
  | [] => mret tt
  | x :: l' => body x ≫= λ _, for_each l' body
  end.
End effects.

(** *** Runs of a composite program *)
Lemma M_bind_ok {S A B} (m : M S A) (f : A → M S B) s b s' :
  (m ≫= f) s = (Ok b, s') ↔ ∃ a s1, m s = (Ok a, s1) ∧ f a s1 = (Ok b, s').
Proof.
  unfold mbind, M_bind. split.
  - destruct (m s) as [[a|e] s1]; [eauto|done].
  - by intros (a & s1 & -> & Hf).
Qed.

Lemma M_bind_err {S A B} (m : M S A) (f : A → M S B) s e s' :
  (m ≫= f) s = (Err e, s') ↔
  m s = (Err e, s') ∨ ∃ a s1, m s = (Ok a, s1) ∧ f a s1 = (Err e, s').
Proof.
  unfold mbind, M_bind. split.
  - destruct (m s) as [[a|e'] s1]; [eauto|intros [= -> ->]; auto].
  - by intros [-> | (a & s1 & -> & Hf)].
Qed.

Lemma M_bind_case {S A B} (m : M S A) (f : A → M S B) s r s' :
  (m ≫= f) s = (r, s') →
  (∃ e, m s = (Err e, s') ∧ r = Err e) ∨ ∃ a s1, m s = (Ok a, s1) ∧ f a s1 = (r, s').
Proof.
  unfold mbind, M_bind. destruct (m s) as [[a|e] s1]; [eauto|intros [= <- <-]; eauto].
Qed.

Lemma M_bind_run {S A B} (m : M S A) (f : A → M S B) s a s1 :
  m s = (Ok a, s1) → (m ≫= f) s = f a s1.
Proof. unfold mbind, M_bind. by intros ->. Qed.

Lemma finally_run {S A} (m : M S A) f s r s' :
  finally m f s = (r, s') → ∃ s1, m s = (r, s1) ∧ s' = f s1.
Proof. unfold finally. destruct (m s) as [x s1]. intros [= -> <-]. eauto. Qed.

Lemma try_catch_ok {S A} (m : M S A) h s a s' :
  try_catch m h s = (Ok a, s') →
  m s = (Ok a, s') ∨ ∃ e s1, m s = (Err e, s1) ∧ h e s1 = (Ok a, s').
Proof.
  unfold try_catch. destruct (m s) as [[x|e] s1]; [|eauto]. intros [= -> ->]. auto.
Qed.

(** Split the run of a successful program into the runs of its parts. *)
Ltac run_inv H :=
  lazymatch type of H with
  | mbind _ _ _ = (Ok _, _) =>
      let a := fresh "a" in let s := fresh "s" in let H1 := fresh "Hrun" in
      apply M_bind_ok in H as (a & s & H1 & H); run_inv H1; run_inv H
  | gets _ _ = (Ok _, _) => injection H as <- <-
  | modify _ _ = (Ok _, _) => injection H as <- <-
  | mret _ _ = (Ok _, _) => injection H as <- <-
  | lift_res _ _ = (Ok _, _) => unfold lift_res in H; injection H as H <-
  | _ => idtac
  end.

(** *** Hoare triples with an exceptional postcondition *)
Section hoare.
Context {S : Type}.

Definition triple {A} (P : S → Prop) (m : M S A)
    (Q : A → S → Prop) (E : jserr → S → Prop) : Prop :=
  ∀ s, P s → match m s with
             | (Ok a, s') => Q a s'
             | (Err e, s') => E e s'
             end.

(** [keeps I m]: [m] preserves [I] on normal and exceptional exit. *)
Definition keeps {A} (I : S → Prop) (m : M S A) : Prop :=
  triple I m (λ _, I) (λ _, I).

Lemma triple_conseq {A} (P P' : S → Prop) (m : M S A) Q Q' E E' :
  triple P m Q E → (∀ s, P' s → P s) →
  (∀ a s, Q a s → Q' a s) → (∀ e s, E e s → E' e s) →
  triple P' m Q' E'.
Proof.
  intros H HP HQ HE s Hs. specialize (H s (HP s Hs)).
  destruct (m s) as [[a|e] s']; auto.
Qed.

Lemma triple_ret {A} (a : A) Q E : triple (Q a) (mret a) Q E.
Proof. intros s Hs. exact Hs. Qed.

Lemma triple_bind {A B} P (m : M S A) (f : A → M S B) R Q E :
  triple P m R E → (∀ a, triple (R a) (f a) Q E) → triple P (m ≫= f) Q E.
Proof.
  intros Hm Hf s Hs. specialize (Hm s Hs).
  unfold mbind, M_bind. destruct (m s) as [[a|e] s']; [by apply Hf|done].
Qed.

Lemma triple_conj {A} P1 P2 (m : M S A) Q1 Q2 E1 E2 :
  triple P1 m Q1 E1 → triple P2 m Q2 E2 →
  triple (λ s, P1 s ∧ P2 s) m (λ a s, Q1 a s ∧ Q2 a s) (λ e s, E1 e s ∧ E2 e s).
Proof.
  intros H1 H2 s [Hs1 Hs2]. specialize (H1 s Hs1). specialize (H2 s Hs2).
  destruct (m s) as [[a|e] s']; by split.
Qed.

Lemma triple_lift_ok {A B} P (a : A) (f : A → M S B) Q E :
  triple P (f a) Q E → triple P (lift_res (Ok a) ≫= f) Q E.
Proof. intros Hf s Hs. exact (Hf s Hs). Qed.

Lemma triple_gets {A B} P (g : S → A) (f : A → M S B) Q E :
  (∀ s, P s → triple (λ s', s' = s) (f (g s)) Q E) → triple P (gets g ≫= f) Q E.
Proof. intros Hf s Hs. exact (Hf s Hs s eq_refl). Qed.

Lemma triple_try {A} P (m : M S A) h Q E R :
  triple P m Q R → (∀ e, triple (R e) (h e) Q E) → triple P (try_catch m h) Q E.
Proof.
  intros Hm Hh s Hs. specialize (Hm s Hs).
  unfold try_catch. destruct (m s) as [[a|e] s']; [done|by apply Hh].
Qed.

Lemma triple_finally {A} P (m : M S A) (f : S → S) Q E Q' E' :
  triple P m Q E → (∀ a s, Q a s → Q' a (f s)) → (∀ e s, E e s → E' e (f s)) →
  triple P (finally m f) Q' E'.
Proof.
  intros Hm HQ HE s Hs. specialize (Hm s Hs). unfold finally.
  destruct (m s) as [[a|e] s']; auto.
Qed.

Lemma keeps_ret {A} I (a : A) : keeps I (mret a).
Proof. intros s Hs. exact Hs. Qed.
Lemma keeps_throw {A} I e : keeps I (@throw S A e).
Proof. intros s Hs. exact Hs. Qed.
Lemma keeps_gets {A} I (f : S → A) : keeps I (gets f).
Proof. intros s Hs. exact Hs. Qed.
Lemma keeps_lift {A} I (r : res A) : keeps I (lift_res r).
Proof. intros s Hs. simpl. by destruct r. Qed.
Lemma keeps_modify I (f : S → S) : (∀ s, I s → I (f s)) → keeps I (modify f).
Proof. intros H s Hs. simpl. by apply H. Qed.
Lemma keeps_bind {A B} I (m : M S A) (f : A → M S B) :
  keeps I m → (∀ a, keeps I (f a)) → keeps I (m ≫= f).
Proof. intros Hm Hf. eapply triple_bind; [exact Hm|exact Hf]. Qed.
Lemma keeps_try {A} I (m : M S A) h :
  keeps I m → (∀ e, keeps I (h e)) → keeps I (try_catch m h).
Proof. intros Hm Hh. eapply triple_try; [exact Hm|exact Hh]. Qed.
Lemma keeps_finally {A} I (m : M S A) f :
  keeps I m → (∀ s, I s → I (f s)) → keeps I (finally m f).
Proof.
  intros Hm Hf s Hs. specialize (Hm s Hs). unfold finally.
  destruct (m s) as [[a|e] s']; auto.
Qed.
Lemma keeps_when I b (m : M S unit) : keeps I m → keeps I (when b m).
Proof. intros H. destruct b; [exact H|apply keeps_ret]. Qed.
Lemma keeps_for_each {A} I (l : list A) body :
  (∀ x, x ∈ l → keeps I (body x)) → keeps I (for_each l body).
Proof.
  induction l as [|x l IH]; intros H; simpl; [apply keeps_ret|].
  apply keeps_bind; [apply H; left|]. intros _. apply IH.
  intros y Hy. apply H. by right.
Qed.
End hoare.

Create HintDb keeps.
#[export] Hint Resolve keeps_ret keeps_throw keeps_gets keeps_lift keeps_modify
  keeps_when keeps_finally : keeps.

(** Walk through a monadic program, leaving the goals the database cannot close. *)
Ltac keeps_step :=
  match goal with
  | |- keeps _ (mbind _ _) => apply keeps_bind
  | |- keeps _ (try_catch _ _) => apply keeps_try
  | |- keeps _ (for_each _ _) => apply keeps_for_each; intros
  | |- keeps _ (match ?x with _ => _ end) => destruct x eqn:?
  | |- keeps _ _ => solve [eauto with keeps]
  | |- ∀ _, keeps _ _ => intros ?
  end.
Ltac keeps_auto := repeat keeps_step.

(** ** Stable sort by a numeric key: [a.sort((x, y) => key(x) - key(y))] *)
Section sort.
Local Open Scope Z_scope.
Context {A : Type} (key : A → Z).

Fixpoint insert_by (x : A) (l : list A) : list A :=
  match l with
  | [] => [x]
  | y :: l' => if key x <=? key y then x :: y :: l' else y :: insert_by x l'
  end.
Definition sort_by (l : list A) : list A := foldr insert_by [] l.

Lemma insert_by_perm x l : insert_by x l ≡ₚ x :: l.
Proof.
  induction l as [|y l IH]; simpl; [done|]. case_match; [done|]. rewrite IH. constructor.
Qed.
Lemma sort_by_perm l : sort_by l ≡ₚ l.
Proof. induction l as [|x l IH]; simpl; [done|]. by rewrite insert_by_perm, IH. Qed.

Abbreviation sorted := (Sorted (λ a b, key a <= key b)).

Lemma insert_by_sorted x l : sorted l → sorted (insert_by x l).
Proof.
  induction 1 as [|y l Hs IH Hy]; simpl; [by repeat constructor|].
  destruct (Z.leb_spec (key x) (key y)).
  - constructor; [by constructor|]. constructor. lia.
  - constructor; [done|]. destruct l as [|z l]; simpl in *; [constructor; lia|].
    destruct (Z.leb_spec (key x) (key z)); constructor; [lia|by inversion Hy].
Qed.
Lemma sort_by_sorted l : sorted (sort_by l).
Proof. induction l as [|x l IH]; simpl; [constructor|]. by apply insert_by_sorted. Qed.
Lemma sort_by_id l : sorted l → sort_by l = l.
Proof.
  induction 1 as [|y l Hs IH Hy]; simpl; [done|]. rewrite IH.
  destruct Hy as [|z l Hz]; simpl; [done|]. destruct (Z.leb_spec (key y) (key z)); [done|lia].
Qed.
End sort.
