(* ===== verification/JsMap.v ===== *)
(** * JavaScript [Map] and [Set] objects

    A [Map] iterates in insertion order, and [set] on a present key keeps the
    key's position: the services rely on both (the accepted-jobs queue, the
    hub's bid table), so a map is an association list and not a finite map. *)
From stdpp Require Import base tactics list sets.
From S2P Require Import Prelude.

Module JMap.
Section map.
Context {K V : Type} `{EqDecision K}.

Definition t : Type := list (K * V).

Fixpoint get (k : K) (m : list (K * V)) : option V :=
  match m with
  | [] => None
  | (k', v) :: m' => if decide (k = k') then Some v else get k m'
  end.

Fixpoint set (k : K) (v : V) (m : list (K * V)) : list (K * V) :=
  match m with
  | [] => [(k, v)]
  | (k', v') :: m' => if decide (k = k') then (k, v) :: m' else (k', v') :: set k v m'
  end.

Fixpoint del (k : K) (m : list (K * V)) : list (K * V) :=
  match m with
  | [] => []
  | (k', v') :: m' => if decide (k = k') then del k m' else (k', v') :: del k m'
  end.

Definition keys (m : list (K * V)) : list K := m.*1.
Definition vals (m : list (K * V)) : list V := m.*2.
Definition has (k : K) (m : list (K * V)) : bool :=
  match get k m with Some _ => true | None => false end.

(** [for (const [k, v] of m) if (!keep(k, v)) m.delete(k)] *)
Definition retain (keep : K → V → bool) (m : list (K * V)) : list (K * V) :=
  List.filter (λ p, keep p.1 p.2) m.

(** Keys occur once: the representation invariant of a [Map]. *)
Definition wf (m : list (K * V)) : Prop := NoDup (keys m).

Lemma get_set_eq k v m : get k (set k v m) = Some v.
Proof.
  induction m as [|[k' v'] m IH]; simpl.
  - by rewrite decide_True.
  - destruct (decide (k = k')) as [->|]; simpl; [by rewrite decide_True|].
    by rewrite decide_False.
Qed.

Lemma get_set_ne k k' v m : k' ≠ k → get k' (set k v m) = get k' m.
Proof.
  intros Hne. induction m as [|[k0 v0] m IH]; simpl.
  - by rewrite decide_False.
  - destruct (decide (k = k0)) as [->|]; simpl.
    + by rewrite !decide_False.
    + by destruct (decide (k' = k0)).
Qed.

Lemma get_del_eq k m : get k (del k m) = None.
Proof.
  induction m as [|[k0 v0] m IH]; simpl; [done|].
  destruct (decide (k = k0)) as [->|]; simpl; [done|]. by rewrite decide_False.
Qed.

Lemma get_del_ne k k' m : k' ≠ k → get k' (del k m) = get k' m.
Proof.
  intros Hne. induction m as [|[k0 v0] m IH]; simpl; [done|].
  destruct (decide (k = k0)) as [->|]; simpl.
  - by rewrite decide_False.
  - by destruct (decide (k' = k0)).
Qed.

Lemma elem_of_set p k v m : p ∈ set k v m → p = (k, v) ∨ p ∈ m.
Proof.
  induction m as [|[k0 v0] m IH]; simpl; [set_solver|].
  destruct (decide (k = k0)); set_solver.
Qed.

Lemma elem_of_del p k m : p ∈ del k m ↔ p ∈ m ∧ p.1 ≠ k.
Proof.
  induction m as [|[k0 v0] m IH]; simpl; [set_solver|].
  destruct (decide (k = k0)) as [->|Hne]; rewrite ?elem_of_cons, ?IH.
  - split; [tauto|]. intros [[->|?] ?]; simpl in *; tauto.
  - split; [|tauto]. intros [->|?]; simpl; split; tauto || congruence.
Qed.

Lemma elem_of_keys_set x k v m : x ∈ keys (set k v m) ↔ x = k ∨ x ∈ keys m.
Proof.
  unfold keys. induction m as [|[k0 v0] m IH]; simpl; [set_solver|].
  destruct (decide (k = k0)) as [->|]; simpl; rewrite ?elem_of_cons, ?IH; tauto.
Qed.

Lemma elem_of_keys_del x k m : x ∈ keys (del k m) ↔ x ∈ keys m ∧ x ≠ k.
Proof.
  unfold keys. rewrite !list_elem_of_fmap. split.
  - intros (p & -> & [Hp Hk]%elem_of_del). eauto.
  - intros [(p & -> & Hp) Hne]. exists p. rewrite elem_of_del. eauto.
Qed.

Lemma wf_nil : wf [].
Proof. constructor. Qed.

Lemma wf_set k v m : wf m → wf (set k v m).
Proof.
  unfold wf. induction m as [|[k0 v0] m IH]; simpl; intros Hnd.
  - apply NoDup_singleton.
  - apply NoDup_cons in Hnd as [Hni Hnd].
    destruct (decide (k = k0)) as [->|Hne]; simpl; apply NoDup_cons; [done|].
    split; [|by apply IH]. fold (keys (set k v m)). rewrite elem_of_keys_set.
    intros [->|?]; [done|]. by apply Hni.
Qed.

Lemma wf_del k m : wf m → wf (del k m).
Proof.
  unfold wf. induction m as [|[k0 v0] m IH]; simpl; intros Hnd; [done|].
  apply NoDup_cons in Hnd as [Hni Hnd].
  destruct (decide (k = k0)) as [->|Hne]; [by apply IH|].
  simpl. apply NoDup_cons. split; [|by apply IH].
  fold (keys (del k m)). rewrite elem_of_keys_del. by intros [? _].
Qed.

Lemma elem_of_retain p keep m : p ∈ retain keep m ↔ p ∈ m ∧ keep p.1 p.2 = true.
Proof.
  unfold retain. rewrite !list_elem_of_In, filter_In. done.
Qed.

Lemma wf_retain keep m : wf m → wf (retain keep m).
Proof.
  unfold wf. induction m as [|[k0 v0] m IH]; simpl; intros Hnd; [done|].
  apply NoDup_cons in Hnd as [Hni Hnd].
  destruct (keep k0 v0); [|by apply IH].
  simpl. apply NoDup_cons. split; [|by apply IH].
  unfold keys. rewrite list_elem_of_fmap. intros (p & Hk & Hp%elem_of_retain).
  apply Hni. unfold keys. apply list_elem_of_fmap. naive_solver.
Qed.

Lemma get_Some_elem k v m : get k m = Some v → (k, v) ∈ m.
Proof.
  induction m as [|[k0 v0] m IH]; simpl; [done|].
  destruct (decide (k = k0)) as [->|]; intros; simplify_eq; [left|right; auto].
Qed.

Lemma get_None_keys k m : get k m = None ↔ k ∉ keys m.
Proof.
  unfold keys. induction m as [|[k0 v0] m IH]; simpl; [set_solver|].
  rewrite not_elem_of_cons. destruct (decide (k = k0)) as [->|]; naive_solver.
Qed.

Lemma elem_get k v m : wf m → (k, v) ∈ m → get k m = Some v.
Proof.
  unfold wf. induction m as [|[k0 v0] m IH]; simpl; intros Hnd Hin; [set_solver|].
  apply NoDup_cons in Hnd as [Hni Hnd].
  apply elem_of_cons in Hin as [Heq|Hin]; [simplify_eq; by rewrite decide_True|].
  rewrite decide_False; [by apply IH|]. intros ->. apply Hni.
  unfold keys. apply list_elem_of_fmap. by exists (k0, v).
Qed.

Lemma get_retain k keep m :
  wf m → get k (retain keep m) = (v ← get k m; if keep k v then Some v else None).
Proof.
  intros Hwf. destruct (get k m) as [v|] eqn:Hg; simpl.
  - destruct (keep k v) eqn:Hk.
    + apply elem_get; [by apply wf_retain|]. apply elem_of_retain.
      split; [by apply get_Some_elem|done].
    + apply get_None_keys. unfold keys. rewrite list_elem_of_fmap.
      intros ([k1 v1] & -> & [Hp Hkeep]%elem_of_retain); simpl in *.
      apply elem_get in Hp; [|done]. congruence.
  - apply get_None_keys. unfold keys. rewrite list_elem_of_fmap.
    intros ([k1 v1] & -> & [Hp Hkeep]%elem_of_retain); simpl in *.
    apply elem_get in Hp; [|done]. congruence.
Qed.

Lemma keys_set_present k v m : k ∈ keys m → keys (set k v m) = keys m.
Proof.
  induction m as [|[k' v'] m IH]; simpl; [by intros ?%elem_of_nil|].
  intros [->|Hk]%elem_of_cons; simpl; [by rewrite decide_True|].
  destruct (decide (k = k')) as [->|]; simpl; [done|]. by rewrite IH.
Qed.

Lemma set_absent k v m : k ∉ keys m → set k v m = m ++ [(k, v)].
Proof.
  unfold keys. induction m as [|[k0 v0] m IH]; simpl; intros Hni; [done|].
  apply not_elem_of_cons in Hni as [Hne Hni]. rewrite decide_False by done.
  by rewrite IH.
Qed.
End map.
End JMap.

#[export] Hint Resolve JMap.wf_nil JMap.wf_set JMap.wf_del JMap.wf_retain : keeps.

(** JavaScript [Set]: distinct elements in insertion order. *)
Module JSet.
Section set.
Context {A : Type} `{EqDecision A}.
Definition has (x : A) (s : list A) : bool := bool_decide (x ∈ s).
Definition add (x : A) (s : list A) : list A :=
  if decide (x ∈ s) then s else s ++ [x].
Definition of_list (l : list A) : list A := foldl (λ s x, add x s) [] l.

Lemma elem_of_add y x s : y ∈ add x s ↔ y = x ∨ y ∈ s.
Proof. unfold add. destruct (decide (x ∈ s)); set_solver. Qed.

Lemma NoDup_add x s : NoDup s → NoDup (add x s).
Proof.
  unfold add. destruct (decide (x ∈ s)); [done|].
  intros. apply NoDup_app. split_and!; [done| |apply NoDup_singleton]. set_solver.
Qed.

Lemma elem_of_foldl_add l s y : y ∈ foldl (λ s x, add x s) s l ↔ y ∈ s ∨ y ∈ l.
Proof.
  revert s. induction l as [|x l IH]; intros s; simpl; [set_solver|].
  rewrite IH, elem_of_add. set_solver.
Qed.

Lemma elem_of_of_list l y : y ∈ of_list l ↔ y ∈ l.
Proof. unfold of_list. rewrite elem_of_foldl_add. set_solver. Qed.
End set.
End JSet.
