(* ===== verification/JsString.v ===== *)
(** * JavaScript strings and numerals

    The string methods the services call ([toLowerCase], [trim], [split],
    [startsWith], [replace(/^0x/, "")], [padStart]) and the two conversions
    between integers and text ([BigInt(s)], [n.toString(radix)]).  A string is
    a list of code units below 256 (Latin-1): every string the services compare
    or parse is hex, decimal, base64, strkey or an identifier.  On that range
    [toLowerCase], [trim] and UTF-8 encoding below are exact. *)
From Stdlib Require Import Ascii.
From stdpp Require Import base tactics list sets strings.
From Stdlib Require Import ZArith Lia.
From S2P Require Import Prelude.
Open Scope string_scope.
Open Scope Z_scope.

(** ** Characters *)
Definition code (c : Ascii.ascii) : Z := Z.of_N (Ascii.N_of_ascii c).
Definition char (z : Z) : Ascii.ascii := Ascii.ascii_of_N (Z.to_N z).

Definition lower_char (c : Ascii.ascii) : Ascii.ascii :=
  let n := code c in
  if (65 <=? n) && (n <=? 90) then char (n + 32)
  else if (192 <=? n) && (n <=? 222) && negb (n =? 215) then char (n + 32)
  else c.

Definition is_space (c : Ascii.ascii) : bool :=
  let n := code c in ((9 <=? n) && (n <=? 13)) || (n =? 32) || (n =? 160).

(** ** Methods *)
Fixpoint map_string (f : Ascii.ascii → Ascii.ascii) (s : string) : string :=
  match s with
  | EmptyString => EmptyString
  | String c s' => String (f c) (map_string f s')
  end.

Definition toLowerCase (s : string) : string := map_string lower_char s.

Fixpoint trimStart (s : string) : string :=
  match s with
  | EmptyString => EmptyString
  | String c s' => if is_space c then trimStart s' else s
  end.

Fixpoint trimEnd (s : string) : string :=
  match s with
  | EmptyString => EmptyString
  | String c s' =>
      match trimEnd s' with
      | EmptyString => if is_space c then EmptyString else String c EmptyString
      | r => String c r
      end
  end.

Definition trim (s : string) : string := trimEnd (trimStart s).

Fixpoint startsWith (p s : string) : bool :=
  match p, s with
  | EmptyString, _ => true
  | String a p', String b s' => Ascii.eqb a b && startsWith p' s'
  | String _ _, EmptyString => false
  end.

(** [s.includes(p)] *)
Fixpoint includes (p s : string) : bool :=
  startsWith p s || match s with EmptyString => false | String _ s' => includes p s' end.

(** [s.slice(n)] for a non-negative [n] *)
Fixpoint drop_string (n : nat) (s : string) : string :=
  match n, s with
  | O, _ => s
  | S n', EmptyString => EmptyString
  | S n', String _ s' => drop_string n' s'
  end.

(** [s.replace(/^0x/, "")] *)
Definition strip0x (s : string) : string :=
  if startsWith "0x" s then drop_string 2 s else s.

(** [s.split(sep)] for a one-character separator *)
Fixpoint split_on (sep : Ascii.ascii) (s : string) : list string :=
  match s with
  | EmptyString => [EmptyString]
  | String c s' =>
      if Ascii.eqb c sep then EmptyString :: split_on sep s'
      else match split_on sep s' with
           | [] => [String c EmptyString]
           | w :: ws => String c w :: ws
           end
  end.

(** [l.join(sep)] *)
Fixpoint join (sep : string) (l : list string) : string :=
  match l with
  | [] => EmptyString
  | [w] => w
  | w :: l' => w +:+ sep +:+ join sep l'
  end.

Fixpoint all_chars (f : Ascii.ascii → bool) (s : string) : bool :=
  match s with
  | EmptyString => true
  | String c s' => f c && all_chars f s'
  end.

Definition slen (s : string) : Z := Z.of_nat (String.length s).

(** [s.padStart(n, "0")] *)
Definition padStart0 (n : nat) (s : string) : string :=
  Nat.iter (n - String.length s) (String "0"%char) s.

(** ** Digits *)
Definition digit_char (d : Z) : Ascii.ascii :=
  if d <? 10 then char (48 + d) else char (87 + d).

Definition digit_val (c : Ascii.ascii) : option Z :=
  let n := code c in
  if (48 <=? n) && (n <=? 57) then Some (n - 48)
  else if (97 <=? n) && (n <=? 102) then Some (n - 87)
  else if (65 <=? n) && (n <=? 70) then Some (n - 55)
  else None.

Definition is_hex (c : Ascii.ascii) : bool :=
  match digit_val c with Some _ => true | None => false end.
Definition is_dec (c : Ascii.ascii) : bool :=
  match digit_val c with Some d => d <? 10 | None => false end.

(** Value of a digit string in base [b], digits of the base only. *)
Fixpoint digits_val (b acc : Z) (s : string) : option Z :=
  match s with
  | EmptyString => Some acc
  | String c s' =>
      match digit_val c with
      | Some d => if d <? b then digits_val b (acc * b + d) s' else None
      | None => None
      end
  end.

(** [n.toString(b)] for a non-negative [n]; [n < 2^fuel] suffices. *)
Fixpoint num_str (b : Z) (fuel : nat) (n : Z) : string :=
  match fuel with
  | O => EmptyString
  | S f =>
      if n <? b then String (digit_char n) EmptyString
      else num_str b f (n / b) +:+ String (digit_char (n mod b)) EmptyString
  end.

Definition num_fuel (n : Z) : nat := S (Z.to_nat (Z.log2 n)).

(** [BigInt.prototype.toString] *)
Definition bigint_toString (b n : Z) : string :=
  if n <? 0 then String "-"%char (num_str b (num_fuel (- n)) (- n))
  else num_str b (num_fuel n) n.

(** [BigInt(s)] on a string: surrounding white space is ignored, the empty
    string is zero, [0x]/[0X] introduces hexadecimal, and only a decimal
    numeral may carry a sign. The [0o] and [0b] forms are included. *)
Definition digits_nonempty (b : Z) (s : string) : option Z :=
  match s with EmptyString => None | _ => digits_val b 0 s end.

Definition bigint_of_string (s0 : string) : option Z :=
  match trim s0 with
  | EmptyString => Some 0
  | String c1 r as s =>
      if Ascii.eqb c1 "-"%char then (λ v, - v) <$> digits_nonempty 10 r
      else if Ascii.eqb c1 "+"%char then digits_nonempty 10 r
      else match r with
           | String c2 r2 =>
               if Ascii.eqb c1 "0"%char && (Ascii.eqb c2 "x"%char || Ascii.eqb c2 "X"%char)
               then digits_nonempty 16 r2
               else if Ascii.eqb c1 "0"%char && (Ascii.eqb c2 "o"%char || Ascii.eqb c2 "O"%char)
               then digits_nonempty 8 r2
               else if Ascii.eqb c1 "0"%char && (Ascii.eqb c2 "b"%char || Ascii.eqb c2 "B"%char)
               then digits_nonempty 2 r2
               else digits_val 10 0 s
           | EmptyString => digits_val 10 0 s
           end
  end.

Definition BigInt (s : string) : res Z :=
  ok_or (bigint_of_string s) (SyntaxError "Cannot convert string to a BigInt").

(** UTF-8 encoding of a Latin-1 string, as the code units of its bytes. *)
Definition utf8_char (c : Ascii.ascii) : list Z :=
  let n := code c in
  if n <? 128 then [n] else [192 + n / 64; 128 + n mod 64].

(** ** Lemmas *)

Global Arguments String.append !_ _ / : simpl nomatch.

(** Decide a boolean fact of one character by its 256 cases. *)
Ltac by_cases_char c := destruct c as [[] [] [] [] [] [] [] []]; vm_compute.

Lemma code_range c : 0 <= code c < 256.
Proof. by_cases_char c; split; congruence. Qed.

Lemma char_code c : char (code c) = c.
Proof. by_cases_char c; reflexivity. Qed.

Lemma code_char z : 0 <= z < 256 → code (char z) = z.
Proof.
  intros Hz. unfold code, char.
  rewrite Ascii.N_ascii_embedding; lia.
Qed.

Lemma code_inj c1 c2 : code c1 = code c2 → c1 = c2.
Proof. intros H. by rewrite <-(char_code c1), H, char_code. Qed.

Lemma digit_val_char d : 0 <= d < 16 → digit_val (digit_char d) = Some d.
Proof.
  intros Hd.
  assert (∃ n : nat, d = Z.of_nat n ∧ (n < 16)%nat) as (n & -> & Hn)
    by (exists (Z.to_nat d); lia).
  do 16 (destruct n as [|n]; [reflexivity|]). lia.
Qed.

Lemma digit_val_range c d : digit_val c = Some d → 0 <= d < 16.
Proof.
  unfold digit_val. pose proof (code_range c).
  repeat case_match; intros; simplify_eq; lia.
Qed.

Lemma digit_val_lower c : digit_val (lower_char c) = digit_val c.
Proof. by_cases_char c; reflexivity. Qed.
Lemma lower_lower_char c : lower_char (lower_char c) = lower_char c.
Proof. by_cases_char c; reflexivity. Qed.
Lemma hex_not_space c : is_hex c = true → is_space c = false.
Proof. by_cases_char c; congruence. Qed.
Lemma dec_is_hex c : is_dec c = true → is_hex c = true.
Proof. by_cases_char c; congruence. Qed.

Lemma string_app_assoc (a b c : string) : (a +:+ b) +:+ c = a +:+ (b +:+ c).
Proof. induction a as [|x a IH]; simpl; [done|]. by rewrite IH. Qed.
Lemma string_app_nil_r (a : string) : a +:+ "" = a.
Proof. induction a as [|c a IH]; simpl; [done|]. by rewrite IH. Qed.
Lemma string_app_length (a b : string) :
  String.length (a +:+ b) = (String.length a + String.length b)%nat.
Proof. induction a as [|x a IH]; simpl; [done|]. by rewrite IH. Qed.

Lemma string_app_inv_length (a b c d : string) :
  String.length a = String.length c → a +:+ b = c +:+ d → a = c ∧ b = d.
Proof.
  revert c. induction a as [|x a IH]; intros [|y c] Hl H; simpl in *; try done.
  injection H as -> H. destruct (IH c) as [-> ->]; auto.
Qed.

Lemma toLowerCase_app a b : toLowerCase (a +:+ b) = toLowerCase a +:+ toLowerCase b.
Proof. unfold toLowerCase. induction a as [|x a IH]; simpl; [done|]. by rewrite IH. Qed.
Lemma toLowerCase_idemp s : toLowerCase (toLowerCase s) = toLowerCase s.
Proof.
  unfold toLowerCase. induction s as [|c s IH]; simpl; [done|]. by rewrite lower_lower_char, IH.
Qed.
Lemma toLowerCase_length s : String.length (toLowerCase s) = String.length s.
Proof. unfold toLowerCase. induction s as [|c s IH]; simpl; [done|]. by rewrite IH. Qed.

Lemma all_chars_app f a b : all_chars f (a +:+ b) = all_chars f a && all_chars f b.
Proof. induction a as [|x a IH]; simpl; [done|]. by rewrite IH, andb_assoc. Qed.
Lemma all_chars_impl f g s :
  (∀ c, f c = true → g c = true) → all_chars f s = true → all_chars g s = true.
Proof.
  intros Hfg. induction s as [|c s IH]; simpl; [done|].
  intros [Hc Hs]%andb_prop. by rewrite (Hfg c Hc), (IH Hs).
Qed.

Lemma startsWith_app p s :
  startsWith p s = true → s = p +:+ drop_string (String.length p) s.
Proof.
  revert s. induction p as [|a p IH]; intros s; simpl; [done|].
  destruct s as [|b s]; [done|]. intros [->%Ascii.eqb_eq H]%andb_prop. f_equal. by apply IH.
Qed.

Lemma strip0x_0x s : strip0x ("0x" +:+ s) = s.
Proof. done. Qed.

Lemma digits_val_app b acc s t :
  digits_val b acc (s +:+ t) = (v ← digits_val b acc s; digits_val b v t).
Proof.
  revert acc. induction s as [|c s IH]; intros acc; simpl; [done|].
  destruct (digit_val c) as [d|]; [|done]. destruct (d <? b); [apply IH|done].
Qed.

Lemma digits_val_lower b acc s : digits_val b acc (toLowerCase s) = digits_val b acc s.
Proof.
  revert acc. induction s as [|c s IH]; intros acc; simpl; [done|].
  rewrite digit_val_lower. destruct (digit_val c) as [d|]; [|done].
  destruct (d <? b); [apply IH|done].
Qed.

Lemma digits_val_hex acc s :
  all_chars is_hex s = true → ∃ v, digits_val 16 acc s = Some v.
Proof.
  revert acc. induction s as [|c s IH]; intros acc; simpl; [eauto|].
  intros [Hc Hs]%andb_prop. unfold is_hex in Hc.
  destruct (digit_val c) as [d|] eqn:Hd; [|done].
  apply digit_val_range in Hd. replace (d <? 16) with true by (symmetry; lia). auto.
Qed.

(** A digit string of length [k] denotes a number below [b^k]. *)
Lemma digits_val_bound b acc s v :
  1 < b → 0 <= acc → digits_val b acc s = Some v →
  acc * b ^ slen s <= v < (acc + 1) * b ^ slen s.
Proof.
  intros Hb. revert acc. induction s as [|c s IH]; intros acc Hacc Hv; simpl in Hv.
  { simplify_eq. unfold slen; simpl. lia. }
  destruct (digit_val c) as [d|] eqn:Hd; [|done].
  destruct (d <? b) eqn:Hdb; [|done].
  apply digit_val_range in Hd. apply IH in Hv; [|nia].
  replace (slen (String c s)) with (Z.succ (slen s))
    by (unfold slen; simpl String.length; lia).
  rewrite Z.pow_succ_r by (unfold slen; lia).
  pose proof (Z.pow_pos_nonneg b (slen s)). unfold slen in *. nia.
Qed.

Section num_str.
Context (b : Z) (Hb : 2 <= b <= 16).

Lemma num_str_val fuel n :
  0 <= n < 2 ^ Z.of_nat fuel → (0 < fuel)%nat →
  digits_val b 0 (num_str b fuel n) = Some n.
Proof using Hb.
  revert n. induction fuel as [|f IH]; intros n Hn Hf; [lia|]. simpl.
  destruct (n <? b) eqn:Hnb; simpl.
  - rewrite digit_val_char by lia. by rewrite Hnb.
  - rewrite Nat2Z.inj_succ, Z.pow_succ_r in Hn by lia.
    assert (0 <= n / b < 2 ^ Z.of_nat f).
    { split; [apply Z.div_pos; lia|]. apply Z.div_lt_upper_bound; nia. }
    assert (0 < f)%nat. { destruct f; [|lia]. change (2 ^ Z.of_nat 0) with 1 in *. lia. }
    rewrite digits_val_app, IH by lia. simpl.
    pose proof (Z.mod_pos_bound n b). rewrite digit_val_char by lia.
    replace (n mod b <? b) with true by (symmetry; lia).
    f_equal. pose proof (Z.div_mod n b). lia.
Qed.

Lemma num_fuel_ok n : 0 <= n → n < 2 ^ Z.of_nat (num_fuel n) ∧ (0 < num_fuel n)%nat.
Proof using Type.
  intros Hn. unfold num_fuel. split; [|lia].
  destruct (decide (n = 0)) as [->|]; [done|].
  rewrite Nat2Z.inj_succ, Z2Nat.id by apply Z.log2_nonneg.
  apply Z.log2_spec. lia.
Qed.

Lemma num_str_nonempty fuel n : (0 < fuel)%nat → num_str b fuel n ≠ "".
Proof using Type.
  destruct fuel; [lia|]. simpl. intros _. destruct (n <? b); [done|].
  by destruct (num_str b fuel (n / b)).
Qed.

Lemma num_str_length fuel n k :
  0 <= n < b ^ Z.of_nat k → (0 < k)%nat → (String.length (num_str b fuel n) ≤ k)%nat.
Proof using Hb.
  revert n k. induction fuel as [|f IH]; intros n k Hn Hk; simpl; [lia|].
  destruct (n <? b) eqn:Hnb; simpl; [lia|].
  destruct k as [|k]; [lia|]. rewrite Nat2Z.inj_succ, Z.pow_succ_r in Hn by lia.
  assert (0 < k)%nat. { destruct k; [|lia]. change (b ^ Z.of_nat 0) with 1 in *. lia. }
  rewrite string_app_length. simpl.
  assert (0 <= n / b < b ^ Z.of_nat k).
  { split; [apply Z.div_pos; lia|]. apply Z.div_lt_upper_bound; lia. }
  specialize (IH (n / b) k). lia.
Qed.

Lemma num_str_digits (P : Ascii.ascii → bool) fuel n :
  (∀ d, 0 <= d < b → P (digit_char d) = true) →
  0 <= n → all_chars P (num_str b fuel n) = true.
Proof using Hb.
  intros HP. revert n. induction fuel as [|f IH]; intros n Hn; simpl; [done|].
  destruct (n <? b) eqn:Hnb; simpl; [rewrite HP by lia; done|].
  rewrite all_chars_app, IH by (apply Z.div_pos; lia). simpl.
  rewrite HP; [done|]. apply Z.mod_pos_bound. lia.
Qed.
End num_str.

Lemma digit_char_dec d : 0 <= d < 10 → is_dec (digit_char d) = true.
Proof. intros Hd. unfold is_dec. rewrite digit_val_char by lia. lia. Qed.
Lemma digit_char_hex d : 0 <= d < 16 → is_hex (digit_char d) = true.
Proof. intros Hd. unfold is_hex. by rewrite digit_val_char. Qed.

Lemma toString_dec_digits n : 0 <= n → all_chars is_dec (num_str 10 (num_fuel n) n) = true.
Proof. apply num_str_digits; [lia|exact digit_char_dec]. Qed.
Lemma toString_hex_digits n : 0 <= n → all_chars is_hex (num_str 16 (num_fuel n) n) = true.
Proof. apply num_str_digits; [lia|exact digit_char_hex]. Qed.

(** [trim] leaves a string without white space alone. *)
Lemma trimEnd_id s : all_chars (λ c, negb (is_space c)) s = true → trimEnd s = s.
Proof.
  induction s as [|c s IH]; simpl; [done|]. intros [Hc Hs]%andb_prop.
  rewrite (IH Hs). destruct s; [|done]. apply negb_true_iff in Hc. by rewrite Hc.
Qed.

Lemma trim_id s : all_chars (λ c, negb (is_space c)) s = true → trim s = s.
Proof.
  intros H. unfold trim. replace (trimStart s) with s; [by apply trimEnd_id|].
  destruct s as [|c s]; simpl in *; [done|]. apply andb_prop in H as [Hc _].
  apply negb_true_iff in Hc. by rewrite Hc.
Qed.

Lemma hex_no_space s : all_chars is_hex s = true → all_chars (λ c, negb (is_space c)) s = true.
Proof. apply all_chars_impl. intros c Hc. by rewrite (hex_not_space c Hc). Qed.
Lemma dec_no_space s : all_chars is_dec s = true → all_chars (λ c, negb (is_space c)) s = true.
Proof. intros H. apply hex_no_space. revert H. apply all_chars_impl, dec_is_hex. Qed.

Lemma trim_idemp s : trim (trim s) = trim s.
Proof.
  unfold trim. set (t := trimStart s).
  assert (Ht : trimStart t = t).
  { subst t. induction s as [|c s IH]; simpl; [done|].
    destruct (is_space c) eqn:Hc; [done|]. simpl. by rewrite Hc. }
  assert (Hs : ∀ u, trimStart u = u → trimStart (trimEnd u) = trimEnd u).
  { intros [|c u] Hu; simpl in *; [done|]. destruct (is_space c) eqn:Hc.
    - exfalso. apply (f_equal String.length) in Hu.
      assert (Hle : ∀ v, (String.length (trimStart v) ≤ String.length v)%nat).
      { clear. induction v as [|x v IH]; simpl; [lia|]. destruct (is_space x); simpl; lia. }
      specialize (Hle u). simpl in Hu. lia.
    - destruct (trimEnd u); simpl; by rewrite Hc. }
  rewrite (Hs _ Ht). clear. induction t as [|c t IH]; simpl; [done|].
  destruct (trimEnd t) as [|c' t'] eqn:E.
  - destruct (is_space c) eqn:Hc; simpl; [done|]. by rewrite Hc.
  - cbn [trimEnd] in *. destruct (trimEnd t') eqn:E'; [|by rewrite IH].
    destruct (is_space c'); [done|]. by rewrite IH.
Qed.

(** Reading back a printed integer. *)
Lemma digits_nonempty_val b s : s ≠ "" → digits_nonempty b s = digits_val b 0 s.
Proof. by destruct s. Qed.

Lemma dec_not_marker c :
  is_dec c = true →
  Ascii.eqb c "x" = false ∧ Ascii.eqb c "X" = false ∧ Ascii.eqb c "o" = false ∧
  Ascii.eqb c "O" = false ∧ Ascii.eqb c "b" = false ∧ Ascii.eqb c "B" = false ∧
  Ascii.eqb c "-" = false ∧ Ascii.eqb c "+" = false.
Proof. by_cases_char c; intros; repeat split; congruence. Qed.

Lemma bigint_of_dec s :
  s ≠ "" → all_chars is_dec s = true → bigint_of_string s = digits_val 10 0 s.
Proof.
  intros Hne Hs. unfold bigint_of_string. rewrite trim_id by by apply dec_no_space.
  destruct s as [|c1 [|c2 s]]; [done| |]; simpl in Hs.
  - apply andb_prop in Hs as [H1 _]. apply dec_not_marker in H1 as (_&_&_&_&_&_&->&->). done.
  - apply andb_prop in Hs as [H1 [H2 _]%andb_prop].
    apply dec_not_marker in H1 as (_&_&_&_&_&_&->&->).
    apply dec_not_marker in H2 as (->&->&->&->&->&->&_&_).
    by rewrite !andb_false_r.
Qed.

Lemma bigint_of_toString n : bigint_of_string (bigint_toString 10 n) = Some n.
Proof.
  unfold bigint_toString. destruct (n <? 0) eqn:Hn.
  - destruct (num_fuel_ok (- n)) as [H1 H2]; [lia|].
    pose proof (toString_dec_digits (- n) ltac:(lia)) as Hd.
    unfold bigint_of_string. rewrite trim_id by (simpl; by apply dec_no_space).
    cbn [Ascii.eqb Bool.eqb]. rewrite digits_nonempty_val by (by apply num_str_nonempty).
    rewrite num_str_val by lia. cbn. f_equal. lia.
  - destruct (num_fuel_ok n) as [H1 H2]; [lia|].
    rewrite bigint_of_dec; [|by apply num_str_nonempty|by apply toString_dec_digits; lia].
    by apply num_str_val; lia.
Qed.

Lemma BigInt_toString n : BigInt (bigint_toString 10 n) = Ok n.
Proof. unfold BigInt. by rewrite bigint_of_toString. Qed.

Lemma bigint_of_0x s :
  s ≠ "" → all_chars is_hex s = true → bigint_of_string ("0x" +:+ s) = digits_val 16 0 s.
Proof.
  intros Hne Hs. unfold bigint_of_string.
  rewrite trim_id by (simpl; by apply hex_no_space). simpl. by apply digits_nonempty_val.
Qed.

(** [padStart] with zeros keeps the value. *)
Lemma padStart0_val b n s : 0 < b → digits_val b 0 (padStart0 n s) = digits_val b 0 s.
Proof.
  intros Hb. unfold padStart0. induction (n - String.length s)%nat as [|k IH]; [done|].
  change (digits_val b 0 (Nat.iter (S k) (String "0"%char) s))
    with (if 0 <? b then digits_val b 0 (Nat.iter k (String "0"%char) s) else None).
  destruct (Z.ltb_spec 0 b); [exact IH|lia].
Qed.
Lemma padStart0_length n s :
  (String.length s ≤ n)%nat → String.length (padStart0 n s) = n.
Proof.
  intros H. unfold padStart0.
  assert (∀ k, String.length (Nat.iter k (String "0"%char) s) = (k + String.length s)%nat) as ->
    by (induction k; simpl; lia). lia.
Qed.
Lemma padStart0_hex n s : all_chars is_hex s = true → all_chars is_hex (padStart0 n s) = true.
Proof. intros H. unfold padStart0. induction (n - String.length s)%nat; simpl; done. Qed.

(** [BigInt] does not distinguish upper- from lower-case digits and prefixes. *)
Lemma is_space_lower c : is_space (lower_char c) = is_space c.
Proof. by_cases_char c; reflexivity. Qed.

Lemma trim_lower s : trim (toLowerCase s) = toLowerCase (trim s).
Proof.
  unfold trim, toLowerCase.
  assert (Hs : ∀ u, trimStart (map_string lower_char u) = map_string lower_char (trimStart u)).
  { induction u as [|c u IH]; simpl; [done|]. rewrite is_space_lower. by destruct (is_space c). }
  rewrite Hs. induction (trimStart s) as [|c u IH]; simpl; [done|].
  rewrite IH. destruct (trimEnd u); simpl; [|done].
  rewrite is_space_lower. by destruct (is_space c).
Qed.

Lemma marker_lower c :
  Ascii.eqb (lower_char c) "-" = Ascii.eqb c "-" ∧ Ascii.eqb (lower_char c) "+" = Ascii.eqb c "+" ∧
  Ascii.eqb (lower_char c) "0" = Ascii.eqb c "0" ∧
  (Ascii.eqb (lower_char c) "x" || Ascii.eqb (lower_char c) "X") = (Ascii.eqb c "x" || Ascii.eqb c "X") ∧
  (Ascii.eqb (lower_char c) "o" || Ascii.eqb (lower_char c) "O") = (Ascii.eqb c "o" || Ascii.eqb c "O") ∧
  (Ascii.eqb (lower_char c) "b" || Ascii.eqb (lower_char c) "B") = (Ascii.eqb c "b" || Ascii.eqb c "B").
Proof. by_cases_char c; repeat split. Qed.

Lemma digits_nonempty_lower b s : digits_nonempty b (toLowerCase s) = digits_nonempty b s.
Proof. destruct s as [|c s]; [done|]. apply (digits_val_lower b 0 (String c s)). Qed.

Lemma bigint_of_lower s : bigint_of_string (toLowerCase s) = bigint_of_string s.
Proof.
  unfold bigint_of_string. rewrite trim_lower.
  destruct (trim s) as [|c1 [|c2 r]]; [done| |]; cbn [toLowerCase map_string].
  - destruct (marker_lower c1) as (-> & -> & _).
    rewrite <-(digits_val_lower 10 0 (String c1 "")). done.
  - fold (toLowerCase r). destruct (marker_lower c1) as (-> & -> & -> & _).
    destruct (marker_lower c2) as (_ & _ & _ & -> & -> & ->).
    rewrite !digits_nonempty_lower.
    rewrite <-(digits_val_lower 10 0 (String c1 (String c2 r))).
    rewrite <-(digits_nonempty_lower 10 (String c2 r)). done.
Qed.

Lemma BigInt_lower s : BigInt (toLowerCase s) = BigInt s.
Proof. unfold BigInt. by rewrite bigint_of_lower. Qed.

(** ** Splitting and joining *)
Lemma split_on_nonempty sep s : split_on sep s ≠ [].
Proof. destruct s as [|c s]; simpl; [done|]. case_match; [done|]. by destruct (split_on sep s). Qed.

Lemma split_on_none sep s :
  all_chars (λ c, negb (Ascii.eqb c sep)) s = true → split_on sep s = [s].
Proof.
  induction s as [|c s IH]; simpl; [done|]. intros [Hc Hs]%andb_prop.
  apply negb_true_iff in Hc. by rewrite Hc, IH.
Qed.

Lemma split_on_app sep a b :
  all_chars (λ c, negb (Ascii.eqb c sep)) b = true →
  split_on sep (a +:+ String sep b) = (split_on sep a ++ [b])%list.
Proof.
  intros Hb. induction a as [|c a IH]; simpl.
  - by rewrite Ascii.eqb_refl, split_on_none.
  - rewrite IH. destruct (Ascii.eqb c sep); [done|].
    destruct (split_on sep a) as [|w ws] eqn:E; [by apply split_on_nonempty in E|done].
Qed.

Lemma split_on_cons sep a b :
  all_chars (λ c, negb (Ascii.eqb c sep)) a = true →
  split_on sep (a +:+ String sep b) = a :: split_on sep b.
Proof.
  induction a as [|c a IH]; simpl; [by rewrite Ascii.eqb_refl|].
  intros [Hc%negb_true_iff Ha]%andb_prop. by rewrite Hc, (IH Ha).
Qed.

Lemma split_on_join sep l :
  l ≠ [] → Forall (λ w, all_chars (λ c, negb (Ascii.eqb c sep)) w = true) l →
  split_on sep (join (String sep EmptyString) l) = l.
Proof.
  intros Hne Hl. induction Hl as [|w l Hw Hl IH]; [done|]. destruct l as [|v l].
  - by apply split_on_none.
  - change (join (String sep EmptyString) (w :: v :: l))
      with (w +:+ String sep (join (String sep EmptyString) (v :: l))).
    by rewrite split_on_cons, IH.
Qed.

Lemma trimEnd_app a b :
  b ≠ EmptyString → all_chars (λ c, negb (is_space c)) b = true → trimEnd (a +:+ b) = a +:+ b.
Proof.
  intros Hb Hs. induction a as [|c a IH]; [by apply trimEnd_id|]. cbn [String.append trimEnd]. rewrite IH.
  destruct (a +:+ b) eqn:E; [|done]. by destruct a; [|done].
Qed.
