(* ===== verification/Bytes.v ===== *)
(** * Byte strings and their wire encodings

    [sdk/src/relayer-protocol/bytes.ts] (module [RelayBytes], shared by the SDK
    and the relayer node through [relayer/src/shared/bytes.ts]) and
    [publisher/src/bytes.ts] (module [Hex32]): hex, base64, fixed-width
    big-endian integers and 32-byte hex field elements. *)
From Stdlib Require Import Ascii.
From Stdlib Require Import Strings.Byte.
From stdpp Require Import base tactics list sets strings.
From Stdlib Require Import ZArith Lia.
From S2P Require Import Prelude JsString.
Open Scope string_scope.
Open Scope list_scope.
Open Scope Z_scope.

(** A [Uint8Array] is a list of bytes; assignment stores the value modulo 256. *)
Abbreviation byte := Init.Byte.byte.

Definition byte_val (b : byte) : Z := Z.of_N (Byte.to_N b).
Definition to_byte (z : Z) : byte :=
  match Byte.of_N (Z.to_N (z mod 256)) with Some b => b | None => x00 end.

Global Instance byte_eq_dec : EqDecision byte := Byte.byte_eq_dec.

Lemma byte_val_range b : 0 <= byte_val b < 256.
Proof. unfold byte_val. pose proof (Byte.to_N_bounded b). lia. Qed.

Lemma byte_val_to_byte z : byte_val (to_byte z) = z mod 256.
Proof.
  unfold byte_val, to_byte. pose proof (Z.mod_pos_bound z 256 ltac:(lia)) as Hz.
  destruct (Byte.of_N (Z.to_N (z mod 256))) as [b|] eqn:E.
  - apply Byte.to_of_N in E. rewrite E. lia.
  - apply Byte.of_N_None_iff in E. lia.
Qed.

Lemma byte_val_inj b1 b2 : byte_val b1 = byte_val b2 → b1 = b2.
Proof.
  unfold byte_val. intros H. apply N2Z.inj in H.
  pose proof (Byte.of_to_N b1). pose proof (Byte.of_to_N b2). congruence.
Qed.

Lemma to_byte_val b : to_byte (byte_val b) = b.
Proof.
  apply byte_val_inj. rewrite byte_val_to_byte.
  apply Z.mod_small, byte_val_range.
Qed.

Lemma to_byte_eq z b : z = byte_val b → to_byte z = b.
Proof. intros ->. apply to_byte_val. Qed.

(** Linear arithmetic with division and remainder by constants. *)
Ltac zdiv := Z.to_euclidean_division_equations; lia.

(** ** Big-endian integers *)

(** The loop [for (i = n-1; i >= 0; i--) { out[i] = v & 0xff; v >>= 8 }]. *)
Fixpoint be_bytes (n : nat) (v : Z) : list byte :=
  match n with
  | O => []
  | S n' => be_bytes n' (Z.shiftr v 8) ++ [to_byte (Z.land v 255)]
  end.

Fixpoint be_val (acc : Z) (l : list byte) : Z :=
  match l with
  | [] => acc
  | b :: l' => be_val (acc * 256 + byte_val b) l'
  end.

Lemma be_val_app acc l1 l2 : be_val acc (l1 ++ l2) = be_val (be_val acc l1) l2.
Proof. revert acc. induction l1 as [|b l1 IH]; intros acc; simpl; [done|]. apply IH. Qed.

Lemma be_bytes_length n v : length (be_bytes n v) = n.
Proof. revert v. induction n as [|n IH]; intros v; simpl; [done|]. rewrite length_app, IH. simpl. lia. Qed.

Lemma be_val_be_bytes n v : be_val 0 (be_bytes n v) = v mod 2 ^ (8 * Z.of_nat n).
Proof.
  revert v. induction n as [|n IH]; intros v.
  { simpl. by rewrite Z.mod_1_r. }
  cbn [be_bytes]. rewrite be_val_app, IH. cbn [be_val].
  change 255 with (Z.ones 8). rewrite Z.land_ones, byte_val_to_byte by lia.
  change (2 ^ 8) with 256. rewrite Z.mod_mod by lia.
  rewrite Z.shiftr_div_pow2 by lia. change (2 ^ 8) with 256.
  replace (8 * Z.of_nat (S n)) with (8 + 8 * Z.of_nat n) by lia.
  rewrite Z.pow_add_r by lia. change (2 ^ 8) with 256.
  rewrite Z.rem_mul_r by lia. lia.
Qed.

Lemma be_bytes_inj n v w :
  be_bytes n v = be_bytes n w → v mod 2 ^ (8 * Z.of_nat n) = w mod 2 ^ (8 * Z.of_nat n).
Proof. intros H. by rewrite <-!be_val_be_bytes, H. Qed.

Lemma be_bytes_be_val l : be_bytes (length l) (be_val 0 l) = l.
Proof.
  induction l as [|b l IH] using rev_ind; [done|]. rewrite length_app, Nat.add_comm, be_val_app. cbn [length Nat.add be_bytes be_val].
  pose proof (byte_val_range b) as Hb.
  rewrite Z.shiftr_div_pow2 by lia. change 255 with (Z.ones 8). rewrite Z.land_ones by lia. change (2 ^ 8) with 256.
  replace ((be_val 0 l * 256 + byte_val b) / 256) with (be_val 0 l) by zdiv. rewrite IH. do 2 f_equal.
  apply to_byte_eq. zdiv.
Qed.

Global Arguments be_bytes : simpl never.

(** ** Hex digits of a byte *)
Definition byte_hex (b : byte) : string :=
  String (digit_char (byte_val b / 16)) (String (digit_char (byte_val b mod 16)) EmptyString).

Fixpoint hex_of_bytes (l : list byte) : string :=
  match l with
  | [] => EmptyString
  | b :: l' => byte_hex b +:+ hex_of_bytes l'
  end.

(** [Number.parseInt(clean.slice(2i, 2i+2), 16)] over a string of hex digits. *)
Fixpoint bytes_of_hex (s : string) : option (list byte) :=
  match s with
  | EmptyString => Some []
  | String h (String l s') =>
      match digit_val h, digit_val l with
      | Some dh, Some dl => (λ r, to_byte (dh * 16 + dl) :: r) <$> bytes_of_hex s'
      | _, _ => None
      end
  | String _ EmptyString => None
  end.

Lemma bytes_of_hex_of_bytes l : bytes_of_hex (hex_of_bytes l) = Some l.
Proof.
  induction l as [|b l IH]; [done|].
  cbn [hex_of_bytes]. unfold byte_hex. cbn [String.append bytes_of_hex].
  pose proof (byte_val_range b). pose proof (Z.div_mod (byte_val b) 16).
  pose proof (Z.mod_pos_bound (byte_val b) 16).
  assert (0 <= byte_val b / 16 < 16) by (split; [apply Z.div_pos|apply Z.div_lt_upper_bound]; lia).
  rewrite !digit_val_char by lia. rewrite IH. cbn. f_equal. f_equal.
  apply to_byte_eq. lia.
Qed.

Lemma hex_of_bytes_length l : String.length (hex_of_bytes l) = (2 * length l)%nat.
Proof. induction l as [|b l IH]; simpl; [done|]. rewrite IH. lia. Qed.

Lemma hex_of_bytes_hex l : all_chars is_hex (hex_of_bytes l) = true.
Proof.
  induction l as [|b l IH]; simpl; [done|].
  pose proof (byte_val_range b).
  rewrite !digit_char_hex; [done|apply Z.mod_pos_bound; lia|].
  split; [apply Z.div_pos|apply Z.div_lt_upper_bound]; lia.
Qed.

Lemma hex_of_bytes_inj l1 l2 : hex_of_bytes l1 = hex_of_bytes l2 → l1 = l2.
Proof.
  intros H. apply (f_equal bytes_of_hex) in H. rewrite !bytes_of_hex_of_bytes in H. congruence.
Qed.

Lemma bytes_of_hex_length s l :
  bytes_of_hex s = Some l → String.length s = (2 * length l)%nat.
Proof.
  revert l. induction s as [s IH] using (induction_ltof1 _ String.length); unfold ltof in IH.
  intros l Hl. destruct s as [|c1 [|c2 s]]; simpl in Hl; [by simplify_eq|done|].
  destruct (digit_val c1), (digit_val c2); try done.
  destruct (bytes_of_hex s) as [r|] eqn:Hr; simpl in Hl; [|done]. simplify_eq.
  apply IH in Hr; simpl in *; lia.
Qed.

Lemma bytes_of_hex_total s :
  all_chars is_hex s = true → Nat.even (String.length s) = true → ∃ l, bytes_of_hex s = Some l.
Proof.
  induction s as [s IH] using (induction_ltof1 _ String.length); unfold ltof in IH.
  destruct s as [|c1 [|c2 s]]; simpl; [eauto|done|].
  intros [H1 [H2 Hs]%andb_prop]%andb_prop Hev.
  destruct (IH s) as [l Hl]; simpl; [lia|done|done|].
  unfold is_hex in *. destruct (digit_val c1), (digit_val c2); try done. rewrite Hl. eauto.
Qed.

(** Lower-casing hex digits does not change the bytes they denote. *)
Lemma bytes_of_hex_lower s : bytes_of_hex (toLowerCase s) = bytes_of_hex s.
Proof.
  induction s as [s IH] using (induction_ltof1 _ String.length); unfold ltof in IH.
  destruct s as [|c1 [|c2 s]]; [done|done|]. cbn [toLowerCase map_string bytes_of_hex].
  fold (toLowerCase s). rewrite !digit_val_lower. rewrite (IH s) by (simpl; lia). done.
Qed.

(** ** [sdk/src/relayer-protocol/bytes.ts] *)
Module RelayBytes.

Definition hexToBytes (hex : string) : res (list byte) :=
  let clean := strip0x hex in
  if negb (all_chars is_hex clean) || negb (Nat.even (String.length clean))
  then Err (JsError "Invalid hex string.")
  else ok_or (bytes_of_hex clean) (JsError "Invalid hex string.").

Definition bytesToHex (bytes : list byte) : string := "0x" +:+ hex_of_bytes bytes.

(** Base64 as [atob]/[btoa] implement it. *)
Definition b64_char (v : Z) : Ascii.ascii :=
  if v <? 26 then char (65 + v)
  else if v <? 52 then char (71 + v)
  else if v <? 62 then char (v - 4)
  else if v =? 62 then "+"%char else "/"%char.

Definition b64_val (c : Ascii.ascii) : option Z :=
  let n := code c in
  if (65 <=? n) && (n <=? 90) then Some (n - 65)
  else if (97 <=? n) && (n <=? 122) then Some (n - 71)
  else if (48 <=? n) && (n <=? 57) then Some (n + 4)
  else if n =? 43 then Some 62
  else if n =? 47 then Some 63
  else None.

Fixpoint bytesToBase64 (l : list byte) : string :=
  match l with
  | [] => ""
  | [a] =>
      let x := byte_val a in
      String (b64_char (x / 4)) (String (b64_char (x mod 4 * 16)) "==")
  | [a; b] =>
      let x := byte_val a in let y := byte_val b in
      String (b64_char (x / 4)) (String (b64_char (x mod 4 * 16 + y / 16))
        (String (b64_char (y mod 16 * 4)) "="))
  | a :: b :: c :: l' =>
      let x := byte_val a in let y := byte_val b in let z := byte_val c in
      String (b64_char (x / 4)) (String (b64_char (x mod 4 * 16 + y / 16))
        (String (b64_char (y mod 16 * 4 + z / 64)) (String (b64_char (z mod 64))
          (bytesToBase64 l'))))
  end.

(** Decoding after padding has been removed. *)
Fixpoint b64_decode (s : string) : option (list byte) :=
  match s with
  | EmptyString => Some []
  | String a (String b EmptyString) =>
      x ← b64_val a; y ← b64_val b; Some [to_byte (x * 4 + y / 16)]
  | String a (String b (String c EmptyString)) =>
      x ← b64_val a; y ← b64_val b; z ← b64_val c;
      Some [to_byte (x * 4 + y / 16); to_byte (y mod 16 * 16 + z / 4)]
  | String a (String b (String c (String d s'))) =>
      x ← b64_val a; y ← b64_val b; z ← b64_val c; w ← b64_val d;
      r ← b64_decode s';
      Some (to_byte (x * 4 + y / 16) :: to_byte (y mod 16 * 16 + z / 4)
            :: to_byte (z mod 4 * 64 + w) :: r)
  | String _ EmptyString => None
  end.

Fixpoint drop_spaces (s : string) : string :=
  match s with
  | EmptyString => EmptyString
  | String c s' => if is_space c then drop_spaces s' else String c (drop_spaces s')
  end.

(** Remove one or two trailing padding characters of a string whose length
    is a multiple of four. *)
Fixpoint strip_pad (s : string) : string :=
  match s with
  | EmptyString => EmptyString
  | "=" | "==" => EmptyString
  | String c s' => String c (strip_pad s')
  end.

Definition base64ToBytes (value : string) : res (list byte) :=
  let t := drop_spaces value in
  let u := if (String.length t mod 4 =? 0)%nat then strip_pad t else t in
  ok_or (b64_decode u) (JsError "The string to be decoded is not correctly encoded.").

Definition concatBytes (chunks : list (list byte)) : list byte := concat chunks.

Definition assertLength (bytes : list byte) (len : nat) (label : string) : res (list byte) :=
  if decide (length bytes = len) then Ok bytes
  else Err (JsError (label +:+ " must be " +:+ bigint_toString 10 (Z.of_nat len)
                     +:+ " bytes, got " +:+ bigint_toString 10 (Z.of_nat (length bytes)) +:+ ".")).

Definition i128ToBytes (value : Z) : res (list byte) :=
  let min := - Z.shiftl 1 127 in
  let max := Z.shiftl 1 127 - 1 in
  if (value <? min) || (max <? value) then Err (JsError "i128 out of range.")
  else
    let unsigned := if value <? 0 then Z.shiftl 1 128 + value else value in
    Ok (be_bytes 16 unsigned).

Definition u32ToBytes (value : Z) : res (list byte) :=
  if (value <? 0) || (4294967295 <? value) then Err (JsError "u32 out of range.")
  else Ok (be_bytes 4 value).

(** *** Properties *)
Lemma hexToBytes_bytesToHex l : hexToBytes (bytesToHex l) = Ok l.
Proof.
  unfold hexToBytes, bytesToHex. rewrite strip0x_0x, hex_of_bytes_hex, hex_of_bytes_length.
  replace (Nat.even (2 * length l)) with true by (by rewrite Nat.even_mul).
  simpl. by rewrite bytes_of_hex_of_bytes.
Qed.

Lemma hexToBytes_ok s l :
  hexToBytes s = Ok l ↔ bytes_of_hex (strip0x s) = Some l ∧ all_chars is_hex (strip0x s) = true.
Proof.
  unfold hexToBytes. destruct (all_chars is_hex (strip0x s)) eqn:Hh; simpl; [|naive_solver].
  destruct (Nat.even (String.length (strip0x s))) eqn:He; simpl.
  - destruct (bytes_of_hex _); simpl; naive_solver.
  - split; [done|]. intros [H%bytes_of_hex_length _].
    rewrite H, Nat.even_mul in He. done.
Qed.

Lemma assertLength_ok bytes len label b :
  assertLength bytes len label = Ok b ↔ b = bytes ∧ length bytes = len.
Proof. unfold assertLength. case_decide; naive_solver. Qed.

Lemma i128ToBytes_ok v :
  - 2 ^ 127 <= v < 2 ^ 127 → i128ToBytes v = Ok (be_bytes 16 (v mod 2 ^ 128)).
Proof.
  intros Hv. unfold i128ToBytes. rewrite !Z.shiftl_1_l.
  replace (v <? - 2 ^ 127) with false by (symmetry; lia).
  replace (2 ^ 127 - 1 <? v) with false by (symmetry; lia). cbn [orb]. do 2 f_equal.
  destruct (Z.ltb_spec v 0).
  - apply Z.mod_unique with (-1); lia.
  - symmetry. apply Z.mod_small. lia.
Qed.

Lemma i128ToBytes_err v :
  (v < - 2 ^ 127 ∨ 2 ^ 127 <= v) → i128ToBytes v = Err (JsError "i128 out of range.").
Proof.
  intros Hv. unfold i128ToBytes. rewrite !Z.shiftl_1_l.
  destruct (Z.ltb_spec v (- 2 ^ 127)); [done|].
  destruct (Z.ltb_spec (2 ^ 127 - 1) v); [done|lia].
Qed.

Lemma i128ToBytes_inv v l :
  i128ToBytes v = Ok l → - 2 ^ 127 <= v < 2 ^ 127 ∧ l = be_bytes 16 (v mod 2 ^ 128).
Proof.
  intros H. destruct (decide (- 2 ^ 127 <= v < 2 ^ 127)) as [Hv|Hv].
  - rewrite i128ToBytes_ok in H by done. naive_solver.
  - rewrite i128ToBytes_err in H by lia. done.
Qed.

Lemma i128ToBytes_length v l : i128ToBytes v = Ok l → length l = 16%nat.
Proof. intros [_ ->]%i128ToBytes_inv. apply be_bytes_length. Qed.

(** The registry contract reads the 16 bytes back as a two's-complement i128. *)
Definition i128_of_bytes (l : list byte) : Z :=
  let u := be_val 0 l in if u <? 2 ^ 127 then u else u - 2 ^ 128.

Lemma i128_roundtrip v l : i128ToBytes v = Ok l → i128_of_bytes l = v.
Proof.
  intros [Hv ->]%i128ToBytes_inv. unfold i128_of_bytes.
  rewrite be_val_be_bytes. change (8 * Z.of_nat 16) with 128. rewrite Z.mod_mod by lia.
  destruct (decide (0 <= v)).
  - rewrite Z.mod_small by lia. destruct (Z.ltb_spec v (2 ^ 127)); lia.
  - replace (v mod 2 ^ 128) with (v + 2 ^ 128) by (apply Z.mod_unique with (-1); lia).
    destruct (Z.ltb_spec (v + 2 ^ 128) (2 ^ 127)); lia.
Qed.

Lemma b64_val_char v : 0 <= v < 64 → b64_val (b64_char v) = Some v.
Proof.
  intros Hv.
  assert (∃ n : nat, v = Z.of_nat n ∧ (n < 64)%nat) as (n & -> & Hn)
    by (exists (Z.to_nat v); lia).
  do 64 (destruct n as [|n]; [reflexivity|]). lia.
Qed.

Lemma b64_val_plain c v : b64_val c = Some v → is_space c = false ∧ c ≠ "="%char.
Proof. by_cases_char c; intros; split; congruence. Qed.

Lemma strip_pad_cons c s : c ≠ "="%char → strip_pad (String c s) = String c (strip_pad s).
Proof.
  intros Hc. destruct (Ascii.ascii_dec c "="%char); [done|].
  destruct c as [[] [] [] [] [] [] [] []]; try reflexivity. done.
Qed.

Lemma b64_char_plain v :
  0 <= v < 64 → is_space (b64_char v) = false ∧ b64_char v ≠ "="%char.
Proof. intros Hv. eapply b64_val_plain, b64_val_char, Hv. Qed.

(** What [base64ToBytes] does with an encoding, by groups of three bytes. *)
Lemma base64_encoded l :
  drop_spaces (bytesToBase64 l) = bytesToBase64 l ∧
  (String.length (bytesToBase64 l) mod 4 = 0)%nat ∧
  b64_decode (strip_pad (bytesToBase64 l)) = Some l.
Proof.
  induction l as [l IH] using (induction_ltof1 _ length); unfold ltof in IH.
  assert (Hdiv : ∀ b k, 0 < k → 0 <= byte_val b / k).
  { intros b k Hk. apply Z.div_pos; [apply byte_val_range|done]. }
  assert (Hpl : ∀ v, 0 <= v < 64 → is_space (b64_char v) = false) by apply b64_char_plain.
  assert (Hne : ∀ v, 0 <= v < 64 → b64_char v ≠ "="%char) by apply b64_char_plain.
  destruct l as [|a [|b [|c l]]]; [done| | |].
  - pose proof (byte_val_range a). 
    cbn [bytesToBase64 drop_spaces]. rewrite !Hpl by zdiv.
    split_and!; [done|done|]. rewrite !strip_pad_cons by (apply Hne; zdiv).
    cbn. rewrite !b64_val_char by zdiv. cbn. do 2 f_equal.
    apply to_byte_eq. zdiv.
  - pose proof (byte_val_range a). pose proof (byte_val_range b).
    
    cbn [bytesToBase64 drop_spaces]. rewrite !Hpl by zdiv.
    split_and!; [done|done|]. rewrite !strip_pad_cons by (apply Hne; zdiv).
    cbn. rewrite !b64_val_char by zdiv. cbn. do 2 f_equal; [|f_equal].
    + apply to_byte_eq. zdiv.
    + apply to_byte_eq. zdiv.
  - destruct (IH l) as (IH1 & IH2 & IH3); [simpl; lia|].
    pose proof (byte_val_range a). pose proof (byte_val_range b). pose proof (byte_val_range c).
    
    cbn [bytesToBase64 drop_spaces]. rewrite !Hpl by zdiv. rewrite IH1.
    split_and!; [done| |].
    + cbn [String.length]. change (S (S (S (S ?n)))) with (1 * 4 + n)%nat.
      rewrite Nat.add_comm, Nat.Div0.mod_add. exact IH2.
    + rewrite !strip_pad_cons by (apply Hne; zdiv).
      cbn [b64_decode]. rewrite !b64_val_char by zdiv. cbn. rewrite IH3. cbn.
      do 2 f_equal; [|f_equal; [|f_equal]].
      * apply to_byte_eq. zdiv.
      * apply to_byte_eq. zdiv.
      * apply to_byte_eq. zdiv.
Qed.

Lemma base64ToBytes_bytesToBase64 l : base64ToBytes (bytesToBase64 l) = Ok l.
Proof.
  unfold base64ToBytes. destruct (base64_encoded l) as (-> & -> & H). simpl. by rewrite H.
Qed.
End RelayBytes.

(** ** [publisher/src/bytes.ts] *)
Module Hex32.
Import RelayBytes.

(** The class [[0-9a-f]]. *)
Definition is_lhex (c : Ascii.ascii) : bool :=
  let n := code c in ((48 <=? n) && (n <=? 57)) || ((97 <=? n) && (n <=? 102)).

Definition normalizeHex32 (value label : string) : res string :=
  let clean := strip0x (toLowerCase (trim value)) in
  if all_chars is_lhex clean && (String.length clean =? 64)%nat
  then Ok ("0x" +:+ clean)
  else Err (JsError (label +:+ " must be a 32-byte hex string")).

Definition bigintToHex32 (value : Z) : res string :=
  if value <? 0 then Err (JsError "value must be non-negative")
  else if Z.shiftl 1 256 - 1 <? value then Err (JsError "value must fit in 32 bytes")
  else Ok ("0x" +:+ padStart0 64 (bigint_toString 16 value)).

(** [Buffer.from(hex, "hex")] of a string of hex digits. *)
Definition hex32ToBytes (value : string) : res (list byte) :=
  n ← normalizeHex32 value "value";
  ok_or (bytes_of_hex (drop_string 2 n)) (JsError "value must be a 32-byte hex string").

Definition bytesToHex32 (bytes : list byte) : res string :=
  if decide (length bytes = 32%nat) then Ok ("0x" +:+ hex_of_bytes bytes)
  else Err (JsError "expected 32 bytes").

Definition parseLeafValue (value : string) : res string :=
  let trimmed := trim value in
  if startsWith "0x" trimmed
     || (all_chars is_hex trimmed && (String.length trimmed =? 64)%nat)
  then normalizeHex32 trimmed "leaf"
  else v ← BigInt trimmed; bigintToHex32 v.

(** *** Canonical 32-byte hex strings *)
Definition hex32 (s : string) : Prop :=
  ∃ h, s = "0x" +:+ h ∧ String.length h = 64%nat ∧ all_chars is_lhex h = true.

Lemma is_lhex_hex c : is_lhex c = true → is_hex c = true.
Proof. by_cases_char c; congruence. Qed.
Lemma lower_lhex c : is_lhex c = true → lower_char c = c.
Proof. by_cases_char c; congruence. Qed.
Lemma digit_char_lhex d : 0 <= d < 16 → is_lhex (digit_char d) = true.
Proof.
  intros Hd.
  assert (∃ n : nat, d = Z.of_nat n ∧ (n < 16)%nat) as (n & -> & Hn)
    by (exists (Z.to_nat d); lia).
  do 16 (destruct n as [|n]; [reflexivity|]). lia.
Qed.

Lemma toLowerCase_lhex s : all_chars is_lhex s = true → toLowerCase s = s.
Proof.
  unfold toLowerCase. induction s as [|c s IH]; simpl; [done|].
  intros [Hc Hs]%andb_prop. by rewrite (lower_lhex c Hc), (IH Hs).
Qed.
Lemma lhex_hex s : all_chars is_lhex s = true → all_chars is_hex s = true.
Proof. apply all_chars_impl, is_lhex_hex. Qed.
Lemma hex_of_bytes_lhex l : all_chars is_lhex (hex_of_bytes l) = true.
Proof.
  induction l as [|b l IH]; simpl; [done|]. pose proof (byte_val_range b).
  rewrite !digit_char_lhex by zdiv. done.
Qed.

Lemma normalizeHex32_ok v label s : normalizeHex32 v label = Ok s → hex32 s.
Proof.
  unfold normalizeHex32. destruct (all_chars is_lhex _) eqn:Hh; [|done].
  destruct (Nat.eqb_spec (String.length (strip0x (toLowerCase (trim v)))) 64); [|done].
  simpl. intros [= <-]. eexists. split_and!; [reflexivity|done|done].
Qed.

Lemma hex32_lower s : hex32 s → toLowerCase s = s.
Proof.
  intros (h & -> & _ & Hh). rewrite toLowerCase_app, (toLowerCase_lhex h Hh). done.
Qed.

Lemma normalizeHex32_id s label : hex32 s → normalizeHex32 s label = Ok s.
Proof.
  intros (h & -> & Hl & Hh). unfold normalizeHex32.
  rewrite trim_id by (simpl; by apply hex_no_space, lhex_hex).
  rewrite toLowerCase_app, (toLowerCase_lhex h Hh).
  change (toLowerCase "0x") with "0x". rewrite strip0x_0x, Hh, Hl. done.
Qed.

Lemma hex32_bytes s : hex32 s → ∃ l, hex32ToBytes s = Ok l ∧ length l = 32%nat ∧
  s = "0x" +:+ hex_of_bytes l.
Proof.
  intros Hs. unfold hex32ToBytes. rewrite normalizeHex32_id by done.
  destruct Hs as (h & -> & Hl & Hh). simpl.
  destruct (bytes_of_hex_total h) as [l E]; [by apply lhex_hex|by rewrite Hl|].
  rewrite E. exists l. split; [done|]. apply bytes_of_hex_length in E as Hlen.
  split; [lia|]. simpl. do 2 f_equal. clear Hl Hlen.
  revert l E Hh. induction h as [h IH] using (induction_ltof1 _ String.length); unfold ltof in IH.
  destruct h as [|c1 [|c2 h]]; simpl; intros l E Hh; [by simplify_eq|done|].
  destruct (digit_val c1) as [d1|] eqn:D1; [|done].
  destruct (digit_val c2) as [d2|] eqn:D2; [|done].
  destruct (bytes_of_hex h) as [r|] eqn:Er; simpl in E; [|done]. simplify_eq.
  apply andb_prop in Hh as [H1 [H2 Hh]%andb_prop].
  assert (Hdig : ∀ c d, digit_val c = Some d → is_lhex c = true → c = digit_char d).
  { clear. intros c d. unfold digit_val, is_lhex, digit_char. intros H Hl.
    apply code_inj. pose proof (code_range c).
    repeat case_match; simplify_eq; rewrite code_char by lia; lia. }
  apply digit_val_range in D1 as R1. apply digit_val_range in D2 as R2.
  simpl. rewrite (IH h) with (l := r) by (simpl; lia || done).
  rewrite (Hdig _ _ D1 H1), (Hdig _ _ D2 H2).
  rewrite byte_val_to_byte. rewrite (Z.mod_small (d1 * 16 + d2)) by lia.
  replace ((d1 * 16 + d2) / 16) with d1 by zdiv.
  by replace ((d1 * 16 + d2) mod 16) with d2 by zdiv.
Qed.

Lemma hex32ToBytes_inj s1 s2 :
  hex32 s1 → hex32 s2 → hex32ToBytes s1 = hex32ToBytes s2 → s1 = s2.
Proof.
  intros H1 H2 Heq. destruct (hex32_bytes s1 H1) as (l1 & E1 & _ & ->).
  destruct (hex32_bytes s2 H2) as (l2 & E2 & _ & ->). congruence.
Qed.

(** [BigInt] of a canonical hex string, and back. *)
Lemma hex32_BigInt s : hex32 s → ∃ v, BigInt s = Ok v ∧ 0 <= v < 2 ^ 256.
Proof.
  intros (h & -> & Hl & Hh). unfold BigInt.
  rewrite bigint_of_0x; [|by intros ->|by apply lhex_hex].
  destruct (digits_val_hex 0 h) as [v Hv]; [by apply lhex_hex|].
  rewrite Hv. exists v. split; [done|].
  apply digits_val_bound in Hv; [|lia..]. unfold slen in Hv. rewrite Hl in Hv.
  change (16 ^ Z.of_nat 64) with (2 ^ 256) in Hv. lia.
Qed.

Lemma bigintToHex32_ok v :
  0 <= v < 2 ^ 256 → ∃ s, bigintToHex32 v = Ok s ∧ hex32 s ∧ BigInt s = Ok v.
Proof.
  intros Hv. unfold bigintToHex32. rewrite Z.shiftl_1_l.
  destruct (Z.ltb_spec v 0); [lia|]. destruct (Z.ltb_spec (2 ^ 256 - 1) v); [lia|].
  unfold bigint_toString. destruct (Z.ltb_spec v 0); [lia|].
  set (t := num_str 16 (num_fuel v) v).
  assert (Ht : all_chars is_lhex t = true)
    by (apply num_str_digits; [lia|exact digit_char_lhex|lia]).
  assert (Hlen : (String.length t ≤ 64)%nat).
  { apply num_str_length; [lia| |lia]. change (16 ^ Z.of_nat 64) with (2 ^ 256). lia. }
  eexists. split; [done|].
  assert (Hp : all_chars is_lhex (padStart0 64 t) = true).
  { unfold padStart0. clear -Ht. induction (64 - String.length t)%nat; simpl; done. }
  split; [exists (padStart0 64 t); split_and!; [done|by apply padStart0_length|done]|].
  unfold BigInt. rewrite bigint_of_0x; [| |by apply lhex_hex].
  - rewrite padStart0_val by lia. destruct (num_fuel_ok v) as [? ?]; [lia|].
    subst t. rewrite num_str_val by lia. done.
  - intros E. apply (f_equal String.length) in E. rewrite padStart0_length in E by lia. done.
Qed.

Lemma bigintToHex32_inj v1 v2 s :
  bigintToHex32 v1 = Ok s → bigintToHex32 v2 = Ok s → v1 = v2.
Proof.
  assert (Hr : ∀ v, bigintToHex32 v = Ok s → 0 <= v < 2 ^ 256).
  { intros v. unfold bigintToHex32. rewrite Z.shiftl_1_l.
    destruct (Z.ltb_spec v 0); [done|]. destruct (Z.ltb_spec (2 ^ 256 - 1) v); [done|]. lia. }
  intros H1 H2. destruct (bigintToHex32_ok v1) as (s1 & E1 & _ & B1); [by apply Hr|].
  destruct (bigintToHex32_ok v2) as (s2 & E2 & _ & B2); [by apply Hr|]. congruence.
Qed.
End Hex32.
