(* ===== verification/Merkle.v ===== *)
(** * Poseidon Merkle trees

    [publisher/src/merkle.ts] and [asp/src/merkle.ts] carry the same depth-20
    tree class, with zero-subtree hashes computed once so that the part of the
    tree to the right of the last leaf is never walked.  The hash
    ([circomlibjs]'s Poseidon) is outside the repository: it is the parameter
    [poseidon].  The tree is proved equal to a reference definition that hashes
    all [2^depth] leaves, the inclusion paths are proved correct and, for a
    collision-free hash, binding. *)
From Stdlib Require Import Ascii.
From stdpp Require Import base tactics list sets strings countable.
From Stdlib Require Import ZArith Lia.
From S2P Require Import Prelude JsString Bytes.
Open Scope string_scope.
Open Scope list_scope.
Open Scope Z_scope.

Section merkle.
(** [poseidon.F.toObject(poseidon(inputs))] *)
Context (poseidon : list Z → Z).

Definition TREE_DEPTH : nat := 20.

Definition hashFields (inputs : list Z) : Z := poseidon inputs.

Record MerkleTree : Type := mkTree {
  mt_depth : nat;
  mt_zero : list Z;
  mt_leaves : list Z;
}.

(** The constructor's loop [for (i = 0; i < depth; i++) zero.push(...)]. *)
Fixpoint push_zeros (n : nat) (i : nat) (zero : list Z) : list Z :=
  match n with
  | O => zero
  | S n' =>
      push_zeros n' (S i) (zero ++ [hashFields [nth i zero 0; nth i zero 0]])
  end.

Definition newTree (depth : nat) : MerkleTree :=
  mkTree depth (push_zeros depth 0 [0]) [].

Definition treeLen (t : MerkleTree) : Z := Z.of_nat (length (mt_leaves t)).

Definition insert_leaf (t : MerkleTree) (leaf : Z) : res (MerkleTree * Z) :=
  if Z.shiftl 1 (Z.of_nat (mt_depth t)) <=? treeLen t
  then Err (JsError "reputation tree is full")
  else
    let t' := mkTree (mt_depth t) (mt_zero t) (mt_leaves t ++ [leaf]) in
    Ok (t', treeLen t' - 1).

Fixpoint rootFrom (t : MerkleTree) (start : Z) (level : nat) : Z :=
  if treeLen t <=? start then nth level (mt_zero t) 0
  else
    match level with
    | O => nth (Z.to_nat start) (mt_leaves t) 0
    | S level' =>
        let half := Z.shiftl 1 (Z.of_nat level') in
        let left := rootFrom t start level' in
        let right := rootFrom t (start + half) level' in
        hashFields [left; right]
    end.

Definition root (t : MerkleTree) : Z := rootFrom t 0 (mt_depth t).

Definition rootHex (t : MerkleTree) : res string := Hex32.bigintToHex32 (root t).

Definition node (t : MerkleTree) (index : Z) (level : nat) : Z :=
  rootFrom t (index * Z.shiftl 1 (Z.of_nat level)) level.

(** The loop of [proof]: siblings and direction bits, bottom up. *)
Fixpoint proofPath (t : MerkleTree) (n level : nat) (cur : Z) : list (Z * Z) :=
  match n with
  | O => []
  | S n' =>
      (node t (Z.lxor cur 1) level, Z.land cur 1)
        :: proofPath t n' (S level) (Z.shiftr cur 1)
  end.

Record TreeProof : Type := mkProof {
  pf_root : string;
  pf_pathElements : list string;
  pf_pathIndices : list Z;
}.

Definition proof (t : MerkleTree) (index : Z) : res TreeProof :=
  if (index <? 0) || (treeLen t <=? index)
  then Err (JsError ("leaf index " +:+ bigint_toString 10 index +:+ " out of bounds"))
  else
    let path := proofPath t (mt_depth t) 0 index in
    pathElements ← mapM_res Hex32.bigintToHex32 path.*1;
    r ← rootHex t;
    Ok (mkProof r pathElements path.*2).

(** Insert the parsed leaves one after the other. *)
Fixpoint insert_all (t : MerkleTree) (leaves : list string) : res MerkleTree :=
  match leaves with
  | [] => Ok t
  | leaf :: leaves' =>
      v ← BigInt leaf;
      r ← insert_leaf t v;
      insert_all r.1 leaves'
  end.

Definition buildRoot (leaves : list string) : res string :=
  t ← insert_all (newTree TREE_DEPTH) leaves;
  rootHex t.

(** The loop of [buildProof]: insert while remembering the first match. *)
Fixpoint buildProof_loop (target : string) (idx : Z) (leaves : list string)
    (t : MerkleTree) (leafIndex : Z) : res (MerkleTree * Z) :=
  match leaves with
  | [] => Ok (t, leafIndex)
  | value :: leaves' =>
      let normalized := toLowerCase value in
      v ← BigInt normalized;
      r ← insert_leaf t v;
      let leafIndex' :=
        if String.eqb normalized target && (leafIndex =? -1) then idx else leafIndex in
      buildProof_loop target (idx + 1) leaves' r.1 leafIndex'
  end.

Definition buildProof (leaves : list string) (leaf : string) : res (Z * TreeProof) :=
  r ← buildProof_loop (toLowerCase leaf) 0 leaves (newTree TREE_DEPTH) (-1);
  let '(tree, leafIndex) := r in
  if leafIndex =? -1 then Err (JsError "leaf not found")
  else p ← proof tree leafIndex; Ok (leafIndex, p).

(** ** Reference tree: hash every position of the padded leaf sequence *)
Definition padded (leaves : list Z) (i : Z) : Z :=
  if i <? 0 then 0 else nth (Z.to_nat i) leaves 0.

Fixpoint refRoot (f : Z → Z) (start : Z) (level : nat) : Z :=
  match level with
  | O => f start
  | S l => poseidon [refRoot f start l; refRoot f (start + 2 ^ Z.of_nat l) l]
  end.

Fixpoint zeroAt (level : nat) : Z :=
  match level with
  | O => 0
  | S l => poseidon [zeroAt l; zeroAt l]
  end.

(** The representation invariant: the zero table is the one the constructor
    builds, and the leaves fit. *)
Definition wf_tree (t : MerkleTree) : Prop :=
  (∀ l, (l ≤ mt_depth t)%nat → nth l (mt_zero t) 0 = zeroAt l) ∧
  treeLen t <= 2 ^ Z.of_nat (mt_depth t).

Lemma push_zeros_ok n i zero l :
  length zero = S i → (∀ k, (k ≤ i)%nat → nth k zero 0 = zeroAt k) →
  (l ≤ i + n)%nat → nth l (push_zeros n i zero) 0 = zeroAt l.
Proof.
  revert i zero. induction n as [|n IH]; intros i zero Hlen Hz Hl; simpl.
  { apply Hz. lia. }
  apply IH; [rewrite length_app; simpl; lia| |lia].
  intros k Hk. destruct (decide (k ≤ i)%nat).
  - rewrite app_nth1 by lia. by apply Hz.
  - assert (k = S i) as -> by lia. rewrite app_nth2 by lia.
    rewrite Hlen, Nat.sub_diag. simpl. rewrite Hz by lia. done.
Qed.

Lemma wf_newTree depth : wf_tree (newTree depth).
Proof.
  split; simpl.
  - intros l Hl. apply push_zeros_ok; [done| |lia].
    intros k Hk. assert (k = 0%nat) as -> by lia. done.
  - unfold treeLen. simpl. apply Z.pow_nonneg. lia.
Qed.

Lemma insert_leaf_ok t v t' i :
  insert_leaf t v = Ok (t', i) →
  mt_depth t' = mt_depth t ∧ mt_zero t' = mt_zero t ∧
  mt_leaves t' = mt_leaves t ++ [v] ∧ i = treeLen t ∧
  treeLen t < 2 ^ Z.of_nat (mt_depth t).
Proof.
  unfold insert_leaf. rewrite Z.shiftl_1_l.
  destruct (Z.leb_spec (2 ^ Z.of_nat (mt_depth t)) (treeLen t)); [done|].
  intros. simplify_eq. simpl. split_and!; try done.
  unfold treeLen. simpl. rewrite length_app. simpl. lia.
Qed.

Lemma wf_insert t v t' i : wf_tree t → insert_leaf t v = Ok (t', i) → wf_tree t'.
Proof.
  intros [Hz Hl] (Hd & Hzz & Hlv & _ & Hlt)%insert_leaf_ok.
  split; [by rewrite Hd, Hzz|].
  unfold treeLen in *. rewrite Hd, Hlv, length_app. simpl. lia.
Qed.

Lemma insert_all_spec t leaves t' :
  insert_all t leaves = Ok t' →
  ∃ vs, mapM_res BigInt leaves = Ok vs ∧ mt_leaves t' = mt_leaves t ++ vs ∧
        mt_depth t' = mt_depth t ∧ (wf_tree t → wf_tree t').
Proof.
  revert t. induction leaves as [|x leaves IH]; intros t; simpl.
  { intros. simplify_eq. exists []. by rewrite app_nil_r. }
  intros (v & Hv & ([t1 i] & Hi & H)%bind_ok)%bind_ok.
  apply insert_leaf_ok in Hi as HI. destruct HI as (Hd & _ & Hl & _).
  apply IH in H as (vs & Hvs & Hlv & Hd' & Hwf). simpl in *.
  exists (v :: vs). rewrite Hv, Hvs. simpl. split_and!; [done| |congruence|].
  - by rewrite Hlv, Hl, <-app_assoc.
  - intros. eapply Hwf, wf_insert; eauto.
Qed.

(** A subtree of empty leaves hashes to the zero table's entry. *)
Lemma refRoot_zero f start l :
  (∀ i, start <= i < start + 2 ^ Z.of_nat l → f i = 0) → refRoot f start l = zeroAt l.
Proof.
  revert start. induction l as [|l IH]; intros start Hf; simpl.
  { apply Hf. change (2 ^ Z.of_nat 0) with 1. lia. }
  rewrite Nat2Z.inj_succ, Z.pow_succ_r in Hf by lia.
  assert (0 < 2 ^ Z.of_nat l) by (apply Z.pow_pos_nonneg; lia).
  rewrite !IH; [done| |]; intros i Hi; apply Hf; lia.
Qed.

(** The shortcut tree walk computes the reference root. *)
Lemma rootFrom_ref t start level :
  wf_tree t → (level ≤ mt_depth t)%nat → 0 <= start →
  rootFrom t start level = refRoot (padded (mt_leaves t)) start level.
Proof.
  intros [Hz Hlen]. revert start. induction level as [|l IH]; intros start Hlev Hs; simpl;
    destruct (Z.leb_spec (treeLen t) start) as [Hge|Hlt].
  - rewrite (Hz 0%nat) by lia. simpl. unfold padded, treeLen in *.
    destruct (Z.ltb_spec start 0); [done|]. by rewrite nth_overflow by lia.
  - unfold padded. destruct (Z.ltb_spec start 0); [lia|done].
  - rewrite (Hz (S l)) by lia. symmetry.
    change (poseidon [refRoot (padded (mt_leaves t)) start l;
      refRoot (padded (mt_leaves t)) (start + 2 ^ Z.of_nat l) l])
      with (refRoot (padded (mt_leaves t)) start (S l)).
    apply refRoot_zero. intros i Hi. unfold padded, treeLen in *.
    destruct (Z.ltb_spec i 0); [done|]. by rewrite nth_overflow by lia.
  - unfold hashFields. rewrite Z.shiftl_1_l.
    assert (0 < 2 ^ Z.of_nat l) by (apply Z.pow_pos_nonneg; lia).
    rewrite !IH by lia. done.
Qed.

Lemma node_ref t i l :
  wf_tree t → (l ≤ mt_depth t)%nat → 0 <= i →
  node t i l = refRoot (padded (mt_leaves t)) (i * 2 ^ Z.of_nat l) l.
Proof.
  intros Hwf Hl Hi. unfold node. rewrite Z.shiftl_1_l. apply rootFrom_ref; [done|done|].
  pose proof (Z.pow_nonneg 2 (Z.of_nat l)). nia.
Qed.

(** A node is the hash of its two children. *)
Lemma node_children t i l :
  wf_tree t → (l < mt_depth t)%nat → 0 <= i →
  node t i (S l) = poseidon [node t (2 * i) l; node t (2 * i + 1) l].
Proof.
  intros Hwf Hl Hi. rewrite !node_ref by (done || lia). cbn [refRoot].
  rewrite Nat2Z.inj_succ, Z.pow_succ_r by lia. do 2 f_equal; [f_equal; lia|].
  do 2 f_equal. lia.
Qed.

(** ** Inclusion paths

    The withdraw and reputation circuits recompute the root from a leaf and
    its path: [foldPath] is that check. *)
Fixpoint foldPath (acc : Z) (path : list (Z * Z)) : Z :=
  match path with
  | [] => acc
  | (sib, bit) :: path' =>
      foldPath (if bit =? 0 then poseidon [acc; sib] else poseidon [sib; acc]) path'
  end.

Fixpoint index_bits (n : nat) (cur : Z) : list Z :=
  match n with
  | O => []
  | S n' => Z.land cur 1 :: index_bits n' (Z.shiftr cur 1)
  end.

Lemma land_1 z : Z.land z 1 = z mod 2.
Proof. change 1 with (Z.ones 1). by rewrite Z.land_ones. Qed.

Lemma lxor_1 z : Z.lxor z 1 = if Z.land z 1 =? 0 then z + 1 else z - 1.
Proof.
  destruct (Z.eqb_spec (Z.land z 1) 0) as [Hz|Hz].
  - symmetry. by apply Z.add_nocarry_lxor.
  - rewrite land_1 in Hz.
    assert (Hw : Z.lxor (z - 1) 1 = z).
    { rewrite <-Z.add_nocarry_lxor; [lia|]. rewrite land_1. zdiv. }
    rewrite <-Hw at 1. by rewrite Z.lxor_assoc, Z.lxor_nilpotent, Z.lxor_0_r.
Qed.

Lemma cur_split cur :
  Z.land cur 1 = cur mod 2 ∧ Z.shiftr cur 1 = cur / 2.
Proof.
  split; [apply land_1|by rewrite Z.shiftr_div_pow2].
Qed.

Lemma proofPath_step t cur l :
  wf_tree t → (l < mt_depth t)%nat → 0 <= cur →
  node t (Z.shiftr cur 1) (S l) =
  if Z.land cur 1 =? 0
  then poseidon [node t cur l; node t (Z.lxor cur 1) l]
  else poseidon [node t (Z.lxor cur 1) l; node t cur l].
Proof.
  intros Hwf Hl Hc. rewrite lxor_1. destruct (cur_split cur) as [-> ->].
  pose proof (Z.div_mod cur 2). pose proof (Z.mod_pos_bound cur 2).
  rewrite node_children by (done || zdiv).
  destruct (Z.eqb_spec (cur mod 2) 0).
  - do 3 f_equal; [|f_equal]; f_equal; lia.
  - do 3 f_equal; [|f_equal]; f_equal; lia.
Qed.

Lemma node_shift t n l cur :
  0 <= cur → node t (Z.shiftr cur 1 / 2 ^ Z.of_nat n) l = node t (cur / 2 ^ Z.of_nat (S n)) l.
Proof.
  intros Hc. destruct (cur_split cur) as [_ ->].
  rewrite Nat2Z.inj_succ, Z.pow_succ_r by lia.
  by rewrite Z.div_div by (try apply Z.pow_pos_nonneg; lia).
Qed.

Lemma proofPath_fold t n l cur :
  wf_tree t → (l + n ≤ mt_depth t)%nat → 0 <= cur →
  foldPath (node t cur l) (proofPath t n l cur) = node t (cur / 2 ^ Z.of_nat n) (l + n).
Proof.
  intros Hwf. revert l cur. induction n as [|n IH]; intros l cur Hl Hc.
  { simpl. by rewrite Nat.add_0_r, Z.div_1_r. }
  cbn [proofPath foldPath]. rewrite <-proofPath_step by (done || lia).
  rewrite IH by (lia || by apply Z.shiftr_nonneg).
  by rewrite Nat.add_succ_comm, node_shift.
Qed.

Lemma proofPath_bits t n l cur : (proofPath t n l cur).*2 = index_bits n cur.
Proof. revert l cur. induction n as [|n IH]; intros l cur; simpl; [done|]. by rewrite IH. Qed.
Lemma proofPath_length t n l cur : length (proofPath t n l cur) = n.
Proof. revert l cur. induction n as [|n IH]; intros l cur; simpl; [done|]. by rewrite IH. Qed.

Lemma node_leaf t i :
  wf_tree t → 0 <= i < treeLen t → node t i 0 = nth (Z.to_nat i) (mt_leaves t) 0.
Proof.
  intros Hwf Hi. rewrite node_ref by (done || lia). simpl.
  rewrite Z.mul_1_r. unfold padded. destruct (Z.ltb_spec i 0); [lia|done].
Qed.

Lemma root_node t : root t = node t 0 (mt_depth t).
Proof. done. Qed.

(** The path of a leaf folds to the root. *)
Lemma path_folds_to_root t i :
  wf_tree t → 0 <= i < treeLen t →
  foldPath (nth (Z.to_nat i) (mt_leaves t) 0) (proofPath t (mt_depth t) 0 i) = root t.
Proof.
  intros Hwf Hi. rewrite <-node_leaf by done.
  rewrite proofPath_fold by (done || lia). rewrite root_node. f_equal.
  apply Z.div_small. destruct Hwf. lia.
Qed.

(** With a collision-free hash no other value has a path to the root. *)
Lemma fold_binding t n l cur v path :
  (∀ a b c d, poseidon [a; b] = poseidon [c; d] → a = c ∧ b = d) →
  wf_tree t → (l + n ≤ mt_depth t)%nat → 0 <= cur →
  path.*2 = index_bits n cur →
  foldPath v path = node t (cur / 2 ^ Z.of_nat n) (l + n) → v = node t cur l.
Proof.
  intros Hinj Hwf. revert l cur v path.
  induction n as [|n IH]; intros l cur v path Hl Hc Hbits Hfold.
  { destruct path; [|done]. simpl in Hfold. by rewrite Nat.add_0_r, Z.div_1_r in Hfold. }
  destruct path as [|[sib bit] path]; [done|]. cbn [index_bits fmap list_fmap] in Hbits.
  simpl in Hbits. injection Hbits as Hbit Hbits. cbn [foldPath] in Hfold.
  rewrite <-node_shift, <-Nat.add_succ_comm in Hfold by done.
  apply IH in Hfold; [|lia|by apply Z.shiftr_nonneg|done].
  rewrite proofPath_step in Hfold by (done || lia). rewrite Hbit in Hfold.
  destruct (Z.land cur 1 =? 0); apply Hinj in Hfold; tauto.
Qed.

(** ** [buildProof] *)
Lemma buildProof_loop_spec target idx leaves t k t' k' :
  0 <= idx → buildProof_loop target idx leaves t k = Ok (t', k') →
  ∃ vs, mapM_res BigInt (toLowerCase <$> leaves) = Ok vs ∧
    mt_leaves t' = mt_leaves t ++ vs ∧ mt_depth t' = mt_depth t ∧
    (wf_tree t → wf_tree t') ∧
    (k' = k ∨ k = -1 ∧ idx <= k' < idx + Z.of_nat (length leaves) ∧
       toLowerCase <$> leaves !! Z.to_nat (k' - idx) = Some target).
Proof.
  revert idx t k. induction leaves as [|x leaves IH]; intros idx t k Hidx;
    rewrite ?fmap_nil, ?fmap_cons; cbn [buildProof_loop mapM_res length].
  { intros [= <- <-]. exists []. rewrite app_nil_r. split_and!; auto. }
  intros (v & Hv & ([t1 i] & Hi & H)%bind_ok)%bind_ok.
  apply insert_leaf_ok in Hi as HI. destruct HI as (Hd & _ & Hl & _).
  simpl in H. apply IH in H as (vs & Hvs & Hlv & Hd' & Hwf & Hk); [|lia].
  exists (v :: vs). rewrite Hv, Hvs. simpl. split_and!; [done| |congruence| |].
  - by rewrite Hlv, Hl, <-app_assoc.
  - intros. eapply Hwf, wf_insert; eauto.
  - destruct Hk as [->|(Hk1 & Hk2 & Hk3)].
    + destruct (String.eqb_spec (toLowerCase x) target); simpl; [|by left].
      destruct (Z.eqb_spec k (-1)); [|by left]. right.
      split_and!; [done|lia|lia|]. rewrite Z.sub_diag. simpl. by f_equal.
    + destruct (String.eqb_spec (toLowerCase x) target); simpl in Hk1.
      * destruct (Z.eqb_spec k (-1)); [|lia]. exfalso. lia.
      * right. split_and!; [done|lia|lia|].
        replace (Z.to_nat (k' - idx)) with (S (Z.to_nat (k' - (idx + 1)))) by lia. done.
Qed.
End merkle.

Lemma mapM_BigInt_lower leaves : mapM_res BigInt (toLowerCase <$> leaves) = mapM_res BigInt leaves.
Proof.
  induction leaves as [|x l IH]; [done|].
  rewrite fmap_cons. cbn [mapM_res]. by rewrite BigInt_lower, IH.
Qed.

Lemma insert_all_ok poseidon (t : MerkleTree) leaves vs :
  mapM_res BigInt leaves = Ok vs →
  treeLen t + Z.of_nat (length leaves) <= 2 ^ Z.of_nat (mt_depth t) →
  ∃ t', insert_all t leaves = Ok t' ∧ mt_leaves t' = mt_leaves t ++ vs ∧
        mt_depth t' = mt_depth t ∧ mt_zero t' = mt_zero t ∧
        (wf_tree poseidon t → wf_tree poseidon t').
Proof.
  revert t vs. induction leaves as [|x leaves IH]; intros t vs Hvs Hcap; simpl in Hvs.
  { simplify_eq. exists t. by rewrite app_nil_r. }
  apply bind_ok in Hvs as (v & Hv & (vs' & Hvs' & [= <-])%bind_ok).
  simpl. rewrite Hv. simpl. simpl in Hcap. unfold insert_leaf. rewrite Z.shiftl_1_l.
  destruct (Z.leb_spec (2 ^ Z.of_nat (mt_depth t)) (treeLen t)); [lia|]. simpl.
  set (t1 := mkTree _ _ _).
  assert (Hwf1 : wf_tree poseidon t → wf_tree poseidon t1).
  { intros Hwf. eapply (wf_insert _ t v t1 (treeLen t1 - 1)); [done|].
    unfold insert_leaf. rewrite Z.shiftl_1_l.
    by destruct (Z.leb_spec (2 ^ Z.of_nat (mt_depth t)) (treeLen t)); [lia|]. }
  destruct (IH t1 vs' Hvs') as (t' & Ht' & Hl & Hd & Hz & Hw).
  { unfold treeLen, t1. simpl. rewrite length_app. simpl. unfold treeLen in Hcap. lia. }
  exists t'. rewrite Ht', Hl, Hd, Hz. unfold t1. simpl. rewrite <-app_assoc. split_and!; auto.
Qed.

Lemma refRoot_hash poseidon (P : Z → Prop) f start level :
  (∀ l, P (poseidon l)) → (0 < level)%nat → P (refRoot poseidon f start level).
Proof. intros HP Hl. destruct level; [lia|]. simpl. apply HP. Qed.

Global Arguments newTree : simpl never.
Global Arguments TREE_DEPTH : simpl never.

(** A cheap stand-in hash on which the development can be run. *)
Definition toy_hash (l : list Z) : Z :=
  foldl (λ acc x, (acc * 131 + x + 7) mod 1000003) 0 l.

(** An injective stand-in: the numeric code of the input list. *)
Definition code_hash (l : list Z) : Z := Z.pos (encode l).

Lemma code_hash_inj a b c d : code_hash [a; b] = code_hash [c; d] → a = c ∧ b = d.
Proof. unfold code_hash. intros [= H%encode_inj]. naive_solver. Qed.

Section properties.
Context (poseidon : list Z → Z).

(** C6 (equivalence): the root the publisher posts for a list of leaf strings,
    computed with the zero-subtree shortcut, is the root of the complete binary
    tree of depth 20 that hashes every one of the [2^20] positions of the
    zero-padded leaf sequence. *)
Theorem buildRoot_reference (leaves : list string) (r : string) :
  buildRoot poseidon leaves = Ok r →
  ∃ vs, mapM_res BigInt leaves = Ok vs ∧
        Hex32.bigintToHex32 (refRoot poseidon (padded vs) 0 TREE_DEPTH) = Ok r.
Proof.
  intros (t & Ht & Hr)%bind_ok.
  apply (insert_all_spec poseidon) in Ht as (vs & Hvs & Hl & Hd & Hwf).
  exists vs. split; [done|]. unfold rootHex, root in Hr.
  specialize (Hwf (wf_newTree _ _)).
  rewrite rootFrom_ref in Hr by (done || lia). by rewrite Hl, Hd in Hr.
Qed.

Lemma buildProof_spec (leaves : list string) (leaf : string) i p :
  buildProof poseidon leaves leaf = Ok (i, p) →
  ∃ path v,
    0 <= i < Z.of_nat (length leaves) ∧
    toLowerCase <$> leaves !! Z.to_nat i = Some (toLowerCase leaf) ∧
    BigInt leaf = Ok v ∧
    length path = TREE_DEPTH ∧ path.*2 = index_bits TREE_DEPTH i ∧
    mapM_res Hex32.bigintToHex32 path.*1 = Ok (pf_pathElements p) ∧
    path.*2 = pf_pathIndices p ∧
    Hex32.bigintToHex32 (foldPath poseidon v path) = Ok (pf_root p) ∧
    buildRoot poseidon leaves = Ok (pf_root p).
Proof.
  intros ([t k] & Hloop & H)%bind_ok.
  destruct (Z.eqb_spec k (-1)) as [|Hk]; [done|].
  apply bind_ok in H as (p' & Hp & [= -> ->]).
  apply (buildProof_loop_spec poseidon) in Hloop as (vs & Hvs & Hl & Hd & Hwf & Hidx); [|lia].
  destruct Hidx as [?|(_ & Hi & Htarget)]; [lia|].
  specialize (Hwf (wf_newTree _ _)). simpl in Hl, Hd. rewrite Z.sub_0_r in Htarget.
  assert (Hlen : length vs = length leaves).
  { apply mapM_res_length in Hvs. by rewrite length_fmap in Hvs. }
  assert (HtL : treeLen t = Z.of_nat (length leaves)) by (unfold treeLen; rewrite Hl; lia).
  unfold proof in Hp. destruct (Z.ltb_spec i 0); [lia|].
  destruct (Z.leb_spec (treeLen t) i); [lia|]. simpl in Hp.
  apply bind_ok in Hp as (els & Hels & (r & Hr & [= <-])%bind_ok).
  set (path := proofPath poseidon t (mt_depth t) 0 i) in *.
  destruct (lookup_lt_is_Some_2 leaves (Z.to_nat i)) as [x Hx]; [lia|].
  rewrite Hx in Htarget. simpl in Htarget. injection Htarget as Htarget.
  destruct (lookup_lt_is_Some_2 vs (Z.to_nat i)) as [v Hv]; [lia|].
  assert (Hbig : BigInt leaf = Ok v).
  { rewrite <-BigInt_lower, <-Htarget. apply mapM_res_Forall2 in Hvs.
    eapply Forall2_lookup_lr in Hvs; [exact Hvs| |exact Hv].
    by rewrite list_lookup_fmap, Hx. }
  exists path, v. simpl. split; [lia|]. split; [by rewrite Hx; simpl; f_equal|].
  split; [done|]. split; [unfold path; by rewrite proofPath_length|].
  split; [unfold path; by rewrite proofPath_bits, Hd|].
  split; [done|]. split; [done|]. split.
  - rewrite <-Hr. unfold rootHex. f_equal. unfold path.
    rewrite <-(path_folds_to_root poseidon t i) by (done || lia).
    f_equal. rewrite Hl. symmetry. apply nth_lookup_Some with (d := 0) in Hv. done.
  - unfold buildRoot.
    destruct (insert_all_ok poseidon (newTree poseidon TREE_DEPTH) leaves vs)
      as (t2 & Ht2 & Hl2 & Hd2 & Hz2 & Hw2).
    { by rewrite <-mapM_BigInt_lower. }
    { destruct Hwf as [_ Hwf]. rewrite HtL, Hd in Hwf. exact Hwf. }
    rewrite Ht2. simpl. rewrite <-Hr. unfold rootHex, root.
    specialize (Hw2 (wf_newTree _ _)).
    rewrite !rootFrom_ref by (done || lia). by rewrite Hl2, Hl, Hd2, Hd.
Qed.

(** C37 (functional): a proof returned by [buildProof] is for the position of a
    leaf equal to the requested one (up to hex case), has twenty siblings and
    direction bits, folds from that leaf's value to the root it carries, and
    that root is the one [buildRoot] publishes for the same leaves. *)
Theorem buildProof_verifies (leaves : list string) (leaf : string) i p :
  buildProof poseidon leaves leaf = Ok (i, p) →
  ∃ path v,
    0 <= i < Z.of_nat (length leaves) ∧
    toLowerCase <$> leaves !! Z.to_nat i = Some (toLowerCase leaf) ∧
    BigInt leaf = Ok v ∧
    length path = TREE_DEPTH ∧
    mapM_res Hex32.bigintToHex32 path.*1 = Ok (pf_pathElements p) ∧
    path.*2 = pf_pathIndices p ∧
    Hex32.bigintToHex32 (foldPath poseidon v path) = Ok (pf_root p) ∧
    buildRoot poseidon leaves = Ok (pf_root p).
Proof. intros H. destruct (buildProof_spec _ _ _ _ H) as (path & v & ? & ? & ? & ? & _ & ?). by exists path, v. Qed.

(** For a collision-free hash an inclusion path pins the leaf: a
    value whose path, with the direction bits of position [i], folds to the
    root of the tree is the padded leaf at position [i]. *)
Theorem inclusion_binding depth (leaves : list string) t i v path :
  (∀ a b c d, poseidon [a; b] = poseidon [c; d] → a = c ∧ b = d) →
  insert_all (newTree poseidon depth) leaves = Ok t →
  0 <= i < 2 ^ Z.of_nat depth →
  path.*2 = index_bits depth i →
  foldPath poseidon v path = root poseidon t →
  v = padded (mt_leaves t) i.
Proof.
  intros Hinj Ht Hi Hbits Hfold.
  apply (insert_all_spec poseidon) in Ht as (vs & _ & _ & Hd & Hwf).
  specialize (Hwf (wf_newTree _ _)). simpl in Hd.
  assert (Hv : v = node poseidon t i 0).
  { eapply (fold_binding poseidon t depth 0 i v path); try done; [simpl; lia|lia|].
    rewrite Hfold, root_node, Hd. simpl. by rewrite Z.div_small by done. }
  rewrite Hv, node_ref by (done || lia). simpl. by rewrite Z.mul_1_r.
Qed.

(** Root building is total on what the publisher stores:
    canonical hex leaves, at most [2^20] of them, and a hash with 256-bit
    values always give a canonical root. *)
Theorem buildRoot_total (leaves : list string) :
  (∀ l, 0 <= poseidon l < 2 ^ 256) →
  Forall Hex32.hex32 leaves →
  Z.of_nat (length leaves) <= 2 ^ 20 →
  ∃ r, buildRoot poseidon leaves = Ok r ∧ Hex32.hex32 r.
Proof.
  intros Hrange Hhex Hcap.
  assert (∃ vs, mapM_res BigInt leaves = Ok vs) as [vs Hvs].
  { clear Hcap. induction Hhex as [|x l Hx _ [vs IH]]; [by exists []|].
    destruct (Hex32.hex32_BigInt x Hx) as (v & Hv & _).
    exists (v :: vs). simpl. by rewrite Hv; simpl; rewrite IH. }
  destruct (insert_all_ok poseidon (newTree poseidon TREE_DEPTH) leaves vs)
    as (t & Ht & Hl & Hd & _ & Hw); [done|exact Hcap|].
  change (mt_depth (newTree poseidon TREE_DEPTH)) with TREE_DEPTH in Hd.
  unfold buildRoot. rewrite Ht. simpl. unfold rootHex, root.
  assert (Hr : 0 <= rootFrom poseidon t 0 (mt_depth t) < 2 ^ 256).
  { rewrite rootFrom_ref by (done || by apply Hw, wf_newTree). rewrite Hd.
    apply (refRoot_hash _ (λ z, 0 <= z < 2 ^ 256)); [done|]. unfold TREE_DEPTH. lia. }
  destruct (Hex32.bigintToHex32_ok _ Hr) as (s & Hs & H32 & _). eauto.
Qed.
End properties.

(** *** The properties at concrete leaves *)
Definition leaf_a : string := "0x000000000000000000000000000000000000000000000000000000000000002a".
Definition leaf_b : string := "0x00000000000000000000000000000000000000000000000000000000000000ff".

Lemma toy_hash_range l : 0 <= toy_hash l < 2 ^ 256.
Proof.
  unfold toy_hash. assert (H : ∀ acc, 0 <= acc < 1000003 →
    0 <= foldl (λ acc x, (acc * 131 + x + 7) mod 1000003) acc l < 1000003).
  { induction l as [|x l IH]; intros acc Ha; simpl; [done|]. apply IH, Z.mod_pos_bound. lia. }
  specialize (H 0). lia.
Qed.

Lemma buildRoot_reference_witness :
  ∃ r, buildRoot toy_hash [leaf_a; leaf_b] = Ok r ∧
    ∃ vs, mapM_res BigInt [leaf_a; leaf_b] = Ok vs ∧
          Hex32.bigintToHex32 (refRoot toy_hash (padded vs) 0 TREE_DEPTH) = Ok r.
Proof.
  destruct (buildRoot toy_hash [leaf_a; leaf_b]) as [r|e] eqn:E;
    [|vm_compute in E; discriminate].
  exists r. split; [reflexivity|]. exact (buildRoot_reference toy_hash _ r E).
Defined.

Lemma buildProof_verifies_witness :
  ∃ i p, buildProof toy_hash [leaf_a; leaf_b] leaf_b = Ok (i, p) ∧
    ∃ path v, BigInt leaf_b = Ok v ∧ length path = TREE_DEPTH ∧
      Hex32.bigintToHex32 (foldPath toy_hash v path) = Ok (pf_root p) ∧
      buildRoot toy_hash [leaf_a; leaf_b] = Ok (pf_root p).
Proof.
  destruct (buildProof toy_hash [leaf_a; leaf_b] leaf_b) as [[i p]|e] eqn:E;
    [|vm_compute in E; discriminate].
  exists i, p. split; [reflexivity|].
  destruct (buildProof_verifies toy_hash _ _ i p E) as (path & v & _ & _ & Hv & Hl & _ & _ & Hf & Hr).
  exists path, v. auto.
Defined.

Lemma inclusion_binding_witness :
  ∃ t, insert_all (newTree code_hash 1) ["5"; "6"] = Ok t ∧
       6 = padded (mt_leaves t) 1.
Proof.
  destruct (insert_all (newTree code_hash 1) ["5"; "6"]) as [t|e] eqn:E;
    [|vm_compute in E; discriminate].
  exists t. split; [reflexivity|].
  apply (inclusion_binding code_hash 1 ["5"; "6"] t 1 6 [(5, 1)]).
  - exact code_hash_inj.
  - exact E.
  - simpl. lia.
  - reflexivity.
  - vm_compute in E. injection E as <-. vm_compute. reflexivity.
Defined.

Lemma buildRoot_total_witness :
  ∃ r, buildRoot toy_hash [leaf_a; leaf_b] = Ok r ∧ Hex32.hex32 r.
Proof.
  apply (buildRoot_total toy_hash).
  - exact toy_hash_range.
  - repeat constructor; eexists; split_and!; try reflexivity.
  - vm_compute. discriminate.
Defined.
