(* ===== verification/Json.v ===== *)
(** * Untyped JavaScript values

    Request bodies, persisted files and gossip messages reach the services as
    [unknown].  A number is either an integer or, for any other number, its
    text ([JFlt]): the services only ask of those whether they are numbers. *)
From Stdlib Require Import Ascii.
From stdpp Require Import base tactics list strings.
From Stdlib Require Import ZArith Lia.
From S2P Require Import Prelude JsString.
Open Scope string_scope.
Open Scope list_scope.
Open Scope Z_scope.

Inductive jval : Type :=
  | JUndef
  | JNull
  | JBool (b : bool)
  | JNum (z : Z)
  | JFlt (text : string)
  | JStr (s : string)
  | JArr (l : list jval)
  | JObj (fields : list (string * jval)).

(** [typeof v] *)
Definition typeof (v : jval) : string :=
  match v with
  | JUndef => "undefined"
  | JNull => "object"
  | JBool _ => "boolean"
  | JNum _ | JFlt _ => "number"
  | JStr _ => "string"
  | JArr _ | JObj _ => "object"
  end.

Fixpoint field_get (k : string) (l : list (string * jval)) : option jval :=
  match l with
  | [] => None
  | (k', v) :: l' => if String.eqb k k' then Some v else field_get k l'
  end.

(** [v.k] on an object; [undefined] when the property is absent. *)
Definition prop (v : jval) (k : string) : jval :=
  match v with
  | JObj fs => default JUndef (field_get k fs)
  | _ => JUndef
  end.

(** ["k" in v] *)
Definition has_prop (v : jval) (k : string) : bool :=
  match v with
  | JObj fs => match field_get k fs with Some _ => true | None => false end
  | _ => false
  end.

Definition is_undef (v : jval) : bool := match v with JUndef => true | _ => false end.
Definition is_nullish (v : jval) : bool :=
  match v with JUndef | JNull => true | _ => false end.

(** [String(v)] *)
Fixpoint js_String (v : jval) : string :=
  match v with
  | JUndef => "undefined"
  | JNull => "null"
  | JBool true => "true"
  | JBool false => "false"
  | JNum z => bigint_toString 10 z
  | JFlt t => t
  | JStr s => s
  | JArr l =>
      join "," (map (λ x, match x with JUndef | JNull => "" | _ => js_String x end) l)
  | JObj _ => "[object Object]"
  end.

(** [BigInt(v)] *)
Definition js_BigInt (v : jval) : res Z :=
  match v with
  | JUndef => Err (TypeError "Cannot convert undefined to a BigInt")
  | JNull => Err (TypeError "Cannot convert null to a BigInt")
  | JBool b => Ok (if b then 1 else 0)
  | JNum z => Ok z
  | JFlt _ => Err (RangeError "The number cannot be converted to a BigInt because it is not an integer")
  | JStr s => BigInt s
  | JArr _ | JObj _ => BigInt (js_String v)
  end.

(** Truthiness of a value. *)
Definition truthy (v : jval) : bool :=
  match v with
  | JUndef | JNull | JBool false => false
  | JNum z => negb (z =? 0)
  | JStr s => negb (String.eqb s "")
  | _ => true
  end.
