(* ===== verification/PubValidate.v ===== *)
(** * Publisher: leaf commitments and their validation

    [publisher/src/types.ts], [publisher/src/validate.ts] and
    [publisher/src/identity.ts].  The secp256k1 recovery and keccak-256 of the
    noble libraries are parameters. *)
From Stdlib Require Import Ascii.
From stdpp Require Import base tactics list sets strings.
From Stdlib Require Import ZArith Lia.
From S2P Require Import Prelude JsString Bytes Json.
Import Hex32.
Open Scope string_scope.
Open Scope list_scope.
Open Scope Z_scope.

Record LeafCommitment : Type := mkLeaf {
  lc_id : string;
  lc_leaf : string;
  lc_schemaId : string;
  lc_attestationUid : string;
  lc_holderSignature : string;
  lc_txHash : option string;
  lc_ledger : option Z;
  lc_submittedAt : string;
}.

Global Instance leaf_eq_dec : EqDecision LeafCommitment.
Proof. solve_decision. Defined.

Record OnChainAttestation : Type := mkAttestation {
  oa_schemaId : string;
  oa_stealthAddressHash : string;
  oa_expirationLedger : Z;
  oa_revocationLedger : Z;
}.

Inductive CommitmentValidation : Type :=
  | ValidCommitment (commitment : LeafCommitment)
  | InvalidCommitment (errors : list string).

Definition BN254_MODULUS : Z :=
  21888242871839275222246405745257275088548364400416034343698204186575808495617.

(** Errors of the [leaf] field. *)
Definition leaf_errors (obj : jval) : list string :=
  match prop obj "leaf" with
  | JStr s =>
      match normalizeHex32 s "leaf", BigInt s with
      | Ok _, Ok leafValue =>
          if (leafValue <? 0) || (BN254_MODULUS <=? leafValue)
          then ["leaf value must be a valid BN254 field element (0 <= value < modulus)"]
          else []
      | _, _ => ["leaf must be a 0x-prefixed 32-byte hex string"]
      end
  | _ => ["leaf is required and must be a string"]
  end.

Definition id_errors (obj : jval) : list string :=
  match prop obj "id" with
  | JStr s => if String.eqb (trim s) "" then ["id must not be empty"] else []
  | _ => []
  end.

Definition hex_field_errors (obj : jval) (k : string) : list string :=
  match prop obj k with
  | JStr s =>
      if is_ok (normalizeHex32 s k) then []
      else [k +:+ " must be a 0x-prefixed 32-byte hex string"]
  | _ => [k +:+ " is required"]
  end.

(** [/^(0x)?[0-9a-fA-F]{130}$/] *)
Definition is_sig_hex (s : string) : bool :=
  all_chars is_hex (strip0x s) && (String.length (strip0x s) =? 130)%nat.

Definition signature_errors (obj : jval) : list string :=
  let bad := ["holderSignature must be a 65-byte recoverable secp256k1 signature"] in
  match prop obj "holderSignature" with
  | JStr s => if is_sig_hex s then [] else bad
  | _ => bad
  end.

Definition ledger_errors (obj : jval) : list string :=
  if has_prop obj "ledger" && negb (is_undef (prop obj "ledger")) then
    match prop obj "ledger" with
    | JNum z => if z <? 0 then ["ledger must be a non-negative integer if provided"] else []
    | _ => ["ledger must be a non-negative integer if provided"]
    end
  else [].

Definition txHash_errors (obj : jval) : list string :=
  if has_prop obj "txHash" && negb (is_undef (prop obj "txHash"))
     && negb (String.eqb (typeof (prop obj "txHash")) "string")
  then ["txHash must be a string if provided"] else [].

Definition is_object (raw : jval) : bool :=
  negb (is_nullish raw) && String.eqb (typeof raw) "object".

(** [String(obj.k)] for the fields already known to be strings. *)
Definition str_prop (obj : jval) (k : string) : string := js_String (prop obj k).

(** [now] is the time stamp [new Date().toISOString()]. *)
Definition validateLeafCommitment (now : string) (raw : jval) : CommitmentValidation :=
  if negb (is_object raw) then InvalidCommitment ["payload must be a JSON object"]
  else
    let obj := raw in
    let errors :=
      leaf_errors obj ++ id_errors obj ++ hex_field_errors obj "schemaId"
        ++ hex_field_errors obj "attestationUid" ++ signature_errors obj
        ++ ledger_errors obj ++ txHash_errors obj in
    match errors with
    | _ :: _ => InvalidCommitment errors
    | [] =>
        match normalizeHex32 (str_prop obj "leaf") "leaf",
              normalizeHex32 (str_prop obj "attestationUid") "attestationUid",
              normalizeHex32 (str_prop obj "schemaId") "schemaId" with
        | Ok leaf, Ok attestationUid, Ok schemaId =>
            let idv := prop obj "id" in
            let id := toLowerCase (trim (if is_nullish idv then attestationUid else js_String idv)) in
            ValidCommitment
              (mkLeaf id leaf schemaId attestationUid (str_prop obj "holderSignature")
                 (match prop obj "txHash" with JStr s => Some s | _ => None end)
                 (match prop obj "ledger" with JNum z => Some z | _ => None end)
                 now)
        | _, _, _ => InvalidCommitment errors
        end
    end.

(** The commitment as the object that is stored and read back. *)
Definition leaf_json (c : LeafCommitment) : jval :=
  JObj [("id", JStr (lc_id c)); ("leaf", JStr (lc_leaf c));
        ("schemaId", JStr (lc_schemaId c)); ("attestationUid", JStr (lc_attestationUid c));
        ("holderSignature", JStr (lc_holderSignature c));
        ("txHash", match lc_txHash c with Some s => JStr s | None => JUndef end);
        ("ledger", match lc_ledger c with Some z => JNum z | None => JUndef end);
        ("submittedAt", JStr (lc_submittedAt c))].

(** ** Holder signatures *)
Section identity.
Context (keccak_256 : list byte → list byte).
(** [fromCompact(sig).addRecoveryBit(r).recoverPublicKey(digest).toRawBytes(false)];
    [None] when a step throws. *)
Context (recoverPublicKey : list byte → Z → list byte → option (list byte)).

Definition utf8 (s : string) : list byte :=
  concat (map (λ c, map to_byte (utf8_char c)) (String.list_ascii_of_string s)).

Definition submission_text (uid schemaId leaf : string) : string :=
  "OPAQUE_REPUTATION_SUBMISSION_V1" +:+ String "010"%char uid +:+ String "010"%char schemaId
    +:+ String "010"%char leaf.

Definition verifyHolderSignature (attestationUid schemaId leaf signature
    stealthAddressHash : string) : bool :=
  let signatureHex := strip0x (trim signature) in
  if negb (all_chars is_hex signatureHex && (String.length signatureHex =? 130)%nat)
  then false
  else
    match bytes_of_hex signatureHex with
    | None => false
    | Some signatureBytes =>
        let last := byte_val (nth 64 signatureBytes Byte.x00) in
        let recovery := if 27 <=? last then last - 27 else last in
        if negb (recovery =? 0) && negb (recovery =? 1) then false
        else
          match normalizeHex32 attestationUid "attestationUid",
                normalizeHex32 schemaId "schemaId",
                normalizeHex32 leaf "leaf" with
          | Ok uid, Ok sid, Ok lf =>
              let digest := keccak_256 (utf8 (submission_text uid sid lf)) in
              match recoverPublicKey (take 64 signatureBytes) recovery digest,
                    hex32ToBytes stealthAddressHash with
              | Some publicKey, Ok expected =>
                  let address := drop 12 (keccak_256 (drop 1 publicKey)) in
                  bool_decide (keccak_256 address = expected)
              | _, _ => false
              end
          | _, _, _ => false
          end
    end.
End identity.

(** ** Properties of validation *)

(** What every accepted commitment looks like. *)
Record canonical (c : LeafCommitment) : Prop := {
  can_leaf : hex32 (lc_leaf c);
  can_schema : hex32 (lc_schemaId c);
  can_uid : hex32 (lc_attestationUid c);
  can_sig : is_sig_hex (lc_holderSignature c) = true;
  can_id_trim : trim (lc_id c) = lc_id c;
  can_id_lower : toLowerCase (lc_id c) = lc_id c;
  can_ledger : ∀ z, lc_ledger c = Some z → 0 <= z;
}.

Definition with_submittedAt (now : string) (c : LeafCommitment) : LeafCommitment :=
  mkLeaf (lc_id c) (lc_leaf c) (lc_schemaId c) (lc_attestationUid c) (lc_holderSignature c)
    (lc_txHash c) (lc_ledger c) now.

Lemma validate_inv now raw c :
  validateLeafCommitment now raw = ValidCommitment c →
  leaf_errors raw = [] ∧ signature_errors raw = [] ∧ ledger_errors raw = [] ∧
  normalizeHex32 (str_prop raw "leaf") "leaf" = Ok (lc_leaf c) ∧
  normalizeHex32 (str_prop raw "schemaId") "schemaId" = Ok (lc_schemaId c) ∧
  normalizeHex32 (str_prop raw "attestationUid") "attestationUid" = Ok (lc_attestationUid c) ∧
  lc_holderSignature c = str_prop raw "holderSignature" ∧
  lc_ledger c = (match prop raw "ledger" with JNum z => Some z | _ => None end) ∧
  (∃ x, lc_id c = toLowerCase (trim x)).
Proof.
  unfold validateLeafCommitment. destruct (is_object raw); simpl; [|done].
  destruct (_ ++ _) as [|] eqn:E; [|done].
  apply app_nil in E as [E1 E]. apply app_nil in E as [E2 E]. apply app_nil in E as [E3 E].
  apply app_nil in E as [E4 E]. apply app_nil in E as [E5 E]. apply app_nil in E as [E6 E7].
  destruct (normalizeHex32 (str_prop raw "leaf") "leaf") as [lf|]; [|done].
  destruct (normalizeHex32 (str_prop raw "attestationUid") _) as [uid|]; [|done].
  destruct (normalizeHex32 (str_prop raw "schemaId") _) as [sid|]; [|done].
  intros [= <-]. simpl. split_and!; eauto.
Qed.

Lemma prop_has v k : prop v k ≠ JUndef → has_prop v k = true.
Proof. destruct v; simpl; try done. by destruct (field_get k fields). Qed.

Lemma validate_canonical now raw c :
  validateLeafCommitment now raw = ValidCommitment c → canonical c.
Proof.
  intros (Hle & Hs & Hl & Hleaf & Hsch & Huid & Hsig & Hled & (x & Hid))%validate_inv.
  constructor; try by eapply normalizeHex32_ok.
  - rewrite Hsig. unfold signature_errors in Hs. unfold str_prop.
    destruct (prop raw "holderSignature") as [| | | | |s| |]; try done. simpl.
    by destruct (is_sig_hex s).
  - by rewrite Hid, trim_lower, trim_idemp.
  - by rewrite Hid, toLowerCase_idemp.
  - intros z Hz. rewrite Hled in Hz. unfold ledger_errors in Hl.
    destruct (prop raw "ledger") eqn:Hp; simplify_eq.
    rewrite (prop_has raw "ledger") in Hl by (by rewrite Hp). simpl in Hl. destruct (Z.ltb_spec z 0); [done|lia].
Qed.

Lemma startsWith_0x s : startsWith "0x" s = true → s = "0x" +:+ strip0x s.
Proof. unfold strip0x. intros H. rewrite H. by apply startsWith_app in H. Qed.

Lemma BigInt_trim s : BigInt (trim s) = BigInt s.
Proof. unfold BigInt, bigint_of_string. by rewrite trim_idemp. Qed.

Lemma leaf_errors_inv raw s :
  prop raw "leaf" = JStr s → leaf_errors raw = [] →
  ∃ v, BigInt s = Ok v ∧ 0 <= v < BN254_MODULUS.
Proof.
  intros Hp. unfold leaf_errors. rewrite Hp.
  destruct (normalizeHex32 s "leaf"); [|done]. destruct (BigInt s) as [v|]; [|done].
  destruct (Z.ltb_spec v 0); [done|]. destruct (Z.leb_spec BN254_MODULUS v); [done|].
  intros _. exists v. split; [done|lia].
Qed.

(** The leaf of an accepted commitment, read with the prefix the canonical form
    has, is the number the range check looked at. *)
Lemma prefixed_leaf_value now raw c s :
  validateLeafCommitment now raw = ValidCommitment c →
  prop raw "leaf" = JStr s → startsWith "0x" (toLowerCase (trim s)) = true →
  BigInt (lc_leaf c) = BigInt s.
Proof.
  intros (_ & _ & _ & Hleaf & _)%validate_inv Hs Hpre.
  unfold str_prop in Hleaf. rewrite Hs in Hleaf. simpl in Hleaf.
  unfold normalizeHex32 in Hleaf.
  destruct (all_chars is_lhex _ && _); [|done]. injection Hleaf as <-.
  transitivity (BigInt (toLowerCase (trim s))); [|by rewrite BigInt_lower, BigInt_trim].
  f_equal. symmetry. exact (startsWith_0x _ Hpre).
Qed.

(** A submission whose leaf carries the [0x] prefix (in either
    case, with or without surrounding white space) is accepted only when the
    stored canonical leaf denotes an element of the BN254 scalar field. *)
Theorem accepted_prefixed_leaf_in_field now raw c s :
  validateLeafCommitment now raw = ValidCommitment c →
  prop raw "leaf" = JStr s → startsWith "0x" (toLowerCase (trim s)) = true →
  ∃ v, BigInt (lc_leaf c) = Ok v ∧ 0 <= v < BN254_MODULUS.
Proof.
  intros Hc Hs Hpre. rewrite (prefixed_leaf_value now raw c s) by done.
  apply validate_inv in Hc as (Hle & _). by eapply leaf_errors_inv.
Qed.

(** Without the prefix, 64 decimal digits are hex digits for the shape check
    and a decimal numeral for the range check. *)
Lemma dec_lhex c : is_dec c = true → is_lhex c = true.
Proof. by_cases_char c; congruence. Qed.

Lemma strip0x_lhex s : all_chars is_lhex s = true → strip0x s = s.
Proof.
  unfold strip0x. intros H. destruct (startsWith "0x" s) eqn:E; [|done].
  exfalso. apply startsWith_app in E. rewrite E in H. done.
Qed.

Lemma normalize_unprefixed s label :
  all_chars is_lhex s = true → String.length s = 64%nat →
  normalizeHex32 s label = Ok ("0x" +:+ s).
Proof.
  intros Hs Hl. unfold normalizeHex32.
  rewrite trim_id by (by apply hex_no_space, lhex_hex).
  rewrite toLowerCase_lhex, strip0x_lhex, Hs, Hl by done. done.
Qed.

Lemma decimal_leaf_no_errors raw s :
  prop raw "leaf" = JStr s → all_chars is_dec s = true → String.length s = 64%nat →
  leaf_errors raw = [].
Proof.
  intros Hp Hd Hl. unfold leaf_errors. rewrite Hp.
  rewrite normalize_unprefixed by (done || by eapply all_chars_impl, Hd; apply dec_lhex).
  assert (∃ v, digits_val 10 0 s = Some v) as [v Hv].
  { clear -Hd. generalize 0. induction s as [|c s IH]; intros acc; simpl in *; [eauto|].
    apply andb_prop in Hd as [Hc Hd]. unfold is_dec in Hc.
    destruct (digit_val c); [|done]. rewrite Hc. auto. }
  unfold BigInt. rewrite bigint_of_dec, Hv by (done || by intros ->). simpl.
  apply digits_val_bound in Hv; [|lia..]. unfold slen in Hv. rewrite Hl in Hv.
  destruct (Z.ltb_spec v 0); [lia|]. destruct (Z.leb_spec BN254_MODULUS v) as [Hge|]; [|done].
  exfalso. assert (10 ^ Z.of_nat 64 < BN254_MODULUS) by reflexivity. lia.
Qed.

Lemma revalidate_canonical now' c v :
  canonical c → lc_id c ≠ "" → BigInt (lc_leaf c) = Ok v →
  (validateLeafCommitment now' (leaf_json c) = ValidCommitment (with_submittedAt now' c)
   ↔ v < BN254_MODULUS).
Proof.
  intros Hc Hid Hv.
  pose proof (normalizeHex32_id _ "leaf" (can_leaf _ Hc)) as Hl.
  pose proof (normalizeHex32_id _ "schemaId" (can_schema _ Hc)) as Hs.
  pose proof (normalizeHex32_id _ "attestationUid" (can_uid _ Hc)) as Hu.
  destruct (hex32_BigInt _ (can_leaf _ Hc)) as (v' & Hv' & Hr).
  assert (v' = v) as -> by congruence.
  assert (Hled : ledger_errors (leaf_json c) = []).
  { unfold ledger_errors. simpl. destruct (lc_ledger c) as [z|] eqn:Hz; simpl; [|done].
    apply (can_ledger _ Hc) in Hz. destruct (Z.ltb_spec z 0); [lia|done]. }
  assert (Htx : txHash_errors (leaf_json c) = []).
  { unfold txHash_errors. simpl. by destruct (lc_txHash c). }
  unfold validateLeafCommitment. rewrite Hled, Htx.
  unfold leaf_errors, id_errors, hex_field_errors, signature_errors, str_prop. simpl.
  rewrite (can_id_trim _ Hc), (can_id_lower _ Hc), Hv, Hl, Hs, Hu, (can_sig _ Hc).
  destruct (String.eqb_spec (lc_id c) ""); [done|]. simpl.
  destruct (Z.ltb_spec v 0); [lia|]. simpl.
  destruct (Z.leb_spec BN254_MODULUS v); simpl.
  - split; [done|lia].
  - split; [lia|]. intros _. unfold with_submittedAt. f_equal. f_equal.
    + by destruct (lc_txHash c).
    + by destruct (lc_ledger c).
Qed.

(** A stored commitment reads back as itself (with a fresh time
    stamp) exactly when its canonical leaf is in the field and its id is not
    empty, so what a tick reads from the inbox is what was submitted. *)
Theorem stored_commitment_roundtrip now now' raw c v :
  validateLeafCommitment now raw = ValidCommitment c →
  lc_id c ≠ "" → BigInt (lc_leaf c) = Ok v →
  (validateLeafCommitment now' (leaf_json c) = ValidCommitment (with_submittedAt now' c)
   ↔ v < BN254_MODULUS).
Proof.
  intros Hc%validate_canonical. exact (revalidate_canonical now' c v Hc).
Qed.

(** ** The signed submission text *)
Lemma utf8_char_inj c1 c2 l1 l2 :
  map to_byte (utf8_char c1) ++ l1 = map to_byte (utf8_char c2) ++ l2 → c1 = c2 ∧ l1 = l2.
Proof.
  assert (Hb : ∀ x y, 0 <= x < 256 → 0 <= y < 256 → to_byte x = to_byte y → x = y).
  { intros x y Hx Hy H. apply (f_equal byte_val) in H. rewrite !byte_val_to_byte in H.
    by rewrite !Z.mod_small in H. }
  pose proof (code_range c1). pose proof (code_range c2).
  unfold utf8_char. destruct (Z.ltb_spec (code c1) 128), (Z.ltb_spec (code c2) 128);
    simpl; intros Heq; simplify_eq.
  - match goal with H : to_byte _ = to_byte _ |- _ => apply Hb in H; [|lia..] end.
    split; [by apply code_inj|done].
  - exfalso. match goal with H : to_byte _ = to_byte _ |- _ => apply Hb in H; [zdiv|lia|zdiv] end.
  - exfalso. match goal with H : to_byte _ = to_byte _ |- _ => apply Hb in H; [zdiv|zdiv|lia] end.
  - match goal with H : to_byte (192 + _) = _, H' : to_byte (128 + _) = _ |- _ =>
      apply Hb in H; [|zdiv..]; apply Hb in H'; [|zdiv..] end.
    split; [apply code_inj; zdiv|done].
Qed.

Lemma utf8_inj s1 s2 : utf8 s1 = utf8 s2 → s1 = s2.
Proof.
  unfold utf8. revert s2. induction s1 as [|c1 s1 IH]; intros [|c2 s2]; simpl; intros H.
  - done.
  - unfold utf8_char in H. by destruct (code c2 <? 128).
  - unfold utf8_char in H. by destruct (code c1 <? 128).
  - apply utf8_char_inj in H as [-> H]. f_equal. by apply IH.
Qed.

Lemma hex32_length s : hex32 s → String.length s = 66%nat.
Proof. intros (h & -> & Hl & _). simpl. by rewrite Hl. Qed.

(** The bytes a holder signs determine the attestation, the schema
    and the leaf, so a signature for one submission cannot be replayed for
    another. *)
Theorem submission_message_binding uid sid lf uid' sid' lf' :
  hex32 uid → hex32 sid → hex32 uid' → hex32 sid' →
  utf8 (submission_text uid sid lf) = utf8 (submission_text uid' sid' lf') →
  uid = uid' ∧ sid = sid' ∧ lf = lf'.
Proof.
  intros Hu%hex32_length Hs%hex32_length Hu'%hex32_length Hs'%hex32_length Heq%utf8_inj.
  unfold submission_text in Heq. simplify_eq/=.
  apply string_app_inv_length in Heq as [-> Heq]; [|congruence]. simplify_eq/=.
  apply string_app_inv_length in Heq as [-> Heq]; [|congruence]. by simplify_eq/=.
Qed.

(** The range check of [validateLeafCommitment] parses an unprefixed
    leaf of 64 decimal digits as a decimal numeral although its canonical form
    is hexadecimal: a leaf outside the field is acknowledged, and reading the
    same commitment back from the inbox rejects it. *)
Theorem unprefixed_leaf_escapes_range_check :
  ∃ raw c v errs,
    validateLeafCommitment "now" raw = ValidCommitment c ∧
    BigInt (lc_leaf c) = Ok v ∧ BN254_MODULUS <= v ∧
    validateLeafCommitment "later" (leaf_json c) = InvalidCommitment errs.
Proof.
  set (nines := "9999999999999999999999999999999999999999999999999999999999999999").
  set (raw := JObj [("leaf", JStr nines); ("schemaId", JStr nines);
                    ("attestationUid", JStr nines);
                    ("holderSignature", JStr (nines +:+ nines +:+ "99"))]).
  destruct (validateLeafCommitment "now" raw) as [c|] eqn:E; [|vm_compute in E; discriminate].
  vm_compute in E. injection E as <-.
  eexists raw, _, _, _. split_and!; [reflexivity|reflexivity| |reflexivity].
  vm_compute. discriminate.
Qed.

(** *** Witnesses *)
Definition h32 (c : Ascii.ascii) : string := "0x" +:+ Nat.iter 64 (String c) "".
Definition sample_raw : jval :=
  JObj [("id", JStr " Alice "); ("leaf", JStr (h32 "1")); ("schemaId", JStr (h32 "2"));
        ("attestationUid", JStr (h32 "3"));
        ("holderSignature", JStr (Nat.iter 130 (String "a"%char) "")); ("ledger", JNum 7)].
Definition sample_leaf : LeafCommitment :=
  mkLeaf "alice" (h32 "1") (h32 "2") (h32 "3") (Nat.iter 130 (String "a"%char) "")
    None (Some 7) "t0".

Lemma sample_valid : validateLeafCommitment "t0" sample_raw = ValidCommitment sample_leaf.
Proof. vm_compute. reflexivity. Qed.

Lemma accepted_prefixed_leaf_in_field_witness :
  ∃ v, BigInt (lc_leaf sample_leaf) = Ok v ∧ 0 <= v < BN254_MODULUS.
Proof.
  apply (accepted_prefixed_leaf_in_field "t0" sample_raw sample_leaf (h32 "1")).
  - vm_compute. reflexivity.
  - reflexivity.
  - vm_compute. reflexivity.
Defined.

Lemma stored_commitment_roundtrip_witness :
  validateLeafCommitment "t1" (leaf_json sample_leaf)
  = ValidCommitment (with_submittedAt "t1" sample_leaf).
Proof.
  destruct (BigInt (lc_leaf sample_leaf)) as [v|] eqn:E; [|vm_compute in E; discriminate].
  apply (stored_commitment_roundtrip "t0" "t1" sample_raw sample_leaf v).
  - vm_compute. reflexivity.
  - vm_compute. discriminate.
  - exact E.
  - vm_compute in E. injection E as <-. vm_compute. reflexivity.
Defined.

Lemma submission_message_binding_witness :
  hex32 (h32 "1") ∧ h32 "1" = h32 "1" ∧ h32 "2" = h32 "2" ∧ h32 "4" = h32 "4".
Proof.
  assert (H1 : hex32 (h32 "1")) by (eexists; split_and!; reflexivity).
  assert (H2 : hex32 (h32 "2")) by (eexists; split_and!; reflexivity).
  split; [exact H1|].
  exact (submission_message_binding (h32 "1") (h32 "2") (h32 "4") (h32 "1") (h32 "2") (h32 "4")
           H1 H2 H1 H2 eq_refl).
Defined.
