(* ===== verification/PubStore.v ===== *)
(** * Publisher: durable store

    [publisher/src/store.ts].  [Store] is the interface the tick and the HTTP
    server use, with the laws they rely on; [MemoryStore] and [FileStore] are
    the two implementations.  A file holds the value its JSON text parses to,
    or [None] when the text does not parse. *)
From Stdlib Require Import Ascii.
From stdpp Require Import base tactics list sorting sets strings.
From Stdlib Require Import ZArith Lia.
From S2P Require Import Prelude JsString JsMap Bytes Json PubValidate.
Open Scope string_scope.
Open Scope list_scope.
Open Scope Z_scope.

Record PublisherState : Type := mkPubState {
  ps_verifierId : string;
  ps_leaves : list LeafCommitment;
  ps_lastPublishedRoot : option string;
  ps_lastPublishedLedger : option Z;
  ps_lastDatasetHash : option string;
  ps_updatedAt : string;
}.

Record QuarantinedFile : Type := mkQuarantined {
  qf_filename : string;
  qf_originalContent : jval;
  qf_errors : list string;
  qf_quarantinedAt : string;
}.

Definition DEFAULT_MAX_INBOX_SIZE : Z := 10000.

(** What the tick and the server call, and what they expect of it. *)
Class Store (S : Type) : Type := {
  st_load : string → S → option PublisherState;
  st_save : PublisherState → S → S;
  st_readInbox : string → S → list LeafCommitment * S;
  st_writeInbox : Z → LeafCommitment → S → bool * S;
  st_archiveInbox : string → list string → S → S;
  st_inboxSize : S → Z;
}.

Class StoreLaws (S : Type) `{Store S} : Prop := {
  (** a saved state is what the next load returns *)
  load_save : ∀ st s, st_load (ps_verifierId st) (st_save st s) = Some st;
  (** inbox operations leave the published state alone, and [save] the inbox *)
  load_readInbox : ∀ v now s, st_load v (st_readInbox now s).2 = st_load v s;
  load_archiveInbox : ∀ v now ids s, st_load v (st_archiveInbox now ids s) = st_load v s;
  (** whatever the inbox yields has been validated *)
  readInbox_canonical : ∀ now s, Forall canonical (st_readInbox now s).1;
  (** archiving exactly what was read empties the inbox *)
  readInbox_archived : ∀ now now' now'' st s,
    (st_readInbox now'' (st_archiveInbox now' (lc_id <$> (st_readInbox now s).1)
       (st_save st (st_readInbox now s).2))).1 = [];
}.

Definition normalizeCommitment (now : string) (raw : jval) : res LeafCommitment :=
  match validateLeafCommitment now raw with
  | InvalidCommitment errors => Err (JsError ("invalid commitment: " +:+ join "; " errors))
  | ValidCommitment c => Ok (with_submittedAt now c)
  end.

(** ** In-memory store *)
Module MemoryStore.
Record t : Type := mk {
  state : option PublisherState;
  maxInboxSize : Z;
  inbox : list LeafCommitment;
  archived : list string;
  quarantined : list QuarantinedFile;
}.

Definition new (maxInboxSize : option Z) : t :=
  mk None (default DEFAULT_MAX_INBOX_SIZE maxInboxSize) [] [] [].

Definition load (_ : string) (s : t) : option PublisherState := state s.

Definition save (st : PublisherState) (s : t) : t :=
  mk (Some st) (maxInboxSize s) (inbox s) (archived s) (quarantined s).

Definition inboxSize (s : t) : Z := Z.of_nat (length (inbox s)).

Definition quarantineFile (filename : string) (raw : jval) (errors : list string)
    (now : string) (s : t) : t :=
  mk (state s) (maxInboxSize s) (inbox s) (archived s)
    (quarantined s ++ [mkQuarantined filename raw errors now]).

Definition readInbox_step (now : string) (acc : list LeafCommitment * t)
    (item : LeafCommitment) : list LeafCommitment * t :=
  let '(valid, s) := acc in
  match validateLeafCommitment now (leaf_json item) with
  | ValidCommitment c => (valid ++ [c], s)
  | InvalidCommitment errors =>
      (valid, quarantineFile (lc_id item) (leaf_json item) errors now s)
  end.

Definition readInbox (now : string) (s : t) : list LeafCommitment * t :=
  let '(valid, s') := foldl (readInbox_step now) ([], s) (inbox s) in
  (valid, mk (state s') (maxInboxSize s') valid (archived s') (quarantined s')).

Definition writeInbox (_ : Z) (commitment : LeafCommitment) (s : t) : bool * t :=
  if maxInboxSize s <=? inboxSize s then (false, s)
  else (true, mk (state s) (maxInboxSize s) (inbox s ++ [commitment]) (archived s) (quarantined s)).

Definition archiveInbox (_ : string) (ids : list string) (s : t) : t :=
  mk (state s) (maxInboxSize s)
    (List.filter (λ x, negb (bool_decide (lc_id x ∈ ids))) (inbox s))
    (archived s ++ ids) (quarantined s).

Definition listQuarantine (s : t) : list QuarantinedFile := quarantined s.
Definition quarantineSize (s : t) : Z := Z.of_nat (length (quarantined s)).
End MemoryStore.

Global Instance memory_store : Store MemoryStore.t := {|
  st_load := MemoryStore.load;
  st_save := MemoryStore.save;
  st_readInbox := MemoryStore.readInbox;
  st_writeInbox := MemoryStore.writeInbox;
  st_archiveInbox := MemoryStore.archiveInbox;
  st_inboxSize := MemoryStore.inboxSize;
|}.

(** ** File-backed store

    Each directory is a map from file names to contents; state files are keyed
    by the verifier id that names them. *)
Module FileStore.
Record t : Type := mk {
  maxInboxSize : Z;
  stateDir : list (string * PublisherState);
  inboxDir : list (string * option jval);
  archiveDir : list (string * option jval);
  quarantineDir : list (string * QuarantinedFile);
}.

Definition new (maxInboxSize : option Z) : t :=
  mk (default DEFAULT_MAX_INBOX_SIZE maxInboxSize) [] [] [] [].

Definition load (verifierId : string) (s : t) : option PublisherState :=
  JMap.get verifierId (stateDir s).

Definition save (st : PublisherState) (s : t) : t :=
  mk (maxInboxSize s) (JMap.set (ps_verifierId st) st (stateDir s))
    (inboxDir s) (archiveDir s) (quarantineDir s).

Definition endsWith_json (name : string) : bool :=
  let n := String.length name in
  (5 <=? n)%nat && String.eqb (drop_string (n - 5) name) ".json".

(** [readdirSync(dir).filter((x) => x.endsWith(".json"))] *)
Definition json_names {A} (dir : list (string * A)) : list string :=
  List.filter endsWith_json (JMap.keys dir).

Definition inboxSize (s : t) : Z := Z.of_nat (length (json_names (inboxDir s))).

(** [name.replace(/[^a-z0-9_.-]/gi, "_")] *)
Definition safe_char (c : Ascii.ascii) : Ascii.ascii :=
  let n := code (lower_char c) in
  if ((97 <=? n) && (n <=? 122)) || ((48 <=? n) && (n <=? 57))
     || Ascii.eqb c "_" || Ascii.eqb c "." || Ascii.eqb c "-"
  then c else "_"%char.
Definition sanitize (s : string) : string := map_string safe_char s.

Definition quarantineFile (filename : string) (raw : jval) (errors : list string)
    (now : string) (s : t) : t :=
  mk (maxInboxSize s) (stateDir s) (inboxDir s) (archiveDir s)
    (JMap.set (sanitize filename +:+ ".json") (mkQuarantined filename raw errors now)
       (quarantineDir s)).

Definition unlink_inbox (name : string) (s : t) : t :=
  mk (maxInboxSize s) (stateDir s) (JMap.del name (inboxDir s)) (archiveDir s) (quarantineDir s).

Definition parse_error_note : jval := JObj [("parseError", JBool true)].

Definition readInbox_step (now : string) (acc : list LeafCommitment * t)
    (name : string) : list LeafCommitment * t :=
  let '(out, s) := acc in
  match JMap.get name (inboxDir s) with
  | Some (Some raw) =>
      match validateLeafCommitment now raw with
      | ValidCommitment c => (out ++ [c], s)
      | InvalidCommitment errors =>
          (out, unlink_inbox name (quarantineFile name raw errors now s))
      end
  | _ =>
      (out, unlink_inbox name
              (quarantineFile name parse_error_note ["parse error: "] now s))
  end.

Definition readInbox (now : string) (s : t) : list LeafCommitment * t :=
  foldl (readInbox_step now) ([], s) (merge_sort String.le (json_names (inboxDir s))).

(** [Date.now().toString(36)] of the write time. *)
Definition base36_digit (d : Z) : Ascii.ascii := if d <? 10 then char (48 + d) else char (87 + d).
Fixpoint base36 (fuel : nat) (n : Z) : string :=
  match fuel with
  | O => ""
  | S f => if n <? 36 then String (base36_digit n) ""
           else base36 f (n / 36) +:+ String (base36_digit (n mod 36)) ""
  end.

Definition inbox_name (nowMs : Z) (id : string) : string :=
  base36 (num_fuel nowMs) nowMs +:+ "_" +:+ sanitize id +:+ ".json".

Definition writeInbox (nowMs : Z) (commitment : LeafCommitment) (s : t) : bool * t :=
  if maxInboxSize s <=? inboxSize s then (false, s)
  else
    let name := inbox_name nowMs (lc_id commitment) in
    (true, mk (maxInboxSize s) (stateDir s)
             (JMap.set name (Some (leaf_json commitment)) (inboxDir s))
             (archiveDir s) (quarantineDir s)).

Definition archive_step (now : string) (wanted : list string) (s : t) (name : string) : t :=
  let content := JMap.get name (inboxDir s) in
  match (match content with
         | Some (Some raw) => normalizeCommitment now raw
         | _ => Err (SyntaxError "parse error")
         end) with
  | Ok c =>
      if bool_decide (lc_id c ∈ wanted) then
        mk (maxInboxSize s) (stateDir s) (JMap.del name (inboxDir s))
          (JMap.set name (default None content) (archiveDir s)) (quarantineDir s)
      else s
  | Err e =>
      unlink_inbox name
        (quarantineFile name parse_error_note ["parse error: " +:+ err_message e] now s)
  end.

Definition archiveInbox (now : string) (ids : list string) (s : t) : t :=
  match ids with
  | [] => s
  | _ => foldl (archive_step now ids) s (json_names (inboxDir s))
  end.

Definition listQuarantine (s : t) : list QuarantinedFile :=
  omap (λ name, JMap.get name (quarantineDir s))
    (merge_sort String.le (json_names (quarantineDir s))).
Definition quarantineSize (s : t) : Z := Z.of_nat (length (json_names (quarantineDir s))).
End FileStore.

Global Instance file_store : Store FileStore.t := {|
  st_load := FileStore.load;
  st_save := FileStore.save;
  st_readInbox := FileStore.readInbox;
  st_writeInbox := FileStore.writeInbox;
  st_archiveInbox := FileStore.archiveInbox;
  st_inboxSize := FileStore.inboxSize;
|}.

(** ** The implementations satisfy the interface *)
Lemma memory_read_fold now l valid s :
  Forall canonical valid →
  let r := foldl (MemoryStore.readInbox_step now) (valid, s) l in
  Forall canonical r.1 ∧ MemoryStore.state r.2 = MemoryStore.state s.
Proof.
  revert valid s. induction l as [|x l IH]; intros valid s Hv; simpl; [done|].
  destruct (validateLeafCommitment now (leaf_json x)) as [c|errs] eqn:E; simpl.
  - apply IH. apply Forall_app. split; [done|]. constructor; [|constructor].
    by eapply validate_canonical.
  - destruct (IH valid (MemoryStore.quarantineFile (lc_id x) (leaf_json x) errs now s) Hv) as [H1 H2].
    by split.
Qed.

(** The time only enters the time stamp. *)
Lemma validate_now now now' raw c :
  validateLeafCommitment now raw = ValidCommitment c →
  validateLeafCommitment now' raw = ValidCommitment (with_submittedAt now' c).
Proof.
  unfold validateLeafCommitment. destruct (negb _); [done|].
  destruct (_ ++ _); [|done]. repeat case_match; try done; by intros [= <-].
Qed.

Lemma filter_out_own_ids (l : list LeafCommitment) :
  List.filter (λ x, negb (bool_decide (lc_id x ∈ lc_id <$> l))) l = [].
Proof.
  assert (H : ∀ l', l' ⊆ l →
    List.filter (λ x, negb (bool_decide (lc_id x ∈ lc_id <$> l))) l' = []).
  { induction l' as [|x l' IH]; intros Hs; simpl; [done|].
    rewrite bool_decide_true.
    - apply IH. set_solver.
    - apply list_elem_of_fmap. exists x. split; [done|]. apply Hs. by left. }
  by apply H.
Qed.

Global Instance memory_store_laws : StoreLaws MemoryStore.t.
Proof.
  split.
  - done.
  - intros v now s. simpl. unfold MemoryStore.readInbox, MemoryStore.load.
    pose proof (memory_read_fold now (MemoryStore.inbox s) [] s (Forall_nil_2 _)) as [_ H].
    by destruct (foldl _ _ _) as [valid s'].
  - done.
  - intros now s. simpl. unfold MemoryStore.readInbox.
    pose proof (memory_read_fold now (MemoryStore.inbox s) [] s (Forall_nil_2 _)) as [H _].
    by destruct (foldl _ _ _) as [valid s'].
  - intros now now' now'' st s. cbn [st_readInbox st_archiveInbox st_save memory_store].
    unfold MemoryStore.readInbox at 2 3. destruct (foldl _ _ _) as [valid s'].
    unfold MemoryStore.readInbox. cbn. by rewrite filter_out_own_ids.
Qed.

Lemma file_read_fold now l out s :
  Forall canonical out →
  let r := foldl (FileStore.readInbox_step now) (out, s) l in
  Forall canonical r.1 ∧ FileStore.stateDir r.2 = FileStore.stateDir s.
Proof.
  revert out s. induction l as [|x l IH]; intros out s Hv; [done|].
  cbn [foldl]. unfold FileStore.readInbox_step at 2 4.
  destruct (JMap.get x (FileStore.inboxDir s)) as [[raw|]|].
  - destruct (validateLeafCommitment now raw) as [c|errs] eqn:E.
    + apply IH. apply Forall_app. split; [done|]. constructor; [|constructor].
      by eapply validate_canonical.
    + edestruct (IH out) as [H1 H2]; [done|]. split; [apply H1|]. by rewrite H2.
  - edestruct (IH out) as [H1 H2]; [done|]. split; [apply H1|]. by rewrite H2.
  - edestruct (IH out) as [H1 H2]; [done|]. split; [apply H1|]. by rewrite H2.
Qed.

Lemma file_archive_fold now ids l s :
  FileStore.stateDir (foldl (FileStore.archive_step now ids) s l) = FileStore.stateDir s.
Proof.
  revert s. induction l as [|x l IH]; intros s; simpl; [done|]. rewrite IH.
  unfold FileStore.archive_step.
  destruct (match _ with Some (Some raw) => _ | _ => _ end) as [c|e]; [|done].
  by destruct (bool_decide _).
Qed.

(** Reading keeps in the inbox exactly files that validate, and yields them. *)
Definition readable (now : string) (out : list LeafCommitment) (s : FileStore.t) (n : string) : Prop :=
  n ∈ JMap.keys (FileStore.inboxDir s) →
  ∃ raw c, JMap.get n (FileStore.inboxDir s) = Some (Some raw) ∧
    validateLeafCommitment now raw = ValidCommitment c ∧ c ∈ out.

Lemma readable_unlink now out s s' n x :
  FileStore.inboxDir s' = FileStore.inboxDir s →
  readable now out s n → readable now out (FileStore.unlink_inbox x s') n.
Proof.
  intros Hd Hr Hn. simpl in *. rewrite Hd in *.
  apply JMap.elem_of_keys_del in Hn as [Hn Hne]. destruct (Hr Hn) as (raw & c & Hg & H).
  exists raw, c. by rewrite JMap.get_del_ne.
Qed.

Lemma readable_unlinked now out s x : readable now out (FileStore.unlink_inbox x s) x.
Proof. intros Hn. simpl in Hn. by apply JMap.elem_of_keys_del in Hn as [_ []]. Qed.

Lemma file_read_step now out s x :
  let r := FileStore.readInbox_step now (out, s) x in
  readable now r.1 r.2 x ∧ (∀ n, readable now out s n → readable now r.1 r.2 n) ∧
  JMap.keys (FileStore.inboxDir r.2) ⊆ JMap.keys (FileStore.inboxDir s).
Proof.
  assert (Hdel : JMap.keys (JMap.del x (FileStore.inboxDir s)) ⊆ JMap.keys (FileStore.inboxDir s)).
  { intros n Hn. by apply JMap.elem_of_keys_del in Hn as [? _]. }
  unfold FileStore.readInbox_step.
  destruct (JMap.get x (FileStore.inboxDir s)) as [[raw|]|] eqn:Hg.
  - destruct (validateLeafCommitment now raw) as [c|errs] eqn:E; cbn [fst snd].
    + split_and!; [|intros n Hr Hn|done].
      * intros _. exists raw, c. split_and!; [done..|]. apply elem_of_app. right. by left.
      * destruct (Hr Hn) as (raw' & c' & ? & ? & ?). exists raw', c'.
        split_and!; [done..|]. apply elem_of_app. by left.
    + split_and!; [apply readable_unlinked|intros n; by apply readable_unlink|exact Hdel].
  - split_and!; [apply readable_unlinked|intros n; by apply readable_unlink|exact Hdel].
  - split_and!; [apply readable_unlinked|intros n; by apply readable_unlink|exact Hdel].
Qed.

Lemma file_read_all now l out s :
  let r := foldl (FileStore.readInbox_step now) (out, s) l in
  (∀ n, n ∈ l ∨ readable now out s n → readable now r.1 r.2 n) ∧
  JMap.keys (FileStore.inboxDir r.2) ⊆ JMap.keys (FileStore.inboxDir s).
Proof.
  revert out s. induction l as [|x l IH]; intros out s.
  { split; [|done]. intros n [Hn|]; [by apply elem_of_nil in Hn|done]. }
  cbn [foldl]. destruct (file_read_step now out s x) as (Hx & Hk & Hs).
  destruct (FileStore.readInbox_step now (out, s) x) as [out' s'].
  destruct (IH out' s') as [IH1 IH2]. split; [|set_solver].
  intros n [[->|Hn]%elem_of_cons|Hr]; apply IH1; auto.
Qed.

Lemma elem_of_json_names {A} (d : list (string * A)) n :
  n ∈ FileStore.json_names d ↔ n ∈ JMap.keys d ∧ FileStore.endsWith_json n = true.
Proof. unfold FileStore.json_names. by rewrite !list_elem_of_In, filter_In. Qed.

(** After a read, every file of the inbox is one of the commitments returned. *)
Lemma file_readInbox_readable now s n :
  let r := FileStore.readInbox now s in
  n ∈ FileStore.json_names (FileStore.inboxDir r.2) → readable now r.1 r.2 n.
Proof.
  intros r Hn. unfold r, FileStore.readInbox.
  set (l := merge_sort String.le (FileStore.json_names (FileStore.inboxDir s))).
  destruct (file_read_all now l [] s) as [H1 H2]. apply H1. left.
  unfold l. rewrite merge_sort_Permutation. apply elem_of_json_names.
  apply elem_of_json_names in Hn as [Hn He]. split; [by apply H2|done].
Qed.

Lemma file_archive_step now ids s x :
  let s' := FileStore.archive_step now ids s x in
  (∀ n, n ≠ x → JMap.get n (FileStore.inboxDir s') = JMap.get n (FileStore.inboxDir s)) ∧
  JMap.keys (FileStore.inboxDir s') ⊆ JMap.keys (FileStore.inboxDir s) ∧
  (∀ raw c, JMap.get x (FileStore.inboxDir s) = Some (Some raw) →
     normalizeCommitment now raw = Ok c → lc_id c ∈ ids →
     x ∉ JMap.keys (FileStore.inboxDir s')).
Proof.
  assert (Hdel : JMap.keys (JMap.del x (FileStore.inboxDir s)) ⊆ JMap.keys (FileStore.inboxDir s)).
  { intros n Hn. by apply JMap.elem_of_keys_del in Hn as [? _]. }
  assert (Hne : x ∉ JMap.keys (JMap.del x (FileStore.inboxDir s))).
  { intros Hn. by apply JMap.elem_of_keys_del in Hn as [_ []]. }
  intros s'. unfold s', FileStore.archive_step.
  destruct (match _ with Some (Some raw) => _ | _ => _ end) as [c|e] eqn:E.
  - case_bool_decide as Hid; cbn.
    + split_and!; [intros n Hn; by rewrite JMap.get_del_ne|done|auto].
    + split_and!; [done..|]. intros raw c' Hg Hc Hin. rewrite Hg in E. congruence.
  - cbn. split_and!; [intros n Hn; by rewrite JMap.get_del_ne|done|auto].
Qed.

Lemma file_archive_all now ids l s :
  (∀ n, n ∈ l → n ∈ JMap.keys (FileStore.inboxDir s) →
     ∃ raw c, JMap.get n (FileStore.inboxDir s) = Some (Some raw) ∧
       normalizeCommitment now raw = Ok c ∧ lc_id c ∈ ids) →
  let s' := foldl (FileStore.archive_step now ids) s l in
  JMap.keys (FileStore.inboxDir s') ⊆ JMap.keys (FileStore.inboxDir s) ∧
  ∀ n, n ∈ l → n ∉ JMap.keys (FileStore.inboxDir s').
Proof.
  revert s. induction l as [|x l IH]; intros s Hall.
  { split; [done|]. intros n Hn. by apply elem_of_nil in Hn. }
  cbn [foldl]. destruct (file_archive_step now ids s x) as (Hg & Hk & Hx).
  assert (Hx' : x ∉ JMap.keys (FileStore.inboxDir (FileStore.archive_step now ids s x))).
  { destruct (decide (x ∈ JMap.keys (FileStore.inboxDir s))) as [Hin|Hout]; [|set_solver].
    destruct (Hall x (list_elem_of_here x l) Hin) as (raw & c & H1 & H2 & H3). by eapply Hx. }
  edestruct (IH (FileStore.archive_step now ids s x)) as [IH1 IH2].
  - intros n Hn Hin. destruct (decide (n = x)) as [->|Hne]; [done|].
    rewrite Hg by done. apply Hall; [by right|set_solver].
  - split; [set_solver|]. intros n [->|Hn]%elem_of_cons; [set_solver|auto].
Qed.

Lemma file_archived_empty now now' s st :
  let r := FileStore.readInbox now s in
  FileStore.json_names (FileStore.inboxDir
    (FileStore.archiveInbox now' (lc_id <$> r.1) (FileStore.save st r.2))) = [].
Proof.
  intros r.
  assert (Hr : ∀ n, n ∈ FileStore.json_names (FileStore.inboxDir r.2) → readable now r.1 r.2 n)
    by (intros n; apply file_readInbox_readable).
  set (s2 := FileStore.archiveInbox now' (lc_id <$> r.1) (FileStore.save st r.2)).
  enough (Hno : ∀ n, n ∉ FileStore.json_names (FileStore.inboxDir s2)).
  { by apply elem_of_nil_inv. }
  intros n Hn. unfold s2, FileStore.archiveInbox in Hn.
  destruct (lc_id <$> r.1) as [|i ids] eqn:Hids.
  - cbn [FileStore.save FileStore.inboxDir] in Hn.
    destruct (Hr n Hn) as (raw & c & _ & _ & Hc); [by apply elem_of_json_names in Hn as [? _]|].
    apply fmap_nil_inv in Hids. rewrite Hids in Hc. by apply elem_of_nil in Hc.
  - rewrite <-Hids in Hn. cbn [FileStore.save FileStore.inboxDir] in Hn.
    edestruct (file_archive_all now' (lc_id <$> r.1) (FileStore.json_names (FileStore.inboxDir r.2))
      (FileStore.save st r.2)) as [Hk Hall].
    + cbn [FileStore.save FileStore.inboxDir]. intros m Hm Hmk.
      destruct (Hr m Hm Hmk) as (raw & c & Hg & Hv & Hc).
      exists raw, (with_submittedAt now' (with_submittedAt now' c)). split; [done|].
      unfold normalizeCommitment. rewrite (validate_now _ now' _ _ Hv). split; [done|].
      apply list_elem_of_fmap. by exists c.
    + apply elem_of_json_names in Hn as [Hn He]. apply (Hall n); [|exact Hn].
      apply elem_of_json_names. split; [by apply Hk in Hn|done].
Qed.

Global Instance file_store_laws : StoreLaws FileStore.t.
Proof.
  split.
  - intros st s. simpl. unfold FileStore.load, FileStore.save. simpl. apply JMap.get_set_eq.
  - intros v now s. simpl. unfold FileStore.load, FileStore.readInbox.
    by rewrite (proj2 (file_read_fold now _ [] s (Forall_nil_2 _))).
  - intros v now ids s. simpl. unfold FileStore.load, FileStore.archiveInbox.
    destruct ids; [done|]. by rewrite file_archive_fold.
  - intros now s. simpl. apply (proj1 (file_read_fold now _ [] s (Forall_nil_2 _))).
  - intros now now' now'' st s. cbn [st_readInbox st_archiveInbox st_save file_store].
    pose proof (file_archived_empty now now' s st) as H. cbv zeta in H.
    unfold FileStore.readInbox at 1. by rewrite H.
Qed.

(** ** Properties of the inbox *)

Lemma file_archive_keeps now ids l s n raw c :
  JMap.get n (FileStore.inboxDir s) = Some (Some raw) →
  normalizeCommitment now raw = Ok c → lc_id c ∉ ids →
  JMap.get n (FileStore.inboxDir (foldl (FileStore.archive_step now ids) s l)) = Some (Some raw).
Proof.
  intros Hg Hc Hid. revert s Hg. induction l as [|x l IH]; intros s Hg; [done|].
  cbn [foldl]. apply IH. destruct (decide (n = x)) as [->|Hne].
  - unfold FileStore.archive_step. by rewrite Hg, Hc, bool_decide_false.
  - by rewrite (proj1 (file_archive_step now ids s x) n Hne).
Qed.

Lemma file_archiveInbox_keeps now ids s n raw c :
  JMap.get n (FileStore.inboxDir s) = Some (Some raw) →
  normalizeCommitment now raw = Ok c → lc_id c ∉ ids →
  JMap.get n (FileStore.inboxDir (FileStore.archiveInbox now ids s)) = Some (Some raw).
Proof.
  intros Hg Hc Hid. unfold FileStore.archiveInbox. destruct ids as [|i ids]; [done|].
  by eapply file_archive_keeps.
Qed.

(** A commitment that arrives while a tick is running (after the
    tick read the inbox, before it archives what it read) is still in the inbox
    after the tick, unless the tick had already processed the same id. *)
Theorem late_submission_survives now now' nowMs st s c s1 v :
  FileStore.writeInbox nowMs c (FileStore.readInbox now s).2 = (true, s1) →
  canonical c → lc_id c ≠ "" → BigInt (lc_leaf c) = Ok v → v < BN254_MODULUS →
  lc_id c ∉ (lc_id <$> (FileStore.readInbox now s).1) →
  JMap.get (FileStore.inbox_name nowMs (lc_id c))
    (FileStore.inboxDir (FileStore.archiveInbox now' (lc_id <$> (FileStore.readInbox now s).1)
       (FileStore.save st s1))) = Some (Some (leaf_json c)).
Proof.
  intros Hw Hc Hid Hv Hlt Hnot. unfold FileStore.writeInbox in Hw.
  destruct (_ <=? _); [done|]. injection Hw as <-.
  apply (file_archiveInbox_keeps _ _ _ _ _ (with_submittedAt now' (with_submittedAt now' c)));
    [apply JMap.get_set_eq| |done].
  unfold normalizeCommitment. by rewrite (proj2 (revalidate_canonical now' c v Hc Hid Hv) Hlt).
Qed.

(** Two submissions of the same millisecond whose ids differ only in
    characters the file name replaces are both acknowledged, and the second
    overwrites the first: the time prefix does not separate them. *)
Theorem same_millisecond_overwrite nowMs c1 c2 s s1 s2 :
  FileStore.writeInbox nowMs c1 s = (true, s1) →
  FileStore.writeInbox nowMs c2 s1 = (true, s2) →
  FileStore.sanitize (lc_id c1) = FileStore.sanitize (lc_id c2) →
  JMap.keys (FileStore.inboxDir s2) = JMap.keys (FileStore.inboxDir s1) ∧
  JMap.get (FileStore.inbox_name nowMs (lc_id c1)) (FileStore.inboxDir s2)
    = Some (Some (leaf_json c2)).
Proof.
  unfold FileStore.writeInbox. intros H1 H2 Heq.
  destruct (_ <=? FileStore.inboxSize s); [done|]. injection H1 as <-.
  destruct (_ <=? FileStore.inboxSize _); [done|]. injection H2 as <-.
  assert (FileStore.inbox_name nowMs (lc_id c1) = FileStore.inbox_name nowMs (lc_id c2)) as ->.
  { unfold FileStore.inbox_name. by rewrite Heq. }
  cbn. split; [apply JMap.keys_set_present, JMap.elem_of_keys_set; auto|apply JMap.get_set_eq].
Qed.

Lemma json_names_set_length {A} k (v : A) d :
  (length (FileStore.json_names (JMap.set k v d)) <= length (FileStore.json_names d) + 1)%nat.
Proof.
  unfold FileStore.json_names. destruct (decide (k ∈ JMap.keys d)) as [Hk|Hk].
  - rewrite JMap.keys_set_present by done. lia.
  - rewrite JMap.set_absent by done. unfold JMap.keys.
    rewrite fmap_app, List.filter_app, length_app. simpl. case_match; simpl; lia.
Qed.

(** Backpressure.  A write is refused exactly when the inbox is at
    its limit, a refused write changes nothing, and an acknowledged one is on
    disk and leaves the inbox within its limit. *)
Theorem writeInbox_backpressure nowMs c s :
  let '(ok, s') := FileStore.writeInbox nowMs c s in
  (ok = false ↔ FileStore.maxInboxSize s <= FileStore.inboxSize s) ∧
  (ok = false → s' = s) ∧
  (ok = true →
     FileStore.inboxSize s' <= FileStore.maxInboxSize s' ∧
     JMap.get (FileStore.inbox_name nowMs (lc_id c)) (FileStore.inboxDir s')
       = Some (Some (leaf_json c))).
Proof.
  unfold FileStore.writeInbox. destruct (Z.leb_spec (FileStore.maxInboxSize s) (FileStore.inboxSize s)).
  - by split_and!.
  - split_and!; [split; [done|lia]|done|]. intros _. cbn [FileStore.inboxDir FileStore.maxInboxSize].
    split; [|apply JMap.get_set_eq]. unfold FileStore.inboxSize in *. cbn [FileStore.inboxDir FileStore.maxInboxSize fst snd].
    pose proof (json_names_set_length (FileStore.inbox_name nowMs (lc_id c))
      (Some (leaf_json c)) (FileStore.inboxDir s)). lia.
Qed.

(** *** Witnesses *)
Definition leaf_with_id (id : string) : LeafCommitment :=
  mkLeaf id (h32 "1") (h32 "2") (h32 "3") (Nat.iter 130 (String "a"%char) "") None (Some 7) "t0".

Lemma late_submission_survives_witness :
  JMap.get (FileStore.inbox_name 1000 "bob")
    (FileStore.inboxDir (FileStore.archiveInbox "t2" ["alice"]
       (FileStore.save (mkPubState "v" [] None None None "t1")
          (FileStore.writeInbox 1000 (leaf_with_id "bob")
             (FileStore.readInbox "t1"
                (FileStore.writeInbox 999 (leaf_with_id "alice") (FileStore.new None)).2).2).2)))
  = Some (Some (leaf_json (leaf_with_id "bob"))).
Proof.
  set (s := (FileStore.writeInbox 999 (leaf_with_id "alice") (FileStore.new None)).2).
  destruct (BigInt (lc_leaf (leaf_with_id "bob"))) as [v|] eqn:E; [|vm_compute in E; discriminate].
  assert (Hc : canonical (leaf_with_id "bob")).
  { eapply (validate_canonical "t0" (leaf_json (leaf_with_id "bob"))). vm_compute. reflexivity. }
  apply (late_submission_survives "t1" "t2" 1000 (mkPubState "v" [] None None None "t1") s
           (leaf_with_id "bob") _ v).
  - vm_compute. reflexivity.
  - exact Hc.
  - discriminate.
  - exact E.
  - vm_compute in E. injection E as <-. vm_compute. reflexivity.
  - vm_compute. intros H. repeat (apply elem_of_cons in H as [H|H]; [discriminate|]).
    by apply elem_of_nil in H.
Defined.

Lemma same_millisecond_overwrite_witness :
  ∃ s1 s2,
    FileStore.writeInbox 1000 (leaf_with_id "a b") (FileStore.new None) = (true, s1) ∧
    FileStore.writeInbox 1000 (leaf_with_id "a/b") s1 = (true, s2) ∧
    JMap.get (FileStore.inbox_name 1000 "a b") (FileStore.inboxDir s2)
      = Some (Some (leaf_json (leaf_with_id "a/b"))).
Proof.
  eexists _, _. split_and!; [reflexivity|reflexivity|].
  eapply (same_millisecond_overwrite 1000 (leaf_with_id "a b") (leaf_with_id "a/b") (FileStore.new None));
    reflexivity.
Defined.
