(* ===== verification/PubEngine.v ===== *)
(** * Publisher: the publication tick

    [publisher/src/engine.ts] ([mergeLeaves], [runPublisherTick]) and
    [publisher/src/publish.ts] ([computeDatasetHash], [rootManifest]).  The chain
    adapter (an RPC client) and SHA-256 are parameters: an adapter is any state
    transformer over a chain state, so every theorem holds for a chain that
    answers arbitrarily or fails. *)
From Stdlib Require Import Ascii.
From stdpp Require Import base tactics list sets strings.
From Stdlib Require Import ZArith Lia.
From S2P Require Import Prelude JsString JsMap Bytes Merkle Json PubValidate PubStore.
Import Hex32.
Open Scope string_scope.
Open Scope list_scope.
Open Scope Z_scope.

Record RootManifest : Type := mkManifest {
  rm_version : Z;
  rm_verifierId : string;
  rm_root : string;
  rm_datasetHash : string;
  rm_leafCount : Z;
  rm_leaves : list string;
  rm_generatedAt : string;
}.

Record PublisherMetrics : Type := mkMetrics {
  totalSubmitted : Z;
  totalAccepted : Z;
  totalRejected : Z;
  totalPublished : Z;
  currentInboxDepth : Z;
  currentLeafCount : Z;
  lastPublishAt : option string;
  lastPublishLatencyMs : option Z;
  startedAt : string;
  totalDuplicateResubmissions : Z;
  totalIdentityCollisions : Z;
  totalTickFailures : Z;
}.

Definition createMetrics (now : string) : PublisherMetrics :=
  mkMetrics 0 0 0 0 0 0 None None now 0 0 0.

(** ** Dataset hash and manifest *)
Section publish.
Context (sha256 : list byte → list byte).

Definition dataset_preimage (root : string) (leaves : list string) : res (list byte) :=
  rootBytes ← hex32ToBytes root;
  leafBytes ← mapM_res hex32ToBytes leaves;
  Ok (be_bytes 4 (Z.of_nat (length leaves)) ++ rootBytes ++ concat leafBytes).

Definition computeDatasetHash (root : string) (leaves : list string) : res string :=
  p ← dataset_preimage root leaves;
  Ok ("0x" +:+ hex_of_bytes (sha256 p)).

Definition rootManifest (verifierId root datasetHash : string) (leaves : list string)
    (generatedAt : string) : RootManifest :=
  mkManifest 1 verifierId root datasetHash (Z.of_nat (length leaves)) leaves generatedAt.
End publish.

(** ** Merging submissions into the tree *)
Definition initState (verifierId now : string) : PublisherState :=
  mkPubState verifierId [] None None None now.

Record MergeResult : Type := mkMerge {
  mr_byId : list (string * LeafCommitment);
  mr_byLeaf : list string;
  mr_acceptedLeaves : list LeafCommitment;
  mr_duplicateResubmissions : Z;
  mr_identityCollisions : list LeafCommitment;
}.

Definition merge_init (existing : list LeafCommitment) : MergeResult :=
  mkMerge (foldl (λ m l, JMap.set (lc_id l) l m) [] existing)
    (foldl (λ s l, JSet.add (lc_leaf l) s) [] existing) [] 0 [].

Definition merge_step (a : MergeResult) (leaf : LeafCommitment) : MergeResult :=
  let existingById := JMap.get (lc_id leaf) (mr_byId a) in
  let existingByLeaf := JSet.has (lc_leaf leaf) (mr_byLeaf a) in
  match existingById with
  | Some e =>
      if String.eqb (lc_leaf e) (lc_leaf leaf)
      then mkMerge (mr_byId a) (mr_byLeaf a) (mr_acceptedLeaves a)
             (mr_duplicateResubmissions a + 1) (mr_identityCollisions a)
      else mkMerge (mr_byId a) (mr_byLeaf a) (mr_acceptedLeaves a)
             (mr_duplicateResubmissions a) (mr_identityCollisions a ++ [leaf])
  | None =>
      if existingByLeaf
      then mkMerge (mr_byId a) (mr_byLeaf a) (mr_acceptedLeaves a)
             (mr_duplicateResubmissions a) (mr_identityCollisions a ++ [leaf])
      else mkMerge (JMap.set (lc_id leaf) leaf (mr_byId a)) (JSet.add (lc_leaf leaf) (mr_byLeaf a))
             (mr_acceptedLeaves a ++ [leaf]) (mr_duplicateResubmissions a)
             (mr_identityCollisions a)
  end.

Definition mergeLeaves (existing incoming : list LeafCommitment)
  : list LeafCommitment * list string * Z * list LeafCommitment :=
  let a := foldl merge_step (merge_init existing) incoming in
  (existing ++ mr_acceptedLeaves a, lc_id <$> mr_acceptedLeaves a,
   mr_duplicateResubmissions a, mr_identityCollisions a).

(** ** The tick *)
Class ChainAdapter (C : Type) : Type := {
  currentRoot : M C (option string);
  postRoot : string → string → M C (string * option Z);
  getAttestation : string → M C (option OnChainAttestation);
  currentLedger : M C Z;
}.

Record TickResult : Type := mkTickResult {
  tr_verifierId : string;
  tr_leafCount : Z;
  tr_newlyAccepted : Z;
  tr_localRoot : option string;
  tr_onChainRoot : option string;
  tr_datasetHash : option string;
  tr_published : bool;
  tr_txHash : option string;
  tr_latencyMs : Z;
}.

Record World (St C : Type) : Type := mkWorld {
  w_store : St;
  w_chain : C;
  w_metrics : option PublisherMetrics;
  w_manifests : list (string * RootManifest);   (** files under [dataDir/roots] *)
}.
Arguments mkWorld {St C}.
Arguments w_store {St C}.
Arguments w_chain {St C}.
Arguments w_metrics {St C}.
Arguments w_manifests {St C}.

Section tick.
Context {St C : Type} `{Store St} `{ChainAdapter C}.
Context (poseidon : list Z → Z) (sha256 keccak_256 : list byte → list byte).
Context (recoverPublicKey : list byte → Z → list byte → option (list byte)).

Definition on_chain {A} (m : M C A) : M (World St C) A := λ w,
  let '(r, c) := m (w_chain w) in
  (r, mkWorld (w_store w) c (w_metrics w) (w_manifests w)).
Definition on_store (f : St → St) : M (World St C) unit :=
  modify (λ w, mkWorld (f (w_store w)) (w_chain w) (w_metrics w) (w_manifests w)).
Definition on_metrics (f : PublisherMetrics → PublisherMetrics) : M (World St C) unit :=
  modify (λ w, mkWorld (w_store w) (w_chain w) (f <$> w_metrics w) (w_manifests w)).
Definition writeRootManifest (m : RootManifest) : M (World St C) unit :=
  modify (λ w, mkWorld (w_store w) (w_chain w) (w_metrics w)
    (JMap.set (rm_verifierId m +:+ "/" +:+ rm_root m +:+ ".json") m (w_manifests w))).

(** The eligibility test of one leaf against its on-chain attestation. *)
Definition eligible (ledger : Z) (leaf : LeafCommitment) (a : option OnChainAttestation) : bool :=
  match a with
  | None => false
  | Some att =>
      (oa_revocationLedger att =? 0)
      && ((oa_expirationLedger att =? 0) || (ledger <? oa_expirationLedger att))
      && String.eqb (toLowerCase (oa_schemaId att)) (toLowerCase (lc_schemaId leaf))
      && verifyHolderSignature keccak_256 recoverPublicKey (lc_attestationUid leaf)
           (lc_schemaId leaf) (lc_leaf leaf) (lc_holderSignature leaf)
           (oa_stealthAddressHash att)
  end.

Definition isValidLeaf (ledger : Z) (leaf : LeafCommitment) : M (World St C) bool :=
  a ← on_chain (getAttestation (lc_attestationUid leaf));
  mret (eligible ledger leaf a).

Fixpoint filterValid (ledger : Z) (l : list LeafCommitment) : M (World St C) (list LeafCommitment) :=
  match l with
  | [] => mret []
  | leaf :: l' =>
      v ← isValidLeaf ledger leaf;
      r ← filterValid ledger l';
      mret (if (v : bool) then leaf :: r else r)
  end.

Record TickConfig : Type := mkTickConfig {
  tc_verifierId : string;
  tc_dataDir : bool;          (** whether [dataDir] is set *)
  tc_minLeavesToPublish : option Z;
}.

Definition count_tick (leaves : list LeafCommitment) (dups : Z)
    (collisions : list LeafCommitment) (inboxDepth : Z) (m : PublisherMetrics) : PublisherMetrics :=
  mkMetrics (totalSubmitted m) (totalAccepted m) (totalRejected m) (totalPublished m)
    inboxDepth (Z.of_nat (length leaves)) (lastPublishAt m) (lastPublishLatencyMs m)
    (startedAt m) (totalDuplicateResubmissions m + dups)
    (totalIdentityCollisions m + Z.of_nat (length collisions)) (totalTickFailures m).
Definition count_publish (at_ : string) (m : PublisherMetrics) : PublisherMetrics :=
  mkMetrics (totalSubmitted m) (totalAccepted m) (totalRejected m) (totalPublished m + 1)
    (currentInboxDepth m) (currentLeafCount m) (Some at_) (lastPublishLatencyMs m)
    (startedAt m) (totalDuplicateResubmissions m) (totalIdentityCollisions m) (totalTickFailures m).
Definition set_latency (ms : Z) (m : PublisherMetrics) : PublisherMetrics :=
  mkMetrics (totalSubmitted m) (totalAccepted m) (totalRejected m) (totalPublished m)
    (currentInboxDepth m) (currentLeafCount m) (lastPublishAt m) (Some ms)
    (startedAt m) (totalDuplicateResubmissions m) (totalIdentityCollisions m) (totalTickFailures m).

(** The last part of the tick: compute the root, post it when it differs from
    the chain's, persist. *)
Definition publishLeaves (cfg : TickConfig) (at_ : string) (latencyMs : Z)
    (state : PublisherState) (processedIds acceptedIds : list string)
    : M (World St C) TickResult :=
  let leaves := ps_leaves state in
  let leafValues := lc_leaf <$> leaves in
  localRoot ← lift_res (buildRoot poseidon leafValues);
  datasetHash ← lift_res (computeDatasetHash sha256 localRoot leafValues);
  onChainRoot ← on_chain currentRoot;
  r ← (if bool_decide (Some localRoot = onChainRoot) then mret (state, false, None)
       else
         (when (tc_dataDir cfg)
            (writeRootManifest
               (rootManifest (tc_verifierId cfg) localRoot datasetHash leafValues at_)));;
         res ← on_chain (postRoot localRoot datasetHash);
         on_metrics (count_publish at_);;
         mret (mkPubState (ps_verifierId state) leaves (Some localRoot) res.2
                 (Some datasetHash) (ps_updatedAt state), true, Some res.1));
  let '(state', published, txHash) := r in
  on_store (st_save state');;
  on_store (st_archiveInbox at_ processedIds);;
  on_metrics (set_latency latencyMs);;
  mret (mkTickResult (tc_verifierId cfg) (Z.of_nat (length leaves))
          (Z.of_nat (length acceptedIds)) (Some localRoot) onChainRoot (Some datasetHash)
          published txHash latencyMs).

(** [at_] is [now()] at the start of the tick. *)
Definition runPublisherTick (cfg : TickConfig) (at_ : string) (latencyMs : Z)
    : M (World St C) TickResult :=
  state ← gets (λ w, default (initState (tc_verifierId cfg) at_)
                       (st_load (tc_verifierId cfg) (w_store w)));
  inbox ← gets (λ w, (st_readInbox at_ (w_store w)).1);
  on_store (λ s, (st_readInbox at_ s).2);;
  let processedIds := lc_id <$> inbox in
  ledger ← on_chain currentLedger;
  activeLeaves ← filterValid ledger (ps_leaves state);
  let prunedLeaves := (length activeLeaves <? length (ps_leaves state))%nat in
  validInbox ← filterValid ledger inbox;
  let '(leaves, acceptedIds, duplicateResubmissions, identityCollisions) :=
    mergeLeaves activeLeaves validInbox in
  let state' := mkPubState (ps_verifierId state) leaves (ps_lastPublishedRoot state)
                  (ps_lastPublishedLedger state) (ps_lastDatasetHash state) at_ in
  depth ← gets (λ w, st_inboxSize (w_store w));
  on_metrics (count_tick leaves duplicateResubmissions identityCollisions depth);;
  let minLeaves := default 1 (tc_minLeavesToPublish cfg) in
  if (Z.of_nat (length leaves) <? minLeaves) && negb prunedLeaves then
    on_store (st_save state');;
    on_store (st_archiveInbox at_ processedIds);;
    onChainRoot ← on_chain currentRoot;
    mret (mkTickResult (tc_verifierId cfg) (Z.of_nat (length leaves))
            (Z.of_nat (length acceptedIds)) None onChainRoot None false None latencyMs)
  else publishLeaves cfg at_ latencyMs state' processedIds acceptedIds.
End tick.

(** ** Merging: properties *)

(** No two leaves of the tree share an id or a value. *)
Definition distinct (l : list LeafCommitment) : Prop :=
  NoDup (lc_id <$> l) ∧ NoDup (lc_leaf <$> l).

(** What the loop of [mergeLeaves] keeps true: its two indexes describe the
    leaves accepted so far. *)
Record merge_inv (existing seen : list LeafCommitment) (a : MergeResult) : Prop := {
  mi_ids : ∀ i, i ∈ (lc_id <$> existing ++ mr_acceptedLeaves a) ↔ is_Some (JMap.get i (mr_byId a));
  mi_own : ∀ i l, JMap.get i (mr_byId a) = Some l → l ∈ existing ++ mr_acceptedLeaves a ∧ lc_id l = i;
  mi_leaves : ∀ x, x ∈ mr_byLeaf a ↔ x ∈ (lc_leaf <$> existing ++ mr_acceptedLeaves a);
  mi_distinct : distinct (existing ++ mr_acceptedLeaves a);
  mi_sub : sublist (mr_acceptedLeaves a) seen;
  mi_count : (length seen = length (mr_acceptedLeaves a) + length (mr_identityCollisions a)
              + Z.to_nat (mr_duplicateResubmissions a))%nat;
  mi_dups : 0 <= mr_duplicateResubmissions a;
  mi_kept : ∀ l, l ∈ seen →
    (∃ l', l' ∈ existing ++ mr_acceptedLeaves a ∧ (lc_id l' = lc_id l ∨ lc_leaf l' = lc_leaf l));
}.

Lemma byId_fold_keys (l : list LeafCommitment) m i :
  is_Some (JMap.get i (foldl (λ m l, JMap.set (lc_id l) l m) m l)) ↔
  is_Some (JMap.get i m) ∨ i ∈ (lc_id <$> l).
Proof.
  revert m. induction l as [|x l IH]; intros m; simpl; [set_solver|].
  rewrite IH, elem_of_cons. destruct (decide (i = lc_id x)) as [->|Hne].
  - rewrite JMap.get_set_eq. naive_solver.
  - rewrite JMap.get_set_ne by done. naive_solver.
Qed.

Lemma byId_fold_own (l : list LeafCommitment) m i y :
  JMap.get i (foldl (λ m l, JMap.set (lc_id l) l m) m l) = Some y →
  JMap.get i m = Some y ∨ (y ∈ l ∧ lc_id y = i).
Proof.
  revert m. induction l as [|x l IH]; intros m; simpl; [auto|].
  intros [H|[H1 H2]]%IH; [|right; split; [by right|done]].
  destruct (decide (i = lc_id x)) as [->|Hne].
  - rewrite JMap.get_set_eq in H. simplify_eq. right. split; [by left|done].
  - rewrite JMap.get_set_ne in H by done. auto.
Qed.

Lemma byLeaf_fold (l : list LeafCommitment) s x :
  x ∈ foldl (λ s l, JSet.add (lc_leaf l) s) s l ↔ x ∈ s ∨ x ∈ (lc_leaf <$> l).
Proof.
  revert s. induction l as [|y l IH]; intros s; simpl; [set_solver|].
  rewrite IH, JSet.elem_of_add, elem_of_cons. tauto.
Qed.

Lemma merge_init_inv existing : distinct existing → merge_inv existing [] (merge_init existing).
Proof.
  intros Hd. split; simpl; rewrite ?app_nil_r; try done.
  - intros i. rewrite byId_fold_keys. simpl. split; [auto|]. intros [[? [=]]|]; done.
  - intros i l [H|]%byId_fold_own; [done|done].
  - intros x. rewrite byLeaf_fold. set_solver.
  - intros l H. by apply elem_of_nil in H.
Qed.

Lemma distinct_snoc l x :
  distinct l → lc_id x ∉ (lc_id <$> l) → lc_leaf x ∉ (lc_leaf <$> l) → distinct (l ++ [x]).
Proof.
  intros [H1 H2] Hi Hl. split; rewrite fmap_app; apply NoDup_app;
    (split_and!; [done| |apply NoDup_singleton]); set_solver.
Qed.

(** A submission that is not accepted only moves a counter. *)
Lemma merge_inv_reject existing seen a x (dups : Z) coll :
  merge_inv existing seen a →
  mr_duplicateResubmissions a <= dups →
  (length (mr_identityCollisions a) + Z.to_nat (mr_duplicateResubmissions a) + 1
   = length coll + Z.to_nat dups)%nat →
  (∃ l', l' ∈ existing ++ mr_acceptedLeaves a ∧ (lc_id l' = lc_id x ∨ lc_leaf l' = lc_leaf x)) →
  merge_inv existing (seen ++ [x])
    (mkMerge (mr_byId a) (mr_byLeaf a) (mr_acceptedLeaves a) dups coll).
Proof.
  intros [] Hle Hc Hx. split; simpl; try done.
  - by apply sublist_inserts_r.
  - rewrite length_app. simpl. lia.
  - lia.
  - intros l [Hl| ->%list_elem_of_singleton]%elem_of_app; auto.
Qed.

Lemma merge_inv_accept existing seen a x :
  merge_inv existing seen a →
  JMap.get (lc_id x) (mr_byId a) = None → lc_leaf x ∉ mr_byLeaf a →
  merge_inv existing (seen ++ [x])
    (mkMerge (JMap.set (lc_id x) x (mr_byId a)) (JSet.add (lc_leaf x) (mr_byLeaf a))
       (mr_acceptedLeaves a ++ [x]) (mr_duplicateResubmissions a) (mr_identityCollisions a)).
Proof.
  intros [Hids Hown Hlv Hd Hsub Hc Hdup Hk] Hget Hleaf.
  assert (Hi : lc_id x ∉ (lc_id <$> existing ++ mr_acceptedLeaves a)).
  { rewrite Hids, Hget. by intros [? [=]]. }
  split; simpl; rewrite ?app_assoc; try done.
  - intros i. rewrite fmap_app, elem_of_app, Hids. simpl.
    destruct (decide (i = lc_id x)) as [->|Hne].
    + rewrite JMap.get_set_eq. split; [done|]. intros _. right. by left.
    + rewrite JMap.get_set_ne by done. split; [intros [?|?]; set_solver|auto].
  - intros i l. destruct (decide (i = lc_id x)) as [->|Hne].
    + rewrite JMap.get_set_eq. intros [= <-]. set_solver.
    + rewrite JMap.get_set_ne by done. intros [? ?]%Hown. set_solver.
  - intros y. rewrite JSet.elem_of_add, fmap_app, elem_of_app, Hlv. set_solver.
  - apply distinct_snoc; [done..|]. by rewrite <-Hlv.
  - by apply sublist_app.
  - rewrite !length_app. simpl. lia.
  - intros l [Hl| ->%list_elem_of_singleton]%elem_of_app.
    + destruct (Hk l Hl) as (l' & Hl' & Ho). exists l'. set_solver.
    + exists x. set_solver.
Qed.

Lemma merge_step_inv existing seen a x :
  merge_inv existing seen a → merge_inv existing (seen ++ [x]) (merge_step a x).
Proof.
  intros Hi. unfold merge_step.
  destruct (JMap.get (lc_id x) (mr_byId a)) as [e|] eqn:Hg.
  - destruct (mi_own _ _ _ Hi _ _ Hg) as [He Hid].
    destruct (String.eqb_spec (lc_leaf e) (lc_leaf x)) as [Heq|Hne];
      apply merge_inv_reject; rewrite ?length_app; simpl; try done; eauto;
      pose proof (mi_dups _ _ _ Hi); lia.
  - unfold JSet.has. case_bool_decide as Hl; [|by apply merge_inv_accept].
    apply merge_inv_reject; rewrite ?length_app; simpl; try done; try lia.
    apply (mi_leaves _ _ _ Hi), list_elem_of_fmap in Hl as (l' & -> & Hl'). eauto.
Qed.

Lemma merge_fold_inv existing incoming seen a :
  merge_inv existing seen a → merge_inv existing (seen ++ incoming) (foldl merge_step a incoming).
Proof.
  revert seen a. induction incoming as [|x l IH]; intros seen a Hi; simpl.
  - by rewrite app_nil_r.
  - change (x :: l) with ([x] ++ l). rewrite app_assoc. by apply IH, merge_step_inv.
Qed.

(** C33 (invariant): merging keeps the tree append-only and duplicate-free.  The
    old leaves keep their positions, the new ones follow in submission order,
    ids and leaf values stay distinct, every submission is counted exactly once
    (accepted, repeated or colliding), and none disappears without a leaf of the
    tree that already has its id or its value. *)
Theorem mergeLeaves_append_only existing incoming leaves ids dups coll :
  mergeLeaves existing incoming = (leaves, ids, dups, coll) → distinct existing →
  ∃ accepted,
    leaves = existing ++ accepted ∧ sublist accepted incoming ∧
    ids = lc_id <$> accepted ∧ distinct leaves ∧ 0 <= dups ∧
    (length incoming = length accepted + length coll + Z.to_nat dups)%nat ∧
    ∀ l, l ∈ incoming → ∃ l', l' ∈ leaves ∧ (lc_id l' = lc_id l ∨ lc_leaf l' = lc_leaf l).
Proof.
  intros [= <- <- <- <-] Hd.
  pose proof (merge_fold_inv existing incoming [] _ (merge_init_inv existing Hd)) as [].
  eexists. split_and!; eauto.
Qed.

Lemma merge_accepted_sublist incoming a :
  sublist (mr_acceptedLeaves (foldl merge_step a incoming)) (mr_acceptedLeaves a ++ incoming).
Proof.
  revert a. induction incoming as [|x l IH]; intros a; simpl.
  { by rewrite app_nil_r. }
  etrans; [apply IH|]. unfold merge_step. repeat case_match; simpl.
  all: first [by apply sublist_app; [|apply sublist_cons] | by rewrite <-app_assoc].
Qed.

(** ** The tick: properties *)
Section tick_properties.
Context {St C : Type} `{Store St} `{!StoreLaws St} `{ChainAdapter C}.
Context (poseidon : list Z → Z) (sha256 keccak_256 : list byte → list byte).
Context (recoverPublicKey : list byte → Z → list byte → option (list byte)).
Notation eligible := (eligible keccak_256 recoverPublicKey).
Notation filterValid := (filterValid (St:=St) (C:=C) keccak_256 recoverPublicKey).
Notation publishLeaves := (publishLeaves (St:=St) (C:=C) poseidon sha256).
Notation runPublisherTick :=
  (runPublisherTick (St:=St) (C:=C) poseidon sha256 keccak_256 recoverPublicKey).

(** Everything but the chain is as in [w]. *)
Definition local_eq (w w' : World St C) : Prop :=
  w_store w' = w_store w ∧ w_metrics w' = w_metrics w ∧ w_manifests w' = w_manifests w.

Lemma keeps_on_chain {A} w (m : M C A) : keeps (local_eq w) (on_chain (St:=St) m).
Proof.
  intros w' Hw. unfold on_chain. destruct (m (w_chain w')) as [[a|e] c]; exact Hw.
Qed.

(** The 65 bytes of the signature are a signature over the submission text and a recovery
    bit (possibly offset by 27) that recover a key whose address has the attested hash. *)
Definition holder_signed (leaf : LeafCommitment) (addressHash : string) : Prop :=
  ∃ sig recovery uid sid lf pub expected,
    all_chars is_hex (strip0x (trim (lc_holderSignature leaf))) = true ∧
    String.length (strip0x (trim (lc_holderSignature leaf))) = 130%nat ∧
    bytes_of_hex (strip0x (trim (lc_holderSignature leaf))) = Some sig ∧
    (recovery = 0 ∨ recovery = 1) ∧
    (byte_val (nth 64 sig Byte.x00) = recovery ∨ byte_val (nth 64 sig Byte.x00) = recovery + 27) ∧
    normalizeHex32 (lc_attestationUid leaf) "attestationUid" = Ok uid ∧ normalizeHex32 (lc_schemaId leaf) "schemaId" = Ok sid ∧
    normalizeHex32 (lc_leaf leaf) "leaf" = Ok lf ∧
    recoverPublicKey (take 64 sig) recovery (keccak_256 (utf8 (submission_text uid sid lf))) = Some pub ∧
    hex32ToBytes addressHash = Ok expected ∧ keccak_256 (drop 12 (keccak_256 (drop 1 pub))) = expected.
(** The attestation entitles its holder to the leaf at this ledger. *)
Record entitles (ledger : Z) (leaf : LeafCommitment) (att : OnChainAttestation) : Prop := {
  en_unrevoked : oa_revocationLedger att = 0;
  en_unexpired : oa_expirationLedger att = 0 ∨ ledger < oa_expirationLedger att;
  en_schema : toLowerCase (oa_schemaId att) = toLowerCase (lc_schemaId leaf);
  en_signed : holder_signed leaf (oa_stealthAddressHash att);
}.

Lemma verify_signed leaf addressHash :
  verifyHolderSignature keccak_256 recoverPublicKey (lc_attestationUid leaf) (lc_schemaId leaf) (lc_leaf leaf)
    (lc_holderSignature leaf) addressHash = true ↔ holder_signed leaf addressHash.
Proof using.
  unfold verifyHolderSignature, holder_signed. set (hex := strip0x _). set (last := λ sig, byte_val (nth 64 sig Byte.x00)).
  split.
  - destruct (all_chars is_hex hex && (String.length hex =? 130)%nat) eqn:Hx; [|done]. apply andb_prop in Hx as [Hx Hl].
    apply Nat.eqb_eq in Hl. cbn [negb]. destruct (bytes_of_hex hex) as [sig|] eqn:Hs; [|done]. cbv zeta. fold (last sig).
    set (r := if 27 <=? last sig then last sig - 27 else last sig).
    destruct (negb (r =? 0) && negb (r =? 1)) eqn:Hr; [done|].
    destruct (normalizeHex32 _ _) as [uid|] eqn:Hu; [|done]. destruct (normalizeHex32 (lc_schemaId leaf) _) as [sid|] eqn:Hsi; [|done].
    destruct (normalizeHex32 (lc_leaf leaf) _) as [lf|] eqn:Hlf; [|done].
    destruct (recoverPublicKey _ _ _) as [pub|] eqn:Hp; [|done]. destruct (hex32ToBytes addressHash) as [ex|] eqn:He; [|done].
    intros Hk%bool_decide_eq_true. exists sig, r, uid, sid, lf, pub, ex. split_and!; try done.
    + apply andb_false_iff in Hr as [Hr|Hr]; apply negb_false_iff, Z.eqb_eq in Hr; auto.
    + fold (last sig). unfold r. destruct (Z.leb_spec 27 (last sig)); lia.
  - intros (sig & r & uid & sid & lf & pub & ex & -> & -> & -> & Hr & Hb & -> & -> & -> & Hp & -> & Hk). cbn [andb negb Nat.eqb]. cbv zeta.
    fold (last sig) in Hb |- *. replace (if 27 <=? last sig then last sig - 27 else last sig) with r by (destruct (Z.leb_spec 27 (last sig)); lia).
    replace (negb (r =? 0) && negb (r =? 1)) with false by (by destruct Hr as [-> | ->]). rewrite Hp. by apply bool_decide_eq_true.
Qed.

Lemma eligible_entitled ledger leaf a :
  eligible ledger leaf a = true ↔ ∃ att, a = Some att ∧ entitles ledger leaf att.
Proof using.
  destruct a as [att|]; cbn [PubEngine.eligible]; [|split; [done|by intros (? & [=] & _)]].
  rewrite !andb_true_iff, orb_true_iff, !Z.eqb_eq, Z.ltb_lt, String.eqb_eq, verify_signed.
  split; [intros (((? & ?) & ?) & ?); exists att; by split|intros (? & [= <-] & []); tauto].
Qed.

(** The chain, asked about each leaf in turn, goes from [c] to [c'] with these answers. *)
Fixpoint asked (c : C) (l : list LeafCommitment) (answers : list (option OnChainAttestation)) (c' : C) : Prop :=
  match l, answers with
  | [], [] => c' = c
  | x :: l, a :: answers => ∃ c1, getAttestation (lc_attestationUid x) c = (Ok a, c1) ∧ asked c1 l answers c'
  | _, _ => False
  end.
Definition passing (ledger : Z) (l : list LeafCommitment) (answers : list (option OnChainAttestation)) : list LeafCommitment :=
  (List.filter (λ p, eligible ledger p.1 p.2) (zip l answers)).*1.

Lemma asked_length c l answers c' : asked c l answers c' → length l = length answers.
Proof using.
  revert c answers. induction l as [|x l IH]; intros c [|a answers]; try done. intros (c1 & _ & Hrest). simpl. f_equal. by eapply IH.
Qed.

Lemma passing_entitled ledger l answers leaf :
  leaf ∈ passing ledger l answers ↔ ∃ att, (leaf, Some att) ∈ zip l answers ∧ entitles ledger leaf att.
Proof using.
  unfold passing. rewrite list_elem_of_fmap. split.
  - intros ([x a] & -> & Hin). apply list_elem_of_In, filter_In in Hin as [Hin He]. cbn [fst snd] in *.
    apply eligible_entitled in He as (att & -> & He). exists att. split; [by apply list_elem_of_In|done].
  - intros (att & Hin & He). exists (leaf, Some att). split; [done|]. apply list_elem_of_In, filter_In.
    split; [by apply list_elem_of_In|]. apply eligible_entitled. eauto.
Qed.

Lemma passing_sublist ledger l answers : sublist (passing ledger l answers) l.
Proof using.
  revert answers. induction l as [|x l IH]; intros [|a answers]; try (by apply sublist_nil_l). unfold passing. cbn [zip List.filter fst snd].
  destruct (eligible ledger x a); [by apply sublist_skip, IH|by apply sublist_cons, IH].
Qed.

Lemma on_chain_ok {A} (m : M C A) (w w' : World St C) a :
  on_chain m w = (Ok a, w') → m (w_chain w) = (Ok a, w_chain w') ∧ local_eq w w'.
Proof.
  unfold on_chain. destruct (m (w_chain w)) as [r c]. intros [= -> <-]. done.
Qed.

Lemma keeps_filterValid w ledger l : keeps (local_eq w) (filterValid ledger l).
Proof.
  induction l as [|x l IH]; simpl; [apply keeps_ret|].
  apply keeps_bind; [|intros v; apply keeps_bind; [exact IH|intros r; apply keeps_ret]].
  apply keeps_bind; [apply keeps_on_chain|intros a; apply keeps_ret].
Qed.

Lemma filterValid_ok ledger l w w' out :
  filterValid ledger l w = (Ok out, w') →
  local_eq w w' ∧ ∃ answers, asked (w_chain w) l answers (w_chain w') ∧ out = passing ledger l answers.
Proof using.
  intros Hrun. split.
  { pose proof (keeps_filterValid w ledger l w) as Hk. rewrite Hrun in Hk. by apply Hk. }
  revert w out Hrun. induction l as [|x l IH]; intros w out Hrun.
  { injection Hrun as <- <-. by exists []. }
  cbn [PubEngine.filterValid] in Hrun. unfold isValidLeaf in Hrun. run_inv Hrun.
  apply on_chain_ok in Hrun1 as [Hatt _]. apply IH in Hrun0 as (answers & Has & ->).
  eexists (_ :: answers). split; [by eexists|]. unfold passing. cbn [zip List.filter fst snd]. by destruct (eligible ledger x _).
Qed.

(** What a successful [publishLeaves] did. *)
Record published_run (at_ : string) (pids : list string) (st : PublisherState)
    (w w' : World St C) (r : TickResult) (lr dh : string) (st' : PublisherState) : Prop := {
  pr_root : buildRoot poseidon (lc_leaf <$> ps_leaves st) = Ok lr;
  pr_hash : computeDatasetHash sha256 lr (lc_leaf <$> ps_leaves st) = Ok dh;
  pr_localRoot : tr_localRoot r = Some lr;
  pr_datasetHash : tr_datasetHash r = Some dh;
  pr_store : w_store w' = st_archiveInbox at_ pids (st_save st' (w_store w));
  pr_leaves : ps_leaves st' = ps_leaves st;
  pr_verifier : ps_verifierId st' = ps_verifierId st;
  pr_read : ∃ c1, currentRoot (w_chain w) = (Ok (tr_onChainRoot r), c1) ∧
    if tr_published r
    then ∃ tx, postRoot lr dh c1 = (Ok tx, w_chain w') ∧ tr_txHash r = Some tx.1
    else w_chain w' = c1;
  pr_published : tr_published r = bool_decide (Some lr ≠ tr_onChainRoot r);
  pr_lastRoot : ps_lastPublishedRoot st'
    = if tr_published r then Some lr else ps_lastPublishedRoot st;
}.

Lemma publishLeaves_ok cfg at_ lat st pids aids w r w' :
  publishLeaves cfg at_ lat st pids aids w = (Ok r, w') →
  ∃ lr dh st', published_run at_ pids st w w' r lr dh st'.
Proof.
  unfold PubEngine.publishLeaves, mbind, M_bind, lift_res, on_chain, mret, M_ret.
  destruct (buildRoot _ _) as [lr|] eqn:Hr; [|done].
  destruct (computeDatasetHash _ _ _) as [dh|] eqn:Hh; [|done].
  destruct (currentRoot (w_chain w)) as [[oc|] c1] eqn:Hcur; [|done].
  case_bool_decide as Heq; simpl.
  - intros [= <- <-]. eexists lr, dh, _. split; simpl; try done; eauto.
    symmetry. apply bool_decide_eq_false. naive_solver.
  - destruct (tc_dataDir cfg); simpl;
      (destruct (postRoot lr dh c1) as [[tx|] c2] eqn:Hp; simpl; [|done]);
      intros [= <- <-]; eexists lr, dh, _; split; simpl; try done; eauto;
      symmetry; by apply bool_decide_eq_true.
Qed.

Lemma publishLeaves_err cfg at_ lat st pids aids w e w' :
  publishLeaves cfg at_ lat st pids aids w = (Err e, w') → w_store w' = w_store w.
Proof.
  unfold PubEngine.publishLeaves, mbind, M_bind, lift_res, on_chain, mret, M_ret.
  destruct (buildRoot _ _) as [lr|] eqn:Hr; [|by intros [= _ <-]].
  destruct (computeDatasetHash _ _ _) as [dh|] eqn:Hh; [|by intros [= _ <-]].
  destruct (currentRoot (w_chain w)) as [[oc|] c1] eqn:Hcur; [|by intros [= _ <-]].
  case_bool_decide as Heq; simpl; [done|].
  destruct (tc_dataDir cfg); simpl;
    (destruct (postRoot lr dh c1) as [[tx|] c2] eqn:Hp; simpl; [done|]); by intros [= _ <-].
Qed.

(** The part of the tick before the choice between saving and publishing. *)
Definition loaded (cfg : TickConfig) (at_ : string) (w : World St C) : PublisherState :=
  default (initState (tc_verifierId cfg) at_) (st_load (tc_verifierId cfg) (w_store w)).

Record collected_run (cfg : TickConfig) (at_ : string) (w : World St C)
    (ledger : Z) (active valid : list LeafCommitment) (c1 c2 c3 : C) (a1 a2 : list (option OnChainAttestation)) : Prop := {
  cr_ledger : currentLedger (w_chain w) = (Ok ledger, c1);
  cr_asked1 : asked c1 (ps_leaves (loaded cfg at_ w)) a1 c2;
  cr_active : active = passing ledger (ps_leaves (loaded cfg at_ w)) a1;
  cr_asked2 : asked c2 (st_readInbox at_ (w_store w)).1 a2 c3;
  cr_valid : valid = passing ledger (st_readInbox at_ (w_store w)).1 a2;
}.
Definition collected cfg at_ w ledger active valid : Prop := ∃ c1 c2 c3 a1 a2, collected_run cfg at_ w ledger active valid c1 c2 c3 a1 a2.

Lemma collected_sublist cfg at_ w ledger active valid :
  collected cfg at_ w ledger active valid →
  sublist active (ps_leaves (loaded cfg at_ w)) ∧ sublist valid (st_readInbox at_ (w_store w)).1.
Proof using. intros (? & ? & ? & ? & ? & [_ _ -> _ ->]). split; apply passing_sublist. Qed.

Definition merged (cfg : TickConfig) (at_ : string) (w : World St C)
    (active valid : list LeafCommitment) : PublisherState :=
  let state := loaded cfg at_ w in
  mkPubState (ps_verifierId state) (mergeLeaves active valid).1.1.1 (ps_lastPublishedRoot state)
    (ps_lastPublishedLedger state) (ps_lastDatasetHash state) at_.

(** Whether the tick stops before computing a root. *)
Definition below_min (cfg : TickConfig) (at_ : string) (w : World St C)
    (active valid : list LeafCommitment) : bool :=
  (Z.of_nat (length (mergeLeaves active valid).1.1.1) <? default 1 (tc_minLeavesToPublish cfg))
  && negb (length active <? length (ps_leaves (loaded cfg at_ w)))%nat.

Definition inbox_ids (at_ : string) (w : World St C) : list string :=
  lc_id <$> (st_readInbox at_ (w_store w)).1.

(** The tick is: collect, then save or publish. *)
Lemma tick_cases cfg at_ lat w r w' :
  runPublisherTick cfg at_ lat w = (r, w') →
  (∃ e, r = Err e ∧ w_store w' = (st_readInbox at_ (w_store w)).2) ∨
  ∃ ledger active valid w1,
    collected cfg at_ w ledger active valid ∧
    w_store w1 = (st_readInbox at_ (w_store w)).2 ∧
    if below_min cfg at_ w active valid
    then w_store w' = st_archiveInbox at_ (inbox_ids at_ w)
                        (st_save (merged cfg at_ w active valid) (w_store w1)) ∧
         ∀ r', r = Ok r' → tr_published r' = false ∧ tr_localRoot r' = None
    else ∃ aids, publishLeaves cfg at_ lat (merged cfg at_ w active valid)
                   (inbox_ids at_ w) aids w1 = (r, w').
Proof.
  unfold PubEngine.runPublisherTick. intros Hrun.
  unfold mbind, M_bind, gets, on_store, modify in Hrun. simpl in Hrun.
  unfold on_chain at 1 in Hrun. simpl in Hrun.
  destruct (currentLedger (w_chain w)) as [[ledger|e] c1] eqn:Hled;
    [|injection Hrun as <- <-; eauto].
  match type of Hrun with context [filterValid ledger ?l ?w0] =>
    destruct (filterValid ledger l w0) as [[active|e] w1] eqn:Hact end.
  2:{ injection Hrun as <- <-. left. eexists. split; [done|].
      match type of Hact with filterValid _ ?l ?w0 = _ =>
        pose proof (keeps_filterValid w0 ledger l w0) as Hk; rewrite Hact in Hk;
        destruct Hk as [Hk _]; [done|] end. by rewrite Hk. }
  destruct (filterValid ledger (st_readInbox at_ (w_store w)).1 w1) as [[valid|e] w2] eqn:Hval.
  2:{ injection Hrun as <- <-. left. eexists. split; [done|].
      pose proof (keeps_filterValid w1 ledger (st_readInbox at_ (w_store w)).1 w1) as Hk.
      rewrite Hval in Hk. destruct Hk as [Hk _]; [done|].
      apply filterValid_ok in Hact as ((Hs & _) & _). by rewrite Hk, Hs. }
  apply filterValid_ok in Hact as ((Hs1 & _) & a1 & Ha1 & Ha2).
  apply filterValid_ok in Hval as ((Hs2 & _) & a2 & Hv1 & Hv2).
  right. exists ledger, active, valid.
  pose (m := mergeLeaves active valid).
  exists (mkWorld (w_store w2) (w_chain w2)
    (count_tick m.1.1.1 m.1.2 m.2 (st_inboxSize (w_store w2)) <$> w_metrics w2) (w_manifests w2)).
  split; [by exists c1, (w_chain w1), (w_chain w2), a1, a2|]. split; [simpl; by rewrite Hs2, Hs1|].
  unfold below_min, merged, loaded, m, mergeLeaves in *. simpl in Hrun |- *.
  destruct (_ && _) eqn:Hb; [|by eexists].
  unfold on_metrics, modify, on_chain, mret, M_ret in Hrun. simpl in Hrun.
  destruct (currentRoot (w_chain w2)) as [[oc|] c3]; injection Hrun as <- <-; simpl.
  - split; [done|]. by intros r' [= <-].
  - by split.
Qed.

(** The invariant of the persisted state. *)
Definition store_inv (v : string) (s : St) : Prop :=
  ∀ st, st_load v s = Some st → ps_verifierId st = v ∧ distinct (ps_leaves st).

Lemma distinct_sublist l l' : sublist l l' → distinct l' → distinct l.
Proof.
  intros Hs [H1 H2]. split; (eapply sublist_NoDup; [|by apply sublist_fmap]); done.
Qed.

Lemma loaded_inv cfg at_ w :
  store_inv (tc_verifierId cfg) (w_store w) →
  ps_verifierId (loaded cfg at_ w) = tc_verifierId cfg ∧ distinct (ps_leaves (loaded cfg at_ w)).
Proof.
  intros Hi. unfold loaded. destruct (st_load _ _) as [st|] eqn:E; simpl; [by apply Hi|].
  split; [done|]. split; constructor.
Qed.

Lemma mergeLeaves_from active valid leaf :
  leaf ∈ (mergeLeaves active valid).1.1.1 → leaf ∈ active ∨ leaf ∈ valid.
Proof using.
  simpl. intros [?|Hin]%elem_of_app; [by left|right].
  apply (sublist_elem _ _ _ (merge_accepted_sublist valid (merge_init active)) Hin).
Qed.

Lemma mergeLeaves_distinct active valid :
  distinct active → distinct (mergeLeaves active valid).1.1.1.
Proof.
  intros Hd. exact (mi_distinct _ _ _ (merge_fold_inv active valid [] _ (merge_init_inv active Hd))).
Qed.

Lemma load_after_archive v at_ ids st s :
  ps_verifierId st = v → st_load v (st_archiveInbox at_ ids (st_save st s)) = Some st.
Proof. intros <-. by rewrite load_archiveInbox, load_save. Qed.

(** A successful tick saves the merged leaves, whichever way it ends. *)
Lemma tick_saved cfg at_ lat w r w' :
  store_inv (tc_verifierId cfg) (w_store w) →
  runPublisherTick cfg at_ lat w = (Ok r, w') →
  ∃ ledger active valid st,
    collected cfg at_ w ledger active valid ∧
    st_load (tc_verifierId cfg) (w_store w') = Some st ∧
    ps_leaves st = (mergeLeaves active valid).1.1.1 ∧
    (∀ lr, tr_localRoot r = Some lr → buildRoot poseidon (lc_leaf <$> ps_leaves st) = Ok lr) ∧
    (tr_published r = true → ps_lastPublishedRoot st = tr_localRoot r).
Proof.
  intros Hi Hrun. destruct (loaded_inv cfg at_ w Hi) as [Hv _].
  destruct (tick_cases _ _ _ _ _ _ Hrun) as [(e & [=] & _)|(ledger & active & valid & w1 & Hc & Hw1 & Hcase)].
  exists ledger, active, valid. destruct (below_min _ _ _ _ _).
  - destruct Hcase as [Hs Hr]. destruct (Hr r eq_refl) as [Hp Hl]. eexists.
    split_and!; [done|rewrite Hs; by apply load_after_archive|done|..]; congruence.
  - destruct Hcase as [aids Hpub]. apply publishLeaves_ok in Hpub as (lr & dh & st' & []).
    exists st'. split_and!; [done| |done|..].
    + rewrite pr_store0. apply load_after_archive. by rewrite pr_verifier0.
    + intros lr'. rewrite pr_localRoot0, pr_leaves0. by intros [= <-].
    + intros Hp. by rewrite pr_lastRoot0, Hp, pr_localRoot0.
Qed.

(** Whatever the chain answers, and whether or not the tick
    throws, the persisted state keeps distinct ids and distinct leaves. *)
Theorem tick_keeps_tree_distinct cfg at_ lat w r w' :
  store_inv (tc_verifierId cfg) (w_store w) →
  runPublisherTick cfg at_ lat w = (r, w') →
  store_inv (tc_verifierId cfg) (w_store w').
Proof.
  intros Hi Hrun. destruct (loaded_inv cfg at_ w Hi) as [Hv Hd].
  destruct (tick_cases _ _ _ _ _ _ Hrun)
    as [(e & -> & Hs)|(ledger & active & valid & w1 & Hc & Hw1 & Hcase)].
  { intros st. rewrite Hs, load_readInbox. apply Hi. }
  assert (Hm : distinct (mergeLeaves active valid).1.1.1).
  { eapply mergeLeaves_distinct, distinct_sublist, Hd. apply (collected_sublist _ _ _ _ _ _ Hc). }
  destruct (below_min _ _ _ _ _).
  - destruct Hcase as [Hs _]. intros st. rewrite Hs, load_after_archive by done.
    by intros [= <-].
  - destruct Hcase as [aids Hpub]. destruct r as [r|e].
    + apply publishLeaves_ok in Hpub as (lr & dh & st' & []). intros st.
      rewrite pr_store0, load_after_archive by (by rewrite pr_verifier0).
      intros [= <-]. by rewrite pr_verifier0, pr_leaves0.
    + apply publishLeaves_err in Hpub. intros st. rewrite Hpub, Hw1, load_readInbox. apply Hi.
Qed.

(** C32 (safety): A tick that returns asked the chain for its ledger and then, once each, for
    the attestation of every leaf of the tree and of every submission.  Every leaf in the
    state it saves got, in that exchange, an attestation that is not revoked, not expired at
    that ledger, of the leaf's schema, and whose stealth address hash is that of the key that
    signed the submission; every leaf of the old tree that got one is still there.  The saved
    tree has distinct leaves, and the root the tick reports is the Merkle root of exactly
    these leaves. *)
Theorem tick_saves_only_eligible_leaves cfg at_ lat w r w' :
  store_inv (tc_verifierId cfg) (w_store w) →
  runPublisherTick cfg at_ lat w = (Ok r, w') →
  let tree := ps_leaves (loaded cfg at_ w) in let inbox := (st_readInbox at_ (w_store w)).1 in
  ∃ st ledger c1 c2 c3 a1 a2,
    st_load (tc_verifierId cfg) (w_store w') = Some st ∧
    currentLedger (w_chain w) = (Ok ledger, c1) ∧ asked c1 tree a1 c2 ∧ asked c2 inbox a2 c3 ∧
    (∀ leaf, leaf ∈ ps_leaves st → ∃ att, (leaf, Some att) ∈ zip tree a1 ++ zip inbox a2 ∧ entitles ledger leaf att) ∧
    (∀ leaf att, (leaf, Some att) ∈ zip tree a1 → entitles ledger leaf att → leaf ∈ ps_leaves st) ∧
    distinct (ps_leaves st) ∧
    (∀ lr, tr_localRoot r = Some lr → buildRoot poseidon (lc_leaf <$> ps_leaves st) = Ok lr).
Proof.
  intros Hi Hrun tree inbox. destruct (loaded_inv cfg at_ w Hi) as [_ Hd].
  destruct (tick_saved _ _ _ _ _ _ Hi Hrun)
    as (ledger & active & valid & st & Hc & Hl & Hlv & Hr & _).
  pose proof (collected_sublist _ _ _ _ _ _ Hc) as [Ha _]. destruct Hc as (c1 & c2 & c3 & a1 & a2 & [Hled H1 Hact H2 Hval]).
  exists st, ledger, c1, c2, c3, a1, a2. split_and!; try done; rewrite Hlv.
  - intros leaf [Hin|Hin]%mergeLeaves_from; [rewrite Hact in Hin|rewrite Hval in Hin];
      apply passing_entitled in Hin as (att & Hin & He); exists att; (split; [|done]); apply elem_of_app; auto.
  - intros leaf att Hin He. apply elem_of_app. left. rewrite Hact. apply passing_entitled. eauto.
  - by eapply mergeLeaves_distinct, distinct_sublist, Hd.
Qed.

(** A tick that returns posts a root exactly when it computed
    one and it differs from the root it read from the chain; the root posted
    is the one computed, and it is recorded as the last published root. *)
Theorem tick_posts_iff_root_differs cfg at_ lat w r w' :
  store_inv (tc_verifierId cfg) (w_store w) →
  runPublisherTick cfg at_ lat w = (Ok r, w') →
  (tr_published r = true ↔ ∃ lr, tr_localRoot r = Some lr ∧ Some lr ≠ tr_onChainRoot r) ∧
  (tr_published r = true →
     ∃ lr dh c tx st,
       tr_localRoot r = Some lr ∧ tr_datasetHash r = Some dh ∧
       postRoot lr dh c = (Ok tx, w_chain w') ∧ tr_txHash r = Some tx.1 ∧
       st_load (tc_verifierId cfg) (w_store w') = Some st ∧ ps_lastPublishedRoot st = Some lr).
Proof.
  intros Hi Hrun.
  destruct (tick_saved _ _ _ _ _ _ Hi Hrun) as (_ & _ & _ & st & _ & Hl & _ & _ & Hst).
  destruct (tick_cases _ _ _ _ _ _ Hrun)
    as [(e & [=] & _)|(ledger & active & valid & w1 & Hc & Hw1 & Hcase)].
  destruct (below_min _ _ _ _ _).
  - destruct Hcase as [_ Hr]. destruct (Hr r eq_refl) as [-> ->]. naive_solver.
  - destruct Hcase as [aids Hpub]. apply publishLeaves_ok in Hpub as (lr & dh & st' & []).
    split.
    + rewrite pr_published0, bool_decide_eq_true, pr_localRoot0. naive_solver.
    + intros Hp. destruct pr_read0 as (c1 & _ & Hpost). rewrite Hp in Hpost.
      destruct Hpost as (tx & Hpost & Htx).
      exists lr, dh, c1, tx, st. split_and!; try done. by rewrite Hst.
Qed.

(** A tick that throws either leaves the store as the inbox read
    left it (nothing saved, nothing archived, so the next tick retries the
    same submissions), or had already saved the merged leaves without touching
    the last published root. *)
Theorem tick_failure_loses_nothing cfg at_ lat w e w' :
  store_inv (tc_verifierId cfg) (w_store w) →
  runPublisherTick cfg at_ lat w = (Err e, w') →
  w_store w' = (st_readInbox at_ (w_store w)).2 ∨
  ∃ active valid st,
    st_load (tc_verifierId cfg) (w_store w') = Some st ∧
    ps_leaves st = (mergeLeaves active valid).1.1.1 ∧
    sublist active (ps_leaves (loaded cfg at_ w)) ∧
    sublist valid (st_readInbox at_ (w_store w)).1 ∧
    ps_lastPublishedRoot st = ps_lastPublishedRoot (loaded cfg at_ w).
Proof.
  intros Hi Hrun. destruct (loaded_inv cfg at_ w Hi) as [Hv Hd].
  destruct (tick_cases _ _ _ _ _ _ Hrun)
    as [(e' & _ & Hs)|(ledger & active & valid & w1 & Hc & Hw1 & Hcase)]; [auto|].
  destruct (below_min _ _ _ _ _).
  - right. destruct Hcase as [Hs _]. exists active, valid. eexists.
    destruct (collected_sublist _ _ _ _ _ _ Hc). split_and!; [rewrite Hs; by apply load_after_archive|done|done|done|done].
  - left. destruct Hcase as [aids Hpub]. apply publishLeaves_err in Hpub. congruence.
Qed.
End tick_properties.

(** ** Convergence on a chain that behaves *)

(** A chain whose reads answer and change nothing, and where a posted root is
    the current one. *)
Class HonestChain (C : Type) `{ChainAdapter C} : Type := {
  hc_ledger : C → Z;
  hc_root : C → option string;
  hc_att : C → string → option OnChainAttestation;
  hc_currentLedger : ∀ c, currentLedger c = (Ok (hc_ledger c), c);
  hc_currentRoot : ∀ c, currentRoot c = (Ok (hc_root c), c);
  hc_getAttestation : ∀ uid c, getAttestation uid c = (Ok (hc_att c uid), c);
  hc_postRoot : ∀ r d c, ∃ tx c',
    postRoot r d c = (Ok tx, c') ∧ hc_root c' = Some r ∧
    hc_att c' = hc_att c ∧ hc_ledger c' = hc_ledger c;
}.

Section convergence.
Context {St C : Type} `{Store St} `{!StoreLaws St} `{HonestChain C}.
Context (poseidon : list Z → Z) (sha256 keccak_256 : list byte → list byte).
Context (recoverPublicKey : list byte → Z → list byte → option (list byte)).
Notation eligible := (eligible keccak_256 recoverPublicKey).
Notation filterValid := (filterValid (St:=St) (C:=C) keccak_256 recoverPublicKey).
Notation publishLeaves := (publishLeaves (St:=St) (C:=C) poseidon sha256).
Notation runPublisherTick :=
  (runPublisherTick (St:=St) (C:=C) poseidon sha256 keccak_256 recoverPublicKey).

Definition valid_now (c : C) (x : LeafCommitment) : bool :=
  eligible (hc_ledger c) x (hc_att c (lc_attestationUid x)).

Lemma filterValid_honest l w :
  filterValid (hc_ledger (w_chain w)) l w = (Ok (List.filter (valid_now (w_chain w)) l), w).
Proof.
  induction l as [|x l IH]; simpl; [done|].
  unfold isValidLeaf, mbind, M_bind, on_chain. rewrite hc_getAttestation.
  destruct w as [s c m mf]. simpl in *. unfold mret at 1, M_ret at 1. rewrite IH. done.
Qed.

Lemma on_chain_ledger (w : World St C) :
  on_chain currentLedger w = (Ok (hc_ledger (w_chain w)), w).
Proof. destruct w. unfold on_chain. simpl. by rewrite hc_currentLedger. Qed.
Lemma on_chain_root (w : World St C) :
  on_chain currentRoot w = (Ok (hc_root (w_chain w)), w).
Proof. destruct w. unfold on_chain. simpl. by rewrite hc_currentRoot. Qed.

(** The two lists of leaves the tick works with, and the world it publishes in. *)
Definition active_now cfg at_ (w : World St C) : list LeafCommitment :=
  List.filter (valid_now (w_chain w)) (ps_leaves (loaded cfg at_ w)).
Definition incoming_now at_ (w : World St C) : list LeafCommitment :=
  List.filter (valid_now (w_chain w)) (st_readInbox at_ (w_store w)).1.
Definition counted cfg at_ (w : World St C) : World St C :=
  let m := mergeLeaves (active_now cfg at_ w) (incoming_now at_ w) in
  let s := (st_readInbox at_ (w_store w)).2 in
  mkWorld s (w_chain w) (count_tick m.1.1.1 m.1.2 m.2 (st_inboxSize s) <$> w_metrics w)
    (w_manifests w).

Lemma tick_honest cfg at_ lat w :
  let active := active_now cfg at_ w in
  let valid := incoming_now at_ w in
  if below_min cfg at_ w active valid
  then ∃ r w', runPublisherTick cfg at_ lat w = (Ok r, w') ∧
         tr_published r = false ∧ tr_localRoot r = None ∧ w_chain w' = w_chain w ∧
         w_store w' = st_archiveInbox at_ (inbox_ids at_ w)
           (st_save (merged cfg at_ w active valid) (st_readInbox at_ (w_store w)).2)
  else runPublisherTick cfg at_ lat w =
         publishLeaves cfg at_ lat (merged cfg at_ w active valid) (inbox_ids at_ w)
           (mergeLeaves active valid).1.1.2 (counted cfg at_ w).
Proof.
  intros active valid.
  unfold PubEngine.runPublisherTick, mbind, M_bind, gets, on_store, on_metrics, modify. simpl.
  rewrite on_chain_ledger. simpl.
  pose (w1 := mkWorld (st_readInbox at_ (w_store w)).2 (w_chain w) (w_metrics w) (w_manifests w)).
  fold w1. change (hc_ledger (w_chain w)) with (hc_ledger (w_chain w1)).
  rewrite !filterValid_honest.
  unfold counted, below_min, merged, loaded, active, valid, active_now, incoming_now, loaded,
    mergeLeaves in *.
  simpl. destruct (_ && _) eqn:Hb; [|done].
  rewrite on_chain_root. eexists _, _. split; [reflexivity|]. done.
Qed.

(** The state of the world after a tick: nothing left in the inbox, every
    saved leaf still valid, and the chain's root the saved leaves' root
    (unless there are too few leaves to publish). *)
Record settled (cfg : TickConfig) (w : World St C) (st : PublisherState) : Prop := {
  se_load : st_load (tc_verifierId cfg) (w_store w) = Some st;
  se_verifier : ps_verifierId st = tc_verifierId cfg;
  se_inbox : ∀ at_, (st_readInbox at_ (w_store w)).1 = [];
  se_valid : List.filter (valid_now (w_chain w)) (ps_leaves st) = ps_leaves st;
  se_root : Z.of_nat (length (ps_leaves st)) < default 1 (tc_minLeavesToPublish cfg) ∨
    ∃ lr dh, buildRoot poseidon (lc_leaf <$> ps_leaves st) = Ok lr ∧
      computeDatasetHash sha256 lr (lc_leaf <$> ps_leaves st) = Ok dh ∧
      hc_root (w_chain w) = Some lr;
}.

Lemma filter_all_true {A} (f : A → bool) l : Forall (λ x, f x = true) l → List.filter f l = l.
Proof. induction 1 as [|x l Hx _ IH]; simpl; [done|]. by rewrite Hx, IH. Qed.

Lemma filter_Forall {A} (f : A → bool) l : Forall (λ x, f x = true) (List.filter f l).
Proof. apply Forall_forall. intros x Hx. by apply list_elem_of_In, filter_In in Hx as [_ ?]. Qed.

Lemma merged_valid c l l' :
  List.filter (valid_now c)
    (mergeLeaves (List.filter (valid_now c) l) (List.filter (valid_now c) l')).1.1.1
  = (mergeLeaves (List.filter (valid_now c) l) (List.filter (valid_now c) l')).1.1.1.
Proof.
  apply filter_all_true. simpl. apply Forall_app. split; [apply filter_Forall|].
  eapply sublist_Forall; [|apply (merge_accepted_sublist _ (merge_init _))].
  simpl. apply filter_Forall.
Qed.

Lemma valid_now_ext c c' :
  hc_att c' = hc_att c → hc_ledger c' = hc_ledger c → valid_now c' = valid_now c.
Proof. unfold valid_now. by intros -> ->. Qed.

Lemma tick_settles cfg at_ lat w r w' :
  store_inv (tc_verifierId cfg) (w_store w) →
  runPublisherTick cfg at_ lat w = (Ok r, w') → ∃ st, settled cfg w' st.
Proof.
  intros Hi Hrun. destruct (loaded_inv cfg at_ w Hi) as [Hv _].
  pose proof (tick_honest cfg at_ lat w) as Ht. cbv zeta in Ht.
  destruct (below_min _ _ _ _ _) eqn:Hb.
  - destruct Ht as (r' & w1 & Hrun' & _ & _ & Hc & Hs).
    rewrite Hrun in Hrun'. injection Hrun' as <- <-.
    eexists. split; [rewrite Hs; by apply load_after_archive|done|..].
    + intros at'. rewrite Hs. apply readInbox_archived.
    + rewrite Hc. apply merged_valid.
    + left. apply andb_prop in Hb as [Hb _]. by apply Z.ltb_lt.
  - rewrite Ht in Hrun. apply publishLeaves_ok in Hrun as (lr & dh & st' & []).
    destruct pr_read0 as (c1 & Hcur & Hch). rewrite hc_currentRoot in Hcur.
    injection Hcur as Hroot <-.
    assert (Hchain : hc_root (w_chain w') = Some lr ∧ valid_now (w_chain w') = valid_now (w_chain w)).
    { destruct (tr_published r) eqn:Hp.
      - destruct Hch as (tx & Hpost & _).
        destruct (hc_postRoot lr dh (w_chain w)) as (tx' & c' & Hpost' & ? & ? & ?).
        simpl in Hpost. rewrite Hpost in Hpost'. injection Hpost' as _ <-.
        split; [done|by apply valid_now_ext].
      - rewrite Hch. simpl. split; [|done]. symmetry in pr_published0.
        apply bool_decide_eq_false in pr_published0. simpl in Hroot. rewrite Hroot.
        destruct (decide (Some lr = tr_onChainRoot r)); [done|tauto]. }
    destruct Hchain as [Hlr Hvn]. exists st'. split.
    + rewrite pr_store0. apply load_after_archive. by rewrite pr_verifier0.
    + by rewrite pr_verifier0.
    + intros at'. rewrite pr_store0. apply readInbox_archived.
    + rewrite Hvn, pr_leaves0. apply merged_valid.
    + right. exists lr, dh. by rewrite pr_leaves0.
Qed.

(** On a settled world [publishLeaves] saves and posts nothing. *)
Lemma publishLeaves_quiet cfg at_ lat st pids aids (w : World St C) lr dh :
  buildRoot poseidon (lc_leaf <$> ps_leaves st) = Ok lr →
  computeDatasetHash sha256 lr (lc_leaf <$> ps_leaves st) = Ok dh →
  hc_root (w_chain w) = Some lr →
  ∃ r w', publishLeaves cfg at_ lat st pids aids w = (Ok r, w') ∧ tr_published r = false ∧
    w_chain w' = w_chain w ∧ w_store w' = st_archiveInbox at_ pids (st_save st (w_store w)).
Proof.
  intros Hr Hh Hroot.
  unfold PubEngine.publishLeaves, mbind, M_bind, lift_res. rewrite Hr, Hh, on_chain_root, Hroot.
  rewrite bool_decide_true by done. simpl. by eexists _, _.
Qed.

Lemma mergeLeaves_nil l : (mergeLeaves l []).1.1.1 = l.
Proof. simpl. apply app_nil_r. Qed.

(** On a chain that behaves, one successful tick settles
    everything: the next tick (at any later time, with no new submission)
    returns, posts nothing, leaves the chain's root as it is and keeps the
    same leaves. *)
Theorem tick_converges cfg at1 lat1 at2 lat2 w r1 w1 :
  store_inv (tc_verifierId cfg) (w_store w) →
  runPublisherTick cfg at1 lat1 w = (Ok r1, w1) →
  ∃ r2 w2,
    runPublisherTick cfg at2 lat2 w1 = (Ok r2, w2) ∧ tr_published r2 = false ∧
    hc_root (w_chain w2) = hc_root (w_chain w1) ∧
    ps_leaves <$> st_load (tc_verifierId cfg) (w_store w2)
    = ps_leaves <$> st_load (tc_verifierId cfg) (w_store w1).
Proof.
  intros Hi Hrun. destruct (tick_settles _ _ _ _ _ _ Hi Hrun) as [st []].
  assert (Hlv : (mergeLeaves (active_now cfg at2 w1) (incoming_now at2 w1)).1.1.1 = ps_leaves st).
  { unfold active_now, incoming_now, loaded. rewrite se_load0, se_inbox0. simpl.
    by rewrite se_valid0, app_nil_r. }
  pose proof (tick_honest cfg at2 lat2 w1) as Ht. cbv zeta in Ht.
  destruct (below_min _ _ _ _ _) eqn:Hb.
  - destruct Ht as (r2 & w2 & Hr2 & Hp & _ & Hc & Hs). exists r2, w2.
    split_and!; [done..|by rewrite Hc|].
    rewrite Hs, load_after_archive, se_load0; [exact (f_equal Some Hlv)|].
    unfold merged, loaded. simpl. by rewrite se_load0.
  - destruct se_root0 as [Hlt|(lr & dh & Hr & Hh & Hroot)].
    + exfalso. unfold below_min in Hb. rewrite Hlv in Hb.
      unfold active_now, loaded in Hb. rewrite se_load0 in Hb. simpl in Hb.
      rewrite se_valid0, Nat.ltb_irrefl in Hb. simpl in Hb. apply Z.ltb_lt in Hlt.
      by rewrite Hlt in Hb.
    + assert (Hm : ps_leaves (merged cfg at2 w1 (active_now cfg at2 w1) (incoming_now at2 w1))
                   = ps_leaves st) by exact Hlv.
      edestruct (publishLeaves_quiet cfg at2 lat2
        (merged cfg at2 w1 (active_now cfg at2 w1) (incoming_now at2 w1)) (inbox_ids at2 w1)
        (mergeLeaves (active_now cfg at2 w1) (incoming_now at2 w1)).1.1.2 (counted cfg at2 w1))
        as (r2 & w2 & Hr2 & Hp & Hc & Hs); [rewrite Hm; exact Hr|rewrite Hm; exact Hh|done|].
      exists r2, w2. rewrite Ht. split_and!; [done..|by rewrite Hc|].
      rewrite Hs, load_after_archive, se_load0; [exact (f_equal Some Hm)|].
      unfold merged, loaded. simpl. by rewrite se_load0.
Qed.
End convergence.

(** ** The dataset hash commits to the dataset *)
Lemma hex32_blocks leaves :
  Forall hex32 leaves →
  ∃ bs, mapM_res hex32ToBytes leaves = Ok bs ∧ length bs = length leaves ∧
    Forall (λ b, length b = 32%nat) bs.
Proof.
  induction 1 as [|x l Hx _ (bs & Hbs & Hl & Hf)]; simpl; [by exists []|].
  destruct (hex32_bytes x Hx) as (b & Hb & Hlen & _). exists (b :: bs).
  rewrite Hb, Hbs. simpl. split_and!; [done|lia|by constructor].
Qed.

Lemma blocks_length (bs : list (list byte)) :
  Forall (λ b, length b = 32%nat) bs → length (concat bs) = (32 * length bs)%nat.
Proof. induction 1 as [|b bs Hb _ IH]; simpl; [done|]. rewrite length_app. lia. Qed.

Lemma blocks_inj (bs bs' : list (list byte)) :
  Forall (λ b, length b = 32%nat) bs → Forall (λ b, length b = 32%nat) bs' →
  concat bs = concat bs' → bs = bs'.
Proof.
  intros H. revert bs'. induction H as [|b bs Hb _ IH]; intros bs' [|b' bs'' Hb' Hf]; simpl.
  - done.
  - intros Heq. destruct b'; simplify_eq/=.
  - intros Heq. destruct b; simplify_eq/=.
  - intros [-> Heq]%app_inj_1; [|lia]. f_equal. by apply IH.
Qed.

Lemma mapM_hex32_inj l l' bs :
  Forall hex32 l → Forall hex32 l' →
  mapM_res hex32ToBytes l = Ok bs → mapM_res hex32ToBytes l' = Ok bs → l = l'.
Proof.
  intros H. revert l' bs. induction H as [|x l Hx _ IH]; intros l' bs Hf' Hm Hm'.
  - apply mapM_res_length in Hm, Hm'. destruct l'; [done|]. simpl in *. lia.
  - destruct Hf' as [|x' l' Hx' Hf']; [apply mapM_res_length in Hm, Hm'; simpl in *; lia|].
    simpl in Hm, Hm'.
    destruct (hex32ToBytes x) as [b|] eqn:Eb; [|done].
    destruct (hex32ToBytes x') as [b'|] eqn:Eb'; [|done]. simpl in *.
    destruct (mapM_res hex32ToBytes l) as [r|] eqn:Er; [|done].
    destruct (mapM_res hex32ToBytes l') as [r'|] eqn:Er'; [|done]. simpl in *.
    simplify_eq. f_equal; [|by eapply IH].
    apply hex32ToBytes_inj; congruence.
Qed.

(** The bytes hashed into the dataset hash determine the root and
    the whole ordered list of leaves, for canonical roots and leaves of any
    number: two datasets with the same hash are equal or exhibit a SHA-256
    collision. *)
Theorem dataset_hash_binds_dataset (sha256 : list byte → list byte) root root' leaves leaves' h :
  hex32 root → hex32 root' → Forall hex32 leaves → Forall hex32 leaves' →
  computeDatasetHash sha256 root leaves = Ok h → computeDatasetHash sha256 root' leaves' = Ok h →
  (root = root' ∧ leaves = leaves') ∨ ∃ p p', p ≠ p' ∧ sha256 p = sha256 p'.
Proof.
  intros Hr Hr' Hl Hl'. unfold computeDatasetHash, dataset_preimage.
  destruct (hex32_bytes root Hr) as (b & Hb & Hlen & _).
  destruct (hex32_bytes root' Hr') as (b' & Hb' & Hlen' & _).
  destruct (hex32_blocks leaves Hl) as (bs & Hbs & Hn & Hf).
  destruct (hex32_blocks leaves' Hl') as (bs' & Hbs' & Hn' & Hf').
  rewrite Hb, Hb', Hbs, Hbs'. cbn [mbind res_bind]. intros H1 H2.
  set (p := be_bytes 4 (Z.of_nat (length leaves)) ++ b ++ concat bs) in H1.
  set (p' := be_bytes 4 (Z.of_nat (length leaves')) ++ b' ++ concat bs') in H2.
  destruct (decide (p = p')) as [Heq|Hne]; [left|right].
  - unfold p, p' in Heq. apply app_inj_1 in Heq as [_ Heq]; [|by rewrite !be_bytes_length].
    apply app_inj_1 in Heq as [-> Heq]; [|congruence].
    apply blocks_inj in Heq as ->; [|done..].
    split; [apply hex32ToBytes_inj; congruence|by eapply mapM_hex32_inj].
  - exists p, p'. split; [done|].
    apply hex_of_bytes_inj. rewrite <-H2 in H1. by injection H1.
Qed.

(** ** Witnesses *)
Module ToyChain.
Record t : Type := mk { ledger : Z; root : option string; posts : nat }.

(** Every attestation exists, for schema [0x22..], until ledger 100. *)
Definition attestation : OnChainAttestation :=
  mkAttestation (h32 "2") (h32 "0") 100 0.
End ToyChain.

Global Instance toy_chain : ChainAdapter ToyChain.t := {|
  currentRoot := gets ToyChain.root;
  postRoot := λ r _ c, (Ok ("tx", Some (ToyChain.ledger c)),
                        ToyChain.mk (ToyChain.ledger c) (Some r) (S (ToyChain.posts c)));
  getAttestation := λ _, gets (λ _, Some ToyChain.attestation);
  currentLedger := gets ToyChain.ledger;
|}.

Global Program Instance toy_honest : HonestChain ToyChain.t := {|
  hc_ledger := ToyChain.ledger;
  hc_root := ToyChain.root;
  hc_att := λ _ _, Some ToyChain.attestation;
|}.
Solve Obligations with (intros; first [reflexivity | by eexists _, _]).

Definition toy_keccak (_ : list byte) : list byte := repeat Byte.x00 32.
Definition toy_recover (_ : list byte) (_ : Z) (_ : list byte) : option (list byte) :=
  Some (repeat Byte.x00 65).
Definition toy_sha (_ : list byte) : list byte := repeat Byte.x00 32.
Definition toy_leaf : LeafCommitment :=
  mkLeaf "alice" (h32 "1") (h32 "2") (h32 "3") (Nat.iter 130 (String "0"%char) "") None None "t0".
Definition toy_cfg : TickConfig := mkTickConfig "v" true None.
Definition toy_world : World MemoryStore.t ToyChain.t :=
  mkWorld (MemoryStore.writeInbox 0 toy_leaf (MemoryStore.new None)).2
    (ToyChain.mk 7 None 0) (Some (createMetrics "t0")) [].

Local Notation toy_tick at_ w :=
  (runPublisherTick toy_hash toy_sha toy_keccak toy_recover toy_cfg at_ 5 w).

Lemma toy_store_inv : store_inv (tc_verifierId toy_cfg) (w_store toy_world).
Proof. intros st [=]. Qed.

(** The same chain with an endpoint that cannot submit transactions. *)
Definition down_chain : ChainAdapter ToyChain.t := {|
  currentRoot := gets ToyChain.root;
  postRoot := λ _ _, throw (JsError "rpc unavailable");
  getAttestation := λ _, gets (λ _, Some ToyChain.attestation);
  currentLedger := gets ToyChain.ledger;
|}.

Lemma mergeLeaves_append_only_witness :
  ∃ leaves ids dups coll,
    mergeLeaves [toy_leaf] [toy_leaf; sample_leaf] = (leaves, ids, dups, coll) ∧
    ∃ accepted, leaves = [toy_leaf] ++ accepted ∧ sublist accepted [toy_leaf; sample_leaf] ∧
      distinct leaves ∧ (2 = length accepted + length coll + Z.to_nat dups)%nat.
Proof.
  eexists _, _, _, _. split; [reflexivity|].
  edestruct (mergeLeaves_append_only [toy_leaf] [toy_leaf; sample_leaf])
    as (acc & H1 & H2 & _ & H4 & _ & H6 & _); [reflexivity|split; apply NoDup_singleton|].
  exists acc. split_and!; assumption.
Defined.

Lemma tick_keeps_tree_distinct_witness : store_inv "v" (w_store (toy_tick "t1" toy_world).2).
Proof.
  destruct (toy_tick "t1" toy_world) as [r w'] eqn:E.
  exact (tick_keeps_tree_distinct toy_hash toy_sha toy_keccak toy_recover toy_cfg "t1" 5 toy_world
           r w' toy_store_inv E).
Defined.

Lemma tick_saves_only_eligible_leaves_witness :
  ∃ st ledger leaf att,
    st_load "v" (w_store (toy_tick "t1" toy_world).2) = Some st ∧
    leaf ∈ ps_leaves st ∧ entitles toy_keccak toy_recover ledger leaf att.
Proof.
  assert (Hne : match st_load "v" (w_store (toy_tick "t1" toy_world).2) with Some st => negb (bool_decide (ps_leaves st = [])) | None => false end = true)
    by (vm_compute; reflexivity).
  destruct (toy_tick "t1" toy_world) as [[r|e] w'] eqn:E; [|vm_compute in E; discriminate].
  destruct (tick_saves_only_eligible_leaves toy_hash toy_sha toy_keccak toy_recover toy_cfg "t1" 5
              toy_world r w' toy_store_inv E) as (st & l & c1 & c2 & c3 & a1 & a2 & H1 & _ & _ & _ & H3 & _).
  cbn [snd] in *. change (tc_verifierId toy_cfg) with "v" in H1. rewrite H1 in Hne.
  destruct (ps_leaves st) as [|leaf rest] eqn:El; [discriminate Hne|].
  destruct (H3 leaf ltac:(by left)) as (att & _ & He).
  exists st, l, leaf, att. split; [exact H1|]. split; [rewrite El; by left|exact He].
Defined.

Lemma tick_posts_iff_root_differs_witness :
  ∃ r w', toy_tick "t1" toy_world = (Ok r, w') ∧
    ∃ lr, tr_localRoot r = Some lr ∧ Some lr ≠ tr_onChainRoot r.
Proof.
  destruct (toy_tick "t1" toy_world) as [[r|e] w'] eqn:E; [|vm_compute in E; discriminate].
  exists r, w'. split; [reflexivity|].
  apply (tick_posts_iff_root_differs toy_hash toy_sha toy_keccak toy_recover toy_cfg "t1" 5
           toy_world r w' toy_store_inv E).
  vm_compute in E. injection E as <- _. reflexivity.
Defined.

Lemma tick_failure_loses_nothing_witness :
  ∃ e w', runPublisherTick (H0:=down_chain) toy_hash toy_sha toy_keccak toy_recover toy_cfg "t1" 5
            toy_world = (Err e, w') ∧
    (w_store w' = (st_readInbox "t1" (w_store toy_world)).2 ∨ st_load "v" (w_store w') <> None).
Proof.
  destruct (runPublisherTick (H0:=down_chain) toy_hash toy_sha toy_keccak toy_recover toy_cfg "t1" 5
            toy_world) as [[r|e] w'] eqn:E; [vm_compute in E; discriminate|].
  exists e, w'. split; [reflexivity|].
  destruct (tick_failure_loses_nothing (H0:=down_chain) toy_hash toy_sha toy_keccak toy_recover
              toy_cfg "t1" 5 toy_world e w' toy_store_inv E) as [H|(a & v & st & H & _)].
  - left. exact H.
  - right. intros H'. change (tc_verifierId toy_cfg) with "v" in H. rewrite H' in H. discriminate H.
Defined.

Lemma tick_converges_witness :
  ∃ r2 w2, toy_tick "t2" (toy_tick "t1" toy_world).2 = (Ok r2, w2) ∧ tr_published r2 = false ∧
    ToyChain.root (w_chain w2) = ToyChain.root (w_chain (toy_tick "t1" toy_world).2).
Proof.
  destruct (toy_tick "t1" toy_world) as [[r|e] w'] eqn:E; [|vm_compute in E; discriminate].
  destruct (tick_converges toy_hash toy_sha toy_keccak toy_recover toy_cfg "t1" 5 "t2" 5
              toy_world r w' toy_store_inv E) as (r2 & w2 & H1 & H2 & H3 & _).
  exists r2, w2. exact (conj H1 (conj H2 H3)).
Defined.

Lemma dataset_hash_binds_dataset_witness :
  (h32 "1" = h32 "1" ∧ [h32 "2"] = [h32 "2"]) ∨ ∃ p p', p ≠ p' ∧ toy_sha p = toy_sha p'.
Proof.
  assert (H1 : hex32 (h32 "1")) by (eexists; split_and!; reflexivity).
  assert (H2 : hex32 (h32 "2")) by (eexists; split_and!; reflexivity).
  eapply (dataset_hash_binds_dataset toy_sha (h32 "1") (h32 "1") [h32 "2"] [h32 "2"]).
  - exact H1.
  - exact H1.
  - by repeat constructor.
  - by repeat constructor.
  - vm_compute. reflexivity.
  - vm_compute. reflexivity.
Defined.
