(* ===== verification/RelPayload.v ===== *)
(** * Relayer: the pool-withdraw payload

    [relayer/src/shared/payload.ts].  The XDR encoders of the Stellar SDK,
    Keccak-256, and [JSON.parse]/[JSON.stringify] on the encrypted envelope are
    parameters; what is proved of the payload hash and of the persisted form is
    relative to the law of the address encoder ([address_xdr_law]: an XDR value
    is self-delimiting and determines the address). *)
From Stdlib Require Import Ascii.
From stdpp Require Import base tactics list strings.
From Stdlib Require Import ZArith Lia.
From S2P Require Import Prelude JsString Bytes Json PubValidate.
Import RelayBytes.
Open Scope string_scope.
Open Scope list_scope.
Open Scope Z_scope.

Definition RELAY_PAYLOAD_DOMAIN : string := "opaque-stellar-relay-v1".
Definition RELAY_CHAIN_STELLAR : Z := 3000.

Record PoolWithdrawPayload : Type := mkPayload {
  pw_poolId : string;
  pw_proofA : list byte;
  pw_proofB : list byte;
  pw_proofC : list byte;
  pw_withdrawnValue : Z;
  pw_stateRoot : list byte;
  pw_aspRoot : list byte;
  pw_nullifierHash : list byte;
  pw_newCommitment : list byte;
  pw_recipient : string;
  pw_poolFee : Z;
  pw_poolRelayer : string;
}.

Record SerializablePoolWithdrawPayload : Type := mkSerial {
  sp_poolId : string;
  sp_proofA : string;
  sp_proofB : string;
  sp_proofC : string;
  sp_withdrawnValue : string;
  sp_stateRoot : string;
  sp_aspRoot : string;
  sp_nullifierHash : string;
  sp_newCommitment : string;
  sp_recipient : string;
  sp_poolFee : string;
  sp_poolRelayer : string;
}.

(** ** The hash the job commits to *)
Section payload.
Context (addressXdr : string → res (list byte)) (symbolXdr : string → list byte).
Context (keccak_256 : list byte → list byte).

Definition poolWithdrawPayloadPreimage (p : PoolWithdrawPayload) : res (list byte) :=
  pool ← addressXdr (pw_poolId p);
  proofA ← assertLength (pw_proofA p) 64 "proofA";
  proofB ← assertLength (pw_proofB p) 128 "proofB";
  proofC ← assertLength (pw_proofC p) 64 "proofC";
  value ← i128ToBytes (pw_withdrawnValue p);
  stateRoot ← assertLength (pw_stateRoot p) 32 "stateRoot";
  aspRoot ← assertLength (pw_aspRoot p) 32 "aspRoot";
  nullifierHash ← assertLength (pw_nullifierHash p) 32 "nullifierHash";
  newCommitment ← assertLength (pw_newCommitment p) 32 "newCommitment";
  recipient ← addressXdr (pw_recipient p);
  fee ← i128ToBytes (pw_poolFee p);
  relayer ← addressXdr (pw_poolRelayer p);
  Ok (concatBytes [utf8 RELAY_PAYLOAD_DOMAIN; pool; symbolXdr "withdraw"; proofA; proofB; proofC;
                   value; stateRoot; aspRoot; nullifierHash; newCommitment; recipient; fee; relayer]).

Definition hashPoolWithdrawPayload (p : PoolWithdrawPayload) : res (list byte) :=
  pre ← poolWithdrawPayloadPreimage p; Ok (keccak_256 pre).

Definition hashPoolWithdrawPayloadHex (p : PoolWithdrawPayload) : res string :=
  h ← hashPoolWithdrawPayload p; Ok (bytesToHex h).
End payload.

(** ** The persisted and transmitted form *)
Definition serializePoolWithdrawPayload (p : PoolWithdrawPayload) : SerializablePoolWithdrawPayload :=
  mkSerial (pw_poolId p) (bytesToHex (pw_proofA p)) (bytesToHex (pw_proofB p))
    (bytesToHex (pw_proofC p)) (bigint_toString 10 (pw_withdrawnValue p))
    (bytesToHex (pw_stateRoot p)) (bytesToHex (pw_aspRoot p)) (bytesToHex (pw_nullifierHash p))
    (bytesToHex (pw_newCommitment p)) (pw_recipient p) (bigint_toString 10 (pw_poolFee p))
    (pw_poolRelayer p).

(** [assertLength(hexToBytes(s), len, label)] *)
Definition hexField (s : string) (len : nat) (label : string) : res (list byte) :=
  b ← hexToBytes s; assertLength b len label.

Definition parsePoolWithdrawPayload (s : SerializablePoolWithdrawPayload) : res PoolWithdrawPayload :=
  proofA ← hexField (sp_proofA s) 64 "proofA";
  proofB ← hexField (sp_proofB s) 128 "proofB";
  proofC ← hexField (sp_proofC s) 64 "proofC";
  withdrawnValue ← BigInt (sp_withdrawnValue s);
  stateRoot ← hexField (sp_stateRoot s) 32 "stateRoot";
  aspRoot ← hexField (sp_aspRoot s) 32 "aspRoot";
  nullifierHash ← hexField (sp_nullifierHash s) 32 "nullifierHash";
  newCommitment ← hexField (sp_newCommitment s) 32 "newCommitment";
  poolFee ← BigInt (sp_poolFee s);
  Ok (mkPayload (sp_poolId s) proofA proofB proofC withdrawnValue stateRoot aspRoot
        nullifierHash newCommitment (sp_recipient s) poolFee (sp_poolRelayer s)).

Definition serial_json (s : SerializablePoolWithdrawPayload) : jval :=
  JObj [("poolId", JStr (sp_poolId s)); ("proofA", JStr (sp_proofA s));
        ("proofB", JStr (sp_proofB s)); ("proofC", JStr (sp_proofC s));
        ("withdrawnValue", JStr (sp_withdrawnValue s)); ("stateRoot", JStr (sp_stateRoot s));
        ("aspRoot", JStr (sp_aspRoot s)); ("nullifierHash", JStr (sp_nullifierHash s));
        ("newCommitment", JStr (sp_newCommitment s)); ("recipient", JStr (sp_recipient s));
        ("poolFee", JStr (sp_poolFee s)); ("poolRelayer", JStr (sp_poolRelayer s))].

(** The cast of the decoded object to [SerializablePoolWithdrawPayload]: its
    fields are strings, and using any other value as one throws. *)
Definition str_field (v : jval) (k : string) : res string :=
  match prop v k with JStr s => Ok s | _ => Err (TypeError (k +:+ " is not a string")) end.

Definition serial_of_json (v : jval) : res SerializablePoolWithdrawPayload :=
  poolId ← str_field v "poolId"; proofA ← str_field v "proofA";
  proofB ← str_field v "proofB"; proofC ← str_field v "proofC";
  withdrawnValue ← str_field v "withdrawnValue"; stateRoot ← str_field v "stateRoot";
  aspRoot ← str_field v "aspRoot"; nullifierHash ← str_field v "nullifierHash";
  newCommitment ← str_field v "newCommitment"; recipient ← str_field v "recipient";
  poolFee ← str_field v "poolFee"; poolRelayer ← str_field v "poolRelayer";
  Ok (mkSerial poolId proofA proofB proofC withdrawnValue stateRoot aspRoot nullifierHash
        newCommitment recipient poolFee poolRelayer).

Definition payload_envelope (p : PoolWithdrawPayload) : jval :=
  JObj [("t", JStr "pool-withdraw"); ("v", JNum 1);
        ("payload", serial_json (serializePoolWithdrawPayload p))].

Section envelope.
(** [JSON.stringify] with the UTF-8 encoder, and the decoder with [JSON.parse]. *)
Context (json_bytes : jval → list byte) (json_of_bytes : list byte → res jval).

Definition encodePoolWithdrawPayload (p : PoolWithdrawPayload) : list byte :=
  json_bytes (payload_envelope p).

Definition decodePoolWithdrawPayload (bytes : list byte) : res PoolWithdrawPayload :=
  decoded ← json_of_bytes bytes;
  match prop decoded "t", prop decoded "v" with
  | JStr "pool-withdraw", JNum 1 =>
      if truthy (prop decoded "payload")
      then s ← serial_of_json (prop decoded "payload"); parsePoolWithdrawPayload s
      else Err (JsError "Unsupported relayer payload.")
  | _, _ => Err (JsError "Unsupported relayer payload.")
  end.
End envelope.

(** ** Properties *)

(** The payloads the pool contract accepts. *)
Record wf_payload (p : PoolWithdrawPayload) : Prop := {
  wp_a : length (pw_proofA p) = 64%nat;
  wp_b : length (pw_proofB p) = 128%nat;
  wp_c : length (pw_proofC p) = 64%nat;
  wp_state : length (pw_stateRoot p) = 32%nat;
  wp_asp : length (pw_aspRoot p) = 32%nat;
  wp_null : length (pw_nullifierHash p) = 32%nat;
  wp_new : length (pw_newCommitment p) = 32%nat;
}.

Lemma hexField_ok l n label : length l = n → hexField (bytesToHex l) n label = Ok l.
Proof.
  intros Hl. unfold hexField. rewrite hexToBytes_bytesToHex. simpl. by apply assertLength_ok.
Qed.

Lemma hexField_inv s n label l : hexField s n label = Ok l → length l = n.
Proof.
  unfold hexField. intros (b & _ & H)%bind_ok. by apply assertLength_ok in H as [-> ?].
Qed.

Lemma parse_serialize p :
  wf_payload p → parsePoolWithdrawPayload (serializePoolWithdrawPayload p) = Ok p.
Proof.
  intros []. unfold parsePoolWithdrawPayload, serializePoolWithdrawPayload. simpl.
  rewrite !hexField_ok by done. simpl. rewrite !BigInt_toString. simpl. by destruct p.
Qed.

Lemma parse_wf s p : parsePoolWithdrawPayload s = Ok p → wf_payload p.
Proof.
  unfold parsePoolWithdrawPayload. intros H.
  repeat (apply bind_ok in H as (? & ? & H)).
  injection H as <-. split; simpl; by eapply hexField_inv.
Qed.

(** What is persisted before a job is accepted, and what the user
    encrypts, decodes to the payload it was made from, and every decoded payload
    has proofs, roots and hashes of the contract's lengths. *)
Theorem payload_roundtrip (json_bytes : jval → list byte) (json_of_bytes : list byte → res jval) p :
  json_of_bytes (json_bytes (payload_envelope p)) = Ok (payload_envelope p) → wf_payload p →
  parsePoolWithdrawPayload (serializePoolWithdrawPayload p) = Ok p ∧
  decodePoolWithdrawPayload json_of_bytes (encodePoolWithdrawPayload json_bytes p) = Ok p ∧
  ∀ b q, decodePoolWithdrawPayload json_of_bytes b = Ok q → wf_payload q.
Proof.
  intros Hjson Hp. split_and!; [by apply parse_serialize| |].
  - unfold decodePoolWithdrawPayload, encodePoolWithdrawPayload. rewrite Hjson.
    cbn -[parsePoolWithdrawPayload serializePoolWithdrawPayload]. rewrite <-parse_serialize by done.
    by destruct (serializePoolWithdrawPayload p).
  - intros b q (v & _ & H)%bind_ok. repeat case_match; try done.
    apply bind_ok in H as (s' & _ & H). by eapply parse_wf.
Qed.

(** An encoder whose outputs are self-delimiting and determine the address. *)
Definition address_xdr_law (addressXdr : string → res (list byte)) : Prop :=
  ∀ a b x y l l', addressXdr a = Ok x → addressXdr b = Ok y → x ++ l = y ++ l' → a = b ∧ l = l'.

Lemma app_fixed {A} (l1 l2 k1 k2 : list A) n :
  length l1 = n → length l2 = n → l1 ++ k1 = l2 ++ k2 → l1 = l2 ∧ k1 = k2.
Proof. intros H1 H2. apply app_inj_1. congruence. Qed.

Lemma i128_fixed v1 v2 l1 l2 k1 k2 :
  i128ToBytes v1 = Ok l1 → i128ToBytes v2 = Ok l2 → l1 ++ k1 = l2 ++ k2 → v1 = v2 ∧ k1 = k2.
Proof.
  intros H1 H2 Heq. apply (app_fixed _ _ _ _ 16) in Heq as [-> Hk];
    [|by eapply i128ToBytes_length..].
  split; [|done]. apply i128_roundtrip in H1. apply i128_roundtrip in H2. congruence.
Qed.

(** Peel the next field off an equation between two preimages. *)
Ltac peel Hlaw H :=
  first
  [ apply (app_fixed _ _ _ _ 64) in H as [? H]; [|done..]
  | apply (app_fixed _ _ _ _ 128) in H as [? H]; [|done..]
  | apply (app_fixed _ _ _ _ 32) in H as [? H]; [|done..]
  | eapply Hlaw in H as [? H]; [|eassumption..]
  | eapply i128_fixed in H as [? H]; [|eassumption..] ].

Lemma preimage_inj (addressXdr : string → res (list byte)) symbolXdr p q b :
  address_xdr_law addressXdr →
  poolWithdrawPayloadPreimage addressXdr symbolXdr p = Ok b →
  poolWithdrawPayloadPreimage addressXdr symbolXdr q = Ok b → p = q.
Proof.
  intros Hlaw Hp Hq. unfold poolWithdrawPayloadPreimage in Hp, Hq.
  repeat (apply bind_ok in Hp as (? & ? & Hp)).
  repeat (apply bind_ok in Hq as (? & ? & Hq)).
  repeat match goal with H : assertLength _ _ _ = Ok _ |- _ => apply assertLength_ok in H as [-> ?] end.
  rewrite <-Hq in Hp. injection Hp as Heq.
  peel Hlaw Heq. apply app_inv_head in Heq. do 11 peel Hlaw Heq.
  destruct p, q; simpl in *; congruence.
Qed.

(** Two payloads with the same hash are the same payload, field for
    field, or exhibit a Keccak-256 collision: a relayer cannot be handed another
    recipient, fee or proof under a job's committed hash. *)
Theorem payload_hash_binds_fields (addressXdr : string → res (list byte)) symbolXdr keccak_256 p q h :
  address_xdr_law addressXdr →
  hashPoolWithdrawPayloadHex addressXdr symbolXdr keccak_256 p = Ok h →
  hashPoolWithdrawPayloadHex addressXdr symbolXdr keccak_256 q = Ok h →
  p = q ∨ ∃ b b', b ≠ b' ∧ keccak_256 b = keccak_256 b'.
Proof.
  intros Hlaw Hp Hq. unfold hashPoolWithdrawPayloadHex, hashPoolWithdrawPayload in Hp, Hq.
  apply bind_ok in Hp as (hp & Hp & Ep). apply bind_ok in Hp as (bp & Hp & Kp).
  apply bind_ok in Hq as (hq & Hq & Eq). apply bind_ok in Hq as (bq & Hq & Kq).
  injection Kp as <-. injection Kq as <-. rewrite <-Eq in Ep. injection Ep as Ep.
  apply hex_of_bytes_inj in Ep. destruct (decide (bp = bq)) as [->|Hne].
  - left. by eapply preimage_inj.
  - right. by exists bp, bq.
Qed.

(** *** Witnesses *)

(** A self-delimiting address encoder: each byte marked, then a terminator. *)
Definition toy_address (a : string) : res (list byte) :=
  Ok (concat (map (λ b, [Byte.x01; b]) (utf8 a)) ++ [Byte.x00]).

Lemma toy_address_law : address_xdr_law toy_address.
Proof.
  intros a b x y l l' [= <-] [= <-] Heq.
  assert (H : utf8 a = utf8 b ∧ l = l').
  { revert Heq. generalize (utf8 a) (utf8 b). intros u.
    induction u as [|c u IH]; intros [|d w]; simpl; intros Heq; simplify_eq/=; [done|].
    destruct (IH w) as [-> ->]; [done|]. done. }
  destruct H as [H ->]. split; [by apply utf8_inj|done].
Qed.

Definition sample_payload : PoolWithdrawPayload :=
  mkPayload "CPOOL" (repeat Byte.x01 64) (repeat Byte.x02 128) (repeat Byte.x03 64) 1000
    (repeat Byte.x04 32) (repeat Byte.x05 32) (repeat Byte.x06 32) (repeat Byte.x07 32)
    "GRECIPIENT" (-5) "CRELAYER".

Lemma sample_payload_wf : wf_payload sample_payload.
Proof. by split. Qed.

Lemma payload_roundtrip_witness :
  parsePoolWithdrawPayload (serializePoolWithdrawPayload sample_payload) = Ok sample_payload ∧
  decodePoolWithdrawPayload (λ _, Ok (payload_envelope sample_payload))
    (encodePoolWithdrawPayload (λ _, [Byte.x7b]) sample_payload) = Ok sample_payload.
Proof.
  destruct (payload_roundtrip (λ _, [Byte.x7b]) (λ _, Ok (payload_envelope sample_payload))
              sample_payload) as (H1 & H2 & _).
  - reflexivity.
  - split; reflexivity.
  - exact (conj H1 H2).
Defined.

Lemma payload_hash_binds_fields_witness :
  ∃ h, hashPoolWithdrawPayloadHex toy_address utf8 (λ b, b) sample_payload = Ok h ∧
    (sample_payload = sample_payload ∨ ∃ b b' : list byte, b ≠ b' ∧ b = b').
Proof.
  destruct (hashPoolWithdrawPayloadHex toy_address utf8 (λ b, b) sample_payload) as [h|e] eqn:E;
    [|vm_compute in E; discriminate].
  exists h. split; [reflexivity|].
  exact (payload_hash_binds_fields toy_address utf8 (λ b, b) sample_payload sample_payload h
           toy_address_law E E).
Defined.
