(* ===== verification/RelMessages.v ===== *)
(** * Relayer: gossip messages

    [relayer/src/messages.ts].  Messages arrive as untyped JSON: a validator
    checks the fields it names and keeps the others as they are, so a field the
    validator does not look at ([chain], [endpoint], [freeStake], [deadline] and
    [timestamp] beyond being numbers) stays a JavaScript value here.  Ed25519 and
    Keccak-256 are parameters. *)
From Stdlib Require Import Ascii.
From stdpp Require Import base tactics list strings.
From Stdlib Require Import ZArith Lia.
From S2P Require Import Prelude JsString Bytes Json PubValidate RelPayload.
Import RelayBytes.
Open Scope string_scope.
Open Scope list_scope.
Open Scope Z_scope.

Definition BID_DOMAIN : list byte := utf8 "opaque-relayer-bid-v2".
Definition OUTCOME_DOMAIN : list byte := utf8 "opaque-relayer-outcome-v1".
Definition HEARTBEAT_DOMAIN : list byte := utf8 "opaque-relayer-heartbeat-v1".

Record JobAdvert : Type := mkAdvert {
  ja_jobId : string;
  ja_chain : jval;
  ja_fee : string;
  ja_deadline : jval;
  ja_payloadHash : string;
}.

Record RelayerBid : Type := mkBidMsg {
  rb_jobId : string;
  rb_chain : jval;
  rb_operator : string;
  rb_x25519Pk : string;
  rb_sig : string;
  rb_endpoint : jval;
  rb_freeStake : jval;
}.

Record EncryptedPayload : Type := mkEncrypted {
  ep_jobId : string;
  ep_to : string;
  ep_box : string;
  ep_idempotencyKey : option string;
}.

Inductive OutcomeResult : Type := completed | failed.

Record RelayerOutcome : Type := mkOutcome {
  ro_jobId : string;
  ro_operator : string;
  ro_result : OutcomeResult;
  ro_sig : string;
  ro_timestamp : jval;
}.

Record RelayerHeartbeat : Type := mkHeartbeat {
  rh_operator : string;
  rh_sig : string;
  rh_timestamp : jval;
}.

Inductive RelayerMessage : Type :=
  | MsgAdvert (m : JobAdvert)
  | MsgBid (m : RelayerBid)
  | MsgPayload (m : EncryptedPayload)
  | MsgOutcome (m : RelayerOutcome)
  | MsgHeartbeat (m : RelayerHeartbeat).

(** ** Validation *)
Definition is_str (v : jval) : bool := match v with JStr _ => true | _ => false end.
Definition is_num (v : jval) : bool := match v with JNum _ | JFlt _ => true | _ => false end.
Definition str_is (v : jval) (s : string) : bool :=
  match v with JStr s' => String.eqb s' s | _ => false end.
Definition num_is (v : jval) (z : Z) : bool := match v with JNum z' => z' =? z | _ => false end.
Definition str_of (v : jval) : string := match v with JStr s => s | _ => "" end.

(** [v.chain ?? RELAY_CHAIN_STELLAR] *)
Definition nullish_or (v d : jval) : jval := if is_nullish v then d else v.

Definition checkHex32 (s label : string) : res unit :=
  b ← hexToBytes s; _ ← assertLength b 32 label; Ok tt.

Definition validateAdvert (v : jval) : res JobAdvert :=
  if negb (str_is (prop v "t") "advert" && num_is (prop v "v") 1 && is_str (prop v "jobId")
           && is_str (prop v "payloadHash") && is_str (prop v "fee") && is_num (prop v "deadline"))
  then Err (JsError "Invalid relayer advert.")
  else
    _ ← checkHex32 (str_of (prop v "jobId")) "jobId";
    _ ← checkHex32 (str_of (prop v "payloadHash")) "payloadHash";
    Ok (mkAdvert (str_of (prop v "jobId")) (nullish_or (prop v "chain") (JNum RELAY_CHAIN_STELLAR))
          (str_of (prop v "fee")) (prop v "deadline") (str_of (prop v "payloadHash"))).

Definition validateBid (v : jval) : res RelayerBid :=
  if negb (str_is (prop v "t") "bid" && num_is (prop v "v") 1 && is_str (prop v "jobId")
           && is_str (prop v "operator") && is_str (prop v "x25519Pk") && is_str (prop v "sig"))
  then Err (JsError "Invalid relayer bid.")
  else
    _ ← checkHex32 (str_of (prop v "jobId")) "jobId";
    _ ← checkHex32 (str_of (prop v "x25519Pk")) "x25519Pk";
    Ok (mkBidMsg (str_of (prop v "jobId")) (nullish_or (prop v "chain") (JNum RELAY_CHAIN_STELLAR))
          (str_of (prop v "operator")) (str_of (prop v "x25519Pk")) (str_of (prop v "sig"))
          (prop v "endpoint") (prop v "freeStake")).

Definition validateOutcome (v : jval) : res RelayerOutcome :=
  if negb (str_is (prop v "t") "outcome" && num_is (prop v "v") 1 && is_str (prop v "jobId")
           && is_str (prop v "operator")
           && (str_is (prop v "result") "completed" || str_is (prop v "result") "failed")
           && is_str (prop v "sig") && is_num (prop v "timestamp"))
  then Err (JsError "Invalid relayer outcome.")
  else
    _ ← checkHex32 (str_of (prop v "jobId")) "jobId";
    Ok (mkOutcome (str_of (prop v "jobId")) (str_of (prop v "operator"))
          (if str_is (prop v "result") "completed" then completed else failed)
          (str_of (prop v "sig")) (prop v "timestamp")).

Definition validateHeartbeat (v : jval) : res RelayerHeartbeat :=
  if negb (str_is (prop v "t") "heartbeat" && num_is (prop v "v") 1 && is_str (prop v "operator")
           && is_str (prop v "sig") && is_num (prop v "timestamp"))
  then Err (JsError "Invalid relayer heartbeat.")
  else Ok (mkHeartbeat (str_of (prop v "operator")) (str_of (prop v "sig")) (prop v "timestamp")).

(** The idempotency key is declared an optional string; the empty string is
    falsy, so it counts as absent. *)
Definition validatePayload (v : jval) : res EncryptedPayload :=
  if negb (str_is (prop v "t") "payload" && num_is (prop v "v") 1 && is_str (prop v "jobId")
           && is_str (prop v "to") && is_str (prop v "box"))
  then Err (JsError "Invalid relayer payload.")
  else
    _ ← checkHex32 (str_of (prop v "jobId")) "jobId";
    _ ← checkHex32 (str_of (prop v "to")) "payload recipient";
    Ok (mkEncrypted (str_of (prop v "jobId")) (str_of (prop v "to")) (str_of (prop v "box"))
          (match prop v "idempotencyKey" with
           | JStr s => if String.eqb s "" then None else Some s
           | _ => None
           end)).

Definition validateRelayerMessage (v : jval) : res RelayerMessage :=
  if str_is (prop v "t") "advert" then m ← validateAdvert v; Ok (MsgAdvert m)
  else if str_is (prop v "t") "bid" then m ← validateBid v; Ok (MsgBid m)
  else if str_is (prop v "t") "payload" then m ← validatePayload v; Ok (MsgPayload m)
  else if str_is (prop v "t") "outcome" then m ← validateOutcome v; Ok (MsgOutcome m)
  else if str_is (prop v "t") "heartbeat" then m ← validateHeartbeat v; Ok (MsgHeartbeat m)
  else Err (JsError "Invalid relayer message.").

Definition makeAdvert (jobId : list byte) (fee : Z) (deadline : Z) (payloadHash : list byte)
    (chain : option Z) : res JobAdvert :=
  j ← assertLength jobId 32 "jobId";
  h ← assertLength payloadHash 32 "payloadHash";
  Ok (mkAdvert (bytesToHex j) (JNum (default RELAY_CHAIN_STELLAR chain)) (bigint_toString 10 fee)
        (JNum deadline) (bytesToHex h)).

(** A message as it travels. *)
Definition advert_json (a : JobAdvert) : jval :=
  JObj [("t", JStr "advert"); ("v", JNum 1); ("jobId", JStr (ja_jobId a)); ("chain", ja_chain a);
        ("fee", JStr (ja_fee a)); ("deadline", ja_deadline a);
        ("payloadHash", JStr (ja_payloadHash a))].

(** ** Signed digests *)
Definition uint32BE (n : Z) : list byte := be_bytes 4 n.

Definition uint64BE (n : Z) : list byte :=
  be_bytes 4 (Z.land (Z.shiftr n 32) 4294967295) ++ be_bytes 4 (Z.land n 4294967295).

Definition lengthPrefixedUtf8 (s : string) : list byte :=
  let enc := utf8 s in concatBytes [be_bytes 2 (Z.of_nat (length enc)); enc].

Section signing.
Context (keccak_256 : list byte → list byte).
(** [Keypair.fromPublicKey(operator).verify(digest, sig)], which throws on a
    malformed key, and [operator.sign(digest)]. *)
Context (verify : string → list byte → list byte → res bool) (sign : list byte → list byte).
(** [n >>> 0] for the values that are not integers. *)
Context (float_uint32 : jval → Z).

Definition toUint32 (v : jval) : Z :=
  match v with JNum z => z | JUndef | JNull => 0 | _ => float_uint32 v end.

Definition bid_preimage (jobId x25519Pk : list byte) (chain : Z) (endpoint : string)
    (freeStake : Z) : res (list byte) :=
  j ← assertLength jobId 32 "jobId";
  x ← assertLength x25519Pk 32 "x25519Pk";
  Ok (concatBytes [BID_DOMAIN; j; x; uint32BE chain; lengthPrefixedUtf8 endpoint; uint64BE freeStake]).

Definition bidSigningDigest (jobId x25519Pk : list byte) (chain : Z) (endpoint : string)
    (freeStake : Z) : res (list byte) :=
  p ← bid_preimage jobId x25519Pk chain endpoint freeStake; Ok (keccak_256 p).

Definition makeBid (advert : JobAdvert) (publicKey : string) (x25519Pk : list byte)
    (endpoint : option string) (freeStake : option Z) : res RelayerBid :=
  x ← assertLength x25519Pk 32 "x25519Pk";
  j ← hexToBytes (ja_jobId advert);
  digest ← bidSigningDigest j x (toUint32 (ja_chain advert)) (default "" endpoint) (default 0 freeStake);
  Ok (mkBidMsg (ja_jobId advert) (ja_chain advert) publicKey (bytesToHex x)
        (bytesToBase64 (sign digest))
        (match endpoint with Some e => JStr e | None => JUndef end)
        (match freeStake with Some f => JStr (bigint_toString 10 f) | None => JUndef end)).

(** [try { ... } catch { return false; }] *)
Definition catch_false (r : res bool) : bool := match r with Ok b => b | Err _ => false end.

Definition verifyBid (bid : RelayerBid) : bool :=
  catch_false
    (j ← hexToBytes (rb_jobId bid);
     x ← hexToBytes (rb_x25519Pk bid);
     stake ← (if is_undef (rb_freeStake bid) then Ok 0 else js_BigInt (rb_freeStake bid));
     digest ← bidSigningDigest j x (toUint32 (rb_chain bid))
                (js_String (nullish_or (rb_endpoint bid) (JStr ""))) stake;
     s ← base64ToBytes (rb_sig bid);
     verify (rb_operator bid) digest s).

Definition result_byte (r : OutcomeResult) : byte :=
  match r with completed => Byte.x01 | failed => Byte.x00 end.

Definition outcome_preimage (jobId : list byte) (operator : string) (result : OutcomeResult)
    (timestamp : Z) : res (list byte) :=
  j ← assertLength jobId 32 "jobId";
  Ok (concatBytes [OUTCOME_DOMAIN; j; utf8 operator; [result_byte result]; uint64BE timestamp]).

Definition outcomeSigningDigest (jobId : list byte) (operator : string) (result : OutcomeResult)
    (timestamp : jval) : res (list byte) :=
  j ← assertLength jobId 32 "jobId";
  t ← js_BigInt timestamp;
  p ← outcome_preimage j operator result t; Ok (keccak_256 p).

Definition heartbeatSigningDigest (operator : string) (timestamp : jval) : res (list byte) :=
  t ← js_BigInt timestamp;
  Ok (keccak_256 (concatBytes [HEARTBEAT_DOMAIN; utf8 operator; uint64BE t])).

Definition verifyOutcome (o : RelayerOutcome) : bool :=
  catch_false
    (j ← hexToBytes (ro_jobId o);
     digest ← outcomeSigningDigest j (ro_operator o) (ro_result o) (ro_timestamp o);
     s ← base64ToBytes (ro_sig o);
     verify (ro_operator o) digest s).

Definition verifyHeartbeat (h : RelayerHeartbeat) : bool :=
  catch_false
    (digest ← heartbeatSigningDigest (rh_operator h) (rh_timestamp h);
     s ← base64ToBytes (rh_sig h);
     verify (rh_operator h) digest s).
End signing.

(** ** Properties *)
Lemma uint64BE_length n : length (uint64BE n) = 8%nat.
Proof. unfold uint64BE. by rewrite length_app, !be_bytes_length. Qed.

Lemma land_mask32 n : Z.land n 4294967295 = n mod 2 ^ 32.
Proof. change 4294967295 with (Z.ones 32). by rewrite Z.land_ones. Qed.

Lemma uint64BE_split n :
  uint64BE n = be_bytes 4 ((n mod 2 ^ 64) / 2 ^ 32) ++ be_bytes 4 ((n mod 2 ^ 64) mod 2 ^ 32).
Proof.
  unfold uint64BE. rewrite !land_mask32, Z.shiftr_div_pow2 by lia.
  f_equal; f_equal; zdiv.
Qed.

Lemma uint64BE_mod n m : uint64BE n = uint64BE m ↔ n mod 2 ^ 64 = m mod 2 ^ 64.
Proof.
  rewrite !uint64BE_split. split; [|by intros ->].
  intros [H1 H2]%app_inj_1; [|by rewrite !be_bytes_length].
  apply (f_equal (be_val 0)) in H1, H2. rewrite !be_val_be_bytes in H1, H2.
  change (8 * Z.of_nat 4) with 32 in *.
  pose proof (Z.mod_pos_bound n (2 ^ 64) ltac:(lia)). pose proof (Z.mod_pos_bound m (2 ^ 64) ltac:(lia)).
  revert H1 H2. generalize dependent (n mod 2 ^ 64). generalize dependent (m mod 2 ^ 64).
  intros. zdiv.
Qed.

Lemma bid_preimage_inj j x c e s j' x' c' e' s' b :
  bid_preimage j x c e s = Ok b → bid_preimage j' x' c' e' s' = Ok b →
  j = j' ∧ x = x' ∧ c mod 2 ^ 32 = c' mod 2 ^ 32 ∧ e = e' ∧ s mod 2 ^ 64 = s' mod 2 ^ 64.
Proof.
  unfold bid_preimage. intros Hp Hq.
  repeat (apply bind_ok in Hp as (? & ? & Hp)). repeat (apply bind_ok in Hq as (? & ? & Hq)).
  repeat match goal with H : assertLength _ _ _ = Ok _ |- _ => apply assertLength_ok in H as [-> ?] end.
  rewrite <-Hq in Hp. apply Ok_inj in Hp as Heq. unfold concatBytes in Heq. cbn [concat] in Heq.
  apply app_inv_head in Heq.
  apply (app_fixed _ _ _ _ 32) in Heq as [-> Heq]; [|done..].
  apply (app_fixed _ _ _ _ 32) in Heq as [-> Heq]; [|done..].
  apply (app_fixed _ _ _ _ 4) in Heq as [Hc Heq]; [|apply be_bytes_length..].
  unfold lengthPrefixedUtf8, concatBytes in Heq. cbn [concat] in Heq. rewrite <-!app_assoc in Heq.
  apply (app_fixed _ _ _ _ 2) in Heq as [_ Heq]; [|apply be_bytes_length..].
  rewrite !app_nil_l, !app_nil_r in Heq.
  apply app_inj_2 in Heq as [He Hs]; [|by rewrite !uint64BE_length].
  split_and!; [done|done|by apply be_bytes_inj in Hc|by apply utf8_inj|by apply uint64BE_mod].
Qed.

(** The digest a bid is signed over determines the job, the
    encryption key, the endpoint, the chain (as a 32-bit number) and the free
    stake modulo 2^64: an intermediary that changes any of them either
    invalidates the signature or exhibits a Keccak-256 collision. *)
Theorem bid_digest_binds_fields keccak_256 j x c e s j' x' c' e' s' d :
  bidSigningDigest keccak_256 j x c e s = Ok d →
  bidSigningDigest keccak_256 j' x' c' e' s' = Ok d →
  (j = j' ∧ x = x' ∧ c mod 2 ^ 32 = c' mod 2 ^ 32 ∧ e = e' ∧ s mod 2 ^ 64 = s' mod 2 ^ 64)
  ∨ ∃ b b', b ≠ b' ∧ keccak_256 b = keccak_256 b'.
Proof.
  unfold bidSigningDigest. intros (p & Hp & Hd)%bind_ok (q & Hq & Hd')%bind_ok.
  destruct (decide (p = q)) as [->|Hne].
  - left. by eapply bid_preimage_inj.
  - right. exists p, q. split; [done|]. congruence.
Qed.

(** The stake is encoded in 64 bits although stakes are 128-bit
    amounts: adding a multiple of 2^64 to [freeStake] keeps the digest, so the
    signature does not protect the high half of the stake. *)
Theorem bid_digest_ignores_high_stake keccak_256 j x c e s k :
  bidSigningDigest keccak_256 j x c e (s + k * 2 ^ 64) = bidSigningDigest keccak_256 j x c e s.
Proof.
  unfold bidSigningDigest, bid_preimage.
  assert (uint64BE (s + k * 2 ^ 64) = uint64BE s) as ->; [|done].
  apply uint64BE_mod. by rewrite Z.mod_add.
Qed.

(** A bid this operator makes for a valid advert verifies, given
    that the operator's signatures verify under its public key. *)
Theorem own_bid_verifies keccak_256 verify sign float_uint32 advert pk x endpoint stake bid :
  (∀ d, verify pk d (sign d) = Ok true) →
  makeBid keccak_256 sign float_uint32 advert pk x endpoint stake = Ok bid →
  verifyBid keccak_256 verify float_uint32 bid = true ∧
  rb_operator bid = pk ∧ rb_jobId bid = ja_jobId advert.
Proof.
  intros Hv Hb. unfold makeBid in Hb.
  apply bind_ok in Hb as (x' & Hx & Hb). apply assertLength_ok in Hx as [-> Hx].
  apply bind_ok in Hb as (j & Hj & Hb). apply bind_ok in Hb as (d & Hd & Hb).
  injection Hb as <-. split_and!; [|done..].
  unfold verifyBid. cbn [rb_jobId rb_x25519Pk rb_freeStake rb_chain rb_endpoint rb_sig rb_operator].
  rewrite Hj, hexToBytes_bytesToHex. cbn [mbind res_bind].
  assert ((if is_undef (match stake with Some f => JStr (bigint_toString 10 f) | None => JUndef end)
           then Ok 0 else js_BigInt (match stake with Some f => JStr (bigint_toString 10 f) | None => JUndef end))
          = Ok (default 0 stake)) as ->.
  { destruct stake as [f|]; [|done]. simpl. apply BigInt_toString. }
  assert (js_String (nullish_or (match endpoint with Some e => JStr e | None => JUndef end) (JStr ""))
          = default "" endpoint) as -> by (by destruct endpoint).
  cbn [mbind res_bind]. rewrite Hd. cbn [mbind res_bind].
  rewrite base64ToBytes_bytesToBase64. cbn [mbind res_bind]. by rewrite Hv.
Qed.

(** The digest of an outcome report determines the job, the
    operator, the result and the time stamp (as a 64-bit number). *)
Theorem outcome_preimage_binds j op r t j' op' r' t' b :
  outcome_preimage j op r t = Ok b → outcome_preimage j' op' r' t' = Ok b →
  j = j' ∧ op = op' ∧ r = r' ∧ t mod 2 ^ 64 = t' mod 2 ^ 64.
Proof.
  unfold outcome_preimage. intros (? & Hp & H)%bind_ok (? & Hq & H')%bind_ok.
  apply assertLength_ok in Hp as [-> Hj], Hq as [-> Hj'].
  rewrite <-H' in H. apply Ok_inj in H as Heq. unfold concatBytes in Heq. cbn [concat] in Heq.
  apply app_inv_head in Heq.
  apply (app_fixed _ _ _ _ 32) in Heq as [-> Heq]; [|done..].
  rewrite !app_nil_r in Heq.
  apply app_inj_2 in Heq as [Hop Heq]; [|by rewrite !length_app, !uint64BE_length].
  apply utf8_inj in Hop. apply (app_fixed _ _ _ _ 1) in Heq as [Hr Ht]; [|done..].
  split_and!; [done|done|by destruct r, r'|by apply uint64BE_mod].
Qed.

(** *** Witnesses *)
Definition sample_job : list byte := repeat Byte.x11 32.
Definition sample_pk : list byte := repeat Byte.x22 32.
Definition id_hash (b : list byte) : list byte := b.

Lemma bid_digest_binds_fields_witness :
  ∃ d, bidSigningDigest id_hash sample_job sample_pk 3000 "https://r" 7 = Ok d ∧
    ((sample_job = sample_job ∧ sample_pk = sample_pk ∧ 3000 mod 2 ^ 32 = 3000 mod 2 ^ 32 ∧
      "https://r" = "https://r" ∧ 7 mod 2 ^ 64 = 7 mod 2 ^ 64)
     ∨ ∃ b b', b ≠ b' ∧ id_hash b = id_hash b').
Proof.
  destruct (bidSigningDigest id_hash sample_job sample_pk 3000 "https://r" 7) as [d|] eqn:E;
    [|vm_compute in E; discriminate].
  exists d. split; [reflexivity|]. exact (bid_digest_binds_fields id_hash _ _ _ _ _ _ _ _ _ _ d E E).
Defined.

Definition sample_advert : JobAdvert :=
  mkAdvert (bytesToHex sample_job) (JNum 3000) "10" (JNum 500) (bytesToHex sample_pk).

Lemma own_bid_verifies_witness :
  ∃ bid, makeBid id_hash (λ d, d) (λ _, 0) sample_advert "GOP" sample_pk (Some "https://r") (Some 7)
         = Ok bid ∧
    verifyBid id_hash (λ _ d s, Ok (bool_decide (d = s))) (λ _, 0) bid = true.
Proof.
  destruct (makeBid id_hash (λ d, d) (λ _, 0) sample_advert "GOP" sample_pk (Some "https://r") (Some 7))
    as [bid|] eqn:E; [|vm_compute in E; discriminate].
  exists bid. split; [reflexivity|].
  apply (own_bid_verifies id_hash (λ _ d s, Ok (bool_decide (d = s))) (λ d, d) (λ _, 0)
           sample_advert "GOP" sample_pk (Some "https://r") (Some 7) bid); [|exact E].
  intros d. by rewrite bool_decide_true.
Defined.

Lemma outcome_preimage_binds_witness :
  ∃ b, outcome_preimage sample_job "GOP" completed 99 = Ok b ∧
    sample_job = sample_job ∧ "GOP" = "GOP" ∧ completed = completed ∧ 99 mod 2 ^ 64 = 99 mod 2 ^ 64.
Proof.
  destruct (outcome_preimage sample_job "GOP" completed 99) as [b|] eqn:E;
    [|vm_compute in E; discriminate].
  exists b. split; [reflexivity|]. exact (outcome_preimage_binds _ _ _ _ _ _ _ _ b E E).
Defined.
