(* ===== verification/RelStore.v ===== *)
(** * Relayer: durable queue, ledger and their stores

    [relayer/src/job-queue.ts] (the accepted-jobs queue), [relayer/src/store.ts]
    (memory and file stores) and the [JobLedger] class of
    [relayer/src/reconciler.ts].

    [EntryStore] is the interface the queue and the ledger use; [SavingStore] is
    the law they rely on (a save succeeds and is what the next load returns).
    The memory stores satisfy it.  The file stores do not: [writeJsonFile] calls
    two functions that [store.ts] neither defines nor imports. *)
From Stdlib Require Import Ascii.
From stdpp Require Import base tactics list sets strings.
From Stdlib Require Import ZArith Lia Sorted.
From S2P Require Import Prelude JsString JsMap Bytes Json RelPayload RelMessages.
Open Scope string_scope.
Open Scope list_scope.
Open Scope Z_scope.

(** ** Entries *)
Inductive JobPhase : Type := accepting | accepted.

Record AcceptedJobEntry : Type := mkEntry {
  aj_jobId : string;
  aj_acceptedTx : option string;
  aj_phase : option JobPhase;
  aj_payload : SerializablePoolWithdrawPayload;
  aj_deadline : Z;
  aj_fee : string;
  aj_acceptedAt : Z;
  aj_attempts : Z;
  aj_lastError : option string;
}.

Record JobLedgerEntry : Type := mkLedgerEntry {
  le_jobId : string;
  le_acceptedTx : string;
  le_submittedTx : string;
  le_expectedFee : Z;
  le_submittedAt : Z;
}.

(** ** Store interface *)
Class EntryStore (D E : Type) : Type := {
  es_load : M D (option (list E));
  es_save : list E → M D unit;
  es_clear : M D unit;
}.

Class SavingStore (D E : Type) `{EntryStore D E} : Prop := {
  save_load : ∀ l d, ∃ d', es_save l d = (Ok tt, d') ∧ es_load d' = (Ok (Some l), d');
}.

(** *** Memory stores ([MemoryAcceptedJobStore], [MemoryLedgerStore]) *)
Module MemoryEntryStore.
Definition t (E : Type) : Type := option (list E).
Definition load {E} : M (t E) (option (list E)) := gets (λ d, d).
Definition save {E} (entries : list E) : M (t E) unit := modify (λ _, Some entries).
Definition clear {E} : M (t E) unit := modify (λ _, None).
End MemoryEntryStore.

Global Instance memory_entry_store {E} : EntryStore (MemoryEntryStore.t E) E := {|
  es_load := MemoryEntryStore.load;
  es_save := MemoryEntryStore.save;
  es_clear := MemoryEntryStore.clear;
|}.
Global Instance memory_entry_store_saves {E} : SavingStore (MemoryEntryStore.t E) E.
Proof. split. intros l d. by exists (Some l). Qed.

(** *** File stores *)
Definition HUB_FILE : string := "hub.json".
Definition LEDGER_FILE : string := "ledger.json".
Definition ACCEPTED_JOBS_FILE : string := "accepted-jobs.json".
Definition STATE_VERSION : Z := 1.

(** A state file: the object its text parses to, or a text that does not
    parse. *)
Inductive JsonFile (B : Type) : Type :=
  | NoFile
  | Corrupt
  | Parsed (version : option Z) (body : option B).
Arguments NoFile {B}.
Arguments Corrupt {B}.
Arguments Parsed {B} version body.

(** [readJson]: a corrupt file is moved aside before failing. *)
Definition readJsonFile {B} : M (JsonFile B) (option (option Z * option B)) := λ f,
  match f with
  | NoFile => (Ok None, f)
  | Corrupt => (Err (JsError "Corrupt state moved aside"), NoFile)
  | Parsed v b => (Ok (Some (v, b)), f)
  end.

(** [writeJsonFile] starts with [ensureDir(filePath)], a name that is not bound
    in the module. *)
Definition writeJsonFile {B} (data : option Z * option B) : M (JsonFile B) unit :=
  throw (ReferenceError "ensureDir is not defined").

Definition file_clear {B} : M (JsonFile B) unit := modify (λ _, NoFile).

(** [if (!raw || raw.version !== STATE_VERSION) return null] *)
Definition versioned {B} (raw : option (option Z * option B)) : option (option B) :=
  match raw with
  | Some (Some v, b) => if v =? STATE_VERSION then Some b else None
  | _ => None
  end.

Module FileAcceptedJobStore.
Definition t : Type := JsonFile (list AcceptedJobEntry).
Definition load : M t (option (list AcceptedJobEntry)) :=
  raw ← readJsonFile;
  mret (match versioned raw with Some b => Some (default [] b) | None => None end).
Definition save (entries : list AcceptedJobEntry) : M t unit :=
  writeJsonFile (Some STATE_VERSION, Some entries).
Definition clear : M t unit := file_clear.
End FileAcceptedJobStore.

Global Instance file_accepted_store : EntryStore FileAcceptedJobStore.t AcceptedJobEntry := {|
  es_load := FileAcceptedJobStore.load;
  es_save := FileAcceptedJobStore.save;
  es_clear := FileAcceptedJobStore.clear;
|}.

(** A fee read back from disk. *)
Definition deserializeFee (value : jval) : res Z :=
  match value with
  | JNum z => Ok z
  | JStr s => BigInt (if startsWith "__bigint__:" s then drop_string 11 s else s)
  | _ => Err (TypeError "ledger expectedFee must be an integer")
  end.

Definition serialiseBigInt (value : Z) : jval := JStr ("__bigint__:" +:+ bigint_toString 10 value).

(** A ledger entry as it is on disk: the fee is text. *)
Record LedgerFileEntry : Type := mkLedgerFile {
  lf_jobId : string;
  lf_acceptedTx : string;
  lf_submittedTx : string;
  lf_expectedFee : jval;
  lf_submittedAt : Z;
}.

Definition ledger_to_file (e : JobLedgerEntry) : LedgerFileEntry :=
  mkLedgerFile (le_jobId e) (le_acceptedTx e) (le_submittedTx e)
    (JStr (bigint_toString 10 (le_expectedFee e))) (le_submittedAt e).

Definition ledger_of_file (e : LedgerFileEntry) : res JobLedgerEntry :=
  fee ← deserializeFee (lf_expectedFee e);
  Ok (mkLedgerEntry (lf_jobId e) (lf_acceptedTx e) (lf_submittedTx e) fee (lf_submittedAt e)).

Module FileLedgerStore.
Definition t : Type := JsonFile (list LedgerFileEntry).
Definition load : M t (option (list JobLedgerEntry)) :=
  raw ← readJsonFile;
  match versioned raw with
  | None => mret None
  | Some b => lift_res (l ← mapM_res ledger_of_file (default [] b); Ok (Some l))
  end.
Definition save (entries : list JobLedgerEntry) : M t unit :=
  writeJsonFile (Some STATE_VERSION, Some (ledger_to_file <$> entries)).
Definition clear : M t unit := file_clear.
End FileLedgerStore.

Global Instance file_ledger_store : EntryStore FileLedgerStore.t JobLedgerEntry := {|
  es_load := FileLedgerStore.load;
  es_save := FileLedgerStore.save;
  es_clear := FileLedgerStore.clear;
|}.

(** ** The accepted-jobs queue *)
Section queue.
Context {D : Type} `{EntryStore D AcceptedJobEntry}.

Record AcceptedJobQueue : Type := mkQueue {
  q_entries : list (string * AcceptedJobEntry);
  q_loaded : bool;
  q_store : option D;          (** [None] when no store was configured *)
}.

Definition set_entries (f : list (string * AcceptedJobEntry) → list (string * AcceptedJobEntry))
    (q : AcceptedJobQueue) : AcceptedJobQueue :=
  mkQueue (f (q_entries q)) (q_loaded q) (q_store q).

(** Run an operation of the store, if there is one. *)
Definition with_store {A} (dflt : A) (m : M D A) : M AcceptedJobQueue A := λ q,
  match q_store q with
  | None => (Ok dflt, q)
  | Some d => let '(r, d') := m d in (r, mkQueue (q_entries q) (q_loaded q) (Some d'))
  end.

(** [entry.phase ??= entry.acceptedTx ? "accepted" : "accepting"] *)
Definition default_phase (e : AcceptedJobEntry) : AcceptedJobEntry :=
  match aj_phase e with
  | Some _ => e
  | None =>
      mkEntry (aj_jobId e) (aj_acceptedTx e)
        (Some (match aj_acceptedTx e with
               | Some tx => if String.eqb tx "" then accepting else accepted
               | None => accepting
               end))
        (aj_payload e) (aj_deadline e) (aj_fee e) (aj_acceptedAt e) (aj_attempts e) (aj_lastError e)
  end.

Definition put (e : AcceptedJobEntry) (m : list (string * AcceptedJobEntry)) :=
  JMap.set (toLowerCase (aj_jobId e)) (default_phase e) m.

Definition pending (q : AcceptedJobQueue) : list AcceptedJobEntry :=
  sort_by aj_acceptedAt (JMap.vals (q_entries q)).

Definition persist : M AcceptedJobQueue unit := λ q, with_store tt (es_save (pending q)) q.

Definition hydrate : M AcceptedJobQueue unit := λ q,
  if q_loaded q || (match q_store q with None => true | Some _ => false end) then (Ok tt, q)
  else
    (saved ← with_store None es_load;
     modify (set_entries (λ m, foldl (λ m e, put e m) m (default [] saved))))
      (mkQueue (q_entries q) true (q_store q)).

Definition enqueue (e : AcceptedJobEntry) : M AcceptedJobQueue unit :=
  modify (set_entries (put e));; persist.

Definition get (jobId : string) (q : AcceptedJobQueue) : option AcceptedJobEntry :=
  JMap.get (toLowerCase jobId) (q_entries q).

Definition size (q : AcceptedJobQueue) : Z := Z.of_nat (length (q_entries q)).

Definition mark_entry (tx : string) (e : AcceptedJobEntry) : AcceptedJobEntry :=
  mkEntry (aj_jobId e) (Some tx) (Some accepted) (aj_payload e) (aj_deadline e) (aj_fee e)
    (aj_acceptedAt e) (aj_attempts e) (aj_lastError e).

Definition fail_entry (err : string) (e : AcceptedJobEntry) : AcceptedJobEntry :=
  mkEntry (aj_jobId e) (aj_acceptedTx e) (aj_phase e) (aj_payload e) (aj_deadline e) (aj_fee e)
    (aj_acceptedAt e) (aj_attempts e + 1) (Some err).

(** Entries are shared objects: mutating one changes it in the map. *)
Definition update (jobId : string) (f : AcceptedJobEntry → AcceptedJobEntry)
    (q : AcceptedJobQueue) : AcceptedJobQueue :=
  match get jobId q with
  | None => q
  | Some e => set_entries (JMap.set (toLowerCase jobId) (f e)) q
  end.

Definition markAccepted (jobId acceptedTx : string) : M AcceptedJobQueue unit := λ q,
  match get jobId q with
  | None => (Err (JsError ("accepted job intent missing: " +:+ jobId)), q)
  | Some _ => (modify (update jobId (mark_entry acceptedTx));; persist) q
  end.

Definition resolve (jobId : string) : M AcceptedJobQueue unit :=
  modify (set_entries (JMap.del (toLowerCase jobId)));; persist.

Definition recordFailure (jobId error : string) : M AcceptedJobQueue unit := λ q,
  match get jobId q with
  | None => (Ok tt, q)
  | Some _ => (modify (update jobId (fail_entry error));; persist) q
  end.
End queue.
Arguments AcceptedJobQueue : clear implicits.

(** ** The job ledger *)
Section ledger.
Context {D : Type} `{EntryStore D JobLedgerEntry}.

Record JobLedger : Type := mkLedger {
  l_entries : list (string * JobLedgerEntry);
  l_loaded : bool;
  l_store : option D;
}.

Definition all (l : JobLedger) : list JobLedgerEntry := JMap.vals (l_entries l).
Definition ledger_get (jobId : string) (l : JobLedger) : option JobLedgerEntry :=
  JMap.get (toLowerCase jobId) (l_entries l).
Definition ledger_size (l : JobLedger) : Z := Z.of_nat (length (l_entries l)).

(** [persist] is not awaited and its failure is only logged. *)
Definition ledger_persist (l : JobLedger) : JobLedger :=
  match l_store l with
  | None => l
  | Some d => mkLedger (l_entries l) (l_loaded l) (Some (es_save (all l) d).2)
  end.

Definition record (e : JobLedgerEntry) (l : JobLedger) : JobLedger :=
  ledger_persist (mkLedger (JMap.set (toLowerCase (le_jobId e)) e (l_entries l)) (l_loaded l) (l_store l)).

Definition remove (jobId : string) (l : JobLedger) : JobLedger :=
  ledger_persist (mkLedger (JMap.del (toLowerCase jobId) (l_entries l)) (l_loaded l) (l_store l)).

Definition ledger_hydrate (l : JobLedger) : JobLedger :=
  if l_loaded l then l
  else match l_store l with
       | None => l
       | Some d =>
           match es_load d with
           | (Ok (Some saved), d') =>
               mkLedger (foldl (λ m e, JMap.set (toLowerCase (le_jobId e)) e m) (l_entries l) saved)
                 true (Some d')
           | (_, d') => mkLedger (l_entries l) true (Some d')
           end
       end.
End ledger.
Arguments JobLedger : clear implicits.

(** ** Properties of the queue *)

(** The keys of the map are the lower-cased ids of its entries, each once, and
    every entry has a phase. *)
Definition job_key (e : AcceptedJobEntry) : string := toLowerCase (aj_jobId e).
Record queue_wf {D} (q : AcceptedJobQueue D) : Prop := {
  qw_keys : JMap.wf (q_entries q);
  qw_own : ∀ k e, (k, e) ∈ q_entries q → k = job_key e ∧ aj_phase e ≠ None;
}.

Lemma default_phase_id e : aj_phase e ≠ None → default_phase e = e.
Proof. unfold default_phase. by destruct (aj_phase e). Qed.
Lemma default_phase_key e : job_key (default_phase e) = job_key e.
Proof. unfold default_phase. by destruct (aj_phase e). Qed.
Lemma default_phase_some e : aj_phase (default_phase e) ≠ None.
Proof. unfold default_phase. by destruct (aj_phase e) eqn:E; [rewrite E|]. Qed.

Section queue_properties.
Context {D : Type} `{SavingStore D AcceptedJobEntry}.
Implicit Types q : AcceptedJobQueue D.

Lemma queue_wf_set q k e f :
  queue_wf q → k = job_key e → aj_phase e ≠ None →
  (∀ m, f m = JMap.set k e m) → queue_wf (set_entries f q).
Proof.
  intros [Hk Ho] -> Hp Hf. split; simpl; rewrite Hf.
  - by apply JMap.wf_set.
  - intros k' e' [[= -> ->]|Hin]%JMap.elem_of_set; auto.
Qed.

Lemma queue_wf_put q e : queue_wf q → queue_wf (set_entries (put e) q).
Proof.
  intros Hq. eapply (queue_wf_set q _ (default_phase e)); [done|..|done].
  - by rewrite default_phase_key.
  - apply default_phase_some.
Qed.

Lemma queue_wf_del q k : queue_wf q → queue_wf (set_entries (JMap.del k) q).
Proof.
  intros [Hk Ho]. split; simpl; [by apply JMap.wf_del|].
  intros k' e [Hin _]%JMap.elem_of_del. auto.
Qed.

Lemma queue_wf_update q jobId f :
  (∀ e, job_key (f e) = job_key e) → (∀ e, aj_phase e ≠ None → aj_phase (f e) ≠ None) →
  queue_wf q → queue_wf (update jobId f q).
Proof.
  intros Hf1 Hf2 Hq. unfold update, get.
  destruct (JMap.get (toLowerCase jobId) (q_entries q)) as [e|] eqn:E; [|done].
  apply JMap.get_Some_elem in E. destruct (qw_own _ Hq _ _ E) as [Hk Hp].
  eapply (queue_wf_set q _ (f e)); [done|by rewrite Hf1|auto|done].
Qed.

Lemma persist_ok q :
  ∃ q', persist q = (Ok tt, q') ∧ q_entries q' = q_entries q ∧ q_loaded q' = q_loaded q ∧
    match q_store q with
    | None => q_store q' = None
    | Some _ => ∃ d, q_store q' = Some d ∧ es_load d = (Ok (Some (pending q)), d)
    end.
Proof.
  unfold persist, with_store. destruct (q_store q) as [d|] eqn:E.
  - destruct (save_load (pending q) d) as (d' & Hs & Hl). rewrite Hs. eexists. split; [done|].
    simpl. split_and!; [done|done|]. eauto.
  - by exists q.
Qed.

Lemma persist_wf q q' r : queue_wf q → persist q = (r, q') → queue_wf q'.
Proof.
  intros Hq Hp. destruct (persist_ok q) as (q1 & Hp' & He & _). rewrite Hp in Hp'.
  injection Hp' as _ <-. destruct Hq. split; by rewrite He.
Qed.

(** Loading what was saved rebuilds the map. *)
Lemma put_fold_other l m k :
  k ∉ (job_key <$> l) → JMap.get k (foldl (λ m e, put e m) m l) = JMap.get k m.
Proof.
  revert m. induction l as [|e l IH]; intros m Hk; simpl; [done|].
  rewrite fmap_cons, elem_of_cons in Hk. rewrite IH by tauto.
  unfold put. apply JMap.get_set_ne. unfold job_key in Hk. tauto.
Qed.

Lemma put_fold_get l m e :
  NoDup (job_key <$> l) → e ∈ l →
  JMap.get (job_key e) (foldl (λ m e, put e m) m l) = Some (default_phase e).
Proof.
  revert m. induction l as [|x l IH]; intros m Hnd Hin; [by apply elem_of_nil in Hin|].
  rewrite fmap_cons in Hnd. apply NoDup_cons in Hnd as [Hx Hnd]. simpl.
  apply elem_of_cons in Hin as [->|Hin]; [|by apply IH].
  rewrite put_fold_other by done. unfold put. apply JMap.get_set_eq.
Qed.

Lemma pending_keys q : queue_wf q → NoDup (job_key <$> pending q).
Proof.
  intros [Hk Ho]. unfold pending. rewrite sort_by_perm. unfold JMap.wf, JMap.keys in Hk.
  assert (Heq : job_key <$> JMap.vals (q_entries q) = (q_entries q).*1).
  { unfold JMap.vals. rewrite <-list_fmap_compose. apply list_fmap_ext.
    intros i [k e] Hi. simpl. apply list_elem_of_lookup_2 in Hi. by apply Ho in Hi as [-> _]. }
  by rewrite Heq.
Qed.

Lemma pending_elem q e : queue_wf q → e ∈ pending q ↔ JMap.get (job_key e) (q_entries q) = Some e.
Proof.
  intros [Hk Ho]. unfold pending. rewrite sort_by_perm. unfold JMap.vals.
  rewrite list_elem_of_fmap. split.
  - intros ([k e'] & -> & Hin). simpl. destruct (Ho _ _ Hin) as [<- _]. by apply JMap.elem_get.
  - intros Hg%JMap.get_Some_elem. by exists (job_key e, e).
Qed.

(** The queue a restarted process builds from the store. *)
Definition restarted (q : AcceptedJobQueue D) : AcceptedJobQueue D := mkQueue [] false (q_store q).

Lemma hydrate_saved q q' k d :
  queue_wf q → q_store q' = Some d → es_load d = (Ok (Some (pending q)), d) →
  ∃ q2, hydrate (restarted q') = (Ok tt, q2) ∧
    JMap.get k (q_entries q2) = JMap.get k (q_entries q).
Proof.
  intros Hq Hd Hl. unfold hydrate, restarted, with_store, mbind, M_bind, modify. simpl.
  rewrite Hd. simpl. rewrite Hl. eexists. split; [done|]. simpl.
  destruct (JMap.get k (q_entries q)) as [e|] eqn:Hg.
  - pose proof (JMap.get_Some_elem _ _ _ Hg) as Hin. destruct (qw_own _ Hq _ _ Hin) as [-> Hp].
    rewrite <-(default_phase_id e Hp) at 2.
    apply put_fold_get; [by apply pending_keys|]. by apply pending_elem.
  - rewrite put_fold_other; [done|]. intros Hin.
    apply list_elem_of_fmap in Hin as (e & -> & He). apply pending_elem in He; [|done]. congruence.
Qed.

Lemma put_fold_vals l m :
  NoDup (job_key <$> l) → Forall (λ e, aj_phase e ≠ None) l →
  (∀ e, e ∈ l → job_key e ∉ JMap.keys m) →
  foldl (λ m e, put e m) m l = m ++ ((λ e, (job_key e, e)) <$> l).
Proof.
  revert m. induction l as [|x l IH]; intros m Hnd Hp Hm; simpl; [by rewrite app_nil_r|].
  rewrite fmap_cons in Hnd. apply NoDup_cons in Hnd as [Hx Hnd].
  apply Forall_cons in Hp as [Hpx Hp].
  assert (Hput : put x m = m ++ [(job_key x, x)]).
  { unfold put. rewrite default_phase_id by done. fold (job_key x). apply JMap.set_absent.
    apply Hm. by left. }
  rewrite IH, Hput, <-app_assoc; [done|done|done|].
  intros e He. rewrite Hput. unfold JMap.keys. rewrite fmap_app, not_elem_of_app. split.
  - apply Hm. by right.
  - simpl. intros Hk%list_elem_of_singleton. apply Hx, list_elem_of_fmap. by exists e.
Qed.

(** A process that restarts from a synchronised disk is synchronised again, with
    the same jobs. *)
Lemma pending_phases q : queue_wf q → Forall (λ e, aj_phase e ≠ None) (pending q).
Proof.
  intros Hq. apply Forall_forall. intros e He. apply pending_elem in He; [|done].
  apply JMap.get_Some_elem in He. by destruct (qw_own _ Hq _ _ He).
Qed.

(** The operations of the queue, as data. *)
Inductive queue_op : Type :=
  | OpEnqueue (e : AcceptedJobEntry)
  | OpMark (jobId tx : string)
  | OpResolve (jobId : string)
  | OpFail (jobId err : string).

Definition run_op (o : queue_op) : M (AcceptedJobQueue D) unit :=
  match o with
  | OpEnqueue e => enqueue e
  | OpMark j t => markAccepted j t
  | OpResolve j => resolve j
  | OpFail j e => recordFailure j e
  end.

Definition synced (q : AcceptedJobQueue D) : Prop :=
  queue_wf q ∧ ∀ d, q_store q = Some d → es_load d = (Ok (Some (pending q)), d).

Lemma pending_entries q q' : q_entries q' = q_entries q → pending q' = pending q.
Proof. unfold pending. by intros ->. Qed.

Lemma persist_synced q q' r : queue_wf q → persist q = (r, q') → synced q'.
Proof.
  intros Hq Hp. destruct (persist_ok q) as (q1 & Hp' & He & _ & Hs). rewrite Hp in Hp'.
  injection Hp' as -> <-. split; [by eapply persist_wf|].
  intros d Hd. rewrite (pending_entries _ _ He). destruct (q_store q).
  - destruct Hs as (d' & Hd' & Hl). congruence.
  - congruence.
Qed.

Lemma run_op_synced o q q' r : synced q → run_op o q = (r, q') → synced q'.
Proof.
  intros [Hq Hs] Hrun. destruct o as [e|j t|j|j e]; simpl in Hrun.
  - by eapply persist_synced, Hrun; apply queue_wf_put.
  - unfold markAccepted in Hrun. destruct (get j q) eqn:E; [|by injection Hrun as <- <-].
    by eapply persist_synced, Hrun; apply queue_wf_update.
  - by eapply persist_synced, Hrun; apply queue_wf_del.
  - unfold recordFailure in Hrun. destruct (get j q) eqn:E; [|by injection Hrun as <- <-].
    by eapply persist_synced, Hrun; apply queue_wf_update.
Qed.

Lemma restart_synced q d :
  synced q → q_store q = Some d →
  ∃ q2, hydrate (restarted q) = (Ok tt, q2) ∧ synced q2 ∧ q_store q2 = Some d ∧
    pending q2 = pending q ∧ ∀ k, get k q2 = get k q.
Proof.
  intros [Hq Hs] Hd. specialize (Hs d Hd).
  assert (Hrun : hydrate (restarted q) = (Ok tt,
    mkQueue (foldl (λ m e, put e m) [] (pending q)) true (Some d))).
  { unfold hydrate, restarted, with_store, mbind, M_bind, modify. simpl. rewrite Hd. simpl.
    by rewrite Hs. }
  eexists. split; [exact Hrun|].
  assert (Hget : ∀ k, JMap.get k (foldl (λ m e, put e m) [] (pending q)) = JMap.get k (q_entries q)).
  { intros k. destruct (hydrate_saved q q k d Hq Hd Hs) as (q2 & Hq2 & Hg).
    rewrite Hrun in Hq2. injection Hq2 as <-. exact Hg. }
  assert (Hvals : foldl (λ m e, put e m) [] (pending q) = (λ e, (job_key e, e)) <$> pending q).
  { apply put_fold_vals; [by apply pending_keys|by apply pending_phases|set_solver]. }
  assert (Hpend : sort_by aj_acceptedAt (JMap.vals (foldl (λ m e, put e m) [] (pending q))) = pending q).
  { rewrite Hvals. unfold JMap.vals. rewrite <-list_fmap_compose. simpl.
    rewrite list_fmap_id. apply sort_by_id, sort_by_sorted. }
  split_and!; [split; [split|]|done|done|by intros k; apply Hget].
  - cbn [q_entries]. rewrite Hvals. unfold JMap.wf, JMap.keys. rewrite <-list_fmap_compose.
    exact (pending_keys q Hq).
  - cbn [q_entries]. rewrite Hvals. intros k e He.
    apply list_elem_of_fmap in He as (e' & [= -> ->] & He). split; [done|].
    pose proof (pending_phases q Hq) as Hp. rewrite Forall_forall in Hp. auto.
  - cbn [q_store]. intros d' [= <-]. unfold pending at 1. cbn [q_entries]. by rewrite Hpend.
Qed.

(** C38 (refinement): with a store that saves, whatever operation the queue ran
    last (and whether or not it threw), a process restarted from the disk sees
    exactly the jobs the running one had: same ids, same payloads, same phase,
    same attempts. *)
Theorem queue_survives_restart o q q' r d k :
  synced q → run_op o q = (r, q') → q_store q' = Some d →
  ∃ q2, hydrate (restarted q') = (Ok tt, q2) ∧ get k q2 = get k q'.
Proof.
  intros Hq Hrun Hd. destruct (run_op_synced _ _ _ _ Hq Hrun) as [Hwf Hs].
  eapply hydrate_saved; eauto.
Qed.
End queue_properties.

(** ** The file stores never save *)

(** With the file-backed store every operation that persists throws a
    [ReferenceError] and leaves the file as it was, so nothing the queue records
    survives a restart. *)
Theorem file_queue_never_persists (q q' : AcceptedJobQueue FileAcceptedJobStore.t) e r d :
  q_store q = Some d → enqueue e q = (r, q') →
  r = Err (ReferenceError "ensureDir is not defined") ∧ q_store q' = Some d ∧
  get (aj_jobId e) q' = Some (default_phase e).
Proof.
  intros Hd. unfold enqueue, persist, with_store, mbind, M_bind, modify. simpl. rewrite Hd. simpl.
  intros [= <- <-]. split_and!; [done|done|]. unfold get. simpl. apply JMap.get_set_eq.
Qed.

Lemma toString_no_tag n : startsWith "__bigint__:" (bigint_toString 10 n) = false.
Proof.
  unfold bigint_toString. destruct (Z.ltb_spec n 0); [done|].
  pose proof (toString_dec_digits n ltac:(lia)) as Hd.
  destruct (num_str _ _ _) as [|c s]; [done|]. simpl in Hd |- *.
  apply andb_prop in Hd as [Hc _]. revert Hc. by_cases_char c; congruence.
Qed.

(** A ledger entry written as JSON (fee as decimal text, or in the
    older tagged form) is read back unchanged. *)
Theorem ledger_entry_roundtrip e :
  ledger_of_file (ledger_to_file e) = Ok e ∧
  deserializeFee (serialiseBigInt (le_expectedFee e)) = Ok (le_expectedFee e).
Proof.
  split.
  - unfold ledger_of_file, ledger_to_file, deserializeFee. cbn [lf_expectedFee].
    rewrite toString_no_tag, BigInt_toString. by destruct e.
  - unfold deserializeFee, serialiseBigInt. simpl. apply BigInt_toString.
Qed.

(** *** Witnesses *)
Definition sample_entry : AcceptedJobEntry :=
  mkEntry "0xAB" None None (serializePoolWithdrawPayload sample_payload) 500 "10" 1 0 None.
Definition empty_queue : AcceptedJobQueue (MemoryEntryStore.t AcceptedJobEntry) :=
  mkQueue [] false (Some (Some [])).

Lemma empty_queue_synced : synced empty_queue.
Proof. split; [split; [constructor|by intros k e ?%elem_of_nil]|]. by intros d [= <-]. Qed.

Lemma queue_survives_restart_witness :
  ∃ q' q2, enqueue sample_entry empty_queue = (Ok tt, q') ∧
    hydrate (restarted q') = (Ok tt, q2) ∧ get "0xAB" q2 = get "0xAB" q'.
Proof.
  eexists. destruct (queue_survives_restart (OpEnqueue sample_entry) empty_queue
    (enqueue sample_entry empty_queue).2 (Ok tt) (Some [default_phase sample_entry]) "0xAB")
    as (q2 & H1 & H2).
  - exact empty_queue_synced.
  - reflexivity.
  - reflexivity.
  - exists q2. split; [reflexivity|]. exact (conj H1 H2).
Defined.

Definition file_queue : AcceptedJobQueue FileAcceptedJobStore.t := mkQueue [] false (Some NoFile).

Lemma file_queue_never_persists_witness :
  (enqueue sample_entry file_queue).1 = Err (ReferenceError "ensureDir is not defined") ∧
  q_store (enqueue sample_entry file_queue).2 = Some NoFile.
Proof.
  destruct (file_queue_never_persists file_queue (enqueue sample_entry file_queue).2 sample_entry
    (enqueue sample_entry file_queue).1 NoFile) as (H1 & H2 & _);
    [reflexivity|reflexivity|]. exact (conj H1 H2).
Defined.
