(* ===== verification/RelEngine.v ===== *)
(** * Relayer: the job engine

    [relayer/src/engine.ts].  [handleAdvert] decides whether to bid,
    [handlePayload] accepts and submits a job, [resumeAcceptedJobs] finishes what
    an interrupted process left behind.  The chain adapter is any state
    transformer over a chain state; decryption, the payload decoder, hashing and
    signing are parameters.

    The handlers of this file run from start to end: what they do when nothing else runs in
    between.  [RelAsync] has the same handlers with a possible switch at every await.

    [w_log] is a ghost log of the transactions sent to the chain, each with the
    queue as it was at that moment: the ordering lemmas speak about it and no
    operation reads it. *)
From Stdlib Require Import Ascii.
From stdpp Require Import base tactics list sets strings.
From Stdlib Require Import ZArith Lia.
From S2P Require Import Prelude JsString JsMap Bytes Json PubValidate RelPayload RelMessages RelStore.
Import RelayBytes.
Open Scope string_scope.
Open Scope list_scope.
Open Scope Z_scope.

(** ** Data *)
Inductive JobStatus : Type := js_open | js_accepted | js_submitted | js_slashed | js_canceled.
Global Instance JobStatus_eq_dec : EqDecision JobStatus.
Proof. solve_decision. Defined.

Record OnChainJob : Type := mkJob {
  oj_exists : bool;
  oj_status : JobStatus;
  oj_fee : Z;
  oj_deadline : Z;
  oj_payloadHash : string;
  oj_acceptedRelayer : option string;
}.

Record OnChainRelayer : Type := mkRelayer {
  or_registered : bool;
  or_x25519Pk : string;
  or_endpoint : string;
  or_freeStake : Z;
}.

Class RelayerChainAdapter (C : Type) : Type := {
  getJob : string → M C (option OnChainJob);
  getRelayer : string → M C (option OnChainRelayer);
  latestLedger : M C Z;
  simulatePoolWithdraw : PoolWithdrawPayload → M C unit;
  acceptJob : string → M C string;
  submitPoolWithdraw : string → PoolWithdrawPayload → M C string;
}.

Record SubmitRetryPolicy : Type := mkRetry { maxAttempts : Z; baseDelayMs : Z }.
Definition DEFAULT_SUBMIT_RETRY : SubmitRetryPolicy := mkRetry 3 1000.

Record RelayerEngineStats : Type := mkStats {
  jobsSeen : Z;
  bidsSent : Z;
  payloadsSeen : Z;
  st_accepted : Z;
  submitted : Z;
  rejected : Z;
  deadlineDeclined : Z;
  lastError : option string;
}.

Record PayloadResult : Type := mkResult { acceptedTx : string; submittedTx : string }.

Record IdempotencyEntry : Type := mkIdem { ie_result : PayloadResult; ie_expiresAt : Z }.

Definition IDEMPOTENCY_TTL_MS : Z := 24 * 60 * 60 * 1000.
Definition LEDGER_INTERVAL_MS : Z := 5000.
Definition BID_EXPIRY_GRACE_MS : Z := 60 * 60 * 1000.
Definition DEFAULT_DEADLINE_MARGIN_LEDGERS : Z := 30.

(** A bid with the time it was remembered. *)
Record BidEntry : Type := mkBidEntry { be_bid : RelayerBid; be_addedAt : Z }.

(** The configuration, with the optional integers as the caller gives them. *)
Record RelayerEngineConfig : Type := mkConfig {
  ec_operator : string;                       (** [operator.publicKey()] *)
  ec_x25519PublicKey : list byte;
  ec_x25519SecretKey : list byte;
  ec_endpoint : option string;
  ec_minFee : Z;
  ec_deadlineMarginLedgers : option Z;
  ec_submitRetry : option SubmitRetryPolicy;
  ec_maxJobLifetimeLedgers : option Z;
  (** [onSettled]: [Some err] when the hook throws. *)
  ec_onSettled : option (string → OutcomeResult → option string);
}.

(** What the constructor computes from the configuration. *)
Definition deadlineMarginLedgers (cfg : RelayerEngineConfig) : Z :=
  let margin := default DEFAULT_DEADLINE_MARGIN_LEDGERS (ec_deadlineMarginLedgers cfg) in
  if 0 <=? margin then margin else DEFAULT_DEADLINE_MARGIN_LEDGERS.

Definition submitRetry (cfg : RelayerEngineConfig) : SubmitRetryPolicy :=
  let retry := default DEFAULT_SUBMIT_RETRY (ec_submitRetry cfg) in
  mkRetry (if 0 <? maxAttempts retry then maxAttempts retry else maxAttempts DEFAULT_SUBMIT_RETRY)
    (if 0 <=? baseDelayMs retry then baseDelayMs retry else baseDelayMs DEFAULT_SUBMIT_RETRY).

Definition bidExpiryMs (cfg : RelayerEngineConfig) : Z :=
  Z.max LEDGER_INTERVAL_MS
    (default 17280 (ec_maxJobLifetimeLedgers cfg) * LEDGER_INTERVAL_MS + BID_EXPIRY_GRACE_MS).

Record RelayerEngine : Type := mkEngine {
  e_stats : RelayerEngineStats;
  e_bids : list (string * list BidEntry);
  e_idempotencyStore : list (string * IdempotencyEntry);
  e_pendingJobs : list (string * Z);
}.

Definition new_engine : RelayerEngine :=
  mkEngine (mkStats 0 0 0 0 0 0 0 None) [] [] [].

Inductive ChainCall : Type :=
  | CallAccept (jobId : string)
  | CallSubmit (jobId : string) (payload : PoolWithdrawPayload).

Record World (C D L : Type) : Type := mkWorld {
  w_eng : RelayerEngine;
  w_queue : option (AcceptedJobQueue D);      (** [cfg.acceptedJobs] *)
  w_ledger : option (JobLedger L);            (** [cfg.jobLedger] *)
  w_chain : C;
  w_now : Z;                                  (** [Date.now()] *)
  w_settled : list (string * OutcomeResult);  (** calls of [onSettled] *)
  w_log : list (ChainCall * option (AcceptedJobQueue D));
}.
Arguments mkWorld {C D L}.
Arguments w_eng {C D L}.
Arguments w_queue {C D L}.
Arguments w_ledger {C D L}.
Arguments w_chain {C D L}.
Arguments w_now {C D L}.
Arguments w_settled {C D L}.
Arguments w_log {C D L}.

(** ** Counters *)
Definition count_job (s : RelayerEngineStats) : RelayerEngineStats :=
  mkStats (jobsSeen s + 1) (bidsSent s) (payloadsSeen s) (st_accepted s) (submitted s) (rejected s)
    (deadlineDeclined s) (lastError s).
Definition count_bid (s : RelayerEngineStats) : RelayerEngineStats :=
  mkStats (jobsSeen s) (bidsSent s + 1) (payloadsSeen s) (st_accepted s) (submitted s) (rejected s)
    (deadlineDeclined s) (lastError s).
Definition count_payload (s : RelayerEngineStats) : RelayerEngineStats :=
  mkStats (jobsSeen s) (bidsSent s) (payloadsSeen s + 1) (st_accepted s) (submitted s) (rejected s)
    (deadlineDeclined s) (lastError s).
Definition count_accepted (s : RelayerEngineStats) : RelayerEngineStats :=
  mkStats (jobsSeen s) (bidsSent s) (payloadsSeen s) (st_accepted s + 1) (submitted s) (rejected s)
    (deadlineDeclined s) (lastError s).
Definition count_submitted (s : RelayerEngineStats) : RelayerEngineStats :=
  mkStats (jobsSeen s) (bidsSent s) (payloadsSeen s) (st_accepted s) (submitted s + 1) (rejected s)
    (deadlineDeclined s) (lastError s).
Definition count_declined (s : RelayerEngineStats) : RelayerEngineStats :=
  mkStats (jobsSeen s) (bidsSent s) (payloadsSeen s) (st_accepted s) (submitted s) (rejected s)
    (deadlineDeclined s + 1) (lastError s).
Definition count_rejected (err : string) (s : RelayerEngineStats) : RelayerEngineStats :=
  mkStats (jobsSeen s) (bidsSent s) (payloadsSeen s) (st_accepted s) (submitted s) (rejected s + 1)
    (deadlineDeclined s) (Some err).
Definition note_error (err : string) (s : RelayerEngineStats) : RelayerEngineStats :=
  mkStats (jobsSeen s) (bidsSent s) (payloadsSeen s) (st_accepted s) (submitted s) (rejected s)
    (deadlineDeclined s) (Some err).

Definition normalizeHex (value : string) : string := strip0x (toLowerCase value).

Definition rememberBid (now : Z) (bid : RelayerBid) (e : RelayerEngine) : RelayerEngine :=
  let key := toLowerCase (rb_jobId bid) in
  let list := default [] (JMap.get key (e_bids e)) in
  if existsb (λ b, String.eqb (rb_operator (be_bid b)) (rb_operator bid)) list then e
  else mkEngine (e_stats e) (JMap.set key (list ++ [mkBidEntry bid now]) (e_bids e))
         (e_idempotencyStore e) (e_pendingJobs e).

Definition bidsFor (jobId : string) (e : RelayerEngine) : list RelayerBid :=
  be_bid <$> default [] (JMap.get (toLowerCase jobId) (e_bids e)).

(** [prune]: drop expired bids (and jobs left without any), and expired results. *)
Definition prune (cfg : RelayerEngineConfig) (now : Z) (e : RelayerEngine) : RelayerEngine :=
  let fresh l := List.filter (λ b, now - be_addedAt b <? bidExpiryMs cfg) l in
  mkEngine (e_stats e)
    (JMap.retain (λ _ l, negb (bool_decide (l = []))) (prod_map id fresh <$> e_bids e))
    (JMap.retain (λ _ i, now <? ie_expiresAt i) (e_idempotencyStore e))
    (e_pendingJobs e).

(** ** Operations *)
Section engine.
Context {C D L : Type} `{RelayerChainAdapter C} `{EntryStore D AcceptedJobEntry}
  `{EntryStore L JobLedgerEntry}.
Context (cfg : RelayerEngineConfig).
(** Parameters: Keccak-256, the XDR encoders, the operator's signature,
    [n >>> 0] of non-integers, [openBox], [decodePoolWithdrawPayload] and the
    random jitter of each attempt. *)
Context (keccak_256 : list byte → list byte).
Context (addressXdr : string → res (list byte)) (symbolXdr : string → list byte).
Context (sign : list byte → list byte) (float_uint32 : jval → Z).
Context (openBox : string → list byte → list byte → res (list byte)).
Context (json_of_bytes : list byte → res jval) (jitterMs : Z → Z).
Notation W := (World C D L).

Definition chain {A} (m : M C A) : M W A := λ w,
  let '(r, c) := m (w_chain w) in
  (r, mkWorld (w_eng w) (w_queue w) (w_ledger w) c (w_now w) (w_settled w) (w_log w)).

(** A chain call that sends a transaction. *)
Definition send {A} (call : ChainCall) (m : M C A) : M W A := λ w,
  let '(r, c) := m (w_chain w) in
  (r, mkWorld (w_eng w) (w_queue w) (w_ledger w) c (w_now w) (w_settled w)
        (w_log w ++ [(call, w_queue w)])).

(** [cfg.acceptedJobs?.op(...)] *)
Definition on_queue (m : M (AcceptedJobQueue D) unit) : M W unit := λ w,
  match w_queue w with
  | None => (Ok tt, w)
  | Some q =>
      let '(r, q') := m q in
      (r, mkWorld (w_eng w) (Some q') (w_ledger w) (w_chain w) (w_now w) (w_settled w) (w_log w))
  end.

Definition on_eng (f : RelayerEngine → RelayerEngine) : M W unit :=
  modify (λ w, mkWorld (f (w_eng w)) (w_queue w) (w_ledger w) (w_chain w) (w_now w)
                 (w_settled w) (w_log w)).
Definition on_stats (f : RelayerEngineStats → RelayerEngineStats) : M W unit :=
  on_eng (λ e, mkEngine (f (e_stats e)) (e_bids e) (e_idempotencyStore e) (e_pendingJobs e)).
Definition on_pending (f : list (string * Z) → list (string * Z)) (e : RelayerEngine) : RelayerEngine :=
  mkEngine (e_stats e) (e_bids e) (e_idempotencyStore e) (f (e_pendingJobs e)).

(** [cfg.jobLedger?.record(entry)] *)
Definition record_job (e : JobLedgerEntry) : M W unit :=
  modify (λ w, mkWorld (w_eng w) (w_queue w) (record e <$> w_ledger w) (w_chain w) (w_now w)
                 (w_settled w) (w_log w)).

Definition sleep (ms : Z) : M W unit :=
  modify (λ w, mkWorld (w_eng w) (w_queue w) (w_ledger w) (w_chain w) (w_now w + ms)
                 (w_settled w) (w_log w)).

Definition notifySettled (jobId : string) (result : OutcomeResult) : M W unit :=
  match ec_onSettled cfg with
  | None => mret tt
  | Some hook =>
      modify (λ w, mkWorld (w_eng w) (w_queue w) (w_ledger w) (w_chain w) (w_now w)
                     (w_settled w ++ [(jobId, result)]) (w_log w));;
      match hook jobId result with
      | None => mret tt
      | Some err => on_stats (note_error err)
      end
  end.

Definition hasDeadlineHeadroom (deadline : Z) : M W bool :=
  try_catch (latest ← chain latestLedger; mret (deadlineMarginLedgers cfg <=? deadline - latest))
    (λ _, mret true).

(** [getJob(jobId).catch(() => null)] *)
Definition getJob_or_null (jobId : string) : M W (option OnChainJob) :=
  catch_null (chain (getJob jobId)).

Definition reconcileAcceptance (jobId : string) : M W (option string) :=
  current ← getJob_or_null jobId;
  mret (match current with
        | Some j =>
            if negb (bool_decide (oj_status j = js_accepted)) then None
            else match oj_acceptedRelayer j with
                 | Some r =>
                     if negb (String.eqb r "") && negb (String.eqb r (ec_operator cfg)) then None
                     else Some ("on-chain-accept:" +:+ jobId)
                 | None => Some ("on-chain-accept:" +:+ jobId)
                 end
        | None => None
        end).

Definition is_submitted (j : option OnChainJob) : bool :=
  match j with Some j => bool_decide (oj_status j = js_submitted) | None => false end.

(** The loop of [submitWithRetry]: [n] attempts are left, the next one is number
    [attempt]. *)
Fixpoint submit_loop (n : nat) (attempt : Z) (jobId : string) (payload : PoolWithdrawPayload)
    (deadline : Z) (last : jserr) : M W string :=
  match n with
  | O => throw last
  | S n' =>
      try_catch
        (current ← chain (getJob jobId);
         if is_submitted current then mret ("on-chain:" +:+ jobId)
         else send (CallSubmit jobId payload) (submitPoolWithdraw jobId payload))
        (λ err,
          on_queue (recordFailure jobId (err_message err));;
          current ← getJob_or_null jobId;
          if is_submitted current then mret ("on-chain:" +:+ jobId)
          else if maxAttempts (submitRetry cfg) <=? attempt then throw err
          else
            head ← hasDeadlineHeadroom deadline;
            if negb head then throw err
            else
              sleep (baseDelayMs (submitRetry cfg) * 2 ^ (attempt - 1) + jitterMs attempt);;
              submit_loop n' (attempt + 1) jobId payload deadline err)
  end.

Definition submitWithRetry (jobId : string) (payload : PoolWithdrawPayload) (deadline : Z) : M W string :=
  submit_loop (Z.to_nat (maxAttempts (submitRetry cfg))) 1 jobId payload deadline
    (JsError "undefined").

Definition handleAdvert (raw : jval) : M W (option RelayerBid) :=
  advert ← lift_res (validateAdvert raw);
  on_stats count_job;;
  try_catch
    (relayer ← chain (getRelayer (ec_operator cfg));
     match relayer with
     | None => mret None
     | Some relayer =>
         if negb (or_registered relayer) then mret None
         else if negb (String.eqb (normalizeHex (or_x25519Pk relayer))
                         (normalizeHex (bytesToHex (ec_x25519PublicKey cfg)))) then mret None
         else
           job ← chain (getJob (ja_jobId advert));
           match job with
           | None => mret None
           | Some job =>
               if negb (oj_exists job) || negb (bool_decide (oj_status job = js_open)) then mret None
               else if (oj_fee job <? ec_minFee cfg) || (or_freeStake relayer <? oj_fee job)
               then mret None
               else
                 latest ← chain latestLedger;
                 if oj_deadline job - latest <? deadlineMarginLedgers cfg
                 then on_stats count_declined;; mret None
                 else if negb (String.eqb (bigint_toString 10 (oj_fee job)) (ja_fee advert))
                         || negb (num_is (ja_deadline advert) (oj_deadline job))
                         || negb (String.eqb (toLowerCase (oj_payloadHash job))
                                    (toLowerCase (ja_payloadHash advert)))
                 then mret None
                 else
                   bid ← lift_res (makeBid keccak_256 sign float_uint32 advert (ec_operator cfg)
                           (ec_x25519PublicKey cfg) (ec_endpoint cfg) (Some (or_freeStake relayer)));
                   now ← gets w_now;
                   on_eng (rememberBid now bid);;
                   on_stats count_bid;;
                   mret (Some bid)
           end
     end)
    (λ err, on_stats (count_rejected (err_message err));; mret None).

(** The accept step: send [accept_job]; when it throws, look whether it landed. *)
Definition accept_or_reconcile (jobId : string) : M W string :=
  try_catch (send (CallAccept jobId) (acceptJob jobId))
    (λ err,
      reconciled ← reconcileAcceptance jobId;
      match reconciled with
      | None => throw err
      | Some tx => if String.eqb tx "" then throw err else mret tx
      end).

(** The part of [processPayload] after the job is accepted; a throw in it is
    reported as a failed outcome. *)
Definition deliver (msg : EncryptedPayload) (payload : PoolWithdrawPayload) (job : OnChainJob)
    (atx : string) : M W PayloadResult :=
  on_stats count_accepted;;
  stx ← submitWithRetry (ep_jobId msg) payload (oj_deadline job);
  on_stats count_submitted;;
  on_queue (resolve (ep_jobId msg));;
  now ← gets w_now;
  record_job (mkLedgerEntry (ep_jobId msg) atx stx (oj_fee job) now);;
  notifySettled (ep_jobId msg) completed;;
  (match ep_idempotencyKey msg with
   | None => mret tt
   | Some key =>
       on_eng (λ e, mkEngine (e_stats e) (e_bids e)
         (JMap.set key (mkIdem (mkResult atx stx) (now + IDEMPOTENCY_TTL_MS)) (e_idempotencyStore e))
         (e_pendingJobs e))
   end);;
  mret (mkResult atx stx).

(** The part before: decrypt, check, persist the intent, accept. *)
Definition prepare (msg : EncryptedPayload)
    : M W (option (PoolWithdrawPayload * OnChainJob * string)) :=
  aad ← lift_res (hexToBytes (ep_jobId msg));
  plaintext ← lift_res (openBox (ep_box msg) (ec_x25519SecretKey cfg) aad);
  payload ← lift_res (decodePoolWithdrawPayload json_of_bytes plaintext);
  job ← chain (getJob (ep_jobId msg));
  match job with
  | None => mret None
  | Some job =>
      if negb (oj_exists job) || negb (bool_decide (oj_status job = js_open)) then mret None
      else
        hash ← lift_res (hashPoolWithdrawPayloadHex addressXdr symbolXdr keccak_256 payload);
        if negb (String.eqb (toLowerCase hash) (toLowerCase (oj_payloadHash job)))
        then throw (JsError "Payload hash mismatch.")
        else
          head ← hasDeadlineHeadroom (oj_deadline job);
          if negb head then on_stats count_declined;; mret None
          else
            chain (simulatePoolWithdraw payload);;
            now ← gets w_now;
            on_queue (enqueue (mkEntry (ep_jobId msg) None None
              (serializePoolWithdrawPayload payload) (oj_deadline job)
              (bigint_toString 10 (oj_fee job)) now 0 None));;
            atx ← accept_or_reconcile (ep_jobId msg);
            on_queue (markAccepted (ep_jobId msg) atx);;
            mret (Some (payload, job, atx))
  end.

Definition processPayload (msg : EncryptedPayload) : M W (option PayloadResult) :=
  now ← gets w_now;
  on_eng (on_pending (JMap.set (toLowerCase (ep_jobId msg)) now));;
  finally
    (p ← try_catch (prepare msg)
           (λ err, on_stats (count_rejected (err_message err));; throw err);
     match p with
     | None => mret None
     | Some (payload, job, atx) =>
         try_catch (r ← deliver msg payload job atx; mret (Some r))
           (λ err, on_stats (count_rejected (err_message err));;
                   notifySettled (ep_jobId msg) failed;; throw err)
     end)
    (λ w, mkWorld (on_pending (JMap.del (toLowerCase (ep_jobId msg))) (w_eng w)) (w_queue w)
            (w_ledger w) (w_chain w) (w_now w) (w_settled w) (w_log w)).

(** What [handlePayload] decides before it starts processing. *)
Inductive PayloadStart : Type :=
  | Ignored
  | Cached (r : PayloadResult)
  | Process (msg : EncryptedPayload).

Definition startPayload (raw : jval) : M W PayloadStart :=
  msg ← lift_res (validatePayload raw);
  on_stats count_payload;;
  let ownPk := toLowerCase (bytesToHex (ec_x25519PublicKey cfg)) in
  if negb (String.eqb (toLowerCase (ep_to msg)) ownPk) then mret Ignored
  else
    match ep_idempotencyKey msg with
    | None => mret (Process msg)
    | Some key =>
        existing ← gets (λ w, JMap.get key (e_idempotencyStore (w_eng w)));
        now ← gets w_now;
        match existing with
        | Some i =>
            if now <? ie_expiresAt i then mret (Cached (ie_result i))
            else
              on_eng (λ e, mkEngine (e_stats e) (e_bids e)
                (JMap.del key (e_idempotencyStore e)) (e_pendingJobs e));;
              mret (Process msg)
        | None => mret (Process msg)
        end
    end.

Definition handlePayload (raw : jval) : M W (option PayloadResult) :=
  s ← startPayload raw;
  match s with
  | Ignored => mret None
  | Cached r => mret (Some r)
  | Process msg => processPayload msg
  end.

(** *** Recovery *)
Inductive ResumeOutcome : Type := ResSubmitted | ResAbandoned | ResFailed.

(** The entry object as it is now: the loop variable and the map share it. *)
Definition current_entry (e : AcceptedJobEntry) (w : W) : AcceptedJobEntry :=
  match w_queue w with
  | Some q => default e (RelStore.get (aj_jobId e) q)
  | None => e
  end.

(** [cfg.jobLedger?.record({...})]: the arguments are evaluated only when there
    is a ledger. *)
Definition record_resumed (e : AcceptedJobEntry) (stx : string) : M W unit :=
  has ← gets (λ w, match w_ledger w with Some _ => true | None => false end);
  if (has : bool) then
    fee ← lift_res (BigInt (aj_fee e));
    now ← gets w_now;
    record_job (mkLedgerEntry (aj_jobId e)
      (default ("on-chain-accept:" +:+ aj_jobId e) (aj_acceptedTx e)) stx fee now)
  else mret tt.

Definition needs_accept (e : AcceptedJobEntry) : bool :=
  match aj_phase e with
  | Some accepting => true
  | _ => match aj_acceptedTx e with Some tx => String.eqb tx "" | None => true end
  end.

Definition accepted_by_us (j : option OnChainJob) : bool :=
  match j with
  | Some j =>
      bool_decide (oj_status j = js_accepted)
      && match oj_acceptedRelayer j with
         | None => true
         | Some r => String.eqb r "" || String.eqb r (ec_operator cfg)
         end
  | None => false
  end.

Definition is_open (j : option OnChainJob) : bool :=
  match j with Some j => bool_decide (oj_status j = js_open) | None => false end.

(** The last part of the loop body: submit a job known to be accepted. *)
Definition resume_submit (e : AcceptedJobEntry) : M W ResumeOutcome :=
  head ← hasDeadlineHeadroom (aj_deadline e);
  if negb head then on_queue (resolve (aj_jobId e));; mret ResAbandoned
  else
    try_catch
      (payload ← lift_res (parsePoolWithdrawPayload (aj_payload e));
       stx ← submitWithRetry (aj_jobId e) payload (aj_deadline e);
       on_queue (resolve (aj_jobId e));;
       record_resumed e stx;;
       on_stats count_submitted;;
       notifySettled (aj_jobId e) completed;;
       mret ResSubmitted)
      (λ err, on_stats (note_error (err_message err));; mret ResFailed).

Definition resume_body (e : AcceptedJobEntry) : M W ResumeOutcome :=
  current ← getJob_or_null (aj_jobId e);
  if is_submitted current then
    on_queue (resolve (aj_jobId e));;
    record_resumed e ("on-chain:" +:+ aj_jobId e);;
    notifySettled (aj_jobId e) completed;;
    mret ResSubmitted
  else if needs_accept e then
    if accepted_by_us current then
      on_queue (markAccepted (aj_jobId e) ("on-chain-accept:" +:+ aj_jobId e));;
      e' ← gets (current_entry e);
      resume_submit e'
    else if is_open current then
      ok ← try_catch
             (atx ← send (CallAccept (aj_jobId e)) (acceptJob (aj_jobId e));
              on_queue (markAccepted (aj_jobId e) atx);; mret true)
             (λ err, on_queue (recordFailure (aj_jobId e) (err_message err));; mret false);
      if (ok : bool) then e' ← gets (current_entry e); resume_submit e'
      else mret ResFailed
    else on_queue (resolve (aj_jobId e));; mret ResAbandoned
  else resume_submit e.

Definition resume_one (entry : AcceptedJobEntry) : M W ResumeOutcome :=
  e ← gets (current_entry entry); resume_body e.

Fixpoint resume_all (l : list AcceptedJobEntry) : M W (list (string * ResumeOutcome)) :=
  match l with
  | [] => mret []
  | e :: l' =>
      o ← resume_one e;
      rest ← resume_all l';
      mret ((aj_jobId e, o) :: rest)
  end.

(** The three lists of the report are the ids with each outcome. *)
Definition resumeAcceptedJobs : M W (list (string * ResumeOutcome)) :=
  q ← gets w_queue;
  match q with
  | None => mret []
  | Some _ =>
      on_queue hydrate;;
      todo ← gets (λ w, match w_queue w with Some q => pending q | None => [] end);
      resume_all todo
  end.
End engine.

(** ** Durability: what the queue holds when a transaction is sent *)
Section durability.
Context {C D L : Type} `{RelayerChainAdapter C} `{SavingStore D AcceptedJobEntry}
  `{EntryStore L JobLedgerEntry}.
Context (cfg : RelayerEngineConfig).
Context (keccak_256 : list byte → list byte).
Context (addressXdr : string → res (list byte)) (symbolXdr : string → list byte).
Context (sign : list byte → list byte) (float_uint32 : jval → Z).
Context (openBox : string → list byte → list byte → res (list byte)).
Context (json_of_bytes : list byte → res jval) (jitterMs : Z → Z).
Notation W := (World C D L).
Notation Q := (AcceptedJobQueue D).

(** The stored payload can be submitted after a restart. *)
Definition entry_ok (e : AcceptedJobEntry) : Prop := ∃ p, parsePoolWithdrawPayload (aj_payload e) = Ok p.

(** The queue has a store, the store holds exactly the queue, and every entry
    can be submitted from what is stored. *)
Definition durable (oq : option Q) : Prop :=
  ∃ q d, oq = Some q ∧ (q_store q = Some d ∧ q_loaded q = true) ∧ synced q ∧
    ∀ k e, get k q = Some e → entry_ok e.

(** A transaction was sent with its job on disk; a submission also with the same
    payload, for a job recorded as accepted. *)
Definition backed (entry : ChainCall * option Q) : Prop :=
  let '(call, oq) := entry in
  durable oq ∧ ∃ q e, oq = Some q ∧
    match call with
    | CallAccept j => get j q = Some e
    | CallSubmit j p =>
        get j q = Some e ∧ parsePoolWithdrawPayload (aj_payload e) = Ok p ∧
        aj_phase e = Some accepted
    end.

(** Predicates on the queue and the log only. *)
Definition qinv (P : option Q → list (ChainCall * option Q) → Prop) (w : W) : Prop :=
  P (w_queue w) (w_log w).

(** [K]: ids of jobs that have to stay queued meanwhile. *)
Context (K : list string).
Definition fresh (j : string) : Prop := ∀ k, k ∈ K → toLowerCase k ≠ toLowerCase j.

Definition safe (oq : option Q) (log : list (ChainCall * option Q)) : Prop :=
  durable oq ∧ Forall backed log ∧
  ∀ k, k ∈ K → ∃ q e, oq = Some q ∧ get k q = Some e.

Definition holds (j : string) (p : PoolWithdrawPayload) (ph : bool)
    (oq : option Q) (log : list (ChainCall * option Q)) : Prop :=
  safe oq log ∧ ∃ q e, oq = Some q ∧ get j q = Some e ∧
    parsePoolWithdrawPayload (aj_payload e) = Ok p ∧ (ph = true → aj_phase e = Some accepted).

Lemma keeps_chain {A} P (m : M C A) : keeps (qinv P) (chain (D:=D) (L:=L) m).
Proof. intros w Hw. unfold chain. by destruct (m (w_chain w)) as [[a|e] c]. Qed.
Lemma keeps_on_eng P f : keeps (qinv P) (on_eng (C:=C) (D:=D) (L:=L) f).
Proof. by intros w Hw. Qed.
Lemma keeps_on_stats P f : keeps (qinv P) (on_stats (C:=C) (D:=D) (L:=L) f).
Proof. by intros w Hw. Qed.
Lemma keeps_record_job P e : keeps (qinv P) (record_job (C:=C) (D:=D) (L:=L) e).
Proof. by intros w Hw. Qed.
Lemma keeps_sleep P ms : keeps (qinv P) (sleep (C:=C) (D:=D) (L:=L) ms).
Proof. by intros w Hw. Qed.
Lemma keeps_notifySettled P j r : keeps (qinv P) (notifySettled (C:=C) (D:=D) (L:=L) cfg j r).
Proof.
  unfold notifySettled. destruct (ec_onSettled cfg) as [hook|]; [|apply keeps_ret].
  apply keeps_bind; [by intros w Hw|]. intros _.
  destruct (hook j r); [apply keeps_on_stats|apply keeps_ret].
Qed.
Lemma keeps_headroom P d : keeps (qinv P) (hasDeadlineHeadroom (D:=D) (L:=L) cfg d).
Proof.
  apply keeps_try; [|intros; apply keeps_ret].
  apply keeps_bind; [apply keeps_chain|intros; apply keeps_ret].
Qed.
Lemma keeps_getJob_or_null P j : keeps (qinv P) (getJob_or_null (D:=D) (L:=L) j).
Proof. apply keeps_try; [apply keeps_chain|intros; apply keeps_ret]. Qed.
Lemma keeps_reconcile P j : keeps (qinv P) (reconcileAcceptance (D:=D) (L:=L) cfg j).
Proof. apply keeps_bind; [apply keeps_getJob_or_null|intros; apply keeps_ret]. Qed.

Lemma triple_on_queue (P P' : option Q → list (ChainCall * option Q) → Prop) m :
  (∀ log, ¬ P None log) → (∀ q log, P (Some q) log → P' (Some (m q).2) log) →
  triple (qinv P) (on_queue (C:=C) (L:=L) m) (λ _, qinv P') (λ _, qinv P').
Proof.
  intros HN HS w Hw. unfold on_queue, qinv in *. destruct (w_queue w) as [q|] eqn:E.
  - specialize (HS q _ Hw). by destruct (m q) as [[a|e] q'].
  - by apply HN in Hw.
Qed.

Lemma safe_some log : ¬ safe None log.
Proof. intros [(q & d & [=] & _) _]. Qed.
Lemma holds_some j p ph log : ¬ holds j p ph None log.
Proof. intros [Hs _]. by apply safe_some in Hs. Qed.

(** *** Queue operations *)
Lemma persist_entries (q : Q) : q_entries (persist q).2 = q_entries q.
Proof. destruct (persist_ok q) as (q' & -> & Hq & _). exact Hq. Qed.

Lemma persist_store (q : Q) d :
  q_store q = Some d ∧ q_loaded q = true →
  ∃ d', q_store (persist q).2 = Some d' ∧ q_loaded (persist q).2 = true.
Proof.
  intros [Hd Hl]. destruct (persist_ok q) as (q' & -> & _ & Hl' & Hs). rewrite Hd in Hs.
  destruct Hs as (d' & Hd' & _). exists d'. simpl. by rewrite Hl'.
Qed.

(** An operation that persists: what it does to the map is what is on disk. *)
Lemma durable_persist (q q1 : Q) d f :
  q_store q = Some d ∧ q_loaded q = true → synced q → queue_wf (set_entries f q) →
  (∀ k e, get k (set_entries f q) = Some e → entry_ok e) →
  q1 = (persist (set_entries f q)).2 → durable (Some q1).
Proof.
  intros Hd [_ Hs] Hwf Hok ->.
  destruct (persist_store (set_entries f q) d) as (d' & Hd' & Hl'); [done|].
  exists (persist (set_entries f q)).2, d'. split_and!; [done|done|done| |].
  - destruct (persist (set_entries f q)) as [r q'] eqn:E. by eapply persist_synced.
  - intros k e Hg. apply (Hok k). unfold get in *. by rewrite persist_entries in Hg.
Qed.

Lemma enqueue_snd (e : AcceptedJobEntry) (q : Q) : (enqueue e q).2 = (persist (set_entries (put e) q)).2.
Proof. done. Qed.

Lemma get_set_entries k (f : list (string * AcceptedJobEntry) → _) (q : Q) :
  get k (set_entries f q) = JMap.get (toLowerCase k) (f (q_entries q)).
Proof. done. Qed.

Lemma get_persist k (q : Q) : get k (persist q).2 = get k q.
Proof. unfold get. by rewrite persist_entries. Qed.

Lemma durable_enqueue (q : Q) e :
  durable (Some q) → entry_ok e → durable (Some (enqueue e q).2).
Proof.
  intros (q0 & d & [= <-] & Hd & Hs & Hok) He.
  eapply durable_persist; [done|done|apply queue_wf_put, Hs| |done].
  intros k e' Hg. rewrite get_set_entries in Hg. unfold put in Hg.
  destruct (decide (toLowerCase k = toLowerCase (aj_jobId e))) as [Heq|Hne].
  - rewrite Heq, JMap.get_set_eq in Hg. injection Hg as <-.
    unfold entry_ok, default_phase in *. by destruct (aj_phase e).
  - rewrite JMap.get_set_ne in Hg by done. by apply (Hok k).
Qed.

Lemma durable_resolve (q : Q) j : durable (Some q) → durable (Some (resolve j q).2).
Proof.
  intros (q0 & d & [= <-] & Hd & Hs & Hok).
  eapply durable_persist; [done|done|apply queue_wf_del, Hs| |done].
  intros k e' Hg. rewrite get_set_entries in Hg.
  destruct (decide (toLowerCase k = toLowerCase j)) as [Heq|Hne].
  - by rewrite Heq, JMap.get_del_eq in Hg.
  - rewrite JMap.get_del_ne in Hg by done. by apply (Hok k).
Qed.

(** Mutating an entry in place keeps its payload. *)
Lemma durable_update (q : Q) j f :
  (∀ e, job_key (f e) = job_key e) → (∀ e, aj_phase e ≠ None → aj_phase (f e) ≠ None) →
  (∀ e, aj_payload (f e) = aj_payload e) →
  durable (Some q) → durable (Some (persist (update j f q)).2).
Proof.
  intros Hk Hp Hpl (q0 & d & [= <-] & Hd & Hs & Hok). unfold update.
  destruct (get j q) as [e|] eqn:E.
  - eapply durable_persist; [done|done| | |done].
    + pose proof (queue_wf_update q j f Hk Hp (proj1 Hs)) as Hw. unfold update in Hw. by rewrite E in Hw.
    + intros k e' Hg. rewrite get_set_entries in Hg.
      destruct (decide (toLowerCase k = toLowerCase j)) as [Heq|Hne].
      * rewrite Heq, JMap.get_set_eq in Hg. injection Hg as <-. unfold entry_ok. rewrite Hpl.
        by apply (Hok j).
      * rewrite JMap.get_set_ne in Hg by done. by apply (Hok k).
  - destruct (persist_store q d Hd) as (d' & Hd' & Hl').
    exists (persist q).2, d'. split_and!; [done|done|done| |].
    + destruct (persist q) as [r q'] eqn:Ep. eapply persist_synced; [apply Hs|exact Ep].
    + intros k e Hg. rewrite get_persist in Hg. by apply (Hok k).
Qed.

Lemma get_update_some (q : Q) j k f e :
  get k q = Some e → ∃ e', get k (persist (update j f q)).2 = Some e'.
Proof.
  intros Hg. rewrite get_persist. unfold update. destruct (get j q) as [ej|]; [|eauto].
  rewrite get_set_entries. destruct (decide (toLowerCase k = toLowerCase j)) as [->|Hne].
  - rewrite JMap.get_set_eq. eauto.
  - rewrite JMap.get_set_ne by done. eauto.
Qed.

Lemma get_update (q : Q) j f e : get j q = Some e → get j (persist (update j f q)).2 = Some (f e).
Proof.
  intros Hg. rewrite get_persist. unfold update. rewrite Hg, get_set_entries. apply JMap.get_set_eq.
Qed.

(** *** Programs *)
Lemma holds_safe j p ph oq log : holds j p ph oq log → safe oq log.
Proof. by intros [? _]. Qed.

Lemma holds_send j p ph call q log :
  holds j p ph (Some q) log →
  match call with
  | CallAccept j' => j' = j
  | CallSubmit j' p' => j' = j ∧ p' = p ∧ ph = true
  end →
  holds j p ph (Some q) (log ++ [(call, Some q)]).
Proof.
  intros [(Hd & Hlog & HK) (q0 & e & [= <-] & Hg & Hp & Hph)] Hc. split; [split_and!|].
  - done.
  - apply Forall_app. split; [done|]. constructor; [|constructor]. split; [done|].
    exists q, e. split; [done|]. destruct call as [j'|j' p']; [by subst|].
    destruct Hc as (-> & -> & ->). auto.
  - done.
  - exists q, e. auto.
Qed.

Lemma keeps_send {A} j p ph call (m : M C A) :
  match call with
  | CallAccept j' => j' = j
  | CallSubmit j' p' => j' = j ∧ p' = p ∧ ph = true
  end →
  keeps (qinv (holds j p ph)) (send (L:=L) call m).
Proof.
  intros Hc w Hw. unfold send, qinv in *. destruct (w_queue w) as [q|] eqn:E;
    [|by apply holds_some in Hw].
  pose proof (holds_send j p ph call q _ Hw Hc) as Hh.
  destruct (m (w_chain w)) as [[a|e] c]; exact Hh.
Qed.

Lemma update_holds j p ph ph' f q log :
  (∀ e, job_key (f e) = job_key e) → (∀ e, aj_phase e ≠ None → aj_phase (f e) ≠ None) →
  (∀ e, aj_payload (f e) = aj_payload e) →
  (∀ e, (ph = true → aj_phase e = Some accepted) → ph' = true → aj_phase (f e) = Some accepted) →
  holds j p ph (Some q) log →
  holds j p ph' (Some (persist (update j f q)).2) log.
Proof.
  intros Hf1 Hf2 Hf3 Hf4 [(Hd & Hlog & HK) (q0 & e & [= <-] & Hg & Hp & Hph)].
  split; [split_and!; [by apply durable_update|done|]|].
  { intros k Hk. destruct (HK k Hk) as (q1 & e1 & [= <-] & He1).
    destruct (get_update_some q j k f e1 He1) as [e2 He2]. eauto. }
  exists (persist (update j f q)).2, (f e). split_and!; [done|by apply get_update|by rewrite Hf3|].
  intros Ht. by apply Hf4.
Qed.

Lemma keeps_recordFailure j p ph err :
  keeps (qinv (holds j p ph)) (on_queue (C:=C) (L:=L) (recordFailure j err)).
Proof.
  apply triple_on_queue; [apply holds_some|]. intros q log Hh. unfold recordFailure.
  destruct (get j q) as [e|] eqn:E; [|done]. by apply (update_holds j p ph ph (fail_entry err)).
Qed.

Lemma triple_markAccepted j p ph tx :
  triple (qinv (holds j p ph)) (on_queue (C:=C) (L:=L) (markAccepted j tx))
    (λ _, qinv (holds j p true)) (λ _, qinv (holds j p true)).
Proof.
  apply triple_on_queue; [apply holds_some|]. intros q log Hh. unfold markAccepted.
  destruct Hh as [Hs (q0 & e & [= <-] & Hg & Hp & Hph)]. rewrite Hg.
  apply (update_holds j p ph true (mark_entry tx)); [done..|].
  split; [done|]. exists q, e. auto.
Qed.

Lemma triple_resolve (P : option Q → list (ChainCall * option Q) → Prop) j :
  fresh j → (∀ oq log, P oq log → safe oq log) →
  triple (qinv P) (on_queue (C:=C) (L:=L) (resolve j)) (λ _, qinv safe) (λ _, qinv safe).
Proof.
  intros Hfr HP. apply triple_on_queue.
  - intros log Hn%HP. by apply safe_some in Hn.
  - intros q log (Hd & Hlog & HK)%HP. split_and!; [by apply durable_resolve|done|].
    intros k Hk. destruct (HK k Hk) as (q1 & e1 & [= <-] & He1).
    exists (resolve j q).2, e1. split; [done|]. unfold resolve, mbind, M_bind, modify.
    rewrite get_persist, get_set_entries, JMap.get_del_ne by (by apply Hfr). exact He1.
Qed.

Lemma keeps_submit_loop n attempt j p d last :
  keeps (qinv (holds j p true)) (submit_loop (D:=D) (L:=L) cfg jitterMs n attempt j p d last).
Proof.
  revert attempt last. induction n as [|n IH]; intros attempt last; simpl; [apply keeps_throw|].
  apply keeps_try.
  - apply keeps_bind; [apply keeps_chain|]. intros cur. destruct (is_submitted cur);
      [apply keeps_ret|by apply keeps_send].
  - intros err. apply keeps_bind; [apply keeps_recordFailure|]. intros _.
    apply keeps_bind; [apply keeps_getJob_or_null|]. intros cur.
    destruct (is_submitted cur); [apply keeps_ret|]. destruct (_ <=? _); [apply keeps_throw|].
    apply keeps_bind; [apply keeps_headroom|]. intros [|]; [|apply keeps_throw]. simpl.
    apply keeps_bind; [apply keeps_sleep|]. intros _. apply IH.
Qed.

Lemma keeps_accept_or_reconcile j p :
  keeps (qinv (holds j p false)) (accept_or_reconcile (D:=D) (L:=L) cfg j).
Proof.
  apply keeps_try; [by apply keeps_send|]. intros err.
  apply keeps_bind; [apply keeps_reconcile|]. intros [tx|]; [|apply keeps_throw].
  destruct (String.eqb tx ""); [apply keeps_throw|apply keeps_ret].
Qed.

Notation prepare := (prepare (C:=C) (D:=D) (L:=L) cfg keccak_256 addressXdr symbolXdr openBox json_of_bytes).
Notation deliver := (deliver (C:=C) (D:=D) (L:=L) cfg jitterMs).
Notation processPayload :=
  (processPayload (C:=C) (D:=D) (L:=L) cfg keccak_256 addressXdr symbolXdr openBox json_of_bytes jitterMs).
Notation handlePayload :=
  (handlePayload (C:=C) (D:=D) (L:=L) cfg keccak_256 addressXdr symbolXdr openBox json_of_bytes jitterMs).
Notation handleAdvert := (handleAdvert (C:=C) (D:=D) (L:=L) cfg keccak_256 sign float_uint32).
Notation resumeAcceptedJobs := (resumeAcceptedJobs (C:=C) (D:=D) (L:=L) cfg jitterMs).

Lemma triple_holds_safe {A} j p ph (m : M W A) :
  keeps (qinv (holds j p ph)) m →
  triple (qinv (holds j p ph)) m (λ _, qinv (holds j p ph)) (λ _, qinv safe).
Proof. intros Hm. eapply triple_conseq; [exact Hm|done|done|]. intros e w. apply holds_safe. Qed.

(** Recording the intent of a decoded payload. *)
Lemma triple_enqueue msg p job now :
  wf_payload p →
  triple (qinv safe)
    (on_queue (C:=C) (L:=L) (enqueue (mkEntry (ep_jobId msg) None None
       (serializePoolWithdrawPayload p) (oj_deadline job) (bigint_toString 10 (oj_fee job)) now 0 None)))
    (λ _, qinv (holds (ep_jobId msg) p false)) (λ _, qinv safe).
Proof.
  intros Hp. eapply triple_conseq;
    [apply (triple_on_queue safe (holds (ep_jobId msg) p false)); [apply safe_some|]|done|done|];
    [|intros e w; apply holds_safe].
  intros q log (Hd & Hlog & HK).
  assert (He : entry_ok (mkEntry (ep_jobId msg) None None (serializePoolWithdrawPayload p)
    (oj_deadline job) (bigint_toString 10 (oj_fee job)) now 0 None)).
  { exists p. by apply parse_serialize. }
  split; [split_and!; [by apply durable_enqueue|done|]|].
  { intros k Hk. destruct (HK k Hk) as (q1 & e1 & [= <-] & He1).
    rewrite enqueue_snd. enough (∃ e2, get k (persist (set_entries (put (mkEntry (ep_jobId msg) None None
      (serializePoolWithdrawPayload p) (oj_deadline job) (bigint_toString 10 (oj_fee job)) now 0 None)) q)).2
      = Some e2) as [e2 He2] by eauto.
    rewrite get_persist, get_set_entries. unfold put.
    destruct (decide (toLowerCase k = toLowerCase (ep_jobId msg))) as [Heq|Hne].
    - rewrite Heq, JMap.get_set_eq. eauto.
    - rewrite JMap.get_set_ne by done. eauto. }
  eexists _, _. split; [done|]. rewrite enqueue_snd, get_persist, get_set_entries.
  split; [apply JMap.get_set_eq|]. split; [by apply parse_serialize|done].
Qed.

Lemma lift_decode {A} (P : W → Prop) b (f : PoolWithdrawPayload → M W A) R E :
  (∀ e w, P w → E e w) → (∀ p, wf_payload p → triple P (f p) R E) →
  triple P (lift_res (decodePoolWithdrawPayload json_of_bytes b) ≫= f) R E.
Proof.
  intros HE Hf w Hw. unfold mbind, M_bind, lift_res.
  destruct (decodePoolWithdrawPayload json_of_bytes b) as [p|e] eqn:Ed; [|by apply HE].
  apply Hf; [|done]. unfold decodePoolWithdrawPayload in Ed.
  apply bind_ok in Ed as (v & _ & Hv). repeat case_match; try done.
  apply bind_ok in Hv as (s' & _ & Hs'). by eapply parse_wf.
Qed.

Lemma triple_prepare msg :
  triple (qinv safe) (prepare msg)
    (λ r, qinv (match r with Some (p, _, _) => holds (ep_jobId msg) p true | None => safe end))
    (λ _, qinv safe).
Proof.
  eapply triple_bind; [apply keeps_lift|]. intros aad.
  eapply triple_bind; [apply keeps_lift|]. intros plain.
  apply lift_decode; [done|]. intros p Hp.
  eapply triple_bind; [apply keeps_chain|]. intros [job|]; [|by intros w Hw].
  destruct (negb _ || negb _); [by intros w Hw|].
  eapply triple_bind; [apply keeps_lift|]. intros hash.
  destruct (negb _); [by intros w Hw|].
  eapply triple_bind; [apply keeps_headroom|]. intros head.
  destruct (negb head).
  { eapply triple_bind; [apply keeps_on_stats|]. by intros ? w Hw. }
  eapply triple_bind; [apply keeps_chain|]. intros ?.
  eapply triple_bind; [apply keeps_gets|]. intros now.
  eapply triple_bind; [by apply triple_enqueue|]. intros ?.
  eapply triple_bind; [apply triple_holds_safe, keeps_accept_or_reconcile|]. intros atx.
  eapply triple_bind.
  { eapply triple_conseq; [apply triple_markAccepted|done|done|]. intros e w. apply holds_safe. }
  intros ? w Hw. exact Hw.
Qed.

Lemma triple_deliver msg p job atx :
  fresh (ep_jobId msg) →
  triple (qinv (holds (ep_jobId msg) p true)) (deliver msg p job atx)
    (λ _, qinv safe) (λ _, qinv safe).
Proof.
  intros Hfr.
  eapply triple_bind; [apply triple_holds_safe, keeps_on_stats|]. intros ?.
  eapply triple_bind; [apply triple_holds_safe, keeps_submit_loop|]. intros stx.
  eapply triple_bind; [apply triple_holds_safe, keeps_on_stats|]. intros ?.
  eapply triple_bind; [apply triple_resolve; [done|intros oq log; apply holds_safe]|]. intros ?.
  eapply triple_bind; [apply keeps_gets|]. intros now.
  eapply triple_bind; [apply keeps_record_job|]. intros ?.
  eapply triple_bind; [apply keeps_notifySettled|]. intros ?.
  eapply triple_bind; [destruct (ep_idempotencyKey msg); [apply keeps_on_eng|apply keeps_ret]|].
  intros ?. apply keeps_ret.
Qed.

Lemma keeps_processPayload msg : fresh (ep_jobId msg) → keeps (qinv safe) (processPayload msg).
Proof.
  intros Hfr.
  apply keeps_bind; [apply keeps_gets|]. intros now.
  apply keeps_bind; [apply keeps_on_eng|]. intros _.
  apply keeps_finally; [|by intros w Hw].
  eapply triple_bind.
  - eapply triple_try; [apply triple_prepare|]. intros err.
    eapply triple_bind; [apply keeps_on_stats|]. by intros ? w Hw.
  - intros [[[p job] atx]|]; [|by intros w Hw].
    eapply triple_try.
    + eapply triple_bind; [by apply triple_deliver|]. by intros r w Hw.
    + intros err. eapply triple_bind; [apply keeps_on_stats|]. intros ?.
      eapply triple_bind; [apply keeps_notifySettled|]. by intros ? w Hw.
Qed.

Lemma keeps_startPayload P raw : keeps (qinv P) (startPayload (C:=C) (D:=D) (L:=L) cfg raw).
Proof.
  apply keeps_bind; [apply keeps_lift|]. intros msg.
  apply keeps_bind; [apply keeps_on_stats|]. intros _. cbv zeta.
  destruct (negb _); [apply keeps_ret|].
  destruct (ep_idempotencyKey msg) as [key|]; [|apply keeps_ret].
  apply keeps_bind; [apply keeps_gets|]. intros ex.
  apply keeps_bind; [apply keeps_gets|]. intros now.
  destruct ex as [i|]; [|apply keeps_ret]. destruct (now <? _); [apply keeps_ret|].
  apply keeps_bind; [apply keeps_on_eng|]. intros _. apply keeps_ret.
Qed.

Lemma keeps_handlePayload raw : (∀ j, fresh j) → keeps (qinv safe) (handlePayload raw).
Proof.
  intros Hfr.
  apply keeps_bind; [apply keeps_startPayload|].
  intros [|r|msg]; [apply keeps_ret..|by apply keeps_processPayload].
Qed.

Lemma keeps_handleAdvert P raw : keeps (qinv P) (handleAdvert raw).
Proof.
  apply keeps_bind; [apply keeps_lift|]. intros ad.
  apply keeps_bind; [apply keeps_on_stats|]. intros _.
  apply keeps_try; [|intros; apply keeps_bind; [apply keeps_on_stats|intros; apply keeps_ret]].
  apply keeps_bind; [apply keeps_chain|]. intros [rel|]; [|apply keeps_ret].
  destruct (negb _); [apply keeps_ret|]. destruct (negb _); [apply keeps_ret|].
  apply keeps_bind; [apply keeps_chain|]. intros [job|]; [|apply keeps_ret].
  destruct (_ || _); [apply keeps_ret|]. destruct (_ || _); [apply keeps_ret|].
  apply keeps_bind; [apply keeps_chain|]. intros latest.
  destruct (_ <? _); [apply keeps_bind; [apply keeps_on_stats|intros; apply keeps_ret]|].
  destruct (_ || _); [apply keeps_ret|].
  apply keeps_bind; [apply keeps_lift|]. intros bid.
  apply keeps_bind; [apply keeps_gets|]. intros now.
  apply keeps_bind; [apply keeps_on_eng|]. intros _.
  apply keeps_bind; [apply keeps_on_stats|intros; apply keeps_ret].
Qed.

Notation resume_submit := (resume_submit (C:=C) (D:=D) (L:=L) cfg jitterMs).
Notation resume_body := (resume_body (C:=C) (D:=D) (L:=L) cfg jitterMs).
Notation resume_one := (resume_one (C:=C) (D:=D) (L:=L) cfg jitterMs).

Lemma keeps_record_resumed P e stx : keeps (qinv P) (record_resumed (C:=C) (D:=D) (L:=L) e stx).
Proof.
  apply keeps_bind; [apply keeps_gets|]. intros [|]; [|apply keeps_ret].
  apply keeps_bind; [apply keeps_lift|]. intros fee.
  apply keeps_bind; [apply keeps_gets|]. intros now. apply keeps_record_job.
Qed.

Lemma triple_drop {A} j p ph (m : M W A) :
  keeps (qinv safe) m → triple (qinv (holds j p ph)) m (λ _, qinv safe) (λ _, qinv safe).
Proof. intros Hm. eapply triple_conseq; [exact Hm| |done|done]. intros w. apply holds_safe. Qed.

Lemma triple_resume_submit e p :
  parsePoolWithdrawPayload (aj_payload e) = Ok p → fresh (aj_jobId e) →
  triple (qinv (holds (aj_jobId e) p true)) (resume_submit e) (λ _, qinv safe) (λ _, qinv safe).
Proof.
  intros Hp Hfr. eapply triple_bind; [apply triple_holds_safe, keeps_headroom|]. intros head.
  destruct (negb head).
  { eapply triple_bind; [apply triple_resolve; [done|intros oq log; apply holds_safe]|].
    by intros ? w Hw. }
  eapply (triple_try _ _ _ _ _ (λ _, qinv safe)).
  - rewrite Hp. apply triple_lift_ok.
    eapply triple_bind; [apply triple_holds_safe, keeps_submit_loop|]. intros stx.
    eapply triple_bind; [apply triple_resolve; [done|intros oq log; apply holds_safe]|]. intros ?.
    eapply triple_bind; [apply keeps_record_resumed|]. intros ?.
    eapply triple_bind; [apply keeps_on_stats|]. intros ?.
    eapply triple_bind; [apply keeps_notifySettled|]. intros ?. apply keeps_ret.
  - intros err. eapply triple_bind; [apply keeps_on_stats|]. intros ?. apply keeps_ret.
Qed.

Lemma holds_key j j' p ph oq log :
  toLowerCase j = toLowerCase j' → holds j p ph oq log → holds j' p ph oq log.
Proof.
  intros Hk [Hs (q & e & Hq & Hg & Hp)]. split; [done|]. exists q, e. split; [done|].
  split; [|done]. unfold get in *. by rewrite <-Hk.
Qed.

(** The shared entry object, read back from the map. *)
Lemma current_entry_holds e p ph w :
  qinv (holds (aj_jobId e) p ph) w →
  let e' := current_entry e w in
  toLowerCase (aj_jobId e') = toLowerCase (aj_jobId e) ∧
  parsePoolWithdrawPayload (aj_payload e') = Ok p ∧ qinv (holds (aj_jobId e') p ph) w.
Proof.
  intros Hw. pose proof Hw as [[(q' & d & Hq' & _ & [Hwf _] & _) _] (q & e0 & Hq & Hg & Hp & _)].
  unfold current_entry. rewrite Hq in *. simplify_eq. rewrite Hg. simpl.
  apply JMap.get_Some_elem in Hg. destruct (qw_own _ Hwf _ _ Hg) as [Hk _].
  split_and!; [done|done|]. unfold qinv. eapply holds_key; [exact Hk|exact Hw].
Qed.

Lemma triple_resume_marked e p :
  fresh (aj_jobId e) →
  triple (qinv (holds (aj_jobId e) p true)) (gets (current_entry e) ≫= resume_submit)
    (λ _, qinv safe) (λ _, qinv safe).
Proof.
  intros Hfr. apply triple_gets. intros w Hw.
  destruct (current_entry_holds e p true w Hw) as (Hk & Hp & Hh).
  eapply triple_conseq; [apply (triple_resume_submit _ p); [exact Hp|]| |done|done].
  - intros k Hin. rewrite Hk. by apply Hfr.
  - by intros w' ->.
Qed.

Lemma triple_resume_body e p :
  parsePoolWithdrawPayload (aj_payload e) = Ok p → fresh (aj_jobId e) →
  triple (qinv (holds (aj_jobId e) p (negb (needs_accept e)))) (resume_body e)
    (λ _, qinv safe) (λ _, qinv safe).
Proof.
  intros Hp Hfr. eapply triple_bind; [apply triple_holds_safe, keeps_getJob_or_null|]. intros cur.
  destruct (is_submitted cur).
  { eapply triple_bind; [apply triple_resolve; [done|intros oq log; apply holds_safe]|]. intros ?.
    eapply triple_bind; [apply keeps_record_resumed|]. intros ?.
    eapply triple_bind; [apply keeps_notifySettled|]. intros ?. apply keeps_ret. }
  destruct (needs_accept e); [|by apply triple_resume_submit].
  destruct (accepted_by_us cfg cur).
  { eapply triple_bind; [|intros ?; by apply (triple_resume_marked e p)].
    eapply triple_conseq; [apply (triple_markAccepted _ p false)|done|done|]. intros err w. apply holds_safe. }
  destruct (is_open cur).
  - eapply (triple_bind _ _ _ (λ ok : bool, qinv (if ok then holds (aj_jobId e) p true else safe))).
    + eapply (triple_try _ _ _ _ _ (λ _, qinv (holds (aj_jobId e) p false))).
      * eapply triple_bind; [by apply keeps_send|]. intros atx.
        eapply (triple_bind _ _ _ (λ _, qinv (holds (aj_jobId e) p true))); [|by intros ? w Hw].
        eapply triple_conseq; [apply (triple_markAccepted _ p false)|done|done|].
        intros err w [Hs (q & e0 & H3 & H4 & H5 & _)]. split; [done|]. by exists q, e0.
      * intros err. eapply triple_bind; [apply triple_holds_safe, keeps_recordFailure|].
        intros ? w. apply holds_safe.
    + intros [|]; [by apply triple_resume_marked|by intros w Hw].
  - eapply triple_bind; [apply triple_resolve; [done|intros oq log; apply holds_safe]|].
    by intros ? w Hw.
Qed.

(** An entry of the queue, before it is looked at. *)
Lemma triple_resume_one entry :
  fresh (aj_jobId entry) →
  triple (qinv (λ oq log, safe oq log ∧ ∃ q e, oq = Some q ∧ get (aj_jobId entry) q = Some e))
    (resume_one entry) (λ _, qinv safe) (λ _, qinv safe).
Proof.
  intros Hfr. apply triple_gets. intros w [Hs (q & e & Hq & Hg)].
  pose proof Hs as [(q' & d & Hq' & _ & [Hwf _] & Hok) _]. rewrite Hq in Hq'. injection Hq' as <-.
  destruct (Hok _ _ Hg) as [p Hp]. unfold current_entry. rewrite Hq, Hg. simpl.
  pose proof (JMap.get_Some_elem _ _ _ Hg) as Hin. destruct (qw_own _ Hwf _ _ Hin) as [Hk Hph].
  eapply triple_conseq; [apply (triple_resume_body e p); [done|]| |done|done].
  - intros k Hkk. unfold job_key in Hk. rewrite <-Hk. by apply Hfr.
  - intros w' ->. split; [done|]. exists q, e. split_and!; [done| |done|].
    + unfold get in *. unfold job_key in Hk. by rewrite <-Hk.
    + unfold needs_accept. destruct (aj_phase e) as [[|]|] eqn:E; simpl; done.
Qed.
End durability.

(** ** A recovery pass alone, and restarts *)
Section recovery.
Context {C D L : Type} `{RelayerChainAdapter C} `{SavingStore D AcceptedJobEntry}
  `{EntryStore L JobLedgerEntry}.
Context (cfg : RelayerEngineConfig) (jitterMs : Z → Z).

Lemma safe_sub K K' (oq : option (AcceptedJobQueue D)) log :
  K' ⊆ K → safe K oq log → safe K' oq log.
Proof. intros HK (Hd & Hl & Hk). split_and!; [done|done|]. intros k Hin. by apply Hk, HK. Qed.

Lemma triple_resume_all l :
  NoDup (job_key <$> l) →
  triple (qinv (C:=C) (L:=L) (safe (aj_jobId <$> l))) (resume_all cfg jitterMs l)
    (λ _, qinv (safe [])) (λ _, qinv (safe [])).
Proof.
  induction l as [|e l IH]; intros Hnd; simpl; [apply keeps_ret|].
  rewrite fmap_cons in Hnd. apply NoDup_cons in Hnd as [Hne Hnd].
  eapply (triple_bind _ _ _ (λ _, qinv (safe (aj_jobId <$> l)))).
  - eapply triple_conseq; [apply (triple_resume_one cfg jitterMs (aj_jobId <$> l) e)| |done|].
    + intros k Hk. apply list_elem_of_fmap in Hk as (e' & -> & He'). intros Heq.
      apply Hne, list_elem_of_fmap. exists e'. done.
    + intros w Hw. pose proof Hw as (_ & _ & Hk). split.
      * eapply safe_sub; [|exact Hw]. set_solver.
      * apply Hk. by left.
    + intros err w. apply safe_sub. set_solver.
  - intros o. eapply triple_bind; [by apply IH|]. intros rest. apply keeps_ret.
Qed.

Lemma keeps_resume :
  keeps (qinv (C:=C) (L:=L) (safe [])) (resumeAcceptedJobs (D:=D) cfg jitterMs).
Proof.
  intros w Hw. pose proof Hw as ((q & d & Hq & (Hd & Hl) & [Hwf Hs] & Hok) & Hlog & _).
  assert (Hrun : resumeAcceptedJobs cfg jitterMs w = resume_all cfg jitterMs (pending q) w).
  { unfold resumeAcceptedJobs, mbind, M_bind, gets. rewrite Hq. simpl.
    unfold on_queue, hydrate. rewrite Hq, Hl. simpl. destruct w. simpl in Hq. by rewrite Hq. }
  rewrite Hrun. apply (triple_resume_all (pending q)); [by apply pending_keys|].
  split_and!; [by exists q, d|done|]. intros k Hk.
  apply list_elem_of_fmap in Hk as (e & -> & He). exists q, e. split; [done|].
  by apply pending_elem.
Qed.

Lemma restart_durable (q : AcceptedJobQueue D) :
  durable (Some q) → durable (Some (hydrate (restarted q)).2).
Proof.
  intros (q0 & d & [= <-] & (Hd & Hl) & Hs & Hok).
  destruct (restart_synced q d Hs Hd) as (q2 & Hrun & Hs2 & Hd2 & _ & Hg).
  assert (Hl2 : q_loaded q2 = true).
  { revert Hrun. unfold hydrate, restarted, with_store, mbind, M_bind, modify. simpl.
    rewrite Hd. simpl. destruct (es_load d) as [[s|e] d']; [|done]. by intros [= <-]. }
  rewrite Hrun. simpl. exists q2, d. split_and!; [done..|].
  intros k e. rewrite Hg. apply Hok.
Qed.
End recovery.

(** ** Failures, retries and redelivery *)
Section outcomes.
Context {C D L : Type} `{RelayerChainAdapter C} `{SavingStore D AcceptedJobEntry}
  `{EntryStore L JobLedgerEntry}.
Context (cfg : RelayerEngineConfig).
Context (keccak_256 : list byte → list byte).
Context (addressXdr : string → res (list byte)) (symbolXdr : string → list byte).
Context (openBox : string → list byte → list byte → res (list byte)).
Context (json_of_bytes : list byte → res jval) (jitterMs : Z → Z).
Notation W := (World C D L).
Notation Q := (AcceptedJobQueue D).
Notation prepare := (prepare (C:=C) (D:=D) (L:=L) cfg keccak_256 addressXdr symbolXdr openBox json_of_bytes).
Notation deliver := (deliver (C:=C) (D:=D) (L:=L) cfg jitterMs).
Notation processPayload :=
  (processPayload (C:=C) (D:=D) (L:=L) cfg keccak_256 addressXdr symbolXdr openBox json_of_bytes jitterMs).
Notation handlePayload :=
  (handlePayload (C:=C) (D:=D) (L:=L) cfg keccak_256 addressXdr symbolXdr openBox json_of_bytes jitterMs).

(** Nothing was sent, or the job is still queued. *)
Definition unsent_or_queued (log0 : list (ChainCall * option Q)) (j : string)
    (oq : option Q) (log : list (ChainCall * option Q)) : Prop :=
  log = log0 ∨ ∃ q e, oq = Some q ∧ get j q = Some e.

Lemma holds_queued log0 j p ph oq log : holds [] j p ph oq log → unsent_or_queued log0 j oq log.
Proof. intros [_ (q & e & Hq & Hg & _)]. right. eauto. Qed.

(** *** Nothing sent, or still queued *)
Definition at_log (log0 : list (ChainCall * option Q)) (w : W) : Prop :=
  qinv (safe []) w ∧ w_log w = log0.

Lemma keeps_at_log {A} log0 (m : M W A) :
  (∀ P, keeps (qinv P) m) → keeps (at_log log0) m.
Proof.
  intros Hm. apply (triple_conj _ (qinv (λ _ log, log = log0))); apply Hm.
Qed.

Lemma triple_enqueue_unsent log0 msg p job now :
  wf_payload p →
  triple (at_log log0)
    (on_queue (C:=C) (L:=L) (enqueue (mkEntry (ep_jobId msg) None None
       (serializePoolWithdrawPayload p) (oj_deadline job) (bigint_toString 10 (oj_fee job)) now 0 None)))
    (λ _, qinv (holds [] (ep_jobId msg) p false)) (λ _ w, w_log w = log0).
Proof.
  intros Hp. set (m := on_queue _).
  assert (Hlog : triple (λ w, w_log w = log0) m (λ _ w, w_log w = log0) (λ _ w, w_log w = log0)).
  { intros w Hw. unfold m, on_queue. destruct (w_queue w) as [q|]; [|done].
    by destruct (enqueue _ q) as [[a|e] q']. }
  eapply triple_conseq;
    [apply (triple_conj _ _ _ _ _ _ _ (triple_enqueue [] msg p job now Hp) Hlog)|done| |].
  - by intros a w [? _].
  - by intros e w [_ ?].
Qed.

Notation uoq log0 j := (λ w : W, unsent_or_queued log0 j (w_queue w) (w_log w)).

Lemma triple_at_log {A} log0 j (m : M W A) :
  (∀ P, keeps (qinv P) m) → triple (at_log log0) m (λ _, at_log log0) (λ _, uoq log0 j).
Proof.
  intros Hm. eapply triple_conseq; [by apply keeps_at_log|done|done|].
  intros e w [_ Hl]. by left.
Qed.

Lemma triple_prepare_queued log0 msg :
  triple (at_log log0) (prepare msg)
    (λ r, qinv (match r with Some (p, _, _) => holds [] (ep_jobId msg) p true | None => safe [] end))
    (λ _, uoq log0 (ep_jobId msg)).
Proof.
  eapply triple_bind; [apply triple_at_log; intros; apply keeps_lift|]. intros aad.
  eapply triple_bind; [apply triple_at_log; intros; apply keeps_lift|]. intros plain.
  apply lift_decode; [by intros e w [_ ?]; left|]. intros p Hp.
  eapply triple_bind; [apply triple_at_log; intros; apply keeps_chain|].
  intros [job|]; [|by intros w [Hw _]].
  destruct (negb _ || negb _); [by intros w [Hw _]|].
  eapply triple_bind; [apply triple_at_log; intros; apply keeps_lift|]. intros hash.
  destruct (negb _); [by intros w [_ Hw]; left|].
  eapply triple_bind; [apply triple_at_log; intros; apply keeps_headroom|]. intros head.
  destruct (negb head).
  { eapply triple_bind; [apply triple_at_log; intros; apply keeps_on_stats|]. by intros ? w [Hw _]. }
  eapply triple_bind; [apply triple_at_log; intros; apply keeps_chain|]. intros ?.
  eapply triple_bind; [apply triple_at_log; intros; apply keeps_gets|]. intros now.
  eapply triple_bind.
  { eapply triple_conseq; [by apply triple_enqueue_unsent|done|done|]. by left. }
  intros ?. eapply triple_bind.
  { eapply triple_conseq; [apply (keeps_accept_or_reconcile cfg [] _ p)|done|done|].
    intros e w. apply holds_queued. }
  intros atx. eapply triple_bind.
  { eapply triple_conseq; [apply (triple_markAccepted [] _ p false)|done|done|].
    intros e w. apply holds_queued. }
  intros ? w Hw. exact Hw.
Qed.

Lemma resolve_never_throws j (w : W) e w' : on_queue (resolve j) w ≠ (Err e, w').
Proof.
  unfold on_queue. destruct (w_queue w) as [q|]; [|done].
  unfold resolve, mbind, M_bind, modify.
  destruct (persist_ok (set_entries (JMap.del (toLowerCase j)) q)) as (q' & -> & _). done.
Qed.

Lemma triple_deliver_queued log0 msg p job atx :
  triple (qinv (holds [] (ep_jobId msg) p true)) (deliver msg p job atx)
    (λ _ _, True) (λ _, uoq log0 (ep_jobId msg)).
Proof.
  assert (Hq : ∀ (e : jserr) (w : W), qinv (holds [] (ep_jobId msg) p true) w → uoq log0 (ep_jobId msg) w).
  { intros e w. apply holds_queued. }
  eapply triple_bind; [eapply triple_conseq; [apply keeps_on_stats|done|done|exact Hq]|]. intros ?.
  eapply triple_bind; [eapply triple_conseq; [apply keeps_submit_loop|done|done|exact Hq]|]. intros stx.
  eapply triple_bind; [eapply triple_conseq; [apply keeps_on_stats|done|done|exact Hq]|]. intros ?.
  eapply (triple_bind _ _ _ (λ _ _, True)).
  { intros w _. destruct (on_queue (resolve (ep_jobId msg)) w) as [[x|err] w'] eqn:E; [done|].
    by apply resolve_never_throws in E. }
  intros ? w _. unfold mbind, M_bind, gets, record_job, modify, notifySettled.
  destruct (ec_onSettled cfg) as [hook|]; simpl; [destruct (hook _ _); simpl|];
    by destruct (ep_idempotencyKey msg).
Qed.

(** When processing a payload throws, either nothing was sent to the
    chain, or the job is still in the queue: a failed delivery never forgets a
    job it may be bonded to. *)
Theorem failed_delivery_stays_queued raw msg (w : W) err w' :
  durable (w_queue w) → w_log w = [] → validatePayload raw = Ok msg →
  handlePayload raw w = (Err err, w') →
  w_log w' = [] ∨ ∃ q e, w_queue w' = Some q ∧ get (ep_jobId msg) q = Some e.
Proof.
  intros Hd Hlog Hmsg Hrun.
  assert (Hw : at_log [] w).
  { split; [|done]. split_and!; [done|by rewrite Hlog|by intros k ?%elem_of_nil]. }
  enough (Ht : triple (at_log []) (handlePayload raw) (λ _ _, True) (λ _, uoq [] (ep_jobId msg))).
  { specialize (Ht w Hw). by rewrite Hrun in Ht. }
  clear Hw Hrun Hd Hlog w w' err.
  eapply (triple_bind _ _ _ (λ s w, at_log [] w ∧ ∀ m, s = Process m → m = msg)).
  { unfold startPayload. rewrite Hmsg. apply triple_lift_ok.
    eapply triple_bind; [apply triple_at_log; intros; apply keeps_on_stats|]. intros ?. cbv zeta.
    destruct (negb _); [by intros w Hw|].
    destruct (ep_idempotencyKey msg) as [key|]; [|by intros w Hw; split; [|intros m [= <-]]].
    eapply triple_bind; [apply triple_at_log; intros; apply keeps_gets|]. intros ex.
    eapply triple_bind; [apply triple_at_log; intros; apply keeps_gets|]. intros now.
    destruct ex as [i|]; [|by intros w Hw; split; [|intros m [= <-]]].
    destruct (now <? _); [by intros w Hw|].
    eapply triple_bind; [apply triple_at_log; intros; apply keeps_on_eng|].
    intros ? w Hw. split; [done|]. by intros m [= <-]. }
  intros [|r|m]; [done|done|]. intros w [Hw Hm]. rewrite (Hm m eq_refl). clear Hm m. revert w Hw.
  change (triple (at_log []) (processPayload msg) (λ _ _, True) (λ _, uoq [] (ep_jobId msg))).
  eapply triple_bind; [apply triple_at_log; intros; apply keeps_gets|]. intros now.
  eapply triple_bind; [apply triple_at_log; intros; apply keeps_on_eng|]. intros ?.
  apply triple_finally with (Q := λ _ _, True) (E := λ _, uoq [] (ep_jobId msg)); [|done|done].
  eapply triple_bind.
  { eapply (triple_try _ _ _ _ _ (λ _, uoq [] (ep_jobId msg))); [apply triple_prepare_queued|].
    intros err w Hw. exact Hw. }
  intros [[[p job] atx]|]; [|done].
  eapply (triple_try _ _ _ _ _ (λ _, uoq [] (ep_jobId msg))).
  - eapply triple_bind; [apply triple_deliver_queued|]. done.
  - intros err.
    eapply (triple_bind _ _ _ (λ _, uoq [] (ep_jobId msg))); [by intros w Hw|]. intros ?.
    eapply (triple_bind _ _ _ (λ _, uoq [] (ep_jobId msg))); [|by intros ? w Hw].
    exact (keeps_notifySettled cfg (unsent_or_queued [] (ep_jobId msg)) (ep_jobId msg) failed).
Qed.
End outcomes.

(** ** Redelivery of a payload *)
Section redelivery.
Context {C D L : Type} `{RelayerChainAdapter C} `{EntryStore D AcceptedJobEntry}
  `{EntryStore L JobLedgerEntry}.
Context (cfg : RelayerEngineConfig).
Context (keccak_256 : list byte → list byte).
Context (addressXdr : string → res (list byte)) (symbolXdr : string → list byte).
Context (sign : list byte → list byte) (float_uint32 : jval → Z).
Context (openBox : string → list byte → list byte → res (list byte)).
Context (json_of_bytes : list byte → res jval) (jitterMs : Z → Z).
Notation W := (World C D L).
Notation handlePayload :=
  (handlePayload (C:=C) (D:=D) (L:=L) cfg keccak_256 addressXdr symbolXdr openBox json_of_bytes jitterMs).

(** The result of [key] is remembered and has not expired. *)
Definition remembered (key : string) (r : PayloadResult) (w : W) : Prop :=
  ∃ i, JMap.get key (e_idempotencyStore (w_eng w)) = Some i ∧ ie_result i = r ∧ w_now w < ie_expiresAt i.

Lemma notifySettled_frame j r (w w' : W) x :
  notifySettled cfg j r w = (x, w') →
  w_now w' = w_now w ∧ e_idempotencyStore (w_eng w') = e_idempotencyStore (w_eng w) ∧ x = Ok tt.
Proof.
  unfold notifySettled. destruct (ec_onSettled cfg) as [hook|]; [|by intros [= <- <-]].
  unfold mbind, M_bind, modify. simpl. destruct (hook j r); by intros [= <- <-].
Qed.

Lemma deliver_remembers msg p job atx (w : W) r w' key :
  deliver cfg jitterMs msg p job atx w = (Ok r, w') → ep_idempotencyKey msg = Some key →
  remembered key r w'.
Proof.
  intros Hrun Hkey. unfold deliver in Hrun. rewrite Hkey in Hrun.
  apply M_bind_ok in Hrun as (? & w1 & _ & Hrun). apply M_bind_ok in Hrun as (stx & w2 & _ & Hrun).
  apply M_bind_ok in Hrun as (? & w3 & _ & Hrun). apply M_bind_ok in Hrun as (? & w4 & _ & Hrun).
  apply M_bind_ok in Hrun as (now & w5 & Hnow & Hrun). injection Hnow as <- <-.
  apply M_bind_ok in Hrun as (? & w6 & Hrec & Hrun). injection Hrec as _ <-.
  apply M_bind_ok in Hrun as (? & w7 & Hnot & Hrun).
  apply notifySettled_frame in Hnot as (Hn & _ & _). simpl in Hn.
  apply M_bind_ok in Hrun as (? & w8 & Hset & Hrun). injection Hset as _ <-.
  injection Hrun as <- <-. eexists. split; [apply JMap.get_set_eq|]. split; [done|].
  simpl. rewrite Hn. unfold IDEMPOTENCY_TTL_MS. lia.
Qed.

Lemma handlePayload_remembers raw msg key (w : W) r w' :
  validatePayload raw = Ok msg → ep_idempotencyKey msg = Some key →
  handlePayload raw w = (Ok (Some r), w') → remembered key r w'.
Proof.
  intros Hmsg Hkey Hrun. apply M_bind_ok in Hrun as (s & w1 & Hs & Hrun).
  unfold startPayload in Hs. rewrite Hmsg in Hs.
  apply M_bind_ok in Hs as (? & ? & [= <- <-] & Hs).
  apply M_bind_ok in Hs as (? & w2 & Hst & Hs). cbv zeta in Hs.
  destruct (negb _); [by injection Hs as <- <-|]. rewrite Hkey in Hs.
  apply M_bind_ok in Hs as (ex & ? & [= <- <-] & Hs).
  apply M_bind_ok in Hs as (now & ? & [= <- <-] & Hs).
  assert (Hproc : ∀ w1, s = Process msg → processPayload cfg keccak_256 addressXdr symbolXdr openBox
    json_of_bytes jitterMs msg w1 = (Ok (Some r), w') → remembered key r w').
  { intros wx _ Hp. apply M_bind_ok in Hp as (? & ? & [= <- <-] & Hp).
    apply M_bind_ok in Hp as (? & wy & _ & Hp). apply finally_run in Hp as (wz & Hb & ->).
    apply M_bind_ok in Hb as (p & wa & _ & Hb). destruct p as [[[p job] atx]|]; [|done].
    apply try_catch_ok in Hb as [Hd|(e & wb & _ & Hb)].
    - apply M_bind_ok in Hd as (r' & wc & Hd & [= -> <-]).
      eapply deliver_remembers in Hd as (i & Hi); [|done]. by exists i.
    - exfalso. apply M_bind_ok in Hb as (? & ? & _ & Hb). by apply M_bind_ok in Hb as (? & ? & _ & Hb). }
  destruct (JMap.get key (e_idempotencyStore (w_eng w2))) as [i|] eqn:Hi.
  - destruct (Z.ltb_spec (w_now w2) (ie_expiresAt i)).
    + injection Hs as <- <-. injection Hrun as <- <-. by exists i.
    + apply M_bind_ok in Hs as (? & w3 & _ & [= <- <-]). by eapply Hproc.
  - injection Hs as <- <-. by eapply Hproc.
Qed.

(** A payload delivered again under the same idempotency key
    while its result is remembered returns the first result and does nothing
    else: no chain call, no change to the queue, no second submission. *)
Theorem redelivery_returns_first_result raw msg key (w : W) r w1 :
  validatePayload raw = Ok msg → ep_idempotencyKey msg = Some key →
  handlePayload raw w = (Ok (Some r), w1) →
  ∃ w2, handlePayload raw w1 = (Ok (Some r), w2) ∧
    w_chain w2 = w_chain w1 ∧ w_queue w2 = w_queue w1 ∧ w_log w2 = w_log w1 ∧
    w_ledger w2 = w_ledger w1 ∧ w_settled w2 = w_settled w1.
Proof.
  intros Hmsg Hkey Hrun. destruct (handlePayload_remembers _ _ _ _ _ _ Hmsg Hkey Hrun) as (i & Hi & Hr & Ht).
  assert (Hto : String.eqb (toLowerCase (ep_to msg)) (toLowerCase (bytesToHex (ec_x25519PublicKey cfg))) = true).
  { apply M_bind_ok in Hrun as (s & wx & Hs & Hrun). unfold startPayload in Hs. rewrite Hmsg in Hs.
    apply M_bind_ok in Hs as (? & ? & [= <- <-] & Hs). apply M_bind_ok in Hs as (? & wy & _ & Hs).
    cbv zeta in Hs. destruct (String.eqb _ _); [done|]. simpl in Hs. by injection Hs as <- <-. }
  unfold RelEngine.handlePayload, startPayload, mbind, M_bind, lift_res, on_stats, on_eng, modify, gets.
  rewrite Hmsg, Hto, Hkey. simpl. rewrite Hi. apply Z.ltb_lt in Ht. rewrite Ht. rewrite <-Hr.
  by eexists.
Qed.
End redelivery.

(** ** When the node bids *)
Section bidding.
Context {C D L : Type} `{RelayerChainAdapter C}.
Context (cfg : RelayerEngineConfig) (keccak_256 sign : list byte → list byte) (float_uint32 : jval → Z).
Notation W := (World C D L).

Lemma chain_ok {A} (m : M C A) (w w' : W) a :
  chain m w = (Ok a, w') → m (w_chain w) = (Ok a, w_chain w') ∧ w_log w' = w_log w.
Proof. unfold chain. destruct (m (w_chain w)) as [r c]. by intros [= -> <-]. Qed.

(** A bid is sent only for a job the chain shows as open, whose fee
    is at least the operator's minimum and covered by its free stake, with at
    least the margin of ledgers left, and only when the advert states the chain's
    fee, deadline and payload hash; the bid names the advertised job. *)
Theorem bids_only_on_feasible_jobs raw (w : W) bid w' :
  handleAdvert cfg keccak_256 sign float_uint32 raw w = (Ok (Some bid), w') →
  ∃ advert relayer job latest c1 c2 c3,
    validateAdvert raw = Ok advert ∧
    getRelayer (ec_operator cfg) (w_chain w) = (Ok (Some relayer), c1) ∧
    getJob (ja_jobId advert) c1 = (Ok (Some job), c2) ∧ latestLedger c2 = (Ok latest, c3) ∧
    or_registered relayer = true ∧ oj_exists job = true ∧ oj_status job = js_open ∧
    ec_minFee cfg <= oj_fee job <= or_freeStake relayer ∧
    deadlineMarginLedgers cfg <= oj_deadline job - latest ∧
    ja_fee advert = bigint_toString 10 (oj_fee job) ∧
    ja_deadline advert = JNum (oj_deadline job) ∧
    toLowerCase (ja_payloadHash advert) = toLowerCase (oj_payloadHash job) ∧
    rb_jobId bid = ja_jobId advert ∧ rb_operator bid = ec_operator cfg.
Proof.
  intros Hrun. apply M_bind_ok in Hrun as (advert & ? & Hv & Hrun). injection Hv as Hv <-.
  apply M_bind_ok in Hrun as (? & w1 & Hw1 & Hrun). injection Hw1 as _ <-.
  apply try_catch_ok in Hrun as [Hrun|(e & w2 & _ & Hrun)];
    [|exfalso; apply M_bind_ok in Hrun as (? & ? & _ & Hrun); done].
  apply M_bind_ok in Hrun as (relayer & w2 & Hr & Hrun). apply chain_ok in Hr as [Hr _]. simpl in Hr.
  destruct relayer as [relayer|]; [|done].
  destruct (or_registered relayer) eqn:Hreg; [|done]. cbn [negb] in Hrun.
  destruct (negb _); [done|].
  apply M_bind_ok in Hrun as (job & w3 & Hj & Hrun). apply chain_ok in Hj as [Hj _].
  destruct job as [job|]; [|done].
  destruct (negb (oj_exists job) || _) eqn:Hop; [done|].
  destruct (_ || _) eqn:Hfee in Hrun; [done|].
  apply M_bind_ok in Hrun as (latest & w4 & Hlat & Hrun). apply chain_ok in Hlat as [Hlat _].
  destruct (_ <? _) eqn:Hdl in Hrun; [by apply M_bind_ok in Hrun as (? & ? & _ & Hrun)|].
  destruct (_ || _) eqn:Hadv in Hrun; [done|].
  apply M_bind_ok in Hrun as (bid' & w5 & Hb & Hrun). injection Hb as Hb <-.
  apply M_bind_ok in Hrun as (now & ? & [= <- <-] & Hrun).
  apply M_bind_ok in Hrun as (? & ? & _ & Hrun). apply M_bind_ok in Hrun as (? & ? & _ & Hrun).
  injection Hrun as -> <-.
  apply orb_false_iff in Hop as [Hex%negb_false_iff Hop%negb_false_iff%bool_decide_eq_true].
  apply orb_false_iff in Hfee as [Hf1%Z.ltb_ge Hf2%Z.ltb_ge]. apply Z.ltb_ge in Hdl.
  apply orb_false_iff in Hadv as [Hadv Ha3%negb_false_iff%String.eqb_eq].
  apply orb_false_iff in Hadv as [Ha1%negb_false_iff%String.eqb_eq Ha2%negb_false_iff].
  assert (Hdead : ja_deadline advert = JNum (oj_deadline job)).
  { revert Ha2. unfold num_is. destruct (ja_deadline advert); try done. by intros ->%Z.eqb_eq. }
  unfold makeBid in Hb. repeat (apply bind_ok in Hb as (? & _ & Hb)). injection Hb as <-.
  exists advert, relayer, job, latest, (w_chain w2), (w_chain w3), (w_chain w4).
  split_and!; done.
Qed.
End bidding.

(** ** Recovery during an RPC outage *)
Section outage.
Context {C D L : Type} `{RelayerChainAdapter C} `{SavingStore D AcceptedJobEntry}
  `{EntryStore L JobLedgerEntry}.
Context (cfg : RelayerEngineConfig) (jitterMs : Z → Z).

(** Recovery cannot tell an RPC failure from a job that is gone.
    When the job lookup fails for an entry whose acceptance is still unconfirmed,
    the entry is resolved and reported as abandoned, although the accept
    transaction may have landed. *)
Theorem rpc_outage_drops_unconfirmed_job (w : World C D L) q e err c' :
  w_queue w = Some q → get (aj_jobId e) q = Some e → needs_accept e = true →
  getJob (aj_jobId e) (w_chain w) = (Err err, c') →
  ∃ w' q', resume_one cfg jitterMs e w = (Ok ResAbandoned, w') ∧
    w_queue w' = Some q' ∧ get (aj_jobId e) q' = None ∧ w_log w' = w_log w.
Proof.
  intros Hq Hg Hn Hj.
  unfold resume_one, resume_body, getJob_or_null, catch_null, try_catch, chain, mbind, M_bind, gets.
  unfold current_entry. rewrite Hq, Hg. simpl. rewrite Hj. simpl. rewrite Hn. simpl.
  unfold on_queue. simpl.
  unfold resolve, mbind, M_bind, modify.
  destruct (persist_ok (set_entries (JMap.del (toLowerCase (aj_jobId e))) q)) as (q' & -> & He & _).
  eexists _, q'. split; [done|]. split; [done|]. split; [|done].
  unfold get. rewrite He. apply JMap.get_del_eq.
Qed.
End outage.

(** ** Bounded retries *)
Section retries.
Context {C D L : Type} `{RelayerChainAdapter C} `{EntryStore D AcceptedJobEntry}.
Context (cfg : RelayerEngineConfig) (jitterMs : Z → Z).
Notation W := (World C D L).

(** [m] sends at most [n] transactions, all of them [call]. *)
Definition sends {A} (call : ChainCall) (n : nat) (m : M W A) : Prop :=
  ∀ w, ∃ sent, w_log (m w).2 = w_log w ++ sent ∧ (length sent <= n)%nat ∧
    Forall (λ c, c.1 = call) sent.

Lemma sends_after c n k (w w1 w2 : W) sent :
  w_log w1 = w_log w ++ sent → (length sent <= n)%nat → Forall (λ c', c'.1 = c) sent →
  (∃ sent', w_log w2 = w_log w1 ++ sent' ∧ (length sent' <= k)%nat ∧ Forall (λ c', c'.1 = c) sent') →
  ∃ sent', w_log w2 = w_log w ++ sent' ∧ (length sent' <= n + k)%nat ∧ Forall (λ c', c'.1 = c) sent'.
Proof.
  intros H1' H2' H3' (s' & H4 & H5 & H6). exists (sent ++ s'). rewrite H4, H1', app_assoc.
  split_and!; [done|rewrite length_app; lia|by apply Forall_app].
Qed.

Lemma sends_none {A} c n (m : M W A) : (∀ P, keeps (qinv P) m) → sends c n m.
Proof.
  intros Hm w. exists []. specialize (Hm (λ _ l, l = w_log w) w eq_refl).
  rewrite app_nil_r. split_and!; [|simpl; lia|constructor].
  destruct (m w) as [[a|e] w1]; exact Hm.
Qed.
Lemma sends_bind {A B} c n k (m : M W A) (f : A → M W B) :
  sends c n m → (∀ a, sends c k (f a)) → sends c (n + k) (m ≫= f).
Proof.
  intros Hm Hf w. destruct (Hm w) as (s1 & Hs1 & Hl1 & Hf1). unfold mbind, M_bind.
  destruct (m w) as [[a|e] w1]; simpl in *.
  - eapply sends_after; eauto. apply Hf.
  - exists s1. split_and!; [done|lia|done].
Qed.
Lemma sends_try {A} c n k (m : M W A) h :
  sends c n m → (∀ e, sends c k (h e)) → sends c (n + k) (try_catch m h).
Proof.
  intros Hm Hf w. destruct (Hm w) as (s1 & Hs1 & Hl1 & Hf1). unfold try_catch.
  destruct (m w) as [[a|e] w1]; simpl in *.
  - exists s1. split_and!; [done|lia|done].
  - eapply sends_after; eauto. apply Hf.
Qed.
Lemma sends_queue c n m : sends c n (on_queue (C:=C) (D:=D) (L:=L) m).
Proof.
  intros w. exists []. rewrite app_nil_r. split_and!; [|simpl; lia|constructor].
  unfold on_queue. destruct (w_queue w) as [q|]; [|done]. by destruct (m q) as [r q'].
Qed.
Lemma sends_send {A} call (m : M C A) : sends call 1 (send (D:=D) (L:=L) call m).
Proof.
  intros w. exists [(call, w_queue w)]. unfold send. destruct (m (w_chain w)) as [r c].
  split_and!; [done|done|by constructor].
Qed.

Lemma sends_submit_loop n attempt j p d last :
  sends (CallSubmit j p) n (submit_loop (D:=D) (L:=L) cfg jitterMs n attempt j p d last).
Proof.
  revert attempt last. induction n as [|n IH]; intros attempt last; simpl.
  { apply sends_none. intros. apply keeps_throw. }
  apply (sends_try _ 1 n).
  - apply (sends_bind _ 0 1); [apply sends_none; intros; apply keeps_chain|]. intros cur.
    destruct (is_submitted cur); [apply sends_none; intros; apply keeps_ret|apply sends_send].
  - intros err. apply (sends_bind _ 0 n); [apply sends_queue|]. intros ?.
    apply (sends_bind _ 0 n); [apply sends_none; intros; apply keeps_getJob_or_null|]. intros cur.
    destruct (is_submitted cur); [apply sends_none; intros; apply keeps_ret|].
    destruct (_ <=? _); [apply sends_none; intros; apply keeps_throw|].
    apply (sends_bind _ 0 n); [apply sends_none; intros; apply keeps_headroom|].
    intros [|]; [|apply sends_none; intros; apply keeps_throw]. simpl.
    apply (sends_bind _ 0 n); [apply sends_none; intros; apply keeps_sleep|]. intros ?. apply IH.
Qed.

Lemma submitRetry_positive : 0 < maxAttempts (submitRetry cfg).
Proof.
  unfold submitRetry. simpl. destruct (Z.ltb_spec 0 (maxAttempts (default DEFAULT_SUBMIT_RETRY
    (ec_submitRetry cfg)))); [done|]. reflexivity.
Qed.

(** Submitting a job always ends, after at most [maxAttempts]
    transactions, and the attempt bound the engine uses is positive whatever the
    configuration says. *)
Theorem submit_attempts_bounded j p d (w : W) :
  0 < maxAttempts (submitRetry cfg) ∧
  ∃ sent, w_log (submitWithRetry cfg jitterMs j p d w).2 = w_log w ++ sent ∧
    Z.of_nat (length sent) <= maxAttempts (submitRetry cfg) ∧
    Forall (λ c, c.1 = CallSubmit j p) sent.
Proof.
  pose proof submitRetry_positive as Hpos. split; [done|].
  destruct (sends_submit_loop (Z.to_nat (maxAttempts (submitRetry cfg))) 1 j p d
    (JsError "undefined") w) as (sent & Hs & Hl & Hf).
  exists sent. split_and!; [exact Hs|lia|done].
Qed.
End retries.

(** ** The node as it is deployed, with the file-backed queue *)
Section file_backed.
Context {C L : Type} `{RelayerChainAdapter C} `{EntryStore L JobLedgerEntry}.
Context (cfg : RelayerEngineConfig).
Context (keccak_256 : list byte → list byte).
Context (addressXdr : string → res (list byte)) (symbolXdr : string → list byte).
Context (openBox : string → list byte → list byte → res (list byte)).
Context (json_of_bytes : list byte → res jval) (jitterMs : Z → Z).
Notation W := (World C FileAcceptedJobStore.t L).

(** A file-backed queue, and a log that has not grown. *)
Definition file_backed (log0 : list (ChainCall * option (AcceptedJobQueue FileAcceptedJobStore.t)))
    (oq : option (AcceptedJobQueue FileAcceptedJobStore.t))
    (log : list (ChainCall * option (AcceptedJobQueue FileAcceptedJobStore.t))) : Prop :=
  (∃ q d, oq = Some q ∧ q_store q = Some d) ∧ log = log0.

Lemma file_enqueue_throws log0 e :
  triple (qinv (file_backed log0)) (on_queue (C:=C) (L:=L) (enqueue e))
    (λ _ _, False) (λ _, qinv (file_backed log0)).
Proof.
  intros w [(q & d & Hq & Hd) Hl]. unfold on_queue. rewrite Hq.
  unfold enqueue, persist, with_store, mbind, M_bind, modify. simpl. rewrite Hd. simpl.
  split; [|done]. eexists _, d. split; done.
Qed.

Lemma file_prepare log0 msg :
  triple (qinv (file_backed log0))
    (prepare (C:=C) (D:=FileAcceptedJobStore.t) (L:=L) cfg keccak_256 addressXdr symbolXdr openBox
       json_of_bytes msg)
    (λ r w, r = None ∧ qinv (file_backed log0) w) (λ _, qinv (file_backed log0)).
Proof.
  eapply triple_bind; [apply keeps_lift|]. intros aad.
  eapply triple_bind; [apply keeps_lift|]. intros plain.
  eapply triple_bind; [apply keeps_lift|]. intros p.
  eapply triple_bind; [apply keeps_chain|]. intros [job|]; [|by intros w Hw].
  destruct (negb _ || negb _); [by intros w Hw|].
  eapply triple_bind; [apply keeps_lift|]. intros hash.
  destruct (negb _); [by intros w Hw|].
  eapply triple_bind; [apply keeps_headroom|]. intros head.
  destruct (negb head).
  { eapply triple_bind; [apply keeps_on_stats|]. by intros ? w Hw. }
  eapply triple_bind; [apply keeps_chain|]. intros ?.
  eapply triple_bind; [apply keeps_gets|]. intros now.
  eapply triple_bind; [apply file_enqueue_throws|]. by intros ? w [].
Qed.

(** With the file-backed queue the node never relays anything.  No
    payload makes it send [accept_job] or [submit_pool_withdraw]: recording the
    intent throws first. *)
Theorem file_backed_node_never_accepts raw (w : W) q d :
  w_queue w = Some q → q_store q = Some d →
  w_log (handlePayload cfg keccak_256 addressXdr symbolXdr openBox json_of_bytes jitterMs raw w).2
  = w_log w.
Proof.
  intros Hq Hd.
  assert (Hk : keeps (qinv (file_backed (w_log w)))
    (handlePayload (C:=C) (L:=L) cfg keccak_256 addressXdr symbolXdr openBox json_of_bytes jitterMs raw)).
  { apply keeps_bind; [apply keeps_startPayload|]. intros [|r|msg]; [apply keeps_ret..|].
    apply keeps_bind; [apply keeps_gets|]. intros now.
    apply keeps_bind; [apply keeps_on_eng|]. intros ?.
    apply keeps_finally; [|by intros w' Hw].
    eapply triple_bind.
    - eapply triple_try; [apply file_prepare|]. intros err.
      eapply triple_bind; [apply keeps_on_stats|]. by intros ? w' Hw.
    - intros r w' [-> Hw]. exact Hw. }
  assert (Hw : qinv (file_backed (w_log w)) w) by (split; [by exists q, d|done]).
  specialize (Hk w Hw).
  destruct (handlePayload _ _ _ _ _ _ _ raw w) as [[a|e] w']; by destruct Hk as [_ Hk].
Qed.
End file_backed.

(** ** Health *)
Record HealthReport : Type := mkHealth {
  hr_ok : bool;
  hr_uptime : Z;
  hr_queueDepth : Z;
  hr_oldestPendingJobAge : option Z;
  hr_stats : RelayerEngineStats;
}.

Definition older (now : Z) (acc : option Z) (submittedAt : Z) : option Z :=
  let age := now - submittedAt in
  match acc with
  | None => Some age
  | Some best => if best <? age then Some age else acc
  end.

Definition healthCheck {C D L : Type} `{RelayerChainAdapter C} (cfg : RelayerEngineConfig)
    (startedAt : Z) : M (World C D L) HealthReport :=
  w ← gets id;
  rpcOk ← try_catch (chain (getRelayer (ec_operator cfg));; mret true) (λ _, mret false);
  mret (mkHealth rpcOk (w_now w - startedAt) (Z.of_nat (length (e_pendingJobs (w_eng w))))
          (foldl (older (w_now w)) None (JMap.vals (e_pendingJobs (w_eng w))))
          (e_stats (w_eng w))).

(** ** Witnesses *)
Module ToyRelay.
Record t : Type := mk { status : JobStatus; down : bool; refuse : bool }.
Definition short_hash (b : list byte) : list byte := take 32 (drop 100 b).
Definition hash : string :=
  match hashPoolWithdrawPayloadHex toy_address utf8 short_hash sample_payload with
  | Ok h => h
  | Err _ => ""
  end.
Definition job (c : t) : OnChainJob := mkJob true (status c) 10 500 hash (Some "GOP").
Definition relayer : OnChainRelayer := mkRelayer true (bytesToHex sample_pk) "" 100.
End ToyRelay.

Global Instance toy_relay : RelayerChainAdapter ToyRelay.t := {|
  getJob := λ _ c, (if ToyRelay.down c then Err (JsError "rpc") else Ok (Some (ToyRelay.job c)), c);
  getRelayer := λ _ c, (Ok (Some ToyRelay.relayer), c);
  latestLedger := gets (λ _, 100);
  simulatePoolWithdraw := λ _, mret tt;
  acceptJob := λ _ c, (Ok "tx-accept", ToyRelay.mk js_accepted (ToyRelay.down c) (ToyRelay.refuse c));
  submitPoolWithdraw := λ _ _ c,
    if ToyRelay.refuse c then (Err (JsError "submit failed"), c)
    else (Ok "tx-submit", ToyRelay.mk js_submitted (ToyRelay.down c) (ToyRelay.refuse c));
|}.

Definition toy_config : RelayerEngineConfig :=
  mkConfig "GOP" sample_pk [] (Some "https://r") 5 None None None (Some (λ _ _, None)).

Abbreviation toy_store := (MemoryEntryStore.t AcceptedJobEntry).
Abbreviation toy_ledger_store := (MemoryEntryStore.t JobLedgerEntry).

Definition toy_world (D : Type) (d : D) (down refuse : bool)
    (entries : list (string * AcceptedJobEntry)) : World ToyRelay.t D toy_ledger_store :=
  mkWorld new_engine (Some (mkQueue entries true (Some d))) (Some (mkLedger [] true (Some None)))
    (ToyRelay.mk js_open down refuse) 1000 [] [].

Definition toy_message : jval :=
  JObj [("t", JStr "payload"); ("v", JNum 1); ("jobId", JStr (bytesToHex sample_job));
        ("to", JStr (bytesToHex sample_pk)); ("box", JStr ""); ("idempotencyKey", JStr "k1")].
Definition toy_encrypted : EncryptedPayload :=
  mkEncrypted (bytesToHex sample_job) (bytesToHex sample_pk) "" (Some "k1").

Definition toy_advert : jval :=
  JObj [("t", JStr "advert"); ("v", JNum 1); ("jobId", JStr (bytesToHex sample_job));
        ("fee", JStr "10"); ("deadline", JNum 500);
        ("payloadHash", JStr ToyRelay.hash)].

Definition toy_open (_ : string) (_ _ : list byte) : res (list byte) := Ok [].
Definition toy_parse (_ : list byte) : res jval := Ok (payload_envelope sample_payload).

Local Notation toy_handle w :=
  (handlePayload toy_config ToyRelay.short_hash toy_address utf8 toy_open toy_parse (λ _, 0)
     toy_message w).
Lemma toy_durable down refuse :
  durable (w_queue (toy_world toy_store (Some []) down refuse [])).
Proof.
  eexists _, _. split; [done|]. split; [done|]. split; [|by intros k e [=]].
  split; [split; [constructor|by intros k e ?%elem_of_nil]|]. by intros d [= <-].
Qed.

Lemma failed_delivery_stays_queued_witness :
  ∃ err w', toy_handle (toy_world toy_store (Some []) false true []) = (Err err, w') ∧
    (w_log w' = [] ∨ ∃ q e, w_queue w' = Some q ∧ get (ep_jobId toy_encrypted) q = Some e).
Proof.
  destruct (toy_handle (toy_world toy_store (Some []) false true [])) as [[r|err] w'] eqn:E;
    [vm_compute in E; discriminate|].
  exists err, w'. split; [reflexivity|].
  apply (failed_delivery_stays_queued toy_config ToyRelay.short_hash toy_address utf8 toy_open
    toy_parse (λ _, 0) toy_message toy_encrypted (toy_world toy_store (Some []) false true []) err w').
  - apply toy_durable.
  - reflexivity.
  - vm_compute. reflexivity.
  - exact E.
Defined.

Lemma redelivery_returns_first_result_witness :
  ∃ r w1 w2, toy_handle (toy_world toy_store (Some []) false false []) = (Ok (Some r), w1) ∧
    toy_handle w1 = (Ok (Some r), w2) ∧ w_log w2 = w_log w1.
Proof.
  destruct (toy_handle (toy_world toy_store (Some []) false false [])) as [[[r|]|err] w1] eqn:E;
    [|vm_compute in E; discriminate..].
  destruct (redelivery_returns_first_result toy_config ToyRelay.short_hash toy_address utf8 toy_open
    toy_parse (λ _, 0) toy_message toy_encrypted "k1" (toy_world toy_store (Some []) false false [])
    r w1) as (w2 & H1 & _ & _ & H2 & _).
  - vm_compute. reflexivity.
  - reflexivity.
  - exact E.
  - exists r, w1, w2. exact (conj eq_refl (conj H1 H2)).
Defined.

Local Notation toy_bid w :=
  (handleAdvert toy_config ToyRelay.short_hash (λ d, d) (λ _, 0) toy_advert w).

Lemma bids_only_on_feasible_jobs_witness :
  ∃ bid w', toy_bid (toy_world toy_store (Some []) false false []) = (Ok (Some bid), w') ∧
    rb_operator bid = "GOP".
Proof.
  destruct (toy_bid (toy_world toy_store (Some []) false false [])) as [[[bid|]|err] w'] eqn:E;
    [|vm_compute in E; discriminate..].
  exists bid, w'. split; [reflexivity|].
  destruct (bids_only_on_feasible_jobs toy_config ToyRelay.short_hash (λ d, d) (λ _, 0) toy_advert
    (toy_world toy_store (Some []) false false []) bid w' E)
    as (advert & rel & job & latest & c1 & c2 & c3 & _ & _ & _ & _ & _ & _ & _ & _ & _ & _ & _ & _ & _ & H).
  exact H.
Defined.

Definition unconfirmed : AcceptedJobEntry :=
  mkEntry (bytesToHex sample_job) None (Some accepting)
    (serializePoolWithdrawPayload sample_payload) 500 "10" 1 0 None.

Lemma rpc_outage_drops_unconfirmed_job_witness :
  ∃ w' q', resume_one toy_config (λ _, 0) unconfirmed
             (toy_world toy_store (Some [unconfirmed]) true false [(job_key unconfirmed, unconfirmed)])
           = (Ok ResAbandoned, w') ∧
    w_queue w' = Some q' ∧ get (aj_jobId unconfirmed) q' = None.
Proof.
  destruct (rpc_outage_drops_unconfirmed_job toy_config (λ _, 0)
    (toy_world toy_store (Some [unconfirmed]) true false [(job_key unconfirmed, unconfirmed)])
    (mkQueue [(job_key unconfirmed, unconfirmed)] true (Some (Some [unconfirmed])))
    unconfirmed (JsError "rpc") (ToyRelay.mk js_open true false)) as (w' & q' & H1 & H2 & H3 & _).
  - reflexivity.
  - vm_compute. reflexivity.
  - reflexivity.
  - reflexivity.
  - exists w', q'. exact (conj H1 (conj H2 H3)).
Defined.

Lemma file_backed_node_never_accepts_witness :
  w_log (toy_handle (toy_world FileAcceptedJobStore.t NoFile false false [])).2 = [].
Proof.
  exact (file_backed_node_never_accepts toy_config ToyRelay.short_hash toy_address utf8 toy_open
    toy_parse (λ _, 0) toy_message (toy_world FileAcceptedJobStore.t NoFile false false [])
    (mkQueue [] true (Some NoFile)) NoFile eq_refl eq_refl).
Defined.
