(* ===== verification/RelAsync.v ===== *)
(** * Relayer: handlers that interleave

    The handlers of [relayer/src/engine.ts] are async functions: at every [await] another
    delivery, or the recovery pass that [startAcceptedJobWatch] starts every thirty seconds, can
    run.  Here each handler is a [task], a tree of atomic actions with a possible switch after
    each of them; a [Pool] is the tasks in flight over one [Node], and a run is any list of
    choices: a message arrives, the timer fires, a task takes its next action, the outside
    world changes, the process dies and starts again.

    The queue's entries are objects that the map and a recovery pass share.  [n_gens] numbers
    the objects stored under a key one after another and [n_retired] keeps those the map no
    longer holds, so that a pass still sees the object it took from the map.

    [n_trace] is a ghost trace of what was saved, sent and answered.  A program logic of
    assertions that only grow with the trace ([wp]) proves the theorem for every interleaving.
    Both stores of [store.ts] save synchronously, so a queue operation is one action. *)
From Stdlib Require Import Ascii.
From stdpp Require Import base tactics list sets strings.
From Stdlib Require Import ZArith Lia.
From S2P Require Import Prelude JsString JsMap Bytes Json PubValidate RelPayload RelMessages RelStore RelEngine.
Import RelayBytes.
Open Scope string_scope.
Open Scope list_scope.
Open Scope Z_scope.

(** ** Async functions as trees of atomic actions *)
Inductive task (S A : Type) : Type :=
  | Done (r : res A)
  | Act {X : Type} (m : M S X) (k : res X → task S A).
Arguments Done {S A} r.
Arguments Act {S A X} m k.

Global Instance task_ret {S} : MRet (task S) := λ A a, Done (Ok a).
Global Instance task_bind {S} : MBind (task S) := λ A B f,
  fix go (t : task S A) : task S B :=
    match t with
    | Done (Ok a) => f a
    | Done (Err e) => Done (Err e)
    | Act m k => Act m (λ r, go (k r))
    end.
Definition act {S A} (m : M S A) : task S A := Act m Done.
Definition fail {S A} (e : jserr) : task S A := Done (Err e).
(** [try { t } catch (e) { h(e) }] *)
Fixpoint catch {S A} (t : task S A) (h : jserr → task S A) : task S A :=
  match t with
  | Done (Ok a) => Done (Ok a)
  | Done (Err e) => h e
  | Act m k => Act m (λ r, catch (k r) h)
  end.
(** [try { t } finally { f }] for a synchronous cleanup that does not throw. *)
Fixpoint ensure {S A} (t : task S A) (f : S → S) : task S A :=
  match t with
  | Done r => Act (modify f) (λ _, Done r)
  | Act m k => Act m (λ r, ensure (k r) f)
  end.
(** The next action of a task. *)
Definition next {S A} (t : task S A) (s : S) : task S A * S :=
  match t with Done r => (Done r, s) | Act m k => let '(r, s') := m s in (k r, s') end.
(** A task that nothing interrupts. *)
Fixpoint alone {S A} (t : task S A) (s : S) : res A * S :=
  match t with Done r => (r, s) | Act m k => let '(r, s') := m s in alone (k r) s' end.

(** ** The node *)
Inductive Event : Type :=
  | Queued (e : AcceptedJobEntry)                   (** saved by [enqueue] *)
  | Marked (jobId acceptedTx : string)              (** saved by [markAccepted] *)
  | Resolved (jobId : string)                       (** removed by [resolve] *)
  | Sent (call : ChainCall)
  | Answered (call : ChainCall) (r : res string)
  | Heard (jobId : string) (job : option OnChainJob) (** [getJob]; [None] also for a failed read that is caught *)
  | Head (ledger : Z)                               (** [latestLedger] *)
  | Restarted.

Record Node (C D L : Type) : Type := mkNode {
  n_world : World C D L;
  n_gens : list (string * nat);
  n_retired : list (string * nat * AcceptedJobEntry);
  n_pending : list string;                          (** keys of [pendingIdempotency] *)
  n_resuming : bool;                                (** [resumeInFlight] *)
  n_trace : list Event;
}.
Arguments mkNode {C D L}.
Arguments n_world {C D L}.
Arguments n_gens {C D L}.
Arguments n_retired {C D L}.
Arguments n_pending {C D L}.
Arguments n_resuming {C D L}.
Arguments n_trace {C D L}.

(** An entry object a recovery pass holds: one taken from the map as its [gen]th object, or
    one the pass itself changed after the map had dropped it. *)
Inductive EntryRef : Type := Shared (e : AcceptedJobEntry) (gen : nat) | Local (e : AcceptedJobEntry).

Module Async.
Section handlers.
Context {C D L : Type} `{RelayerChainAdapter C} `{EntryStore D AcceptedJobEntry}
  `{EntryStore L JobLedgerEntry}.
Context (cfg : RelayerEngineConfig).
Context (keccak_256 : list byte → list byte).
Context (addressXdr : string → res (list byte)) (symbolXdr : string → list byte).
Context (openBox : string → list byte → list byte → res (list byte)).
Context (json_of_bytes : list byte → res jval) (jitterMs : Z → Z).
Notation W := (World C D L).
Notation N := (Node C D L).
Notation T := (task (Node C D L)).

(** *** Actions *)
Definition with_world (w : W) (n : N) : N :=
  mkNode w (n_gens n) (n_retired n) (n_pending n) (n_resuming n) (n_trace n).
Definition emit (l : list Event) (n : N) : N :=
  mkNode (n_world n) (n_gens n) (n_retired n) (n_pending n) (n_resuming n) (n_trace n ++ l).
(** An operation of the engine, with the events of its result. *)
Definition traced {A} (f : res A → list Event) (m : M W A) : M N A := λ n,
  let '(r, w) := m (n_world n) in (r, emit (f r) (with_world w n)).
Definition world {A} (m : M W A) : M N A := traced (λ _, []) m.
Definition if_ok {A} (ev : Event) (r : res A) : list Event := match r with Ok _ => [ev] | Err _ => [] end.

(** [queue.get(jobId)] *)
Definition queued (jobId : string) (n : N) : option AcceptedJobEntry :=
  match w_queue (n_world n) with Some q => RelStore.get jobId q | None => None end.
Definition gen_of (key : string) (n : N) : nat := default 0%nat (JMap.get key (n_gens n)).
(** The map lets go of the object under a job's key. *)
Definition retire (jobId : string) (n : N) : N :=
  let key := toLowerCase jobId in
  mkNode (n_world n) (JMap.set key (S (gen_of key n)) (n_gens n))
    (match queued jobId n with
     | Some e => (key, gen_of key n, e) :: n_retired n
     | None => n_retired n
     end) (n_pending n) (n_resuming n) (n_trace n).
Definition retired_entry (key : string) (gen : nat) (n : N) : option AcceptedJobEntry :=
  snd <$> List.find (λ x, String.eqb x.1.1 key && (x.1.2 =? gen)%nat) (n_retired n).
(** The map still holds the object. *)
Definition is_shared (e : AcceptedJobEntry) (gen : nat) (n : N) : bool := (gen_of (job_key e) n =? gen)%nat.
(** The object's fields now. *)
Definition read_ref (o : EntryRef) (n : N) : AcceptedJobEntry :=
  match o with
  | Shared e gen =>
      default e (if is_shared e gen n then queued (aj_jobId e) n else retired_entry (job_key e) gen n)
  | Local e => e
  end.
Definition set_tx (tx : option string) (e : AcceptedJobEntry) : AcceptedJobEntry :=
  mkEntry (aj_jobId e) tx (aj_phase e) (aj_payload e) (aj_deadline e) (aj_fee e) (aj_acceptedAt e) (aj_attempts e) (aj_lastError e).
(** [entry.acceptedTx = queue.get(entry.jobId)?.acceptedTx]: nothing changes on the map's own object. *)
Definition assign_tx (e : AcceptedJobEntry) (gen : nat) (n : N) : EntryRef :=
  if is_shared e gen n then Shared e gen
  else Local (set_tx (queued (aj_jobId e) n ≫= aj_acceptedTx) (read_ref (Shared e gen) n)).

Definition enqueue (e : AcceptedJobEntry) : T unit :=
  act (λ n, traced (if_ok (Queued e)) (on_queue (RelStore.enqueue e)) (retire (aj_jobId e) n)).
Definition resolve (jobId : string) : T unit :=
  act (λ n, traced (if_ok (Resolved jobId)) (on_queue (RelStore.resolve jobId)) (retire jobId n)).
Definition markAccepted (jobId tx : string) : T unit :=
  act (traced (if_ok (Marked jobId tx)) (on_queue (RelStore.markAccepted jobId tx))).
Definition recordFailure (jobId err : string) : T unit := act (world (on_queue (RelStore.recordFailure jobId err))).

Definition getJob (jobId : string) : T (option OnChainJob) :=
  act (traced (λ r, match r with Ok j => [Heard jobId j] | Err _ => [] end) (chain (RelEngine.getJob jobId))).
Definition getJob_or_null (jobId : string) : T (option OnChainJob) :=
  act (traced (λ r, match r with Ok j => [Heard jobId j] | Err _ => [] end) (RelEngine.getJob_or_null jobId)).
(** The transaction leaves first; its answer comes later. *)
Definition transact (call : ChainCall) (m : M C string) : T string :=
  act (λ n, traced (λ _, [Sent call]) (send call (mret tt)) n);;
  act (traced (λ r, [Answered call r]) (chain m)).
Definition latestLedger : T Z :=
  act (traced (λ r, match r with Ok l => [Head l] | Err _ => [] end) (chain RelEngine.latestLedger)).

(** *** The engine's async functions *)
Definition hasDeadlineHeadroom (deadline : Z) : T bool :=
  catch (latest ← latestLedger; mret (deadlineMarginLedgers cfg <=? deadline - latest)) (λ _, mret true).
Definition notifySettled (jobId : string) (result : OutcomeResult) : T unit := act (world (RelEngine.notifySettled cfg jobId result)).
Definition stats (f : RelayerEngineStats → RelayerEngineStats) : T unit := act (world (on_stats f)).

Definition reconcileAcceptance (jobId : string) : T (option string) :=
  current ← getJob_or_null jobId;
  mret (if accepted_by_us cfg current then Some ("on-chain-accept:" +:+ jobId) else None).

Fixpoint submit_loop (n : nat) (attempt : Z) (jobId : string) (payload : PoolWithdrawPayload) (deadline : Z) (last : jserr) : T string :=
  match n with
  | O => fail last
  | S n' =>
      catch
        (current ← getJob jobId;
         if is_submitted current then mret ("on-chain:" +:+ jobId)
         else transact (CallSubmit jobId payload) (submitPoolWithdraw jobId payload))
        (λ err,
          recordFailure jobId (err_message err);;
          current ← getJob_or_null jobId;
          if is_submitted current then mret ("on-chain:" +:+ jobId)
          else if maxAttempts (submitRetry cfg) <=? attempt then fail err
          else
            head ← hasDeadlineHeadroom deadline;
            if negb head then fail err
            else
              act (world (sleep (baseDelayMs (submitRetry cfg) * 2 ^ (attempt - 1) + jitterMs attempt)));;
              submit_loop n' (attempt + 1) jobId payload deadline err)
  end.
Definition submitWithRetry (jobId : string) (payload : PoolWithdrawPayload) (deadline : Z) : T string :=
  submit_loop (Z.to_nat (maxAttempts (submitRetry cfg))) 1 jobId payload deadline (JsError "undefined").

Definition accept_or_reconcile (jobId : string) : T string :=
  catch (transact (CallAccept jobId) (acceptJob jobId))
    (λ err,
      reconciled ← reconcileAcceptance jobId;
      match reconciled with
      | None => fail err
      | Some tx => if String.eqb tx "" then fail err else mret tx
      end).

Definition prepare (msg : EncryptedPayload) : T (option (PoolWithdrawPayload * OnChainJob * string)) :=
  aad ← Done (hexToBytes (ep_jobId msg));
  plaintext ← Done (openBox (ep_box msg) (ec_x25519SecretKey cfg) aad);
  payload ← Done (decodePoolWithdrawPayload json_of_bytes plaintext);
  job ← getJob (ep_jobId msg);
  match job with
  | None => mret None
  | Some job =>
      if negb (oj_exists job) || negb (bool_decide (oj_status job = js_open)) then mret None
      else
        hash ← Done (hashPoolWithdrawPayloadHex addressXdr symbolXdr keccak_256 payload);
        if negb (String.eqb (toLowerCase hash) (toLowerCase (oj_payloadHash job)))
        then fail (JsError "Payload hash mismatch.")
        else
          head ← hasDeadlineHeadroom (oj_deadline job);
          if negb head then stats count_declined;; mret None
          else
            act (world (chain (simulatePoolWithdraw payload)));;
            now ← act (world (gets w_now));
            enqueue (mkEntry (ep_jobId msg) None None (serializePoolWithdrawPayload payload) (oj_deadline job)
              (bigint_toString 10 (oj_fee job)) now 0 None);;
            atx ← accept_or_reconcile (ep_jobId msg);
            markAccepted (ep_jobId msg) atx;;
            mret (Some (payload, job, atx))
  end.

Definition deliver (msg : EncryptedPayload) (payload : PoolWithdrawPayload) (job : OnChainJob) (atx : string) : T PayloadResult :=
  stats count_accepted;;
  stx ← submitWithRetry (ep_jobId msg) payload (oj_deadline job);
  stats count_submitted;;
  resolve (ep_jobId msg);;
  now ← act (world (gets w_now));
  act (world (record_job (mkLedgerEntry (ep_jobId msg) atx stx (oj_fee job) now)));;
  notifySettled (ep_jobId msg) completed;;
  (match ep_idempotencyKey msg with
   | None => mret tt
   | Some key =>
       act (world (on_eng (λ e, mkEngine (e_stats e) (e_bids e)
         (JMap.set key (mkIdem (mkResult atx stx) (now + IDEMPOTENCY_TTL_MS)) (e_idempotencyStore e)) (e_pendingJobs e))))
   end);;
  mret (mkResult atx stx).

Definition processPayload (msg : EncryptedPayload) : T (option PayloadResult) :=
  now ← act (world (gets w_now));
  act (world (on_eng (on_pending (JMap.set (toLowerCase (ep_jobId msg)) now))));;
  ensure
    (p ← catch (prepare msg) (λ err, stats (count_rejected (err_message err));; fail err);
     match p with
     | None => mret None
     | Some (payload, job, atx) =>
         catch (r ← deliver msg payload job atx; mret (Some r))
           (λ err, stats (count_rejected (err_message err));; notifySettled (ep_jobId msg) failed;; fail err)
     end)
    (λ n, with_world ((on_eng (on_pending (JMap.del (toLowerCase (ep_jobId msg)))) (n_world n)).2) n).

(** What [handlePayload] answers: its own result, or the promise of the delivery in flight
    with the same idempotency key. *)
Inductive Delivery : Type := Own (r : option PayloadResult) | Joined (key : string).
Inductive Begun : Type := Settled (d : Delivery) | Begin (msg : EncryptedPayload).

(** The synchronous start of [handlePayload]: nothing runs between the check for a delivery in
    flight and the registration of this one. *)
Definition begin_payload (raw : jval) : M N Begun :=
  s ← world (startPayload cfg raw);
  match s with
  | Ignored => mret (Settled (Own None))
  | Cached r => mret (Settled (Own (Some r)))
  | Process msg =>
      match ep_idempotencyKey msg with
      | None => mret (Begin msg)
      | Some key =>
          busy ← gets (λ n, bool_decide (key ∈ n_pending n));
          if (busy : bool) then mret (Settled (Joined key))
          else modify (λ n, mkNode (n_world n) (n_gens n) (n_retired n) (key :: n_pending n) (n_resuming n) (n_trace n));; mret (Begin msg)
      end
  end.
Definition unregister (key : option string) (n : N) : N :=
  match key with
  | None => n
  | Some key => mkNode (n_world n) (n_gens n) (n_retired n) (List.filter (λ k, negb (String.eqb k key)) (n_pending n)) (n_resuming n) (n_trace n)
  end.
Definition handlePayload (raw : jval) : T Delivery :=
  s ← act (begin_payload raw);
  match s with
  | Settled d => mret d
  | Begin msg => r ← ensure (processPayload msg) (unregister (ep_idempotencyKey msg)); mret (Own r)
  end.

(** *** Recovery *)
Definition record_resumed (o : EntryRef) (stx : string) : T unit := act (λ n, world (RelEngine.record_resumed (read_ref o n) stx) n).

(** [e] has the fields of the object that never change. *)
Definition resume_submit (e : AcceptedJobEntry) (o : EntryRef) : T ResumeOutcome :=
  head ← hasDeadlineHeadroom (aj_deadline e);
  if negb head then resolve (aj_jobId e);; mret ResAbandoned
  else
    catch
      (payload ← Done (parsePoolWithdrawPayload (aj_payload e));
       stx ← submitWithRetry (aj_jobId e) payload (aj_deadline e);
       resolve (aj_jobId e);;
       record_resumed o stx;;
       stats count_submitted;;
       notifySettled (aj_jobId e) completed;;
       mret ResSubmitted)
      (λ err, stats (note_error (err_message err));; mret ResFailed).

Definition resume_one (e : AcceptedJobEntry) (gen : nat) : T ResumeOutcome :=
  current ← getJob_or_null (aj_jobId e);
  if is_submitted current then
    resolve (aj_jobId e);;
    record_resumed (Shared e gen) ("on-chain:" +:+ aj_jobId e);;
    notifySettled (aj_jobId e) completed;;
    mret ResSubmitted
  else
    needs ← act (gets (λ n, needs_accept (read_ref (Shared e gen) n)));
    if (needs : bool) then
      if accepted_by_us cfg current then
        markAccepted (aj_jobId e) ("on-chain-accept:" +:+ aj_jobId e);;
        o ← act (gets (assign_tx e gen));
        resume_submit e o
      else if is_open current then
        ok ← catch (atx ← transact (CallAccept (aj_jobId e)) (acceptJob (aj_jobId e)); markAccepted (aj_jobId e) atx;; mret true)
               (λ err, recordFailure (aj_jobId e) (err_message err);; mret false);
        if (ok : bool) then o ← act (gets (assign_tx e gen)); resume_submit e o
        else mret ResFailed
      else resolve (aj_jobId e);; mret ResAbandoned
    else resume_submit e (Shared e gen).

Fixpoint resume_all (l : list (AcceptedJobEntry * nat)) : T (list (string * ResumeOutcome)) :=
  match l with
  | [] => mret []
  | (e, gen) :: l' =>
      o ← resume_one e gen;
      rest ← resume_all l';
      mret ((aj_jobId e, o) :: rest)
  end.
(** [queue.pending()]: the objects of the map, oldest acceptance first. *)
Definition pending_refs (n : N) : list (AcceptedJobEntry * nat) :=
  match w_queue (n_world n) with
  | Some q => (λ e, (e, gen_of (job_key e) n)) <$> pending q
  | None => []
  end.
Definition resumeAcceptedJobs : T (list (string * ResumeOutcome)) :=
  q ← act (gets (λ n, w_queue (n_world n)));
  match q with
  | None => mret []
  | Some _ =>
      act (world (on_queue hydrate));;
      todo ← act (gets pending_refs);
      resume_all todo
  end.
Definition set_resuming (b : bool) (n : N) : N :=
  mkNode (n_world n) (n_gens n) (n_retired n) (n_pending n) b (n_trace n).
(** The pass the timer of [startAcceptedJobWatch] starts. *)
Definition watched_resume : T (list (string * ResumeOutcome)) :=
  ensure (catch resumeAcceptedJobs (λ err, stats (note_error (err_message err));; mret [])) (set_resuming false).

(** ** Runs *)
Record Pool : Type := mkPool { p_tasks : list (T unit); p_node : N }.
Inductive Choice : Type :=
  | Payload (raw : jval)                            (** [handlePayload] is called *)
  | Watch                                           (** the timer of the accepted-job watch fires *)
  | Run (i : nat)                                   (** the [i]th task takes its next action *)
  | Outside (fe : RelayerEngine → RelayerEngine) (fl : option (JobLedger L) → option (JobLedger L)) (fc : C → C) (now : Z)
                                                    (** adverts and pruning, the reconciler, the chain, the clock *)
  | Crash.                                          (** the process dies and starts again *)

Definition discard {A} (t : T A) : T unit := t ≫= λ _, mret tt.
Definition step (p : Pool) (x : Choice) : Pool :=
  let n := p_node p in
  match x with
  | Payload raw => mkPool (p_tasks p ++ [discard (handlePayload raw)]) n
  | Watch => if n_resuming n then p else mkPool (p_tasks p ++ [discard watched_resume]) (set_resuming true n)
  | Run i =>
      match p_tasks p !! i with
      | Some t => let '(t', n') := next t n in mkPool (<[i:=t']> (p_tasks p)) n'
      | None => p
      end
  | Outside fe fl fc now =>
      let w := n_world n in
      mkPool (p_tasks p) (with_world (mkWorld (fe (w_eng w)) (w_queue w) (fl (w_ledger w)) (fc (w_chain w)) now (w_settled w) (w_log w)) n)
  | Crash =>
      let w := n_world n in
      mkPool [] (mkNode (mkWorld new_engine ((λ q, (hydrate (restarted q)).2) <$> w_queue w) (w_ledger w) (w_chain w) (w_now w)
        (w_settled w) (w_log w)) [] [] [] false (n_trace n ++ [Restarted]))
  end.
Definition run (xs : list Choice) (p : Pool) : Pool := foldl step p xs.
Definition boot (w : W) : Pool := mkPool [] (mkNode w [] [] [] false []).
End handlers.
End Async.

(** ** What the trace says *)
Section traces.
Context (cfg : RelayerEngineConfig).
Context (keccak_256 : list byte → list byte).
Context (addressXdr : string → res (list byte)) (symbolXdr : string → list byte).

(** The intents on disk: the payloads saved under the jobs' keys and not removed since. *)
Definition intent (m : list (string * SerializablePoolWithdrawPayload)) (ev : Event) : list (string * SerializablePoolWithdrawPayload) :=
  match ev with
  | Queued e => JMap.set (job_key e) (aj_payload e) m
  | Resolved j => JMap.del (toLowerCase j) m
  | _ => m
  end.
Definition intents (tr : list Event) : list (string * SerializablePoolWithdrawPayload) := foldl intent [] tr.

(** The intent of a job was saved. *)
Definition planned (tr : list Event) (j : string) : Prop := ∃ e, Queued e ∈ tr ∧ job_key e = toLowerCase j.
(** The intent was saved with this payload, and the job recorded as accepted. *)
Definition committed (tr : list Event) (j : string) (p : PoolWithdrawPayload) : Prop :=
  (∃ e, Queued e ∈ tr ∧ job_key e = toLowerCase j ∧ parsePoolWithdrawPayload (aj_payload e) = Ok p) ∧
  (∃ j' tx, Marked j' tx ∈ tr ∧ toLowerCase j' = toLowerCase j).
(** The chain said that the job was open, for this payload and deadline. *)
Definition screened (tr : list Event) (e : AcceptedJobEntry) : Prop :=
  ∃ job p h, Heard (aj_jobId e) (Some job) ∈ tr ∧ oj_exists job = true ∧ oj_status job = js_open ∧ aj_deadline e = oj_deadline job ∧
    parsePoolWithdrawPayload (aj_payload e) = Ok p ∧ hashPoolWithdrawPayloadHex addressXdr symbolXdr keccak_256 p = Ok h ∧
    toLowerCase h = toLowerCase (oj_payloadHash job).
(** The chain said that this operator has the job. *)
Definition won (tr : list Event) (j tx : string) : Prop :=
  Answered (CallAccept j) (Ok tx) ∈ tr ∨ ∃ job, Heard j job ∈ tr ∧ accepted_by_us cfg job = true.
(** The submission went through, by its answer or by a read. *)
Definition landed (tr : list Event) (j : string) : Prop :=
  (∃ p tx, Answered (CallSubmit j p) (Ok tx) ∈ tr) ∨ ∃ job, Heard j job ∈ tr ∧ is_submitted job = true.
(** The chain did not show the job as open or as this operator's, or did not answer. *)
Definition not_ours (tr : list Event) (j : string) : Prop :=
  ∃ job, Heard j job ∈ tr ∧ is_open job = false ∧ accepted_by_us cfg job = false.
(** The deadline of the saved intent was too near. *)
Definition too_late (tr : list Event) (j : string) : Prop :=
  ∃ e l, Queued e ∈ tr ∧ job_key e = toLowerCase j ∧ Head l ∈ tr ∧ aj_deadline e - l < deadlineMarginLedgers cfg.

(** What must have happened before an event. *)
Definition justified (tr : list Event) (ev : Event) : Prop :=
  match ev with
  | Queued e => screened tr e
  | Sent (CallAccept j) => planned tr j
  | Marked j tx => won tr j tx
  | Sent (CallSubmit j p) => committed tr j p
  | Resolved j => landed tr j ∨ not_ours tr j ∨ too_late tr j
  | Answered call _ => Sent call ∈ tr
  | Heard _ _ | Head _ | Restarted => True
  end.
Inductive ordered : list Event → Prop :=
  | ordered_nil : ordered []
  | ordered_snoc tr ev : ordered tr → justified tr ev → ordered (tr ++ [ev]).

Lemma ordered_split tr t1 ev t2 : ordered tr → tr = t1 ++ ev :: t2 → justified t1 ev.
Proof.
  intros Ho. revert t1 ev t2. induction Ho as [|tr ev' Ho IH Hj]; intros t1 ev t2 E; [by destruct t1|].
  destruct t2 as [|x t2 _] using rev_ind.
  - apply app_inj_tail in E as [-> ->]. done.
  - rewrite app_comm_cons, app_assoc in E. apply app_inj_tail in E as [E _]. by apply (IH _ _ t2).
Qed.
Lemma intents_snoc tr ev : intents (tr ++ [ev]) = intent (intents tr) ev.
Proof. unfold intents. by rewrite foldl_app. Qed.

(** *** Assertions that keep holding as the trace grows *)
Class Stable (F : list Event → Prop) : Prop := stable : ∀ t1 t2, t1 `prefix_of` t2 → F t1 → F t2.
Lemma stable_elem ev : Stable (λ tr, ev ∈ tr).
Proof. intros t1 t2 [k ->] H. set_solver. Qed.
Lemma stable_pure (P : Prop) : Stable (λ _, P).
Proof. by intros t1 t2 _ HP. Qed.
Lemma stable_and F G : Stable F → Stable G → Stable (λ tr, F tr ∧ G tr).
Proof. intros HF HG t1 t2 Hp [??]. split; [by eapply HF|by eapply HG]. Qed.
Lemma stable_or F G : Stable F → Stable G → Stable (λ tr, F tr ∨ G tr).
Proof. intros HF HG t1 t2 Hp [?|?]; [left; by eapply HF|right; by eapply HG]. Qed.
Lemma stable_ex {A} (F : A → list Event → Prop) : (∀ a, Stable (F a)) → Stable (λ tr, ∃ a, F a tr).
Proof. intros HF t1 t2 Hp [a Ha]. exists a. by eapply HF. Qed.
Lemma stable_all {A} (F : A → list Event → Prop) : (∀ a, Stable (F a)) → Stable (λ tr, ∀ a, F a tr).
Proof. intros HF t1 t2 Hp Ha a. by eapply HF. Qed.
End traces.

Ltac solve_stable :=
  lazymatch goal with
  | |- Stable (λ tr, ?ev ∈ tr) => apply stable_elem
  | |- Stable (λ _, ?P) => apply (stable_pure P)
  | |- Stable (λ tr, @?F tr ∧ @?G tr) => apply (stable_and F G); solve_stable
  | |- Stable (λ tr, @?F tr ∨ @?G tr) => apply (stable_or F G); solve_stable
  | |- Stable (λ tr, ∃ a, @?F tr a) => apply (stable_ex (λ a tr, F tr a)); intros; cbv beta; solve_stable
  | |- Stable (λ tr, ∀ a, @?F tr a) => apply (stable_all (λ a tr, F tr a)); intros; cbv beta; solve_stable
  | |- _ => apply _
  end.
#[export] Hint Extern 5 (Stable (λ _, _)) => solve_stable : typeclass_instances.

#[export] Instance stable_planned j : Stable (λ tr, planned tr j).
Proof. unfold planned. solve_stable. Qed.
#[export] Instance stable_committed j p : Stable (λ tr, committed tr j p).
Proof. unfold committed. solve_stable. Qed.
#[export] Instance stable_won cfg j tx : Stable (λ tr, won cfg tr j tx).
Proof. unfold won. solve_stable. Qed.
#[export] Instance stable_landed j : Stable (λ tr, landed tr j).
Proof. unfold landed. solve_stable. Qed.

(** An entry that was saved, and recorded as accepted if it says so. *)
Definition known (e : AcceptedJobEntry) (tr : list Event) : Prop :=
  (∃ e0, Queued e0 ∈ tr ∧ job_key e0 = job_key e ∧ aj_payload e0 = aj_payload e ∧ aj_deadline e0 = aj_deadline e) ∧
  (needs_accept e = false → ∃ j tx, Marked j tx ∈ tr ∧ toLowerCase j = job_key e).
#[export] Instance stable_known e : Stable (known e).
Proof. unfold known. solve_stable. Qed.

(** ** A logic for tasks in any interleaving *)
Section logic.
Context {C D L : Type} `{RelayerChainAdapter C} `{SavingStore D AcceptedJobEntry} `{EntryStore L JobLedgerEntry}.
Context (cfg : RelayerEngineConfig).
Context (keccak_256 : list byte → list byte).
Context (addressXdr : string → res (list byte)) (symbolXdr : string → list byte).
Notation W := (World C D L).
Notation N := (Node C D L).
Notation T := (task (Node C D L)).
Notation ordered := (ordered cfg keccak_256 addressXdr symbolXdr).
Notation justified := (justified cfg keccak_256 addressXdr symbolXdr).

(** What every action keeps: the queue is on disk, it holds the intents of the trace, and the
    trace is in order. *)
Record inv (n : N) : Prop := {
  inv_durable : durable (w_queue (n_world n));
  inv_intents : ∀ j, aj_payload <$> Async.queued j n = JMap.get (toLowerCase j) (intents (n_trace n));
  inv_queued : ∀ j e, Async.queued j n = Some e → known e (n_trace n);
  inv_retired : ∀ key gen e, (key, gen, e) ∈ n_retired n → job_key e = key ∧ known e (n_trace n);
  inv_ordered : ordered (n_trace n);
}.

(** The task keeps the invariant however others interleave, starting when the trace is at
    least [tr]; [Q] holds of its result and the trace then. *)
Fixpoint wp {A} (t : T A) (Q : res A → list Event → Prop) (tr : list Event) : Prop :=
  match t with
  | Done r => Q r tr
  | Act m k => ∀ n, inv n → tr `prefix_of` n_trace n →
      inv (m n).2 ∧ n_trace n `prefix_of` n_trace (m n).2 ∧ wp (k (m n).1) Q (n_trace (m n).2)
  end.
Definition given (F P : list Event → Prop) : Prop := ∀ tr, F tr → P tr.

Lemma wp_grows {A} (t : T A) tr tr' : tr `prefix_of` tr' → wp t (λ _ _, True) tr → wp t (λ _ _, True) tr'.
Proof. intros Hp. destruct t; [done|]. intros Hw n Hn Hp'. apply Hw; [done|]. by transitivity tr'. Qed.
Lemma wp_mono {A} (t : T A) (Q Q' : res A → list Event → Prop) tr : (∀ r tr', Q r tr' → Q' r tr') → wp t Q tr → wp t Q' tr.
Proof.
  intros HQ. revert tr. induction t as [r|X m k IH]; intros tr; [apply HQ|]. intros Hw n Hn Hp.
  destruct (Hw n Hn Hp) as (? & ? & Hk). split_and!; [done..|]. by apply IH.
Qed.
Lemma wp_bind {A B} (t : T A) (f : A → T B) Q F :
  given F (wp t (λ r tr, match r with Ok a => wp (f a) Q tr | Err e => Q (Err e) tr end)) → given F (wp (t ≫= f) Q).
Proof.
  intros HF tr Htr. specialize (HF tr Htr). clear Htr F. revert tr HF. induction t as [[a|e]|X m k IH]; intros tr Hw; [exact Hw..|].
  intros n Hn Hp. destruct (Hw n Hn Hp) as (? & ? & Hk). split_and!; [done..|]. by apply IH.
Qed.
Lemma wp_catch {A} (t : T A) h Q F :
  given F (wp t (λ r tr, match r with Ok a => Q (Ok a) tr | Err e => wp (h e) Q tr end)) → given F (wp (catch t h) Q).
Proof.
  intros HF tr Htr. specialize (HF tr Htr). clear Htr F. revert tr HF. induction t as [[a|e]|X m k IH]; intros tr Hw; [exact Hw..|].
  intros n Hn Hp. destruct (Hw n Hn Hp) as (? & ? & Hk). split_and!; [done..|]. by apply IH.
Qed.
(** The cleanup touches neither the queue nor the trace. *)
Definition idle (f : N → N) : Prop := ∀ n, w_queue (n_world (f n)) = w_queue (n_world n) ∧ n_retired (f n) = n_retired n ∧ n_trace (f n) = n_trace n.

Lemma queued_eq j (n n' : N) : w_queue (n_world n') = w_queue (n_world n) → Async.queued j n' = Async.queued j n.
Proof. unfold Async.queued. by intros ->. Qed.
Lemma inv_event (n n' : N) l : inv n → w_queue (n_world n') = w_queue (n_world n) → n_retired n' = n_retired n → n_trace n' = n_trace n ++ l →
  ordered (n_trace n ++ l) → intents (n_trace n ++ l) = intents (n_trace n) → inv n'.
Proof.
  intros [Hd Hi Hq Hr Ho] Eq Er Et Ho' Hi'. assert (Hp : n_trace n `prefix_of` n_trace n') by (rewrite Et; by apply prefix_app_r).
  split; [by rewrite Eq| | | |by rewrite Et].
  - intros j. by rewrite (queued_eq j n n' Eq), Et, Hi', Hi.
  - intros j e. rewrite (queued_eq j n n' Eq). intros He. eapply stable_known; eauto.
  - intros key gen e. rewrite Er. intros (Hk & He)%Hr. split; [done|]. eapply stable_known; eauto.
Qed.
Lemma inv_idle f (n : N) : idle f → inv n → inv (f n).
Proof.
  intros Hf Hn. destruct (Hf n) as (Eq & Er & Et). eapply (inv_event n _ []); rewrite ?app_nil_r; [done..|apply Hn|done].
Qed.

Lemma wp_ensure {A} (t : T A) f Q F : idle f → (∀ r, Stable (Q r)) → given F (wp t Q) → given F (wp (ensure t f) Q).
Proof.
  intros Hf HQ HF tr Htr. specialize (HF tr Htr). clear Htr F. revert tr HF. induction t as [r|X m k IH]; intros tr Hw.
  - intros n Hn Hp. simpl. destruct (Hf n) as (_ & _ & Et). split_and!; [by apply inv_idle|by rewrite Et|]. rewrite Et. by eapply HQ.
  - intros n Hn Hp. destruct (Hw n Hn Hp) as (? & ? & Hk). split_and!; [done..|]. by apply IH.
Qed.

(** An action that leaves the queue alone. *)
Lemma wp_traced {A} (f : res A → list Event) (m : M W A) F Q : Stable F → (∀ w, w_queue (m w).2 = w_queue w) →
  (∀ tr r, F tr → ordered tr → ordered (tr ++ f r) ∧ intents (tr ++ f r) = intents tr) →
  (∀ w, given (λ tr, F tr ∧ ∀ ev, ev ∈ f (m w).1 → ev ∈ tr) (Q (m w).1)) → given F (wp (act (Async.traced f m)) Q).
Proof.
  intros HF Hm Hev HQ tr Htr n Hn Hp. unfold Async.traced. specialize (Hm (n_world n)). specialize (HQ (n_world n)). destruct (m (n_world n)) as [r w].
  destruct (Hev (n_trace n) r ltac:(by eapply HF) (inv_ordered n Hn)) as [Ho Hi]. cbn [fst snd].
  assert (Hpre : n_trace n `prefix_of` n_trace (Async.emit (f r) (Async.with_world w n))) by by apply prefix_app_r.
  split_and!; [by eapply inv_event|done|]. apply HQ. split; [eapply HF; [|exact Htr]; by transitivity (n_trace n)|]. intros ev. simpl. set_solver.
Qed.
Lemma wp_world {A} (m : M W A) F Q : Stable F → (∀ w, w_queue (m w).2 = w_queue w) → (∀ r, given F (Q r)) → given F (wp (act (Async.world m)) Q).
Proof.
  intros HF Hm HQ. apply wp_traced; [done..|intros tr r; by rewrite app_nil_r|]. intros w tr [? _]. by apply HQ.
Qed.
Lemma wp_gets {A} (g : N → A) F Q : Stable F → (∀ n, inv n → F (n_trace n) → Q (Ok (g n)) (n_trace n)) → given F (wp (act (gets g)) Q).
Proof. intros HF HQ tr Htr n Hn Hp. simpl. split_and!; [done..|]. apply HQ; [done|]. by eapply HF. Qed.

(** *** The queue's operations *)
Lemma queue_of (n : N) : inv n → ∃ q, w_queue (n_world n) = Some q ∧ durable (Some q) ∧ ∀ j, Async.queued j n = get j q.
Proof. intros [Hd _ _ _ _]. pose proof Hd as (q & d & Hq & _). exists q. rewrite Hq in Hd. split_and!; [done..|]. intros j. unfold Async.queued. by rewrite Hq. Qed.
Lemma on_queue_run m (w : W) q r q' : w_queue w = Some q → m q = (r, q') → ∃ w', on_queue m w = (r, w') ∧ w_queue w' = Some q'.
Proof. intros Hq Hm. unfold on_queue. rewrite Hq, Hm. eauto. Qed.
Lemma queued_key (n : N) j e : inv n → Async.queued j n = Some e → job_key e = toLowerCase j.
Proof.
  intros Hn He. destruct (queue_of n Hn) as (q & _ & (q0 & d & [= <-] & _ & [Hwf _] & _) & Hg). rewrite Hg in He.
  apply JMap.get_Some_elem in He. by destruct (qw_own _ Hwf _ _ He).
Qed.
(** Retiring an object changes neither the queue nor the trace. *)
Lemma retired_known j (n : N) : inv n → ∀ key gen e, (key, gen, e) ∈ n_retired (Async.retire j n) → job_key e = key ∧ known e (n_trace n).
Proof.
  intros Hn key gen e. unfold Async.retire. simpl. destruct (Async.queued j n) as [x|] eqn:E; [|apply Hn].
  intros [[= -> -> ->]|Hin]%elem_of_cons; [|by apply (inv_retired n Hn) in Hin]. split; [by eapply queued_key|by eapply inv_queued].
Qed.

Lemma inv_put (n n' : N) q q' e : inv n → w_queue (n_world n) = Some q → w_queue (n_world n') = Some q' → durable (Some q') →
  (∀ j, get j q' = if decide (toLowerCase j = job_key e) then Some (default_phase e) else get j q) →
  (∀ key gen x, (key, gen, x) ∈ n_retired n' → job_key x = key ∧ known x (n_trace n)) → n_trace n' = n_trace n ++ [Queued e] →
  needs_accept (default_phase e) = true → screened keccak_256 addressXdr symbolXdr (n_trace n) e → inv n'.
Proof.
  intros Hn Eq Eq' Hd Hg Hr Et Hna Hs. destruct (queue_of n Hn) as (q0 & Hq0 & _ & Hgq). rewrite Eq in Hq0. injection Hq0 as <-.
  assert (Hg' : ∀ j, Async.queued j n' = get j q') by (intros j; unfold Async.queued; by rewrite Eq').
  assert (Hp : n_trace n `prefix_of` n_trace n') by (rewrite Et; by apply prefix_app_r).
  assert (Hpl : aj_payload (default_phase e) = aj_payload e ∧ job_key (default_phase e) = job_key e ∧ aj_deadline (default_phase e) = aj_deadline e)
    by (unfold default_phase; by destruct (aj_phase e)).
  split; [by rewrite Eq'| | | |rewrite Et; constructor; [apply Hn|done]].
  - intros j. rewrite Hg', Hg, Et, intents_snoc. simpl. case_decide as Hj; simpl.
    + rewrite Hj, JMap.get_set_eq. by destruct Hpl as (-> & _).
    + rewrite JMap.get_set_ne by done. rewrite <-(inv_intents n Hn j), Hgq. done.
  - intros j x. rewrite Hg', Hg. case_decide as Hj; [intros [= <-]|].
    + split; [|by rewrite Hna]. exists e. rewrite Et. split; [set_solver|]. naive_solver.
    + intros Hx. eapply stable_known; [done|]. apply (inv_queued n Hn j). by rewrite Hgq.
  - intros key gen x (Hk & Hx)%Hr. split; [done|]. by eapply stable_known.
Qed.
Lemma wp_enqueue e F Q : Stable F → (∀ tr, F tr → screened keccak_256 addressXdr symbolXdr tr e) → needs_accept (default_phase e) = true →
  given (λ tr, F tr ∧ Queued e ∈ tr) (Q (Ok tt)) → given F (wp (Async.enqueue (C:=C) (L:=L) e) Q).
Proof.
  intros HF Hs Hna HQ tr Htr n Hn Hp. destruct (queue_of n Hn) as (q & Hq & Hd & _).
  destruct (persist_ok (set_entries (put e) q)) as (q' & Hrun & He & _).
  destruct (on_queue_run (RelStore.enqueue e) (n_world (Async.retire (aj_jobId e) n)) q (Ok tt) q' Hq Hrun) as (w & Hw & Hwq).
  unfold Async.traced. rewrite Hw. cbn [fst snd Async.if_ok].
  assert (Htr' : F (n_trace n)) by by eapply HF. pose proof (Hs _ Htr') as Hsc. pose proof Hsc as (job & p & h & _ & _ & _ & _ & Hparse & _).
  assert (Hi : inv (Async.emit [Queued e] (Async.with_world w (Async.retire (aj_jobId e) n)))).
  { eapply (inv_put n _ q q'); [done|done|exact Hwq| | |by apply retired_known|done..].
    - pose proof (durable_enqueue q e Hd ltac:(by exists p)) as Hd'. change (enqueue e q) with (persist (set_entries (put e) q)) in Hd'. by rewrite Hrun in Hd'.
    - intros j. unfold get. rewrite He. simpl. unfold put. fold (job_key e). case_decide as Hj; [by rewrite Hj, JMap.get_set_eq|by rewrite JMap.get_set_ne]. }
  assert (Hpre : n_trace n `prefix_of` n_trace n ++ [Queued e]) by by apply prefix_app_r.
  split_and!; [done|exact Hpre|]. apply HQ. split; [by eapply HF|]. simpl. set_solver.
Qed.

Lemma inv_del (n n' : N) q q' j0 : inv n → w_queue (n_world n) = Some q → w_queue (n_world n') = Some q' → durable (Some q') →
  (∀ j, get j q' = if decide (toLowerCase j = toLowerCase j0) then None else get j q) →
  (∀ key gen x, (key, gen, x) ∈ n_retired n' → job_key x = key ∧ known x (n_trace n)) → n_trace n' = n_trace n ++ [Resolved j0] →
  justified (n_trace n) (Resolved j0) → inv n'.
Proof.
  intros Hn Eq Eq' Hd Hg Hr Et Hs. destruct (queue_of n Hn) as (q0 & Hq0 & _ & Hgq). rewrite Eq in Hq0. injection Hq0 as <-.
  assert (Hg' : ∀ j, Async.queued j n' = get j q') by (intros j; unfold Async.queued; by rewrite Eq').
  assert (Hp : n_trace n `prefix_of` n_trace n') by (rewrite Et; by apply prefix_app_r).
  split; [by rewrite Eq'| | | |rewrite Et; constructor; [apply Hn|done]].
  - intros j. rewrite Hg', Hg, Et, intents_snoc. simpl. case_decide as Hj; simpl.
    + by rewrite Hj, JMap.get_del_eq.
    + rewrite JMap.get_del_ne by done. rewrite <-(inv_intents n Hn j), Hgq. done.
  - intros j x. rewrite Hg', Hg. case_decide; [done|]. intros Hx. eapply stable_known; [done|]. apply (inv_queued n Hn j). by rewrite Hgq.
  - intros key gen x (Hk & Hx)%Hr. split; [done|]. by eapply stable_known.
Qed.
Lemma wp_resolve j F Q : Stable F → (∀ tr, F tr → justified tr (Resolved j)) → given F (Q (Ok tt)) → given F (wp (Async.resolve (C:=C) (L:=L) j) Q).
Proof.
  intros HF Hs HQ tr Htr n Hn Hp. destruct (queue_of n Hn) as (q & Hq & Hd & _).
  destruct (persist_ok (set_entries (JMap.del (toLowerCase j)) q)) as (q' & Hrun & He & _).
  destruct (on_queue_run (RelStore.resolve j) (n_world (Async.retire j n)) q (Ok tt) q' Hq Hrun) as (w & Hw & Hwq).
  unfold Async.traced. rewrite Hw. cbn [fst snd Async.if_ok]. assert (Htr' : F (n_trace n)) by by eapply HF.
  assert (Hi : inv (Async.emit [Resolved j] (Async.with_world w (Async.retire j n)))).
  { eapply (inv_del n _ q q' j); [done|done|exact Hwq| | |by apply retired_known|done|by apply Hs].
    - pose proof (durable_resolve q j Hd) as Hd'. change (resolve j q) with (persist (set_entries (JMap.del (toLowerCase j)) q)) in Hd'. by rewrite Hrun in Hd'.
    - intros k. unfold get. rewrite He. simpl. case_decide as Hj; [by rewrite Hj, JMap.get_del_eq|by rewrite JMap.get_del_ne]. }
  assert (Hpre : n_trace n `prefix_of` n_trace n ++ [Resolved j]) by by apply prefix_app_r.
  split_and!; [done|exact Hpre|]. apply HQ. by eapply HF.
Qed.

(** Entries changed in place keep their job and payload. *)
Lemma inv_update (n n' : N) q q' j0 f l : inv n → w_queue (n_world n) = Some q → w_queue (n_world n') = Some q' → durable (Some q') →
  (∀ j, get j q' = if decide (toLowerCase j = toLowerCase j0) then f <$> get j q else get j q) → n_retired n' = n_retired n →
  n_trace n' = n_trace n ++ l → ordered (n_trace n ++ l) → intents (n_trace n ++ l) = intents (n_trace n) →
  (∀ x, aj_payload (f x) = aj_payload x) → (∀ x, job_key x = toLowerCase j0 → known x (n_trace n) → known (f x) (n_trace n')) → inv n'.
Proof.
  intros Hn Eq Eq' Hd Hg Er Et Ho Hi Hpl Hk. destruct (queue_of n Hn) as (q0 & Hq0 & _ & Hgq). rewrite Eq in Hq0. injection Hq0 as <-.
  assert (Hg' : ∀ j, Async.queued j n' = get j q') by (intros j; unfold Async.queued; by rewrite Eq').
  assert (Hp : n_trace n `prefix_of` n_trace n') by (rewrite Et; by apply prefix_app_r).
  split; [by rewrite Eq'| | | |by rewrite Et].
  - intros j. rewrite Hg', Hg, Et, Hi, <-(inv_intents n Hn j), Hgq. case_decide; [|done]. destruct (get j q); [|done]. simpl. by rewrite Hpl.
  - intros j x. rewrite Hg', Hg. case_decide as Hj.
    + destruct (get j q) as [y|] eqn:Ey; [|done]. intros [= <-]. rewrite <-Hgq in Ey. apply Hk; [|by eapply inv_queued]. rewrite <-Hj. by eapply queued_key.
    + intros Hx. eapply stable_known; [done|]. apply (inv_queued n Hn j). by rewrite Hgq.
  - intros key gen x. rewrite Er. intros (Hkk & Hx)%Hn. split; [done|]. by eapply stable_known.
Qed.
Lemma update_run (q : AcceptedJobQueue D) j f : ∃ q', (modify (update j f);; persist) q = (Ok tt, q') ∧ q' = (persist (update j f q)).2 ∧
  ∀ k, get k q' = if decide (toLowerCase k = toLowerCase j) then f <$> get k q else get k q.
Proof.
  destruct (persist_ok (update j f q)) as (q' & Hrun & He & _). exists q'. split; [exact Hrun|]. split; [by rewrite Hrun|].
  intros k. unfold get in *. rewrite He. unfold update, get. destruct (JMap.get (toLowerCase j) (q_entries q)) as [x|] eqn:Ex.
  - simpl. case_decide as Hj; [by rewrite Hj, JMap.get_set_eq, Ex|by rewrite JMap.get_set_ne].
  - case_decide as Hj; [by rewrite Hj, Ex|done].
Qed.

Lemma wp_markAccepted j tx F Q : Stable F → (∀ tr, F tr → won cfg tr j tx) →
  given (λ tr, F tr ∧ Marked j tx ∈ tr) (Q (Ok tt)) → (∀ e, given F (Q (Err e))) → given F (wp (Async.markAccepted (C:=C) (L:=L) j tx) Q).
Proof.
  intros HF Hw HQ HE tr Htr n Hn Hp. assert (Htr' : F (n_trace n)) by by eapply HF. destruct (queue_of n Hn) as (q & Hq & Hd & _).
  unfold Async.traced. destruct (RelStore.markAccepted j tx q) as [r q'] eqn:Em.
  destruct (on_queue_run _ (n_world n) q r q' Hq Em) as (w & Hrun & Hwq). rewrite Hrun. cbn [fst snd]. unfold markAccepted in Em.
  destruct (get j q) as [e|] eqn:Ee.
  - destruct (update_run q j (mark_entry tx)) as (q2 & Hr2 & Hq2 & Hg). rewrite Hr2 in Em. injection Em as <- <-. cbn [Async.if_ok].
    assert (Hi : inv (Async.emit [Marked j tx] (Async.with_world w n))).
    { eapply (inv_update n _ q q2 j (mark_entry tx) [Marked j tx]); [done|done|exact Hwq| |exact Hg|done|done| | |done|].
      - rewrite Hq2. by apply durable_update.
      - constructor; [apply Hn|]. by apply Hw.
      - apply intents_snoc.
      - intros x Hk [(e0 & He0 & Hrest) _]. split; [exists e0; simpl; set_solver|]. intros _. exists j, tx. simpl. split; [set_solver|done]. }
    assert (Hpre : n_trace n `prefix_of` n_trace n ++ [Marked j tx]) by by apply prefix_app_r.
    split_and!; [done|exact Hpre|]. apply HQ. split; [by eapply HF|]. simpl. set_solver.
  - injection Em as <- <-. cbn [Async.if_ok]. simpl. rewrite app_nil_r. split_and!; [|done|by apply HE].
    eapply (inv_event n _ []); rewrite ?app_nil_r; [done|by rewrite Hq|done|by simpl; rewrite app_nil_r|apply Hn|done].
Qed.
Lemma wp_recordFailure j err F Q : Stable F → given F (Q (Ok tt)) → given F (wp (Async.recordFailure (C:=C) (L:=L) j err) Q).
Proof.
  intros HF HQ tr Htr n Hn Hp. assert (Htr' : F (n_trace n)) by by eapply HF. destruct (queue_of n Hn) as (q & Hq & Hd & _).
  unfold Async.world, Async.traced. destruct (RelStore.recordFailure j err q) as [r q'] eqn:Em.
  destruct (on_queue_run _ (n_world n) q r q' Hq Em) as (w & Hrun & Hwq). rewrite Hrun. cbn [fst snd]. unfold recordFailure in Em.
  assert (Et : n_trace (Async.emit [] (Async.with_world w n)) = n_trace n) by (simpl; by rewrite app_nil_r).
  assert (Hi : r = Ok tt ∧ inv (Async.emit [] (Async.with_world w n))); [|destruct Hi as [-> Hi]; rewrite Et; split_and!; [done..|by apply HQ]].
  destruct (get j q) as [e|] eqn:Ee.
  - destruct (update_run q j (fail_entry err)) as (q2 & Hr2 & Hq2 & Hg). rewrite Hr2 in Em. injection Em as <- <-. split; [done|].
    eapply (inv_update n _ q q2 j (fail_entry err) []); [done|done|exact Hwq| |exact Hg|done|done| |by rewrite app_nil_r|done|].
    + rewrite Hq2. by apply durable_update.
    + rewrite app_nil_r. apply Hn.
    + intros x Hk Hx. by rewrite Et.
  - injection Em as <- <-. split; [done|]. eapply (inv_event n _ []); rewrite ?app_nil_r; [done|by rewrite Hq|done|exact Et|apply Hn|done].
Qed.

(** *** The chain *)
Lemma chain_queue {A} (m : M C A) (w : W) : w_queue (chain m w).2 = w_queue w.
Proof. unfold chain. by destruct (m (w_chain w)). Qed.
Lemma heard_ordered tr (l : list Event) : ordered tr → (∀ ev, ev ∈ l → match ev with Heard _ _ | Head _ => True | _ => False end) → (length l <= 1)%nat →
  ordered (tr ++ l) ∧ intents (tr ++ l) = intents tr.
Proof.
  intros Ho Hl Hone. destruct l as [|ev [|]]; [by rewrite app_nil_r| |simpl in Hone; lia].
  specialize (Hl ev ltac:(set_solver)). rewrite intents_snoc. by destruct ev; split; try done; constructor.
Qed.
Lemma wp_getJob j F Q : Stable F → (∀ job, given (λ tr, F tr ∧ Heard j job ∈ tr) (Q (Ok job))) → (∀ e, given F (Q (Err e))) →
  given F (wp (Async.getJob (D:=D) (L:=L) j) Q).
Proof.
  intros HF HQ HE. apply wp_traced; [done|apply chain_queue| |].
  - intros tr [job|e] _ Ho; (apply heard_ordered; [done|set_solver|simpl; lia]).
  - intros w. destruct (chain _ w).1 as [job|e]; [|intros tr [? _]; by apply HE]. intros tr [? Hev]. apply HQ. split; [done|]. apply Hev. set_solver.
Qed.
Lemma wp_getJob_or_null j F Q : Stable F → (∀ job, given (λ tr, F tr ∧ Heard j job ∈ tr) (Q (Ok job))) → given F (wp (Async.getJob_or_null (D:=D) (L:=L) j) Q).
Proof.
  intros HF HQ. apply wp_traced; [done| | |].
  - intros w. pose proof (chain_queue (RelEngine.getJob j) w) as Hw. unfold RelEngine.getJob_or_null, catch_null, try_catch. by destruct (chain _ w) as [[?|?] ?].
  - intros tr [job|e] _ Ho; (apply heard_ordered; [done|set_solver|simpl; lia]).
  - intros w. unfold RelEngine.getJob_or_null, catch_null, try_catch. destruct (chain _ w) as [[job|e] w']; intros tr [? Hev]; apply HQ; (split; [done|]; apply Hev; set_solver).
Qed.
Lemma wp_headroom deadline F Q : Stable F →
  (∀ b, given (λ tr, F tr ∧ (b = false → ∃ l, Head l ∈ tr ∧ deadline - l < deadlineMarginLedgers cfg)) (Q (Ok b))) →
  given F (wp (Async.hasDeadlineHeadroom (D:=D) (L:=L) cfg deadline) Q).
Proof.
  intros HF HQ. apply wp_catch, wp_bind, wp_traced; [done|apply chain_queue| |].
  - intros tr [l|e] _ Ho; (apply heard_ordered; [done|set_solver|simpl; lia]).
  - intros w. destruct (chain _ w).1 as [l|e]; intros tr [? Hev].
    + apply HQ. split; [done|]. intros Hb%Z.leb_gt. exists l. split; [apply Hev; set_solver|lia].
    + by apply HQ.
Qed.
Lemma wp_transact call m F Q : Stable F → (∀ tr, F tr → justified tr (Sent call)) → (∀ r, given (λ tr, F tr ∧ Answered call r ∈ tr) (Q r)) →
  given F (wp (Async.transact (D:=D) (L:=L) call m) Q).
Proof.
  intros HF Hj HQ. apply wp_bind, wp_traced; [done|done| |].
  - intros tr r Htr Ho. split; [constructor; [done|by apply Hj]|by rewrite intents_snoc].
  - intros w. cbn [fst send mret M_ret]. change (given (λ tr, F tr ∧ ∀ ev, ev ∈ [Sent call] → ev ∈ tr) (wp (act (Async.traced (λ r, [Answered call r]) (chain m))) Q)).
    apply wp_traced; [apply stable_and; [done|solve_stable]|apply chain_queue| |].
    + intros tr r [_ Hs] Ho. split; [constructor; [done|apply Hs; set_solver]|by rewrite intents_snoc].
    + intros w' tr [[? _] Hev]. apply HQ. split; [done|]. apply Hev. set_solver.
Qed.
End logic.

(** ** The handlers in the logic *)
Section programs.
Context {C D L : Type} `{RelayerChainAdapter C} `{SavingStore D AcceptedJobEntry} `{EntryStore L JobLedgerEntry}.
Context (cfg : RelayerEngineConfig).
Context (keccak_256 : list byte → list byte).
Context (addressXdr : string → res (list byte)) (symbolXdr : string → list byte).
Context (openBox : string → list byte → list byte → res (list byte)).
Context (json_of_bytes : list byte → res jval) (jitterMs : Z → Z).
Notation W := (World C D L).
Notation N := (Node C D L).
Notation T := (task (Node C D L)).
Notation wp := (wp (C:=C) (D:=D) (L:=L) cfg keccak_256 addressXdr symbolXdr).
Notation inv := (inv (C:=C) (D:=D) (L:=L) cfg keccak_256 addressXdr symbolXdr).

Lemma given_weaken (F F' P : list Event → Prop) : (∀ tr, F' tr → F tr) → given F P → given F' P.
Proof. intros HF HP tr Htr. by apply HP, HF. Qed.
Lemma given_and (F G P : list Event → Prop) : given F P → given (λ tr, F tr ∧ G tr) P.
Proof. apply given_weaken. by intros tr [? _]. Qed.
Lemma wp_ret {A} (a : A) F Q : given F (Q (Ok a)) → given F (wp (mret a) Q).
Proof. done. Qed.
Lemma wp_fail {A} e F (Q : res A → list Event → Prop) : given F (Q (Err e)) → given F (wp (fail e) Q).
Proof. done. Qed.
Lemma wp_done {A} (r : res A) F Q : given F (Q r) → given F (wp (Done r) Q).
Proof. done. Qed.
Lemma wp_stats f F Q : Stable F → given F (Q (Ok tt)) → given F (wp (Async.stats f) Q).
Proof. intros HF HQ tr Htr n Hn Hp. eapply (wp_world cfg keccak_256 addressXdr symbolXdr (on_stats f) F (λ _, Q (Ok tt))); eauto. Qed.
Lemma notify_queue j r (w : W) : w_queue (notifySettled cfg j r w).2 = w_queue w ∧ ∃ u, (notifySettled cfg j r w).1 = Ok u.
Proof. unfold notifySettled. destruct (ec_onSettled cfg) as [hook|]; [|eauto]. unfold mbind, M_bind, modify. by destruct (hook j r); eauto. Qed.

Lemma wp_submit_loop n attempt j p d last F Q : Stable F → (∀ tr, F tr → committed tr j p) →
  (∀ stx, given (λ tr, F tr ∧ landed tr j) (Q (Ok stx))) → (∀ e, given F (Q (Err e))) →
  given F (wp (Async.submit_loop cfg jitterMs n attempt j p d last) Q).
Proof.
  intros HF Hc HQ HE. revert attempt last. induction n as [|n IH]; intros attempt last; [by apply wp_fail|]. cbn [Async.submit_loop].
  assert (Herr : ∀ err, given F (wp (Async.recordFailure j (err_message err);;
     current ← Async.getJob_or_null j; if is_submitted current then mret ("on-chain:" +:+ j) else if maxAttempts (submitRetry cfg) <=? attempt then fail err
     else head ← Async.hasDeadlineHeadroom cfg d; if negb head then fail err
       else act (Async.world (sleep (baseDelayMs (submitRetry cfg) * 2 ^ (attempt - 1) + jitterMs attempt)));; Async.submit_loop cfg jitterMs n (attempt + 1) j p d err) Q)).
  { intros err. apply wp_bind, wp_recordFailure; [done|]. apply wp_bind, wp_getJob_or_null; [done|]. intros job. cbv beta iota.
    destruct (is_submitted job) eqn:Ej.
    { apply wp_ret. eapply given_weaken; [|apply HQ]. intros tr [? ?]. split; [done|]. right. eauto. }
    apply given_and. destruct (_ <=? _); [by apply wp_fail|]. apply wp_bind, wp_headroom; [done|]. intros b. apply given_and.
    destruct b; [|by apply wp_fail]. apply wp_bind, wp_world; [done|done|]. intros [u|e]; [apply IH|apply HE]. }
  apply wp_catch, wp_bind, wp_getJob; [done| |apply Herr]. intros job. cbv beta iota. destruct (is_submitted job) eqn:Ej.
  - apply wp_ret. eapply given_weaken; [|apply HQ]. intros tr [? ?]. split; [done|]. right. eauto.
  - apply given_and, wp_transact; [done|done|]. intros [tx|err]; cbv beta iota; [|apply given_and, Herr].
    eapply given_weaken; [|apply HQ]. intros tr [? ?]. split; [done|]. left. eauto.
Qed.

Lemma wp_accept j F Q : Stable F → (∀ tr, F tr → planned tr j) → (∀ tx, given (λ tr, F tr ∧ won cfg tr j tx) (Q (Ok tx))) → (∀ e, given F (Q (Err e))) →
  given F (wp (Async.accept_or_reconcile cfg j) Q).
Proof.
  intros HF Hpl HQ HE. apply wp_catch, wp_transact; [done|done|]. intros [tx|err]; cbv beta iota.
  - eapply given_weaken; [|apply HQ]. intros tr [? ?]. split; [done|]. by left.
  - apply given_and, wp_bind, wp_bind, wp_getJob_or_null; [done|]. intros job. apply wp_ret. cbv beta iota.
    destruct (accepted_by_us cfg job) eqn:Ej; [|apply given_and; by apply wp_fail]. destruct (String.eqb _ _); [apply given_and; by apply wp_fail|].
    apply wp_ret. eapply given_weaken; [|apply HQ]. intros tr [? ?]. split; [done|]. right. eauto.
Qed.

Lemma decode_wf b p : decodePoolWithdrawPayload json_of_bytes b = Ok p → wf_payload p.
Proof.
  intros Ed. unfold decodePoolWithdrawPayload in Ed. apply bind_ok in Ed as (v & _ & Hv). repeat case_match; try done.
  apply bind_ok in Hv as (s' & _ & Hs'). by eapply parse_wf.
Qed.
Abbreviation always := (λ _ : list Event, True).

Lemma wp_prepare msg Q : (∀ e, given always (Q (Err e))) → given always (Q (Ok None)) →
  (∀ p job atx, given (λ tr, committed tr (ep_jobId msg) p) (Q (Ok (Some (p, job, atx))))) →
  given always (wp (Async.prepare cfg keccak_256 addressXdr symbolXdr openBox json_of_bytes msg) Q).
Proof.
  intros HE HN HS. unfold Async.prepare. apply wp_bind, wp_done. destruct (hexToBytes _) as [aad|]; [|apply HE].
  apply wp_bind, wp_done. destruct (openBox _ _ _) as [plain|]; [|apply HE].
  apply wp_bind, wp_done. destruct (decodePoolWithdrawPayload _ _) as [p|] eqn:Ed; [|apply HE]. apply decode_wf in Ed.
  apply wp_bind, wp_getJob; [solve_stable| |apply HE]. intros [job|]; cbv beta iota; [|by apply given_and, wp_ret].
  destruct (negb _ || negb _) eqn:Eo; [by apply given_and, wp_ret|]. apply orb_false_elim in Eo as [Hex%negb_false_iff Hop%negb_false_iff%bool_decide_eq_true_1].
  apply wp_bind, wp_done. destruct (hashPoolWithdrawPayloadHex _ _ _ p) as [h|] eqn:Eh; [|apply given_and, HE]. cbv beta iota.
  destruct (negb _) eqn:Ehash; [apply given_and, wp_fail, HE|]. apply negb_false_iff, String.eqb_eq in Ehash.
  apply wp_bind, wp_headroom; [solve_stable|]. intros b. apply given_and. destruct b; cbv beta iota; cbn [negb].
  2: { apply wp_bind, wp_stats; [solve_stable|]. by apply given_and, wp_ret. }
  apply wp_bind, wp_world; [solve_stable|apply chain_queue|]. intros [u|e]; [|apply given_and, HE].
  apply wp_bind, wp_world; [solve_stable|done|]. intros [now|e]; [|apply given_and, HE].
  cbv beta iota. set (en := mkEntry _ _ _ _ _ _ _ _ _). apply wp_bind, wp_enqueue; [solve_stable| |done|].
  { intros tr [_ Hh]. exists job, p, h. split_and!; try done. by apply parse_serialize. }
  apply wp_bind. eapply given_weaken; [|apply (wp_accept _ (λ tr, Queued en ∈ tr)); [solve_stable|..]]; [by intros tr [_ ?]| | |].
  - intros tr Hq. eexists. split; [exact Hq|done].
  - intros atx. apply wp_bind, wp_markAccepted; [solve_stable|by intros tr [_ ?]| |].
    + apply wp_ret. eapply given_weaken; [|apply HS]. intros tr [[Hq _] Hm]. split; [eexists; split; [exact Hq|]; split; [done|by apply parse_serialize]|eauto].
    + intros e. eapply given_weaken; [|apply HE]. done.
  - intros e. eapply given_weaken; [|apply HE]. done.
Qed.

Lemma wp_deliver msg p job atx F Q : Stable F → (∀ tr, F tr → committed tr (ep_jobId msg) p) → (∀ r, given F (Q r)) →
  given F (wp (Async.deliver cfg jitterMs msg p job atx) Q).
Proof.
  intros HF Hc HQ. unfold Async.deliver. apply wp_bind, wp_stats; [done|]. apply wp_bind, wp_submit_loop; [done|done| |done]. intros stx.
  apply wp_bind, wp_stats; [solve_stable|]. apply wp_bind, wp_resolve; [solve_stable|intros tr [_ ?]; by left|]. apply given_and.
  apply wp_bind, wp_world; [done..|]. intros [now|e]; [|apply HQ]. apply wp_bind, wp_world; [done..|]. intros [u|e]; [|apply HQ].
  apply wp_bind, wp_world; [done|apply notify_queue|]. intros [u'|e]; [|apply HQ]. apply wp_bind.
  destruct (ep_idempotencyKey msg) as [key|]; [|apply wp_ret, wp_ret, HQ]. apply wp_world; [done..|]. intros [u''|e]; apply HQ.
Qed.
Lemma wp_notify j r F (Q : res unit → list Event → Prop) : Stable F → (∀ r, given F (Q r)) → given F (wp (Async.notifySettled cfg j r) Q).
Proof. intros HF HQ. apply wp_world; [done|apply notify_queue|done]. Qed.

Abbreviation anything := (λ _ _, True).
Lemma wp_processPayload msg : given always (wp (Async.processPayload cfg keccak_256 addressXdr symbolXdr openBox json_of_bytes jitterMs msg) anything).
Proof.
  apply wp_bind, wp_world; [solve_stable|done|]. intros [now|e]; [|done]. apply wp_bind, wp_world; [solve_stable|done|]. intros [u|e]; [|done].
  apply wp_ensure; [done|intros r; solve_stable|].
  apply wp_bind, wp_catch, wp_prepare; [intros err|by apply wp_ret|].
  - apply wp_bind, wp_stats; [solve_stable|]. by apply wp_fail.
  - intros p job atx. apply wp_catch, wp_bind, wp_deliver; [solve_stable|done|]. intros [r|err]; [by apply wp_ret|].
    apply wp_bind, wp_stats; [solve_stable|]. apply wp_bind, wp_notify; [solve_stable|]. intros [u'|e]; [|done]. by apply wp_fail.
Qed.

(** An action outside the queue and the trace. *)
Lemma wp_quiet {A} (m : M N A) F (Q : res A → list Event → Prop) : Stable F → idle (λ n, (m n).2) → (∀ r, given F (Q r)) → given F (wp (act m) Q).
Proof.
  intros HF Hm HQ tr Htr n Hn Hp. destruct (Hm n) as (_ & _ & Et). cbv beta in Et.
  split_and!; [by apply (inv_idle _ _ _ _ (λ n, (m n).2))|by rewrite Et|]. apply HQ. rewrite Et. by eapply HF.
Qed.
Lemma begin_idle raw : idle (λ n : N, (Async.begin_payload cfg raw n).2).
Proof.
  intros n. unfold Async.begin_payload, mbind, M_bind, Async.world, Async.traced.
  pose proof (keeps_startPayload (C:=C) (D:=D) (L:=L) cfg (λ oq _, oq = w_queue (n_world n)) raw (n_world n) eq_refl) as Hk.
  destruct (startPayload cfg raw (n_world n)) as [[st|e] w]; [|simpl; by rewrite app_nil_r].
  destruct st as [|r|msg]; [simpl; by rewrite app_nil_r..|]. destruct (ep_idempotencyKey msg) as [key|]; [|simpl; by rewrite app_nil_r].
  unfold gets. simpl. destruct (bool_decide _); simpl; by rewrite app_nil_r.
Qed.
Lemma wp_handlePayload raw : given always (wp (Async.handlePayload cfg keccak_256 addressXdr symbolXdr openBox json_of_bytes jitterMs raw) anything).
Proof.
  apply wp_bind, wp_quiet; [solve_stable|apply begin_idle|]. intros [[d|msg]|e]; [by apply wp_ret| |done].
  apply wp_bind, wp_ensure; [|intros [r|e]; cbn; solve_stable|].
  - intros n. unfold Async.unregister. by destruct (ep_idempotencyKey msg).
  - intros tr Htr. eapply wp_mono; [|by apply wp_processPayload]. by intros [r|e] tr' _.
Qed.

(** *** Recovery *)
Definition saved (e : AcceptedJobEntry) (tr : list Event) : Prop :=
  ∃ e0, Queued e0 ∈ tr ∧ job_key e0 = job_key e ∧ aj_payload e0 = aj_payload e ∧ aj_deadline e0 = aj_deadline e.
Definition marked (e : AcceptedJobEntry) (tr : list Event) : Prop := ∃ j tx, Marked j tx ∈ tr ∧ toLowerCase j = job_key e.
#[local] Instance stable_saved e : Stable (saved e).
Proof. unfold saved. solve_stable. Qed.
#[local] Instance stable_marked e : Stable (marked e).
Proof. unfold marked. solve_stable. Qed.

Lemma read_marked e gen n : inv n → known e (n_trace n) → needs_accept (Async.read_ref (Shared e gen) n) = false → marked e (n_trace n).
Proof.
  intros Hn He. assert (Hk : ∀ x, job_key x = job_key e → known x (n_trace n) → needs_accept x = false → marked e (n_trace n)).
  { intros x Hx [_ Hm] Hna. destruct (Hm Hna) as (j & tx & ? & Hj). exists j, tx. by rewrite Hj. }
  cbn [Async.read_ref]. destruct (Async.is_shared e gen n).
  - destruct (Async.queued (aj_jobId e) n) as [x|] eqn:E; simpl; [|by apply Hk]. apply Hk; [|by eapply inv_queued]. by eapply queued_key.
  - unfold Async.retired_entry. destruct (List.find _ _) as [[[key g] x]|] eqn:E; simpl; [|by apply Hk].
    apply find_some in E as [Hin%list_elem_of_In Hkey]. apply andb_prop in Hkey as [Hkey%String.eqb_eq _]. simpl in Hkey.
    apply (inv_retired _ _ _ _ _ Hn) in Hin as [Hj Hx]. apply Hk; [congruence|done].
Qed.

Lemma wp_record_resumed o stx F (Q : res unit → list Event → Prop) : Stable F → (∀ r, given F (Q r)) → given F (wp (Async.record_resumed (C:=C) (D:=D) (L:=L) o stx) Q).
Proof.
  intros HF HQ. apply wp_quiet; [done| |done]. intros n. unfold Async.world, Async.traced.
  pose proof (keeps_record_resumed (C:=C) (D:=D) (L:=L) (λ oq _, oq = w_queue (n_world n)) (Async.read_ref o n) stx (n_world n) eq_refl) as Hk.
  destruct (record_resumed _ stx (n_world n)) as [[u|e] w]; simpl; by rewrite app_nil_r.
Qed.
Lemma wp_resume_submit e o F Q : Stable F → (∀ tr, F tr → saved e tr ∧ marked e tr) → (∀ r, given F (Q r)) →
  given F (wp (Async.resume_submit cfg jitterMs e o) Q).
Proof.
  intros HF Hs HQ. apply wp_bind, wp_headroom; [done|]. intros b. cbv beta iota. destruct b; cbn [negb].
  2: { apply wp_bind, wp_resolve; [solve_stable| |apply wp_ret, given_and, HQ]. intros tr [Htr Hl]. destruct (Hl eq_refl) as (l & Hh & Hlt).
       destruct (Hs tr Htr) as [(e0 & Hq & Hk & _ & Hd) _]. right. right. exists e0, l. by rewrite Hd. }
  apply given_and, wp_catch, wp_bind, wp_done. assert (Herr : ∀ err, given F (wp (Async.stats (note_error (err_message err));; mret ResFailed) Q)).
  { intros err. apply wp_bind, wp_stats; [done|]. apply wp_ret, HQ. }
  destruct (parsePoolWithdrawPayload (aj_payload e)) as [p|] eqn:Ep; [|apply Herr].
  apply wp_bind, wp_submit_loop; [done| | |apply Herr].
  - intros tr Htr. destruct (Hs tr Htr) as [(e0 & Hq & Hk & Hp & _) Hm]. split; [|exact Hm]. exists e0. by rewrite Hp.
  - intros stx. apply wp_bind, wp_resolve; [solve_stable|intros tr [_ ?]; by left|]. apply given_and.
    apply wp_bind, wp_record_resumed; [done|]. intros [u|err]; [|apply Herr]. apply wp_bind, wp_stats; [done|].
    apply wp_bind, wp_notify; [done|]. intros [u'|err]; [|apply Herr]. apply wp_ret, HQ.
Qed.
Lemma wp_resume_one e gen F Q : Stable F → (∀ tr, F tr → known e tr) → (∀ r, given F (Q r)) → given F (wp (Async.resume_one cfg jitterMs e gen) Q).
Proof.
  intros HF Hk HQ. apply wp_bind, wp_getJob_or_null; [done|]. intros job. cbv beta iota. destruct (is_submitted job) eqn:Es.
  { apply wp_bind, wp_resolve; [solve_stable|intros tr [_ ?]; left; right; eauto|]. apply given_and. apply wp_bind, wp_record_resumed; [done|].
    intros [u|err]; [|apply HQ]. apply wp_bind, wp_notify; [done|]. intros [u'|err]; [|apply HQ]. apply wp_ret, HQ. }
  assert (Hsub : ∀ o, given (λ tr, F tr ∧ marked e tr) (wp (Async.resume_submit cfg jitterMs e o) Q)).
  { intros o. apply wp_resume_submit; [solve_stable| |intros r; apply given_and, HQ]. intros tr [Htr ?]. split; [apply (Hk tr Htr)|done]. }
  assert (Hmark : ∀ tx (k : res unit → list Event → Prop), (∀ err, given F (k (Err err))) → given (λ tr, F tr ∧ marked e tr) (k (Ok tt)) →
    given (λ tr, F tr ∧ won cfg tr (aj_jobId e) tx) (wp (Async.markAccepted (aj_jobId e) tx) k)).
  { intros tx k HkE HkO. apply wp_markAccepted; [solve_stable|by intros tr [_ ?]| |intros err; apply given_and, HkE].
    eapply given_weaken; [|exact HkO]. intros tr [[? _] ?]. split; [done|]. by eexists _, _. }
  apply wp_bind, wp_gets; [solve_stable|]. intros n Hn [Htr Hh]. cbv beta iota. destruct (needs_accept _) eqn:Ena.
  2: { apply Hsub. split; [done|]. eapply read_marked; [done|by apply Hk|done]. }
  revert Htr Hh. generalize (n_trace n). intros tr Htr Hh. destruct (accepted_by_us cfg job) eqn:Ea; [|destruct (is_open job) eqn:Eo].
  - apply (wp_bind _ _ _ _ _ _ _ (λ tr, F tr ∧ won cfg tr (aj_jobId e) ("on-chain-accept:" +:+ aj_jobId e))); [|split; [done|right; eauto]].
    apply Hmark; [intros err; apply HQ|]. apply wp_bind, wp_gets; [solve_stable|]. intros n' _ Htr'. by apply Hsub.
  - apply (wp_bind _ _ _ _ _ _ _ F); [|done]. apply wp_catch, wp_bind, wp_transact; [done| |].
    + intros tr' Htr'. destruct (proj1 (Hk tr' Htr')) as (e0 & ? & ? & _). by exists e0.
    + intros [tx|err]; cbv beta iota.
      * apply (given_weaken (λ tr, F tr ∧ won cfg tr (aj_jobId e) tx)); [intros tr' [? ?]; split; [done|by left]|]. apply wp_bind, Hmark.
        -- intros err. apply wp_bind, wp_recordFailure; [done|]. apply wp_ret, wp_ret, HQ.
        -- apply wp_ret. apply wp_bind, wp_gets; [solve_stable|]. intros n' _ Htr'. by apply Hsub.
      * apply given_and, wp_bind, wp_recordFailure; [done|]. apply wp_ret, wp_ret, HQ.
  - apply (wp_bind _ _ _ _ _ _ _ (λ tr, F tr ∧ Heard (aj_jobId e) job ∈ tr)); [|done].
    apply wp_resolve; [solve_stable|intros tr' [_ ?]; right; left; by exists job|]. apply given_and, wp_ret, HQ.
Qed.

Lemma wp_resume_all l F Q : Stable F → (∀ tr e gen, F tr → (e, gen) ∈ l → known e tr) → (∀ r, given F (Q r)) →
  given F (wp (Async.resume_all cfg jitterMs l) Q).
Proof.
  intros HF. revert Q. induction l as [|[e gen] l IH]; intros Q Hk HQ; [apply wp_ret, HQ|]. cbn [Async.resume_all].
  apply wp_bind, wp_resume_one; [done|intros tr Htr; apply (Hk tr e gen Htr); by left|]. intros [o|err]; [|apply HQ].
  apply wp_bind, IH; [intros tr e' g' Htr Hin; apply (Hk tr e' g' Htr); by right|]. intros [rest|err]; [apply wp_ret|]; apply HQ.
Qed.
(** The runtime loads the queue before anything runs. *)
Lemma wp_hydrate F (Q : res unit → list Event → Prop) : Stable F → given F (Q (Ok tt)) → given F (wp (act (Async.world (on_queue hydrate))) Q).
Proof.
  intros HF HQ tr Htr n Hn Hp. destruct (queue_of _ _ _ _ n Hn) as (q & Hq & (q0 & d & [= <-] & (_ & Hl) & _) & _).
  unfold Async.world, Async.traced, on_queue, hydrate. rewrite Hq, Hl. simpl. rewrite app_nil_r. split_and!; [|done|apply HQ; by eapply HF].
  eapply (inv_event _ _ _ _ n _ []); rewrite ?app_nil_r; [done|simpl; by rewrite Hq|done|simpl; by rewrite app_nil_r|apply Hn|done].
Qed.
Lemma pending_known n : inv n → ∀ e gen, (e, gen) ∈ Async.pending_refs n → known e (n_trace n).
Proof.
  intros Hn e gen. destruct (queue_of _ _ _ _ n Hn) as (q & Hq & (q0 & d & [= <-] & _ & [Hwf _] & _) & Hg). unfold Async.pending_refs. rewrite Hq.
  intros (x & [= -> _] & Hx)%list_elem_of_fmap. apply (inv_queued _ _ _ _ n Hn (aj_jobId x)). rewrite Hg. by apply pending_elem.
Qed.
Lemma wp_watched_resume : given always (wp (Async.watched_resume cfg jitterMs) anything).
Proof.
  apply wp_ensure; [done|intros r; solve_stable|]. apply wp_catch.
  assert (Herr : ∀ err, given always (wp (Async.stats (note_error (err_message err));; mret []) (anything : res (list (string * ResumeOutcome)) → list Event → Prop))).
  { intros err. apply wp_bind, wp_stats; [solve_stable|]. by apply wp_ret. }
  apply wp_bind, wp_gets; [solve_stable|]. intros n _ _. generalize (n_trace n). cbv beta iota. destruct (w_queue (n_world n)); intros tr; [|done].
  revert tr. enough (given always (wp (act (Async.world (on_queue hydrate));; todo ← act (gets Async.pending_refs); Async.resume_all cfg jitterMs todo)
    (λ r tr, match r with Ok _ => True | Err e => wp (Async.stats (note_error (err_message e));; mret []) anything tr end))) as Hg by (intros tr; by apply Hg).
  apply wp_bind, wp_hydrate; [solve_stable|]. apply wp_bind, wp_gets; [solve_stable|]. intros n' Hn' _. cbv beta iota.
  apply (wp_resume_all _ (λ tr, ∀ x, x ∈ Async.pending_refs n' → known x.1 tr)); [|by intros tr e gen Hk Hin; apply (Hk (e, gen))| |].
  - intros t1 t2 Hp Hk x Hx. eapply stable_known; [exact Hp|by apply Hk].
  - intros [r|err]; [done|]. intros tr _. by apply Herr.
  - intros [e gen] Hx. by eapply pending_known.
Qed.

(** ** Every run *)
Abbreviation run := (Async.run cfg keccak_256 addressXdr symbolXdr openBox json_of_bytes jitterMs).
Abbreviation step := (Async.step cfg keccak_256 addressXdr symbolXdr openBox json_of_bytes jitterMs).
Definition pool_inv (p : Async.Pool (C:=C) (D:=D) (L:=L)) : Prop :=
  inv (Async.p_node p) ∧ Forall (λ t, wp t anything (n_trace (Async.p_node p))) (Async.p_tasks p).

Lemma wp_discard {A} (t : T A) tr : wp t anything tr → wp (Async.discard t) anything tr.
Proof. intros Ht. apply (wp_bind _ _ _ _ t _ _ (λ tr', tr' = tr)); [|done]. intros tr' ->. eapply wp_mono; [|exact Ht]. by intros [a|e] tr' _. Qed.
Lemma pool_grows (n n' : N) ts : n_trace n `prefix_of` n_trace n' → Forall (λ t : T unit, wp t anything (n_trace n)) ts → Forall (λ t : T unit, wp t anything (n_trace n')) ts.
Proof. intros Hp Ht. eapply Forall_impl; [exact Ht|]. intros t. by apply wp_grows. Qed.
Lemma restart_inv (n : N) e l c now s g : inv n →
  inv (mkNode (mkWorld e ((λ q, (hydrate (restarted q)).2) <$> w_queue (n_world n)) l c now s g) [] [] [] false (n_trace n ++ [Restarted])).
Proof.
  intros Hn. destruct (queue_of _ _ _ _ n Hn) as (q & Hq & Hd & Hg). pose proof Hd as (q0 & d & [= <-] & (Hst & _) & Hs & _).
  destruct (restart_synced q d Hs Hst) as (q2 & Hrun & _ & _ & _ & Hg2). rewrite Hq. simpl. rewrite Hrun. simpl.
  assert (Hp : n_trace n `prefix_of` n_trace n ++ [Restarted]) by by apply prefix_app_r.
  split; simpl.
  - pose proof (restart_durable q Hd) as Hd2. by rewrite Hrun in Hd2.
  - intros j. unfold Async.queued. simpl. rewrite intents_snoc. simpl. by rewrite Hg2, <-Hg, (inv_intents _ _ _ _ n Hn).
  - intros j x. unfold Async.queued. simpl. rewrite Hg2, <-Hg. intros Hx. eapply stable_known; [done|]. by apply (inv_queued _ _ _ _ n Hn j).
  - by intros key gen x ?%elem_of_nil.
  - constructor; [apply Hn|done].
Qed.
Lemma step_inv p x : pool_inv p → pool_inv (step p x).
Proof.
  intros [Hn Ht]. destruct x as [raw| |i|fe fl fc now|]; cbn [Async.step].
  - split; [done|]. cbn [Async.p_tasks Async.p_node]. apply Forall_app. split; [done|]. constructor; [|constructor]. by apply wp_discard, wp_handlePayload.
  - destruct (n_resuming _); [done|]. split; [by apply (inv_idle _ _ _ _ (Async.set_resuming true))|]. cbn [Async.p_tasks Async.p_node Async.set_resuming n_trace].
    apply Forall_app. split; [done|]. constructor; [|constructor]. by apply wp_discard, wp_watched_resume.
  - destruct (Async.p_tasks p !! i) as [t|] eqn:Ei; [|done]. destruct t as [r|X m k]; cbn [next].
    { split; [done|]. cbn [Async.p_tasks Async.p_node]. by rewrite list_insert_id. }
    pose proof (Forall_lookup_1 _ _ _ _ Ht Ei _ Hn ltac:(done)) as (Hn' & Hp & Hk). destruct (m (Async.p_node p)) as [r n']. cbn [fst snd] in *.
    split; [done|]. cbn [Async.p_tasks Async.p_node]. apply Forall_insert; [by eapply pool_grows|done].
  - split; [|done]. eapply (inv_event _ _ _ _ _ _ []); rewrite ?app_nil_r; [done..|apply Hn|done].
  - split; [by apply restart_inv|constructor].
Qed.
Lemma pool_run_inv xs p : pool_inv p → pool_inv (run xs p).
Proof. revert p. induction xs as [|x xs IH]; intros p Hp; [done|]. by apply IH, step_inv. Qed.

Lemma intent_kept tr e : Queued e ∈ tr → JMap.get (job_key e) (intents tr) = None → ∃ j, Resolved j ∈ tr ∧ toLowerCase j = job_key e.
Proof.
  induction tr as [|ev tr IH] using rev_ind; [by intros ?%elem_of_nil|]. rewrite intents_snoc, elem_of_app, list_elem_of_singleton. intros Hin Hg.
  destruct ev as [x|j tx|j|call|call r|j job|l|]; simpl in Hg;
    try (destruct Hin as [Hin|[=]]; destruct (IH Hin Hg) as (j' & ? & ?); exists j'; set_solver).
  - destruct (decide (job_key e = job_key x)) as [Hk|Hk]; [by rewrite Hk, JMap.get_set_eq in Hg|]. rewrite JMap.get_set_ne in Hg by done.
    destruct Hin as [Hin|[= <-]]; [|done]. destruct (IH Hin Hg) as (j' & ? & ?). exists j'. set_solver.
  - destruct Hin as [Hin|[=]]. destruct (decide (job_key e = toLowerCase j)) as [Hk|Hk]; [exists j; set_solver|]. rewrite JMap.get_del_ne in Hg by done.
    destruct (IH Hin Hg) as (j' & ? & ?). exists j'. set_solver.
Qed.
Definition job_of (call : ChainCall) : string := match call with CallAccept j | CallSubmit j _ => j end.

(** C7 (safety): deliveries, recovery passes, the chain and crashes interleave in any way at
    the awaits.  In every run each thing the node did was prepared: an intent is saved only for
    a job the chain showed open with the hash of the payload; [accept_job] is sent only after
    the job's intent was saved; a job is recorded as accepted only after the chain said so;
    [submit_pool_withdraw] is sent only after an intent with that very payload was saved and
    the job recorded as accepted; and an intent is removed only after the submission was seen
    to land, or the chain did not show the job as open or ours, or the deadline was too near.
    What a process that starts now finds on disk are exactly the payloads saved and not
    removed since, all of which can be submitted: every transaction ever sent is for such a
    job, or for one whose intent was removed. *)
Theorem interleaved_work_is_prepared xs (w : W) (Hd : durable (w_queue w)) (Hempty : ∀ j q, w_queue w = Some q → get j q = None) :
  let n := Async.p_node (run xs (Async.boot w)) in
  (∀ t1 ev t2, n_trace n = t1 ++ ev :: t2 → justified cfg keccak_256 addressXdr symbolXdr t1 ev) ∧
  ∃ q q2, w_queue (n_world n) = Some q ∧ hydrate (restarted q) = (Ok tt, q2) ∧
    (∀ j, aj_payload <$> get j q2 = JMap.get (toLowerCase j) (intents (n_trace n))) ∧ (∀ j e, get j q2 = Some e → entry_ok e) ∧
    (∀ call, Sent call ∈ n_trace n →
       (∃ e, get (job_of call) q2 = Some e) ∨ ∃ j, Resolved j ∈ n_trace n ∧ toLowerCase j = toLowerCase (job_of call)).
Proof.
  intros n. assert (Hn : inv n).
  { apply pool_run_inv. split; [|constructor]. split; simpl; [done| | |by intros key gen e ?%elem_of_nil|constructor].
    - intros j. unfold Async.queued. simpl. destruct (w_queue w) as [q|]; [|done]. by rewrite (Hempty j q).
    - intros j e. unfold Async.queued. simpl. destruct (w_queue w) as [q|]; [|done]. by rewrite (Hempty j q). }
  split; [intros t1 ev t2; apply ordered_split, Hn|].
  destruct (queue_of _ _ _ _ n Hn) as (q & Hq & (q0 & d & [= <-] & (Hst & _) & Hs & Hok) & Hg).
  destruct (restart_synced q d Hs Hst) as (q2 & Hrun & _ & _ & _ & Hg2). exists q, q2. split_and!; [done..| | |].
  - intros j. by rewrite Hg2, <-Hg, (inv_intents _ _ _ _ n Hn).
  - intros j e. rewrite Hg2. apply Hok.
  - intros call Hin. apply list_elem_of_split in Hin as (t1 & t2 & Et). pose proof (ordered_split _ _ _ _ _ _ _ _ (inv_ordered _ _ _ _ n Hn) Et) as Hj.
    assert (∃ e, Queued e ∈ t1 ∧ job_key e = toLowerCase (job_of call)) as (e & He & Hk).
    { destruct call as [j|j p]; [exact Hj|]. destruct Hj as [(e & ? & ? & _) _]. eauto. }
    rewrite Hg2, <-Hg. destruct (Async.queued (job_of call) n) as [x|] eqn:Ex; [eauto|]. right. rewrite <-Hk. apply intent_kept.
    + rewrite Et. set_solver.
    + by rewrite Hk, <-(inv_intents _ _ _ _ n Hn), Ex.
Qed.

(** A delivery that nothing interrupts is the handler of [RelEngine]. *)
Definition sims {A} (t : T A) (m : M W A) : Prop := ∀ n, let '(r, n') := alone t n in m (n_world n) = (r, n_world n').
Lemma alone_bind {A B} (t : T A) (f : A → T B) (n : N) :
  alone (t ≫= f) n = match alone t n with (Ok a, n') => alone (f a) n' | (Err e, n') => (Err e, n') end.
Proof. revert n. induction t as [[a|e]|X m k IH]; intros n; [done..|]. cbn. destruct (m n) as [r n']. apply IH. Qed.
Lemma alone_catch {A} (t : T A) h (n : N) :
  alone (catch t h) n = match alone t n with (Ok a, n') => (Ok a, n') | (Err e, n') => alone (h e) n' end.
Proof. revert n. induction t as [[a|e]|X m k IH]; intros n; [done..|]. cbn. destruct (m n) as [r n']. apply IH. Qed.
Lemma alone_ensure {A} (t : T A) f (n : N) : alone (ensure t f) n = let '(r, n') := alone t n in (r, f n').
Proof. revert n. induction t as [r|X m k IH]; intros n; [done|]. cbn. destruct (m n) as [r n']. apply IH. Qed.
Lemma sims_bind {A B} (t : T A) (f : A → T B) m g : sims t m → (∀ a, sims (f a) (g a)) → sims (t ≫= f) (m ≫= g).
Proof. intros Ht Hf n. rewrite alone_bind. specialize (Ht n). unfold mbind at 1, M_bind. destruct (alone t n) as [[a|e] n']; rewrite Ht; [apply Hf|done]. Qed.
Lemma sims_catch {A} (t : T A) h m g : sims t m → (∀ e, sims (h e) (g e)) → sims (catch t h) (try_catch m g).
Proof. intros Ht Hf n. rewrite alone_catch. specialize (Ht n). unfold try_catch. destruct (alone t n) as [[a|e] n']; rewrite Ht; [done|apply Hf]. Qed.
Lemma sims_ensure {A} (t : T A) f m g : sims t m → (∀ n, n_world (f n) = g (n_world n)) → sims (ensure t f) (finally m g).
Proof. intros Ht Hf n. rewrite alone_ensure. specialize (Ht n). unfold finally. destruct (alone t n) as [r n']; rewrite Ht. by rewrite Hf. Qed.
Lemma sims_traced {A} f (m : M W A) : sims (act (Async.traced f m)) m.
Proof. intros n. cbn. unfold Async.traced. by destruct (m (n_world n)). Qed.
Lemma sims_done {A} (r : res A) : sims (Done r) (lift_res r).
Proof. by intros n. Qed.
Lemma sims_fail {A} e : sims (fail e) (throw (A:=A) e).
Proof. by intros n. Qed.
Lemma sims_ret {A} (a : A) : sims (mret a) (mret a).
Proof. by intros n. Qed.
Lemma sims_retired {A} j f (m : M W A) : sims (act (λ n, Async.traced f m (Async.retire j n))) m.
Proof. intros n. cbn. unfold Async.traced. by destruct (m _). Qed.
Lemma sims_transact call m : sims (Async.transact call m) (send call m).
Proof. intros n. cbn. unfold Async.traced, send, chain. cbn. by destruct (m _). Qed.
Lemma sims_ext {A} (t : T A) m m' : sims t m → (∀ w, m' w = m w) → sims t m'.
Proof. intros Ht Hm n. rewrite Hm. apply Ht. Qed.
Create HintDb sims.
#[local] Hint Resolve sims_traced sims_done sims_fail sims_ret sims_retired sims_transact : sims.
Ltac sims_step :=
  match goal with
  | |- sims (mbind _ _) _ => apply sims_bind
  | |- sims (catch _ _) _ => apply sims_catch
  | |- sims (ensure _ _) _ => apply sims_ensure
  | |- ∀ _, sims _ _ => intros ?
  | |- sims (match ?x with _ => _ end) _ => destruct x
  | |- sims _ _ => solve [eauto with sims]
  end.
Ltac sims_auto := repeat sims_step.

Lemma sims_headroom d : sims (Async.hasDeadlineHeadroom cfg d) (hasDeadlineHeadroom cfg d).
Proof. unfold Async.hasDeadlineHeadroom, hasDeadlineHeadroom. sims_auto. Qed.
Lemma sims_reconcile j : sims (Async.reconcileAcceptance cfg j) (reconcileAcceptance cfg j).
Proof.
  apply (sims_ext _ (current ← RelEngine.getJob_or_null j; mret (if accepted_by_us cfg current then Some ("on-chain-accept:" +:+ j) else None))).
  - unfold Async.reconcileAcceptance. sims_auto.
  - intros w. unfold reconcileAcceptance, mbind, M_bind. destruct (RelEngine.getJob_or_null j w) as [[[job|]|e] w']; [|done..]. unfold accepted_by_us.
    destruct (bool_decide _); [|done]. simpl. destruct (oj_acceptedRelayer job) as [r|]; [|done]. by destruct (String.eqb r ""), (String.eqb r _).
Qed.
#[local] Hint Resolve sims_headroom sims_reconcile : sims.
Lemma sims_submit_loop n attempt j p d last : sims (Async.submit_loop cfg jitterMs n attempt j p d last) (submit_loop cfg jitterMs n attempt j p d last).
Proof. revert attempt last. induction n as [|n IH]; intros attempt last; cbn [Async.submit_loop submit_loop]; sims_auto. Qed.
Lemma sims_accept j : sims (Async.accept_or_reconcile cfg j) (accept_or_reconcile cfg j).
Proof. unfold Async.accept_or_reconcile, accept_or_reconcile. sims_auto. Qed.
#[local] Hint Resolve sims_submit_loop sims_accept : sims.
Lemma sims_prepare msg : sims (Async.prepare cfg keccak_256 addressXdr symbolXdr openBox json_of_bytes msg)
  (prepare cfg keccak_256 addressXdr symbolXdr openBox json_of_bytes msg).
Proof. unfold Async.prepare, prepare. sims_auto. Qed.
Lemma sims_deliver msg p job atx : sims (Async.deliver cfg jitterMs msg p job atx) (deliver cfg jitterMs msg p job atx).
Proof. unfold Async.deliver, deliver. sims_auto. Qed.
#[local] Hint Resolve sims_prepare sims_deliver : sims.
(** So a delivery that no other task interrupts is [RelEngine.processPayload]. *)
Lemma sims_processPayload msg : sims (Async.processPayload cfg keccak_256 addressXdr symbolXdr openBox json_of_bytes jitterMs msg)
  (processPayload cfg keccak_256 addressXdr symbolXdr openBox json_of_bytes jitterMs msg).
Proof. unfold Async.processPayload, processPayload. sims_auto. by intros n. Qed.
(** With no delivery of the same key in flight, a message handled alone is
    [RelEngine.handlePayload]. *)
Lemma alone_handlePayload raw (n : N) : n_pending n = [] →
  ∃ r n', alone (Async.handlePayload cfg keccak_256 addressXdr symbolXdr openBox json_of_bytes jitterMs raw) n = ((r : res _) ≫= λ x, Ok (Async.Own x), n') ∧
    handlePayload cfg keccak_256 addressXdr symbolXdr openBox json_of_bytes jitterMs raw (n_world n) = (r, n_world n').
Proof.
  intros Hp. change (handlePayload cfg keccak_256 addressXdr symbolXdr openBox json_of_bytes jitterMs raw (n_world n)) with
    (match startPayload cfg raw (n_world n) with
     | (Ok st, w) => (match st with Ignored => mret None | Cached r => mret (Some r)
                      | Process msg => processPayload cfg keccak_256 addressXdr symbolXdr openBox json_of_bytes jitterMs msg end) w
     | (Err e, w) => (Err e, w)
     end).
  unfold Async.handlePayload. rewrite alone_bind. cbn [alone act]. unfold Async.begin_payload, mbind at 1, M_bind, Async.world, Async.traced.
  destruct (startPayload cfg raw (n_world n)) as [[st|e] w]; [|exists (Err e); by eexists].
  destruct st as [|x|msg]; [exists (Ok None); by eexists|exists (Ok (Some x)); by eexists|].
  assert (Hgo : ∀ key n1, n_world n1 = w → ∃ r n', alone (r ← ensure (Async.processPayload cfg keccak_256 addressXdr symbolXdr openBox json_of_bytes jitterMs msg)
      (Async.unregister key); mret (Async.Own r)) n1 = ((r : res _) ≫= λ x, Ok (Async.Own x), n') ∧
    processPayload cfg keccak_256 addressXdr symbolXdr openBox json_of_bytes jitterMs msg w = (r, n_world n')).
  { intros key n1 <-. rewrite alone_bind, alone_ensure. pose proof (sims_processPayload msg n1) as Hs.
    destruct (alone _ n1) as [r n2]. rewrite Hs. exists r, (Async.unregister key n2). split; [by destruct r|].
    unfold Async.unregister. by destruct key. }
  destruct (ep_idempotencyKey msg) as [key|] eqn:Ek; [|exact (Hgo (ep_idempotencyKey msg) (Async.emit [] (Async.with_world w n)) eq_refl)]. unfold gets, mbind, M_bind, modify. cbn [n_pending Async.emit Async.with_world]. rewrite Hp, bool_decide_eq_false_2 by set_solver.
  exact (Hgo (ep_idempotencyKey msg) (mkNode w (n_gens n) (n_retired n) (key :: n_pending n) (n_resuming n) (n_trace n ++ [])) eq_refl).
Qed.
End programs.

(** ** Runs of the toy node *)
Abbreviation toy_choice := (Async.Choice (C:=ToyRelay.t) (L:=toy_ledger_store)).
Abbreviation toy_run xs :=
  (Async.run (D:=toy_store) (L:=toy_ledger_store) toy_config ToyRelay.short_hash toy_address utf8 toy_open toy_parse (λ _, 0) xs (Async.boot (toy_world toy_store (Some []) false false []))).
Definition tag (ev : Event) : string :=
  match ev with
  | Queued _ => "queued" | Marked _ _ => "marked" | Resolved _ => "resolved" | Sent (CallAccept _) => "accept" | Sent (CallSubmit _ _) => "submit"
  | Answered _ _ => "answered" | Heard _ None => "unheard" | Heard _ _ => "heard" | Head _ => "head" | Restarted => "restarted"
  end.
(** A delivery whose [getJob] before the submission is answered late: meanwhile a recovery pass
    takes the same job through.  Then a crash. *)
Definition overtaken : list toy_choice :=
  [Async.Payload toy_message] ++ replicate 13 (Async.Run 0) ++ [Async.Watch] ++ replicate 40 (Async.Run 1) ++ [Async.Run 0] ++ [Async.Crash].
(** The RPC endpoint is down for the recovery pass that runs while [accept_job] is under way. *)
Definition dropped : list toy_choice :=
  [Async.Payload toy_message] ++ replicate 9 (Async.Run 0) ++
  [Async.Outside id id (λ c, ToyRelay.mk (ToyRelay.status c) true (ToyRelay.refuse c)) 2000; Async.Watch] ++ replicate 20 (Async.Run 1) ++
  [Async.Outside id id (λ c, ToyRelay.mk (ToyRelay.status c) false (ToyRelay.refuse c)) 3000] ++ replicate 20 (Async.Run 0).

Lemma interleaved_work_is_prepared_witness :
  let n := Async.p_node (toy_run overtaken) in
  tag <$> n_trace n = ["heard"; "head"; "queued"; "accept"; "answered"; "marked"; "heard"; "heard"; "head"; "heard"; "submit"; "answered"; "resolved"; "submit"; "restarted"] ∧
  (∀ t1 ev t2, n_trace n = t1 ++ ev :: t2 → justified toy_config ToyRelay.short_hash toy_address utf8 t1 ev).
Proof.
  split; [vm_compute; reflexivity|].
  exact (proj1 (interleaved_work_is_prepared toy_config ToyRelay.short_hash toy_address utf8 toy_open toy_parse (λ _, 0) overtaken
    (toy_world toy_store (Some []) false false []) (toy_durable false false) (λ j q E, match E with eq_refl => eq_refl end))).
Defined.

(** The watch does not exclude the delivery of the same job.  A recovery pass whose read of the
    chain fails removes the intent of a job whose acceptance is under way; the acceptance
    lands, recording it throws, and the job is bonded to the operator with nothing queued,
    nothing on disk and no task left to submit it. *)
Lemma bonded_job_leaves_queue :
  let p := toy_run dropped in
  tag <$> n_trace (Async.p_node p) = ["heard"; "head"; "queued"; "accept"; "unheard"; "resolved"; "answered"] ∧
  ToyRelay.status (w_chain (n_world (Async.p_node p))) = js_accepted ∧ intents (n_trace (Async.p_node p)) = [] ∧
  Forall (λ t, match t with Done _ => True | Act _ _ => False end) (Async.p_tasks p).
Proof. vm_compute. repeat (split || constructor). Qed.

(** A delivery overtaken by a recovery pass submits a job again after its intent was removed. *)
Lemma submitted_after_removal :
  ∃ t1 j p, n_trace (Async.p_node (toy_run overtaken)) = t1 ++ [Sent (CallSubmit j p); Restarted] ∧ intents t1 = [] ∧ Resolved j ∈ t1.
Proof.
  eexists (take 13 (n_trace (Async.p_node (toy_run overtaken)))), _, _. split; [vm_compute; reflexivity|]. split; [vm_compute; reflexivity|].
  vm_compute. do 12 apply list_elem_of_further. apply list_elem_of_here.
Qed.
