(* ===== verification/RelReconciler.v ===== *)
(** * Relayer: payout reconciliation

    [PayoutReconciler] of [relayer/src/reconciler.ts]: compare the jobs this
    node recorded as submitted with what the chain says about them. *)
From Stdlib Require Import Ascii.
From stdpp Require Import base tactics list sets strings.
From Stdlib Require Import ZArith Lia.
From S2P Require Import Prelude JsString JsMap Bytes Json RelPayload RelMessages RelStore RelEngine.
Open Scope string_scope.
Open Scope list_scope.
Open Scope Z_scope.

Inductive ReconOutcome : Type := clean | discrepancy | not_found.
Global Instance ReconOutcome_eq_dec : EqDecision ReconOutcome.
Proof. solve_decision. Defined.

Record JobReconciliationResult : Type := mkRecon {
  jr_jobId : string;
  jr_outcome : ReconOutcome;
  jr_expectedFee : string;
  jr_onChainFee : option string;
  jr_onChainStatus : option string;
  jr_submittedTx : string;
  jr_detail : string;
}.

Record ReconciliationReport : Type := mkReport {
  rr_runAt : Z;
  rr_coveredRange : option (Z * Z);
  rr_totalChecked : Z;
  rr_cleanCount : Z;
  rr_discrepancyCount : Z;
  rr_notFoundCount : Z;
  rr_allClean : bool;                        (** [summary === "clean"] *)
  rr_discrepancies : list JobReconciliationResult;
}.

Definition status_name (s : JobStatus) : string :=
  match s with
  | js_open => "open"
  | js_accepted => "accepted"
  | js_submitted => "submitted"
  | js_slashed => "slashed"
  | js_canceled => "canceled"
  end.

Record Reconciler (C L : Type) : Type := mkReconciler {
  rc_chain : C;
  rc_ledger : JobLedger L;
  rc_lastReport : option ReconciliationReport;
  rc_runCount : Z;
}.
Arguments mkReconciler {C L}.
Arguments rc_chain {C L}.
Arguments rc_ledger {C L}.
Arguments rc_lastReport {C L}.
Arguments rc_runCount {C L}.

(** The verdict on one ledger entry, given the answer of [getJob]. *)
Definition judge (entry : JobLedgerEntry) (answer : res (option OnChainJob)) : JobReconciliationResult :=
  let expected := bigint_toString 10 (le_expectedFee entry) in
  match answer with
  | Err e =>
      mkRecon (le_jobId entry) discrepancy expected None (Some "unknown") (le_submittedTx entry)
        ("RPC error during lookup: " +:+ err_message e)
  | Ok None =>
      mkRecon (le_jobId entry) not_found expected None None (le_submittedTx entry)
        "Job not found on-chain. Possible chain reorganisation or wrong contract address."
  | Ok (Some job) =>
      if negb (oj_exists job) then
        mkRecon (le_jobId entry) not_found expected None None (le_submittedTx entry)
          "Job not found on-chain. Possible chain reorganisation or wrong contract address."
      else
        let feeMatches := oj_fee job =? le_expectedFee entry in
        let statusOk := bool_decide (oj_status job = js_submitted) in
        let fee := Some (bigint_toString 10 (oj_fee job)) in
        let st := Some (status_name (oj_status job)) in
        if feeMatches && statusOk
        then mkRecon (le_jobId entry) clean expected fee st (le_submittedTx entry) "OK"
        else
          let reasons :=
            (if feeMatches then []
             else ["fee mismatch: expected " +:+ expected +:+ ", on-chain "
                   +:+ bigint_toString 10 (oj_fee job)])
            ++ (if statusOk then []
                else ["unexpected status: " +:+ status_name (oj_status job)
                      +:+ " (expected submitted)"]) in
          mkRecon (le_jobId entry) discrepancy expected fee st (le_submittedTx entry)
            (join "; " reasons)
  end.

Section reconcile.
Context {C L : Type} `{RelayerChainAdapter C} `{EntryStore L JobLedgerEntry}.

(** The loop over the ledger, with the answers the chain gives one after the
    other. *)
Fixpoint check_entries (entries : list JobLedgerEntry) (c : C)
    : list (JobLedgerEntry * res (option OnChainJob)) * C :=
  match entries with
  | [] => ([], c)
  | e :: rest =>
      let '(answer, c1) := getJob (le_jobId e) c in
      let '(l, c2) := check_entries rest c1 in
      ((e, answer) :: l, c2)
  end.

Definition is_outcome (o : ReconOutcome) (r : JobReconciliationResult) : bool :=
  bool_decide (jr_outcome r = o).

Definition count (o : ReconOutcome) (l : list JobReconciliationResult) : Z :=
  Z.of_nat (length (List.filter (is_outcome o) l)).

Definition covered (entries : list JobLedgerEntry) : option (Z * Z) :=
  match le_submittedAt <$> entries with
  | [] => None
  | t :: ts => Some (foldl Z.min t ts, foldl Z.max t ts)
  end.

Definition report_of (runAt : Z) (entries : list JobLedgerEntry)
    (results : list JobReconciliationResult) : ReconciliationReport :=
  let discrepancies := List.filter (λ r, negb (is_outcome clean r)) results in
  mkReport runAt (covered entries) (Z.of_nat (length entries)) (count clean results)
    (count discrepancy results) (count not_found results)
    (match discrepancies with [] => true | _ => false end) discrepancies.

Definition reconcile (now : Z) (r : Reconciler C L) : ReconciliationReport * Reconciler C L :=
  let entries := all (rc_ledger r) in
  let '(answers, c) := check_entries entries (rc_chain r) in
  let results := (λ p, judge p.1 p.2) <$> answers in
  let report := report_of now entries results in
  (report, mkReconciler c (rc_ledger r) (Some report) (rc_runCount r + 1)).

(** [verifyOnBoot]: forget the entries confirmed not to exist. *)
Definition forget (l : JobLedger L) (d : JobReconciliationResult) : JobLedger L :=
  match jr_outcome d, jr_onChainStatus d with
  | not_found, None => remove (jr_jobId d) l
  | _, _ => l
  end.

Definition verifyOnBoot (now : Z) (r : Reconciler C L) : ReconciliationReport * Reconciler C L :=
  let r1 := mkReconciler (rc_chain r) (ledger_hydrate (rc_ledger r)) (rc_lastReport r) (rc_runCount r) in
  let '(report, r2) := reconcile now r1 in
  (report, mkReconciler (rc_chain r2) (foldl forget (rc_ledger r2) (rr_discrepancies report))
             (rc_lastReport r2) (rc_runCount r2)).
End reconcile.

(** ** Properties *)
Section properties.
Context {C L : Type} `{RelayerChainAdapter C} `{EntryStore L JobLedgerEntry}.

Lemma check_entries_fst entries (c : C) : (check_entries entries c).1.*1 = entries.
Proof.
  revert c. induction entries as [|e l IH]; intros c; simpl; [done|].
  destruct (getJob (le_jobId e) c) as [a c1]. specialize (IH c1).
  destruct (check_entries l c1) as [l' c2]. simpl in IH. subst l. done.
Qed.

(** Every verdict is on an answer the chain gave. *)
Lemma check_entries_answers entries (c : C) e a :
  (e, a) ∈ (check_entries entries c).1 → e ∈ entries ∧ ∃ c1 c2, getJob (le_jobId e) c1 = (a, c2).
Proof.
  revert c. induction entries as [|x l IH]; intros c; simpl; [by intros ?%elem_of_nil|].
  destruct (getJob (le_jobId x) c) as [a1 c1] eqn:Hx. specialize (IH c1).
  destruct (check_entries l c1) as [l' c2]. simpl in *.
  intros [[= -> ->]|Hin]%elem_of_cons; [split; [by left|eauto]|].
  destruct (IH Hin) as [Hl Hc]. split; [by right|done].
Qed.

Lemma count_split l :
  Z.of_nat (length l) = count clean l + count discrepancy l + count not_found l.
Proof.
  unfold count. induction l as [|r l IH]; [done|]. simpl.
  unfold is_outcome in *. destruct (jr_outcome r); simpl in *; lia.
Qed.

Lemma judge_clean e a :
  jr_outcome (judge e a) = clean ↔
  ∃ job, a = Ok (Some job) ∧ oj_exists job = true ∧ oj_status job = js_submitted ∧
    oj_fee job = le_expectedFee e.
Proof.
  unfold judge. destruct a as [[job|]|err].
  2,3: split; [done|]; by intros (job & [=] & _).
  destruct (oj_exists job) eqn:Hex; simpl.
  2:{ split; [done|]. intros (job' & [= <-] & ? & _). congruence. }
  destruct (Z.eqb_spec (oj_fee job) (le_expectedFee e)); simpl.
  2:{ split; [done|]. by intros (job' & [= <-] & _ & _ & ?). }
  case_bool_decide; simpl.
  - split; [|done]. intros _. by exists job.
  - split; [done|]. by intros (job' & [= <-] & _ & ? & _).
Qed.

Lemma filter_nil {A} (f : A → bool) l : List.filter f l = [] ↔ Forall (λ x, f x = false) l.
Proof.
  split.
  - induction l as [|x l IH]; simpl; [constructor|]. destruct (f x) eqn:E; [done|]. auto.
  - induction 1 as [|x l Hx _ IH]; simpl; [done|]. by rewrite Hx.
Qed.

(** The report accounts for every ledger entry exactly once, and
    its summary is clean exactly when the chain answered, for every entry, that
    the job exists, is submitted and pays the recorded fee. *)
Theorem reconcile_report now (r : Reconciler C L) :
  let '(report, r') := reconcile now r in
  rr_totalChecked report
    = rr_cleanCount report + rr_discrepancyCount report + rr_notFoundCount report ∧
  rr_totalChecked report = ledger_size (rc_ledger r) ∧
  (rr_allClean report = true ↔
     ∀ e a, (e, a) ∈ (check_entries (all (rc_ledger r)) (rc_chain r)).1 →
       ∃ job, a = Ok (Some job) ∧ oj_exists job = true ∧ oj_status job = js_submitted ∧
         oj_fee job = le_expectedFee e) ∧
  rc_ledger r' = rc_ledger r.
Proof.
  unfold reconcile. destruct (check_entries _ _) as [answers c] eqn:E.
  assert (Hfst : answers.*1 = all (rc_ledger r)).
  { by rewrite <-(check_entries_fst (all (rc_ledger r)) (rc_chain r)), E. }
  unfold report_of. cbn [rr_totalChecked rr_cleanCount rr_discrepancyCount rr_notFoundCount rr_allClean
    rc_ledger fst].
  split_and!; [| | |done].
  - rewrite <-count_split, <-Hfst, !length_fmap. done.
  - unfold ledger_size, all, JMap.vals. by rewrite length_fmap.
  - transitivity (List.filter (λ r0, negb (is_outcome clean r0)) ((λ p, judge p.1 p.2) <$> answers) = []).
    { by destruct (List.filter _ _). }
    rewrite filter_nil, Forall_fmap, Forall_forall. split.
    + intros Hall e a Hin. apply judge_clean. specialize (Hall _ Hin). simpl in Hall.
      apply negb_false_iff in Hall. unfold is_outcome in Hall. by apply bool_decide_eq_true in Hall.
    + intros Hall [e a] Hin. simpl. apply negb_false_iff. unfold is_outcome.
      apply bool_decide_eq_true. by apply judge_clean, Hall.
Qed.

Lemma ledger_persist_entries (l : JobLedger L) : l_entries (ledger_persist l) = l_entries l.
Proof. unfold ledger_persist. by destruct (l_store l). Qed.

Lemma forget_get (l : JobLedger L) d k :
  ledger_get k (forget l d) = ledger_get k l ∨
  (jr_outcome d = not_found ∧ toLowerCase (jr_jobId d) = toLowerCase k).
Proof.
  unfold forget. destruct (jr_outcome d); [by left..|].
  destruct (jr_onChainStatus d); [by left|].
  destruct (decide (toLowerCase (jr_jobId d) = toLowerCase k)) as [Heq|Hne]; [by right|left].
  unfold ledger_get, remove. rewrite ledger_persist_entries. simpl. apply JMap.get_del_ne. congruence.
Qed.

Lemma forget_fold_get ds (l : JobLedger L) k e :
  ledger_get k l = Some e → ledger_get k (foldl forget l ds) = None →
  ∃ d, d ∈ ds ∧ jr_outcome d = not_found ∧ toLowerCase (jr_jobId d) = toLowerCase k.
Proof.
  revert l. induction ds as [|d ds IH]; intros l Hg Hn; simpl in Hn; [congruence|].
  destruct (forget_get l d k) as [Heq|Hd].
  - destruct (IH (forget l d)) as (d' & Hin & Hd'); [congruence|done|].
    exists d'. split; [by right|done].
  - exists d. split; [by left|done].
Qed.

Lemma judge_not_found e a :
  jr_outcome (judge e a) = not_found →
  a = Ok None ∨ ∃ job, a = Ok (Some job) ∧ oj_exists job = false.
Proof.
  unfold judge. destruct a as [[job|]|err]; [|by left|done].
  destruct (oj_exists job) eqn:Hex; simpl; [|right; eauto].
  destruct (_ =? _); simpl; [|done]. by case_bool_decide.
Qed.

Lemma judge_jobId e a : jr_jobId (judge e a) = le_jobId e.
Proof.
  unfold judge. destruct a as [[job|]|err]; [|done|done].
  destruct (oj_exists job); simpl; [|done]. by destruct (_ && _).
Qed.

(** On boot the ledger forgets a job only when the chain answered
    that the job does not exist; a lookup that fails, or any other answer, leaves
    the entry in place. *)
Theorem boot_forgets_only_absent_jobs now (r : Reconciler C L) k e :
  ledger_get k (ledger_hydrate (rc_ledger r)) = Some e →
  ledger_get k (rc_ledger (verifyOnBoot now r).2) = None →
  ∃ e' a c1 c2, toLowerCase (le_jobId e') = toLowerCase k ∧ getJob (le_jobId e') c1 = (a, c2) ∧
    (a = Ok None ∨ ∃ job, a = Ok (Some job) ∧ oj_exists job = false).
Proof.
  unfold verifyOnBoot, reconcile. cbn [rc_ledger rc_chain].
  destruct (check_entries _ _) as [answers c] eqn:E. cbn [snd rc_ledger rr_discrepancies report_of].
  intros Hg Hn. destruct (forget_fold_get _ _ _ _ Hg Hn) as (d & Hin & Ho & Hk).
  apply list_elem_of_In, filter_In in Hin as [Hin _].
  apply list_elem_of_In, list_elem_of_fmap in Hin as ([e' a] & -> & Hin). simpl in *.
  rewrite judge_jobId in Hk. apply judge_not_found in Ho.
  assert (Hin' : (e', a) ∈ (check_entries (all (ledger_hydrate (rc_ledger r))) (rc_chain r)).1)
    by (by rewrite E).
  destruct (check_entries_answers _ _ _ _ Hin') as [_ (c1 & c2 & Hc)].
  exists e', a, c1, c2. auto.
Qed.
End properties.

(** *** Witnesses *)

(** A chain on which no job exists. *)
Definition empty_chain : RelayerChainAdapter unit := {|
  getJob := λ _ c, (Ok None, c);
  getRelayer := λ _ c, (Ok None, c);
  latestLedger := λ c, (Ok 0, c);
  simulatePoolWithdraw := λ _ c, (Ok tt, c);
  acceptJob := λ _ c, (Ok "", c);
  submitPoolWithdraw := λ _ _ c, (Ok "", c);
|}.

Definition stale : Reconciler unit (MemoryEntryStore.t JobLedgerEntry) :=
  mkReconciler tt (mkLedger [("0xab", mkLedgerEntry "0xAB" "a" "s" 10 5)] true None) None 0.

Lemma boot_forgets_only_absent_jobs_witness :
  ∃ e' a c1 c2, toLowerCase (le_jobId e') = "0xab" ∧
    getJob (RelayerChainAdapter := empty_chain) (le_jobId e') c1 = (a, c2) ∧
    (a = Ok None ∨ ∃ job, a = Ok (Some job) ∧ oj_exists job = false).
Proof.
  exact (boot_forgets_only_absent_jobs (H:=empty_chain) 0 stale "0xab"
    (mkLedgerEntry "0xAB" "a" "s" 10 5) eq_refl eq_refl).
Defined.
