(* ===== verification/RelHub.v ===== *)
(** * Relayer: the gossip hub

    [relayer/src/hub.ts]: the hub remembers bids, assignments, heartbeats and
    outcomes, reassigns jobs whose operator went silent, and scores operators.
    Also the two messages a node publishes, from [relayer/src/runtime.ts].  The
    hub's store is the class [HubStore], with the two implementations of
    [relayer/src/store.ts]. *)
From Stdlib Require Import Ascii.
From stdpp Require Import base tactics list sets strings relations.
From Stdlib Require Import ZArith Lia QArith Sorted.
From S2P Require Import Prelude JsString JsMap Bytes Json PubValidate RelPayload RelMessages RelStore RelEngine.
Open Scope string_scope.
Open Scope list_scope.
Open Scope Z_scope.

Definition HEARTBEAT_MISS_THRESHOLD_MS : Z := 45000.
Definition NEUTRAL_RELAYER_SCORE : Q := 1 # 2.
Definition SCORE_WINDOW_MS : Z := 30 * 24 * 60 * 60 * 1000.
Definition MAX_JOB_LIFETIME_MS : Z := 17280 * 5000.
Definition BID_EXPIRY_MS : Z := MAX_JOB_LIFETIME_MS + 60 * 60 * 1000.
Definition ASSIGNMENT_EXPIRY_MS : Z := BID_EXPIRY_MS.

Record RelayerHubStats : Type := mkHubStats {
  advertsSeen : Z;
  bidsSeen : Z;
  hubPayloadsSeen : Z;
  outcomesSeen : Z;
  heartbeatsSeen : Z;
  hubLastError : option string;
}.

Record OutcomeEntry : Type := mkOutcomeEntry { oe_result : OutcomeResult; oe_at : Z }.
Record Assignment : Type := mkAssignment { as_operator : string; as_addedAt : Z }.
Record FailoverEvent : Type := mkFailover { fe_jobId : string; fe_from : string; fe_to : string }.
Record RelayerScore : Type := mkScore {
  rs_operator : string;
  rs_score : Q;
  rs_completed : Z;
  rs_failed : Z;
}.

Record RelayerHub : Type := mkHub {
  h_stats : RelayerHubStats;
  h_bids : list (string * list BidEntry);
  h_outcomes : list (string * list OutcomeEntry);
  h_knownOperators : list string;
  h_lastHeartbeatAt : list (string * Z);
  h_assignments : list (string * Assignment);
}.

Definition new_hub : RelayerHub := mkHub (mkHubStats 0 0 0 0 0 None) [] [] [] [] [].

(** ** Remembering *)
Definition hub_bidsFor (jobId : string) (h : RelayerHub) : list RelayerBid :=
  be_bid <$> default [] (JMap.get (toLowerCase jobId) (h_bids h)).

Definition hub_rememberBid (now : Z) (bid : RelayerBid) (h : RelayerHub) : RelayerHub :=
  let key := toLowerCase (rb_jobId bid) in
  let list := default [] (JMap.get key (h_bids h)) in
  let bids :=
    if existsb (λ b, String.eqb (rb_operator (be_bid b)) (rb_operator bid)) list then h_bids h
    else JMap.set key (list ++ [mkBidEntry bid now]) (h_bids h) in
  mkHub (h_stats h) bids (h_outcomes h) (JSet.add (rb_operator bid) (h_knownOperators h))
    (h_lastHeartbeatAt h) (h_assignments h).

Definition recordOutcome (operator : string) (result : OutcomeResult) (at_ : Z) (h : RelayerHub)
    : RelayerHub :=
  let list := default [] (JMap.get operator (h_outcomes h)) in
  mkHub (h_stats h) (h_bids h) (JMap.set operator (list ++ [mkOutcomeEntry result at_]) (h_outcomes h))
    (JSet.add operator (h_knownOperators h)) (h_lastHeartbeatAt h) (h_assignments h).

Definition rememberAssignment (now : Z) (p : EncryptedPayload) (h : RelayerHub) : RelayerHub :=
  let key := toLowerCase (ep_jobId p) in
  match List.find (λ b, String.eqb (toLowerCase (rb_x25519Pk b)) (toLowerCase (ep_to p)))
          (hub_bidsFor key h) with
  | Some bid =>
      mkHub (h_stats h) (h_bids h) (h_outcomes h) (h_knownOperators h) (h_lastHeartbeatAt h)
        (JMap.set key (mkAssignment (rb_operator bid) now) (h_assignments h))
  | None => h
  end.

Definition recordHeartbeat (operator : string) (at_ : Z) (h : RelayerHub) : RelayerHub :=
  mkHub (h_stats h) (h_bids h) (h_outcomes h) (JSet.add operator (h_knownOperators h))
    (JMap.set operator at_ (h_lastHeartbeatAt h)) (h_assignments h).

Definition isNodeAlive (operator : string) (now : Z) (h : RelayerHub) : bool :=
  match JMap.get operator (h_lastHeartbeatAt h) with
  | Some last => now - last <=? HEARTBEAT_MISS_THRESHOLD_MS
  | None => false
  end.

(** ** Failover *)
Definition set_assignments (m : list (string * Assignment)) (h : RelayerHub) : RelayerHub :=
  mkHub (h_stats h) (h_bids h) (h_outcomes h) (h_knownOperators h) (h_lastHeartbeatAt h) m.

Definition alternative (now : Z) (jobId operator : string) (h : RelayerHub) : option RelayerBid :=
  List.find (λ b, negb (String.eqb (rb_operator b) operator) && isNodeAlive (rb_operator b) now h)
    (hub_bidsFor jobId h).

Definition failover_step (now : Z) (acc : list FailoverEvent * RelayerHub)
    (item : string * Assignment) : list FailoverEvent * RelayerHub :=
  let '(events, h) := acc in
  let '(jobId, assignment) := item in
  if isNodeAlive (as_operator assignment) now h then (events, h)
  else
    match alternative now jobId (as_operator assignment) h with
    | None => (events, h)
    | Some alt =>
        (events ++ [mkFailover jobId (as_operator assignment) (rb_operator alt)],
         set_assignments (JMap.set jobId (mkAssignment (rb_operator alt) now) (h_assignments h)) h)
    end.

(** The loop visits each assignment once: replacing the value of the key being
    visited does not make the iterator visit it again. *)
Definition runFailoverCheck (now : Z) (h : RelayerHub) : list FailoverEvent * RelayerHub :=
  foldl (failover_step now) ([], h) (h_assignments h).

(** ** Forgetting *)
Definition keep_fresh {A} (fresh : A → bool) (m : list (string * list A)) : list (string * list A) :=
  JMap.retain (λ _ l, negb (bool_decide (l = []))) (prod_map id (List.filter fresh) <$> m).

Definition hub_prune (now : Z) (h : RelayerHub) : RelayerHub :=
  mkHub (h_stats h)
    (keep_fresh (λ b, now - be_addedAt b <? BID_EXPIRY_MS) (h_bids h))
    (keep_fresh (λ e, now - SCORE_WINDOW_MS <=? oe_at e) (h_outcomes h))
    (h_knownOperators h) (h_lastHeartbeatAt h)
    (JMap.retain (λ _ a, now - as_addedAt a <? ASSIGNMENT_EXPIRY_MS) (h_assignments h)).

(** ** Scores *)
Definition windowedOutcomes (operator : string) (now : Z) (h : RelayerHub)
    : list OutcomeEntry * RelayerHub :=
  let list := default [] (JMap.get operator (h_outcomes h)) in
  let fresh := List.filter (λ e, now - SCORE_WINDOW_MS <=? oe_at e) list in
  (fresh,
   if (length fresh =? length list)%nat then h
   else mkHub (h_stats h) (h_bids h) (JMap.set operator fresh (h_outcomes h)) (h_knownOperators h)
          (h_lastHeartbeatAt h) (h_assignments h)).

Definition is_completed (e : OutcomeEntry) : bool :=
  match oe_result e with completed => true | failed => false end.

Definition scoreFor (operator : string) (now : Z) (h : RelayerHub) : RelayerScore * RelayerHub :=
  let '(entries, h') := windowedOutcomes operator now h in
  let nc := Z.of_nat (length (List.filter is_completed entries)) in
  let nf := Z.of_nat (length (List.filter (λ e, negb (is_completed e)) entries)) in
  let resolved := nc + nf in
  (mkScore operator (if resolved =? 0 then NEUTRAL_RELAYER_SCORE else (nc # Z.to_pos resolved)) nc nf,
   h').

(** ** The subscription handler *)
(** [string | { operator, addedAt }]: older files and [persistState] itself keep
    only the operator. *)
Inductive SavedAssignment : Type :=
| SavedOperator (operator : string)
| SavedEntry (a : Assignment).

Record SavedBid : Type := mkSavedBid { sb_bid : RelayerBid; sb_addedAt : option Z }.

Record HubState : Type := mkHubState {
  hs_bids : list (string * list SavedBid);
  hs_outcomes : list (string * list OutcomeEntry);
  hs_knownOperators : list string;
  hs_lastHeartbeatAt : list (string * Z);
  hs_assignments : list (string * SavedAssignment);
  hs_stats : option RelayerHubStats;
}.

Definition save_bid (b : BidEntry) : SavedBid := mkSavedBid (be_bid b) (Some (be_addedAt b)).

(** The state [persistState] hands to the store. *)
Definition snapshot (h : RelayerHub) : HubState :=
  mkHubState
    (prod_map id (List.map save_bid) <$> h_bids h)
    (h_outcomes h) (h_knownOperators h) (h_lastHeartbeatAt h)
    (prod_map id (λ a, SavedOperator (as_operator a)) <$> h_assignments h) (Some (h_stats h)).

Definition set_all {V} (saved : list (string * V)) (m : list (string * V)) : list (string * V) :=
  foldl (λ m kv, JMap.set kv.1 kv.2 m) m saved.

Definition restore_bid (now : Z) (b : SavedBid) : BidEntry :=
  mkBidEntry (sb_bid b) (default now (sb_addedAt b)).

Definition restore_assignment (now : Z) (a : SavedAssignment) : Assignment :=
  match a with SavedOperator op => mkAssignment op now | SavedEntry a => a end.

Definition restore_stats (saved : option RelayerHubStats) (s : RelayerHubStats) : RelayerHubStats :=
  match saved with
  | None => s
  | Some v => mkHubStats (advertsSeen v) (bidsSeen v) (hubPayloadsSeen v) (outcomesSeen v)
                (heartbeatsSeen v) (hubLastError s)
  end.

Definition hydrate_hub (now : Z) (s : HubState) (h : RelayerHub) : RelayerHub :=
  mkHub (restore_stats (hs_stats s) (h_stats h))
    (set_all (prod_map id (List.map (restore_bid now)) <$> hs_bids s) (h_bids h))
    (set_all (hs_outcomes s) (h_outcomes h))
    (foldl (λ ks op, JSet.add op ks) (h_knownOperators h) (hs_knownOperators s))
    (set_all (hs_lastHeartbeatAt s) (h_lastHeartbeatAt h))
    (set_all (prod_map id (restore_assignment now) <$> hs_assignments s) (h_assignments h)).

(** ** Stores for the hub's state *)
Class HubStore (D : Type) : Type := {
  hst_load : M D (option HubState);
  hst_save : HubState → M D unit;
  hst_clear : M D unit;
}.

(** The getters read one field of the saved state. *)
Section getters.
Context {D : Type} `{HubStore D}.
Definition get_field {A} (f : HubState → A) : M D (option A) :=
  s ← hst_load; mret (f <$> s).
Definition getBids : M D (option (list (string * list SavedBid))) := get_field hs_bids.
Definition getOutcomes : M D (option (list (string * list OutcomeEntry))) := get_field hs_outcomes.
Definition getKnownOperators : M D (option (list string)) := get_field hs_knownOperators.
Definition getLastHeartbeatAt : M D (option (list (string * Z))) := get_field hs_lastHeartbeatAt.
Definition getAssignments : M D (option (list (string * SavedAssignment))) := get_field hs_assignments.
Definition getStats : M D (option (option RelayerHubStats)) := get_field hs_stats.
End getters.

Module MemoryHubStore.
Definition t : Type := option HubState.
Definition load : M t (option HubState) := gets id.
Definition save (s : HubState) : M t unit := modify (λ _, Some s).
Definition clear : M t unit := modify (λ _, None).
End MemoryHubStore.

#[export] Instance memory_hub_store : HubStore MemoryHubStore.t := {|
  hst_load := MemoryHubStore.load;
  hst_save := MemoryHubStore.save;
  hst_clear := MemoryHubStore.clear;
|}.

(** On disk any field of the state may be missing. *)
Record HubStateFile : Type := mkHubFile {
  hf_bids : option (list (string * list SavedBid));
  hf_outcomes : option (list (string * list OutcomeEntry));
  hf_knownOperators : option (list string);
  hf_lastHeartbeatAt : option (list (string * Z));
  hf_assignments : option (list (string * SavedAssignment));
  hf_stats : option RelayerHubStats;
}.

Module FileHubStore.
Definition t : Type := JsonFile HubStateFile.
Definition load : M t (option HubState) :=
  raw ← readJsonFile;
  match versioned raw with
  | None => mret None
  | Some None => throw (TypeError "Cannot read properties of undefined (reading 'bids')")
  | Some (Some s) =>
      mret (Some (mkHubState (default [] (hf_bids s)) (default [] (hf_outcomes s))
        (default [] (hf_knownOperators s)) (default [] (hf_lastHeartbeatAt s))
        (default [] (hf_assignments s)) (hf_stats s)))
  end.
Definition save (s : HubState) : M t unit :=
  writeJsonFile (Some STATE_VERSION,
    Some (mkHubFile (Some (hs_bids s)) (Some (hs_outcomes s)) (Some (hs_knownOperators s))
            (Some (hs_lastHeartbeatAt s)) (Some (hs_assignments s)) (hs_stats s))).
Definition clear : M t unit := file_clear.
End FileHubStore.

#[export] Instance file_hub_store : HubStore FileHubStore.t := {|
  hst_load := FileHubStore.load;
  hst_save := FileHubStore.save;
  hst_clear := FileHubStore.clear;
|}.

Section hub.
Context {D : Type} `{HubStore D}.

Record HubWorld : Type := mkHubWorld {
  hw_hub : RelayerHub;
  hw_store : option D;
  hw_now : Z;
  hw_delivered : list RelayerMessage;   (** messages handed to the subscribers *)
}.

Definition on_hub (f : RelayerHub → RelayerHub) : M HubWorld unit :=
  modify (λ w, mkHubWorld (f (hw_hub w)) (hw_store w) (hw_now w) (hw_delivered w)).
Definition hub_stats (f : RelayerHubStats → RelayerHubStats) : M HubWorld unit :=
  on_hub (λ h, mkHub (f (h_stats h)) (h_bids h) (h_outcomes h) (h_knownOperators h)
                 (h_lastHeartbeatAt h) (h_assignments h)).
Definition deliver_message (m : RelayerMessage) : M HubWorld unit :=
  modify (λ w, mkHubWorld (hw_hub w) (hw_store w) (hw_now w) (hw_delivered w ++ [m])).

Definition persistState : M HubWorld unit := λ w,
  match hw_store w with
  | None => (Ok tt, w)
  | Some d =>
      let '(r, d') := hst_save (snapshot (hw_hub w)) d in
      (r, mkHubWorld (hw_hub w) (Some d') (hw_now w) (hw_delivered w))
  end.

(** A failed load rejects [start]. *)
Definition hydrateFromStore : M HubWorld unit := λ w,
  match hw_store w with
  | None => (Ok tt, w)
  | Some d =>
      let '(r, d') := hst_load d in
      let w' := mkHubWorld (hw_hub w) (Some d') (hw_now w) (hw_delivered w) in
      match r with
      | Err e => (Err e, w')
      | Ok None => (Ok tt, w')
      | Ok (Some s) => on_hub (hydrate_hub (hw_now w) s) w'
      end
  end.

(** [void this.persistState()]: the snapshot is saved, nobody waits for it and
    its failure is not seen by the caller. *)
Definition persist_detached : M HubWorld unit := λ w, (Ok tt, (persistState w).2).

(** What the handler does with a message that passed validation. *)
Definition remember (now : Z) (valid : RelayerMessage) : M HubWorld unit :=
  match valid with
  | MsgAdvert _ =>
      hub_stats (λ s, mkHubStats (advertsSeen s + 1) (bidsSeen s) (hubPayloadsSeen s) (outcomesSeen s)
                        (heartbeatsSeen s) (hubLastError s))
  | MsgBid bid =>
      on_hub (hub_rememberBid now bid);; persist_detached;;
      hub_stats (λ s, mkHubStats (advertsSeen s) (bidsSeen s + 1) (hubPayloadsSeen s) (outcomesSeen s)
                        (heartbeatsSeen s) (hubLastError s));;
      persistState
  | MsgPayload p =>
      on_hub (rememberAssignment now p);;
      hub_stats (λ s, mkHubStats (advertsSeen s) (bidsSeen s) (hubPayloadsSeen s + 1) (outcomesSeen s)
                        (heartbeatsSeen s) (hubLastError s));;
      persistState
  | MsgOutcome o =>
      on_hub (recordOutcome (ro_operator o) (ro_result o) now);; persist_detached;;
      on_hub (λ h, mkHub (h_stats h) (JMap.del (toLowerCase (ro_jobId o)) (h_bids h)) (h_outcomes h)
                     (h_knownOperators h) (h_lastHeartbeatAt h)
                     (JMap.del (toLowerCase (ro_jobId o)) (h_assignments h)));;
      hub_stats (λ s, mkHubStats (advertsSeen s) (bidsSeen s) (hubPayloadsSeen s) (outcomesSeen s + 1)
                        (heartbeatsSeen s) (hubLastError s));;
      persistState
  | MsgHeartbeat b =>
      on_hub (recordHeartbeat (rh_operator b) now);; persist_detached;;
      hub_stats (λ s, mkHubStats (advertsSeen s) (bidsSeen s) (hubPayloadsSeen s) (outcomesSeen s)
                        (heartbeatsSeen s + 1) (hubLastError s));;
      persistState
  end.

Definition onMessage (raw : jval) : M HubWorld unit :=
  try_catch
    (valid ← lift_res (validateRelayerMessage raw);
     now ← gets hw_now;
     remember now valid;;
     deliver_message valid)
    (λ err, hub_stats (λ s, mkHubStats (advertsSeen s) (bidsSeen s) (hubPayloadsSeen s)
                              (outcomesSeen s) (heartbeatsSeen s) (Some (err_message err)))).

(** The prune timer. *)
Definition prune_tick : M HubWorld unit :=
  now ← gets hw_now; on_hub (hub_prune now);; persist_detached.

(** The failover timer. *)
Definition failover_tick : M HubWorld (list FailoverEvent) :=
  now ← gets hw_now;
  events ← gets (λ w, (runFailoverCheck now (hw_hub w)).1);
  on_hub (λ h, (runFailoverCheck now h).2);;
  mret events.
End hub.

(** ** What a node publishes ([runtime.ts]) *)
Definition node_outcome (jobId operator : string) (r : OutcomeResult) : jval :=
  JObj [("t", JStr "outcome"); ("v", JNum 1); ("jobId", JStr jobId); ("operator", JStr operator);
        ("result", JStr (match r with completed => "completed" | failed => "failed" end))].

Definition node_heartbeat (operator : string) : jval :=
  JObj [("t", JStr "heartbeat"); ("v", JNum 1); ("operator", JStr operator)].

(** ** Properties of failover *)
Section failover.
Context (now : Z) (h0 : RelayerHub).

(** Whom a job moves to; this depends only on bids and heartbeats, which the
    check does not change. *)
Definition moves_to (item : string * Assignment) : option string :=
  if isNodeAlive (as_operator item.2) now h0 then None
  else rb_operator <$> alternative now item.1 (as_operator item.2) h0.

Definition move (m : list (string * Assignment)) (item : string * Assignment) : list (string * Assignment) :=
  match moves_to item with
  | Some to => JMap.set item.1 (mkAssignment to now) m
  | None => m
  end.

Definition event_of (item : string * Assignment) : option FailoverEvent :=
  (λ to, mkFailover item.1 (as_operator item.2) to) <$> moves_to item.

Lemma failover_fold l ev m :
  foldl (failover_step now) (ev, set_assignments m h0) l
  = (ev ++ omap event_of l, set_assignments (foldl move m l) h0).
Proof.
  revert ev m. induction l as [|[k a] l IH]; intros ev m; [by simpl; rewrite app_nil_r|].
  cbn [foldl]. unfold failover_step at 2.
  change (isNodeAlive (as_operator a) now (set_assignments m h0))
    with (isNodeAlive (as_operator a) now h0).
  change (alternative now k (as_operator a) (set_assignments m h0))
    with (alternative now k (as_operator a) h0).
  change (omap event_of ((k, a) :: l)) with
    (match event_of (k, a) with Some e => e :: omap event_of l | None => omap event_of l end).
  unfold move at 2, event_of at 1, moves_to. cbn [fst snd].
  destruct (isNodeAlive (as_operator a) now h0); [by rewrite IH|].
  destruct (alternative now k (as_operator a) h0) as [alt|]; [|by rewrite IH].
  change (set_assignments (JMap.set k (mkAssignment (rb_operator alt) now) (h_assignments (set_assignments m h0)))
           (set_assignments m h0))
    with (set_assignments (JMap.set k (mkAssignment (rb_operator alt) now) m) h0).
  rewrite IH. simpl. by rewrite <-app_assoc.
Qed.

Lemma failover_run :
  runFailoverCheck now h0
  = (omap event_of (h_assignments h0), set_assignments (foldl move (h_assignments h0) (h_assignments h0)) h0).
Proof.
  unfold runFailoverCheck.
  replace ([] : list FailoverEvent, h0) with ([] : list FailoverEvent, set_assignments (h_assignments h0) h0)
    by (by destruct h0).
  by rewrite failover_fold.
Qed.

Lemma move_fold_other l m k : k ∉ l.*1 → JMap.get k (foldl move m l) = JMap.get k m.
Proof.
  revert m. induction l as [|[k' a] l IH]; intros m Hk; simpl; [done|].
  rewrite fmap_cons, elem_of_cons in Hk. rewrite IH by tauto. unfold move.
  destruct (moves_to (k', a)); [|done]. apply JMap.get_set_ne. simpl in Hk. tauto.
Qed.

Lemma move_fold_get l m k a :
  NoDup l.*1 → (k, a) ∈ l → JMap.get k m = Some a →
  JMap.get k (foldl move m l)
  = Some (match moves_to (k, a) with Some to => mkAssignment to now | None => a end).
Proof.
  revert m. induction l as [|[k' a'] l IH]; intros m Hnd Hin Hm; [by apply elem_of_nil in Hin|].
  rewrite fmap_cons in Hnd. apply NoDup_cons in Hnd as [Hk' Hnd]. simpl.
  apply elem_of_cons in Hin as [[= <- <-]|Hin].
  - rewrite move_fold_other by done. unfold move. destruct (moves_to (k, a)); [|done].
    apply JMap.get_set_eq.
  - apply IH; [done|done|]. unfold move. destruct (moves_to (k', a')); [|done].
    rewrite JMap.get_set_ne; [done|]. intros ->. apply Hk', list_elem_of_fmap. by exists (k', a).
Qed.

Lemma move_fold_wf l m : JMap.wf m → JMap.wf (foldl move m l).
Proof.
  revert m. induction l as [|x l IH]; intros m Hm; simpl; [done|]. apply IH. unfold move.
  destruct (moves_to x); [by apply JMap.wf_set|done].
Qed.

Lemma move_fold_keys l m k :
  (∀ x, x ∈ l.*1 → x ∈ JMap.keys m) → k ∈ JMap.keys (foldl move m l) → k ∈ JMap.keys m.
Proof.
  revert m. induction l as [|x l IH]; intros m Hl Hk; simpl in *; [done|].
  assert (Hsub : ∀ y, y ∈ JMap.keys (move m x) → y ∈ JMap.keys m).
  { intros y. unfold move. destruct (moves_to x); [|done].
    intros [->|Hy]%JMap.elem_of_keys_set; [apply Hl; by left|done]. }
  apply Hsub. eapply IH; [|exact Hk]. intros y Hy. unfold move. destruct (moves_to x).
  - apply JMap.elem_of_keys_set. right. apply Hl. by right.
  - apply Hl. by right.
Qed.

(** After the check no assignment would move. *)
Lemma settled_assignments k a :
  JMap.wf (h_assignments h0) →
  (k, a) ∈ foldl move (h_assignments h0) (h_assignments h0) → moves_to (k, a) = None.
Proof.
  intros Hwf Hin. pose proof (move_fold_wf (h_assignments h0) _ Hwf) as Hwf'.
  pose proof (JMap.elem_get _ _ _ Hwf' Hin) as Hg.
  destruct (JMap.get k (h_assignments h0)) as [a0|] eqn:H0.
  - pose proof (JMap.get_Some_elem _ _ _ H0) as Hin0.
    rewrite (move_fold_get _ _ k a0 Hwf Hin0 H0) in Hg. injection Hg as <-.
    destruct (moves_to (k, a0)) as [to|] eqn:Hto; [|done].
    unfold moves_to. simpl. unfold moves_to in Hto.
    destruct (isNodeAlive (as_operator (k, a0).2) now h0); [done|].
    unfold alternative in Hto. destruct (List.find _ _) as [alt|] eqn:E; [|done]. injection Hto as <-.
    apply List.find_some in E as [_ [_ Ha]%andb_prop]. by rewrite Ha.
  - exfalso. apply JMap.get_None_keys in H0. apply H0.
    eapply (move_fold_keys (h_assignments h0)); [done|].
    unfold JMap.keys. apply list_elem_of_fmap. by exists (k, a).
Qed.

Lemma moves_to_inv item to :
  moves_to item = Some to →
  isNodeAlive (as_operator item.2) now h0 = false ∧ isNodeAlive to now h0 = true ∧
  to ≠ as_operator item.2 ∧
  ∃ bid, bid ∈ hub_bidsFor item.1 h0 ∧ rb_operator bid = to.
Proof.
  unfold moves_to. destruct (isNodeAlive (as_operator item.2) now h0); [done|].
  unfold alternative. destruct (List.find _ _) as [alt|] eqn:E; simpl; [|done]. intros [= <-].
  apply List.find_some in E as [Hin [Hne Ha]%andb_prop].
  apply negb_true_iff, String.eqb_neq in Hne. apply list_elem_of_In in Hin.
  split_and!; [done|done|done|by exists alt].
Qed.
End failover.

(** Failover only moves a job from an operator that missed its
    heartbeats to a different operator that is alive and bid on that same job;
    the hub then expects the new operator, every other assignment is untouched,
    bids, outcomes and heartbeats do not change, and checking again at the same
    time moves nothing. *)
Theorem failover_moves_to_live_bidder now h :
  JMap.wf (h_assignments h) →
  let '(events, h') := runFailoverCheck now h in
  (∀ ev, ev ∈ events → ∃ a bid,
     JMap.get (fe_jobId ev) (h_assignments h) = Some a ∧ as_operator a = fe_from ev ∧
     isNodeAlive (fe_from ev) now h = false ∧ isNodeAlive (fe_to ev) now h = true ∧
     fe_to ev ≠ fe_from ev ∧ bid ∈ hub_bidsFor (fe_jobId ev) h ∧ rb_operator bid = fe_to ev ∧
     JMap.get (fe_jobId ev) (h_assignments h') = Some (mkAssignment (fe_to ev) now)) ∧
  (∀ j, (∀ ev, ev ∈ events → fe_jobId ev ≠ j) →
     JMap.get j (h_assignments h') = JMap.get j (h_assignments h)) ∧
  h_bids h' = h_bids h ∧ h_outcomes h' = h_outcomes h ∧
  h_lastHeartbeatAt h' = h_lastHeartbeatAt h ∧
  (runFailoverCheck now h').1 = [].
Proof.
  intros Hwf. rewrite failover_run. split_and!; [| |done|done|done|].
  - intros ev Hev. apply list_elem_of_omap in Hev as ([k a] & Hin & Hev).
    unfold event_of in Hev. destruct (moves_to now h (k, a)) as [to|] eqn:Hto; [|done].
    simpl in Hev. injection Hev as <-. simpl.
    destruct (moves_to_inv _ _ _ _ Hto) as (H1 & H2 & H3 & bid & Hb & Hop). simpl in *.
    exists a, bid. pose proof (JMap.elem_get _ _ _ Hwf Hin) as Hg. split_and!; try done.
    rewrite (move_fold_get now h (h_assignments h) _ k a Hwf Hin Hg), Hto. done.
  - intros j Hno. simpl. destruct (JMap.get j (h_assignments h)) as [a|] eqn:Hg.
    + pose proof (JMap.get_Some_elem _ _ _ Hg) as Hin.
      rewrite (move_fold_get now h (h_assignments h) _ j a Hwf Hin Hg).
      destruct (moves_to now h (j, a)) as [to|] eqn:Hto; [|done]. exfalso.
      apply (Hno (mkFailover j (as_operator a) to)); [|done].
      apply list_elem_of_omap. exists (j, a). split; [done|]. unfold event_of. by rewrite Hto.
    + rewrite move_fold_other; [done|]. by apply JMap.get_None_keys.
  - rewrite failover_run. cbn [fst h_assignments set_assignments].
    apply elem_of_nil_inv. intros ev Hev.
    apply list_elem_of_omap in Hev as ([k a] & Hin & Hev).
    pose proof (settled_assignments now h k a Hwf Hin) as Hn.
    unfold event_of in Hev. change (moves_to now h (k, a) = None) in Hn.
    assert (moves_to now (set_assignments (foldl (move now h) (h_assignments h) (h_assignments h)) h) (k, a)
            = moves_to now h (k, a)) as Heq by done.
    rewrite Heq, Hn in Hev. done.
Qed.

(** ** Scores *)
Lemma filter_partition (f : OutcomeEntry → bool) l :
  (length (List.filter f l) + length (List.filter (λ x, negb (f x)) l) = length l)%nat.
Proof. induction l as [|x l IH]; simpl; [done|]. destruct (f x); simpl; lia. Qed.

(** A score is a completion rate: between 0 and 1, neutral exactly
    when no outcome is in the window, and computed from outcomes of the last 30
    days only. *)
Theorem score_is_completion_rate operator now h :
  let '(s, h') := scoreFor operator now h in
  (0 <= rs_score s)%Q ∧ (rs_score s <= 1)%Q ∧
  (rs_completed s + rs_failed s = 0 → rs_score s = NEUTRAL_RELAYER_SCORE) ∧
  (rs_completed s + rs_failed s ≠ 0 →
     (rs_score s * inject_Z (rs_completed s + rs_failed s) == inject_Z (rs_completed s))%Q) ∧
  rs_completed s + rs_failed s
    = Z.of_nat (length (List.filter (λ e, now - SCORE_WINDOW_MS <=? oe_at e)
                          (default [] (JMap.get operator (h_outcomes h))))).
Proof.
  unfold scoreFor, windowedOutcomes. cbn [rs_score rs_completed rs_failed].
  set (l := List.filter (λ e, now - SCORE_WINDOW_MS <=? oe_at e) _). pose proof (filter_partition is_completed l) as Hp.
  revert Hp. generalize (length (List.filter is_completed l)) as nc.
  generalize (length (List.filter (λ e, negb (is_completed e)) l)) as nf. intros nf nc Hp.
  destruct (Z.eqb_spec (Z.of_nat nc + Z.of_nat nf) 0) as [Hz|Hz];
    refine (conj _ (conj _ (conj _ (conj _ _)))); cbn [rs_score rs_completed rs_failed].
  - unfold Qle, NEUTRAL_RELAYER_SCORE. cbn. lia.
  - unfold Qle, NEUTRAL_RELAYER_SCORE. cbn. lia.
  - done.
  - lia.
  - lia.
  - unfold Qle. simpl. lia.
  - unfold Qle. simpl. lia.
  - lia.
  - intros _. unfold Qeq. simpl. rewrite ?Pos.mul_1_r, Z2Pos.id by lia. lia.
  - lia.
Qed.

(** ** Messages *)

(** The outcome and heartbeat messages a node publishes carry no
    signature and no time stamp, so the hub rejects every one of them: the node
    never counts as alive and its completed jobs are never scored. *)
Theorem hub_rejects_node_reports `{HubStore D} jobId operator r (w : HubWorld) :
  is_ok (validateRelayerMessage (node_outcome jobId operator r)) = false ∧
  is_ok (validateRelayerMessage (node_heartbeat operator)) = false ∧
  ∀ msg, msg = node_outcome jobId operator r ∨ msg = node_heartbeat operator →
    let w' := (onMessage msg w).2 in
    h_lastHeartbeatAt (hw_hub w') = h_lastHeartbeatAt (hw_hub w) ∧
    h_outcomes (hw_hub w') = h_outcomes (hw_hub w) ∧ hw_delivered w' = hw_delivered w.
Proof.
  split_and!; [by destruct r|done|].
  intros msg [-> | ->]; [by destruct r|done].
Qed.

(** ** The hub's invariant *)
Record hub_ok (h : RelayerHub) : Prop := {
  ok_bids_wf : JMap.wf (h_bids h);
  ok_assignments_wf : JMap.wf (h_assignments h);
  (** at most one bid per operator and job, and every bidder is known *)
  ok_bids : ∀ k l, (k, l) ∈ h_bids h →
    NoDup ((λ b, rb_operator (be_bid b)) <$> l) ∧
    ∀ b, b ∈ l → rb_operator (be_bid b) ∈ h_knownOperators h;
  (** [allScores] enumerates the known operators, so it misses no outcome *)
  ok_outcomes : ∀ k l, (k, l) ∈ h_outcomes h → k ∈ h_knownOperators h;
  ok_heartbeats : ∀ k t, (k, t) ∈ h_lastHeartbeatAt h → k ∈ h_knownOperators h;
  ok_assignments : ∀ k a, (k, a) ∈ h_assignments h → as_operator a ∈ h_knownOperators h;
}.

Lemma ok_stats h f : hub_ok h →
  hub_ok (mkHub f (h_bids h) (h_outcomes h) (h_knownOperators h) (h_lastHeartbeatAt h) (h_assignments h)).
Proof. intros []. by split. Qed.

Lemma ok_bidsFor h jobId b : hub_ok h → b ∈ hub_bidsFor jobId h → rb_operator b ∈ h_knownOperators h.
Proof.
  intros Hok (e & -> & He)%list_elem_of_fmap.
  destruct (JMap.get (toLowerCase jobId) (h_bids h)) as [l|] eqn:Hg; simpl in He;
    [|by apply elem_of_nil in He].
  apply JMap.get_Some_elem in Hg. by apply (ok_bids _ Hok _ _ Hg).
Qed.

Lemma ok_rememberBid now bid h : hub_ok h → hub_ok (hub_rememberBid now bid h).
Proof.
  intros Hok. unfold hub_rememberBid.
  set (key := toLowerCase (rb_jobId bid)). set (l := default [] (JMap.get key (h_bids h))).
  assert (Hl : NoDup ((λ b, rb_operator (be_bid b)) <$> l) ∧
               ∀ b, b ∈ l → rb_operator (be_bid b) ∈ h_knownOperators h).
  { unfold l. destruct (JMap.get key (h_bids h)) as [l'|] eqn:Hg; simpl.
    - eapply (ok_bids _ Hok), JMap.get_Some_elem, Hg.
    - split; [constructor|]. by intros b Hb%elem_of_nil. }
  assert (Hmono : ∀ x, x ∈ h_knownOperators h → x ∈ JSet.add (rb_operator bid) (h_knownOperators h))
    by (intros x Hx; apply JSet.elem_of_add; by right).
  destruct (existsb _ l) eqn:Hex.
  - destruct Hok as [Hw1 Hw2 Hb Ho Hh Ha]. split; simpl; [done|done| |eauto|eauto|eauto].
    intros k l' Hin. destruct (Hb _ _ Hin). split; eauto.
  - destruct Hok as [Hw1 Hw2 Hb Ho Hh Ha]. split; simpl; [by apply JMap.wf_set|done| |eauto|eauto|eauto].
    intros k l' [[= -> ->]|Hin]%JMap.elem_of_set; [|destruct (Hb _ _ Hin); split; eauto].
    destruct Hl as [Hnd Hk]. split.
    + rewrite fmap_app. simpl. apply NoDup_app. split_and!; [done| |apply NoDup_singleton].
      intros x (b & -> & Hb')%list_elem_of_fmap Hx%list_elem_of_singleton.
      apply not_true_iff_false in Hex. apply Hex, existsb_exists. exists b.
      split; [by apply list_elem_of_In|]. simpl in Hx. rewrite Hx. apply String.eqb_refl.
    + intros b [Hb'|Hb']%elem_of_app; [eauto|]. apply list_elem_of_singleton in Hb' as ->.
      apply JSet.elem_of_add. by left.
Qed.

Lemma ok_rememberAssignment now p h : hub_ok h → hub_ok (rememberAssignment now p h).
Proof.
  intros Hok. unfold rememberAssignment. destruct (List.find _ _) as [bid|] eqn:E; [|done].
  apply List.find_some in E as [Hin _]. apply list_elem_of_In in Hin.
  pose proof (ok_bidsFor _ _ _ Hok Hin). destruct Hok.
  split; simpl; [done|by apply JMap.wf_set|done|done|done|].
  intros k a [[= -> ->]|Hk]%JMap.elem_of_set; [done|eauto].
Qed.

Lemma ok_recordHeartbeat operator now h : hub_ok h → hub_ok (recordHeartbeat operator now h).
Proof.
  intros [Hw1 Hw2 Hb Ho Hh Ha]. split; simpl; [done|done| | | |]; intros k x Hin.
  - destruct (Hb _ _ Hin). split; [done|]. intros. apply JSet.elem_of_add. eauto.
  - apply JSet.elem_of_add. eauto.
  - apply JSet.elem_of_add. apply JMap.elem_of_set in Hin as [[= -> ->]|Hin]; eauto.
  - apply JSet.elem_of_add. eauto.
Qed.

Lemma ok_recordOutcome operator r now h : hub_ok h → hub_ok (recordOutcome operator r now h).
Proof.
  intros [Hw1 Hw2 Hb Ho Hh Ha]. split; simpl; [done|done| | | |]; intros k x Hin.
  - destruct (Hb _ _ Hin). split; [done|]. intros. apply JSet.elem_of_add. eauto.
  - apply JSet.elem_of_add. apply JMap.elem_of_set in Hin as [[= -> ->]|Hin]; eauto.
  - apply JSet.elem_of_add. eauto.
  - apply JSet.elem_of_add. eauto.
Qed.

Lemma ok_drop_job k h : hub_ok h →
  hub_ok (mkHub (h_stats h) (JMap.del k (h_bids h)) (h_outcomes h) (h_knownOperators h)
            (h_lastHeartbeatAt h) (JMap.del k (h_assignments h))).
Proof.
  intros []. split; simpl; [by apply JMap.wf_del|by apply JMap.wf_del| |done|done|].
  - intros k' l [Hin _]%JMap.elem_of_del. eauto.
  - intros k' a [Hin _]%JMap.elem_of_del. eauto.
Qed.

Lemma keep_fresh_elem {A} (fresh : A → bool) m k l :
  (k, l) ∈ keep_fresh fresh m → ∃ l0, (k, l0) ∈ m ∧ l = List.filter fresh l0 ∧ l ≠ [].
Proof.
  unfold keep_fresh. intros [Hin Hne]%JMap.elem_of_retain. simpl in Hne.
  apply list_elem_of_fmap in Hin as ([k0 l0] & [= -> ->] & Hin).
  exists l0. split_and!; [done|done|]. by case_bool_decide.
Qed.

Lemma fst_prod_map {A B} (f : A → B) (m : list (string * A)) : (prod_map id f <$> m).*1 = m.*1.
Proof. induction m as [|[k v] m IH]; [done|]. by rewrite !fmap_cons, IH. Qed.

Lemma keep_fresh_wf {A} (fresh : A → bool) m : JMap.wf m → JMap.wf (keep_fresh fresh m).
Proof.
  intros Hwf. apply JMap.wf_retain. unfold JMap.wf, JMap.keys in *.
  by rewrite fst_prod_map.
Qed.

Lemma sublist_filter_bool {A} (f : A → bool) l : List.filter f l `sublist_of` l.
Proof. induction l as [|x l IH]; simpl; [constructor|]. destruct (f x); by constructor. Qed.

Lemma ok_prune now h : hub_ok h → hub_ok (hub_prune now h).
Proof.
  intros [Hw1 Hw2 Hb Ho Hh Ha].
  split; simpl; [by apply keep_fresh_wf|by apply JMap.wf_retain| | |done|].
  - intros k l (l0 & Hin & -> & _)%keep_fresh_elem. destruct (Hb _ _ Hin) as [Hnd Hk]. split.
    + eapply sublist_NoDup; [exact Hnd|]. apply sublist_fmap, sublist_filter_bool.
    + intros b Hb'%list_elem_of_In. apply filter_In in Hb' as [Hb' _].
      by apply Hk, list_elem_of_In.
  - intros k l (l0 & Hin & _)%keep_fresh_elem. eauto.
  - intros k a [Hin _]%JMap.elem_of_retain. eauto.
Qed.

Lemma ok_failover now h : hub_ok h → hub_ok (runFailoverCheck now h).2.
Proof.
  intros Hok. unfold runFailoverCheck. generalize (h_assignments h) as l. intros l.
  cut (∀ ev, hub_ok (foldl (failover_step now) (ev, h) l).2); [done|].
  revert h Hok. induction l as [|[k a] l IH]; intros h Hok ev; [done|]. cbn [foldl].
  unfold failover_step at 2. destruct (isNodeAlive _ _ _); [by apply IH|].
  unfold alternative. destruct (List.find _ _) as [alt|] eqn:E; [|by apply IH].
  apply IH. apply List.find_some in E as [Hin _]. apply list_elem_of_In in Hin.
  pose proof (ok_bidsFor _ _ _ Hok Hin). destruct Hok.
  split; simpl; [done|by apply JMap.wf_set|done|done|done|].
  intros k' a' [[= -> ->]|Hk]%JMap.elem_of_set; [done|eauto].
Qed.

Lemma set_all_elem {V} (saved m : list (string * V)) p : p ∈ set_all saved m → p ∈ saved ∨ p ∈ m.
Proof.
  revert m. unfold set_all. induction saved as [|[k v] l IH]; intros m Hp; simpl in *; [by right|].
  destruct (IH _ Hp) as [Hl|Hm]; [left; by right|].
  apply JMap.elem_of_set in Hm as [->|Hm]; [left; left|by right].
Qed.

Lemma set_all_wf {V} (saved m : list (string * V)) : JMap.wf m → JMap.wf (set_all saved m).
Proof.
  revert m. unfold set_all. induction saved as [|[k v] l IH]; intros m Hm; simpl; [done|].
  apply IH. by apply JMap.wf_set.
Qed.

Lemma ok_new : hub_ok new_hub.
Proof. split; simpl; try apply JMap.wf_nil; intros ? ? Hin; by apply elem_of_nil in Hin. Qed.

(** A new hub filled from the snapshot of a consistent one is consistent. *)
Lemma ok_restart now h : hub_ok h → hub_ok (hydrate_hub now (snapshot h) new_hub).
Proof.
  intros [Hw1 Hw2 Hb Ho Hh Ha].
  assert (Hk : ∀ x, x ∈ h_knownOperators h →
    x ∈ h_knownOperators (hydrate_hub now (snapshot h) new_hub)).
  { intros x Hx. simpl. apply JSet.elem_of_foldl_add. by right. }
  split; [by apply set_all_wf, JMap.wf_nil|by apply set_all_wf, JMap.wf_nil| | | |];
    intros k x [Hin|Hin%elem_of_nil]%set_all_elem; try done.
  - cbn [snapshot hs_bids] in Hin. rewrite <-list_fmap_compose in Hin.
    apply list_elem_of_fmap in Hin as ([k0 l0] & [= -> ->] & Hin). destruct (Hb _ _ Hin) as [Hnd Hop].
    change (List.map (restore_bid now) (List.map save_bid l0))
      with (restore_bid now <$> (save_bid <$> l0)). split.
    + by rewrite <-!list_fmap_compose.
    + intros b (b1 & -> & (b0 & -> & Hb0)%list_elem_of_fmap)%list_elem_of_fmap. apply Hk, (Hop _ Hb0).
  - apply Hk, (Ho _ _ Hin).
  - apply Hk, (Hh _ _ Hin).
  - cbn [snapshot hs_assignments] in Hin. rewrite <-list_fmap_compose in Hin.
    apply list_elem_of_fmap in Hin as ([k0 a0] & [= -> ->] & Hin). apply Hk, (Ha _ _ Hin).
Qed.

#[export] Hint Resolve ok_rememberBid ok_rememberAssignment ok_recordHeartbeat ok_recordOutcome
  ok_drop_job ok_prune ok_failover ok_restart ok_stats : hub.

(** What happens to a hub: a message, the two timers, the clock, a restart from
    the state it last saved. *)
Inductive hub_step `{HubStore D} : HubWorld (D := D) → HubWorld (D := D) → Prop :=
| hub_receives msg w : hub_step w (onMessage msg w).2
| hub_prunes w : hub_step w (prune_tick w).2
| hub_fails_over w : hub_step w (failover_tick w).2
| hub_clock h d now now' out :
    now <= now' → hub_step (mkHubWorld h d now out) (mkHubWorld h d now' out)
| hub_restarts h d now out :
    hub_step (mkHubWorld h d now out) (mkHubWorld (hydrate_hub now (snapshot h) new_hub) d now out).

Section invariant.
Context {D : Type} `{HubStore D}.
Abbreviation I := (λ w : HubWorld (D := D), hub_ok (hw_hub w)).

Lemma keeps_on_hub f : (∀ h, hub_ok h → hub_ok (f h)) → keeps I (on_hub (D := D) f).
Proof. intros Hf. apply keeps_modify. intros s Hs. by apply Hf. Qed.
Lemma keeps_hub_stats f : keeps I (hub_stats (D := D) f).
Proof. apply keeps_on_hub. intros. by apply ok_stats. Qed.
Lemma keeps_persistState : keeps I persistState.
Proof.
  intros w Hw. unfold persistState. destruct (hw_store w) as [d|]; [|done].
  by destruct (hst_save _ d) as [[] d'].
Qed.
Lemma keeps_persist_detached : keeps I persist_detached.
Proof.
  intros w Hw. pose proof (keeps_persistState w Hw) as Hp. unfold persist_detached.
  by destruct (persistState w) as [[] w'].
Qed.

Lemma keeps_step_hub w w' : hub_step w w' → hub_ok (hw_hub w) → hub_ok (hw_hub w').
Proof.
  assert (Hrun : ∀ {A} (m : M HubWorld A) w0, keeps I m → hub_ok (hw_hub w0) → hub_ok (hw_hub (m w0).2)).
  { intros A m w0 Hm Hw0. specialize (Hm w0 Hw0). by destruct (m w0) as [[] ?]. }
  destruct 1 as [msg w|w|w|h d now now' out _|h d now out]; intros Hok; cbn [hw_hub] in *.
  - apply Hrun; [|done]. unfold onMessage, remember, deliver_message.
    keeps_auto; eauto using keeps_on_hub, keeps_hub_stats, keeps_persistState,
      keeps_persist_detached with hub.
  - apply Hrun; [|done]. unfold prune_tick.
    keeps_auto; eauto using keeps_on_hub, keeps_persist_detached with hub.
  - apply Hrun; [|done]. unfold failover_tick.
    keeps_auto; eauto using keeps_on_hub with hub.
  - done.
  - by apply ok_restart.
Qed.
End invariant.

(** In every state a hub can reach from its start, through any
    messages, both timers and restarts, each operator has at most one bid per job,
    and every operator that bid, reported an outcome, sent a heartbeat or holds an
    assignment is known, so the score board leaves nobody out. *)
Theorem hub_state_consistent `{HubStore D} store now w :
  rtc hub_step (mkHubWorld new_hub store now []) w → hub_ok (hw_hub w).
Proof.
  intros Hr. pose proof (ok_new : hub_ok (hw_hub (mkHubWorld new_hub store now []))) as Hnew.
  induction Hr as [|? ? ? Hs _ IH]; [done|]. apply IH. by eapply keeps_step_hub.
Qed.

(** ** Concrete hubs *)
Section hub_examples.
Local Notation bid op pk := (mkBidMsg "aa" (JStr "stellar") op pk "00" (JStr "") (JStr "0")).
(** Two bids, the job assigned to the silent operator [A]; [B] is alive. *)
Local Notation toy_hub :=
  (mkHub (mkHubStats 0 2 1 0 1 None)
     [("aa", [mkBidEntry (bid "A" "0a") 0; mkBidEntry (bid "B" "0b") 0])] [] ["A"; "B"]
     [("A", 0); ("B", 50000)] [("aa", mkAssignment "A" 0)]).

Lemma failover_witness :
  (runFailoverCheck 60000 toy_hub).1 = [mkFailover "aa" "A" "B"] ∧
  (runFailoverCheck 60000 (runFailoverCheck 60000 toy_hub).2).1 = [].
Proof.
  split; [vm_compute; reflexivity|].
  assert (Hwf : JMap.wf (h_assignments toy_hub)) by apply NoDup_singleton.
  pose proof (failover_moves_to_live_bidder 60000 toy_hub Hwf) as Hp.
  destruct (runFailoverCheck 60000 toy_hub) as [ev h'] eqn:E. simpl.
  destruct Hp as (_ & _ & _ & _ & _ & Hp). exact Hp.
Defined.

Lemma hub_state_witness :
  hub_ok (hw_hub (failover_tick (mkHubWorld (D := MemoryHubStore.t) new_hub None 7 [])).2).
Proof.
  apply (hub_state_consistent None 7).
  eapply rtc_l; [apply hub_fails_over|]. apply rtc_refl.
Defined.
End hub_examples.
