(* ===== verification/HttpBase.v ===== *)
(** * What the HTTP servers share

    The token-bucket limiter ([publisher/src/rate-limit.ts], of which
    [relayer/src/rate-limit.ts] is a copy), the choice of the address a request is
    counted under ([trusted-proxy.ts]), bearer tokens ([publisher/src/auth.ts]) and
    the bounded body reader ([publisher/src/body.ts]).  Token counts, doubles in the
    code, are rationals. *)
From Stdlib Require Import Ascii.
From stdpp Require Import base tactics list sets strings.
From Stdlib Require Import ZArith Lia QArith Qround Lqa.
From S2P Require Import Prelude JsString JsMap Bytes Json PubValidate.
Open Scope string_scope.
Open Scope list_scope.
Open Scope Z_scope.

(** ** Rate limiter *)
Module RateLimit.
Record Bucket : Type := mkBucket { tokens : Q; lastRefill : Z }.

Record RateLimitResult : Type := mkRL {
  allowed : bool;
  limit : Z;
  remaining : Z;
  resetMs : Z;
}.

(** The window, the requests per window and the burst are whole numbers, as in every
    configuration the services document; [numberEnv] would also let fractions through, which
    are not modelled. *)
Record RateLimiter : Type := mkLimiter {
  buckets : list (string * Bucket);
  windowMs : Z;
  maxRequests : Z;
  burstSize : Z;
  lastCleanup : Z;
}.

Definition new (now windowMs maxRequests burstSize : Z) : RateLimiter :=
  mkLimiter [] windowMs maxRequests burstSize now.

Definition set_buckets (bs : list (string * Bucket)) (l : RateLimiter) : RateLimiter :=
  mkLimiter bs (windowMs l) (maxRequests l) (burstSize l) (lastCleanup l).

Definition maybeCleanup (now : Z) (l : RateLimiter) : RateLimiter :=
  if now - lastCleanup l <? windowMs l * 2 then l
  else mkLimiter (JMap.retain (λ _ b, negb (windowMs l * 3 <? now - lastRefill b)) (buckets l))
         (windowMs l) (maxRequests l) (burstSize l) now.

Definition Qmin' (x y : Q) : Q := if Qle_bool x y then x else y.

(** The bucket after the refill at [now]. *)
Definition refilled (now : Z) (l : RateLimiter) (b : Bucket) : Bucket :=
  let elapsed := now - lastRefill b in
  if windowMs l <=? elapsed then mkBucket (inject_Z (burstSize l)) now
  else
    let refill := (inject_Z elapsed / inject_Z (windowMs l) * inject_Z (maxRequests l))%Q in
    mkBucket (Qmin' (inject_Z (burstSize l)) (tokens b + refill)) now.

Definition consume (now : Z) (source : string) (l0 : RateLimiter) : RateLimitResult * RateLimiter :=
  let l := maybeCleanup now l0 in
  let bucket := default (mkBucket (inject_Z (burstSize l)) now) (JMap.get source (buckets l)) in
  let b := refilled now l bucket in
  let resetMs := lastRefill b + windowMs l in
  if Qle_bool 1 (tokens b)
  then
    let b' := mkBucket (tokens b - 1) (lastRefill b) in
    (mkRL true (burstSize l) (Qfloor (tokens b')) resetMs,
     set_buckets (JMap.set source b' (buckets l)) l)
  else (mkRL false (burstSize l) 0 resetMs, set_buckets (JMap.set source b (buckets l)) l).

(** A sequence of requests (time and source), the limiter after it, and how many
    of one source it admitted. *)
Fixpoint run (reqs : list (Z * string)) (l : RateLimiter) : RateLimiter :=
  match reqs with
  | [] => l
  | (now, source) :: reqs' => run reqs' (consume now source l).2
  end.

Fixpoint admitted (s : string) (reqs : list (Z * string)) (l : RateLimiter) : Z :=
  match reqs with
  | [] => 0
  | (now, source) :: reqs' =>
      let '(r, l') := consume now source l in
      (if String.eqb source s && allowed r then 1 else 0) + admitted s reqs' l'
  end.

(** Times do not go back and stay within [t] and [T]. *)
Fixpoint ordered (t : Z) (reqs : list (Z * string)) (T : Z) : Prop :=
  match reqs with
  | [] => t <= T
  | (now, _) :: reqs' => t <= now ∧ ordered now reqs' T
  end.

Section bound.
Context (w m B : Z) (Hw : 0 < w) (Hm : 0 <= m) (HB : 0 <= B).
Local Open Scope Q_scope.

(** The sustained rate, in requests per millisecond. *)
Definition rate : Q := inject_Z (Z.max m B) / inject_Z w.

(** What a source can still spend at time [t]. *)
Definition budget (s : string) (l : RateLimiter) (t : Z) : Q :=
  match JMap.get s (buckets l) with
  | None => inject_Z B
  | Some b => Qmin' (inject_Z B) (tokens b + inject_Z (t - lastRefill b) * rate)
  end.

Record ok (l : RateLimiter) (t : Z) : Prop := {
  ok_window : windowMs l = w;
  ok_max : maxRequests l = m;
  ok_burst : burstSize l = B;
  ok_wf : JMap.wf (buckets l);
  ok_buckets : ∀ k b, (k, b) ∈ buckets l →
    0 <= tokens b ∧ tokens b <= inject_Z B ∧ (lastRefill b <= t)%Z;
}.

Lemma Qmin_spec x y : (Qmin' x y == x /\ x <= y) \/ (Qmin' x y == y /\ y <= x).
Proof.
  unfold Qmin'. destruct (Qle_bool x y) eqn:Hle.
  - left. split; [reflexivity|]. by apply Qle_bool_iff.
  - right. split; [reflexivity|]. apply not_true_iff_false in Hle. rewrite Qle_bool_iff in Hle. lra.
Qed.

Lemma w_pos : 0 < inject_Z w.
Proof. change 0 with (inject_Z 0). by rewrite <-Zlt_Qlt. Qed.
Lemma B_nonneg : 0 <= inject_Z B.
Proof. change 0 with (inject_Z 0). by rewrite <-Zle_Qle. Qed.

Lemma rate_spec e : inject_Z e * rate == inject_Z e / inject_Z w * inject_Z (Z.max m B).
Proof. unfold rate. pose proof w_pos. field. lra. Qed.

Lemma rate_nonneg : 0 <= rate.
Proof.
  unfold rate. apply Qle_shift_div_l; [apply w_pos|]. rewrite Qmult_0_l.
  change 0 with (inject_Z 0). rewrite <-Zle_Qle. lia.
Qed.

(** A whole window refills the burst. *)
Lemma rate_window e : (w <= e)%Z -> inject_Z B <= inject_Z e * rate.
Proof.
  intros He. apply Qle_trans with (inject_Z w * rate).
  - assert (Heq : inject_Z w * rate == inject_Z (Z.max m B)).
    { unfold rate. pose proof w_pos. field. lra. }
    rewrite Heq, <-Zle_Qle. lia.
  - apply Qmult_le_compat_r; [|apply rate_nonneg]. by rewrite <-Zle_Qle.
Qed.

Lemma rate_refill e : (0 <= e)%Z -> inject_Z e / inject_Z w * inject_Z m <= inject_Z e * rate.
Proof.
  intros He. rewrite rate_spec. pose proof w_pos as Hwp.
  assert (0 <= inject_Z e / inject_Z w).
  { apply Qle_shift_div_l; [done|]. rewrite Qmult_0_l. change 0 with (inject_Z 0). by rewrite <-Zle_Qle. }
  rewrite (Qmult_comm _ (inject_Z m)), (Qmult_comm _ (inject_Z (Z.max m B))).
  apply Qmult_le_compat_r; [|done]. rewrite <-Zle_Qle. lia.
Qed.

Lemma rate_time (a b : Z) : (a <= b)%Z -> 0 <= inject_Z (b - a) * rate.
Proof.
  intros Hab. apply Qmult_le_0_compat; [|apply rate_nonneg].
  change 0 with (inject_Z 0). rewrite <-Zle_Qle. lia.
Qed.

Lemma time_split (a b c : Z) :
  inject_Z (c - a) * rate == inject_Z (b - a) * rate + inject_Z (c - b) * rate.
Proof. rewrite <-Qmult_plus_distr_l, <-inject_Z_plus. do 2 f_equiv. f_equal. lia. Qed.

Lemma budget_bounds s l t : ok l t -> 0 <= budget s l t /\ budget s l t <= inject_Z B.
Proof.
  intros Hok. unfold budget. pose proof B_nonneg.
  destruct (JMap.get s (buckets l)) as [b|] eqn:Hg; [|lra].
  apply JMap.get_Some_elem in Hg. destruct (ok_buckets _ _ Hok _ _ Hg) as (H0 & H1 & H2).
  pose proof (rate_time _ _ H2).
  destruct (Qmin_spec (inject_Z B) (tokens b + inject_Z (t - lastRefill b) * rate)) as [[-> ?]|[-> ?]]; lra.
Qed.

Lemma budget_later s l t t' :
  ok l t -> (t <= t')%Z -> budget s l t' <= budget s l t + inject_Z (t' - t) * rate.
Proof.
  intros Hok Ht. pose proof (rate_time _ _ Ht). unfold budget.
  destruct (JMap.get s (buckets l)) as [b|]; [|lra].
  pose proof (time_split (lastRefill b) t t').
  destruct (Qmin_spec (inject_Z B) (tokens b + inject_Z (t - lastRefill b) * rate)) as [[-> ?]|[-> ?]];
  destruct (Qmin_spec (inject_Z B) (tokens b + inject_Z (t' - lastRefill b) * rate)) as [[-> ?]|[-> ?]]; lra.
Qed.

Lemma refilled_ok l now b :
  ok l now -> 0 <= tokens b -> tokens b <= inject_Z B -> (lastRefill b <= now)%Z ->
  0 <= tokens (refilled now l b) /\ tokens (refilled now l b) <= inject_Z B /\
  tokens (refilled now l b) <= Qmin' (inject_Z B) (tokens b + inject_Z (now - lastRefill b) * rate) /\
  lastRefill (refilled now l b) = now.
Proof.
  intros [Hlw Hlm Hlb _ _] H0 H1 H2. unfold refilled. rewrite Hlw, Hlm, Hlb. pose proof B_nonneg.
  destruct (Z.leb_spec w (now - lastRefill b)) as [Hle|Hlt]; simpl.
  - pose proof (rate_window _ Hle).
    destruct (Qmin_spec (inject_Z B) (tokens b + inject_Z (now - lastRefill b) * rate)) as [[-> ?]|[-> ?]];
      split_and!; try done; lra.
  - assert (He : (0 <= now - lastRefill b)%Z) by lia. pose proof (rate_refill _ He).
    assert (0 <= inject_Z (now - lastRefill b) / inject_Z w * inject_Z m).
    { apply Qmult_le_0_compat; [apply Qle_shift_div_l; [apply w_pos|]; rewrite Qmult_0_l|];
        change 0 with (inject_Z 0); by rewrite <-Zle_Qle. }
    set (x := inject_Z (now - lastRefill b) / inject_Z w * inject_Z m) in *.
    destruct (Qmin_spec (inject_Z B) (tokens b + x)) as [[-> ?]|[-> ?]];
    destruct (Qmin_spec (inject_Z B) (tokens b + inject_Z (now - lastRefill b) * rate)) as [[-> ?]|[-> ?]];
      split_and!; try done; lra.
Qed.

Lemma cleanup_ok s l t now :
  ok l t -> (t <= now)%Z ->
  ok (maybeCleanup now l) now /\ budget s (maybeCleanup now l) now <= budget s l now.
Proof.
  intros Hok Ht. pose proof Hok as [Hlw Hlm Hlb Hwf Hbk].
  assert (Hok' : ok l now) by (split; [done..|]; intros k b Hin; destruct (Hbk k b Hin) as (? & ? & ?); split_and!; [done|done|lia]).
  unfold maybeCleanup. destruct (Z.ltb_spec (now - lastCleanup l) (windowMs l * 2)); [split; [done|lra]|].
  split.
  - split; simpl; try done; [by apply JMap.wf_retain|].
    intros k b [Hin _]%JMap.elem_of_retain. exact (ok_buckets _ _ Hok' k b Hin).
  - unfold budget. simpl. rewrite JMap.get_retain by done.
    destruct (JMap.get s (buckets l)) as [b|] eqn:Hg; simpl; [|lra].
    destruct (Z.ltb_spec (windowMs l * 3) (now - lastRefill b)) as [Hlt|]; simpl; [|lra].
    apply JMap.get_Some_elem in Hg. destruct (Hbk _ _ Hg) as (H0 & _ & _).
    assert (Hle : (w <= now - lastRefill b)%Z) by lia. pose proof (rate_window _ Hle).
    destruct (Qmin_spec (inject_Z B) (tokens b + inject_Z (now - lastRefill b) * rate)) as [[-> ?]|[-> ?]]; lra.
Qed.

(** A request spends what it is granted from its source's budget, and nothing of
    the others'. *)
Lemma consume_ok s l t now source :
  ok l t -> (t <= now)%Z ->
  let '(r, l') := consume now source l in
  ok l' now /\
  budget s l' now + inject_Z (if String.eqb source s && allowed r then 1 else 0)%Z <= budget s l now.
Proof.
  intros Hok Ht. destruct (cleanup_ok s l t now Hok Ht) as [Hc Hbud]. unfold consume.
  set (l1 := maybeCleanup now l) in *. pose proof B_nonneg.
  set (b0 := default (mkBucket (inject_Z (burstSize l1)) now) (JMap.get source (buckets l1))).
  assert (Hb0 : 0 <= tokens b0 /\ tokens b0 <= inject_Z B /\ (lastRefill b0 <= now)%Z /\
                (source = s -> Qmin' (inject_Z B) (tokens b0 + inject_Z (now - lastRefill b0) * rate)
                               <= budget s l1 now)).
  { unfold b0. destruct (JMap.get source (buckets l1)) as [b|] eqn:Hg; simpl.
    - pose proof (JMap.get_Some_elem _ _ _ Hg) as Hin.
      destruct (ok_buckets _ _ Hc _ _ Hin) as (? & ? & ?). split_and!; [done..|].
      intros ->. unfold budget. rewrite Hg. lra.
    - rewrite (ok_burst _ _ Hc). split_and!; [done|lra|lia|]. intros ->. unfold budget. rewrite Hg.
      destruct (Qmin_spec (inject_Z B) (inject_Z B + inject_Z (now - now) * rate)) as [[-> ?]|[-> ?]]; lra. }
  destruct Hb0 as (H0 & H1 & H2 & H3).
  destruct (refilled_ok l1 now b0 Hc H0 H1 H2) as (R0 & R1 & R2 & R3).
  set (b := refilled now l1 b0) in *.
  assert (Hset : ∀ b', 0 <= tokens b' -> tokens b' <= tokens b -> lastRefill b' = now ->
    ok (set_buckets (JMap.set source b' (buckets l1)) l1) now /\
    (source = s -> budget s (set_buckets (JMap.set source b' (buckets l1)) l1) now <= tokens b') /\
    (source ≠ s -> budget s (set_buckets (JMap.set source b' (buckets l1)) l1) now <= budget s l1 now)).
  { intros b' Hb1 Hb2 Hb3. pose proof Hc as [? ? ? ? ?]. split_and!.
    - split; simpl; try done; [by apply JMap.wf_set|].
      intros k x [[= -> ->]|Hin]%JMap.elem_of_set; [split_and!; [done|lra|lia]|eauto].
    - intros ->. unfold budget. simpl. rewrite JMap.get_set_eq, Hb3, Z.sub_diag.
      change (inject_Z 0) with 0.
      destruct (Qmin_spec (inject_Z B) (tokens b' + 0 * rate)) as [[-> ?]|[-> ?]]; lra.
    - intros Hne. unfold budget. simpl. rewrite JMap.get_set_ne by congruence. lra. }
  destruct (Qle_bool 1 (tokens b)) eqn:Ha.
  - apply Qle_bool_iff in Ha.
    destruct (Hset (mkBucket (tokens b - 1) (lastRefill b))) as (Hok' & Hs1 & Hs2); [simpl; lra|simpl; lra|done|].
    split; [done|]. simpl in Hs1.
    destruct (String.eqb_spec source s) as [->|Hne]; simpl.
    + specialize (Hs1 eq_refl). specialize (H3 eq_refl). change (inject_Z 1) with 1. lra.
    + specialize (Hs2 Hne). change (inject_Z 0) with 0. lra.
  - destruct (Hset b) as (Hok' & Hs1 & Hs2); [done|lra|done|]. split; [done|].
    simpl. rewrite andb_false_r. change (inject_Z 0) with 0.
    destruct (String.eqb_spec source s) as [->|Hne].
    + specialize (Hs1 eq_refl). specialize (H3 eq_refl). lra.
    + specialize (Hs2 Hne). lra.
Qed.

Lemma admitted_budget s reqs l t T :
  ok l t -> ordered t reqs T ->
  inject_Z (admitted s reqs l) <= budget s l t + inject_Z (T - t) * rate.
Proof.
  revert l t. induction reqs as [|[now source] reqs IH]; intros l t Hok Hord; simpl in *.
  - pose proof (rate_time _ _ Hord). destruct (budget_bounds s l t Hok). change (inject_Z 0) with 0. lra.
  - destruct Hord as [Hle Hord]. pose proof (consume_ok s l t now source Hok Hle) as Hcons.
    destruct (consume now source l) as [r l']. destruct Hcons as [Hok' Hspend].
    specialize (IH l' now Hok' Hord). pose proof (budget_later s l t now Hok Hle).
    pose proof (time_split t now T). rewrite inject_Z_plus. lra.
Qed.

Lemma run_ok reqs l t T : ok l t -> ordered t reqs T -> ok (run reqs l) T.
Proof.
  revert l t. induction reqs as [|[now source] reqs IH]; intros l t Hok Hord; simpl in *.
  - destruct Hok. split; try done. intros k b Hin. destruct (ok_buckets0 k b Hin) as (? & ? & ?).
    split_and!; [done|done|lia].
  - destruct Hord as [Hle Hord]. pose proof (consume_ok "" l t now source Hok Hle) as Hcons.
    destruct (consume now source l) as [r l']. destruct Hcons as [Hok' _]. exact (IH l' now Hok' Hord).
Qed.

Lemma new_ok t : ok (new t w m B) t.
Proof. split; try done; [apply JMap.wf_nil|]. intros k b Hin. by apply elem_of_nil in Hin. Qed.
End bound.

(** C40 (bounds): after any history, and whatever other sources do, a limiter
    admits from one source within [T - t] milliseconds at most the burst plus the
    sustained rate times that span (a full window refills the whole burst, so the
    rate is the larger of [maxRequests] and [burstSize] per window). *)
Theorem admission_bounded w m B t0 history t reqs T s :
  0 < w → 0 <= m → 0 <= B → ordered t0 history t → ordered t reqs T →
  (inject_Z (admitted s reqs (run history (new t0 w m B)))
   <= inject_Z B + inject_Z (T - t) * (inject_Z (Z.max m B) / inject_Z w))%Q.
Proof.
  intros Hw Hm HB Hh Hr.
  pose proof (run_ok w m B Hw Hm HB history _ _ _ (new_ok w m B t0) Hh) as Hok.
  pose proof (admitted_budget w m B Hw Hm HB s reqs _ _ _ Hok Hr) as Ha.
  destruct (budget_bounds w m B Hw Hm HB s _ _ Hok) as [_ Hb]. unfold rate in *. lra.
Qed.

(** A burst of two; one request at time 1, three at time 5: one more is admitted. *)
Section limiter_example.
Local Notation earlier := ([(1, "ip")] : list (Z * string)).
Local Notation burst := ([(5, "ip"); (5, "ip"); (5, "ip")] : list (Z * string)).

Lemma admission_bounded_witness :
  admitted "ip" burst (run earlier (new 0 10 1 2)) = 1 ∧
  (inject_Z (admitted "ip" burst (run earlier (new 0 10 1 2)))
   <= inject_Z 2 + inject_Z (5 - 5) * (inject_Z (Z.max 1 2) / inject_Z 10))%Q.
Proof.
  split; [vm_compute; reflexivity|].
  apply (admission_bounded 10 1 2 0 earlier 5 burst 5 "ip"); simpl; lia.
Defined.
End limiter_example.
End RateLimit.

(** ** Client address *)
Module TrustedProxy.
(** [raw.split(",").map(trim).filter(nonempty)], also used by [parseTokenList]. *)
Definition comma_list (raw : string) : list string :=
  List.filter (λ s, 0 <? slen s) (trim <$> split_on ","%char raw).

Definition loadTrustedProxies (env : option string) : list string :=
  JSet.of_list (comma_list (default "" env)).

Definition resolveClientSource (remoteAddress forwardedFor : option string)
    (trustedProxies : list string) : string :=
  let socketAddress := default "unknown" remoteAddress in
  if (length trustedProxies =? 0)%nat || negb (JSet.has socketAddress trustedProxies)
  then socketAddress
  else match forwardedFor with
       | None => socketAddress
       | Some forwarded =>
           if slen (trim forwarded) =? 0 then socketAddress
           else default socketAddress (last (comma_list forwarded))
       end.

Lemma comma_list_last a hop :
  all_chars (λ c, negb (Ascii.eqb c ","%char)) hop = true → trim hop ≠ "" →
  comma_list (a +:+ String "," hop) = comma_list a ++ [trim hop].
Proof.
  intros Hc Hne. unfold comma_list. rewrite (split_on_app _ _ _ Hc), fmap_app, List.filter_app. simpl.
  destruct (trim hop) as [|x s] eqn:E; [done|]. done.
Qed.

Lemma trimEnd_nonspace s : trimEnd s = "" → all_chars is_space s = true.
Proof.
  induction s as [|c s IH]; simpl; [done|]. destruct (trimEnd s); [|done].
  destruct (is_space c); [|done]. intros _. by apply IH.
Qed.
Lemma trimStart_space s : all_chars is_space (trimStart s) = true → all_chars is_space s = true.
Proof.
  induction s as [|c s IH]; simpl; [done|]. destruct (is_space c) eqn:E; [done|]. simpl. by rewrite E.
Qed.
Lemma trim_empty s : trim s = "" → all_chars is_space s = true.
Proof. intros H%trimEnd_nonspace. by apply trimStart_space. Qed.

Lemma comma_not_blank a b : slen (trim (a +:+ String "," b)) =? 0 = false.
Proof.
  destruct (trim _) as [|c s] eqn:E; [|done]. apply trim_empty in E.
  rewrite all_chars_app in E. apply andb_prop in E as [_ E]. done.
Qed.

(** The address a request is counted under cannot be chosen by the
    client: a peer that is not a configured proxy is counted under its socket
    address whatever header it sends, and behind a configured proxy only the hop
    the proxy appended counts, whatever the client wrote before it. *)
Theorem forged_hops_ignored peer proxies :
  (∀ header, peer ∉ proxies → resolveClientSource (Some peer) header proxies = peer) ∧
  (∀ forged hop, peer ∈ proxies →
    all_chars (λ c, negb (Ascii.eqb c ","%char)) hop = true → trim hop ≠ "" →
    resolveClientSource (Some peer) (Some (forged +:+ String "," hop)) proxies = trim hop).
Proof.
  split.
  - intros header Hn. unfold resolveClientSource, JSet.has. simpl. by rewrite bool_decide_false, orb_true_r.
  - intros forged hop Hin Hc Hne. unfold resolveClientSource, JSet.has. simpl.
    rewrite bool_decide_true by done. rewrite comma_not_blank, (comma_list_last _ _ Hc Hne), last_snoc.
    destruct proxies; [by apply elem_of_nil in Hin|done].
Qed.

(** A forged first hop; the proxy 10.0.0.1 appended the second. *)
Lemma forged_hops_ignored_witness :
  resolveClientSource (Some "6.6.6.6") (Some "1.2.3.4, 10.0.0.1") ["10.0.0.1"] = "6.6.6.6" ∧
  resolveClientSource (Some "10.0.0.1") (Some ("1.2.3.4" +:+ String "," " 6.6.6.6")) ["10.0.0.1"] = "6.6.6.6".
Proof.
  split.
  - apply (forged_hops_ignored "6.6.6.6" ["10.0.0.1"]). by apply (bool_decide_unpack _); vm_compute.
  - apply (forged_hops_ignored "10.0.0.1" ["10.0.0.1"]);
      [by apply (bool_decide_unpack _); vm_compute|done|done].
Defined.
End TrustedProxy.

(** ** Bearer tokens *)
Module Auth.
Record AuthConfig : Type := mkAuth { submitTokens : list string; operatorTokens : list string }.

Definition parseTokenList (raw : option string) : list string :=
  JSet.of_list (TrustedProxy.comma_list (default "" raw)).

Definition constantTimeIncludes (tokens : list string) (candidate : string) : bool :=
  let candidateBuf := utf8 candidate in
  foldl (λ found token,
    let tokenBuf := utf8 token in
    if negb (length tokenBuf =? length candidateBuf)%nat then found
    else if bool_decide (tokenBuf = candidateBuf) then true else found) false tokens.

Definition no_newline (s : string) : bool :=
  all_chars (λ c, negb ((code c =? 10) || (code c =? 13))) s.

(** [/^Bearer\s+(.+)$/i.exec(s)], the captured group; [s] is trimmed, so it does
    not end in white space and [\s+] takes all the white space there is. *)
Definition bearer_match (s : string) : option string :=
  if startsWith "bearer" (toLowerCase s)
  then
    let rest := drop_string 6 s in
    let token := trimStart rest in
    if (slen token <? slen rest) && (0 <? slen token) && no_newline token then Some token else None
  else None.

Definition extractBearerToken (authorization : option string) : option string :=
  match authorization with
  | None => None
  | Some header => trim <$> bearer_match (trim header)
  end.

Definition isAuthorized (tokens : list string) (authorization : option string) : bool :=
  match extractBearerToken authorization with
  | None => false
  | Some token => if String.eqb token "" then false else constantTimeIncludes tokens token
  end.
Definition isAuthorizedSubmitter (authorization : option string) (cfg : AuthConfig) : bool :=
  isAuthorized (submitTokens cfg) authorization.
Definition isAuthorizedOperator (authorization : option string) (cfg : AuthConfig) : bool :=
  isAuthorized (operatorTokens cfg) authorization.

Lemma constantTimeIncludes_spec tokens candidate :
  constantTimeIncludes tokens candidate = true ↔ candidate ∈ tokens.
Proof.
  unfold constantTimeIncludes. set (f := λ found token, _).
  assert (Hf : ∀ b, foldl f b tokens = true ↔ b = true ∨ candidate ∈ tokens); [|rewrite Hf; naive_solver].
  induction tokens as [|t tokens IH]; intros b; simpl; [set_solver|].
  rewrite IH, elem_of_cons. unfold f at 1.
  destruct (Nat.eqb_spec (length (utf8 t)) (length (utf8 candidate))) as [Hl|Hl]; simpl.
  - case_bool_decide as He; [apply utf8_inj in He; naive_solver|].
    assert (candidate ≠ t) by congruence. naive_solver.
  - assert (candidate ≠ t) by congruence. naive_solver.
Qed.
End Auth.

(** ** Requests, bodies and responses *)
Record IncomingMessage : Type := mkRequest {
  rq_method : string;
  rq_url : option string;
  rq_headers : list (string * string);       (** names in lower case *)
  rq_remoteAddress : option string;
  rq_chunks : list (list byte);              (** the body as it streams in *)
}.

Definition header (name : string) (req : IncomingMessage) : option string :=
  JMap.get name (rq_headers req).

(** Bounded body reader.  [buffered] are the chunks kept so far. *)
Module Body.
Section body.
Context (JSON_parse : list byte → res jval).

Fixpoint read_chunks (maxBytes total : Z) (buffered chunks : list (list byte)) : res (list (list byte)) :=
  match chunks with
  | [] => Ok buffered
  | buf :: chunks' =>
      let total' := total + Z.of_nat (length buf) in
      if maxBytes <? total' then Err (PayloadTooLargeError maxBytes)
      else read_chunks maxBytes total' (buffered ++ [buf]) chunks'
  end.

Definition readJsonLimited (req : IncomingMessage) (maxBytes : Z) : res jval :=
  chunks ← read_chunks maxBytes 0 [] (rq_chunks req);
  if (length chunks =? 0)%nat then Ok (JObj [])
  else if (length (concat chunks) =? 0)%nat then Ok (JObj [])   (** [|| "{}"] *)
  else JSON_parse (concat chunks).

(** The relayer's [readJson] parses an empty text instead of defaulting it. *)
Definition readJson (req : IncomingMessage) (maxBytes : Z) : res jval :=
  chunks ← read_chunks maxBytes 0 [] (rq_chunks req);
  if (length chunks =? 0)%nat then Ok (JObj []) else JSON_parse (concat chunks).

Lemma read_chunks_spec maxBytes total buffered chunks :
  read_chunks maxBytes total buffered chunks = Ok (buffered ++ chunks) ∨
  (read_chunks maxBytes total buffered chunks = Err (PayloadTooLargeError maxBytes) ∧
   maxBytes < total + Z.of_nat (length (concat chunks))).
Proof.
  revert total buffered. induction chunks as [|buf chunks IH]; intros total buffered; simpl.
  - left. by rewrite app_nil_r.
  - rewrite length_app. destruct (Z.ltb_spec maxBytes (total + Z.of_nat (length buf))); [right; split; [done|lia]|].
    destruct (IH (total + Z.of_nat (length buf)) (buffered ++ [buf])) as [->|[-> ?]].
    + left. by rewrite <-app_assoc.
    + right. split; [done|lia].
Qed.

Lemma read_chunks_bound maxBytes total buffered chunks r :
  total <= maxBytes → read_chunks maxBytes total buffered chunks = Ok r →
  total + Z.of_nat (length (concat chunks)) <= maxBytes.
Proof.
  revert total buffered. induction chunks as [|buf chunks IH]; intros total buffered Ht; simpl; [lia|].
  rewrite length_app. destruct (Z.ltb_spec maxBytes (total + Z.of_nat (length buf))); [done|].
  intros H1%IH; lia.
Qed.
End body.
End Body.

(** A response: the headers set so far, the head once written, the body once ended. *)
Record ServerResponse (B : Type) : Type := mkResponse {
  rs_headers : list (string * string);
  rs_head : option (Z * list (string * string));
  rs_body : option B;
}.
Arguments mkResponse {B}.
Arguments rs_headers {B}.
Arguments rs_head {B}.
Arguments rs_body {B}.

Definition newResponse {B} : ServerResponse B := mkResponse [] None None.
Definition rs_status {B} (r : ServerResponse B) : option Z := fst <$> rs_head r.

Definition HEADERS_SENT : jserr := JsError "Cannot set headers after they are sent to the client".

Definition put_headers (fields headers : list (string * string)) : list (string * string) :=
  foldl (λ h kv, JMap.set (toLowerCase kv.1) kv.2 h) headers fields.

Definition setHeader {B} (name value : string) : M (ServerResponse B) unit := λ r,
  match rs_head r with
  | Some _ => (Err HEADERS_SENT, r)
  | None => (Ok tt, mkResponse (put_headers [(name, value)] (rs_headers r)) None (rs_body r))
  end.

Definition writeHead {B} (status : Z) (fields : list (string * string)) : M (ServerResponse B) unit := λ r,
  match rs_head r with
  | Some _ => (Err HEADERS_SENT, r)
  | None => (Ok tt, mkResponse (rs_headers r) (Some (status, put_headers fields (rs_headers r))) (rs_body r))
  end.

(** [res.end(body)]; a second one is ignored. *)
Definition endResponse {B} (body : B) : M (ServerResponse B) unit :=
  modify (λ r, mkResponse (rs_headers r) (rs_head r) (Some (default body (rs_body r)))).

(** [/^\/a\/b\/([^/]+)\/c$/.exec(pathname)]: the pathname split at the slashes is
    [before], a non-empty segment, [after]. *)
Definition path_param (before after : list string) (pathname : string) : option string :=
  let parts := split_on "/"%char pathname in
  match drop (length before) parts with
  | x :: rest =>
      if bool_decide (take (length before) parts = before) && bool_decide (rest = after)
         && negb (String.eqb x "")
      then Some x else None
  | [] => None
  end.
