(* ===== verification/PubSnapshot.v ===== *)
(** * Publisher: tree snapshots

    [publisher/src/snapshot.ts]: the downloadable tree of a verifier, with the hash
    of every node the clients need, so that they can build inclusion paths without
    asking the publisher about a particular leaf.  Poseidon and SHA-256 are
    parameters; the table [intermediateHashes] is an insertion-ordered map. *)
From Stdlib Require Import Ascii.
From stdpp Require Import base tactics list sets strings.
From Stdlib Require Import ZArith Lia.
From S2P Require Import Prelude JsString JsMap Bytes Merkle PubEngine HttpBase.
Import Hex32.
Open Scope string_scope.
Open Scope list_scope.
Open Scope Z_scope.

Record SnapshotExport : Type := mkSnapshot {
  sn_version : Z;
  sn_verifierId : string;
  sn_root : string;
  sn_leafCount : Z;
  sn_leaves : list string;
  sn_intermediateHashes : list (string * string);
  sn_generatedAt : string;
}.

(** [`${level}:${start}`] *)
Definition node_key (level start : Z) : string :=
  bigint_toString 10 level +:+ String ":" (bigint_toString 10 start).

Section snapshot.
Context (poseidon : list Z → Z) (sha256 : list byte → list byte).

Definition buildSnapshotLeaves (leaves : list string) : list string := toLowerCase <$> leaves.

Definition zero_table : list Z := push_zeros poseidon TREE_DEPTH 0 [0].

Section nodes.
Context (leaves : list string).

(** [hashes[key] = bigintToHex32(v); return v] *)
Definition record_node (start : Z) (level : nat) (v : Z) : M (list (string * string)) Z :=
  h ← lift_res (bigintToHex32 v);
  modify (JMap.set (node_key (Z.of_nat level) start) h);;
  mret v.

Fixpoint nodeHash (start : Z) (level : nat) : M (list (string * string)) Z :=
  if Z.of_nat (length leaves) <=? start then record_node start level (nth level zero_table 0)
  else
    match level with
    | O => val ← lift_res (BigInt (nth (Z.to_nat start) leaves "")); record_node start O val
    | S level' =>
        let half := Z.shiftl 1 (Z.of_nat level') in
        left ← nodeHash start level';
        right ← nodeHash (start + half) level';
        record_node start (S level') (hashFields poseidon [left; right])
    end.

Definition buildIntermediateHashes : res (list (string * string)) :=
  match nodeHash 0 TREE_DEPTH [] with
  | (Ok _, hashes) => Ok hashes
  | (Err e, _) => Err e
  end.
End nodes.

Definition buildTreeSnapshot (now verifierId : string) (leaves : list string) : res SnapshotExport :=
  let leafValues := buildSnapshotLeaves leaves in
  root ← buildRoot poseidon leafValues;
  intermediateHashes ← buildIntermediateHashes leafValues;
  Ok (mkSnapshot 1 verifierId root (Z.of_nat (length leafValues)) leafValues intermediateHashes now).

(** [leafCount >>> 0] is the count modulo [2^32], as [be_bytes 4] writes it. *)
Definition computeSnapshotHash (s : SnapshotExport) : res string :=
  rootBytes ← hex32ToBytes (sn_root s);
  leafBytes ← mapM_res hex32ToBytes (sn_leaves s);
  Ok ("0x" +:+ hex_of_bytes (sha256 (be_bytes 4 (sn_leafCount s) ++ rootBytes ++ concat leafBytes))).

Definition writeSnapshot (s : SnapshotExport) (files : list (string * SnapshotExport))
  : string * list (string * SnapshotExport) :=
  let p := "snapshots/" +:+ sn_verifierId s +:+ "/" +:+ sn_root s +:+ ".json" in
  (p, JMap.set p s files).

(** The fields' types are fixed here, so the [Array.isArray] and [typeof] tests hold. *)
Definition verifySnapshot (s : SnapshotExport) : bool :=
  (sn_version s =? 1) && negb (String.eqb (sn_root s) "" || String.eqb (sn_verifierId s) "").
End snapshot.

(** ** Keys *)
Lemma dec_no_colon n :
  0 <= n → all_chars (λ c, negb (Ascii.eqb c ":"%char)) (bigint_toString 10 n) = true.
Proof.
  intros Hn. unfold bigint_toString. destruct (Z.ltb_spec n 0); [lia|].
  eapply all_chars_impl; [|by apply toString_dec_digits].
  intros c Hc. destruct (Ascii.eqb_spec c ":"%char) as [->|]; done.
Qed.

Lemma node_key_inj l s l' s' :
  0 <= l → 0 <= s → 0 <= l' → 0 <= s' → node_key l s = node_key l' s' → l = l' ∧ s = s'.
Proof.
  intros Hl Hs Hl' Hs' Heq. apply (f_equal (split_on ":"%char)) in Heq. unfold node_key in Heq.
  rewrite !split_on_app in Heq by (by apply dec_no_colon).
  rewrite !split_on_none in Heq by (by apply dec_no_colon).
  simpl in Heq. injection Heq as E1 E2.
  apply (f_equal BigInt) in E1, E2. rewrite !BigInt_toString in E1, E2. naive_solver.
Qed.

Lemma halves c k q :
  c / 2 ^ Z.of_nat (S k) = q →
  c / 2 ^ Z.of_nat k = 2 * q ∨ c / 2 ^ Z.of_nat k = 2 * q + 1.
Proof.
  intros Hq. rewrite Nat2Z.inj_succ, Z.pow_succ_r in Hq by lia.
  assert (0 < 2 ^ Z.of_nat k) by (apply Z.pow_pos_nonneg; lia).
  rewrite (Z.mul_comm 2), <-Z.div_div in Hq by lia. subst q.
  pose proof (Z.div_mod (c / 2 ^ Z.of_nat k) 2 ltac:(lia)).
  pose proof (Z.mod_pos_bound (c / 2 ^ Z.of_nat k) 2 ltac:(lia)). lia.
Qed.

(** ** What the table holds *)
#[local] Opaque TREE_DEPTH.

Lemma zeros_at poseidon l depth :
  (l ≤ depth)%nat → nth l (push_zeros poseidon depth 0 [0]) 0 = zeroAt poseidon l.
Proof. destruct (wf_newTree poseidon depth) as [Hz _]. exact (Hz l). Qed.

Section table.
Context (poseidon : list Z → Z) (leaves : list string) (vs : list Z).
Context (Hvs : mapM_res BigInt leaves = Ok vs).

Abbreviation value := (λ start level, refRoot poseidon (padded vs) start level).

(** Every entry is the hash of the full subtree its key names. *)
Definition sound (m : list (string * string)) : Prop :=
  ∀ level start h, 0 <= start → JMap.get (node_key (Z.of_nat level) start) m = Some h →
    bigintToHex32 (value start level) = Ok h.

Definition grows (m m' : list (string * string)) : Prop :=
  ∀ k, is_Some (JMap.get k m) → is_Some (JMap.get k m').

(** Both children of the [c]-th node of level [l + 1] are recorded. *)
Definition children (m : list (string * string)) (l : nat) (c : Z) : Prop :=
  is_Some (JMap.get (node_key (Z.of_nat l) (2 * c * 2 ^ Z.of_nat l)) m) ∧
  is_Some (JMap.get (node_key (Z.of_nat l) ((2 * c + 1) * 2 ^ Z.of_nat l)) m).

Lemma grows_trans m1 m2 m3 : grows m1 m2 → grows m2 m3 → grows m1 m3.
Proof. unfold grows. eauto. Qed.
Lemma children_grows m m' l c : grows m m' → children m l c → children m' l c.
Proof. unfold grows, children. naive_solver. Qed.

Lemma record_node_spec start level v m r m' :
  0 <= start → v = value start level → sound m →
  record_node start level v m = (Ok r, m') →
  r = v ∧ sound m' ∧ grows m m' ∧
  ∃ h, bigintToHex32 v = Ok h ∧ JMap.get (node_key (Z.of_nat level) start) m' = Some h.
Proof.
  intros Hs -> Hm Hrun. unfold record_node in Hrun. run_inv Hrun. split; [done|]. split_and!.
  - intros level' start' h Hs' Hg.
    destruct (decide (node_key (Z.of_nat level') start' = node_key (Z.of_nat level) start)) as [He|Hne].
    + apply node_key_inj in He as [Hl ->]; [|lia..]. apply Nat2Z.inj in Hl as ->.
      rewrite JMap.get_set_eq in Hg. congruence.
    + rewrite JMap.get_set_ne in Hg by congruence. by apply Hm.
  - intros k Hk. destruct (decide (k = node_key (Z.of_nat level) start)) as [->|Hne].
    + rewrite JMap.get_set_eq. eauto.
    + by rewrite JMap.get_set_ne by congruence.
  - eexists. split; [done|]. apply JMap.get_set_eq.
Qed.

Lemma length_vs : length vs = length leaves.
Proof. by apply mapM_res_length in Hvs. Qed.

Lemma zero_table_at l : (l ≤ TREE_DEPTH)%nat → nth l (zero_table poseidon) 0 = zeroAt poseidon l.
Proof. exact (zeros_at poseidon l TREE_DEPTH). Qed.

Lemma value_zero start level :
  Z.of_nat (length leaves) <= start → value start level = zeroAt poseidon level.
Proof.
  intros Hs. apply refRoot_zero. intros i Hi. unfold padded. destruct (Z.ltb_spec i 0); [done|].
  rewrite nth_overflow; [done|]. rewrite length_vs. lia.
Qed.

Lemma leaf_value start v :
  0 <= start < Z.of_nat (length leaves) →
  BigInt (nth (Z.to_nat start) leaves "") = Ok v → v = value start O.
Proof.
  intros Hs Hv. simpl. unfold padded. destruct (Z.ltb_spec start 0); [lia|].
  pose proof length_vs as Hlen.
  destruct (lookup_lt_is_Some_2 leaves (Z.to_nat start)) as [x Hx]; [lia|].
  destruct (lookup_lt_is_Some_2 vs (Z.to_nat start)) as [y Hy]; [lia|].
  apply mapM_res_Forall2 in Hvs. eapply Forall2_lookup_lr in Hvs; [|exact Hx|exact Hy].
  rewrite (nth_lookup_Some _ _ _ _ Hx) in Hv. rewrite (nth_lookup_Some _ _ _ _ Hy). congruence.
Qed.

(** The walk below the [q]-th node of a level. *)
Lemma nodeHash_spec level q m r m' :
  (level ≤ TREE_DEPTH)%nat → 0 <= q → sound m →
  nodeHash poseidon leaves (q * 2 ^ Z.of_nat level) level m = (Ok r, m') →
  r = value (q * 2 ^ Z.of_nat level) level ∧ sound m' ∧ grows m m' ∧
  (∃ h, bigintToHex32 r = Ok h ∧
        JMap.get (node_key (Z.of_nat level) (q * 2 ^ Z.of_nat level)) m' = Some h) ∧
  ∀ l k c, (l + S k = level)%nat → c / 2 ^ Z.of_nat k = q →
    c * 2 ^ Z.of_nat (S l) < Z.of_nat (length leaves) → children m' l c.
Proof.
  revert q m r m'. induction level as [|level IH]; intros q m r m' Hlev Hq Hm Hrun.
  - change (2 ^ Z.of_nat 0) with 1 in *. rewrite Z.mul_1_r in *. cbn [nodeHash] in Hrun.
    destruct (Z.leb_spec (Z.of_nat (length leaves)) q) as [Hge|Hlt].
    + apply record_node_spec in Hrun as (-> & ? & ? & ?);
        [|done|by rewrite (value_zero q O), (zero_table_at O) by (done || lia)|done].
      rewrite (zero_table_at O), <-(value_zero q O) at 1 by (done || lia).
      split_and!; try done. intros; lia.
    + apply M_bind_ok in Hrun as (v & s & Hv & Hrun). injection Hv as Hv <-.
      apply leaf_value in Hv; [|lia].
      apply record_node_spec in Hrun as (-> & ? & ? & ?); [|done..].
      split_and!; try done. intros; lia.
  - assert (Hpow : 2 ^ Z.of_nat (S level) = 2 * 2 ^ Z.of_nat level)
      by (rewrite Nat2Z.inj_succ; apply Z.pow_succ_r; lia).
    assert (0 < 2 ^ Z.of_nat level) by (apply Z.pow_pos_nonneg; lia).
    cbn [nodeHash] in Hrun.
    destruct (Z.leb_spec (Z.of_nat (length leaves)) (q * 2 ^ Z.of_nat (S level))) as [Hge|Hlt].
    + apply record_node_spec in Hrun as (-> & ? & ? & ?);
        [|nia|by rewrite value_zero, zero_table_at|done].
      split_and!; try done; [by rewrite value_zero, zero_table_at|].
      intros l k c Hlk Hc Hn. exfalso.
      assert (Z.of_nat (S level) = Z.of_nat k + Z.of_nat (S l)) as Hsum by lia.
      rewrite Hsum, Z.pow_add_r in Hge by lia.
      pose proof (Z.mul_div_le c (2 ^ Z.of_nat k)).
      assert (0 < 2 ^ Z.of_nat k) by (apply Z.pow_pos_nonneg; lia).
      assert (0 < 2 ^ Z.of_nat (S l)) by (apply Z.pow_pos_nonneg; lia). nia.
    + apply M_bind_ok in Hrun as (left & m1 & Hleft & Hrun).
      apply M_bind_ok in Hrun as (right & m2 & Hright & Hrun).
      rewrite Z.shiftl_1_l in Hright.
      assert (E1 : q * 2 ^ Z.of_nat (S level) = 2 * q * 2 ^ Z.of_nat level) by nia.
      assert (E2 : 2 * q * 2 ^ Z.of_nat level + 2 ^ Z.of_nat level = (2 * q + 1) * 2 ^ Z.of_nat level) by lia.
      rewrite E1 in Hleft, Hright, Hrun |- *. rewrite E2 in Hright.
      apply IH in Hleft as (-> & Hs1 & Hg1 & (h1 & _ & Hk1) & Hc1); [|lia|lia|done].
      apply IH in Hright as (-> & Hs2 & Hg2 & (h2 & _ & Hk2) & Hc2); [|lia|lia|done].
      apply record_node_spec in Hrun as (-> & Hs3 & Hg3 & Hk3); [|nia| |done].
      2:{ cbn [refRoot]. unfold hashFields. by rewrite E2. }
      split; [|split_and!; [done|by eapply grows_trans; [|eapply grows_trans]|done|]].
      { cbn [refRoot]. unfold hashFields. by rewrite E2. }
      intros l [|k] c Hlk Hc Hn.
      * change (2 ^ Z.of_nat 0) with 1 in Hc. rewrite Z.div_1_r in Hc. subst c.
        assert (l = level) as -> by lia. split; apply Hg3; [apply Hg2|]; eauto.
      * assert (0 < 2 ^ Z.of_nat k) by (apply Z.pow_pos_nonneg; lia).
        apply halves in Hc. destruct Hc as [He|He].
        -- eapply children_grows; [exact (grows_trans _ _ _ Hg2 Hg3)|]. apply (Hc1 l k c); [lia|done|done].
        -- eapply children_grows; [exact Hg3|]. apply (Hc2 l k c); [lia|done|done].
Qed.
End table.

(** ** Paths from a snapshot *)
Lemma proofPath_lookup poseidon t n l cur k :
  0 <= cur → (k < n)%nat →
  fst <$> proofPath poseidon t n l cur !! k =
  Some (node poseidon t (Z.lxor (cur / 2 ^ Z.of_nat k) 1) (l + k)).
Proof.
  revert l cur k. induction n as [|n IH]; intros l cur [|k] Hc Hk; [lia..| |].
  - simpl. by rewrite Z.div_1_r, Nat.add_0_r.
  - simpl. rewrite IH by (lia || by apply Z.shiftr_nonneg).
    rewrite Z.shiftr_div_pow2, Z.div_div by (try apply Z.pow_pos_nonneg; lia).
    rewrite <-Z.pow_add_r by lia. do 2 f_equal; [|lia]. do 3 f_equal. lia.
Qed.

Lemma buildProof_path poseidon leaves leaf i p :
  buildProof poseidon leaves leaf = Ok (i, p) →
  ∃ t vs, mapM_res BigInt leaves = Ok vs ∧ mt_leaves t = vs ∧ mt_depth t = TREE_DEPTH ∧
    wf_tree poseidon t ∧ 0 <= i < Z.of_nat (length leaves) ∧
    mapM_res bigintToHex32 (proofPath poseidon t TREE_DEPTH 0 i).*1 = Ok (pf_pathElements p) ∧
    bigintToHex32 (refRoot poseidon (padded vs) 0 TREE_DEPTH) = Ok (pf_root p).
Proof.
  intros ([t k] & Hloop & H)%bind_ok.
  destruct (Z.eqb_spec k (-1)) as [|Hk]; [done|].
  apply bind_ok in H as (p' & Hp & [= -> ->]).
  apply (buildProof_loop_spec poseidon) in Hloop as (vs & Hvs & Hl & Hd & Hwf & Hidx); [|lia].
  destruct Hidx as [?|(_ & Hi & _)]; [lia|].
  specialize (Hwf (wf_newTree _ _)). cbn [newTree mt_leaves mt_depth app] in Hl, Hd.
  unfold proof in Hp. destruct (_ || _); [done|].
  apply bind_ok in Hp as (els & Hels & (r & Hr & [= <-])%bind_ok). rewrite Hd in Hels.
  exists t, vs. rewrite <-mapM_BigInt_lower. split_and!; [done..|lia|lia|done|].
  unfold rootHex, root in Hr. rewrite rootFrom_ref in Hr by (done || lia). by rewrite Hl, Hd in Hr.
Qed.

Lemma ancestor_of i l depth :
  0 <= i < 2 ^ Z.of_nat depth → (l < depth)%nat →
  ∃ k, (l + S k)%nat = depth ∧ i / 2 ^ Z.of_nat (S l) / 2 ^ Z.of_nat k = 0 ∧
       i / 2 ^ Z.of_nat (S l) * 2 ^ Z.of_nat (S l) <= i.
Proof.
  intros Hi Hl. exists (depth - S l)%nat.
  assert (0 < 2 ^ Z.of_nat (S l)) by (apply Z.pow_pos_nonneg; lia).
  assert (0 < 2 ^ Z.of_nat (depth - S l)) by (apply Z.pow_pos_nonneg; lia).
  split; [lia|]. rewrite Z.div_div, <-Z.pow_add_r by lia.
  replace (Z.of_nat (S l) + Z.of_nat (depth - S l)) with (Z.of_nat depth) by lia.
  split; [by apply Z.div_small|]. pose proof (Z.mul_div_le i (2 ^ Z.of_nat (S l)) ltac:(lia)). lia.
Qed.

(** The sibling of the [i]-th leaf's ancestor at level [l] is in a table that holds
    the children of every node above a leaf. *)
Lemma path_lookup poseidon leaves vs t i els l m :
  mapM_res BigInt leaves = Ok vs → mt_leaves t = vs → mt_depth t = TREE_DEPTH → wf_tree poseidon t →
  0 <= i < Z.of_nat (length leaves) → (l < TREE_DEPTH)%nat →
  mapM_res bigintToHex32 (proofPath poseidon t TREE_DEPTH 0 i).*1 = Ok els →
  sound poseidon vs m → children m l (i / 2 ^ Z.of_nat (S l)) →
  ∃ e, JMap.get (node_key (Z.of_nat l) (Z.lxor (i / 2 ^ Z.of_nat l) 1 * 2 ^ Z.of_nat l)) m = Some e ∧
       els !! l = Some e.
Proof.
  intros Hvs Hl Hd Hwf Hi Hlt Hels Hs [Hc1 Hc2].
  assert (0 < 2 ^ Z.of_nat l) by (apply Z.pow_pos_nonneg; lia).
  assert (Hcur : 0 <= i / 2 ^ Z.of_nat l) by (apply Z.div_pos; lia).
  destruct (halves i l _ eq_refl) as [He|He]; set (c := i / 2 ^ Z.of_nat (S l)) in *.
  all: assert (Hx : is_Some (JMap.get (node_key (Z.of_nat l)
         (Z.lxor (i / 2 ^ Z.of_nat l) 1 * 2 ^ Z.of_nat l)) m) ∧ 0 <= Z.lxor (i / 2 ^ Z.of_nat l) 1);
    [rewrite lxor_1, land_1, He; split|].
  1: by replace ((2 * c) mod 2) with 0 by (symmetry; rewrite Z.mul_comm; apply Z.mod_mul; lia).
  1: destruct (_ =? 0) eqn:E; [lia|]. 1: rewrite Z.mul_comm, Z.mod_mul in E by lia; done.
  2: replace ((2 * c + 1) mod 2) with 1 by (symmetry; rewrite Z.add_comm, Z.mul_comm, Z.mod_add by lia; done).
  2: by replace (2 * c + 1 - 1) with (2 * c) by lia.
  2: destruct (_ =? 0); lia.
  all: destruct Hx as [[e Hx] Hnn]; exists e; split; [done|];
    apply Hs in Hx; [|nia]; apply mapM_res_Forall2 in Hels;
    pose proof (proofPath_lookup poseidon t TREE_DEPTH 0 i l ltac:(lia) Hlt) as Hp;
    rewrite <-list_lookup_fmap in Hp; eapply Forall2_lookup_l in Hels as (e' & He' & Heq); [|exact Hp];
    rewrite node_ref, Hl in Heq by (done || lia); simpl in Heq; congruence.
Qed.

(** A published snapshot answers every inclusion request by
    itself: its table maps ["20:0"] to its root, and the siblings a client reads
    from it for the [i]-th leaf, level by level, are exactly the path elements
    [buildProof] returns for that leaf, under the same root. *)
Theorem snapshot_serves_every_path poseidon now verifierId leaves s leaf i p :
  buildTreeSnapshot poseidon now verifierId leaves = Ok s →
  buildProof poseidon leaves leaf = Ok (i, p) →
  JMap.get (node_key 20 0) (sn_intermediateHashes s) = Some (sn_root s) ∧
  pf_root p = sn_root s ∧
  ∀ l, (l < TREE_DEPTH)%nat → ∃ e,
    JMap.get (node_key (Z.of_nat l) (Z.lxor (i / 2 ^ Z.of_nat l) 1 * 2 ^ Z.of_nat l))
      (sn_intermediateHashes s) = Some e ∧
    pf_pathElements p !! l = Some e.
Proof.
  intros (root & Hroot & (hashes & Hh & [= <-])%bind_ok)%bind_ok Hp. cbn [sn_intermediateHashes sn_root].
  apply buildProof_path in Hp as (t & vs & Hvs & Hl & Hd & Hwf & Hi & Hels & Hpr).
  assert (Hvs' : mapM_res BigInt (buildSnapshotLeaves leaves) = Ok vs) by (unfold buildSnapshotLeaves; by rewrite mapM_BigInt_lower).
  assert (Hlen : length (buildSnapshotLeaves leaves) = length leaves) by apply length_fmap.
  apply bind_ok in Hroot as (t2 & Ht2 & Hr2).
  apply (insert_all_spec poseidon) in Ht2 as (vs2 & Hvs2 & Hl2 & Hd2 & Hwf2).
  specialize (Hwf2 (wf_newTree _ _)). cbn [newTree mt_leaves mt_depth app] in Hl2, Hd2.
  assert (vs2 = vs) as -> by congruence.
  unfold rootHex, Merkle.root in Hr2. rewrite rootFrom_ref, Hl2, Hd2 in Hr2 by (done || lia).
  assert (pf_root p = root) as -> by (apply Ok_inj; by rewrite <-Hpr, <-Hr2).
  unfold buildIntermediateHashes in Hh.
  destruct (nodeHash poseidon (buildSnapshotLeaves leaves) 0 TREE_DEPTH []) as [[r|e] m] eqn:Hn; [|done].
  apply Ok_inj in Hh as ->. change 0 with (0 * 2 ^ Z.of_nat TREE_DEPTH) in Hn.
  eapply (nodeHash_spec poseidon _ vs Hvs') in Hn as (Hval & Hs & _ & (h & Hh & Hk) & Hc); [|lia|lia|by intros ???? [=]].
  split; [|split; [done|]].
  - rewrite Hval in Hh. rewrite Z.mul_0_l in Hh, Hk. assert (h = root) as -> by (apply Ok_inj; by rewrite <-Hh, <-Hr2). exact Hk.
  - intros l Hlt. eapply (path_lookup poseidon leaves vs t); [done..|].
    assert (Hcap : i < 2 ^ Z.of_nat TREE_DEPTH).
    { destruct Hwf as [_ Hcap]. unfold treeLen in Hcap. rewrite Hl, Hd in Hcap.
      apply mapM_res_length in Hvs. lia. }
    destruct (ancestor_of i l TREE_DEPTH) as (k & Hk1 & Hk2 & Hk3); [lia..|].
    apply (Hc l k); [done|done|]. rewrite Hlen. lia.
Qed.

(** A snapshot of two leaves and the proof of the second. *)
Lemma snapshot_serves_every_path_witness :
  ∃ s i p,
    buildTreeSnapshot toy_hash "t0" "v" [leaf_a; leaf_b] = Ok s ∧
    buildProof toy_hash [leaf_a; leaf_b] leaf_b = Ok (i, p) ∧
    JMap.get (node_key 20 0) (sn_intermediateHashes s) = Some (pf_root p) ∧
    ∃ e, JMap.get (node_key 0 (Z.lxor (i / 1) 1 * 1)) (sn_intermediateHashes s) = Some e ∧
         pf_pathElements p !! O = Some e.
Proof.
  destruct (buildTreeSnapshot toy_hash "t0" "v" [leaf_a; leaf_b]) as [s|e] eqn:Es;
    [|exfalso; vm_compute in Es; discriminate Es].
  destruct (buildProof toy_hash [leaf_a; leaf_b] leaf_b) as [[i p]|e] eqn:Ep;
    [|exfalso; vm_compute in Ep; discriminate Ep].
  destruct (snapshot_serves_every_path toy_hash _ _ _ s _ i p Es Ep) as (Hr & Hpr & Hpath).
  exists s, i, p. split; [reflexivity|]. split; [reflexivity|]. rewrite Hpr. split; [exact Hr|].
  exact (Hpath O ltac:(vm_compute; lia)).
Defined.
