(* ===== verification/PubHttp.v ===== *)
(** * Publisher: the HTTP API

    [publisher/src/http.ts] ([createPublisherHttpServer], [runPublisherLoop]) and
    [publisher/src/metrics.ts].  A request is handled by one run of [handle] over the
    publisher's world, the limiter and the response object; [None] as the state of the
    response's head means that nothing has been sent.  The URL parser,
    [decodeURIComponent], [JSON.parse] and the number format of the uptime are
    parameters, as are the hashes and the key recovery. *)
From Stdlib Require Import Ascii.
From stdpp Require Import base tactics list sets strings.
From Stdlib Require Import ZArith Lia QArith.
From S2P Require Import Prelude JsString JsMap Bytes Merkle Json PubValidate PubStore PubEngine.
From S2P Require Import HttpBase PubSnapshot.
Import Hex32.
Open Scope string_scope.
Open Scope list_scope.
Open Scope Z_scope.

(** ** Metrics text *)
Section metrics.
Context (toFixed1 : Z → string).   (** [(ms / 1000).toFixed(1)] *)

Definition metric (name kind help value : string) : list string :=
  ["# HELP " +:+ name +:+ " " +:+ help; "# TYPE " +:+ name +:+ " " +:+ kind; name +:+ " " +:+ value].

Definition num (z : Z) : string := bigint_toString 10 z.

Definition formatPrometheusMetrics (uptimeMs : Z) (m : PublisherMetrics) : string :=
  join (String (char 10) "")
    (metric "publisher_total_submitted" "counter" "Total number of leaf submissions received." (num (totalSubmitted m))
     ++ metric "publisher_total_accepted" "counter" "Total number of leaf submissions accepted into the inbox." (num (totalAccepted m))
     ++ metric "publisher_total_rejected" "counter" "Total number of leaf submissions rejected (backpressure)." (num (totalRejected m))
     ++ metric "publisher_total_published" "counter" "Total number of root publications to chain." (num (totalPublished m))
     ++ metric "publisher_inbox_depth" "gauge" "Current number of items in the inbox queue." (num (currentInboxDepth m))
     ++ metric "publisher_leaf_count" "gauge" "Current number of leaves in the Merkle tree." (num (currentLeafCount m))
     ++ metric "publisher_last_publish_latency_ms" "gauge" "Latency of the last successful publish tick in milliseconds."
          (num (default (-1) (lastPublishLatencyMs m)))
     ++ metric "publisher_uptime_seconds" "gauge" "Seconds since the publisher process started." (toFixed1 uptimeMs)
     ++ metric "publisher_total_duplicate_resubmissions" "counter" "Total number of idempotent duplicate leaf resubmissions."
          (num (totalDuplicateResubmissions m))
     ++ metric "publisher_total_identity_collisions" "counter" "Total number of identity-colliding leaf submissions flagged."
          (num (totalIdentityCollisions m))
     ++ metric "publisher_total_tick_failures" "counter"
          "Total number of failed background publish ticks (retried on the next interval)." (num (totalTickFailures m)))
  +:+ String (char 10) "".
End metrics.

(** ** Responses *)
Record RootResponse : Type := mkRootResponse {
  rr_verifierId : string;
  rr_leaf : string;
  rr_leafIndex : Z;
  rr_leafCount : Z;
  rr_root : string;
  rr_datasetHash : string;
  rr_pathElements : list string;
  rr_pathIndices : list Z;
}.

(** The bodies the routes send. *)
Inductive PubBody : Type :=
  | BEmpty
  | BError (error : string)
  | BErrorCode (error code : string)
  | BRateLimited (retryAfterSeconds limit remaining : Z)
  | BInboxFull (retryAfterSeconds inboxDepth : Z)
  | BQueued (accepted : LeafCommitment) (inboxDepth : Z)
  | BRoot (r : RootResponse)
  | BSnapshot (snapshot : SnapshotExport) (snapshotHash : string)
  | BQuarantine (files : list QuarantinedFile)
  | BText (text : string)
  | BHealth (verifierId : string) (inboxDepth quarantineSize : Z) (lastPublishAt : option string)
      (totalTickFailures : Z).

(** The operations of the store that only the server uses. *)
Class QuarantineView (S : Type) : Type := {
  st_listQuarantine : S → list QuarantinedFile;
  st_quarantineSize : S → Z;
}.
#[export] Instance memory_quarantine : QuarantineView MemoryStore.t := {|
  st_listQuarantine := MemoryStore.listQuarantine;
  st_quarantineSize := MemoryStore.quarantineSize;
|}.
#[export] Instance file_quarantine : QuarantineView FileStore.t := {|
  st_listQuarantine := FileStore.listQuarantine;
  st_quarantineSize := FileStore.quarantineSize;
|}.

Record PublisherHttpDeps : Type := mkDeps {
  dp_verifierId : string;
  dp_chain : bool;                       (** an adapter with both attestation methods *)
  dp_corsOrigin : option string;
  dp_maxBodyBytes : option Z;
  dp_authConfig : option Auth.AuthConfig;
  dp_trustedProxies : option (list string);
}.

Definition DEFAULT_MAX_BODY_BYTES : Z := 32 * 1024.

(** The clock as one request sees it. *)
Record Clock : Type := mkClock {
  ck_ms : Z;           (** [Date.now()] *)
  ck_iso : string;     (** [new Date().toISOString()] *)
  ck_uptimeMs : Z;     (** [Date.now() - new Date(metrics.startedAt).getTime()] *)
}.

Record HttpWorld (St C : Type) : Type := mkHttp {
  hw_pub : World St C;
  hw_limiter : RateLimit.RateLimiter;
  hw_res : ServerResponse PubBody;
}.
Arguments mkHttp {St C}.
Arguments hw_pub {St C}.
Arguments hw_limiter {St C}.
Arguments hw_res {St C}.

Definition hw_store {St C} (w : HttpWorld St C) : St := w_store (hw_pub w).
Definition hw_metrics {St C} (w : HttpWorld St C) : option PublisherMetrics := w_metrics (hw_pub w).

Section server.
Context {St C : Type} `{Store St} `{QuarantineView St} `{ChainAdapter C}.
Context (poseidon : list Z → Z) (sha256 keccak_256 : list byte → list byte).
Context (recoverPublicKey : list byte → Z → list byte → option (list byte)).
Context (JSON_parse : list byte → res jval).
Context (URL_pathname : string → string → res string).   (** [new URL(url, base).pathname] *)
Context (decodeURIComponent : string → res string).
Context (toFixed1 : Z → string).

Abbreviation Http := (M (HttpWorld St C)).

Definition on_pub {A} (m : M (World St C) A) : Http A := λ w,
  let '(r, p) := m (hw_pub w) in (r, mkHttp p (hw_limiter w) (hw_res w)).
Definition on_res {A} (m : M (ServerResponse PubBody) A) : Http A := λ w,
  let '(r, x) := m (hw_res w) in (r, mkHttp (hw_pub w) (hw_limiter w) x).
Definition on_limiter {A} (f : RateLimit.RateLimiter → A * RateLimit.RateLimiter) : Http A := λ w,
  let '(a, l) := f (hw_limiter w) in (Ok a, mkHttp (hw_pub w) l (hw_res w)).

Definition send (corsOrigin : string) (status : Z) (body : PubBody) (contentType : string) : Http unit :=
  on_res (writeHead status
    [("access-control-allow-origin", corsOrigin);
     ("access-control-allow-methods", "GET,POST,OPTIONS");
     ("access-control-allow-headers", "content-type");
     ("content-type", contentType)]);;
  on_res (endResponse body).

(** ** Submissions *)
Definition count_submitted (m : PublisherMetrics) : PublisherMetrics :=
  mkMetrics (totalSubmitted m + 1) (totalAccepted m) (totalRejected m) (totalPublished m)
    (currentInboxDepth m) (currentLeafCount m) (lastPublishAt m) (lastPublishLatencyMs m) (startedAt m)
    (totalDuplicateResubmissions m) (totalIdentityCollisions m) (totalTickFailures m).
Definition count_rejected (m : PublisherMetrics) : PublisherMetrics :=
  mkMetrics (totalSubmitted m) (totalAccepted m) (totalRejected m + 1) (totalPublished m)
    (currentInboxDepth m) (currentLeafCount m) (lastPublishAt m) (lastPublishLatencyMs m) (startedAt m)
    (totalDuplicateResubmissions m) (totalIdentityCollisions m) (totalTickFailures m).
Definition count_accepted (depth : Z) (m : PublisherMetrics) : PublisherMetrics :=
  mkMetrics (totalSubmitted m) (totalAccepted m + 1) (totalRejected m) (totalPublished m)
    depth (currentLeafCount m) (lastPublishAt m) (lastPublishLatencyMs m) (startedAt m)
    (totalDuplicateResubmissions m) (totalIdentityCollisions m) (totalTickFailures m).
Definition count_tick_failure (m : PublisherMetrics) : PublisherMetrics :=
  mkMetrics (totalSubmitted m) (totalAccepted m) (totalRejected m) (totalPublished m)
    (currentInboxDepth m) (currentLeafCount m) (lastPublishAt m) (lastPublishLatencyMs m) (startedAt m)
    (totalDuplicateResubmissions m) (totalIdentityCollisions m) (totalTickFailures m + 1).

(** The checks of a submission against its attestation: the message of the first
    one that fails. *)
Definition attestation_error (ledger : Z) (c : LeafCommitment) (a : option OnChainAttestation)
  : option string :=
  match a with
  | None => Some "attestation UID does not exist on-chain"
  | Some att =>
      if negb (String.eqb (toLowerCase (oa_schemaId att)) (toLowerCase (lc_schemaId c)))
      then Some "attestation schema does not match submission"
      else if negb (oa_revocationLedger att =? 0) then Some "attestation has been revoked"
      else if negb (oa_expirationLedger att =? 0) && (oa_expirationLedger att <=? ledger)
      then Some "attestation has expired"
      else if negb (verifyHolderSignature keccak_256 recoverPublicKey (lc_attestationUid c)
                      (lc_schemaId c) (lc_leaf c) (lc_holderSignature c) (oa_stealthAddressHash att))
      then Some "holder signature does not control the attested stealth identity"
      else None
  end.

Definition writeInbox (clock : Clock) (c : LeafCommitment) : Http bool := λ w,
  let '(accepted, s) := st_writeInbox (ck_ms clock) c (hw_store w) in
  (Ok accepted, mkHttp (mkWorld s (w_chain (hw_pub w)) (w_metrics (hw_pub w)) (w_manifests (hw_pub w)))
                  (hw_limiter w) (hw_res w)).

(** [Math.ceil(x / 1000)] *)
Definition ceil_s (ms : Z) : Z := - ((- ms) / 1000).

Definition JSON : string := "application/json".

(** The queueing part: synchronous, after the last [await]. *)
Definition enqueue (corsOrigin : string) (clock : Clock) (commitment : LeafCommitment) : Http unit :=
  on_pub (on_metrics count_submitted);;
  accepted ← writeInbox clock commitment;
  if (accepted : bool)
  then
    depth ← gets (λ w, st_inboxSize (hw_store w));
    on_pub (on_metrics (count_accepted depth));;
    send corsOrigin 202 (BQueued commitment depth) JSON
  else
    on_pub (on_metrics count_rejected);;
    depth ← gets (λ w, st_inboxSize (hw_store w));
    send corsOrigin 429 (BInboxFull 30 depth) JSON.

(** After authentication and rate limiting: read, validate, check on chain, queue. *)
Definition acceptBody (deps : PublisherHttpDeps) (clock : Clock) (req : IncomingMessage) : Http unit :=
  let cors := default "*" (dp_corsOrigin deps) in
  raw ← lift_res (Body.readJsonLimited JSON_parse req (default DEFAULT_MAX_BODY_BYTES (dp_maxBodyBytes deps)));
  commitment ← lift_res (normalizeCommitment (ck_iso clock) raw);
  if negb (dp_chain deps)
  then send cors 503 (BError "on-chain attestation validation is unavailable") JSON
  else
    attestation ← on_pub (on_chain (getAttestation (lc_attestationUid commitment)));
    ledger ← on_pub (on_chain currentLedger);
    match attestation_error ledger commitment attestation with
    | Some msg => send cors 422 (BError msg) JSON
    | None => enqueue cors clock commitment
    end.

Definition postLeaves (deps : PublisherHttpDeps) (clock : Clock) (req : IncomingMessage) : Http unit :=
  let cors := default "*" (dp_corsOrigin deps) in
  if match dp_authConfig deps with
     | Some cfg => negb (Auth.isAuthorizedSubmitter (header "authorization" req) cfg)
     | None => false
     end
  then send cors 401 (BError "unauthorized") JSON
  else
    let source := TrustedProxy.resolveClientSource (rq_remoteAddress req) (header "x-forwarded-for" req)
                    (default [] (dp_trustedProxies deps)) in
    rl ← on_limiter (RateLimit.consume (ck_ms clock) source);
    if negb (RateLimit.allowed rl)
    then
      let retryAfter := ceil_s (RateLimit.resetMs rl - ck_ms clock) in
      send cors 429 (BRateLimited retryAfter (RateLimit.limit rl) (RateLimit.remaining rl)) JSON;;
      on_res (setHeader "X-RateLimit-Limit" (num (RateLimit.limit rl)));;
      on_res (setHeader "X-RateLimit-Remaining" (num (RateLimit.remaining rl)));;
      on_res (setHeader "X-RateLimit-Reset" (num (ceil_s (RateLimit.resetMs rl))));;
      on_res (setHeader "Retry-After" (num retryAfter))
    else
      acceptBody deps clock req.

(** ** Reads *)
Definition rootResponse (store : St) (verifierId leaf : string) : res RootResponse :=
  normalizedLeaf ← normalizeHex32 leaf "leaf";
  let leaves := match st_load verifierId store with Some st => ps_leaves st | None => [] end in
  let leafValues := lc_leaf <$> leaves in
  r ← buildProof poseidon leafValues normalizedLeaf;
  let '(leafIndex, proof) := r in
  datasetHash ← computeDatasetHash sha256 (pf_root proof) leafValues;
  Ok (mkRootResponse verifierId normalizedLeaf leafIndex (Z.of_nat (length leafValues)) (pf_root proof)
        datasetHash (pf_pathElements proof) (pf_pathIndices proof)).

Definition getRoot (deps : PublisherHttpDeps) (segment : string) : Http unit :=
  let cors := default "*" (dp_corsOrigin deps) in
  try_catch
    (leaf ← lift_res (decodeURIComponent segment);
     store ← gets hw_store;
     r ← lift_res (rootResponse store (dp_verifierId deps) leaf);
     send cors 200 (BRoot r) JSON)
    (λ _, send cors 404 (BError "leaf not included in the current reputation root") JSON).

Definition getSnapshot (deps : PublisherHttpDeps) (clock : Clock) (segment : string) : Http unit :=
  let cors := default "*" (dp_corsOrigin deps) in
  verifierId ← lift_res (decodeURIComponent segment);
  state ← gets (λ w, st_load verifierId (hw_store w));
  match state with
  | Some st =>
      if (length (ps_leaves st) =? 0)%nat
      then send cors 404 (BError "no leaves found for this verifier") JSON
      else
        snapshot ← lift_res (buildTreeSnapshot poseidon (ck_iso clock) verifierId (lc_leaf <$> ps_leaves st));
        snapshotHash ← lift_res (computeSnapshotHash sha256 snapshot);
        send cors 200 (BSnapshot snapshot snapshotHash) JSON
  | None => send cors 404 (BError "no leaves found for this verifier") JSON
  end.

(** [authConfig && !isAuthorizedOperator(req, authConfig)] answers 401. *)
Definition operator_only (deps : PublisherHttpDeps) (req : IncomingMessage) (m : Http unit) : Http unit :=
  match dp_authConfig deps with
  | Some cfg =>
      if negb (Auth.isAuthorizedOperator (header "authorization" req) cfg)
      then send (default "*" (dp_corsOrigin deps)) 401 (BError "unauthorized") JSON
      else m
  | None => m
  end.

Definition getQuarantine (deps : PublisherHttpDeps) (req : IncomingMessage) : Http unit :=
  operator_only deps req
    (files ← gets (λ w, st_listQuarantine (hw_store w));
     send (default "*" (dp_corsOrigin deps)) 200 (BQuarantine files) JSON).

Definition getMetrics (deps : PublisherHttpDeps) (clock : Clock) (req : IncomingMessage) : Http unit :=
  operator_only deps req
    (m ← gets (λ w, default (createMetrics "") (hw_metrics w));
     send (default "*" (dp_corsOrigin deps)) 200
       (BText (formatPrometheusMetrics toFixed1 (ck_uptimeMs clock) m)) "text/plain; version=0.0.4; charset=utf-8").

Definition getHealth (deps : PublisherHttpDeps) : Http unit :=
  b ← gets (λ w, let m := default (createMetrics "") (hw_metrics w) in
                 BHealth (dp_verifierId deps) (st_inboxSize (hw_store w)) (st_quarantineSize (hw_store w))
                   (lastPublishAt m) (totalTickFailures m));
  send (default "*" (dp_corsOrigin deps)) 200 b JSON.

(** ** Dispatch *)
Definition is_route (method path : string) (req : IncomingMessage) (pathname : string) : bool :=
  String.eqb (rq_method req) method && String.eqb pathname path.

Definition get_param (before : list string) (req : IncomingMessage) (pathname : string) : option string :=
  if String.eqb (rq_method req) "GET" then path_param before [] pathname else None.

Definition route (deps : PublisherHttpDeps) (clock : Clock) (req : IncomingMessage) : Http unit :=
  let cors := default "*" (dp_corsOrigin deps) in
  if String.eqb (rq_method req) "OPTIONS" then send cors 204 BEmpty JSON
  else
    pathname ← lift_res (URL_pathname (default "/" (rq_url req))
                           ("http://" +:+ default "localhost" (header "host" req)));
    if is_route "POST" "/v1/reputation/leaves" req pathname then postLeaves deps clock req
    else match get_param [""; "v1"; "reputation"; "root"] req pathname with
    | Some segment => getRoot deps segment
    | None =>
    match get_param [""; "v1"; "reputation"; "snapshot"] req pathname with
    | Some segment => getSnapshot deps clock segment
    | None =>
      if is_route "GET" "/v1/reputation/quarantine" req pathname then getQuarantine deps req
      else if is_route "GET" "/metrics" req pathname then getMetrics deps clock req
      else if is_route "GET" "/health" req pathname then getHealth deps
      else send cors 404 (BError "not found") JSON
    end end.

Definition handle (deps : PublisherHttpDeps) (clock : Clock) (req : IncomingMessage) : Http unit :=
  let cors := default "*" (dp_corsOrigin deps) in
  try_catch (route deps clock req)
    (λ err, match err with
            | PayloadTooLargeError limitBytes =>
                send cors 413 (BErrorCode ("request body exceeds the " +:+ num limitBytes +:+ " byte limit")
                                 "PAYLOAD_TOO_LARGE") JSON
            | _ => send cors 500 (BErrorCode "Internal server error" "INTERNAL_ERROR") JSON
            end).

(** One round of [runPublisherLoop]: a failed tick is counted, never thrown. *)
Definition loop_round (cfg : TickConfig) (at_ : string) (latencyMs : Z) : M (World St C) unit :=
  try_catch
    (runPublisherTick poseidon sha256 keccak_256 recoverPublicKey cfg at_ latencyMs;; mret tt)
    (λ _, on_metrics count_tick_failure).

(** The rounds until the signal is raised; one [(now, latency)] per round. *)
Fixpoint runPublisherLoop (cfg : TickConfig) (rounds : list (string * Z)) : M (World St C) unit :=
  match rounds with
  | [] => mret tt
  | (at_, ms) :: rounds' => loop_round cfg at_ ms;; runPublisherLoop cfg rounds'
  end.
End server.

(** ** Properties *)
Section properties.
Context {St C : Type} `{Store St} `{QuarantineView St} `{ChainAdapter C}.
Context (poseidon : list Z → Z) (sha256 keccak_256 : list byte → list byte).
Context (recoverPublicKey : list byte → Z → list byte → option (list byte)).
Context (JSON_parse : list byte → res jval).
Context (URL_pathname : string → string → res string) (decodeURIComponent : string → res string).
Context (toFixed1 : Z → string).

Abbreviation Http := (M (HttpWorld St C)).
Abbreviation post := (postLeaves keccak_256 recoverPublicKey JSON_parse).
Abbreviation serve := (handle poseidon sha256 keccak_256 recoverPublicKey JSON_parse URL_pathname
                         decodeURIComponent toFixed1).

Definition fresh (w : HttpWorld St C) : Prop := rs_head (hw_res w) = None.
Definition status (w : HttpWorld St C) : option Z := rs_status (hw_res w).

(** A part of a handler that writes neither the store nor the response. *)
Definition reads {A} (m : Http A) : Prop :=
  ∀ w, hw_store (m w).2 = hw_store w ∧ hw_res (m w).2 = hw_res w.

(** A handler that answers, with anything but an acknowledgement, or throws before
    it has answered; the store stays as it was. *)
Definition quiet (m : Http unit) : Prop :=
  ∀ w, fresh w →
    hw_store (m w).2 = hw_store w ∧
    match (m w).1 with
    | Ok _ => ∃ s, status (m w).2 = Some s ∧ s ≠ 202
    | Err _ => fresh (m w).2
    end.

Lemma send_fresh cors s b ct w :
  fresh w → ∃ w', send cors s b ct w = (Ok tt, w') ∧ hw_pub w' = hw_pub w ∧
                  hw_limiter w' = hw_limiter w ∧ status w' = Some s.
Proof.
  intros Hf. unfold send, mbind, M_bind, on_res, writeHead. unfold fresh in Hf. rewrite Hf.
  eexists. split; [reflexivity|]. done.
Qed.

Lemma send_sent cors s b ct (w : HttpWorld St C) :
  status w ≠ None → send cors s b ct w = (Err HEADERS_SENT, w).
Proof.
  unfold status, rs_status, send, mbind, M_bind, on_res, writeHead. destruct w as [p l [h [hd|] b']]; [done|done].
Qed.

Lemma quiet_send cors s b ct : s ≠ 202 → quiet (send cors s b ct).
Proof.
  intros Hs w Hf. destruct (send_fresh cors s b ct w Hf) as (w' & -> & Hp & _ & Hst). simpl.
  unfold hw_store. rewrite Hp. eauto.
Qed.

Lemma quiet_bind {A} (m : Http A) f : reads m → (∀ a, quiet (f a)) → quiet (m ≫= f).
Proof.
  intros Hm Hq w Hf. unfold mbind, M_bind. specialize (Hm w).
  destruct (m w) as [[a|e] w1]; simpl in Hm; destruct Hm as [Hs Hr].
  - assert (Hf1 : fresh w1) by (unfold fresh; by rewrite Hr). specialize (Hq a w1 Hf1).
    destruct (f a w1) as [[u|e] w2]; simpl in *; destruct Hq as [Hs2 Hq]; by rewrite Hs2, Hs.
  - split; [done|]. simpl. unfold fresh. by rewrite Hr.
Qed.

(** After the outermost [catch] a quiet handler always answers. *)
Lemma try_quiet (m : Http unit) h w :
  quiet m → (∀ e, ∃ cors s b ct, h e = send cors s b ct ∧ s ≠ 202) → fresh w →
  ∃ w' s, try_catch m h w = (Ok tt, w') ∧ hw_store w' = hw_store w ∧ status w' = Some s ∧ s ≠ 202.
Proof.
  intros Hm Hh Hf. specialize (Hm w Hf). unfold try_catch.
  destruct (m w) as [[[]|e] w1]; simpl in Hm; destruct Hm as [Hs Hq].
  - destruct Hq as (s & ? & ?). eauto 10.
  - destruct (Hh e) as (cors & s & b & ct & -> & Hne).
    destruct (send_fresh cors s b ct w1 Hq) as (w' & -> & Hp & _ & Hst).
    exists w', s. split_and!; try done. unfold hw_store in *. by rewrite Hp.
Qed.

Lemma quiet_try (m : Http unit) h :
  quiet m → (∀ e, ∃ cors s b ct, h e = send cors s b ct ∧ s ≠ 202) → quiet (try_catch m h).
Proof.
  intros Hm Hh w Hf. destruct (try_quiet m h w Hm Hh Hf) as (w' & s & -> & ? & ? & ?). simpl. eauto.
Qed.

Lemma reads_lift {A} (r : res A) : reads (lift_res r).
Proof. by intros w. Qed.
Lemma reads_gets {A} (f : HttpWorld St C → A) : reads (gets f).
Proof. by intros w. Qed.
Lemma reads_chain {A} (m : M C A) : reads (on_pub (on_chain m)).
Proof. intros w. unfold on_pub, on_chain. by destruct (m (w_chain (hw_pub w))). Qed.
Lemma reads_limiter {A} (f : RateLimit.RateLimiter → A * _) : reads (on_limiter f).
Proof. intros w. unfold on_limiter. by destruct (f (hw_limiter w)). Qed.

Create HintDb quiet.
Hint Resolve reads_lift reads_gets reads_chain reads_limiter : quiet.

Ltac quiet_auto :=
  repeat match goal with
  | |- quiet (send _ _ _ _) => by apply quiet_send
  | |- quiet (_ ≫= _) => apply quiet_bind; [by eauto with quiet|intros ?]
  | |- quiet (try_catch _ _) => apply quiet_try; [|intros; by eexists _, _, _, _]
  | |- quiet (match ?x with _ => _ end) => destruct x
  end.

Lemma quiet_getRoot deps x : quiet (getRoot poseidon sha256 decodeURIComponent deps x).
Proof. unfold getRoot. quiet_auto. Qed.
Lemma quiet_getSnapshot deps clock x : quiet (getSnapshot poseidon sha256 decodeURIComponent deps clock x).
Proof. unfold getSnapshot. quiet_auto. Qed.
Lemma quiet_operator deps req m : quiet m → quiet (operator_only deps req m).
Proof. intros Hm. unfold operator_only. quiet_auto; done. Qed.

(** Everything but the submission route is quiet. *)
Lemma route_quiet deps clock req (Q : Http unit → Prop) :
  (∀ m, quiet m → Q m) →
  (URL_pathname (default "/" (rq_url req)) ("http://" +:+ default "localhost" (header "host" req))
     = Ok "/v1/reputation/leaves" → rq_method req = "POST" → Q (post deps clock req)) →
  Q (route poseidon sha256 keccak_256 recoverPublicKey JSON_parse URL_pathname decodeURIComponent toFixed1
       deps clock req).
Proof.
  intros HQ Hpost. unfold route.
  destruct (String.eqb_spec (rq_method req) "OPTIONS"); [by apply HQ, quiet_send|].
  set (u := URL_pathname _ _) in *. destruct u as [pathname|e].
  2:{ apply (HQ (throw e)). intros w Hf. done. }
  change (Q (if is_route "POST" "/v1/reputation/leaves" req pathname then post deps clock req
    else match get_param [""; "v1"; "reputation"; "root"] req pathname with
    | Some segment => getRoot poseidon sha256 decodeURIComponent deps segment
    | None =>
    match get_param [""; "v1"; "reputation"; "snapshot"] req pathname with
    | Some segment => getSnapshot poseidon sha256 decodeURIComponent deps clock segment
    | None =>
      if is_route "GET" "/v1/reputation/quarantine" req pathname then getQuarantine deps req
      else if is_route "GET" "/metrics" req pathname then getMetrics toFixed1 deps clock req
      else if is_route "GET" "/health" req pathname then getHealth deps
      else send (default "*" (dp_corsOrigin deps)) 404 (BError "not found") JSON
    end end)).
  destruct (is_route "POST" "/v1/reputation/leaves" req pathname) eqn:Hr.
  { apply andb_prop in Hr as [Hm%String.eqb_eq Hp%String.eqb_eq]. subst. by apply Hpost. }
  destruct (get_param [""; "v1"; "reputation"; "root"] req pathname); [apply HQ, quiet_getRoot|].
  destruct (get_param [""; "v1"; "reputation"; "snapshot"] req pathname); [apply HQ, quiet_getSnapshot|].
  apply HQ. unfold getQuarantine, getMetrics, getHealth.
  destruct (is_route "GET" _ req _); [apply quiet_operator; quiet_auto|].
  destruct (is_route "GET" _ req _); [apply quiet_operator; quiet_auto|]. quiet_auto.
Qed.

(** *** The submission route *)
Definition authorised (deps : PublisherHttpDeps) (req : IncomingMessage) : bool :=
  match dp_authConfig deps with
  | Some cfg => Auth.isAuthorizedSubmitter (header "authorization" req) cfg
  | None => true
  end.

Definition client (deps : PublisherHttpDeps) (req : IncomingMessage) : string :=
  TrustedProxy.resolveClientSource (rq_remoteAddress req) (header "x-forwarded-for" req)
    (default [] (dp_trustedProxies deps)).

Definition admits (deps : PublisherHttpDeps) (clock : Clock) (req : IncomingMessage) (w : HttpWorld St C) : bool :=
  RateLimit.allowed (RateLimit.consume (ck_ms clock) (client deps req) (hw_limiter w)).1.

(** [c] is the commitment of the body, and the chain's answers make it eligible. *)
Definition eligible_submission (deps : PublisherHttpDeps) (clock : Clock) (req : IncomingMessage)
    (w : HttpWorld St C) (c : LeafCommitment) : Prop :=
  ∃ raw att ledger chain1 chain2,
    Body.readJsonLimited JSON_parse req (default DEFAULT_MAX_BODY_BYTES (dp_maxBodyBytes deps)) = Ok raw ∧
    normalizeCommitment (ck_iso clock) raw = Ok c ∧
    dp_chain deps = true ∧
    getAttestation (lc_attestationUid c) (w_chain (hw_pub w)) = (Ok (Some att), chain1) ∧
    currentLedger chain1 = (Ok ledger, chain2) ∧
    eligible keccak_256 recoverPublicKey ledger c (Some att) = true.

(** The commitment went to the store, and the status tells whether it was taken. *)
Definition queued (clock : Clock) (w : HttpWorld St C) (c : LeafCommitment) (w' : HttpWorld St C) : Prop :=
  let '(accepted, s) := st_writeInbox (ck_ms clock) c (hw_store w) in
  hw_store w' = s ∧ status w' = Some (if (accepted : bool) then 202 else 429).

Lemma attestation_error_eligible ledger c a :
  attestation_error keccak_256 recoverPublicKey ledger c a = None ↔
  eligible keccak_256 recoverPublicKey ledger c a = true.
Proof.
  unfold attestation_error, eligible. destruct a as [att|]; [|done].
  destruct (String.eqb _ _), (oa_revocationLedger att =? 0), (oa_expirationLedger att =? 0),
    (verifyHolderSignature _ _ _ _ _ _ _); simpl; try done;
    destruct (Z.leb_spec (oa_expirationLedger att) ledger), (Z.ltb_spec ledger (oa_expirationLedger att));
    simpl; done || lia.
Qed.

Lemma enqueue_run cors clock c w :
  fresh w → ∃ w', enqueue cors clock c w = (Ok tt, w') ∧ queued clock w c w'.
Proof.
  intros Hf. unfold enqueue, queued, writeInbox, on_pub, on_metrics, modify, gets, mbind, M_bind. simpl.
  unfold hw_store at 1 2. simpl. fold (hw_store w).
  destruct (st_writeInbox (ck_ms clock) c (hw_store w)) as [[] s]; simpl;
    (edestruct (send_fresh cors) as (w' & -> & Hp & _ & Hst); [exact Hf|]; exists w';
     split; [done|]; unfold hw_store; by rewrite Hp).
Qed.

Inductive post_outcome (deps : PublisherHttpDeps) (clock : Clock) (req : IncomingMessage)
    (w : HttpWorld St C) : res unit → HttpWorld St C → Prop :=
  | PoLimited w' :
      authorised deps req = true → admits deps clock req w = false →
      hw_store w' = hw_store w → status w' = Some 429 →
      post_outcome deps clock req w (Err HEADERS_SENT) w'
  | PoQueued c w' :
      authorised deps req = true → admits deps clock req w = true →
      eligible_submission deps clock req w c → queued clock w c w' →
      post_outcome deps clock req w (Ok tt) w'
  | PoRefused s w' :
      authorised deps req = false ∨ admits deps clock req w = true →
      hw_store w' = hw_store w → status w' = Some s → s ≠ 202 →
      post_outcome deps clock req w (Ok tt) w'
  | PoThrown e w' :
      admits deps clock req w = true →
      hw_store w' = hw_store w → fresh w' →
      post_outcome deps clock req w (Err e) w'.

Lemma setHeader_sent k v (w : HttpWorld St C) :
  status w ≠ None → on_res (setHeader k v) w = (Err HEADERS_SENT, w).
Proof.
  unfold status, rs_status, on_res, setHeader. destruct w as [p l [h [hd|] b]]; done.
Qed.

Lemma refused_run deps clock req w s b w1 :
  authorised deps req = false ∨ admits deps clock req w = true → s ≠ 202 →
  fresh w1 → hw_store w1 = hw_store w →
  let '(r, w') := send (default "*" (dp_corsOrigin deps)) s b JSON w1 in post_outcome deps clock req w r w'.
Proof.
  intros Hg Hs Hf Hst. edestruct send_fresh as (w' & -> & Hp & _ & Hs'); [exact Hf|].
  eapply PoRefused; [done| |exact Hs'|done]. unfold hw_store in *. by rewrite Hp.
Qed.

(** [w1] is [w] after the limiter has been asked. *)
Lemma accept_run deps clock req w w1 :
  authorised deps req = true → admits deps clock req w = true → fresh w1 → hw_pub w1 = hw_pub w →
  let '(r, w') := acceptBody keccak_256 recoverPublicKey JSON_parse deps clock req w1 in
  post_outcome deps clock req w r w'.
Proof.
  intros Ha Hadm Hf Hpub. assert (Hst : hw_store w1 = hw_store w) by (unfold hw_store; by rewrite Hpub).
  unfold acceptBody. destruct (mbind (M := M (HttpWorld St C)) _ _ w1) as [r w'] eqn:Hrun.
  apply M_bind_case in Hrun as [(e & [= He <-] & ->)|(raw & w2 & [= Hraw <-] & Hrun)]; [by apply PoThrown|].
  apply M_bind_case in Hrun as [(e & [= He <-] & ->)|(c & w2 & [= Hcm <-] & Hrun)]; [by apply PoThrown|].
  destruct (dp_chain deps) eqn:Hch; simpl in Hrun.
  2:{ pose proof (refused_run deps clock req w 503 (BError "on-chain attestation validation is unavailable") w1) as Hs.
      rewrite Hrun in Hs. apply Hs; auto. }
  unfold on_pub, on_chain in Hrun.
  apply M_bind_case in Hrun as [(e & Hrd & ->)|(a & w2 & Hrd & Hrun)]; rewrite ?Hpub in Hrd;
    destruct (getAttestation (lc_attestationUid c) (w_chain (hw_pub w))) as [x c1] eqn:Hatt;
    injection Hrd as -> <-; [by apply PoThrown|].
  apply M_bind_case in Hrun as [(e & Hrd & ->)|(ledger & w2 & Hrd & Hrun)]; cbn [hw_pub w_chain] in Hrd;
    destruct (currentLedger c1) as [x c2] eqn:Hled; injection Hrd as -> <-; [by apply PoThrown|].
  destruct (attestation_error keccak_256 recoverPublicKey ledger c a) as [msg|] eqn:Herr.
  - match type of Hrun with send _ _ _ _ ?x = _ =>
      pose proof (refused_run deps clock req w 422 (BError msg) x) as Hs end.
    rewrite Hrun in Hs. apply Hs; auto.
  - match type of Hrun with enqueue _ _ _ ?x = _ =>
      destruct (enqueue_run (default "*" (dp_corsOrigin deps)) clock c x Hf) as (w4 & Hq & Hqd) end.
    rewrite Hq in Hrun. injection Hrun as <- <-.
    apply attestation_error_eligible in Herr. destruct a as [att|]; [|done].
    apply (PoQueued _ _ _ _ c); [done..|by exists raw, att, ledger, c1, c2|exact Hqd].
Qed.

Lemma post_run deps clock req w :
  fresh w → let '(r, w') := post deps clock req w in post_outcome deps clock req w r w'.
Proof.
  intros Hf. unfold postLeaves. set (cors := default "*" (dp_corsOrigin deps)).
  assert (Hauth : match dp_authConfig deps with
    | Some cfg => negb (Auth.isAuthorizedSubmitter (header "authorization" req) cfg) | None => false end
    = negb (authorised deps req)) by (unfold authorised; by destruct (dp_authConfig deps)).
  rewrite Hauth. clear Hauth. destruct (authorised deps req) eqn:Ha; simpl; [|apply refused_run; auto].
  fold (client deps req). unfold on_limiter at 1, mbind at 1, M_bind at 1.
  destruct (RateLimit.consume (ck_ms clock) (client deps req) (hw_limiter w)) as [rl l] eqn:Hc.
  destruct (RateLimit.allowed rl) eqn:Hal; simpl.
  - apply accept_run; [done|unfold admits; by rewrite Hc|done..].
  - unfold mbind at 1, M_bind at 1.
    assert (Hf1 : fresh (mkHttp (hw_pub w) l (hw_res w))) by exact Hf.
    edestruct (send_fresh cors 429) as (w' & -> & Hp & _ & Hst); [exact Hf1|].
    unfold mbind at 1, M_bind at 1. rewrite setHeader_sent by (by rewrite Hst).
    apply PoLimited; [done|unfold admits; by rewrite Hc| |done]. unfold hw_store. by rewrite Hp.
Qed.

Lemma catch_is_send deps e : ∃ cors s b ct,
  match e with
  | PayloadTooLargeError limitBytes =>
      send (St := St) (C := C) (default "*" (dp_corsOrigin deps)) 413
        (BErrorCode ("request body exceeds the " +:+ num limitBytes +:+ " byte limit") "PAYLOAD_TOO_LARGE") JSON
  | _ => send (default "*" (dp_corsOrigin deps)) 500 (BErrorCode "Internal server error" "INTERNAL_ERROR") JSON
  end = send cors s b ct ∧ s ≠ 202.
Proof. destruct e; by eexists _, _, _, _. Qed.

Definition is_submission (req : IncomingMessage) : Prop :=
  rq_method req = "POST" ∧
  URL_pathname (default "/" (rq_url req)) ("http://" +:+ default "localhost" (header "host" req))
    = Ok "/v1/reputation/leaves".

Lemma submission_route deps clock req w :
  is_submission req →
  route poseidon sha256 keccak_256 recoverPublicKey JSON_parse URL_pathname decodeURIComponent toFixed1
    deps clock req w = post deps clock req w.
Proof.
  intros [Hm Hu]. unfold route, is_route. set (u := URL_pathname _ _) in *. rewrite Hm, Hu. done.
Qed.

Lemma try_catch_ext {S A} (m m' : M S A) h s : m s = m' s → try_catch m h s = try_catch m' h s.
Proof. unfold try_catch. by intros ->. Qed.

(** What one request does, whole. *)
Lemma handle_run deps clock req w :
  fresh w →
  let '(r, w') := serve deps clock req w in
  (∃ s, r = Ok tt ∧ hw_store w' = hw_store w ∧ status w' = Some s ∧ s ≠ 202 ∧
        (is_submission req → authorised deps req = false ∨ admits deps clock req w = true)) ∨
  (r = Err HEADERS_SENT ∧ is_submission req ∧ authorised deps req = true ∧ admits deps clock req w = false ∧
   hw_store w' = hw_store w ∧ status w' = Some 429) ∨
  (∃ c, r = Ok tt ∧ is_submission req ∧ authorised deps req = true ∧ admits deps clock req w = true ∧
        eligible_submission deps clock req w c ∧ queued clock w c w').
Proof.
  intros Hf. unfold handle.
  assert (Hdec : is_submission req ∨ ¬ is_submission req).
  { unfold is_submission. destruct (String.eqb_spec (rq_method req) "POST"); [|naive_solver].
    destruct (URL_pathname _ _) as [p|]; [|naive_solver].
    destruct (String.eqb_spec p "/v1/reputation/leaves"); naive_solver. }
  destruct Hdec as [Hsub|Hsub].
  - rewrite (try_catch_ext _ (post deps clock req)) by (by apply submission_route).
    pose proof (post_run deps clock req w Hf) as Hp. unfold try_catch.
    destruct (post deps clock req w) as [r w1]. destruct Hp as [w'|c w'|s w'|e w' ? Hst Hf'].
    + cbn [HEADERS_SENT]. rewrite send_sent by congruence. right; left. done.
    + right; right. eauto 10.
    + left. eauto 10.
    + destruct (catch_is_send deps e) as (cors & s & b & ct & -> & Hne).
      destruct (send_fresh cors s b ct w' Hf') as (w2 & -> & Hp2 & _ & Hs2). left.
      exists s. unfold hw_store in *. rewrite Hp2. eauto 10.
  - edestruct (try_quiet (route poseidon sha256 keccak_256 recoverPublicKey JSON_parse URL_pathname
      decodeURIComponent toFixed1 deps clock req)) as (w' & s & -> & ? & ? & ?);
      [|apply (catch_is_send deps)|exact Hf|].
    + apply route_quiet; [done|]. intros Hu Hm. by destruct Hsub.
    + left. exists s. naive_solver.
Qed.

(** A request changes the inbox or is acknowledged with 202 only when it
    is an authorised submission the limiter admitted, whose body within the size cap
    validates to a commitment that the tick's own eligibility test accepts for the
    attestation and ledger the chain reported; what is written is exactly that
    commitment, and the answer is 202 if the inbox took it and 429 if it was full. *)
Theorem only_eligible_submissions_queued deps clock req w r w' :
  fresh w → serve deps clock req w = (r, w') →
  hw_store w' ≠ hw_store w ∨ status w' = Some 202 →
  ∃ c, is_submission req ∧ authorised deps req = true ∧ admits deps clock req w = true ∧
       eligible_submission deps clock req w c ∧ queued clock w c w'.
Proof.
  intros Hf Hrun Hch. pose proof (handle_run deps clock req w Hf) as Hh. rewrite Hrun in Hh.
  destruct Hh as [(s & _ & ? & Hs & ? & _)|[(_ & _ & _ & _ & ? & ?)|(c & _ & ?)]]; [|naive_solver..].
  rewrite Hs in Hch. naive_solver.
Qed.

(** Every request is answered once, but the handler's promise is rejected
    exactly on the submissions the rate limiter refuses: the 429 is sent before its
    headers are set, which throws, and answering 500 then throws again.  Nothing
    handles that rejection. *)
Theorem rejects_iff_rate_limited deps clock req w :
  fresh w →
  let '(r, w') := serve deps clock req w in
  (∃ s, status w' = Some s) ∧
  (r = Err HEADERS_SENT ↔
     is_submission req ∧ authorised deps req = true ∧ admits deps clock req w = false) ∧
  (r = Ok tt ∨ r = Err HEADERS_SENT).
Proof.
  intros Hf. pose proof (handle_run deps clock req w Hf) as Hh.
  destruct (serve deps clock req w) as [r w'].
  destruct Hh as [(s & -> & _ & Hs & _ & Hg)|[(-> & ? & ? & ? & _ & ?)|(c & -> & ? & ? & Had & _ & Hq)]].
  - split; [by exists s|]. split; [|by left]. split; [done|]. intros (Hsub & ? & ?). destruct (Hg Hsub); congruence.
  - split; [by eexists|]. split; [done|by right].
  - split; [unfold queued in Hq; destruct (st_writeInbox _ _ _); naive_solver|].
    split; [|by left]. split; [done|]. intros (_ & _ & ?). congruence.
Qed.
End properties.

(** ** The background loop *)
Section loop.
Context {St C : Type} `{Store St} `{ChainAdapter C}.
Context (poseidon : list Z → Z) (sha256 keccak_256 : list byte → list byte).
Context (recoverPublicKey : list byte → Z → list byte → option (list byte)).
Abbreviation tick := (runPublisherTick poseidon sha256 keccak_256 recoverPublicKey).
Abbreviation loop := (runPublisherLoop poseidon sha256 keccak_256 recoverPublicKey).

Definition failures (w : World St C) : option Z := totalTickFailures <$> w_metrics w.

Lemma keeps_failures_chain {A} n (m : M C A) : keeps (λ w : World St C, failures w = n) (on_chain m).
Proof. intros w Hw. unfold on_chain. by destruct (m (w_chain w)) as [[]]. Qed.
Lemma keeps_failures_store n f : keeps (λ w : World St C, failures w = n) (on_store f).
Proof. by intros w Hw. Qed.
Lemma keeps_failures_metrics n f :
  (∀ m, totalTickFailures (f m) = totalTickFailures m) → keeps (λ w : World St C, failures w = n) (on_metrics f).
Proof.
  intros Hf w <-. unfold on_metrics, modify, failures. simpl. destruct (w_metrics w); simpl; [|done]. by rewrite Hf.
Qed.
Lemma keeps_failures_manifest n m : keeps (λ w : World St C, failures w = n) (writeRootManifest m).
Proof. by intros w Hw. Qed.
Hint Resolve keeps_failures_chain keeps_failures_store keeps_failures_metrics keeps_failures_manifest : keeps.

Lemma keeps_failures_valid n ledger l :
  keeps (λ w : World St C, failures w = n) (filterValid keccak_256 recoverPublicKey ledger l).
Proof. induction l; simpl; unfold isValidLeaf; keeps_auto. Qed.
Hint Resolve keeps_failures_valid : keeps.

Lemma tick_keeps_failures n cfg at_ ms : keeps (λ w : World St C, failures w = n) (tick cfg at_ ms).
Proof. unfold runPublisherTick, publishLeaves. keeps_auto. Qed.

Lemma round_run cfg at_ ms (w : World St C) :
  let w' := (loop_round poseidon sha256 keccak_256 recoverPublicKey cfg at_ ms w).2 in
  loop_round poseidon sha256 keccak_256 recoverPublicKey cfg at_ ms w = (Ok tt, w') ∧
  failures w' = (λ n, n + if is_ok (tick cfg at_ ms w).1 then 0 else 1) <$> failures w.
Proof.
  pose proof (tick_keeps_failures (failures w) cfg at_ ms w eq_refl) as Hk.
  unfold loop_round, try_catch, mbind, M_bind. destruct (tick cfg at_ ms w) as [[r|e] w1]; simpl.
  - split; [done|]. rewrite Hk. destruct (failures w); simpl; [f_equal; lia|done].
  - split; [done|]. unfold failures in *. simpl. rewrite <-Hk. by destruct (w_metrics w1).
Qed.

(** The rounds of a run whose tick threw. *)
Fixpoint failed_rounds (cfg : TickConfig) (rounds : list (string * Z)) (w : World St C) : Z :=
  match rounds with
  | [] => 0
  | (at_, ms) :: rounds' =>
      (if is_ok (tick cfg at_ ms w).1 then 0 else 1)
      + failed_rounds cfg rounds' (loop_round poseidon sha256 keccak_256 recoverPublicKey cfg at_ ms w).2
  end.

(** However often the chain or the tree computation fails, the
    background loop keeps running: it completes every round it is given and never
    throws, and the failure counter has grown by exactly the number of ticks that
    threw. *)
Theorem loop_survives_failures cfg rounds (w : World St C) :
  (loop cfg rounds w).1 = Ok tt ∧
  failures (loop cfg rounds w).2 = (λ n, n + failed_rounds cfg rounds w) <$> failures w.
Proof.
  revert w. induction rounds as [|[at_ ms] rounds IH]; intros w; simpl.
  { split; [done|]. destruct (failures w); simpl; [f_equal; lia|done]. }
  destruct (round_run cfg at_ ms w) as [Hr Hf]. rewrite (M_bind_run _ _ _ _ _ Hr).
  destruct (IH (loop_round poseidon sha256 keccak_256 recoverPublicKey cfg at_ ms w).2) as [-> ->].
  split; [done|]. rewrite Hf. destruct (failures w); simpl; [f_equal; lia|done].
Qed.
End loop.

(** ** The server over a concrete store and chain *)
Section server_example.
Local Notation leaf_text := ([Byte.x7b; Byte.x7d] : list byte).
Definition toy_parse (_ : list byte) : res jval := Ok (leaf_json toy_leaf).
Definition toy_pathname (url _ : string) : res string := Ok url.
Definition toy_request : IncomingMessage :=
  mkRequest "POST" (Some "/v1/reputation/leaves") [("authorization", "Bearer s3cret")] (Some "1.2.3.4") [leaf_text].
Definition toy_deps : PublisherHttpDeps :=
  mkDeps "v" true None None (Some (Auth.mkAuth ["s3cret"] [])) None.
Definition toy_clock : Clock := mkClock 10 "t1" 10.
Definition toy_http (burst : Z) : HttpWorld MemoryStore.t ToyChain.t :=
  mkHttp (mkWorld (MemoryStore.new None) (ToyChain.mk 7 None 0) (Some (createMetrics "t0")) [])
    (RateLimit.new 0 60000 burst burst) newResponse.
Local Notation toy_serve burst :=
  (handle toy_hash toy_sha toy_keccak toy_recover toy_parse toy_pathname (λ s, Ok s) (λ _, "0.0")
     toy_deps toy_clock toy_request (toy_http burst)).

Lemma only_eligible_submissions_queued_witness :
  status (toy_serve 5).2 = Some 202 ∧
  ∃ c, queued toy_clock (toy_http 5) c (toy_serve 5).2.
Proof.
  assert (Hs : status (toy_serve 5).2 = Some 202) by (vm_compute; reflexivity).
  split; [exact Hs|]. destruct (toy_serve 5) as [r w'] eqn:E.
  destruct (only_eligible_submissions_queued toy_hash toy_sha toy_keccak toy_recover toy_parse toy_pathname
    (λ s, Ok s) (λ _, "0.0") toy_deps toy_clock toy_request (toy_http 5) r w' eq_refl E (or_intror Hs))
    as (c & _ & _ & _ & _ & Hq).
  exists c. exact Hq.
Defined.

Lemma rejects_iff_rate_limited_witness : (toy_serve 0).1 = Err HEADERS_SENT.
Proof.
  pose proof (rejects_iff_rate_limited toy_hash toy_sha toy_keccak toy_recover toy_parse toy_pathname
    (λ s, Ok s) (λ _, "0.0") toy_deps toy_clock toy_request (toy_http 0) eq_refl) as Hr.
  destruct (toy_serve 0) as [r w']. destruct Hr as (_ & Hr & _). apply Hr.
  split; [split; vm_compute; reflexivity|]. split; vm_compute; reflexivity.
Defined.
End server_example.
