(* ===== verification/RelHttp.v ===== *)
(** * Relayer: the HTTP API and the gossip stream

    [relayer/src/http.ts] ([createRelayerHttpServer]) over an abstract backend (the
    engine of a single node or the hub), and the event stream of
    [relayer/src/gossip.ts] that the server writes and [HttpGossipTransport] reads.
    The URL parser, [decodeURIComponent] and JSON are parameters. *)
From Stdlib Require Import Ascii.
From stdpp Require Import base tactics list sets strings.
From Stdlib Require Import ZArith Lia QArith.
From S2P Require Import Prelude JsString JsMap Bytes Json PubValidate RelPayload RelMessages RelStore.
From S2P Require Import RelEngine RelReconciler RelHub HttpBase.
Open Scope string_scope.
Open Scope list_scope.
Open Scope Z_scope.

Definition GOSSIP_TOPIC : string := "opaque/stellar/jobs/v1".
Definition DEFAULT_MAX_BODY_BYTES : Z := 64 * 1024.

(** The calls the server makes. *)
Inductive BackendCall : Type :=
  | CallBids (jobId : string)
  | CallAdvert (advert : JobAdvert)
  | CallPayload (payload : EncryptedPayload)
  | CallPublish (message : RelayerMessage)
  | CallSubscribe
  | CallHealth
  | CallScores
  | CallScore (operator : string)
  | CallLastReport
  | CallReconcile.

(** [RelayerHttpBackend] over a state [B]; [Stats] is the type of its statistics. *)
Record RelayerHttpBackend (B Stats : Type) : Type := mkBackend {
  be_stats : B → Stats;
  be_bidsFor : string → M B (list RelayerBid);
  be_handleAdvert : JobAdvert → M B (option RelayerBid);
  be_handlePayload : EncryptedPayload → M B (option PayloadResult);
  be_publishGossipMessage : option (RelayerMessage → M B unit);
  be_subscribeGossip : option (B → B);
  be_healthCheck : option (M B HealthReport);
  be_lastReport : option (M B (option ReconciliationReport));
  be_reconcile : option (M B ReconciliationReport);
  be_scoreFor : option (string → M B RelayerScore);
  be_allScores : option (M B (list RelayerScore));
}.
Arguments be_stats {B Stats}.
Arguments be_bidsFor {B Stats}.
Arguments be_handleAdvert {B Stats}.
Arguments be_handlePayload {B Stats}.
Arguments be_publishGossipMessage {B Stats}.
Arguments be_subscribeGossip {B Stats}.
Arguments be_healthCheck {B Stats}.
Arguments be_lastReport {B Stats}.
Arguments be_reconcile {B Stats}.
Arguments be_scoreFor {B Stats}.
Arguments be_allScores {B Stats}.

Inductive RelBody (Stats : Type) : Type :=
  | RbEmpty
  | RbError (error : string)
  | RbErrorCode (error code : string)
  | RbRateLimited (retryAfterSeconds : Z)
  | RbOk
  | RbBid (bid : option RelayerBid)
  | RbBids (bids : list RelayerBid)
  | RbResult (result : option PayloadResult)
  | RbScores (scores : list RelayerScore)
  | RbScore (score : RelayerScore)
  | RbHealth (health : HealthReport)
  | RbStats (stats : Stats)
  | RbReport (report : ReconciliationReport).
Arguments RbEmpty {Stats}.
Arguments RbError {Stats}.
Arguments RbErrorCode {Stats}.
Arguments RbRateLimited {Stats}.
Arguments RbOk {Stats}.
Arguments RbBid {Stats}.
Arguments RbBids {Stats}.
Arguments RbResult {Stats}.
Arguments RbScores {Stats}.
Arguments RbScore {Stats}.
Arguments RbHealth {Stats}.
Arguments RbStats {Stats}.
Arguments RbReport {Stats}.

(** The two limiters are separate objects shared by all requests. *)
Inductive Layer : Type := GlobalLayer | TightLayer.

Record ServerWorld (B Stats : Type) : Type := mkServer {
  sw_backend : B;
  sw_global : RateLimit.RateLimiter;
  sw_limiter : RateLimit.RateLimiter;
  sw_res : ServerResponse (RelBody Stats);
}.
Arguments mkServer {B Stats}.
Arguments sw_backend {B Stats}.
Arguments sw_global {B Stats}.
Arguments sw_limiter {B Stats}.
Arguments sw_res {B Stats}.

Section server.
Context {B Stats : Type} (backend : RelayerHttpBackend B Stats).
Context (keccak_256 : list byte → list byte).
Context (verify : string → list byte → list byte → res bool).
Context (JSON_parse : list byte → res jval).
Context (URL_pathname : string → string → res string) (decodeURIComponent : string → res string).
Context (MAX_BODY_BYTES : Z) (trustedProxies : list string).
Context (now : Z).

Abbreviation Srv := (M (ServerWorld B Stats)).

Definition on_backend {A} (m : M B A) : Srv A := λ w,
  let '(r, b) := m (sw_backend w) in (r, mkServer b (sw_global w) (sw_limiter w) (sw_res w)).
Definition on_res {A} (m : M (ServerResponse (RelBody Stats)) A) : Srv A := λ w,
  let '(r, x) := m (sw_res w) in (r, mkServer (sw_backend w) (sw_global w) (sw_limiter w) x).
Definition consume_layer (layer : Layer) (source : string) : Srv RateLimit.RateLimitResult := λ w,
  match layer with
  | GlobalLayer =>
      let '(rl, l) := RateLimit.consume now source (sw_global w) in
      (Ok rl, mkServer (sw_backend w) l (sw_limiter w) (sw_res w))
  | TightLayer =>
      let '(rl, l) := RateLimit.consume now source (sw_limiter w) in
      (Ok rl, mkServer (sw_backend w) (sw_global w) l (sw_res w))
  end.

Definition num (z : Z) : string := bigint_toString 10 z.
(** [Math.ceil(x / 1000)] *)
Definition ceil_s (ms : Z) : Z := - ((- ms) / 1000).

Definition send (status : Z) (body : RelBody Stats) : Srv unit :=
  on_res (writeHead status
    [("access-control-allow-headers", "content-type");
     ("access-control-allow-methods", "GET,POST,OPTIONS");
     ("access-control-allow-origin", "*");
     ("content-type", "application/json")]);;
  on_res (endResponse body).

Definition extractSource (req : IncomingMessage) : string :=
  TrustedProxy.resolveClientSource (rq_remoteAddress req) (header "x-forwarded-for" req) trustedProxies.

Definition applyRateLimitHeaders (rl : RateLimit.RateLimitResult) : Srv unit :=
  on_res (setHeader "X-RateLimit-Limit" (num (RateLimit.limit rl)));;
  on_res (setHeader "X-RateLimit-Remaining" (num (RateLimit.remaining rl)));;
  on_res (setHeader "X-RateLimit-Reset" (num (ceil_s (RateLimit.resetMs rl)))).

Definition rejectRateLimited (rl : RateLimit.RateLimitResult) : Srv unit :=
  let retryAfter := Z.max 0 (ceil_s (RateLimit.resetMs rl - now)) in
  on_res (writeHead 429
    [("access-control-allow-origin", "*");
     ("access-control-allow-methods", "GET,POST,OPTIONS");
     ("access-control-allow-headers", "content-type");
     ("content-type", "application/json");
     ("X-RateLimit-Limit", num (RateLimit.limit rl));
     ("X-RateLimit-Remaining", num (RateLimit.remaining rl));
     ("X-RateLimit-Reset", num (ceil_s (RateLimit.resetMs rl)));
     ("Retry-After", num retryAfter)]);;
  on_res (endResponse (RbRateLimited retryAfter)).

(** The loop over the layers; [true] when the request was rejected. *)
Fixpoint rateLimited (source : string) (layers : list Layer) : Srv bool :=
  match layers with
  | [] => mret false
  | layer :: layers' =>
      rl ← consume_layer layer source;
      applyRateLimitHeaders rl;;
      if RateLimit.allowed rl then rateLimited source layers'
      else rejectRateLimited rl;; mret true
  end.

(** [if (rateLimited(req, res, [layer])) return; ...] *)
Definition unlessLimited (layer : Layer) (req : IncomingMessage) (m : Srv unit) : Srv unit :=
  limited ← rateLimited (extractSource req) [layer];
  if (limited : bool) then mret tt else m.

Definition readGossipEnvelope (v : jval) : res RelayerMessage :=
  if negb (str_is (prop v "topic") GOSSIP_TOPIC) then Err (JsError "Invalid gossip topic.")
  else validateRelayerMessage (prop v "message").

Definition readBody (req : IncomingMessage) : res jval := Body.readJson JSON_parse req MAX_BODY_BYTES.

Definition set_key (key : option string) (p : EncryptedPayload) : EncryptedPayload :=
  match key with
  | Some k => if String.eqb k "" then p else mkEncrypted (ep_jobId p) (ep_to p) (ep_box p) (Some k)
  | None => p
  end.

(** *** Routes *)
(** The stream stays open: what is written to it is [stream_text] below. *)
Definition getStream : Srv unit :=
  match be_subscribeGossip backend with
  | None => send 404 (RbError "gossip unavailable")
  | Some subscribe =>
      on_res (writeHead 200
        [("access-control-allow-origin", "*");
         ("cache-control", "no-cache, no-transform");
         ("connection", "keep-alive");
         ("content-type", "text/event-stream")]);;
      on_backend (modify subscribe)
  end.

(** The 401 a signed report with a bad signature gets. *)
Definition signature_error (m : RelayerMessage) : option string :=
  match m with
  | MsgOutcome o => if verifyOutcome keccak_256 verify o then None else Some "invalid outcome signature"
  | MsgHeartbeat h => if verifyHeartbeat keccak_256 verify h then None else Some "invalid heartbeat signature"
  | _ => None
  end.

Definition postGossip (req : IncomingMessage) : Srv unit :=
  unlessLimited TightLayer req
    match be_publishGossipMessage backend with
    | None => send 404 (RbError "gossip unavailable")
    | Some publish =>
        raw ← lift_res (readBody req);
        message ← lift_res (readGossipEnvelope raw);
        match signature_error message with
        | Some e => send 401 (RbError e)
        | None => on_backend (publish message);; send 202 RbOk
        end
    end.

Definition postJob (req : IncomingMessage) : Srv unit :=
  unlessLimited TightLayer req
    (raw ← lift_res (readBody req);
     advert ← lift_res (validateAdvert raw);
     bid ← on_backend (be_handleAdvert backend advert);
     send 202 (RbBid bid)).

Definition getBids (segment : string) : Srv unit :=
  jobId ← lift_res (decodeURIComponent segment);
  bids ← on_backend (be_bidsFor backend jobId);
  send 200 (RbBids bids).

Definition postPayload (segment : string) (req : IncomingMessage) : Srv unit :=
  unlessLimited TightLayer req
    (raw ← lift_res (readBody req);
     p ← lift_res (validatePayload raw);
     let payload := set_key (header "x-idempotency-key" req) p in
     jobId ← lift_res (decodeURIComponent segment);
     if negb (String.eqb (toLowerCase (ep_jobId payload)) (toLowerCase jobId))
     then send 400 (RbError "jobId mismatch")
     else
       result ← on_backend (be_handlePayload backend payload);
       send 202 (RbResult result)).

Definition getScores : Srv unit :=
  match be_allScores backend with
  | None => send 404 (RbError "scoring unavailable")
  | Some m => scores ← on_backend m; send 200 (RbScores scores)
  end.

Definition getScore (segment : string) : Srv unit :=
  match be_scoreFor backend with
  | None => send 404 (RbError "scoring unavailable")
  | Some f => operator ← lift_res (decodeURIComponent segment); score ← on_backend (f operator); send 200 (RbScore score)
  end.

Definition getHealth : Srv unit :=
  match be_healthCheck backend with
  | Some m => health ← on_backend m; send 200 (RbHealth health)
  | None => s ← gets (λ w, be_stats backend (sw_backend w)); send 200 (RbStats s)
  end.

(** [!authHeader || !authHeader.startsWith("Bearer ")] answers 401. *)
Definition has_bearer (req : IncomingMessage) : bool :=
  match header "authorization" req with
  | Some h => negb (String.eqb h "") && startsWith "Bearer " h
  | None => false
  end.

Definition getReconcile (req : IncomingMessage) : Srv unit :=
  if negb (has_bearer req) then send 401 (RbError "authentication required")
  else unlessLimited TightLayer req
    match be_lastReport backend with
    | None => send 404 (RbError "reconciler not configured")
    | Some m =>
        report ← on_backend m;
        match report with
        | None => send 204 RbEmpty
        | Some r => send 200 (RbReport r)
        end
    end.

Definition postReconcile (req : IncomingMessage) : Srv unit :=
  if negb (has_bearer req) then send 401 (RbError "authentication required")
  else unlessLimited TightLayer req
    match be_reconcile backend with
    | None => send 404 (RbError "reconciler not configured")
    | Some m => report ← on_backend m; send 200 (RbReport report)
    end.

(** *** Dispatch *)
Definition is_route (method path : string) (req : IncomingMessage) (pathname : string) : bool :=
  String.eqb (rq_method req) method && String.eqb pathname path.

Definition param (method : string) (before after : list string) (req : IncomingMessage) (pathname : string)
  : option string :=
  if String.eqb (rq_method req) method then path_param before after pathname else None.

(** After the loose limiter. *)
Definition dispatch (req : IncomingMessage) (pathname : string) : Srv unit :=
  if is_route "GET" "/v1/gossip/stream" req pathname then getStream
  else if is_route "POST" "/v1/gossip/messages" req pathname then postGossip req
  else if is_route "POST" "/v1/jobs" req pathname then postJob req
  else match param "GET" [""; "v1"; "jobs"] ["bids"] req pathname with
  | Some segment => getBids segment
  | None =>
  match param "POST" [""; "v1"; "jobs"] ["payload"] req pathname with
  | Some segment => postPayload segment req
  | None =>
    if is_route "GET" "/v1/relayers/scores" req pathname then getScores
    else match param "GET" [""; "v1"; "relayers"] ["score"] req pathname with
    | Some segment => getScore segment
    | None =>
      if is_route "GET" "/health" req pathname then getHealth
      else if is_route "GET" "/v1/reconcile" req pathname then getReconcile req
      else if is_route "POST" "/v1/reconcile" req pathname then postReconcile req
      else send 404 (RbError "not found")
    end end end.

Definition route (req : IncomingMessage) : Srv unit :=
  pathname ← lift_res (URL_pathname (default "/" (rq_url req)) "http://127.0.0.1");
  if String.eqb (rq_method req) "OPTIONS" then send 204 RbEmpty
  else unlessLimited GlobalLayer req (dispatch req pathname).

Definition handle (req : IncomingMessage) : Srv unit :=
  try_catch (route req)
    (λ err, match err with
            | PayloadTooLargeError limitBytes =>
                send 413 (RbErrorCode ("request body exceeds the " +:+ num limitBytes +:+ " byte limit")
                            "PAYLOAD_TOO_LARGE")
            | _ => send 400 (RbErrorCode "Bad request" "BAD_REQUEST")
            end).
End server.

(** ** Properties of the server *)
Section properties.
Context {B Stats : Type} (backend : RelayerHttpBackend B Stats).
Context (keccak_256 : list byte → list byte).
Context (verify : string → list byte → list byte → res bool).
Context (JSON_parse : list byte → res jval).
Context (URL_pathname : string → string → res string) (decodeURIComponent : string → res string).
Context (MAX_BODY_BYTES : Z) (trustedProxies : list string) (now : Z).

Abbreviation Srv := (M (ServerWorld B Stats)).
Abbreviation serve := (handle backend keccak_256 verify JSON_parse URL_pathname decodeURIComponent
                         MAX_BODY_BYTES trustedProxies now).
Abbreviation body := (readBody JSON_parse MAX_BODY_BYTES).

Definition fresh (w : ServerWorld B Stats) : Prop := rs_head (sw_res w) = None.
Definition status (w : ServerWorld B Stats) : option Z := rs_status (sw_res w).

(** What a call does to the backend. *)
Definition call_effect (c : BackendCall) (b : B) : B :=
  match c with
  | CallBids j => (be_bidsFor backend j b).2
  | CallAdvert a => (be_handleAdvert backend a b).2
  | CallPayload p => (be_handlePayload backend p b).2
  | CallPublish m => match be_publishGossipMessage backend with Some f => (f m b).2 | None => b end
  | CallSubscribe => match be_subscribeGossip backend with Some f => f b | None => b end
  | CallHealth => match be_healthCheck backend with Some f => (f b).2 | None => b end
  | CallScores => match be_allScores backend with Some f => (f b).2 | None => b end
  | CallScore o => match be_scoreFor backend with Some f => (f o b).2 | None => b end
  | CallLastReport => match be_lastReport backend with Some f => (f b).2 | None => b end
  | CallReconcile => match be_reconcile backend with Some f => (f b).2 | None => b end
  end.

Definition admits (l : RateLimit.RateLimiter) (req : IncomingMessage) : bool :=
  RateLimit.allowed (RateLimit.consume now (extractSource trustedProxies req) l).1.

(** When a request may cause a call; [tight] is the limiter of the writing routes. *)
Definition guarded (tight : RateLimit.RateLimiter) (req : IncomingMessage) (c : BackendCall) : Prop :=
  match c with
  | CallAdvert a =>
      rq_method req = "POST" ∧ admits tight req = true ∧
      ∃ raw, body req = Ok raw ∧ validateAdvert raw = Ok a
  | CallPayload p =>
      rq_method req = "POST" ∧ admits tight req = true ∧
      ∃ raw p0 segment jobId,
        body req = Ok raw ∧ validatePayload raw = Ok p0 ∧ p = set_key (header "x-idempotency-key" req) p0 ∧
        decodeURIComponent segment = Ok jobId ∧ toLowerCase (ep_jobId p) = toLowerCase jobId
  | CallPublish m =>
      rq_method req = "POST" ∧ admits tight req = true ∧
      (∃ raw, body req = Ok raw ∧ readGossipEnvelope raw = Ok m) ∧
      match m with
      | MsgOutcome o => verifyOutcome keccak_256 verify o = true
      | MsgHeartbeat h => verifyHeartbeat keccak_256 verify h = true
      | _ => True
      end
  | CallReconcile => rq_method req = "POST" ∧ has_bearer req = true ∧ admits tight req = true
  | CallLastReport => rq_method req = "GET" ∧ has_bearer req = true ∧ admits tight req = true
  | _ => rq_method req = "GET"
  end.

(** [m] makes at most one call, allowed by [G], and answers, or throws before it has. *)
Definition obeys (G : BackendCall → Prop) (m : Srv unit) (w : ServerWorld B Stats) : Prop :=
  (sw_backend (m w).2 = sw_backend w ∨
   ∃ c, G c ∧ sw_backend (m w).2 = call_effect c (sw_backend w)) ∧
  match (m w).1 with Ok _ => status (m w).2 ≠ None | Err _ => fresh (m w).2 end.

Lemma send_run s b (w : ServerWorld B Stats) :
  fresh w → ∃ w', send s b w = (Ok tt, w') ∧ sw_backend w' = sw_backend w ∧ status w' = Some s.
Proof.
  intros Hf. unfold send, mbind, M_bind, on_res, writeHead. unfold fresh in Hf. rewrite Hf. by eexists.
Qed.

Lemma obeys_send G s b w : fresh w → obeys G (send s b) w.
Proof.
  intros Hf. destruct (send_run s b w Hf) as (w' & Hr & Hb & Hs). unfold obeys. rewrite Hr. simpl.
  rewrite Hs. auto.
Qed.

Lemma obeys_lift {A} G (r : res A) f w :
  fresh w → (∀ a, r = Ok a → obeys G (f a) w) → obeys G (lift_res r ≫= f) w.
Proof.
  intros Hf Hk. destruct r as [a|e]; [exact (Hk a eq_refl)|]. split; [by left|exact Hf].
Qed.

Lemma obeys_call {A} (G : BackendCall → Prop) c (m : M B A) f w :
  fresh w → G c → (∀ b, (m b).2 = call_effect c b) → (∀ a, ∃ s b, f a = send s b) →
  obeys G (on_backend m ≫= f) w.
Proof.
  intros Hf Hc Hm Hs. unfold obeys, mbind, M_bind, on_backend. specialize (Hm (sw_backend w)).
  destruct (m (sw_backend w)) as [[a|e] b]; simpl in *; subst b.
  - destruct (Hs a) as (s & b & ->). set (w1 := mkServer _ _ _ _).
    destruct (send_run s b w1 Hf) as (w' & -> & Hb & Hst). simpl. rewrite Hst, Hb. split; [right; by exists c|done].
  - split; [right; by exists c|exact Hf].
Qed.

Lemma set_headers_run rl (w : ServerWorld B Stats) :
  fresh w → ∃ w', applyRateLimitHeaders rl w = (Ok tt, w') ∧ fresh w' ∧ sw_backend w' = sw_backend w ∧
                  sw_limiter w' = sw_limiter w ∧ sw_global w' = sw_global w.
Proof.
  intros Hf. unfold applyRateLimitHeaders, mbind, M_bind, on_res, setHeader. unfold fresh in Hf.
  rewrite Hf. simpl. by eexists.
Qed.

Definition layer_of (layer : Layer) (w : ServerWorld B Stats) : RateLimit.RateLimiter :=
  match layer with GlobalLayer => sw_global w | TightLayer => sw_limiter w end.

Lemma limited_run layer req (w : ServerWorld B Stats) :
  fresh w → ∃ w1,
    rateLimited now (extractSource trustedProxies req) [layer] w = (Ok (negb (admits (layer_of layer w) req)), w1) ∧
    sw_backend w1 = sw_backend w ∧ (layer = GlobalLayer → sw_limiter w1 = sw_limiter w) ∧
    (if admits (layer_of layer w) req then fresh w1 else status w1 = Some 429).
Proof.
  intros Hf. unfold admits. cbn [rateLimited]. unfold consume_layer, layer_of.
  destruct layer; unfold mbind at 1, M_bind at 1;
    destruct (RateLimit.consume now _ _) as [rl l]; cbn [fst];
    (match goal with |- context [mkServer ?a ?b ?c ?d] => set (w0 := mkServer a b c d) end);
    destruct (set_headers_run rl w0 Hf) as (w1 & Hs & Hf1 & Hb1 & Hl1 & _);
    rewrite (M_bind_run _ _ _ _ _ Hs); destruct (RateLimit.allowed rl); simpl.
  1, 3: by exists w1.
  all: unfold rejectRateLimited, mbind, M_bind, on_res, writeHead; unfold fresh in Hf1; rewrite Hf1; by eexists.
Qed.

Lemma obeys_limited G layer req m w :
  fresh w →
  (admits (layer_of layer w) req = true →
   ∀ w1, fresh w1 → (layer = GlobalLayer → sw_limiter w1 = sw_limiter w) → obeys G m w1) →
  obeys G (unlessLimited trustedProxies now layer req m) w.
Proof.
  intros Hf Hk. destruct (limited_run layer req w Hf) as (w1 & Hr & Hb & Hl & Ha).
  unfold obeys, unlessLimited. rewrite (M_bind_run _ _ _ _ _ Hr), <-Hb.
  destruct (admits (layer_of layer w) req); simpl.
  - exact (Hk eq_refl w1 Ha Hl).
  - split; [by left|]. by rewrite Ha.
Qed.

Ltac obeys_auto :=
  repeat match goal with
  | |- obeys _ (send _ _) _ => by apply obeys_send
  | |- obeys _ (lift_res _ ≫= _) _ => apply obeys_lift; [done|intros ? ?]
  | |- obeys _ (if ?b then _ else _) _ => destruct b eqn:?
  | |- obeys _ (unlessLimited _ _ _ _ _) _ => apply obeys_limited; [done|intros ? ? ? ?]
  | |- obeys _ (match ?x with _ => _ end) _ => destruct x eqn:?
  end.

(** *** Every route keeps to its guards *)
Section routes.
Context (req : IncomingMessage) (w : ServerWorld B Stats) (Hf : fresh w).
Abbreviation G := (guarded (sw_limiter w) req).

Lemma stream_obeys : rq_method req = "GET" → obeys G (getStream backend) w.
Proof.
  intros Hm. unfold getStream. destruct (be_subscribeGossip backend) as [f|] eqn:Hs; [|obeys_auto].
  unfold obeys, mbind, M_bind, on_res, writeHead. unfold fresh in Hf. rewrite Hf. simpl.
  split; [|done]. right. exists CallSubscribe. simpl. by rewrite Hs.
Qed.

Lemma gossip_obeys : rq_method req = "POST" →
  obeys G (postGossip backend keccak_256 verify JSON_parse MAX_BODY_BYTES trustedProxies now req) w.
Proof.
  intros Hm. unfold postGossip. obeys_auto.
  match goal with H : readGossipEnvelope _ = Ok ?m |- _ => rename m into msg end.
  apply (obeys_call _ (CallPublish msg)); [done| | |by eexists _, _].
  - simpl. split_and!; [done..|by eauto|]. unfold signature_error in *. by destruct msg; repeat case_match.
  - intros b. simpl. by case_match; simplify_eq.
Qed.

Lemma job_obeys : rq_method req = "POST" →
  obeys G (postJob backend JSON_parse MAX_BODY_BYTES trustedProxies now req) w.
Proof.
  intros Hm. unfold postJob. obeys_auto. eapply (obeys_call _ (CallAdvert _)); [done| |done|by eexists _, _].
  simpl. eauto.
Qed.

Lemma payload_obeys segment : rq_method req = "POST" →
  obeys G (postPayload backend JSON_parse decodeURIComponent MAX_BODY_BYTES trustedProxies now segment req) w.
Proof.
  intros Hm. unfold postPayload. obeys_auto.
  eapply (obeys_call _ (CallPayload _)); [done| |done|by eexists _, _].
  simpl. split_and!; [done..|]. eexists _, _, _, _. split_and!; [done..|].
  match goal with H : negb (String.eqb _ _) = false |- _ => apply negb_false_iff, String.eqb_eq in H; exact H end.
Qed.

Lemma reads_obey segment : rq_method req = "GET" →
  obeys G (getBids backend decodeURIComponent segment) w ∧ obeys G (getScores backend) w ∧
  obeys G (getScore backend decodeURIComponent segment) w ∧ obeys G (getHealth backend) w.
Proof.
  intros Hm. unfold getBids, getScores, getScore, getHealth. split_and!; obeys_auto.
  - eapply (obeys_call _ (CallBids _)); [done..|by eexists _, _].
  - eapply (obeys_call _ CallScores); [done..| |by eexists _, _]. intros b. simpl. by case_match; simplify_eq.
  - eapply (obeys_call _ (CallScore _)); [done..| |by eexists _, _]. intros b. simpl. by case_match; simplify_eq.
  - eapply (obeys_call _ CallHealth); [done..| |by eexists _, _]. intros b. simpl. by case_match; simplify_eq.
  - by apply (obeys_send G).
Qed.

Lemma reconcile_obeys :
  (rq_method req = "GET" → obeys G (getReconcile backend trustedProxies now req) w) ∧
  (rq_method req = "POST" → obeys G (postReconcile backend trustedProxies now req) w).
Proof.
  split; intros Hm; [unfold getReconcile|unfold postReconcile]; obeys_auto.
  - eapply (obeys_call _ CallLastReport); [done| | |intros [r|]; by eexists _, _].
    + simpl. split_and!; [done|by apply negb_false_iff|done].
    + intros b. simpl. by case_match; simplify_eq.
  - eapply (obeys_call _ CallReconcile); [done| | |by eexists _, _].
    + simpl. split_and!; [done|by apply negb_false_iff|done].
    + intros b. simpl. by case_match; simplify_eq.
Qed.

Lemma dispatch_obeys pathname :
  obeys G
    (dispatch backend keccak_256 verify JSON_parse decodeURIComponent MAX_BODY_BYTES trustedProxies now req pathname) w.
Proof.
  unfold dispatch, is_route, param.
  destruct (String.eqb_spec (rq_method req) "GET") as [Hg|Hg],
    (String.eqb_spec (rq_method req) "POST") as [Hp|Hp]; [congruence|..]; simpl.
  all: repeat match goal with |- obeys _ (match ?x with _ => _ end) _ => destruct x end;
    by (apply stream_obeys || apply gossip_obeys || apply job_obeys || apply payload_obeys
        || eapply reads_obey || apply reconcile_obeys || apply obeys_send).
  Unshelve. all: exact "".
Qed.
End routes.

Lemma relay_catch_is_send e : ∃ s (b : RelBody Stats),
  match e with
  | PayloadTooLargeError limitBytes =>
      send (B := B) 413 (RbErrorCode ("request body exceeds the " +:+ num limitBytes +:+ " byte limit") "PAYLOAD_TOO_LARGE")
  | _ => send 400 (RbErrorCode "Bad request" "BAD_REQUEST")
  end = send s b.
Proof. destruct e; by eexists _, _. Qed.

(** Every request to the relayer is answered once and its handler never
    rejects; it makes at most one call to the backend, and only within the guards:
    any call needs the loose limiter's admission, an advert or payload a validated
    body under the size cap, a payload moreover the job id of its path, a gossiped
    outcome or heartbeat a valid signature, the reconciler a bearer header, and all
    of these the tight limiter's admission too. *)
Theorem backend_calls_guarded req w :
  fresh w →
  let '(r, w') := serve req w in
  r = Ok tt ∧ status w' ≠ None ∧
  (sw_backend w' = sw_backend w ∨
   ∃ c, admits (sw_global w) req = true ∧ guarded (sw_limiter w) req c ∧
        sw_backend w' = call_effect c (sw_backend w)).
Proof.
  intros Hf. set (G c := admits (sw_global w) req = true ∧ guarded (sw_limiter w) req c).
  assert (Hroute : obeys G (route backend keccak_256 verify JSON_parse URL_pathname decodeURIComponent
    MAX_BODY_BYTES trustedProxies now req) w).
  { unfold route. apply obeys_lift; [done|]. intros pathname _.
    destruct (String.eqb _ _); [by apply obeys_send|]. apply obeys_limited; [done|].
    intros Ha w1 Hf1 Hl. pose proof (dispatch_obeys req w1 Hf1 pathname) as [Hd1 Hd2].
    rewrite (Hl eq_refl) in Hd1. split; [|done]. destruct Hd1 as [?|(c & ? & ?)]; [by left|right].
    exists c. done. }
  destruct Hroute as [Hb Ha]. unfold handle, try_catch.
  destruct (route _ _ _ _ _ _ _ _ _ _ _) as [[[]|e] w1]; cbn [fst snd] in Hb, Ha.
  - split_and!; [done..|]. destruct Hb as [Hn|(c & [Hg1 Hg2] & Hc)]; [by left|right; exists c; by split_and!].
  - destruct (relay_catch_is_send e) as (s & b & ->). destruct (send_run s b w1 Ha) as (w2 & -> & Hb2 & Hs2).
    rewrite Hs2, Hb2. split_and!; [done..|]. destruct Hb as [Hn|(c & [Hg1 Hg2] & Hc)]; [by left|right; exists c; by split_and!].
Qed.
End properties.

(** ** A backend that records its calls *)
Section server_example.
Definition traced (c : BackendCall) {A} (a : A) : M (list BackendCall) A := modify (λ l, l ++ [c]);; mret a.
Definition trace_backend : RelayerHttpBackend (list BackendCall) nat :=
  mkBackend _ _ (@length BackendCall) (λ j, traced (CallBids j) []) (λ a, traced (CallAdvert a) None)
    (λ p, traced (CallPayload p) None) None None None None None None None.
Definition toy_job : string := "0x" +:+ Nat.iter 64 (String "1"%char) "".
Definition toy_payload : jval :=
  JObj [("t", JStr "payload"); ("v", JNum 1); ("jobId", JStr toy_job); ("to", JStr toy_job); ("box", JStr "AA==")].
Definition toy_post : IncomingMessage :=
  mkRequest "POST" (Some ("/v1/jobs/" +:+ toy_job +:+ "/payload")) [("x-idempotency-key", "k")] (Some "1.2.3.4")
    [[Byte.x7b]].
Definition toy_server : ServerWorld (list BackendCall) nat :=
  mkServer [] (RateLimit.new 0 60000 5 5) (RateLimit.new 0 60000 5 5) newResponse.
Local Notation toy_run :=
  (handle trace_backend id_hash (λ _ _ _, Ok false) (λ _, Ok toy_payload) (λ url _, Ok url) (λ s, Ok s)
     DEFAULT_MAX_BODY_BYTES [] 1 toy_post toy_server).

Lemma backend_calls_guarded_witness :
  sw_backend toy_run.2 = [CallPayload (mkEncrypted toy_job toy_job "AA==" (Some "k"))] ∧ toy_run.1 = Ok tt.
Proof.
  split; [vm_compute; reflexivity|].
  pose proof (backend_calls_guarded trace_backend id_hash (λ _ _ _, Ok false) (λ _, Ok toy_payload)
    (λ url _, Ok url) (λ s, Ok s) DEFAULT_MAX_BODY_BYTES [] 1 toy_post toy_server eq_refl) as Hg.
  destruct toy_run as [r w']. destruct Hg as [Hr _]. exact Hr.
Defined.
End server_example.
