(* ===== verification/RelGossip.v ===== *)
(** * Relayer: the gossip event stream

    What [GET /v1/gossip/stream] of [relayer/src/http.ts] writes, and how
    [HttpGossipTransport] of [relayer/src/gossip.ts] reads it: [readSse] cuts the
    incoming text at blank lines and [handleSseFrame] decodes one frame.  The text of
    a chunk is what the streaming decoder makes of it; JSON is a parameter. *)
From Stdlib Require Import Ascii.
From stdpp Require Import base tactics list strings.
From Stdlib Require Import ZArith Lia.
From S2P Require Import Prelude JsString Json RelMessages HttpBase RelHttp.
Open Scope string_scope.
Open Scope list_scope.

Definition nl : Ascii.ascii := char 10.
Definition NL : string := String nl "".

Section stream.
Context (JSON_stringify : jval → string) (JSON_parse : string → res jval).

Definition envelope (message : jval) : jval :=
  JObj [("topic", JStr GOSSIP_TOPIC); ("message", message)].

(** ** The server's side *)
Definition stream_open : string := ": " +:+ GOSSIP_TOPIC +:+ NL +:+ NL.
Definition stream_event (message : jval) : string :=
  "data: " +:+ JSON_stringify (envelope message) +:+ NL +:+ NL.
Definition stream_text (messages : list jval) : string :=
  stream_open +:+ foldr String.app "" (stream_event <$> messages).

(** ** The client's side *)
(** [const split = buf.indexOf("\n\n")]: the text before it and the text after it. *)
Fixpoint cut (buf : string) : option (string * string) :=
  match buf with
  | EmptyString => None
  | String c rest =>
      if Ascii.eqb c nl && startsWith NL rest then Some (EmptyString, drop_string 1 rest)
      else prod_map (String c) id <$> cut rest
  end.

(** The inner loop of [readSse]: the complete frames and what is left in [buf]. *)
Fixpoint drain (fuel : nat) (buf : string) : list string * string :=
  match fuel with
  | O => ([], buf)
  | S fuel' =>
      match cut buf with
      | None => ([], buf)
      | Some (frame, rest) => let '(fs, tail) := drain fuel' rest in (frame :: fs, tail)
      end
  end.

(** [handleSseFrame]: the message of a frame, if it carries one. *)
Definition handleSseFrame (frame : string) : res (option jval) :=
  let data := join NL (((λ line, trimStart (drop_string 5 line)) <$>
                List.filter (startsWith "data:") (split_on nl frame))) in
  if String.eqb data "" then Ok None
  else
    env ← JSON_parse data;
    if is_nullish env then Err (TypeError "Cannot read properties of null (reading 'topic')")
    else if negb (str_is (prop env "topic") GOSSIP_TOPIC) then Ok None else Ok (Some (prop env "message")).

(** [readSse] over the chunks the reader yields: the messages handed to the handlers,
    in order, and whether a frame failed to decode, which ends the read. *)
Fixpoint handle_frames (frames : list string) : list jval * bool :=
  match frames with
  | [] => ([], true)
  | f :: fs =>
      match handleSseFrame f with
      | Err _ => ([], false)
      | Ok m => let '(ms, ok) := handle_frames fs in (option_list m ++ ms, ok)
      end
  end.

Fixpoint readSse (buf : string) (chunks : list string) : list jval * bool :=
  match chunks with
  | [] => ([], true)
  | chunk :: chunks' =>
      let buf' := buf +:+ chunk in
      let '(frames, tail) := drain (String.length buf') buf' in
      let '(ms, ok) := handle_frames frames in
      if ok then let '(ms', ok') := readSse tail chunks' in (ms ++ ms', ok') else (ms, false)
  end.

(** ** Cutting *)
Lemma cut_spec buf frame rest :
  cut buf = Some (frame, rest) → buf = frame +:+ NL +:+ NL +:+ rest.
Proof.
  revert frame. induction buf as [|c buf IH]; intros frame; [done|]. cbn [cut].
  destruct (Ascii.eqb c nl && startsWith NL buf) eqn:E.
  - apply andb_prop in E as [->%Ascii.eqb_eq Hs]. destruct buf as [|d buf]; [done|].
    cbn [startsWith NL] in Hs. apply andb_prop in Hs as [<-%Ascii.eqb_eq _]. by intros [= <- <-].
  - destruct (cut buf) as [[f r]|]; simpl; [|done]. intros [= <- <-]. simpl. f_equal. by apply IH.
Qed.

(** A frame boundary is found at the same place when more text follows. *)
Lemma cut_app buf frame rest more :
  cut buf = Some (frame, rest) → cut (buf +:+ more) = Some (frame, rest +:+ more).
Proof.
  revert frame. induction buf as [|c buf IH]; intros frame; [done|]. cbn [cut String.app].
  destruct (Ascii.eqb c nl) eqn:Ec; cbn [andb].
  - destruct buf as [|d buf]; [done|]. cbn [startsWith NL String.app].
    destruct (Ascii.eqb nl d); cbn [andb]; [by intros [= <- <-]|].
    destruct (cut (String d buf)) as [[f r]|]; [|done]. intros [= <- <-].
    pose proof (IH f eq_refl) as E. cbn [String.app] in E. by rewrite E.
  - destruct (cut buf) as [[f r]|]; simpl; [|done]. intros [= <- <-]. by rewrite (IH f eq_refl).
Qed.

Lemma cut_shorter buf frame rest : cut buf = Some (frame, rest) → (String.length rest < String.length buf)%nat.
Proof. intros ->%cut_spec. rewrite !string_app_length. simpl. lia. Qed.

Lemma drain_enough fuel fuel' buf :
  (String.length buf ≤ fuel)%nat → (String.length buf ≤ fuel')%nat → drain fuel buf = drain fuel' buf.
Proof.
  revert fuel' buf. induction fuel as [|fuel IH]; intros fuel' buf H1 H2.
  - destruct buf; [|simpl in H1; lia]. by destruct fuel'.
  - destruct fuel' as [|fuel']; [destruct buf; [done|simpl in H2; lia]|]. simpl.
    destruct (cut buf) as [[f r]|] eqn:E; [|done]. apply cut_shorter in E.
    by rewrite (IH fuel' r) by lia.
Qed.

Definition frames_of (buf : string) : list string * string := drain (String.length buf) buf.

Lemma frames_of_cut buf frame rest :
  cut buf = Some (frame, rest) → frames_of buf = (frame :: (frames_of rest).1, (frames_of rest).2).
Proof.
  intros Hc. unfold frames_of. pose proof (cut_shorter _ _ _ Hc).
  destruct (String.length buf) as [|k] eqn:Hk; [lia|]. cbn [drain]. rewrite Hc.
  rewrite (drain_enough k (String.length rest)) by lia. by destruct (drain (String.length rest) rest).
Qed.

(** Reading in two parts is reading at once. *)
Lemma frames_of_app buf more :
  frames_of (buf +:+ more) =
  ((frames_of buf).1 ++ (frames_of ((frames_of buf).2 +:+ more)).1, (frames_of ((frames_of buf).2 +:+ more)).2).
Proof.
  remember (String.length buf) as n eqn:Hn. revert buf Hn.
  induction n as [n IH] using (well_founded_induction lt_wf). intros buf ->.
  destruct (cut buf) as [[f r]|] eqn:E.
  - rewrite (frames_of_cut _ _ _ E), (frames_of_cut _ _ _ (cut_app _ _ _ more E)). cbn [fst snd].
    pose proof (cut_shorter _ _ _ E). by rewrite (IH (String.length r)) by done.
  - assert (Hb : frames_of buf = ([], buf)) by (unfold frames_of; destruct buf; [done|]; cbn [String.length drain]; by rewrite E).
    rewrite Hb. simpl. by destruct (frames_of (buf +:+ more)).
Qed.

Lemma frames_of_nil buf : cut buf = None → frames_of buf = ([], buf).
Proof. intros E. unfold frames_of. destruct buf; [done|]. cbn [String.length drain]. by rewrite E. Qed.

(** What is left over holds no complete frame. *)
Lemma tail_no_frame buf : (frames_of (frames_of buf).2).1 = [].
Proof.
  remember (String.length buf) as n eqn:Hn. revert buf Hn.
  induction n as [n IH] using (well_founded_induction lt_wf). intros buf ->.
  destruct (cut buf) as [[f r]|] eqn:E.
  - rewrite (frames_of_cut _ _ _ E). cbn [snd]. pose proof (cut_shorter _ _ _ E). by apply (IH (String.length r)).
  - rewrite (frames_of_nil _ E). cbn [snd]. by rewrite (frames_of_nil _ E).
Qed.

Lemma handle_frames_app a b :
  handle_frames (a ++ b) =
  let '(ms, ok) := handle_frames a in
  if ok then let '(ms', ok') := handle_frames b in (ms ++ ms', ok') else (ms, false).
Proof.
  induction a as [|f a IH]; simpl; [by destruct (handle_frames b)|].
  destruct (handleSseFrame f) as [m|e]; [|done]. rewrite IH.
  destruct (handle_frames a) as [ms []]; [|done]. destruct (handle_frames b). by rewrite app_assoc.
Qed.

(** The messages depend on the text received, not on how it was cut into chunks. *)
Lemma readSse_text buf chunks :
  (frames_of buf).1 = [] →
  readSse buf chunks = handle_frames (frames_of (buf +:+ foldr String.app "" chunks)).1.
Proof.
  revert buf. induction chunks as [|chunk chunks IH]; intros buf Hb; cbn [readSse foldr].
  { by rewrite string_app_nil_r, Hb. }
  fold (frames_of (buf +:+ chunk)). rewrite <-string_app_assoc, (frames_of_app (buf +:+ chunk)). cbn [fst].
  pose proof (tail_no_frame (buf +:+ chunk)) as Ht.
  destruct (frames_of (buf +:+ chunk)) as [fs tail]. cbn [fst snd] in *.
  rewrite handle_frames_app, (IH tail Ht). by destruct (handle_frames fs) as [ms []].
Qed.

(** ** The two sides together *)
Definition one_line (s : string) : bool := all_chars (λ c, negb (Ascii.eqb c nl)) s.

Lemma cut_frame frame rest : one_line frame = true → cut (frame +:+ NL +:+ NL +:+ rest) = Some (frame, rest).
Proof.
  unfold one_line. induction frame as [|c frame IH]; [done|]. cbn [all_chars String.app cut].
  intros [Hc Hf]%andb_prop. apply negb_true_iff in Hc. rewrite Hc. cbn [andb]. by rewrite IH.
Qed.

Lemma frames_of_lines frames :
  Forall (λ f, one_line f = true) frames →
  frames_of (foldr String.app "" ((λ f, f +:+ NL +:+ NL) <$> frames)) = (frames, "").
Proof.
  induction 1 as [|f frames Hf _ IH]; [done|]. rewrite fmap_cons. cbn [foldr].
  rewrite !string_app_assoc, (frames_of_cut _ _ _ (cut_frame _ _ Hf)). by rewrite IH.
Qed.

Lemma data_frame v text :
  JSON_parse text = Ok (envelope v) → one_line text = true → startsWith "{" text = true →
  handleSseFrame ("data: " +:+ text) = Ok (Some v).
Proof.
  intros Hp Hl Hb. unfold handleSseFrame. rewrite split_on_none by exact Hl.
  destruct text as [|c text]; [done|]. cbn [startsWith] in Hb. apply andb_prop in Hb as [<-%Ascii.eqb_eq _].
  simpl. by rewrite Hp.
Qed.

(** A subscriber receives exactly the messages the server wrote to
    its stream, in order and without a decoding error, however the network cuts the
    text into chunks, for a JSON printer that writes objects on one line. *)
Theorem stream_delivers_in_order (messages : list jval) (chunks : list string) :
  (∀ m, m ∈ messages → let text := JSON_stringify (envelope m) in
     JSON_parse text = Ok (envelope m) ∧ one_line text = true ∧ startsWith "{" text = true) →
  foldr String.app "" chunks = stream_text messages →
  readSse "" chunks = (messages, true).
Proof.
  intros Hjson Htext. rewrite readSse_text by done. simpl. rewrite Htext.
  set (frames := (": " +:+ GOSSIP_TOPIC) :: ((λ m, "data: " +:+ JSON_stringify (envelope m)) <$> messages)).
  assert (Hst : stream_text messages = foldr String.app "" ((λ f, f +:+ NL +:+ NL) <$> frames)).
  { unfold stream_text, stream_open, frames. rewrite fmap_cons. cbn [foldr].
    rewrite !string_app_assoc. f_equal. f_equal. f_equal. f_equal.
    rewrite <-list_fmap_compose. f_equal. }
  rewrite Hst, frames_of_lines.
  2:{ constructor; [done|]. apply Forall_fmap, Forall_forall. intros m Hm. by apply Hjson in Hm as (_ & ? & _). }
  cbn [fst]. unfold frames. cbn [handle_frames]. change (handleSseFrame (": " +:+ GOSSIP_TOPIC)) with (Ok (@None jval)).
  clear Htext Hst frames. induction messages as [|m messages IH]; [done|]. rewrite fmap_cons. cbn [handle_frames].
  destruct (Hjson m) as (Hp & Hl & Hb); [left|]. rewrite (data_frame m _ Hp Hl Hb).
  specialize (IH (λ m' Hm', Hjson m' (list_elem_of_further _ _ _ Hm'))).
  destruct (handle_frames _) as [ms ok]. injection IH as -> ->. done.
Qed.
End stream.

(** Two messages, printed as two one-line texts; the stream arrives cut in the middle
    of a frame separator. *)
Section stream_example.
Definition toy_stringify (v : jval) : string :=
  match prop v "message" with JNum 1 => "{1}" | _ => "{2}" end.
Definition toy_read (text : string) : res jval :=
  Ok (envelope (if String.eqb text "{1}" then JNum 1 else JNum 2)).
Local Notation toy_messages := ([JNum 2; JNum 1] : list jval).
Local Notation toy_chunks :=
  [": opaque/stellar/jobs/v1" +:+ NL; NL +:+ "data: {2}" +:+ NL +:+ NL +:+ "da"; "ta: {1}" +:+ NL; NL].

Lemma stream_delivers_in_order_witness :
  foldr String.app "" toy_chunks = stream_text toy_stringify toy_messages ∧
  readSse toy_read "" toy_chunks = (toy_messages, true).
Proof.
  assert (Ht : foldr String.app "" toy_chunks = stream_text toy_stringify toy_messages) by (vm_compute; reflexivity).
  split; [exact Ht|]. apply (stream_delivers_in_order toy_stringify toy_read toy_messages toy_chunks); [|exact Ht].
  intros m Hm. apply elem_of_cons in Hm as [->|Hm]; [vm_compute; split_and!; reflexivity|].
  apply list_elem_of_singleton in Hm as ->. vm_compute. split_and!; reflexivity.
Defined.
End stream_example.
