(* ===== verification/AspSet.v ===== *)
(** * ASP: the association set

    [asp/src/merkle.ts] (where it differs from the publisher's copy of the tree:
    [Merkle.v] has the walk itself), [asp/src/set.ts], the manifest of
    [asp/src/types.ts], and the hashes of [asp/src/publish.ts].  Poseidon and
    SHA-256 are parameters. *)
From Stdlib Require Import Ascii.
From stdpp Require Import base tactics list sets strings.
From Stdlib Require Import ZArith Lia.
From S2P Require Import Prelude JsString Bytes Merkle PubValidate.
Open Scope string_scope.
Open Scope list_scope.
Open Scope Z_scope.

(** [toHex32]: unlike the publisher's [bigintToHex32] it checks no range. *)
Definition toHex32 (v : Z) : string := "0x" +:+ padStart0 64 (bigint_toString 16 v).

Record SetManifest : Type := mkSetManifest {
  sm_poolId : string;
  sm_root : string;
  sm_version : Z;
  sm_levels : Z;
  sm_algo : string;
  sm_labels : list string;
  sm_indices : list Z;
  sm_generatedAt : string;
  (** [signManifest] reads three fields the interface does not declare. *)
  sm_datasetHash : option string;
  sm_policy : option string;
  sm_ledger : option Z;
}.

(** ** The tree *)
Module AspTree.
Section tree.
Context (poseidon : list Z → Z).

Definition insert (t : MerkleTree) (leaf : Z) : res (MerkleTree * Z) :=
  if Z.shiftl 1 (Z.of_nat (mt_depth t)) <=? treeLen t then Err (JsError "tree full")
  else
    let t' := mkTree (mt_depth t) (mt_zero t) (mt_leaves t ++ [leaf]) in
    Ok (t', treeLen t' - 1).

Record InclusionPath : Type := mkAspProof {
  ap_pathElements : list Z;
  ap_pathIndices : list Z;
  ap_root : Z;
}.

Definition proof (t : MerkleTree) (index : Z) : res InclusionPath :=
  if treeLen t <=? index
  then Err (JsError ("leaf index " +:+ bigint_toString 10 index +:+ " out of bounds"))
  else
    let path := proofPath poseidon t (mt_depth t) 0 index in
    Ok (mkAspProof path.*1 path.*2 (root poseidon t)).

Definition computeLabel (scope index : Z) : Z := hashFields poseidon [scope; index].

Lemma insert_spec t v t' i :
  insert t v = Ok (t', i) →
  mt_depth t' = mt_depth t ∧ mt_zero t' = mt_zero t ∧ mt_leaves t' = mt_leaves t ++ [v] ∧
  (wf_tree poseidon t → wf_tree poseidon t').
Proof.
  unfold insert. rewrite Z.shiftl_1_l. destruct (Z.leb_spec (2 ^ Z.of_nat (mt_depth t)) (treeLen t)) as [|Hlt]; [done|].
  intros [= <- <-]. simpl. split_and!; try done. intros [Hz Hl]. split; simpl; [done|].
  unfold treeLen in *. simpl. rewrite length_app. simpl. lia.
Qed.

Lemma insert_full t v :
  (∃ r, insert t v = Ok r) ↔ treeLen t < 2 ^ Z.of_nat (mt_depth t).
Proof.
  unfold insert. rewrite Z.shiftl_1_l. destruct (Z.leb_spec (2 ^ Z.of_nat (mt_depth t)) (treeLen t)).
  - split; [by intros [? ?]|lia].
  - split; [done|]. eauto.
Qed.
End tree.
End AspTree.

(** ** The set *)
Section set.
Context (poseidon : list Z → Z).

Record AssociationSet : Type := mkSet {
  as_scope : Z;
  as_indices : list Z;
  as_labels : list Z;
  as_tree : MerkleTree;
}.

Definition create (scope : Z) : AssociationSet :=
  mkSet scope [] [] (newTree poseidon TREE_DEPTH).

(** The index and the label are pushed before the insertion that may throw. *)
Definition add (depositIndex : Z) : M AssociationSet unit := λ s,
  let label := AspTree.computeLabel poseidon (as_scope s) depositIndex in
  let indices := as_indices s ++ [depositIndex] in
  let labels := as_labels s ++ [label] in
  match AspTree.insert (as_tree s) label with
  | Err e => (Err e, mkSet (as_scope s) indices labels (as_tree s))
  | Ok (t', _) => (Ok tt, mkSet (as_scope s) indices labels t')
  end.

Definition set_size (s : AssociationSet) : Z := Z.of_nat (length (as_labels s)).
Definition set_rootHex (s : AssociationSet) : string := toHex32 (root poseidon (as_tree s)).
Definition set_proof (s : AssociationSet) (leafIndex : Z) : res AspTree.InclusionPath :=
  AspTree.proof poseidon (as_tree s) leafIndex.

Definition manifest (poolId generatedAt : string) (s : AssociationSet) : SetManifest :=
  mkSetManifest poolId (set_rootHex s) (set_size s) (Z.of_nat (mt_depth (as_tree s)))
    "poseidon-bn254" (bigint_toString 10 <$> as_labels s) (as_indices s) generatedAt
    None None None.

(** [const set = await AssociationSet.create(scope); for (...) set.add(idx)] *)
Definition rebuild (scope : Z) (indices : list Z) : res AssociationSet :=
  let '(r, s) := for_each indices add (create scope) in
  match r with Ok _ => Ok s | Err e => Err e end.
End set.

(** ** Dataset hash and signature ([asp/src/publish.ts]) *)
Section publish.
Context (sha256 : list byte → list byte).

(** [Buffer.from(s, "hex")] stops at the first pair that is not two digits. *)
Fixpoint buffer_hex (s : string) : list byte :=
  match s with
  | String a (String b s') =>
      match digit_val a, digit_val b with
      | Some x, Some y => to_byte (16 * x + y) :: buffer_hex s'
      | _, _ => []
      end
  | _ => []
  end.

Definition dataset_preimage (root : string) (labels : list string) : res (list byte) :=
  vs ← mapM_res BigInt labels;
  Ok (be_bytes 4 (Z.of_nat (length labels)) ++ buffer_hex (strip0x root)
      ++ concat (be_bytes 32 <$> vs)).

Definition computeDatasetHash (root : string) (labels : list string) : res string :=
  p ← dataset_preimage root labels;
  Ok ("0x" +:+ hex_of_bytes (sha256 p)).

(** [h.update(undefined)] throws. *)
Definition update_field (f : option string) : res (list byte) :=
  match f with
  | Some s => Ok (utf8 s)
  | None => Err (TypeError "The data argument must be of type string or an instance of Buffer")
  end.

Definition signManifest (m : SetManifest) (signingKey : string) : res string :=
  dh ← update_field (sm_datasetHash m);
  Ok ("0x" +:+ hex_of_bytes (sha256
        (utf8 (sm_poolId m) ++ utf8 (sm_root m) ++ dh ++ utf8 (default "" (sm_policy m))
         ++ utf8 (match sm_ledger m with Some l => bigint_toString 10 l | None => "" end)
         ++ utf8 signingKey))).

Definition verifyManifestSignature (m : SetManifest) (signature signingKey : string) : res bool :=
  expected ← signManifest m signingKey; Ok (String.eqb expected signature).
End publish.

(** ** Properties of the set *)
Section set_properties.
Context (poseidon : list Z → Z).
Implicit Types s : AssociationSet.

Record set_ok s : Prop := {
  so_labels : as_labels s = AspTree.computeLabel poseidon (as_scope s) <$> as_indices s;
  so_tree : mt_leaves (as_tree s) = as_labels s;
  so_depth : mt_depth (as_tree s) = TREE_DEPTH;
  so_wf : wf_tree poseidon (as_tree s);
}.

Lemma create_ok scope : set_ok (create poseidon scope).
Proof. split; try done. apply wf_newTree. Qed.

Lemma add_ok i s s' :
  set_ok s → add poseidon i s = (Ok tt, s') →
  set_ok s' ∧ as_scope s' = as_scope s ∧ as_indices s' = as_indices s ++ [i].
Proof.
  intros [Hl Ht Hd Hw] Ha. unfold add in Ha.
  destruct (AspTree.insert _ _) as [[t' k]|e] eqn:E; [|done]. injection Ha as <-.
  apply (AspTree.insert_spec poseidon) in E as (Hd' & _ & Hlv & Hw').
  split; [|done]. split; simpl.
  - rewrite Hl, fmap_app. done.
  - by rewrite Hlv, Ht.
  - by rewrite Hd'.
  - auto.
Qed.

Lemma adds_ok l s s' :
  set_ok s → for_each l (add poseidon) s = (Ok tt, s') →
  set_ok s' ∧ as_scope s' = as_scope s ∧ as_indices s' = as_indices s ++ l.
Proof.
  revert s. induction l as [|i l IH]; intros s Hs Hr; cbn [for_each] in Hr.
  { injection Hr as <-. by rewrite app_nil_r. }
  apply M_bind_ok in Hr as ([] & s1 & Ha & Hr).
  destruct (add_ok _ _ _ Hs Ha) as (Hs1 & Hsc & Hi).
  destruct (IH _ Hs1 Hr) as (Hs' & Hsc' & Hi'). split_and!; [done|congruence|].
  by rewrite Hi', Hi, <-app_assoc.
Qed.

Lemma zero_after_adds l s s' :
  for_each l (add poseidon) s = (Ok tt, s') → mt_zero (as_tree s') = mt_zero (as_tree s).
Proof.
  revert s. induction l as [|i l IH]; intros s Hr; cbn [for_each] in Hr.
  { by injection Hr as <-. }
  apply M_bind_ok in Hr as ([] & s1 & Ha & Hr). rewrite (IH _ Hr). clear IH Hr.
  unfold add in Ha. destruct (AspTree.insert _ _) as [[t' k]|e] eqn:E; [|discriminate Ha].
  injection Ha as <-. by apply (AspTree.insert_spec poseidon) in E as (_ & Hz' & _).
Qed.

Lemma rebuild_ok scope l s :
  rebuild poseidon scope l = Ok s →
  set_ok s ∧ as_scope s = scope ∧ as_indices s = l ∧
  mt_zero (as_tree s) = mt_zero (newTree poseidon TREE_DEPTH).
Proof.
  unfold rebuild. destruct (for_each l (add poseidon) (create poseidon scope)) as [[[]|e] s1] eqn:E;
    [|discriminate 1]. intros ->%Ok_inj.
  destruct (adds_ok _ _ _ (create_ok scope) E) as (Hs & Hsc & Hi).
  refine (conj Hs (conj Hsc (conj Hi _))). exact (zero_after_adds _ _ _ E).
Qed.

(** The set fits exactly when there are at most [2^20] indices. *)
Lemma rebuild_total scope l :
  Z.of_nat (length l) <= 2 ^ 20 → ∃ s, rebuild poseidon scope l = Ok s.
Proof.
  intros Hl. unfold rebuild.
  assert (Hgen : ∀ s, set_ok s → Z.of_nat (length (as_indices s) + length l) <= 2 ^ 20 →
    ∃ s', for_each l (add poseidon) s = (Ok tt, s')).
  { clear Hl. induction l as [|i l IH]; intros s Hs Hlen; cbn [for_each]; [eexists; done|].
    cbn [length] in Hlen.
    destruct (proj2 (AspTree.insert_full (as_tree s) (AspTree.computeLabel poseidon (as_scope s) i)))
      as [[t' k] Ht].
    { rewrite so_depth by done. unfold treeLen. rewrite so_tree, so_labels by done.
      rewrite length_fmap. change (2 ^ Z.of_nat TREE_DEPTH) with (2 ^ 20). lia. }
    assert (Ha : ∃ s1, add poseidon i s = (Ok tt, s1)) by (unfold add; rewrite Ht; eauto).
    destruct Ha as [s1 Ha]. destruct (add_ok _ _ _ Hs Ha) as (Hs1 & _ & Hi).
    destruct (IH s1 Hs1) as [s' Hs']; [rewrite Hi, length_app; simpl; lia|].
    exists s'. erewrite M_bind_run by exact Ha. done. }
  destruct (Hgen (create poseidon scope) (create_ok scope) Hl) as [s' ->]. eauto.
Qed.

(** What a withdrawing user does with a manifest: rebuild the tree from its
    labels and compare. *)
Fixpoint insert_labels (labels : list string) (t : MerkleTree) : res MerkleTree :=
  match labels with
  | [] => Ok t
  | l :: labels' => v ← BigInt l; r ← AspTree.insert t v; insert_labels labels' r.1
  end.
Definition recompute (m : SetManifest) : res string :=
  t ← insert_labels (sm_labels m) (newTree poseidon (Z.to_nat (sm_levels m)));
  Ok (toHex32 (root poseidon t)).

Lemma insert_labels_ok vs t :
  treeLen t + Z.of_nat (length vs) <= 2 ^ Z.of_nat (mt_depth t) →
  ∃ t', insert_labels (bigint_toString 10 <$> vs) t = Ok t' ∧
    mt_leaves t' = mt_leaves t ++ vs ∧ mt_depth t' = mt_depth t ∧ mt_zero t' = mt_zero t.
Proof.
  revert t. induction vs as [|v vs IH]; intros t Hl; simpl.
  { exists t. by rewrite app_nil_r. }
  rewrite BigInt_toString. simpl. cbn [length] in Hl.
  destruct (proj2 (AspTree.insert_full t v)) as [[t1 k] Ht1]; [lia|]. rewrite Ht1. simpl.
  apply (AspTree.insert_spec poseidon) in Ht1 as (Hd & Hz & Hlv & _).
  destruct (IH t1) as (t' & Ht' & Hlv' & Hd' & Hz').
  { unfold treeLen in *. rewrite Hd, Hlv, length_app. simpl. lia. }
  exists t'. split_and!; [exact Ht'| |congruence|congruence]. by rewrite Hlv', Hlv, <-app_assoc.
Qed.

End set_properties.

#[local] Opaque newTree.

(** A manifest is self-authenticating and its labels are the
    Poseidon labels of the approved deposit indices in approval order: rebuilding
    the tree from the manifest's own labels gives the root it declares, and every
    position has an inclusion path that folds from its label to that root. *)
Theorem manifest_self_authenticating poseidon scope indices s poolId at_ :
  rebuild poseidon scope indices = Ok s →
  let m := manifest poseidon poolId at_ s in
  recompute poseidon m = Ok (sm_root m) ∧
  sm_indices m = indices ∧ sm_version m = Z.of_nat (length indices) ∧ sm_levels m = 20 ∧
  sm_labels m = (λ i, bigint_toString 10 (poseidon [scope; i])) <$> indices ∧
  ∀ k i, indices !! k = Some i →
    ∃ p, set_proof poseidon s (Z.of_nat k) = Ok p ∧ sm_root m = toHex32 (AspTree.ap_root p) ∧
      foldPath poseidon (poseidon [scope; i])
        (zip (AspTree.ap_pathElements p) (AspTree.ap_pathIndices p)) = AspTree.ap_root p.
Proof.
  intros Hr. pose proof (rebuild_ok _ _ _ _ Hr) as (Hok & Hsc & Hi & Hzs).
  pose proof Hok as [Hl Ht Hd Hw]. cbn zeta.
  assert (Hlen : length (as_labels s) = length indices) by (by rewrite Hl, length_fmap, Hi).
  split_and!.
  - unfold recompute, manifest. cbn [sm_labels sm_levels sm_root]. rewrite Hd.
    destruct (insert_labels_ok poseidon (as_labels s) (newTree poseidon TREE_DEPTH))
      as (t' & Ht' & Hlv & Hd' & Hz).
    { destruct Hw as [_ Hw]. unfold treeLen in *. rewrite Ht, Hd in Hw. exact Hw. }
    change (Z.to_nat (Z.of_nat TREE_DEPTH)) with TREE_DEPTH. rewrite Ht'. simpl.
    unfold set_rootHex. do 3 f_equal.
    destruct t' as [d z lv], (as_tree s) as [d2 z2 lv2]. simpl in *.
    by rewrite Hlv, Hd', Hz, Ht, Hd, Hzs.
  - done.
  - unfold manifest, set_size. simpl. by rewrite Hlen.
  - unfold manifest. simpl. by rewrite Hd.
  - unfold manifest. cbn [sm_labels]. rewrite Hl, Hi, Hsc, <-list_fmap_compose. done.
  - intros k i Hk. pose proof (lookup_lt_Some _ _ _ Hk) as Hkl.
    unfold set_proof, AspTree.proof.
    assert (Htl : treeLen (as_tree s) = Z.of_nat (length indices))
      by (unfold treeLen; by rewrite Ht, Hlen).
    destruct (Z.leb_spec (treeLen (as_tree s)) (Z.of_nat k)) as [Hle|Hlt]; [lia|].
    eexists. split; [done|]. cbn [AspTree.ap_root AspTree.ap_pathElements AspTree.ap_pathIndices].
    split; [done|]. rewrite zip_fst_snd.
    assert (Hnth : nth k (mt_leaves (as_tree s)) 0 = poseidon [scope; i]).
    { rewrite Ht, Hl, Hi, Hsc. apply nth_lookup_Some with (d := 0).
      rewrite list_lookup_fmap, Hk. reflexivity. }
    rewrite <-Hnth, <-(Nat2Z.id k) at 1. apply path_folds_to_root; [exact Hw|lia].
Qed.

(** Signing needs a dataset hash that the set's manifest never carries. *)
Lemma manifest_cannot_be_signed poseidon sha256 s poolId at_ key :
  is_ok (signManifest sha256 (manifest poseidon poolId at_ s) key) = false.
Proof. reflexivity. Qed.

(** ** A concrete set *)
Section set_example.
Local Notation toy_poseidon := (λ l : list Z, foldl (λ a x, (31 * a + x + 7) mod 1000003) 1 l).

Lemma manifest_self_authenticating_witness :
  match rebuild toy_poseidon 5 [0; 3] with
  | Ok s => recompute toy_poseidon (manifest toy_poseidon "pool" "now" s)
            = Ok (sm_root (manifest toy_poseidon "pool" "now" s))
  | Err _ => False
  end.
Proof.
  destruct (rebuild toy_poseidon 5 [0; 3]) as [s|e] eqn:E.
  - exact (proj1 (manifest_self_authenticating toy_poseidon 5 [0; 3] s "pool" "now" E)).
  - vm_compute in E. discriminate E.
Defined.
End set_example.
