(* ===== verification/AspPolicy.v ===== *)
(** * ASP: screening, guards and schedules

    The data of [asp/src/types.ts], the policies of [asp/src/policy.ts], their
    composition ([asp/src/policy-engine.ts]), the ledger continuity guard
    ([asp/src/reorg-guard.ts]), the staleness monitor ([asp/src/monitor.ts]), the
    retry schedule ([asp/src/backoff.ts]) and the counters of
    [asp/src/metrics.ts].

    A policy may consult anything, so it is a state transformer over the
    environment [E] the chain adapter also acts on.  A time stamp (an ISO string
    in the code) is represented by its instant in milliseconds, and the numbers
    of the retry schedule, doubles in the code, by rationals. *)
From Stdlib Require Import Ascii.
From stdpp Require Import base tactics list sets strings.
From Stdlib Require Import ZArith Lia QArith Qround Qpower Lqa.
From S2P Require Import Prelude JsString JsMap.
Open Scope string_scope.
Open Scope list_scope.
Open Scope Z_scope.

(** ** Data *)
Record Deposit : Type := mkDeposit {
  dp_index : Z;
  dp_commitment : string;
  dp_value : string;
  dp_scope : Z;
  dp_ledger : Z;
}.

Inductive PolicyVerdict : Type := approve | reject | defer.
Global Instance PolicyVerdict_eq_dec : EqDecision PolicyVerdict.
Proof. solve_decision. Defined.

Definition verdict_name (v : PolicyVerdict) : string :=
  match v with approve => "approve" | reject => "reject" | defer => "defer" end.

Record Policy (E : Type) : Type := mkPolicy {
  pol_name : string;
  pol_screen : Deposit → M E PolicyVerdict;
  pol_reason : option (Deposit → string);
}.
Arguments mkPolicy {E}.
Arguments pol_name {E}.
Arguments pol_screen {E}.
Arguments pol_reason {E}.

Record PolicyDecisionRecord : Type := mkDecisionRecord {
  dr_depositIndex : Z;
  dr_policy : string;
  dr_verdict : PolicyVerdict;
  dr_reason : string;
  dr_timestamp : Z;
}.

(** ** Policies *)
Definition approveAll {E} : Policy E := mkPolicy "approve-all" (λ _, mret approve) None.

Definition allowlist {E} (indices : list Z) : Policy E :=
  let allowed := JSet.of_list indices in
  mkPolicy "allowlist"
    (λ d, mret (if JSet.has (dp_index d) allowed then approve else reject))
    (Some (λ d,
      if JSet.has (dp_index d) allowed then "deposit index is present in the operator allowlist"
      else "deposit index is absent from the operator allowlist; see docs/EXCLUSION_APPEAL_PROCESS.md")).

Definition screeningPolicy {E} (name : string) (decide : Deposit → M E PolicyVerdict) : Policy E :=
  mkPolicy name decide None.

(** ** Composition *)
Record PolicyDecision : Type := mkPolicyDecision {
  pd_policy : string;
  pd_deposit : Deposit;
  pd_verdict : PolicyVerdict;
  pd_reason : string;
  pd_timestamp : Z;
}.

Inductive Strategy : Type := first_decides | any_approve | all_must_approve.

Record PolicyEngine (E : Type) : Type := mkPolicyEngine {
  pe_policies : list (Policy E);
  pe_strategy : Strategy;
  pe_onDecision : option (PolicyDecision → E → E);
}.
Arguments mkPolicyEngine {E}.
Arguments pe_policies {E}.
Arguments pe_strategy {E}.
Arguments pe_onDecision {E}.

Definition new_PolicyEngine {E} (policies : list (Policy E)) (strategy : option Strategy)
    (onDecision : option (PolicyDecision → E → E)) : res (PolicyEngine E) :=
  match policies with
  | [] => Err (JsError "PolicyEngine requires at least one policy")
  | _ => Ok (mkPolicyEngine policies (default first_decides strategy) onDecision)
  end.

Definition engine_name {E} (e : PolicyEngine E) : string :=
  "policy-engine(" +:+ join "," (pol_name <$> pe_policies e) +:+ ")".

(** [policy.reason?.(deposit) ?? `policy returned ${verdict}`] *)
Definition reason_of {E} (p : Policy E) (d : Deposit) (v : PolicyVerdict) : string :=
  match pol_reason p with Some r => r d | None => "policy returned " +:+ verdict_name v end.

Section evaluate.
Context {E : Type}.

(** Every policy is asked, also after one has decided. *)
Fixpoint run_policies (ts : Z) (notify : option (PolicyDecision → E → E)) (d : Deposit)
    (l : list (Policy E)) : M E (list PolicyDecision) :=
  match l with
  | [] => mret []
  | p :: l' =>
      verdict ← pol_screen p d;
      let decision := mkPolicyDecision (pol_name p) d verdict (reason_of p d verdict) ts in
      (match notify with Some f => modify (f decision) | None => mret tt end);;
      rest ← run_policies ts notify d l';
      mret (decision :: rest)
  end.

Definition has_verdict (v : PolicyVerdict) (r : PolicyDecision) : bool :=
  bool_decide (pd_verdict r = v).

Definition combine (s : Strategy) (results : list PolicyDecision) : PolicyVerdict :=
  match s with
  | any_approve =>
      if existsb (has_verdict approve) results then approve
      else if existsb (has_verdict defer) results then defer else reject
  | all_must_approve =>
      if existsb (has_verdict reject) results then reject
      else if forallb (has_verdict approve) results then approve else defer
  | first_decides =>
      match List.find (λ r, negb (has_verdict defer r)) results with
      | Some r => pd_verdict r
      | None => defer
      end
  end.

Definition evaluate (ts : Z) (e : PolicyEngine E) (d : Deposit)
    : M E (PolicyVerdict * list PolicyDecision) :=
  results ← run_policies ts (pe_onDecision e) d (pe_policies e);
  mret (combine (pe_strategy e) results, results).

Definition engine_screen (ts : Z) (e : PolicyEngine E) (d : Deposit) : M E PolicyVerdict :=
  r ← evaluate ts e d; mret r.1.
End evaluate.

(** ** Ledger continuity *)
Record ReorgEvent : Type := mkReorg {
  re_expectedLedger : Z;
  re_actualLedger : Z;
  re_rewoundTo : Z;
  re_message : string;
  re_timestamp : Z;
}.

(** The guard with the events its callback received. *)
Record ReorgGuard : Type := mkGuard {
  rg_expectedNextLedger : Z;
  rg_events : list ReorgEvent;
}.

Definition guard_reset (fromLedger : Z) (g : ReorgGuard) : ReorgGuard :=
  mkGuard fromLedger (rg_events g).

Inductive Continuity : Type := Continuous | Rewind (rewindTo : Z).

Definition validate (now : Z) (batchStartLedger : Z) (g : ReorgGuard) : Continuity * ReorgGuard :=
  if rg_expectedNextLedger g =? 0 then (Continuous, mkGuard batchStartLedger (rg_events g))
  else if rg_expectedNextLedger g <=? batchStartLedger
  then (Continuous, mkGuard batchStartLedger (rg_events g))
  else
    let rewindTo := batchStartLedger in
    let event := mkReorg (rg_expectedNextLedger g) batchStartLedger rewindTo
      ("Ledger continuity break: expected ≥" +:+ bigint_toString 10 (rg_expectedNextLedger g)
       +:+ ", got " +:+ bigint_toString 10 batchStartLedger
       +:+ ". Rewinding to " +:+ bigint_toString 10 rewindTo +:+ ".") now in
    (Rewind rewindTo, mkGuard batchStartLedger (rg_events g ++ [event])).

Definition commit (lastLedger : Z) (g : ReorgGuard) : ReorgGuard :=
  mkGuard (lastLedger + 1) (rg_events g).

(** ** Publication monitor *)
Record PublicationAlert : Type := mkAlert {
  al_lastPublishedAt : Z;
  al_lastRoot : string;
  al_lastLedger : Z;
  al_ageMs : Z;
  al_thresholdMs : Z;
}.

Record PublicationMonitor : Type := mkMonitor {
  pm_maxRootAgeMs : Z;
  pm_lastPublishedAt : Z;
  pm_lastRoot : option string;
  pm_lastLedger : Z;
  pm_alerts : list PublicationAlert;     (** what the alert callback received *)
}.

Definition recordPublication (now : Z) (root : string) (ledger : Z) (m : PublicationMonitor)
    : PublicationMonitor :=
  mkMonitor (pm_maxRootAgeMs m) now (Some root) ledger (pm_alerts m).

Definition monitor_check (now : Z) (m : PublicationMonitor)
    : option PublicationAlert * PublicationMonitor :=
  if pm_lastPublishedAt m =? 0 then (None, m)
  else
    let ageMs := now - pm_lastPublishedAt m in
    if ageMs <=? pm_maxRootAgeMs m then (None, m)
    else
      let alert := mkAlert (pm_lastPublishedAt m) (default "" (pm_lastRoot m)) (pm_lastLedger m)
                     ageMs (pm_maxRootAgeMs m) in
      (Some alert, mkMonitor (pm_maxRootAgeMs m) (pm_lastPublishedAt m) (pm_lastRoot m)
                     (pm_lastLedger m) (pm_alerts m ++ [alert])).

(** ** Retry schedule *)
Record BackoffOptions : Type := mkBackoff {
  bo_baseIntervalMs : Z;
  bo_maxIntervalMs : Z;
  bo_factor : option Q;
  bo_jitterRatio : option Q;
}.

(** [Math.round] *)
Definition js_round (x : Q) : Z := Qfloor (x + (1 # 2)).
Definition Qmin' (x y : Q) : Q := if Qle_bool x y then x else y.

(** [random] is the value the generator returned. *)
Definition backoffDelayMs (failureStreak : Z) (o : BackoffOptions) (random : Q) : Z :=
  if failureStreak <=? 0 then bo_baseIntervalMs o
  else
    let factor := default (2 # 1) (bo_factor o) in
    let jitterRatio := default (1 # 5) (bo_jitterRatio o) in
    let exponent := Z.max 0 (failureStreak - 1) in
    let raw := (inject_Z (bo_baseIntervalMs o) * Qpower factor exponent)%Q in
    let capped := Qmin' raw (inject_Z (bo_maxIntervalMs o)) in
    let jitter := (capped * jitterRatio * random)%Q in
    js_round (Qmin' (inject_Z (bo_maxIntervalMs o)) (capped + jitter)%Q).

(** ** Metrics *)
Record AspMetrics : Type := mkAspMetrics {
  am_startedAt : Z;
  am_totalTicks : Z;
  am_totalFailures : Z;
  am_consecutiveFailures : Z;
  am_totalPublished : Z;
  am_totalStatePublished : Z;
  am_totalHaltedForReorg : Z;
  am_totalStaleAlerts : Z;
  am_lastTickAt : option Z;
  am_lastTickDurationMs : option Z;
  am_lastTickError : option string;
  am_lastPublishAt : option Z;
  am_lastPublishedRoot : option string;
}.

Definition createAspMetrics (now : Z) : AspMetrics :=
  mkAspMetrics now 0 0 0 0 0 0 0 None None None None None.

Record TickOutcome : Type := mkOutcome {
  to_published : bool;
  to_statePublished : bool;
  to_haltedForReorg : bool;
  to_staleAlert : bool;
  to_localRoot : option string;
}.

Definition count_if (b : bool) (n : Z) : Z := if b then n + 1 else n.

Definition recordTickSuccess (res : TickOutcome) (durationMs now : Z) (m : AspMetrics) : AspMetrics :=
  let any := to_published res || to_statePublished res in
  mkAspMetrics (am_startedAt m) (am_totalTicks m + 1) (am_totalFailures m) 0
    (count_if (to_published res) (am_totalPublished m))
    (count_if (to_statePublished res) (am_totalStatePublished m))
    (count_if (to_haltedForReorg res) (am_totalHaltedForReorg m))
    (count_if (to_staleAlert res) (am_totalStaleAlerts m))
    (Some now) (Some durationMs) None
    (if any then Some now else am_lastPublishAt m)
    (if any then match to_localRoot res with Some r => Some r | None => am_lastPublishedRoot m end
     else am_lastPublishedRoot m).

Definition recordTickFailure (err : jserr) (durationMs now : Z) (m : AspMetrics) : AspMetrics :=
  mkAspMetrics (am_startedAt m) (am_totalTicks m + 1) (am_totalFailures m + 1)
    (am_consecutiveFailures m + 1) (am_totalPublished m) (am_totalStatePublished m)
    (am_totalHaltedForReorg m) (am_totalStaleAlerts m) (Some now) (Some durationMs)
    (Some (err_message err)) (am_lastPublishAt m) (am_lastPublishedRoot m).

Definition rootAgeMs (now : Z) (m : AspMetrics) : option Z :=
  (λ at_, now - at_) <$> am_lastPublishAt m.

(** [n / 1000] printed by JavaScript, for an integer [n] of at most 15 digits. *)
Fixpoint strip_zeros (s : string) : string :=
  match s with
  | EmptyString => ""
  | String c s' =>
      match strip_zeros s' with
      | EmptyString => if Ascii.eqb c "0"%char then "" else String c ""
      | t => String c t
      end
  end.
Definition thousandths (n : Z) : string :=
  let frac := strip_zeros (padStart0 3 (bigint_toString 10 (Z.abs n mod 1000))) in
  (if n <? 0 then "-" else "") +:+ bigint_toString 10 (Z.abs n / 1000)
  +:+ (if String.eqb frac "" then "" else "." +:+ frac).

Definition metric (kind help name value : string) : list string :=
  [ "# HELP " +:+ name +:+ " " +:+ help; "# TYPE " +:+ name +:+ " " +:+ kind; name +:+ " " +:+ value ].

Definition formatPrometheusMetrics (now : Z) (m : AspMetrics) : string :=
  let num := bigint_toString 10 in
  let lines :=
    metric "counter" "Total number of reconcile ticks attempted." "asp_total_ticks" (num (am_totalTicks m)) ++
    metric "counter" "Total number of failed reconcile ticks." "asp_total_failures" (num (am_totalFailures m)) ++
    metric "gauge" "Number of consecutive failed reconcile ticks." "asp_consecutive_failures"
      (num (am_consecutiveFailures m)) ++
    metric "counter" "Total number of ASP root publications." "asp_total_published" (num (am_totalPublished m)) ++
    metric "counter" "Total number of pool state root publications." "asp_total_state_published"
      (num (am_totalStatePublished m)) ++
    metric "counter" "Total number of ticks halted by the reorg guard." "asp_total_halted_for_reorg"
      (num (am_totalHaltedForReorg m)) ++
    metric "counter" "Total number of publication staleness alerts fired." "asp_total_stale_alerts"
      (num (am_totalStaleAlerts m)) ++
    metric "gauge" "Duration of the last reconcile tick in milliseconds." "asp_last_tick_duration_ms"
      (num (default (-1) (am_lastTickDurationMs m))) ++
    metric "gauge"
      "Age of the last published root in milliseconds (publication lag). -1 if nothing published yet."
      "asp_publication_lag_ms" (num (default (-1) (rootAgeMs now m))) ++
    metric "gauge" "Seconds since the ASP process started." "asp_uptime_seconds"
      (thousandths (now - am_startedAt m)) in
  join (String "010"%char "") lines +:+ String "010"%char "".

Example uptime_text : thousandths 1500 = "1.5" ∧ thousandths 61000 = "61" ∧ thousandths 7 = "0.007".
Proof. by vm_compute. Qed.

(** ** Properties *)
Section policy_properties.
Context {E : Type}.

Lemma run_policies_shape ts notify d (l : list (Policy E)) s rs s' :
  run_policies ts notify d l s = (Ok rs, s') →
  pd_policy <$> rs = pol_name <$> l ∧ Forall (λ r, pd_deposit r = d ∧ pd_timestamp r = ts) rs.
Proof.
  revert s rs s'. induction l as [|p l IH]; intros s rs s' Hr; cbn [run_policies] in Hr.
  { injection Hr as <- <-. by split. }
  apply M_bind_ok in Hr as (v & s1 & _ & Hr). apply M_bind_ok in Hr as ([] & s2 & _ & Hr).
  apply M_bind_ok in Hr as (rest & s3 & Hrest & Hr). injection Hr as <- <-.
  apply IH in Hrest as [Hn Hf]. split; [by rewrite !fmap_cons, Hn|]. by constructor.
Qed.

Lemma existsb_verdict v (rs : list PolicyDecision) :
  existsb (has_verdict v) rs = true ↔ v ∈ pd_verdict <$> rs.
Proof.
  rewrite existsb_exists, list_elem_of_fmap. unfold has_verdict. split.
  - intros (r & Hin & Hv%bool_decide_eq_true). exists r. split; [done|by apply list_elem_of_In].
  - intros (r & -> & Hin). exists r. split; [by apply list_elem_of_In|by apply bool_decide_eq_true].
Qed.

Lemma forallb_verdict v (rs : list PolicyDecision) :
  forallb (has_verdict v) rs = true ↔ Forall (λ x, x = v) (pd_verdict <$> rs).
Proof.
  rewrite forallb_forall, Forall_fmap, Forall_forall. unfold has_verdict. simpl.
  setoid_rewrite bool_decide_eq_true. setoid_rewrite list_elem_of_In. done.
Qed.

Lemma first_decides_spec (rs : list PolicyDecision) :
  (combine first_decides rs = defer ↔ Forall (λ v, v = defer) (pd_verdict <$> rs)) ∧
  (combine first_decides rs ≠ defer →
     ∃ n, pd_verdict <$> rs = repeat defer n ++ combine first_decides rs :: drop (S n) (pd_verdict <$> rs)).
Proof.
  induction rs as [|r rs [IH1 IH2]]; [by split; [split|]|].
  rewrite fmap_cons, Forall_cons. destruct (decide (pd_verdict r = defer)) as [Hd|Hd].
  - assert (Hc : combine first_decides (r :: rs) = combine first_decides rs).
    { unfold combine. cbn [List.find]. unfold has_verdict at 1. by rewrite bool_decide_true. }
    rewrite Hc, Hd. split; [rewrite IH1; tauto|]. intros [n Hn]%IH2. exists (S n).
    cbn [repeat app]. f_equal. exact Hn.
  - assert (Hc : combine first_decides (r :: rs) = pd_verdict r).
    { unfold combine. cbn [List.find]. unfold has_verdict at 1. by rewrite bool_decide_false. }
    rewrite Hc. split; [tauto|]. intros _. exists 0%nat. cbn [repeat app drop]. by rewrite drop_0.
Qed.
End policy_properties.

(** The verdict of an engine is exactly what its strategy says
    of the verdicts of its policies, every policy is asked once and in order, and
    every answer is in the audit trail: "any-approve" approves when one policy
    does and rejects when all do, "all-must-approve" approves when all do and
    rejects when one does, "first-decides" takes the first answer that is not a
    deferral. *)
Theorem engine_verdict_follows_strategy {E} ts (e : PolicyEngine E) d s verdict decisions s' :
  pe_policies e ≠ [] →
  evaluate ts e d s = (Ok (verdict, decisions), s') →
  let vs := pd_verdict <$> decisions in
  pd_policy <$> decisions = pol_name <$> pe_policies e ∧
  match pe_strategy e with
  | any_approve =>
      (verdict = approve ↔ approve ∈ vs) ∧ (verdict = reject ↔ Forall (λ v, v = reject) vs)
  | all_must_approve =>
      (verdict = approve ↔ Forall (λ v, v = approve) vs) ∧ (verdict = reject ↔ reject ∈ vs)
  | first_decides =>
      (verdict = defer ↔ Forall (λ v, v = defer) vs) ∧
      (verdict ≠ defer → ∃ n, vs = repeat defer n ++ verdict :: drop (S n) vs)
  end.
Proof.
  intros Hne Hev. unfold evaluate in Hev.
  apply M_bind_ok in Hev as (rs & s1 & Hrun & Hev). injection Hev as <- <- <-.
  apply run_policies_shape in Hrun as [Hnames _]. cbn zeta. split; [done|].
  assert (Hrs : rs ≠ []).
  { intros ->. symmetry in Hnames. by apply fmap_nil_inv in Hnames. }
  clear Hnames. destruct (pe_strategy e); [apply first_decides_spec|unfold combine..].
  - destruct (existsb (has_verdict approve) rs) eqn:Ha.
    + apply existsb_verdict in Ha. split; [done|]. split; [done|].
      intros Hf. rewrite Forall_forall in Hf. by apply Hf in Ha.
    + assert (Hna : approve ∉ pd_verdict <$> rs) by (rewrite <-existsb_verdict; congruence).
      destruct (existsb (has_verdict defer) rs) eqn:Hd.
      * apply existsb_verdict in Hd. split; [by split|]. split; [done|].
        intros Hf. rewrite Forall_forall in Hf. by apply Hf in Hd.
      * assert (Hnd : defer ∉ pd_verdict <$> rs) by (rewrite <-existsb_verdict; congruence).
        split; [by split|]. split; [|done]. intros _. apply Forall_forall.
        intros v Hv. by destruct v.
  - destruct (existsb (has_verdict reject) rs) eqn:Hr.
    + apply existsb_verdict in Hr. split; [|done]. split; [done|].
      intros Hf. rewrite Forall_forall in Hf. by apply Hf in Hr.
    + assert (Hnr : reject ∉ pd_verdict <$> rs) by (rewrite <-existsb_verdict; congruence).
      destruct (forallb (has_verdict approve) rs) eqn:Ha.
      * apply forallb_verdict in Ha. split; [done|]. by split.
      * split; [|by split]. split; [done|]. intros Hf. apply forallb_verdict in Hf. congruence.
Qed.

(** ** Retry schedule *)
Lemma js_round_between (lo hi : Z) x :
  (inject_Z lo <= x)%Q → (x <= inject_Z hi)%Q → lo <= js_round x <= hi.
Proof.
  intros Hlo Hhi. unfold js_round. pose proof (Qfloor_le (x + (1 # 2))) as Hf.
  pose proof (Qlt_floor (x + (1 # 2))) as Hc. split.
  - rewrite <-(Qfloor_Z lo). apply Qfloor_resp_le. lra.
  - assert (inject_Z (Qfloor (x + (1 # 2))) < inject_Z (hi + 1))%Q as Hlt.
    { rewrite inject_Z_plus. change (inject_Z 1) with 1%Q. lra. }
    rewrite <-Zlt_Qlt in Hlt. lia.
Qed.

Lemma Qmin'_cases x y : (Qmin' x y = x ∧ x <= y)%Q ∨ (Qmin' x y = y ∧ y <= x)%Q.
Proof.
  unfold Qmin'. destruct (Qle_bool x y) eqn:Hle.
  - left. split; [done|]. by apply Qle_bool_iff.
  - right. split; [done|]. apply not_true_iff_false in Hle. rewrite Qle_bool_iff in Hle. lra.
Qed.

Lemma Qpower_ge_1 q n : (1 <= q)%Q → 0 <= n → (1 <= Qpower q n)%Q.
Proof.
  intros Hq Hn. revert n Hn. apply natlike_ind; [simpl; lra|].
  intros n Hn IH. unfold Z.succ. rewrite Qpower_plus by lra. simpl (Qpower q 1). nra.
Qed.

(** Whatever the failure streak and the random draw, the delay
    before the next tick is an integer between the base interval and the maximum
    (for a base within the maximum, a growth factor of at least 1 and a jitter
    that is not negative). *)
Theorem backoff_within_bounds failureStreak o random :
  0 <= bo_baseIntervalMs o <= bo_maxIntervalMs o →
  (1 <= default (2 # 1) (bo_factor o))%Q → (0 <= default (1 # 5) (bo_jitterRatio o))%Q →
  (0 <= random)%Q →
  bo_baseIntervalMs o <= backoffDelayMs failureStreak o random <= bo_maxIntervalMs o.
Proof.
  intros [Hb Hm] Hf Hj Hr. unfold backoffDelayMs.
  destruct (Z.leb_spec failureStreak 0) as [|Hs]; [lia|].
  generalize dependent (default (2 # 1)%Q (bo_factor o)). intros factor Hf.
  generalize dependent (default (1 # 5)%Q (bo_jitterRatio o)). intros jr Hj.
  pose proof (Qpower_ge_1 factor (Z.max 0 (failureStreak - 1)) Hf ltac:(lia)) as Hp.
  generalize dependent (Qpower factor (Z.max 0 (failureStreak - 1))). intros p Hp.
  rewrite Zle_Qle in Hb, Hm. change (inject_Z 0) with 0%Q in Hb.
  set (b := inject_Z (bo_baseIntervalMs o)) in *. set (m := inject_Z (bo_maxIntervalMs o)) in *.
  assert (Hraw : (b <= b * p)%Q) by nra.
  assert (Hcap : (b <= Qmin' (b * p) m)%Q ∧ (Qmin' (b * p) m <= m)%Q).
  { destruct (Qmin'_cases (b * p) m) as [[-> ?]|[-> ?]]; lra. }
  generalize dependent (Qmin' (b * p) m). intros c [Hc1 Hc2].
  assert (Hjit : (0 <= c * jr * random)%Q) by (apply Qmult_le_0_compat; [nra|done]).
  generalize dependent (c * jr * random)%Q. intros j Hjit.
  apply js_round_between; fold b m; destruct (Qmin'_cases m (c + j)) as [[-> ?]|[-> ?]]; lra.
Qed.

Section policy_examples.
Local Notation dep := (mkDeposit 4 "0x00" "10" 1 100).
Local Notation engine :=
  (mkPolicyEngine [screeningPolicy "kyc" (λ _, mret defer); allowlist [4]] first_decides None).

Lemma engine_verdict_witness :
  engine_screen (E := unit) 0 engine dep tt = (Ok approve, tt) ∧
  ∃ n, [defer; approve] = repeat defer n ++ approve :: drop (S n) [defer; approve].
Proof.
  split; [vm_compute; reflexivity|].
  destruct (evaluate (E := unit) 0 engine dep tt) as [r s'] eqn:E0.
  pose proof E0 as E1. vm_compute in E1. injection E1 as <- <-.
  assert (Hne : pe_policies (engine : PolicyEngine unit) ≠ []) by discriminate.
  destruct (engine_verdict_follows_strategy 0 engine dep tt _ _ _ Hne E0) as [_ [_ Hd]].
  apply Hd. discriminate.
Defined.

Lemma backoff_witness :
  1000 <= backoffDelayMs 3 (mkBackoff 1000 5000 None None) (1 # 2) <= 5000 ∧
  backoffDelayMs 3 (mkBackoff 1000 5000 None None) (1 # 2) = 4400.
Proof.
  split; [|vm_compute; reflexivity].
  apply (backoff_within_bounds 3 (mkBackoff 1000 5000 None None) (1 # 2)); simpl; [lia|..];
    unfold Qle; simpl; lia.
Defined.
End policy_examples.
