(* ===== verification/AspManifest.v ===== *)
(** * ASP: published sets

    Writing and pruning set files ([asp/src/publish.ts]: [writeManifest],
    [pruneOldSets]) and serving them ([asp/src/manifest-service.ts]).  A data
    directory holds one directory of files per pool; a file has its modification
    time and what its text parses to.  File operations are taken to succeed. *)
From Stdlib Require Import Ascii.
From stdpp Require Import base tactics list sets strings.
From Stdlib Require Import ZArith Lia Sorted.
From S2P Require Import Prelude JsString JsMap Bytes Merkle PubValidate AspSet.
Open Scope string_scope.
Open Scope list_scope.
Open Scope Z_scope.

Record SetFile : Type := mkSetFile {
  sf_mtimeMs : Z;
  sf_manifest : option SetManifest;     (** [None]: the text is not JSON *)
  sf_signature : option string;
}.

(** Files of [sets/<poolId>], and the pools of a data directory. *)
Abbreviation SetDir := (list (string * SetFile)).
Abbreviation DataDir := (list (string * list (string * SetFile))).

Definition pool_dir (poolId : string) (d : DataDir) : SetDir := default [] (JMap.get poolId d).

(** ** Writing *)
Definition DEFAULT_MAX_SETS_PER_POOL : nat := 50.

Definition endsWith (suffix s : string) : bool :=
  (String.length suffix <=? String.length s)%nat
  && String.eqb (drop_string (String.length s - String.length suffix) s) suffix.

Definition is_set_file (f : string) : bool :=
  endsWith ".json" f && negb (String.eqb f "latest.json") && negb (endsWith ".tmp" f).

(** Newest first. *)
Definition prune_candidates (dir : SetDir) : SetDir :=
  sort_by (λ e, - sf_mtimeMs e.2) (List.filter (λ e, is_set_file e.1) dir).

Definition unlink_all (files dir : SetDir) : SetDir :=
  foldl (λ d (e : string * SetFile), JMap.del e.1 d) dir files.

Definition pruneOldSets (maxKeep : nat) (dir : SetDir) : SetDir :=
  let candidates := prune_candidates dir in
  if (maxKeep <? length candidates)%nat
  then unlink_all (drop maxKeep candidates) dir
  else dir.

Section write.
Context (sha256 : list byte → list byte).

Definition writeManifest (now : Z) (m : SetManifest) (signingKey : option string) (maxSetsPerPool : nat)
    : M DataDir string := λ d,
  let dir := pool_dir (sm_poolId m) d in
  let signed :=
    match signingKey with
    | Some k => if String.eqb k "" then Ok None else s ← signManifest sha256 m k; Ok (Some s)
    | None => Ok None
    end in
  match signed with
  | Err e => (Err e, JMap.set (sm_poolId m) dir d)      (** the directory exists by now *)
  | Ok signature =>
      let file := mkSetFile now (Some m) signature in
      let dir1 := JMap.set (sm_root m +:+ ".json") file dir in
      let dir2 := JMap.set "latest.json" file dir1 in
      (Ok (sm_root m +:+ ".json"), JMap.set (sm_poolId m) (pruneOldSets maxSetsPerPool dir2) d)
  end.
End write.

(** ** Serving *)
Definition isValidRoot (value : string) : bool :=
  startsWith "0x" value && (String.length value =? 66)%nat && all_chars is_hex (drop_string 2 value).

Definition isValidLabel (value : string) : bool :=
  all_chars is_dec value && (1 <=? String.length value)%nat && (String.length value <=? 78)%nat.

Record InclusionProof : Type := mkInclusion {
  ip_root : string;
  ip_label : string;
  ip_index : Z;
  ip_depositIndex : option Z;
  ip_levels : Z;
  ip_pathElements : list string;
  ip_pathIndices : list Z;
}.

Inductive RouteBody : Type :=
| BodyManifest (f : SetFile)
| BodyError (error : string)
| BodyNotInSet (root : string) (size : Z)
| BodyInclusion (p : InclusionProof).

Record ManifestRouteResult : Type := mkRoute { mr_status : Z; mr_body : RouteBody }.

Definition loadManifest (d : DataDir) (poolId file : string) : option (SetFile * SetManifest) :=
  f ← JMap.get file (pool_dir poolId d);
  m ← sf_manifest f;
  Some (f, m).

Definition rootFile (root : string) : string := toLowerCase root +:+ ".json".

Definition readLatestManifest (d : DataDir) (poolId : string) : ManifestRouteResult :=
  match loadManifest d poolId "latest.json" with
  | None => mkRoute 404 (BodyError "no manifest published yet")
  | Some (f, _) => mkRoute 200 (BodyManifest f)
  end.

Definition readManifestByRoot (d : DataDir) (poolId root : string) : ManifestRouteResult :=
  if negb (isValidRoot root)
  then mkRoute 400 (BodyError "root must be a 0x-prefixed 32-byte hex string")
  else
    match loadManifest d poolId (rootFile root) with
    | None => mkRoute 404 (BodyError "no manifest retained for that root")
    | Some (f, _) => mkRoute 200 (BodyManifest f)
    end.

(** The first position whose label is the requested number; a label that does
    not parse is passed over. *)
Fixpoint label_index (labels : list string) (label : Z) (i : Z) : Z :=
  match labels with
  | [] => -1
  | l :: labels' =>
      match BigInt l with
      | Ok v => if v =? label then i else label_index labels' label (i + 1)
      | Err _ => label_index labels' label (i + 1)
      end
  end.

Section inclusion.
Context (poseidon : list Z → Z).

(** [new MerkleTree(poseidon, labels.map(BigInt), levels)]: the constructor's
    second parameter is the depth, so the array of labels becomes the depth and
    the third argument is ignored.  In the loop condition [i < depth] the array is
    converted to a number: a one-element array is its element, a longer one is
    [NaN] and the loop does not run; pushing past the greatest array length
    throws.  [root()] then reads [zero[depth]], where the array is a property key:
    an index only when it has one element that is an index of [zero]. *)
Definition array_tree (vs : list Z) : res MerkleTree :=
  match vs with
  | [v] =>
      if 2 ^ 32 - 1 <=? v then Err (RangeError "Invalid array length")
      else Ok (mkTree 0 (push_zeros poseidon (Z.to_nat v) 0 [0]) [])
  | _ => Ok (mkTree 0 [0] [])
  end.

Definition array_tree_root (vs : list Z) (t : MerkleTree) : option Z :=
  match vs with
  | [v] => if v <? 0 then None else mt_zero t !! Z.to_nat v
  | _ => None
  end.

(** [toHex32(undefined)] throws. *)
Definition hex_of_root (r : option Z) : res string :=
  match r with
  | Some v => Ok (toHex32 v)
  | None => Err (TypeError "Cannot read properties of undefined (reading 'toString')")
  end.

Definition readInclusion (d : DataDir) (poolId root label : string) : res ManifestRouteResult :=
  if negb (isValidRoot root)
  then Ok (mkRoute 400 (BodyError "root must be a 0x-prefixed 32-byte hex string"))
  else if negb (isValidLabel label)
  then Ok (mkRoute 400 (BodyError "label must be a decimal field element"))
  else
    match loadManifest d poolId (rootFile root) with
    | None => Ok (mkRoute 404 (BodyError "no manifest retained for that root"))
    | Some (_, m) =>
        let labels := sm_labels m in
        want ← BigInt label;
        let index := label_index labels want 0 in
        if index <? 0
        then Ok (mkRoute 404 (BodyNotInSet (sm_root m) (Z.of_nat (length labels))))
        else
          vs ← mapM_res BigInt labels;
          tree ← array_tree vs;
          computedRoot ← hex_of_root (array_tree_root vs tree);
          if negb (String.eqb (toLowerCase computedRoot) (toLowerCase (sm_root m)))
          then Ok (mkRoute 500 (BodyError "manifest root does not match its own label set"))
          else
            p ← AspTree.proof poseidon tree index;
            Ok (mkRoute 200 (BodyInclusion
              (mkInclusion (sm_root m) label index (sm_indices m !! Z.to_nat index) (sm_levels m)
                 (bigint_toString 10 <$> AspTree.ap_pathElements p) (AspTree.ap_pathIndices p))))
    end.
End inclusion.

(** ** Retention *)
Lemma drop_string_app a b : drop_string (String.length a) (a +:+ b) = b.
Proof. induction a as [|c a IH]; simpl; done. Qed.

Lemma endsWith_app a b : endsWith b (a +:+ b) = true.
Proof.
  unfold endsWith. rewrite string_app_length. rewrite (proj2 (Nat.leb_le _ _)) by lia.
  replace (String.length a + String.length b - String.length b)%nat with (String.length a) by lia.
  rewrite drop_string_app. apply String.eqb_refl.
Qed.

Lemma json_not_tmp a : endsWith ".tmp" (a +:+ ".json") = false.
Proof.
  unfold endsWith. rewrite string_app_length. cbn [String.length].
  replace (String.length a + 5 - 4)%nat with (String.length (a +:+ "."))
    by (rewrite string_app_length; simpl; lia).
  change ".json" with ("." +:+ "json"). rewrite <-string_app_assoc, drop_string_app.
  apply andb_false_r.
Qed.

Lemma StronglySorted_split {A} (R : A → A → Prop) l1 l2 x y :
  StronglySorted R (l1 ++ l2) → x ∈ l1 → y ∈ l2 → R x y.
Proof.
  induction l1 as [|z l1 IH]; simpl; intros Hs Hx Hy; [by apply elem_of_nil in Hx|].
  inversion Hs as [|? ? Hs' Hz]; subst. rewrite Forall_forall in Hz.
  apply elem_of_cons in Hx as [->|Hx]; [|by apply IH].
  apply Hz. apply elem_of_app. by right.
Qed.

Section retention.
Context (maxKeep : nat) (dir : SetDir) (Hwf : JMap.wf dir).
Abbreviation set_files := (List.filter (λ e : string * SetFile, is_set_file e.1)).
Abbreviation kept := (take maxKeep (prune_candidates dir)).
Abbreviation gone := (drop maxKeep (prune_candidates dir)).

Lemma candidates_perm : prune_candidates dir ≡ₚ set_files dir.
Proof. apply sort_by_perm. Qed.

Lemma elem_of_candidates e : e ∈ prune_candidates dir ↔ e ∈ dir ∧ is_set_file e.1 = true.
Proof. rewrite candidates_perm, !list_elem_of_In, filter_In. done. Qed.

Lemma candidates_split e : e ∈ prune_candidates dir ↔ e ∈ kept ∨ e ∈ gone.
Proof. by rewrite <-elem_of_app, take_drop. Qed.

Lemma candidates_nodup : NoDup (prune_candidates dir).
Proof.
  rewrite candidates_perm. eapply sublist_NoDup; [exact (NoDup_fmap_1 (fst : string * SetFile → string) _ Hwf)|].
  clear Hwf. induction dir as [|x l IH]; simpl; [constructor|]. destruct (is_set_file x.1); by constructor.
Qed.

Lemma kept_newer e g : e ∈ kept → g ∈ gone → sf_mtimeMs g.2 <= sf_mtimeMs e.2.
Proof.
  intros He Hg.
  assert (Hs : StronglySorted (λ a b : string * SetFile, - sf_mtimeMs a.2 <= - sf_mtimeMs b.2)
                 (prune_candidates dir)).
  { apply Sorted_StronglySorted; [intros a b c; simpl; lia|apply sort_by_sorted]. }
  rewrite <-(take_drop maxKeep (prune_candidates dir)) in Hs.
  pose proof (StronglySorted_split _ _ _ _ _ Hs He Hg). simpl in *. lia.
Qed.

Lemma del_fold_elem (l : SetDir) d e :
  e ∈ unlink_all l d ↔ e ∈ d ∧ e.1 ∉ l.*1.
Proof.
  unfold unlink_all. revert d. induction l as [|x l IH]; intros d; simpl.
  { split; [|tauto]. intros He. split; [done|]. apply not_elem_of_nil. }
  rewrite IH, JMap.elem_of_del, elem_of_cons. tauto.
Qed.

Lemma del_fold_wf (l : SetDir) d : JMap.wf d → JMap.wf (unlink_all l d).
Proof.
  unfold unlink_all. revert d. induction l as [|x l IH]; intros d Hd; simpl; [done|].
  by apply IH, JMap.wf_del.
Qed.

Lemma pruned_wf : JMap.wf (pruneOldSets maxKeep dir).
Proof. unfold pruneOldSets. destruct (_ <? _)%nat; [by apply del_fold_wf|done]. Qed.

(** What is left: everything but the files past the first [maxKeep]. *)
Lemma elem_of_pruned e : e ∈ pruneOldSets maxKeep dir ↔ e ∈ dir ∧ e ∉ gone.
Proof.
  unfold pruneOldSets. destruct (Nat.ltb_spec maxKeep (length (prune_candidates dir))).
  - rewrite del_fold_elem. split; intros [He Hn]; (split; [done|]).
    + intros Hg. apply Hn, list_elem_of_fmap. by exists e.
    + intros (g & Hk & Hg)%list_elem_of_fmap. apply Hn.
      assert (Hgd : g ∈ dir) by (apply elem_of_candidates, candidates_split; by right).
      destruct e as [k f], g as [k' f']. simpl in Hk. subst k'.
      pose proof (JMap.elem_get _ _ _ Hwf He). pose proof (JMap.elem_get _ _ _ Hwf Hgd).
      by simplify_eq.
  - rewrite drop_ge by done. split; [|tauto]. intros He. split; [done|]. apply not_elem_of_nil.
Qed.

Lemma pruned_set_files : set_files (pruneOldSets maxKeep dir) ≡ₚ kept.
Proof.
  pose proof candidates_nodup as Hnd.
  rewrite <-(take_drop maxKeep (prune_candidates dir)) in Hnd.
  apply NoDup_app in Hnd as (Hk & Hdis & _). apply NoDup_Permutation.
  - eapply sublist_NoDup; [exact (NoDup_fmap_1 (fst : string * SetFile → string) _ pruned_wf)|].
    generalize (pruneOldSets maxKeep dir). intros l.
    induction l as [|x l IH]; simpl; [constructor|]. destruct (is_set_file x.1); by constructor.
  - done.
  - intros e. rewrite list_elem_of_In, filter_In, <-list_elem_of_In, elem_of_pruned.
    pose proof (elem_of_candidates e) as Hc. rewrite candidates_split in Hc. split.
    + intros [[Hd Hn] Hs]. destruct (proj2 Hc (conj Hd Hs)); done.
    + intros He. destruct (proj1 Hc (or_introl He)). split; [|done]. split; [done|].
      by apply Hdis.
Qed.
End retention.

(** Retention keeps at most [maxKeep] sets, deletes only set
    files, never [latest.json], and never a set that is newer than one it keeps. *)
Theorem retention_keeps_newest maxKeep dir :
  JMap.wf dir →
  let dir' := pruneOldSets maxKeep dir in
  let sets d := List.filter (λ e : string * SetFile, is_set_file e.1) d in
  length (sets dir') = (maxKeep `min` length (sets dir))%nat ∧
  (∀ e, e ∈ dir' → e ∈ dir) ∧
  (∀ e, e ∈ dir → is_set_file e.1 = false → e ∈ dir') ∧
  (∀ e g, e ∈ dir' → is_set_file e.1 = true → g ∈ dir → g ∉ dir' →
     sf_mtimeMs g.2 <= sf_mtimeMs e.2).
Proof.
  intros Hwf. cbn zeta. split_and!.
  - rewrite (pruned_set_files maxKeep dir Hwf), length_take, (Permutation_length (candidates_perm dir)).
    done.
  - intros e He. by apply (elem_of_pruned maxKeep dir Hwf) in He as [He _].
  - intros e He Hs. apply (elem_of_pruned maxKeep dir Hwf). split; [done|].
    intros Hg. assert (Hc : e ∈ prune_candidates dir) by (apply (candidates_split maxKeep); by right).
    apply elem_of_candidates in Hc as [_ Hc]. congruence.
  - intros e g He Hs Hg Hng.
    apply (elem_of_pruned maxKeep dir Hwf) in He as [Hed Hen].
    assert (Hgg : g ∈ drop maxKeep (prune_candidates dir)).
    { destruct (is_set_file g.1) eqn:Hsg.
      - assert (Hc : g ∈ prune_candidates dir) by (by apply elem_of_candidates).
        apply (candidates_split maxKeep) in Hc as [Hk|?]; [|done]. exfalso. apply Hng.
        rewrite <-(pruned_set_files maxKeep dir Hwf), list_elem_of_In, filter_In in Hk.
        destruct Hk as [Hk _]. by apply list_elem_of_In.
      - exfalso. apply Hng, (elem_of_pruned maxKeep dir Hwf). split; [done|]. intros Hgo.
        assert (Hc : g ∈ prune_candidates dir) by (apply (candidates_split maxKeep); by right).
        apply elem_of_candidates in Hc as [_ Hc]. congruence. }
    apply (kept_newer maxKeep dir); [|done].
    assert (Hc : e ∈ prune_candidates dir) by (by apply elem_of_candidates).
    apply (candidates_split maxKeep) in Hc as [?|?]; done.
Qed.

(** ** Serving what was published *)
Lemma valid_root_not_latest root : isValidRoot root = true → root +:+ ".json" ≠ "latest.json".
Proof.
  intros [[H _]%andb_prop _]%andb_prop Heq. destruct root as [|c root]; [done|].
  injection Heq as -> _. by vm_compute in H.
Qed.

Lemma written_survives now m maxKeep (dir : SetDir) file :
  (1 ≤ maxKeep)%nat → JMap.wf dir → isValidRoot (sm_root m) = true →
  (∀ e, e ∈ dir → sf_mtimeMs e.2 < now) → sf_mtimeMs file = now →
  let dir2 := JMap.set "latest.json" file (JMap.set (sm_root m +:+ ".json") file dir) in
  JMap.get "latest.json" (pruneOldSets maxKeep dir2) = Some file ∧
  JMap.get (sm_root m +:+ ".json") (pruneOldSets maxKeep dir2) = Some file.
Proof.
  intros Hmax Hwf Hroot Hold Hnow. cbn zeta.
  set (name := sm_root m +:+ ".json"). set (dir2 := JMap.set "latest.json" file _).
  assert (Hne : name ≠ "latest.json") by (by apply valid_root_not_latest).
  assert (Hset : is_set_file name = true).
  { unfold is_set_file, name. rewrite endsWith_app, json_not_tmp, andb_true_r.
    destruct (String.eqb_spec (sm_root m +:+ ".json") "latest.json"); [done|done]. }
  assert (Hwf2 : JMap.wf dir2) by (by apply JMap.wf_set, JMap.wf_set).
  assert (Hin1 : ("latest.json", file) ∈ dir2) by apply JMap.get_Some_elem, JMap.get_set_eq.
  assert (Hin2 : (name, file) ∈ dir2).
  { apply JMap.get_Some_elem. unfold dir2. rewrite JMap.get_set_ne by done. apply JMap.get_set_eq. }
  assert (Hother : ∀ e, e ∈ dir2 → is_set_file e.1 = true → e ≠ (name, file) → sf_mtimeMs e.2 < now).
  { intros e He Hs Hneq. apply JMap.elem_of_set in He as [->|He]; [by vm_compute in Hs|].
    apply JMap.elem_of_set in He as [->|He]; [done|by apply Hold]. }
  pose proof (pruned_wf maxKeep dir2 Hwf2) as Hwf3.
  split; apply (JMap.elem_get _ _ _ Hwf3), (elem_of_pruned maxKeep dir2 Hwf2); (split; [done|]); intros Hg.
  - assert (Hc : ("latest.json", file) ∈ prune_candidates dir2) by (apply (candidates_split maxKeep); by right).
    apply elem_of_candidates in Hc as [_ Hc]. by vm_compute in Hc.
  - destruct (prune_candidates dir2) as [|e l] eqn:Hc; [by rewrite drop_nil in Hg; apply elem_of_nil in Hg|].
    destruct maxKeep as [|n]; [lia|].
    assert (He : e ∈ take (S n) (prune_candidates dir2)) by (rewrite Hc; simpl; left).
    rewrite <-Hc in Hg. pose proof (kept_newer (S n) dir2 e _ He Hg) as Hle. simpl in Hle.
    assert (Hec : e ∈ prune_candidates dir2) by (rewrite Hc; left).
    apply elem_of_candidates in Hec as [Hed Hes].
    assert (Hneq : e ≠ (name, file)).
    { intros ->. pose proof (candidates_nodup dir2 Hwf2) as Hnd. rewrite Hc in Hnd, Hg.
      apply NoDup_cons in Hnd as [Hni _]. simpl in Hg. apply Hni.
      rewrite <-(take_drop n l), elem_of_app. by right. }
    pose proof (Hother e Hed Hes Hneq). lia.
Qed.

(** A published manifest is served as [latest.json] and under its
    root, whatever the letter case of the request, as long as the clock moved on
    since the older sets were written; other pools' directories are untouched. *)
Theorem published_manifest_is_served sha256 now m maxKeep d :
  (1 ≤ maxKeep)%nat → JMap.wf (pool_dir (sm_poolId m) d) → isValidRoot (sm_root m) = true →
  (∀ e, e ∈ pool_dir (sm_poolId m) d → sf_mtimeMs e.2 < now) →
  let d' := (writeManifest sha256 now m None maxKeep d).2 in
  let answer := mkRoute 200 (BodyManifest (mkSetFile now (Some m) None)) in
  readLatestManifest d' (sm_poolId m) = answer ∧
  (∀ request, isValidRoot request = true → toLowerCase request = sm_root m →
     readManifestByRoot d' (sm_poolId m) request = answer) ∧
  (∀ other, other ≠ sm_poolId m → pool_dir other d' = pool_dir other d).
Proof.
  intros Hmax Hwf Hroot Hold. cbn zeta. unfold writeManifest. cbn [snd].
  destruct (written_survives now m maxKeep _ (mkSetFile now (Some m) None) Hmax Hwf Hroot Hold eq_refl)
    as [H1 H2].
  split_and!.
  - unfold readLatestManifest, loadManifest, pool_dir. rewrite JMap.get_set_eq. simpl.
    unfold pool_dir in H1. by rewrite H1.
  - intros request Hv Hl. unfold readManifestByRoot, loadManifest, rootFile, pool_dir.
    rewrite Hv, JMap.get_set_eq, Hl. simpl. unfold pool_dir in H2. by rewrite H2.
  - intros other Hne. unfold pool_dir. by rewrite JMap.get_set_ne.
Qed.

(** No request for an inclusion path is ever answered with one: the
    rebuilt tree gets the array of labels in place of its depth and holds no leaf,
    so the handler throws, or finds that the roots differ. *)
Theorem inclusion_path_never_served poseidon d poolId root label body :
  readInclusion poseidon d poolId root label ≠ Ok (mkRoute 200 body).
Proof.
  unfold readInclusion. destruct (isValidRoot root); simpl; [|done].
  destruct (isValidLabel label); simpl; [|done].
  destruct (loadManifest _ _ _) as [[f m]|]; [|done].
  destruct (BigInt label) as [want|]; simpl; [|done].
  destruct (Z.ltb_spec (label_index (sm_labels m) want 0) 0) as [|Hi]; [done|].
  destruct (mapM_res BigInt (sm_labels m)) as [vs|]; simpl; [|done].
  destruct (array_tree poseidon vs) as [t|] eqn:Ht; simpl; [|done].
  destruct (hex_of_root _) as [c|]; simpl; [|done].
  destruct (String.eqb _ _); simpl; [|done].
  assert (Hlen : treeLen t = 0).
  { unfold array_tree in Ht. destruct vs as [|v [|]]; try by injection Ht as <-.
    destruct (2 ^ 32 - 1 <=? v); [done|by injection Ht as <-]. }
  unfold AspTree.proof. rewrite Hlen. destruct (Z.leb_spec 0 (label_index (sm_labels m) want 0)); [done|lia].
Qed.

(** ** Concrete directories *)
Section manifest_examples.
Local Notation toy_poseidon := (λ l : list Z, foldl (λ a x, (31 * a + x + 7) mod 1000003) 1 l).
Local Notation toy_set :=
  (match rebuild toy_poseidon 5 [0; 3] with Ok s => s | Err _ => create toy_poseidon 5 end).
Local Notation toy_manifest := (manifest toy_poseidon "pool" "now" toy_set).
Local Notation old_file := (mkSetFile 10 None None).
Local Notation toy_dir := ([("pool", [("0xaa.json", old_file)])] : DataDir).

(** The manifest of a real two-label set: the lookup of its first label throws. *)
Example inclusion_request_throws :
  readInclusion toy_poseidon
    (writeManifest (λ b, b) 20 toy_manifest None 50 toy_dir).2 "pool" (sm_root toy_manifest)
    (default "" (head (sm_labels toy_manifest)))
  = Err (TypeError "Cannot read properties of undefined (reading 'toString')").
Proof. vm_compute. reflexivity. Qed.

Lemma published_manifest_witness :
  readLatestManifest (writeManifest (λ b, b) 20 toy_manifest None 1 toy_dir).2 "pool"
  = mkRoute 200 (BodyManifest (mkSetFile 20 (Some toy_manifest) None)).
Proof.
  refine (proj1 (published_manifest_is_served (λ b, b) 20 toy_manifest 1 toy_dir _ _ _ _)).
  - lia.
  - apply NoDup_singleton.
  - vm_compute. reflexivity.
  - intros e He. apply list_elem_of_singleton in He as ->. simpl. lia.
Defined.

Lemma retention_witness :
  length (List.filter (λ e : string * SetFile, is_set_file e.1)
    (pruneOldSets 1 [("0xaa.json", old_file); ("0xbb.json", mkSetFile 11 None None); ("latest.json", old_file)]))
  = 1%nat.
Proof.
  refine (proj1 (retention_keeps_newest 1
    [("0xaa.json", old_file); ("0xbb.json", mkSetFile 11 None None); ("latest.json", old_file)] _)).
  apply (bool_decide_unpack _). vm_compute. exact I.
Defined.
End manifest_examples.
