(* ===== verification/AspEngine.v ===== *)
(** * ASP: the pool tick

    [asp/src/engine.ts] and [asp/src/store.ts].  A tick screens new deposits,
    rebuilds the association set from the approved indices, publishes its root
    when the chain has another one, and does the same for the pool's state tree.
    The chain adapter and the policies act on an environment [E] and are
    arbitrary state transformers over it, so the theorems hold for a chain that
    answers anything or fails. *)
From Stdlib Require Import Ascii.
From stdpp Require Import base tactics list sets strings.
From Stdlib Require Import ZArith Lia.
From S2P Require Import Prelude JsString JsMap Bytes Merkle AspSet AspPolicy AspManifest.
Open Scope string_scope.
Open Scope list_scope.
Open Scope Z_scope.

Record PoolState : Type := mkPool {
  po_poolId : string;
  po_scope : Z;
  po_approvedIndices : list Z;
  po_rejectedIndices : option (list Z);
  po_deferredIndices : option (list Z);
  po_lastIndex : Z;
  po_lastLedger : Z;
  po_decisions : option (list PolicyDecisionRecord);
  po_stateEventCursor : option Z;
  po_stateLeaves : option (list (option string));   (** an array may have holes *)
}.

Record StateTreeSnapshot : Type := mkSnapshot {
  ss_leaves : list string;
  ss_eventCount : Z;
  ss_maxIndex : Z;
  ss_events : option (list (Z * string));
  ss_cursor : option Z;
}.

Class ChainAdapter (E : Type) : Type := {
  readDeposits : Z → Z → M E (list Deposit);
  currentAspRoot : M E (option string);
  postAspRoot : string → string → M E unit;
  latestLedger : M E Z;
  readStateLeaves : Z → M E StateTreeSnapshot;
  currentStateRoot : M E (option string);
  postStateRoot : string → string → M E unit;
}.

(** ** Store: one JSON file per pool *)
Module FileStore.
Inductive StateFile : Type := Saved (s : PoolState) | BadText.
Definition t : Type := list (string * StateFile).

(** A file that does not parse is moved aside before failing. *)
Definition load (poolId : string) : M t (option PoolState) := λ d,
  match JMap.get poolId d with
  | None => (Ok None, d)
  | Some (Saved s) => (Ok (Some s), d)
  | Some BadText => (Err (JsError "Corrupt state moved aside"), JMap.del poolId d)
  end.

Definition save (s : PoolState) : M t unit := modify (JMap.set (po_poolId s) (Saved s)).
End FileStore.

(** ** Configuration and results *)
Inductive AnyPolicy (E : Type) : Type :=
| OnePolicy (p : Policy E)
| EnginePolicy (e : PolicyEngine E).
Arguments OnePolicy {E}.
Arguments EnginePolicy {E}.

Record TickConfig (E : Type) : Type := mkTickConfig {
  tk_poolId : string;
  tk_scope : Z;
  tk_policy : AnyPolicy E;
  tk_dataDir : bool;               (** whether a data directory is configured *)
  tk_confirmations : option Z;
  tk_stateTree : bool;             (** whether the adapter has the three state operations *)
}.
Arguments mkTickConfig {E}.
Arguments tk_poolId {E}.
Arguments tk_scope {E}.
Arguments tk_policy {E}.
Arguments tk_dataDir {E}.
Arguments tk_confirmations {E}.
Arguments tk_stateTree {E}.

Record StateResult : Type := mkStateResult {
  sr_leafCount : option Z;
  sr_root : option string;
  sr_onChainRoot : option (option string);
  sr_published : bool;
}.

Record TickResult : Type := mkTickResult {
  tr_poolId : string;
  tr_approvedCount : Z;
  tr_newlyApproved : Z;
  tr_rejectedCount : Z;
  tr_newlyRejected : Z;
  tr_deferredCount : Z;
  tr_localRoot : string;
  tr_onChainRoot : option string;
  tr_published : bool;
  tr_state : option StateResult;
  tr_haltedForReorg : bool;
  tr_staleAlert : option PublicationAlert;
}.

Definition initState (poolId : string) (scope : Z) : PoolState :=
  mkPool poolId scope [] (Some []) (Some []) (-1) 0 (Some []) None None.

(** ** Screening *)
(** The arrays of the state and the sets the loop builds from them. *)
Record Screening : Type := mkScreening {
  sc_approvedIndices : list Z;
  sc_rejectedIndices : list Z;
  sc_decisions : list PolicyDecisionRecord;
  sc_lastIndex : Z;
  sc_lastLedger : Z;
  sc_approved : list Z;
  sc_rejected : list Z;
  sc_nextDeferred : list Z;
  sc_newlyApproved : Z;
  sc_newlyRejected : Z;
}.

Definition start_screening (s : PoolState) : Screening :=
  mkScreening (po_approvedIndices s) (default [] (po_rejectedIndices s)) (default [] (po_decisions s))
    (po_lastIndex s) (po_lastLedger s) (JSet.of_list (po_approvedIndices s))
    (JSet.of_list (default [] (po_rejectedIndices s))) [] 0 0.

Definition record_of (dep : Deposit) (d : PolicyDecision) : PolicyDecisionRecord :=
  mkDecisionRecord (dp_index dep) (pd_policy d) (pd_verdict d) (pd_reason d) (pd_timestamp d).

(** The body of the loop once the verdict is known. *)
Definition apply_verdict (dep : Deposit) (verdict : PolicyVerdict) (decisions : list PolicyDecision)
    (s : Screening) : Screening :=
  let i := dp_index dep in
  let decs := sc_decisions s ++ (record_of dep <$> decisions) in
  let lastLedger := Z.max (sc_lastLedger s) (dp_ledger dep) in
  match verdict with
  | approve =>
      mkScreening (sc_approvedIndices s ++ [i]) (sc_rejectedIndices s) decs
        (Z.max (sc_lastIndex s) i) lastLedger (JSet.add i (sc_approved s)) (sc_rejected s)
        (sc_nextDeferred s) (sc_newlyApproved s + 1) (sc_newlyRejected s)
  | reject =>
      mkScreening (sc_approvedIndices s) (sc_rejectedIndices s ++ [i]) decs
        (Z.max (sc_lastIndex s) i) lastLedger (sc_approved s) (JSet.add i (sc_rejected s))
        (sc_nextDeferred s) (sc_newlyApproved s) (sc_newlyRejected s + 1)
  | defer =>
      mkScreening (sc_approvedIndices s) (sc_rejectedIndices s) decs (sc_lastIndex s) lastLedger
        (sc_approved s) (sc_rejected s) (JSet.add i (sc_nextDeferred s)) (sc_newlyApproved s)
        (sc_newlyRejected s)
  end.

(** Write the loop's result back into the state. *)
Definition end_screening (st : PoolState) (s : Screening) : PoolState :=
  mkPool (po_poolId st) (po_scope st) (sc_approvedIndices s)
    (Some (sort_by (λ i, i) (sc_rejectedIndices s)))
    (Some (sort_by (λ i, i) (sc_nextDeferred s)))
    (sc_lastIndex s) (sc_lastLedger s) (Some (sc_decisions s))
    (po_stateEventCursor st) (po_stateLeaves st).

(** ** State leaves *)
(** [accumulated[index] = leaf] extends the array when needed. *)
Definition set_at (i : Z) (leaf : string) (l : list (option string)) : list (option string) :=
  if i <? 0 then l
  else let n := Z.to_nat i in
       <[n := Some leaf]> (l ++ replicate (S n - length l) None).

Definition accumulate (snapshot : StateTreeSnapshot) (st : PoolState) : PoolState :=
  let accumulated := default [] (po_stateLeaves st) in
  let leaves :=
    match ss_events snapshot with
    | Some events => Some (foldl (λ l '(i, leaf), set_at i leaf l) accumulated events)
    | None => if default 0 (po_stateEventCursor st) =? 0 then Some (Some <$> ss_leaves snapshot)
              else po_stateLeaves st
    end in
  mkPool (po_poolId st) (po_scope st) (po_approvedIndices st) (po_rejectedIndices st)
    (po_deferredIndices st) (po_lastIndex st) (po_lastLedger st) (po_decisions st)
    (match ss_cursor snapshot with Some c => Some c | None => po_stateEventCursor st end) leaves.

(** [BigInt(undefined)] throws. *)
Definition leaf_text (l : option string) : res string :=
  match l with Some s => Ok s | None => Err (TypeError "Cannot convert undefined to a BigInt") end.

Fixpoint insert_leaves (leaves : list (option string)) (t : MerkleTree) : res MerkleTree :=
  match leaves with
  | [] => Ok t
  | l :: leaves' => s ← leaf_text l; v ← BigInt s; r ← AspTree.insert t v; insert_leaves leaves' r.1
  end.

Section engine.
Context (poseidon : list Z → Z) (sha256 : list byte → list byte).
Context {E : Type} `{ChainAdapter E}.

Record World : Type := mkWorld {
  aw_env : E;
  aw_store : FileStore.t;
  aw_guard : option ReorgGuard;
  aw_monitor : option PublicationMonitor;
  aw_data : DataDir;
  aw_now : Z;
}.

Definition env {A} (m : M E A) : M World A := λ w,
  let '(r, e) := m (aw_env w) in
  (r, mkWorld e (aw_store w) (aw_guard w) (aw_monitor w) (aw_data w) (aw_now w)).
Definition on_store {A} (m : M FileStore.t A) : M World A := λ w,
  let '(r, d) := m (aw_store w) in
  (r, mkWorld (aw_env w) d (aw_guard w) (aw_monitor w) (aw_data w) (aw_now w)).
Definition on_data {A} (m : M DataDir A) : M World A := λ w,
  let '(r, d) := m (aw_data w) in
  (r, mkWorld (aw_env w) (aw_store w) (aw_guard w) (aw_monitor w) d (aw_now w)).
Definition set_guard (g : ReorgGuard) : M World unit :=
  modify (λ w, mkWorld (aw_env w) (aw_store w) (Some g) (aw_monitor w) (aw_data w) (aw_now w)).
Definition set_monitor (m : PublicationMonitor) : M World unit :=
  modify (λ w, mkWorld (aw_env w) (aw_store w) (aw_guard w) (Some m) (aw_data w) (aw_now w)).

Definition confirmedDeposits (deposits : list Deposit) (confirmations : Z) : M World (list Deposit) :=
  if (confirmations <=? 1) || (length deposits =? 0)%nat then mret deposits
  else
    latest ← env latestLedger;
    let maxFinalLedger := latest - confirmations + 1 in
    mret (List.filter (λ d, dp_ledger d <=? maxFinalLedger) deposits).

Definition evaluate_deposit (policy : AnyPolicy E) (now : Z) (dep : Deposit)
    : M E (PolicyVerdict * list PolicyDecision) :=
  match policy with
  | EnginePolicy e => evaluate now e dep
  | OnePolicy p =>
      screened ← pol_screen p dep;
      mret (screened, [mkPolicyDecision (pol_name p) dep screened (reason_of p dep screened) now])
  end.

Fixpoint screen_deposits (policy : AnyPolicy E) (deposits : list Deposit) (s : Screening)
    : M World Screening :=
  match deposits with
  | [] => mret s
  | dep :: deposits' =>
      if JSet.has (dp_index dep) (sc_approved s) || JSet.has (dp_index dep) (sc_rejected s)
      then screen_deposits policy deposits' s
      else
        now ← gets aw_now;
        evaluated ← env (evaluate_deposit policy now dep);
        screen_deposits policy deposits' (apply_verdict dep evaluated.1 evaluated.2 s)
  end.

(** Step 1: read and screen. *)
Definition read_and_screen (cfg : TickConfig E) (state : PoolState)
    : M World (list Deposit * Screening) :=
  let readAfterIndex :=
    if (length (default [] (po_deferredIndices state)) =? 0)%nat then po_lastIndex state else -1 in
  read ← env (readDeposits readAfterIndex (po_lastLedger state));
  deposits ← confirmedDeposits read (default 0 (tk_confirmations cfg));
  s ← screen_deposits (tk_policy cfg) deposits (start_screening state);
  mret (deposits, s).

(** Step 3: [Some] the ledger to rewind to when the guard stops the tick. *)
Definition run_guard (deposits : list Deposit) (lastLedger : Z) : M World (option Z) :=
  guard ← gets aw_guard;
  match guard, deposits with
  | None, _ | _, [] => mret None
  | Some g, d :: ds =>
      let latest := foldr Z.max (dp_ledger d) (dp_ledger <$> ds) in
      now ← gets aw_now;
      let '(check, g') := validate now lastLedger g in
      match check with
      | Rewind to => set_guard g';; mret (Some to)
      | Continuous => set_guard (commit latest g');; mret None
      end
  end.

(** Step 4: publish when the roots differ. *)
Definition publish_set (cfg : TickConfig E) (set : AssociationSet) (lastLedger : Z)
    : M World (option string * bool) :=
  let localRoot := set_rootHex poseidon set in
  onChainRoot ← env currentAspRoot;
  if (0 <? set_size set) && negb (bool_decide (Some localRoot = onChainRoot))
  then
    now ← gets aw_now;
    let m := manifest poseidon (tk_poolId cfg) (bigint_toString 10 now) set in
    (if tk_dataDir cfg then on_data (writeManifest sha256 now m None DEFAULT_MAX_SETS_PER_POOL);; mret tt
     else mret tt);;
    hash ← lift_res (computeDatasetHash sha256 localRoot (sm_labels m));
    env (postAspRoot localRoot hash);;
    monitor ← gets aw_monitor;
    (match monitor with
     | Some pm => set_monitor (recordPublication now localRoot lastLedger pm)
     | None => mret tt
     end);;
    mret (onChainRoot, true)
  else mret (onChainRoot, false).

(** Step 5. *)
Definition check_staleness : M World (option PublicationAlert) :=
  monitor ← gets aw_monitor;
  match monitor with
  | None => mret None
  | Some pm =>
      now ← gets aw_now;
      let '(alert, pm') := monitor_check now pm in
      set_monitor pm';; mret alert
  end.

(** The state tree. *)
Definition publish_state (cfg : TickConfig E) (state : PoolState)
    : M World (StateResult * PoolState) :=
  if negb (tk_stateTree cfg) then mret (mkStateResult None None None false, state)
  else
    snapshot ← env (readStateLeaves (default 0 (po_stateEventCursor state)));
    let state' := accumulate snapshot state in
    let leaves := default (Some <$> ss_leaves snapshot) (po_stateLeaves state') in
    let count := Z.of_nat (length leaves) in
    if (0 <? ss_eventCount snapshot) || (0 <? count)
    then
      tree ← lift_res (insert_leaves leaves (newTree poseidon TREE_DEPTH));
      let stateRoot := toHex32 (root poseidon tree) in
      onChain ← env currentStateRoot;
      if bool_decide (Some stateRoot = onChain)
      then mret (mkStateResult (Some count) (Some stateRoot) (Some onChain) false, state')
      else
        texts ← lift_res (mapM_res leaf_text leaves);
        hash ← lift_res (computeDatasetHash sha256 stateRoot texts);
        env (postStateRoot stateRoot hash);;
        mret (mkStateResult (Some count) (Some stateRoot) (Some onChain) true, state')
    else mret (mkStateResult (Some count) None None false, state').

Definition count_of (l : option (list Z)) : Z := Z.of_nat (length (default [] l)).

Definition tick_result (cfg : TickConfig E) (state : PoolState) (s : Screening) (set : AssociationSet)
    (onChainRoot : option string) (published : bool) (sr : option StateResult) (halted : bool)
    (alert : option PublicationAlert) : TickResult :=
  mkTickResult (tk_poolId cfg) (Z.of_nat (length (po_approvedIndices state))) (sc_newlyApproved s)
    (count_of (po_rejectedIndices state)) (sc_newlyRejected s) (count_of (po_deferredIndices state))
    (set_rootHex poseidon set) onChainRoot published sr halted alert.

(** The guard stopped the tick: save the screening, publish nothing. *)
Definition stop_tick (cfg : TickConfig E) (state : PoolState) (s : Screening) (set : AssociationSet)
    : M World TickResult :=
  on_store (FileStore.save state);;
  onChainRoot ← env currentAspRoot;
  mret (tick_result cfg state s set onChainRoot false None true None).

(** Steps 4 and 5, the state tree, and the save. *)
Definition finish_tick (cfg : TickConfig E) (state : PoolState) (s : Screening) (set : AssociationSet)
    : M World TickResult :=
  pub ← publish_set cfg set (po_lastLedger state);
  alert ← check_staleness;
  st ← publish_state cfg state;
  on_store (FileStore.save st.2);;
  mret (tick_result cfg state s set pub.1 pub.2 (Some st.1) false alert).

Definition runPoolTick (cfg : TickConfig E) : M World TickResult :=
  loaded ← on_store (FileStore.load (tk_poolId cfg));
  let state0 := default (initState (tk_poolId cfg) (tk_scope cfg)) loaded in
  screened ← read_and_screen cfg state0;
  let '(deposits, s) := screened in
  let state := end_screening state0 s in
  set ← lift_res (rebuild poseidon (tk_scope cfg) (po_approvedIndices state));
  halted ← run_guard deposits (po_lastLedger state);
  match halted with
  | Some _ => stop_tick cfg state s set
  | None => finish_tick cfg state s set
  end.
End engine.

(** ** What screening guarantees *)
(** No index twice, none both approved and rejected. *)
Record pool_ok (st : PoolState) : Prop := {
  pk_approved : NoDup (po_approvedIndices st);
  pk_rejected : NoDup (default [] (po_rejectedIndices st));
  pk_disjoint : ∀ i, i ∈ po_approvedIndices st → i ∉ default [] (po_rejectedIndices st);
}.

Record screened (st : PoolState) (deps : list Deposit) (s : Screening) : Prop := {
  sd_approved : ∀ i, i ∈ sc_approved s ↔ i ∈ sc_approvedIndices s;
  sd_rejected : ∀ i, i ∈ sc_rejected s ↔ i ∈ sc_rejectedIndices s;
  sd_ok : pool_ok st →
    NoDup (sc_approvedIndices s) ∧ NoDup (sc_rejectedIndices s) ∧
    ∀ i, i ∈ sc_approvedIndices s → i ∉ sc_rejectedIndices s;
  sd_new : ∃ newA newR decs,
    sc_approvedIndices s = po_approvedIndices st ++ newA ∧
    sc_rejectedIndices s = default [] (po_rejectedIndices st) ++ newR ∧
    sc_decisions s = default [] (po_decisions st) ++ decs ∧
    sc_newlyApproved s = Z.of_nat (length newA) ∧ sc_newlyRejected s = Z.of_nat (length newR) ∧
    ∀ i, i ∈ newA ∨ i ∈ newR ∨ i ∈ sc_nextDeferred s → i ∈ dp_index <$> deps;
  sd_lastLedger : po_lastLedger st <= sc_lastLedger s;
  sd_ledgerBound : ∀ b, po_lastLedger st <= b → (∀ d, d ∈ deps → dp_ledger d <= b) → sc_lastLedger s <= b;
}.

Lemma screened_start st : screened st [] (start_screening st).
Proof.
  split; simpl.
  - intros i. apply JSet.elem_of_of_list.
  - intros i. apply JSet.elem_of_of_list.
  - by intros [].
  - exists [], [], []. rewrite !app_nil_r. split_and!; try done.
    intros i [Hi|[Hi|Hi]]; by apply elem_of_nil in Hi.
  - lia.
  - done.
Qed.

Lemma screened_skip st deps s dep : screened st deps s → screened st (deps ++ [dep]) s.
Proof.
  intros [Ha Hr Hok (nA & nR & ds & H1 & H2 & H3 & H4 & H5 & H6) Hl Hb]. split; try done.
  - exists nA, nR, ds. split_and!; try done. intros i Hi. rewrite fmap_app, elem_of_app. left. auto.
  - intros b Hb0 Hd. apply Hb; [done|]. intros d Hin. apply Hd, elem_of_app. by left.
Qed.

Lemma screened_step st deps s dep v decs :
  screened st deps s → dp_index dep ∉ sc_approved s → dp_index dep ∉ sc_rejected s →
  screened st (deps ++ [dep]) (apply_verdict dep v decs s).
Proof.
  intros [Ha Hr Hok (nA & nR & ds & H1 & H2 & H3 & H4 & H5 & H6) Hl Hb] Hna Hnr.
  pose proof (λ x, Hna (proj2 (Ha _) x)) as Hna'.
  pose proof (λ x, Hnr (proj2 (Hr _) x)) as Hnr'.
  assert (Hnew : ∀ i, i ∈ dp_index <$> deps ∨ i = dp_index dep → i ∈ dp_index <$> (deps ++ [dep])).
  { intros i Hi. rewrite fmap_app, elem_of_app. destruct Hi as [Hi| ->]; [by left|right; left]. }
  assert (Hlb : ∀ b, po_lastLedger st <= b → (∀ d, d ∈ deps ++ [dep] → dp_ledger d <= b) →
    Z.max (sc_lastLedger s) (dp_ledger dep) <= b).
  { intros b Hb0 Hd. apply Z.max_lub.
    - apply Hb; [done|]. intros d Hin. apply Hd, elem_of_app. by left.
    - apply Hd, elem_of_app. right. left. }
  destruct v; split; simpl; try done; try lia.
  - intros i. rewrite JSet.elem_of_add, elem_of_app, list_elem_of_singleton, Ha. tauto.
  - intros Hp. destruct (Hok Hp) as (Hd1 & Hd2 & Hd3). split_and!; [|done|].
    + apply NoDup_app. split_and!; [done| |apply NoDup_singleton].
      intros x Hx ->%list_elem_of_singleton. done.
    + intros i [Hi| ->%list_elem_of_singleton]%elem_of_app; [by apply Hd3|done].
  - exists (nA ++ [dp_index dep]), nR, (ds ++ (record_of dep <$> decs)).
    rewrite H1, H3, H4, length_app, <-!app_assoc. split_and!; try done; [simpl; lia|].
    intros i Hi. apply Hnew. rewrite elem_of_app, list_elem_of_singleton in Hi.
    destruct Hi as [[Hi|Hi]|Hi]; [left; auto|by right|left; auto].
  - intros i. rewrite JSet.elem_of_add, elem_of_app, list_elem_of_singleton, Hr. tauto.
  - intros Hp. destruct (Hok Hp) as (Hd1 & Hd2 & Hd3). split_and!; [done| |].
    + apply NoDup_app. split_and!; [done| |apply NoDup_singleton].
      intros x Hx ->%list_elem_of_singleton. done.
    + intros i Hi [Hi'| ->%list_elem_of_singleton]%elem_of_app; [by apply (Hd3 i)|done].
  - exists nA, (nR ++ [dp_index dep]), (ds ++ (record_of dep <$> decs)).
    rewrite H2, H3, H5, length_app, <-!app_assoc. split_and!; try done; [simpl; lia|].
    intros i Hi. apply Hnew. rewrite elem_of_app, list_elem_of_singleton in Hi.
    destruct Hi as [Hi|[[Hi|Hi]|Hi]]; [left; auto|left; auto|by right|left; auto].
  - exists nA, nR, (ds ++ (record_of dep <$> decs)). rewrite H3, <-app_assoc.
    split_and!; try done. intros i Hi. apply Hnew.
    rewrite JSet.elem_of_add in Hi. destruct Hi as [Hi|[Hi|[Hi|Hi]]]; [left; auto..|by right|left; auto].
Qed.

Section tick_properties.
Context (poseidon : list Z → Z) (sha256 : list byte → list byte).
Context {E : Type} `{!ChainAdapter E}.
Implicit Types w : World (E := E).

Lemma screen_deposits_ok policy deps st seen s w s' w' :
  screened st seen s → screen_deposits policy deps s w = (Ok s', w') → screened st (seen ++ deps) s'.
Proof.
  revert seen s w. induction deps as [|dep deps IH]; intros seen s w Hs Hr; cbn [screen_deposits] in Hr.
  { injection Hr as <- <-. by rewrite app_nil_r. }
  rewrite cons_middle, app_assoc.
  destruct (JSet.has (dp_index dep) (sc_approved s) || JSet.has (dp_index dep) (sc_rejected s)) eqn:Hh.
  { eapply IH; [|exact Hr]. by apply screened_skip. }
  apply orb_false_iff in Hh as [Ha%bool_decide_eq_false Hb%bool_decide_eq_false].
  apply M_bind_ok in Hr as (now & w1 & _ & Hr). apply M_bind_ok in Hr as ([v ds] & w2 & _ & Hr).
  eapply IH; [|exact Hr]. by apply screened_step.
Qed.

(** The store is touched only by the load and the save. *)
Section frame.
Context (d : FileStore.t).
Abbreviation I := (λ w, aw_store w = d).
Lemma keeps_env {A} (m : M E A) : keeps I (env m).
Proof. intros w Hw. unfold env. by destruct (m (aw_env w)) as [[] e]. Qed.
Lemma keeps_on_data {A} (m : M DataDir A) : keeps I (on_data m).
Proof. intros w Hw. unfold on_data. by destruct (m (aw_data w)) as [[] e]. Qed.
Lemma keeps_set_guard g : keeps I (set_guard g).
Proof. apply keeps_modify. by intros w. Qed.
Lemma keeps_set_monitor m : keeps I (set_monitor m).
Proof. apply keeps_modify. by intros w. Qed.
Hint Resolve keeps_env keeps_on_data keeps_set_guard keeps_set_monitor : keeps.

Lemma keeps_confirmed deps n : keeps I (confirmedDeposits deps n).
Proof. unfold confirmedDeposits. keeps_auto. Qed.
Lemma keeps_screen policy deps s : keeps I (screen_deposits policy deps s).
Proof.
  revert s. induction deps as [|dep deps IH]; intros s; cbn [screen_deposits]; [apply keeps_ret|].
  destruct (_ || _); [apply IH|]. keeps_auto; apply IH.
Qed.
Hint Resolve keeps_confirmed keeps_screen : keeps.
Lemma keeps_read_and_screen cfg st : keeps I (read_and_screen cfg st).
Proof. unfold read_and_screen. keeps_auto. Qed.
Lemma keeps_run_guard deps l : keeps I (run_guard deps l).
Proof.
  unfold run_guard. apply keeps_bind; [apply keeps_gets|]. intros [g|]; [|apply keeps_ret].
  destruct deps as [|x xs]; [apply keeps_ret|]. apply keeps_bind; [apply keeps_gets|]. intros now.
  destruct (validate now l g) as [[] g']; keeps_auto.
Qed.
Lemma keeps_publish_set cfg set l : keeps I (publish_set poseidon sha256 cfg set l).
Proof. unfold publish_set. keeps_auto. Qed.
Lemma keeps_staleness : keeps I check_staleness.
Proof.
  unfold check_staleness. apply keeps_bind; [apply keeps_gets|]. intros [m|]; [|apply keeps_ret].
  apply keeps_bind; [apply keeps_gets|]. intros now. destruct (monitor_check now m); keeps_auto.
Qed.
Lemma keeps_publish_state cfg st : keeps I (publish_state poseidon sha256 cfg st).
Proof. unfold publish_state. keeps_auto. Qed.
End frame.

Lemma frame_store {A} (m : M World A) w r w' :
  (∀ d, keeps (λ w, aw_store w = d) m) → m w = (r, w') → aw_store w' = aw_store w.
Proof. intros Hk Hm. specialize (Hk (aw_store w) w eq_refl). rewrite Hm in Hk. by destruct r. Qed.

(** Reading and screening changes nothing but the environment. *)
Definition rest w := (aw_store w, aw_guard w, aw_monitor w, aw_data w, aw_now w).

Lemma keeps_rest_env {A} x (m : M E A) : keeps (λ w, rest w = x) (env m).
Proof. intros w Hw. unfold env. by destruct (m (aw_env w)) as [[] e]. Qed.

Lemma rest_screen policy deps s x : keeps (λ w, rest w = x) (screen_deposits policy deps s).
Proof.
  revert s. induction deps as [|dep deps IH]; intros s; cbn [screen_deposits]; [apply keeps_ret|].
  destruct (_ || _); [apply IH|]. keeps_auto; eauto using keeps_rest_env.
Qed.

Lemma rest_read_and_screen cfg st w r w' :
  read_and_screen cfg st w = (r, w') → rest w' = rest w.
Proof.
  intros Hm. assert (Hk : keeps (λ w1, rest w1 = rest w) (read_and_screen cfg st)).
  { unfold read_and_screen, confirmedDeposits. keeps_auto; eauto using keeps_rest_env, rest_screen. }
  specialize (Hk w eq_refl). rewrite Hm in Hk. by destruct r.
Qed.

Lemma read_and_screen_ok cfg st w deps s w' :
  read_and_screen cfg st w = (Ok (deps, s), w') →
  screened st deps s ∧
  ∃ read e', readDeposits (if (length (default [] (po_deferredIndices st)) =? 0)%nat
                           then po_lastIndex st else -1) (po_lastLedger st) (aw_env w) = (Ok read, e') ∧
    (∀ dep, dep ∈ deps → dep ∈ read) ∧
    (default 0 (tk_confirmations cfg) <= 1 → deps = read).
Proof.
  intros Hr. unfold read_and_screen in Hr. apply M_bind_ok in Hr as (read & w1 & Hread & Hr).
  apply M_bind_ok in Hr as (ds & w2 & Hds & Hr). apply M_bind_ok in Hr as (s1 & w3 & Hs & Hr).
  injection Hr as -> -> <-. split.
  { exact (screen_deposits_ok _ _ st [] (start_screening st) w2 s w3 (screened_start st) Hs). }
  unfold env in Hread. destruct (readDeposits _ _ (aw_env w)) as [r0 e'] eqn:Hrd.
  injection Hread as -> <-. exists read, e'. split; [done|].
  unfold confirmedDeposits in Hds.
  destruct ((default 0 (tk_confirmations cfg) <=? 1) || (length read =? 0)%nat) eqn:Hc.
  { injection Hds as -> <-. done. }
  apply orb_false_iff in Hc as [Hc%Z.leb_gt _].
  apply M_bind_ok in Hds as (latest & w4 & _ & Hds). injection Hds as <- <-. split; [|lia].
  intros dep Hin%list_elem_of_In. apply filter_In in Hin as [Hin _]. by apply list_elem_of_In.
Qed.

(** The fields a screening pass decides. *)
Record agrees (st st' : PoolState) : Prop := {
  ag_poolId : po_poolId st' = po_poolId st;
  ag_approved : po_approvedIndices st' = po_approvedIndices st;
  ag_rejected : po_rejectedIndices st' = po_rejectedIndices st;
  ag_deferred : po_deferredIndices st' = po_deferredIndices st;
  ag_lastIndex : po_lastIndex st' = po_lastIndex st;
  ag_lastLedger : po_lastLedger st' = po_lastLedger st;
  ag_decisions : po_decisions st' = po_decisions st;
}.

Lemma publish_state_agrees cfg st w sr st' w' :
  publish_state poseidon sha256 cfg st w = (Ok (sr, st'), w') → agrees st st'.
Proof.
  unfold publish_state. destruct (tk_stateTree cfg); simpl.
  2: { intros Hr. injection Hr as _ <- _. by split. }
  intros Hr. apply M_bind_ok in Hr as (snap & w1 & _ & Hr).
  destruct (_ || _) in Hr; [|injection Hr as _ <- _; by split].
  apply M_bind_ok in Hr as (tree & w2 & _ & Hr). apply M_bind_ok in Hr as (oc & w3 & _ & Hr).
  destruct (bool_decide _) in Hr; [injection Hr as _ <- _; by split|].
  apply M_bind_ok in Hr as (texts & w4 & _ & Hr). apply M_bind_ok in Hr as (h & w5 & _ & Hr).
  apply M_bind_ok in Hr as (u & w6 & _ & Hr). injection Hr as _ <- _. by split.
Qed.

(** *** The runs of a tick *)
Abbreviation pool_file cfg w := (JMap.get (tk_poolId cfg) (aw_store w)).

Definition loaded_state (cfg : TickConfig E) w : PoolState :=
  match pool_file cfg w with
  | Some (FileStore.Saved st) => st
  | _ => initState (tk_poolId cfg) (tk_scope cfg)
  end.

(** A run that got past reading, screening and rebuilding. *)
Record tick_body (cfg : TickConfig E) w (r : res TickResult) w'
    (deps : list Deposit) (s : Screening) (set : AssociationSet) (w1 w2 : World) (halted : option Z)
    (st' : PoolState) : Prop := {
  tb_screen : read_and_screen cfg (loaded_state cfg w) w = (Ok (deps, s), w1);
  tb_set : rebuild poseidon (tk_scope cfg) (sc_approvedIndices s) = Ok set;
  tb_guard : run_guard deps (sc_lastLedger s) w1 = (Ok halted, w2);
  tb_agrees : agrees (end_screening (loaded_state cfg w) s) st';
  tb_store : aw_store w' = JMap.set (po_poolId (loaded_state cfg w)) (FileStore.Saved st') (aw_store w);
  tb_result : match halted with
    | Some _ => ∀ res, r = Ok res → tr_haltedForReorg res = true ∧ tr_published res = false
    | None => ∃ pub w3 alert w4 sr w5 res,
        publish_set poseidon sha256 cfg set (sc_lastLedger s) w2 = (Ok pub, w3) ∧
        check_staleness w3 = (Ok alert, w4) ∧
        publish_state poseidon sha256 cfg (end_screening (loaded_state cfg w) s) w4 = (Ok (sr, st'), w5) ∧
        aw_env w' = aw_env w5 ∧ r = Ok res ∧
        tr_onChainRoot res = pub.1 ∧ tr_published res = pub.2 ∧ tr_haltedForReorg res = false ∧
        tr_localRoot res = set_rootHex poseidon set
    end;
  tb_counts : ∀ res, r = Ok res →
    tr_approvedCount res = Z.of_nat (length (sc_approvedIndices s)) ∧
    tr_newlyApproved res = sc_newlyApproved s ∧ tr_newlyRejected res = sc_newlyRejected s;
}.

Lemma stop_tick_run cfg st s set w r w' :
  stop_tick poseidon cfg st s set w = (r, w') →
  aw_store w' = JMap.set (po_poolId st) (FileStore.Saved st) (aw_store w) ∧
  ∀ res, r = Ok res → ∃ oc, res = tick_result poseidon cfg st s set oc false None true None.
Proof.
  intros Hr. unfold stop_tick in Hr. apply M_bind_case in Hr as [(e & Hsv & ->)|(u & w3 & Hsv & Hr)]; [done|].
  injection Hsv as <- <-.
  apply M_bind_case in Hr as [(e & He & ->)|(oc & w4 & He & Hr)].
  - by rewrite (frame_store _ _ _ _ (λ d, keeps_env d _) He).
  - injection Hr as <- <-. rewrite (frame_store _ _ _ _ (λ d, keeps_env d _) He). split; [done|].
    intros res [= <-]. eauto.
Qed.

Lemma finish_tick_run cfg st s set w r w' :
  finish_tick poseidon sha256 cfg st s set w = (r, w') →
  (∃ e, r = Err e ∧ aw_store w' = aw_store w) ∨
  ∃ pub w3 alert w4 sr st' w5,
    publish_set poseidon sha256 cfg set (po_lastLedger st) w = (Ok pub, w3) ∧
    check_staleness w3 = (Ok alert, w4) ∧
    publish_state poseidon sha256 cfg st w4 = (Ok (sr, st'), w5) ∧
    aw_env w' = aw_env w5 ∧
    aw_store w' = JMap.set (po_poolId st') (FileStore.Saved st') (aw_store w) ∧
    r = Ok (tick_result poseidon cfg st s set pub.1 pub.2 (Some sr) false alert).
Proof.
  intros Hr. unfold finish_tick in Hr.
  apply M_bind_case in Hr as [(e & Hp & ->)|(pub & w3 & Hp & Hr)];
    pose proof (frame_store _ _ _ _ (λ d, keeps_publish_set d _ _ _) Hp) as Hst3; [left; eauto|].
  apply M_bind_case in Hr as [(e & Ha & ->)|(alert & w4 & Ha & Hr)];
    pose proof (frame_store _ _ _ _ (λ d, keeps_staleness d) Ha) as Hst4.
  { left. exists e. split; [done|congruence]. }
  apply M_bind_case in Hr as [(e & Hq & ->)|([sr st'] & w5 & Hq & Hr)];
    pose proof (frame_store _ _ _ _ (λ d, keeps_publish_state d _ _) Hq) as Hst5.
  { left. exists e. split; [done|congruence]. }
  right. apply M_bind_case in Hr as [(e & Hsv & ->)|(u & w6 & Hsv & Hr)]; [done|].
  injection Hsv as <- <-. injection Hr as <- <-.
  exists pub, w3, alert, w4, sr, st', w5. split_and!; try done. simpl. congruence.
Qed.

(** Loading the pool does not change the world unless the file is bad. *)
Lemma load_run cfg w r w0 :
  on_store (FileStore.load (tk_poolId cfg)) w = (r, w0) →
  match r with
  | Err _ => pool_file cfg w = Some FileStore.BadText ∧ aw_store w0 = JMap.del (tk_poolId cfg) (aw_store w)
  | Ok loaded => w0 = w ∧
      default (initState (tk_poolId cfg) (tk_scope cfg)) loaded = loaded_state cfg w
  end.
Proof.
  unfold on_store, FileStore.load, loaded_state. destruct w. simpl.
  destruct (JMap.get _ _) as [[st|]|]; by intros [= <- <-].
Qed.

Lemma pool_tick_cases cfg w r w' :
  runPoolTick poseidon sha256 cfg w = (r, w') →
  (∃ e, r = Err e ∧ pool_file cfg w = Some FileStore.BadText ∧
        aw_store w' = JMap.del (tk_poolId cfg) (aw_store w)) ∨
  (∃ e, r = Err e ∧ aw_store w' = aw_store w) ∨
  (∃ deps s set w1 w2 halted st', tick_body cfg w r w' deps s set w1 w2 halted st').
Proof.
  intros Hr. unfold runPoolTick in Hr.
  apply M_bind_case in Hr as [(e & Hl & ->)|(loaded & w0 & Hl & Hr)]; apply load_run in Hl.
  { left. exists e. tauto. }
  destruct Hl as [-> Hst]. cbn zeta in Hr. rewrite Hst in Hr. clear Hst. right.
  apply M_bind_case in Hr as [(e & Hs & ->)|([deps s] & w1 & Hs & Hr)];
    pose proof (rest_read_and_screen _ _ _ _ _ Hs) as Hrest; injection Hrest as Hst1 _ _ _ _.
  { left. eauto. }
  apply M_bind_case in Hr as [(e & Hb & ->)|(set & w1' & Hb & Hr)]; injection Hb as Hb <-.
  { left. eauto. }
  apply M_bind_case in Hr as [(e & Hg & ->)|(halted & w2 & Hg & Hr)];
    pose proof (frame_store _ _ _ _ (λ d, keeps_run_guard d _ _) Hg) as Hst2.
  { left. exists e. split; [done|congruence]. }
  destruct halted as [to|].
  - right. apply stop_tick_run in Hr as [Hst Hres].
    exists deps, s, set, w1, w2, (Some to), (end_screening (loaded_state cfg w) s).
    split; try done; [simpl in Hst; congruence|..]; intros res Hr; by destruct (Hres res Hr) as [oc ->].
  - apply finish_tick_run in Hr as [(e & -> & Hst)|(pub & w3 & alert & w4 & sr & st' & w5 & Hp & Ha & Hq & He & Hst & ->)].
    { left. exists e. split; [done|congruence]. }
    right. exists deps, s, set, w1, w2, None, st'. pose proof (publish_state_agrees _ _ _ _ _ _ Hq) as Hag.
    split; try done.
    + rewrite Hst, (ag_poolId _ _ Hag). simpl. congruence.
    + exists pub, w3, alert, w4, sr, w5. eexists. split_and!; done.
    + by intros res [= <-].
Qed.

(** *** Verdicts *)
Definition stored (d : FileStore.t) (pool : string) : option PoolState :=
  match JMap.get pool d with Some (FileStore.Saved st) => Some st | _ => None end.

Record store_ok (d : FileStore.t) : Prop := {
  st_wf : JMap.wf d;
  st_own : ∀ k st, (k, FileStore.Saved st) ∈ d → po_poolId st = k ∧ pool_ok st;
}.

Lemma init_ok poolId scope : pool_ok (initState poolId scope).
Proof. split; simpl; [constructor|constructor|]. by intros i Hi%elem_of_nil. Qed.

Lemma loaded_ok cfg w :
  store_ok (aw_store w) → po_poolId (loaded_state cfg w) = tk_poolId cfg ∧ pool_ok (loaded_state cfg w).
Proof.
  intros Hd. unfold loaded_state. destruct (pool_file cfg w) as [[st|]|] eqn:Hg; try (split; [done|apply init_ok]).
  apply JMap.get_Some_elem in Hg. by apply (st_own _ Hd).
Qed.

Lemma end_screening_ok st deps s st' :
  pool_ok st → screened st deps s → agrees (end_screening st s) st' → pool_ok st'.
Proof.
  intros Hok Hs Hag. destruct (sd_ok _ _ _ Hs Hok) as (Ha & Hr & Hd). split.
  - by rewrite (ag_approved _ _ Hag).
  - rewrite (ag_rejected _ _ Hag). simpl. by rewrite sort_by_perm.
  - intros i. rewrite (ag_rejected _ _ Hag), (ag_approved _ _ Hag). simpl. rewrite sort_by_perm. apply Hd.
Qed.

(** What one tick may do to the verdicts of a pool. *)
Record extends (st st' : PoolState) : Prop := {
  ex_approved : po_approvedIndices st `prefix_of` po_approvedIndices st';
  ex_rejected : ∀ i, i ∈ default [] (po_rejectedIndices st) → i ∈ default [] (po_rejectedIndices st');
  ex_decisions : default [] (po_decisions st) `prefix_of` default [] (po_decisions st');
  ex_ledger : po_lastLedger st <= po_lastLedger st';
}.

Lemma extends_refl st : extends st st.
Proof. split; [done|done|done|lia]. Qed.

Lemma end_screening_extends st deps s st' :
  screened st deps s → agrees (end_screening st s) st' → extends st st'.
Proof.
  intros Hs [_ Ha Hr _ _ Hl Hd].
  destruct (sd_new _ _ _ Hs) as (nA & nR & ds & H1 & H2 & H3 & _). split.
  - rewrite Ha. simpl. rewrite H1. by apply prefix_app_r.
  - intros i Hi. rewrite Hr. simpl. rewrite sort_by_perm, H2, elem_of_app. by left.
  - rewrite Hd. simpl. rewrite H3. by apply prefix_app_r.
  - rewrite Hl. simpl. apply (sd_lastLedger _ _ _ Hs).
Qed.

Lemma tick_body_stored cfg w r w' deps s set w1 w2 halted st' :
  tick_body cfg w r w' deps s set w1 w2 halted st' →
  stored (aw_store w') (po_poolId (loaded_state cfg w)) = Some st'.
Proof. intros Hb. unfold stored. by rewrite (tb_store _ _ _ _ _ _ _ _ _ _ _ Hb), JMap.get_set_eq. Qed.
End tick_properties.

(** C8 (invariant): screening decisions are final.  Whatever the chain and the
    policies do, and whether the tick succeeds or fails, every stored pool keeps
    its approved indices as a prefix, its rejected indices and its audit trail; no
    index is approved twice, or both approved and rejected; other pools do not
    change. *)
Theorem verdicts_are_final poseidon sha256 `{!ChainAdapter E} (cfg : TickConfig E) w r w' :
  store_ok (aw_store w) → runPoolTick poseidon sha256 cfg w = (r, w') →
  store_ok (aw_store w') ∧
  (∀ pool st, stored (aw_store w) pool = Some st →
     ∃ st', stored (aw_store w') pool = Some st' ∧ extends st st' ∧
            (pool ≠ tk_poolId cfg → st' = st)) ∧
  (∀ res, r = Ok res → ∃ st', stored (aw_store w') (tk_poolId cfg) = Some st' ∧
     tr_approvedCount res = Z.of_nat (length (po_approvedIndices st')) ∧
     tr_newlyApproved res
     = Z.of_nat (length (po_approvedIndices st') - length (po_approvedIndices (loaded_state cfg w)))).
Proof.
  intros Hd Hr. destruct (pool_tick_cases _ _ _ _ _ _ Hr)
    as [(e & -> & Hbad & Hst)|[(e & -> & Hst)|(deps & s & set & w1 & w2 & h & st' & Hb)]].
  - rewrite Hst. split_and!; [| |done].
    + destruct Hd as [Hw Ho]. split; [by apply JMap.wf_del|].
      intros k st [Hin _]%JMap.elem_of_del. auto.
    + intros pool st Hs. exists st. split_and!; [|apply extends_refl|done].
      unfold stored in *. destruct (decide (pool = tk_poolId cfg)) as [->|Hne]; [by rewrite Hbad in Hs|].
      by rewrite JMap.get_del_ne.
  - rewrite Hst. split_and!; [done| |done]. intros pool st Hs. exists st. by split; [|split; [apply extends_refl|]].
  - destruct (loaded_ok cfg w Hd) as [Hid Hok].
    destruct (read_and_screen_ok _ _ _ _ _ _ (tb_screen _ _ _ _ _ _ _ _ _ _ _ _ _ Hb)) as [Hscr _].
    pose proof (tb_agrees _ _ _ _ _ _ _ _ _ _ _ _ _ Hb) as Hag.
    pose proof (tick_body_stored _ _ _ _ _ _ _ _ _ _ _ _ _ Hb) as Hsto. rewrite Hid in Hsto.
    pose proof (tb_store _ _ _ _ _ _ _ _ _ _ _ _ _ Hb) as Hst. rewrite Hid in Hst. split_and!.
    + rewrite Hst. destruct Hd as [Hw Ho]. split; [by apply JMap.wf_set|].
      intros k st [[= -> ->]|Hin]%JMap.elem_of_set; [|auto].
      split; [rewrite (ag_poolId _ _ Hag); exact Hid|by eapply end_screening_ok].
    + intros pool st Hs. destruct (decide (pool = tk_poolId cfg)) as [->|Hne].
      * exists st'. split_and!; [done| |done].
        replace st with (loaded_state cfg w); [by eapply end_screening_extends|].
        unfold loaded_state, stored in *. destruct (JMap.get _ _) as [[]|]; congruence.
      * exists st. split_and!; [|apply extends_refl|done]. unfold stored in *.
        by rewrite Hst, JMap.get_set_ne.
    + intros res Hres. exists st'. split; [done|].
      destruct (tb_counts _ _ _ _ _ _ _ _ _ _ _ _ _ Hb res Hres) as (Hc1 & Hc2 & _).
      rewrite (ag_approved _ _ Hag), Hc1, Hc2. simpl. split; [done|].
      destruct (sd_new _ _ _ Hscr) as (nA & nR & ds & H1 & _ & _ & H4 & _).
      rewrite H4, H1, length_app. f_equal. lia.
Qed.

(** ** Failures *)
(** A tick that fails (its state file being readable and no reorg
    guard configured) leaves the stored state as it was, so the next tick starts
    from the same decisions. *)
Theorem failed_tick_changes_nothing poseidon sha256 `{!ChainAdapter E} (cfg : TickConfig E) w e w' :
  JMap.get (tk_poolId cfg) (aw_store w) ≠ Some FileStore.BadText → aw_guard w = None →
  runPoolTick poseidon sha256 cfg w = (Err e, w') → aw_store w' = aw_store w.
Proof.
  intros Hbad Hg Hr. destruct (pool_tick_cases _ _ _ _ _ _ Hr)
    as [(e' & _ & Hb & _)|[(e' & _ & Hst)|(deps & s & set & w1 & w2 & h & st' & Hb)]]; [done|done|].
  destruct h as [to|].
  - pose proof (tb_guard _ _ _ _ _ _ _ _ _ _ _ _ _ Hb) as Hrun.
    pose proof (rest_read_and_screen _ _ _ _ _ (tb_screen _ _ _ _ _ _ _ _ _ _ _ _ _ Hb)) as Hrest.
    unfold run_guard in Hrun. apply M_bind_ok in Hrun as (g & w3 & Hgets & Hrun).
    injection Hgets as <- <-. injection Hrest as _ Hg1 _ _ _. rewrite Hg1, Hg in Hrun. done.
  - destruct (tb_result _ _ _ _ _ _ _ _ _ _ _ _ _ Hb) as (? & ? & ? & ? & ? & ? & res & _ & _ & _ & _ & Hres & _).
    done.
Qed.

(** ** Publication *)
Lemma publish_set_ok poseidon sha256 `{!ChainAdapter E} (cfg : TickConfig E) set l w oc pub w' :
  publish_set poseidon sha256 cfg set l w = (Ok (oc, pub), w') →
  ∃ e1, currentAspRoot (aw_env w) = (Ok oc, e1) ∧
  pub = (0 <? set_size set) && negb (bool_decide (Some (set_rootHex poseidon set) = oc)) ∧
  if pub
  then ∃ hash, computeDatasetHash sha256 (set_rootHex poseidon set) (bigint_toString 10 <$> as_labels set) = Ok hash ∧
       postAspRoot (set_rootHex poseidon set) hash e1 = (Ok tt, aw_env w')
  else aw_env w' = e1.
Proof.
  intros Hr. unfold publish_set in Hr. apply M_bind_ok in Hr as (oc1 & w1 & Hoc & Hr).
  unfold env in Hoc. destruct (currentAspRoot (aw_env w)) as [r0 e1] eqn:He. injection Hoc as -> <-.
  exists e1. destruct ((0 <? set_size set) && negb (bool_decide (Some (set_rootHex poseidon set) = oc1))) eqn:Hc.
  2: { injection Hr as <- <- <-. by rewrite Hc. }
  apply M_bind_ok in Hr as (now & w2 & Hn & Hr). injection Hn as <- <-.
  apply M_bind_ok in Hr as (u & w3 & Hd & Hr).
  assert (Hw3 : aw_env w3 = e1).
  { destruct (tk_dataDir cfg); [|by injection Hd as _ <-].
    apply M_bind_ok in Hd as (u' & w4 & Hd & Hd'). injection Hd' as _ <-.
    unfold on_data in Hd. destruct (writeManifest _ _ _ _ _ _) as [[] ?]; by injection Hd as _ <-. }
  apply M_bind_ok in Hr as (hash & w4 & Hh & Hr). injection Hh as Hh <-.
  apply M_bind_ok in Hr as (u2 & w5 & Hp & Hr). unfold env in Hp.
  destruct (postAspRoot _ hash (aw_env w3)) as [r5 e5] eqn:Hpost. injection Hp as -> <-.
  apply M_bind_ok in Hr as (mon & w6 & Hm & Hr). injection Hm as <- <-.
  apply M_bind_ok in Hr as (u3 & w7 & Hs & Hr). injection Hr as <- <- <-.
  split; [done|]. split; [by rewrite Hc|]. exists hash. split; [done|]. rewrite <-Hw3, Hpost. destruct u2. f_equal.
  simpl in Hs. destruct (aw_monitor w3); by injection Hs as _ <-.
Qed.

(** A tick that is not stopped by the guard compares the root of
    the set rebuilt from the approved indices it stores with the chain's root, and
    posts exactly when the set is not empty and the two differ; what it posts is
    that root with the hash of the set's labels. *)
Theorem tick_posts_iff_asp_root_differs poseidon sha256 `{!ChainAdapter E} (cfg : TickConfig E) w res w' :
  runPoolTick poseidon sha256 cfg w = (Ok res, w') → tr_haltedForReorg res = false →
  ∃ st' set e0 e1,
    stored (aw_store w') (po_poolId (loaded_state cfg w)) = Some st' ∧
    rebuild poseidon (tk_scope cfg) (po_approvedIndices st') = Ok set ∧
    tr_localRoot res = set_rootHex poseidon set ∧
    currentAspRoot e0 = (Ok (tr_onChainRoot res), e1) ∧
    (tr_published res = true ↔
       po_approvedIndices st' ≠ [] ∧ Some (tr_localRoot res) ≠ tr_onChainRoot res) ∧
    (tr_published res = true → ∃ hash e2,
       computeDatasetHash sha256 (tr_localRoot res) (bigint_toString 10 <$> as_labels set) = Ok hash ∧
       postAspRoot (tr_localRoot res) hash e1 = (Ok tt, e2)).
Proof.
  intros Hr Hh. destruct (pool_tick_cases _ _ _ _ _ _ Hr)
    as [(e & ? & _)|[(e & ? & _)|(deps & s & set & w1 & w2 & h & st' & Hb)]]; [done|done|].
  pose proof (tb_result _ _ _ _ _ _ _ _ _ _ _ _ _ Hb) as Hres.
  destruct h as [to|]; [destruct (Hres res eq_refl); congruence|].
  destruct Hres as ([oc pub] & w3 & alert & w4 & sr & w5 & res' & Hp & _ & _ & _ & [= <-] & Hoc & Hpub & _ & Hlr).
  apply publish_set_ok in Hp as (e1 & He1 & Hpubv & Hpost). simpl in Hoc, Hpub. rewrite <-Hoc in Hpubv, He1. rewrite <-Hpub in Hpubv, Hpost.
  pose proof (tb_set _ _ _ _ _ _ _ _ _ _ _ _ _ Hb) as Hset.
  pose proof (tb_agrees _ _ _ _ _ _ _ _ _ _ _ _ _ Hb) as Hag.
  assert (Hap : po_approvedIndices st' = sc_approvedIndices s) by apply (ag_approved _ _ Hag).
  exists st', set, (aw_env w2), e1. rewrite Hlr, Hap. split_and!; try done.
  - by eapply tick_body_stored.
  - rewrite Hpubv, andb_true_iff, negb_true_iff, bool_decide_eq_false, Z.ltb_lt.
    apply rebuild_ok in Hset as (Hok & _ & Hi & _). unfold set_size.
    rewrite (so_labels _ _ Hok), length_fmap, Hi. destruct (sc_approvedIndices s); simpl.
    + split; [lia|]. by intros [].
    + split; (intros [? ?]; split; [|done]); [done|lia].
  - intros Ht. rewrite Ht in Hpost. destruct Hpost as (hash & Hh1 & Hp1). eauto.
Qed.

(** ** Deferred deposits *)
(** Deferral is not "re-evaluated next tick".  When a later deposit
    moved the ledger cursor past a deferred deposit, the next tick reads from that
    cursor, does not see the deposit, and drops it from the deferred list
    unscreened; the cursor never moves back, so this holds for every tick after. *)
Theorem deferred_deposit_is_lost poseidon sha256 `{!ChainAdapter E} (cfg : TickConfig E) w res w' i ledger :
  (* the adapter reads from the ledger it is given, and deposit [i] is in [ledger] *)
  (∀ after from e ds e', readDeposits after from e = (Ok ds, e') → ∀ d, d ∈ ds →
     from <= dp_ledger d ∧ (dp_index d = i → dp_ledger d = ledger)) →
  let st := loaded_state cfg w in
  ledger < po_lastLedger st → i ∉ po_approvedIndices st → i ∉ default [] (po_rejectedIndices st) →
  runPoolTick poseidon sha256 cfg w = (Ok res, w') →
  ∃ st', stored (aw_store w') (po_poolId st) = Some st' ∧
    i ∉ po_approvedIndices st' ∧ i ∉ default [] (po_rejectedIndices st') ∧
    i ∉ default [] (po_deferredIndices st') ∧ ledger < po_lastLedger st'.
Proof.
  intros Hread. cbn zeta. intros Hl Hna Hnr Hr. destruct (pool_tick_cases _ _ _ _ _ _ Hr)
    as [(e & ? & _)|[(e & ? & _)|(deps & s & set & w1 & w2 & h & st' & Hb)]]; [done|done|].
  exists st'. split; [by eapply tick_body_stored|].
  destruct (read_and_screen_ok _ _ _ _ _ _ (tb_screen _ _ _ _ _ _ _ _ _ _ _ _ _ Hb))
    as (Hscr & ds & e' & Hrd & Hsub & _).
  assert (Hnot : i ∉ dp_index <$> deps).
  { intros (d & -> & Hd)%list_elem_of_fmap. apply Hsub in Hd.
    destruct (Hread _ _ _ _ _ Hrd d Hd) as [Hge Heq]. specialize (Heq eq_refl). lia. }
  destruct (sd_new _ _ _ Hscr) as (nA & nR & dcs & H1 & H2 & _ & _ & _ & H6).
  destruct (tb_agrees _ _ _ _ _ _ _ _ _ _ _ _ _ Hb) as [_ Ha Hrj Hdf _ Hll _]. split_and!.
  - rewrite Ha. simpl. rewrite H1, elem_of_app. intros [?|?]; [done|]. apply Hnot, H6. by left.
  - rewrite Hrj. simpl. rewrite sort_by_perm, H2, elem_of_app. intros [?|?]; [done|].
    apply Hnot, H6. right. by left.
  - rewrite Hdf. simpl. rewrite sort_by_perm. intros ?. apply Hnot, H6. right. by right.
  - rewrite Hll. simpl. pose proof (sd_lastLedger _ _ _ Hscr). lia.
Qed.

(** ** The reorg guard *)
(** The guard stops ticks on a chain that never rolled back.  Once it
    committed ledger [L], any further deposit of that same ledger (or a deferred
    deposit read again) makes the next tick report a continuity break and skip
    publication. *)
Theorem same_ledger_deposit_halts poseidon sha256 `{!ChainAdapter E} (cfg : TickConfig E) w res w' g L ds e' :
  let st := loaded_state cfg w in
  aw_guard w = Some g → rg_expectedNextLedger g = L + 1 → 0 <= L → po_lastLedger st = L →
  default 0 (tk_confirmations cfg) <= 1 →
  readDeposits (if (length (default [] (po_deferredIndices st)) =? 0)%nat then po_lastIndex st else -1)
    L (aw_env w) = (Ok ds, e') →
  ds ≠ [] → (∀ d, d ∈ ds → dp_ledger d <= L) →
  runPoolTick poseidon sha256 cfg w = (Ok res, w') →
  tr_haltedForReorg res = true ∧ tr_published res = false.
Proof.
  cbn zeta. intros Hg Hexp HL Hst Hconf Hrd Hne Hall Hr. destruct (pool_tick_cases _ _ _ _ _ _ Hr)
    as [(e & ? & _)|[(e & ? & _)|(deps & s & set & w1 & w2 & h & st' & Hb)]]; [done|done|].
  pose proof (tb_result _ _ _ _ _ _ _ _ _ _ _ _ _ Hb) as Hres.
  destruct h as [to|]; [by apply Hres|]. exfalso. clear Hres.
  pose proof (tb_screen _ _ _ _ _ _ _ _ _ _ _ _ _ Hb) as Hscreen.
  pose proof (rest_read_and_screen _ _ _ _ _ Hscreen) as Hrest.
  destruct (read_and_screen_ok _ _ _ _ _ _ Hscreen) as (Hscr & ds' & e1 & Hrd' & _ & Heq).
  rewrite Hst, Hrd in Hrd'. injection Hrd' as <- <-. specialize (Heq Hconf). subst deps.
  assert (Hsl : sc_lastLedger s = L).
  { pose proof (sd_lastLedger _ _ _ Hscr). pose proof (sd_ledgerBound _ _ _ Hscr L) as Hub.
    specialize (Hub ltac:(lia) Hall). lia. }
  pose proof (tb_guard _ _ _ _ _ _ _ _ _ _ _ _ _ Hb) as Hrun. unfold run_guard in Hrun.
  apply M_bind_ok in Hrun as (g' & w3 & Hgets & Hrun). injection Hgets as <- <-.
  injection Hrest as _ Hg1 _ _ _. rewrite Hg1, Hg in Hrun. destruct ds as [|d ds]; [done|].
  apply M_bind_ok in Hrun as (now & w3 & Hgets & Hrun). injection Hgets as <- <-.
  unfold validate in Hrun. rewrite Hexp, Hsl in Hrun.
  destruct (Z.eqb_spec (L + 1) 0); [lia|]. destruct (Z.leb_spec (L + 1) L); [lia|]. done.
Qed.

(** ** A concrete pool *)
Module ToyPool.
Definition env_t : Type := (list Deposit * option string)%type.
Definition poseidon (l : list Z) : Z := foldl (λ a x, (31 * a + x + 7) mod 1000003) 1 l.
Definition dep0 : Deposit := mkDeposit 0 "0x00" "5" 7 10.
Definition dep1 : Deposit := mkDeposit 1 "0x01" "5" 7 20.
(** Defers deposit 0, approves the others. *)
Definition policy : Policy env_t :=
  screeningPolicy "kyc" (λ d, mret (if dp_index d =? 0 then defer else approve)).
Definition cfg : TickConfig env_t := mkTickConfig "pool" 7 (OnePolicy policy) false None false.
(** A screening service that is down. *)
Definition broken : TickConfig env_t :=
  mkTickConfig "pool" 7 (OnePolicy (screeningPolicy "kyc" (λ _, throw (JsError "down")))) false None false.
End ToyPool.

#[export] Instance toy_asp_adapter : ChainAdapter ToyPool.env_t := {|
  readDeposits after from := gets (λ e, List.filter
    (λ d, (after <? dp_index d) && (from <=? dp_ledger d)
          && (if dp_index d =? 0 then dp_ledger d =? 10 else true)) e.1);
  currentAspRoot := gets snd;
  postAspRoot r _ := modify (λ e, (e.1, Some r));
  latestLedger := mret 100;
  readStateLeaves _ := mret (mkSnapshot [] 0 (-1) None None);
  currentStateRoot := mret None;
  postStateRoot _ _ := mret tt;
|}.

Section pool_examples.
Import ToyPool.
Local Notation tick := (runPoolTick poseidon (λ b, b) cfg).
Local Notation w0 g := (mkWorld ([dep0; dep1], None) [] g None [] 1000 : World (E := env_t)).
(** After the first tick: deposit 1 approved, deposit 0 deferred, cursor at 20. *)
Local Notation w1 g := (tick (w0 g)).2.

Lemma verdicts_are_final_witness : store_ok (aw_store (w1 None)).
Proof.
  destruct (tick (w0 None)) as [r w'] eqn:Et. simpl.
  refine (proj1 (verdicts_are_final poseidon (λ b, b) cfg (w0 None) r w' _ Et)).
  split; [apply JMap.wf_nil|]. intros k st Hin. by apply elem_of_nil in Hin.
Defined.

Lemma deferred_deposit_is_lost_witness :
  po_deferredIndices (loaded_state cfg (w1 None)) = Some [0] ∧
  match stored (aw_store (tick (w1 None)).2) "pool" with
  | Some st' => 0 ∉ po_approvedIndices st' ∧ 0 ∉ default [] (po_deferredIndices st')
  | None => False
  end.
Proof.
  split; [vm_compute; reflexivity|].
  destruct (tick (w1 None)) as [r w'] eqn:Et.
  destruct r as [res|e]; [|exfalso; apply (f_equal fst) in Et; vm_compute in Et; discriminate Et].
  destruct (deferred_deposit_is_lost poseidon (λ b, b) cfg (w1 None) res w' 0 10) as (st' & Hs & Ha & _ & Hd & _).
  - intros after from e ds e' [= <- <-] d Hd%list_elem_of_In. apply filter_In in Hd as [_ Hd].
    apply andb_prop in Hd as [[_ Hd]%andb_prop Hi]. apply Z.leb_le in Hd. split; [done|].
    intros Hi0. rewrite Hi0 in Hi. by apply Z.eqb_eq in Hi.
  - vm_compute. reflexivity.
  - vm_compute. intros Hin. inversion Hin as [|? ? ? Hin']; subst. by apply elem_of_nil in Hin'.
  - vm_compute. intros Hin. by apply elem_of_nil in Hin.
  - exact Et.
  - simpl. change (po_poolId (loaded_state cfg (w1 None))) with "pool" in Hs. rewrite Hs. by split.
Defined.

Lemma same_ledger_deposit_halts_witness :
  match (tick (w1 (Some (mkGuard 0 [])))).1 with
  | Ok res => tr_haltedForReorg res = true ∧ tr_published res = false
  | Err _ => False
  end.
Proof.
  destruct (tick (w1 (Some (mkGuard 0 [])))) as [r w'] eqn:Et.
  destruct r as [res|e]; [|exfalso; apply (f_equal fst) in Et; vm_compute in Et; discriminate Et].
  simpl. eapply (same_ledger_deposit_halts poseidon (λ b, b) cfg (w1 (Some (mkGuard 0 []))) res w'
    (mkGuard 21 []) 20 [dep1] _); try exact Et; try (vm_compute; reflexivity).
  - vm_compute. discriminate.
  - vm_compute. discriminate.
  - discriminate.
  - intros d Hd. apply list_elem_of_singleton in Hd as ->. vm_compute. discriminate.
Defined.

(** A new deposit arrives after the first tick. *)
Local Notation w2 :=
  (mkWorld ([mkDeposit 2 "0x02" "5" 7 30], None) (aw_store (w1 None)) None None [] 2000 : World (E := env_t)).

Lemma failed_tick_witness :
  aw_store (runPoolTick poseidon (λ b, b) broken w2).2 = aw_store w2.
Proof.
  destruct (runPoolTick poseidon (λ b, b) broken w2) as [r w'] eqn:Et.
  destruct r as [res|e]; [exfalso; apply (f_equal fst) in Et; vm_compute in Et; discriminate Et|].
  refine (failed_tick_changes_nothing poseidon (λ b, b) broken w2 e w' _ _ Et).
  - vm_compute. discriminate.
  - vm_compute. reflexivity.
Defined.

Lemma tick_posts_witness :
  match (tick (w0 None)).1 with
  | Ok res => tr_published res = true ∧ Some (tr_localRoot res) ≠ tr_onChainRoot res
  | Err _ => False
  end.
Proof.
  destruct (tick (w0 None)) as [r w'] eqn:Et.
  destruct r as [res|e]; [|exfalso; apply (f_equal fst) in Et; vm_compute in Et; discriminate Et].
  assert (Hh : tr_haltedForReorg res = false ∧ tr_published res = true).
  { apply (f_equal fst) in Et. vm_compute in Et. injection Et as <-. vm_compute. split; reflexivity. }
  destruct Hh as [Hh Hp].
  destruct (tick_posts_iff_asp_root_differs poseidon (λ b, b) cfg (w0 None) res w' Et Hh)
    as (st' & set & e0 & e1 & _ & _ & _ & _ & Hiff & _).
  exact (conj Hp (proj2 (proj1 Hiff Hp))).
Defined.
End pool_examples.
