(* ===== verification/SdkCodec.v ===== *)
(** * SDK: amounts, memos and stored notes

    [sdk/src/crypto/amount.ts] (module [Amount]), [sdk/src/crypto/memo.ts] with the
    mapping to a transaction memo of [sdk/src/rpc/client.ts] (module [TxMemo]), and
    [sdk/src/crypto/note-codec.ts] (module [NoteCodec]).  A JavaScript number of a
    note is kept as the value it has in JSON. *)
From Stdlib Require Import Ascii.
From stdpp Require Import base tactics list sets strings.
From Stdlib Require Import ZArith Lia.
From S2P Require Import Prelude JsString JsMap Bytes Json PubValidate HttpBase.
Open Scope string_scope.
Open Scope list_scope.
Open Scope Z_scope.

(** ** Amounts *)
Module Amount.
Definition MAX_DECIMALS : nat := 7.

(** [s.padEnd(n, "0")] *)
Fixpoint padEnd0 (n : nat) (s : string) : string :=
  match n, s with
  | O, _ => s
  | S n', EmptyString => String "0" (padEnd0 n' EmptyString)
  | S n', String c s' => String c (padEnd0 n' s')
  end.

(** [s.replace(/0+$/, "")] *)
Fixpoint strip_zeros (s : string) : string :=
  match s with
  | EmptyString => EmptyString
  | String c s' =>
      match strip_zeros s' with
      | EmptyString => if Ascii.eqb c "0"%char then EmptyString else String c EmptyString
      | r => String c r
      end
  end.

(** The first [n] characters. *)
Fixpoint take_string (n : nat) (s : string) : string :=
  match n, s with
  | S n', String c s' => String c (take_string n' s')
  | _, _ => EmptyString
  end.

Definition all_dec (s : string) : bool := all_chars is_dec s.

(** [/^-?\d+\.?\d*$/] on the text after the sign, given its parts between the dots. *)
Definition xlm_syntax (parts : list string) : bool :=
  match parts with
  | [i] => negb (String.eqb i "") && all_dec i
  | [i; d] => negb (String.eqb i "") && all_dec i && all_dec d
  | _ => false
  end.

Definition parseXlmToStroops (xlmString : string) : res Z :=
  let trimmed := trim xlmString in
  if String.eqb trimmed "" then Err (JsError "XLM amount cannot be empty")
  else
    let isNegative := startsWith "-" trimmed in
    let absolute := if isNegative then drop_string 1 trimmed else trimmed in
    let parts := split_on "."%char absolute in
    if negb (xlm_syntax parts) then Err (JsError ("Invalid XLM amount: " +:+ trimmed))
    else
      let integerPart := nth 0 parts "" in
      let decimalPart := nth 1 parts "" in
      if (MAX_DECIMALS <? String.length decimalPart)%nat
      then Err (JsError ("XLM amount has too many decimal places (max 7): " +:+ trimmed))
      else
        stroops ← BigInt (integerPart +:+ padEnd0 MAX_DECIMALS decimalPart);
        Ok (if isNegative then - stroops else stroops).

Definition parseHorizonBalanceToStroops (balanceString : option string) : Z :=
  match balanceString with
  | None => 0
  | Some s =>
      if String.eqb s "" || String.eqb (trim s) "" then 0
      else match parseXlmToStroops s with Ok n => n | Err _ => 0 end
  end.

Definition formatStroopsToXlm (stroops : Z) : string :=
  let isNegative := stroops <? 0 in
  let absolute := if isNegative then - stroops else stroops in
  let stroopsString := padStart0 (MAX_DECIMALS + 1) (bigint_toString 10 absolute) in
  let cut := (String.length stroopsString - MAX_DECIMALS)%nat in
  let integerPart := take_string cut stroopsString in
  let decimalPart := drop_string cut stroopsString in
  let trimmedDecimal := strip_zeros decimalPart in
  let sign := if isNegative then "-" else "" in
  if String.eqb trimmedDecimal "" then sign +:+ integerPart
  else sign +:+ integerPart +:+ "." +:+ trimmedDecimal.

Lemma take_drop_string n s : take_string n s +:+ drop_string n s = s.
Proof. revert s. induction n as [|n IH]; intros [|c s]; simpl; [done..|]. by rewrite IH. Qed.
Lemma take_string_length n s : (n ≤ String.length s)%nat → String.length (take_string n s) = n.
Proof. revert s. induction n as [|n IH]; intros [|c s] H; simpl in *; [done|done|lia|]. rewrite IH; lia. Qed.

Lemma padEnd0_nil s : padEnd0 0 s = s.
Proof. by destruct s. Qed.

Lemma strip_zeros_pad n s : String.length s = n → padEnd0 n (strip_zeros s) = s.
Proof.
  revert n. induction s as [|c s IH]; intros n <-; simpl; [done|].
  specialize (IH _ eq_refl). destruct (strip_zeros s) as [|d r].
  - destruct (Ascii.eqb_spec c "0"%char) as [->|]; simpl; by rewrite IH.
  - simpl in *. by rewrite IH.
Qed.

Lemma strip_zeros_length s : (String.length (strip_zeros s) ≤ String.length s)%nat.
Proof.
  induction s as [|c s IH]; simpl; [done|].
  destruct (strip_zeros s); [destruct (Ascii.eqb c "0"); simpl; lia|simpl in *; lia].
Qed.

Lemma strip_zeros_dec s : all_dec s = true → all_dec (strip_zeros s) = true.
Proof.
  unfold all_dec. induction s as [|c s IH]; simpl; [done|]. intros [Hc Hs]%andb_prop. specialize (IH Hs).
  destruct (strip_zeros s); [destruct (Ascii.eqb c "0"); simpl; by rewrite ?Hc|simpl in *; by rewrite Hc].
Qed.

Lemma dec_no_dot s : all_dec s = true → all_chars (λ c, negb (Ascii.eqb c "."%char)) s = true.
Proof. apply all_chars_impl. intros c. by destruct (Ascii.eqb_spec c "."%char) as [->|]. Qed.

Lemma padStart0_dec n s : all_dec s = true → all_dec (padStart0 n s) = true.
Proof. intros H. unfold padStart0, all_dec. induction (n - String.length s)%nat; simpl; done. Qed.

Lemma padStart0_ge n s : (n ≤ String.length (padStart0 n s))%nat.
Proof.
  unfold padStart0.
  assert (∀ k, String.length (Nat.iter k (String "0"%char) s) = (k + String.length s)%nat) as ->
    by (induction k; simpl; lia). lia.
Qed.

Lemma dec_no_blank s : all_dec s = true → all_chars (λ c, negb (is_space c)) s = true.
Proof. apply dec_no_space. Qed.

Lemma padEnd0_dec n d : all_dec d = true → all_dec (padEnd0 n d) = true.
Proof.
  unfold all_dec. revert d. induction n as [|n IH]; intros [|c d] Hd; cbn [padEnd0 all_chars] in *.
  - done.
  - exact Hd.
  - by apply IH.
  - apply andb_prop in Hd as [-> Hd]. by apply IH.
Qed.

(** What the parser makes of an integer part and a fraction. *)
Lemma parse_parts neg i d v :
  i ≠ "" → all_dec i = true → all_dec d = true → (String.length d ≤ MAX_DECIMALS)%nat →
  digits_val 10 0 (i +:+ padEnd0 MAX_DECIMALS d) = Some v →
  ∀ s, s = i ∧ d = "" ∨ s = i +:+ String "." d →
  parseXlmToStroops ((if (neg : bool) then "-" else "") +:+ s) = Ok (if neg then - v else v).
Proof.
  intros Hi Hid Hdd Hlen Hv s Hs.
  assert (Hsp : split_on "."%char s = [i] ∧ d = "" ∨ split_on "."%char s = [i; d]).
  { destruct Hs as [[-> ->]| ->]; [left|right].
    - by rewrite split_on_none by by apply dec_no_dot.
    - rewrite split_on_app, split_on_none by by apply dec_no_dot. done. }
  assert (Hns : all_chars (λ c, negb (is_space c)) s = true).
  { destruct Hs as [[-> ->]| ->]; [by apply dec_no_blank|]. rewrite all_chars_app. simpl.
    by rewrite !dec_no_blank. }
  assert (Hne : s ≠ "" ∧ startsWith "-" s = false).
  { destruct i as [|c i]; [done|]. simpl in Hid. apply andb_prop in Hid as [Hc _].
    apply dec_not_marker in Hc as (_&_&_&_&_&_&Hm&_).
    rewrite Ascii.eqb_sym in Hm.
    destruct Hs as [[-> _]| ->]; (split; [done|]); cbn [startsWith String.append]; by rewrite Hm. }
  destruct Hne as [Hne Hm]. unfold parseXlmToStroops.
  rewrite trim_id by (destruct neg; simpl; done).
  replace (String.eqb _ "") with false by (destruct neg, s; done).
  assert (Habs : (if startsWith "-" ((if neg then "-" else "") +:+ s)
     then drop_string 1 ((if neg then "-" else "") +:+ s) else (if neg then "-" else "") +:+ s) = s
     ∧ startsWith "-" ((if neg then "-" else "") +:+ s) = neg)
    by (destruct neg; cbn [String.append drop_string]; [by destruct s|by rewrite Hm]).
  destruct Habs as [-> ->].
  assert (Hx : xlm_syntax (split_on "."%char s) = true ∧ nth 0 (split_on "."%char s) "" = i
     ∧ nth 1 (split_on "."%char s) "" = d).
  { destruct (String.eqb_spec i "") as [|Hi']; [done|].
    destruct Hsp as [[-> ->]| ->]; simpl; rewrite ?Hid, ?Hdd; destruct (String.eqb_spec i ""); done. }
  destruct Hx as (-> & -> & ->). simpl negb. cbn iota.
  destruct (Nat.ltb_spec MAX_DECIMALS (String.length d)); [lia|].
  unfold BigInt. rewrite bigint_of_dec, Hv; [done| |].
  - by destruct i.
  - rewrite all_chars_app. fold (all_dec i). rewrite Hid. by apply padEnd0_dec.
Qed.

(** Printing any amount of stroops (negative ones included) as XLM and
    parsing the text gives the same amount back, to the last stroop. *)
Theorem amount_roundtrip (stroops : Z) : parseXlmToStroops (formatStroopsToXlm stroops) = Ok stroops.
Proof.
  unfold formatStroopsToXlm. set (neg := stroops <? 0). set (a := if neg then - stroops else stroops).
  assert (Ha : 0 <= a) by (unfold a, neg; destruct (Z.ltb_spec stroops 0); lia).
  set (ds := padStart0 (MAX_DECIMALS + 1) (bigint_toString 10 a)).
  assert (Hdec : all_dec ds = true).
  { apply padStart0_dec. unfold bigint_toString. destruct (Z.ltb_spec a 0); [lia|]. by apply toString_dec_digits. }
  assert (Hval : digits_val 10 0 ds = Some a).
  { unfold ds. rewrite padStart0_val by lia. unfold bigint_toString. destruct (Z.ltb_spec a 0); [lia|].
    destruct (num_fuel_ok a Ha). apply num_str_val; lia. }
  assert (Hlen : (8 ≤ String.length ds)%nat) by apply padStart0_ge.
  set (k := (String.length ds - MAX_DECIMALS)%nat). unfold MAX_DECIMALS in k.
  pose proof (take_drop_string k ds) as Htd. pose proof (take_string_length k ds) as Hk.
  set (i := take_string k ds) in *. set (d := drop_string k ds) in *.
  assert (Hl : String.length d = 7%nat) by (rewrite <-Htd, string_app_length in Hlen, Hk; subst k; rewrite <-Htd, string_app_length in *; lia).
  assert (Hid : all_dec i = true ∧ all_dec d = true) by (rewrite <-Htd in Hdec; unfold all_dec in *; rewrite all_chars_app in Hdec; by apply andb_prop).
  destruct Hid as [Hid Hdd].
  assert (Hi : i ≠ "") by (intros E; rewrite E in Hk; simpl in Hk; lia).
  assert (Hv : digits_val 10 0 (i +:+ padEnd0 MAX_DECIMALS (strip_zeros d)) = Some a).
  { rewrite strip_zeros_pad by done. by rewrite Htd. }
  assert (Hres : Ok stroops = Ok (if neg then - a else a)) by (unfold a; destruct neg; f_equal; lia).
  rewrite Hres. pose proof (strip_zeros_length d) as Hsl.
  destruct (String.eqb_spec (strip_zeros d) "") as [E|E].
  - eapply (parse_parts neg i (strip_zeros d)); try done; [by apply strip_zeros_dec|unfold MAX_DECIMALS; lia|by left].
  - eapply (parse_parts neg i (strip_zeros d)); try done; [by apply strip_zeros_dec|unfold MAX_DECIMALS; lia|by right].
Qed.
End Amount.

(** ** Transfer memos *)
Module TxMemo.
Inductive MemoType : Type := MNone | MText | MId | MHash | MReturn.
#[export] Instance MemoType_eq_dec : EqDecision MemoType.
Proof. solve_decision. Defined.

Record TransferMemo : Type := mkMemo { type : MemoType; value : string }.

Record MemoRisk : Type := mkRisk {
  isKnownCustodian : bool;
  custodianName : option string;
  recommendedMemoType : option MemoType;
}.

Definition CUSTODIAL_ADDRESSES : list (string * (string * MemoType)) :=
  [("GA5XIGA5C7QTPTWXQHY6MCJRMTRZDOSHR6EFIBNDQTCQHG262N4GGKTM", ("Kraken", MId));
   ("GCGNWKCJ3KHRLPM3TMQN7IPVUMRPMYIPGKDPELDPRBMVUPLNZAJDK4VG", ("Binance", MText));
   ("GBJ65CCWNPGFNXIVRZMNQSGNXHJYM3O3HFK2CIHWXVKAFEWZNUQOH53I", ("Coinbase", MText));
   ("GDXBP3R6N62YR4MTEGEHDIJWQ6BIRYNG6UCV4XQEFKQGGYS7QUDXMJSX", ("KuCoin", MText))].

(** The properties every object inherits, which indexing also finds: methods, whose
    [name] is their name, and the prototype itself. *)
Definition inherited (k : string) : option (option string) :=
  if String.eqb k "constructor" then Some (Some "Object")
  else if String.eqb k "__proto__" then Some None
  else if bool_decide (k ∈ ["toString"; "toLocaleString"; "valueOf"; "hasOwnProperty"; "isPrototypeOf";
       "propertyIsEnumerable"; "__defineGetter__"; "__defineSetter__"; "__lookupGetter__"; "__lookupSetter__"])
  then Some (Some k) else None.

Definition memoRiskFor (destination : option string) : MemoRisk :=
  match destination with
  | None => mkRisk false None None
  | Some d =>
      if String.eqb d "" then mkRisk false None None
      else match JMap.get (trim d) CUSTODIAL_ADDRESSES with
           | Some (name, t) => mkRisk true (Some name) (Some t)
           | None =>
               match inherited (trim d) with
               | Some name => mkRisk true name None
               | None => mkRisk false None None
               end
           end
  end.

(** [{ ok: true }] or the error. *)
Definition validateMemo (memoType : MemoType) (memo : option string) : res unit :=
  let value := trim (default "" memo) in
  match memoType with
  | MNone =>
      if 0 <? slen value then Err (JsError "Memo must be empty when memo type is 'none'.") else Ok tt
  | _ =>
      if slen value =? 0 then Err (JsError "Memo is required for this memo type.")
      else match memoType with
      | MText =>
          if 28 <? Z.of_nat (length (utf8 value)) then Err (JsError "Text memo must be 28 UTF-8 bytes or fewer.")
          else Ok tt
      | MId =>
          if negb (all_chars is_dec value) then Err (JsError "ID memo must be a non-negative integer.")
          else match BigInt value with
               | Ok n => if (n <? 0) || (2 ^ 64 - 1 <? n)
                         then Err (JsError "ID memo must fit in an unsigned 64-bit integer.") else Ok tt
               | Err _ => Err (JsError "ID memo must be a non-negative integer.")
               end
      | _ =>
          if negb (all_chars is_hex value && (slen value =? 64))
          then Err (JsError "Hash/return memo must be 64 hexadecimal characters.") else Ok tt
      end
  end.

Definition memo_type_name (t : MemoType) : string :=
  match t with MNone => "none" | MText => "text" | MId => "id" | MHash => "hash" | MReturn => "return" end.

Definition memoWarningCopy (risk : MemoRisk) (memo : option string) : option string :=
  if negb (isKnownCustodian risk) then None
  else if match memo with Some m => 0 <? slen (trim m) | None => false end then None
  else Some ("Destination looks like " +:+ default "an exchange or custodian" (custodianName risk)
             +:+ ". Sending without a memo may result in lost funds.").

Definition resolveTransferMemo (destination : string) (memo : option TransferMemo) : res (option TransferMemo) :=
  let risk := memoRiskFor (Some destination) in
  match memo with
  | Some m =>
      match validateMemo (type m) (Some (value m)) with
      | Err e => Err (TypeError ("Invalid memo: " +:+ err_message e))
      | Ok _ => Ok (Some m)
      end
  | None =>
      if isKnownCustodian risk
      then Err (TypeError ("Destination is " +:+ default "a known custodian" (custodianName risk) +:+ "; a "
                 +:+ memo_type_name (default MText (recommendedMemoType risk)) +:+ " memo is required."))
      else Ok None
  end.

(** The memo the transaction carries; [None] is no memo. *)
Definition toStellarSdkMemo (memo : option TransferMemo) : option (MemoType * string) :=
  match memo with
  | None => None
  | Some m => match type m with MNone => None | t => Some (t, value m) end
  end.

(** A transfer that [resolveTransferMemo] lets through either carries a
    memo that is well formed for its type, or carries none, and then the destination is
    not a known custodian or the caller passed a memo of type none. *)
Theorem resolved_memo_is_valid destination memo r :
  resolveTransferMemo destination memo = Ok r →
  match toStellarSdkMemo r with
  | Some (t, v) => memo = Some (mkMemo t v) ∧ t ≠ MNone ∧ trim v ≠ "" ∧ validateMemo t (Some v) = Ok tt
  | None => isKnownCustodian (memoRiskFor (Some destination)) = false ∨ ∃ v, memo = Some (mkMemo MNone v) ∧ trim v = ""
  end.
Proof.
  unfold resolveTransferMemo. destruct memo as [[t v]|].
  - cbn [type value]. destruct (validateMemo t (Some v)) as [[]|e] eqn:Hv; [|done]. intros [= <-].
    assert (Htrim : (t = MNone → trim v = "") ∧ (t ≠ MNone → trim v ≠ "")).
    { unfold validateMemo in Hv. cbn [default] in Hv. unfold default in Hv. simpl in Hv.
      split; intros Ht; destruct t, (trim v); simpl in Hv; congruence. }
    destruct Htrim as [Hn Hs]. destruct t; simpl; [right; exists v; auto|..]; split_and!; auto.
  - destruct (isKnownCustodian _) eqn:Hk; [done|]. intros [= <-]. simpl. by left.
Qed.

(** The rule that a known custodian requires a memo has a hole: a memo of
    type none passes for every destination, custodians included, and the transfer then
    carries no memo at all. *)
Theorem custodian_paid_without_memo destination :
  ∃ memo, resolveTransferMemo destination (Some memo) = Ok (Some memo) ∧ toStellarSdkMemo (Some memo) = None.
Proof. by exists (mkMemo MNone ""). Qed.

Lemma resolved_memo_is_valid_witness :
  resolveTransferMemo "GA5XIGA5C7QTPTWXQHY6MCJRMTRZDOSHR6EFIBNDQTCQHG262N4GGKTM" (Some (mkMemo MId "42"))
    = Ok (Some (mkMemo MId "42")) ∧ validateMemo MId (Some "42") = Ok tt.
Proof.
  assert (H : resolveTransferMemo "GA5XIGA5C7QTPTWXQHY6MCJRMTRZDOSHR6EFIBNDQTCQHG262N4GGKTM" (Some (mkMemo MId "42"))
    = Ok (Some (mkMemo MId "42"))) by (vm_compute; reflexivity).
  split; [exact H|]. destruct (resolved_memo_is_valid _ _ _ H) as (_ & _ & _ & Hv). exact Hv.
Defined.
End TxMemo.

(** ** Stored notes *)
Module NoteCodec.
Definition CURRENT_NOTE_SCHEMA_VERSION : Z := 2.

Record PoolNote : Type := mkNote {
  pn_cluster : string;
  pn_poolId : option string;
  pn_value : string;
  pn_scope : jval;
  pn_leafIndex : jval;
  pn_nullifier : string;
  pn_secret : string;
  pn_commitment : string;
  pn_spent : bool;
  pn_createdAt : jval;
}.

(** A finite number: anything but the three values JSON cannot write. *)
Definition is_finite (v : jval) : bool :=
  match v with
  | JNum _ => true
  | JFlt t => negb (bool_decide (t ∈ ["NaN"; "Infinity"; "-Infinity"]))
  | _ => false
  end.

Definition requireString (raw : jval) (key : string) : res string :=
  match prop raw key with
  | JStr s => Ok s
  | _ => Err (JsError ("Serialized note field " +:+ key +:+ " must be a string"))
  end.
Definition requireNumber (raw : jval) (key : string) : res jval :=
  if is_finite (prop raw key) then Ok (prop raw key)
  else Err (JsError ("Serialized note field " +:+ key +:+ " must be a finite number")).
Definition requireBoolean (raw : jval) (key : string) : res bool :=
  match prop raw key with
  | JBool b => Ok b
  | _ => Err (JsError ("Serialized note field " +:+ key +:+ " must be a boolean"))
  end.

(** The decoder of version 1; version 2 adds the pool. *)
Definition decode_v1 (raw : jval) : res PoolNote :=
  cluster ← requireString raw "cluster";
  value ← requireString raw "value";
  scope ← requireNumber raw "scope";
  leafIndex ← requireNumber raw "leafIndex";
  nullifier ← requireString raw "nullifier";
  secret ← requireString raw "secret";
  commitment ← requireString raw "commitment";
  spent ← requireBoolean raw "spent";
  createdAt ← requireNumber raw "createdAt";
  Ok (mkNote cluster None value scope leafIndex nullifier secret commitment spent createdAt).

Definition decode_v2 (raw : jval) : res PoolNote :=
  n ← decode_v1 raw;
  poolId ← requireString raw "poolId";
  Ok (mkNote (pn_cluster n) (Some poolId) (pn_value n) (pn_scope n) (pn_leafIndex n) (pn_nullifier n)
        (pn_secret n) (pn_commitment n) (pn_spent n) (pn_createdAt n)).

Definition serializeNote (note : PoolNote) : jval :=
  match pn_poolId note with
  | None =>
      JObj [("version", JNum 1); ("cluster", JStr (pn_cluster note)); ("value", JStr (pn_value note));
            ("scope", pn_scope note); ("leafIndex", pn_leafIndex note); ("nullifier", JStr (pn_nullifier note));
            ("secret", JStr (pn_secret note)); ("commitment", JStr (pn_commitment note));
            ("spent", JBool (pn_spent note)); ("createdAt", pn_createdAt note)]
  | Some poolId =>
      JObj [("version", JNum CURRENT_NOTE_SCHEMA_VERSION); ("cluster", JStr (pn_cluster note));
            ("poolId", JStr poolId); ("value", JStr (pn_value note));
            ("scope", pn_scope note); ("leafIndex", pn_leafIndex note); ("nullifier", JStr (pn_nullifier note));
            ("secret", JStr (pn_secret note)); ("commitment", JStr (pn_commitment note));
            ("spent", JBool (pn_spent note)); ("createdAt", pn_createdAt note)]
  end.

Definition deserializeNote (data : jval) : res PoolNote :=
  match data with
  | JArr _ | JObj _ =>
      let version := match prop data "version" with JUndef => JNum 1 | v => v end in
      match version with
      | JNum 1 => decode_v1 data
      | JNum 2 => decode_v2 data
      | JNum v => Err (JsError ("Unsupported note schema version: " +:+ bigint_toString 10 v))
      | _ => Err (JsError ("Serialized note has a non-integer version: " +:+ js_String version))
      end
  | _ => Err (JsError "Serialized note must be an object")
  end.

Definition serializeNotes (notes : list PoolNote) : list jval := serializeNote <$> notes.
Definition deserializeNotes (data : list jval) : res (list PoolNote) := mapM_res deserializeNote data.

Section json.
Context (JSON_stringify : jval → string) (JSON_parse : string → res jval).
Definition encodeNoteJson (note : PoolNote) : string := JSON_stringify (serializeNote note).
Definition decodeNoteJson (json : string) : res PoolNote :=
  match JSON_parse json with
  | Ok v => deserializeNote v
  | Err _ => Err (JsError "Serialized note is not valid JSON")
  end.
End json.

(** The numbers of a note are finite numbers. *)
Definition wf_note (n : PoolNote) : Prop :=
  is_finite (pn_scope n) = true ∧ is_finite (pn_leafIndex n) = true ∧ is_finite (pn_createdAt n) = true.

Lemma decode_v1_wf raw n : decode_v1 raw = Ok n → wf_note n ∧ pn_poolId n = None.
Proof.
  unfold decode_v1, requireNumber, wf_note.
  intros (? & _ & (? & _ & (s & Hs & (l & Hl & (? & _ & (? & _ & (? & _ & (? & _ & (c & Hc & [= <-])
    %bind_ok)%bind_ok)%bind_ok)%bind_ok)%bind_ok)%bind_ok)%bind_ok)%bind_ok)%bind_ok. simpl.
  repeat case_match; simplify_eq; done.
Qed.

Lemma deserialize_cases data n :
  deserializeNote data = Ok n → decode_v1 data = Ok n ∨ decode_v2 data = Ok n.
Proof. unfold deserializeNote. repeat case_match; auto; discriminate. Qed.

(** Stored notes never change on reload, whichever schema version they
    are written in: a note whose numbers are finite is read back exactly as it was
    written, a decoder only ever yields such notes, and a note of any other schema
    version is refused. *)
Theorem note_roundtrip :
  (∀ note, wf_note note → deserializeNote (serializeNote note) = Ok note) ∧
  (∀ data note, deserializeNote data = Ok note → wf_note note) ∧
  (∀ data v, prop data "version" = JNum v → v ≠ 1 → v ≠ 2 → is_ok (deserializeNote data) = false).
Proof.
  split_and!.
  - intros [cl [p|] va sc le nu se co sp cr] (H1 & H2 & H3); simpl in *;
      unfold serializeNote, deserializeNote; simpl;
      [unfold decode_v2|]; unfold decode_v1, requireNumber; simpl; rewrite H1; simpl; rewrite H2; simpl; by rewrite H3.
  - intros data note [H|H]%deserialize_cases; [by apply decode_v1_wf in H as [? _]|].
    apply bind_ok in H as (n & [Hn _]%decode_v1_wf & (p & _ & [= <-])%bind_ok). exact Hn.
  - intros data v Hv H1 H2. unfold deserializeNote. rewrite Hv. destruct data; try done; destruct v as [|[[]|[]|]|]; done.
Qed.

Lemma note_roundtrip_witness :
  let note := mkNote "testnet" (Some "CPOOL") "10000000" (JNum 7) (JNum 3) "0x01" "0x02" "0x03" false (JNum 1700000000) in
  wf_note note ∧ deserializeNote (serializeNote note) = Ok note.
Proof.
  intros note. assert (Hw : wf_note note) by by repeat split.
  split; [exact Hw|]. exact (proj1 note_roundtrip note Hw).
Defined.
End NoteCodec.
