(* ===== verification/SdkSchema.v ===== *)
(** * SDK: schemas and attestation data

    [sdk/src/crypto/schema-codec.ts] (and its twin [frontend/src/lib/schemaEncoding.ts]):
    field definitions as text and as canonical bytes, schema identifiers, and the
    encoding of attestation values.  SHA-256 and the text decoder are parameters. *)
From Stdlib Require Import Ascii.
From stdpp Require Import base tactics list sets strings.
From Stdlib Require Import ZArith Lia.
From S2P Require Import Prelude JsString JsMap Bytes Json PubValidate HttpBase.
Open Scope string_scope.
Open Scope list_scope.
Open Scope Z_scope.

Definition MAX_FIELDS : nat := 16.
Definition MAX_FIELD_NAME_LEN : nat := 32.
Definition MAX_STRING_VALUE_LEN : nat := 128.
Definition MAX_ATTESTATION_DATA_LEN : nat := 512.

Inductive FieldType : Type := TBool | TU8 | TU16 | TU32 | TU64 | TString | TPubkey.
#[export] Instance FieldType_eq_dec : EqDecision FieldType.
Proof. solve_decision. Defined.

Record FieldDef : Type := mkField { fd_id : string; fd_name : string; fd_type : FieldType }.

Definition type_name (t : FieldType) : string :=
  match t with
  | TBool => "bool" | TU8 => "u8" | TU16 => "u16" | TU32 => "u32" | TU64 => "u64"
  | TString => "string" | TPubkey => "pubkey"
  end.
Definition FIELD_TYPE_IDS (t : FieldType) : Z :=
  match t with
  | TBool => 0 | TU8 => 1 | TU16 => 2 | TU32 => 3 | TU64 => 4 | TString => 5 | TPubkey => 6
  end.
(** [Object.hasOwn(FIELD_TYPE_IDS, s)] *)
Definition type_of_name (s : string) : option FieldType :=
  List.find (λ t, String.eqb (type_name t) s) [TBool; TU8; TU16; TU32; TU64; TString; TPubkey].

(** ** Field definitions *)
Definition name_start (c : Ascii.ascii) : bool :=
  let n := code c in ((65 <=? n) && (n <=? 90)) || ((97 <=? n) && (n <=? 122)) || (n =? 95).
Definition name_char (c : Ascii.ascii) : bool := name_start c || is_dec c.

Definition isValidFieldName (name : string) : bool :=
  match name with
  | EmptyString => false
  | String c _ => (String.length name <=? MAX_FIELD_NAME_LEN)%nat && name_start c && all_chars name_char name
  end.

(** [s.indexOf(c)] as the text before and after the first [c]. *)
Fixpoint cut_at (c : Ascii.ascii) (s : string) : option (string * string) :=
  match s with
  | EmptyString => None
  | String d s' => if Ascii.eqb d c then Some (EmptyString, s') else prod_map (String d) id <$> cut_at c s'
  end.

Definition parse_segment (fields : list FieldDef) (segment : string) : res (list FieldDef) :=
  let seg := trim segment in
  if String.eqb seg "" then Err (JsError "Malformed field segment")
  else match cut_at " "%char seg with
  | None => Err (JsError "Expected type name format (legacy name:type is not supported)")
  | Some (before, after) =>
      let type := trim before in
      let name := trim after in
      match type_of_name type with
      | Some t =>
          if negb (all_chars (λ c, negb (Ascii.eqb c " "%char)) name)
          then Err (JsError ("Invalid field type: " +:+ type))
          else if negb (isValidFieldName name) then Err (JsError ("Invalid field name: " +:+ name))
          else if existsb (λ f, String.eqb (fd_name f) name) fields
          then Err (JsError ("Duplicate field name: " +:+ name))
          else
            let fields' := fields ++ [mkField (bigint_toString 10 (Z.of_nat (length fields))) name t] in
            if (MAX_FIELDS <? length fields')%nat then Err (JsError "Too many fields") else Ok fields'
      | None => Err (JsError ("Invalid field type: " +:+ type))
      end
  end.

Fixpoint parse_segments (fields : list FieldDef) (segments : list string) : res (list FieldDef) :=
  match segments with
  | [] => Ok fields
  | s :: rest => fields' ← parse_segment fields s; parse_segments fields' rest
  end.

Definition fieldDefsToCanonicalString (fields : list FieldDef) : string :=
  join "," ((λ f, type_name (fd_type f) +:+ " " +:+ trim (fd_name f)) <$>
    List.filter (λ f, negb (String.eqb (trim (fd_name f)) "")) fields).

Definition parseFieldDefinitions (fieldDefs : string) : res (list FieldDef) :=
  let trimmed := trim fieldDefs in
  if String.eqb trimmed "" then Err (JsError "Field definitions cannot be empty")
  else
    fields ← parse_segments [] (split_on ","%char trimmed);
    if 256 <? slen (fieldDefsToCanonicalString fields) then Err (JsError "Field definitions too long")
    else Ok fields.

Definition encode_field_def (f : FieldDef) : list byte :=
  let nameBytes := utf8 (fd_name f) in
  [to_byte (FIELD_TYPE_IDS (fd_type f)); to_byte (Z.of_nat (length nameBytes))] ++ nameBytes.
Definition encodeCanonicalFieldDefs (fields : list FieldDef) : list byte :=
  [to_byte (Z.of_nat (length fields))] ++ concat (encode_field_def <$> fields).

(** ** Schema identifiers *)
Section schema_id.
Context (sha256 : list byte → list byte).

Definition schema_preimage (authorityBytes : list byte) (name : string) (version : Z) (fields : list FieldDef)
  : list byte :=
  authorityBytes ++ utf8 name ++ be_bytes 4 version ++ encodeCanonicalFieldDefs fields.

Definition computeSchemaIdFromBytes (authorityBytes : list byte) (name fieldDefinitions : string) (version : Z)
  : res (list byte) :=
  fields ← parseFieldDefinitions fieldDefinitions;
  Ok (sha256 (schema_preimage authorityBytes name version fields)).
End schema_id.

(** ** Values *)
Definition parseBool (value : string) : res bool :=
  let v := trim value in
  if String.eqb v "true" || String.eqb v "1" then Ok true
  else if String.eqb v "false" || String.eqb v "0" || String.eqb v "" then Ok false
  else Err (JsError ("Invalid bool: " +:+ value)).

Definition parseUint (value : string) (max : Z) : res Z :=
  let v := trim value in
  if String.eqb v "" then Ok 0
  else if negb (all_chars is_dec v) then Err (JsError ("Invalid integer: " +:+ value))
  else
    n ← BigInt v;
    if (n <? 0) || (max <? n) then Err (JsError ("Integer out of range: " +:+ value)) else Ok n.

(** [parseInt(c1 + c2, 16)] as it is stored in a byte array: it skips a leading blank
    or sign, stops at the first character that is no digit, and [NaN] is stored as 0. *)
Definition parse_byte (c1 c2 : Ascii.ascii) : Z :=
  match digit_val c1, digit_val c2 with
  | Some d1, Some d2 => d1 * 16 + d2
  | Some d1, None =>
      if Ascii.eqb c1 "0" && (Ascii.eqb c2 "x" || Ascii.eqb c2 "X") then 0 else d1
  | None, Some d2 =>
      if is_space c1 || Ascii.eqb c1 "+" then d2 else if Ascii.eqb c1 "-" then - d2 else 0
  | None, None => 0
  end.

Fixpoint parse_hex_pairs (hex : string) : list byte :=
  match hex with
  | String c1 (String c2 rest) => to_byte (parse_byte c1 c2) :: parse_hex_pairs rest
  | _ => []
  end.

(** [s.replace(/^0x/i, "")] *)
Definition strip_0x_ci (s : string) : string :=
  if startsWith "0x" (toLowerCase s) then drop_string 2 s else s.

Definition parsePubkeyHex (value : string) : res (list byte) :=
  let hex := strip_0x_ci (trim value) in
  if negb (slen hex =? 64) then Err (JsError "Invalid pubkey hex") else Ok (parse_hex_pairs hex).

Definition encode_value (t : FieldType) (value : string) : res (list byte) :=
  match t with
  | TBool => b ← parseBool value; Ok [to_byte (if b : bool then 1 else 0)]
  | TU8 => n ← parseUint value 255; Ok [to_byte n]
  | TU16 => n ← parseUint value 65535; Ok (be_bytes 2 n)
  | TU32 => n ← parseUint value 4294967295; Ok (be_bytes 4 n)
  | TU64 => n ← parseUint value 18446744073709551615; Ok (be_bytes 8 n)
  | TString =>
      let bytes := utf8 value in
      if (MAX_STRING_VALUE_LEN <? length bytes)%nat then Err (JsError "String value too long")
      else Ok (be_bytes 2 (Z.of_nat (length bytes)) ++ bytes)
  | TPubkey => parsePubkeyHex value
  end.

Definition field_value (values : list (string * string)) (f : FieldDef) : string :=
  default "" (JMap.get (fd_name f) values).

Definition encodeAttestationData (values : list (string * string)) (fields : list FieldDef) : res (list byte) :=
  parts ← mapM_res (λ f, encode_value (fd_type f) (field_value values f)) fields;
  if (MAX_ATTESTATION_DATA_LEN <? length (concat parts))%nat
  then Err (JsError "Attestation data too large") else Ok (concat parts).

Section decode.
Context (TextDecoder_decode : list byte → string).

(** The first [n] bytes and the rest; [offset + n > data.length] throws. *)
Definition take_bytes (n : nat) (what : string) (data : list byte) : res (list byte * list byte) :=
  if (length data <? n)%nat then Err (JsError ("Truncated " +:+ what)) else Ok (take n data, drop n data).

Definition decode_value (t : FieldType) (data : list byte) : res (string * list byte) :=
  let uint n what := r ← take_bytes n what data; Ok (bigint_toString 10 (be_val 0 r.1), r.2) in
  match t with
  | TBool =>
      r ← take_bytes 1 "bool" data;
      Ok (if be_val 0 r.1 =? 1 then "true" else "false", r.2)
  | TU8 => uint 1%nat "u8"
  | TU16 => uint 2%nat "u16"
  | TU32 => uint 4%nat "u32"
  | TU64 => uint 8%nat "u64"
  | TString =>
      r ← take_bytes 2 "string length" data;
      s ← take_bytes (Z.to_nat (be_val 0 r.1)) "string" r.2;
      Ok (TextDecoder_decode s.1, s.2)
  | TPubkey => r ← take_bytes 32 "pubkey" data; Ok ("0x" +:+ hex_of_bytes r.1, r.2)
  end.

Fixpoint decode_fields (data : list byte) (fields : list FieldDef) (result : list (string * string))
  : res (list (string * string)) :=
  match fields with
  | [] => if (length data =? 0)%nat then Ok result else Err (JsError "Trailing bytes in attestation data")
  | f :: rest =>
      r ← decode_value (fd_type f) data;
      decode_fields r.2 rest (JMap.set (fd_name f) r.1 result)
  end.

Definition decodeAttestationData (data : list byte) (fields : list FieldDef) : res (list (string * string)) :=
  decode_fields data fields [].
End decode.

(** ** Attestation data: properties *)
Section values.
Context (dec : list byte → string) (Hdec : ∀ s, dec (utf8 s) = s).

Lemma take_bytes_app n what (l rest : list byte) :
  length l = n → take_bytes n what (l ++ rest) = Ok (l, rest).
Proof.
  intros Hl. unfold take_bytes. rewrite length_app. destruct (Nat.ltb_spec (length l + length rest) n); [lia|].
  by rewrite <-Hl, take_app_length, drop_app_length.
Qed.

Lemma parseUint_ok v max n : parseUint v max = Ok n → 0 <= n ∧ (0 <= max → n <= max).
Proof.
  unfold parseUint. destruct (String.eqb _ _); [intros [= <-]; lia|].
  destruct (negb _); [done|]. intros (m & _ & H)%bind_ok.
  destruct (Z.ltb_spec m 0), (Z.ltb_spec max m); simpl in H; simplify_eq; lia.
Qed.

Lemma parseUint_toString n max : 0 <= n <= max → parseUint (bigint_toString 10 n) max = Ok n.
Proof.
  intros Hn. assert (Hd : all_chars is_dec (bigint_toString 10 n) = true).
  { unfold bigint_toString. destruct (Z.ltb_spec n 0); [lia|]. apply toString_dec_digits. lia. }
  unfold parseUint. rewrite trim_id by by apply dec_no_space.
  destruct (String.eqb_spec (bigint_toString 10 n) "") as [E|_].
  { exfalso. unfold bigint_toString in E. destruct (Z.ltb_spec n 0); [lia|].
    destruct (num_fuel_ok n) as [_ Hf]; [lia|]. by apply (num_str_nonempty 10) in E. }
  rewrite Hd. simpl. rewrite BigInt_toString. simpl.
  destruct (Z.ltb_spec n 0), (Z.ltb_spec max n); simpl; done || lia.
Qed.

Lemma uint_roundtrip k max what v n rest :
  max = 2 ^ (8 * Z.of_nat k) - 1 → parseUint v max = Ok n →
  (r ← take_bytes k what (be_bytes k n ++ rest); Ok (bigint_toString 10 (be_val 0 r.1), r.2)) = Ok (bigint_toString 10 n, rest)
  ∧ parseUint (bigint_toString 10 n) max = Ok n.
Proof.
  intros Hm Hp. apply parseUint_ok in Hp as [H0 H1]. pose proof (Z.pow_pos_nonneg 2 (8 * Z.of_nat k)).
  specialize (H1 ltac:(lia)). rewrite take_bytes_app by apply be_bytes_length. simpl.
  rewrite be_val_be_bytes, Z.mod_small by lia. split; [done|]. apply parseUint_toString. lia.
Qed.

Lemma parse_hex_pairs_bytes l : parse_hex_pairs (hex_of_bytes l) = l.
Proof.
  induction l as [|b l IH]; [done|]. cbn [hex_of_bytes byte_hex String.append parse_hex_pairs]. rewrite IH. f_equal.
  pose proof (byte_val_range b). unfold parse_byte. rewrite !digit_val_char by zdiv.
  apply to_byte_eq. zdiv.
Qed.
Lemma parse_hex_pairs_length n s : String.length s = (2 * n)%nat → length (parse_hex_pairs s) = n.
Proof.
  revert s. induction n as [|n IH]; intros [|c1 [|c2 s']] Hl; cbn [String.length] in Hl; try lia; [done|].
  cbn [parse_hex_pairs length]. f_equal. apply IH. lia.
Qed.

Lemma pubkey_roundtrip l :
  length l = 32%nat → parsePubkeyHex ("0x" +:+ hex_of_bytes l) = Ok l.
Proof.
  intros Hl. unfold parsePubkeyHex. pose proof (hex_of_bytes_hex l) as Hh.
  rewrite trim_id by (simpl; by apply hex_no_space).
  change (strip_0x_ci ("0x" +:+ hex_of_bytes l)) with (hex_of_bytes l).
  unfold slen. rewrite hex_of_bytes_length, Hl. simpl. by rewrite parse_hex_pairs_bytes.
Qed.

(** One value: decoding reads back exactly its bytes, and they encode what it read. *)
Lemma value_roundtrip t v bytes rest :
  encode_value t v = Ok bytes →
  ∃ v', decode_value dec t (bytes ++ rest) = Ok (v', rest) ∧ encode_value t v' = Ok bytes.
Proof using Hdec.
  destruct t; cbn [encode_value decode_value].
  - intros (b & _ & [= <-])%bind_ok. destruct b; by eexists.
  - intros (n & Hn & [= <-])%bind_ok. destruct (uint_roundtrip 1 255 "u8" v n rest eq_refl Hn) as [H1 H2].
    assert (Hb : be_bytes 1 n = [to_byte n]).
    { apply parseUint_ok in Hn as [? Hn]. specialize (Hn ltac:(lia)). unfold be_bytes. simpl.
      change 255 with (Z.ones 8). by rewrite Z.land_ones, Z.mod_small by (change (2 ^ 8) with 256; lia). }
    rewrite Hb in H1. eexists. split; [exact H1|]. by rewrite H2.
  - intros (n & Hn & [= <-])%bind_ok. destruct (uint_roundtrip 2 65535 "u16" v n rest eq_refl Hn) as [H1 H2].
    eexists. split; [exact H1|]. by rewrite H2.
  - intros (n & Hn & [= <-])%bind_ok. destruct (uint_roundtrip 4 4294967295 "u32" v n rest eq_refl Hn) as [H1 H2].
    eexists. split; [exact H1|]. by rewrite H2.
  - intros (n & Hn & [= <-])%bind_ok. destruct (uint_roundtrip 8 18446744073709551615 "u64" v n rest eq_refl Hn) as [H1 H2].
    eexists. split; [exact H1|]. by rewrite H2.
  - destruct (Nat.ltb_spec MAX_STRING_VALUE_LEN (length (utf8 v))) as [|Hlen]; [done|]. intros <-%Ok_inj.
    unfold MAX_STRING_VALUE_LEN in Hlen. exists v. rewrite <-app_assoc, take_bytes_app by apply be_bytes_length. cbn [mbind res_bind fst snd].
    rewrite be_val_be_bytes, Z.mod_small, Nat2Z.id by (change (2 ^ (8 * Z.of_nat 2)) with 65536; lia). rewrite take_bytes_app by done. cbn [mbind res_bind fst snd].
    rewrite Hdec. split; [done|]. by destruct (Nat.ltb_spec MAX_STRING_VALUE_LEN (length (utf8 v))); [unfold MAX_STRING_VALUE_LEN in *; lia|].
  - unfold parsePubkeyHex at 1. destruct (Z.eqb_spec (slen (strip_0x_ci (trim v))) 64) as [Hl|]; [|done].
    intros <-%Ok_inj. unfold slen in Hl. set (l := parse_hex_pairs _).
    assert (length l = 32%nat) by (apply (parse_hex_pairs_length 32); lia).
    eexists. rewrite take_bytes_app by done. split; [done|]. by apply pubkey_roundtrip.
Qed.

Lemma fields_roundtrip fields values parts result :
  NoDup (fd_name <$> fields) → (∀ n, n ∈ fd_name <$> fields → n ∉ JMap.keys result) →
  mapM_res (λ f, encode_value (fd_type f) (field_value values f)) fields = Ok parts →
  ∃ out, decode_fields dec (concat parts) fields result = Ok out ∧
    (∀ n, n ∉ fd_name <$> fields → JMap.get n out = JMap.get n result) ∧
    mapM_res (λ f, encode_value (fd_type f) (field_value out f)) fields = Ok parts.
Proof using Hdec.
  revert parts result. induction fields as [|f fields IH]; intros parts result Hnd Hfr He; simpl in He.
  { simplify_eq. exists result. by split_and!. }
  apply bind_ok in He as (bytes & Hb & He). apply bind_ok in He as (parts' & Hp & <-%Ok_inj).
  destruct (value_roundtrip _ _ _ (concat parts') Hb) as (v' & Hd & Hv').
  cbn [fmap list_fmap] in Hnd. apply NoDup_cons in Hnd as [Hf Hnd].
  destruct (IH parts' (JMap.set (fd_name f) v' result) Hnd) as (out & Ho & Hget & Hout); [|done|].
  { intros n Hn Hk. apply JMap.elem_of_keys_set in Hk as [->|Hk]; [done|]. apply (Hfr n); [by right|done]. }
  exists out. cbn [decode_fields concat]. rewrite Hd. cbn [mbind res_bind fst snd]. split; [done|]. split.
  - intros n Hn. cbn [fmap list_fmap] in Hn. apply not_elem_of_cons in Hn as [Hn1 Hn2].
    rewrite Hget by done. by apply JMap.get_set_ne.
  - assert (Hfv : field_value out f = v').
    { unfold field_value. rewrite (Hget (fd_name f)) by done. by rewrite JMap.get_set_eq. }
    cbn [mapM_res]. rewrite Hfv, Hv'. cbn [mbind res_bind]. by rewrite Hout.
Qed.
End values.

(** The names every object inherits; a schema field may carry one, and the record of
    values then reads the inherited member instead of "no value". *)
Definition Object_prototype_names : list string :=
  ["constructor"; "__proto__"; "__defineGetter__"; "__defineSetter__"; "__lookupGetter__"; "__lookupSetter__";
   "hasOwnProperty"; "isPrototypeOf"; "propertyIsEnumerable"; "toLocaleString"; "toString"; "valueOf"].
Definition plain_names (fields : list FieldDef) : Prop :=
  NoDup (fd_name <$> fields) ∧ Forall (λ n, n ∉ Object_prototype_names) (fd_name <$> fields).

(** For a list of distinct fields, whatever payload [encodeAttestationData]
    produces from a form, [decodeAttestationData] reads it back to the last byte, and the
    values it reports encode to the same payload. *)
Theorem attestation_data_roundtrip (dec : list byte → string) (values : list (string * string))
    (fields : list FieldDef) (data : list byte)
    (Hdec : ∀ s, dec (utf8 s) = s) (Hn : plain_names fields)
    (He : encodeAttestationData values fields = Ok data) :
  (length data ≤ MAX_ATTESTATION_DATA_LEN)%nat ∧
  ∃ out, decodeAttestationData dec data fields = Ok out ∧ encodeAttestationData out fields = Ok data.
Proof.
  unfold encodeAttestationData in He. apply bind_ok in He as (parts & Hp & He).
  destruct (Nat.ltb_spec MAX_ATTESTATION_DATA_LEN (length (concat parts))) as [|Hl]; [done|].
  apply Ok_inj in He as <-. split; [done|].
  destruct (fields_roundtrip dec Hdec fields values parts [] (proj1 Hn)) as (out & Ho & _ & Hout); [set_solver|done|].
  exists out. split; [exact Ho|]. unfold encodeAttestationData. rewrite Hout. cbn [mbind res_bind].
  by destruct (Nat.ltb_spec MAX_ATTESTATION_DATA_LEN (length (concat parts))); [lia|].
Qed.

(** A decoder for the characters the strings of the model range over. *)
Fixpoint latin1_decode (l : list byte) : string :=
  match l with
  | [] => ""
  | b1 :: rest =>
      if byte_val b1 <? 128 then String (char (byte_val b1)) (latin1_decode rest)
      else match rest with
      | [] => ""
      | b2 :: rest' => String (char ((byte_val b1 - 192) * 64 + (byte_val b2 - 128))) (latin1_decode rest')
      end
  end.

Lemma latin1_decode_utf8 s : latin1_decode (utf8 s) = s.
Proof.
  induction s as [|c s IH]; [done|].
  change (utf8 (String c s)) with ((to_byte <$> utf8_char c) ++ utf8 s).
  destruct c as [[] [] [] [] [] [] [] []]; vm_compute (to_byte <$> _);
    cbn [app latin1_decode]; rewrite IH; reflexivity.
Qed.

Lemma attestation_data_roundtrip_witness :
  let fields := [mkField "0" "age" TU8; mkField "1" "nick" TString; mkField "2" "kyc" TBool] in
  ∃ data out,
    encodeAttestationData [("nick", "zoe"); ("age", " 42 ")] fields = Ok data ∧
    decodeAttestationData latin1_decode data fields = Ok out ∧ JMap.get "age" out = Some "42".
Proof.
  intros fields.
  destruct (encodeAttestationData [("nick", "zoe"); ("age", " 42 ")] fields) as [data|] eqn:E;
    [|exfalso; vm_compute in E; discriminate E].
  assert (Hn : plain_names fields).
  { split; by apply (bool_decide_unpack _); vm_compute. }
  destruct (attestation_data_roundtrip latin1_decode _ fields data latin1_decode_utf8 Hn E) as (_ & out & Ho & _).
  exists data, out. split; [done|]. split; [exact Ho|].
  apply Ok_inj in E as <-. revert Ho. vm_compute. by intros <-%Ok_inj.
Defined.

(** ** Field definitions: what the parser accepts *)
Definition numbered (fields : list FieldDef) : Prop :=
  ∀ i f, fields !! i = Some f → fd_id f = bigint_toString 10 (Z.of_nat i).
Definition fields_ok (fields : list FieldDef) : Prop :=
  NoDup (fd_name <$> fields) ∧ Forall (λ f, isValidFieldName (fd_name f) = true) fields ∧
  numbered fields ∧ (length fields ≤ MAX_FIELDS)%nat.

Definition segment_of (f : FieldDef) : string := type_name (fd_type f) +:+ " " +:+ fd_name f.

Lemma type_of_name_ok s t : type_of_name s = Some t → type_name t = s.
Proof. intros H. apply find_some in H as [_ H]. by apply String.eqb_eq. Qed.
Lemma type_of_name_name t : type_of_name (type_name t) = Some t.
Proof. by destruct t. Qed.

Lemma existsb_names (fields : list FieldDef) (n : string) :
  existsb (λ f, String.eqb (fd_name f) n) fields = true ↔ n ∈ fd_name <$> fields.
Proof.
  rewrite existsb_exists, list_elem_of_fmap. split; intros (f & H1 & H2); exists f.
  - apply String.eqb_eq in H2. split; [done|]. by apply list_elem_of_In.
  - split; [by apply list_elem_of_In|]. by apply String.eqb_eq.
Qed.

Lemma numbered_snoc fields f :
  numbered (fields ++ [f]) ↔ numbered fields ∧ fd_id f = bigint_toString 10 (Z.of_nat (length fields)).
Proof.
  unfold numbered. split.
  - intros H. split; [intros i g Hi; apply H; by apply lookup_app_l_Some|].
    apply H. by apply list_lookup_middle.
  - intros [H1 H2] i g [Hi|[Hi Hg]]%lookup_app_Some; [by apply H1|].
    apply list_lookup_singleton_Some in Hg as [Hi0 <-]. rewrite H2. do 2 f_equal. lia.
Qed.

Lemma fields_ok_snoc fields f :
  fields_ok (fields ++ [f]) ↔
  fields_ok fields ∧ isValidFieldName (fd_name f) = true ∧ fd_name f ∉ fd_name <$> fields ∧
  fd_id f = bigint_toString 10 (Z.of_nat (length fields)) ∧ (length (fields ++ [f]) ≤ MAX_FIELDS)%nat.
Proof.
  unfold fields_ok. rewrite fmap_app, NoDup_app, Forall_app, Forall_singleton, numbered_snoc, length_app.
  cbn [fmap list_fmap]. split.
  - intros ((H1 & H2 & H3) & [H4 H5] & [H6 H7] & H8). cbn [length] in *. split_and!; try done; [lia|].
    intros Hi. apply (H2 _ Hi). by left.
  - intros ((H1 & H2 & H3 & H4) & H5 & H6 & H7 & H8). split_and!; try done.
    + intros x Hx Hy%list_elem_of_singleton. by subst.
    + apply NoDup_singleton.
Qed.

Lemma parse_segment_ok fields segment fields' :
  parse_segment fields segment = Ok fields' → fields_ok fields → fields_ok fields' ∧ fields' ≠ [].
Proof.
  unfold parse_segment. intros H Hf. destruct (String.eqb _ _); [done|].
  destruct (cut_at _ _) as [[before after]|]; [|done].
  destruct (type_of_name (trim before)) as [t|]; [|done]. destruct (negb (all_chars _ _)); [done|].
  destruct (isValidFieldName (trim after)) eqn:Hv; [|done]. cbn [negb] in H.
  destruct (existsb _ _) eqn:He; [done|].
  destruct (Nat.ltb_spec MAX_FIELDS (length (fields ++ [mkField (bigint_toString 10 (Z.of_nat (length fields))) (trim after) t]))) as [|Hl]; [done|].
  apply Ok_inj in H as <-. split; [|by destruct fields].
  apply fields_ok_snoc. split_and!; try done. intros Hin%existsb_names. cbn [fd_name] in Hin. by rewrite He in Hin.
Qed.

Lemma parse_segments_ok segments fields fields' :
  parse_segments fields segments = Ok fields' → fields_ok fields →
  fields_ok fields' ∧ (fields' = [] → segments = []).
Proof.
  revert fields. induction segments as [|s segments IH]; intros fields H Hf; cbn [parse_segments] in H.
  { by apply Ok_inj in H as <-. }
  apply bind_ok in H as (fs & H1 & H). destruct (parse_segment_ok _ _ _ H1 Hf) as [Hfs Hne].
  destruct (IH _ H Hfs) as [H2 H3]. split; [done|]. intros ->. specialize (H3 eq_refl) as ->.
  cbn in H. by apply Ok_inj in H.
Qed.

Lemma fields_ok_nil : fields_ok [].
Proof. split_and!; [constructor|constructor|by intros i f|cbn; lia]. Qed.

Lemma parseFieldDefinitions_ok s fields :
  parseFieldDefinitions s = Ok fields →
  fields_ok fields ∧ fields ≠ [] ∧ slen (fieldDefsToCanonicalString fields) <= 256.
Proof.
  unfold parseFieldDefinitions. destruct (String.eqb _ _); [done|]. intros (fs & Hp & H)%bind_ok.
  destruct (Z.ltb_spec 256 (slen (fieldDefsToCanonicalString fs))); [done|]. apply Ok_inj in H as <-.
  destruct (parse_segments_ok _ _ _ Hp fields_ok_nil) as [H1 H2]. split_and!; [done| |done].
  intros ->. by destruct (split_on_nonempty ","%char (trim s) (H2 eq_refl)).
Qed.

(** *** Segments the parser reads back *)
Lemma name_char_props c :
  name_char c = true →
  is_space c = false ∧ Ascii.eqb c " "%char = false ∧ Ascii.eqb c ","%char = false ∧ 48 <= code c < 128.
Proof. by_cases_char c; intros H; try discriminate H; by split_and!. Qed.
Lemma name_start_char c : name_start c = true → name_char c = true.
Proof. unfold name_char. by intros ->. Qed.

Lemma valid_name_chars n : isValidFieldName n = true → n ≠ "" ∧ all_chars name_char n = true ∧ (String.length n ≤ 32)%nat.
Proof.
  unfold isValidFieldName. destruct n as [|c n]; [done|]. intros [[Hl _]%andb_prop H]%andb_prop.
  split_and!; [done|done|]. by apply Nat.leb_le in Hl.
Qed.

Lemma valid_name_no_space n : isValidFieldName n = true → all_chars (λ c, negb (is_space c)) n = true.
Proof.
  intros (_ & H & _)%valid_name_chars. eapply all_chars_impl; [|exact H]. intros c Hc.
  by destruct (name_char_props c Hc) as (-> & _).
Qed.

Lemma trim_segment f : isValidFieldName (fd_name f) = true → trim (segment_of f) = segment_of f.
Proof.
  intros Hv. pose proof (valid_name_no_space _ Hv) as Hs. apply valid_name_chars in Hv as (Hne & _ & _).
  unfold trim, segment_of. rewrite <-string_app_assoc.
  assert (Hts : ∀ x, trimStart ((type_name (fd_type f) +:+ " ") +:+ x) = (type_name (fd_type f) +:+ " ") +:+ x).
  { intros x. by destruct (fd_type f). }
  rewrite Hts. by apply trimEnd_app.
Qed.

Lemma cut_segment f : cut_at " "%char (segment_of f) = Some (type_name (fd_type f), fd_name f).
Proof. unfold segment_of. by destruct (fd_type f). Qed.

Lemma parse_segment_of fields f :
  fields_ok (fields ++ [f]) → parse_segment fields (segment_of f) = Ok (fields ++ [f]).
Proof.
  intros (Hf & Hv & Hn & Hid & Hl)%fields_ok_snoc. unfold parse_segment.
  rewrite (trim_segment f Hv), cut_segment.
  destruct (String.eqb_spec (segment_of f) "") as [E|_]; [unfold segment_of in E; by destruct (fd_type f)|].
  rewrite (trim_id (fd_name f)) by by apply valid_name_no_space.
  rewrite (trim_id (type_name _)), type_of_name_name by by destruct (fd_type f).
  rewrite (all_chars_impl name_char); [|intros c Hc; by destruct (name_char_props c Hc) as (_ & -> & _)|by apply valid_name_chars].
  rewrite Hv. cbn [negb]. destruct (existsb _ _) eqn:He; [by apply existsb_names in He|].
  rewrite <-Hid. destruct f as [id n t]; cbn [fd_id fd_name fd_type] in *.
  destruct (Nat.ltb_spec MAX_FIELDS (length (fields ++ [mkField id n t]))); [lia|done].
Qed.

Lemma parse_segments_of fields rest :
  fields_ok (fields ++ rest) → parse_segments fields (segment_of <$> rest) = Ok (fields ++ rest).
Proof.
  revert fields. induction rest as [|f rest IH]; intros fields H; [by rewrite app_nil_r|].
  cbn [fmap list_fmap parse_segments].
  assert (Hpre : ∀ l, fields_ok ((fields ++ [f]) ++ l) → fields_ok (fields ++ [f])).
  { intros l. induction l as [|g l IHl] using rev_ind; [by rewrite app_nil_r|].
    rewrite app_assoc. by intros [Hl _]%fields_ok_snoc; apply IHl. }
  replace (fields ++ f :: rest) with ((fields ++ [f]) ++ rest) in * by by rewrite <-app_assoc.
  rewrite parse_segment_of by eauto. cbn [mbind res_bind]. by apply IH.
Qed.

Lemma canonical_segments fields :
  Forall (λ f, isValidFieldName (fd_name f) = true) fields →
  fieldDefsToCanonicalString fields = join "," (segment_of <$> fields).
Proof.
  intros Hv. unfold fieldDefsToCanonicalString. f_equal.
  induction Hv as [|f fields Hf _ IH]; [done|]. cbn [List.filter fmap list_fmap].
  rewrite (trim_id (fd_name f)) by by apply valid_name_no_space.
  destruct (String.eqb_spec (fd_name f) "") as [E|_]; [by apply valid_name_chars in Hf as [? _]|].
  cbn [negb fmap list_fmap]. rewrite IH. unfold segment_of at 2.
  by rewrite (trim_id (fd_name f)) by by apply valid_name_no_space.
Qed.

Lemma segment_no_comma f :
  isValidFieldName (fd_name f) = true → all_chars (λ c, negb (Ascii.eqb c ","%char)) (segment_of f) = true.
Proof.
  intros (_ & H & _)%valid_name_chars. unfold segment_of. rewrite all_chars_app.
  cbn [String.append all_chars].
  assert (all_chars (λ c, negb (Ascii.eqb c ","%char)) (fd_name f) = true) as ->.
  { eapply all_chars_impl; [|exact H]. intros c Hc. by destruct (name_char_props c Hc) as (_ & _ & -> & _). }
  by destruct (fd_type f).
Qed.

Lemma trim_join fields :
  fields ≠ [] → Forall (λ f, isValidFieldName (fd_name f) = true) fields →
  trim (join "," (segment_of <$> fields)) = join "," (segment_of <$> fields) ∧
  join "," (segment_of <$> fields) ≠ "".
Proof.
  intros Hne Hv. assert (Hend : ∃ a f, f ∈ fields ∧ join "," (segment_of <$> fields) = a +:+ fd_name f).
  { clear Hv. induction fields as [|f [|g fields] IH]; [done| |].
    - exists (type_name (fd_type f) +:+ " "), f. split; [by left|]. unfold segment_of. by rewrite string_app_assoc.
    - destruct IH as (a & h & Hh & Ha); [done|]. exists (segment_of f +:+ "," +:+ a), h.
      split; [by right|]. cbn [fmap list_fmap join] in *. rewrite Ha. by rewrite !string_app_assoc. }
  assert (Hst : ∃ c s, join "," (segment_of <$> fields) = String c s ∧ is_space c = false).
  { destruct fields as [|f fields]; [done|].
    assert (Hf : ∃ x, join "," (segment_of <$> f :: fields) = segment_of f +:+ x).
    { destruct fields; [exists ""; by rewrite string_app_nil_r|by eexists]. }
    destruct Hf as [x ->]. unfold segment_of. destruct (fd_type f); by eexists _, _. }
  destruct Hst as (c & s & Hst & Hc). split; [|by rewrite Hst]. unfold trim. rewrite Hst.
  cbn [trimStart]. rewrite Hc, <-Hst. clear Hst.
  destruct Hend as (a & f & Hf & ->). rewrite Forall_forall in Hv. specialize (Hv f Hf).
  apply trimEnd_app; [by apply valid_name_chars in Hv as [? _]|by apply valid_name_no_space].
Qed.

(** What [parseFieldDefinitions] accepts has one to sixteen fields with
    distinct valid names, numbered in order; printing it canonically and parsing that
    again gives the same fields, so the canonical text is a fixed point. *)
Theorem field_definitions_roundtrip (text : string) (fields : list FieldDef)
    (Hp : parseFieldDefinitions text = Ok fields) :
  fields_ok fields ∧ fields ≠ [] ∧
  parseFieldDefinitions (fieldDefsToCanonicalString fields) = Ok fields.
Proof.
  destruct (parseFieldDefinitions_ok _ _ Hp) as (Hok & Hne & Hlen). split_and!; [done|done|].
  pose proof Hok as (_ & Hv & _). unfold parseFieldDefinitions.
  rewrite (canonical_segments fields Hv) in *. destruct (trim_join fields Hne Hv) as [Ht Hj].
  rewrite Ht. destruct (String.eqb_spec (join "," (segment_of <$> fields)) "") as [|_]; [done|].
  rewrite split_on_join; [|by destruct fields|apply Forall_fmap; eapply Forall_impl; [exact Hv|apply segment_no_comma]].
  rewrite (parse_segments_of []) by done. cbn [mbind res_bind app].
  rewrite (canonical_segments fields Hv).
  by destruct (Z.ltb_spec 256 (slen (join "," (segment_of <$> fields)))); [lia|].
Qed.

Lemma field_definitions_roundtrip_witness :
  ∃ fields, parseFieldDefinitions "  u8   age ,string nick" = Ok fields ∧
    fieldDefsToCanonicalString fields = "u8 age,string nick" ∧
    parseFieldDefinitions "u8 age,string nick" = Ok fields.
Proof.
  destruct (parseFieldDefinitions "  u8   age ,string nick") as [fields|] eqn:E;
    [|exfalso; vm_compute in E; discriminate E].
  exists fields. split; [done|]. destruct (field_definitions_roundtrip _ _ E) as (_ & _ & H).
  assert (Hc : fieldDefsToCanonicalString fields = "u8 age,string nick").
  { apply Ok_inj in E as <-. by vm_compute. }
  split; [done|]. by rewrite Hc in H.
Defined.

(** ** Schema identifiers separate schemas *)
Definition low (b : byte) : Prop := byte_val b <= 32.
Definition header3 (l : list byte) : Prop := ∃ a b c r, l = a :: b :: c :: r ∧ low a ∧ low b ∧ low c.

Lemma utf8_cons c s : utf8 (String c s) = (to_byte <$> utf8_char c) ++ utf8 s.
Proof. done. Qed.

Lemma utf8_valid_name n :
  all_chars name_char n = true → length (utf8 n) = String.length n ∧ Forall (λ b, ¬ low b) (utf8 n).
Proof.
  induction n as [|c n IH]; [by repeat constructor|]. cbn [all_chars]. intros [Hc Hn]%andb_prop.
  destruct (IH Hn) as [Hl Hf]. destruct (name_char_props c Hc) as (_ & _ & _ & Hr).
  assert (Hu : utf8_char c = [code c]) by (unfold utf8_char; destruct (Z.ltb_spec (code c) 128); [done|lia]).
  rewrite utf8_cons, Hu. cbn [fmap list_fmap app length String.length]. split; [by rewrite Hl|].
  constructor; [|done]. unfold low. rewrite byte_val_to_byte, Z.mod_small; lia.
Qed.

Lemma encode_field_shape f :
  isValidFieldName (fd_name f) = true →
  ∃ t n name, encode_field_def f = t :: n :: name ∧ low t ∧ low n ∧ name ≠ [] ∧ Forall (λ b, ¬ low b) name ∧
    byte_val t = FIELD_TYPE_IDS (fd_type f) ∧ byte_val n = Z.of_nat (length name) ∧ name = utf8 (fd_name f).
Proof.
  intros (Hne & Hc & Hl)%valid_name_chars. destruct (utf8_valid_name _ Hc) as [Hlen Hh].
  eexists _, _, (utf8 (fd_name f)). split; [done|].
  assert (Ht : byte_val (to_byte (FIELD_TYPE_IDS (fd_type f))) = FIELD_TYPE_IDS (fd_type f)) by by destruct (fd_type f).
  assert (Hn : byte_val (to_byte (Z.of_nat (length (utf8 (fd_name f))))) = Z.of_nat (length (utf8 (fd_name f)))).
  { rewrite byte_val_to_byte, Z.mod_small; lia. }
  split_and!; try done.
  - unfold low. rewrite Ht. by destruct (fd_type f).
  - unfold low. lia.
  - intros E. rewrite E in Hlen. by destruct (fd_name f).
Qed.

Lemma no_inner_header fields a b :
  Forall (λ f, isValidFieldName (fd_name f) = true) fields →
  concat (encode_field_def <$> fields) = a ++ b → ¬ header3 b.
Proof.
  intros Hv. revert a b. induction Hv as [|f fields Hf _ IH]; intros a b Heq (x & y & z & r & -> & Hx & Hy & Hz).
  { by destruct a. }
  destruct (encode_field_shape f Hf) as (t & n & name & Hef & _ & _ & Hne & Hh & _).
  cbn [fmap list_fmap concat] in Heq. rewrite Hef in Heq. cbn [app] in Heq.
  destruct name as [|h name]; [done|]. pose proof Hh as Hh'. apply Forall_cons in Hh' as [Hh1 _].
  destruct a as [|a1 [|a2 a]]; cbn [app] in Heq; [by simplify_eq|by simplify_eq|].
  injection Heq as _ _ Heq. change (h :: name ++ ?x) with ((h :: name) ++ x) in Heq.
  apply app_eq_app in Heq as (k & [[H1 H2]|[H1 H2]]).
  - destruct k as [|k0 k]; cbn [app] in H2.
    + apply (IH [] (x :: y :: z :: r)); [by rewrite H2|]. by exists x, y, z, r.
    + injection H2 as -> _. rewrite H1 in Hh. apply Forall_app in Hh as [_ Hh]. by apply Forall_cons in Hh as [? _].
  - apply (IH k (x :: y :: z :: r)); [done|]. by exists x, y, z, r.
Qed.

Lemma canonical_header fields :
  fields_ok fields → fields ≠ [] → header3 (encodeCanonicalFieldDefs fields).
Proof.
  intros (_ & Hv & _ & Hl) Hne. destruct fields as [|f fields]; [done|]. apply Forall_cons in Hv as [Hf _].
  destruct (encode_field_shape f Hf) as (t & n & name & Hef & Ht & Hn & _).
  unfold encodeCanonicalFieldDefs. cbn [fmap list_fmap concat]. rewrite Hef.
  eexists _, t, n, _. split; [done|]. split; [|done].
  unfold low, MAX_FIELDS in *. rewrite byte_val_to_byte, Z.mod_small; lia.
Qed.

Lemma canonical_suffix x1 x2 fields1 fields2 :
  fields_ok fields1 → fields1 ≠ [] → fields_ok fields2 → fields2 ≠ [] →
  x1 ++ encodeCanonicalFieldDefs fields1 = x2 ++ encodeCanonicalFieldDefs fields2 →
  x1 = x2 ∧ encodeCanonicalFieldDefs fields1 = encodeCanonicalFieldDefs fields2.
Proof.
  assert (Hside : ∀ k f1 f2, fields_ok f1 → fields_ok f2 → f2 ≠ [] →
    encodeCanonicalFieldDefs f1 = k ++ encodeCanonicalFieldDefs f2 → k = []).
  { intros [|k0 k] f1 f2 (_ & Hv & _) H2 Hn2 H; [done|]. exfalso.
    injection H as _ H. eapply no_inner_header; [exact Hv|exact H|]. by apply canonical_header. }
  intros H1 N1 H2 N2 Heq. apply app_eq_app in Heq as (k & [[-> Hk]|[-> Hk]]).
  - pose proof (Hside k _ _ H2 H1 N1 Hk) as ->. by rewrite app_nil_r.
  - pose proof (Hside k _ _ H1 H2 N2 Hk) as ->. by rewrite app_nil_r.
Qed.

Lemma field_bytes_inj l1 l2 :
  Forall (λ f, isValidFieldName (fd_name f) = true) l1 → Forall (λ f, isValidFieldName (fd_name f) = true) l2 →
  length l1 = length l2 → concat (encode_field_def <$> l1) = concat (encode_field_def <$> l2) →
  Forall2 (λ f g, fd_name f = fd_name g ∧ fd_type f = fd_type g) l1 l2.
Proof.
  intros V1. revert l2. induction V1 as [|f1 l1 Hf1 _ IH]; intros [|f2 l2] V2 Hl H; try done.
  apply Forall_cons in V2 as [Hf2 V2]. cbn [fmap list_fmap concat] in H.
  destruct (encode_field_shape f1 Hf1) as (t1 & n1 & b1 & E1 & _ & _ & _ & _ & T1 & M1 & U1).
  destruct (encode_field_shape f2 Hf2) as (t2 & n2 & b2 & E2 & _ & _ & _ & _ & T2 & M2 & U2).
  rewrite E1, E2 in H. cbn [app] in H. injection H as -> -> H. apply app_inj_1 in H as [Hb H]; [|lia].
  constructor; [|apply IH; [done|by injection Hl|done]]. split; [apply utf8_inj; congruence|].
  rewrite T1 in T2. by destruct (fd_type f1), (fd_type f2).
Qed.

Lemma canonical_inj fields1 fields2 :
  fields_ok fields1 → fields_ok fields2 →
  encodeCanonicalFieldDefs fields1 = encodeCanonicalFieldDefs fields2 → fields1 = fields2.
Proof.
  intros (_ & V1 & N1 & L1) (_ & V2 & N2 & L2) H. injection H as Hn H.
  apply (f_equal byte_val) in Hn. unfold MAX_FIELDS in *.
  rewrite !byte_val_to_byte, !Z.mod_small in Hn by lia.
  pose proof (field_bytes_inj _ _ V1 V2 ltac:(lia) H) as HF.
  apply list_eq. intros i. rewrite Forall2_lookup in HF. specialize (HF i).
  destruct (fields1 !! i) as [f|] eqn:Q1, (fields2 !! i) as [g|] eqn:Q2; try (by inversion HF).
  inversion HF as [? ? [Hnm Hty]|]; subst. pose proof (N1 _ _ Q1). pose proof (N2 _ _ Q2).
  destruct f, g; simpl in *. by subst.
Qed.

(** Two schemas get the same id only when authority, name, version (as a
    32-bit number) and parsed fields all agree, or the two hashed texts are a SHA-256
    collision: the concatenation of a variable-length name with the rest is not ambiguous. *)
Theorem schema_id_separates (sha256 : list byte → list byte) (auth1 auth2 : list byte)
    (name1 name2 defs1 defs2 : string) (v1 v2 : Z) (id : list byte)
    (Hauth : length auth1 = length auth2)
    (H1 : computeSchemaIdFromBytes sha256 auth1 name1 defs1 v1 = Ok id)
    (H2 : computeSchemaIdFromBytes sha256 auth2 name2 defs2 v2 = Ok id) :
  (auth1 = auth2 ∧ name1 = name2 ∧ v1 mod 2 ^ 32 = v2 mod 2 ^ 32 ∧
   parseFieldDefinitions defs1 = parseFieldDefinitions defs2) ∨
  ∃ x y, x ≠ y ∧ sha256 x = sha256 y.
Proof.
  unfold computeSchemaIdFromBytes in *. apply bind_ok in H1 as (f1 & P1 & E1%Ok_inj), H2 as (f2 & P2 & E2%Ok_inj).
  destruct (parseFieldDefinitions_ok _ _ P1) as (O1 & N1 & _), (parseFieldDefinitions_ok _ _ P2) as (O2 & N2 & _).
  destruct (decide (schema_preimage auth1 name1 v1 f1 = schema_preimage auth2 name2 v2 f2)) as [E|Hne].
  2: { right. by exists (schema_preimage auth1 name1 v1 f1), (schema_preimage auth2 name2 v2 f2); rewrite E1, E2. }
  left. unfold schema_preimage in E. apply app_inj_1 in E as [-> E]; [|done].
  rewrite !(app_assoc (utf8 _)) in E. apply canonical_suffix in E as [E Hf]; [|done..].
  apply app_inj_2 in E as [Hn%utf8_inj Hv]; [|by rewrite !be_bytes_length].
  split_and!; [done|done| |by rewrite P1, P2, (canonical_inj _ _ O1 O2 Hf)].
  apply (f_equal (be_val 0)) in Hv. by rewrite !be_val_be_bytes in Hv.
Qed.

Lemma schema_id_separates_witness :
  ∃ sid, computeSchemaIdFromBytes (λ x, x) [to_byte 1] "kyc" "bool ok" 1 = Ok sid ∧
    computeSchemaIdFromBytes (λ x, x) [to_byte 1] "kyc" " bool  ok " 4294967297 = Ok sid ∧
    parseFieldDefinitions "bool ok" = parseFieldDefinitions " bool  ok ".
Proof.
  destruct (computeSchemaIdFromBytes (λ x, x) [to_byte 1] "kyc" "bool ok" 1) as [sid|] eqn:E1;
    [|exfalso; vm_compute in E1; discriminate E1].
  assert (E2 : computeSchemaIdFromBytes (λ x, x) [to_byte 1] "kyc" " bool  ok " 4294967297 = Ok sid).
  { rewrite <-E1. by vm_compute. }
  exists sid. split; [done|]. split; [exact E2|].
  destruct (schema_id_separates (λ x, x) _ _ _ _ _ _ _ _ sid eq_refl E1 E2) as [(_ & _ & _ & H)|(x & y & Hn & He)];
    [exact H|done].
Defined.

(** [parsePubkeyHex] checks only the length: sixty-four characters that are no
    hexadecimal digits are taken as the all-zero key, and the payload says so. *)
Theorem garbage_pubkey_encodes_zero (hex : string) (Hl : slen hex = 64)
    (Hg : all_chars (λ c, negb (is_hex c) && negb (is_space c)) hex = true) :
  parsePubkeyHex hex = Ok (replicate 32 (to_byte 0)).
Proof.
  assert (Hns : all_chars (λ c, negb (is_space c)) hex = true).
  { eapply all_chars_impl; [|exact Hg]. by intros c [_ ?]%andb_prop. }
  unfold parsePubkeyHex. rewrite trim_id by done.
  assert (Hs : strip_0x_ci hex = hex).
  { unfold strip_0x_ci. destruct hex as [|c h]; [done|]. cbn [all_chars] in Hg. apply andb_prop in Hg as [Hc _].
    destruct (startsWith _ _) eqn:E; [|done]. cbn [toLowerCase map_string startsWith] in E.
    apply andb_prop in E as [E _]. apply Ascii.eqb_eq in E. revert Hc E. by_cases_char c; done. }
  rewrite Hs, Hl. cbn [Z.eqb negb]. f_equal. unfold slen in Hl.
  assert (Hn : String.length hex = (2 * 32)%nat) by lia. clear Hl Hns Hs.
  revert hex Hn Hg. generalize 32%nat as n. induction n as [|n IH]; intros [|c1 [|c2 h]] Hn Hg; cbn [String.length] in Hn; try lia; [done|].
  cbn [all_chars] in Hg. apply andb_prop in Hg as [[H1 S1]%andb_prop [[H2 _]%andb_prop Hg]%andb_prop].
  cbn [parse_hex_pairs replicate]. rewrite (IH h) by (done || lia). f_equal. unfold parse_byte.
  unfold is_hex in H1, H2. destruct (digit_val c1); [done|]. by destruct (digit_val c2).
Qed.

Lemma garbage_pubkey_encodes_zero_witness :
  parsePubkeyHex "zzzzzzzzzzzzzzzzzzzzzzzzzzzzzzzzzzzzzzzzzzzzzzzzzzzzzzzzzzzzzzzz" = Ok (replicate 32 (to_byte 0)).
Proof. apply garbage_pubkey_encodes_zero; by vm_compute. Defined.
