(* ===== verification/SdkWorkerPool.v ===== *)
(** * SDK: the proof worker pool

    [sdk/src/prove/worker-pool.ts], [sdk/src/prove/worker-runtime.ts] and
    [sdk/src/prove/pool-size.ts].  Workers run concurrently: the pool's state changes when
    a job is submitted, when a worker's message arrives and when a worker fails, and a run
    is any sequence of such events.  The proving function itself is a parameter. *)
From stdpp Require Import base tactics list sets strings.
From Stdlib Require Import ZArith Lia.
From S2P Require Import Prelude JsString.
Open Scope list_scope.

(** [Math.max(1, Math.floor(cores) - 1)] for a core count that is a rational number; the
    counts that are not finite are [None]. *)
Definition poolSizeFromCoreCount (cores : option (Z * positive)) : Z :=
  match cores with
  | Some (num, den) => if (num <=? 0)%Z then 1%Z else Z.max 1 (num / Z.pos den - 1)
  | None => 1%Z
  end.

Section pool.
Context {J R : Type} (fullProve : J → res R).

(** [runJob]: what the worker answers to a job. *)
Definition runJob (job : J) : res R :=
  match fullProve job with
  | Ok r => Ok r
  | Err e => Err (JsError (err_message e))
  end.

Fixpoint runSerial (jobs : list J) : res (list R) :=
  match jobs with
  | [] => Ok []
  | job :: rest => r ← fullProve job; rs ← runSerial rest; Ok (r :: rs)
  end.

(** One dispatch of a job to a worker, with its [settled] flag. *)
Record Dispatch : Type := mkDispatch { d_worker : nat; d_job : nat; d_settled : bool }.

(** A worker: its one-shot listeners, as dispatch numbers, and the jobs posted to it that it
    has not answered. *)
Record Worker : Type := mkWorker { w_onMessage : list nat; w_onError : list nat; w_posted : list nat }.

Record WorkerLikePool : Type := mkPool {
  idle : list nat;
  queue : list nat;
  workers : list Worker;
  dispatches : list Dispatch;
  log : list (nat * res R);      (** settled jobs, in the order they settled *)
}.

Definition set_idle_queue (i q : list nat) (p : WorkerLikePool) : WorkerLikePool :=
  mkPool i q (workers p) (dispatches p) (log p).

(** The body of the loop of [pump]: attach the listeners and post the job. *)
Definition dispatch (w j : nat) (p : WorkerLikePool) : WorkerLikePool :=
  let d := length (dispatches p) in
  mkPool (idle p) (queue p)
    (alter (λ k, mkWorker (w_onMessage k ++ [d]) (w_onError k ++ [d]) (w_posted k ++ [j])) w (workers p))
    (dispatches p ++ [mkDispatch w j false]) (log p).

Fixpoint pump_loop (i q : list nat) (p : WorkerLikePool) : WorkerLikePool :=
  match i, q with
  | w :: i', j :: q' => pump_loop i' q' (dispatch w j p)
  | _, _ => set_idle_queue i q p
  end.
Definition pump (p : WorkerLikePool) : WorkerLikePool := pump_loop (idle p) (queue p) p.

Definition new (size : nat) : WorkerLikePool :=
  mkPool (seq 0 size) [] (replicate size (mkWorker [] [] [])) [] [].

Definition exec (j : nat) (p : WorkerLikePool) : WorkerLikePool :=
  pump (set_idle_queue (idle p) (queue p ++ [j]) p).

(** [finish] of dispatch [d], settling its job with [r]. *)
Definition finish (r : res R) (p : WorkerLikePool) (d : nat) : WorkerLikePool :=
  match dispatches p !! d with
  | Some k =>
      if d_settled k then p
      else pump (mkPool (idle p ++ [d_worker k]) (queue p) (workers p)
                   (<[d := mkDispatch (d_worker k) (d_job k) true]> (dispatches p))
                   (log p ++ [(d_job k, r)]))
  | None => p
  end.

(** A message of worker [w]: its one-shot message listeners run. *)
Definition message (w : nat) (r : res R) (p : WorkerLikePool) : WorkerLikePool :=
  match workers p !! w with
  | Some k =>
      foldl (finish r)
        (mkPool (idle p) (queue p) (<[w := mkWorker [] (w_onError k) (tail (w_posted k))]> (workers p))
           (dispatches p) (log p)) (w_onMessage k)
  | None => p
  end.

(** An uncaught error of worker [w]: its error listeners run, and it answers no more. *)
Definition error (w : nat) (e : jserr) (p : WorkerLikePool) : WorkerLikePool :=
  match workers p !! w with
  | Some k =>
      foldl (finish (Err e))
        (mkPool (idle p) (queue p) (<[w := mkWorker (w_onMessage k) [] []]> (workers p))
           (dispatches p) (log p)) (w_onError k)
  | None => p
  end.

Definition exec_all (n size : nat) : WorkerLikePool := foldl (λ p j, exec j p) (new size) (seq 0 n).

(** Worker [w] answers the job it was posted first. *)
Definition answer (jobs : list J) (p : WorkerLikePool) (w : nat) : option WorkerLikePool :=
  match workers p !! w with
  | Some k =>
      match w_posted k with
      | j :: _ => match jobs !! j with Some job => Some (message w (runJob job) p) | None => None end
      | [] => None
      end
  | None => None
  end.

Fixpoint run (jobs : list J) (schedule : list nat) (p : WorkerLikePool) : option WorkerLikePool :=
  match schedule with
  | [] => Some p
  | w :: rest => p' ← answer jobs p w; run jobs rest p'
  end.

(** [Promise.all]: the first rejection, or all results in the order of the jobs. *)
Fixpoint first_error (l : list (nat * res R)) : option jserr :=
  match l with
  | [] => None
  | (_, Err e) :: _ => Some e
  | (_, Ok _) :: rest => first_error rest
  end.
Definition result_of (l : list (nat * res R)) (j : nat) : option R :=
  match List.find (λ x, Nat.eqb x.1 j) l with Some (_, Ok r) => Some r | _ => None end.
Definition promise_all (n : nat) (l : list (nat * res R)) : option (res (list R)) :=
  match first_error l with
  | Some e => Some (Err e)
  | None => Ok <$> mapM (result_of l) (seq 0 n)
  end.

(** [runProofJobs] over a schedule of the workers; [pool] is [false] or the options, whose
    [transport] decides whether workers are available. *)
Record PoolOptions : Type := mkPoolOpts { po_size : option Z; po_available : bool }.
Definition runProofJobs (defaultSize : Z) (pool : option PoolOptions) (jobs : list J) (schedule : list nat)
  : option (res (list R)) :=
  match jobs with
  | [] => Some (Ok [])
  | _ =>
      match pool with
      | None => Some (runSerial jobs)
      | Some o =>
          if (length jobs =? 1)%nat || negb (po_available o) then Some (runSerial jobs)
          else
            let size := Z.to_nat (Z.max 1 (default defaultSize (po_size o))) in
            p ← run jobs schedule (exec_all (length jobs) size);
            promise_all (length jobs) (log p)
      end
  end.
End pool.

(** ** Invariant *)
Section invariant.
Context {J R : Type}.
Implicit Types p : @WorkerLikePool R.

Definition settled p (d : nat) : Prop := ∃ k, dispatches p !! d = Some k ∧ d_settled k = true.

Definition worker_busy p (w j d : nat) : Prop :=
  (∃ m e, workers p !! w = Some (mkWorker (m ++ [d]) (e ++ [d]) [j]) ∧ Forall (settled p) m ∧ Forall (settled p) e) ∧
  dispatches p !! d = Some (mkDispatch w j false).
Definition worker_idle p (w : nat) : Prop :=
  ∃ m e, workers p !! w = Some (mkWorker m e []) ∧ Forall (settled p) m ∧ Forall (settled p) e.

(** [i] idle workers, [q] queued jobs and the running triples (worker, job, dispatch). *)
Record core (size : nat) (js : list nat) (i q : list nat) (running : list (nat * nat * nat)) p : Prop := {
  co_workers : i ++ ((λ x, x.1.1) <$> running) ≡ₚ seq 0 size;
  co_jobs : q ++ ((λ x, x.1.2) <$> running) ++ (log p).*1 ≡ₚ js;
  co_length : length (workers p) = size;
  co_busy : Forall (λ x, worker_busy p x.1.1 x.1.2 x.2) running;
  co_idle : Forall (worker_idle p) i;
}.

Definition inv (size : nat) (js : list nat) p : Prop :=
  ∃ running, core size js (idle p) (queue p) running p ∧ (idle p = [] ∨ queue p = []).

Lemma settled_app p d w j :
  settled p d → settled (dispatch w j p) d.
Proof. intros (k & Hk & Hs). exists k. split; [|done]. cbn. by apply lookup_app_l_Some. Qed.

Lemma dispatch_core size js w j i q running p :
  core size js (w :: i) (j :: q) running p →
  core size js i q (running ++ [(w, j, length (dispatches p))]) (dispatch w j p).
Proof.
  intros [Hw Hj Hl Hb Hi]. apply Forall_cons in Hi as [Hiw Hi].
  assert (Hnd : NoDup ((w :: i) ++ ((λ x, x.1.1) <$> running))) by (rewrite Hw; apply NoDup_seq).
  cbn [app] in Hnd. apply NoDup_cons in Hnd as [Hnw _].
  assert (Hmono : ∀ l, Forall (settled p) l → Forall (settled (dispatch w j p)) l).
  { intros l Hsl. eapply Forall_impl; [exact Hsl|]. intros d. apply settled_app. }
  split.
  - rewrite fmap_app. cbn [fmap list_fmap fst snd]. rewrite <-Hw. solve_Permutation.
  - rewrite fmap_app. cbn [fmap list_fmap fst snd dispatch log]. rewrite <-Hj. solve_Permutation.
  - cbn. by rewrite length_alter.
  - apply Forall_app. split.
    + rewrite Forall_forall in Hb |- *. intros [[w' j'] d'] Hin. destruct (Hb _ Hin) as [(m & e & Hk & Hm & He) Hd].
      assert (Hne : w' ≠ w).
      { intros ->. apply Hnw, elem_of_app. right. apply list_elem_of_fmap. by exists (w, j', d'). }
      split; [|by apply lookup_app_l_Some]. exists m, e. split_and!; [|by apply Hmono..].
      cbn [dispatch workers fst snd] in *. by rewrite list_lookup_alter_ne.
    + apply Forall_singleton. destruct Hiw as (m & e & Hk & Hm & He). split.
      * exists m, e. split_and!; [|by apply Hmono..]. cbn [dispatch workers fst snd]. by rewrite list_lookup_alter_eq, Hk.
      * cbn. by apply list_lookup_middle.
  - rewrite Forall_forall in Hi |- *. intros w' Hin. destruct (Hi _ Hin) as (m & e & Hk & Hm & He).
    assert (Hne : w' ≠ w) by (intros ->; apply Hnw, elem_of_app; by left).
    exists m, e. split_and!; [|by apply Hmono..]. cbn [dispatch workers]. by rewrite list_lookup_alter_ne.
Qed.

Lemma pump_core size js i q running p :
  core size js i q running p → inv size js (pump_loop i q p) ∧ log (pump_loop i q p) = log p.
Proof.
  revert q running p. induction i as [|w i IH]; intros q running p Hc.
  { split; [|done]. exists running. split; [|by left]. destruct Hc. by split. }
  destruct q as [|j q].
  { split; [|done]. exists running. split; [|by right]. destruct Hc. by split. }
  cbn [pump_loop]. by destruct (IH q _ _ (dispatch_core _ _ _ _ _ _ _ _ Hc)).
Qed.

Lemma finish_stale r p l : Forall (settled p) l → foldl (finish r) p l = p.
Proof.
  induction 1 as [|d l (k & Hk & Hs) _ IH]; [done|]. cbn [foldl]. unfold finish at 2. by rewrite Hk, Hs.
Qed.

(** The state just after dispatch [d] of worker [w] settled, before [pump]. *)
Lemma finish_core size js i q i0 q0 r1 r2 w j d p k0 r :
  core size js i q (r1 ++ (w, j, d) :: r2) p →
  w_posted k0 = [] →
  Forall (λ x, settled p x ∨ x = d) (w_onMessage k0) → Forall (λ x, settled p x ∨ x = d) (w_onError k0) →
  core size js (i ++ [w]) q (r1 ++ r2)
    (mkPool i0 q0 (<[w := k0]> (workers p)) (<[d := mkDispatch w j true]> (dispatches p)) (log p ++ [(j, r)])).
Proof.
  intros [Hw Hj Hl Hb Hi] Hp0 Hm0 He0. set (p' := mkPool _ _ _ _ _).
  apply Forall_app in Hb as [Hb1 Hb2]. apply Forall_cons in Hb2 as [[(m & e & Hk & _ & _) Hd] Hb2]. cbn [fst snd] in Hk, Hd.
  assert (Hdl : (d < length (dispatches p))%nat) by by eapply lookup_lt_Some.
  assert (Hwl : (w < length (workers p))%nat) by by eapply lookup_lt_Some.
  assert (Hset : ∀ x, settled p x ∨ x = d → settled p' x).
  { intros x Hx. unfold settled, p'. cbn [dispatches]. destruct (decide (x = d)) as [->|Hne].
    - eexists. by rewrite list_lookup_insert_eq.
    - destruct Hx as [(k & Hk' & Hs)|]; [|done]. exists k. by rewrite list_lookup_insert_ne. }
  assert (Hsetl : ∀ l, Forall (settled p) l → Forall (settled p') l).
  { intros l Hsl. eapply Forall_impl; [exact Hsl|]. auto. }
  assert (Hnd : NoDup (i ++ ((λ x, x.1.1) <$> r1 ++ (w, j, d) :: r2))) by (rewrite Hw; apply NoDup_seq).
  rewrite fmap_app in Hnd, Hw, Hj. cbn [fmap list_fmap fst snd] in Hnd, Hw, Hj.
  assert (Hnw : w ∉ i ++ ((λ x, x.1.1) <$> r1) ++ ((λ x, x.1.1) <$> r2)).
  { rewrite (assoc_L app), <-Permutation_middle, NoDup_cons in Hnd. rewrite (assoc_L app). by destruct Hnd. }
  assert (Hrest : ∀ x, worker_busy p x.1.1 x.1.2 x.2 → x.1.1 ≠ w → worker_busy p' x.1.1 x.1.2 x.2).
  { intros [[w' j'] d'] [(m' & e' & Hk' & Hm' & He') Hd'] Hne. cbn [fst snd] in *. split.
    - exists m', e'. split_and!; [|by apply Hsetl..]. unfold p'. cbn [workers]. by rewrite list_lookup_insert_ne.
    - unfold p'. cbn [dispatches]. rewrite list_lookup_insert_ne; [done|]. intros <-. rewrite Hd in Hd'. by simplify_eq. }
  split.
  - rewrite fmap_app, <-Hw. solve_Permutation.
  - unfold p'. cbn [log]. rewrite !fmap_app, <-Hj. cbn [fmap list_fmap fst]. solve_Permutation.
  - unfold p'. cbn [workers]. by rewrite length_insert.
  - assert (Hin : ∀ x, x ∈ r1 ++ r2 → x.1.1 ≠ w).
    { intros x Hx <-. apply Hnw. rewrite <-fmap_app. apply elem_of_app. right. apply list_elem_of_fmap. by exists x. }
    pose proof (proj2 (Forall_app _ _ _) (conj Hb1 Hb2)) as Hb. rewrite Forall_forall in Hb |- *.
    intros x Hx. apply Hrest; [by apply Hb|by apply Hin].
  - apply Forall_app. split.
    + rewrite Forall_forall in Hi |- *. intros w' Hin. destruct (Hi _ Hin) as (m' & e' & Hk' & Hm' & He').
      assert (w' ≠ w) by (intros ->; apply Hnw, elem_of_app; by left).
      exists m', e'. split_and!; [|by apply Hsetl..]. unfold p'. cbn [workers]. by rewrite list_lookup_insert_ne.
    + apply Forall_singleton. destruct k0 as [m0 e0 ps]. cbn [w_posted w_onMessage w_onError] in *. subst ps.
      exists m0, e0. unfold p' at 1. cbn [workers]. rewrite list_lookup_insert_eq by done.
      split_and!; [done|eapply Forall_impl; [exact Hm0|done]|eapply Forall_impl; [exact He0|done]].
Qed.

Lemma listeners_inv size js r1 r2 w j d p k0 ls r :
  core size js (idle p) (queue p) (r1 ++ (w, j, d) :: r2) p →
  w_posted k0 = [] →
  Forall (λ x, settled p x ∨ x = d) (w_onMessage k0) → Forall (λ x, settled p x ∨ x = d) (w_onError k0) →
  Forall (settled p) ls →
  let p' := foldl (finish r) (mkPool (idle p) (queue p) (<[w := k0]> (workers p)) (dispatches p) (log p)) (ls ++ [d]) in
  inv size js p' ∧ log p' = log p ++ [(j, r)].
Proof.
  intros Hc Hp0 Hm0 He0 Hls p'. subst p'. rewrite foldl_app.
  rewrite (finish_stale r _ ls) by (eapply Forall_impl; [exact Hls|done]). cbn [foldl]. unfold finish. cbn [dispatches].
  pose proof (co_busy _ _ _ _ _ _ Hc) as Hb. apply Forall_app in Hb as [_ Hb]. apply Forall_cons in Hb as [[_ Hd] _].
  cbn [fst snd] in Hd. rewrite Hd. cbn [d_settled d_worker d_job idle queue workers dispatches log].
  eapply pump_core. by apply finish_core.
Qed.

Lemma new_inv size : inv size [] (@new R size).
Proof.
  exists []. split; [|by right]. split; cbn [idle queue workers log new fmap list_fmap].
  - by rewrite app_nil_r.
  - done.
  - by rewrite length_replicate.
  - constructor.
  - apply Forall_forall. intros w Hw%elem_of_seq. exists [], []. split_and!; [|constructor..].
    apply lookup_replicate_2. lia.
Qed.

Lemma exec_inv size js j p : inv size js p → inv size (js ++ [j]) (exec j p) ∧ log (exec j p) = log p.
Proof.
  intros (running & [Hw Hj Hl Hb Hi] & _). 
  refine (pump_core size (js ++ [j]) _ _ running (set_idle_queue (idle p) (queue p ++ [j]) p) _). split; [done| |done|done|done].
  cbn [log set_idle_queue queue]. rewrite <-Hj. solve_Permutation.
Qed.

Lemma exec_all_inv n size : inv size (seq 0 n) (@exec_all R n size) ∧ log (@exec_all R n size) = [].
Proof.
  unfold exec_all. induction n as [|n IH]; [split; [apply new_inv|done]|].
  rewrite seq_S, foldl_app. cbn [foldl]. destruct IH as [IH1 IH2].
  destruct (exec_inv size (seq 0 n) n _ IH1) as [E1 E2]. split; [exact E1|]. exact (eq_trans E2 IH2).
Qed.

(** Messages and failures keep the invariant and settle exactly the job the worker ran. *)
Lemma message_inv size js w j d p r running :
  core size js (idle p) (queue p) running p → (w, j, d) ∈ running →
  inv size js (message w r p) ∧ log (message w r p) = log p ++ [(j, r)].
Proof.
  intros Hc Hin. apply list_elem_of_split in Hin as (r1 & r2 & ->).
  pose proof (co_busy _ _ _ _ _ _ Hc) as Hb. apply Forall_app in Hb as [_ Hb].
  apply Forall_cons in Hb as [[(m & e & Hk & Hm & He) _] _]. cbn [fst snd] in Hk.
  unfold message. rewrite Hk. cbn [w_onMessage w_onError w_posted tail].
  apply (listeners_inv size js r1 r2); [done|done|constructor| |done].
  apply Forall_app. split; [eapply Forall_impl; [exact He|by left]|apply Forall_singleton; by right].
Qed.

Lemma error_inv size js w j d p err running :
  core size js (idle p) (queue p) running p → (w, j, d) ∈ running →
  inv size js (error w err p) ∧ log (error w err p) = log p ++ [(j, Err err)].
Proof.
  intros Hc Hin. apply list_elem_of_split in Hin as (r1 & r2 & ->).
  pose proof (co_busy _ _ _ _ _ _ Hc) as Hb. apply Forall_app in Hb as [_ Hb].
  apply Forall_cons in Hb as [[(m & e & Hk & Hm & He) _] _]. cbn [fst snd] in Hk.
  unfold error. rewrite Hk. cbn [w_onMessage w_onError w_posted].
  apply (listeners_inv size js r1 r2); [done|done| |constructor|done].
  apply Forall_app. split; [eapply Forall_impl; [exact Hm|by left]|apply Forall_singleton; by right].
Qed.

(** A worker with a posted job is running it. *)
Lemma posted_running size js running p w k j ps :
  core size js (idle p) (queue p) running p → workers p !! w = Some k → w_posted k = j :: ps →
  ps = [] ∧ ∃ d, (w, j, d) ∈ running.
Proof.
  intros [Hw _ Hl Hb Hi] Hk Hp. apply lookup_lt_Some in Hk as Hlt.
  assert (Hin : w ∈ idle p ++ ((λ x, x.1.1) <$> running)) by (rewrite Hw; apply elem_of_seq; lia).
  apply elem_of_app in Hin as [Hin|Hin].
  - rewrite Forall_forall in Hi. destruct (Hi _ Hin) as (m & e & Hk' & _). by simplify_eq.
  - apply list_elem_of_fmap in Hin as ([[w' j'] d] & -> & Hin). rewrite Forall_forall in Hb.
    destruct (Hb _ Hin) as [(m & e & Hk' & _) _]. cbn [fst snd] in *. simplify_eq. cbn in Hp. simplify_eq. eauto.
Qed.
End invariant.

(** ** Runs *)
Section runs.
Context {J R : Type} (fullProve : J → res R) (jobs : list J) (size : nat) (Hsize : (0 < size)%nat).
Abbreviation n := (length jobs).
Implicit Types p : @WorkerLikePool R.

Definition log_ok (p : @WorkerLikePool R) : Prop :=
  Forall (λ x, ∃ job, jobs !! x.1 = Some job ∧ x.2 = runJob fullProve job) (log p).

Lemma answer_inv p p' w :
  inv size (seq 0 n) p → log_ok p → answer fullProve jobs p w = Some p' →
  inv size (seq 0 n) p' ∧ log_ok p' ∧ length (log p') = S (length (log p)).
Proof.
  intros (running & Hc & _) Hlog. unfold answer. destruct (workers p !! w) as [k|] eqn:Hk; [|done].
  destruct (w_posted k) as [|j ps] eqn:Hp; [done|]. destruct (jobs !! j) as [job|] eqn:Hj; [|done]. intros [= <-].
  destruct (posted_running _ _ _ _ _ _ _ _ Hc Hk Hp) as [_ (d & Hin)].
  destruct (message_inv _ _ _ _ _ _ (runJob fullProve job) _ Hc Hin) as [Hi Hl]. split; [done|].
  unfold log_ok. rewrite Hl, length_app. split; [|cbn; lia]. apply Forall_app. split; [done|].
  apply Forall_singleton. by exists job.
Qed.

Lemma run_inv schedule p p' :
  inv size (seq 0 n) p → log_ok p → run fullProve jobs schedule p = Some p' →
  inv size (seq 0 n) p' ∧ log_ok p' ∧ length (log p') = (length schedule + length (log p))%nat.
Proof.
  revert p. induction schedule as [|w schedule IH]; intros p Hi Hl Hr; cbn [run] in Hr; [by simplify_eq|].
  apply bind_Some in Hr as (p1 & Ha & Hr). destruct (answer_inv _ _ _ Hi Hl Ha) as (Hi1 & Hl1 & Hn1).
  destruct (IH _ Hi1 Hl1 Hr) as (Hi2 & Hl2 & Hn2). split_and!; [done|done|]. cbn [length]. lia.
Qed.

Lemma log_length p : inv size (seq 0 n) p → (length (log p) ≤ n)%nat.
Proof.
  intros (running & [_ Hj _ _ _] & _). apply Permutation_length in Hj.
  rewrite !length_app, length_seq, !length_fmap in Hj. lia.
Qed.

(** Work never stops before the last job: some worker still has one to answer. *)
Lemma busy_worker p :
  inv size (seq 0 n) p → (length (log p) < n)%nat → ∃ w, is_Some (answer fullProve jobs p w).
Proof.
  intros (running & [Hw Hj Hl Hb Hi] & Hcons) Hlt. destruct running as [|[[w j] d] running].
  - exfalso. cbn [fmap list_fmap] in *. rewrite app_nil_r in Hw. apply Permutation_length in Hw, Hj.
    rewrite !length_app, length_seq, length_fmap in Hj. rewrite length_seq in Hw.
    destruct Hcons as [E|E]; rewrite E in *; cbn in *; lia.
  - apply Forall_cons in Hb as [[(m & e & Hk & _) _] _]. cbn [fst snd] in Hk. exists w. unfold answer. rewrite Hk. cbn [w_posted].
    assert (Hjn : j ∈ seq 0 n).
    { rewrite <-Hj. apply elem_of_app. right. apply elem_of_app. left. apply list_elem_of_fmap. exists (w, j, d). split; [done|by left]. }
    apply elem_of_seq in Hjn. destruct (lookup_lt_is_Some_2 jobs j) as [job ->]; [lia|]. by eexists.
Qed.

Lemma complete_log p : inv size (seq 0 n) p → length (log p) = n → (log p).*1 ≡ₚ seq 0 n.
Proof.
  intros (running & [_ Hj _ _ _] & _) Hlen. pose proof (Permutation_length Hj) as Hl.
  rewrite !length_app, length_seq, !length_fmap in Hl.
  destruct (queue p); [|cbn in Hl; lia]. destruct running; [|cbn in Hl; lia]. exact Hj.
Qed.

Lemma serial_cases :
  (∃ rs, runSerial fullProve jobs = Ok rs ∧ Forall2 (λ job r, fullProve job = Ok r) jobs rs) ∨
  (∃ e j job e', runSerial fullProve jobs = Err e ∧ jobs !! j = Some job ∧ fullProve job = Err e').
Proof.
  clear size Hsize. induction jobs as [|job rest IH]; [left; by exists []|]. cbn [runSerial].
  destruct (fullProve job) as [r|e] eqn:Hp; cbn [mbind res_bind]; [|right; by exists e, 0%nat, job, e].
  destruct IH as [(rs & -> & Hf)|(e & j & job' & e' & -> & Hj & He)]; cbn [mbind res_bind].
  - left. exists (r :: rs). split; [done|]. by constructor.
  - right. by exists e, (S j), job', e'.
Qed.

Lemma first_error_None (l : list (nat * res R)) : Forall (λ x, is_ok x.2 = true) l → first_error l = None.
Proof. induction 1 as [|[j [r|e]] l Hx _ IH]; [done|exact IH|done]. Qed.
Lemma first_error_Some (l : list (nat * res R)) j e : (j, Err e) ∈ l → ∃ e', first_error l = Some e'.
Proof.
  induction l as [|[j' [r|e']] l IH]; intros Hin; [by apply elem_of_nil in Hin| |by eexists].
  apply elem_of_cons in Hin as [|Hin]; [by simplify_eq|]. by apply IH.
Qed.

Lemma result_of_complete p j job r :
  log_ok p → (log p).*1 ≡ₚ seq 0 n → jobs !! j = Some job → fullProve job = Ok r → result_of (log p) j = Some r.
Proof.
  intros Hl Hperm Hj Hr. unfold result_of, log_ok in *.
  assert (Hin : j ∈ (log p).*1) by (rewrite Hperm; apply elem_of_seq; apply lookup_lt_Some in Hj; lia).
  destruct (List.find (λ x, Nat.eqb x.1 j) (log p)) as [[j' r']|] eqn:Hf.
  - apply find_some in Hf as [Hin' Heq%Nat.eqb_eq]. apply list_elem_of_In in Hin'. cbn [fst] in Heq. subst j'.
    rewrite Forall_forall in Hl. destruct (Hl _ Hin') as (job' & Hj' & Hr'). cbn [fst snd] in *.
    unfold runJob in Hr'. simplify_eq. by rewrite Hr.
  - exfalso. apply list_elem_of_fmap in Hin as ([j' r'] & -> & Hin). apply list_elem_of_In in Hin.
    apply (find_none _ _ Hf) in Hin. cbn in Hin. by rewrite Nat.eqb_refl in Hin.
Qed.

Lemma all_settled p :
  inv size (seq 0 n) p → log_ok p → length (log p) = n →
  ∃ out, promise_all n (log p) = Some out ∧
    match runSerial fullProve jobs with Ok rs => out = Ok rs | Err _ => is_ok out = false end.
Proof.
  intros Hi Hl Hlen. pose proof (complete_log p Hi Hlen) as Hperm. unfold promise_all.
  destruct serial_cases as [(rs & -> & Hf)|(e & j & job & e' & -> & Hj & He)].
  - exists (Ok rs). split; [|done].
    assert (Hnone : first_error (log p) = None).
    { apply first_error_None. unfold log_ok in Hl. rewrite Forall_forall in Hl |- *. intros x Hx.
      destruct (Hl x Hx) as (job & Hj & ->). apply (Forall2_lookup_l _ _ _ _ _ Hf) in Hj as (r & _ & Hr).
      unfold runJob. by rewrite Hr. }
    rewrite Hnone. assert (Hm : mapM (result_of (log p)) (seq 0 n) = Some rs); [|by rewrite Hm].
    apply mapM_Some, Forall2_same_length_lookup. rewrite length_seq. split; [by eapply Forall2_length|].
    intros i x y Hx Hy. apply lookup_seq in Hx as [-> Hx]. rewrite Nat.add_0_l.
    apply (Forall2_lookup_r _ _ _ _ _ Hf) in Hy as (job & Hj & Hr). by eapply result_of_complete.
  - assert (Hin : j ∈ (log p).*1) by (rewrite Hperm; apply elem_of_seq; apply lookup_lt_Some in Hj; lia).
    apply list_elem_of_fmap in Hin as ([j' r'] & -> & Hin). pose proof Hl as Hl'. unfold log_ok in Hl'. rewrite Forall_forall in Hl'.
    destruct (Hl' _ Hin) as (job' & Hj' & Hr'). cbn [fst snd] in *. simplify_eq. unfold runJob in Hin. rewrite He in Hin.
    destruct (first_error_Some _ _ _ Hin) as [e1 ->]. by exists (Err e1).
Qed.
End runs.

(** However the workers interleave, proving a batch in parallel is proving
    it serially: every worker holds at most one job at a time, as long as a job is open
    some worker still has an answer to give, after exactly one answer per job none is
    left, and the batch then resolves to the serial results in the order of the jobs, or
    rejects exactly when serial proving does. *)
Theorem parallel_batch_is_serial {J R : Type} (fullProve : J → res R) (jobs : list J) (defaultSize : Z)
    (o : PoolOptions) (schedule : list nat) (p : WorkerLikePool)
    (Hjobs : (1 < length jobs)%nat) (Ho : po_available o = true)
    (Hrun : run fullProve jobs schedule
      (exec_all (length jobs) (Z.to_nat (Z.max 1 (default defaultSize (po_size o))))) = Some p) :
  (∀ w k, workers p !! w = Some k → (length (w_posted k) ≤ 1)%nat) ∧
  (length schedule ≤ length jobs)%nat ∧
  ((length schedule < length jobs)%nat → ∃ w, is_Some (answer fullProve jobs p w)) ∧
  (length schedule = length jobs →
   ∃ out, runProofJobs fullProve defaultSize (Some o) jobs schedule = Some out ∧
     match runSerial fullProve jobs with Ok rs => out = Ok rs | Err _ => is_ok out = false end).
Proof.
  set (size := Z.to_nat (Z.max 1 (default defaultSize (po_size o)))) in *. assert (Hsize : (0 < size)%nat) by (unfold size; lia).
  destruct (@exec_all_inv R (length jobs) size) as [H0 Hlog0].
  destruct (run_inv fullProve jobs size Hsize schedule _ p H0) as (Hi & Hl & Hn); [unfold log_ok; rewrite Hlog0; constructor|done|].
  rewrite Hlog0 in Hn. cbn [length] in Hn. rewrite Nat.add_0_r in Hn.
  pose proof (log_length jobs size Hsize p Hi) as Hle. split_and!.
  - intros w k Hk. destruct Hi as (running & Hc & _). destruct (w_posted k) as [|j ps] eqn:Hp; [cbn; lia|].
    destruct (posted_running _ _ _ _ _ _ _ _ Hc Hk Hp) as [-> _]. cbn. lia.
  - lia.
  - intros Hlt. apply (busy_worker fullProve jobs size Hsize); [done|lia].
  - intros Hlen. unfold runProofJobs. destruct jobs as [|a [|b rest]] eqn:E; [cbn in Hjobs; lia..|]. rewrite <-E in *.
    destruct (Nat.eqb_spec (length jobs) 1); [lia|]. rewrite Ho. cbn [orb negb]. fold size. rewrite Hrun. cbn [mbind option_bind].
    apply (all_settled fullProve jobs size Hsize p Hi Hl). lia.
Qed.

Lemma parallel_batch_is_serial_witness :
  let prove := λ x : nat, Ok (x * x)%nat in let jobs := [3; 4; 5]%nat in let o := mkPoolOpts (Some 2%Z) true in
  ∃ p, run prove jobs [1; 0; 1]%nat (exec_all 3 2) = Some p ∧
    runProofJobs prove 1%Z (Some o) jobs [1; 0; 1]%nat = Some (Ok [9; 16; 25]%nat).
Proof.
  intros prove jobs o. destruct (run prove jobs [1; 0; 1]%nat (exec_all 3 2)) as [p|] eqn:E;
    [|exfalso; vm_compute in E; discriminate E].
  exists p. split; [done|].
  assert (Hj : (1 < length jobs)%nat) by (vm_compute; lia).
  destruct (parallel_batch_is_serial prove jobs 1%Z o [1; 0; 1]%nat p Hj eq_refl E) as (_ & _ & _ & H).
  destruct (H eq_refl) as (out & Ho & Hs). rewrite Ho. f_equal. exact Hs.
Defined.
