(* ===== verification/SdkPool.v ===== *)
(** * SDK: the privacy-pool prover

    [sdk/src/crypto/notes.ts], [sdk/src/crypto/bytes.ts], [sdk/src/prove/pool.ts],
    [sdk/src/prove/serialize.ts], [sdk/src/services/pool-validation.ts], and the circuit
    [circuits/v3/privacy_pool_withdraw.circom] the witness is built for.  Poseidon,
    Keccak-256, the XDR encoder of addresses and the templates of circomlib are
    parameters. *)
From Stdlib Require Import Ascii.
From stdpp Require Import base tactics list sets strings.
From Stdlib Require Import ZArith Lia.
From S2P Require Import Prelude JsString JsMap Bytes Merkle Json PubValidate RelPayload SdkCodec SdkWorkerPool.
Import NoteCodec.
Open Scope string_scope.
Open Scope list_scope.
Open Scope Z_scope.

Definition POOL_TREE_DEPTH : nat := 20.
Definition BN254_R : Z := 21888242871839275222246405745257275088548364400416034343698204186575808495617.

(** ** Bytes *)
Definition bytesToBigInt (b : list byte) : Z := be_val 0 b.
Definition bigIntToBytes32 (value : Z) : list byte := be_bytes 32 value.
Definition toHex32 (v : Z) : string := "0x" +:+ padStart0 64 (bigint_toString 16 v).

(** ** Notes *)

(** [bytes] are the 31 bytes drawn. *)
Definition randomFieldElement (bytes : list byte) : string :=
  bigint_toString 10 (be_val 0 bytes mod BN254_R).
Record NoteSecrets : Type := mkSecrets { ns_nullifier : string; ns_secret : string }.
Definition newNoteSecrets (draw1 draw2 : list byte) : NoteSecrets :=
  mkSecrets (randomFieldElement draw1) (randomFieldElement draw2).

Fixpoint sum_values (sum : Z) (notes : list PoolNote) : res Z :=
  match notes with
  | [] => Ok sum
  | n :: rest => v ← BigInt (pn_value n); sum_values (sum + v) rest
  end.
Definition unspentTotal (notes : list PoolNote) : res Z :=
  sum_values 0 (List.filter (λ n, negb (pn_spent n)) notes).

Record DerivedDeposit : Type := mkDeposit {
  dd_label : Z;
  dd_precommitment : Z;
  dd_commitment : Z;
  dd_nullifierHash : Z;
}.

(** ** Deposit amounts *)
Definition fractionalDigits (amountXlm : string) : Z :=
  let t := trim amountXlm in
  let unsigned := if startsWith "-" t then drop_string 1 t else t in
  match split_on "."%char unsigned with
  | [] | [_] => 0
  | first :: _ => slen unsigned - slen first - 1
  end.

Definition validateDepositAmount (amountXlm : string) (valueStroops decimals : Z) : res unit :=
  if valueStroops <=? 0 then Err (JsError "non-positive")
  else if BN254_R <=? valueStroops then Err (JsError "exceeds-field-modulus")
  else if decimals <? fractionalDigits amountXlm then Err (JsError "precision")
  else Ok tt.

(** ** Proof bytes *)
Record Groth16ProofLike : Type := mkGroth {
  pi_a : list string;
  pi_b : list (list string);
  pi_c : list string;
}.
Record SerializedProof : Type := mkSerialized { sp_a : list byte; sp_b : list byte; sp_c : list byte }.

(** [BigInt(l[i])] *)
Definition BigInt_at (l : list string) (i : nat) : res Z :=
  s ← ok_or (l !! i) (TypeError "Cannot convert undefined to a BigInt"); BigInt s.

Definition g1_bytes (pt : list string) : res (list byte) :=
  x ← BigInt_at pt 0; y ← BigInt_at pt 1; Ok (bigIntToBytes32 x ++ bigIntToBytes32 y).

(** The pair [(c1, c0)] of one coordinate of the G2 point. *)
Definition g2_pair (pair : list string) : res (list Z) :=
  c1 ← BigInt_at pair 1; c0 ← BigInt_at pair 0; Ok [c1; c0].

Definition serializeGroth16Proof (proof : Groth16ProofLike) : res SerializedProof :=
  a ← g1_bytes (pi_a proof);
  flat ← mapM_res g2_pair (take 2 (pi_b proof));
  if (length (concat flat) <? 4)%nat then Err (TypeError "Cannot mix BigInt and other types")
  else
    c ← g1_bytes (pi_c proof);
    Ok (mkSerialized a (concat (bigIntToBytes32 <$> concat flat)) c).

(** ** The witness *)
Record AspWitnessInclusion : Type := mkInclusion {
  ai_root : string;
  ai_label : string;
  ai_pathElements : list string;
  ai_pathIndices : list string;
}.

(** The circuit's inputs as the decimal strings handed to the prover. *)
Record CircuitInput : Type := mkInput {
  in_withdrawnValue : string;
  in_stateRoot : string;
  in_aspRoot : string;
  in_nullifierHash : string;
  in_newCommitment : string;
  in_context : string;
  in_value : string;
  in_label : string;
  in_nullifier : string;
  in_secret : string;
  in_newNullifier : string;
  in_newSecret : string;
  in_stateSiblings : list string;
  in_stateIndex : list string;
  in_aspSiblings : list string;
  in_aspIndex : list string;
}.

Record Change : Type := mkChange { ch_secrets : NoteSecrets; ch_value : Z }.

Record PoolWithdrawWitness : Type := mkWitness {
  pww_input : CircuitInput;
  pww_withdrawnValue : Z;
  pww_stateRoot : Z;
  pww_aspRoot : Z;
  pww_nullifierHash : Z;
  pww_newCommitment : Z;
  pww_change : Change;
}.

Record WithdrawOpts : Type := mkOpts {
  wo_note : PoolNote;
  wo_recipient : string;
  wo_relayer : string;
  wo_fee : Z;
  wo_scope : Z;
  wo_stateLeaves : list Z;
  wo_depositIndices : list Z;
  wo_withdrawnValue : option Z;
  wo_aspInclusion : option AspWitnessInclusion;
}.

(** [Number(s) === 1], for indices written as integers. *)
Definition Number_is_1 (s : string) : bool :=
  match bigint_of_string s with Some 1 => true | _ => false end.

(** The 32-bit signed value of an operand of a bitwise operator. *)
Definition ToInt32 (x : Z) : Z := (x + 2 ^ 31) mod 2 ^ 32 - 2 ^ 31.
Lemma ToInt32_small x : 0 <= x < 2 ^ 31 → ToInt32 x = x.
Proof. intros H. unfold ToInt32. rewrite Z.mod_small; lia. Qed.

(** [l.indexOf(x)] *)
Fixpoint indexOf (x : Z) (i : Z) (l : list Z) : Z :=
  match l with
  | [] => -1
  | y :: l' => if y =? x then i else indexOf x (i + 1) l'
  end.

Section prover.
Context (poseidon : list Z → Z) (addressXdr : string → res (list byte)) (keccak_256 : list byte → list byte).

Definition deriveDeposit (value scope leafIndex nullifier secret : Z) : DerivedDeposit :=
  let label := hashFields poseidon [scope; leafIndex] in
  let precommitment := hashFields poseidon [nullifier; secret] in
  mkDeposit label precommitment (hashFields poseidon [value; label; precommitment]) (hashFields poseidon [nullifier]).

(** [new PoolMerkleTree(poseidon, leaves)]: the shared tree without its capacity check. *)
Definition PoolMerkleTree (leaves : list Z) : MerkleTree :=
  mkTree POOL_TREE_DEPTH (push_zeros poseidon POOL_TREE_DEPTH 0 [0]) leaves.
Definition poolRoot (t : MerkleTree) : Z := root poseidon t.
(** The operands of [^], [&] and [>>] are taken to 32 bits; a negative position then reads
    past the leaves, and hashing what it finds throws. *)
Definition poolProof (t : MerkleTree) (index : Z) : res (list (Z * Z)) :=
  let cur := ToInt32 index in
  if cur <? 0 then Err (TypeError "Cannot convert undefined to a BigInt")
  else Ok (proofPath poseidon t (mt_depth t) 0 cur).

Definition context_preimage (recipient : string) (withdrawn fee : Z) (relayer : string) (scope : Z)
  : res (list byte) :=
  recXdr ← addressXdr recipient;
  relXdr ← addressXdr relayer;
  Ok (concat [recXdr; be_bytes 16 withdrawn; be_bytes 16 fee; relXdr; be_bytes 8 scope]).
Definition computeWithdrawContext (recipient : string) (withdrawn fee : Z) (relayer : string) (scope : Z)
  : res Z :=
  preimage ← context_preimage recipient withdrawn fee relayer scope;
  Ok (be_val 0 (keccak_256 preimage) mod BN254_R).

(** The loop that folds a path given as strings. *)
Fixpoint replay_path (computed : Z) (elements indices : list string) : res Z :=
  match elements, indices with
  | e :: elements', i :: indices' =>
      sibling ← BigInt e;
      replay_path (if Number_is_1 i then hashFields poseidon [sibling; computed]
                   else hashFields poseidon [computed; sibling]) elements' indices'
  | _, _ => Ok computed
  end.

(** Root, siblings and directions of the association tree. *)
Definition asp_witness (label leafIndex scope : Z) (depositIndices : list Z)
    (aspInclusion : option AspWitnessInclusion) : res (Z * list string * list string) :=
  match aspInclusion with
  | Some inclusion =>
      l ← BigInt (ai_label inclusion);
      if negb (l =? label) then Err (JsError "ASP inclusion proof is for a different label than this note.")
      else if negb (length (ai_pathElements inclusion) =? length (ai_pathIndices inclusion))%nat
      then Err (JsError "ASP inclusion proof is malformed: path/index length mismatch.")
      else
        computed ← replay_path l (ai_pathElements inclusion) (ai_pathIndices inclusion);
        r ← BigInt (ai_root inclusion);
        if negb (computed =? r) then Err (JsError "ASP inclusion proof does not reproduce the root it claims.")
        else Ok (computed, ai_pathElements inclusion, ai_pathIndices inclusion)
  | None =>
      let aspLeafIndex := indexOf leafIndex 0 depositIndices in
      if aspLeafIndex <? 0
      then Err (JsError ("Leaf #" +:+ bigint_toString 10 leafIndex +:+ " is not among the pool's deposits."))
      else
        let aspTree := PoolMerkleTree ((λ i, hashFields poseidon [scope; i]) <$> depositIndices) in
        aspPath ← poolProof aspTree aspLeafIndex;
        Ok (poolRoot aspTree, bigint_toString 10 <$> aspPath.*1, bigint_toString 10 <$> aspPath.*2)
  end.

(** [draws] are the random bytes of the change note. *)
Definition buildPoolWithdrawWitness (draws : list byte * list byte) (opts : WithdrawOpts) : res PoolWithdrawWitness :=
  let note := wo_note opts in
  value ← BigInt (pn_value note);
  let withdrawnValue := default value (wo_withdrawnValue opts) in
  if (withdrawnValue <=? 0) || (value <? withdrawnValue)
  then Err (JsError "withdrawnValue must be greater than zero and no greater than the note value")
  else
  let remainder := value - withdrawnValue in
  leafIndex ← js_BigInt (pn_leafIndex note);
  let label := hashFields poseidon [wo_scope opts; leafIndex] in
  let stateTree := PoolMerkleTree (wo_stateLeaves opts) in
  statePath ← poolProof stateTree leafIndex;
  let onChain := if leafIndex <? 0 then None else wo_stateLeaves opts !! Z.to_nat leafIndex in
  if match onChain with
     | Some c => negb (String.eqb (toLowerCase (toHex32 c)) (toLowerCase (pn_commitment note)))
     | None => false
     end
  then Err (JsError ("Leaf #" +:+ bigint_toString 10 leafIndex +:+ " commitment does not match this note."))
  else
  asp ← asp_witness label leafIndex (wo_scope opts) (wo_depositIndices opts) (wo_aspInclusion opts);
  let '(aspRoot, aspSiblings, aspIndex) := asp in
  let change := newNoteSecrets draws.1 draws.2 in
  newNullifier ← BigInt (ns_nullifier change);
  newSecret ← BigInt (ns_secret change);
  let newPrecommit := hashFields poseidon [newNullifier; newSecret] in
  let newCommitment := hashFields poseidon [remainder; label; newPrecommit] in
  nullifier ← BigInt (pn_nullifier note);
  let nullifierHash := hashFields poseidon [nullifier] in
  context ← computeWithdrawContext (wo_recipient opts) withdrawnValue (wo_fee opts) (wo_relayer opts) (wo_scope opts);
  let s := bigint_toString 10 in
  Ok (mkWitness
        (mkInput (s withdrawnValue) (s (poolRoot stateTree)) (s aspRoot) (s nullifierHash) (s newCommitment)
           (s context) (s value) (s label) (pn_nullifier note) (pn_secret note) (ns_nullifier change)
           (ns_secret change) (s <$> statePath.*1) (s <$> statePath.*2) aspSiblings aspIndex)
        withdrawnValue (poolRoot stateTree) aspRoot nullifierHash newCommitment (mkChange change remainder)).
End prover.

(** ** The circuit *)

(** The templates of circomlib the circuit uses, with what they are documented to do. *)
Class Circomlib : Type := {
  Mux1 : Z → Z → Z → Z;              (** c[0], c[1], selector *)
  Num2Bits : nat → Z → bool;         (** whether the signal decomposes into n bits *)
  LessEqThan : nat → Z → Z → Z;
  Mux1_spec c0 c1 s : (s = 0 → Mux1 c0 c1 s = c0) ∧ (s = 1 → Mux1 c0 c1 s = c1);
  Num2Bits_spec n x : Num2Bits n x = true ↔ 0 <= x < 2 ^ Z.of_nat n;
  LessEqThan_spec n a b : 0 <= a < 2 ^ Z.of_nat n → 0 <= b < 2 ^ Z.of_nat n →
    LessEqThan n a b = if a <=? b then 1 else 0;
}.

(** The signals of the circuit: field elements. *)
Record Signals : Type := mkSignals {
  sg_withdrawnValue : Z;
  sg_stateRoot : Z;
  sg_aspRoot : Z;
  sg_nullifierHash : Z;
  sg_newCommitment : Z;
  sg_context : Z;
  sg_value : Z;
  sg_label : Z;
  sg_nullifier : Z;
  sg_secret : Z;
  sg_newNullifier : Z;
  sg_newSecret : Z;
  sg_stateSiblings : list Z;
  sg_stateIndex : list Z;
  sg_aspSiblings : list Z;
  sg_aspIndex : list Z;
}.

Section circuit.
Context (poseidon : list Z → Z) `{CL : Circomlib}.

Definition fmod (x : Z) : Z := x mod BN254_R.

(** The computed root; [None] when a direction is not binary. *)
Fixpoint MerkleInclusion (leaf : Z) (siblings pathIndices : list Z) : option Z :=
  match siblings, pathIndices with
  | s :: siblings', i :: pathIndices' =>
      if fmod (i * (1 - i)) =? 0
      then MerkleInclusion (poseidon [Mux1 leaf s i; Mux1 s leaf i]) siblings' pathIndices'
      else None
  | _, _ => Some leaf
  end.

Definition PrivacyPoolWithdraw (levels valueBits : nat) (g : Signals) : bool :=
  let commit := poseidon [sg_value g; sg_label g; poseidon [sg_nullifier g; sg_secret g]] in
  let remainder := fmod (sg_value g - sg_withdrawnValue g) in
  forallb (λ l, length l =? levels)%nat
    [sg_stateSiblings g; sg_stateIndex g; sg_aspSiblings g; sg_aspIndex g] &&
  bool_decide (MerkleInclusion commit (sg_stateSiblings g) (sg_stateIndex g) = Some (sg_stateRoot g)) &&
  bool_decide (MerkleInclusion (sg_label g) (sg_aspSiblings g) (sg_aspIndex g) = Some (sg_aspRoot g)) &&
  (poseidon [sg_nullifier g] =? sg_nullifierHash g) &&
  Num2Bits valueBits (sg_value g) && Num2Bits valueBits (sg_withdrawnValue g) &&
  (LessEqThan valueBits (sg_withdrawnValue g) (sg_value g) =? 1) &&
  (poseidon [remainder; sg_label g; poseidon [sg_newNullifier g; sg_newSecret g]] =? sg_newCommitment g).

(** How the prover reads a signal: an integer, reduced into the field. *)
Definition signal (s : string) : res Z := v ← BigInt s; Ok (fmod v).

Definition signals_of (i : CircuitInput) : res Signals :=
  withdrawnValue ← signal (in_withdrawnValue i);
  stateRoot ← signal (in_stateRoot i);
  aspRoot ← signal (in_aspRoot i);
  nullifierHash ← signal (in_nullifierHash i);
  newCommitment ← signal (in_newCommitment i);
  context ← signal (in_context i);
  value ← signal (in_value i);
  label ← signal (in_label i);
  nullifier ← signal (in_nullifier i);
  secret ← signal (in_secret i);
  newNullifier ← signal (in_newNullifier i);
  newSecret ← signal (in_newSecret i);
  stateSiblings ← mapM_res signal (in_stateSiblings i);
  stateIndex ← mapM_res signal (in_stateIndex i);
  aspSiblings ← mapM_res signal (in_aspSiblings i);
  aspIndex ← mapM_res signal (in_aspIndex i);
  Ok (mkSignals withdrawnValue stateRoot aspRoot nullifierHash newCommitment context value label nullifier
        secret newNullifier newSecret stateSiblings stateIndex aspSiblings aspIndex).
End circuit.

(** ** Producing a proof *)
Inductive ProveStage : Type := SWitness | SArtifacts | SProving | SVerifying | SComplete.

Record PoolWithdrawProof : Type := mkPWProof {
  pp_proofA : list byte;
  pp_proofB : list byte;
  pp_proofC : list byte;
  pp_withdrawnValue : Z;
  pp_stateRoot : list byte;
  pp_aspRoot : list byte;
  pp_nullifierHash : list byte;
  pp_newCommitment : list byte;
  pp_change : Change;
}.

Definition finishPoolWithdrawProof (w : PoolWithdrawWitness) (proof : Groth16ProofLike) : res PoolWithdrawProof :=
  p ← serializeGroth16Proof proof;
  Ok (mkPWProof (sp_a p) (sp_b p) (sp_c p) (pww_withdrawnValue w) (bigIntToBytes32 (pww_stateRoot w))
        (bigIntToBytes32 (pww_aspRoot w)) (bigIntToBytes32 (pww_nullifierHash w))
        (bigIntToBytes32 (pww_newCommitment w)) (pww_change w)).

(** snarkjs over circuit artifacts [A] and verification keys [V]. *)
Record SnarkjsLike (A V : Type) : Type := mkSnark {
  fullProve : CircuitInput → A → A → res (Groth16ProofLike * list string);
  verify : option (V → list string → Groth16ProofLike → res bool);
  exportVerificationKey : option (A → res V);
}.
Arguments fullProve {A V}.
Arguments verify {A V}.
Arguments exportVerificationKey {A V}.

(** The stages reported, and how often the abort signal was read. *)
Record ProveState : Type := mkPS { ps_stages : list ProveStage; ps_checks : nat }.

Section prove.
Context (poseidon : list Z → Z) (addressXdr : string → res (list byte)) (keccak_256 : list byte → list byte).
Context {A V : Type} (snarkjs : SnarkjsLike A V) (resolve : string → string → res A).
(** [signal.aborted] at the n-th time it is read *)
Context (aborted : nat → bool).

Definition checkAborted : M ProveState unit := λ s,
  let s' := mkPS (ps_stages s) (S (ps_checks s)) in
  if aborted (ps_checks s) then (Err (JsError "Proof generation was cancelled"), s') else (Ok tt, s').
Definition onProgress (st : ProveStage) : M ProveState unit :=
  modify (λ s, mkPS (ps_stages s ++ [st]) (ps_checks s)).

Definition verify_locally (zkey : A) (result : Groth16ProofLike * list string) : M ProveState unit :=
  match verify snarkjs, exportVerificationKey snarkjs with
  | Some verify, Some exportVerificationKey =>
      onProgress SVerifying;;
      vkey ← lift_res (exportVerificationKey zkey);
      valid ← lift_res (verify vkey result.2 result.1);
      if valid : bool then mret tt else throw (JsError "Locally generated proof failed Groth16 verification")
  | _, _ => mret tt
  end.

Definition provePoolWithdraw (draws : list byte * list byte) (opts : WithdrawOpts) : M ProveState PoolWithdrawProof :=
  checkAborted;; onProgress SWitness;;
  witness ← lift_res (buildPoolWithdrawWitness poseidon addressXdr keccak_256 draws opts);
  checkAborted;; onProgress SArtifacts;;
  wasm ← lift_res (resolve "pool-v3" "wasm");
  zkey ← lift_res (resolve "pool-v3" "zkey");
  checkAborted;; onProgress SProving;;
  result ← lift_res (fullProve snarkjs (pww_input witness) wasm zkey);
  checkAborted;;
  verify_locally zkey result;;
  onProgress SComplete;;
  lift_res (finishPoolWithdrawProof witness result.1).

(** One job of a batch; what it leaves out is filled in from the note. *)
Record BatchJob : Type := mkBatchJob {
  bj_note : PoolNote;
  bj_recipient : string;
  bj_relayer : option string;
  bj_fee : option Z;
  bj_scope : option Z;
  bj_stateLeaves : list Z;
  bj_depositIndices : list Z;
  bj_aspInclusion : option AspWitnessInclusion;
  bj_withdrawnValue : option Z;
}.

(** [BigInt(scope)] of the note's own scope throws for a scope that is no integer. *)
Definition batch_opts (job : BatchJob) : res WithdrawOpts :=
  scope ← match bj_scope job with Some s => Ok s | None => js_BigInt (pn_scope (bj_note job)) end;
  Ok (mkOpts (bj_note job) (bj_recipient job) (default (bj_recipient job) (bj_relayer job)) (default 0 (bj_fee job))
        scope (bj_stateLeaves job) (bj_depositIndices job) (bj_withdrawnValue job) (bj_aspInclusion job)).

Definition batch_witness (x : (list byte * list byte) * BatchJob) : res PoolWithdrawWitness :=
  opts ← batch_opts x.2; buildPoolWithdrawWitness poseidon addressXdr keccak_256 x.1 opts.

(** The checks of the abort signal while the results are collected. *)
Fixpoint finish_all (results : list (PoolWithdrawWitness * Groth16ProofLike)) (checks : nat) : res (list PoolWithdrawProof) :=
  match results with
  | [] => Ok []
  | (w, proof) :: rest =>
      if aborted checks then Err (JsError "Proof generation was cancelled")
      else p ← finishPoolWithdrawProof w proof; ps ← finish_all rest (S checks); Ok (p :: ps)
  end.

(** [schedule] is the order in which the workers answer. *)
Definition provePoolWithdrawBatch (defaultSize : Z) (pool : option PoolOptions) (schedule : list nat)
    (jobs : list ((list byte * list byte) * BatchJob)) : option (res (list PoolWithdrawProof)) :=
  if aborted 0 then Some (Err (JsError "Proof generation was cancelled")) else
  match mapM_res batch_witness jobs with
  | Err e => Some (Err e)
  | Ok witnesses =>
      match resolve "pool-v3" "wasm", resolve "pool-v3" "zkey" with
      | Ok wasm, Ok zkey =>
          r ← runProofJobs (λ w, fullProve snarkjs (pww_input w) wasm zkey) defaultSize pool witnesses schedule;
          Some (results ← r; finish_all (zip witnesses results.*1) 1)
      | Err e, _ | _, Err e => Some (Err e)
      end
  end.
End prove.

(** ** Properties *)
Lemma fmod_range x : 0 <= fmod x < BN254_R.
Proof. apply Z.mod_pos_bound. done. Qed.
Lemma fmod_small x : 0 <= x < BN254_R → fmod x = x.
Proof. apply Z.mod_small. Qed.
Lemma fmod_idemp x : fmod (fmod x) = fmod x.
Proof. by rewrite fmod_small by apply fmod_range. Qed.

Lemma signal_toString v : signal (bigint_toString 10 v) = Ok (fmod v).
Proof. unfold signal. by rewrite BigInt_toString. Qed.
Lemma signal_ok s v : BigInt s = Ok v → signal s = Ok (fmod v).
Proof. unfold signal. by intros ->. Qed.
Lemma signals_toString l : mapM_res signal (bigint_toString 10 <$> l) = Ok (fmod <$> l).
Proof. induction l as [|x l IH]; [done|]. cbn [fmap list_fmap mapM_res]. rewrite signal_toString. cbn. by rewrite IH. Qed.

Section satisfies.
Context (poseidon : list Z → Z) `{CL : !Circomlib}.
Context (Hrange : ∀ l, 0 <= poseidon l < BN254_R) (Hmod : ∀ l, poseidon (fmod <$> l) = poseidon l).

(** Hashing only sees the field elements the integers stand for. *)
Lemma poseidon_cong l l' : fmod <$> l = fmod <$> l' → poseidon l = poseidon l'.
Proof using Hmod. intros E. by rewrite <-(Hmod l), <-(Hmod l'), E. Qed.

Lemma fmod_poseidon l : fmod (poseidon l) = poseidon l.
Proof using Hrange. by apply fmod_small. Qed.

Definition binary (i : Z) : Prop := i = 0 ∨ i = 1.

Lemma inclusion_fold leaf path :
  Forall binary path.*2 →
  MerkleInclusion poseidon leaf (fmod <$> path.*1) (fmod <$> path.*2) = Some (foldPath poseidon leaf path).
Proof using Hmod.
  revert leaf. induction path as [|[s i] path IH]; intros leaf Hb; [done|].
  cbn [fmap list_fmap fst snd] in *. apply Forall_cons in Hb as [Hi Hb]. cbn [MerkleInclusion foldPath].
  assert (Hc : fmod i = i ∧ (fmod (i * (1 - i)) =? 0) = true) by (by destruct Hi as [->| ->]).
  destruct Hc as [-> ->]. rewrite IH by done. do 2 f_equal. destruct (Mux1_spec leaf (fmod s) i) as [L0 L1].
  destruct (Mux1_spec (fmod s) leaf i) as [R0 R1]. destruct Hi as [->| ->].
  - rewrite L0, R0 by done. apply poseidon_cong. cbn. by rewrite fmod_idemp.
  - rewrite L1, R1 by done. apply poseidon_cong. cbn. by rewrite fmod_idemp.
Qed.

Lemma index_bits_binary n cur : Forall binary (index_bits n cur).
Proof.
  revert cur. induction n as [|n IH]; intros cur; cbn [index_bits]; constructor; [|done].
  rewrite land_1. pose proof (Z.mod_pos_bound cur 2). unfold binary. lia.
Qed.

Lemma wf_poolTree leaves : Z.of_nat (length leaves) <= 2 ^ 20 → wf_tree poseidon (PoolMerkleTree poseidon leaves).
Proof.
  intros Hl. split; [|exact Hl]. intros l Hle. cbn [mt_zero mt_depth PoolMerkleTree] in *.
  apply push_zeros_ok; [done| |lia]. intros k Hk. by assert (k = 0%nat) as -> by lia.
Qed.

Lemma pool_proof_at t i : 0 <= i < 2 ^ 31 → poolProof poseidon t i = Ok (proofPath poseidon t (mt_depth t) 0 i).
Proof using. intros Hi. unfold poolProof. rewrite ToInt32_small by done. cbv zeta. destruct (Z.ltb_spec i 0); [lia|done]. Qed.

(** The path of a leaf satisfies the circuit's inclusion check against the tree's root. *)
Lemma tree_inclusion leaves i leaf path :
  Z.of_nat (length leaves) <= 2 ^ 20 → 0 <= i → leaves !! Z.to_nat i = Some leaf →
  poolProof poseidon (PoolMerkleTree poseidon leaves) i = Ok path →
  length path = 20%nat ∧
  MerkleInclusion poseidon leaf (fmod <$> path.*1) (fmod <$> path.*2) = Some (poolRoot poseidon (PoolMerkleTree poseidon leaves)).
Proof using Hmod.
  intros Hl Hi Hleaf. pose proof (lookup_lt_Some _ _ _ Hleaf) as Hlt.
  rewrite pool_proof_at by lia. intros <-%Ok_inj.
  split; [apply proofPath_length|]. rewrite inclusion_fold by (rewrite proofPath_bits; apply index_bits_binary).
  f_equal. pose proof (path_folds_to_root poseidon (PoolMerkleTree poseidon leaves) i (wf_poolTree leaves Hl)) as Hp.
  unfold treeLen in Hp. change (mt_leaves (PoolMerkleTree poseidon leaves)) with leaves in Hp.
  rewrite (nth_lookup_Some _ _ _ _ Hleaf) in Hp. unfold poolRoot. rewrite Hp by lia. done.
Qed.

Lemma replay_inclusion elements indices l c :
  length elements = length indices → Forall (λ s, s = "0" ∨ s = "1") indices →
  replay_path poseidon l elements indices = Ok c →
  ∃ es ds, mapM_res signal elements = Ok es ∧ mapM_res signal indices = Ok ds ∧
    MerkleInclusion poseidon l es ds = Some c.
Proof using Hmod.
  intros Hlen Hb. revert l elements Hlen. induction Hb as [|d indices Hd _ IH]; intros l [|e elements] Hlen Hr; try done.
  { apply Ok_inj in Hr as <-. by exists [], []. }
  cbn [replay_path] in Hr. apply bind_ok in Hr as (sib & Hsib & Hr). injection Hlen as Hlen.
  destruct (IH _ _ Hlen Hr) as (es & ds & He & Hds & Hm).
  assert (Hdv : ∃ i, binary i ∧ signal d = Ok i ∧ Number_is_1 d = (i =? 1)).
  { destruct Hd as [->| ->]; [exists 0|exists 1]; split_and!; (by left) || (by right) || done. }
  destruct Hdv as (i & Hi & Hsig & Hnum). exists (fmod sib :: es), (i :: ds). cbn [mapM_res].
  rewrite (signal_ok _ _ Hsib), He, Hsig, Hds. split_and!; [done|done|]. cbn [MerkleInclusion].
  rewrite Hnum in Hm. destruct (Mux1_spec l (fmod sib) i) as [L0 L1], (Mux1_spec (fmod sib) l i) as [R0 R1].
  assert (Hc : (fmod (i * (1 - i)) =? 0) = true) by (by destruct Hi as [->| ->]). rewrite Hc, <-Hm. f_equal.
  destruct Hi as [->| ->]; [rewrite L0, R0 by done|rewrite L1, R1 by done]; unfold hashFields; cbn [Z.eqb Pos.eqb];
    apply poseidon_cong; cbn; by rewrite fmod_idemp.
Qed.
End satisfies.

Lemma toHex32_lower v : 0 <= v → toLowerCase (toHex32 v) = toHex32 v ∧ BigInt (toHex32 v) = Ok v.
Proof.
  intros Hv. unfold toHex32, bigint_toString. destruct (Z.ltb_spec v 0); [lia|].
  set (t := num_str 16 (num_fuel v) v). destruct (num_fuel_ok v) as [Hf1 Hf2]; [done|].
  assert (Ht : all_chars Hex32.is_lhex t = true)
    by (apply num_str_digits; [lia|exact Hex32.digit_char_lhex|lia]).
  assert (Hne : t ≠ "") by by apply num_str_nonempty.
  assert (Hp : all_chars Hex32.is_lhex (padStart0 64 t) = true ∧ padStart0 64 t ≠ "").
  { unfold padStart0. clear -Ht Hne. induction (64 - String.length t)%nat; [done|]. by destruct IHn. }
  destruct Hp as [Hp Hpn]. split.
  - rewrite toLowerCase_app, (Hex32.toLowerCase_lhex _ Hp). done.
  - unfold BigInt. rewrite bigint_of_0x; [|done|by apply Hex32.lhex_hex].
    rewrite padStart0_val by lia. subst t. rewrite num_str_val by lia. done.
Qed.

Lemma toHex32_inj v w : 0 <= v → 0 <= w → toHex32 v = toHex32 w → v = w.
Proof.
  intros Hv Hw E. destruct (toHex32_lower v Hv) as [_ Bv], (toHex32_lower w Hw) as [_ Bw].
  rewrite E, Bw in Bv. by apply Ok_inj in Bv.
Qed.

Lemma indexOf_spec x l i :
  0 <= i → 0 <= indexOf x i l → i <= indexOf x i l ∧ l !! Z.to_nat (indexOf x i l - i) = Some x.
Proof.
  revert i. induction l as [|y l IH]; intros i Hi H; cbn [indexOf] in *; [lia|].
  destruct (Z.eqb_spec y x) as [->|Hne]; [split; [lia|by rewrite Z.sub_diag]|].
  destruct (IH (i + 1) ltac:(lia) H) as [H1 H2]. split; [lia|].
  replace (Z.to_nat (indexOf x (i + 1) l - i)) with (S (Z.to_nat (indexOf x (i + 1) l - (i + 1)))) by lia. exact H2.
Qed.

(** What the caller knows of the note it spends: it is the deposit recorded at its leaf
    (value, secrets and scope hash to its commitment), its value is a 64-bit integer, and the
    association data is a full-depth path with binary directions or the deposit list. *)
Definition asp_data_ok (opts : WithdrawOpts) : Prop :=
  match wo_aspInclusion opts with
  | Some i => length (ai_pathElements i) = POOL_TREE_DEPTH ∧ Forall (λ s, s = "0" ∨ s = "1") (ai_pathIndices i)
  | None => Z.of_nat (length (wo_depositIndices opts)) <= 2 ^ 20
  end.

Record spendable (poseidon : list Z → Z) (opts : WithdrawOpts) (value i nullifier secret : Z) : Prop := {
  sp_value : BigInt (pn_value (wo_note opts)) = Ok value;
  sp_index : js_BigInt (pn_leafIndex (wo_note opts)) = Ok i;
  sp_nullifier : BigInt (pn_nullifier (wo_note opts)) = Ok nullifier;
  sp_secret : BigInt (pn_secret (wo_note opts)) = Ok secret;
  sp_bits : value < 2 ^ 64;
  sp_commitment : toLowerCase (pn_commitment (wo_note opts)) =
    toHex32 (dd_commitment (deriveDeposit poseidon value (wo_scope opts) i nullifier secret));
  sp_leaf : (0 <= i < Z.of_nat (length (wo_stateLeaves opts))) ∧ Z.of_nat (length (wo_stateLeaves opts)) <= 2 ^ 20;
  sp_leaves : Forall (λ x, 0 <= x) (wo_stateLeaves opts);
  sp_asp : asp_data_ok opts;
}.

Section witness.
Context (poseidon : list Z → Z) `{CL : !Circomlib} (addressXdr : string → res (list byte)) (keccak_256 : list byte → list byte).
Context (Hrange : ∀ l, 0 <= poseidon l < BN254_R) (Hmod : ∀ l, poseidon (fmod <$> l) = poseidon l).

Lemma inclusion_range leaf es ds c :
  0 <= leaf < BN254_R → MerkleInclusion poseidon leaf es ds = Some c → 0 <= c < BN254_R.
Proof using Hrange.
  revert leaf ds. induction es as [|e es IH]; intros leaf [|d ds] Hl Hm; cbn [MerkleInclusion] in Hm; try by simplify_eq.
  destruct (_ =? 0); [|done]. by eapply IH; [apply Hrange|].
Qed.

Lemma asp_inclusion opts i root sibs dirs :
  let label := hashFields poseidon [wo_scope opts; i] in
  asp_data_ok opts →
  asp_witness poseidon label i (wo_scope opts) (wo_depositIndices opts) (wo_aspInclusion opts) = Ok (root, sibs, dirs) →
  ∃ es ds, mapM_res signal sibs = Ok es ∧ mapM_res signal dirs = Ok ds ∧ length es = 20%nat ∧ length ds = 20%nat ∧
    MerkleInclusion poseidon label es ds = Some root.
Proof using Hmod.
  intros label Ha H. unfold asp_data_ok in Ha. unfold asp_witness in H. destruct (wo_aspInclusion opts) as [inc|].
  - destruct Ha as [Hlen Hb]. apply bind_ok in H as (l & Hl & H).
    destruct (Z.eqb_spec l label) as [->|]; [|done]. cbn [negb] in H.
    destruct (Nat.eqb_spec (length (ai_pathElements inc)) (length (ai_pathIndices inc))) as [Hle|]; [|done]. cbn [negb] in H.
    apply bind_ok in H as (c & Hc & H). apply bind_ok in H as (r & Hr & H).
    destruct (Z.eqb_spec c r) as [->|]; [|done]. cbn [negb] in H. apply Ok_inj in H. simplify_eq.
    destruct (replay_inclusion poseidon Hmod _ _ _ _ Hle Hb Hc) as (es & ds & He & Hd & Hm).
    exists es, ds. rewrite (mapM_res_length _ _ _ He), (mapM_res_length _ _ _ Hd). rewrite <-Hle. by split_and!.
  - destruct (Z.ltb_spec (indexOf i 0 (wo_depositIndices opts)) 0) as [|Hi]; [done|].
    apply bind_ok in H as (path & Hp & H). apply Ok_inj in H. simplify_eq.
    destruct (indexOf_spec i (wo_depositIndices opts) 0 ltac:(done) Hi) as [_ Hlk]. rewrite Z.sub_0_r in Hlk.
    eapply tree_inclusion in Hp as [Hlen Hm]; [|exact Hmod|by rewrite length_fmap|done|by rewrite list_lookup_fmap, Hlk].
    exists (fmod <$> path.*1), (fmod <$> path.*2). rewrite !signals_toString, !length_fmap. by split_and!.
Qed.

Lemma satisfied_signals value wv label nullifier secret n' s' ctx sroot aroot nstr sstr nnstr snstr path sibs dirs es ds :
  0 < wv <= value → value < 2 ^ 64 → 0 <= label < BN254_R →
  BigInt nstr = Ok nullifier → BigInt sstr = Ok secret → BigInt nnstr = Ok n' → BigInt snstr = Ok s' →
  length path = 20%nat →
  MerkleInclusion poseidon (poseidon [value; label; poseidon [nullifier; secret]]) (fmod <$> path.*1) (fmod <$> path.*2) = Some sroot →
  mapM_res signal sibs = Ok es → mapM_res signal dirs = Ok ds → length es = 20%nat → length ds = 20%nat →
  MerkleInclusion poseidon label es ds = Some aroot →
  let s := bigint_toString 10 in
  ∃ g, signals_of (mkInput (s wv) (s sroot) (s aroot) (s (poseidon [nullifier]))
         (s (poseidon [value - wv; label; poseidon [n'; s']])) (s ctx) (s value) (s label) nstr sstr nnstr snstr
         (s <$> path.*1) (s <$> path.*2) sibs dirs) = Ok g ∧
    PrivacyPoolWithdraw poseidon POOL_TREE_DEPTH 64 g = true.
Proof using Hrange Hmod.
  intros Hwv Hbits Hlab Bn Bs Bnn Bsn Hplen Hinc He Hd Hel Hdl Hainc s. unfold signals_of.
  assert (Hr : 2 ^ 64 < BN254_R) by done.
  pose proof (inclusion_range _ _ _ _ (Hrange _) Hinc) as Hsr. pose proof (inclusion_range _ _ _ _ Hlab Hainc) as Har.
  subst s. cbn [in_withdrawnValue in_stateRoot in_aspRoot in_nullifierHash in_newCommitment in_context in_value in_label
    in_nullifier in_secret in_newNullifier in_newSecret in_stateSiblings in_stateIndex in_aspSiblings in_aspIndex].
  rewrite !signal_toString, !signals_toString, (signal_ok _ _ Bn), (signal_ok _ _ Bs), (signal_ok _ _ Bnn), (signal_ok _ _ Bsn), He, Hd.
  cbn [mbind res_bind]. eexists. split; [reflexivity|]. unfold PrivacyPoolWithdraw.
  cbn [sg_withdrawnValue sg_stateRoot sg_aspRoot sg_nullifierHash sg_newCommitment sg_value sg_label sg_nullifier
    sg_secret sg_newNullifier sg_newSecret sg_stateSiblings sg_stateIndex sg_aspSiblings sg_aspIndex].
  rewrite (fmod_small wv), (fmod_small value), (fmod_small label), (fmod_small sroot), (fmod_small aroot),
    !(fmod_poseidon poseidon Hrange), (fmod_small (value - wv)) by lia.
  rewrite (poseidon_cong poseidon Hmod [fmod nullifier; fmod secret] [nullifier; secret]) by (cbn; by rewrite !fmod_idemp).
  rewrite (poseidon_cong poseidon Hmod [fmod n'; fmod s'] [n'; s']) by (cbn; by rewrite !fmod_idemp).
  rewrite (poseidon_cong poseidon Hmod [fmod nullifier] [nullifier]) by (cbn; by rewrite !fmod_idemp).
  cbn [forallb]. rewrite !length_fmap, Hplen, Hel, Hdl, !bool_decide_true, !Z.eqb_refl by done.
  rewrite (proj2 (Num2Bits_spec 64 value)), (proj2 (Num2Bits_spec 64 wv)), LessEqThan_spec by (change (Z.of_nat 64) with 64; lia).
  destruct (Z.leb_spec wv value); [done|lia].
Qed.

Lemma witness_satisfies draws opts w value i nullifier secret :
  buildPoolWithdrawWitness poseidon addressXdr keccak_256 draws opts = Ok w →
  spendable poseidon opts value i nullifier secret →
  pww_withdrawnValue w = default value (wo_withdrawnValue opts) ∧
  0 < pww_withdrawnValue w ∧ 0 <= ch_value (pww_change w) ∧
  value = pww_withdrawnValue w + ch_value (pww_change w) ∧
  (∃ g, signals_of (pww_input w) = Ok g ∧ PrivacyPoolWithdraw poseidon POOL_TREE_DEPTH 64 g = true) ∧
  ∃ n' s', BigInt (ns_nullifier (ch_secrets (pww_change w))) = Ok n' ∧
    BigInt (ns_secret (ch_secrets (pww_change w))) = Ok s' ∧
    pww_newCommitment w = dd_commitment (deriveDeposit poseidon (ch_value (pww_change w)) (wo_scope opts) i n' s').
Proof using Hrange Hmod.
  intros Hw Hn. destruct Hn as [Hv Hi Hnl Hs Hbits Hc [Hlt Hcap] Hpos Hasp]. unfold buildPoolWithdrawWitness in Hw.
  rewrite Hv in Hw. cbn [mbind res_bind] in Hw. set (wv := default value (wo_withdrawnValue opts)) in *.
  destruct (Z.leb_spec wv 0), (Z.ltb_spec value wv); try done. cbn [orb] in Hw.
  rewrite Hi in Hw. cbn [mbind res_bind] in Hw. apply bind_ok in Hw as (path & Hp & Hw).
  destruct Hlt as [Hi0 Hlt]. destruct (Z.ltb_spec i 0) as [|_]; [lia|].
  destruct (wo_stateLeaves opts !! Z.to_nat i) as [leaf|] eqn:Hleaf; [|apply lookup_ge_None in Hleaf; lia].
  assert (Hl0 : 0 <= leaf) by by eapply Forall_lookup_1.
  destruct (String.eqb_spec (toLowerCase (toHex32 leaf)) (toLowerCase (pn_commitment (wo_note opts)))) as [Heq|]; [|done].
  rewrite (proj1 (toHex32_lower leaf Hl0)), Hc in Heq. apply toHex32_inj in Heq; [|done|apply Hrange].
  cbn [negb] in Hw. apply bind_ok in Hw as ([[aroot sibs] dirs] & Ha & Hw).
  apply bind_ok in Hw as (nn & Hnn & Hw). apply bind_ok in Hw as (sn & Hsn & Hw). rewrite Hnl in Hw. cbn [mbind res_bind] in Hw.
  apply bind_ok in Hw as (ctx & Hctx & Hw). apply Ok_inj in Hw as <-.
  cbn [pww_withdrawnValue pww_change ch_value ch_secrets pww_input pww_newCommitment].
  split_and!; [done|lia|lia|lia| |by exists nn, sn].
  destruct (tree_inclusion poseidon Hmod _ _ _ _ Hcap Hi0 Hleaf Hp) as [Hplen Hinc].
  destruct (asp_inclusion opts i aroot sibs dirs Hasp Ha) as (es & ds & He & Hd & Hel & Hdl & Hainc).
  subst leaf. eapply (satisfied_signals value wv); eauto.
Qed.

(** C9 (functional): For a note that is the deposit recorded at its leaf, the witness built
    for it, full or partial, satisfies every constraint of the withdrawal circuit; the
    value withdrawn and the change add up to the note, and the change commitment is the
    deposit derived from the secrets handed back. *)
Theorem withdraw_witness_satisfies_circuit draws opts w value i nullifier secret
    (Hw : buildPoolWithdrawWitness poseidon addressXdr keccak_256 draws opts = Ok w)
    (Hn : spendable poseidon opts value i nullifier secret) :
  0 < pww_withdrawnValue w ∧ 0 <= ch_value (pww_change w) ∧
  value = pww_withdrawnValue w + ch_value (pww_change w) ∧
  (∃ g, signals_of (pww_input w) = Ok g ∧ PrivacyPoolWithdraw poseidon POOL_TREE_DEPTH 64 g = true) ∧
  ∃ n' s', BigInt (ns_nullifier (ch_secrets (pww_change w))) = Ok n' ∧
    BigInt (ns_secret (ch_secrets (pww_change w))) = Ok s' ∧
    pww_newCommitment w = dd_commitment (deriveDeposit poseidon (ch_value (pww_change w)) (wo_scope opts) i n' s').
Proof using Hrange Hmod. by destruct (witness_satisfies _ _ _ _ _ _ _ Hw Hn) as [_ ?]. Qed.

(** A request the prover does not turn down: an amount within the note, encodable
    addresses, the note's own leaf on chain and its deposit in the list. *)
Record requestable (opts : WithdrawOpts) (value i nullifier secret : Z) : Prop := {
  rq_amount : 0 < default value (wo_withdrawnValue opts) <= value;
  rq_recipient : is_ok (addressXdr (wo_recipient opts)) = true;
  rq_relayer : is_ok (addressXdr (wo_relayer opts)) = true;
  rq_leaf : 0 <= i ∧ wo_stateLeaves opts !! Z.to_nat i =
    Some (dd_commitment (deriveDeposit poseidon value (wo_scope opts) i nullifier secret));
  rq_deposit : wo_aspInclusion opts = None ∧ i ∈ wo_depositIndices opts;
}.

Lemma indexOf_elem x l k : 0 <= k → x ∈ l → 0 <= indexOf x k l.
Proof.
  intros Hk Hx. revert k Hk. induction l as [|y l IH]; intros k Hk; [by apply elem_of_nil in Hx|].
  cbn [indexOf]. destruct (Z.eqb_spec y x) as [|Hne]; [done|].
  apply elem_of_cons in Hx as [->|Hx]; [done|]. apply IH; [done|lia].
Qed.

Lemma context_total recipient withdrawn fee relayer scope :
  is_ok (addressXdr recipient) = true → is_ok (addressXdr relayer) = true →
  ∃ c, computeWithdrawContext addressXdr keccak_256 recipient withdrawn fee relayer scope = Ok c.
Proof.
  unfold computeWithdrawContext, context_preimage.
  destruct (addressXdr recipient), (addressXdr relayer); try done. intros _ _. by eexists.
Qed.

Lemma witness_total draws opts value i nullifier secret :
  spendable poseidon opts value i nullifier secret → requestable opts value i nullifier secret →
  ∃ w, buildPoolWithdrawWitness poseidon addressXdr keccak_256 draws opts = Ok w.
Proof using Hrange.
  intros [Hv Hi Hnl Hs _ Hc [Hlt Hcap] _ Hasp] [[Hw1 Hw2] Hrec Hrel [Hi0 Hleaf] [Hinc Hdep]].
  unfold buildPoolWithdrawWitness. rewrite Hv. cbn [mbind res_bind].
  set (wv := default value (wo_withdrawnValue opts)) in *.
  destruct (Z.leb_spec wv 0), (Z.ltb_spec value wv); try lia. cbn [orb].
  rewrite Hi. cbn [mbind res_bind]. rewrite pool_proof_at by lia. cbn [mbind res_bind].
  destruct (Z.ltb_spec i 0) as [|_]; [lia|]. rewrite Hleaf, Hc. set (cm := dd_commitment _) in *. assert (Hcm : 0 <= cm) by apply Hrange.
  rewrite (proj1 (toHex32_lower cm Hcm)), String.eqb_refl. cbn [negb].
  rewrite Hinc. unfold asp_witness. pose proof (indexOf_elem i (wo_depositIndices opts) 0 ltac:(done) Hdep) as Hix.
  destruct (Z.ltb_spec (indexOf i 0 (wo_depositIndices opts)) 0); [lia|].
  destruct (indexOf_spec i (wo_depositIndices opts) 0 ltac:(done) Hix) as [_ Hlk%lookup_lt_Some].
  unfold asp_data_ok in Hasp. rewrite Hinc in Hasp. rewrite pool_proof_at by lia. cbn [mbind res_bind].
  unfold newNoteSecrets, randomFieldElement. cbn [ns_nullifier ns_secret]. rewrite !BigInt_toString, Hnl.
  cbn [mbind res_bind]. destruct (context_total (wo_recipient opts) wv (wo_fee opts) (wo_relayer opts) (wo_scope opts) Hrec Hrel) as [c ->].
  by eexists.
Qed.
End witness.

(** *** Proof bytes *)
Lemma g1_bytes_length pt b : g1_bytes pt = Ok b → length b = 64%nat.
Proof.
  intros (x & _ & (y & _ & <-%Ok_inj)%bind_ok)%bind_ok. unfold bigIntToBytes32. by rewrite length_app, !be_bytes_length.
Qed.

Lemma g2_flat_length l flat : mapM_res g2_pair l = Ok flat → length (concat flat) = (2 * length l)%nat.
Proof.
  revert flat. induction l as [|p l IH]; intros flat H; cbn [mapM_res] in H; [by apply Ok_inj in H as <-|].
  apply bind_ok in H as (y & (c1 & _ & (c0 & _ & <-%Ok_inj)%bind_ok)%bind_ok & (ys & Hys & <-%Ok_inj)%bind_ok).
  cbn [concat app length]. rewrite (IH _ Hys). cbn. lia.
Qed.

Lemma serialize_lengths proof p :
  serializeGroth16Proof proof = Ok p → length (sp_a p) = 64%nat ∧ length (sp_b p) = 128%nat ∧ length (sp_c p) = 64%nat.
Proof.
  intros (a & Ha & (flat & Hf & H)%bind_ok)%bind_ok. apply g2_flat_length in Hf.
  destruct (Nat.ltb_spec (length (concat flat)) 4) as [|Hlen]; [done|]. apply bind_ok in H as (c & Hc & <-%Ok_inj). cbn [sp_a sp_b sp_c].
  split_and!; [by eapply g1_bytes_length| |by eapply g1_bytes_length].
  assert (Hfour : length (concat flat) = 4%nat) by (rewrite length_take in Hf; lia).
  clear -Hfour. by destruct (concat flat) as [|a1 [|a2 [|a3 [|a4 [|]]]]].
Qed.

(** *** The whole prover *)
Definition prove_stages {A V} (snarkjs : SnarkjsLike A V) : list ProveStage :=
  [SWitness; SArtifacts; SProving] ++
  match verify snarkjs, exportVerificationKey snarkjs with Some _, Some _ => [SVerifying] | _, _ => [] end ++ [SComplete].

(** A prover that works: it proves whatever satisfies the circuit, its proofs have
    the shape of Groth16 proofs and pass its own verifier. *)
Record complete_prover (poseidon : list Z → Z) {CL : Circomlib} {A V} (snarkjs : SnarkjsLike A V) (wasm zkey : A) : Prop := {
  cp_proves input g : signals_of input = Ok g → PrivacyPoolWithdraw poseidon POOL_TREE_DEPTH 64 g = true →
    ∃ proof public, fullProve snarkjs input wasm zkey = Ok (proof, public) ∧ is_ok (serializeGroth16Proof proof) = true ∧
      ∀ ver exp, verify snarkjs = Some ver → exportVerificationKey snarkjs = Some exp →
        ∃ vk, exp zkey = Ok vk ∧ ver vk public proof = Ok true;
}.

Section whole.
Context (poseidon : list Z → Z) {CL : Circomlib} (addressXdr : string → res (list byte)) (keccak_256 : list byte → list byte).
Context (Hrange : ∀ l, 0 <= poseidon l < BN254_R) (Hmod : ∀ l, poseidon (fmod <$> l) = poseidon l).
Context {A V : Type} (snarkjs : SnarkjsLike A V) (resolve : string → string → res A).

Lemma checkAborted_run (aborted : nat → bool) s :
  (∀ n, aborted n = false) → checkAborted aborted s = (Ok tt, mkPS (ps_stages s) (S (ps_checks s))).
Proof. intros Ha. unfold checkAborted. by rewrite Ha. Qed.

(** C10 (liveness): A request for a note the pool records, within its value, is proved: with a
    prover that is complete for the circuit, its artifacts at hand and no cancellation,
    [provePoolWithdraw] returns a proof of the contract's byte lengths that passed local
    verification, after reporting its stages in order. *)
Theorem withdrawal_is_proved draws opts value i nullifier secret wasm zkey aborted
    (Hn : spendable poseidon opts value i nullifier secret)
    (Hq : requestable poseidon addressXdr opts value i nullifier secret)
    (Hwasm : resolve "pool-v3" "wasm" = Ok wasm) (Hzkey : resolve "pool-v3" "zkey" = Ok zkey)
    (Hcp : complete_prover poseidon snarkjs wasm zkey) (Hab : ∀ n, aborted n = false) :
  ∃ p s, provePoolWithdraw poseidon addressXdr keccak_256 snarkjs resolve aborted draws opts (mkPS [] 0) = (Ok p, s) ∧
    ps_stages s = prove_stages snarkjs ∧
    pp_withdrawnValue p = default value (wo_withdrawnValue opts) ∧
    pp_withdrawnValue p + ch_value (pp_change p) = value ∧
    length (pp_proofA p) = 64%nat ∧ length (pp_proofB p) = 128%nat ∧ length (pp_proofC p) = 64%nat.
Proof using Hrange Hmod.
  destruct (witness_total poseidon addressXdr keccak_256 Hrange draws opts _ _ _ _ Hn Hq) as [w Hw].
  destruct (witness_satisfies poseidon addressXdr keccak_256 Hrange Hmod draws opts w _ _ _ _ Hw Hn)
    as (Hwv & _ & _ & Hval & (g & Hg & Hsat) & _).
  destruct (cp_proves _ _ _ _ Hcp _ _ Hg Hsat) as (proof & public & Hfp & Hser & Hver).
  destruct (serializeGroth16Proof proof) as [sp|] eqn:Hs; [|done].
  destruct (serialize_lengths _ _ Hs) as (La & Lb & Lc).
  eexists (mkPWProof (sp_a sp) (sp_b sp) (sp_c sp) _ _ _ _ _ (pww_change w)), (mkPS (prove_stages snarkjs) 4).
  split; [|split_and!; [done|exact Hwv|cbn [pp_withdrawnValue pp_change]; symmetry; exact Hval|done..]].
  unfold provePoolWithdraw, prove_stages, verify_locally, checkAborted, onProgress, modify, lift_res, mbind, M_bind.
  cbn [ps_stages ps_checks app]. rewrite !Hab, Hw, Hwasm, Hzkey, Hfp.
  cbn [ps_stages ps_checks app fst snd pww_input]. unfold finishPoolWithdrawProof. rewrite Hs.
  destruct (verify snarkjs) as [ver|] eqn:Ev; [|reflexivity].
  destruct (exportVerificationKey snarkjs) as [exp|] eqn:Ex; [|reflexivity].
  destruct (Hver ver exp eq_refl eq_refl) as (vk & Hvk & Hvv).
  cbn [ps_stages ps_checks app fst snd]. rewrite Hvk, Hvv. reflexivity.
Qed.
End whole.

(** ** The withdrawal context *)

(** Two withdrawals with the same context pay the same recipient the same
    amount with the same fee to the same relayer under the same scope, for amounts in the
    range of their fields, or exhibit a collision of the hash reduced into the field. *)
Theorem context_binds_withdrawal addressXdr keccak_256 rec1 rec2 w1 w2 fee1 fee2 rel1 rel2 sc1 sc2 c
    (Hlaw : address_xdr_law addressXdr)
    (H1 : computeWithdrawContext addressXdr keccak_256 rec1 w1 fee1 rel1 sc1 = Ok c)
    (H2 : computeWithdrawContext addressXdr keccak_256 rec2 w2 fee2 rel2 sc2 = Ok c) :
  (rec1 = rec2 ∧ w1 mod 2 ^ 128 = w2 mod 2 ^ 128 ∧ fee1 mod 2 ^ 128 = fee2 mod 2 ^ 128 ∧ rel1 = rel2 ∧
   sc1 mod 2 ^ 64 = sc2 mod 2 ^ 64) ∨
  ∃ x y, x ≠ y ∧ fmod (be_val 0 (keccak_256 x)) = fmod (be_val 0 (keccak_256 y)).
Proof.
  apply bind_ok in H1 as (p1 & P1 & E1%Ok_inj), H2 as (p2 & P2 & E2%Ok_inj).
  destruct (decide (p1 = p2)) as [->|Hne]; [left|right; exists p1, p2; split; [done|unfold fmod; congruence]].
  apply bind_ok in P1 as (x1 & X1 & (y1 & Y1 & <-%Ok_inj)%bind_ok), P2 as (x2 & X2 & (y2 & Y2 & E%Ok_inj)%bind_ok).
  cbn [concat] in E. symmetry in E. destruct (Hlaw _ _ _ _ _ _ X1 X2 E) as [-> E'].
  apply app_inj_1 in E' as [Hw E']; [|by rewrite !be_bytes_length].
  apply app_inj_1 in E' as [Hf E']; [|by rewrite !be_bytes_length].
  destruct (Hlaw _ _ _ _ _ _ Y1 Y2 E') as [-> E'']. rewrite !app_nil_r in E''.
  apply be_bytes_inj in Hw, Hf, E''. done.
Qed.

Lemma context_binds_withdrawal_witness :
  ∃ c, computeWithdrawContext toy_address (λ b, b) "GREC" 5 1 "GREL" 7 = Ok c ∧
    ((5 + 2 ^ 128) mod 2 ^ 128 = 5 mod 2 ^ 128 ∨
     ∃ x y : list byte, x ≠ y ∧ fmod (be_val 0 x) = fmod (be_val 0 y)).
Proof.
  destruct (computeWithdrawContext toy_address (λ b, b) "GREC" 5 1 "GREL" 7) as [c|] eqn:E1;
    [|exfalso; vm_compute in E1; discriminate E1].
  assert (E2 : computeWithdrawContext toy_address (λ b, b) "GREC" (5 + 2 ^ 128) 1 "GREL" 7 = Ok c) by (rewrite <-E1; by vm_compute).
  exists c. split; [done|].
  destruct (context_binds_withdrawal toy_address (λ b, b) _ _ _ _ _ _ _ _ _ _ c toy_address_law E2 E1) as [(_ & H & _)|H];
    [left; exact H|right; exact H].
Defined.

(** ** A concrete withdrawal *)
Definition toy_circomlib : Circomlib.
Proof.
  refine (Build_Circomlib (λ c0 c1 s, if s =? 0 then c0 else c1) (λ n x, (0 <=? x) && (x <? 2 ^ Z.of_nat n))
    (λ n a b, if a <=? b then 1 else 0) _ _ _).
  - intros c0 c1 s. split; by intros ->.
  - intros n x. rewrite andb_true_iff, Z.leb_le, Z.ltb_lt. done.
  - done.
Defined.
#[local] Existing Instance toy_circomlib.

Definition pool_hash (l : list Z) : Z := foldl (λ acc x, (acc * 131 + fmod x + 7) mod 1000003) 0 l.
Lemma pool_hash_range l : 0 <= pool_hash l < BN254_R.
Proof.
  unfold pool_hash. assert (H : ∀ acc, 0 <= acc < 1000003 →
    0 <= foldl (λ acc x, (acc * 131 + fmod x + 7) mod 1000003) acc l < 1000003).
  { induction l as [|x l IH]; intros acc Ha; cbn [foldl]; [done|]. apply IH, Z.mod_pos_bound. lia. }
  specialize (H 0 ltac:(lia)). unfold BN254_R. lia.
Qed.
Lemma pool_hash_mod l : pool_hash (fmod <$> l) = pool_hash l.
Proof.
  unfold pool_hash. generalize 0 as acc. induction l as [|x l IH]; intros acc; cbn [fmap list_fmap foldl]; [done|].
  rewrite fmod_idemp. apply IH.
Qed.

Definition sample_commitment : Z := dd_commitment (deriveDeposit pool_hash 1000 7 1 11 22).
Definition sample_note : PoolNote :=
  mkNote "testnet" (Some "CPOOL") "1000" (JNum 7) (JNum 1) "11" "22" (toHex32 sample_commitment) false (JNum 0).
Definition sample_withdraw : WithdrawOpts :=
  mkOpts sample_note "GREC" "GREL" 3 7 [5; sample_commitment; 9] [0; 1; 2] (Some 400) None.
Definition sample_draws : list byte * list byte := ([Byte.x2a], [Byte.x2b]).

Lemma sample_spendable : spendable pool_hash sample_withdraw 1000 1 11 22.
Proof. split; try by vm_compute. all: cbn; repeat constructor; vm_compute; by intros. Qed.
Lemma sample_requestable : requestable pool_hash toy_address sample_withdraw 1000 1 11 22.
Proof. split; try by vm_compute. split; [done|]. by apply (bool_decide_unpack _); vm_compute. Qed.

Lemma withdraw_witness_satisfies_circuit_witness :
  ∃ w, buildPoolWithdrawWitness pool_hash toy_address (λ b, b) sample_draws sample_withdraw = Ok w ∧
    1000 = pww_withdrawnValue w + ch_value (pww_change w) ∧
    ∃ g, signals_of (pww_input w) = Ok g ∧ PrivacyPoolWithdraw pool_hash POOL_TREE_DEPTH 64 g = true.
Proof.
  destruct (buildPoolWithdrawWitness pool_hash toy_address (λ b, b) sample_draws sample_withdraw) as [w|] eqn:E;
    [|exfalso; vm_compute in E; discriminate E].
  exists w. split; [done|].
  destruct (withdraw_witness_satisfies_circuit pool_hash toy_address (λ b, b) pool_hash_range pool_hash_mod
    _ _ _ _ _ _ _ E sample_spendable) as (_ & _ & Hv & Hg & _).
  split; [exact Hv|exact Hg].
Defined.

(** A prover that checks the circuit and answers with a fixed proof. *)
Definition toy_groth : Groth16ProofLike := mkGroth ["1"; "2"] [["3"; "4"]; ["5"; "6"]] ["7"; "8"].
Definition toy_snarkjs : SnarkjsLike unit unit :=
  mkSnark unit unit
    (λ input _ _, g ← signals_of input;
       if PrivacyPoolWithdraw pool_hash POOL_TREE_DEPTH 64 g then Ok (toy_groth, []) else Err (JsError "Assert Failed"))
    (Some (λ _ _ _, Ok true)) (Some (λ _, Ok tt)).

Lemma toy_snarkjs_complete : complete_prover pool_hash toy_snarkjs tt tt.
Proof.
  split. intros input g Hg Hsat. exists toy_groth, []. split_and!.
  - unfold toy_snarkjs. cbn [fullProve]. rewrite Hg. cbn [mbind res_bind]. by rewrite Hsat.
  - by vm_compute.
  - intros ver exp [= <-] [= <-]. by exists tt.
Qed.

Lemma withdrawal_is_proved_witness :
  ∃ p s, provePoolWithdraw pool_hash toy_address (λ b, b) toy_snarkjs (λ _ _, Ok tt) (λ _, false) sample_draws
      sample_withdraw (mkPS [] 0) = (Ok p, s) ∧
    ps_stages s = [SWitness; SArtifacts; SProving; SVerifying; SComplete] ∧ pp_withdrawnValue p = 400.
Proof.
  destruct (withdrawal_is_proved pool_hash toy_address (λ b, b) pool_hash_range pool_hash_mod toy_snarkjs (λ _ _, Ok tt)
    sample_draws sample_withdraw 1000 1 11 22 tt tt (λ _, false) sample_spendable sample_requestable eq_refl eq_refl
    toy_snarkjs_complete (λ _, eq_refl)) as (p & s & H1 & H2 & H3 & _).
  exists p, s. split; [exact H1|]. split; [exact H2|exact H3].
Defined.

(** ** The association-set client

    [sdk/src/prove/asp-client.ts].  The HTTP request is a parameter that answers with a
    status and the decoded body; an answer without the fields of a proof is outside the model. *)
Module AspClient.
Record AspInclusionProof : Type := mkAspProof {
  ap_root : string;
  ap_label : string;
  ap_levels : Z;
  ap_pathElements : list string;
  ap_pathIndices : list Z;
}.

Definition ROOT_RE (s : string) : bool :=
  startsWith "0x" s && (slen s =? 66) && all_chars is_hex (drop_string 2 s).
Definition LABEL_RE (s : string) : bool :=
  (1 <=? slen s) && (slen s <=? 78) && all_chars is_dec s.

Section client.
Context (poseidon : list Z → Z).
(** [fetch] of an absolute URL, and [new URL(path, base)] *)
Context (fetch : string → res (Z * AspInclusionProof)) (resolve_url : string → string → string).

Fixpoint fold_path (computed : Z) (elements : list string) (indices : list Z) : res Z :=
  match elements, indices with
  | e :: elements', i :: indices' =>
      sibling ← BigInt e;
      fold_path (if i =? 1 then hashFields poseidon [sibling; computed] else hashFields poseidon [computed; sibling])
        elements' indices'
  | _, _ => Ok computed
  end.

Definition assertAspInclusionMatchesRoot (p : AspInclusionProof) : res unit :=
  if negb (length (ap_pathElements p) =? length (ap_pathIndices p))%nat
  then Err (JsError "ASP inclusion proof is malformed")
  else if negb (Z.of_nat (length (ap_pathElements p)) =? ap_levels p)
  then Err (JsError "ASP inclusion proof covers the wrong number of levels")
  else
    l ← BigInt (ap_label p);
    computed ← fold_path l (ap_pathElements p) (ap_pathIndices p);
    r ← BigInt (ap_root p);
    if negb (computed =? r) then Err (JsError "ASP inclusion proof does not reproduce its root") else Ok tt.

Definition getJson (target : string) : res AspInclusionProof :=
  answer ← fetch target;
  if (200 <=? answer.1) && (answer.1 <=? 299) then Ok answer.2
  else Err (JsError ("ASP returned " +:+ bigint_toString 10 answer.1 +:+ " for " +:+ target)).

(** [encodeURIComponent] leaves the characters of both parts as they are. *)
Definition fetchAspInclusion (baseUrl root label : string) : res AspInclusionProof :=
  if negb (ROOT_RE root) then Err (JsError ("asp root must be a 0x-prefixed 32-byte hex string, got " +:+ root))
  else if negb (LABEL_RE label) then Err (JsError ("asp label must be a decimal field element, got " +:+ label))
  else
    p ← getJson (resolve_url ("inclusion/" +:+ root +:+ "/" +:+ label) baseUrl);
    assertAspInclusionMatchesRoot p;;
    Ok p.
End client.

(** The client checks the path it is served only against the root in the same
    answer, not against the root and label it asked for: any well-formed path for any other
    root and label is returned as the answer to the request. *)
Theorem inclusion_of_other_root_accepted poseidon (answer : AspInclusionProof) resolve_url baseUrl root label
    (Hroot : ROOT_RE root = true) (Hlabel : LABEL_RE label = true)
    (Ha : assertAspInclusionMatchesRoot poseidon answer = Ok tt) :
  fetchAspInclusion poseidon (λ _, Ok (200, answer)) resolve_url baseUrl root label = Ok answer.
Proof.
  unfold fetchAspInclusion, getJson. rewrite Hroot, Hlabel. cbn [negb mbind res_bind fst snd Z.leb Z.compare Pos.compare Pos.compare_cont andb].
  change ((200 <=? 200) && (200 <=? 299)) with true. cbn [mbind res_bind]. by rewrite Ha.
Qed.

Lemma inclusion_of_other_root_accepted_witness :
  let asked := "0x00000000000000000000000000000000000000000000000000000000000000ff" in
  let served := mkAspProof (bigint_toString 10 (pool_hash [9; 5])) "5" 1 ["9"] [1] in
  fetchAspInclusion pool_hash (λ _, Ok (200, served)) (λ p b, b +:+ p) "http://asp/" asked "77" = Ok served.
Proof. intros asked served. apply inclusion_of_other_root_accepted; by vm_compute. Defined.
End AspClient.
