(* ===== verification/SdkGateway.v ===== *)
(** * SDK: the relayer-market client

    [sdk/src/relayer-protocol/gateway.ts] and the signing half of
    [sdk/src/relayer-protocol/messages.ts] (its validators are the relayer's, modelled in
    RelMessages).  HTTP, the registry contract, Ed25519, Keccak-256 and the random
    generator are parameters; a request's requests and pauses are recorded in a log. *)
From Stdlib Require Import Ascii.
From stdpp Require Import base tactics list sets strings.
From Stdlib Require Import ZArith Lia.
From S2P Require Import Prelude JsString JsMap Bytes Json PubValidate RelPayload RelMessages SdkPool.
Import RelayBytes.
Open Scope string_scope.
Open Scope list_scope.
Open Scope Z_scope.

(** ** Signed bids as the SDK checks them *)
Module SdkMessages.
Definition BID_DOMAIN : list byte := utf8 "opaque-relayer-bid-v1".

Section signing.
Context (keccak_256 : list byte → list byte).
Context (verify : string → list byte → list byte → res bool) (sign : list byte → list byte).

Definition bid_preimage (jobId x25519Pk : list byte) : res (list byte) :=
  j ← assertLength jobId 32 "jobId";
  x ← assertLength x25519Pk 32 "x25519Pk";
  Ok (concatBytes [BID_DOMAIN; j; x]).
Definition bidSigningDigest (jobId x25519Pk : list byte) : res (list byte) :=
  p ← bid_preimage jobId x25519Pk; Ok (keccak_256 p).

Definition makeBid (advert : JobAdvert) (publicKey : string) (x25519Pk : list byte)
    (endpoint : option string) (freeStake : option Z) : res RelayerBid :=
  x ← assertLength x25519Pk 32 "x25519Pk";
  j ← hexToBytes (ja_jobId advert);
  digest ← bidSigningDigest j x;
  Ok (mkBidMsg (ja_jobId advert) (ja_chain advert) publicKey (bytesToHex x)
        (bytesToBase64 (sign digest))
        (match endpoint with Some e => JStr e | None => JUndef end)
        (match freeStake with Some f => JStr (bigint_toString 10 f) | None => JUndef end)).

Definition verifyBid (bid : RelayerBid) : bool :=
  catch_false
    (j ← hexToBytes (rb_jobId bid);
     x ← hexToBytes (rb_x25519Pk bid);
     digest ← bidSigningDigest j x;
     s ← base64ToBytes (rb_sig bid);
     verify (rb_operator bid) digest s).
End signing.

(** The SDK and the relayer sign different texts (domain v1 over job and key
    against domain v2 over every field): a bid a relayer node makes is never accepted by
    the SDK, unless Keccak-256 collides, for signatures that verify only what was signed. *)
Theorem relayer_bids_rejected_by_sdk keccak_256 verify sign float_uint32 advert pk x endpoint stake bid
    (Hsig : ∀ d d', verify pk d' (sign d) = Ok true → d' = d)
    (Hb : RelMessages.makeBid keccak_256 sign float_uint32 advert pk x endpoint stake = Ok bid) :
  verifyBid keccak_256 verify bid = false ∨ ∃ b b', b ≠ b' ∧ keccak_256 b = keccak_256 b'.
Proof.
  unfold RelMessages.makeBid in Hb.
  apply bind_ok in Hb as (x' & Hx & Hb). apply assertLength_ok in Hx as [-> Hx].
  apply bind_ok in Hb as (j & Hj & Hb). apply bind_ok in Hb as (d & Hd & <-%Ok_inj).
  destruct (verifyBid _ _ _) eqn:Hv; [right|by left].
  unfold verifyBid in Hv. cbn [rb_jobId rb_x25519Pk rb_sig rb_operator] in Hv.
  rewrite Hj, hexToBytes_bytesToHex, base64ToBytes_bytesToBase64 in Hv. cbn [mbind res_bind] in Hv.
  destruct (bidSigningDigest keccak_256 j x) as [d'|] eqn:Hd'; [|done]. cbn [mbind res_bind] in Hv.
  destruct (verify pk d' (sign d)) as [[]|] eqn:Hok; try done. apply Hsig in Hok as ->.
  apply bind_ok in Hd as (p & Hp & <-%Ok_inj), Hd' as (q & Hq & Heq%Ok_inj).
  exists p, q. split; [|done]. intros <-.
  apply bind_ok in Hp as (? & _ & (? & _ & Hp%Ok_inj)%bind_ok), Hq as (? & _ & (? & _ & Hq%Ok_inj)%bind_ok).
  unfold concatBytes in *. cbn [concat] in *. rewrite <-Hp in Hq.
  apply (app_fixed _ _ _ _ (length BID_DOMAIN)) in Hq as [Hq _]; [|done|done]. vm_compute in Hq. discriminate Hq.
Qed.

Lemma relayer_bids_rejected_by_sdk_witness :
  ∃ bid, RelMessages.makeBid id_hash (λ d, d) (λ _, 0) sample_advert "GOP" sample_pk (Some "https://r") (Some 7) = Ok bid ∧
    verifyBid id_hash (λ _ d s, Ok (bool_decide (d = s))) bid = false.
Proof.
  destruct (RelMessages.makeBid id_hash (λ d, d) (λ _, 0) sample_advert "GOP" sample_pk (Some "https://r") (Some 7))
    as [bid|] eqn:E; [|exfalso; vm_compute in E; discriminate E].
  exists bid. split; [done|].
  assert (Hsig : ∀ d d' : list byte, Ok (bool_decide (d' = d)) = Ok true → d' = d).
  { intros d d' H. apply Ok_inj in H. by apply bool_decide_eq_true in H. }
  destruct (relayer_bids_rejected_by_sdk id_hash (λ _ d s, Ok (bool_decide (d = s))) (λ d, d) (λ _, 0) _ _ _ _ _ bid Hsig E)
    as [H|(b & b' & Hne & Heq)]; [exact H|done].
Defined.
End SdkMessages.

(** ** Requests with failover *)
Definition DEFAULT_RETRIES : Z := 2.

(** How [fetch] or reading the body can fail: an exception of the DOM with its name, a
    [TypeError], or anything else. *)
Inductive Failure : Type :=
  | DomException (name msg : string)
  | FetchTypeError (msg : string)
  | OtherError (msg : string).
Inductive Reply : Type :=
  | Response (status : Z) (body : jval + Failure)
  | Rejected (f : Failure).
(** One attempt: its reply, and the two signals as the error handler sees them. *)
Record Attempt : Type := mkAttempt { at_reply : Reply; at_timedOut : bool; at_callerAborted : bool }.

(** The failure a timeout causes: [AbortSignal.timeout] aborts with a [TimeoutError], the
    fallback's controller with an [AbortError]. *)
Definition timeout_failure (has_AbortSignal_timeout : bool) : Failure :=
  if has_AbortSignal_timeout then DomException "TimeoutError" "The operation was aborted due to timeout"
  else DomException "AbortError" "This operation was aborted".

Definition failure_message (f : Failure) : string :=
  match f with DomException _ m | FetchTypeError m | OtherError m => m end.

Definition isRetryableGatewayStatus (status : Z) : bool :=
  (status =? 408) || (status =? 429) || ((500 <=? status) && (status <=? 599)).

Definition isAbortError (f : Failure) : bool :=
  match f with DomException name _ => String.eqb name "AbortError" | _ => false end.
Definition isNetworkFailure (f : Failure) : bool :=
  isAbortError f || match f with FetchTypeError m => includes "fetch" (toLowerCase m) | _ => false end.

Record Request : Type := mkRequest {
  rq_path : string;
  rq_method : string;
  rq_headers : list (string * string);
  rq_body : option jval;
}.
Record GatewayRequestOptions : Type := mkReqOpts { go_callerAborted : bool; go_gateway : option string }.

Record RelayerGateway : Type := mkGateway { gw_urls : list string; gw_registryId : string; gw_retries : Z }.
Definition newGateway (urls : list string) (registryId : string) (retries : option Z) : res RelayerGateway :=
  if (length urls =? 0)%nat then Err (JsError "RelayerGateway requires at least one gateway URL.")
  else Ok (mkGateway urls registryId (default DEFAULT_RETRIES retries)).

(** The requests sent and the pauses made. *)
Record GwLog : Type := mkLog { gl_requests : list (string * Request); gl_sleeps : list Z }.

Section gateway.
Context (net : nat → string → Request → Attempt).

Definition gateway_for (g : RelayerGateway) (opts : GatewayRequestOptions) (attempt : nat) : string :=
  let own := nth (attempt mod length (gw_urls g))%nat (gw_urls g) "" in
  match go_gateway opts with
  | Some u => if (attempt =? 0)%nat && negb (String.eqb u "") then u else own
  | None => own
  end.

Definition sent (gateway : string) (r : Request) : M GwLog unit :=
  modify (λ l, mkLog (gl_requests l ++ [(gateway, r)]) (gl_sleeps l)).
Definition pause (attempt : nat) : M GwLog unit :=
  modify (λ l, mkLog (gl_requests l) (gl_sleeps l ++ [350 * (Z.of_nat attempt + 1)])).
Definition gateway_error {A} (msg : string) : M GwLog A := throw (JsError msg).

(** The loop, with the number of attempts left. *)
Fixpoint fetch_loop (g : RelayerGateway) (r : Request) (opts : GatewayRequestOptions) (left attempt : nat) : M GwLog jval :=
  match left with
  | O => gateway_error "All gateway(s) failed"
  | S left' =>
      let gateway := gateway_for g opts attempt in
      let a := net attempt gateway r in
      let retry := pause attempt;; fetch_loop g r opts left' (S attempt) in
      let caught f :=
        if isNetworkFailure f then
          if at_callerAborted a && negb (at_timedOut a) then gateway_error "Gateway request aborted by caller"
          else if (0 <? left')%nat then retry
          else gateway_error ("Gateway request failed: " +:+ failure_message f)
        else gateway_error ("Gateway request failed: " +:+ failure_message f) in
      sent gateway r;;
      match at_reply a with
      | Response status body =>
          if (200 <=? status) && (status <=? 299) then
            match body with inl v => mret v | inr f => caught f end
          else if isRetryableGatewayStatus status && (0 <? left')%nat then retry
          else gateway_error ("Relayer gateway returned " +:+ bigint_toString 10 status +:+ " from " +:+ gateway)
      | Rejected f => caught f
      end
  end.

Definition gatewayFetch (g : RelayerGateway) (r : Request) (opts : GatewayRequestOptions) : M GwLog jval :=
  if go_callerAborted opts then gateway_error "Gateway request aborted by caller"
  else fetch_loop g r opts (Z.to_nat (gw_retries g + 1)) 0.
End gateway.

(** ** What a request does *)
Section failover.
Context (net : nat → string → Request → Attempt) (g : RelayerGateway) (r : Request) (opts : GatewayRequestOptions).

Definition attempt_at (i : nat) : Attempt := net i (gateway_for g opts i) r.

(** Failures worth another attempt, and the body of a successful one. *)
Definition transient (a : Attempt) : bool :=
  let network f := isNetworkFailure f && negb (at_callerAborted a && negb (at_timedOut a)) in
  match at_reply a with
  | Response status body =>
      if (200 <=? status) && (status <=? 299) then match body with inl _ => false | inr f => network f end
      else isRetryableGatewayStatus status
  | Rejected f => network f
  end.
Definition success (a : Attempt) : option jval :=
  match at_reply a with
  | Response status (inl v) => if (200 <=? status) && (status <=? 299) then Some v else None
  | _ => None
  end.

Definition requests_of (from n : nat) : list (string * Request) :=
  (λ i, (gateway_for g opts i, r)) <$> seq from n.
Definition pauses_of (from n : nat) : list Z := (λ i, 350 * (Z.of_nat i + 1)) <$> seq from n.

(** The attempt either ends the request or is followed by a pause and the next one. *)
Lemma fetch_step left attempt l :
  let a := attempt_at attempt in
  let l1 := mkLog (gl_requests l ++ [(gateway_for g opts attempt, r)]) (gl_sleeps l) in
  let run := fetch_loop net g r opts (S left) attempt l in
  if transient a && (0 <? left)%nat
  then run = fetch_loop net g r opts left (S attempt) (mkLog (gl_requests l1) (gl_sleeps l ++ [350 * (Z.of_nat attempt + 1)]))
  else run.2 = l1 ∧ match success a with Some v => run.1 = Ok v | None => is_ok run.1 = false end.
Proof.
  intros a l1 run. unfold run. cbn [fetch_loop]. rewrite (M_bind_run (sent _ _) _ _ _ _ eq_refl). fold (attempt_at attempt). fold a.
  unfold transient, success. destruct (at_reply a) as [status [v|f]|f].
  - destruct ((200 <=? status) && (status <=? 299)); [done|].
    destruct (isRetryableGatewayStatus status), (0 <? left)%nat; done.
  - destruct ((200 <=? status) && (status <=? 299)).
    + destruct (isNetworkFailure f), (at_callerAborted a && negb (at_timedOut a)), (0 <? left)%nat; done.
    + destruct (isRetryableGatewayStatus status), (0 <? left)%nat; done.
  - destruct (isNetworkFailure f), (at_callerAborted a && negb (at_timedOut a)), (0 <? left)%nat; done.
Qed.

Lemma fetch_loop_spec left attempt l :
  ∃ k, (k ≤ left)%nat ∧ (∀ i, (i < k)%nat → transient (attempt_at (attempt + i)) = true) ∧
    ((k < left)%nat → transient (attempt_at (attempt + k)) = false) ∧
    let run := fetch_loop net g r opts (S left) attempt l in
    run.2 = mkLog (gl_requests l ++ requests_of attempt (S k)) (gl_sleeps l ++ pauses_of attempt k) ∧
    match success (attempt_at (attempt + k)) with Some v => run.1 = Ok v | None => is_ok run.1 = false end.
Proof.
  revert attempt l. induction left as [|left IH]; intros attempt l.
  - pose proof (fetch_step 0 attempt l) as Hs0. cbn zeta in Hs0. rewrite andb_false_r in Hs0. exists 0%nat. rewrite Nat.add_0_r.
    split_and!; [lia|lia|lia|]. destruct Hs0 as [H1 H2]. unfold pauses_of. cbn [seq fmap list_fmap]. rewrite app_nil_r. done.
  - pose proof (fetch_step (S left) attempt l) as Hs1. cbn zeta in Hs1. rewrite andb_true_r in Hs1.
    destruct (transient (attempt_at attempt)) eqn:Ht.
    + cbn [gl_requests] in Hs1. rewrite Hs1. destruct (IH (S attempt) (mkLog (gl_requests l ++ [(gateway_for g opts attempt, r)])
        (gl_sleeps l ++ [350 * (Z.of_nat attempt + 1)]))) as (k & Hk & Hi & Hn & Hrun).
      exists (S k). split_and!; [lia| | |].
      * intros [|i] Hlt; [by rewrite Nat.add_0_r|]. rewrite Nat.add_succ_r. apply Hi. lia.
      * intros Hlt. rewrite Nat.add_succ_r. apply Hn. lia.
      * destruct Hrun as [H1 H2]. rewrite Nat.add_succ_r. cbn zeta. rewrite H1. split; [|exact H2].
        cbn [gl_requests gl_sleeps]. unfold requests_of, pauses_of. cbn [seq fmap list_fmap]. by rewrite <-!(assoc_L app).
    + exists 0%nat. rewrite Nat.add_0_r. split_and!; [lia|lia|done|]. destruct Hs1 as [H1 H2].
      unfold pauses_of. cbn [seq fmap list_fmap]. rewrite app_nil_r. done.
Qed.

(** A request visits the gateways in turn, one attempt each, until the first
    attempt that is not a transient failure or until [retries] extra attempts are used up:
    it sends at most [retries + 1] requests, pauses 350, 700, ... milliseconds between
    them, and its result is exactly the outcome of its last attempt. *)
Theorem request_fails_over (Hr : 0 <= gw_retries g) (Ha : go_callerAborted opts = false) :
  ∃ k : nat, Z.of_nat k <= gw_retries g ∧
    (∀ i, (i < k)%nat → transient (attempt_at i) = true) ∧
    (Z.of_nat k < gw_retries g → transient (attempt_at k) = false) ∧
    let run := gatewayFetch net g r opts (mkLog [] []) in
    run.2 = mkLog (requests_of 0 (S k)) (pauses_of 0 k) ∧
    match success (attempt_at k) with Some v => run.1 = Ok v | None => is_ok run.1 = false end.
Proof.
  unfold gatewayFetch. rewrite Ha. replace (Z.to_nat (gw_retries g + 1)) with (S (Z.to_nat (gw_retries g))) by lia.
  destruct (fetch_loop_spec (Z.to_nat (gw_retries g)) 0 (mkLog [] [])) as (k & Hk & Hi & Hn & Hrun).
  exists k. split; [lia|]. split; [exact Hi|]. split; [intros; apply Hn; lia|exact Hrun].
Qed.

(** Where [AbortSignal.timeout] exists, a timed-out attempt fails with a
    [TimeoutError], which the client does not take for a transient failure: the first
    timeout ends the request, and no other gateway is tried. *)
Theorem timeout_ends_request (Ha : go_callerAborted opts = false) (Hr : 0 <= gw_retries g)
    (Ht : at_reply (attempt_at 0) = Rejected (timeout_failure true)) :
  let run := gatewayFetch net g r opts (mkLog [] []) in
  is_ok run.1 = false ∧ gl_requests run.2 = [(gateway_for g opts 0, r)].
Proof.
  unfold gatewayFetch. rewrite Ha. replace (Z.to_nat (gw_retries g + 1)) with (S (Z.to_nat (gw_retries g))) by lia.
  pose proof (fetch_step (Z.to_nat (gw_retries g)) 0 (mkLog [] [])) as Hs. cbn zeta in Hs.
  unfold transient, success in Hs. rewrite Ht in Hs. cbn [timeout_failure isNetworkFailure isAbortError] in Hs.
  change (String.eqb "TimeoutError" "AbortError") with false in Hs. cbn [orb andb] in Hs.
  destruct Hs as [H1 H2]. cbn zeta. by rewrite H1.
Qed.
End failover.

(** ** Bids *)
Record VerifiedBid : Type := mkVerified { vb_bid : RelayerBid; vb_freeStakeValue : Z }.

(** What the registry stores of a job and of a relayer. *)
Record NativeRegistryJob : Type := mkRegJob { rj_status : Z; rj_fee : jval }.
Record NativeRegistryRelayer : Type := mkRegRelayer {
  rr_endpoint : option string;
  rr_freeStake : jval;
  rr_x25519 : list byte;
}.

(** [pick] of the stake-weighted choice: walk the bids with the drawn number. *)
Fixpoint pick_from (target : Z) (last : VerifiedBid) (bids : list VerifiedBid) : VerifiedBid :=
  match bids with
  | [] => last
  | bid :: rest =>
      if target <? vb_freeStakeValue bid then bid
      else pick_from (target - vb_freeStakeValue bid) last rest
  end.
(** [rand] are the two 32-bit words drawn. *)
Definition pickStakeWeightedBid (rand : Z * Z) (bids : list VerifiedBid) : option VerifiedBid :=
  match bids with
  | [] => None
  | first :: _ =>
      let total := foldl (λ sum bid, sum + vb_freeStakeValue bid) 0 bids in
      if total <=? 0 then Some first
      else Some (pick_from ((Z.shiftl rand.1 32 + rand.2) mod total) (List.last bids first) bids)
  end.

Section market.
Context (keccak_256 : list byte → list byte) (verify : string → list byte → list byte → res bool).
Context (net : nat → string → Request → Attempt).
(** [registryView] of the two methods: [None] when the read fails or finds nothing. *)
Context (get_job : list byte → option NativeRegistryJob) (get_relayer : string → option NativeRegistryRelayer).

Definition set_registry (bid : RelayerBid) (endpoint freeStake : jval) : RelayerBid :=
  mkBidMsg (rb_jobId bid) (rb_chain bid) (rb_operator bid) (rb_x25519Pk bid) (rb_sig bid) endpoint freeStake.

Definition registry_check (jobIdHex : string) (bid : RelayerBid) : res (option VerifiedBid) :=
  j ← hexToBytes jobIdHex;
  match get_job j, get_relayer (rb_operator bid) with
  | Some job, Some relayer =>
      fee ← js_BigInt (rj_fee job);
      freeStakeValue ← js_BigInt (rr_freeStake relayer);
      if negb (rj_status job =? 0) || (freeStakeValue <? fee) then Ok None
      else if negb (String.eqb (toLowerCase (bytesToHex (rr_x25519 relayer))) (toLowerCase (rb_x25519Pk bid))) then Ok None
      else
        let endpoint := match trim <$> rr_endpoint relayer with
                        | Some e => if String.eqb e "" then rb_endpoint bid else JStr e
                        | None => rb_endpoint bid
                        end in
        Ok (Some (mkVerified (set_registry bid endpoint (JStr (bigint_toString 10 freeStakeValue))) freeStakeValue))
  | _, _ => Ok None
  end.
(** [try { ... } catch { return null; }] *)
Definition verifyBidRegistryState (jobIdHex : string) (bid : RelayerBid) : option VerifiedBid :=
  match registry_check jobIdHex bid with Ok v => v | Err _ => None end.

(** [body.bids ?? []], on which [map] is called *)
Definition bids_of (body : jval) : res (list jval) :=
  match body with
  | JUndef | JNull => Err (TypeError "Cannot read properties of null")
  | _ =>
      match prop body "bids" with
      | JUndef | JNull => Ok []
      | JArr l => Ok l
      | _ => Err (TypeError "map is not a function")
      end
  end.

Definition acceptable (jobIdHex : string) (bid : RelayerBid) : bool :=
  SdkMessages.verifyBid keccak_256 verify bid && String.eqb (toLowerCase (rb_jobId bid)) (toLowerCase jobIdHex)
  && num_is (rb_chain bid) RELAY_CHAIN_STELLAR.

Definition checked_bids (jobIdHex : string) (body : jval) : res (list VerifiedBid) :=
  raws ← bids_of body;
  bids ← mapM_res validateBid raws;
  Ok (omap (verifyBidRegistryState jobIdHex) (List.filter (acceptable jobIdHex) bids)).

Definition fetchBids (g : RelayerGateway) (encodeURIComponent : string → string) (jobIdHex : string)
    (opts : GatewayRequestOptions) : M GwLog (list VerifiedBid) :=
  body ← gatewayFetch net g (mkRequest ("v1/jobs/" +:+ encodeURIComponent jobIdHex +:+ "/bids") "GET" [] None) opts;
  lift_res (checked_bids jobIdHex body).

Definition publishAdvert (g : RelayerGateway) (advert : JobAdvert) (opts : GatewayRequestOptions) : M GwLog unit :=
  gatewayFetch net g (mkRequest "v1/jobs" "POST" [("content-type", "application/json")] (Some (advert_json advert))) opts;;
  mret tt.
End market.

(** Every bid the client offers for a job carries a signature that the SDK's
    check accepts, is for that job on this chain, and is backed by the registry: the job is
    open, the bidder's registered key is the one in the bid, and its free stake, taken
    from the registry and not from the bid, covers the fee. *)
Theorem offered_bids_are_backed keccak_256 verify get_job get_relayer jobIdHex body bids vb
    (Hf : checked_bids keccak_256 verify get_job get_relayer jobIdHex body = Ok bids) (Hin : vb ∈ bids) :
  ∃ bid j job relayer fee,
    SdkMessages.verifyBid keccak_256 verify bid = true ∧ toLowerCase (rb_jobId bid) = toLowerCase jobIdHex ∧
    rb_chain bid = JNum RELAY_CHAIN_STELLAR ∧ rb_operator (vb_bid vb) = rb_operator bid ∧
    hexToBytes jobIdHex = Ok j ∧ get_job j = Some job ∧ rj_status job = 0 ∧ js_BigInt (rj_fee job) = Ok fee ∧
    get_relayer (rb_operator bid) = Some relayer ∧ js_BigInt (rr_freeStake relayer) = Ok (vb_freeStakeValue vb) ∧
    fee <= vb_freeStakeValue vb ∧
    toLowerCase (bytesToHex (rr_x25519 relayer)) = toLowerCase (rb_x25519Pk (vb_bid vb)).
Proof.
  unfold checked_bids in Hf. apply bind_ok in Hf as (raws & _ & (parsed & _ & <-%Ok_inj)%bind_ok).
  apply list_elem_of_omap in Hin as (bid & Hbid & Hv). apply list_elem_of_In, filter_In in Hbid as [_ Hacc].
  unfold acceptable in Hacc. apply andb_prop in Hacc as [[Hsig Hjob%String.eqb_eq]%andb_prop Hchain].
  unfold verifyBidRegistryState in Hv. destruct (registry_check _ _ _ _) as [o|] eqn:Hr; [|done]. subst o.
  unfold registry_check in Hr. apply bind_ok in Hr as (j & Hj & Hr).
  destruct (get_job j) as [job|] eqn:Hgj; [|done]. destruct (get_relayer (rb_operator bid)) as [rel|] eqn:Hgr; [|done].
  apply bind_ok in Hr as (fee & Hfee & (stake & Hst & Hr)%bind_ok).
  destruct (Z.eqb_spec (rj_status job) 0) as [Hs0|]; [|done]. destruct (Z.ltb_spec stake fee) as [|Hle]; [done|]. cbn [negb orb] in Hr.
  destruct (String.eqb_spec (toLowerCase (bytesToHex (rr_x25519 rel))) (toLowerCase (rb_x25519Pk bid))) as [Hpk|]; [|done].
  cbn [negb] in Hr. apply Ok_inj in Hr. injection Hr as <-. exists bid, j, job, rel, fee. cbn [vb_bid vb_freeStakeValue set_registry rb_operator rb_x25519Pk].
  split_and!; try done. unfold num_is in Hchain. destruct (rb_chain bid); try done. by apply Z.eqb_eq in Hchain as ->.
Qed.

(** One entry of the answer that is not a bid hides all others: validation
    throws before the entries are filtered. *)
Theorem malformed_bid_hides_all keccak_256 verify get_job get_relayer jobIdHex raws raw
    (Hin : raw ∈ raws) (Hbad : is_ok (validateBid raw) = false) :
  is_ok (checked_bids keccak_256 verify get_job get_relayer jobIdHex (JObj [("bids", JArr raws)])) = false.
Proof.
  unfold checked_bids. change (bids_of (JObj [("bids", JArr raws)])) with (Ok raws). cbn [mbind res_bind].
  destruct (mapM_res validateBid raws) as [bids|] eqn:E; [|done]. exfalso.
  apply mapM_res_Forall2 in E. apply list_elem_of_lookup in Hin as [i Hi].
  destruct (Forall2_lookup_l _ _ _ _ _ E Hi) as (b & _ & Hb). by rewrite Hb in Hbad.
Qed.

(** *** The stake-weighted choice *)
Definition stake_sum (bids : list VerifiedBid) : Z := foldr (λ b s, vb_freeStakeValue b + s) 0 bids.

Lemma stake_total bids acc : foldl (λ sum bid, sum + vb_freeStakeValue bid) acc bids = acc + stake_sum bids.
Proof. revert acc. induction bids as [|b bids IH]; intros acc; cbn [foldl stake_sum foldr]; [lia|]. rewrite IH. unfold stake_sum. lia. Qed.

Lemma pick_from_spec target last bids :
  0 <= target < stake_sum bids →
  ∃ i b, bids !! i = Some b ∧ pick_from target last bids = b ∧
    stake_sum (take i bids) <= target < stake_sum (take i bids) + vb_freeStakeValue b.
Proof.
  revert target. induction bids as [|b bids IH]; intros target Ht; cbn [stake_sum foldr] in Ht; [lia|]. cbn [pick_from].
  destruct (Z.ltb_spec target (vb_freeStakeValue b)).
  - exists 0%nat, b. cbn. split_and!; [done|done|lia|lia].
  - destruct (IH (target - vb_freeStakeValue b)) as (i & b' & Hi & Hp & Hr).
    { split; [lia|]. fold (stake_sum bids) in Ht. lia. }
    exists (S i), b'. cbn [take stake_sum foldr]. fold (stake_sum (take i bids)). split_and!; [done|done|lia|lia].
Qed.

(** With a positive total stake the bid whose share of [0, total) the draw
    falls into is chosen; the shares of non-negative stakes tile that range, so a bid is
    chosen for as many values of the draw as its stake. *)
Theorem choice_is_stake_weighted rand bids (Hpos : 0 < stake_sum bids) :
  ∃ i b, bids !! i = Some b ∧ pickStakeWeightedBid rand bids = Some b ∧
    stake_sum (take i bids) <= (Z.shiftl rand.1 32 + rand.2) mod stake_sum bids
      < stake_sum (take i bids) + vb_freeStakeValue b.
Proof.
  unfold pickStakeWeightedBid. destruct bids as [|first rest] eqn:E; [cbn in Hpos; lia|]. rewrite <-E in *.
  rewrite stake_total, Z.add_0_l. destruct (Z.leb_spec (stake_sum bids) 0); [lia|].
  destruct (pick_from_spec ((Z.shiftl rand.1 32 + rand.2) mod stake_sum bids) (List.last bids first) bids) as (i & b & Hi & Hp & Hr).
  { by apply Z.mod_pos_bound. }
  exists i, b. by rewrite Hp.
Qed.

(** ** Jobs and payloads *)
Definition buildRelayedWithdrawPayload (poolId registryId : string) (proof : PoolWithdrawProof) (recipient : string)
  : PoolWithdrawPayload :=
  mkPayload poolId (pp_proofA proof) (pp_proofB proof) (pp_proofC proof) (pp_withdrawnValue proof) (pp_stateRoot proof)
    (pp_aspRoot proof) (pp_nullifierHash proof) (pp_newCommitment proof) recipient 0 registryId.

Record RelayerJobDraft : Type := mkDraft {
  jd_jobId : list byte;
  jd_jobIdHex : string;
  jd_payload : PoolWithdrawPayload;
  jd_payloadHash : list byte;
  jd_payloadHashHex : string;
  jd_advert : JobAdvert;
  jd_deadlineLedger : Z;
  jd_fee : Z;
}.

Inductive RelayerJobStatus : Type := JOpen | JAccepted | JSubmitted | JSlashed | JCanceled | JUnknown.
Definition REGISTRY_JOB_STATUS (status : Z) : RelayerJobStatus :=
  match status with 0 => JOpen | 1 => JAccepted | 2 => JSubmitted | 3 => JSlashed | 4 => JCanceled | _ => JUnknown end.

Section jobs.
Context (addressXdr : string → res (list byte)) (symbolXdr : string → list byte) (keccak_256 : list byte → list byte).
Context (net : nat → string → Request → Attempt) (encodeURIComponent : string → string).
Context (get_job : list byte → option NativeRegistryJob).
(** [sealBox], and the payload's text as bytes *)
Context (sealBox : list byte → list byte → res string) (json_bytes : jval → list byte).

Definition buildRelayerJobDraft (randomJobId : list byte) (payload : PoolWithdrawPayload) (fee deadlineLedger : Z)
    (jobId : option (list byte)) : res RelayerJobDraft :=
  jobId ← assertLength (default randomJobId jobId) 32 "jobId";
  payloadHash ← hashPoolWithdrawPayload addressXdr symbolXdr keccak_256 payload;
  advert ← makeAdvert jobId fee deadlineLedger payloadHash None;
  Ok (mkDraft jobId (bytesToHex jobId) payload payloadHash (bytesToHex payloadHash) advert deadlineLedger fee).

Definition deliverPayload (g : RelayerGateway) (draft : RelayerJobDraft) (bid : RelayerBid) (opts : GatewayRequestOptions)
  : M GwLog jval :=
  pk ← lift_res (hexToBytes (rb_x25519Pk bid));
  box ← lift_res (sealBox (encodePoolWithdrawPayload json_bytes (jd_payload draft)) pk);
  let idempotencyKey := jd_jobIdHex draft +:+ ":" +:+ rb_x25519Pk bid in
  body ← gatewayFetch net g
    (mkRequest ("v1/jobs/" +:+ encodeURIComponent (jd_jobIdHex draft) +:+ "/payload") "POST"
       [("content-type", "application/json"); ("x-idempotency-key", idempotencyKey)]
       (Some (JObj [("t", JStr "payload"); ("v", JNum 1); ("jobId", JStr (jd_jobIdHex draft));
                    ("to", JStr (rb_x25519Pk bid)); ("box", JStr box)]))) opts;
  match body with
  | JUndef | JNull => throw (TypeError "Cannot read properties of null")
  | _ => mret (nullish_or (prop body "result") JNull)
  end.

Definition jobStatus (jobIdHex : string) : res RelayerJobStatus :=
  j ← hexToBytes jobIdHex;
  Ok (match get_job j with Some job => REGISTRY_JOB_STATUS (rj_status job) | None => JUnknown end).
End jobs.

Lemma finished_payload_wf w proof p poolId registryId recipient :
  finishPoolWithdrawProof w proof = Ok p → wf_payload (buildRelayedWithdrawPayload poolId registryId p recipient).
Proof.
  intros (sp & Hs & <-%Ok_inj)%bind_ok. apply serialize_lengths in Hs as (La & Lb & Lc).
  by split; cbn; try apply be_bytes_length.
Qed.

Lemma validate_made_advert jobId fee deadline payloadHash chain a :
  makeAdvert jobId fee deadline payloadHash chain = Ok a → validateAdvert (advert_json a) = Ok a.
Proof.
  unfold makeAdvert. intros (j & [-> Hj]%assertLength_ok & (h & [-> Hh]%assertLength_ok & <-%Ok_inj)%bind_ok)%bind_ok.
  unfold validateAdvert, advert_json. cbn [ja_jobId ja_chain ja_fee ja_deadline ja_payloadHash].
  change (str_of (prop (JObj _) "jobId")) with (bytesToHex jobId).
  change (str_of (prop (JObj _) "payloadHash")) with (bytesToHex payloadHash).
  unfold checkHex32. rewrite !hexToBytes_bytesToHex. cbn [mbind res_bind].
  rewrite !(proj2 (assertLength_ok _ _ _ _)) by done. reflexivity.
Qed.

(** C39 (roundtrip): A job drafted from a finished withdrawal proof is one the relayer can
    take: its advert passes the relayer's validation unchanged, the payload the relayer
    decodes is the drafted one and well formed, and the hash the relayer recomputes is the
    one advertised. *)
Theorem drafted_job_is_takeable addressXdr symbolXdr keccak_256 json_bytes json_of_bytes randomJobId fee deadline jobId
    w groth p poolId registryId recipient d
    (Hp : finishPoolWithdrawProof w groth = Ok p)
    (Hd : buildRelayerJobDraft addressXdr symbolXdr keccak_256 randomJobId
            (buildRelayedWithdrawPayload poolId registryId p recipient) fee deadline jobId = Ok d)
    (Hjson : json_of_bytes (json_bytes (payload_envelope (jd_payload d))) = Ok (payload_envelope (jd_payload d))) :
  validateAdvert (advert_json (jd_advert d)) = Ok (jd_advert d) ∧
  decodePoolWithdrawPayload json_of_bytes (encodePoolWithdrawPayload json_bytes (jd_payload d)) = Ok (jd_payload d) ∧
  wf_payload (jd_payload d) ∧
  hashPoolWithdrawPayloadHex addressXdr symbolXdr keccak_256 (jd_payload d) = Ok (ja_payloadHash (jd_advert d)) ∧
  ja_jobId (jd_advert d) = jd_jobIdHex d.
Proof.
  pose proof (finished_payload_wf _ _ _ poolId registryId recipient Hp) as Hwf.
  set (payload := buildRelayedWithdrawPayload _ _ _ _) in *. unfold buildRelayerJobDraft in Hd.
  apply bind_ok in Hd as (j & [Ej Hj]%assertLength_ok & (h & Hh & (a & Ha & <-%Ok_inj)%bind_ok)%bind_ok).
  cbn [jd_advert jd_payload jd_jobIdHex] in *. split; [by eapply validate_made_advert|]. split_and!.
  - unfold decodePoolWithdrawPayload, encodePoolWithdrawPayload. rewrite Hjson.
    cbn -[parsePoolWithdrawPayload serializePoolWithdrawPayload]. rewrite <-(parse_serialize payload Hwf).
    by destruct (serializePoolWithdrawPayload payload).
  - done.
  - unfold hashPoolWithdrawPayloadHex. rewrite Hh. cbn [mbind res_bind]. unfold makeAdvert in Ha.
    apply bind_ok in Ha as (? & _ & (? & [-> _]%assertLength_ok & <-%Ok_inj)%bind_ok). done.
  - unfold makeAdvert in Ha. by apply bind_ok in Ha as (? & [-> _]%assertLength_ok & (? & _ & <-%Ok_inj)%bind_ok).
Qed.

(** *** Witnesses *)
Definition toy_gateway : RelayerGateway := mkGateway ["https://a"; "https://b"] "CREG" 2.
Definition toy_request : Request := mkRequest "v1/jobs" "GET" [] None.
Definition toy_opts : GatewayRequestOptions := mkReqOpts false None.
(** The first gateway is overloaded, the second answers. *)
Definition toy_net (i : nat) (gateway : string) (r : Request) : Attempt :=
  mkAttempt (if (i =? 0)%nat then Response 503 (inl JNull) else Response 200 (inl (JStr gateway))) false false.

Lemma request_fails_over_witness :
  ∃ k, (k ≤ 2)%nat ∧
    (gatewayFetch toy_net toy_gateway toy_request toy_opts (mkLog [] [])).2 =
      mkLog (requests_of toy_gateway toy_request toy_opts 0 (S k)) (pauses_of 0 k) ∧
    (gatewayFetch toy_net toy_gateway toy_request toy_opts (mkLog [] [])).1 = Ok (JStr "https://b").
Proof.
  destruct (request_fails_over toy_net toy_gateway toy_request toy_opts) as (k & Hk & _ & _ & Hlog & _); [done|done|].
  exists k. split; [cbn in Hk; lia|]. split; [exact Hlog|by vm_compute].
Defined.

Lemma timeout_ends_request_witness :
  let net := λ (_ : nat) (_ : string) (_ : Request), mkAttempt (Rejected (timeout_failure true)) true false in
  gl_requests (gatewayFetch net toy_gateway toy_request toy_opts (mkLog [] [])).2 = [("https://a", toy_request)].
Proof. intros net. exact (proj2 (timeout_ends_request net toy_gateway toy_request toy_opts eq_refl ltac:(done) eq_refl)). Defined.

Definition toy_verify (pk : string) (d s : list byte) : res bool := Ok (bool_decide (d = s)).
Definition toy_bid_json : jval :=
  JObj [("t", JStr "bid"); ("v", JNum 1); ("jobId", JStr (bytesToHex sample_job)); ("operator", JStr "GOP");
        ("x25519Pk", JStr (bytesToHex sample_pk));
        ("sig", JStr (bytesToBase64 (concatBytes [SdkMessages.BID_DOMAIN; sample_job; sample_pk])))].

Lemma offered_bids_are_backed_witness :
  ∃ vb fee, checked_bids id_hash toy_verify (λ _, Some (mkRegJob 0 (JStr "10"))) (λ _, Some (mkRegRelayer None (JNum 50) sample_pk))
      (bytesToHex sample_job) (JObj [("bids", JArr [toy_bid_json])]) = Ok [vb] ∧
    js_BigInt (JStr "10") = Ok fee ∧ fee <= vb_freeStakeValue vb.
Proof.
  destruct (checked_bids id_hash toy_verify (λ _, Some (mkRegJob 0 (JStr "10"))) (λ _, Some (mkRegRelayer None (JNum 50) sample_pk))
      (bytesToHex sample_job) (JObj [("bids", JArr [toy_bid_json])])) as [[|vb [|]]|] eqn:E;
    [exfalso; vm_compute in E; discriminate E| |exfalso; vm_compute in E; discriminate E..].
  destruct (offered_bids_are_backed id_hash toy_verify _ _ _ _ _ vb E) as (bid & j & job & rel & fee & _ & _ & _ & _ & _ & Hjob & _ & Hfee & _ & _ & Hle & _);
    [by left|].
  exists vb, fee. injection Hjob as <-. split; [done|]. split; [exact Hfee|exact Hle].
Defined.

Lemma choice_is_stake_weighted_witness :
  let b n := mkVerified (mkBidMsg "" JUndef "" "" "" JUndef JUndef) n in
  ∃ i x, [b 5; b 0; b 7] !! i = Some x ∧ pickStakeWeightedBid (0, 9) [b 5; b 0; b 7] = Some x.
Proof.
  intros b. destruct (choice_is_stake_weighted (0, 9) [b 5; b 0; b 7]) as (i & x & H1 & H2 & _); [by vm_compute|].
  exists i, x. split; [exact H1|exact H2].
Defined.

Lemma drafted_job_is_takeable_witness :
  ∃ p d, finishPoolWithdrawProof (mkWitness (mkInput "" "" "" "" "" "" "" "" "" "" "" "" [] [] [] []) 400 1 2 3 4
           (mkChange (mkSecrets "5" "6") 600)) toy_groth = Ok p ∧
    buildRelayerJobDraft toy_address utf8 (λ b, take 32 b) sample_job (buildRelayedWithdrawPayload "CPOOL" "CREG" p "GREC")
      10 500 None = Ok d ∧ validateAdvert (advert_json (jd_advert d)) = Ok (jd_advert d).
Proof.
  destruct (finishPoolWithdrawProof (mkWitness (mkInput "" "" "" "" "" "" "" "" "" "" "" "" [] [] [] []) 400 1 2 3 4
           (mkChange (mkSecrets "5" "6") 600)) toy_groth) as [p|] eqn:Ep; [|exfalso; vm_compute in Ep; discriminate Ep].
  destruct (buildRelayerJobDraft toy_address utf8 (λ b, take 32 b) sample_job (buildRelayedWithdrawPayload "CPOOL" "CREG" p "GREC")
      10 500 None) as [d|] eqn:Ed; [|exfalso; apply Ok_inj in Ep as <-; vm_compute in Ed; discriminate Ed].
  exists p, d. split; [done|]. split; [done|].
  exact (proj1 (drafted_job_is_takeable toy_address utf8 (λ b, take 32 b) (λ _, []) (λ _, Ok (payload_envelope (jd_payload d)))
    sample_job 10 500 None _ toy_groth p "CPOOL" "CREG" "GREC" d Ep Ed eq_refl)).
Defined.
