(* ===== verification/SdkRpc.v ===== *)
(** * SDK: reading the chain

    [sdk/src/rpc/events.ts]: paging through contract events.  The RPC server is a parameter
    that answers the n-th call. *)
From Stdlib Require Import Ascii.
From stdpp Require Import base tactics list sets strings.
From Stdlib Require Import ZArith Lia Sorted.
From S2P Require Import Prelude JsString Json.
Open Scope string_scope.
Open Scope list_scope.
Open Scope Z_scope.

Definition EVENT_PAGE_LIMIT : Z := 200.
Definition EVENT_PAGE_SIZE : Z := 100.
Definition EVENT_LOOKBACK_LEDGERS : Z := 16000.

(** ** Paging through events *)
Section events.
Context {E : Type} (ev_ledger : E → Z).

(** A page request: a cursor, or a start ledger. *)
Inductive EventsRequest : Type := FromCursor (c : string) (limit : Z) | FromLedger (l : Z) (limit : Z).
Record EventsResponse : Type := mkResponse {
  rs_events : option (list E);
  rs_latestLedger : option Z;
  rs_cursor : option string;
}.

Record ContractEventPage : Type := mkPage {
  pg_events : list E;
  pg_ledger : Z;
  pg_endLedger : Z;
  pg_complete : bool;
  pg_truncated : bool;
  pg_continuation : option string;
}.

Record PaginateOptions : Type := mkPaginate {
  pa_startLedger : option Z;
  pa_lookback : option Z;
  pa_pageSize : option Z;
  pa_maxPages : option Z;
  pa_throwOnTruncation : bool;
}.

Context (getEvents : nat → EventsRequest → res EventsResponse).
(** [parseOldestLedgerFromRangeError] *)
Context (oldest_of_error : jserr → option Z).

Definition truthy_cursor (c : option string) : option string :=
  match c with Some s => if String.eqb s "" then None else Some s | None => None end.

(** One request with the retry from the oldest retained ledger: the response, the start
    ledger, the covered ledger and the number of calls made so far. *)
Definition request_page (cursor : option string) (startLedger covered pageSize : Z) (calls : nat)
  : res EventsResponse * Z * Z * nat :=
  match truthy_cursor cursor with
  | Some c => (getEvents calls (FromCursor c pageSize), startLedger, covered, S calls)
  | None =>
      match getEvents calls (FromLedger startLedger pageSize) with
      | Ok r => (Ok r, startLedger, covered, S calls)
      | Err e =>
          match oldest_of_error e with
          | Some oldest =>
              if oldest <=? startLedger then (Err e, startLedger, covered, S calls)
              else (getEvents (S calls) (FromLedger oldest pageSize), oldest, Z.max covered oldest, S (S calls))
          | None => (Err e, startLedger, covered, S calls)
          end
      end
  end.

(** The pages yielded, and the error that ended the iteration, if one did. *)
Fixpoint pages_loop (latest pageSize : Z) (throwOnTruncation : bool) (left : nat)
    (cursor prevCursor : option string) (startLedger covered : Z) (calls : nat) : list ContractEventPage * option jserr :=
  match left with
  | O => ([], None)
  | S left' =>
      let '(r, startLedger', covered', calls') := request_page cursor startLedger covered pageSize calls in
      match r with
      | Err e => ([], Some e)
      | Ok res =>
          let events := default [] (rs_events res) in
          let ledger := foldl (λ l ev, Z.max l (ev_ledger ev)) covered' events in
          let endLedger := Z.max (Z.max ledger (default 0 (rs_latestLedger res))) latest in
          let nextCursor := truthy_cursor (rs_cursor res) in
          if match nextCursor with None => true | Some c => bool_decide (Some c = prevCursor) end
          then ([mkPage events ledger endLedger true false None], None)
          else if (left' =? 0)%nat then
            if throwOnTruncation then ([], Some (JsError "Event scan truncated"))
            else ([mkPage events ledger endLedger false true nextCursor], None)
          else
            let '(pages, e) := pages_loop latest pageSize throwOnTruncation left' nextCursor nextCursor startLedger' ledger calls' in
            (mkPage events ledger endLedger false false None :: pages, e)
      end
  end.

Definition paginateContractEvents (latest : res Z) (opts : PaginateOptions) : list ContractEventPage * option jserr :=
  match latest with
  | Err e => ([], Some e)
  | Ok latest =>
      let maxPages := Z.max 1 (default EVENT_PAGE_LIMIT (pa_maxPages opts)) in
      let startLedger :=
        match pa_startLedger opts with
        | Some s => if 0 <? s then s else Z.max 1 (latest - default EVENT_LOOKBACK_LEDGERS (pa_lookback opts))
        | None => Z.max 1 (latest - default EVENT_LOOKBACK_LEDGERS (pa_lookback opts))
        end in
      pages_loop latest (default EVENT_PAGE_SIZE (pa_pageSize opts)) (pa_throwOnTruncation opts) (Z.to_nat maxPages)
        None None startLedger startLedger 0
  end.
End events.

(** ** Properties of the pages *)
Section pages.
Context {E : Type} (ev_ledger : E → Z) (getEvents : nat → EventsRequest → res (@EventsResponse E)) (oldest_of_error : jserr → option Z).
Abbreviation loop := (pages_loop ev_ledger getEvents oldest_of_error).

Definition open_page (p : @ContractEventPage E) : Prop := pg_complete p = false ∧ pg_truncated p = false.
Definition last_page (p : @ContractEventPage E) : Prop :=
  (pg_complete p = true ∧ pg_truncated p = false) ∨
  (pg_complete p = false ∧ pg_truncated p = true ∧ ∃ c, pg_continuation p = Some c ∧ c ≠ "").

Lemma ledger_fold l c : c <= foldl (λ l ev, Z.max l (ev_ledger ev)) c l ∧
  ∀ ev, ev ∈ l → ev_ledger ev <= foldl (λ l ev, Z.max l (ev_ledger ev)) c l.
Proof.
  revert c. induction l as [|x l IH]; intros c; cbn [foldl]; [split; [lia|]; by intros ev Hin%elem_of_nil|].
  destruct (IH (Z.max c (ev_ledger x))) as [H1 H2]. split; [lia|].
  intros ev [->|Hin]%elem_of_cons; [lia|auto].
Qed.

Lemma request_covered cursor startLedger covered pageSize calls r s' c' n' :
  request_page getEvents oldest_of_error cursor startLedger covered pageSize calls = (r, s', c', n') → covered <= c'.
Proof. unfold request_page. repeat case_match; intros [= _ _ <- _]; lia. Qed.

Lemma truthy_nonempty c x : truthy_cursor c = Some x → x ≠ "".
Proof. unfold truthy_cursor. destruct c as [y|]; [|done]. destruct (String.eqb_spec y ""); naive_solver. Qed.

Lemma pages_shape latest pageSize throws n cursor prev start covered calls pages e :
  loop latest pageSize throws (S n) cursor prev start covered calls = (pages, e) →
  (length pages ≤ S n)%nat ∧ Sorted Z.le (covered :: (pg_ledger <$> pages)) ∧
  Forall (λ p, pg_ledger p <= pg_endLedger p ∧ latest <= pg_endLedger p ∧
               ∀ ev, ev ∈ pg_events p → ev_ledger ev <= pg_ledger p) pages ∧
  match e with
  | None => ∃ init last, pages = init ++ [last] ∧ Forall open_page init ∧ last_page last
  | Some _ => Forall open_page pages
  end.
Proof.
  revert cursor prev start covered calls pages e.
  induction n as [|n IH]; intros cursor prev start covered calls pages e;
    [remember 0%nat as k eqn:Ek|remember (S n) as k eqn:Ek]; cbn [pages_loop];
    destruct (request_page _ _ _ _ _ _) as [[[r s'] c'] n'] eqn:Hreq; apply request_covered in Hreq as Hcov;
    (destruct r as [rs|err]; [|intros [= <- <-]; split_and!; [cbn; lia|repeat constructor|constructor|constructor]]);
    set (events := default [] (rs_events rs)); set (ledger := foldl _ c' events);
    destruct (ledger_fold events c') as [Hl1 Hl2]; fold ledger in Hl1, Hl2;
    destruct (truthy_cursor (rs_cursor rs)) as [nc|] eqn:Hnc.
  all: try (destruct (bool_decide (Some nc = prev)) eqn:Hd).
  all: try (intros [= <- <-]; split_and!;
    [cbn; lia|cbn; repeat constructor; lia|apply Forall_singleton; cbn; split_and!; [lia|lia|exact Hl2]|
     exists [], (mkPage events ledger (Z.max (Z.max ledger (default 0 (rs_latestLedger rs))) latest) true false None);
     split_and!; [done|constructor|by left]]).
  - rewrite Ek. change (0 =? 0)%nat with true. cbv iota. destruct throws.
    { intros [= <- <-]. split_and!; [cbn; lia|repeat constructor|constructor|constructor]. }
    intros [= <- <-]. split_and!;
      [cbn; lia|cbn; repeat constructor; lia|apply Forall_singleton; cbn; split_and!; [lia|lia|exact Hl2]|].
    exists [], (mkPage events ledger (Z.max (Z.max ledger (default 0 (rs_latestLedger rs))) latest) false true (Some nc)).
    split_and!; [done|constructor|right]. cbn. split_and!; [done|done|]. exists nc. split; [done|]. by eapply truthy_nonempty.
  - replace (k =? 0)%nat with false by (by rewrite Ek). cbv iota.
    destruct (loop latest pageSize throws k (Some nc) (Some nc) s' ledger n') as [ps e'] eqn:Hrec. intros [= <- <-].
    subst k. destruct (IH _ _ _ _ _ _ _ Hrec) as (Hlen & Hs & Hf & He). cbn [fmap list_fmap]. split_and!.
    + cbn [length]. lia.
    + constructor; [exact Hs|constructor; cbn [pg_ledger]; lia].
    + constructor; [cbn; split_and!; [lia|lia|exact Hl2]|done].
    + destruct e'; [by constructor|]. destruct He as (init & last & -> & Hi & Hl).
      exists (mkPage events ledger (Z.max (Z.max ledger (default 0 (rs_latestLedger rs))) latest) false false None :: init), last.
      split_and!; [done|by constructor|done].
Qed.
End pages.

(** ** Against a server that keeps its events *)
Section honest.
Context {E : Type} (ev_ledger : E → Z) (oldest_of_error : jserr → option Z).
(** The chunks the server pages out, some possibly empty, and the cursor after each. *)
Context (chunks : list (list E)) (cur : nat → string) (latest : Z).

Definition server_page (i : nat) : @EventsResponse E :=
  match chunks !! i with
  | Some c => mkResponse (Some c) (Some latest) (Some (cur i))
  | None => mkResponse (Some []) (Some latest) (Some (cur (i - 1)))
  end.

Record honest (getEvents : nat → EventsRequest → res (@EventsResponse E)) : Prop := {
  ho_start n l k : getEvents n (FromLedger l k) = Ok (server_page 0);
  ho_cursor n i k : (i < length chunks)%nat → getEvents n (FromCursor (cur i) k) = Ok (server_page (S i));
  ho_inj i j : cur i = cur j → i = j;
  ho_nonempty i : cur i ≠ "";
}.

Context (getEvents : nat → EventsRequest → res (@EventsResponse E)) (Hh : honest getEvents).
Abbreviation loop := (pages_loop ev_ledger getEvents oldest_of_error).

Definition ends_at (n : nat) (pages : list (@ContractEventPage E)) : Prop :=
  ∃ init last, pages = init ++ [last] ∧
    if decide (length chunks < n)%nat then pg_complete last = true
    else pg_truncated last = true ∧ pg_continuation last = Some (cur (n - 1)).

Lemma truthy_cur i : truthy_cursor (Some (cur i)) = Some (cur i).
Proof using Hh. unfold truthy_cursor. destruct (String.eqb_spec (cur i) "") as [H|]; [by apply (ho_nonempty _ Hh) in H|done]. Qed.

Lemma ends_at_cons p n pages : ends_at n pages → ends_at n (p :: pages).
Proof. intros (init & last & -> & H). by exists (p :: init), last. Qed.

Lemma loop_step n cursor prev start covered calls pageSize rs :
  request_page getEvents oldest_of_error cursor start covered pageSize calls = (Ok rs, start, covered, S calls) →
  ∃ ledger endLedger,
    let events := default [] (rs_events rs) in
    let nextCursor := truthy_cursor (rs_cursor rs) in
    loop latest pageSize false (S n) cursor prev start covered calls =
      if match nextCursor with None => true | Some c => bool_decide (Some c = prev) end
      then ([mkPage events ledger endLedger true false None], None)
      else if (n =? 0)%nat then ([mkPage events ledger endLedger false true nextCursor], None)
      else
        let '(pages, e) := loop latest pageSize false n nextCursor nextCursor start ledger (S calls) in
        (mkPage events ledger endLedger false false None :: pages, e).
Proof. intros Hreq. cbn [pages_loop]. rewrite Hreq. by eexists _, _. Qed.

Definition cursor_at (i : nat) : option string := match i with O => None | S j => Some (cur j) end.

Lemma request_at i start covered calls pageSize :
  (i ≤ length chunks)%nat →
  request_page getEvents oldest_of_error (cursor_at i) start covered pageSize calls = (Ok (server_page i), start, covered, S calls).
Proof using Hh.
  intros Hi. unfold request_page. destruct i as [|i]; cbn [cursor_at]; [cbn [truthy_cursor]; by rewrite (ho_start _ Hh)|].
  rewrite truthy_cur. by rewrite (ho_cursor _ Hh) by lia.
Qed.

(** From the request after [i] chunks, with [S k] requests left. *)
Lemma scan_from i k start covered calls pageSize :
  (i ≤ length chunks)%nat → chunks ≠ [] →
  ∃ pages, loop latest pageSize false (S k) (cursor_at i) (cursor_at i) start covered calls = (pages, None) ∧
    concat (pg_events <$> pages) = concat (take (S k) (drop i chunks)) ∧ ends_at (i + S k) pages.
Proof using Hh.
  intros Hle Hne. revert i start covered calls Hle. induction k as [|k IH]; intros i start covered calls Hle.
  - destruct (loop_step 0 (cursor_at i) (cursor_at i) start covered calls pageSize _ (request_at i start covered calls pageSize Hle)) as (l & el & ->).
    unfold server_page. destruct (chunks !! i) as [c|] eqn:Hc; cbn [rs_events rs_cursor default from_option id]; rewrite truthy_cur.
    + apply lookup_lt_Some in Hc as Hlt. rewrite bool_decide_false by (destruct i; cbn; [done|intros [= H%(ho_inj _ Hh)]; lia]).
      change (0 =? 0)%nat with true. cbv iota. eexists. split; [done|]. rewrite (drop_S _ _ _ Hc). split; [done|].
      eexists [], _. split; [done|]. destruct (decide _); [lia|]. cbn. split; [done|]. do 2 f_equal. lia.
    + apply lookup_ge_None in Hc. assert (i = length chunks) as -> by lia.
      rewrite bool_decide_true. { eexists. split; [done|]. rewrite drop_all. split; [done|]. eexists [], _. split; [done|]. by destruct (decide _); [|lia]. }
      destruct chunks; [done|]. cbn. do 2 f_equal. lia.
  - destruct (loop_step (S k) (cursor_at i) (cursor_at i) start covered calls pageSize _ (request_at i start covered calls pageSize Hle)) as (l & el & ->).
    unfold server_page. destruct (chunks !! i) as [c|] eqn:Hc; cbn [rs_events rs_cursor default from_option id]; rewrite truthy_cur.
    + apply lookup_lt_Some in Hc as Hlt. rewrite bool_decide_false by (destruct i; cbn; [done|intros [= H%(ho_inj _ Hh)]; lia]).
      change (S k =? 0)%nat with false. cbv iota.
      destruct (IH (S i) start l (S calls)) as (pages & Hp & Hev & Hend); [lia|]. cbn [cursor_at] in Hp. rewrite Hp.
      eexists. split; [done|]. split.
      * rewrite (drop_S _ _ _ Hc). cbn [fmap list_fmap concat pg_events take]. by rewrite Hev.
      * apply ends_at_cons. by replace (i + S (S k))%nat with (S i + S k)%nat by lia.
    + apply lookup_ge_None in Hc. assert (i = length chunks) as -> by lia.
      rewrite bool_decide_true. { eexists. split; [done|]. rewrite drop_all. split; [done|]. eexists [], _. split; [done|]. by destruct (decide _); [|lia]. }
      destruct chunks; [done|]. cbn. do 2 f_equal. lia.
Qed.
End honest.

(** Whatever the server answers, an iteration yields at most the page cap;
    ledgers never go back and every page's events lie at or below its ledger; all pages but
    the last are marked open, and an iteration that ends without an error ends with a page
    marked either complete or truncated, the latter with a cursor to go on from. *)
Theorem pages_are_marked {E} (ev_ledger : E → Z) getEvents oldest_of_error latest opts pages e
    (H : paginateContractEvents ev_ledger getEvents oldest_of_error (Ok latest) opts = (pages, e)) :
  Z.of_nat (length pages) <= Z.max 1 (default EVENT_PAGE_LIMIT (pa_maxPages opts)) ∧
  Sorted Z.le (pg_ledger <$> pages) ∧
  Forall (λ p, pg_ledger p <= pg_endLedger p ∧ ∀ ev, ev ∈ pg_events p → ev_ledger ev <= pg_ledger p) pages ∧
  match e with
  | None => ∃ init last, pages = init ++ [last] ∧ Forall open_page init ∧ last_page last
  | Some _ => Forall open_page pages
  end.
Proof.
  unfold paginateContractEvents in H. set (n := Z.max 1 (default EVENT_PAGE_LIMIT (pa_maxPages opts))) in *.
  assert (Hn : 1 <= n) by lia. replace (Z.to_nat n) with (S (Z.to_nat (n - 1))) in H by lia.
  apply pages_shape in H as (Hlen & Hs & Hf & He). split_and!; [lia|by inversion Hs| |done].
  eapply Forall_impl; [exact Hf|]. intros p (? & _ & ?). done.
Qed.

(** Against a server that keeps its events, a scan is never silently short:
    with more page requests than the server has chunks it returns every event, in order, and
    says complete; otherwise it returns exactly the chunks it read, says truncated, and names
    the cursor behind them. *)
Theorem scan_complete_or_truncated {E} (ev_ledger : E → Z) getEvents oldest_of_error (chunks : list (list E)) cur latest opts
    (Hh : honest chunks cur latest getEvents) (Hne : chunks ≠ []) (Ht : pa_throwOnTruncation opts = false) :
  let n := Z.to_nat (Z.max 1 (default EVENT_PAGE_LIMIT (pa_maxPages opts))) in
  ∃ pages, paginateContractEvents ev_ledger getEvents oldest_of_error (Ok latest) opts = (pages, None) ∧
    concat (pg_events <$> pages) = concat (take n chunks) ∧
    ∃ init last, pages = init ++ [last] ∧
      if decide (length chunks < n)%nat then pg_complete last = true ∧ concat (take n chunks) = concat chunks
      else pg_truncated last = true ∧ pg_continuation last = Some (cur (n - 1)%nat).
Proof.
  intros n. unfold paginateContractEvents. cbv zeta. fold n. rewrite Ht.
  assert (Hn : n = S (n - 1)%nat) by (unfold n; lia).
  destruct (scan_from ev_ledger oldest_of_error chunks cur latest getEvents Hh 0 (n - 1)%nat
    (match pa_startLedger opts with
     | Some s => if 0 <? s then s else Z.max 1 (latest - default EVENT_LOOKBACK_LEDGERS (pa_lookback opts))
     | None => Z.max 1 (latest - default EVENT_LOOKBACK_LEDGERS (pa_lookback opts)) end)
    (match pa_startLedger opts with
     | Some s => if 0 <? s then s else Z.max 1 (latest - default EVENT_LOOKBACK_LEDGERS (pa_lookback opts))
     | None => Z.max 1 (latest - default EVENT_LOOKBACK_LEDGERS (pa_lookback opts)) end) 0
    (default EVENT_PAGE_SIZE (pa_pageSize opts)) ltac:(lia) Hne) as (pages & Hp & Hev & (init & last & -> & Hend)).
  cbn [cursor_at] in Hp. rewrite <-Hn in Hp. exists (init ++ [last]). split; [exact Hp|]. rewrite drop_0, <-Hn in Hev. split; [exact Hev|].
  exists init, last. split; [done|]. rewrite Nat.add_0_l, <-Hn in Hend.
  destruct (decide (length chunks < n)%nat); [|exact Hend]. split; [exact Hend|]. by rewrite take_ge by lia.
Qed.

Lemma pages_are_marked_witness :
  let getEvents := λ (n : nat) (_ : EventsRequest), Ok (mkResponse (Some [Z.of_nat n]) None (Some "c")) in
  ∃ init last, (paginateContractEvents (λ z : Z, z) getEvents (λ _, None) (Ok 9) (mkPaginate (Some 3) None None None false)).1
      = init ++ [last] ∧ Forall open_page init ∧ last_page last.
Proof.
  intros getEvents.
  destruct (paginateContractEvents (λ z : Z, z) getEvents (λ _, None) (Ok 9) (mkPaginate (Some 3) None None None false)) as [pages e] eqn:E.
  destruct (pages_are_marked _ _ _ _ _ _ _ E) as (_ & _ & _ & H).
  destruct e as [err|]; [exfalso; vm_compute in E; discriminate E|exact H].
Defined.

(** A server with two chunks, one empty; its cursors are unary numbers. *)
Definition toy_cursor (i : nat) : string := Nat.iter (S i) (String "1"%char) "".
Definition toy_chunks : list (list Z) := [[]; [4; 5]].
Definition toy_server (n : nat) (r : EventsRequest) : res (@EventsResponse Z) :=
  match r with
  | FromLedger _ _ => Ok (server_page toy_chunks toy_cursor 9 0)
  | FromCursor c _ => Ok (server_page toy_chunks toy_cursor 9 (String.length c))
  end.
Lemma toy_cursor_length i : String.length (toy_cursor i) = S i.
Proof. induction i as [|i IH]; [done|]. unfold toy_cursor in *. cbn [Nat.iter nat_rect String.length] in *. by rewrite IH. Qed.
Lemma toy_server_honest : honest toy_chunks toy_cursor 9 toy_server.
Proof.
  split; [done| | |done].
  - intros n i k Hi. unfold toy_server. by rewrite toy_cursor_length.
  - intros i j H. apply (f_equal String.length) in H. rewrite !toy_cursor_length in H. lia.
Qed.

Lemma scan_complete_or_truncated_witness :
  ∃ pages, paginateContractEvents (λ z : Z, z) toy_server (λ _, None) (Ok 9) (mkPaginate None None None None false) = (pages, None) ∧
    concat (pg_events <$> pages) = [4; 5].
Proof.
  destruct (scan_complete_or_truncated (λ z : Z, z) toy_server (λ _, None) toy_chunks toy_cursor 9 (mkPaginate None None None None false)
    toy_server_honest ltac:(done) eq_refl) as (pages & H1 & H2 & _).
  exists pages. split; [exact H1|]. rewrite H2. reflexivity.
Defined.
