(* ===== verification/SdkStealth.v ===== *)
(** * SDK: stealth addresses

    The dual-key stealth address protocol of [sdk/src/crypto/dksap.ts], the announcement
    scanners of [sdk/src/crypto/scan.ts] and the hex helpers of [sdk/src/crypto/bytes.ts].
    The curve, the hashes and the Ed25519 key pairs are the libraries' ([@noble/curves],
    [@noble/hashes], [@stellar/stellar-sdk]): classes with their documented behaviour. *)
From Stdlib Require Import Ascii.
From stdpp Require Import base tactics list sets strings.
From Stdlib Require Import ZArith Lia.
From S2P Require Import Prelude JsString JsMap Bytes PubValidate RelPayload SdkPool.
Open Scope string_scope.
Open Scope list_scope.
Open Scope Z_scope.

(** ** Hex *)
Module CryptoBytes.
Definition hexToBytes (hex : string) : res (list byte) :=
  let h := strip0x hex in
  if negb (Nat.even (String.length h)) then Err (JsError "Invalid hex length")
  else if negb (all_chars is_hex h) then Err (JsError "Invalid hex characters")
  else ok_or (bytes_of_hex h) (JsError "Invalid hex characters").
Definition bytesToHex (b : list byte) : string := hex_of_bytes b.

Lemma hexToBytes_hex l : hexToBytes (hex_of_bytes l) = Ok l.
Proof.
  assert (Hs : strip0x (hex_of_bytes l) = hex_of_bytes l).
  { unfold strip0x. destruct (startsWith "0x" (hex_of_bytes l)) eqn:E; [|done]. exfalso.
    apply startsWith_app in E as Hr. pose proof (hex_of_bytes_hex l) as Hh. rewrite Hr in Hh.
    by rewrite all_chars_app in Hh. }
  unfold hexToBytes. rewrite Hs, hex_of_bytes_length, hex_of_bytes_hex, bytes_of_hex_of_bytes.
  rewrite Nat.even_mul. done.
Qed.
End CryptoBytes.
Import CryptoBytes.

(** ** The libraries *)

(** [@noble/curves] secp256k1: a cyclic group of order [curve_n] with its encodings. *)
Class Secp256k1 : Type := {
  Point : Type;
  ZERO : Point;
  BASE : Point;
  curve_n : Z;
  point_add : Point → Point → Point;
  multiply : Z → Point → Point;
  fromHex : list byte → res Point;
  toRawBytes : bool → Point → res (list byte);              (** whether compressed *)
  getPublicKey : list byte → bool → res (list byte);
  curve_n_range : 1 < curve_n < 2 ^ 256;
  multiply_assoc a b : multiply a (multiply b BASE) = multiply (a * b) BASE;
  multiply_add a b : point_add (multiply a BASE) (multiply b BASE) = multiply (a + b) BASE;
  multiply_mod a : multiply (a mod curve_n) BASE = multiply a BASE;
  multiply_zero a : multiply a BASE = ZERO ↔ a mod curve_n = 0;
  toRawBytes_zero c : is_ok (toRawBytes c ZERO) = false;
  toRawBytes_ok c a : multiply a BASE ≠ ZERO →
    ∃ b, toRawBytes c (multiply a BASE) = Ok b ∧ fromHex b = Ok (multiply a BASE);
  toRawBytes_compressed P b : toRawBytes true P = Ok b → length b = 33%nat;
  getPublicKey_valid k c : length k = 32%nat → 0 < be_val 0 k < curve_n →
    getPublicKey k c = toRawBytes c (multiply (be_val 0 k) BASE);
  getPublicKey_invalid k c : is_ok (getPublicKey k c) = true → length k = 32%nat ∧ 0 < be_val 0 k < curve_n;
}.

(** The hashes of [@noble/hashes] and the key pairs of [@stellar/stellar-sdk]. *)
Class StealthPrims : Type := {
  keccak_256 : list byte → list byte;
  sha256 : list byte → list byte;
  hkdf : list byte → string → nat → list byte;              (** input, info, length *)
  Keypair : Type;
  fromRawEd25519Seed : list byte → Keypair;
  publicKey : Keypair → string;
  keccak_length l : length (keccak_256 l) = 32%nat;
}.

(** ** Keys and meta-addresses *)
Definition DOMAIN : string := "opaque-cash-v1".
Definition PROTOCOL_VERSION : string := "1".

Record DomainSeparationOpts : Type := mkDomainOpts {
  do_origin : string;
  do_networkPassphrase : string;
  do_walletPublicKey : string;
  do_purpose : string;
}.

Definition newline : string := String "010"%char "".
Definition buildDomainSeparatedMessage (opts : DomainSeparationOpts) : string :=
  join newline
    ["--- Opaque Protocol Key Derivation ---";
     "App: Opaque Stellar";
     "Origin: " +:+ do_origin opts;
     "Network: " +:+ do_networkPassphrase opts;
     "Wallet: " +:+ do_walletPublicKey opts;
     "Version: " +:+ PROTOCOL_VERSION;
     "Purpose: " +:+ do_purpose opts;
     "";
     "Warning: Signing this message authorizes key derivation for the Opaque protocol.";
     "This is not a transaction and does not move funds.";
     "Do not sign this message on untrusted sites or applications."].

Section dksap.
Context {EC : Secp256k1} {SP : StealthPrims}.

(** viewing key, spending key *)
Definition deriveKeysFromSignature (signatureHex : string) : res (list byte * list byte) :=
  sig ← hexToBytes (strip0x signatureHex);
  let okm := hkdf sig DOMAIN 64 in
  Ok (take 32 okm, take 32 (drop 32 okm)).

Definition keysToStealthMetaAddress (viewingKey spendingKey : list byte)
  : res (list byte * list byte * list byte) :=
  V ← getPublicKey viewingKey true;
  S ← getPublicKey spendingKey true;
  Ok (V, S, V ++ S).

Definition stealthMetaAddressToHex (metaAddress : list byte) : string := "0x" +:+ bytesToHex metaAddress.

Definition isValidCompressedSecp256k1PublicKey (bytes : list byte) : bool :=
  if negb (length bytes =? 33)%nat || negb (match bytes with b :: _ => (byte_val b =? 2) || (byte_val b =? 3) | [] => false end)
  then false
  else is_ok (fromHex bytes).

Definition assertValidStealthMetaAddress (metaAddress : list byte) : res unit :=
  if negb (length metaAddress =? 66)%nat
  then Err (JsError ("Invalid stealth meta-address: expected 66 bytes, got " +:+
                     bigint_toString 10 (Z.of_nat (length metaAddress))))
  else if negb (isValidCompressedSecp256k1PublicKey (take 33 metaAddress))
  then Err (JsError "Invalid stealth meta-address: viewing key is not a valid secp256k1 point")
  else if negb (isValidCompressedSecp256k1PublicKey (take 33 (drop 33 metaAddress)))
  then Err (JsError "Invalid stealth meta-address: spending key is not a valid secp256k1 point")
  else Ok tt.

(** view public key, spend public key *)
Definition parseStealthMetaAddress (metaHex : string) : res (list byte * list byte) :=
  bytes ← hexToBytes (strip0x metaHex);
  if (length bytes <? 66)%nat then Err (JsError "Invalid stealth meta-address: expected 66 bytes")
  else Ok (take 33 bytes, take 33 (drop 33 bytes)).

(** ** Shared secret and stealth point *)
Definition sharedSecretFromScalarAndPoint (privScalar pointBytes : list byte) : res (list byte) :=
  P ← fromHex pointBytes;
  let scalar := bytesToBigInt privScalar mod curve_n in
  if scalar =? 0 then Err (JsError "Invalid scalar")
  else toRawBytes true (multiply scalar P).

(** the hash and its first byte *)
Definition hashSharedSecret (sharedSecret : list byte) : list byte * Z :=
  let sH := keccak_256 sharedSecret in (sH, byte_val (hd Byte.x00 sH)).

Definition stealth_id (uncompressed : list byte) : string :=
  "0x" +:+ bytesToHex (drop 12 (keccak_256 (drop 1 uncompressed))).

(** stealth address, uncompressed stealth point *)
Definition stealthPointAndAddress (spendPubKey sH : list byte) : res (string * list byte) :=
  let sHMod := bytesToBigInt sH mod curve_n in
  if sHMod =? 0 then Err (JsError "Invalid scalar from hash")
  else
    let S_h := multiply sHMod BASE in
    P_spend ← fromHex spendPubKey;
    uncompressed ← toRawBytes false (point_add P_spend S_h);
    Ok (stealth_id uncompressed, uncompressed).

Definition deriveStealthStellarKeypair (stealthPubKeyUncompressed : list byte) : Keypair :=
  let seed := sha256 (utf8 "opaque-stellar-stealth-v1" ++ stealthPubKeyUncompressed) in
  fromRawEd25519Seed (take 32 seed).
Definition deriveStealthStellarAddress (stealthPubKeyUncompressed : list byte) : string :=
  publicKey (deriveStealthStellarKeypair stealthPubKeyUncompressed).

Record StealthTransfer : Type := mkTransfer {
  st_ephemeralPriv : list byte;
  st_ephemeralPubKey : list byte;
  st_stealthAddress : string;
  st_stealthStellarAddress : string;
  st_viewTag : Z;
  st_metadata : list byte;
}.

(** [ephemeralPriv] is the key [randomPrivateKey] draws. *)
Definition computeStealthAddressAndViewTag (ephemeralPriv : list byte) (recipientMetaAddressHex : string)
  : res StealthTransfer :=
  keys ← parseStealthMetaAddress recipientMetaAddressHex;
  let '(viewPubKey, spendPubKey) := keys in
  ephemeralPubKey ← getPublicKey ephemeralPriv true;
  shared ← sharedSecretFromScalarAndPoint ephemeralPriv viewPubKey;
  let '(sH, viewTag) := hashSharedSecret shared in
  point ← stealthPointAndAddress spendPubKey sH;
  Ok (mkTransfer ephemeralPriv ephemeralPubKey point.1 (deriveStealthStellarAddress point.2) viewTag [to_byte viewTag]).

Record GhostAnnouncement : Type := mkGhost {
  ga_stealthAddress : string;
  ga_ephemeralPubKey : list byte;
  ga_metadata : list byte;
  ga_viewTag : Z;
}.
Definition buildGhostAnnouncementPayload (recipientMetaAddressHex ephemeralPrivKeyHex : string) : res GhostAnnouncement :=
  keys ← parseStealthMetaAddress recipientMetaAddressHex;
  let '(viewPubKey, spendPubKey) := keys in
  ephemeralPriv ← hexToBytes (strip0x ephemeralPrivKeyHex);
  if negb (length ephemeralPriv =? 32)%nat then Err (JsError "Ephemeral private key must be 32 bytes.")
  else
    ephemeralPubKey ← getPublicKey ephemeralPriv true;
    shared ← sharedSecretFromScalarAndPoint ephemeralPriv viewPubKey;
    let '(sH, viewTag) := hashSharedSecret shared in
    point ← stealthPointAndAddress spendPubKey sH;
    Ok (mkGhost point.1 ephemeralPubKey [to_byte viewTag] viewTag).

(** ** The recipient *)
Definition recipientSharedSecretHash (viewingKey ephemeralPubKey : list byte) : res (list byte * Z) :=
  shared ← sharedSecretFromScalarAndPoint viewingKey ephemeralPubKey;
  Ok (hashSharedSecret shared).

Definition checkViewTagMatch (viewingKey ephemeralPubKey : list byte) (viewTag : Z) : res bool :=
  h ← recipientSharedSecretHash viewingKey ephemeralPubKey;
  Ok (h.2 =? viewTag).

Definition reconstructStealthPrivateKey (viewingKey spendingKey ephemeralPubKey : list byte) : res (list byte) :=
  h ← recipientSharedSecretHash viewingKey ephemeralPubKey;
  let sHMod := bytesToBigInt h.1 mod curve_n in
  let spend := bytesToBigInt spendingKey mod curve_n in
  let stealth := (spend + sHMod) mod curve_n in
  if stealth =? 0 then Err (JsError "Reconstructed stealth key is zero")
  else Ok (bigIntToBytes32 stealth).

Definition ANNOUNCER_SALT : string := "opaque-announcer-v1".
Definition deriveAnnouncerEphemeralKey (metaAddressHex : string) : list byte :=
  let seed := utf8 (strip0x metaAddressHex +:+ ANNOUNCER_SALT) in
  let scalar := bytesToBigInt (hkdf seed "opaque-announcer-ephemeral" 32) mod curve_n in
  bigIntToBytes32 (if scalar =? 0 then 1 else scalar).

Definition stealthIdFromPrivateKey (stealthPrivKey : list byte) : res string :=
  uncompressed ← getPublicKey stealthPrivKey false;
  Ok (stealth_id uncompressed).
Definition deriveStealthStellarAddressFromStealthPrivKey (stealthPrivKey : list byte) : res string :=
  uncompressed ← getPublicKey stealthPrivKey false;
  Ok (deriveStealthStellarAddress uncompressed).
Definition deriveStealthStellarKeypairFromStealthPrivKey (stealthPrivKey : list byte) : res Keypair :=
  uncompressed ← getPublicKey stealthPrivKey false;
  Ok (deriveStealthStellarKeypair uncompressed).

(** ** Scanning *)
Record StealthAnnouncement : Type := mkAnnouncement {
  sa_stealthAddress : string;
  sa_ephemeralPubKey : list byte;
  sa_viewTag : Z;
}.
Record ScanMatch : Type := mkMatch {
  sm_announcement : StealthAnnouncement;
  sm_stealthPrivKey : list byte;
  sm_stealthStellarAddress : string;
}.
Record ViewOnlyMatch : Type := mkViewOnly {
  vm_announcement : StealthAnnouncement;
  vm_derivedStealthAddress : string;
}.

(** The scalars are read through their hexadecimal text. *)
Definition hex_scalar (l : list byte) : res Z := BigInt ("0x" +:+ bytesToHex l).
Definition deriveStealthAddressViewOnly (viewingKey spendingPubKey ephemeralPubKey : list byte) : res string :=
  ephPoint ← fromHex ephemeralPubKey;
  view ← hex_scalar viewingKey;
  let viewScalar := view mod curve_n in
  if viewScalar =? 0 then Err (JsError "Invalid view scalar")
  else
    sharedSecret ← toRawBytes true (multiply viewScalar ephPoint);
    hash ← hex_scalar (keccak_256 sharedSecret);
    let sHScalar := hash mod curve_n in
    if sHScalar =? 0 then Err (JsError "Invalid hash scalar")
    else
      let S_h := multiply sHScalar BASE in
      P_spend ← fromHex spendingPubKey;
      uncompressed ← toRawBytes false (point_add P_spend S_h);
      Ok (stealth_id uncompressed).

(** One turn of each scanner's loop: what it pushes. *)
Definition scan_one (viewingKey spendingKey : list byte) (a : StealthAnnouncement) : res (list ScanMatch) :=
  tag ← checkViewTagMatch viewingKey (sa_ephemeralPubKey a) (sa_viewTag a);
  if negb tag then Ok []
  else
    stealthPrivKey ← reconstructStealthPrivateKey viewingKey spendingKey (sa_ephemeralPubKey a);
    id ← stealthIdFromPrivateKey stealthPrivKey;
    if negb (String.eqb (toLowerCase id) (toLowerCase (sa_stealthAddress a))) then Ok []
    else
      addr ← deriveStealthStellarAddressFromStealthPrivKey stealthPrivKey;
      Ok [mkMatch a stealthPrivKey addr].
Fixpoint scanAnnouncements (viewingKey spendingKey : list byte) (announcements : list StealthAnnouncement)
  : res (list ScanMatch) :=
  match announcements with
  | [] => Ok []
  | a :: rest =>
      m ← scan_one viewingKey spendingKey a;
      ms ← scanAnnouncements viewingKey spendingKey rest;
      Ok (m ++ ms)
  end.

Definition view_one (viewingKey spendingPubKey : list byte) (a : StealthAnnouncement) : res (list ViewOnlyMatch) :=
  tag ← checkViewTagMatch viewingKey (sa_ephemeralPubKey a) (sa_viewTag a);
  if negb tag then Ok []
  else
    derived ← deriveStealthAddressViewOnly viewingKey spendingPubKey (sa_ephemeralPubKey a);
    if negb (String.eqb (toLowerCase derived) (toLowerCase (sa_stealthAddress a))) then Ok []
    else Ok [mkViewOnly a derived].
Fixpoint scanAnnouncementsViewOnly (viewingKey spendingPubKey : list byte) (announcements : list StealthAnnouncement)
  : res (list ViewOnlyMatch) :=
  match announcements with
  | [] => Ok []
  | a :: rest =>
      m ← view_one viewingKey spendingPubKey a;
      ms ← scanAnnouncementsViewOnly viewingKey spendingPubKey rest;
      Ok (m ++ ms)
  end.
End dksap.

(** ** Lemmas *)
Section stealth.
Context {EC : Secp256k1} {SP : StealthPrims}.

Definition valid_key (k : list byte) : Prop := length k = 32%nat ∧ 0 < be_val 0 k < curve_n.

Lemma hex_scalar_val l : l ≠ [] → hex_scalar l = Ok (bytesToBigInt l).
Proof.
  intros Hl. unfold hex_scalar, bytesToHex, BigInt. 
  rewrite bigint_of_0x; [|by destruct l|apply hex_of_bytes_hex].
  enough (∀ acc, digits_val 16 acc (hex_of_bytes l) = Some (be_val acc l)) as -> by done.
  clear Hl. induction l as [|b l IH]; intros acc; [done|]. cbn [hex_of_bytes be_val]. unfold byte_hex.
  cbn [String.append digits_val]. pose proof (byte_val_range b). pose proof (Z.div_mod (byte_val b) 16).
  pose proof (Z.mod_pos_bound (byte_val b) 16).
  assert (0 <= byte_val b / 16 < 16) by (split; [apply Z.div_pos|apply Z.div_lt_upper_bound]; lia).
  rewrite !digit_val_char by lia. rewrite !(proj2 (Z.ltb_lt _ 16)) by lia. rewrite IH. do 2 f_equal. lia.
Qed.

(** A public key is the encoding of its scalar times the base point. *)
Lemma getPublicKey_ok k c b :
  getPublicKey k c = Ok b → valid_key k ∧ toRawBytes c (multiply (be_val 0 k) BASE) = Ok b ∧
    fromHex b = Ok (multiply (be_val 0 k) BASE).
Proof.
  intros H. assert (Hv : valid_key k) by (apply (getPublicKey_invalid k c); by rewrite H).
  split; [done|]. rewrite getPublicKey_valid in H by apply Hv. split; [done|].
  destruct (toRawBytes_ok c (be_val 0 k)) as (b' & Hb & Hf); [|congruence].
  intros Hz. pose proof (toRawBytes_zero c) as Hc. by rewrite <-Hz, H in Hc.
Qed.

Lemma valid_mod k : valid_key k → bytesToBigInt k mod curve_n = be_val 0 k.
Proof. intros [_ Hk]. apply Z.mod_small. unfold bytesToBigInt. lia. Qed.

Lemma shared_by_point k b P :
  valid_key k → fromHex b = Ok P →
  sharedSecretFromScalarAndPoint k b = toRawBytes true (multiply (be_val 0 k) P).
Proof.
  intros Hk Hb. unfold sharedSecretFromScalarAndPoint. rewrite Hb. cbn [mbind res_bind]. rewrite valid_mod by done.
  destruct (Z.eqb_spec (be_val 0 k) 0); [|done]. destruct Hk. lia.
Qed.

(** Both sides of the exchange compute the same secret. *)
Lemma shared_symmetric v e V E :
  getPublicKey v true = Ok V → getPublicKey e true = Ok E →
  sharedSecretFromScalarAndPoint e V = sharedSecretFromScalarAndPoint v E.
Proof.
  intros (Hv & _ & HV)%getPublicKey_ok (He & _ & HE)%getPublicKey_ok.
  rewrite (shared_by_point _ _ _ He HV), (shared_by_point _ _ _ Hv HE), !multiply_assoc. do 2 f_equal. lia.
Qed.

(** The stealth point is the public key of the reconstructed private key. *)
Lemma stealth_point s S h :
  getPublicKey s true = Ok S → h mod curve_n = h →
  let k := (be_val 0 s + h) mod curve_n in
  ∃ P, fromHex S = Ok P ∧ point_add P (multiply h BASE) = multiply k BASE ∧ (multiply k BASE = ZERO ↔ k = 0) ∧
    (k ≠ 0 → valid_key (bigIntToBytes32 k) ∧
       ∀ c, getPublicKey (bigIntToBytes32 k) c = toRawBytes c (multiply k BASE)).
Proof.
  intros (Hs & _ & HS)%getPublicKey_ok Hh k. pose proof curve_n_range as Hn.
  assert (Hk : 0 <= k < curve_n) by (apply Z.mod_pos_bound; lia).
  exists (multiply (be_val 0 s) BASE). split; [done|]. rewrite multiply_add. subst k. rewrite multiply_mod.
  split; [done|]. split; [by rewrite multiply_zero|]. intros Hk0. set (k := (be_val 0 s + h) mod curve_n) in *.
  assert (Hv : valid_key (bigIntToBytes32 k)).
  { unfold valid_key, bigIntToBytes32. rewrite be_bytes_length, be_val_be_bytes, Z.mod_small; [|lia]. split; [done|lia]. }
  split; [done|]. intros c. rewrite getPublicKey_valid by apply Hv. unfold bigIntToBytes32.
  rewrite be_val_be_bytes, Z.mod_small by lia. subst k. by rewrite multiply_mod.
Qed.

Lemma scan_app v s l1 l2 :
  scanAnnouncements v s (l1 ++ l2) = (x ← scanAnnouncements v s l1; y ← scanAnnouncements v s l2; Ok (x ++ y)).
Proof.
  induction l1 as [|a l1 IH]; cbn [app scanAnnouncements].
  - by destruct (scanAnnouncements v s l2).
  - destruct (scan_one v s a) as [m|]; [|done]. cbn [mbind res_bind]. rewrite IH.
    destruct (scanAnnouncements v s l1) as [x|]; [|done]. cbn [mbind res_bind].
    destruct (scanAnnouncements v s l2) as [y|]; [|done]. cbn [mbind res_bind]. by rewrite app_assoc.
Qed.

Lemma meta_parses v s V S meta :
  keysToStealthMetaAddress v s = Ok (V, S, meta) →
  getPublicKey v true = Ok V ∧ getPublicKey s true = Ok S ∧
  parseStealthMetaAddress (stealthMetaAddressToHex meta) = Ok (V, S).
Proof.
  unfold keysToStealthMetaAddress. intros (V' & HV & (S' & HS & H)%bind_ok)%bind_ok.
  apply Ok_inj in H. simplify_eq. split_and!; [done|done|].
  pose proof HV as (_ & HV33%toRawBytes_compressed & _)%getPublicKey_ok.
  pose proof HS as (_ & HS33%toRawBytes_compressed & _)%getPublicKey_ok.
  unfold parseStealthMetaAddress, stealthMetaAddressToHex, bytesToHex. rewrite strip0x_0x, hexToBytes_hex.
  cbn [mbind res_bind]. rewrite length_app, HV33, HS33. cbn [Nat.add Nat.ltb Nat.leb].
  by rewrite take_app_length', drop_app_length', take_ge by lia.
Qed.

(** What the sender derives for a meta-address is what its owner reconstructs. *)
Lemma transfer_reconstructed v s V S meta e st :
  keysToStealthMetaAddress v s = Ok (V, S, meta) →
  computeStealthAddressAndViewTag e (stealthMetaAddressToHex meta) = Ok st →
  ∃ sH unc k,
    recipientSharedSecretHash v (st_ephemeralPubKey st) = Ok (sH, st_viewTag st) ∧
    stealthPointAndAddress S sH = Ok (st_stealthAddress st, unc) ∧ st_stealthAddress st = stealth_id unc ∧
    st_stealthStellarAddress st = deriveStealthStellarAddress unc ∧
    reconstructStealthPrivateKey v s (st_ephemeralPubKey st) = Ok k ∧ valid_key k ∧ getPublicKey k false = Ok unc.
Proof.
  intros (HV & HS & Hp)%meta_parses Hst. unfold computeStealthAddressAndViewTag in Hst. rewrite Hp in Hst.
  cbn [mbind res_bind] in Hst. apply bind_ok in Hst as (E & HE & Hst). apply bind_ok in Hst as (shared & Hsh & Hst).
  cbn [hashSharedSecret] in Hst. apply bind_ok in Hst as ([id unc] & Hpt & Hst). apply Ok_inj in Hst. subst st. cbn [fst snd
    st_ephemeralPubKey st_viewTag st_stealthAddress st_stealthStellarAddress].
  rewrite (shared_symmetric _ _ _ _ HV HE) in Hsh.
  set (sH := keccak_256 shared) in *. set (h := bytesToBigInt sH mod curve_n) in *.
  destruct (stealth_point s S h HS) as (P & HP & Hadd & Hz & Hk); [subst h; by rewrite Z.mod_mod by (pose proof curve_n_range; lia)|].
  set (k := (be_val 0 s + h) mod curve_n) in *.
  pose proof Hpt as Hpt'. unfold stealthPointAndAddress in Hpt'. fold h in Hpt'.
  destruct (h =? 0); [done|]. rewrite HP in Hpt'. cbn [mbind res_bind] in Hpt'. rewrite Hadd in Hpt'.
  apply bind_ok in Hpt' as (u & Hu & Hpt'). apply Ok_inj in Hpt' as [= <- <-].
  assert (Hk0 : k ≠ 0). { intros Hk0%Hz. pose proof (toRawBytes_zero false) as Hc. by rewrite <-Hk0, Hu in Hc. }
  destruct (Hk Hk0) as [Hval Hpub]. exists sH, u, (bigIntToBytes32 k).
  split_and!; [unfold recipientSharedSecretHash; by rewrite Hsh|done|done|done| |done|by rewrite Hpub].
  unfold reconstructStealthPrivateKey, recipientSharedSecretHash. rewrite Hsh. cbn [mbind res_bind hashSharedSecret fst].
  pose proof HS as (Hsv & _)%getPublicKey_ok. rewrite (valid_mod s Hsv). fold sH h k. destruct (Z.eqb_spec k 0); [done|done].
Qed.

(** C11 (functional): A payment made to a meta-address is found by its owner, wherever its
    announcement stands in the list, with a one-time key that is the key of the Stellar
    account the sender paid. *)
Theorem stealth_payment_is_found v s V S meta e st
    (Hkeys : keysToStealthMetaAddress v s = Ok (V, S, meta))
    (Hsent : computeStealthAddressAndViewTag e (stealthMetaAddressToHex meta) = Ok st) :
  let a := mkAnnouncement (st_stealthAddress st) (st_ephemeralPubKey st) (st_viewTag st) in
  ∃ k kp, deriveStealthStellarKeypairFromStealthPrivKey k = Ok kp ∧ publicKey kp = st_stealthStellarAddress st ∧
    ∀ before after,
      scanAnnouncements v s (before ++ a :: after) =
        (x ← scanAnnouncements v s before; y ← scanAnnouncements v s after;
         Ok (x ++ mkMatch a k (st_stealthStellarAddress st) :: y)).
Proof.
  intros a. destruct (transfer_reconstructed v s V S meta e st Hkeys Hsent) as (sH & unc & k & Hh & _ & Hid & Hst & Hk & _ & Hpub).
  exists k, (deriveStealthStellarKeypair unc). split; [unfold deriveStealthStellarKeypairFromStealthPrivKey; by rewrite Hpub|].
  split; [by rewrite Hst|]. intros before after. rewrite scan_app. cbn [scanAnnouncements].
  assert (scan_one v s a = Ok [mkMatch a k (st_stealthStellarAddress st)]) as ->.
  { unfold scan_one, checkViewTagMatch. subst a. cbn [sa_ephemeralPubKey sa_viewTag sa_stealthAddress]. rewrite Hh.
    cbn [mbind res_bind snd]. rewrite Z.eqb_refl. cbn [negb]. rewrite Hk. cbn [mbind res_bind].
    unfold stealthIdFromPrivateKey, deriveStealthStellarAddressFromStealthPrivKey. rewrite Hpub. cbn [mbind res_bind].
    by rewrite <-Hid, String.eqb_refl, Hst. }
  destruct (scanAnnouncements v s before); [|done]. cbn [mbind res_bind].
  destruct (scanAnnouncements v s after); done.
Qed.

(** The key pair of a one-time account needs no spending key: the viewing key,
    the recipient's public spending key and the announcement determine it, and so do the
    values the sender computed when paying. *)
Theorem view_key_controls_funds v s V S meta e st
    (Hkeys : keysToStealthMetaAddress v s = Ok (V, S, meta))
    (Hsent : computeStealthAddressAndViewTag e (stealthMetaAddressToHex meta) = Ok st) :
  ∃ k kp,
    reconstructStealthPrivateKey v s (st_ephemeralPubKey st) = Ok k ∧
    deriveStealthStellarKeypairFromStealthPrivKey k = Ok kp ∧ publicKey kp = st_stealthStellarAddress st ∧
    (h ← recipientSharedSecretHash v (st_ephemeralPubKey st);
     p ← stealthPointAndAddress S h.1; Ok (deriveStealthStellarKeypair p.2)) = Ok kp ∧
    (shared ← sharedSecretFromScalarAndPoint (st_ephemeralPriv st) V;
     p ← stealthPointAndAddress S (hashSharedSecret shared).1; Ok (deriveStealthStellarKeypair p.2)) = Ok kp.
Proof.
  destruct (transfer_reconstructed v s V S meta e st Hkeys Hsent) as (sH & unc & k & Hh & Hpt & _ & Hst & Hk & _ & Hpub).
  exists k, (deriveStealthStellarKeypair unc). split; [done|].
  split; [unfold deriveStealthStellarKeypairFromStealthPrivKey; by rewrite Hpub|]. split; [by rewrite Hst|].
  split; [rewrite Hh; cbn [mbind res_bind fst]; by rewrite Hpt|].
  apply meta_parses in Hkeys as (HV & HS & Hp). unfold computeStealthAddressAndViewTag in Hsent. rewrite Hp in Hsent.
  cbn [mbind res_bind] in Hsent. apply bind_ok in Hsent as (E & HE & (shared & Hsh & H)%bind_ok).
  cbn [hashSharedSecret] in H. apply bind_ok in H as (pt & Hpt' & H). apply Ok_inj in H. subst st.
  cbn [st_ephemeralPriv st_ephemeralPubKey] in *. rewrite Hsh. cbn [mbind res_bind fst hashSharedSecret].
  rewrite (shared_symmetric _ _ _ _ HV HE) in Hsh. unfold recipientSharedSecretHash in Hh. rewrite Hsh in Hh.
  apply Ok_inj, (f_equal fst) in Hh. cbn [hashSharedSecret fst] in Hh. rewrite Hh, Hpt. done.
Qed.

Lemma view_scan_one v s S a ws :
  getPublicKey s true = Ok S → view_one v S a = Ok ws →
  ∃ ms, scan_one v s a = Ok ms ∧ vm_announcement <$> ws = sm_announcement <$> ms ∧
    Forall2 (λ w m, stealthIdFromPrivateKey (sm_stealthPrivKey m) = Ok (vm_derivedStealthAddress w)) ws ms.
Proof.
  intros HS Hw. unfold view_one in Hw. apply bind_ok in Hw as (tag & Htag & Hw). unfold scan_one. rewrite Htag.
  cbn [mbind res_bind]. destruct tag; cbn [negb] in *; [|apply Ok_inj in Hw as <-; by exists []].
  unfold checkViewTagMatch in Htag. apply bind_ok in Htag as ([sH t] & Hh & _).
  pose proof Hh as (shared & Hsh & Hh')%bind_ok. apply Ok_inj in Hh'. unfold hashSharedSecret in Hh'. injection Hh' as Hs _.
  apply bind_ok in Hw as (id & Hid & Hw). unfold deriveStealthAddressViewOnly in Hid.
  apply bind_ok in Hid as (E & HE & Hid). unfold sharedSecretFromScalarAndPoint in Hsh. rewrite HE in Hsh.
  cbn [mbind res_bind] in Hsh. destruct (Z.eqb_spec (bytesToBigInt v mod curve_n) 0) as [|Hv0]; [done|].
  rewrite hex_scalar_val in Hid by (intros ->; by rewrite Z.mod_0_l in Hv0 by (pose proof curve_n_range; lia)).
  cbn [mbind res_bind] in Hid. destruct (Z.eqb_spec (bytesToBigInt v mod curve_n) 0) as [|_]; [done|].
  rewrite Hsh in Hid. cbn [mbind res_bind] in Hid.
  rewrite hex_scalar_val in Hid by (intros Hn; by pose proof (keccak_length shared) as Hl; rewrite Hn in Hl).
  cbn [mbind res_bind] in Hid. rewrite Hs in Hid. set (h := bytesToBigInt sH mod curve_n) in *.
  destruct (Z.eqb_spec h 0) as [|Hh0]; [done|].
  destruct (stealth_point s S h HS) as (P & HP & Hadd & Hz & Hk); [subst h; by rewrite Z.mod_mod by (pose proof curve_n_range; lia)|].
  rewrite HP in Hid. cbn [mbind res_bind] in Hid. rewrite Hadd in Hid. apply bind_ok in Hid as (unc & Hu & Hid).
  apply Ok_inj in Hid as <-. set (k := (be_val 0 s + h) mod curve_n) in *.
  assert (Hk0 : k ≠ 0). { intros Hk0%Hz. pose proof (toRawBytes_zero false) as Hc. by rewrite <-Hk0, Hu in Hc. }
  destruct (Hk Hk0) as [_ Hpub].
  assert (Hr : reconstructStealthPrivateKey v s (sa_ephemeralPubKey a) = Ok (bigIntToBytes32 k)).
  { unfold reconstructStealthPrivateKey. rewrite Hh. cbn [mbind res_bind fst].
    pose proof HS as (Hsv & _)%getPublicKey_ok. rewrite (valid_mod s Hsv). fold h k. by destruct (Z.eqb_spec k 0). }
  rewrite Hr. cbn [mbind res_bind]. unfold stealthIdFromPrivateKey, deriveStealthStellarAddressFromStealthPrivKey.
  rewrite Hpub, Hu. cbn [mbind res_bind].
  destruct (String.eqb (toLowerCase (stealth_id unc)) (toLowerCase (sa_stealthAddress a))); cbn [negb] in *;
    apply Ok_inj in Hw as <-; [|by exists []]. eexists. split; [done|]. split; [done|]. constructor; [|done].
  cbn [sm_stealthPrivKey vm_derivedStealthAddress]. by rewrite Hpub, Hu.
Qed.

(** When the view-only scan of a list succeeds, so does the full scan, and
    both report the same announcements with the same stealth addresses. *)
Theorem view_only_scan_agrees v s S anns ws
    (HS : getPublicKey s true = Ok S) (Hw : scanAnnouncementsViewOnly v S anns = Ok ws) :
  ∃ ms, scanAnnouncements v s anns = Ok ms ∧ vm_announcement <$> ws = sm_announcement <$> ms ∧
    Forall2 (λ w m, stealthIdFromPrivateKey (sm_stealthPrivKey m) = Ok (vm_derivedStealthAddress w)) ws ms.
Proof.
  revert ws Hw. induction anns as [|a anns IH]; intros ws Hw; cbn [scanAnnouncementsViewOnly scanAnnouncements] in *.
  { apply Ok_inj in Hw as <-. by exists []. }
  apply bind_ok in Hw as (w1 & Hw1 & (w2 & Hw2 & Hw)%bind_ok). apply Ok_inj in Hw as <-.
  destruct (view_scan_one _ _ _ _ _ HS Hw1) as (m1 & -> & He1 & Hf1). destruct (IH _ Hw2) as (m2 & -> & He2 & Hf2).
  exists (m1 ++ m2). rewrite !fmap_app, He1, He2. split_and!; [done|done|]. by apply Forall2_app.
Qed.

(** One announcement whose ephemeral key is no curve point makes the whole scan
    fail, whatever the keys and the other announcements; a key of the right length and
    prefix is not enough. *)
Theorem bad_announcement_stops_scan v s anns a err
    (Ha : a ∈ anns) (Hbad : fromHex (sa_ephemeralPubKey a) = Err err) :
  (∃ e, scanAnnouncements v s anns = Err e) ∧ ∀ S, ∃ e, scanAnnouncementsViewOnly v S anns = Err e.
Proof.
  assert (Ht : checkViewTagMatch v (sa_ephemeralPubKey a) (sa_viewTag a) = Err err).
  { unfold checkViewTagMatch, recipientSharedSecretHash, sharedSecretFromScalarAndPoint. by rewrite Hbad. }
  assert (H1 : ∃ e, scan_one v s a = Err e) by (unfold scan_one; rewrite Ht; by eexists).
  assert (H2 : ∀ S, ∃ e, view_one v S a = Err e) by (intros S; unfold view_one; rewrite Ht; by eexists).
  clear Ht Hbad. split; [|intros S]; induction anns as [|b anns IH]; try (by apply elem_of_nil in Ha);
    cbn [scanAnnouncements scanAnnouncementsViewOnly]; apply elem_of_cons in Ha as [<-|Ha].
  - destruct H1 as [e ->]. by eexists.
  - destruct (scan_one v s b); [|by eexists]. destruct (IH Ha) as [e ->]. by eexists.
  - destruct (H2 S) as [e ->]. by eexists.
  - destruct (view_one v S b); [|by eexists]. destruct (IH Ha) as [e ->]. by eexists.
Qed.
End stealth.

(** ** A curve of seven points *)
Definition toy_encode (c : bool) (P : Z) : res (list byte) :=
  if P =? 0 then Err (JsError "bad point: ZERO")
  else Ok (if c then Byte.x02 :: be_bytes 32 P else Byte.x04 :: be_bytes 32 P ++ be_bytes 32 0).
Definition toy_decode (b : list byte) : res Z :=
  let P := be_val 0 (take 32 (drop 1 b)) in
  if (0 <? P) && (P <? 7) then Ok P else Err (JsError "bad point: not on curve").
Definition toy_valid (k : list byte) : bool := (length k =? 32)%nat && (0 <? be_val 0 k) && (be_val 0 k <? 7).

Lemma toy_decode_encode c P : 0 < P < 7 → ∃ b, toy_encode c P = Ok b ∧ toy_decode b = Ok P.
Proof.
  intros HP. unfold toy_encode. destruct (Z.eqb_spec P 0); [lia|]. eexists. split; [done|]. unfold toy_decode.
  assert (Ht : take 32 (drop 1 (if c then Byte.x02 :: be_bytes 32 P else Byte.x04 :: be_bytes 32 P ++ be_bytes 32 0)) = be_bytes 32 P).
  { destruct c; cbn [drop]; [rewrite take_ge; [done|]; change (drop 0 (be_bytes 32 P)) with (be_bytes 32 P); by rewrite be_bytes_length|].
    apply take_app_length'. by rewrite be_bytes_length. }
  rewrite Ht, be_val_be_bytes, Z.mod_small by lia. cbv zeta.
  destruct (Z.ltb_spec 0 P), (Z.ltb_spec P 7); try lia. done.
Qed.

Definition toy_curve : Secp256k1.
Proof.
  refine {| Point := Z; ZERO := 0; BASE := 1; curve_n := 7; point_add P Q := (P + Q) mod 7;
            multiply k P := (k * P) mod 7; fromHex := toy_decode; toRawBytes := toy_encode;
            getPublicKey k c := if toy_valid k then toy_encode c ((be_val 0 k * 1) mod 7) else Err (JsError "invalid private key") |}.
  - lia.
  - intros a b. rewrite Z.mul_1_r, Z.mul_1_r, Z.mul_mod_idemp_r; lia.
  - intros a b. rewrite !Z.mul_1_r, <-Z.add_mod; lia.
  - intros a. rewrite !Z.mul_1_r, Z.mod_mod; lia.
  - intros a. by rewrite Z.mul_1_r.
  - done.
  - intros c a Ha. apply toy_decode_encode. pose proof (Z.mod_pos_bound (a * 1) 7). lia.
  - intros P b. unfold toy_encode. destruct (P =? 0); [done|]. intros <-%Ok_inj. cbn [length]. by rewrite be_bytes_length.
  - intros k c Hl Hr. unfold toy_valid. rewrite Hl, Nat.eqb_refl. destruct (Z.ltb_spec 0 (be_val 0 k)), (Z.ltb_spec (be_val 0 k) 7); lia || done.
  - intros k c. destruct (toy_valid k) eqn:Hk; [|done]. intros _. unfold toy_valid in Hk.
    apply andb_prop in Hk as [Hk Hu]. apply andb_prop in Hk as [Hk Hl].
    apply Nat.eqb_eq in Hk. apply Z.ltb_lt in Hl, Hu. done.
Defined.

Definition toy_digest (l : list byte) : list byte := be_bytes 32 (1 + be_val 0 l mod 1000003).
Definition toy_prims : StealthPrims.
Proof.
  refine {| keccak_256 := toy_digest; sha256 := toy_digest; hkdf sig info n := be_bytes n (be_val 0 sig);
            Keypair := list byte; fromRawEd25519Seed seed := seed; publicKey k := "G" +:+ hex_of_bytes k |}.
  intros l. apply be_bytes_length.
Defined.
#[local] Existing Instance toy_curve.
#[local] Existing Instance toy_prims.

Definition toy_view : list byte := be_bytes 32 2.
Definition toy_spend : list byte := be_bytes 32 3.
Definition toy_ephemeral : list byte := be_bytes 32 5.
Definition toy_meta : list byte := (Byte.x02 :: be_bytes 32 2) ++ (Byte.x02 :: be_bytes 32 3).

Lemma toy_keys :
  keysToStealthMetaAddress toy_view toy_spend = Ok (Byte.x02 :: be_bytes 32 2, Byte.x02 :: be_bytes 32 3, toy_meta).
Proof. vm_compute. reflexivity. Qed.

Lemma stealth_payment_is_found_witness :
  ∃ st, computeStealthAddressAndViewTag toy_ephemeral (stealthMetaAddressToHex toy_meta) = Ok st ∧
    let a := mkAnnouncement (st_stealthAddress st) (st_ephemeralPubKey st) (st_viewTag st) in
    ∃ k, scanAnnouncements toy_view toy_spend [a] = Ok [mkMatch a k (st_stealthStellarAddress st)].
Proof.
  destruct (computeStealthAddressAndViewTag toy_ephemeral (stealthMetaAddressToHex toy_meta)) as [st|] eqn:E;
    [|exfalso; vm_compute in E; discriminate E].
  exists st. split; [done|]. intros a.
  destruct (stealth_payment_is_found toy_view toy_spend (Byte.x02 :: be_bytes 32 2) (Byte.x02 :: be_bytes 32 3) toy_meta
    toy_ephemeral st toy_keys E) as (k & kp & _ & _ & H).
  exists k. exact (H [] []).
Defined.

Lemma view_key_controls_funds_witness :
  ∃ st kp, computeStealthAddressAndViewTag toy_ephemeral (stealthMetaAddressToHex toy_meta) = Ok st ∧
    (h ← recipientSharedSecretHash toy_view (st_ephemeralPubKey st);
     p ← stealthPointAndAddress (Byte.x02 :: be_bytes 32 3) h.1; Ok (deriveStealthStellarKeypair p.2)) = Ok kp.
Proof.
  destruct (computeStealthAddressAndViewTag toy_ephemeral (stealthMetaAddressToHex toy_meta)) as [st|] eqn:E;
    [|exfalso; vm_compute in E; discriminate E].
  destruct (view_key_controls_funds toy_view toy_spend (Byte.x02 :: be_bytes 32 2) (Byte.x02 :: be_bytes 32 3) toy_meta
    toy_ephemeral st toy_keys E) as (k & kp & _ & _ & _ & H & _).
  exists st, kp. split; [done|exact H].
Defined.

Definition toy_announcement : StealthAnnouncement := mkAnnouncement "0x00" (Byte.x02 :: be_bytes 32 4) 0.
Lemma view_only_scan_agrees_witness :
  ∃ ms, scanAnnouncements toy_view toy_spend [toy_announcement] = Ok ms ∧ sm_announcement <$> ms = [].
Proof.
  destruct (view_only_scan_agrees (EC := toy_curve) (SP := toy_prims) toy_view toy_spend (Byte.x02 :: be_bytes 32 3) [toy_announcement] []
    ltac:(vm_compute; reflexivity) ltac:(vm_compute; reflexivity)) as (ms & H & He & _).
  exists ms. split; [exact H|symmetry; exact He].
Defined.

Lemma bad_announcement_stops_scan_witness :
  ∃ e, scanAnnouncements toy_view toy_spend [toy_announcement; mkAnnouncement "0x00" (Byte.x02 :: be_bytes 32 9) 0] = Err e.
Proof.
  apply (bad_announcement_stops_scan toy_view toy_spend _ (mkAnnouncement "0x00" (Byte.x02 :: be_bytes 32 9) 0)
    (JsError "bad point: not on curve")); [apply list_elem_of_In; right; left; reflexivity|vm_compute; reflexivity].
Defined.
