(* ===== verification/SdkStorage.v ===== *)
(** * SDK: note, vault and cursor stores

    The interfaces and in-memory stores of [sdk/src/storage/index.ts] and the
    passphrase-encrypted stores of [sdk/src/storage/encrypted.ts].  Stored notes and ghost
    entries are untyped objects, as the stores cast what they parse.  JSON text, the text
    decoder and Web Crypto (PBKDF2, AES-GCM) are parameters; a backend is any state with
    the two operations of [EncryptedStorageBackend]. *)
From Stdlib Require Import Ascii.
From stdpp Require Import countable.
From stdpp Require Import base tactics list sets strings.
From Stdlib Require Import ZArith Lia.
From S2P Require Import Prelude JsString JsMap Bytes Json PubValidate SdkCodec SdkSchema.
Open Scope string_scope.
Open Scope list_scope.
Open Scope Z_scope.

(** ** Objects *)

(** [{ ...v, k: x }] *)
Definition with_prop (v : jval) (k : string) (x : jval) : jval :=
  match v with JObj fs => JObj (JMap.set k x fs) | _ => JObj [(k, x)] end.
(** [v.k] where [v] must not be null or undefined *)
Definition read_prop (v : jval) (k : string) : res jval :=
  if is_nullish v then Err (TypeError ("Cannot read properties of null (reading '" +:+ k +:+ "')")) else Ok (prop v k).
Definition is_str (v : jval) (s : string) : bool := match v with JStr t => String.eqb t s | _ => false end.

(** What JSON text represents exactly. *)
Fixpoint json_data (v : jval) : bool :=
  match v with
  | JUndef => false
  | JNull | JBool _ | JNum _ | JStr _ => true
  | JFlt _ => NoteCodec.is_finite v
  | JArr l => (fix all l := match l with [] => true | x :: l' => json_data x && all l' end) l
  | JObj fs => bool_decide (NoDup fs.*1) &&
      (fix all fs := match fs with [] => true | (_, x) :: fs' => json_data x && all fs' end) fs
  end.

Lemma json_data_arr l : json_data (JArr l) = forallb json_data l.
Proof. done. Qed.
Lemma json_data_obj fs : json_data (JObj fs) = bool_decide (NoDup fs.*1) && forallb (λ p, json_data p.2) fs.
Proof. cbn [json_data]. f_equal. induction fs as [|[k x] fs IH]; [done|]. cbn [forallb snd]. by rewrite IH. Qed.

Lemma json_data_with_prop v k x : json_data v = true → json_data x = true → json_data (with_prop v k x) = true.
Proof.
  intros Hv Hx. destruct v as [| | | | | | |fs]; cbn [with_prop]; rewrite json_data_obj;
    try (cbn [forallb snd]; rewrite Hx, bool_decide_true; [done|apply NoDup_singleton]).
  rewrite json_data_obj in Hv. apply andb_prop in Hv as [Hn Hall]. apply bool_decide_eq_true in Hn.
  rewrite bool_decide_true by by apply (JMap.wf_set k x fs). cbn [andb]. apply forallb_forall. intros p Hp.
  apply list_elem_of_In, JMap.elem_of_set in Hp as [->|Hp]; [done|].
  rewrite forallb_forall in Hall. by apply Hall, list_elem_of_In.
Qed.

(** ** Interfaces *)
Class NoteStore (S : Type) : Type := {
  list_notes : M S jval;
  add_note : jval → M S unit;
  markSpent : string → M S unit;
}.
Class VaultStore (S : Type) : Type := {
  listGhosts : M S jval;
  saveGhost : jval → M S unit;
}.
Class ScanStore (S : Type) : Type := {
  getCursor : string → M S (option Z);
  setCursor : Z → string → M S unit;
}.

(** What a scan relies on: a cursor is read back, and setting one identity's cursor leaves
    the others. *)
Class ScanStoreLaws (S : Type) `{!ScanStore S} : Type := {
  scan_ok : S → Prop;
  setCursor_spec ledger i s s' : scan_ok s → setCursor ledger i s = (Ok tt, s') →
    scan_ok s' ∧ (getCursor i s').1 = Ok (Some ledger) ∧ ∀ j, j ≠ i → (getCursor j s').1 = (getCursor j s).1;
  getCursor_pure i s : (getCursor i s).2 = s;
}.

(** ** In memory *)
Module MemoryStores.
Definition notes_t : Type := list (string * jval).
Definition commitment_of (note : jval) : string := js_String (prop note "commitment").

Definition note_list : M notes_t jval := gets (λ m, JArr (JMap.vals m)).
Definition note_add (note : jval) : M notes_t unit := modify (JMap.set (commitment_of note) note).
Definition note_markSpent (commitment : string) : M notes_t unit :=
  note ← gets (JMap.get commitment);
  match note with
  | Some n => modify (JMap.set commitment (with_prop n "spent" (JBool true)))
  | None => mret tt
  end.
#[export] Instance MemoryNoteStore : NoteStore notes_t :=
  {| list_notes := note_list; add_note := note_add; markSpent := note_markSpent |}.

Definition ghosts_t : Type := list (string * jval).
Definition ghost_list : M ghosts_t jval := gets (λ m, JArr (JMap.vals m)).
Definition ghost_save (entry : jval) : M ghosts_t unit :=
  modify (JMap.set (js_String (prop entry "stealthAddress")) entry).
#[export] Instance MemoryVaultStore : VaultStore ghosts_t := {| listGhosts := ghost_list; saveGhost := ghost_save |}.

Definition cursors_t : Type := list (string * Z).
#[export] Instance MemoryScanStore : ScanStore cursors_t :=
  {| getCursor identity := gets (JMap.get identity); setCursor ledger identity := modify (JMap.set identity ledger) |}.
#[export] Instance MemoryScanStore_laws : ScanStoreLaws cursors_t.
Proof.
  refine {| scan_ok _ := True |}; [|done].
  intros l i s s' _ [= <-]. split; [done|]. cbn. split; [by rewrite JMap.get_set_eq|].
  intros j Hj. by rewrite JMap.get_set_ne.
Defined.
End MemoryStores.

(** ** Encrypted *)
Definition PBKDF2_ITERATIONS : Z := 600000.
Definition ENVELOPE_VERSION : Z := 1.

(** Web Crypto, JSON text and the text decoder. *)
Class WebPlatform : Type := {
  CryptoKey : Type;
  pbkdf2 : list byte → list byte → Z → CryptoKey;                     (** password, salt, iterations *)
  aes_encrypt : CryptoKey → list byte → list byte → list byte;        (** key, iv, plaintext *)
  aes_decrypt : CryptoKey → list byte → list byte → res (list byte);
  JSON_stringify : jval → string;
  JSON_parse : string → res jval;
  text_decode : list byte → string;
  aes_decrypt_encrypt k iv p : aes_decrypt k iv (aes_encrypt k iv p) = Ok p;
  JSON_parse_stringify v : json_data v = true → JSON_parse (JSON_stringify v) = Ok v;
  JSON_parse_empty : is_ok (JSON_parse "") = false;
  text_decode_utf8 s : text_decode (utf8 s) = s;
}.

Class EncryptedStorageBackend (B : Type) : Type := {
  read : string → M B (option string);
  write : string → string → M B unit;
}.
(** A read changes nothing, a write that succeeds is read back, and no write touches another
    key. *)
Class BackendLaws (B : Type) `{!EncryptedStorageBackend B} : Prop := {
  read_pure k b r b' : read k b = (r, b') → b' = b;
  write_read k v b b' : write k v b = (Ok tt, b') → (read k b').1 = Ok (Some v);
  write_other k k' v b r b' : k' ≠ k → write k v b = (r, b') → (read k' b').1 = (read k' b).1;
}.

#[export] Instance memoryBackend : EncryptedStorageBackend (list (string * string)) :=
  {| read key := gets (JMap.get key); write key value := modify (JMap.set key value) |}.
#[export] Instance memoryBackend_laws : BackendLaws (list (string * string)).
Proof.
  split.
  - by intros k b r b' [= _ <-].
  - intros k v b b' [= <-]. cbn. by rewrite JMap.get_set_eq.
  - intros k k' v b r b' Hk [= _ <-]. cbn. by rewrite JMap.get_set_ne.
Qed.

(** The browser's [localStorage], absent in other environments. *)
#[export] Instance localStorageBackend : EncryptedStorageBackend (option (list (string * string))) :=
  {| read key := gets (λ s, m ← s; JMap.get key m);
     write key value := λ s,
       match s with
       | Some m => (Ok tt, Some (JMap.set key value m))
       | None => (Err (JsError "localStorage is not available in this environment."), None)
       end |}.
#[export] Instance localStorageBackend_laws : BackendLaws (option (list (string * string))).
Proof.
  split.
  - by intros k b r b' [= _ <-].
  - intros k v [m|] b'; intros [= <-]. cbn. by rewrite JMap.get_set_eq.
  - intros k k' v [m|] r b' Hk [= _ <-]; cbn; [|done]. by rewrite JMap.get_set_ne.
Qed.

Section envelope.
Context {W : WebPlatform}.

Definition deriveKey (password : string) (salt : list byte) : CryptoKey := pbkdf2 (utf8 password) salt PBKDF2_ITERATIONS.

(** [salt] and [iv] are the bytes drawn. *)
Definition encryptEnvelope (data : jval) (password : string) (salt iv : list byte) : jval :=
  let key := deriveKey password salt in
  let ciphertext := aes_encrypt key iv (utf8 (JSON_stringify data)) in
  JObj [("version", JNum ENVELOPE_VERSION); ("salt", JStr (RelayBytes.bytesToBase64 salt));
        ("iv", JStr (RelayBytes.bytesToBase64 iv)); ("ciphertext", JStr (RelayBytes.bytesToBase64 ciphertext))].

Definition corrupt (what : string) : jserr := JsError ("Corrupt encrypted storage payload: " +:+ what).
Definition WRONG_PASSPHRASE : jserr := JsError "Failed to decrypt storage payload: wrong passphrase or corrupted data.".

Definition decryptEnvelope (raw password : string) : res jval :=
  match JSON_parse raw with
  | Err _ => Err (corrupt "not valid JSON.")
  | Ok envelope =>
      version ← read_prop envelope "version";
      match version, prop envelope "salt", prop envelope "iv", prop envelope "ciphertext" with
      | JNum 1, JStr salt64, JStr iv64, JStr ciphertext64 =>
          match (salt ← RelayBytes.base64ToBytes salt64; iv ← RelayBytes.base64ToBytes iv64;
                 ciphertext ← RelayBytes.base64ToBytes ciphertext64; Ok (salt, iv, ciphertext)) with
          | Err _ => Err (corrupt "invalid base64.")
          | Ok (salt, iv, ciphertext) =>
              let key := deriveKey password salt in
              match (plaintext ← aes_decrypt key iv ciphertext; JSON_parse (text_decode plaintext)) with
              | Ok v => Ok v
              | Err _ => Err WRONG_PASSPHRASE
              end
          end
      | _, _, _, _ => Err (corrupt "missing or unsupported envelope fields.")
      end
  end.

(** What is written under a passphrase is read back under it. *)
Lemma envelope_roundtrip data password salt iv :
  json_data data = true →
  decryptEnvelope (JSON_stringify (encryptEnvelope data password salt iv)) password = Ok data.
Proof.
  intros Hd. unfold decryptEnvelope. rewrite JSON_parse_stringify by done. unfold encryptEnvelope.
  cbn [read_prop is_nullish prop field_get String.eqb Ascii.eqb Bool.eqb from_option id mbind res_bind].
  unfold ENVELOPE_VERSION. rewrite !RelayBytes.base64ToBytes_bytesToBase64. cbn [mbind res_bind].
  rewrite aes_decrypt_encrypt. cbn [mbind res_bind]. by rewrite text_decode_utf8, JSON_parse_stringify.
Qed.
End envelope.

(** A store's backend, and how many random values it has drawn. *)
Record EncState (B : Type) : Type := mkEnc { es_backend : B; es_drawn : nat }.
Arguments mkEnc {B} _ _.
Arguments es_backend {B} _.
Arguments es_drawn {B} _.

Section stores.
Context {W : WebPlatform} {B : Type} `{BK : !EncryptedStorageBackend B} (random : nat → list byte) (password : string).

Definition on_backend {A} (m : M B A) : M (EncState B) A := λ s,
  let '(r, b) := m (es_backend s) in (r, mkEnc b (es_drawn s)).
Definition draw : M (EncState B) (list byte) := λ s, (Ok (random (es_drawn s)), mkEnc (es_backend s) (S (es_drawn s))).

Definition load_blob (key : string) : M (EncState B) (option jval) :=
  raw ← on_backend (read key);
  match raw with
  | None | Some "" => mret None
  | Some raw => v ← lift_res (decryptEnvelope raw password); mret (Some v)
  end.
Definition save_blob (key : string) (data : jval) : M (EncState B) unit :=
  salt ← draw;
  iv ← draw;
  on_backend (write key (JSON_stringify (encryptEnvelope data password salt iv))).

(** [EncryptedNoteStore] *)
Definition notes_load (key : string) : M (EncState B) jval :=
  v ← load_blob key; mret (default (JArr []) v).
(** [add] after its [await this.load()] *)
Definition notes_push (key : string) (notes note : jval) : M (EncState B) unit :=
  match notes with
  | JArr l => save_blob key (JArr (l ++ [note]))
  | _ => throw (TypeError "notes.push is not a function")
  end.
Definition notes_add (key : string) (note : jval) : M (EncState B) unit :=
  notes ← notes_load key; notes_push key notes note.
Definition mark_note (commitment : string) (n : jval) : res jval :=
  c ← read_prop n "commitment";
  Ok (if is_str c commitment then with_prop n "spent" (JBool true) else n).
Definition notes_markSpent (key commitment : string) : M (EncState B) unit :=
  notes ← notes_load key;
  match notes with
  | JArr l => updated ← lift_res (mapM_res (mark_note commitment) l); save_blob key (JArr updated)
  | _ => throw (TypeError "notes.map is not a function")
  end.
#[local] Instance EncryptedNoteStore (key : string) : NoteStore (EncState B) :=
  {| list_notes := notes_load key; add_note := notes_add key; markSpent := notes_markSpent key |}.

(** [EncryptedVaultStore] *)
Definition same_address (a b : jval) : bool :=
  match a, b with JStr s, JStr t => String.eqb s t | JUndef, JUndef => true | _, _ => false end.
(** The list with the entry at the first equal address replaced, if there is one. *)
Fixpoint replace_ghost (addr entry : jval) (l : list jval) : res (option (list jval)) :=
  match l with
  | [] => Ok None
  | e :: l' =>
      a ← read_prop e "stealthAddress";
      if same_address a addr then Ok (Some (entry :: l'))
      else r ← replace_ghost addr entry l'; Ok (option_map (cons e) r)
  end.
Definition vault_save (key : string) (entry : jval) : M (EncState B) unit :=
  entries ← notes_load key;
  match entries with
  | JArr l =>
      r ← lift_res (replace_ghost (prop entry "stealthAddress") entry l);
      save_blob key (JArr (default (l ++ [entry]) r))
  | _ => throw (TypeError "entries.findIndex is not a function")
  end.
#[local] Instance EncryptedVaultStore (key : string) : VaultStore (EncState B) :=
  {| listGhosts := notes_load key; saveGhost := vault_save key |}.

(** [EncryptedScanStore]; a bare number is the cursor of the unkeyed slot.  The store writes
    nothing but objects. *)
Definition cursors_load (key : string) : M (EncState B) (list (string * jval)) :=
  v ← load_blob key;
  mret (match v with
        | Some (JNum n) => [("", JNum n)]
        | Some (JFlt t) => [("", JFlt t)]
        | Some (JObj fs) => fs
        | _ => []
        end).
Definition cursors_get (key identity : string) : M (EncState B) (option Z) :=
  cursors ← cursors_load key;
  mret (match JMap.get identity cursors with Some (JNum n) => Some n | _ => None end).
Definition cursors_set (key : string) (ledger : Z) (identity : string) : M (EncState B) unit :=
  cursors ← cursors_load key;
  save_blob key (JObj (JMap.set identity (JNum ledger) cursors)).
#[local] Instance EncryptedScanStore (key : string) : ScanStore (EncState B) :=
  {| getCursor := cursors_get key; setCursor := cursors_set key |}.
End stores.

(** ** Blobs *)
Section blobs.
Context {W : WebPlatform} {B : Type} `{BK : !EncryptedStorageBackend B} {BL : BackendLaws B}.
Context (random : nat → list byte) (password : string).
Abbreviation load := (load_blob password).
Abbreviation save := (save_blob random password).

Definition blob_of (raw : option string) : res (option jval) :=
  match raw with
  | None | Some "" => Ok None
  | Some raw => v ← decryptEnvelope raw password; Ok (Some v)
  end.

Lemma load_eq key s : load key s = (raw ← (read key (es_backend s)).1; blob_of raw, s).
Proof using BL.
  destruct s as [b n]. unfold load_blob, on_backend, mbind at 1, M_bind at 1. cbn [es_backend es_drawn].
  destruct (read key b) as [r b'] eqn:Hr. apply read_pure in Hr as ->. cbn [fst].
  destruct r as [[[|c raw]|]|e]; cbn [mbind res_bind blob_of]; try done.
  unfold mbind, M_bind, lift_res. by destruct (decryptEnvelope (String c raw) password).
Qed.

Lemma save_run key v s r s' :
  save key v s = (r, s') →
  ∃ salt iv b', write key (JSON_stringify (encryptEnvelope v password salt iv)) (es_backend s) = (r, b') ∧ es_backend s' = b'.
Proof using.
  unfold save_blob, draw, on_backend, mbind, M_bind. cbn [es_backend es_drawn].
  destruct (write _ _ _) as [r1 b'] eqn:Hw. intros [= <- <-]. by eexists _, _, _.
Qed.

Lemma save_load key v s s' : json_data v = true → save key v s = (Ok tt, s') → load key s' = (Ok (Some v), s').
Proof using BL.
  intros Hv (salt & iv & b' & Hw & Hb)%save_run. rewrite load_eq, Hb, (write_read _ _ _ _ Hw). f_equal.
  cbn [mbind res_bind]. 
  pose proof (JSON_parse_stringify (encryptEnvelope v password salt iv) eq_refl) as Hne.
  pose proof (envelope_roundtrip v password salt iv Hv) as Hr. unfold blob_of.
  destruct (JSON_stringify (encryptEnvelope v password salt iv)).
  { pose proof JSON_parse_empty as Hp. by rewrite Hne in Hp. }
  by rewrite Hr.
Qed.

Lemma save_other key key' v s r s' : key' ≠ key → save key v s = (r, s') → (load key' s').1 = (load key' s).1.
Proof using BL.
  intros Hk (salt & iv & b' & Hw & Hb)%save_run. rewrite !load_eq. cbn [fst]. by rewrite Hb, (write_other _ _ _ _ _ _ Hk Hw).
Qed.

Lemma notes_load_eq key s :
  notes_load password key s = (v ← (load key s).1; Ok (default (JArr []) v), s).
Proof using BL. unfold notes_load, mbind at 1, M_bind at 1. rewrite load_eq. cbn [fst]. by destruct (_ ≫= _). Qed.

(** A passphrase that does not open the blob leaves every store as it is. *)
Lemma failed_load_keeps_store key s e :
  (load key s).1 = Err e →
  (∀ note, notes_add random password key note s = (Err e, s)) ∧
  (∀ c, notes_markSpent random password key c s = (Err e, s)) ∧
  (∀ entry, vault_save random password key entry s = (Err e, s)) ∧
  (∀ ledger i, cursors_set random password key ledger i s = (Err e, s)).
Proof using BL.
  intros He. assert (Hn : notes_load password key s = (Err e, s)) by (rewrite notes_load_eq, He; done).
  assert (Hl : load key s = (Err e, s)) by (rewrite load_eq in *; cbn [fst] in He; by rewrite He).
  unfold notes_add, notes_markSpent, vault_save, cursors_set, cursors_load, mbind, M_bind. rewrite Hn, Hl. done.
Qed.
End blobs.

(** ** What a note store promises *)

(** The abstract store: the list of notes. *)
Inductive NoteOp : Type := OpAdd (note : jval) | OpSpend (commitment : string).
Definition mark (c : string) (n : jval) : jval :=
  if is_str (prop n "commitment") c then with_prop n "spent" (JBool true) else n.
Definition note_step (l : list jval) (op : NoteOp) : list jval :=
  match op with OpAdd n => l ++ [n] | OpSpend c => mark c <$> l end.

Definition run_op {S} `{!NoteStore S} (op : NoteOp) : M S unit :=
  match op with OpAdd n => add_note n | OpSpend c => markSpent c end.
Fixpoint run_ops {S} `{!NoteStore S} (ops : list NoteOp) : M S unit :=
  match ops with [] => mret tt | op :: ops' => run_op op;; run_ops ops' end.

(** An object that JSON can write, with its commitment. *)
Definition is_note (n : jval) (c : string) : Prop :=
  json_data n = true ∧ ∃ fs, n = JObj fs ∧ field_get "commitment" fs = Some (JStr c).
Definition added (op : NoteOp) : option jval := match op with OpAdd n => Some n | OpSpend _ => None end.

Lemma field_get_map k fs : field_get k fs = JMap.get k fs.
Proof.
  induction fs as [|[k' v] fs IH]; [done|]. cbn [field_get JMap.get]. rewrite IH.
  destruct (String.eqb_spec k k') as [->|Hne]; [by rewrite decide_True|by rewrite decide_False].
Qed.

Lemma mark_is_note c n d : is_note n d → is_note (mark c n) d.
Proof.
  intros (Hj & fs & -> & Hf). unfold mark. destruct (is_str _ c); [|by split; [|exists fs]].
  split; [by apply json_data_with_prop|]. exists (JMap.set "spent" (JBool true) fs). split; [done|].
  rewrite field_get_map in *. by rewrite JMap.get_set_ne.
Qed.

Lemma note_commitment n c : is_note n c → MemoryStores.commitment_of n = c ∧ prop n "commitment" = JStr c ∧ json_data n = true.
Proof.
  intros (Hj & fs & -> & Hf). unfold MemoryStores.commitment_of. cbn [prop]. rewrite Hf. by cbn.
Qed.

Definition noted (l : list jval) : Prop := Forall (λ n, ∃ c, is_note n c) l.
Definition op_ok (op : NoteOp) : Prop := match op with OpAdd n => ∃ c, is_note n c | OpSpend _ => True end.

Lemma note_step_noted l op : noted l → op_ok op → noted (note_step l op).
Proof.
  intros Hl Ho. destruct op as [n|c]; cbn [note_step]; [apply Forall_app; by repeat constructor|].
  apply Forall_fmap. revert Hl. apply List.Forall_impl. intros n [d Hn]. exists d. by apply mark_is_note.
Qed.
Lemma noted_json l : noted l → json_data (JArr l) = true.
Proof.
  intros Hl. rewrite json_data_arr. apply forallb_forall. intros n Hn%list_elem_of_In.
  by destruct (proj1 (Forall_forall _ _) Hl n Hn) as (c & Hj & _).
Qed.

Section refinement.
Context {W : WebPlatform} {B : Type} `{BK : !EncryptedStorageBackend B} {BL : BackendLaws B}.
Context (random : nat → list byte) (password key : string).
#[local] Instance enc_store : NoteStore (EncState B) := EncryptedNoteStore random password key.

Lemma enc_step op l s s' :
  notes_load password key s = (Ok (JArr l), s) → noted l → op_ok op → run_op op s = (Ok tt, s') →
  notes_load password key s' = (Ok (JArr (note_step l op)), s').
Proof using BL.
  intros Hl Hn Ho Hr. pose proof (noted_json _ (note_step_noted l op Hn Ho)) as Hj.
  assert (Hsave : save_blob random password key (JArr (note_step l op)) s = (Ok tt, s')).
  { destruct op as [n|c]; cbn [run_op add_note markSpent enc_store EncryptedNoteStore note_step] in *.
    - unfold notes_add, notes_push in Hr. by rewrite (M_bind_run _ _ _ _ _ Hl) in Hr.
    - unfold notes_markSpent in Hr. rewrite (M_bind_run _ _ _ _ _ Hl) in Hr.
      assert (Hm : mapM_res (mark_note c) l = Ok (mark c <$> l)).
      { clear -Hn. induction Hn as [|n l (d & _ & fs & -> & Hf) _ IH]; [done|]. cbn [mapM_res fmap list_fmap].
        by rewrite IH. }
      rewrite Hm in Hr. exact Hr. }
  rewrite notes_load_eq, (save_load _ _ _ _ _ _ Hj Hsave). done.
Qed.

Lemma enc_ops ops l s s' :
  notes_load password key s = (Ok (JArr l), s) → noted l → Forall op_ok ops → run_ops ops s = (Ok tt, s') →
  notes_load password key s' = (Ok (JArr (foldl note_step l ops)), s').
Proof using BL.
  intros Hl Hn Ho. revert l s Hl Hn. induction Ho as [|op ops Hop _ IH]; intros l s Hl Hn Hr; cbn [run_ops foldl] in *.
  { injection Hr as <-. exact Hl. }
  apply M_bind_ok in Hr as ([] & s1 & H1 & H2). eapply IH; [by eapply enc_step| |done]. by apply note_step_noted.
Qed.
End refinement.

#[export] Existing Instance MemoryStores.MemoryNoteStore.
#[export] Existing Instance MemoryStores.MemoryScanStore.
#[export] Existing Instance MemoryStores.MemoryScanStore_laws.

(** The in-memory store after the notes of [l] were added in order. *)
Definition mem_of (l : list jval) : MemoryStores.notes_t := foldl (λ m n, JMap.set (MemoryStores.commitment_of n) n m) [] l.
(** [n] is the last note of the list with its commitment. *)
Definition newest (l : list jval) (n : jval) : Prop :=
  ∃ l1 l2, l = l1 ++ n :: l2 ∧ MemoryStores.commitment_of n ∉ (MemoryStores.commitment_of <$> l2).

Lemma mem_of_snoc l n : mem_of (l ++ [n]) = JMap.set (MemoryStores.commitment_of n) n (mem_of l).
Proof. unfold mem_of. by rewrite foldl_app. Qed.

Lemma mem_of_wf l : JMap.wf (mem_of l) ∧ ∀ k n, (k, n) ∈ mem_of l → MemoryStores.commitment_of n = k ∧ n ∈ l.
Proof.
  induction l as [|x l [IHw IHk]] using rev_ind; [split; [constructor|by intros k n ?%elem_of_nil]|].
  rewrite mem_of_snoc. split; [by apply JMap.wf_set|]. intros k n [[= -> ->]|[? ?]%IHk]%JMap.elem_of_set; set_solver.
Qed.

Lemma mem_of_newest l n : JMap.get (MemoryStores.commitment_of n) (mem_of l) = Some n ↔ newest l n.
Proof.
  induction l as [|x l IH] using rev_ind.
  - split; [done|]. by intros ([|??] & l2 & [=] & _).
  - rewrite mem_of_snoc. destruct (decide (MemoryStores.commitment_of n = MemoryStores.commitment_of x)) as [Heq|Hne].
    + rewrite Heq, JMap.get_set_eq. split.
      * intros [= ->]. exists l, []. split; [done|]. by intros ?%elem_of_nil.
      * intros (l1 & l2 & Hl & Hni). destruct l2 as [|y l2 _] using rev_ind; [apply app_inj_tail in Hl as [_ ->]; done|].
        rewrite app_comm_cons, app_assoc in Hl. apply app_inj_tail in Hl as [_ ->]. rewrite fmap_app, Heq in Hni. set_solver.
    + rewrite JMap.get_set_ne by done. rewrite IH. split; intros (l1 & l2 & Hl & Hni).
      * exists l1, (l2 ++ [x]). rewrite Hl, <-app_assoc. split; [done|]. rewrite fmap_app. set_solver.
      * destruct l2 as [|y l2 _] using rev_ind; [apply app_inj_tail in Hl as [_ ->]; done|].
        rewrite app_comm_cons, app_assoc in Hl. apply app_inj_tail in Hl as [-> ->]. exists l1, l2. rewrite fmap_app in Hni. set_solver.
Qed.

Lemma mem_of_listed l n : n ∈ JMap.vals (mem_of l) ↔ newest l n.
Proof.
  destruct (mem_of_wf l) as [Hw Hk]. rewrite <-mem_of_newest. unfold JMap.vals. rewrite list_elem_of_fmap. split.
  - intros ([k n'] & -> & Hin). cbn [snd]. destruct (Hk _ _ Hin) as [-> _]. by apply JMap.elem_get.
  - intros Hg%JMap.get_Some_elem. by exists (MemoryStores.commitment_of n, n).
Qed.

Lemma mem_of_distinct l : NoDup (MemoryStores.commitment_of <$> l) → JMap.vals (mem_of l) = l.
Proof.
  intros Hd. enough (mem_of l = (λ n, (MemoryStores.commitment_of n, n)) <$> l) as ->.
  { unfold JMap.vals. rewrite <-list_fmap_compose. cbn. by rewrite list_fmap_id. }
  revert Hd. induction l as [|n l IH] using rev_ind; [done|]. rewrite fmap_app, NoDup_app. intros (Hd & Hn & _).
  rewrite mem_of_snoc, IH, fmap_app by done. apply JMap.set_absent. unfold JMap.keys. rewrite <-list_fmap_compose.
  intros Hin. apply (Hn _ Hin). by left.
Qed.

(** Marking the notes of one commitment. *)
Definition spend_key (c : string) (m : MemoryStores.notes_t) : MemoryStores.notes_t :=
  (λ p, (p.1, if decide (p.1 = c) then with_prop p.2 "spent" (JBool true) else p.2)) <$> m.

Lemma spend_key_set c k n m :
  spend_key c (JMap.set k n m) = JMap.set k (if decide (k = c) then with_prop n "spent" (JBool true) else n) (spend_key c m).
Proof.
  induction m as [|[k0 n0] m IH]; [done|]. cbn [JMap.set spend_key fmap list_fmap fst snd].
  destruct (decide (k = k0)) as [->|Hne]; [done|]. cbn [fmap list_fmap fst snd]. f_equal. exact IH.
Qed.

Lemma mark_spends c n d : is_note n d → mark c n = if decide (d = c) then with_prop n "spent" (JBool true) else n.
Proof.
  intros (_ & Hp & _)%note_commitment. unfold mark. rewrite Hp. cbn [is_str].
  destruct (String.eqb_spec d c) as [->|Hne]; [by rewrite decide_True|by rewrite decide_False].
Qed.

Lemma mem_of_mark c l : noted l → mem_of (mark c <$> l) = spend_key c (mem_of l).
Proof.
  induction l as [|n l IH] using rev_ind; [done|]. intros [Hl Hn]%Forall_app. apply Forall_singleton in Hn as [d Hn].
  rewrite fmap_app. cbn [fmap list_fmap]. rewrite !mem_of_snoc, spend_key_set, IH by done.
  destruct (note_commitment _ _ Hn) as [-> _]. destruct (note_commitment _ _ (mark_is_note c n d Hn)) as [-> _].
  by rewrite (mark_spends c n d Hn).
Qed.

Lemma spend_key_get c (m : MemoryStores.notes_t) : JMap.wf m →
  spend_key c m = match JMap.get c m with Some n => JMap.set c (with_prop n "spent" (JBool true)) m | None => m end.
Proof.
  unfold JMap.wf. induction m as [|[k n] m IH]; [done|]. cbn [JMap.keys fmap list_fmap fst]. intros [Hni Hw]%NoDup_cons.
  specialize (IH Hw). cbn [JMap.get spend_key fmap list_fmap fst snd]. destruct (decide (c = k)) as [->|Hne].
  - rewrite decide_True by done. cbn [JMap.set]. rewrite decide_True by done. f_equal. change (spend_key k m = m). rewrite IH.
    destruct (JMap.get k m) as [x|] eqn:E; [|done]. exfalso. apply JMap.get_Some_elem in E. apply Hni. apply list_elem_of_fmap. by exists (k, x).
  - rewrite decide_False by congruence.
    change ((k, n) :: spend_key c m = match JMap.get c m with Some n0 => JMap.set c (with_prop n0 "spent" (JBool true)) ((k, n) :: m) | None => (k, n) :: m end).
    rewrite IH. destruct (JMap.get c m); [|done]. cbn [JMap.set]. by rewrite decide_False.
Qed.

Lemma mem_step op l : noted l → op_ok op → run_op op (mem_of l) = (Ok tt, mem_of (note_step l op)).
Proof.
  intros Hn Ho. destruct op as [n|c]; cbn [run_op add_note markSpent MemoryStores.MemoryNoteStore note_step].
  - unfold MemoryStores.note_add, modify. by rewrite mem_of_snoc.
  - rewrite mem_of_mark, spend_key_get by (done || apply mem_of_wf). unfold MemoryStores.note_markSpent, mbind, M_bind, gets.
    by destruct (JMap.get c (mem_of l)).
Qed.

Lemma mem_ops ops l :
  noted l → Forall op_ok ops → run_ops ops (mem_of l) = (Ok tt, mem_of (foldl note_step l ops)).
Proof.
  intros Hn Ho. revert l Hn. induction Ho as [|op ops Hop _ IH]; intros l Hn; [done|]. cbn [run_ops foldl].
  rewrite (M_bind_run _ _ _ tt (mem_of (note_step l op))); [|by apply mem_step]. by apply IH, note_step_noted.
Qed.

Section scan_store.
Context {W : WebPlatform} {B : Type} `{BK : !EncryptedStorageBackend B} {BL : BackendLaws B}.
Context (random : nat → list byte) (password key : string).
#[local] Instance enc_scan : ScanStore (EncState B) := EncryptedScanStore random password key.

Definition cursors_of (v : option jval) : list (string * jval) :=
  match v with
  | Some (JNum n) => [("", JNum n)]
  | Some (JFlt t) => [("", JFlt t)]
  | Some (JObj fs) => fs
  | _ => []
  end.
Definition blob_data (v : option jval) : Prop := match v with Some v => json_data v = true | None => True end.

Lemma cursors_load_eq s : cursors_load password key s = (v ← (load_blob password key s).1; Ok (cursors_of v), s).
Proof using BL. unfold cursors_load, mbind at 1, M_bind at 1. rewrite load_eq. cbn [fst]. by destruct (_ ≫= _). Qed.

Lemma cursors_get_eq i s :
  cursors_get password key i s =
    (v ← (load_blob password key s).1; Ok (match JMap.get i (cursors_of v) with Some (JNum n) => Some n | _ => None end), s).
Proof using BL.
  unfold cursors_get, mbind at 1, M_bind at 1. rewrite cursors_load_eq. by destruct (load_blob password key s).1.
Qed.

Lemma cursors_of_data v : blob_data v → json_data (JObj (cursors_of v)) = true.
Proof.
  destruct v as [[| | | | | | |fs]|]; try done; cbn [blob_data cursors_of]; intros Hv; rewrite json_data_obj; cbn [forallb snd];
    try (rewrite Hv, bool_decide_true; [done|apply NoDup_singleton]); by rewrite <-json_data_obj.
Qed.

Lemma cursors_set_spec ledger i s s' :
  (∃ v, (load_blob password key s).1 = Ok v ∧ blob_data v) → cursors_set random password key ledger i s = (Ok tt, s') →
  (∃ v, (load_blob password key s').1 = Ok v ∧ blob_data v) ∧ (cursors_get password key i s').1 = Ok (Some ledger) ∧
  ∀ j, j ≠ i → (cursors_get password key j s').1 = (cursors_get password key j s).1.
Proof using BL.
  intros (v & Hv & Hd) Hs. unfold cursors_set in Hs. rewrite (M_bind_run _ _ _ (cursors_of v) s) in Hs
    by (rewrite cursors_load_eq, Hv; done).
  assert (Hj : json_data (JObj (JMap.set i (JNum ledger) (cursors_of v))) = true)
    by exact (json_data_with_prop (JObj (cursors_of v)) i (JNum ledger) (cursors_of_data v Hd) eq_refl).
  pose proof (save_load _ _ _ _ _ _ Hj Hs) as Hl. split; [rewrite Hl; by eexists|].
  split; [by rewrite cursors_get_eq, Hl; cbn; rewrite JMap.get_set_eq|].
  intros j Hne. rewrite !cursors_get_eq, Hl, Hv. cbn. by rewrite JMap.get_set_ne.
Qed.

#[local] Instance EncryptedScanStore_laws : ScanStoreLaws (EncState B).
Proof using BL.
  refine {| scan_ok s := ∃ v, (load_blob password key s).1 = Ok v ∧ blob_data v |}.
  - intros ledger i s s'. apply cursors_set_spec.
  - intros i s. cbn [getCursor enc_scan EncryptedScanStore]. by rewrite cursors_get_eq.
Defined.
End scan_store.

(** ** Theorems *)

(** C17 (refinement): Through any operations run one after the other that all succeed,
    starting with no stored blob, the encrypted note store lists exactly the notes added, in
    order and with the spent ones marked, every blob being read back as written.  The
    in-memory store, given the same operations, does not fail and lists each commitment once,
    with the note added last: the two lists are the same when no commitment is added twice,
    and otherwise the encrypted one also keeps the older notes. *)
Theorem note_stores_agree {W : WebPlatform} {B} `{BK : !EncryptedStorageBackend B} {BL : BackendLaws B} random password key ops s s'
    (Hfresh : (load_blob password key s).1 = Ok None) (Hops : Forall op_ok ops)
    (Hrun : run_ops (NoteStore0 := EncryptedNoteStore random password key) ops s = (Ok tt, s')) :
  let l := foldl note_step [] ops in
  notes_load password key s' = (Ok (JArr l), s') ∧
  ∃ m lm, run_ops (S := MemoryStores.notes_t) ops [] = (Ok tt, m) ∧ list_notes m = (Ok (JArr lm), m) ∧
    NoDup (MemoryStores.commitment_of <$> lm) ∧ (∀ n, n ∈ lm ↔ newest l n) ∧
    (NoDup (MemoryStores.commitment_of <$> l) → lm = l).
Proof.
  intros l. split.
  - eapply enc_ops; [|by apply Forall_nil_2|done|exact Hrun]. by rewrite notes_load_eq, Hfresh.
  - exists (mem_of l), (JMap.vals (mem_of l)). split; [exact (mem_ops ops [] (Forall_nil_2 _) Hops)|]. split; [done|]. split_and!.
    + destruct (mem_of_wf l) as [Hw Hk]. enough (MemoryStores.commitment_of <$> JMap.vals (mem_of l) = JMap.keys (mem_of l)) as -> by done.
      unfold JMap.vals, JMap.keys. rewrite <-list_fmap_compose. apply list_fmap_ext. intros i [k n] Hi%list_elem_of_lookup_2.
      by destruct (Hk _ _ Hi).
    + intros n. apply mem_of_listed.
    + apply mem_of_distinct.
Qed.

(** A passphrase that does not open what is stored changes nothing: every
    operation of the three encrypted stores fails with that error and the backend keeps the
    blob. *)
Theorem wrong_passphrase_keeps_data {W : WebPlatform} {B} `{BK : !EncryptedStorageBackend B} {BL : BackendLaws B} random password key s e
    (He : (load_blob password key s).1 = Err e) :
  (∀ note, notes_add random password key note s = (Err e, s)) ∧
  (∀ c, notes_markSpent random password key c s = (Err e, s)) ∧
  (∀ entry, vault_save random password key entry s = (Err e, s)) ∧
  (∀ ledger i, cursors_set random password key ledger i s = (Err e, s)).
Proof. by apply failed_load_keeps_store. Qed.

(** Two additions in flight at once: both read the list before either writes it,
    and the first note is gone although both additions succeed. *)
Theorem concurrent_add_loses_note {W : WebPlatform} {B} `{BK : !EncryptedStorageBackend B} {BL : BackendLaws B} random password key l a b s s'
    (Hl : notes_load password key s = (Ok (JArr l), s)) (Hn : noted l) (Hb : ∃ c, is_note b c)
    (Hrun : (la ← notes_load password key; lb ← notes_load password key;
             notes_push random password key la a;; notes_push random password key lb b) s = (Ok tt, s')) :
  notes_load password key s' = (Ok (JArr (l ++ [b])), s').
Proof.
  rewrite (M_bind_run _ _ _ _ _ Hl), (M_bind_run _ _ _ _ _ Hl) in Hrun. apply M_bind_ok in Hrun as ([] & s1 & _ & H2).
  cbn [notes_push] in H2. pose proof (noted_json _ (note_step_noted l (OpAdd b) Hn Hb)) as Hj.
  by rewrite notes_load_eq, (save_load _ _ _ _ _ _ Hj H2).
Qed.

(** ** A platform for examples: values as trees, trees as numbers, numbers as binary text *)
Module ToyPlatform.
Fixpoint jtree (v : jval) : gen_tree (Z + string) :=
  match v with
  | JUndef => GenNode 0 []
  | JNull => GenNode 1 []
  | JBool b => GenNode 2 [GenLeaf (inl (if b then 1 else 0))]
  | JNum z => GenLeaf (inl z)
  | JFlt s => GenNode 3 [GenLeaf (inr s)]
  | JStr s => GenLeaf (inr s)
  | JArr l => GenNode 4 (map jtree l)
  | JObj fs => GenNode 5 (map (λ p, GenNode 6 [GenLeaf (inr p.1); jtree p.2]) fs)
  end.
Fixpoint treej (t : gen_tree (Z + string)) : jval :=
  match t with
  | GenLeaf (inl z) => JNum z
  | GenLeaf (inr s) => JStr s
  | GenNode 1 _ => JNull
  | GenNode 2 [GenLeaf (inl z)] => JBool (z =? 1)
  | GenNode 3 [GenLeaf (inr s)] => JFlt s
  | GenNode 4 l => JArr (map treej l)
  | GenNode 5 l => JObj (map (λ t, match t with GenNode _ [GenLeaf (inr k); v] => (k, treej v) | _ => ("", JUndef) end) l)
  | GenNode _ _ => JUndef
  end.
Lemma treej_jtree : ∀ v, treej (jtree v) = v.
Proof.
  fix IH 1. intros [| |[]| | | |l|fs]; try reflexivity; cbn [jtree treej]; apply f_equal.
  - induction l as [|x l IHl]; [done|]. cbn [map]. by rewrite IH, IHl.
  - induction fs as [|[k x] fs IHl]; [done|]. cbn [map fst snd]. by rewrite IH, IHl.
Qed.

Fixpoint pos_text (p : positive) : string :=
  match p with xH => "" | xO p => String "0"%char (pos_text p) | xI p => String "1"%char (pos_text p) end.
Fixpoint text_pos (s : string) : positive :=
  match s with
  | EmptyString => xH
  | String c s' => if Ascii.eqb c "0"%char then xO (text_pos s') else xI (text_pos s')
  end.
Lemma text_pos_text p : text_pos (pos_text p) = p.
Proof. induction p as [p IH|p IH|]; cbn; by rewrite ?IH. Qed.

Definition stringify (v : jval) : string := String "j"%char (pos_text (encode (jtree v))).
Definition parse (s : string) : res jval :=
  match s with
  | String "j"%char s' => match decode (text_pos s') with Some t => Ok (treej t) | None => Err (SyntaxError "JSON") end
  | _ => Err (SyntaxError "JSON")
  end.

(** A cipher whose first byte tells the key. *)
Definition key_byte (k : list byte) : byte := to_byte (be_val 0 k mod 251).
Definition toy_web : WebPlatform.
Proof.
  refine {| CryptoKey := list byte; pbkdf2 pw salt n := pw ++ salt;
            aes_encrypt k iv p := key_byte k :: p;
            aes_decrypt k iv c := match c with b :: p => if bool_decide (b = key_byte k) then Ok p else Err (JsError "OperationError") | [] => Err (JsError "OperationError") end;
            JSON_stringify := stringify; JSON_parse := parse; text_decode := latin1_decode |}.
  - intros k iv p. by rewrite bool_decide_true.
  - intros v _. unfold parse, stringify. by rewrite text_pos_text, decode_encode, treej_jtree.
  - done.
  - apply latin1_decode_utf8.
Defined.
End ToyPlatform.
#[local] Existing Instance ToyPlatform.toy_web.

Definition toy_random (n : nat) : list byte := be_bytes 16 (Z.of_nat n).
Definition toy_note (c : string) : jval := JObj [("commitment", JStr c); ("value", JStr "5"); ("spent", JBool false)].
Lemma toy_is_note c : is_note (toy_note c) c.
Proof. split; [done|]. eexists. split; [done|]. done. Qed.
Definition empty_enc : EncState (list (string * string)) := mkEnc [] 0.

Lemma empty_fresh : (load_blob "pw" "notes" empty_enc).1 = Ok None.
Proof. reflexivity. Qed.
Lemma empty_list : notes_load "pw" "notes" empty_enc = (Ok (JArr []), empty_enc).
Proof. reflexivity. Qed.

(** A note added again is listed twice by one store and once by the other. *)
Definition twice : list NoteOp := [OpAdd (toy_note "a"); OpAdd (toy_note "b"); OpSpend "a"; OpAdd (toy_note "a")].
Lemma note_stores_agree_witness :
  ∃ s' m, (run_ops (NoteStore0 := EncryptedNoteStore toy_random "pw" "notes") twice empty_enc).2 = s' ∧
    (notes_load "pw" "notes" s').1 =
      Ok (JArr [JObj [("commitment", JStr "a"); ("value", JStr "5"); ("spent", JBool true)]; toy_note "b"; toy_note "a"]) ∧
    run_ops (S := MemoryStores.notes_t) twice [] = (Ok tt, m) ∧ list_notes m = (Ok (JArr [toy_note "a"; toy_note "b"]), m).
Proof.
  destruct (run_ops (NoteStore0 := EncryptedNoteStore toy_random "pw" "notes") twice empty_enc) as [r s'] eqn:E.
  assert (Hr : r = Ok tt) by (apply (f_equal fst) in E; cbn [fst] in E; rewrite <-E; vm_compute; reflexivity). subst r.
  destruct (note_stores_agree toy_random "pw" "notes" twice empty_enc s'
    empty_fresh ltac:(repeat constructor; by eexists; apply toy_is_note) E) as [H (m & lm & Hm & _)].
  exists s', m. split; [done|]. split; [rewrite H; reflexivity|]. split; [exact Hm|].
  apply (f_equal snd) in Hm. cbn [snd] in Hm. rewrite <-Hm. reflexivity.
Defined.

Definition locked : EncState (list (string * string)) := (notes_add toy_random "pw" "notes" (toy_note "a") empty_enc).2.
Lemma locked_guess : (load_blob "guess" "notes" locked).1 = Err WRONG_PASSPHRASE.
Proof. vm_compute. reflexivity. Qed.
Lemma wrong_passphrase_keeps_data_witness :
  notes_add toy_random "guess" "notes" (toy_note "b") locked = (Err WRONG_PASSPHRASE, locked).
Proof.
  destruct (wrong_passphrase_keeps_data toy_random "guess" "notes" locked WRONG_PASSPHRASE locked_guess) as [H _].
  apply H.
Defined.

Lemma concurrent_add_loses_note_witness :
  (notes_load "pw" "notes"
     ((la ← notes_load "pw" "notes"; lb ← notes_load "pw" "notes";
       notes_push toy_random "pw" "notes" la (toy_note "a");; notes_push toy_random "pw" "notes" lb (toy_note "b")) empty_enc).2).1
  = Ok (JArr [toy_note "b"]).
Proof.
  destruct ((la ← notes_load "pw" "notes"; lb ← notes_load "pw" "notes";
       notes_push toy_random "pw" "notes" la (toy_note "a");; notes_push toy_random "pw" "notes" lb (toy_note "b")) empty_enc) as [r s'] eqn:E.
  assert (Hr : r = Ok tt) by (apply (f_equal fst) in E; cbn [fst] in E; rewrite <-E; vm_compute; reflexivity). subst r.
  cbn [snd]. rewrite (concurrent_add_loses_note toy_random "pw" "notes" [] (toy_note "a") (toy_note "b") empty_enc s'
    empty_list ltac:(constructor) ltac:(by eexists; apply toy_is_note) E). reflexivity.
Defined.
