(* ===== verification/SdkChain.v ===== *)
(** * SDK: the chain as the contract bindings see it

    Contract arguments ([sdk/src/rpc/scval.ts]), signers ([sdk/src/signer/index.ts],
    [sdk/src/services/read-source.ts]) and the [ContractInvoker] interface of
    [sdk/src/rpc/client.ts].  What the network answers to a call is a parameter that may
    depend on everything sent before; each write is recorded with its outcome. *)
From Stdlib Require Import Ascii.
From stdpp Require Import base tactics list sets strings.
From Stdlib Require Import ZArith Lia.
From S2P Require Import Prelude JsString JsMap Bytes Json SdkCodec.
Open Scope string_scope.
Open Scope list_scope.
Open Scope Z_scope.

(** ** Contract values *)
Inductive ScVal : Type :=
  | ScvAddress (a : string)
  | ScvBytes (b : list byte)
  | ScvU32 (n : Z)
  | ScvU64 (n : Z)
  | ScvI128 (n : Z)
  | ScvU128 (n : Z)
  | ScvSymbol (s : string)
  | ScvString (s : string)
  | ScvBool (b : bool)
  | ScvVoid.

(** [new Address(addr)] throws on a string that is no address. *)
Class AddressCodec : Type := { is_address : string → bool }.

Section scval.
Context {AC : AddressCodec}.
Definition addressToScVal (addr : string) : res ScVal :=
  if is_address addr then Ok (ScvAddress addr) else Err (JsError ("Unsupported address type: " +:+ addr)).
Definition bytesToScVal (bytes : list byte) : ScVal := ScvBytes bytes.
Definition u32ToScVal (n : Z) : ScVal := ScvU32 n.
Definition u64ToScVal (n : Z) : ScVal := ScvU64 n.
Definition i128ToScVal (n : Z) : ScVal := ScvI128 n.
Definition u128ToScVal (n : Z) : ScVal := ScvU128 n.
Definition symbolToScVal (s : string) : ScVal := ScvSymbol s.
Definition stringToScVal (s : string) : ScVal := ScvString s.
Definition boolToScVal (b : bool) : ScVal := ScvBool b.
Definition optionAddressToScVal (addr : option string) : res ScVal :=
  match addr with
  | None | Some "" => Ok ScvVoid
  | Some a => addressToScVal a
  end.
End scval.

(** ** Calls *)
Record InvokeOptions : Type := mkInvoke {
  io_source : string;
  io_contractId : string;
  io_method : string;
  io_contractPackage : option string;
  io_args : list ScVal;
}.
Record ReadOptions : Type := mkRead {
  ro_source : string;
  ro_contractId : string;
  ro_method : string;
  ro_args : list ScVal;
}.

(** What simulating a write reports: its fee, its resource usage and what it would return. *)
Record SimulatedResourceUsage : Type := mkUsage { ru_cpuInstructions : Z; ru_readBytes : Z; ru_writeBytes : Z }.
Record SimulationReport (R : Type) : Type := mkReport {
  sr_minResourceFeeStroops : Z;
  sr_resources : SimulatedResourceUsage;
  sr_returnValue : R;
}.
Arguments mkReport {R} _ _ _.
Arguments sr_minResourceFeeStroops {R} _.
Arguments sr_resources {R} _.
Arguments sr_returnValue {R} _.

(** What a client can do to the ledger. *)
Inductive ChainCall : Type :=
  | CInvoke (o : InvokeOptions)
  | CTransfer (source destination : string) (amountStroops : Z) (memo : option TxMemo.TransferMemo) (fee : option string)
  | CMerge (source destination : string).

Definition ChainLog : Type := list (ChainCall * res string).

(** A native value of a contract: [scValToNative] of what it returned; bytes are arrays. *)
Inductive Native : Type :=
  | NUndef
  | NBool (b : bool)
  | NInt (z : Z)
  | NStr (s : string)
  | NBytes (b : list byte)
  | NVec (l : list Native)
  | NMap (l : list (string * Native)).

(** The [ContractInvoker]: outcomes of writes and reads given what happened before.  The outcome
    of a write is what its caller is told; an error does not say that it was not applied. *)
Class Network : Type := {
  outcome : ChainLog → ChainCall → res string;
  view : ChainLog → ReadOptions → res Native;
  latestLedger : ChainLog → res Z;
}.

Section calls.
Context {N : Network}.
Definition call (c : ChainCall) : M ChainLog string := λ log,
  let r := outcome log c in (r, log ++ [(c, r)]).
Definition invoke (o : InvokeOptions) : M ChainLog string := call (CInvoke o).
Definition readNative (o : ReadOptions) : M ChainLog Native := λ log, (view log o, log).
Definition getLatestLedger : M ChainLog Z := λ log, (latestLedger log, log).

Lemma call_run c log r log' : call c log = (r, log') → r = outcome log c ∧ log' = log ++ [(c, r)].
Proof. unfold call. by intros [= <- <-]. Qed.
End calls.

(** ** Native values *)
Definition native_truthy (v : Native) : bool :=
  match v with
  | NUndef => false
  | NBool b => b
  | NInt z => negb (z =? 0)
  | NStr s => negb (String.eqb s "")
  | NBytes _ | NVec _ | NMap _ => true
  end.
(** [Number(v)] of an integer or decimal text; [NaN] is [None]. *)
Definition native_Number (v : Native) : option Z :=
  match v with
  | NInt z => Some z
  | NBool b => Some (if b then 1 else 0)
  | NStr s => bigint_of_string s
  | _ => None
  end.
(** [BigInt(v ?? 0)] *)
Definition native_BigInt (v : Native) : res Z :=
  match v with
  | NInt z => Ok z
  | NBool b => Ok (if b then 1 else 0)
  | NStr s => BigInt s
  | NUndef => Ok 0
  | _ => Err (SyntaxError "Cannot convert to a BigInt")
  end.
(** [v[i]] and [v.k], [undefined] when absent *)
Definition native_at (v : Native) (i : nat) : Native :=
  match v with NVec l => default NUndef (l !! i) | _ => NUndef end.
Definition native_field (v : Native) (k : string) : res Native :=
  match v with
  | NMap l => Ok (default NUndef (JMap.get k l))
  | NUndef => Err (TypeError ("Cannot read properties of undefined (reading '" +:+ k +:+ "')"))
  | _ => Ok NUndef
  end.

(** ** Signers *)

(** A signer is its account; what it signs goes to the network. *)
Record OpaqueSigner : Type := mkSigner { sg_publicKey : string }.
Definition requireSigner {S} (signer : option OpaqueSigner) : M S OpaqueSigner :=
  match signer with
  | Some s => mret s
  | None => throw (JsError "This operation requires a signer. Construct OpaqueClient with { signer }.")
  end.
Definition resolveReadSource {S} (signer : option OpaqueSigner) (explicit : option string) : M S string :=
  match explicit, signer with
  | Some (String c s), _ => mret (String c s)
  | _, Some s => mret (sg_publicKey s)
  | _, None => throw (JsError ("This read needs an account to simulate from. Construct OpaqueClient with { signer } " +:+
                               "or pass an explicit `source` account."))
  end.
