(* ===== verification/SdkRpcClient.v ===== *)
(** * SDK: the Soroban RPC client

    [sdk/src/rpc/client.ts] and [sdk/src/rpc/diagnostics.ts]: reads with retry and fallback
    over several servers, the poll for a transaction, contract invocations, transfers,
    account merges and fee bumps, and the errors a failed transaction becomes.  What the
    servers answer to a call, and how long it takes, are parameters indexed by the number of
    calls made so far; XDR parsing and the signers are parameters too. *)
From Stdlib Require Import Ascii.
From stdpp Require Import base tactics list sets strings.
From Stdlib Require Import ZArith Lia.
From S2P Require Import Prelude JsString JsMap Bytes Json SdkCodec SdkChain.
Open Scope string_scope.
Open Scope list_scope.
Open Scope Z_scope.

Definition READ_TIMEOUT_MS : Z := 12000.
Definition READ_RETRIES_PER_PROVIDER : nat := 2.
Definition TX_POLL_TIMEOUT_MS : Z := 60000.
Definition TX_POLL_INTERVAL_MS : Z := 1000.
Definition NEW_ACCOUNT_MIN_RESERVE_STROOPS : Z := 10000000.
Definition BASE_FEE : string := "100".

(** ** Errors *)

(** What the client reads off an error: the numeric statuses it carries, its text, and
    whether it is an [Error]. *)
Record ErrorShape : Type := mkShape {
  es_status : option Z;
  es_statusCode : option Z;
  es_response : option Z;
  es_message : string;
  es_isError : bool;
}.

(** What the client throws: its own classes, or what a library threw. *)
Inductive Failure : Type :=
  | FRpc (msg : string) (httpStatus : option Z)
  | FSimulation (msg diagnostics : string)
  | FContract (contract : string) (code : Z) (errorName : option string)
  | FMerge (account : string) (balances : list string)
  | FOther (e : ErrorShape).

Definition shape (f : Failure) : ErrorShape :=
  match f with
  | FRpc m _ | FSimulation m _ => mkShape None None None m true
  | FContract c code name =>
      let label := match name with
                   | Some (String a n) => String a n +:+ " (#" +:+ bigint_toString 10 code +:+ ")"
                   | _ => "#" +:+ bigint_toString 10 code
                   end in
      mkShape None None None (c +:+ " reverted: " +:+ label) true
  | FMerge a l => mkShape None None None ("Account " +:+ a +:+ " cannot be merged (incompatible state: " +:+ join ", " l +:+
      "). Fall back to a partial sweep; the base reserve will remain in the account.") true
  | FOther e => e
  end.

(** [extractStatus]: the first number among the three *)
Definition extractStatus (e : ErrorShape) : option Z :=
  match es_status e, es_statusCode e, es_response e with
  | Some s, _, _ => Some s
  | None, Some s, _ => Some s
  | None, None, r => r
  end.

(** [/rate.?limit/]: [.] is any character but a line terminator. *)
Definition line_terminator (s : string) : bool :=
  startsWith (String "010"%char "") s || startsWith (String "013"%char "") s.
Fixpoint rate_limit_in (s : string) : bool :=
  startsWith "ratelimit" s ||
  (startsWith "rate" s && startsWith "limit" (drop_string 5 s) && negb (line_terminator (drop_string 4 s))) ||
  match s with EmptyString => false | String _ s' => rate_limit_in s' end.

Definition isRetryableReadError (e : ErrorShape) : bool :=
  match es_response e with
  | Some s => existsb (Z.eqb s) [408; 429; 500; 502; 503; 504]
  | None => false
  end ||
  let m := toLowerCase (es_message e) in
  existsb (λ p, includes p m) ["timeout"; "timed out"; "too many requests"; "network"; "fetch"] || rate_limit_in m.

(** ** Diagnostics *)

(** A value of a diagnostic event: an error, or another value with the JSON text of its
    native form ([None] when there is none, as for 64-bit integers). *)
Inductive DiagVal : Type :=
  | DContractError (code : Z)
  | DError (type code : string)
  | DValue (json : option string).
(** Topics and data, [None] for what does not decode. *)
Definition DiagEvent : Type := option (list DiagVal * DiagVal).

Definition describeScError (v : DiagVal) : option string :=
  match v with
  | DContractError code => Some ("ContractError#" +:+ bigint_toString 10 code)
  | DError type code => Some (type +:+ "/" +:+ code)
  | DValue _ => None
  end.

Section diagnostics.
(** [JSON.stringify] of a string *)
Context (quote : string → string).

Definition readable_json (v : DiagVal) : option string :=
  match v with
  | DValue json => json
  | v => quote <$> describeScError v
  end.
Definition dq : string := String "034"%char "".
Definition event_text (ev : DiagEvent) : option string :=
  match ev with
  | Some (topics, data) =>
      ts ← mapM readable_json topics;
      d ← readable_json data;
      Some ("{" +:+ dq +:+ "topics" +:+ dq +:+ ":[" +:+ join "," ts +:+ "]," +:+ dq +:+ "data" +:+ dq +:+ ":" +:+ d +:+ "}")
  | None => None
  end.
Fixpoint take_string (n : nat) (s : string) : string :=
  match n, s with
  | S n', String c s' => String c (take_string n' s')
  | _, _ => ""
  end.
Definition decodeDiagnostics (events : list DiagEvent) : string :=
  take_string 1500 (join " | " (JSet.of_list (omap event_text events))).
End diagnostics.

Definition contract_code (v : DiagVal) : option Z := match v with DContractError c => Some c | _ => None end.
Definition first_code (ev : DiagEvent) : option Z :=
  match ev with
  | Some (topics, data) => match omap contract_code topics with c :: _ => Some c | [] => contract_code data end
  | None => None
  end.
Definition extractContractErrorCode (events : list DiagEvent) : option Z :=
  match omap first_code events with c :: _ => Some c | [] => None end.

(** ** Transactions *)
Inductive Op : Type :=
  | OpCall (contractId method : string) (args : list ScVal)
  | OpPayment (destination amount : string)
  | OpCreateAccount (destination startingBalance : string)
  | OpMerge (destination : string).
(** What [TransactionBuilder] builds: the fee is per operation, as text. *)
Record Tx (A : Type) : Type := mkTx {
  tx_account : A;
  tx_fee : string;
  tx_op : Op;
  tx_memo : option TxMemo.TransferMemo;
  tx_timeout : Z;
}.
Arguments mkTx {A} _ _ _ _ _.
Arguments tx_account {A} _.
Arguments tx_op {A} _.

(** A fetched transaction: its status and diagnostic events. *)
Record TxResponse : Type := mkTxResponse { tr_status : string; tr_events : list DiagEvent }.
Record SendResponse : Type := mkSend { se_status : string; se_hash : string; se_errorResult : string }.
Record Balance : Type := mkBalance { ba_type : string; ba_code : option string; ba_issuer : option string }.
Record Telemetry : Type := mkTelemetry {
  te_contractId : string;
  te_method : string;
  te_success : bool;
  te_durationMs : Z;
  te_error : option string;
}.

(** A simulation: an error, or the fee, the resources (instructions, bytes read from disk,
    bytes read, bytes written; [None] when they cannot be read) and the returned value. *)
Record Simulation : Type := mkSim {
  sim_error : option string;
  sim_minResourceFee : string;
  sim_usage : option (Z * option Z * option Z * Z);
  sim_retval : option Native;
}.
Definition extractResourceUsage (usage : option (Z * option Z * option Z * Z)) : SimulatedResourceUsage :=
  match usage with
  | Some (instructions, diskReadBytes, readBytes, writeBytes) =>
      mkUsage instructions (match diskReadBytes with Some d => d | None => default 0 readBytes end) writeBytes
  | None => mkUsage 0 0 0
  end.

(** ** Servers

    The answer to the n-th call, and the milliseconds it took. *)
Class Servers : Type := {
  Account : Type;
  Signed : Type;
  duration : nat → Z;
  getAccount : nat → nat → string → Account + ErrorShape;
  simulateTransaction : nat → nat → Tx Account → Simulation + ErrorShape;
  prepareTransaction : nat → Tx Account → Tx Account + ErrorShape;
  assembleTransaction : Tx Account → Simulation → Tx Account;
  (** what building a transaction throws, when it does (a bad address, contract, amount or memo) *)
  buildError : Op → option TxMemo.TransferMemo → option ErrorShape;
  sendTransaction : nat → Signed → SendResponse + ErrorShape;
  getTransaction : nat → string → TxResponse + ErrorShape;
  loadAccount : nat → string → (Account * list Balance) + ErrorShape;   (** Horizon *)
  submitTransaction : nat → Signed → string + ErrorShape;
  (** what the signer returned for a transaction, read back *)
  signTransaction : OpaqueSigner → Tx Account → Signed + ErrorShape;
  (** parsing an inner transaction, and signing its fee bump *)
  parseInner : string → Tx Account + ErrorShape;
  buildFeeBump : Account → string → Tx Account → string + ErrorShape;
  signXdr : OpaqueSigner → string → Signed + ErrorShape;
}.

Section client.
Context {AC : AddressCodec} {SV : Servers} (serverCount : nat) (quote : string → string).
Context (contractErrorName : string → Z → option string).

(** The clock, the calls made, what was submitted, and what was reported. *)
Record World : Type := mkWorld {
  rw_now : Z;
  rw_calls : nat;
  rw_sent : list Signed;
  rw_telemetry : list Telemetry;
}.
Definition RM (A : Type) : Type := World → (A + Failure) * World.
#[local] Instance RM_ret : MRet RM := λ A a w, (inl a, w).
#[local] Instance RM_bind : MBind RM := λ A B f m w,
  match m w with (inl a, w') => f a w' | (inr e, w') => (inr e, w') end.
Definition rthrow {A} (e : Failure) : RM A := λ w, (inr e, w).
Definition lift {A} (r : A + Failure) : RM A := λ w, (r, w).
Definition other {A} (r : A + ErrorShape) : A + Failure := match r with inl a => inl a | inr e => inr (FOther e) end.
Definition sleep (ms : Z) : RM unit := λ w, (inl tt, mkWorld (rw_now w + ms) (rw_calls w) (rw_sent w) (rw_telemetry w)).
Definition now : RM Z := λ w, (inl (rw_now w), w).
Definition elapse (ms : Z) (w : World) : World := mkWorld (rw_now w + ms) (S (rw_calls w)) (rw_sent w) (rw_telemetry w).

Definition server_call {A} (answer : nat → A + ErrorShape) : RM A := λ w,
  (other (answer (rw_calls w)), elapse (duration (rw_calls w)) w).
Definition withTimeout {A} (answer : nat → A + ErrorShape) (label : string) : RM A := λ w,
  if duration (rw_calls w) <? READ_TIMEOUT_MS then server_call answer w
  else (inr (FRpc (label +:+ " timed out after " +:+ bigint_toString 10 READ_TIMEOUT_MS +:+ "ms") None), elapse READ_TIMEOUT_MS w).

(** ** Reads *)

(** One server: its answer, or the last error worth a retry. *)
Fixpoint read_provider {A} (answer : nat → A + ErrorShape) (label : string) (left attempt : nat) : RM (A + Failure) := λ w,
  match withTimeout answer label w with
  | (inl a, w') => (inl (inl a), w')
  | (inr err, w') =>
      if negb (isRetryableReadError (shape err)) then (inr err, w')
      else match left with
           | O => (inl (inr err), w')
           | S left' => (sleep (350 * (Z.of_nat attempt + 1)) ≫= λ _, read_provider answer label left' (S attempt)) w'
           end
  end.
Definition read_failed (label : string) (lastError : option Failure) : Failure :=
  match lastError with
  | Some e => if es_isError (shape e) then FRpc (label +:+ " failed: " +:+ es_message (shape e)) None else FRpc (label +:+ " failed") None
  | None => FRpc (label +:+ " failed") None
  end.
Fixpoint read_servers {A} (fn : nat → nat → A + ErrorShape) (label : string) (servers : list nat) (lastError : option Failure) : RM A :=
  match servers with
  | [] => rthrow (read_failed label lastError)
  | s :: rest =>
      r ← read_provider (fn s) label (READ_RETRIES_PER_PROVIDER - 1) 0;
      match r with inl a => mret a | inr e => read_servers fn label rest (Some e) end
  end.
Definition read {A} (fn : nat → nat → A + ErrorShape) (label : string) : RM A := read_servers fn label (seq 0 serverCount) None.

(** ** Polling *)
Definition POLL_FUEL : nat := 61.
Fixpoint poll_loop (fuel : nat) (start : Z) (txHash : string) : RM (option TxResponse) :=
  match fuel with
  | O => mret None
  | S fuel' =>
      t ← now;
      if t - start <? TX_POLL_TIMEOUT_MS then
        r ← server_call (λ n, getTransaction n txHash);
        if negb (String.eqb (tr_status r) "NOT_FOUND") then mret (Some r)
        else sleep TX_POLL_INTERVAL_MS;; poll_loop fuel' start txHash
      else rthrow (FRpc ("Transaction polling timed out for " +:+ txHash) None)
  end.
Definition poll (txHash : string) : RM TxResponse :=
  start ← now;
  r ← poll_loop POLL_FUEL start txHash;
  match r with Some r => mret r | None => rthrow (FRpc "poll ran out of iterations" None) end.

(** ** Contract calls *)
Definition build (account : Account) (fee : string) (op : Op) (memo : option TxMemo.TransferMemo) (timeout : Z) : Tx Account + Failure :=
  match buildError op memo with Some e => inr (FOther e) | None => inl (mkTx account fee op memo timeout) end.
Definition simulated (method : string) (sim : Simulation) : RM Simulation :=
  match sim_error sim with
  | Some diagnostics => rthrow (FSimulation ("Simulation failed for " +:+ method) diagnostics)
  | None => mret sim
  end.

Definition getEvents {A} (request : nat → nat → A + ErrorShape) : RM A := read request "getEvents".
Definition getLatestLedger (sequence : nat → nat → Z + ErrorShape) : RM Z := read sequence "getLatestLedger".

(** The simulation of a call on every server that answers. *)
Definition simulate_call (source contractId method : string) (args : list ScVal) : RM Simulation :=
  account ← read (λ s n, getAccount s n source) "getAccount";
  tx ← lift (build account BASE_FEE (OpCall contractId method args) None 60);
  sim ← read (λ s n, simulateTransaction s n tx) ("simulate " +:+ method);
  simulated method sim.
Definition simulateRead (opts : ReadOptions) : RM (option Native) :=
  sim ← simulate_call (ro_source opts) (ro_contractId opts) (ro_method opts) (ro_args opts);
  mret (sim_retval sim).
Definition client_readNative (opts : ReadOptions) : RM Native :=
  retval ← simulateRead opts; mret (default NUndef retval).
Definition simulateInvoke (opts : InvokeOptions) : RM (SimulationReport Native) :=
  sim ← simulate_call (io_source opts) (io_contractId opts) (io_method opts) (io_args opts);
  fee ← lift (match BigInt (sim_minResourceFee sim) with
              | Ok v => inl v
              | Err e => inr (FOther (mkShape None None None (err_message e) true))
              end);
  mret (mkReport fee (extractResourceUsage (sim_usage sim)) (default NUndef (sim_retval sim))).

Definition toContractError (opts : InvokeOptions) (result : TxResponse) : Failure :=
  let events := tr_events result in
  let diagnostics := match events with [] => "" | _ => decodeDiagnostics quote events end in
  match extractContractErrorCode events with
  | Some code =>
      match io_contractPackage opts with
      | Some (String a p) => FContract (String a p) code (contractErrorName (String a p) code)
      | Some "" => FContract "" code None
      | None => FContract (io_contractId opts) code None
      end
  | None =>
      FRpc ("Transaction " +:+ tr_status result +:+
            match diagnostics with EmptyString => "" | d => ": " +:+ d end) None
  end.

Definition submit (signed : Signed) : RM SendResponse := λ w,
  server_call (λ n, sendTransaction n signed) (mkWorld (rw_now w) (rw_calls w) (rw_sent w ++ [signed]) (rw_telemetry w)).

Definition invoke_body (signer : OpaqueSigner) (skipSimulation : bool) (opts : InvokeOptions) : RM string :=
  account ← read (λ s n, getAccount s n (io_source opts)) "getAccount";
  raw ← lift (build account BASE_FEE (OpCall (io_contractId opts) (io_method opts) (io_args opts)) None 180);
  prepared ← (if skipSimulation then server_call (λ n, prepareTransaction n raw)
              else sim ← server_call (λ n, simulateTransaction 0 n raw);
                   sim ← simulated (io_method opts) sim;
                   mret (assembleTransaction raw sim));
  signed ← lift (other (signTransaction signer prepared));
  send ← submit signed;
  (if String.eqb (se_status send) "ERROR"
   then rthrow (FRpc ("sendTransaction rejected: " +:+ se_errorResult send) None)
   else mret tt);;
  result ← poll (se_hash send);
  if negb (String.eqb (tr_status result) "SUCCESS") then rthrow (toContractError opts result)
  else mret (se_hash send).

Definition report (t : Telemetry) (w : World) : World := mkWorld (rw_now w) (rw_calls w) (rw_sent w) (rw_telemetry w ++ [t]).
Definition client_invoke (signer : OpaqueSigner) (skipSimulation : bool) (opts : InvokeOptions) : RM string := λ w,
  let start := rw_now w in
  let '(r, w') := invoke_body signer skipSimulation opts w in
  let event := mkTelemetry (io_contractId opts) (io_method opts) (match r with inl _ => true | inr _ => false end) (rw_now w' - start)
                 (match r with inl _ => None | inr e => Some (es_message (shape e)) end) in
  (r, report event w').

(** ** Transfers *)
Definition horizon_submit (signed : Signed) : RM string := λ w,
  server_call (λ n, submitTransaction n signed) (mkWorld (rw_now w) (rw_calls w) (rw_sent w ++ [signed]) (rw_telemetry w)).

Definition accountExists (publicKey : string) : RM bool := λ w,
  match server_call (λ n, loadAccount n publicKey) w with
  | (inl _, w') => (inl true, w')
  | (inr e, w') =>
      let status := extractStatus (shape e) in
      if bool_decide (status = Some 404) then (inl false, w')
      else (inr (FRpc ("Account lookup failed for " +:+ publicKey) status), w')
  end.

Definition sendNativeTransfer (signer : OpaqueSigner) (destination : string) (amountStroops : Z) (feePerOperation : option string)
    (memo : option TxMemo.TransferMemo) : RM string :=
  let source := sg_publicKey signer in
  account ← server_call (λ n, loadAccount n source);
  destExists ← accountExists destination;
  let amount := Amount.formatStroopsToXlm amountStroops in
  (if negb destExists && (amountStroops <? NEW_ACCOUNT_MIN_RESERVE_STROOPS)
   then rthrow (FRpc "Destination account does not exist; create-account requires at least 1 XLM." None)
   else mret tt);;
  let op := if destExists : bool then OpPayment destination amount else OpCreateAccount destination amount in
  tx ← lift (build account.1 (default BASE_FEE feePerOperation) op memo 180);
  signed ← lift (other (signTransaction signer tx));
  horizon_submit signed.

(** [buildFeeBumpXdr] *)
Definition buildFeeBumpXdr (feeSource : Account) (feePerOperation innerTransactionXdr : string) : string + Failure :=
  match parseInner innerTransactionXdr with
  | inr _ => inr (FRpc "Inner transaction XDR could not be parsed." None)
  | inl inner =>
      match buildFeeBump feeSource feePerOperation inner with
      | inr _ => inr (FRpc "Fee-bump transaction could not be built." None)
      | inl bump => inl bump
      end
  end.
Definition feeBumpTransaction (feeSigner : OpaqueSigner) (innerTransactionXdr feePerOperation : string) : RM string :=
  account ← server_call (λ n, loadAccount n (sg_publicKey feeSigner));
  bumpXdr ← lift (buildFeeBumpXdr account.1 feePerOperation innerTransactionXdr);
  signed ← lift (other (signXdr feeSigner bumpXdr));
  horizon_submit signed.

Definition incompatible (b : Balance) : option string :=
  if String.eqb (ba_type b) "native" then None
  else Some (match ba_code b with
             | Some (String c code) => String c code +:+ ":" +:+ default "?" (ba_issuer b)
             | _ => ba_type b
             end).
Definition accountMerge (sourceSigner : OpaqueSigner) (destination : string) : RM string :=
  let source := sg_publicKey sourceSigner in
  account ← server_call (λ n, loadAccount n source);
  (match omap incompatible account.2 with
   | [] => mret tt
   | l => rthrow (FMerge source l)
   end);;
  tx ← lift (build account.1 BASE_FEE (OpMerge destination) None 180);
  signed ← lift (other (signTransaction sourceSigner tx));
  horizon_submit signed.

(** ** Lemmas *)

(** Nothing is submitted or reported. *)
Definition quiet {A} (m : RM A) : Prop := ∀ w, rw_sent (m w).2 = rw_sent w ∧ rw_telemetry (m w).2 = rw_telemetry w.

Lemma quiet_ret {A} (a : A) : quiet (mret a). Proof. done. Qed.
Lemma quiet_throw {A} e : quiet (rthrow (A := A) e). Proof. done. Qed.
Lemma quiet_lift {A} (r : A + Failure) : quiet (lift r). Proof. done. Qed.
Lemma quiet_call {A} (answer : nat → A + ErrorShape) : quiet (server_call answer). Proof. done. Qed.
Lemma quiet_then {A B} (m : RM A) (f : A → RM B) : quiet m → (∀ a, quiet (f a)) → quiet (m ≫= f).
Proof.
  intros Hm Hf w. unfold mbind, RM_bind. destruct (Hm w) as [H1 H2]. destruct (m w) as [[a|e] w']; cbn [snd] in *; [|done].
  destruct (Hf a w') as [H3 H4]. by rewrite H3, H4.
Qed.
Lemma quiet_timeout {A} (answer : nat → A + ErrorShape) label : quiet (withTimeout answer label).
Proof. intros w. unfold withTimeout. by destruct (_ <? _). Qed.
Lemma quiet_provider {A} (answer : nat → A + ErrorShape) label left attempt : quiet (read_provider answer label left attempt).
Proof.
  revert attempt. induction left as [|left IH]; intros attempt w; cbn [read_provider]; destruct (quiet_timeout answer label w) as [H1 H2];
    destruct (withTimeout answer label w) as [[a|e] w']; cbn [snd] in *; try done; (destruct (negb _); [done|]).
  - done.
  - assert (Hq : quiet (sleep (350 * (Z.of_nat attempt + 1)) ≫= λ _, read_provider answer label left (S attempt))) by by apply quiet_then.
    destruct (Hq w') as [H3 H4]. by rewrite H3, H4.
Qed.
Lemma quiet_read {A} (fn : nat → nat → A + ErrorShape) label : quiet (read fn label).
Proof.
  unfold read. generalize (seq 0 serverCount), (@None Failure). intros l. induction l as [|s l IH]; intros last; cbn [read_servers]; [done|].
  apply quiet_then; [apply quiet_provider|]. intros [a|e]; [done|apply IH].
Qed.
Lemma quiet_poll_loop fuel start h : quiet (poll_loop fuel start h).
Proof.
  induction fuel as [|fuel IH]; cbn [poll_loop]; [done|]. apply quiet_then; [done|]. intros t. destruct (_ <? _); [|done].
  apply quiet_then; [done|]. intros r. destruct (negb _); [done|]. by apply quiet_then.
Qed.
Lemma quiet_poll h : quiet (poll h).
Proof. apply quiet_then; [done|]. intros t. apply quiet_then; [apply quiet_poll_loop|]. by intros [r|]. Qed.

(** What one iteration of the poll does. *)
Lemma poll_loop_unfold fuel start h w :
  rw_now w - start < TX_POLL_TIMEOUT_MS →
  poll_loop (S fuel) start h w =
    let w' := elapse (duration (rw_calls w)) w in
    match getTransaction (rw_calls w) h with
    | inr e => (inr (FOther e), w')
    | inl r => if negb (String.eqb (tr_status r) "NOT_FOUND") then (inl (Some r), w')
               else poll_loop fuel start h (mkWorld (rw_now w' + TX_POLL_INTERVAL_MS) (rw_calls w') (rw_sent w') (rw_telemetry w'))
    end.
Proof.
  intros Hlt. cbn [poll_loop]. unfold mbind, RM_bind, now, server_call, other, mret, RM_ret, sleep.
  rewrite (proj2 (Z.ltb_lt _ _) Hlt). destruct (getTransaction (rw_calls w) h) as [r|e]; [|done]. by destruct (negb _).
Qed.

Context (Hd : ∀ n, 0 <= duration n).

Definition found (r : TxResponse) : Prop := tr_status r ≠ "NOT_FOUND".
(** The first request answered with the transaction is [n]. *)
Definition first_found (h : string) (from n : nat) (r : TxResponse) : Prop :=
  (from <= n)%nat ∧ getTransaction n h = inl r ∧ found r ∧
  ∀ k, (from <= k < n)%nat → ∃ r', getTransaction k h = inl r' ∧ tr_status r' = "NOT_FOUND".

Definition poll_outcome (h : string) (start : Z) (w w' : World) (r : option TxResponse + Failure) : Prop :=
  match r with
  | inl None => False
  | inl (Some a) => ∃ n, rw_calls w' = S n ∧ first_found h (rw_calls w) n a
  | inr e => (e = FRpc ("Transaction polling timed out for " +:+ h) None ∧ TX_POLL_TIMEOUT_MS <= rw_now w' - start) ∨
             ∃ n e', getTransaction n h = inr e' ∧ e = FOther e'
  end.

Lemma poll_loop_spec fuel start h w r w' :
  poll_loop (S fuel) start h w = (r, w') → 1000 * (60 - Z.of_nat fuel) <= rw_now w - start →
  (rw_calls w' <= rw_calls w + fuel)%nat ∧ poll_outcome h start w w' r.
Proof using Hd.
  revert w. induction fuel as [|fuel IH]; intros w H Ht; destruct (Z.ltb_spec (rw_now w - start) TX_POLL_TIMEOUT_MS) as [Hlt|Hge].
  1: unfold TX_POLL_TIMEOUT_MS in Hlt; lia.
  1, 3: cbn [poll_loop] in H; unfold mbind, RM_bind, now in H; rewrite (proj2 (Z.ltb_ge _ _) Hge) in H; injection H as <- <-;
    split; [lia|left; done].
  rewrite poll_loop_unfold in H by done. cbv zeta in H. destruct (getTransaction (rw_calls w) h) as [a|e] eqn:Ha.
  2: { injection H as <- <-. split; [cbn; lia|]. right. by eexists _, _. }
  destruct (String.eqb_spec (tr_status a) "NOT_FOUND") as [Hn|Hn]; cbn [negb] in H.
  - apply IH in H as [Hc Ho]; cbn [rw_calls rw_now elapse] in *; [|specialize (Hd (rw_calls w)); unfold TX_POLL_INTERVAL_MS; lia].
    split; [lia|]. destruct r as [[b|]|e]; cbn [poll_outcome] in *; [|done..].
    destruct Ho as (n & Hn' & Hle & Hb & Hf & Hk). cbn [rw_calls elapse] in Hle, Hk. exists n. split; [done|]. split; [lia|]. split; [done|]. split; [done|].
    intros k Hkk. destruct (decide (k = rw_calls w)) as [->|]; [by exists a|]. apply Hk. lia.
  - injection H as <- <-. split; [cbn; lia|]. exists (rw_calls w). split; [done|]. split; [lia|]. split; [done|]. split; [done|]. lia.
Qed.

Lemma poll_decided h w :
  ∃ r w', poll h w = (r, w') ∧ (rw_calls w' <= rw_calls w + 60)%nat ∧
    match r with
    | inl a => ∃ n, rw_calls w' = S n ∧ first_found h (rw_calls w) n a
    | inr e => (e = FRpc ("Transaction polling timed out for " +:+ h) None ∧ TX_POLL_TIMEOUT_MS <= rw_now w' - rw_now w) ∨
               ∃ n e', getTransaction n h = inr e' ∧ e = FOther e'
    end.
Proof using Hd.
  destruct (poll_loop POLL_FUEL (rw_now w) h w) as [r w'] eqn:E.
  destruct (poll_loop_spec 60 (rw_now w) h w r w' E ltac:(lia)) as [Hc Ho].
  unfold poll, mbind, RM_bind, now. rewrite E. destruct r as [[a|]|e]; cbn [poll_outcome] in Ho; [by eexists _, _|done|by eexists _, _].
Qed.

(** A transaction known to the k-th request is found when the requests are quick enough. *)
Lemma poll_finds k d h w a :
  (∀ n, duration n <= d) → Z.of_nat k * (d + 1000) < TX_POLL_TIMEOUT_MS → first_found h (rw_calls w) (rw_calls w + k) a →
  (poll h w).1 = inl a.
Proof using Hd.
  intros Hdur Hk Hf. unfold poll, mbind, RM_bind, now.
  enough (H : ∀ j fuel v, (j < fuel)%nat → (j <= k)%nat → rw_calls v = (rw_calls w + (k - j))%nat →
    rw_now v - rw_now w <= Z.of_nat (k - j) * (d + 1000) → (poll_loop fuel (rw_now w) h v).1 = inl (Some a)).
  { unfold TX_POLL_TIMEOUT_MS in Hk. specialize (H k POLL_FUEL w). destruct (poll_loop _ _ _ w) as [r w']. cbn [fst] in H.
    rewrite H; [done|..]; [|lia|lia|lia]. unfold POLL_FUEL. specialize (Hd 0). specialize (Hdur 0%nat). nia. }
  assert (Hm : ∀ j, Z.of_nat (k - j) * (d + 1000) < TX_POLL_TIMEOUT_MS).
  { intros j. assert (0 <= d) by (etrans; [apply (Hd 0)|apply Hdur]).
    enough (Z.of_nat (k - j) * (d + 1000) <= Z.of_nat k * (d + 1000)) by lia. apply Z.mul_le_mono_nonneg_r; lia. }
  induction j as [|j IH]; intros [|fuel] v Hj Hle Hc Ht; try lia; (rewrite poll_loop_unfold; [|eapply Z.le_lt_trans; [exact Ht|apply Hm]]); cbv zeta.
  - destruct Hf as (_ & Ha & Hfd & _). rewrite Hc, Nat.sub_0_r, Ha. by rewrite (proj2 (String.eqb_neq _ _) Hfd).
  - destruct Hf as (Hle' & Ha & Hfd & Hb). destruct (Hb (rw_calls v)) as (r' & Hr' & Hs); [lia|]. rewrite Hr', Hs. cbn [String.eqb negb].
    apply IH; cbn [rw_calls rw_now elapse]; [lia|lia|lia|]. specialize (Hdur (rw_calls v)). unfold TX_POLL_INTERVAL_MS.
    replace (Z.of_nat (k - j)) with (Z.of_nat (k - S j) + 1) by lia. lia.
Qed.

(** *** Submissions *)

Lemma bind_case {A B} (m : RM A) (f : A → RM B) w r w' :
  (m ≫= f) w = (r, w') → (∃ e, m w = (inr e, w') ∧ r = inr e) ∨ ∃ a w1, m w = (inl a, w1) ∧ f a w1 = (r, w').
Proof. unfold mbind, RM_bind. destruct (m w) as [[a|e] w1]; [eauto|intros [= <- <-]; eauto]. Qed.
(** A quiet step that fails ends a run without effects; one that succeeds changes nothing. *)
Lemma quiet_step {A B} (m : RM A) (f : A → RM B) w r w' :
  quiet m → (m ≫= f) w = (r, w') →
  (rw_sent w' = rw_sent w ∧ rw_telemetry w' = rw_telemetry w ∧ ∃ e, r = inr e) ∨
  ∃ a w1, m w = (inl a, w1) ∧ f a w1 = (r, w') ∧ rw_sent w1 = rw_sent w ∧ rw_telemetry w1 = rw_telemetry w.
Proof.
  intros Hq H. destruct (Hq w) as [H1 H2]. apply bind_case in H as [(e & E & ->)|(a & w1 & E & H)]; rewrite E in H1, H2; cbn [snd] in *.
  - left. split_and!; [done..|by eexists].
  - right. by exists a, w1.
Qed.

(** What a call that confirmed a transaction knows of it. *)
Definition confirmed (signed : Signed) (hash : string) : Prop :=
  (∃ n s, sendTransaction n signed = inl s ∧ se_hash s = hash ∧ se_status s ≠ "ERROR") ∧
  ∃ n r, getTransaction n hash = inl r ∧ tr_status r = "SUCCESS".

Lemma submit_poll_spec opts signed w r w' :
  (send ← submit signed;
   (if String.eqb (se_status send) "ERROR"
    then rthrow (FRpc ("sendTransaction rejected: " +:+ se_errorResult send) None)
    else mret tt);;
   result ← poll (se_hash send);
   if negb (String.eqb (tr_status result) "SUCCESS") then rthrow (toContractError opts result)
   else mret (se_hash send)) w = (r, w') →
  rw_sent w' = rw_sent w ++ [signed] ∧ rw_telemetry w' = rw_telemetry w ∧
  match r with inl hash => confirmed signed hash | inr _ => True end.
Proof using Hd.
  intros [(e & E & ->)|(send & w1 & E & H)]%bind_case; unfold submit, server_call in E.
  { injection E as _ <-. done. }
  cbn [rw_calls] in E. destruct (sendTransaction (rw_calls w) signed) as [s|] eqn:Hs; [|done]. injection E as -> <-.
  destruct (String.eqb_spec (se_status send) "ERROR") as [He|He]; [injection H as <- <-; done|].
  unfold mbind at 1, RM_bind at 1, mret, RM_ret in H.
  destruct (poll_decided (se_hash send) (elapse (duration (rw_calls w)) (mkWorld (rw_now w) (rw_calls w) (rw_sent w ++ [signed]) (rw_telemetry w))))
    as (pr & pw & Hp & _ & Hout).
  apply quiet_step in H as [(-> & -> & e & ->)|(result & w2 & Hp' & H & Hs2 & Ht2)]; [done| |apply quiet_poll].
  change (poll (se_hash send) (elapse (duration (rw_calls w)) (mkWorld (rw_now w) (rw_calls w) (rw_sent w ++ [signed]) (rw_telemetry w))) = (inl result, w2)) in Hp'.
  rewrite Hp in Hp'. injection Hp' as -> ->. destruct (String.eqb_spec (tr_status result) "SUCCESS") as [Hok|]; cbn [negb] in H;
    injection H as <- <-; rewrite Hs2, Ht2; (split; [done|]); (split; [done|]); [|done].
  destruct Hout as (n & _ & _ & Hr & _). split; [by exists (rw_calls w), send|by exists n, result].
Qed.

(** An invocation submits at most one transaction, whatever the servers answer,
    and reports exactly one telemetry event, successful exactly when the call returned.  It
    returns a hash only when it submitted one transaction that the server took under this
    hash and later reported as successful; before anything was submitted it can only fail. *)
Theorem invoke_submits_once signer skip opts w :
  let '(r, w') := client_invoke signer skip opts w in
  (∃ t, rw_telemetry w' = rw_telemetry w ++ [t] ∧ te_success t = (match r with inl _ => true | inr _ => false end)) ∧
  ((rw_sent w' = rw_sent w ∧ ∃ e, r = inr e) ∨
   ∃ signed, rw_sent w' = rw_sent w ++ [signed] ∧ match r with inl hash => confirmed signed hash | inr _ => True end).
Proof using Hd.
  unfold client_invoke. destruct (invoke_body signer skip opts w) as [r w'] eqn:H.
  enough (Hb : rw_telemetry w' = rw_telemetry w ∧ ((rw_sent w' = rw_sent w ∧ ∃ e, r = inr e) ∨
    ∃ signed, rw_sent w' = rw_sent w ++ [signed] ∧ match r with inl hash => confirmed signed hash | inr _ => True end)).
  { destruct Hb as [Ht Hs]. split; [|exact Hs]. cbn [report rw_telemetry]. rewrite Ht. by eexists. }
  unfold invoke_body in H.
  apply quiet_step in H as [(Hs & Ht & He)|(account & w1 & _ & H & Hs1 & Ht1)]; [split; [done|by left]| |apply quiet_read].
  apply quiet_step in H as [(Hs & Ht & He)|(raw & w2 & _ & H & Hs2 & Ht2)]; [rewrite Hs, Ht, Hs1, Ht1; split; [done|by left]| |done].
  apply quiet_step in H as [(Hs & Ht & He)|(prepared & w3 & _ & H & Hs3 & Ht3)].
  3: { destruct skip; [done|]. apply quiet_then; [done|]. intros sim. apply quiet_then; [|done]. unfold simulated. by destruct (sim_error sim). }
  { rewrite Hs, Ht, Hs2, Ht2, Hs1, Ht1. split; [done|by left]. }
  apply quiet_step in H as [(Hs & Ht & He)|(signed & w4 & _ & H & Hs4 & Ht4)]; [| |done].
  { rewrite Hs, Ht, Hs3, Ht3, Hs2, Ht2, Hs1, Ht1. split; [done|by left]. }
  apply submit_poll_spec in H as (Hs & Ht & Hr). rewrite Hs, Ht, Hs4, Ht4, Hs3, Ht3, Hs2, Ht2, Hs1, Ht1. split; [done|]. right. by exists signed.
Qed.

(** A transfer submits at most one transaction; one that creates the destination is built
    only after Horizon answered 404 for it, and carries at least the reserve. *)
Lemma transfer_creates_only_absent signer destination amount fee memo w r w' :
  sendNativeTransfer signer destination amount fee memo w = (r, w') →
  (rw_sent w' = rw_sent w ∧ ∃ e, r = inr e) ∨
  ∃ signed account op, rw_sent w' = rw_sent w ++ [signed] ∧
    signTransaction signer (mkTx account (default BASE_FEE fee) op memo 180) = inl signed ∧
    (op = OpPayment destination (Amount.formatStroopsToXlm amount) ∨
     op = OpCreateAccount destination (Amount.formatStroopsToXlm amount) ∧ NEW_ACCOUNT_MIN_RESERVE_STROOPS <= amount ∧
     ∃ n e, loadAccount n destination = inr e ∧ extractStatus e = Some 404).
Proof using.
  unfold sendNativeTransfer. intros H.
  apply quiet_step in H as [(Hs & _ & He)|(account & w1 & _ & H & Hs1 & _)]; [by left| |done].
  apply bind_case in H as [(e & H & ->)|(ex & w2 & Hx & H)]; unfold accountExists, server_call in *.
  { left. destruct (loadAccount _ destination) as [?|e']; cbn [other] in H; [done|]. case_bool_decide; [done|]. injection H as _ <-.
    cbn [rw_sent elapse]. split; [done|by eexists]. }
  assert (Hex : rw_sent w2 = rw_sent w1 ∧ (ex = false → ∃ n e, loadAccount n destination = inr e ∧ extractStatus e = Some 404)).
  { destruct (loadAccount (rw_calls w1) destination) as [?|e'] eqn:El; cbn [other] in Hx; [by injection Hx as <- <-|].
    cbn [shape] in Hx. case_bool_decide; [|done]. injection Hx as <- <-. split; [done|]. intros _. by exists (rw_calls w1), e'. }
  destruct Hex as [Hs2 Hex]. clear Hx.
  apply quiet_step in H as [(Hs & _ & He)|([] & w3 & Hg & H & Hs3 & _)]; [left; split; [by rewrite Hs, Hs2|done]| |by destruct (_ && _)].
  set (op := if ex then _ else _) in H.
  apply quiet_step in H as [(Hs & _ & He)|(tx & w4 & Hb & H & Hs4 & _)]; [left; split; [by rewrite Hs, Hs3, Hs2|done]| |done].
  unfold lift, build in Hb. destruct (buildError op memo); [done|]. injection Hb as <- <-.
  apply quiet_step in H as [(Hs & _ & He)|(signed & w5 & Hb & H & Hs5 & _)]; [left; split; [by rewrite Hs, Hs3, Hs2|done]| |done].
  right. exists signed, account.1, op. unfold horizon_submit, server_call in H. injection H as _ <-. cbn [rw_sent elapse].
  split; [by rewrite Hs5, Hs3, Hs2, Hs1|]. unfold lift, other in Hb. destruct (signTransaction _ _) eqn:Hsg; [|done]. injection Hb as -> _.
  split; [done|]. subst op. destruct ex; [by left|]. right. split; [done|]. split; [|by apply Hex].
  cbn [negb andb] in Hg. destruct (Z.ltb_spec amount NEW_ACCOUNT_MIN_RESERVE_STROOPS); [done|lia].
Qed.

(** A merge is submitted only for an account all of whose balances are native. *)
Lemma merge_only_native signer destination w r w' :
  accountMerge signer destination w = (r, w') → rw_sent w' ≠ rw_sent w →
  ∃ account balances, loadAccount (rw_calls w) (sg_publicKey signer) = inl (account, balances) ∧
    Forall (λ b, ba_type b = "native") balances.
Proof using.
  unfold accountMerge. intros H Hne.
  apply bind_case in H as [(e & H & ->)|([account balances] & w1 & Hl & H)].
  { unfold server_call in H. by injection H as _ <-. }
  unfold server_call, other in Hl. destruct (loadAccount _ _) as [[? ?]|]; [|done]. injection Hl as -> -> <-. exists account, balances. split; [done|].
  cbn [snd] in H. destruct (omap incompatible balances) as [|x l] eqn:Hi; [|by injection H as _ <-]. clear H Hne.
  induction balances as [|b bs IH]; constructor; cbn [omap list_omap] in Hi; unfold incompatible in Hi at 1;
    destruct (String.eqb_spec (ba_type b) "native"); done || auto.
Qed.

(** Polling for a transaction always ends, after at most 60 requests: with
    the answer of the first request that knew the transaction, with the error a request ended
    in, or with the timeout, which is then really over.  The loop's 61 iterations are never
    used up. *)
Theorem poll_terminates h w :
  ∃ r w', poll h w = (r, w') ∧ (rw_calls w' <= rw_calls w + 60)%nat ∧
    match r with
    | inl a => ∃ n, rw_calls w' = S n ∧ first_found h (rw_calls w) n a
    | inr e => (e = FRpc ("Transaction polling timed out for " +:+ h) None ∧ TX_POLL_TIMEOUT_MS <= rw_now w' - rw_now w) ∨
               ∃ n e', getTransaction n h = inr e' ∧ e = FOther e'
    end.
Proof using Hd. apply poll_decided. Qed.
End client.

(** ** Examples *)

(** One server that takes everything and knows the transaction on the second request. *)
Definition toy_servers : Servers := {|
  Account := unit;
  Signed := string;
  duration _ := 10;
  getAccount _ _ _ := inl tt;
  simulateTransaction _ _ _ := inl (mkSim None "100" None None);
  prepareTransaction _ t := inl t;
  assembleTransaction t _ := t;
  buildError _ _ := None;
  sendTransaction _ _ := inl (mkSend "PENDING" "hash" "");
  getTransaction n _ := inl (mkTxResponse (if (n <? 4)%nat then "NOT_FOUND" else "SUCCESS") []);
  loadAccount _ _ := inl (tt, []);
  submitTransaction _ _ := inl "hash";
  signTransaction _ _ := inl "signed";
  parseInner _ := inr (mkShape None None None "bad XDR" true);
  buildFeeBump _ _ _ := inl "bump";
  signXdr _ _ := inl "signed";
|}.
Definition toy_world : World (SV := toy_servers) := mkWorld (SV := toy_servers) 0 0 [] [].
Lemma toy_durations n : 0 <= duration (Servers := toy_servers) n.
Proof. cbn. lia. Qed.

Lemma poll_terminates_witness :
  ∃ w', poll (SV := toy_servers) "hash" toy_world = (inl (mkTxResponse "SUCCESS" []), w') ∧ (rw_calls w' <= 60)%nat.
Proof.
  destruct (poll_terminates (SV := toy_servers) toy_durations "hash" toy_world) as (r & w' & H & Hc & _).
  exists w'. split; [|exact Hc]. rewrite H. f_equal. apply (f_equal fst) in H. vm_compute in H. symmetry. exact H.
Defined.

Definition toy_invoke : InvokeOptions := mkInvoke "GME" "CPOOL" "deposit" None [].
Lemma invoke_submits_once_witness :
  ∃ w', client_invoke (SV := toy_servers) 1 (λ s, s) (λ _ _, None) (mkSigner "GME") false toy_invoke toy_world = (inl "hash", w') ∧
    rw_sent w' = ["signed"] ∧ confirmed (SV := toy_servers) "signed" "hash".
Proof.
  pose proof (invoke_submits_once (SV := toy_servers) 1 (λ s, s) (λ _ _, None) toy_durations (mkSigner "GME") false toy_invoke toy_world) as H.
  destruct (client_invoke (SV := toy_servers) 1 (λ s, s) (λ _ _, None) (mkSigner "GME") false toy_invoke toy_world) as [r w'] eqn:E.
  assert (r = inl "hash") as -> by (apply (f_equal fst) in E; vm_compute in E; congruence).
  exists w'. split; [done|]. destruct H as [_ [(_ & e & [=])|(signed & Hs & Hc)]].
  assert (signed = "signed") as -> by (apply (f_equal (λ p, rw_sent p.2)) in E; cbn [snd] in E; rewrite Hs in E; vm_compute in E; congruence).
  split; [exact Hs|exact Hc].
Defined.
