(* ===== verification/SdkPayments.v ===== *)
(** * SDK: stealth payments

    The bindings of the stealth registry and announcer ([sdk/src/contracts/payments.ts]) and
    the payments service ([sdk/src/services/payments.ts]): registering a meta-address,
    paying a one-time account and announcing it, sweeping, and scanning the chain with a
    stored cursor.  The event an announcement becomes is the one the announcer contract
    publishes ([contracts/stealth-announcer/src/lib.rs]). *)
From Stdlib Require Import Ascii.
From stdpp Require Import base tactics list sets strings.
From Stdlib Require Import ZArith Lia Sorted.
From S2P Require Import Prelude JsString JsMap Bytes Json PubValidate SdkCodec SdkPool SdkStealth SdkStorage SdkRpc SdkChain.
Import CryptoBytes.
Open Scope string_scope.
Open Scope list_scope.
Open Scope Z_scope.

(** ** Contract bindings *)
Definition SCHEME_ID_SECP256K1 : Z := 1.
Definition ANNOUNCEMENT_EVENT_LOOKBACK : Z := 16000.

Section bindings.
Context {EC : Secp256k1} {SP : StealthPrims} {AC : AddressCodec} {N : Network}.

Definition contract_version (contractId source : string) : M ChainLog (option Z) :=
  v ← readNative (mkRead source contractId "version" []); mret (native_Number v).

(** [StealthRegistry] *)
Definition registerKeys (contractId : string) (stealthMetaAddress : list byte) (schemeId : option Z) (signer : OpaqueSigner)
  : M ChainLog string :=
  lift_res (assertValidStealthMetaAddress stealthMetaAddress);;
  let source := sg_publicKey signer in
  who ← lift_res (addressToScVal source);
  invoke (mkInvoke source contractId "register_keys" (Some "stealth-registry")
    [who; u64ToScVal (default SCHEME_ID_SECP256K1 schemeId); bytesToScVal stealthMetaAddress]).

Definition bytes_or_null (v : Native) : option Native := match v with NUndef => None | v => Some v end.
Definition resolve (contractId address source : string) : M ChainLog (option Native) :=
  catch_null (who ← lift_res (addressToScVal address);
              v ← readNative (mkRead source contractId "resolve" [who]); mret (bytes_or_null v)).
Definition resolveHistorical (contractId address source : string) (ledger : Z) : M ChainLog (option Native) :=
  catch_null (who ← lift_res (addressToScVal address);
              v ← readNative (mkRead source contractId "resolve_historical" [who; u64ToScVal ledger]);
              mret (bytes_or_null v)).

(** [StealthAnnouncer] *)
Definition announce (contractId : string) (stealthAddress ephemeralPubKey metadata : list byte) (schemeId : option Z)
    (signer : OpaqueSigner) : M ChainLog string :=
  let source := sg_publicKey signer in
  who ← lift_res (addressToScVal source);
  invoke (mkInvoke source contractId "announce" (Some "stealth-announcer")
    [who; u64ToScVal (default SCHEME_ID_SECP256K1 schemeId); bytesToScVal stealthAddress;
     bytesToScVal ephemeralPubKey; bytesToScVal metadata]).
End bindings.

(** The event the contract publishes for an accepted [announce] call: its ledger and its data
    [(scheme_id, stealth_address, caller, ephemeral_pub_key, metadata)]. *)
Record AnnouncementEvent : Type := mkAnnEvent { ae_ledger : Z; ae_data : list ScVal }.
Definition published (ledger : Z) (c : ChainCall) : option AnnouncementEvent :=
  match c with
  | CInvoke (mkInvoke _ _ "announce" _ [caller; scheme; stealthAddress; ephemeralPubKey; metadata]) =>
      Some (mkAnnEvent ledger [scheme; stealthAddress; caller; ephemeralPubKey; metadata])
  | _ => None
  end.

(** [Buffer.from(data[i])] *)
Definition bytes_at (data : list ScVal) (i : nat) : res (list byte) :=
  match data !! i with
  | Some (ScvBytes b) => Ok b
  | _ => Err (TypeError "The first argument must be of type string or an instance of Buffer")
  end.
(** The loop of [scanEvents] over one event *)
Definition decode_announcement (ev : AnnouncementEvent) : res StealthAnnouncement :=
  stealthAddress ← bytes_at (ae_data ev) 1;
  ephemeralPubKey ← bytes_at (ae_data ev) 3;
  metadata ← bytes_at (ae_data ev) 4;
  Ok (mkAnnouncement ("0x" +:+ hex_of_bytes stealthAddress) ephemeralPubKey
        (match metadata with b :: _ => byte_val b | [] => 0 end)).

(** ** The service *)
Record StealthIdentity : Type := mkIdentity {
  si_viewingKey : list byte;
  si_spendingKey : list byte;
  si_metaAddress : list byte;
  si_metaHex : string;
}.
Definition scanCursorKey (viewingKey : list byte) : string := "vk:" +:+ bytesToHex viewingKey.

(** What [send] ends with: both hashes, the recoverable [UnannouncedPaymentError], or another
    error. *)
Record Unannounced : Type := mkUnannounced {
  un_paymentTxHash : string;
  un_recipientMetaHex : string;
  un_stealthAddressHex : string;
  un_ephemeralPubKey : list byte;
  un_metadata : list byte;
  un_amountStroops : Z;
}.
Inductive SendResult : Type :=
  | Sent (stealthStellarAddress : string) (ephemeralPubKey : list byte) (paymentTxHash announceTxHash : string)
  | SendUnannounced (e : Unannounced).

(** [toAnnounceParams]: stealth address, ephemeral key, metadata *)
Definition toAnnounceParams (e : Unannounced) : option (list byte * list byte * list byte) :=
  match bytes_of_hex (strip0x (un_stealthAddressHex e)) with
  | Some addr => Some (addr, un_ephemeralPubKey e, un_metadata e)
  | None => None
  end.

Section service.
Context {EC : Secp256k1} {SP : StealthPrims} {AC : AddressCodec} {N : Network}.
Context (registryId announcerId : string) (signer : option OpaqueSigner).

Definition deriveIdentity (signatureHex : string) : res StealthIdentity :=
  keys ← deriveKeysFromSignature signatureHex;
  meta ← keysToStealthMetaAddress keys.1 keys.2;
  Ok (mkIdentity keys.1 keys.2 meta.2 (stealthMetaAddressToHex meta.2)).

Definition register (metaAddress : list byte) : M ChainLog string :=
  s ← requireSigner signer; registerKeys registryId metaAddress None s.

(** [MemoError] keeps the message. *)
Definition resolveMemo (destination : string) (memo : option TxMemo.TransferMemo) : res (option TxMemo.TransferMemo) :=
  match TxMemo.resolveTransferMemo destination memo with
  | Ok m => Ok m
  | Err e => Err (JsError (err_message e))
  end.

(** [sendNativeTransfer]; an error may hide a payment that was applied, as when the answer to
    [submitTransaction] is lost. *)
Definition transfer (s : OpaqueSigner) (destination : string) (amountStroops : Z) (memo : option TxMemo.TransferMemo)
    (fee : option string) : M ChainLog string :=
  call (CTransfer (sg_publicKey s) destination amountStroops memo fee).

(** The announcement after a payment, whose failure is reported with all it takes to retry. *)
Definition announce_paid (s : OpaqueSigner) (stealth : StealthTransfer) (paymentTxHash to : string) (amountStroops : Z)
  : M ChainLog SendResult :=
  try_catch
    (addr ← lift_res (hexToBytes (st_stealthAddress stealth));
     announceTxHash ← announce announcerId addr (st_ephemeralPubKey stealth) (st_metadata stealth) None s;
     mret (Sent (st_stealthStellarAddress stealth) (st_ephemeralPubKey stealth) paymentTxHash announceTxHash))
    (λ _, mret (SendUnannounced (mkUnannounced paymentTxHash to (st_stealthAddress stealth)
                  (st_ephemeralPubKey stealth) (st_metadata stealth) amountStroops))).

(** [ephemeral] is the key drawn. *)
Definition send (ephemeral : list byte) (to amountXlm : string) (memo : option TxMemo.TransferMemo) (feePerOperation : option string)
  : M ChainLog SendResult :=
  s ← requireSigner signer;
  memo ← lift_res (resolveMemo to memo);
  stealth ← lift_res (computeStealthAddressAndViewTag ephemeral to);
  amountStroops ← lift_res (Amount.parseXlmToStroops amountXlm);
  paymentTxHash ← transfer s (st_stealthStellarAddress stealth) amountStroops memo feePerOperation;
  announce_paid s stealth paymentTxHash to amountStroops.

Definition announcePaidTransfer (stealthAddress ephemeralPubKey metadata : list byte) : M ChainLog string :=
  s ← requireSigner signer; announce announcerId stealthAddress ephemeralPubKey metadata None s.

(** [keypairSigner] of the account derived from the one-time key *)
Definition stealth_signer (stealthPrivKey : list byte) : res OpaqueSigner :=
  kp ← deriveStealthStellarKeypairFromStealthPrivKey stealthPrivKey; Ok (mkSigner (publicKey kp)).
Definition sweep (stealthPrivKey : list byte) (destination : string) (amountStroops : Z) (memo : option TxMemo.TransferMemo)
    (feePerOperation : option string) : M ChainLog string :=
  memo ← lift_res (resolveMemo destination memo);
  s ← lift_res (stealth_signer stealthPrivKey);
  transfer s destination amountStroops memo feePerOperation.
Definition sweepWithMerge (stealthPrivKey : list byte) (destination : string) : M ChainLog string :=
  s ← lift_res (stealth_signer stealthPrivKey);
  call (CMerge (sg_publicKey s) destination).
End service.

(** ** Scanning with a cursor *)
Record ScanIteratorOptions : Type := mkScanOpts {
  sc_viewingKey : list byte;
  sc_spendingKey : list byte;
  sc_startLedger : option Z;
  sc_skipCursor : bool;
  sc_cursorKey : option string;
  sc_maxPages : option Z;
  sc_allowTruncation : bool;
}.
Inductive ScanEnd : Type := IDone | IStopped | IFailed (e : jserr).

Section iterator.
Context {EC : Secp256k1} {SP : StealthPrims} {S : Type} `{SS : !ScanStore S}.
Context (getEvents : nat → EventsRequest → res (@EventsResponse AnnouncementEvent)) (oldest_of_error : jserr → option Z).

Definition cursor_key (o : ScanIteratorOptions) : string := default (scanCursorKey (sc_viewingKey o)) (sc_cursorKey o).

(** The transfers of a page, or the error decoding or scanning throws. *)
Definition page_matches (o : ScanIteratorOptions) (p : @ContractEventPage AnnouncementEvent) : res (list (ScanMatch * Z)) :=
  announcements ← mapM_res decode_announcement (pg_events p);
  ms ← scanAnnouncements (sc_viewingKey o) (sc_spendingKey o) announcements;
  Ok (map (λ m, (m, pg_ledger p)) ms).

(** The cursor written after a page *)
Definition page_cursor (p : @ContractEventPage AnnouncementEvent) : Z :=
  if pg_complete p then pg_endLedger p else pg_ledger p.
Definition save_cursor (o : ScanIteratorOptions) (p : @ContractEventPage AnnouncementEvent) : M S unit :=
  when (negb (sc_skipCursor o)) (setCursor (page_cursor p) (cursor_key o)).

(** The matches yielded, how the loop ended, and the store.  The consumer leaves the loop on
    its [n]-th match when the budget is [Some n]. *)
Fixpoint scan_pages (o : ScanIteratorOptions) (pages : list (@ContractEventPage AnnouncementEvent)) (final : option jserr)
    (budget : option nat) (s : S) : list (ScanMatch * Z) * ScanEnd * S :=
  match pages with
  | [] => ([], match final with None => IDone | Some e => IFailed e end, s)
  | p :: rest =>
      match page_matches o p with
      | Err e => ([], IFailed e, s)
      | Ok ms =>
          if match budget with Some n => (n <=? length ms)%nat | None => false end
          then (take (default 0%nat budget) ms, IStopped, s)
          else
            match save_cursor o p s with
            | (Err e, s1) => (ms, IFailed e, s1)
            | (Ok _, s1) =>
                let '(more, e, s2) := scan_pages o rest final ((λ n, (n - length ms)%nat) <$> budget) s1 in
                (ms ++ more, e, s2)
            end
      end
  end.

Definition resume_ledger (o : ScanIteratorOptions) : M S (option Z) :=
  match sc_startLedger o with
  | Some l => mret (Some l)
  | None =>
      if sc_skipCursor o then mret None
      else cursor ← getCursor (cursor_key o); mret ((λ c, c + 1) <$> cursor)
  end.

Definition scan_options (o : ScanIteratorOptions) (startLedger : option Z) : PaginateOptions :=
  mkPaginate startLedger (Some ANNOUNCEMENT_EVENT_LOOKBACK) None (sc_maxPages o) (negb (sc_allowTruncation o)).

Definition scanIterator (latest : res Z) (o : ScanIteratorOptions) (budget : option nat) (s : S)
  : list (ScanMatch * Z) * ScanEnd * S :=
  match resume_ledger o s with
  | (Err e, s1) => ([], IFailed e, s1)
  | (Ok startLedger, s1) =>
      let '(pages, final) := paginateContractEvents ae_ledger getEvents oldest_of_error latest (scan_options o startLedger) in
      scan_pages o pages final budget s1
  end.
End iterator.

(** ** Sending *)
Section sending.
Context {EC : Secp256k1} {SP : StealthPrims} {AC : AddressCodec} {N : Network}.

(** The owner of the keys finds the announcement, with the key of the account paid. *)
Definition receives (v s : list byte) (a : StealthAnnouncement) (account : string) : Prop :=
  ∃ k kp, deriveStealthStellarKeypairFromStealthPrivKey k = Ok kp ∧ publicKey kp = account ∧
    scanAnnouncements v s [a] = Ok [mkMatch a k account].

Lemma hexToBytes_id l : hexToBytes ("0x" +:+ hex_of_bytes l) = Ok l.
Proof.
  unfold hexToBytes. rewrite strip0x_0x, hex_of_bytes_length, hex_of_bytes_hex, bytes_of_hex_of_bytes, Nat.even_mul. done.
Qed.

Lemma transfer_announced v s V S meta e st :
  keysToStealthMetaAddress v s = Ok (V, S, meta) →
  computeStealthAddressAndViewTag e (stealthMetaAddressToHex meta) = Ok st →
  ∃ addr, st_stealthAddress st = "0x" +:+ hex_of_bytes addr ∧ st_metadata st = [to_byte (st_viewTag st)] ∧
    byte_val (to_byte (st_viewTag st)) = st_viewTag st ∧
    receives v s (mkAnnouncement (st_stealthAddress st) (st_ephemeralPubKey st) (st_viewTag st)) (st_stealthStellarAddress st).
Proof.
  intros Hk Hst. destruct (transfer_reconstructed _ _ _ _ _ _ _ Hk Hst) as (sH & unc & k & Hh & _ & Hid & Haddr & Hr & _ & Hpub).
  exists (drop 12 (keccak_256 (drop 1 unc))). split; [exact Hid|].
  assert (Htag : st_metadata st = [to_byte (st_viewTag st)] ∧ ∃ b, st_viewTag st = byte_val b).
  { unfold computeStealthAddressAndViewTag in Hst. apply bind_ok in Hst as ([vp sp] & _ & (E & _ & (sh & _ & Hst)%bind_ok)%bind_ok).
    cbn [hashSharedSecret] in Hst. apply bind_ok in Hst as (pt & _ & Hst). apply Ok_inj in Hst. subst st. split; [done|by eexists]. }
  destruct Htag as [Hm [b Hb]]. split; [done|]. split; [by rewrite Hb, to_byte_val|].
  exists k, (deriveStealthStellarKeypair unc). split; [unfold deriveStealthStellarKeypairFromStealthPrivKey; by rewrite Hpub|].
  split; [by rewrite Haddr|]. cbn [scanAnnouncements]. unfold scan_one, checkViewTagMatch.
  cbn [sa_ephemeralPubKey sa_viewTag sa_stealthAddress]. rewrite Hh. cbn [mbind res_bind snd]. rewrite Z.eqb_refl. cbn [negb].
  rewrite Hr. cbn [mbind res_bind]. unfold stealthIdFromPrivateKey, deriveStealthStellarAddressFromStealthPrivKey. rewrite Hpub.
  cbn [mbind res_bind]. by rewrite <-Hid, String.eqb_refl, Haddr.
Qed.

(** The announcement a successful [announce] call with these arguments publishes is read as
    the one given. *)
Lemma announced_decodes src id pkg who sch addr E tag ledger ev :
  published ledger (CInvoke (mkInvoke src id "announce" pkg [who; sch; ScvBytes addr; ScvBytes E; ScvBytes [tag]])) = Some ev →
  decode_announcement ev = Ok (mkAnnouncement ("0x" +:+ hex_of_bytes addr) E (byte_val tag)).
Proof. cbn [published]. by intros [= <-]. Qed.

Definition announce_call (announcerId : string) (sg : OpaqueSigner) (addr E : list byte) (tag : byte) : ChainCall :=
  CInvoke (mkInvoke (sg_publicKey sg) announcerId "announce" (Some "stealth-announcer")
    [ScvAddress (sg_publicKey sg); ScvU64 1; ScvBytes addr; ScvBytes E; ScvBytes [tag]]).

(** After the payment: the announcement is on the ledger, or the error has what it takes. *)
Definition announced_or_retryable (announcerId : string) (signer : option OpaqueSigner) (sg : OpaqueSigner) (account tx : string)
    (addr E : list byte) (tag : byte) (log1 log' : ChainLog) (out : SendResult) : Prop :=
  match out with
  | Sent account' E' tx' atx =>
      account' = account ∧ E' = E ∧ tx' = tx ∧ log' = log1 ++ [(announce_call announcerId sg addr E tag, Ok atx)]
  | SendUnannounced un =>
      un_paymentTxHash un = tx ∧ take (length log1) log' = log1 ∧ toAnnounceParams un = Some (addr, E, [tag]) ∧
      (is_address (sg_publicKey sg) = true →
       announcePaidTransfer announcerId signer addr E [tag] log' = call (announce_call announcerId sg addr E tag) log')
  end.

Lemma announce_run announcerId sg addr E tag log :
  announce announcerId addr E [tag] None sg log =
    if is_address (sg_publicKey sg) then call (announce_call announcerId sg addr E tag) log
    else (Err (JsError ("Unsupported address type: " +:+ sg_publicKey sg)), log).
Proof. unfold announce, addressToScVal. by destruct (is_address (sg_publicKey sg)). Qed.

Lemma announce_paid_run announcerId sg st tx to amount addr tag log1 :
  st_stealthAddress st = "0x" +:+ hex_of_bytes addr → st_metadata st = [tag] →
  ∃ out log', announce_paid announcerId sg st tx to amount log1 = (Ok out, log') ∧
    announced_or_retryable announcerId (Some sg) sg (st_stealthStellarAddress st) tx addr (st_ephemeralPubKey st) tag log1 log' out.
Proof.
  intros Ha Hm. unfold announce_paid, try_catch. rewrite Ha, Hm, hexToBytes_id.
  rewrite (M_bind_run _ _ _ addr log1) by done. unfold mbind at 1, M_bind at 1. rewrite announce_run.
  assert (Hp : ∀ un, un_stealthAddressHex un = "0x" +:+ hex_of_bytes addr →
    toAnnounceParams un = Some (addr, un_ephemeralPubKey un, un_metadata un)).
  { intros un Hun. unfold toAnnounceParams. by rewrite Hun, strip0x_0x, bytes_of_hex_of_bytes. }
  assert (Hretry : ∀ log', is_address (sg_publicKey sg) = true →
    announcePaidTransfer announcerId (Some sg) addr (st_ephemeralPubKey st) [tag] log' =
      call (announce_call announcerId sg addr (st_ephemeralPubKey st) tag) log').
  { intros log' Hi. unfold announcePaidTransfer. cbn [requireSigner]. rewrite (M_bind_run _ _ _ sg log') by done.
    by rewrite announce_run, Hi. }
  destruct (is_address (sg_publicKey sg)) eqn:Hi.
  - unfold call. destruct (outcome log1 _) as [atx|err]; eexists _, _; (split; [done|]); cbn [announced_or_retryable]; [by split_and!|].
    split_and!; [done|apply take_app_length|by rewrite Hp|intros _; by apply Hretry].
  - eexists _, _. split; [done|]. cbn [announced_or_retryable]. split_and!; [done|by apply take_ge|by rewrite Hp|intros ?; congruence].
Qed.

(** C15 (functional): Sending to a meta-address either made no call; or made one, the payment,
    which was answered with the error it throws; or its payment was confirmed.  A confirmed
    payment goes to exactly one one-time account, and its announcement, made by the same call
    or by the retry the error describes, lets the owner of the meta-address find the payment
    and control the account.  An error answer does not tell whether the payment was applied;
    the error thrown is the network's own and carries nothing of the transfer, so a payment
    that was applied nevertheless cannot be announced any more. *)
Theorem sent_payment_is_received announcerId signer v s V S meta e amountXlm memo fee log r log'
    (Hkeys : keysToStealthMetaAddress v s = Ok (V, S, meta))
    (Hsend : send announcerId signer e (stealthMetaAddressToHex meta) amountXlm memo fee log = (r, log')) :
  match r with
  | Err err =>
      log' = log ∨
      ∃ sg st amount m, signer = Some sg ∧ computeStealthAddressAndViewTag e (stealthMetaAddressToHex meta) = Ok st ∧
        Amount.parseXlmToStroops amountXlm = Ok amount ∧
        log' = log ++ [(CTransfer (sg_publicKey sg) (st_stealthStellarAddress st) amount m fee, Err err)]
  | Ok out =>
      ∃ sg account amount m tx addr E tag,
        signer = Some sg ∧ Amount.parseXlmToStroops amountXlm = Ok amount ∧
        announced_or_retryable announcerId signer sg account tx addr E tag
          (log ++ [(CTransfer (sg_publicKey sg) account amount m fee, Ok tx)]) log' out ∧
        ∀ ledger ev, published ledger (announce_call announcerId sg addr E tag) = Some ev →
          ∃ a, decode_announcement ev = Ok a ∧ receives v s a account
  end.
Proof.
  unfold send in Hsend. destruct signer as [sg|]; cbn [requireSigner] in Hsend; [|unfold throw, mbind, M_bind in Hsend; simplify_eq; by left].
  rewrite (M_bind_run _ _ _ sg log) in Hsend by done.
  destruct (resolveMemo (stealthMetaAddressToHex meta) memo) as [m|err]; [|unfold lift_res, mbind, M_bind in Hsend; simplify_eq; by left].
  rewrite (M_bind_run _ _ _ m log) in Hsend by done.
  destruct (computeStealthAddressAndViewTag e (stealthMetaAddressToHex meta)) as [st|err] eqn:Hst;
    [|unfold lift_res, mbind, M_bind in Hsend; simplify_eq; by left].
  rewrite (M_bind_run _ _ _ st log) in Hsend by done.
  destruct (Amount.parseXlmToStroops amountXlm) as [amount|err] eqn:Ha; [|unfold lift_res, mbind, M_bind in Hsend; simplify_eq; by left].
  rewrite (M_bind_run _ _ _ amount log) in Hsend by done.
  destruct (transfer_announced _ _ _ _ _ _ _ Hkeys Hst) as (addr & Haddr & Hmeta & Htag & Hrec).
  destruct (outcome log (CTransfer (sg_publicKey sg) (st_stealthStellarAddress st) amount m fee)) as [tx|err] eqn:Ht.
  2:{ unfold transfer, call, mbind, M_bind in Hsend. rewrite Ht in Hsend. simplify_eq. right. by eexists _, _, _, _. }
  rewrite (M_bind_run _ _ _ tx (log ++ [(CTransfer (sg_publicKey sg) (st_stealthStellarAddress st) amount m fee, Ok tx)])) in Hsend
    by (unfold transfer, call; by rewrite Ht).
  destruct (announce_paid_run announcerId sg st tx (stealthMetaAddressToHex meta) amount addr _
    (log ++ [(CTransfer (sg_publicKey sg) (st_stealthStellarAddress st) amount m fee, Ok tx)]) Haddr Hmeta) as (out & l2 & Hrun & Hout).
  rewrite Hrun in Hsend. simplify_eq. exists sg. eexists _, amount, m, tx, addr, _, _.
  split; [done|]. split; [done|]. split; [exact Hout|].
  intros ledger ev Hev. apply announced_decodes in Hev as ->. eexists. split; [done|]. by rewrite Htag, <-Haddr.
Qed.
End sending.

(** ** The cursor *)
Section cursor.
Context {EC : Secp256k1} {SP : StealthPrims} {S : Type} `{SS : !ScanStore S} {SL : ScanStoreLaws S}.

(** The server lists events in the order of their ledgers: no page goes behind the ledger an
    earlier page reached.  It may continue that ledger. *)
Definition in_ledger_order (pages : list (@ContractEventPage AnnouncementEvent)) : Prop :=
  ∀ i j pi pj ev, (i < j)%nat → pages !! i = Some pi → pages !! j = Some pj → ev ∈ pg_events pj → pg_ledger pi <= ae_ledger ev.
(** Page [p] comes after a page that ended in ledger [c]. *)
Definition continues (pages : list (@ContractEventPage AnnouncementEvent)) (c : Z) (p : @ContractEventPage AnnouncementEvent) : Prop :=
  ∃ i j q, (i < j)%nat ∧ pages !! i = Some q ∧ pages !! j = Some p ∧ pg_ledger q = c ∧ pg_complete q = false.

Definition delivered (o : ScanIteratorOptions) (out : list (ScanMatch * Z)) (p : @ContractEventPage AnnouncementEvent) : Prop :=
  ∃ ms, page_matches o p = Ok ms ∧ ms ⊆ out.

(** A write that fails leaves the stored cursor. *)
Hypothesis failed_write : ∀ ledger i s e s', setCursor ledger i s = (Err e, s') → (getCursor i s').1 = (getCursor i s).1.

Lemma delivered_mono o out out' p : out ⊆ out' → delivered o out p → delivered o out' p.
Proof. intros Hs (ms & Hm & Hin). exists ms. split; [done|]. by etrans. Qed.

(** The pages whose cursor was written were delivered in full. *)
Lemma scan_pages_done o pages final budget s out e s' :
  sc_skipCursor o = false → scan_ok s → scan_pages o pages final budget s = (out, e, s') →
  ∃ seen rest, pages = seen ++ rest ∧ Forall (delivered o out) seen ∧
    (getCursor (cursor_key o) s').1 =
      match last seen with Some p => Ok (Some (page_cursor p)) | None => (getCursor (cursor_key o) s).1 end.
Proof using failed_write.
  intros Hsk. revert budget s out e s'. induction pages as [|p pages IH]; intros budget s out e s' Hok Hs; cbn [scan_pages] in Hs.
  { simplify_eq. by exists [], []. }
  destruct (page_matches o p) as [ms|err] eqn:Hm; [|simplify_eq; by exists [], (p :: pages)].
  destruct (match budget with Some n => (n <=? length ms)%nat | None => false end); [simplify_eq; by exists [], (p :: pages)|].
  unfold save_cursor, when in Hs. rewrite Hsk in Hs. cbn [negb] in Hs.
  destruct (setCursor (page_cursor p) (cursor_key o) s) as [[[]|err] s1] eqn:Hw.
  2:{ simplify_eq. exists [], (p :: pages). split; [done|]. split; [constructor|]. by eapply failed_write. }
  destruct (setCursor_spec _ _ _ _ Hok Hw) as (Hok1 & Hget & _).
  destruct (scan_pages o pages final _ s1) as [[more e1] s2] eqn:Hr. simplify_eq.
  destruct (IH _ _ _ _ _ Hok1 Hr) as (seen & rest & -> & Hd & Hc). exists (p :: seen), rest. split; [done|]. split.
  - constructor; [exists ms; split; [done|]; set_solver|]. revert Hd. apply List.Forall_impl. intros q. apply delivered_mono. set_solver.
  - rewrite Hc, Hget. destruct seen as [|q seen]; [done|]. rewrite last_cons_cons.
    by destruct (last (q :: seen)) eqn:Hl; [|apply last_None in Hl].
Qed.

(** Only the last page of a scan may be marked complete. *)
Lemma earlier_page_open getEvents oldest_of_error latest opts pages final i j (pi pj : @ContractEventPage AnnouncementEvent) :
  paginateContractEvents ae_ledger getEvents oldest_of_error latest opts = (pages, final) →
  (i < j)%nat → pages !! i = Some pi → pages !! j = Some pj → pg_complete pi = false.
Proof using.
  intros H Hij Hi Hj. unfold paginateContractEvents in H. destruct latest as [l|err]; [|by simplify_eq].
  set (n := Z.max 1 (default EVENT_PAGE_LIMIT (pa_maxPages opts))) in *.
  replace (Z.to_nat n) with (Datatypes.S (Z.to_nat (n - 1))) in H by lia. apply pages_shape in H as (_ & _ & _ & He).
  destruct final as [err|].
  - by destruct (proj1 (Forall_lookup _ _) He _ _ Hi) as [? _].
  - destruct He as (init & lst & -> & Ho & _). apply lookup_lt_Some in Hj. rewrite length_app in Hj. cbn in Hj.
    rewrite lookup_app_l in Hi by lia. by destruct (proj1 (Forall_lookup _ _) Ho _ _ Hi) as [? _].
Qed.


(** A page that ends inside a ledger: when the run stops after it, for instance
    because the next request fails, the cursor is that ledger, and the next run asks for the
    events behind it, so those of the ledger that were on the next page are never scanned. *)
Theorem split_ledger_payment_lost getEvents oldest_of_error latest o s r1 c1 err1 anns ms
    (writes_succeed : ∀ ledger i s, ∃ s', setCursor ledger i s = (Ok tt, s'))
    (Hskip : sc_skipCursor o = false) (Hauto : sc_startLedger o = None) (Hok : scan_ok s)
    (Hcap : sc_maxPages o = None) (Hcur : (getCursor (cursor_key o) s).1 = Ok None)
    (H1 : ∀ l k, getEvents 0%nat (FromLedger l k) = Ok r1) (Hc1 : truthy_cursor (rs_cursor r1) = Some c1)
    (H2 : ∀ k, getEvents 1%nat (FromCursor c1 k) = Err err1)
    (Hdec : mapM_res decode_announcement (default [] (rs_events r1)) = Ok anns)
    (Hscan : scanAnnouncements (sc_viewingKey o) (sc_spendingKey o) anns = Ok ms) :
  let L := foldl (λ l ev, Z.max l (ae_ledger ev)) (Z.max 1 (latest - ANNOUNCEMENT_EVENT_LOOKBACK)) (default [] (rs_events r1)) in
  ∃ s', scanIterator getEvents oldest_of_error (Ok latest) o None s = (map (λ m, (m, L)) ms, IFailed err1, s') ∧
    (getCursor (cursor_key o) s').1 = Ok (Some L) ∧ (resume_ledger o s').1 = Ok (Some (L + 1)) ∧
    ∀ ev, ev ∈ default [] (rs_events r1) → ae_ledger ev < L + 1.
Proof using SL.
  intros L.
  assert (Hpg : ∃ endL, paginateContractEvents ae_ledger getEvents oldest_of_error (Ok latest) (scan_options o None) =
    ([mkPage (default [] (rs_events r1)) L endL false false None], Some err1)).
  { unfold paginateContractEvents, scan_options. cbn [pa_startLedger pa_maxPages pa_pageSize pa_lookback pa_throwOnTruncation default from_option].
    rewrite Hcap. cbn [from_option]. 
    assert (Hn : ∃ n, Z.to_nat (Z.max 1 EVENT_PAGE_LIMIT) = Datatypes.S (Datatypes.S n)) by (by exists 198%nat).
    destruct Hn as [n ->]. cbn [id]. set (st := Z.max 1 (latest - ANNOUNCEMENT_EVENT_LOOKBACK)) in *.
    cbn [pages_loop]. unfold request_page at 1. cbn [truthy_cursor]. rewrite H1, Hc1. cbv iota beta. cbn [Nat.eqb].
    rewrite bool_decide_false by done. unfold request_page.
    assert (Ht : truthy_cursor (Some c1) = Some c1).
    { unfold truthy_cursor in *. destruct (rs_cursor r1) as [x|]; [|done]. destruct (String.eqb x "") eqn:Hx; [done|]. injection Hc1 as <-. by rewrite Hx. }
    rewrite Ht, H2. by eexists. }
  destruct Hpg as [endL Hpg]. unfold scanIterator, resume_ledger. rewrite Hauto, Hskip. unfold mbind, M_bind.
  destruct (getCursor (cursor_key o) s) as [r s1] eqn:Hg. pose proof (getCursor_pure (cursor_key o) s) as Hp.
  rewrite Hg in Hp. cbn [fst snd] in Hp, Hcur. subst s1 r. cbn [mret M_ret fmap option_fmap option_map]. rewrite Hpg.
  cbn [scan_pages]. unfold page_matches. cbn [pg_events pg_ledger]. rewrite Hdec. cbn [mbind res_bind]. rewrite Hscan.
  cbn [mbind res_bind]. unfold save_cursor, when, page_cursor. rewrite Hskip. cbn [negb pg_complete pg_ledger].
  destruct (writes_succeed L (cursor_key o) s) as [s' Hw]. rewrite Hw. destruct (setCursor_spec _ _ _ _ Hok Hw) as (_ & Hget & _).
  exists s'. rewrite app_nil_r. split; [done|]. split; [done|]. split.
  - destruct (getCursor (cursor_key o) s') as [r s2]. cbn [fst] in Hget. by subst r.
  - intros ev Hev. pose proof (ledger_fold ae_ledger (default [] (rs_events r1)) (Z.max 1 (latest - ANNOUNCEMENT_EVENT_LOOKBACK))) as [_ Hf].
    pose proof (Hf ev Hev). fold L in H. lia.
Qed.
End cursor.

(** ** Examples *)
#[local] Existing Instance toy_curve.
#[local] Existing Instance toy_prims.
Definition all_addresses : AddressCodec := {| is_address _ := true |}.
Definition willing_network : Network :=
  {| outcome _ _ := Ok "tx"; view _ _ := Ok NUndef; latestLedger _ := Ok 9 |}.
#[local] Existing Instance all_addresses.
#[local] Existing Instance willing_network.

Lemma sent_payment_is_received_witness :
  ∃ out log', send "CANN" (Some (mkSigner "GSENDER")) toy_ephemeral (stealthMetaAddressToHex toy_meta) "1.5" None None [] = (Ok out, log') ∧
    ∃ account a, receives toy_view toy_spend a account ∧
      ∃ m, log' !! 0%nat = Some (CTransfer "GSENDER" account 15000000 m None, Ok "tx").
Proof.
  destruct (send "CANN" (Some (mkSigner "GSENDER")) toy_ephemeral (stealthMetaAddressToHex toy_meta) "1.5" None None []) as [r log'] eqn:E.
  pose proof (sent_payment_is_received "CANN" (Some (mkSigner "GSENDER")) toy_view toy_spend _ _ toy_meta toy_ephemeral "1.5" None None [] r log' toy_keys E) as H.
  destruct r as [out|err]; [|exfalso; apply (f_equal fst) in E; vm_compute in E; discriminate E].
  exists out, log'. split; [done|]. destruct H as (sg & account & amount & m & tx & addr & Eph & tag & [= <-] & Ha & Hout & Hrec).
  assert (Ham : Amount.parseXlmToStroops "1.5" = Ok 15000000) by (vm_compute; reflexivity). rewrite Ham in Ha. apply Ok_inj in Ha as <-.
  destruct (Hrec 5 _ eq_refl) as (a & _ & Ha'). exists account, a. split; [exact Ha'|]. exists m.
  destruct out as [ac Ep t1 t2|un]; [|exfalso; apply (f_equal fst) in E; vm_compute in E; discriminate E].
  destruct Hout as (_ & _ & _ & ->).
  assert (Htx : tx = "tx"); [|by subst tx].
  apply (f_equal (λ x, (x.2 !! 0%nat) ≫= λ y, Some y.2)) in E. cbn in E. vm_compute in E. congruence.
Defined.

(** Two payments in ledger 5, one per page. *)
Definition toy_event : AnnouncementEvent :=
  mkAnnEvent 5 [ScvU64 1; ScvBytes [Byte.x01]; ScvAddress "G"; ScvBytes (Byte.x02 :: be_bytes 32 5); ScvBytes [Byte.x00]].
Definition split_page : @EventsResponse AnnouncementEvent := mkResponse (Some [toy_event]) (Some 9) (Some "c").
Definition broken_server (n : nat) (r : EventsRequest) : res (@EventsResponse AnnouncementEvent) :=
  match n with 0%nat => Ok split_page | _ => Err (JsError "fetch failed") end.
Definition toy_scan : ScanIteratorOptions := mkScanOpts toy_view toy_spend None false None None false.

Lemma memory_writes (ledger : Z) (i : string) (s : MemoryStores.cursors_t) : ∃ s', setCursor ledger i s = (Ok tt, s').
Proof. by eexists. Qed.

Lemma split_ledger_payment_lost_witness :
  ∃ s', scanIterator (S := MemoryStores.cursors_t) broken_server (λ _, None) (Ok 9) toy_scan None [] = ([], IFailed (JsError "fetch failed"), s') ∧
    (resume_ledger toy_scan s').1 = Ok (Some 6).
Proof.
  destruct (split_ledger_payment_lost (SL := MemoryStores.MemoryScanStore_laws) broken_server (λ _, None) 9 toy_scan [] split_page "c"
    (JsError "fetch failed") [mkAnnouncement "0x01" (Byte.x02 :: be_bytes 32 5) 0] [] memory_writes eq_refl eq_refl I eq_refl eq_refl
    (λ _ _, eq_refl) eq_refl (λ _, eq_refl) ltac:(vm_compute; reflexivity) ltac:(vm_compute; reflexivity)) as (s' & H & _ & Hr & _).
  exists s'. split; [exact H|exact Hr].
Defined.

(** Two pages that share ledger 5; the second holds an event that does not decode. *)
Definition event_at (ledger : Z) (b : byte) : AnnouncementEvent :=
  mkAnnEvent ledger [ScvU64 1; ScvBytes [b]; ScvAddress "G"; ScvBytes (Byte.x02 :: be_bytes 32 5); ScvBytes [Byte.x00]].
Definition bad_event : AnnouncementEvent := mkAnnEvent 7 [].
Definition paged_server (n : nat) (r : EventsRequest) : res (@EventsResponse AnnouncementEvent) :=
  Ok (match n with
      | 0%nat => mkResponse (Some [event_at 4 Byte.x01; event_at 5 Byte.x02]) (Some 9) (Some "c")
      | _ => mkResponse (Some [event_at 5 Byte.x03; bad_event]) (Some 9) None
      end).
Definition paged_pages : list (@ContractEventPage AnnouncementEvent) :=
  (paginateContractEvents ae_ledger paged_server (λ _, None) (Ok 9) (scan_options toy_scan None)).1.
Lemma memory_keeps ledger i (s : MemoryStores.cursors_t) e s' : setCursor ledger i s = (Err e, s') → (getCursor i s').1 = (getCursor i s).1.
Proof. by cbn. Qed.

