(* ===== verification/SdkPoolService.v ===== *)
(** * SDK: the privacy pool

    The pool contract's binding ([sdk/src/contracts/pool.ts]), with the reconstruction of the
    commitment leaves from events, and the pool service ([sdk/src/services/pool.ts]):
    deposits, withdrawals, reconciliation, coverage and proving.  The network answers through
    [SdkChain]; the note store is any instance of [NoteStore]. *)
From Stdlib Require Import Ascii.
From stdpp Require Import base tactics list sets strings.
From Stdlib Require Import ZArith Lia Sorted.
From S2P Require Import Prelude JsString JsMap Bytes Merkle Json PubValidate RelPayload SdkCodec SdkWorkerPool SdkPool.
From S2P Require Import SdkStealth SdkStorage SdkRpc SdkChain.
Import NoteCodec.
Open Scope string_scope.
Open Scope list_scope.
Open Scope Z_scope.

Definition POOL_EVENT_LOOKBACK : Z := 16000.

(** ** Data *)
Record PoolConfig : Type := mkPoolConfig {
  pc_admin : Native;
  pc_groth16Verifier : Native;
  pc_nativeSac : string;
  pc_scope : option Z;
  pc_rootExpiryLedgers : option Z;
}.
Record PoolCustody : Type := mkCustody { cu_totalDeposited : Z; cu_totalWithdrawn : Z; cu_netHeld : Z }.
(** Counts that are no numbers are [None]; utilization is a fraction. *)
Record TreeCapacityInfo : Type := mkCapacity {
  tc_maxCapacity : option Z;
  tc_currentCount : option Z;
  tc_depth : option Z;
  tc_lastUpdated : option Z;
  tc_utilization : Z * Z;
}.
Record WithdrawalPauseRequest : Type := mkPause {
  wp_requestedAt : Z;
  wp_activatesAt : Z;
  wp_pending : bool;
  wp_ledgersUntilActivation : Z;
}.
Inductive RootKind : Type := KState | KAsp.

(** The data tuples of [Deposit] (commitment, index) and [Withdraw] (new commitment, index)
    events. *)
Record PoolEvent : Type := mkPoolEvent { pe_ledger : Z; pe_commitment : list byte; pe_index : Z }.

Record ReconstructStateOptions : Type := mkReconstruct {
  rc_startLedger : option Z;
  rc_maxPages : option Z;
  rc_return : bool;      (** [onTruncation: "return"] *)
}.
Record PoolStateReconstruction : Type := mkState {
  st_stateLeaves : list Z;
  st_depositIndices : list Z;
  st_complete : bool;
  st_continuation : option string * option string;
}.

(** ** The binding *)
Section binding.
Context {AC : AddressCodec} {N : Network} (contractId : string).
(** [err.diagnostics ?? ""] of a [SimulationError], empty for other errors *)
Context (simulation_diagnostics : jserr → string).

Definition view_pool (source method : string) (args : list ScVal) : M ChainLog Native :=
  readNative (mkRead source contractId method args).

Definition pool_deposit (value : Z) (commitment : list byte) (expectedIndex : Z) (signer : OpaqueSigner) : M ChainLog string :=
  let depositor := sg_publicKey signer in
  who ← lift_res (addressToScVal depositor);
  invoke (mkInvoke depositor contractId "deposit" (Some "privacy-pool")
    [who; i128ToScVal value; bytesToScVal commitment; u64ToScVal expectedIndex]).

Definition withdrawArgs (p : PoolWithdrawProof) (recipient : string) (fee : Z) (relayer : string) : res (list ScVal) :=
  rec ← addressToScVal recipient;
  rel ← addressToScVal relayer;
  Ok [bytesToScVal (pp_proofA p); bytesToScVal (pp_proofB p); bytesToScVal (pp_proofC p);
      i128ToScVal (pp_withdrawnValue p); bytesToScVal (pp_stateRoot p); bytesToScVal (pp_aspRoot p);
      bytesToScVal (pp_nullifierHash p); bytesToScVal (pp_newCommitment p); rec; i128ToScVal fee; rel].
Definition pool_withdraw (p : PoolWithdrawProof) (recipient : string) (fee : Z) (relayer : string) (signer : OpaqueSigner)
  : M ChainLog string :=
  args ← lift_res (withdrawArgs p recipient fee relayer);
  invoke (mkInvoke (sg_publicKey signer) contractId "withdraw" (Some "privacy-pool") args).

(** The invoker's [simulateInvoke], where it has one. *)
Definition simulateWithdraw (simulateInvoke : option (ChainLog → InvokeOptions → res (SimulationReport Native)))
    (p : PoolWithdrawProof) (recipient : string) (fee : Z) (relayer source : string) : M ChainLog (SimulationReport Native) :=
  match simulateInvoke with
  | None => throw (JsError "Withdrawal dry run")
  | Some simulate =>
      args ← lift_res (withdrawArgs p recipient fee relayer);
      report ← gets (λ log, simulate log (mkInvoke source contractId "withdraw" None args));
      lift_res report
  end.

Definition updateRoot (kind : RootKind) (root datasetHash : list byte) (signer : OpaqueSigner) : M ChainLog string :=
  let admin := sg_publicKey signer in
  who ← lift_res (addressToScVal admin);
  invoke (mkInvoke admin contractId (match kind with KState => "update_state_root" | KAsp => "update_asp_root" end)
    (Some "privacy-pool") [who; bytesToScVal root; bytesToScVal datasetHash]).

(** [String(v)] of an address *)
Definition native_text (v : Native) : string :=
  match v with NStr s => s | NInt z => bigint_toString 10 z | NUndef => "undefined" | _ => "" end.
Definition getConfig (source : string) : M ChainLog PoolConfig :=
  raw ← view_pool source "get_config" [];
  admin ← lift_res (native_field raw "admin");
  ver ← lift_res (native_field raw "groth16_verifier");
  sac ← lift_res (native_field raw "native_sac");
  scope ← lift_res (native_field raw "scope");
  expiry ← lift_res (native_field raw "root_expiry_ledgers");
  mret (mkPoolConfig admin ver (native_text sac) (native_Number scope) (native_Number expiry)).
Definition getNativeAssetDecimals (source : string) : M ChainLog (option Z) :=
  config ← getConfig source;
  decimals ← readNative (mkRead source (pc_nativeSac config) "decimals" []);
  mret (native_Number decimals).
Definition getDepositCount (source : string) : M ChainLog (option Z) :=
  count ← view_pool source "get_deposit_count" []; mret (native_Number count).
Definition isNullifierSpent (source : string) (nullifierHash : list byte) : M ChainLog bool :=
  spent ← view_pool source "is_spent" [bytesToScVal nullifierHash]; mret (native_truthy spent).

Definition getLatestRoot (source : string) (kind : RootKind) : M ChainLog (option (list byte)) :=
  try_catch
    (root ← view_pool source "get_latest_root" [boolToScVal (match kind with KState => true | KAsp => false end)];
     match root with
     | NBytes b => mret (Some b)
     | _ => mret None
     end)
    (λ err,
       if includes (toLowerCase (match kind with KState => "UnknownStateRoot" | KAsp => "UnknownAspRoot" end))
            (toLowerCase (simulation_diagnostics err))
       then mret None else throw err).
Definition isKnownRoot (source : string) (kind : RootKind) (root : list byte) : M ChainLog bool :=
  known ← view_pool source (match kind with KState => "is_known_state_root" | KAsp => "is_known_asp_root" end) [bytesToScVal root];
  mret (native_truthy known).
Definition isDepositsPaused (source : string) : M ChainLog bool :=
  p ← view_pool source "is_deposits_paused" []; mret (native_truthy p).
Definition isWithdrawalsPaused (source : string) : M ChainLog bool :=
  p ← view_pool source "is_withdrawals_paused" []; mret (native_truthy p).

(** [Number(raw?.[i] ?? 0)] of the ledgers of a request *)
Definition ledger_at (raw : Native) (i : nat) : Z := match native_at raw i with NInt z => z | _ => 0 end.
Definition getWithdrawalPauseRequest (source : string) : M ChainLog WithdrawalPauseRequest :=
  raw ← view_pool source "get_withdrawal_pause_request" [];
  let requestedAt := ledger_at raw 0 in
  let activatesAt := ledger_at raw 1 in
  let pending := 0 <? requestedAt in
  now ← getLatestLedger;
  mret (mkPause requestedAt activatesAt pending (if pending then Z.max 0 (activatesAt - now) else 0)).
Definition getWithdrawalMinimum (source : string) : M ChainLog Z :=
  m ← view_pool source "get_withdrawal_minimum" []; lift_res (native_BigInt m).
Definition getCustody (source : string) : M ChainLog PoolCustody :=
  raw ← view_pool source "get_custody" [];
  d ← lift_res (native_BigInt (native_at raw 0));
  w ← lift_res (native_BigInt (native_at raw 1));
  mret (mkCustody d w (d - w)).
Definition getTreeCapacityInfo (source : string) : M ChainLog TreeCapacityInfo :=
  raw ← view_pool source "get_tree_capacity_info" [];
  mx ← lift_res (native_field raw "max_capacity");
  cur ← lift_res (native_field raw "current_count");
  depth ← lift_res (native_field raw "depth");
  upd ← lift_res (native_field raw "last_updated");
  let maxCapacity := native_Number mx in
  let currentCount := native_Number cur in
  mret (mkCapacity maxCapacity currentCount (native_Number depth) (native_Number upd)
    (match maxCapacity, currentCount with
     | Some m, Some c => if 0 <? m then (c, m) else (0, 1)
     | _, _ => (0, 1)
     end)).
End binding.

(** ** Reconstruction *)
Section reconstruct.
(** The events of a topic ([true] for deposits), the n-th request of its scan. *)
Context (getEvents : bool → nat → EventsRequest → res (@EventsResponse PoolEvent)) (oldest_of_error : jserr → option Z).
Context (latest : res Z).

Definition leaf_value (ev : PoolEvent) : res Z := hex_scalar (pe_commitment ev).

(** [byIndex], [depositIndices] and the truncation marks while the pages are read. *)
Record Reconstruction : Type := mkRec {
  rx_byIndex : list (Z * Z);
  rx_depositIndices : list Z;
  rx_complete : bool;
  rx_continuation : option string * option string;
}.
Definition on_event (isDeposit : bool) (ev : PoolEvent) (r : Reconstruction) : res Reconstruction :=
  c ← leaf_value ev;
  Ok (mkRec (JMap.set (pe_index ev) c (rx_byIndex r))
        (if isDeposit then rx_depositIndices r ++ [pe_index ev] else rx_depositIndices r) (rx_complete r) (rx_continuation r)).
Fixpoint on_events (isDeposit : bool) (evs : list PoolEvent) (r : Reconstruction) : res Reconstruction :=
  match evs with [] => Ok r | ev :: rest => r' ← on_event isDeposit ev r; on_events isDeposit rest r' end.
Definition on_page (isDeposit : bool) (p : @ContractEventPage PoolEvent) (r : Reconstruction) : res Reconstruction :=
  r' ← on_events isDeposit (pg_events p) r;
  Ok (if pg_truncated p
      then mkRec (rx_byIndex r') (rx_depositIndices r') false
             (if isDeposit then (pg_continuation p, (rx_continuation r').2) else ((rx_continuation r').1, pg_continuation p))
      else r').
Fixpoint on_pages (isDeposit : bool) (pages : list (@ContractEventPage PoolEvent)) (r : Reconstruction) : res Reconstruction :=
  match pages with [] => Ok r | p :: rest => r' ← on_page isDeposit p r; on_pages isDeposit rest r' end.

Definition topic_pages (opts : ReconstructStateOptions) (isDeposit : bool) : list (@ContractEventPage PoolEvent) * option jserr :=
  paginateContractEvents pe_ledger (getEvents isDeposit) oldest_of_error latest
    (mkPaginate (rc_startLedger opts) (Some POOL_EVENT_LOOKBACK) None (rc_maxPages opts) (negb (rc_return opts))).
Definition read_topic (opts : ReconstructStateOptions) (isDeposit : bool) (r : Reconstruction) : res Reconstruction :=
  let '(pages, e) := topic_pages opts isDeposit in
  r' ← on_pages isDeposit pages r;
  match e with Some err => Err err | None => Ok r' end.

(** [Math.max(...byIndex.keys())], -1 when there are none *)
Definition max_index (m : list (Z * Z)) : Z := foldl Z.max (-1) (JMap.keys m).
Definition state_leaves (m : list (Z * Z)) : list Z :=
  (λ i, default 0 (JMap.get (Z.of_nat i) m)) <$> seq 0 (Z.to_nat (max_index m + 1)).

Definition reconstructState (opts : ReconstructStateOptions) : res PoolStateReconstruction :=
  r1 ← read_topic opts true (mkRec [] [] true (None, None));
  r2 ← read_topic opts false r1;
  Ok (mkState (state_leaves (rx_byIndex r2)) (sort_by (λ i, i) (rx_depositIndices r2)) (rx_complete r2)
        (if rx_complete r2 then (None, None) else rx_continuation r2)).
End reconstruct.

(** ** The service *)

(** The note as the object the service stores. *)
Definition note_object (n : PoolNote) : jval :=
  JObj ([("cluster", JStr (pn_cluster n))] ++
        (match pn_poolId n with Some p => [("poolId", JStr p)] | None => [] end) ++
        [("value", JStr (pn_value n)); ("scope", pn_scope n); ("leafIndex", pn_leafIndex n); ("nullifier", JStr (pn_nullifier n));
         ("secret", JStr (pn_secret n)); ("commitment", JStr (pn_commitment n)); ("spent", JBool (pn_spent n));
         ("createdAt", pn_createdAt n)]).

Inductive DepositCoverageReason : Type :=
  | NoStateRoot | NoAspRoot | UnknownStateRoot | UnknownAspRoot | TreeAtCapacity | WithdrawalsPaused.
Record DepositCoverage : Type := mkCoverage {
  dc_covered : bool;
  dc_stateRoot : option (list byte);
  dc_aspRoot : option (list byte);
  dc_stateRootKnown : bool;
  dc_aspRootKnown : bool;
  dc_reasons : list DepositCoverageReason;
  dc_capacity : TreeCapacityInfo;
  dc_depositsPaused : bool;
  dc_withdrawalsPaused : bool;
}.

Record ClientConfig : Type := mkClientConfig {
  cc_network : string;
  cc_privacyPool : string;
  cc_scope : Z;
  cc_startLedger : option Z;
}.

(** The ledger and the note store. *)
Record Client (S : Type) : Type := mkClient { cl_chain : ChainLog; cl_notes : S }.
Arguments mkClient {S} _ _.
Arguments cl_chain {S} _.
Arguments cl_notes {S} _.

Section service.
Context {AC : AddressCodec} {N : Network} {S : Type} `{NS : !NoteStore S}.
Context (poseidon : list Z → Z) (config : ClientConfig) (signer : option OpaqueSigner) (simulation_diagnostics : jserr → string).

Definition on_chain {A} (m : M ChainLog A) : M (Client S) A := λ c,
  let '(r, l) := m (cl_chain c) in (r, mkClient l (cl_notes c)).
Definition on_notes {A} (m : M S A) : M (Client S) A := λ c,
  let '(r, s) := m (cl_notes c) in (r, mkClient (cl_chain c) s).
Abbreviation pool := (cc_privacyPool config).

(** The service's reads, each simulated from the resolved account. *)
Definition service_read {A} (source : option string) (read : string → M ChainLog A) : M (Client S) A :=
  src ← resolveReadSource signer source; on_chain (read src).
Definition service_isNullifierSpent (nullifierHash : list byte) (source : option string) : M (Client S) bool :=
  service_read source (λ src, isNullifierSpent pool src nullifierHash).
Definition service_getDepositCount (source : option string) : M (Client S) (option Z) := service_read source (getDepositCount pool).
Definition getRoots (source : option string) : M (Client S) (option (list byte) * option (list byte)) :=
  service_read source (λ src,
    state ← getLatestRoot pool simulation_diagnostics src KState;
    asp ← getLatestRoot pool simulation_diagnostics src KAsp;
    mret (state, asp)).
Definition isKnownStateRoot (root : list byte) (source : option string) : M (Client S) bool :=
  service_read source (λ src, isKnownRoot pool src KState root).
Definition isKnownAspRoot (root : list byte) (source : option string) : M (Client S) bool :=
  service_read source (λ src, isKnownRoot pool src KAsp root).

(** [Number] of a count; a deposit at no number cannot be encoded. *)
Definition count_or_throw (n : option Z) : res Z :=
  ok_or n (RangeError "The number NaN cannot be converted to a BigInt because it is not an integer").

Definition preflight (source amountXlm : string) (value : Z) (skip : bool) : M (Client S) unit :=
  when (negb skip)
    (decimals ← on_chain (getNativeAssetDecimals pool source);
     lift_res (match decimals with
               | Some d => validateDepositAmount amountXlm value d
               | None => validateDepositAmount amountXlm value (fractionalDigits amountXlm)   (* no number exceeds NaN *)
               end)).

(** [draws] are the random bytes of fresh secrets. *)
Definition depositWithSigner (draws : list byte * list byte) (s : OpaqueSigner) (value : Z) (amountXlmForValidation : string)
    (secrets : option NoteSecrets) (createdAt : option Z) (skipValidation : bool) : M (Client S) (PoolNote * string) :=
  let source := sg_publicKey s in
  let scope := cc_scope config in
  preflight source amountXlmForValidation value skipValidation;;
  count ← on_chain (getDepositCount pool source);
  expectedIndex ← lift_res (count_or_throw count);
  let secrets := default (newNoteSecrets draws.1 draws.2) secrets in
  nullifier ← lift_res (BigInt (ns_nullifier secrets));
  secret ← lift_res (BigInt (ns_secret secrets));
  let commitment := dd_commitment (deriveDeposit poseidon value scope expectedIndex nullifier secret) in
  txHash ← on_chain (pool_deposit pool value (bigIntToBytes32 commitment) expectedIndex s);
  let note := mkNote (cc_network config) (Some pool) (bigint_toString 10 value) (JNum scope) (JNum expectedIndex)
                (ns_nullifier secrets) (ns_secret secrets) (toHex32 commitment) false (JNum (default 0 createdAt)) in
  on_notes (add_note (note_object note));;
  mret (note, txHash).

Definition deposit (draws : list byte * list byte) (amountXlm : string) (secrets : option NoteSecrets) (createdAt : option Z)
    (skipValidation : bool) : M (Client S) (PoolNote * string) :=
  s ← requireSigner signer;
  value ← lift_res (Amount.parseXlmToStroops amountXlm);
  depositWithSigner draws s value amountXlm secrets createdAt skipValidation.

Definition pool_sweep {EC : Secp256k1} {SP : StealthPrims} (draws : list byte * list byte) (stealthPrivKey : list byte)
    (amountStroops : Z) (secrets : option NoteSecrets) (createdAt : option Z) (skipValidation : bool)
  : M (Client S) (PoolNote * string) :=
  kp ← lift_res (deriveStealthStellarKeypairFromStealthPrivKey stealthPrivKey);
  depositWithSigner draws (mkSigner (publicKey kp)) amountStroops (bigint_toString 10 amountStroops) secrets createdAt skipValidation.

Definition withdraw (proof : PoolWithdrawProof) (recipient : string) (fee : option Z) (relayer noteCommitment : option string)
  : M (Client S) string :=
  s ← requireSigner signer;
  txHash ← on_chain (pool_withdraw pool proof recipient (default 0 fee) (default recipient relayer) s);
  (match noteCommitment with
   | Some (String c t) => on_notes (markSpent (String c t))
   | _ => mret tt
   end);;
  mret txHash.

Definition reconcileWithdrawal (proof : PoolWithdrawProof) (noteCommitment : string) (source : option string)
  : M (Client S) bool :=
  spent ← service_isNullifierSpent (pp_nullifierHash proof) source;
  when spent (on_notes (markSpent noteCommitment));;
  mret spent.

(** The reasons, in the order the service collects them. *)
Definition coverage_reasons (stateRoot aspRoot : option (list byte)) (stateKnown aspKnown paused : bool) (capacity : TreeCapacityInfo)
  : list DepositCoverageReason :=
  (match stateRoot with None => [NoStateRoot] | Some _ => if stateKnown then [] else [UnknownStateRoot] end) ++
  (match aspRoot with None => [NoAspRoot] | Some _ => if aspKnown then [] else [UnknownAspRoot] end) ++
  (if paused then [WithdrawalsPaused] else []) ++
  (match tc_maxCapacity capacity, tc_currentCount capacity with
   | Some m, Some c => if (0 <? m) && (m <=? c) then [TreeAtCapacity] else []
   | _, _ => []
   end).

Definition known_if_present (source : string) (kind : RootKind) (root : option (list byte)) : M (Client S) bool :=
  match root with Some r => on_chain (isKnownRoot pool source kind r) | None => mret false end.

Definition isDepositCovered (stateRoot aspRoot : option (list byte)) (source : option string) : M (Client S) DepositCoverage :=
  src ← resolveReadSource signer source;
  latestState ← on_chain (getLatestRoot pool simulation_diagnostics src KState);
  latestAsp ← on_chain (getLatestRoot pool simulation_diagnostics src KAsp);
  depositsPaused ← on_chain (isDepositsPaused pool src);
  withdrawalsPaused ← on_chain (isWithdrawalsPaused pool src);
  capacity ← on_chain (getTreeCapacityInfo pool src);
  let stateRoot := match stateRoot with Some r => Some r | None => latestState end in
  let aspRoot := match aspRoot with Some r => Some r | None => latestAsp end in
  stateRootKnown ← known_if_present src KState stateRoot;
  aspRootKnown ← known_if_present src KAsp aspRoot;
  let reasons := coverage_reasons stateRoot aspRoot stateRootKnown aspRootKnown withdrawalsPaused capacity in
  mret (mkCoverage (match reasons with [] => true | _ => false end) stateRoot aspRoot stateRootKnown aspRootKnown reasons capacity
          depositsPaused withdrawalsPaused).
End service.

(** [proveWithdraw]: the leaves given, or read from the chain.  The artifact resolver, when
    there is one, is [resolve]; no abort signal and no progress callback are passed on. *)
Section proving.
Context (poseidon : list Z → Z) (addressXdr : string → res (list byte)) (keccak_256 : list byte → list byte).
Context {A V : Type} (snarkjs : SnarkjsLike A V) (config : ClientConfig).
Context (getEvents : bool → nat → EventsRequest → res (@EventsResponse PoolEvent)) (oldest_of_error : jserr → option Z) (latest : res Z).

Record ProveWithdrawOpts : Type := mkProveOpts {
  pr_note : PoolNote;
  pr_recipient : string;
  pr_relayer : option string;
  pr_fee : option Z;
  pr_scope : option Z;
  pr_leaves : option (list Z * list Z);
  pr_reconstruct : option ReconstructStateOptions;
}.

Definition leaves_for (opts : ProveWithdrawOpts) : res (list Z * list Z) :=
  match pr_leaves opts with
  | Some l => Ok l
  | None =>
      let r := default (mkReconstruct None None false) (pr_reconstruct opts) in
      let startLedger := match rc_startLedger r with Some l => Some l | None => cc_startLedger config end in
      st ← reconstructState getEvents oldest_of_error latest (mkReconstruct startLedger (rc_maxPages r) (rc_return r));
      Ok (st_stateLeaves st, st_depositIndices st)
  end.
Definition withdraw_opts (opts : ProveWithdrawOpts) (l : list Z * list Z) : WithdrawOpts :=
  mkOpts (pr_note opts) (pr_recipient opts) (default (pr_recipient opts) (pr_relayer opts)) (default 0 (pr_fee opts))
    (default (cc_scope config) (pr_scope opts)) l.1 l.2 None None.

Definition proveWithdraw (resolve : option (string → string → res A)) (draws : list byte * list byte) (opts : ProveWithdrawOpts)
  : res PoolWithdrawProof :=
  match resolve with
  | None => Err (JsError "Pool withdrawal proof generation")
  | Some resolve =>
      l ← leaves_for opts;
      (provePoolWithdraw poseidon addressXdr keccak_256 snarkjs resolve (λ _, false) draws (withdraw_opts opts l) (mkPS [] 0)).1
  end.

Record DryRunWithdrawResult : Type := mkDryRun {
  dr_proof : PoolWithdrawProof;
  dr_recipient : string;
  dr_relayer : string;
  dr_fee : Z;
  dr_expectedPayout : Z;
  dr_simulation : SimulationReport Native;
}.
(** The account may be given; nothing is read with the options of [reconstruct]. *)
Definition dryRunWithdraw {AC : AddressCodec} {N : Network} {S : Type} (signer : option OpaqueSigner) resolve simulateInvoke
    (draws : list byte * list byte) (opts : ProveWithdrawOpts) (source : option string) : M (Client S) DryRunWithdrawResult :=
  let fee := default 0 (pr_fee opts) in
  let relayer := default (pr_recipient opts) (pr_relayer opts) in
  src ← resolveReadSource signer source;
  proof ← lift_res (proveWithdraw resolve draws
    (mkProveOpts (pr_note opts) (pr_recipient opts) (Some relayer) (Some fee) (pr_scope opts) (pr_leaves opts) None));
  simulation ← on_chain (simulateWithdraw (cc_privacyPool config) simulateInvoke proof (pr_recipient opts) fee relayer src);
  mret (mkDryRun proof (pr_recipient opts) relayer fee (pp_withdrawnValue proof - fee) simulation).
End proving.

(** ** What reconstruction yields *)
Section leaves.
Context (getEvents : bool → nat → EventsRequest → res (@EventsResponse PoolEvent)) (oldest_of_error : jserr → option Z) (latest : res Z).

Definition known_from (evs : list PoolEvent) (m m' : list (Z * Z)) : Prop :=
  (∀ k v, JMap.get k m' = Some v → JMap.get k m = Some v ∨ ∃ ev, ev ∈ evs ∧ pe_index ev = k ∧ leaf_value ev = Ok v) ∧
  (∀ k, k ∈ JMap.keys m' ↔ k ∈ JMap.keys m ∨ ∃ ev, ev ∈ evs ∧ pe_index ev = k).

Lemma known_from_nil m : known_from [] m m.
Proof. split; [by left|]. intros k. split; [by left|]. intros [?|(ev & Hev & _)]; [done|by apply elem_of_nil in Hev]. Qed.

Lemma known_from_app e1 e2 m1 m2 m3 : known_from e1 m1 m2 → known_from e2 m2 m3 → known_from (e1 ++ e2) m1 m3.
Proof.
  intros [G1 K1] [G2 K2]. split.
  - intros k v [H|(ev & Hev & H)]%G2; [apply G1 in H as [?|(ev & Hev & H)]|]; [by left|right; exists ev; set_solver..].
  - intros k. rewrite K2, K1. split; [intros [[?|(ev & ? & ?)]|(ev & ? & ?)]; [by left|right; exists ev; set_solver..]|].
    intros [?|(ev & [?|?]%elem_of_app & ?)]; [by left; left|left; right; by exists ev|right; by exists ev].
Qed.

Lemma on_event_spec d ev r r' :
  on_event d ev r = Ok r' →
  known_from [ev] (rx_byIndex r) (rx_byIndex r') ∧
  rx_depositIndices r' = rx_depositIndices r ++ (if d then [pe_index ev] else []) ∧ rx_complete r' = rx_complete r.
Proof.
  unfold on_event. intros (c & Hc & <-%Ok_inj)%bind_ok. cbn [rx_byIndex rx_depositIndices rx_complete].
  split; [|split; [by destruct d; rewrite ?app_nil_r|done]]. split.
  - intros k v H. destruct (decide (k = pe_index ev)) as [->|Hne].
    + rewrite JMap.get_set_eq in H. simplify_eq. right. exists ev. split; [by left|done].
    + rewrite JMap.get_set_ne in H by done. by left.
  - intros k. rewrite JMap.elem_of_keys_set. split; [intros [->|?]; [right; exists ev; split; [by left|done]|by left]|].
    intros [?|(ev' & ->%list_elem_of_singleton & <-)]; [by right|by left].
Qed.

Lemma on_events_spec d evs r r' :
  on_events d evs r = Ok r' →
  known_from evs (rx_byIndex r) (rx_byIndex r') ∧
  rx_depositIndices r' = rx_depositIndices r ++ (if d then pe_index <$> evs else []) ∧ rx_complete r' = rx_complete r.
Proof.
  revert r. induction evs as [|ev evs IH]; intros r; cbn [on_events].
  { intros <-%Ok_inj. split; [apply known_from_nil|]. destruct d; by rewrite app_nil_r. }
  intros (r1 & (K1 & D1 & C1)%on_event_spec & (K2 & D2 & C2)%IH)%bind_ok. split; [by apply (known_from_app [ev] evs _ _ _ K1)|].
  rewrite D2, D1, C2, C1, <-app_assoc. by destruct d.
Qed.

Lemma on_pages_spec d pages r r' :
  on_pages d pages r = Ok r' →
  let evs := concat (pg_events <$> pages) in
  known_from evs (rx_byIndex r) (rx_byIndex r') ∧
  rx_depositIndices r' = rx_depositIndices r ++ (if d then pe_index <$> evs else []) ∧
  rx_complete r' = rx_complete r && forallb (λ p, negb (pg_truncated p)) pages.
Proof.
  revert r. induction pages as [|p pages IH]; intros r; cbn [on_pages].
  { intros <-%Ok_inj. cbn. split; [apply known_from_nil|]. rewrite andb_true_r. destruct d; by rewrite app_nil_r. }
  intros (r1 & H1 & (K2 & D2 & C2)%IH)%bind_ok. unfold on_page in H1. apply bind_ok in H1 as (r0 & (K1 & D1 & C1)%on_events_spec & H1).
  apply Ok_inj in H1. cbn [fmap list_fmap concat forallb].
  assert (Hb : rx_byIndex r1 = rx_byIndex r0 ∧ rx_depositIndices r1 = rx_depositIndices r0 ∧
    rx_complete r1 = rx_complete r0 && negb (pg_truncated p)).
  { subst r1. destruct (pg_truncated p); cbn; [|by rewrite andb_true_r]. by rewrite andb_false_r. }
  destruct Hb as (Hb & Hd & Hc). rewrite Hb in K2. split; [by eapply known_from_app|]. rewrite D2, Hd, D1, C2, Hc, C1.
  rewrite <-app_assoc, <-andb_assoc. split; [|done]. destruct d; [by rewrite fmap_app|by rewrite !app_nil_r].
Qed.

(** The events a reconstruction reads of one topic. *)
Definition topic_events (opts : ReconstructStateOptions) (d : bool) : list PoolEvent :=
  concat (pg_events <$> (topic_pages getEvents oldest_of_error latest opts d).1).
Definition untruncated (opts : ReconstructStateOptions) (d : bool) : bool :=
  forallb (λ p, negb (pg_truncated p)) (topic_pages getEvents oldest_of_error latest opts d).1.
Definition all_events (opts : ReconstructStateOptions) : list PoolEvent := topic_events opts true ++ topic_events opts false.

Lemma read_topic_spec opts d r r' :
  read_topic getEvents oldest_of_error latest opts d r = Ok r' →
  known_from (topic_events opts d) (rx_byIndex r) (rx_byIndex r') ∧
  rx_depositIndices r' = rx_depositIndices r ++ (if d then pe_index <$> topic_events opts d else []) ∧
  rx_complete r' = rx_complete r && untruncated opts d.
Proof.
  unfold read_topic, topic_events, untruncated. destruct (topic_pages _ _ _ opts d) as [pages e]. cbn [fst].
  intros (r1 & H1%on_pages_spec & H2)%bind_ok. destruct e; [done|]. by apply Ok_inj in H2 as <-.
Qed.

Lemma reconstruct_spec opts st :
  reconstructState getEvents oldest_of_error latest opts = Ok st →
  ∃ m, known_from (all_events opts) [] m ∧ st_stateLeaves st = state_leaves m ∧
    st_depositIndices st = sort_by (λ i, i) (pe_index <$> topic_events opts true) ∧
    st_complete st = untruncated opts true && untruncated opts false.
Proof.
  unfold reconstructState. intros (r1 & (K1 & D1 & C1)%read_topic_spec & (r2 & (K2 & D2 & C2)%read_topic_spec & <-%Ok_inj)%bind_ok)%bind_ok.
  exists (rx_byIndex r2). cbn [st_stateLeaves st_depositIndices st_complete rx_byIndex rx_depositIndices rx_complete app] in *.
  split; [by eapply known_from_app|]. split; [done|]. by rewrite D2, D1, C2, C1, app_nil_r.
Qed.

Lemma foldl_max l a : a <= foldl Z.max a l ∧ (∀ x, x ∈ l → x <= foldl Z.max a l) ∧
  (∀ b, a <= b → (∀ x, x ∈ l → x <= b) → foldl Z.max a l <= b).
Proof.
  revert a. induction l as [|y l IH]; intros a; cbn [foldl].
  { split; [done|]. split; [by intros x Hx%elem_of_nil|done]. }
  destruct (IH (Z.max a y)) as (H1 & H2 & H3). split; [lia|]. split.
  - intros x [->|Hx]%elem_of_cons; [lia|by apply H2].
  - intros b Hb Hx. apply H3; [apply Z.max_lub; [done|apply Hx; by left]|]. intros x Hin. apply Hx. by right.
Qed.

Lemma state_leaves_lookup m i : 0 <= i <= max_index m → state_leaves m !! Z.to_nat i = Some (default 0 (JMap.get i m)).
Proof.
  intros Hi. unfold state_leaves. rewrite list_lookup_fmap, lookup_seq_lt by lia. cbn. by rewrite Z2Nat.id by lia.
Qed.
Lemma state_leaves_length m : length (state_leaves m) = Z.to_nat (max_index m + 1).
Proof. unfold state_leaves. by rewrite length_fmap, length_seq. Qed.
End leaves.

(** ** The reconstructed tree *)
Section tree.
Context (getEvents : bool → nat → EventsRequest → res (@EventsResponse PoolEvent)) (oldest_of_error : jserr → option Z) (latest : res Z).
Abbreviation events := (all_events getEvents oldest_of_error latest).

Lemma max_index_spec evs m b :
  known_from evs [] m → (∀ ev, ev ∈ evs → pe_index ev <= b) → -1 <= b →
  (b = -1 ∨ ∃ ev, ev ∈ evs ∧ pe_index ev = b) → max_index m = b.
Proof.
  intros [_ K] Hle Hb Hin. unfold max_index. destruct (foldl_max (JMap.keys m) (-1)) as (H1 & H2 & H3). apply Z.le_antisymm.
  - apply H3; [done|]. intros x [Hx|(ev & Hev & <-)]%K; [by apply elem_of_nil in Hx|by apply Hle].
  - destruct Hin as [->|Hin]; [done|]. apply H2, K. by right.
Qed.

(** An index with events holds the value they agree on. *)
Lemma known_from_get evs m k v :
  known_from evs [] m → (∃ ev, ev ∈ evs ∧ pe_index ev = k) → (∀ ev, ev ∈ evs → pe_index ev = k → leaf_value ev = Ok v) →
  JMap.get k m = Some v.
Proof.
  intros [G K] Hin Hv. destruct (JMap.get k m) as [w|] eqn:E.
  - destruct (G k w E) as [?|(ev & Hev & Hk & Hw)]; [done|]. rewrite (Hv ev Hev Hk) in Hw. by apply Ok_inj in Hw as ->.
  - exfalso. apply JMap.get_None_keys in E. apply E, K. by right.
Qed.

(** When every event read is a leaf of the pool's tree and every leaf has an
    event, the reconstruction returns exactly the leaves of the tree, in order, and the
    indices of the deposits in ascending order. *)
Theorem reconstruct_is_the_tree opts st leaves
    (Hst : reconstructState getEvents oldest_of_error latest opts = Ok st)
    (Hev : ∀ ev, ev ∈ events opts → 0 <= pe_index ev ∧ ∃ v, leaf_value ev = Ok v ∧ leaves !! Z.to_nat (pe_index ev) = Some v)
    (Hall : ∀ i, (i < length leaves)%nat → ∃ ev, ev ∈ events opts ∧ pe_index ev = Z.of_nat i) :
  st_stateLeaves st = leaves ∧
  st_depositIndices st ≡ₚ pe_index <$> topic_events getEvents oldest_of_error latest opts true ∧
  Sorted Z.le (st_depositIndices st).
Proof.
  destruct (reconstruct_spec _ _ _ _ _ Hst) as (m & Hm & -> & -> & _).
  split; [|split; [apply sort_by_perm|apply (sort_by_sorted (λ i, i))]].
  assert (Hmax : max_index m = Z.of_nat (length leaves) - 1).
  { apply (max_index_spec (events opts)); [done| |lia|].
    - intros ev (H0 & v & _ & Hv%lookup_lt_Some)%Hev. lia.
    - destruct leaves as [|x l]; [by left|]. right. destruct (Hall (length l)) as (ev & Hin & Hi); [cbn; lia|].
      exists ev. split; [done|]. cbn [length]. lia. }
  apply list_eq. intros i. destruct (decide (i < length leaves)%nat) as [Hi|Hi].
  - destruct (lookup_lt_is_Some_2 leaves i Hi) as [v Hv]. rewrite Hv, <-(Nat2Z.id i), state_leaves_lookup by lia. f_equal.
    erewrite known_from_get; [reflexivity|exact Hm|by apply Hall|].
    intros ev Hin Hk. destruct (Hev ev Hin) as (_ & w & Hw & Hl). rewrite Hk, Nat2Z.id, Hv in Hl. by simplify_eq.
  - rewrite !lookup_ge_None_2; [done|lia|]. rewrite state_leaves_length. lia.
Qed.

(** An index no retained event speaks of, below one that some event does, is
    filled with the empty leaf, and the reconstruction is still reported complete. *)
Theorem forgotten_leaf_is_reported_complete opts st ev i
    (Hst : reconstructState getEvents oldest_of_error latest opts = Ok st)
    (Hno : ∀ ev, ev ∈ events opts → pe_index ev ≠ i)
    (Hev : ev ∈ events opts) (Hi : 0 <= i < pe_index ev)
    (Hpages : untruncated getEvents oldest_of_error latest opts true = true ∧ untruncated getEvents oldest_of_error latest opts false = true) :
  st_complete st = true ∧ st_stateLeaves st !! Z.to_nat i = Some 0.
Proof.
  destruct (reconstruct_spec _ _ _ _ _ Hst) as (m & [G K] & -> & _ & ->). destruct Hpages as [-> ->]. split; [done|].
  assert (Hm : pe_index ev <= max_index m).
  { destruct (foldl_max (JMap.keys m) (-1)) as (_ & H & _). apply H, K. right. by exists ev. }
  rewrite state_leaves_lookup by lia. destruct (JMap.get i m) as [v|] eqn:E; [|done].
  destruct (G i v E) as [?|(ev' & Hin & Hk & _)]; [done|]. by destruct (Hno ev' Hin).
Qed.
End tree.

(** ** What the service does to notes *)

(** A read leaves the ledger as it is. *)
Definition pure_read {A} (m : M ChainLog A) : Prop := ∀ log, (m log).2 = log.
Lemma pure_bind {A B} (m : M ChainLog A) (f : A → M ChainLog B) : pure_read m → (∀ a, pure_read (f a)) → pure_read (m ≫= f).
Proof.
  intros Hm Hf log. unfold mbind, M_bind. specialize (Hm log). destruct (m log) as [[a|e] l]; cbn in Hm; subst l; [apply Hf|done].
Qed.
Lemma pure_lift {A} (r : res A) : pure_read (lift_res r). Proof. done. Qed.
Lemma pure_ret {A} (a : A) : pure_read (mret a). Proof. done. Qed.
Create HintDb reads.
#[export] Hint Resolve pure_bind pure_lift pure_ret : reads.

Section notes.
Context {AC : AddressCodec} {N : Network} {S : Type} `{NS : !NoteStore S}.
Context (poseidon : list Z → Z) (config : ClientConfig).
Abbreviation pool := (cc_privacyPool config).

Lemma view_pure contractId source method args : pure_read (view_pool contractId source method args).
Proof. done. Qed.
Lemma decimals_pure source : pure_read (getNativeAssetDecimals pool source).
Proof. unfold getNativeAssetDecimals, getConfig. repeat (apply pure_bind; [|intros ?]); done. Qed.

Lemma on_chain_pure {A} (m : M ChainLog A) (c : Client S) : pure_read m → on_chain m c = ((m (cl_chain c)).1, c).
Proof. intros Hm. unfold on_chain. specialize (Hm (cl_chain c)). destruct (m (cl_chain c)) as [r l]. cbn in Hm. subst l. by destruct c. Qed.

Lemma lift_case {T A B} (r0 : res A) (f : A → M T B) c r c' :
  (lift_res r0 ≫= f) c = (r, c') → (c' = c ∧ ∃ e, r = Err e) ∨ ∃ a, r0 = Ok a ∧ f a c = (r, c').
Proof. intros [(e & H & ->)|(a & c1 & H1 & H)]%M_bind_case; unfold lift_res in *; simplify_eq; [left; split; [done|by eexists]|right; by exists a]. Qed.
Lemma read_case {A B} (m : M ChainLog A) (f : A → M (Client S) B) (c c' : Client S) r :
  pure_read m → (on_chain m ≫= f) c = (r, c') →
  (c' = c ∧ ∃ e, r = Err e) ∨ ∃ a, (m (cl_chain c)).1 = Ok a ∧ f a c = (r, c').
Proof.
  intros Hm H. unfold mbind, M_bind in H. rewrite (on_chain_pure m c Hm) in H.
  destruct (m (cl_chain c)).1 as [a|e]; [right; by exists a|]. simplify_eq. left. split; [done|by eexists].
Qed.

Lemma preflight_pure source amount value skip (c : Client S) : (preflight config source amount value skip c).2 = c.
Proof.
  unfold preflight, when. destruct skip; [done|]. cbn [negb]. unfold mbind, M_bind. rewrite (on_chain_pure _ _ (decimals_pure source)).
  by destruct (getNativeAssetDecimals _ _ _).1.
Qed.

Definition deposit_call (s : OpaqueSigner) (value : Z) (commitment : list byte) (index : Z) : ChainCall :=
  CInvoke (mkInvoke (sg_publicKey s) pool "deposit" (Some "privacy-pool")
    [ScvAddress (sg_publicKey s); ScvI128 value; ScvBytes commitment; ScvU64 index]).

(** What a deposit that reached the network did. *)
Lemma deposit_run draws s value amount secrets createdAt skip (c c' : Client S) r :
  depositWithSigner poseidon config draws s value amount secrets createdAt skip c = (r, c') →
  (c' = c ∧ ∃ e, r = Err e) ∨
  ∃ i nullifier secret,
    let sec := default (newNoteSecrets draws.1 draws.2) secrets in
    let commitment := dd_commitment (deriveDeposit poseidon value (cc_scope config) i nullifier secret) in
    let sent := deposit_call s value (bigIntToBytes32 commitment) i in
    let note := mkNote (cc_network config) (Some pool) (bigint_toString 10 value) (JNum (cc_scope config)) (JNum i)
                  (ns_nullifier sec) (ns_secret sec) (toHex32 commitment) false (JNum (default 0 createdAt)) in
    BigInt (ns_nullifier sec) = Ok nullifier ∧ BigInt (ns_secret sec) = Ok secret ∧
    cl_chain c' = cl_chain c ++ [(sent, outcome (cl_chain c) sent)] ∧
    match outcome (cl_chain c) sent with
    | Err e => r = Err e ∧ cl_notes c' = cl_notes c
    | Ok tx => (r ← (add_note (note_object note) (cl_notes c)).1; Ok (note, tx)) = r ∧
               cl_notes c' = (add_note (note_object note) (cl_notes c)).2
    end.
Proof.
  unfold depositWithSigner. set (sec := default _ secrets). intros H.
  apply M_bind_case in H as [(e & H & ->)|([] & c1 & H1 & H)].
  { left. pose proof (preflight_pure (sg_publicKey s) amount value skip c) as Hp. rewrite H in Hp. split; [done|by eexists]. }
  pose proof (preflight_pure (sg_publicKey s) amount value skip c) as Hp. rewrite H1 in Hp. cbn in Hp. subst c1. clear H1.
  apply read_case in H as [?|(count & _ & H)]; [by left| |apply pure_bind; done].
  apply lift_case in H as [?|(i & _ & H)]; [by left|].
  apply lift_case in H as [?|(nullifier & Hn & H)]; [by left|].
  apply lift_case in H as [?|(secret & Hs & H)]; [by left|].
  unfold mbind at 1, M_bind at 1, on_chain at 1, pool_deposit, addressToScVal in H.
  destruct (is_address (sg_publicKey s)); cbn [lift_res] in H; unfold mbind at 1, M_bind at 1, lift_res at 1 in H;
    [|simplify_eq; left; split; [by destruct c|by eexists]].
  right. exists i, nullifier, secret. split; [done|]. split; [done|]. unfold invoke, call in H. unfold deposit_call.
  set (sent := CInvoke _) in *. fold (deposit_call s value) in H.
  destruct (outcome (cl_chain c) sent) as [tx|e] eqn:Ho; [|simplify_eq; done].
  unfold mbind, M_bind, on_notes, mret, M_ret in H. cbn [cl_notes cl_chain] in H.
  set (n := note_object _) in H. destruct (add_note n (cl_notes c)) as [[[]|e] st] eqn:Ea; simplify_eq; cbn [cl_chain cl_notes]; unfold n in Ea;
    rewrite Ea; done.
Qed.

(** A dry run sends nothing and touches no note, whatever it answers. *)
Lemma dry_run_spends_nothing {A V} addressXdr keccak_256 (snarkjs : SnarkjsLike A V) getEvents oldest_of_error latest signer resolve simulateInvoke draws
    opts source (c : Client S) :
  (dryRunWithdraw poseidon addressXdr keccak_256 snarkjs config getEvents oldest_of_error latest signer resolve simulateInvoke draws opts source c).2 = c.
Proof.
  destruct (dryRunWithdraw _ _ _ _ _ _ _ _ _ _ _ _ _ _ c) as [r c'] eqn:H. cbn [snd]. unfold dryRunWithdraw in H.
  apply M_bind_case in H as [(e & H & _)|(src & c1 & H1 & H)].
  { by destruct source as [[|]|], signer; cbv in H; simplify_eq. }
  assert (c1 = c) as -> by (by destruct source as [[|]|], signer; cbv in H1; simplify_eq).
  apply lift_case in H as [[-> _]|(proof & _ & H)]; [done|].
  apply read_case in H as [[-> _]|(sim & _ & H)]; [done|by injection H|].
  unfold simulateWithdraw. destruct simulateInvoke; [|done]. repeat (apply pure_bind; [done|intros ?]). done.
Qed.

(** The tree and the deposits a withdrawal is proved against, holding the deposit sent. *)
Record recorded (l : list Z * list Z) (commitment : list byte) (i : Z) : Prop := {
  re_leaf : 0 <= i ∧ l.1 !! Z.to_nat i = Some (bytesToBigInt commitment);
  re_capacity : Z.of_nat (length l.1) <= 2 ^ 20 ∧ Z.of_nat (length l.2) <= 2 ^ 20;
  re_leaves : Forall (λ x, 0 <= x) l.1;
  re_deposit : i ∈ l.2;
}.

Context `{CL : !Circomlib} (addressXdr : string → res (list byte)) (keccak_256 : list byte → list byte).
Context (Hrange : ∀ l, 0 <= poseidon l < BN254_R) (Hmod : ∀ l, poseidon (fmod <$> l) = poseidon l).

Lemma commitment_bytes v : 0 <= v < BN254_R → bytesToBigInt (bigIntToBytes32 v) = v.
Proof.
  intros Hv. unfold bytesToBigInt, bigIntToBytes32. rewrite be_val_be_bytes. apply Z.mod_small. unfold BN254_R in Hv.
  split; [lia|]. change (2 ^ (8 * Z.of_nat 32)) with (2 ^ 256). lia.
Qed.

(** C16 (functional): A deposit that succeeds has sent one call with the note's commitment and
    handed the note to the store; and once that commitment is a leaf at its index, the whole
    note can be withdrawn: the prover builds a witness from what was stored, and the witness
    satisfies the withdrawal circuit. *)
Theorem deposited_note_is_withdrawable draws s value amount secrets createdAt skip (c c' : Client S) note tx
    (Hrun : depositWithSigner poseidon config draws s value amount secrets createdAt skip c = (Ok (note, tx), c'))
    (Hval : 0 < value < 2 ^ 64) :
  ∃ commitment i,
    cl_chain c' = cl_chain c ++ [(deposit_call s value commitment i, Ok tx)] ∧
    add_note (note_object note) (cl_notes c) = (Ok tt, cl_notes c') ∧
    ∀ l draws' recipient, recorded l commitment i → is_ok (addressXdr recipient) = true →
      let opts := withdraw_opts config (mkProveOpts note recipient None None None (Some l) None) l in
      ∃ w g, buildPoolWithdrawWitness poseidon addressXdr keccak_256 draws' opts = Ok w ∧ pww_withdrawnValue w = value ∧
        signals_of (pww_input w) = Ok g ∧ PrivacyPoolWithdraw poseidon POOL_TREE_DEPTH 64 g = true.
Proof using Hrange Hmod.
  destruct (deposit_run _ _ _ _ _ _ _ _ _ _ Hrun) as [(_ & e & [=])|(i & nullifier & secret & Hn & Hs & Hlog & H)].
  set (sec := default _ secrets) in *. set (commitment := dd_commitment _) in *. set (sent := deposit_call _ _ _ _) in *.
  destruct (outcome (cl_chain c) sent) as [tx'|e] eqn:Ho; [|by destruct H].
  set (stored := mkNote _ _ _ _ _ _ _ _ _ _) in H. destruct (add_note (note_object stored) (cl_notes c)) as [[[]|e] st] eqn:Ea; [|by destruct H].
  cbn [fst snd mbind res_bind] in H. destruct H as [E <-]. apply Ok_inj in E. simplify_eq.
  exists (bigIntToBytes32 commitment), i. split; [done|]. split; [done|].
  intros l draws' recipient [[Hi Hleaf] [Hc1 Hc2] Hpos Hdep] Hrec opts.
  rewrite (commitment_bytes commitment (Hrange _)) in Hleaf.
  assert (Hsp : spendable poseidon opts value i nullifier secret).
  { split; cbn; try done; [by rewrite BigInt_toString|lia|by apply toHex32_lower, Hrange|].
    apply lookup_lt_Some in Hleaf. lia. }
  assert (Hrq : requestable poseidon addressXdr opts value i nullifier secret) by (split; cbn; [lia|done..]).
  destruct (witness_total poseidon addressXdr keccak_256 Hrange draws' opts _ _ _ _ Hsp Hrq) as [w Hw].
  destruct (witness_satisfies poseidon addressXdr keccak_256 Hrange Hmod draws' opts w _ _ _ _ Hw Hsp) as (Hv & _ & _ & _ & (g & Hg & Hsat) & _).
  by exists w, g.
Qed.

(** A deposit whose confirmation fails is reported as failed and stores no note,
    although the call, with the commitment, was sent: when the network accepted it after all,
    nothing the client keeps opens the commitment. *)
Theorem unconfirmed_deposit_stores_nothing draws s value amount createdAt skip (c c' : Client S) sent e r
    (Hrun : depositWithSigner poseidon config draws s value amount None createdAt skip c = (r, c'))
    (Hsent : cl_chain c' = cl_chain c ++ [(sent, Err e)]) :
  r = Err e ∧ cl_notes c' = cl_notes c ∧
  ∃ i nullifier secret,
    BigInt (randomFieldElement draws.1) = Ok nullifier ∧ BigInt (randomFieldElement draws.2) = Ok secret ∧
    sent = deposit_call s value (bigIntToBytes32 (dd_commitment (deriveDeposit poseidon value (cc_scope config) i nullifier secret))) i.
Proof.
  destruct (deposit_run _ _ _ _ _ _ _ _ _ _ Hrun) as [(-> & _)|(i & nullifier & secret & Hn & Hs & Hlog & H)].
  { exfalso. apply (f_equal length) in Hsent. rewrite length_app in Hsent. cbn in Hsent. lia. }
  rewrite Hsent in Hlog. apply app_inv_head in Hlog. cbv zeta in H. set (call := deposit_call _ _ _ _) in *.
  injection Hlog as -> He. rewrite <-He in H. destruct H as [-> ->]. split; [done|]. split; [done|]. by exists i, nullifier, secret.
Qed.

End notes.

(** ** Examples *)
Definition any_address : AddressCodec := {| is_address _ := true |}.
Definition pool_views (r : ReadOptions) : res Native :=
  if String.eqb (ro_method r) "get_deposit_count" then Ok (NInt 1)
  else if String.eqb (ro_method r) "is_spent" then Ok (NBool true) else Ok NUndef.
Definition accepting : Network := {| outcome _ _ := Ok "tx"; view _ := pool_views; latestLedger _ := Ok 9 |}.
Definition silent : Network :=
  {| outcome _ _ := Err (JsError "confirmation timed out"); view _ := pool_views; latestLedger _ := Ok 9 |}.
Definition toy_config : ClientConfig := mkClientConfig "testnet" "CPOOL" 7 None.
Definition fresh_client : Client MemoryStores.notes_t := mkClient [] [].
Definition toy_bytes (c : Z) : list byte := bigIntToBytes32 c.

(** Two deposits and the remainder of one withdrawal, one page each. *)
Definition toy_pool_events (d : bool) (n : nat) (r : EventsRequest) : res (@EventsResponse PoolEvent) :=
  Ok (mkResponse (Some (if d then [mkPoolEvent 3 (toy_bytes 50) 0; mkPoolEvent 5 (toy_bytes 52) 2] else [mkPoolEvent 4 (toy_bytes 51) 1]))
        (Some 9) None).
Definition no_options : ReconstructStateOptions := mkReconstruct None None false.

Lemma toy_pool_all : all_events toy_pool_events (λ _, None) (Ok 9) no_options =
  [mkPoolEvent 3 (toy_bytes 50) 0; mkPoolEvent 5 (toy_bytes 52) 2; mkPoolEvent 4 (toy_bytes 51) 1].
Proof. vm_compute. reflexivity. Qed.

Lemma reconstruct_is_the_tree_witness :
  ∃ st, reconstructState toy_pool_events (λ _, None) (Ok 9) no_options = Ok st ∧ st_stateLeaves st = [50; 51; 52] ∧
    st_depositIndices st ≡ₚ [0; 2].
Proof.
  destruct (reconstructState toy_pool_events (λ _, None) (Ok 9) no_options) as [st|] eqn:E; [|exfalso; vm_compute in E; discriminate E].
  exists st. split; [done|].
  destruct (reconstruct_is_the_tree toy_pool_events (λ _, None) (Ok 9) no_options st [50; 51; 52] E) as (H1 & H2 & _).
  - rewrite toy_pool_all. intros ev H. rewrite !elem_of_cons in H. destruct H as [->|[->|[->|H]]]; [..|by apply elem_of_nil in H].
    all: split; [done|]; eexists; split; vm_compute; reflexivity.
  - rewrite toy_pool_all. intros [|[|[|i]]] Hi; [..|cbn in Hi; lia].
    + exists (mkPoolEvent 3 (toy_bytes 50) 0). split; [left|done].
    + exists (mkPoolEvent 4 (toy_bytes 51) 1). split; [right; right; left|done].
    + exists (mkPoolEvent 5 (toy_bytes 52) 2). split; [right; left|done].
  - split; [exact H1|exact H2].
Defined.

(** The same pool after the deposit of leaf 0 left the retained window. *)
Definition late_events (d : bool) (n : nat) (r : EventsRequest) : res (@EventsResponse PoolEvent) :=
  Ok (mkResponse (Some (if d then [mkPoolEvent 5 (toy_bytes 52) 2] else [mkPoolEvent 4 (toy_bytes 51) 1])) (Some 9) None).
Lemma late_all : all_events late_events (λ _, None) (Ok 9) no_options = [mkPoolEvent 5 (toy_bytes 52) 2; mkPoolEvent 4 (toy_bytes 51) 1].
Proof. vm_compute. reflexivity. Qed.

Lemma forgotten_leaf_is_reported_complete_witness :
  ∃ st, reconstructState late_events (λ _, None) (Ok 9) no_options = Ok st ∧ st_complete st = true ∧ st_stateLeaves st !! 0%nat = Some 0.
Proof.
  destruct (reconstructState late_events (λ _, None) (Ok 9) no_options) as [st|] eqn:E; [|exfalso; vm_compute in E; discriminate E].
  exists st. split; [done|].
  apply (forgotten_leaf_is_reported_complete late_events (λ _, None) (Ok 9) no_options st (mkPoolEvent 4 (toy_bytes 51) 1) 0 E).
  - rewrite late_all. intros ev H. rewrite !elem_of_cons in H. destruct H as [->|[->|H]]; [done..|by apply elem_of_nil in H].
  - rewrite late_all. right. left.
  - done.
  - split; vm_compute; reflexivity.
Defined.

Lemma deposited_note_is_withdrawable_witness :
  ∃ note c', depositWithSigner (AC := any_address) (N := accepting) pool_hash toy_config sample_draws (mkSigner "GDEP") 1000 "0.0001" None None true fresh_client
      = (Ok (note, "tx"), c') ∧
    ∃ commitment i, cl_chain c' = [(deposit_call toy_config (mkSigner "GDEP") 1000 commitment i, Ok "tx")] ∧
      add_note (note_object note) (cl_notes fresh_client) = (Ok tt, cl_notes c').
Proof.
  destruct (depositWithSigner (AC := any_address) (N := accepting) pool_hash toy_config sample_draws (mkSigner "GDEP") 1000 "0.0001" None None true fresh_client)
    as [[[note tx]|e] c'] eqn:E; [|exfalso; apply (f_equal fst) in E; vm_compute in E; discriminate E].
  assert (tx = "tx") as -> by (apply (f_equal fst) in E; vm_compute in E; congruence).
  exists note, c'. split; [done|].
  destruct (deposited_note_is_withdrawable (AC := any_address) (N := accepting) (CL := toy_circomlib) pool_hash toy_config toy_address (λ b, b) pool_hash_range pool_hash_mod
    sample_draws (mkSigner "GDEP") 1000 "0.0001" None None true fresh_client c' note "tx" E) as (commitment & i & H1 & H2 & _); [lia|].
  exists commitment, i. split; [exact H1|exact H2].
Defined.

Lemma unconfirmed_deposit_stores_nothing_witness :
  ∃ c' sent, depositWithSigner (AC := any_address) (N := silent) pool_hash toy_config sample_draws (mkSigner "GDEP") 1000 "0.0001" None None true fresh_client
      = (Err (JsError "confirmation timed out"), c') ∧
    cl_chain c' = [(sent, Err (JsError "confirmation timed out"))] ∧ cl_notes c' = [].
Proof.
  destruct (depositWithSigner (AC := any_address) (N := silent) pool_hash toy_config sample_draws (mkSigner "GDEP") 1000 "0.0001" None None true fresh_client)
    as [r c'] eqn:E.
  destruct (cl_chain c') as [|[sent x] [|? ?]] eqn:Hl; try (exfalso; apply (f_equal (λ p, length (cl_chain p.2))) in E; cbn [snd] in E;
    rewrite Hl in E; vm_compute in E; discriminate E).
  assert (x = Err (JsError "confirmation timed out")) as ->.
  { apply (f_equal (λ p, (cl_chain p.2).*2)) in E. cbn [snd] in E. rewrite Hl in E. vm_compute in E. congruence. }
  destruct (unconfirmed_deposit_stores_nothing (AC := any_address) (N := silent) pool_hash toy_config sample_draws (mkSigner "GDEP") 1000 "0.0001" None
    true fresh_client c' sent (JsError "confirmation timed out") r E Hl) as (Hr & Hn & _).
  exists c', sent. split; [by rewrite Hr|]. split; [done|exact Hn].
Defined.

Definition toy_proof : PoolWithdrawProof := mkPWProof [] [] [] 1000 [] [] [Byte.x2a] [] (mkChange (mkSecrets "1" "2") 0).
Definition held_client : Client MemoryStores.notes_t := mkClient [] [("c", JObj [("commitment", JStr "c"); ("spent", JBool false)])].
