(* ===== verification/SdkReputation.v ===== *)
(** * SDK: reputation

    The reputation prover ([sdk/src/prove/reputation.ts]), the circuit it proves
    ([circuits/v2/stealth_reputation.circom]), the verifier bindings
    ([sdk/src/contracts/verifier.ts]) and the parts of [sdk/src/services/reputation.ts] that
    do not call [computeReputationLeaf], which the prover module does not export.  Poseidon,
    circomlib and snarkjs are parameters, as in [SdkPool]. *)
From Stdlib Require Import Ascii.
From stdpp Require Import base tactics list sets strings.
From Stdlib Require Import ZArith Lia.
From S2P Require Import Prelude JsString JsMap Bytes Merkle Json PubValidate PubStore PubEngine PubHttp.
From S2P Require Import SdkCodec SdkWorkerPool SdkPool SdkStealth SdkChain.
Open Scope string_scope.
Open Scope list_scope.
Open Scope Z_scope.

(** ** The witness *)
Record AttestationWitness : Type := mkAttWitness { aw_issuerPkX : jval; aw_traitDataHash : jval; aw_nonce : jval }.
Record PublisherProof : Type := mkPubProof { pb_root : string; pb_pathElements : list string; pb_pathIndices : list Z }.
Record ReputationProveInput : Type := mkRepInput {
  ri_attestationId : jval;
  ri_stealthPrivKey : list byte;
  ri_externalNullifier : Z;
  ri_attestationWitness : AttestationWitness;
  ri_publisherProof : PublisherProof;
}.
Record ReputationWitnessV2 : Type := mkRepWitness {
  rw_stealth_pk : string;
  rw_schema_id : string;
  rw_issuer_pk_x : string;
  rw_trait_data_hash : string;
  rw_nonce : string;
  rw_merkle_path : list string;
  rw_merkle_path_indices : list Z;
  rw_merkle_root : string;
  rw_attestation_id : string;
  rw_external_nullifier : string;
  rw_nullifier_hash : string;
}.

(** [field]: numbers and bigints are integers already *)
Definition field (value : jval) : res Z := js_BigInt value.

Section reputation.
Context (poseidon : list Z → Z).

(** [pathElements.map]: the siblings as text, and the node the path leads to. *)
Fixpoint replay_publisher (current : Z) (elements : list string) (indices : list Z) : res (Z * list string) :=
  match elements, indices with
  | element :: elements', direction :: indices' =>
      e ← BigInt element;
      let sibling := fmod e in
      if negb ((direction =? 0) || (direction =? 1)) then Err (TypeError "publisher proof path indices must be 0 or 1")
      else
        r ← replay_publisher (if direction =? 0 then poseidon [current; sibling] else poseidon [sibling; current]) elements' indices';
        Ok (r.1, bigint_toString 10 sibling :: r.2)
  | _, _ => Ok (current, [])
  end.

Definition buildReputationWitnessV2 (input : ReputationProveInput) : res ReputationWitnessV2 :=
  let stealthPk := fmod (bytesToBigInt (ri_stealthPrivKey input)) in
  schemaId ← field (ri_attestationId input);
  let extNullifier := ri_externalNullifier input in
  issuer ← field (aw_issuerPkX (ri_attestationWitness input));
  trait ← field (aw_traitDataHash (ri_attestationWitness input));
  nonce ← field (aw_nonce (ri_attestationWitness input));
  let leaf := poseidon [stealthPk; schemaId; fmod issuer; fmod trait; fmod nonce] in
  let proof := ri_publisherProof input in
  if negb ((length (pb_pathElements proof) =? TREE_DEPTH)%nat && (length (pb_pathIndices proof) =? TREE_DEPTH)%nat)
  then Err (TypeError "publisher proof must contain exactly 20 path elements and indices")
  else
    r ← replay_publisher leaf (pb_pathElements proof) (pb_pathIndices proof);
    root ← BigInt (pb_root proof);
    if negb (r.1 =? fmod root)
    then Err (TypeError "publisher proof path does not match its root for the supplied attestation fields")
    else
      let s := bigint_toString 10 in
      Ok (mkRepWitness (s stealthPk) (s schemaId) (s (fmod issuer)) (s (fmod trait)) (s (fmod nonce)) r.2
            (pb_pathIndices proof) (s (fmod root)) (s schemaId) (s extNullifier) (s (poseidon [stealthPk; extNullifier]))).
End reputation.

(** ** The circuit *)

(** circomlib's [IsEqual] *)
Class Comparators : Type := {
  IsEqual : Z → Z → Z;
  IsEqual_spec a b : IsEqual a b = if a =? b then 1 else 0;
}.
Record RepSignals : Type := mkRepSignals {
  rs_stealth_pk : Z;
  rs_schema_id : Z;
  rs_issuer_pk_x : Z;
  rs_trait_data_hash : Z;
  rs_nonce : Z;
  rs_merkle_path : list Z;
  rs_merkle_path_indices : list Z;
  rs_merkle_root : Z;
  rs_attestation_id : Z;
  rs_external_nullifier : Z;
  rs_nullifier_hash : Z;
}.

Section circuit.
Context (poseidon : list Z → Z) `{CL : Circomlib} `{CM : Comparators}.
Definition StealthReputation (levels : nat) (g : RepSignals) : bool :=
  let leaf := poseidon [rs_stealth_pk g; rs_schema_id g; rs_issuer_pk_x g; rs_trait_data_hash g; rs_nonce g] in
  (length (rs_merkle_path g) =? levels)%nat && (length (rs_merkle_path_indices g) =? levels)%nat &&
  bool_decide (MerkleInclusion poseidon leaf (rs_merkle_path g) (rs_merkle_path_indices g) = Some (rs_merkle_root g)) &&
  (IsEqual (rs_schema_id g) (rs_attestation_id g) =? 1) &&
  (poseidon [rs_stealth_pk g; rs_external_nullifier g] =? rs_nullifier_hash g).
End circuit.

(** The signals the prover assigns. *)
Definition rep_signals (w : ReputationWitnessV2) : res RepSignals :=
  stealth_pk ← signal (rw_stealth_pk w);
  schema_id ← signal (rw_schema_id w);
  issuer_pk_x ← signal (rw_issuer_pk_x w);
  trait_data_hash ← signal (rw_trait_data_hash w);
  nonce ← signal (rw_nonce w);
  merkle_path ← mapM_res signal (rw_merkle_path w);
  merkle_root ← signal (rw_merkle_root w);
  attestation_id ← signal (rw_attestation_id w);
  external_nullifier ← signal (rw_external_nullifier w);
  nullifier_hash ← signal (rw_nullifier_hash w);
  Ok (mkRepSignals stealth_pk schema_id issuer_pk_x trait_data_hash nonce merkle_path (map fmod (rw_merkle_path_indices w))
        merkle_root attestation_id external_nullifier nullifier_hash).

(** ** Proving *)
Record ReputationProof : Type := mkRepProof {
  rp_proofA : list byte;
  rp_proofB : list byte;
  rp_proofC : list byte;
  rp_merkleRoot : list byte;
  rp_attestationId : list byte;
  rp_externalNullifier : Z;
  rp_nullifierHash : list byte;
  rp_expirationLedger : option Z;
  rp_publicSignals : list string;
}.
Definition proof_bundle (input : ReputationProveInput) (proof : Groth16ProofLike) (publicSignals : list string) : res ReputationProof :=
  p ← serializeGroth16Proof proof;
  root ← BigInt_at publicSignals 0;
  attestation ← BigInt_at publicSignals 1;
  nullifier ← BigInt_at publicSignals 3;
  Ok (mkRepProof (sp_a p) (sp_b p) (sp_c p) (bigIntToBytes32 root) (bigIntToBytes32 attestation)
        (ri_externalNullifier input) (bigIntToBytes32 nullifier) None publicSignals).

Section prove.
Context (poseidon : list Z → Z) {A : Type} (resolve : string → string → res A).
Context (fullProve : ReputationWitnessV2 → A → A → res (Groth16ProofLike * list string)).

Definition proveReputationV2 (input : ReputationProveInput) : res ReputationProof :=
  witness ← buildReputationWitnessV2 poseidon input;
  wasm ← resolve "reputation-v2" "wasm";
  zkey ← resolve "reputation-v2" "zkey";
  r ← fullProve witness wasm zkey;
  proof_bundle input r.1 r.2.

(** A batch: [runProofJobs] answers the jobs' results in order (see [SdkWorkerPool]). *)
Definition proveReputationV2Batch (runProofJobs : list (ReputationWitnessV2 * A * A) → res (list (Groth16ProofLike * list string)))
    (inputs : list ReputationProveInput) : res (list ReputationProof) :=
  witnesses ← mapM_res (buildReputationWitnessV2 poseidon) inputs;
  wasm ← resolve "reputation-v2" "wasm";
  zkey ← resolve "reputation-v2" "zkey";
  results ← runProofJobs (map (λ w, (w, wasm, zkey)) witnesses);
  mapM_res (λ x : ReputationProveInput * (Groth16ProofLike * list string), proof_bundle x.1 x.2.1 x.2.2) (zip inputs results).
End prove.

(** ** The verifier contract *)
Section verifier.
Context {AC : AddressCodec} {N : Network} (contractId groth16VerifierId : string) (signer : option OpaqueSigner).

Definition verifyReputation (p : ReputationProof) (s : OpaqueSigner) : M ChainLog string :=
  let caller := sg_publicKey s in
  who ← lift_res (addressToScVal caller);
  ver ← lift_res (addressToScVal groth16VerifierId);
  invoke (mkInvoke caller contractId "verify_reputation" (Some "reputation-verifier")
    [who; ver; bytesToScVal (rp_proofA p); bytesToScVal (rp_proofB p); bytesToScVal (rp_proofC p);
     bytesToScVal (rp_merkleRoot p); bytesToScVal (rp_attestationId p); u64ToScVal (rp_externalNullifier p);
     bytesToScVal (rp_nullifierHash p); u32ToScVal (default 0 (rp_expirationLedger p))]).

(** The latest root; none when it is absent or all zeros. *)
Definition rep_getLatestRoot (source : string) : M ChainLog (option (list byte)) :=
  root ← readNative (mkRead source contractId "get_latest_root" []);
  mret (match root with
        | NBytes b => if forallb (λ x, byte_val x =? 0) b then None else Some b
        | _ => None
        end).

(** [ReputationService] *)
Definition verifyOnChain (p : ReputationProof) : M ChainLog string :=
  s ← requireSigner signer; verifyReputation p s.
Definition service_getLatestRoot (source : option string) : M ChainLog (option (list byte)) :=
  src ← match source with
        | Some s => mret s
        | None => s ← requireSigner signer; mret (sg_publicKey s)
        end;
  rep_getLatestRoot src.
(** [prove] without [usePublisher], and its submission *)
Definition prove_reputation (prove : option (ReputationProveInput → res ReputationProof)) (input : ReputationProveInput)
  : M ChainLog ReputationProof :=
  match prove with
  | None => throw (JsError "Reputation proof generation")
  | Some prove => lift_res (prove input)
  end.
Definition proveAndVerify (prove : option (ReputationProveInput → res ReputationProof)) (input : ReputationProveInput)
  : M ChainLog string :=
  p ← prove_reputation prove input; verifyOnChain p.
End verifier.

(** ** What the prover's witness satisfies *)
Section satisfies.
Context (poseidon : list Z → Z) `{CL : !Circomlib} `{CM : !Comparators}.
Context (Hrange : ∀ l, 0 <= poseidon l < BN254_R) (Hmod : ∀ l, poseidon (fmod <$> l) = poseidon l).

Lemma replay_inclusion_ok elements indices c root strs :
  length elements = length indices → replay_publisher poseidon c elements indices = Ok (root, strs) →
  ∃ sibs, mapM_res signal strs = Ok sibs ∧ length sibs = length elements ∧
    MerkleInclusion poseidon c sibs (map fmod indices) = Some root.
Proof using Hmod.
  revert c indices root strs. induction elements as [|e elements IH]; intros c [|d indices] root strs Hlen Hr; try done.
  { cbn in Hr. apply Ok_inj in Hr. simplify_eq. by exists []. }
  cbn [replay_publisher] in Hr. apply bind_ok in Hr as (v & Hv & Hr). injection Hlen as Hlen.
  destruct ((d =? 0) || (d =? 1)) eqn:Hd; cbn [negb] in Hr; [|done]. apply bind_ok in Hr as ([root' strs'] & Hr & E%Ok_inj). cbn [fst snd] in E.
  injection E as -> <-. destruct (IH _ _ _ _ Hlen Hr) as (sibs & Hs & Hl & Hm).
  exists (fmod v :: sibs). cbn [mapM_res]. rewrite signal_toString, Hs, fmod_idemp. split; [done|]. split; [cbn; lia|].
  cbn [map MerkleInclusion]. assert (Hb : d = 0 ∨ d = 1) by lia.
  destruct (Mux1_spec c (fmod v) (fmod d)) as [L0 L1], (Mux1_spec (fmod v) c (fmod d)) as [R0 R1].
  destruct Hb as [->| ->]; cbn [Z.eqb Pos.eqb] in *; [rewrite L0, R0 by done|rewrite L1, R1 by done]; exact Hm.
Qed.

(** The leaf of the holder's attestation. *)
Definition reputation_leaf (input : ReputationProveInput) : res Z :=
  schemaId ← field (ri_attestationId input);
  issuer ← field (aw_issuerPkX (ri_attestationWitness input));
  trait ← field (aw_traitDataHash (ri_attestationWitness input));
  nonce ← field (aw_nonce (ri_attestationWitness input));
  Ok (poseidon [fmod (bytesToBigInt (ri_stealthPrivKey input)); schemaId; fmod issuer; fmod trait; fmod nonce]).

Lemma witness_circuit input w :
  buildReputationWitnessV2 poseidon input = Ok w →
  ∃ g root schemaId, rep_signals w = Ok g ∧ StealthReputation poseidon TREE_DEPTH g = true ∧
    BigInt (pb_root (ri_publisherProof input)) = Ok root ∧ field (ri_attestationId input) = Ok schemaId ∧
    rs_merkle_root g = fmod root ∧ rs_attestation_id g = fmod schemaId ∧ rs_external_nullifier g = fmod (ri_externalNullifier input) ∧
    rs_nullifier_hash g = poseidon [fmod (bytesToBigInt (ri_stealthPrivKey input)); ri_externalNullifier input].
Proof using Hrange Hmod.
  unfold buildReputationWitnessV2. intros (schemaId & Hid & (issuer & _ & (trait & _ & (nonce & _ & H)%bind_ok)%bind_ok)%bind_ok)%bind_ok.
  set (pk := fmod (bytesToBigInt _)) in *. set (proof := ri_publisherProof input) in *.
  destruct (Nat.eqb_spec (length (pb_pathElements proof)) TREE_DEPTH) as [Hl1|]; [|done].
  destruct (Nat.eqb_spec (length (pb_pathIndices proof)) TREE_DEPTH) as [Hl2|]; [|done]. cbn [negb andb] in H.
  apply bind_ok in H as ([cur strs] & Hr & (root & Hroot & H)%bind_ok). cbn [fst snd] in H.
  destruct (Z.eqb_spec cur (fmod root)) as [->|]; cbn [negb] in H; [|done]. apply Ok_inj in H as <-.
  destruct (replay_inclusion_ok _ _ _ _ _ (eq_trans Hl1 (eq_sym Hl2)) Hr) as (sibs & Hs & Hls & Hm).
  eexists (mkRepSignals pk (fmod schemaId) (fmod issuer) (fmod trait) (fmod nonce) sibs (map fmod (pb_pathIndices proof)) (fmod root)
    (fmod schemaId) (fmod (ri_externalNullifier input)) (poseidon [pk; ri_externalNullifier input])), root, schemaId.
  assert (Hpk : fmod pk = pk) by apply fmod_idemp.
  split_and!; try done.
  - unfold rep_signals. cbn [rw_stealth_pk rw_schema_id rw_issuer_pk_x rw_trait_data_hash rw_nonce rw_merkle_path rw_merkle_path_indices
      rw_merkle_root rw_attestation_id rw_external_nullifier rw_nullifier_hash].
    rewrite !signal_toString, Hs, !fmod_idemp, fmod_poseidon, Hpk by done. done.
  - unfold StealthReputation. cbn [rs_stealth_pk rs_schema_id rs_issuer_pk_x rs_trait_data_hash rs_nonce rs_merkle_path rs_merkle_path_indices
      rs_merkle_root rs_attestation_id rs_external_nullifier rs_nullifier_hash].
    rewrite Hls, length_map, Hl1, Hl2, IsEqual_spec, Z.eqb_refl. cbn [Nat.eqb andb].
    rewrite (poseidon_cong poseidon Hmod [pk; fmod schemaId; _; _; _] [pk; schemaId; fmod issuer; fmod trait; fmod nonce])
      by (cbn; by rewrite !fmod_idemp).
    rewrite (poseidon_cong poseidon Hmod [pk; fmod _] [pk; ri_externalNullifier input]) by (cbn; by rewrite fmod_idemp).
    rewrite Hm, bool_decide_eq_true_2, !Z.eqb_refl by done. done.
Qed.

(** A path of the publisher's tree leads the prover to the root it folds to. *)
Lemma replay_publisher_path path elements c :
  mapM_res Hex32.bigintToHex32 path.*1 = Ok elements → Forall binary path.*2 →
  ∃ strs, replay_publisher poseidon c elements path.*2 = Ok (foldPath poseidon c path, strs).
Proof using Hmod.
  revert elements c. induction path as [|[s d] path IH]; intros elements c He Hb; cbn [fmap list_fmap fst snd mapM_res] in *.
  { apply Ok_inj in He as <-. by exists []. }
  apply bind_ok in He as (e & Hs & (es & Hes & <-%Ok_inj)%bind_ok). apply Forall_cons in Hb as [Hd Hb].
  assert (Hv : BigInt e = Ok s).
  { unfold Hex32.bigintToHex32 in Hs. destruct (Z.ltb_spec s 0); [done|]. rewrite Z.shiftl_1_l in Hs.
    destruct (Z.ltb_spec (2 ^ 256 - 1) s); [done|]. destruct (Hex32.bigintToHex32_ok s) as (e' & He' & _ & HB); [lia|].
    unfold Hex32.bigintToHex32 in He'. rewrite Z.shiftl_1_l in He'. destruct (Z.ltb_spec s 0); [lia|]. destruct (Z.ltb_spec (2 ^ 256 - 1) s); [lia|].
    rewrite Hs in He'. apply Ok_inj in He' as ->. exact HB. }
  cbn [replay_publisher foldPath]. rewrite Hv. cbn [mbind res_bind].
  destruct (IH es (if d =? 0 then poseidon [c; s] else poseidon [s; c]) Hes Hb) as [strs Hr].
  exists (bigint_toString 10 (fmod s) :: strs).
  destruct Hd as [->| ->]; cbn [Z.eqb Pos.eqb orb negb] in *.
  - rewrite (poseidon_cong poseidon Hmod [c; fmod s] [c; s]) by (cbn; by rewrite fmod_idemp). by rewrite Hr.
  - rewrite (poseidon_cong poseidon Hmod [fmod s; c] [s; c]) by (cbn; by rewrite fmod_idemp). by rewrite Hr.
Qed.
End satisfies.

(** The bytes of a 32-byte hex number are the prover's bytes of its value. *)
Lemma hex32_value_bytes s v : Hex32.hex32 s → BigInt s = Ok v → Hex32.hex32ToBytes s = Ok (bigIntToBytes32 v).
Proof.
  intros Hs Hv. destruct (Hex32.hex32_bytes s Hs) as (l & Hl & Hlen & ->). rewrite Hl. f_equal.
  pose proof (hex_scalar_val l) as Hsc. unfold hex_scalar, CryptoBytes.bytesToHex in Hsc. rewrite Hsc in Hv by (by intros ->).
  apply Ok_inj in Hv as <-. unfold bigIntToBytes32, bytesToBigInt. rewrite <-Hlen. symmetry. apply be_bytes_be_val.
Qed.

(** A prover that proves whatever satisfies the circuit and answers with the public signals
    in the circuit's order. *)
Definition rep_complete (poseidon : list Z → Z) {CL : Circomlib} {CM : Comparators} {A}
    (fullProve : ReputationWitnessV2 → A → A → res (Groth16ProofLike * list string)) (wasm zkey : A) : Prop :=
  ∀ w g, rep_signals w = Ok g → StealthReputation poseidon TREE_DEPTH g = true →
    ∃ proof, fullProve w wasm zkey = Ok (proof, map (bigint_toString 10)
        [rs_merkle_root g; rs_attestation_id g; rs_external_nullifier g; rs_nullifier_hash g]) ∧
      is_ok (serializeGroth16Proof proof) = true.

Section published.
Context (poseidon : list Z → Z) {CL : Circomlib} {CM : Comparators}.
Context (Hrange : ∀ l, 0 <= poseidon l < BN254_R) (Hmod : ∀ l, poseidon (fmod <$> l) = poseidon l).
Context {St : Type} `{Store St} (sha256 : list byte → list byte).
Context {A : Type} (resolve : string → string → res A).
Context (fullProve : ReputationWitnessV2 → A → A → res (Groth16ProofLike * list string)).

(** The path a response carries. *)
Lemma response_path store verifierId leaf r :
  rootResponse poseidon sha256 store verifierId leaf = Ok r →
  ∃ path v, length path = TREE_DEPTH ∧ BigInt (rr_leaf r) = Ok v ∧
    mapM_res Hex32.bigintToHex32 path.*1 = Ok (rr_pathElements r) ∧ path.*2 = rr_pathIndices r ∧ Forall binary path.*2 ∧
    Hex32.bigintToHex32 (foldPath poseidon v path) = Ok (rr_root r) ∧
    buildRoot poseidon (lc_leaf <$> match st_load verifierId store with Some st => ps_leaves st | None => [] end) = Ok (rr_root r).
Proof using.
  unfold rootResponse. intros (nl & Hnl & ([i p] & Hp & (dh & _ & <-%Ok_inj)%bind_ok)%bind_ok)%bind_ok.
  destruct (buildProof_spec poseidon _ _ _ _ Hp) as (path & v & _ & _ & Hv & Hl & Hbits & He & Hb & Hf & Hr).
  exists path, v. cbn [rr_leaf rr_pathElements rr_pathIndices rr_root]. split_and!; try done. rewrite Hbits. apply index_bits_binary.
Qed.

(** A path is not empty, so what it folds to is a hash. *)
Lemma fold_range c path : path ≠ [] → 0 <= foldPath poseidon c path < BN254_R.
Proof using Hrange.
  revert c. induction path as [|[s d] path IH]; intros c Hne; [done|]. cbn [foldPath].
  destruct path as [|x path]; [cbn [foldPath]; by destruct (d =? 0)|]. by apply IH.
Qed.

(** C31 (functional): A holder whose leaf the publisher serves can prove it: with the root and
    path of the publisher's answer and the fields that hash to the leaf, the prover's
    witness satisfies the reputation circuit and, with a complete prover, a proof comes out;
    the root it shows is, byte for byte, the root of the leaves the publisher stores, and
    its nullifier is the one of the holder's key and the application. *)
Theorem published_leaf_is_provable store verifierId leaf r input v wasm zkey
    (Hr : rootResponse poseidon sha256 store verifierId leaf = Ok r)
    (Hleaf : reputation_leaf poseidon input = Ok v) (Hsame : BigInt (rr_leaf r) = Ok v)
    (Hpath : ri_publisherProof input = mkPubProof (rr_root r) (rr_pathElements r) (rr_pathIndices r))
    (Hwasm : resolve "reputation-v2" "wasm" = Ok wasm) (Hzkey : resolve "reputation-v2" "zkey" = Ok zkey)
    (Hcp : rep_complete poseidon fullProve wasm zkey) :
  ∃ w g p, buildReputationWitnessV2 poseidon input = Ok w ∧ rep_signals w = Ok g ∧ StealthReputation poseidon TREE_DEPTH g = true ∧
    proveReputationV2 poseidon resolve fullProve input = Ok p ∧
    Hex32.hex32ToBytes (rr_root r) = Ok (rp_merkleRoot p) ∧
    buildRoot poseidon (lc_leaf <$> match st_load verifierId store with Some st => ps_leaves st | None => [] end) = Ok (rr_root r) ∧
    rp_nullifierHash p = bigIntToBytes32 (poseidon [fmod (bytesToBigInt (ri_stealthPrivKey input)); ri_externalNullifier input]) ∧
    length (rp_proofA p) = 64%nat ∧ length (rp_proofB p) = 128%nat ∧ length (rp_proofC p) = 64%nat.
Proof using Hrange Hmod.
  destruct (response_path _ _ _ _ Hr) as (path & v' & Hlen & Hv & Hels & Hidx & Hbin & Hfold & Hroot).
  rewrite Hsame in Hv. apply Ok_inj in Hv as <-.
  pose proof (fold_range v path ltac:(by intros ->)) as Hrg. set (root := foldPath poseidon v path) in *.
  destruct (Hex32.bigintToHex32_ok root) as (s & Hs & Hh & HB); [unfold BN254_R in Hrg; lia|]. rewrite Hfold in Hs. apply Ok_inj in Hs as <-.
  assert (Hw : ∃ w, buildReputationWitnessV2 poseidon input = Ok w).
  { unfold reputation_leaf in Hleaf. unfold buildReputationWitnessV2.
    apply bind_ok in Hleaf as (a1 & -> & (a2 & -> & (a3 & -> & (a4 & -> & E%Ok_inj)%bind_ok)%bind_ok)%bind_ok). cbn [mbind res_bind].
    rewrite Hpath, E. cbn [pb_pathElements pb_pathIndices pb_root]. rewrite <-Hidx.
    assert (Hle : length (rr_pathElements r) = TREE_DEPTH) by (apply mapM_res_length in Hels; by rewrite Hels, length_fmap).
    rewrite Hle, length_fmap, Hlen. cbn [Nat.eqb andb negb]. destruct (replay_publisher_path poseidon Hmod path _ v Hels Hbin) as [strs ->].
    cbn [mbind res_bind fst snd]. rewrite HB. cbn [mbind res_bind]. rewrite (fmod_small root Hrg). unfold root. rewrite Z.eqb_refl. by eexists. }
  destruct Hw as [w Hw].
  destruct (witness_circuit poseidon Hrange Hmod input w Hw) as (g & rt & sid & Hg & Hsat & Hrt & _ & Hgr & _ & _ & Hgn).
  rewrite Hpath in Hrt. cbn [pb_root] in Hrt. rewrite HB in Hrt. apply Ok_inj in Hrt as <-. rewrite (fmod_small root Hrg) in Hgr.
  destruct (Hcp w g Hg Hsat) as (proof & Hfp & Hser). destruct (serializeGroth16Proof proof) as [sp|] eqn:Esp; [|done].
  destruct (serialize_lengths _ _ Esp) as (La & Lb & Lc).
  exists w, g. eexists. split; [done|]. split; [done|]. split; [done|]. split.
  { unfold proveReputationV2, proof_bundle. rewrite Hw, Hwasm, Hzkey. cbn [mbind res_bind]. rewrite Hfp. cbn [mbind res_bind fst snd].
    rewrite Esp. cbn [mbind res_bind map]. unfold BigInt_at. cbn [lookup list_lookup ok_or mbind res_bind]. rewrite !BigInt_toString. reflexivity. }
  cbn [rp_merkleRoot rp_nullifierHash rp_proofA rp_proofB rp_proofC]. rewrite Hgr, Hgn. split; [by apply hex32_value_bytes|]. done.
Qed.
End published.

(** ** A concrete holder *)
Definition toy_comparators : Comparators.
Proof. by refine (Build_Comparators (λ a b, if a =? b then 1 else 0) _). Defined.
#[local] Existing Instance toy_circomlib.
#[local] Existing Instance toy_comparators.

Definition holder_leaf : Z := pool_hash [5; 3; 7; 8; 9].
Definition holder_store : MemoryStore.t :=
  MemoryStore.save
    (mkPubState "v" [toy_leaf; mkLeaf "holder" (toHex32 holder_leaf) "0x03" "0x04" "" None None "t0"] None None None "t0")
    (MemoryStore.new None).
Definition holder_sha (_ : list byte) : list byte := repeat Byte.x2a 32.
Definition served : RootResponse :=
  match rootResponse pool_hash holder_sha holder_store "v" (toHex32 holder_leaf) with
  | Ok r => r
  | Err _ => mkRootResponse "" "" 0 0 "" "" [] []
  end.
Definition holder_input : ReputationProveInput :=
  mkRepInput (JNum 3) [Byte.x05] 77 (mkAttWitness (JNum 7) (JStr "8") (JStr "0x09"))
    (mkPubProof (rr_root served) (rr_pathElements served) (rr_pathIndices served)).
Definition toy_full (w : ReputationWitnessV2) (_ _ : unit) : res (Groth16ProofLike * list string) :=
  g ← rep_signals w;
  if StealthReputation pool_hash TREE_DEPTH g
  then Ok (toy_groth, map (bigint_toString 10) [rs_merkle_root g; rs_attestation_id g; rs_external_nullifier g; rs_nullifier_hash g])
  else Err (JsError "Assert Failed").
Lemma toy_full_complete : rep_complete pool_hash toy_full tt tt.
Proof.
  intros w g Hg Hsat. exists toy_groth. unfold toy_full. rewrite Hg. cbn [mbind res_bind]. rewrite Hsat. split; [done|]. by vm_compute.
Qed.
Lemma served_ok : rootResponse pool_hash holder_sha holder_store "v" (toHex32 holder_leaf) = Ok served.
Proof. vm_compute. reflexivity. Qed.

Lemma published_leaf_is_provable_witness :
  ∃ p, proveReputationV2 pool_hash (λ _ _, Ok tt) toy_full holder_input = Ok p ∧ Hex32.hex32ToBytes (rr_root served) = Ok (rp_merkleRoot p).
Proof.
  destruct (published_leaf_is_provable pool_hash pool_hash_range pool_hash_mod holder_sha (λ _ _, Ok tt) toy_full holder_store "v" (toHex32 holder_leaf)
    served holder_input holder_leaf tt tt served_ok ltac:(vm_compute; reflexivity) ltac:(vm_compute; reflexivity) eq_refl eq_refl eq_refl toy_full_complete)
    as (w & g & p & _ & _ & _ & H1 & H2 & _).
  exists p. split; [exact H1|exact H2].
Defined.
