(* ===== verification/Soroban.v ===== *)
(** * The contract host

    What the contracts ([contracts/*/src]) use of the Soroban host and of Rust's integers: a
    call that returns an error or panics leaves no trace, [require_auth] asks for the
    address's authorization of the call, arithmetic traps on overflow (the workspace sets
    [overflow-checks]), ledgers are 32-bit and amounts 128-bit numbers.  The Stellar Asset
    Contract is a class with the documented behaviour of [transfer].  Archival of storage
    entries is not modelled: every write extends the entry's life. *)
From stdpp Require Import countable.
From stdpp Require Import base tactics list sets gmap strings.
From Stdlib Require Import ZArith Lia.
From S2P Require Import Prelude JsString Bytes.
Open Scope string_scope.
Open Scope list_scope.
Open Scope Z_scope.

Definition Address : Type := string.

(** What a call sees of the ledger: its number and time, the contract called and the
    addresses that authorized the call. *)
Record Env : Type := mkEnv {
  env_sequence : Z;
  env_timestamp : Z;
  env_contract : Address;
  env_auth : Address → bool;
}.

(** ** Outcomes *)
Inductive outcome (E A : Type) : Type :=
  | Return (a : A)
  | Fail (e : E)
  | Trap.
Arguments Return {E A} a.
Arguments Fail {E A} e.
Arguments Trap {E A}.

(** A call over the storage [S]: the new storage only when it returns. *)
Definition C (S E A : Type) : Type := S → outcome E (A * S).
Global Instance C_ret S E : MRet (C S E) := λ A a s, Return (a, s).
Global Instance C_bind S E : MBind (C S E) := λ A B f m s,
  match m s with
  | Return (a, s') => f a s'
  | Fail e => Fail e
  | Trap => Trap
  end.

Section calls.
Context {S E : Type}.
Definition fail {A} (e : E) : C S E A := λ _, Fail e.
Definition trap {A} : C S E A := λ _, Trap.
Definition read {A} (f : S → A) : C S E A := λ s, Return (f s, s).
Definition write (f : S → S) : C S E unit := λ s, Return (tt, f s).
Definition ensure (b : bool) (e : E) : C S E unit := if b then mret tt else fail e.
Definition assert (b : bool) : C S E unit := if b then mret tt else trap.
Definition ok_or_fail {A} (o : option A) (e : E) : C S E A :=
  match o with Some a => mret a | None => fail e end.
Definition expect {A} (o : option A) : C S E A :=
  match o with Some a => mret a | None => trap end.
Definition require_auth (env : Env) (a : Address) : C S E unit := assert (env_auth env a).
End calls.

(** ** Integers at their width *)
Definition in_i128 (z : Z) : bool := (- 2 ^ 127 <=? z) && (z <? 2 ^ 127).
Definition in_u64 (z : Z) : bool := (0 <=? z) && (z <? 2 ^ 64).
Definition in_u32 (z : Z) : bool := (0 <=? z) && (z <? 2 ^ 32).
Definition u32_saturating_add (a b : Z) : Z := Z.min (a + b) (2 ^ 32 - 1).
Definition u32_saturating_sub (a b : Z) : Z := Z.max 0 (a - b).
Definition as_u128 (z : Z) : Z := z mod 2 ^ 128.
Definition as_i128 (z : Z) : Z := if z mod 2 ^ 128 <? 2 ^ 127 then z mod 2 ^ 128 else z mod 2 ^ 128 - 2 ^ 128.
(** An operation with overflow checks. *)
Definition i128 {S E} (z : Z) : C S E Z := if in_i128 z then mret z else trap.
Definition u64 {S E} (z : Z) : C S E Z := if in_u64 z then mret z else trap.
Definition u32 {S E} (z : Z) : C S E Z := if in_u32 z then mret z else trap.

(** ** The asset contract

    [balance t sac a] is what [a] holds at the token contract [sac].  [transfer] moves an
    amount the sender holds; it can fail for reasons of the receiver only when the receiver
    cannot hold the asset. *)
Class Sac : Type := {
  Tok : Type;
  balance : Tok → Address → Address → Z;
  sac_transfer : Address → Address → Address → Z → Tok → option Tok;
  receives : Tok → Address → Address → bool;
  balance_nonneg t sac a : 0 <= balance t sac a;
  transfer_spec t sac from to amount t' :
    sac_transfer sac from to amount t = Some t' →
    0 <= amount <= balance t sac from ∧
    ∀ s a, balance t' s a =
      balance t s a - (if decide (s = sac ∧ a = from) then amount else 0) + (if decide (s = sac ∧ a = to) then amount else 0);
  transfer_pays t sac from to amount :
    0 <= amount <= balance t sac from → receives t sac to = true → is_Some (sac_transfer sac from to amount t);
}.

(** A contract's storage beside the tokens. *)
Record HostOf (D T : Type) : Type := mkHost { h_data : D; h_tok : T }.
Arguments mkHost {D T} _ _.
Arguments h_data {D T} _.
Arguments h_tok {D T} _.
Abbreviation Host D := (HostOf D Tok).

Section host.
Context `{SC : Sac} {D E : Type}.
Definition rd {A} (f : D → A) : C (Host D) E A := read (λ h, f (h_data h)).
Definition wr (f : D → D) : C (Host D) E unit := write (λ h, mkHost (f (h_data h)) (h_tok h)).
(** [TokenClient::transfer]: the sender is the calling contract or authorized the call. *)
Definition transfer (env : Env) (sac from to : Address) (amount : Z) : C (Host D) E unit := λ h,
  if String.eqb from (env_contract env) || env_auth env from then
    match sac_transfer sac from to amount (h_tok h) with
    | Some t => Return (tt, mkHost (h_data h) t)
    | None => Trap
    end
  else Trap.
End host.

(** ** Stepping through a call that returned *)
Section steps.
Context {S E : Type}.
Lemma C_bind_return {A B} (m : C S E A) (f : A → C S E B) s b s' :
  (m ≫= f) s = Return (b, s') ↔ ∃ a s1, m s = Return (a, s1) ∧ f a s1 = Return (b, s').
Proof.
  unfold mbind, C_bind. destruct (m s) as [[a s1]| |]; split; try done; [by intros ?; exists a, s1| | |];
    by intros (?&?&[=]&?); simplify_eq.
Qed.
Lemma ensure_return (b : bool) (e : E) (s : S) a s' : ensure b e s = Return (a, s') ↔ b = true ∧ s' = s.
Proof. destruct a. unfold ensure. destruct b; cbv; naive_solver. Qed.
Lemma assert_return (b : bool) (s : S) a s' : assert (E := E) b s = Return (a, s') ↔ b = true ∧ s' = s.
Proof. destruct a. unfold assert. destruct b; cbv; naive_solver. Qed.
Lemma ok_or_fail_return {A} (o : option A) (e : E) (s : S) a s' : ok_or_fail o e s = Return (a, s') ↔ o = Some a ∧ s' = s.
Proof. destruct o; cbv; naive_solver. Qed.
Lemma expect_return {A} (o : option A) (s : S) a s' : expect (E := E) o s = Return (a, s') ↔ o = Some a ∧ s' = s.
Proof. destruct o; cbv; naive_solver. Qed.
Lemma i128_return z (s : S) a s' : i128 (E := E) z s = Return (a, s') ↔ in_i128 z = true ∧ a = z ∧ s' = s.
Proof. unfold i128. destruct (in_i128 z); cbv -[in_i128]; naive_solver. Qed.
Lemma u64_return z (s : S) a s' : u64 (E := E) z s = Return (a, s') ↔ in_u64 z = true ∧ a = z ∧ s' = s.
Proof. unfold u64. destruct (in_u64 z); cbv -[in_u64]; naive_solver. Qed.
Lemma u32_return z (s : S) a s' : u32 (E := E) z s = Return (a, s') ↔ in_u32 z = true ∧ a = z ∧ s' = s.
Proof. unfold u32. destruct (in_u32 z); cbv -[in_u32]; naive_solver. Qed.
End steps.

Lemma transfer_return `{SC : Sac} {D E} env sac from to amount (h : Host D) a h' :
  transfer (E := E) env sac from to amount h = Return (a, h') →
  h_data h' = h_data h ∧ (from = env_contract env ∨ env_auth env from = true) ∧
  sac_transfer sac from to amount (h_tok h) = Some (h_tok h').
Proof.
  unfold transfer. destruct (String.eqb_spec from (env_contract env)) as [->|]; cbn [orb].
  2: destruct (env_auth env from) eqn:?; [|done].
  all: destruct (sac_transfer _ _ _ _ _); [|done]; intros [= <- <-]; auto.
Qed.

Lemma rd_return `{SC : Sac} {D E A} (f : D → A) (h : Host D) a h' :
  rd (E := E) f h = Return (a, h') ↔ a = f (h_data h) ∧ h' = h.
Proof. cbv. naive_solver. Qed.
Lemma wr_return `{SC : Sac} {D E} (f : D → D) (h : Host D) a h' :
  wr (E := E) f h = Return (a, h') ↔ h' = mkHost (f (h_data h)) (h_tok h).
Proof. destruct a. cbv. naive_solver. Qed.
Lemma ret_return {S E A} (x : A) (s : S) a s' : (mret x : C S E A) s = Return (a, s') ↔ a = x ∧ s' = s.
Proof. cbv. naive_solver. Qed.

(** Take a call that returned apart into its steps. *)
Ltac call_step :=
  match goal with
  | H : (_ ≫= _) _ = Return _ |- _ => apply C_bind_return in H as (?&?&?&?)
  | H : require_auth _ _ _ = Return _ |- _ => apply assert_return in H as [? ->]
  | H : ensure _ _ _ = Return _ |- _ => apply ensure_return in H as [? ->]
  | H : assert _ _ = Return _ |- _ => apply assert_return in H as [? ->]
  | H : ok_or_fail _ _ _ = Return _ |- _ => apply ok_or_fail_return in H as [? ->]
  | H : expect _ _ = Return _ |- _ => apply expect_return in H as [? ->]
  | H : i128 _ _ = Return _ |- _ => apply i128_return in H as (? & -> & ->)
  | H : u64 _ _ = Return _ |- _ => apply u64_return in H as (? & -> & ->)
  | H : u32 _ _ = Return _ |- _ => apply u32_return in H as (? & -> & ->)
  | H : rd _ _ = Return _ |- _ => apply rd_return in H as [-> ->]
  | H : wr _ _ = Return _ |- _ => apply wr_return in H as ->
  | H : mret _ _ = Return _ |- _ => first [apply ret_return in H as [-> ->]|apply ret_return in H as [_ ->]]
  end.
Ltac call_steps := repeat call_step.

(** Run a call forward; what remains are the conditions of its steps. *)
Ltac call_run_step :=
  lazymatch goal with
  | |- (_ ≫= _) _ = Return _ => apply C_bind_return; do 2 eexists; split
  | |- require_auth _ _ _ = Return _ => apply (proj2 (assert_return _ _ tt _)); split; [|reflexivity]
  | |- ensure _ _ _ = Return _ => apply (proj2 (ensure_return _ _ _ tt _)); split; [|reflexivity]
  | |- assert _ _ = Return _ => apply (proj2 (assert_return _ _ tt _)); split; [|reflexivity]
  | |- ok_or_fail _ _ _ = Return _ => apply ok_or_fail_return; split; [|reflexivity]; cbn; try eassumption
  | |- expect _ _ = Return _ => apply expect_return; split; [|reflexivity]; cbn; try eassumption
  | |- i128 _ _ = Return _ => apply i128_return; split_and!; [|reflexivity..]
  | |- u64 _ _ = Return _ => apply u64_return; split_and!; [|reflexivity..]
  | |- u32 _ _ = Return _ => apply u32_return; split_and!; [|reflexivity..]
  | |- rd _ _ = Return _ => apply rd_return; split; reflexivity
  | |- wr _ _ = Return _ => apply (proj2 (wr_return _ _ tt _)); reflexivity
  | |- mret _ _ = Return _ => apply ret_return; split; reflexivity
  end.
Ltac call_run := repeat call_run_step.

(** ** Sums over a finite map *)
Definition sum_map {K V} `{Countable K} (f : K → V → Z) (m : gmap K V) : Z :=
  map_fold (λ k v acc, f k v + acc) 0 m.

Section sums.
Context {K V : Type} `{Countable K} (f : K → V → Z).
Lemma sum_map_empty : sum_map f ∅ = 0.
Proof. apply map_fold_empty. Qed.
Lemma sum_map_fresh m k v : m !! k = None → sum_map f (<[k:=v]> m) = f k v + sum_map f m.
Proof. intros Hk. apply (map_fold_insert_L (λ k v acc, f k v + acc)); [intros; lia|done]. Qed.
Lemma sum_map_insert m k v :
  sum_map f (<[k:=v]> m) = sum_map f m - match m !! k with Some w => f k w | None => 0 end + f k v.
Proof.
  rewrite <-insert_delete_eq, sum_map_fresh by apply lookup_delete_eq.
  destruct (m !! k) as [w|] eqn:E; [|rewrite delete_id by done; lia].
  rewrite <-(insert_delete_id m k w E) at 2. rewrite sum_map_fresh by apply lookup_delete_eq. lia.
Qed.
Lemma sum_map_nonneg m : (∀ k v, m !! k = Some v → 0 <= f k v) → 0 <= sum_map f m.
Proof.
  induction m as [|k v m Hk IH] using map_ind; intros Hf; [by rewrite sum_map_empty|].
  rewrite sum_map_fresh by done. assert (0 <= f k v) by (apply Hf, lookup_insert_eq).
  assert (0 <= sum_map f m); [|lia]. apply IH. intros k' v' Hk'. apply Hf.
  rewrite lookup_insert_ne; [done|]. intros ->. by rewrite Hk in Hk'.
Qed.
Lemma sum_map_zero m : (∀ k v, m !! k = Some v → f k v = 0) → sum_map f m = 0.
Proof.
  induction m as [|k v m Hk IH] using map_ind; intros Hf; [by rewrite sum_map_empty|].
  rewrite sum_map_fresh by done. rewrite (Hf k v) by apply lookup_insert_eq. apply IH. intros k' v' Hk'. apply (Hf k').
  rewrite lookup_insert_ne; [done|]. intros ->. by rewrite Hk in Hk'.
Qed.
Lemma sum_map_ge m k v : (∀ k v, m !! k = Some v → 0 <= f k v) → m !! k = Some v → f k v <= sum_map f m.
Proof.
  intros Hf Hk. rewrite <-(insert_delete_id m k v Hk), sum_map_fresh by apply lookup_delete_eq.
  assert (0 <= sum_map f (delete k m)); [|lia]. apply sum_map_nonneg.
  intros k' v' [_ Hk']%lookup_delete_Some. by apply Hf.
Qed.
End sums.

Global Instance byte_countable : Countable byte.
Proof.
  refine (inj_countable' (λ b, Byte.to_N b) (λ n, default Byte.x00 (Byte.of_N n)) _).
  intros b. by rewrite Byte.of_to_N.
Defined.

(** A token contract with nothing but balances. *)
Abbreviation ledger := (gmap (Address * Address) N).
Definition ledger_balance (t : ledger) (sac a : Address) : Z := Z.of_N (default 0%N (t !! (sac, a))).
Definition ledger_transfer (sac from to : Address) (amount : Z) (t : ledger) : option ledger :=
  if (0 <=? amount) && (amount <=? ledger_balance t sac from) then
    let t1 := <[(sac, from) := Z.to_N (ledger_balance t sac from - amount)]> t in
    Some (<[(sac, to) := Z.to_N (ledger_balance t1 sac to + amount)]> t1)
  else None.
Lemma ledger_balance_set (t : ledger) s0 a0 v s a : 0 <= v →
  ledger_balance (<[(s0, a0) := Z.to_N v]> t) s a = if decide (s = s0 ∧ a = a0) then v else ledger_balance t s a.
Proof.
  intros Hv. unfold ledger_balance. case_decide as Hd; [destruct Hd as [-> ->]; rewrite lookup_insert_eq; simpl; lia|].
  rewrite lookup_insert_ne; [done|naive_solver].
Qed.
Lemma ledger_balance_nonneg (t : ledger) s a : 0 <= ledger_balance t s a.
Proof. unfold ledger_balance. lia. Qed.
Lemma ledger_transfer_spec (t : ledger) sac from to amount t' :
  ledger_transfer sac from to amount t = Some t' →
  0 <= amount <= ledger_balance t sac from ∧
  ∀ s a, ledger_balance t' s a =
    ledger_balance t s a - (if decide (s = sac ∧ a = from) then amount else 0) + (if decide (s = sac ∧ a = to) then amount else 0).
Proof.
  unfold ledger_transfer. destruct (Z.leb_spec 0 amount), (Z.leb_spec amount (ledger_balance t sac from)); try done. intros [= <-].
  split; [lia|]. intros s a. pose proof (ledger_balance_nonneg t sac to).
  rewrite ledger_balance_set by (rewrite ledger_balance_set by lia; case_decide; lia).
  rewrite !ledger_balance_set by lia. repeat case_decide; naive_solver lia.
Qed.
Lemma ledger_transfer_pays (t : ledger) sac from to amount :
  0 <= amount <= ledger_balance t sac from → true = true → is_Some (ledger_transfer sac from to amount t).
Proof.
  intros Ha _. unfold ledger_transfer.
  destruct (Z.leb_spec 0 amount), (Z.leb_spec amount (ledger_balance t sac from)); try lia. by eexists.
Qed.
Definition ledger_sac : Sac := {|
  Tok := ledger;
  balance := ledger_balance;
  sac_transfer := ledger_transfer;
  receives _ _ _ := true;
  balance_nonneg := ledger_balance_nonneg;
  transfer_spec := ledger_transfer_spec;
  transfer_pays := ledger_transfer_pays;
|}.

(** ** Runs that are known to end *)
Definition present {A} (o : option A) : bool := match o with Some _ => true | None => false end.
Lemma present_default {A} (d : A) (o : option A) : present o = true → o = Some (default d o).
Proof. by destruct o. Qed.
Definition returned {E A} (o : outcome E A) : option A := match o with Return a => Some a | _ => None end.
Lemma returned_unit {E S} (d : S) (o : outcome E (unit * S)) :
  present (returned o) = true → o = Return (tt, default d (snd <$> returned o)).
Proof. by destruct o as [[[] s]| |]. Qed.
