(* ===== verification/RegContract.v ===== *)
(** * The relayer registry contract

    [contracts/relayer-registry/src/lib.rs] and [slashing.rs]: stakes of relayers, escrowed
    jobs and slashing.  The pool the registry calls is an interface ([PoolCall]), so that what
    is proved here holds for any pool that does not move the funds of others; [PoolContract]
    implements it.  Keccak-256 and the XDR encoders of the host are parameters. *)
From stdpp Require Import countable.
From stdpp Require Import base tactics list sets gmap strings.
From Stdlib Require Import ZArith Lia.
From S2P Require Import Prelude JsString Bytes Json PubValidate RelPayload Soroban.
Open Scope string_scope.
Open Scope list_scope.
Open Scope Z_scope.

(** ** What the registry asks of a pool *)
Record WithdrawCall : Type := mkWithdrawCall {
  wc_proof_a : list byte;
  wc_proof_b : list byte;
  wc_proof_c : list byte;
  wc_withdrawn_value : Z;
  wc_state_root : list byte;
  wc_asp_root : list byte;
  wc_nullifier_hash : list byte;
  wc_new_commitment : list byte;
  wc_recipient : Address;
  wc_fee : Z;
  wc_relayer : Address;
}.

(** Calling [withdraw] of the contract at an address: none when it fails.  A contract moves
    tokens of its own only, so nobody else's balance falls. *)
Class PoolCall (P : Type) `{Sac} : Type := {
  pool_withdraw_call : Z → Z → Address → WithdrawCall → P * Tok → option (P * Tok);
  pool_withdraw_frame seq ts addr c p t p' t' :
    pool_withdraw_call seq ts addr c (p, t) = Some (p', t') →
    ∀ sac a, a ≠ addr → balance t sac a <= balance t' sac a;
}.

Module Registry.
Definition DEFAULT_MINIMUM_STAKE : Z := 1000000.
Definition DEFAULT_UNSTAKE_COOLDOWN_LEDGERS : Z := 720.
Definition DEFAULT_MAX_DEADLINE_LEDGERS : Z := 17280.
Definition STATUS_OPEN : Z := 0.
Definition STATUS_ACCEPTED : Z := 1.
Definition STATUS_SUBMITTED : Z := 2.
Definition STATUS_SLASHED : Z := 3.
Definition STATUS_CANCELED : Z := 4.
Definition PAYLOAD_DOMAIN : string := "opaque-stellar-relay-v1".

Record RegistryConfig : Type := mkConfig {
  rc_admin : Address;
  rc_native_sac : Address;
  rc_privacy_pool : Address;
  rc_minimum_stake : Z;
  rc_unstake_cooldown_ledgers : Z;
  rc_max_deadline_ledgers : Z;
}.
Record RelayerRecord : Type := mkRelayer {
  rr_operator : Address;
  rr_x25519_pubkey : list byte;
  rr_endpoint : string;
  rr_free_stake : Z;
  rr_bonded_stake : Z;
  rr_pending_unstake : Z;
  rr_unstake_unlock_ledger : Z;
}.
Record JobRecord : Type := mkJob {
  jr_creator : Address;
  jr_payload_hash : list byte;
  jr_fee : Z;
  jr_deadline_ledger : Z;
  jr_accepted_relayer : option Address;
  jr_status : Z;
  jr_created_ledger : Z;
  jr_submitted_ledger : Z;
}.
Inductive RegistryError : Type :=
  | Unauthorized | AlreadyInitialized | NotInitialized | RelayerExists | RelayerMissing | StakeTooLow
  | BadAmount | InsufficientFreeStake | UnstakeLocked | JobExists | JobMissing | BadDeadline
  | JobNotOpen | JobNotAccepted | WrongRelayer | DeadlinePassed | DeadlineNotPassed
  | PayloadHashMismatch | AlreadyFinalized | InvalidSlashAmount | SlashProofInvalid | RelayerNotSlashed.

(** slashing.rs *)
Inductive SlashableOffense : Type := DoubleSign | InvalidSignature.
Record SlashingProof : Type := mkSlashProof {
  sp_relayer : Address;
  sp_offense : SlashableOffense;
  sp_evidence : list byte;
  sp_timestamp : Z;
  sp_reporter : Address;
}.
Record RelayerSlashRecord : Type := mkSlashRecord {
  sr_relayer : Address;
  sr_total_slashed : Z;
  sr_slash_count : Z;
  sr_last_slash_time : Z;
}.

Inductive Event : Type :=
  | RelayerRegistered (operator : Address) (stake : Z)
  | StakeAdded (operator : Address) (amount : Z)
  | UnstakeRequested (operator : Address) (amount unlock : Z)
  | StakeWithdrawn (operator : Address) (amount : Z)
  | JobCreated (job_id : list byte) (creator : Address) (fee deadline : Z)
  | JobAccepted (job_id : list byte) (operator : Address) (fee : Z)
  | JobSubmitted (job_id : list byte) (operator : Address) (fee : Z)
  | JobSlashed (job_id : list byte) (operator : Address) (fee : Z)
  | JobCanceled (job_id : list byte) (creator : Address) (fee : Z)
  | RelayerSlashed (relayer : Address) (offense : SlashableOffense) (amount : Z) (reporter : Address)
  | SlashReported (relayer : Address) (offense : SlashableOffense) (amount : Z) (reporter : Address).

(** The contract's storage, with the pools it can call. *)
Record Store (P : Type) : Type := mkStore {
  rg_config : option RegistryConfig;
  rg_relayers : gmap Address RelayerRecord;
  rg_jobs : gmap (list byte) JobRecord;
  rg_slash_records : gmap Address RelayerSlashRecord;
  rg_original_stakes : gmap Address Z;
  rg_events : list Event;
  rg_pools : P;
}.
Arguments mkStore {P}.
Arguments rg_config {P}.
Arguments rg_relayers {P}.
Arguments rg_jobs {P}.
Arguments rg_slash_records {P}.
Arguments rg_original_stakes {P}.
Arguments rg_events {P}.
Arguments rg_pools {P}.

Section registry.
Context `{SC : Sac} {P : Type} {PC : PoolCall P}.
Context (keccak256 : list byte → list byte) (address_to_xdr : Address → list byte) (symbol_to_xdr : string → list byte).

Abbreviation M := (C (Host (Store P)) RegistryError).

(** ** Storage *)
Definition set_config_entry (c : RegistryConfig) (s : Store P) : Store P :=
  mkStore (Some c) (rg_relayers s) (rg_jobs s) (rg_slash_records s) (rg_original_stakes s) (rg_events s) (rg_pools s).
Definition cfg : M RegistryConfig := c ← rd rg_config; ok_or_fail c NotInitialized.
Definition require_admin (env : Env) (admin : Address) : M RegistryConfig :=
  require_auth env admin;;
  config ← cfg;
  ensure (String.eqb (rc_admin config) admin) Unauthorized;;
  mret config.
Definition read_relayer (operator : Address) : M RelayerRecord :=
  r ← rd (λ s, rg_relayers s !! operator); ok_or_fail r RelayerMissing.
Definition write_relayer (record : RelayerRecord) : M unit :=
  wr (λ s, mkStore (rg_config s) (<[rr_operator record := record]> (rg_relayers s)) (rg_jobs s)
             (rg_slash_records s) (rg_original_stakes s) (rg_events s) (rg_pools s)).
Definition read_job (job_id : list byte) : M JobRecord :=
  j ← rd (λ s, rg_jobs s !! job_id); ok_or_fail j JobMissing.
Definition write_job (job_id : list byte) (job : JobRecord) : M unit :=
  wr (λ s, mkStore (rg_config s) (rg_relayers s) (<[job_id := job]> (rg_jobs s))
             (rg_slash_records s) (rg_original_stakes s) (rg_events s) (rg_pools s)).
Definition publish (e : Event) : M unit :=
  wr (λ s, mkStore (rg_config s) (rg_relayers s) (rg_jobs s) (rg_slash_records s)
             (rg_original_stakes s) (rg_events s ++ [e]) (rg_pools s)).
Definition token_transfer (env : Env) (sac from to : Address) (amount : Z) : M unit :=
  if 0 <? amount then transfer env sac from to amount else mret tt.

(** ** Set-up *)
Definition or_default (v d : Z) : Z := if 0 <? v then v else d.
Definition initialize (env : Env) (admin native_sac privacy_pool : Address)
    (minimum_stake unstake_cooldown_ledgers max_deadline_ledgers : Z) : M unit :=
  require_auth env admin;;
  c ← rd rg_config;
  ensure (negb (bool_decide (is_Some c))) AlreadyInitialized;;
  wr (set_config_entry (mkConfig admin native_sac privacy_pool (or_default minimum_stake DEFAULT_MINIMUM_STAKE)
        (or_default unstake_cooldown_ledgers DEFAULT_UNSTAKE_COOLDOWN_LEDGERS)
        (or_default max_deadline_ledgers DEFAULT_MAX_DEADLINE_LEDGERS))).

Definition set_config (env : Env) (admin : Address) (minimum_stake unstake_cooldown_ledgers max_deadline_ledgers : Z) : M unit :=
  config ← require_admin env admin;
  ensure (negb ((minimum_stake <=? 0) || (unstake_cooldown_ledgers =? 0) || (max_deadline_ledgers =? 0))) BadAmount;;
  wr (set_config_entry (mkConfig (rc_admin config) (rc_native_sac config) (rc_privacy_pool config)
        minimum_stake unstake_cooldown_ledgers max_deadline_ledgers)).

Definition transfer_admin (env : Env) (admin new_admin : Address) : M unit :=
  config ← require_admin env admin;
  wr (set_config_entry (mkConfig new_admin (rc_native_sac config) (rc_privacy_pool config)
        (rc_minimum_stake config) (rc_unstake_cooldown_ledgers config) (rc_max_deadline_ledgers config))).

(** ** Stake *)
Definition with_stake (r : RelayerRecord) (free bonded pending unlock : Z) : RelayerRecord :=
  mkRelayer (rr_operator r) (rr_x25519_pubkey r) (rr_endpoint r) free bonded pending unlock.

Definition register (env : Env) (operator : Address) (x25519_pubkey : list byte) (endpoint : string) (stake : Z) : M unit :=
  require_auth env operator;;
  config ← cfg;
  ensure (negb (stake <? rc_minimum_stake config)) StakeTooLow;;
  r ← rd (λ s, rg_relayers s !! operator);
  ensure (negb (bool_decide (is_Some r))) RelayerExists;;
  token_transfer env (rc_native_sac config) operator (env_contract env) stake;;
  write_relayer (mkRelayer operator x25519_pubkey endpoint stake 0 0 0);;
  publish (RelayerRegistered operator stake).

Definition add_stake (env : Env) (operator : Address) (amount : Z) : M unit :=
  require_auth env operator;;
  ensure (negb (amount <=? 0)) BadAmount;;
  config ← cfg;
  relayer ← read_relayer operator;
  token_transfer env (rc_native_sac config) operator (env_contract env) amount;;
  free ← i128 (rr_free_stake relayer + amount);
  write_relayer (with_stake relayer free (rr_bonded_stake relayer) (rr_pending_unstake relayer) (rr_unstake_unlock_ledger relayer));;
  publish (StakeAdded operator amount).

Definition request_unstake (env : Env) (operator : Address) (amount : Z) : M unit :=
  require_auth env operator;;
  ensure (negb (amount <=? 0)) BadAmount;;
  config ← cfg;
  relayer ← read_relayer operator;
  ensure (negb (rr_free_stake relayer <? amount)) InsufficientFreeStake;;
  free ← i128 (rr_free_stake relayer - amount);
  pending ← i128 (rr_pending_unstake relayer + amount);
  let unlock := u32_saturating_add (env_sequence env) (rc_unstake_cooldown_ledgers config) in
  write_relayer (with_stake relayer free (rr_bonded_stake relayer) pending unlock);;
  publish (UnstakeRequested operator amount unlock).

Definition withdraw_stake (env : Env) (operator : Address) : M unit :=
  require_auth env operator;;
  config ← cfg;
  relayer ← read_relayer operator;
  ensure (negb (rr_pending_unstake relayer <=? 0)) BadAmount;;
  ensure (negb (env_sequence env <? rr_unstake_unlock_ledger relayer)) UnstakeLocked;;
  let amount := rr_pending_unstake relayer in
  write_relayer (with_stake relayer (rr_free_stake relayer) (rr_bonded_stake relayer) 0 0);;
  token_transfer env (rc_native_sac config) (env_contract env) operator amount;;
  publish (StakeWithdrawn operator amount).

(** ** Jobs *)
Definition with_status (j : JobRecord) (relayer : option Address) (status submitted : Z) : JobRecord :=
  mkJob (jr_creator j) (jr_payload_hash j) (jr_fee j) (jr_deadline_ledger j) relayer status (jr_created_ledger j) submitted.

Definition create_job (env : Env) (creator : Address) (job_id payload_hash : list byte) (deadline_ledger fee : Z) : M unit :=
  require_auth env creator;;
  ensure (negb (fee <=? 0)) BadAmount;;
  config ← cfg;
  let now := env_sequence env in
  ensure (negb ((deadline_ledger <=? now) || (rc_max_deadline_ledgers config <? u32_saturating_sub deadline_ledger now))) BadDeadline;;
  j ← rd (λ s, rg_jobs s !! job_id);
  ensure (negb (bool_decide (is_Some j))) JobExists;;
  token_transfer env (rc_native_sac config) creator (env_contract env) fee;;
  write_job job_id (mkJob creator payload_hash fee deadline_ledger None STATUS_OPEN now 0);;
  publish (JobCreated job_id creator fee deadline_ledger).

Definition accept_job (env : Env) (operator : Address) (job_id : list byte) : M unit :=
  require_auth env operator;;
  job ← read_job job_id;
  ensure (jr_status job =? STATUS_OPEN) JobNotOpen;;
  ensure (negb (jr_deadline_ledger job <=? env_sequence env)) DeadlinePassed;;
  relayer ← read_relayer operator;
  ensure (negb (rr_free_stake relayer <? jr_fee job)) InsufficientFreeStake;;
  free ← i128 (rr_free_stake relayer - jr_fee job);
  bonded ← i128 (rr_bonded_stake relayer + jr_fee job);
  write_relayer (with_stake relayer free bonded (rr_pending_unstake relayer) (rr_unstake_unlock_ledger relayer));;
  write_job job_id (with_status job (Some operator) STATUS_ACCEPTED (jr_submitted_ledger job));;
  publish (JobAccepted job_id operator (jr_fee job)).

Definition i128_to_be_bytes (z : Z) : list byte := be_bytes 16 (as_u128 z).
Definition pool_withdraw_payload_hash (privacy_pool : Address) (c : WithdrawCall) : list byte :=
  keccak256 (concat [utf8 PAYLOAD_DOMAIN; address_to_xdr privacy_pool; symbol_to_xdr "withdraw";
    wc_proof_a c; wc_proof_b c; wc_proof_c c; i128_to_be_bytes (wc_withdrawn_value c);
    wc_state_root c; wc_asp_root c; wc_nullifier_hash c; wc_new_commitment c;
    address_to_xdr (wc_recipient c); i128_to_be_bytes (wc_fee c); address_to_xdr (wc_relayer c)]).
Definition hash_pool_withdraw_payload (c : WithdrawCall) : M (list byte) :=
  config ← cfg; mret (pool_withdraw_payload_hash (rc_privacy_pool config) c).

(** [env.invoke_contract] of the pool: a contract cannot re-enter itself. *)
Definition invoke_pool_withdraw (env : Env) (privacy_pool : Address) (c : WithdrawCall) : M unit := λ h,
  if String.eqb privacy_pool (env_contract env) then Trap
  else match pool_withdraw_call (env_sequence env) (env_timestamp env) privacy_pool c (rg_pools (h_data h), h_tok h) with
       | Some (p, t) =>
           let s := h_data h in
           Return (tt, mkHost (mkStore (rg_config s) (rg_relayers s) (rg_jobs s) (rg_slash_records s)
                                 (rg_original_stakes s) (rg_events s) p) t)
       | None => Trap
       end.

Definition submit_pool_withdraw (env : Env) (operator : Address) (job_id : list byte) (c : WithdrawCall) : M unit :=
  require_auth env operator;;
  config ← cfg;
  job ← read_job job_id;
  ensure (jr_status job =? STATUS_ACCEPTED) JobNotAccepted;;
  ensure (bool_decide (jr_accepted_relayer job = Some operator)) WrongRelayer;;
  ensure (negb (jr_deadline_ledger job <=? env_sequence env)) DeadlinePassed;;
  ensure (bool_decide (pool_withdraw_payload_hash (rc_privacy_pool config) c = jr_payload_hash job)) PayloadHashMismatch;;
  invoke_pool_withdraw env (rc_privacy_pool config) c;;
  relayer ← read_relayer operator;
  bonded ← i128 (rr_bonded_stake relayer - jr_fee job);
  free ← i128 (rr_free_stake relayer + jr_fee job);
  write_relayer (with_stake relayer free bonded (rr_pending_unstake relayer) (rr_unstake_unlock_ledger relayer));;
  write_job job_id (with_status job (jr_accepted_relayer job) STATUS_SUBMITTED (env_sequence env));;
  token_transfer env (rc_native_sac config) (env_contract env) operator (jr_fee job);;
  publish (JobSubmitted job_id operator (jr_fee job)).

(** The pending unstake of a slashed relayer, and its unlock ledger. *)
Definition slash_pending (r : RelayerRecord) (fee : Z) : Z * Z :=
  if 0 <? rr_pending_unstake r then
    let pending := rr_pending_unstake r - Z.min (rr_pending_unstake r) fee in
    (pending, if pending =? 0 then 0 else rr_unstake_unlock_ledger r)
  else (rr_pending_unstake r, rr_unstake_unlock_ledger r).

Definition slash_job (env : Env) (creator : Address) (job_id : list byte) : M unit :=
  require_auth env creator;;
  config ← cfg;
  job ← read_job job_id;
  ensure (String.eqb (jr_creator job) creator) Unauthorized;;
  ensure (jr_status job =? STATUS_ACCEPTED) JobNotAccepted;;
  ensure (negb (env_sequence env <=? jr_deadline_ledger job)) DeadlineNotPassed;;
  operator ← ok_or_fail (jr_accepted_relayer job) JobNotAccepted;
  relayer ← read_relayer operator;
  bonded ← i128 (rr_bonded_stake relayer - jr_fee job);
  let '(pending, unlock) := slash_pending relayer (jr_fee job) in
  write_relayer (with_stake relayer (rr_free_stake relayer) bonded pending unlock);;
  write_job job_id (with_status job (jr_accepted_relayer job) STATUS_SLASHED (jr_submitted_ledger job));;
  twice ← i128 (jr_fee job * 2);
  token_transfer env (rc_native_sac config) (env_contract env) creator twice;;
  publish (JobSlashed job_id operator (jr_fee job)).

Definition cancel_job (env : Env) (creator : Address) (job_id : list byte) : M unit :=
  require_auth env creator;;
  config ← cfg;
  job ← read_job job_id;
  ensure (String.eqb (jr_creator job) creator) Unauthorized;;
  ensure (jr_status job =? STATUS_OPEN) JobNotOpen;;
  ensure (negb (env_sequence env <=? jr_deadline_ledger job)) DeadlineNotPassed;;
  write_job job_id (with_status job (jr_accepted_relayer job) STATUS_CANCELED (jr_submitted_ledger job));;
  token_transfer env (rc_native_sac config) (env_contract env) creator (jr_fee job);;
  publish (JobCanceled job_id creator (jr_fee job)).

(** ** Reported offences *)
Definition verify_double_sign_evidence (evidence : list byte) : bool :=
  (length evidence =? 128)%nat && negb (bool_decide (take 64 evidence = drop 64 evidence)).
Definition verify_invalid_signature_evidence (evidence : list byte) : bool :=
  (length evidence =? 96)%nat && negb (forallb (λ b, byte_val b =? 0) (take 64 evidence))
  && negb (forallb (λ b, byte_val b =? 255) (take 64 evidence)).
Definition verify_slash_proof (proof : SlashingProof) : bool :=
  match sp_offense proof with
  | DoubleSign => verify_double_sign_evidence (sp_evidence proof)
  | InvalidSignature => verify_invalid_signature_evidence (sp_evidence proof)
  end.

Definition slash_relayer (env : Env) (proof : SlashingProof) (slash_amount : Z) : M unit :=
  ensure (verify_slash_proof proof) SlashProofInvalid;;
  ensure (negb (slash_amount =? 0)) InvalidSlashAmount;;
  o ← rd (λ s, rg_slash_records s !! sp_relayer proof);
  let record := default (mkSlashRecord (sp_relayer proof) 0 0 0) o in
  let record' := mkSlashRecord (sr_relayer record) (Z.min (sr_total_slashed record + slash_amount) (2 ^ 128 - 1))
                   (u32_saturating_add (sr_slash_count record) 1) (env_timestamp env) in
  wr (λ s, mkStore (rg_config s) (rg_relayers s) (rg_jobs s) (<[sp_relayer proof := record']> (rg_slash_records s))
             (rg_original_stakes s) (rg_events s) (rg_pools s));;
  publish (RelayerSlashed (sp_relayer proof) (sp_offense proof) slash_amount (sp_reporter proof)).

(** What a report takes from the bonded and from the free stake. *)
Definition slashed_stakes (r : RelayerRecord) (slash_u128 : Z) : Z * Z :=
  let actual_slash := Z.min slash_u128 (as_u128 (rr_bonded_stake r)) in
  let remaining := slash_u128 - actual_slash in
  (rr_bonded_stake r - as_i128 actual_slash,
   if 0 <? remaining then rr_free_stake r - as_i128 (Z.min remaining (as_u128 (rr_free_stake r))) else rr_free_stake r).

Definition report_slash (env : Env) (proof : SlashingProof) (slash_amount : Z) : M unit :=
  ensure (negb (slash_amount <=? 0)) InvalidSlashAmount;;
  let slash_u128 := as_u128 slash_amount in
  slash_relayer env proof slash_u128;;
  config ← cfg;
  relayer ← read_relayer (sp_relayer proof);
  let '(bonded, free) := slashed_stakes relayer slash_u128 in
  bonded ← i128 bonded;
  free ← i128 free;
  write_relayer (with_stake relayer free bonded (rr_pending_unstake relayer) (rr_unstake_unlock_ledger relayer));;
  token_transfer env (rc_native_sac config) (env_contract env) (sp_reporter proof) slash_amount;;
  publish (SlashReported (sp_relayer proof) (sp_offense proof) slash_amount (sp_reporter proof)).

(** ** Views *)
Definition get_unbonding_status (env : Env) (operator : Address) : M (Z * Z * bool) :=
  relayer ← read_relayer operator;
  mret (rr_pending_unstake relayer, rr_unstake_unlock_ledger relayer,
        (0 <? rr_pending_unstake relayer) && (rr_unstake_unlock_ledger relayer <=? env_sequence env)).
Definition get_slashing_percentage (relayer : Address) : M Z :=
  r ← rd (λ s, rg_slash_records s !! relayer);
  o ← rd (λ s, rg_original_stakes s !! relayer);
  match r, o with
  | Some record, Some original =>
      if original =? 0 then mret 0
      else assert (sr_total_slashed record * 10000 <? 2 ^ 128);;
           mret ((sr_total_slashed record * 10000 / original) mod 2 ^ 64)
  | _, _ => mret 0
  end.
End registry.
End Registry.
