(* ===== verification/RegProofs.v ===== *)
(** * The relayer registry: solvency and the life of a job

    What the registry contract guarantees to those whose tokens it holds: as long as nobody
    calls [report_slash], its balance covers every stake and every escrowed fee, bonds are
    exactly the fees of accepted jobs, and what it owes can be taken out.  [report_slash]
    breaks this, for anybody. *)
From stdpp Require Import countable.
From stdpp Require Import base tactics list sets gmap strings relations.
From Stdlib Require Import ZArith Lia.
From S2P Require Import Prelude JsString Bytes Json PubValidate RelPayload Soroban RegContract.
Import Registry.
Open Scope string_scope.
Open Scope list_scope.
Open Scope Z_scope.


(** ** What the registry owes *)
Definition stake_total (r : RelayerRecord) : Z := rr_free_stake r + rr_bonded_stake r + rr_pending_unstake r.
Definition escrow (j : JobRecord) : Z :=
  if (jr_status j =? STATUS_OPEN) || (jr_status j =? STATUS_ACCEPTED) then jr_fee j else 0.
Definition bond (op : Address) (j : JobRecord) : Z :=
  if (jr_status j =? STATUS_ACCEPTED) && bool_decide (jr_accepted_relayer j = Some op) then jr_fee j else 0.
Definition owed {P} (s : Store P) : Z :=
  sum_map (λ _, stake_total) (rg_relayers s) + sum_map (λ _, escrow) (rg_jobs s).

Section solvency.
Context `{SC : Sac} {P : Type} {PC : PoolCall P}.
Context (keccak256 : list byte → list byte) (address_to_xdr : Address → list byte) (symbol_to_xdr : string → list byte).
Context (self : Address).
Abbreviation World := (Host (Store P)).

Record registry_ok (h : World) : Prop := {
  ok_relayer k r : rg_relayers (h_data h) !! k = Some r →
    rr_operator r = k ∧ 0 <= rr_free_stake r ∧ 0 <= rr_pending_unstake r ∧
    rr_bonded_stake r = sum_map (λ _, bond k) (rg_jobs (h_data h));
  ok_job id j : rg_jobs (h_data h) !! id = Some j →
    0 < jr_fee j ∧ (jr_status j = STATUS_ACCEPTED → ∃ op, jr_accepted_relayer j = Some op ∧ is_Some (rg_relayers (h_data h) !! op));
  ok_funds : match rg_config (h_data h) with
             | Some c => 0 < rc_minimum_stake c ∧ owed (h_data h) <= balance (h_tok h) (rc_native_sac c) self
             | None => rg_relayers (h_data h) = ∅ ∧ rg_jobs (h_data h) = ∅
             end;
}.

Lemma bond_nonneg h k : registry_ok h → 0 <= sum_map (λ _, bond k) (rg_jobs (h_data h)).
Proof. intros [_ Hj _]. apply sum_map_nonneg. intros id j [Hf _]%Hj. unfold bond. destruct (_ && _); lia. Qed.
Lemma escrow_nonneg h : registry_ok h → ∀ id j, rg_jobs (h_data h) !! id = Some j → 0 <= escrow j.
Proof. intros [_ Hj _] id j [Hf _]%Hj. unfold escrow. destruct (_ || _); lia. Qed.
Lemma stake_nonneg h : registry_ok h → ∀ k r, rg_relayers (h_data h) !! k = Some r → 0 <= stake_total r.
Proof.
  intros Hok k r Hr. pose proof (bond_nonneg _ k Hok) as Hb. destruct Hok as [Hk _ _]. destruct (Hk k r Hr) as (_ & ? & ? & Hb').
  unfold stake_total. lia.
Qed.

(** One relayer's entry and one job's entry change, and the balance follows. *)
Lemma registry_ok_update h h' c op r' id j' :
  registry_ok h → rg_config (h_data h) = Some c → rg_config (h_data h') = Some c →
  rg_relayers (h_data h') = <[op:=r']> (rg_relayers (h_data h)) →
  rg_jobs (h_data h') = <[id:=j']> (rg_jobs (h_data h)) →
  rr_operator r' = op → 0 <= rr_free_stake r' → 0 <= rr_pending_unstake r' →
  0 < jr_fee j' → (jr_status j' = STATUS_ACCEPTED → jr_accepted_relayer j' = Some op) →
  (∀ k, k ≠ op → bond k j' = match rg_jobs (h_data h) !! id with Some j => bond k j | None => 0 end) →
  rr_bonded_stake r' =
    sum_map (λ _, bond op) (rg_jobs (h_data h)) - match rg_jobs (h_data h) !! id with Some j => bond op j | None => 0 end + bond op j' →
  balance (h_tok h) (rc_native_sac c) self
    + (stake_total r' - match rg_relayers (h_data h) !! op with Some r => stake_total r | None => 0 end)
    + (escrow j' - match rg_jobs (h_data h) !! id with Some j => escrow j | None => 0 end) <= balance (h_tok h') (rc_native_sac c) self →
  registry_ok h'.
Proof.
  intros [Hr Hj Hf] Hc Ec Er Ej Hop Hfree Hpend Hfee Hacc Hother Hbond Hbal. split.
  - intros k r. rewrite Er, Ej, (sum_map_insert (λ _, bond k)). intros [[<- <-]|[Hne Hk]]%lookup_insert_Some; [done|].
    destruct (Hr k r Hk) as (? & ? & ? & ->). rewrite Hother by done. split_and!; [done..|].
    destruct (rg_jobs (h_data h) !! id); lia.
  - intros id2 j. rewrite Er, Ej. intros [[<- <-]|[Hne Hk]]%lookup_insert_Some.
    + split; [done|]. intros Hs. exists op. split; [by apply Hacc|]. rewrite lookup_insert_eq. by eexists.
    + destruct (Hj id2 j Hk) as [? Ha]. split; [done|]. intros (op2 & ? & ?)%Ha. exists op2. split; [done|].
      rewrite lookup_insert_is_Some'. by right.
  - rewrite Ec. rewrite Hc in Hf. destruct Hf as [Hms Hf]. split; [done|]. unfold owed in *. rewrite Er, Ej, !sum_map_insert.
    destruct (rg_relayers (h_data h) !! op), (rg_jobs (h_data h) !! id); lia.
Qed.
Lemma registry_ok_relayer h h' c op r' :
  registry_ok h → rg_config (h_data h) = Some c → rg_config (h_data h') = Some c →
  rg_relayers (h_data h') = <[op:=r']> (rg_relayers (h_data h)) → rg_jobs (h_data h') = rg_jobs (h_data h) →
  rr_operator r' = op → 0 <= rr_free_stake r' → 0 <= rr_pending_unstake r' →
  rr_bonded_stake r' = match rg_relayers (h_data h) !! op with Some r => rr_bonded_stake r | None => 0 end →
  balance (h_tok h) (rc_native_sac c) self
    + (stake_total r' - match rg_relayers (h_data h) !! op with Some r => stake_total r | None => 0 end)
    <= balance (h_tok h') (rc_native_sac c) self →
  registry_ok h'.
Proof.
  intros [Hr Hj Hf] Hc Ec Er Ej Hop Hfree Hpend Hbond Hbal. split.
  - intros k r. rewrite Er, Ej. intros [[<- <-]|[Hne Hk]]%lookup_insert_Some; [|by apply Hr].
    split_and!; [done..|]. rewrite Hbond. destruct (rg_relayers (h_data h) !! op) as [r|] eqn:E; [by destruct (Hr op r E) as (_ & _ & _ & ->)|].
    symmetry. apply sum_map_zero. intros id j [_ Ha]%Hj. unfold bond. destruct (Z.eqb_spec (jr_status j) STATUS_ACCEPTED) as [Hs|]; [|done].
    destruct (Ha Hs) as (op2 & -> & [? H2]). rewrite bool_decide_eq_false_2; [done|]. intros [= ->]. congruence.
  - intros id2 j. rewrite Er, Ej. intros Hk. destruct (Hj id2 j Hk) as [? Ha]. split; [done|]. intros (op2 & ? & ?)%Ha.
    exists op2. split; [done|]. rewrite lookup_insert_is_Some'. by right.
  - rewrite Ec. rewrite Hc in Hf. destruct Hf as [Hms Hf]. split; [done|]. unfold owed in *. rewrite Er, Ej, !sum_map_insert. destruct (rg_relayers (h_data h) !! op); lia.
Qed.

Lemma registry_ok_open_job h h' c id j' :
  registry_ok h → rg_config (h_data h) = Some c → rg_config (h_data h') = Some c →
  rg_relayers (h_data h') = rg_relayers (h_data h) → rg_jobs (h_data h') = <[id:=j']> (rg_jobs (h_data h)) →
  0 < jr_fee j' → jr_status j' ≠ STATUS_ACCEPTED →
  match rg_jobs (h_data h) !! id with Some j => jr_status j ≠ STATUS_ACCEPTED | None => True end →
  balance (h_tok h) (rc_native_sac c) self
    + (escrow j' - match rg_jobs (h_data h) !! id with Some j => escrow j | None => 0 end)
    <= balance (h_tok h') (rc_native_sac c) self →
  registry_ok h'.
Proof.
  intros [Hr Hj Hf] Hc Ec Er Ej Hfee Hna Hno Hbal.
  assert (Hz : ∀ k j, jr_status j ≠ STATUS_ACCEPTED → bond k j = 0).
  { intros k j Hs. unfold bond. by destruct (Z.eqb_spec (jr_status j) STATUS_ACCEPTED). }
  split.
  - intros k r. rewrite Er, Ej, (sum_map_insert (λ _, bond k)). intros Hk. destruct (Hr k r Hk) as (? & ? & ? & ->). split_and!; [done..|].
    rewrite (Hz k j') by done. destruct (rg_jobs (h_data h) !! id); [rewrite Hz by done; lia|lia].
  - intros id2 j. rewrite Er, Ej. intros [[<- <-]|[Hne Hk]]%lookup_insert_Some; [done|by eapply Hj].
  - rewrite Ec. rewrite Hc in Hf. destruct Hf as [Hms Hf]. split; [done|]. unfold owed in *. rewrite Er, Ej, !sum_map_insert. destruct (rg_jobs (h_data h) !! id); lia.
Qed.

(** *** Every call but [report_slash] keeps the invariant *)
Ltac reg_steps := unfold require_admin, cfg, read_relayer, write_relayer, read_job, write_job, publish in *; call_steps; simpl in *.

Lemma token_transfer_return env sac from to amount (h : World) u h' :
  token_transfer env sac from to amount h = Return (u, h') →
  h_data h' = h_data h ∧ (0 < amount → from = env_contract env ∨ env_auth env from = true) ∧
  ∀ s a, balance (h_tok h') s a = balance (h_tok h) s a
    - (if decide (s = sac ∧ a = from) then Z.max 0 amount else 0) + (if decide (s = sac ∧ a = to) then Z.max 0 amount else 0).
Proof.
  unfold token_transfer. destruct (Z.ltb_spec 0 amount) as [Hp|Hn].
  - intros (Hd & Ha & Ht)%transfer_return. split; [done|]. split; [done|]. intros s a. apply transfer_spec in Ht as [_ ->].
    rewrite Z.max_r by lia. done.
  - intros [_ ->]%ret_return. split; [done|]. split; [lia|]. intros s a. rewrite Z.max_l by lia. repeat case_decide; lia.
Qed.

Lemma not_self env a : env_auth env self = false → env_auth env a = true → a ≠ self.
Proof. congruence. Qed.

(** The steps of a call with one transfer, and the balances after it. *)
Ltac reg_call :=
  reg_steps;
  try match goal with H : token_transfer _ _ _ _ _ _ = Return _ |- _ =>
    let Hd := fresh "Hdata" in let Hb := fresh "Hbal" in apply token_transfer_return in H as (Hd & _ & Hb); simpl in Hd, Hb; try rewrite Hd in * end;
  repeat match goal with Ha : env_auth ?e ?a = true, Hs : env_auth ?e self = false |- _ =>
    lazymatch goal with _ : a ≠ self |- _ => fail | _ => pose proof (not_self e a Hs Ha) end end.
Ltac balances := repeat match goal with Hb : ∀ s a, balance _ s a = _ |- _ => rewrite ?Hb; clear Hb end; repeat case_decide; simplify_eq; try naive_solver; lia.

Lemma ok_config h c : registry_ok h → rg_config (h_data h) = Some c →
  0 < rc_minimum_stake c ∧ owed (h_data h) <= balance (h_tok h) (rc_native_sac c) self.
Proof. intros [_ _ Hf] Hc. by rewrite Hc in Hf. Qed.

Lemma register_ok env operator key endpoint stake h u h' :
  env_contract env = self → env_auth env self = false → registry_ok h →
  register env operator key endpoint stake h = Return (u, h') → registry_ok h'.
Proof.
  intros He Hauth Hok H. unfold register in H. reg_call.
  destruct (ok_config h _ Hok ltac:(eassumption)) as [Hms _].
  eapply (registry_ok_relayer h); [done|done|done|done|done|done|simpl; lia|simpl; lia| |]; simpl;
   destruct (rg_relayers (h_data h) !! operator); try done.
  unfold stake_total. simpl. balances.
Qed.

(** The entry a call read, with what the invariant says of it. *)
Ltac the_relayer :=
  match goal with Hok : registry_ok ?h, Hr : rg_relayers _ !! _ = Some ?r |- _ =>
    destruct (ok_relayer h Hok _ _ Hr) as (Hop & Hfree & Hpend & Hbond); rename Hr into Hget; rename r into rel end.
Ltac the_job :=
  match goal with Hok : registry_ok ?h, Hj : rg_jobs _ !! _ = Some ?j |- _ =>
    destruct (ok_job h Hok _ _ Hj) as (Hfee & Hacc); rename Hj into Hjob; rename j into job end.

Lemma add_stake_ok env operator amount h u h' :
  env_contract env = self → env_auth env self = false → registry_ok h →
  add_stake env operator amount h = Return (u, h') → registry_ok h'.
Proof.
  intros He Hauth Hok H. unfold add_stake in H. reg_call.
  the_relayer.
  eapply (registry_ok_relayer h); [done|done|done|simpl; by rewrite Hop|done|done|simpl; lia|simpl; lia| |]; simpl; rewrite ?Hop, Hget; [done|].
  unfold stake_total. simpl. balances.
Qed.

Lemma request_unstake_ok env operator amount h u h' :
  env_contract env = self → env_auth env self = false → registry_ok h →
  request_unstake env operator amount h = Return (u, h') → registry_ok h'.
Proof.
  intros He Hauth Hok H. unfold request_unstake in H. reg_call. the_relayer.
  eapply (registry_ok_relayer h); [done|done|done|simpl; by rewrite Hop|done|done|simpl; lia|simpl; lia| |]; simpl; rewrite ?Hop, Hget; [done|].
  unfold stake_total. simpl. lia.
Qed.

Lemma withdraw_stake_ok env operator h u h' :
  env_contract env = self → env_auth env self = false → registry_ok h →
  withdraw_stake env operator h = Return (u, h') → registry_ok h'.
Proof.
  intros He Hauth Hok H. unfold withdraw_stake in H. reg_call. the_relayer.
  eapply (registry_ok_relayer h); [done|done|done|simpl; by rewrite Hop|done|done|simpl; lia|simpl; lia| |]; simpl; rewrite ?Hop, Hget; [done|].
  unfold stake_total. simpl. balances.
Qed.

Lemma create_job_ok env creator id hash deadline fee h u h' :
  env_contract env = self → env_auth env self = false → registry_ok h →
  create_job env creator id hash deadline fee h = Return (u, h') → registry_ok h'.
Proof.
  intros He Hauth Hok H. unfold create_job in H. reg_call.
  eapply (registry_ok_open_job h); [done|done|done|done|done|simpl; lia|done| |]; simpl;
    destruct (rg_jobs (h_data h) !! id); try done.
  unfold escrow. simpl. balances.
Qed.

Lemma cancel_job_ok env creator id h u h' :
  env_contract env = self → env_auth env self = false → registry_ok h →
  cancel_job env creator id h = Return (u, h') → registry_ok h'.
Proof.
  intros He Hauth Hok H. unfold cancel_job in H. reg_call. the_job.
  assert (Hs : jr_status job = STATUS_OPEN) by lia.
  eapply (registry_ok_open_job h); [done|done|done|done|done|simpl; lia|done| |]; simpl; rewrite Hjob, ?Hs; [done|].
  unfold escrow. simpl. rewrite Hs. simpl. balances.
Qed.

Lemma config_exists h id j : registry_ok h → rg_jobs (h_data h) !! id = Some j → is_Some (rg_config (h_data h)).
Proof. intros [_ _ Hf] Hj. destruct (rg_config (h_data h)); [by eexists|]. destruct Hf as [_ E]. by rewrite E in Hj. Qed.
Lemma bond_other k j : jr_status j ≠ STATUS_ACCEPTED → bond k j = 0.
Proof. intros Hs. unfold bond. by destruct (Z.eqb_spec (jr_status j) STATUS_ACCEPTED). Qed.
Lemma bond_accepted k op j : jr_status j = STATUS_ACCEPTED → jr_accepted_relayer j = Some op →
  bond k j = if decide (k = op) then jr_fee j else 0.
Proof.
  intros Hs Ha. unfold bond. rewrite Hs, Ha. cbn [STATUS_ACCEPTED Z.eqb Pos.eqb andb].
  case_decide; [subst; by rewrite bool_decide_eq_true_2|]. rewrite bool_decide_eq_false_2; [done|congruence].
Qed.

Lemma accept_job_ok env operator id h u h' :
  env_contract env = self → env_auth env self = false → registry_ok h →
  accept_job env operator id h = Return (u, h') → registry_ok h'.
Proof.
  intros He Hauth Hok H. unfold accept_job in H. reg_call. the_relayer. the_job. destruct (config_exists _ _ _ Hok Hjob) as [c Hc].
  assert (Hs : jr_status job = STATUS_OPEN) by lia.
  eapply (registry_ok_update h _ c operator _ id); [done|done|done|simpl; by rewrite Hop|done|done|simpl; lia|simpl; lia|simpl; lia|done|..]; simpl; rewrite ?Hget, Hjob.
  - intros k Hk. rewrite (bond_other _ job) by (by rewrite Hs). rewrite (bond_accepted k operator) by done. by rewrite decide_False.
  - rewrite (bond_other _ job) by (by rewrite Hs). rewrite (bond_accepted operator operator), decide_True by done. simpl. lia.
  - unfold stake_total, escrow. simpl. rewrite Hs. simpl. lia.
Qed.

Lemma slash_pending_range r fee p l : 0 <= rr_pending_unstake r → 0 < fee → slash_pending r fee = (p, l) → 0 <= p <= rr_pending_unstake r.
Proof. unfold slash_pending. destruct (0 <? _); intros ? ? [= <- <-]; lia. Qed.

Lemma slash_job_ok env creator id h u h' :
  env_contract env = self → env_auth env self = false → registry_ok h →
  slash_job env creator id h = Return (u, h') → registry_ok h'.
Proof.
  intros He Hauth Hok H. unfold slash_job in H. reg_call. the_relayer. the_job.
  destruct (slash_pending rel (jr_fee job)) as [p l] eqn:Hp. apply slash_pending_range in Hp; [|done..]. reg_call.
  assert (Hs : jr_status job = STATUS_ACCEPTED) by lia.
  match goal with Ha : jr_accepted_relayer job = Some ?o |- _ => rename o into op; rename Ha into Hrel end.
  eapply (registry_ok_update h _ _ op _ id); [done|done|done|simpl; by rewrite Hop|done|done|simpl; lia|simpl; lia|simpl; lia|done|..]; simpl; rewrite ?Hget, Hjob.
  - intros k Hk. rewrite (bond_accepted k op job), bond_other by done. by rewrite decide_False.
  - rewrite (bond_accepted op op job), bond_other, decide_True by done. simpl. lia.
  - unfold stake_total, escrow. simpl. rewrite Hs. simpl. balances.
Qed.

Lemma invoke_pool_return env pool c (h : World) u h' :
  invoke_pool_withdraw env pool c h = Return (u, h') →
  rg_config (h_data h') = rg_config (h_data h) ∧ rg_relayers (h_data h') = rg_relayers (h_data h) ∧ rg_jobs (h_data h') = rg_jobs (h_data h) ∧
  rg_original_stakes (h_data h') = rg_original_stakes (h_data h) ∧
  pool_withdraw_call (env_sequence env) (env_timestamp env) pool c (rg_pools (h_data h), h_tok h) = Some (rg_pools (h_data h'), h_tok h') ∧
  ∀ sac, balance (h_tok h) sac (env_contract env) <= balance (h_tok h') sac (env_contract env).
Proof.
  unfold invoke_pool_withdraw. destruct (String.eqb_spec pool (env_contract env)) as [|Hne]; [done|].
  destruct (pool_withdraw_call _ _ _ _ _) as [[p t]|] eqn:E; [|done]. intros [= <- <-]. simpl. split_and!; try done.
  intros sac. by apply (pool_withdraw_frame _ _ _ _ _ _ _ _ E).
Qed.

Lemma submit_ok env operator id c h u h' :
  env_contract env = self → env_auth env self = false → registry_ok h →
  submit_pool_withdraw keccak256 address_to_xdr symbol_to_xdr env operator id c h = Return (u, h') → registry_ok h'.
Proof.
  intros He Hauth Hok H. unfold submit_pool_withdraw in H. reg_call. the_job.
  match goal with Hi : invoke_pool_withdraw _ _ _ _ = Return _ |- _ => apply invoke_pool_return in Hi as (Ec & Er & Ej & _ & _ & Hgrow) end.
  rewrite ?Ec, ?Er, ?Ej in *. the_relayer.
  match goal with Ha : bool_decide (jr_accepted_relayer job = _) = true |- _ => apply bool_decide_eq_true in Ha; rename Ha into Hrel end.
  assert (Hs : jr_status job = STATUS_ACCEPTED) by lia.
  eapply (registry_ok_update h _ _ operator _ id); [done|done|done|simpl; by rewrite Hop|done|done|simpl; lia|simpl; lia|simpl; lia|done|..]; simpl; rewrite ?Hget, Hjob.
  - intros k Hk. rewrite (bond_accepted k operator job), bond_other by done. by rewrite decide_False.
  - rewrite (bond_accepted operator operator job), bond_other, decide_True by done. simpl. lia.
  - unfold stake_total, escrow. simpl. rewrite Hs. simpl. specialize (Hgrow (rc_native_sac x1)). rewrite He in *. balances.
Qed.
Lemma initialize_ok env admin sac pool ms cooldown maxd h u h' :
  registry_ok h → initialize env admin sac pool ms cooldown maxd h = Return (u, h') → registry_ok h'.
Proof.
  intros [Hr Hj Hf] H. unfold initialize in H. reg_steps. destruct (rg_config (h_data h)); [done|]. destruct Hf as [Er Ej].
  split; simpl; [done|done|]. split; [unfold or_default; destruct (Z.ltb_spec 0 ms); [done|done]|].
  unfold owed. simpl. rewrite Er, Ej, !sum_map_empty. apply balance_nonneg.
Qed.

Lemma config_update_ok h c c' : registry_ok h → rg_config (h_data h) = Some c → rc_native_sac c' = rc_native_sac c →
  0 < rc_minimum_stake c' → registry_ok (mkHost (set_config_entry c' (h_data h)) (h_tok h)).
Proof. intros [Hr Hj Hf] Hc Hs Hm. split; simpl; [done|done|]. rewrite Hc in Hf. destruct Hf as [_ Hf]. rewrite Hs. by split. Qed.

Lemma set_config_ok env admin ms cooldown maxd h u h' :
  registry_ok h → set_config env admin ms cooldown maxd h = Return (u, h') → registry_ok h'.
Proof. intros Hok H. unfold set_config in H. reg_steps. eapply config_update_ok; [done|done|done|simpl; lia]. Qed.

Lemma transfer_admin_ok env admin new_admin h u h' :
  registry_ok h → transfer_admin env admin new_admin h = Return (u, h') → registry_ok h'.
Proof.
  intros Hok H. unfold transfer_admin in H. reg_steps. eapply config_update_ok; [done|done|done|simpl].
  by destruct (ok_config h _ Hok ltac:(eassumption)).
Qed.

(** ** Runs of the contract *)
Inductive Call : Type :=
  | Initialize (admin sac pool : Address) (minimum_stake cooldown max_deadline : Z)
  | SetConfig (admin : Address) (minimum_stake cooldown max_deadline : Z)
  | TransferAdmin (admin new_admin : Address)
  | Register (operator : Address) (x25519_pubkey : list byte) (endpoint : string) (stake : Z)
  | AddStake (operator : Address) (amount : Z)
  | RequestUnstake (operator : Address) (amount : Z)
  | WithdrawStake (operator : Address)
  | CreateJob (creator : Address) (job_id payload_hash : list byte) (deadline fee : Z)
  | AcceptJob (operator : Address) (job_id : list byte)
  | SubmitPoolWithdraw (operator : Address) (job_id : list byte) (c : WithdrawCall)
  | SlashJob (creator : Address) (job_id : list byte)
  | CancelJob (creator : Address) (job_id : list byte)
  | ReportSlash (proof : SlashingProof) (slash_amount : Z).

Definition run_call (env : Env) (c : Call) : C World RegistryError unit :=
  match c with
  | Initialize admin sac pool ms cd md => initialize env admin sac pool ms cd md
  | SetConfig admin ms cd md => set_config env admin ms cd md
  | TransferAdmin admin new_admin => transfer_admin env admin new_admin
  | Register op key endpoint stake => register env op key endpoint stake
  | AddStake op amount => add_stake env op amount
  | RequestUnstake op amount => request_unstake env op amount
  | WithdrawStake op => withdraw_stake env op
  | CreateJob creator id hash deadline fee => create_job env creator id hash deadline fee
  | AcceptJob op id => accept_job env op id
  | SubmitPoolWithdraw op id c => submit_pool_withdraw keccak256 address_to_xdr symbol_to_xdr env op id c
  | SlashJob creator id => slash_job env creator id
  | CancelJob creator id => cancel_job env creator id
  | ReportSlash proof amount => report_slash env proof amount
  end.
Definition is_report (c : Call) : bool := match c with ReportSlash _ _ => true | _ => false end.

(** A step of the ledger: a call of the registry that returns (one that fails changes
    nothing), or anything else, which changes pools and tokens but takes nothing from the
    registry, whose authorization it does not have. *)
Inductive step (allowed : Call → Prop) (h : World) : World → Prop :=
  | step_call env c h' :
      env_contract env = self → env_auth env self = false → allowed c →
      run_call env c h = Return (tt, h') → step allowed h h'
  | step_other p t :
      (∀ sac, balance (h_tok h) sac self <= balance t sac self) →
      step allowed h (mkHost (let s := h_data h in mkStore (rg_config s) (rg_relayers s) (rg_jobs s)
        (rg_slash_records s) (rg_original_stakes s) (rg_events s) p) t).

Definition deployed (h : World) : Prop := ∃ p t, h = mkHost (mkStore None ∅ ∅ ∅ ∅ [] p) t.
(** The states a registry reaches while nobody calls [report_slash]: one report can empty it
    ([report_slash_drains] below). *)
Definition honest (c : Call) : Prop := is_report c = false.
Definition reached_unreported (h : World) : Prop := ∃ h0, deployed h0 ∧ rtc (step honest) h0 h.

Lemma call_ok env c h h' :
  env_contract env = self → env_auth env self = false → honest c → registry_ok h → run_call env c h = Return (tt, h') → registry_ok h'.
Proof.
  destruct c; intros He Ha Hh Hok H; simpl in H; [..|done].
  - exact (initialize_ok _ _ _ _ _ _ _ _ _ _ Hok H).
  - exact (set_config_ok _ _ _ _ _ _ _ _ Hok H).
  - exact (transfer_admin_ok _ _ _ _ _ _ Hok H).
  - exact (register_ok _ _ _ _ _ _ _ _ He Ha Hok H).
  - exact (add_stake_ok _ _ _ _ _ _ He Ha Hok H).
  - exact (request_unstake_ok _ _ _ _ _ _ He Ha Hok H).
  - exact (withdraw_stake_ok _ _ _ _ _ He Ha Hok H).
  - exact (create_job_ok _ _ _ _ _ _ _ _ _ He Ha Hok H).
  - exact (accept_job_ok _ _ _ _ _ _ He Ha Hok H).
  - exact (submit_ok _ _ _ _ _ _ _ He Ha Hok H).
  - exact (slash_job_ok _ _ _ _ _ _ He Ha Hok H).
  - exact (cancel_job_ok _ _ _ _ _ _ He Ha Hok H).
Qed.

Lemma step_ok h h' : step honest h h' → registry_ok h → registry_ok h'.
Proof.
  intros [env c h1 ? ? ? ?|p t Hb] Hok; [by eapply call_ok|]. destruct Hok as [Hr Hj Hf]. split; simpl; [done|done|].
  destruct (rg_config (h_data h)) as [c|]; [|done]. destruct Hf as [? Hf]. split; [done|].
  specialize (Hb (rc_native_sac c)). unfold owed in *. simpl. lia.
Qed.

Lemma deployed_ok h : deployed h → registry_ok h.
Proof.
  intros (p & t & ->). split; simpl; [by intros k r Hr; rewrite lookup_empty in Hr|by intros id j Hj; rewrite lookup_empty in Hj|done].
Qed.
Lemma unreported_ok h : reached_unreported h → registry_ok h.
Proof.
  intros (h0 & H0%deployed_ok & Hrtc). eapply (rtc_ind_r registry_ok); [exact H0| |exact Hrtc]. eauto using step_ok.
Qed.

(** C3 (invariant): However calls of anybody are ordered and interleaved with whatever else
    happens on the ledger, and as long as no offence is reported, the registry holds at
    least what it owes: every relayer's free, bonded and unbonding stake and the fee of
    every open or accepted job; no stake is negative, and what a relayer has bonded is
    exactly the sum of the fees of the jobs it has accepted and not yet settled. *)
Theorem registry_solvent h c (Hr : reached_unreported h) (Hc : rg_config (h_data h) = Some c) :
  owed (h_data h) <= balance (h_tok h) (rc_native_sac c) self ∧
  (∀ k r, rg_relayers (h_data h) !! k = Some r →
     rr_operator r = k ∧ 0 <= rr_free_stake r ∧ 0 <= rr_pending_unstake r ∧
     rr_bonded_stake r = sum_map (λ _, bond k) (rg_jobs (h_data h))) ∧
  (∀ id j, rg_jobs (h_data h) !! id = Some j → jr_status j = STATUS_ACCEPTED →
     ∃ op, jr_accepted_relayer j = Some op ∧ is_Some (rg_relayers (h_data h) !! op)).
Proof.
  apply unreported_ok in Hr as Hok. destruct (ok_config h c Hok Hc) as [_ Ho]. destruct Hok as [Hk Hj _].
  split; [done|]. split; [done|]. intros id j Hid. by apply (Hj id j).
Qed.

(** ** Taking funds out *)
Lemma transfer_run env sac to amount t :
  0 < amount <= balance t sac (env_contract env) → receives t sac to = true →
  ∃ t', (∀ s a, balance t' s a = balance t s a - (if decide (s = sac ∧ a = env_contract env) then amount else 0)
                                 + (if decide (s = sac ∧ a = to) then amount else 0)) ∧
    ∀ d : Store P, token_transfer env sac (env_contract env) to amount (mkHost d t) = Return (tt, mkHost d t').
Proof.
  intros Ha Hrec. destruct (transfer_pays t sac (env_contract env) to amount ltac:(lia) Hrec) as [t' Ht].
  exists t'. apply transfer_spec in Ht as Hs. split; [apply Hs|].
  intros d. unfold token_transfer, transfer. destruct (Z.ltb_spec 0 amount); [|lia]. rewrite String.eqb_refl. cbn [orb h_tok]. by rewrite Ht.
Qed.
Lemma pay env sac to amount t :
  0 < amount <= balance t sac (env_contract env) → receives t sac to = true → to ≠ env_contract env →
  ∃ t', balance t' sac to = balance t sac to + amount ∧
    ∀ d : Store P, token_transfer env sac (env_contract env) to amount (mkHost d t) = Return (tt, mkHost d t').
Proof.
  intros Ha Hrec Hne. destruct (transfer_run env sac to amount t Ha Hrec) as (t' & Hs & Ht).
  exists t'. split; [|done]. rewrite Hs. repeat case_decide; naive_solver lia.
Qed.

(** What one relayer and one job are owed is part of the whole. *)
Lemma owed_stake h k r : registry_ok h → rg_relayers (h_data h) !! k = Some r → stake_total r <= owed (h_data h).
Proof.
  intros Hok Hk. unfold owed. pose proof (sum_map_ge (λ _, stake_total) _ k r (stake_nonneg h Hok) Hk) as H1.
  pose proof (sum_map_nonneg (λ _, escrow) _ (escrow_nonneg h Hok)) as H2. cbv beta in *. lia.
Qed.
Lemma owed_escrow h id j : registry_ok h → rg_jobs (h_data h) !! id = Some j → escrow j <= owed (h_data h).
Proof.
  intros Hok Hk. unfold owed. pose proof (sum_map_nonneg (λ _, stake_total) _ (stake_nonneg h Hok)) as H1.
  pose proof (sum_map_ge (λ _, escrow) _ id j (escrow_nonneg h Hok) Hk) as H2. cbv beta in *. lia.
Qed.
Lemma owed_both h id j k r : registry_ok h → rg_relayers (h_data h) !! k = Some r → rg_jobs (h_data h) !! id = Some j →
  stake_total r + escrow j <= owed (h_data h).
Proof.
  intros Hok Hr Hj. unfold owed. pose proof (sum_map_ge (λ _, stake_total) _ k r (stake_nonneg h Hok) Hr) as H1.
  pose proof (sum_map_ge (λ _, escrow) _ id j (escrow_nonneg h Hok) Hj) as H2. cbv beta in *. lia.
Qed.
Lemma bonded_ge h id j op r : registry_ok h → rg_jobs (h_data h) !! id = Some j → rg_relayers (h_data h) !! op = Some r →
  jr_status j = STATUS_ACCEPTED → jr_accepted_relayer j = Some op → jr_fee j <= rr_bonded_stake r.
Proof.
  intros Hok Hj Hr Hs Ha. destruct (ok_relayer h Hok _ _ Hr) as (_ & _ & _ & ->).
  rewrite <-(sum_map_ge (λ _, bond op) _ id j); [|intros id2 j2 [? _]%(ok_job h Hok); unfold bond; destruct (_ && _); lia|done].
  by rewrite (bond_accepted op op), decide_True.
Qed.

Ltac run_call_with Ht := call_run; simpl; try (eassumption || lia || (unfold in_i128; lia) || apply String.eqb_refl || done || apply Ht || reflexivity).

Lemma withdraw_stake_pays h c env op r :
  registry_ok h → rg_config (h_data h) = Some c → env_contract env = self → rg_relayers (h_data h) !! op = Some r →
  0 < rr_pending_unstake r → rr_unstake_unlock_ledger r <= env_sequence env →
  env_auth env op = true → receives (h_tok h) (rc_native_sac c) op = true → op ≠ self →
  ∃ h', withdraw_stake env op h = Return (tt, h') ∧
    balance (h_tok h') (rc_native_sac c) op = balance (h_tok h) (rc_native_sac c) op + rr_pending_unstake r.
Proof.
  intros Hok Hc He Hr Hp Hl Ha Hrec Hne. destruct (ok_config h c Hok Hc) as [_ Ho]. pose proof (owed_stake _ _ _ Hok Hr) as Hs.
  destruct (ok_relayer h Hok _ _ Hr) as (Hop & Hf & _ & Hb). pose proof (bond_nonneg h op Hok) as Hb0. unfold stake_total in Hs.
  destruct (pay env (rc_native_sac c) op (rr_pending_unstake r) (h_tok h)) as (t & Hbal & Ht); [rewrite He; lia|done|by rewrite He|].
  eexists. split; [unfold withdraw_stake, cfg, read_relayer, write_relayer, publish; run_call_with Ht|exact Hbal].
Qed.

Lemma cancel_job_pays h c env id j :
  registry_ok h → rg_config (h_data h) = Some c → env_contract env = self → rg_jobs (h_data h) !! id = Some j →
  jr_status j = STATUS_OPEN → jr_deadline_ledger j < env_sequence env →
  env_auth env (jr_creator j) = true → receives (h_tok h) (rc_native_sac c) (jr_creator j) = true → jr_creator j ≠ self →
  ∃ h', cancel_job env (jr_creator j) id h = Return (tt, h') ∧
    balance (h_tok h') (rc_native_sac c) (jr_creator j) = balance (h_tok h) (rc_native_sac c) (jr_creator j) + jr_fee j.
Proof.
  intros Hok Hc He Hj Hs Hl Ha Hrec Hne. destruct (ok_config h c Hok Hc) as [_ Ho]. pose proof (owed_escrow _ _ _ Hok Hj) as Hw.
  destruct (ok_job h Hok _ _ Hj) as [Hf _]. unfold escrow in Hw. rewrite Hs in Hw. cbn in Hw.
  destruct (pay env (rc_native_sac c) (jr_creator j) (jr_fee j) (h_tok h)) as (t & Hbal & Ht); [rewrite He; lia|done|by rewrite He|].
  eexists. split; [unfold cancel_job, cfg, read_job, write_job, publish; run_call_with Ht|exact Hbal].
Qed.

Lemma slash_job_pays h c env id j :
  registry_ok h → rg_config (h_data h) = Some c → balance (h_tok h) (rc_native_sac c) self < 2 ^ 127 → env_contract env = self → rg_jobs (h_data h) !! id = Some j →
  jr_status j = STATUS_ACCEPTED → jr_deadline_ledger j < env_sequence env →
  env_auth env (jr_creator j) = true → receives (h_tok h) (rc_native_sac c) (jr_creator j) = true → jr_creator j ≠ self →
  ∃ h', slash_job env (jr_creator j) id h = Return (tt, h') ∧
    balance (h_tok h') (rc_native_sac c) (jr_creator j) = balance (h_tok h) (rc_native_sac c) (jr_creator j) + jr_fee j * 2.
Proof.
  intros Hok Hc Hmax He Hj Hs Hl Ha Hrec Hne. destruct (ok_config h c Hok Hc) as [_ Ho].
  destruct (ok_job h Hok _ _ Hj) as [Hf Hacc]. destruct (Hacc Hs) as (op & Hop & [r Hr]).
  pose proof (owed_both _ _ _ _ _ Hok Hr Hj) as Hw. pose proof (bonded_ge _ _ _ _ _ Hok Hj Hr Hs Hop) as Hb.
  destruct (ok_relayer h Hok _ _ Hr) as (Hrop & Hfree & Hpend & _).
  unfold escrow, stake_total in Hw. rewrite Hs in Hw. cbn in Hw.
  destruct (pay env (rc_native_sac c) (jr_creator j) (jr_fee j * 2) (h_tok h)) as (t & Hbal & Ht); [rewrite He; lia|done|by rewrite He|].
  destruct (slash_pending r (jr_fee j)) as [p l] eqn:Hp. eexists. split.
  - unfold slash_job, cfg, read_job, read_relayer, write_job, write_relayer, publish.
    call_run; simpl; try (eassumption || lia || (unfold in_i128; lia) || apply String.eqb_refl || done). rewrite Hp. run_call_with Ht.
  - exact Hbal.
Qed.

Lemma invoke_run env pool call (h : World) p t :
  pool ≠ env_contract env → pool_withdraw_call (env_sequence env) (env_timestamp env) pool call (rg_pools (h_data h), h_tok h) = Some (p, t) →
  invoke_pool_withdraw env pool call h = Return (tt, mkHost (mkStore (rg_config (h_data h)) (rg_relayers (h_data h)) (rg_jobs (h_data h))
    (rg_slash_records (h_data h)) (rg_original_stakes (h_data h)) (rg_events (h_data h)) p) t).
Proof. intros Hne Hc. unfold invoke_pool_withdraw. destruct (String.eqb_spec pool (env_contract env)); [done|]. by rewrite Hc. Qed.

Lemma submit_pays h c env id j op r call p t :
  registry_ok h → rg_config (h_data h) = Some c → balance (h_tok h) (rc_native_sac c) self < 2 ^ 127 → env_contract env = self → rg_jobs (h_data h) !! id = Some j →
  rg_relayers (h_data h) !! op = Some r →
  jr_status j = STATUS_ACCEPTED → jr_accepted_relayer j = Some op → env_sequence env < jr_deadline_ledger j →
  env_auth env op = true → op ≠ self → rc_privacy_pool c ≠ self →
  pool_withdraw_payload_hash keccak256 address_to_xdr symbol_to_xdr (rc_privacy_pool c) call = jr_payload_hash j →
  pool_withdraw_call (env_sequence env) (env_timestamp env) (rc_privacy_pool c) call (rg_pools (h_data h), h_tok h) = Some (p, t) →
  receives t (rc_native_sac c) op = true →
  ∃ h', submit_pool_withdraw keccak256 address_to_xdr symbol_to_xdr env op id call h = Return (tt, h') ∧
    rg_pools (h_data h') = p ∧ (∀ s a, balance (h_tok h') s a = balance t s a
      - (if decide (s = rc_native_sac c ∧ a = self) then jr_fee j else 0) + (if decide (s = rc_native_sac c ∧ a = op) then jr_fee j else 0)) ∧
    ∃ j', rg_jobs (h_data h') !! id = Some j' ∧ jr_status j' = STATUS_SUBMITTED.
Proof.
  intros Hok Hc Hmax He Hj Hr Hs Hop Hl Ha Hne Hpool Hhash Hcall Hrec. destruct (ok_config h c Hok Hc) as [_ Ho].
  destruct (ok_job h Hok _ _ Hj) as [Hf _]. pose proof (owed_both _ _ _ _ _ Hok Hr Hj) as Hw. pose proof (bonded_ge _ _ _ _ _ Hok Hj Hr Hs Hop) as Hb.
  destruct (ok_relayer h Hok _ _ Hr) as (Hrop & Hfree & Hpend & _).
  pose proof (pool_withdraw_frame _ _ _ _ _ _ _ _ Hcall (rc_native_sac c) self ltac:(congruence)) as Hgrow.
  unfold escrow, stake_total in Hw. rewrite Hs in Hw. cbn in Hw.
  destruct (transfer_run env (rc_native_sac c) op (jr_fee j) t) as (t' & Hbal & Ht); [rewrite He; lia|done|]. rewrite He in Hbal.
  eexists. split.
  - unfold submit_pool_withdraw, cfg, read_job, read_relayer, write_job, write_relayer, publish.
    assert (Hi := invoke_run env _ call h p t ltac:(by rewrite He) Hcall).
    repeat (call_run_step || lazymatch goal with |- invoke_pool_withdraw _ _ _ _ = _ => exact Hi end); simpl;
      try (eassumption || lia || (unfold in_i128; lia) || (by apply bool_decide_eq_true) || done || apply Ht).
  - simpl. split; [done|]. split; [done|]. exists (with_status j (jr_accepted_relayer j) STATUS_SUBMITTED (env_sequence env)).
    by rewrite lookup_insert_eq.
Qed.

(** C27 (liveness): As long as no offence was reported, what the registry owes can be taken
    out.  In every state it reaches without a report, a call of the owner succeeds and pays
    in full: a relayer its unbonding stake once the cooldown is over, a creator the fee of
    its open job after the deadline, and twice the fee of a job that was accepted and not
    submitted in time; no overflow and no missing balance stands in the way.  After a report
    the balance may be gone, so nothing of the kind holds there. *)
Theorem funds_recoverable h c env
    (Hr : reached_unreported h) (Hc : rg_config (h_data h) = Some c) (He : env_contract env = self)
    (Hmax : balance (h_tok h) (rc_native_sac c) self < 2 ^ 127) :
  let sac := rc_native_sac c in
  let can_take a := env_auth env a = true ∧ receives (h_tok h) sac a = true ∧ a ≠ self in
  let pays a amount m := ∃ h', m h = Return (tt, h') ∧ balance (h_tok h') sac a = balance (h_tok h) sac a + amount in
  (∀ op r, rg_relayers (h_data h) !! op = Some r → can_take op →
     0 < rr_pending_unstake r → rr_unstake_unlock_ledger r <= env_sequence env →
     pays op (rr_pending_unstake r) (run_call env (WithdrawStake op))) ∧
  (∀ id j, rg_jobs (h_data h) !! id = Some j → can_take (jr_creator j) → jr_deadline_ledger j < env_sequence env →
     (jr_status j = STATUS_OPEN → pays (jr_creator j) (jr_fee j) (run_call env (CancelJob (jr_creator j) id))) ∧
     (jr_status j = STATUS_ACCEPTED → pays (jr_creator j) (jr_fee j * 2) (run_call env (SlashJob (jr_creator j) id)))).
Proof.
  apply unreported_ok in Hr as Hok. simpl. split; [|intros id j Hj (Ha & Hrec & Hne) Hl; split; intros Hs].
  - intros op r Hk (Ha & Hrec & Hne) Hp Hl. by apply withdraw_stake_pays.
  - by apply cancel_job_pays.
  - by apply slash_job_pays.
Qed.

(** ** Reported offences *)
Lemma as_u128_small z : 0 <= z < 2 ^ 127 → as_u128 z = z.
Proof. intros Hz. apply Z.mod_small. lia. Qed.
Lemma as_i128_small z : 0 <= z < 2 ^ 127 → as_i128 z = z.
Proof. intros Hz. unfold as_i128. rewrite Z.mod_small by lia. destruct (Z.ltb_spec z (2 ^ 127)); lia. Qed.
Lemma slashed_stakes_spec r amount :
  0 <= rr_bonded_stake r < 2 ^ 127 → 0 <= rr_free_stake r < 2 ^ 127 → 0 < amount < 2 ^ 127 →
  ∃ b f, slashed_stakes r amount = (b, f) ∧ 0 <= b < 2 ^ 127 ∧ 0 <= f < 2 ^ 127 ∧
    b + f = rr_bonded_stake r + rr_free_stake r - Z.min amount (rr_bonded_stake r + rr_free_stake r).
Proof.
  intros Hb Hf Ha. unfold slashed_stakes. rewrite !as_u128_small by done. eexists _, _. split; [reflexivity|].
  rewrite (as_i128_small (Z.min amount _)) by lia.
  destruct (Z.ltb_spec 0 (amount - Z.min amount (rr_bonded_stake r))); [rewrite as_i128_small by lia|]; lia.
Qed.

#[local] Opaque slashed_stakes.

(** Two different strings of 64 bytes, signed by nobody. *)
Definition forged_evidence : list byte := repeat Byte.x00 64 ++ repeat Byte.x01 64.

(** C29 (error): Anybody can take everything the registry holds.  In every state reached
    before the first report
    with a registered relayer, a call that nobody authorized, with two made-up 64-byte
    strings as evidence, pays its reporter any amount up to the registry's whole balance,
    while only the relayer's own stake is deducted: beyond it, the registry owes more than
    it has. *)
Theorem report_slash_drains h c env victim r reporter amount
    (Hr : reached_unreported h) (Hc : rg_config (h_data h) = Some c) (He : env_contract env = self)
    (Hnobody : ∀ a, env_auth env a = false) (Hv : rg_relayers (h_data h) !! victim = Some r)
    (Hmax : balance (h_tok h) (rc_native_sac c) self < 2 ^ 127) (Ham : 0 < amount <= balance (h_tok h) (rc_native_sac c) self)
    (Hrec : receives (h_tok h) (rc_native_sac c) reporter = true) (Hne : reporter ≠ self) :
  ∃ h', run_call env (ReportSlash (mkSlashProof victim DoubleSign forged_evidence 0 reporter) amount) h = Return (tt, h') ∧
    balance (h_tok h') (rc_native_sac c) reporter = balance (h_tok h) (rc_native_sac c) reporter + amount ∧
    balance (h_tok h') (rc_native_sac c) self = balance (h_tok h) (rc_native_sac c) self - amount ∧
    owed (h_data h') = owed (h_data h) - Z.min amount (rr_bonded_stake r + rr_free_stake r).
Proof.
  apply unreported_ok in Hr as Hok. destruct (ok_config h c Hok Hc) as [_ Ho]. pose proof (owed_stake _ _ _ Hok Hv) as Hs.
  destruct (ok_relayer h Hok _ _ Hv) as (Hop & Hf & Hp & Hb). pose proof (bond_nonneg h victim Hok) as Hb0.
  unfold stake_total in Hs.
  destruct (slashed_stakes_spec r amount) as (b & f & Hsl & Hbr & Hfr & Hbf); [lia..|].
  destruct (transfer_run env (rc_native_sac c) reporter amount (h_tok h)) as (t & Hsp & Ht); [rewrite He; lia|done|].
  eexists. split; [|split; [|split]].
  - simpl. unfold report_slash, slash_relayer. rewrite as_u128_small by lia.
    unfold cfg, read_relayer, write_relayer, publish.
    call_run; simpl; try (eassumption || lia || done). rewrite Hsl. run_call_with Ht.
  - simpl. rewrite Hsp, He. repeat case_decide; naive_solver lia.
  - simpl. rewrite Hsp, He. repeat case_decide; naive_solver lia.
  - unfold owed. simpl. rewrite sum_map_insert, Hop, Hv. unfold stake_total. simpl. lia.
Qed.

(** ** The life of a job *)
Inductive job_step (j j' : JobRecord) : Prop :=
  | job_accepted op : jr_status j = STATUS_OPEN → j' = with_status j (Some op) STATUS_ACCEPTED (jr_submitted_ledger j) → job_step j j'
  | job_canceled : jr_status j = STATUS_OPEN → j' = with_status j (jr_accepted_relayer j) STATUS_CANCELED (jr_submitted_ledger j) → job_step j j'
  | job_submitted l : jr_status j = STATUS_ACCEPTED → j' = with_status j (jr_accepted_relayer j) STATUS_SUBMITTED l → job_step j j'
  | job_slashed : jr_status j = STATUS_ACCEPTED → j' = with_status j (jr_accepted_relayer j) STATUS_SLASHED (jr_submitted_ledger j) → job_step j j'.
Definition jobs_evolve (h h' : World) : Prop :=
  rg_jobs (h_data h') = rg_jobs (h_data h) ∨
  ∃ id j', rg_jobs (h_data h') = <[id:=j']> (rg_jobs (h_data h)) ∧
    match rg_jobs (h_data h) !! id with Some j => job_step j j' | None => jr_status j' = STATUS_OPEN end.

Lemma call_jobs env c h h' : run_call env c h = Return (tt, h') → jobs_evolve h h'.
Proof.
  destruct c; intros H; simpl in H;
    unfold initialize, set_config, transfer_admin, register, add_stake, request_unstake, withdraw_stake, create_job,
      accept_job, submit_pool_withdraw, slash_job, cancel_job, report_slash, slash_relayer in H; reg_steps;
    try match goal with H : (let '(_, _) := ?p in _) _ = _ |- _ => destruct p; reg_steps end;
    try match goal with H : invoke_pool_withdraw _ _ _ _ = _ |- _ => apply invoke_pool_return in H as (_ & _ & Ej & _) end;
    try match goal with H : token_transfer _ _ _ _ _ _ = _ |- _ => apply token_transfer_return in H as (Hd & _ & _); simpl in Hd; rewrite ?Hd in * end;
    simpl; try by left.
  all: right; eexists _, _; split; [simpl; try rewrite Ej; reflexivity|]; simpl;
    try match goal with Hj : rg_jobs _ !! _ = Some _ |- _ => rewrite Hj end.
  - by destruct (rg_jobs (h_data h) !! job_id).
  - eapply job_accepted; [lia|done].
  - eapply job_submitted; [lia|done].
  - eapply job_slashed; [lia|done].
  - eapply job_canceled; [lia|done].
Qed.

Lemma step_job allowed h h' id j : step allowed h h' → rg_jobs (h_data h) !! id = Some j →
  ∃ j', rg_jobs (h_data h') !! id = Some j' ∧ rtc job_step j j'.
Proof.
  intros [env c h1 _ _ _ Hrun|p t _] Hj; [|by exists j]. apply call_jobs in Hrun as [->|(id2 & j2 & -> & Hs)]; [by exists j|].
  destruct (decide (id2 = id)) as [->|Hne]; [|exists j; by rewrite lookup_insert_ne]. exists j2. rewrite lookup_insert_eq. split; [done|].
  rewrite Hj in Hs. by apply rtc_once.
Qed.

Lemma job_run j j' : rtc job_step j j' →
  jr_creator j' = jr_creator j ∧ jr_payload_hash j' = jr_payload_hash j ∧ jr_fee j' = jr_fee j ∧
  jr_deadline_ledger j' = jr_deadline_ledger j ∧ jr_created_ledger j' = jr_created_ledger j ∧
  (jr_status j ≠ STATUS_OPEN → jr_accepted_relayer j' = jr_accepted_relayer j ∧ jr_status j' ≠ STATUS_OPEN) ∧
  (jr_status j ≠ STATUS_OPEN → jr_status j ≠ STATUS_ACCEPTED → j' = j).
Proof.
  induction 1 as [j|j j1 j2 Hs _ IH]; [done|]. destruct IH as (-> & -> & -> & -> & -> & IHa & IHb).
  destruct Hs as [op Ho ->|Ho ->|l Ho ->|Ho ->]; simpl in *; split_and!; try done.
  all: intros; try congruence; by apply IHa.
Qed.

(** The terms of a job never change.  Whatever is called, offences included,
    an existing job keeps its creator, payload hash, fee and deadline; once accepted it
    stays with its relayer and is never open again; once submitted, slashed or canceled its
    record is final. *)
Theorem job_terms_fixed h h' id j (Hrun : rtc (step (λ _, True)) h h') (Hj : rg_jobs (h_data h) !! id = Some j) :
  ∃ j', rg_jobs (h_data h') !! id = Some j' ∧
    jr_creator j' = jr_creator j ∧ jr_payload_hash j' = jr_payload_hash j ∧ jr_fee j' = jr_fee j ∧
    jr_deadline_ledger j' = jr_deadline_ledger j ∧ jr_created_ledger j' = jr_created_ledger j ∧
    (jr_status j ≠ STATUS_OPEN → jr_accepted_relayer j' = jr_accepted_relayer j ∧ jr_status j' ≠ STATUS_OPEN) ∧
    (jr_status j ≠ STATUS_OPEN → jr_status j ≠ STATUS_ACCEPTED → j' = j).
Proof.
  assert (Hr : ∃ j', rg_jobs (h_data h') !! id = Some j' ∧ rtc job_step j j').
  { revert j Hj. induction Hrun as [h|h h1 h2 Hs _ IH]; intros j Hj; [by exists j|].
    destruct (step_job _ _ _ _ _ Hs Hj) as (j1 & H1 & Hr1). destruct (IH j1 H1) as (j2 & H2 & Hr2).
    exists j2. split; [done|]. by etrans. }
  destruct Hr as (j' & Hj' & Hr). exists j'. split; [done|]. by apply job_run.
Qed.
End solvency.

(** ** The payload hash of the services *)

(** The contract hashes what the relayer and the SDK hash: for a payload of the right
    lengths, with encoders that agree, the hash a job is created with is the one the
    contract recomputes. *)
Definition call_of (p : PoolWithdrawPayload) : WithdrawCall :=
  mkWithdrawCall (pw_proofA p) (pw_proofB p) (pw_proofC p) (pw_withdrawnValue p) (pw_stateRoot p) (pw_aspRoot p)
    (pw_nullifierHash p) (pw_newCommitment p) (pw_recipient p) (pw_poolFee p) (pw_poolRelayer p).

Lemma contract_hash keccak addressXdr symbolXdr address_to_xdr p hash :
  (∀ a b, addressXdr a = Ok b → address_to_xdr a = b) →
  hashPoolWithdrawPayload addressXdr symbolXdr keccak p = Ok hash →
  pool_withdraw_payload_hash keccak address_to_xdr symbolXdr (pw_poolId p) (call_of p) = hash.
Proof.
  intros Hx H. unfold hashPoolWithdrawPayload, poolWithdrawPayloadPreimage in H.
  apply bind_ok in H as (pre & H & <-%Ok_inj).
  repeat match goal with H : _ ≫= _ = Ok _ |- _ => apply bind_ok in H as (? & ? & H) end. apply Ok_inj in H as <-.
  repeat match goal with H : RelayBytes.assertLength _ _ _ = Ok _ |- _ => apply RelayBytes.assertLength_ok in H as [-> _] end.
  repeat match goal with H : addressXdr _ = Ok _ |- _ => apply Hx in H as <- end.
  repeat match goal with H : RelayBytes.i128ToBytes _ = Ok _ |- _ => apply RelayBytes.i128ToBytes_inv in H as [_ ->] end.
  reflexivity.
Qed.

(** ** Running a list of calls *)
Section runs.
Context `{SC : Sac} {P : Type} {PC : PoolCall P}.
Context (keccak256 : list byte → list byte) (address_to_xdr : Address → list byte) (symbol_to_xdr : string → list byte).

Fixpoint run_calls (calls : list (Env * Call)) (h : Host (Store P)) : option (Host (Store P)) :=
  match calls with
  | [] => Some h
  | (env, c) :: rest =>
      match run_call keccak256 address_to_xdr symbol_to_xdr env c h with
      | Return (_, h') => run_calls rest h'
      | _ => None
      end
  end.
Definition sound_call (self : Address) (x : Env * Call) : Prop :=
  env_contract x.1 = self ∧ env_auth x.1 self = false ∧ honest x.2.

Lemma run_calls_rtc self calls h h' :
  Forall (sound_call self) calls → run_calls calls h = Some h' → rtc (step keccak256 address_to_xdr symbol_to_xdr self honest) h h'.
Proof.
  intros Hc. revert h. induction Hc as [|[env c] calls (He & Ha & Hh) _ IH]; intros h H; simpl in H; [by simplify_eq|].
  destruct (run_call _ _ _ env c h) as [[[] h1]| |] eqn:E; try done. eapply rtc_l; [by eapply step_call|by apply IH].
Qed.
(** The rest of a run, from where its beginning ends. *)
Lemma run_calls_drop n calls h d h' :
  run_calls calls h = Some h' → run_calls (drop n calls) (default d (run_calls (take n calls) h)) = Some h'.
Proof.
  revert calls h. induction n as [|n IH]; intros [|[env c] calls] h; simpl; [done..|].
  destruct (run_call _ _ _ env c h) as [[[] h1]| |]; try done. apply IH.
Qed.
End runs.

(** ** A small market *)
#[local] Existing Instance ledger_sac.
Lemma idle_frame (seq ts : Z) (addr : Address) (c : WithdrawCall) (p : unit) (t : Tok) p' t' :
  Some (p, t) = Some (p', t') → ∀ sac a, a ≠ addr → balance t sac a <= balance t' sac a.
Proof. by intros [= <- <-]. Qed.
Definition idle_pool : PoolCall unit := {| pool_withdraw_call _ _ _ _ w := Some w; pool_withdraw_frame := idle_frame |}.
#[local] Existing Instance idle_pool.

Definition at_ledger (seq : Z) (who : list Address) : Env := mkEnv seq 1000 "CREG" (λ a, bool_decide (a ∈ who)).
Definition market_tokens : Tok :=
  <[("CSAC", "GOP") := 5000000%N]> (<[("CSAC", "GCRE") := 1000%N]> ∅).
Definition market_start : Host (Store unit) := mkHost (mkStore None ∅ ∅ ∅ ∅ [] tt) market_tokens.
Definition job_a : list byte := repeat Byte.x0a 32.
Definition job_b : list byte := repeat Byte.x0b 32.
(** A relayer with stake, part of it unbonding; one accepted job and one open job. *)
Definition market_calls : list (Env * Call) :=
  [(at_ledger 10 ["GADM"], Initialize "GADM" "CSAC" "CPOOL" 0 0 0);
   (at_ledger 11 ["GOP"], Register "GOP" (repeat Byte.x01 32) "https://relayer" 2000000);
   (at_ledger 12 ["GOP"], RequestUnstake "GOP" 500000);
   (at_ledger 13 ["GCRE"], CreateJob "GCRE" job_a (repeat Byte.x02 32) 50 100);
   (at_ledger 14 ["GCRE"], CreateJob "GCRE" job_b (repeat Byte.x03 32) 60 70);
   (at_ledger 15 ["GOP"], AcceptJob "GOP" job_a)].
Definition market : Host (Store unit) :=
  default market_start (run_calls (λ b, b) utf8 utf8 market_calls market_start).

Lemma market_runs : run_calls (λ b, b) utf8 utf8 market_calls market_start = Some market.
Proof. apply present_default. reflexivity. Qed.
Lemma market_reachable : reached_unreported (λ b, b) utf8 utf8 "CREG" market.
Proof.
  exists market_start. split; [by eexists _, _|]. apply (run_calls_rtc _ _ _ "CREG" market_calls); [repeat constructor|exact market_runs].
Qed.
Definition market_config : RegistryConfig := mkConfig "GADM" "CSAC" "CPOOL" 1000000 720 17280.
Lemma market_config_ok : rg_config (h_data market) = Some market_config.
Proof. vm_compute. reflexivity. Qed.
Definition market_job : JobRecord := mkJob "GCRE" (repeat Byte.x02 32) 100 50 (Some "GOP") STATUS_ACCEPTED 13 0.
Lemma market_job_ok : rg_jobs (h_data market) !! job_a = Some market_job.
Proof. vm_compute. reflexivity. Qed.
Definition market_relayer : RelayerRecord := mkRelayer "GOP" (repeat Byte.x01 32) "https://relayer" 1499900 100 500000 732.
Lemma market_relayer_ok : rg_relayers (h_data market) !! "GOP" = Some market_relayer.
Proof. vm_compute. reflexivity. Qed.
Lemma market_holds : balance (h_tok market) "CSAC" "CREG" = 2000170.
Proof. vm_compute. reflexivity. Qed.
Lemma market_stranger : balance (h_tok market) "CSAC" "GEVE" = 0.
Proof. vm_compute. reflexivity. Qed.
Lemma market_owes : owed (h_data market) = 2000170.
Proof. vm_compute. reflexivity. Qed.

#[local] Opaque market.

Lemma registry_solvent_witness : owed (h_data market) = 2000170 ∧ owed (h_data market) <= balance (h_tok market) "CSAC" "CREG".
Proof.
  split; [exact market_owes|].
  exact (proj1 (registry_solvent (λ b, b) utf8 utf8 "CREG" market market_config market_reachable market_config_ok)).
Defined.

Lemma funds_recoverable_witness :
  ∃ h', slash_job (at_ledger 51 ["GCRE"]) "GCRE" job_a market = Return (tt, h') ∧
    balance (h_tok h') "CSAC" "GCRE" = balance (h_tok market) "CSAC" "GCRE" + 200.
Proof.
  destruct (funds_recoverable (λ b, b) utf8 utf8 "CREG" market market_config (at_ledger 51 ["GCRE"]) market_reachable market_config_ok eq_refl)
    as [_ H]; [cbn [market_config rc_native_sac]; rewrite market_holds; reflexivity|].
  destruct (H job_a market_job market_job_ok) as [_ Hs]; [done|done|]. destruct (Hs eq_refl) as (h' & H1 & H2).
  exists h'. split; [exact H1|exact H2].
Defined.

Lemma report_slash_drains_witness :
  ∃ h', report_slash (at_ledger 20 []) (mkSlashProof "GOP" DoubleSign forged_evidence 0 "GEVE") 2000170 market = Return (tt, h') ∧
    balance (h_tok h') "CSAC" "GEVE" = 2000170 ∧ balance (h_tok h') "CSAC" "CREG" = 0 ∧ owed (h_data h') = 500170.
Proof.
  destruct (report_slash_drains (λ b, b) utf8 utf8 "CREG" market market_config (at_ledger 20 []) "GOP" market_relayer "GEVE" 2000170
    market_reachable market_config_ok eq_refl (λ _, eq_refl) market_relayer_ok) as (h' & H1 & H2 & H3 & H4).
  1-4: cbn [market_config rc_native_sac]; rewrite ?market_holds; done.
  cbn [market_config rc_native_sac] in H2, H3. rewrite market_holds in H3. rewrite market_stranger in H2. exists h'.
  split; [exact H1|]. split; [exact H2|]. split; [exact H3|]. rewrite H4, market_owes. reflexivity.
Defined.

Definition early_market : Host (Store unit) :=
  default market_start (run_calls (λ b, b) utf8 utf8 (take 4 market_calls) market_start).
Lemma early_market_runs : run_calls (λ b, b) utf8 utf8 (drop 4 market_calls) early_market = Some market.
Proof. exact (run_calls_drop (λ b, b) utf8 utf8 4 market_calls market_start market_start market market_runs). Qed.
#[local] Opaque early_market.
Definition early_job : JobRecord := mkJob "GCRE" (repeat Byte.x02 32) 100 50 None STATUS_OPEN 13 0.
Lemma early_job_ok : rg_jobs (h_data early_market) !! job_a = Some early_job.
Proof. vm_compute. reflexivity. Qed.
Lemma job_terms_fixed_witness :
  ∃ j', rg_jobs (h_data market) !! job_a = Some j' ∧ jr_fee j' = 100.
Proof.
  destruct (job_terms_fixed (λ b, b) utf8 utf8 "CREG" early_market market job_a early_job) as (j' & H1 & _ & _ & H2 & _); [|exact early_job_ok|].
  - apply (rtc_subrel (step (λ b, b) utf8 utf8 "CREG" honest)); [intros x y [env c h' ? ? _ ?|p t ?]; [by eapply step_call|by apply step_other]|].
    apply (run_calls_rtc _ _ _ "CREG" (drop 4 market_calls)); [repeat constructor|exact early_market_runs].
  - exists j'. split; [exact H1|exact H2].
Defined.
