(* ===== verification/PoolContract.v ===== *)
(** * The privacy pool contract

    [contracts/privacy-pool/src/lib.rs], [capacity.rs] and [withdrawal.rs]: deposits under
    commitments, withdrawals against proved roots, custody counters, pauses and limits.  The
    Groth16 verifier the pool calls, Keccak-256 and the XDR encoder of addresses are
    parameters. *)
From stdpp Require Import countable.
From stdpp Require Import base tactics list sets gmap strings.
From Stdlib Require Import ZArith Lia.
From S2P Require Import Prelude JsString Bytes Json PubValidate RelPayload Soroban RegContract.
Open Scope string_scope.
Open Scope list_scope.
Open Scope Z_scope.

Module Pool.
Definition DEFAULT_ROOT_EXPIRY_LEDGERS : Z := 17280.
Definition MAX_ROOT_HISTORY : nat := 100.
Definition WITHDRAWAL_PAUSE_TIMELOCK_LEDGERS : Z := 17280.
Definition NO_PAUSE_REQUEST : Z := 0.
Definition SCALAR_FIELD : list byte :=
  [Byte.x30; Byte.x64; Byte.x4e; Byte.x72; Byte.xe1; Byte.x31; Byte.xa0; Byte.x29;
   Byte.xb8; Byte.x50; Byte.x45; Byte.xb6; Byte.x81; Byte.x81; Byte.x58; Byte.x5d;
   Byte.x28; Byte.x33; Byte.xe8; Byte.x48; Byte.x79; Byte.xb9; Byte.x70; Byte.x91;
   Byte.x43; Byte.xe1; Byte.xf5; Byte.x93; Byte.xf0; Byte.x00; Byte.x00; Byte.x01].
Definition STATE : bool := true.
Definition ASP : bool := false.

Record PoolConfig : Type := mkConfig {
  pc_admin : Address;
  pc_groth16_verifier : Address;
  pc_native_sac : Address;
  pc_scope : Z;
  pc_root_expiry_ledgers : Z;
}.
Record RootEntry : Type := mkRoot { re_ledger : Z; re_dataset_hash : list byte }.
Record VerifyPublicInputsV3 : Type := mkInputs {
  vi_withdrawn_value : list byte;
  vi_state_root : list byte;
  vi_asp_root : list byte;
  vi_nullifier_hash : list byte;
  vi_new_commitment : list byte;
  vi_context : list byte;
}.
Inductive PoolError : Type :=
  | Unauthorized | AlreadyInitialized | InvalidProof | NullifierUsed | UnknownStateRoot | UnknownAspRoot
  | RootExpired | BadAmount | IndexMismatch | CustodyViolation | DepositsPaused | WithdrawalsPaused
  | NoPauseRequestPending | TreeAtCapacity | WithdrawalBelowMinimum.

(** capacity.rs *)
Definition TREE_DEPTH : Z := 20.
Definition MAX_COMMITMENTS : Z := 1000000.
Definition CAPACITY_WARNING_THRESHOLD_BPS : Z := 8500.
Definition CAPACITY_CRITICAL_THRESHOLD_BPS : Z := 9500.
Record TreeCapacityInfo : Type := mkCapacity {
  tc_max_capacity : Z;
  tc_current_count : Z;
  tc_depth : Z;
  tc_last_updated : Z;
}.
Inductive AlertLevel : Type := Normal | Warning | Critical.
Record CapacityAlert : Type := mkAlert { ca_level : AlertLevel; ca_timestamp : Z; ca_current_count : Z; ca_threshold_bps : Z }.

(** withdrawal.rs *)
Definition DEFAULT_MINIMUM_WITHDRAWAL : Z := 1000000.
Record WithdrawalConfig : Type := mkWdConfig { wd_minimum_amount : Z; wd_updated_at : Z; wd_updated_by : Address }.

Inductive Event : Type :=
  | EvDeposit (commitment : list byte) (index value scope : Z)
  | EvWithdraw (nullifier_hash new_commitment : list byte) (index value : Z)
  | EvRootPublished (kind : bool) (root : list byte) (ledger : Z) (dataset_hash : list byte)
  | EvDepositsPaused (ledger : Z)
  | EvDepositsUnpaused (ledger : Z)
  | EvWithdrawalPauseRequested (now activates : Z)
  | EvWithdrawalsUnpaused (ledger : Z)
  | EvCapInit (max : Z)
  | EvCapAlert (level : AlertLevel) (bps count : Z)
  | EvWdConfig (minimum : Z)
  | EvMinUpdated (minimum : Z) (caller : Address).

(** ** Storage, by the parts that change together *)
Record Book : Type := mkBook {
  bk_dep_count : Z;
  bk_tot_dep : Z;
  bk_tot_wd : Z;
  bk_nullifiers : gset (list byte);
  bk_commits : gmap (list byte) Z;
}.
Record Roots : Type := mkRoots {
  ro_entries : gmap (bool * list byte) RootEntry;
  ro_state_hist : list (list byte);
  ro_asp_hist : list (list byte);
}.
Record Limits : Type := mkLimits {
  li_deposits_paused : bool;
  li_wd_pause_req : Z;
  li_capacity : option TreeCapacityInfo;
  li_last_alert : option CapacityAlert;
  li_wd_config : option WithdrawalConfig;
  li_wd_admin : option Address;
}.
Record Store : Type := mkStore {
  pl_config : option PoolConfig;
  pl_book : Book;
  pl_roots : Roots;
  pl_limits : Limits;
  pl_events : list Event;
}.
Definition empty_store : Store :=
  mkStore None (mkBook 0 0 0 ∅ ∅) (mkRoots ∅ [] []) (mkLimits false NO_PAUSE_REQUEST None None None None) [].

Section pool.
Context `{SC : Sac}.
Context (keccak256 : list byte → list byte) (address_to_xdr : Address → list byte).
(** [verify_proof_v3] of the verifier at an address; none when the call fails *)
Context (verify : Address → list byte * list byte * list byte → VerifyPublicInputsV3 → option bool).
Abbreviation M := (C (Host Store) PoolError).

Definition set_cfg (c : PoolConfig) : M unit := wr (λ s, mkStore (Some c) (pl_book s) (pl_roots s) (pl_limits s) (pl_events s)).
Definition on_book (f : Book → Book) : M unit := wr (λ s, mkStore (pl_config s) (f (pl_book s)) (pl_roots s) (pl_limits s) (pl_events s)).
Definition on_roots (f : Roots → Roots) : M unit := wr (λ s, mkStore (pl_config s) (pl_book s) (f (pl_roots s)) (pl_limits s) (pl_events s)).
Definition on_limits (f : Limits → Limits) : M unit := wr (λ s, mkStore (pl_config s) (pl_book s) (pl_roots s) (f (pl_limits s)) (pl_events s)).
Definition publish (e : Event) : M unit := wr (λ s, mkStore (pl_config s) (pl_book s) (pl_roots s) (pl_limits s) (pl_events s ++ [e])).
Definition cfg : M PoolConfig := c ← rd pl_config; expect c.
(** the admin check every administrative call starts with *)
Definition admin_config (env : Env) (admin : Address) : M PoolConfig :=
  require_auth env admin;;
  config ← cfg;
  ensure (String.eqb (pc_admin config) admin) Unauthorized;;
  mret config.

(** ** Capacity *)
Definition fresh_capacity (env : Env) : TreeCapacityInfo := mkCapacity MAX_COMMITMENTS 0 TREE_DEPTH (env_timestamp env).
Definition get_tree_capacity (env : Env) (l : Limits) : TreeCapacityInfo := default (fresh_capacity env) (li_capacity l).
Definition set_capacity (c : TreeCapacityInfo) (l : Limits) : Limits :=
  mkLimits (li_deposits_paused l) (li_wd_pause_req l) (Some c) (li_last_alert l) (li_wd_config l) (li_wd_admin l).
Definition initialize_capacity_tracking (env : Env) : M unit :=
  on_limits (set_capacity (fresh_capacity env));; publish (EvCapInit MAX_COMMITMENTS).
Definition get_capacity_percentage_bps (c : TreeCapacityInfo) : Z :=
  if tc_max_capacity c =? 0 then 0 else (tc_current_count c * 10000 / tc_max_capacity c) mod 2 ^ 64.
Definition get_capacity_alert_level (c : TreeCapacityInfo) : AlertLevel :=
  let bps := get_capacity_percentage_bps c in
  if CAPACITY_CRITICAL_THRESHOLD_BPS <=? bps then Critical
  else if CAPACITY_WARNING_THRESHOLD_BPS <=? bps then Warning else Normal.
Definition is_tree_at_capacity (env : Env) (l : Limits) : bool :=
  let c := get_tree_capacity env l in tc_max_capacity c <=? tc_current_count c.
Definition should_emit (prev : option CapacityAlert) (level : AlertLevel) : bool :=
  match prev, level with
  | None, Warning | None, Critical => true
  | Some p, Critical => match ca_level p with Critical => false | _ => true end
  | Some p, Warning => match ca_level p with Normal => true | _ => false end
  | _, _ => false
  end.
Definition check_and_emit_capacity_alert (env : Env) (current_level : AlertLevel) : M unit :=
  l ← rd pl_limits;
  if should_emit (li_last_alert l) current_level then
    let c := get_tree_capacity env l in
    let threshold := match current_level with
                     | Critical => CAPACITY_CRITICAL_THRESHOLD_BPS
                     | Warning => CAPACITY_WARNING_THRESHOLD_BPS
                     | Normal => 0
                     end in
    on_limits (λ l, mkLimits (li_deposits_paused l) (li_wd_pause_req l) (li_capacity l)
      (Some (mkAlert current_level (env_timestamp env) (tc_current_count c) threshold)) (li_wd_config l) (li_wd_admin l));;
    publish (EvCapAlert current_level (get_capacity_percentage_bps c) (tc_current_count c))
  else mret tt.
Definition increment_commitment_count (env : Env) : M unit :=
  l ← rd pl_limits;
  let c := get_tree_capacity env l in
  count ← u64 (tc_current_count c + 1);
  let c' := mkCapacity (tc_max_capacity c) count (tc_depth c) (env_timestamp env) in
  on_limits (set_capacity c');;
  check_and_emit_capacity_alert env (get_capacity_alert_level c').

(** ** Withdrawal minimum *)
Definition set_wd_config (c : WithdrawalConfig) (l : Limits) : Limits :=
  mkLimits (li_deposits_paused l) (li_wd_pause_req l) (li_capacity l) (li_last_alert l) (Some c) (li_wd_admin l).
Definition initialize_withdrawal_config (env : Env) (admin : Address) (minimum_amount : Z) : M unit :=
  on_limits (λ l, let l' := set_wd_config (mkWdConfig minimum_amount (env_timestamp env) admin) l in
    mkLimits (li_deposits_paused l') (li_wd_pause_req l') (li_capacity l') (li_last_alert l') (li_wd_config l') (Some admin));;
  publish (EvWdConfig minimum_amount).
Definition get_minimum_withdrawal_amount (l : Limits) : Z :=
  match li_wd_config l with Some c => wd_minimum_amount c | None => DEFAULT_MINIMUM_WITHDRAWAL end.
Definition update_minimum_withdrawal_amount (env : Env) (caller : Address) (new_minimum : Z) : M unit :=
  l ← rd pl_limits;
  admin ← expect (li_wd_admin l);
  assert (String.eqb caller admin);;
  assert (0 <? new_minimum);;
  assert (new_minimum <=? 1000000000000000);;
  on_limits (set_wd_config (mkWdConfig new_minimum (env_timestamp env) caller));;
  publish (EvMinUpdated new_minimum caller).
Definition validate_withdrawal_amount (l : Limits) (amount : Z) : bool := get_minimum_withdrawal_amount l <=? amount.

(** ** Set-up and administration *)
Definition initialize (env : Env) (admin groth16_verifier native_sac : Address) (scope : Z) : M unit :=
  require_auth env admin;;
  c ← rd pl_config;
  ensure (negb (bool_decide (is_Some c))) AlreadyInitialized;;
  set_cfg (mkConfig admin groth16_verifier native_sac scope DEFAULT_ROOT_EXPIRY_LEDGERS);;
  on_roots (λ r, mkRoots (ro_entries r) [] []);;
  on_book (λ b, mkBook 0 0 0 (bk_nullifiers b) (bk_commits b));;
  initialize_capacity_tracking env;;
  initialize_withdrawal_config env admin 0.

Definition set_root_expiry (env : Env) (admin : Address) (expiry_ledgers : Z) : M unit :=
  config ← admin_config env admin;
  set_cfg (mkConfig (pc_admin config) (pc_groth16_verifier config) (pc_native_sac config) (pc_scope config) expiry_ledgers).
Definition transfer_admin (env : Env) (admin new_admin : Address) : M unit :=
  config ← admin_config env admin;
  set_cfg (mkConfig new_admin (pc_groth16_verifier config) (pc_native_sac config) (pc_scope config) (pc_root_expiry_ledgers config)).
Definition set_withdrawal_minimum (env : Env) (admin : Address) (new_minimum : Z) : M unit :=
  config ← admin_config env admin;
  update_minimum_withdrawal_amount env admin new_minimum.

Definition set_paused (b : bool) (l : Limits) : Limits :=
  mkLimits b (li_wd_pause_req l) (li_capacity l) (li_last_alert l) (li_wd_config l) (li_wd_admin l).
Definition set_pause_request (z : Z) (l : Limits) : Limits :=
  mkLimits (li_deposits_paused l) z (li_capacity l) (li_last_alert l) (li_wd_config l) (li_wd_admin l).
Definition pause_deposits (env : Env) (admin : Address) : M unit :=
  config ← admin_config env admin;
  on_limits (set_paused true);;
  publish (EvDepositsPaused (env_sequence env)).
Definition unpause_deposits (env : Env) (admin : Address) : M unit :=
  config ← admin_config env admin;
  on_limits (set_paused false);;
  publish (EvDepositsUnpaused (env_sequence env)).
Definition request_pause_withdrawals (env : Env) (admin : Address) : M unit :=
  config ← admin_config env admin;
  l ← rd pl_limits;
  if negb (li_wd_pause_req l =? NO_PAUSE_REQUEST) then mret tt
  else
    let now := env_sequence env in
    on_limits (set_pause_request now);;
    activates ← u32 (now + WITHDRAWAL_PAUSE_TIMELOCK_LEDGERS);
    publish (EvWithdrawalPauseRequested now activates).
Definition unpause_withdrawals (env : Env) (admin : Address) : M unit :=
  config ← admin_config env admin;
  l ← rd pl_limits;
  ensure (negb (li_wd_pause_req l =? NO_PAUSE_REQUEST)) NoPauseRequestPending;;
  on_limits (set_pause_request NO_PAUSE_REQUEST);;
  publish (EvWithdrawalsUnpaused (env_sequence env)).
Definition withdrawals_pause_active (env : Env) (l : Limits) : bool :=
  negb (li_wd_pause_req l =? NO_PAUSE_REQUEST) &&
  (WITHDRAWAL_PAUSE_TIMELOCK_LEDGERS <=? u32_saturating_sub (env_sequence env) (li_wd_pause_req l)).

(** [publish_root]: the entry, and the history of the last 100 *)
Definition push_history (root : list byte) (hist : list (list byte)) : list (list byte) :=
  (if (MAX_ROOT_HISTORY <=? length hist)%nat then tail hist else hist) ++ [root].
Definition publish_root (env : Env) (admin : Address) (root dataset_hash : list byte) (kind : bool) : M unit :=
  config ← admin_config env admin;
  on_roots (λ r, mkRoots (<[(kind, root) := mkRoot (env_sequence env) dataset_hash]> (ro_entries r))
    (if kind then push_history root (ro_state_hist r) else ro_state_hist r)
    (if kind then ro_asp_hist r else push_history root (ro_asp_hist r)));;
  publish (EvRootPublished kind root (env_sequence env) dataset_hash).
Definition update_state_root (env : Env) (admin : Address) (root dataset_hash : list byte) : M unit :=
  publish_root env admin root dataset_hash STATE.
Definition update_asp_root (env : Env) (admin : Address) (root dataset_hash : list byte) : M unit :=
  publish_root env admin root dataset_hash ASP.

(** ** Deposits and withdrawals *)
Definition deposit (env : Env) (depositor : Address) (value : Z) (commitment : list byte) (expected_index : Z) : M Z :=
  require_auth env depositor;;
  l ← rd pl_limits;
  ensure (negb (li_deposits_paused l)) DepositsPaused;;
  ensure (negb (value <=? 0)) BadAmount;;
  config ← cfg;
  index ← rd (λ s, bk_dep_count (pl_book s));
  ensure (index =? expected_index) IndexMismatch;;
  ensure (negb (is_tree_at_capacity env l)) TreeAtCapacity;;
  transfer env (pc_native_sac config) depositor (env_contract env) value;;
  count ← u64 (index + 1);
  on_book (λ b, mkBook count (bk_tot_dep b) (bk_tot_wd b) (bk_nullifiers b) (<[commitment := index]> (bk_commits b)));;
  increment_commitment_count env;;
  total ← rd (λ s, bk_tot_dep (pl_book s));
  total' ← i128 (total + value);
  on_book (λ b, mkBook (bk_dep_count b) total' (bk_tot_wd b) (bk_nullifiers b) (bk_commits b));;
  publish (EvDeposit commitment index value (pc_scope config));;
  mret index.

Definition require_fresh_root (env : Env) (config : PoolConfig) (kind : bool) (root : list byte) (unknown : PoolError) : M unit :=
  e ← rd (λ s, ro_entries (pl_roots s) !! (kind, root));
  entry ← ok_or_fail e unknown;
  ensure (negb (pc_root_expiry_ledgers config <? u32_saturating_sub (env_sequence env) (re_ledger entry))) RootExpired.

Definition i128_be32 (v : Z) : list byte := repeat Byte.x00 16 ++ be_bytes 16 (as_u128 v).
Definition compute_context (recipient : Address) (withdrawn_value fee : Z) (relayer : Address) (scope : Z) : list byte :=
  let buf := concat [address_to_xdr recipient; be_bytes 16 (as_u128 withdrawn_value); be_bytes 16 (as_u128 fee);
                     address_to_xdr relayer; be_bytes 8 scope] in
  be_bytes 32 (be_val 0 (keccak256 buf) mod be_val 0 SCALAR_FIELD).
Definition public_inputs (config : PoolConfig) (c : WithdrawCall) : VerifyPublicInputsV3 :=
  mkInputs (i128_be32 (wc_withdrawn_value c)) (wc_state_root c) (wc_asp_root c) (wc_nullifier_hash c) (wc_new_commitment c)
    (compute_context (wc_recipient c) (wc_withdrawn_value c) (wc_fee c) (wc_relayer c) (pc_scope config)).

(** the two transfers out of the pool *)
Definition pay_if (env : Env) (sac to : Address) (amount : Z) : M unit :=
  if 0 <? amount then transfer env sac (env_contract env) to amount else mret tt.

Definition withdraw (env : Env) (c : WithdrawCall) : M unit :=
  l ← rd pl_limits;
  ensure (negb (withdrawals_pause_active env l)) WithdrawalsPaused;;
  config ← cfg;
  ensure (negb ((wc_withdrawn_value c <=? 0) || (wc_fee c <? 0) || (wc_withdrawn_value c <? wc_fee c))) BadAmount;;
  ensure (validate_withdrawal_amount l (as_u128 (wc_withdrawn_value c))) WithdrawalBelowMinimum;;
  require_fresh_root env config STATE (wc_state_root c) UnknownStateRoot;;
  require_fresh_root env config ASP (wc_asp_root c) UnknownAspRoot;;
  used ← rd (λ s, bool_decide (wc_nullifier_hash c ∈ bk_nullifiers (pl_book s)));
  ensure (negb used) NullifierUsed;;
  valid ← expect (verify (pc_groth16_verifier config) (wc_proof_a c, wc_proof_b c, wc_proof_c c) (public_inputs config c));
  ensure valid InvalidProof;;
  b ← rd pl_book;
  wd ← i128 (bk_tot_wd b + wc_withdrawn_value c);
  ensure (negb (bk_tot_dep b <? wd)) CustodyViolation;;
  let index := bk_dep_count b in
  count ← u64 (index + 1);
  on_book (λ b, mkBook count (bk_tot_dep b) wd ({[ wc_nullifier_hash c ]} ∪ bk_nullifiers b)
                  (<[wc_new_commitment c := index]> (bk_commits b)));;
  payout ← i128 (wc_withdrawn_value c - wc_fee c);
  pay_if env (pc_native_sac config) (wc_recipient c) payout;;
  pay_if env (pc_native_sac config) (wc_relayer c) (wc_fee c);;
  publish (EvWithdraw (wc_nullifier_hash c) (wc_new_commitment c) index (wc_withdrawn_value c)).

(** ** Views *)
Definition is_spent (nullifier_hash : list byte) (s : Store) : bool := bool_decide (nullifier_hash ∈ bk_nullifiers (pl_book s)).
Definition is_known_root (kind : bool) (root : list byte) (s : Store) : bool :=
  bool_decide (is_Some (ro_entries (pl_roots s) !! (kind, root))).
Definition get_custody (s : Store) : Z * Z := (bk_tot_dep (pl_book s), bk_tot_wd (pl_book s)).
Definition get_latest_root (state : bool) : M (list byte) :=
  hist ← rd (λ s, if state then ro_state_hist (pl_roots s) else ro_asp_hist (pl_roots s));
  ok_or_fail (last hist) (if state then UnknownStateRoot else UnknownAspRoot).
Definition get_withdrawal_pause_request : M (Z * Z) :=
  l ← rd pl_limits;
  if li_wd_pause_req l =? NO_PAUSE_REQUEST then mret (0, 0)
  else a ← u32 (li_wd_pause_req l + WITHDRAWAL_PAUSE_TIMELOCK_LEDGERS); mret (li_wd_pause_req l, a).
End pool.
End Pool.
