(* ===== verification/PoolProofs.v ===== *)
(** * The privacy pool contract: custody, nullifiers and the leaves it announces

    Invariants of every run of the pool, the pool as the contract the relayer registry calls,
    and the pool behind the SDK: what its prover proves is paid, and what its events announce
    is the tree the prover rebuilds. *)
From stdpp Require Import countable.
From stdpp Require Import base tactics list sets gmap strings relations.
From Stdlib Require Import ZArith Lia.
From S2P Require Import Prelude JsString Bytes Json PubValidate RelPayload Soroban RegContract PoolContract.
Import Pool.
Open Scope string_scope.
Open Scope list_scope.
Open Scope Z_scope.

(** ** What the events say *)

(** The leaves announced, each with its index, and the nullifiers spent. *)
Definition leaf_of (e : Event) : option (list byte * Z) :=
  match e with
  | EvDeposit c i _ _ => Some (c, i)
  | EvWithdraw _ c i _ => Some (c, i)
  | _ => None
  end.
Definition spent_of (e : Event) : option (list byte) := match e with EvWithdraw n _ _ _ => Some n | _ => None end.
Definition deposited_of (e : Event) : Z := match e with EvDeposit _ _ v _ => v | _ => 0 end.
Definition withdrawn_of (e : Event) : Z := match e with EvWithdraw _ _ _ v => v | _ => 0 end.
Definition sum_events (f : Event → Z) (evs : list Event) : Z := foldr (λ e acc, f e + acc) 0 evs.

Lemma sum_events_app f l1 l2 : sum_events f (l1 ++ l2) = sum_events f l1 + sum_events f l2.
Proof. induction l1 as [|e l IH]; simpl; lia. Qed.

Section custody.
Context `{SC : Sac}.
Context (keccak256 : list byte → list byte) (address_to_xdr : Address → list byte).
Context (verify : Address → list byte * list byte * list byte → VerifyPublicInputsV3 → option bool).
Context (self : Address).
Abbreviation World := (Host Store).

Record pool_ok (h : World) : Prop := {
  ok_leaves : (omap leaf_of (pl_events (h_data h))).*2 = seqZ 0 (bk_dep_count (pl_book (h_data h)));
  ok_width : 0 <= bk_dep_count (pl_book (h_data h)) < 2 ^ 64 ∧ bk_tot_dep (pl_book (h_data h)) < 2 ^ 127;
  ok_spent n : n ∈ bk_nullifiers (pl_book (h_data h)) ↔ n ∈ omap spent_of (pl_events (h_data h));
  ok_once : NoDup (omap spent_of (pl_events (h_data h)));
  ok_totals : bk_tot_dep (pl_book (h_data h)) = sum_events deposited_of (pl_events (h_data h)) ∧
              bk_tot_wd (pl_book (h_data h)) = sum_events withdrawn_of (pl_events (h_data h));
  ok_custody : 0 <= bk_tot_wd (pl_book (h_data h)) <= bk_tot_dep (pl_book (h_data h));
  ok_backed : match pl_config (h_data h) with
              | Some c => bk_tot_dep (pl_book (h_data h)) - bk_tot_wd (pl_book (h_data h)) <= balance (h_tok h) (pc_native_sac c) self
              | None => bk_dep_count (pl_book (h_data h)) = 0 ∧ bk_tot_dep (pl_book (h_data h)) = 0 ∧ bk_tot_wd (pl_book (h_data h)) = 0
              end;
}.

Ltac pool_steps :=
  unfold initialize_capacity_tracking, initialize_withdrawal_config, admin_config, cfg, set_cfg, on_book, on_roots, on_limits, publish in *;
  repeat (call_step; cbn [h_data h_tok pl_config pl_book pl_roots pl_limits pl_events] in * ).

(** A call that emits none of the two events, keeps the book and the tokens, and at most
    changes the configuration without its token keeps the invariant. *)
Definition quiet_event (e : Event) : Prop := leaf_of e = None ∧ spent_of e = None ∧ deposited_of e = 0 ∧ withdrawn_of e = 0.
Lemma quiet_ok h h' evs c' :
  pool_ok h → h_tok h' = h_tok h → pl_book (h_data h') = pl_book (h_data h) →
  pl_events (h_data h') = pl_events (h_data h) ++ evs → Forall quiet_event evs →
  pl_config (h_data h') = Some c' → (∀ c, pl_config (h_data h) = Some c → pc_native_sac c' = pc_native_sac c) →
  pool_ok h'.
Proof.
  intros [Hl Hc Hs Ho [Hd Hw] Hcu Hb] Et Eb Ee Hq Ec Hsac.
  assert (Hq' : omap leaf_of evs = [] ∧ omap spent_of evs = [] ∧ sum_events deposited_of evs = 0 ∧ sum_events withdrawn_of evs = 0).
  { clear -Hq. induction Hq as [|e l (H1 & H2 & H3 & H4) _ IH]; [done|]. simpl. rewrite H1, H2, H3, H4. naive_solver. }
  destruct Hq' as (Q1 & Q2 & Q3 & Q4). split; rewrite ?Ee, ?Eb, ?omap_app, ?Q1, ?Q2, ?app_nil_r, ?sum_events_app, ?Q3, ?Q4, ?Z.add_0_r; try done.
  rewrite Ec, Et. destruct (pl_config (h_data h)) as [c|].
  - by rewrite (Hsac c).
  - destruct Hb as (_ & -> & ->). apply balance_nonneg.
Qed.

(** What counting a commitment changes. *)
Lemma increment_return env (h : World) u h' :
  increment_commitment_count env h = Return (u, h') →
  ∃ evs, pl_events (h_data h') = pl_events (h_data h) ++ evs ∧ Forall quiet_event evs ∧
    pl_config (h_data h') = pl_config (h_data h) ∧ pl_book (h_data h') = pl_book (h_data h) ∧
    pl_roots (h_data h') = pl_roots (h_data h) ∧ h_tok h' = h_tok h ∧
    li_wd_pause_req (pl_limits (h_data h')) = li_wd_pause_req (pl_limits (h_data h)) ∧
    get_tree_capacity env (pl_limits (h_data h')) =
      (let c := get_tree_capacity env (pl_limits (h_data h)) in mkCapacity (tc_max_capacity c) (tc_current_count c + 1) (tc_depth c) (env_timestamp env)).
Proof.
  unfold increment_commitment_count, check_and_emit_capacity_alert. intros H. pool_steps.
  destruct (should_emit _ _); pool_steps; [eexists [_]|exists []]; (split; [by rewrite ?app_nil_r|]); split_and!; try done; by repeat constructor.
Qed.

(** The book after a new leaf. *)
Lemma leaf_ok (h h' : World) e c i evs :
  pool_ok h → leaf_of e = Some (c, i) → i = bk_dep_count (pl_book (h_data h)) →
  bk_dep_count (pl_book (h_data h')) = i + 1 →
  pl_events (h_data h') = pl_events (h_data h) ++ evs ++ [e] → Forall quiet_event evs →
  (omap leaf_of (pl_events (h_data h'))).*2 = seqZ 0 (bk_dep_count (pl_book (h_data h'))) ∧
  omap spent_of (pl_events (h_data h')) = omap spent_of (pl_events (h_data h)) ++ omap spent_of [e] ∧
  sum_events deposited_of (pl_events (h_data h')) = bk_tot_dep (pl_book (h_data h)) + deposited_of e ∧
  sum_events withdrawn_of (pl_events (h_data h')) = bk_tot_wd (pl_book (h_data h)) + withdrawn_of e.
Proof.
  intros [Hl Hc _ _ [Hd Hw] _ _] He Hi Hn Ee Hq.
  assert (Hq' : omap leaf_of evs = [] ∧ omap spent_of evs = [] ∧ sum_events deposited_of evs = 0 ∧ sum_events withdrawn_of evs = 0).
  { clear -Hq. induction Hq as [|e l (H1 & H2 & H3 & H4) _ IH]; [done|]. simpl. rewrite H1, H2, H3, H4. naive_solver. }
  destruct Hq' as (Q1 & Q2 & Q3 & Q4). rewrite Ee, !omap_app, !sum_events_app, Q1, Q2, Q3, Q4, Hd, Hw, Hn. simpl. rewrite He. simpl. split_and!; [|done|lia|lia].
  rewrite fmap_app, Hl. simpl. subst i. rewrite (seqZ_app 0 _ 1) by lia. by rewrite Z.add_0_l.
Qed.

(** Everything a deposit that returned has checked, and everything it did. *)
Lemma deposit_return env depositor value commitment expected h i h' :
  deposit env depositor value commitment expected h = Return (i, h') →
  ∃ config evs, pl_config (h_data h) = Some config ∧ pl_config (h_data h') = Some config ∧
    env_auth env depositor = true ∧ 0 < value ∧ li_deposits_paused (pl_limits (h_data h)) = false ∧
    is_tree_at_capacity env (pl_limits (h_data h)) = false ∧
    i = expected ∧ expected = bk_dep_count (pl_book (h_data h)) ∧
    i + 1 < 2 ^ 64 ∧ bk_tot_dep (pl_book (h_data h)) + value < 2 ^ 127 ∧
    pl_book (h_data h') = (let b := pl_book (h_data h) in
      mkBook (i + 1) (bk_tot_dep b + value) (bk_tot_wd b) (bk_nullifiers b) (<[commitment := i]> (bk_commits b))) ∧
    pl_events (h_data h') = pl_events (h_data h) ++ evs ++ [EvDeposit commitment i value (pc_scope config)] ∧ Forall quiet_event evs ∧
    pl_roots (h_data h') = pl_roots (h_data h) ∧
    li_wd_pause_req (pl_limits (h_data h')) = li_wd_pause_req (pl_limits (h_data h)) ∧
    get_tree_capacity env (pl_limits (h_data h')) =
      (let c := get_tree_capacity env (pl_limits (h_data h)) in mkCapacity (tc_max_capacity c) (tc_current_count c + 1) (tc_depth c) (env_timestamp env)) ∧
    ∀ s a, balance (h_tok h') s a = balance (h_tok h) s a
      - (if decide (s = pc_native_sac config ∧ a = depositor) then value else 0)
      + (if decide (s = pc_native_sac config ∧ a = env_contract env) then value else 0).
Proof.
  intros H. unfold deposit in H. pool_steps.
  match goal with H : transfer _ _ _ _ _ _ = Return _ |- _ => apply transfer_return in H as (Hd & _ & Ht) end.
  match goal with H : increment_commitment_count _ _ = Return _ |- _ => apply increment_return in H as (evs & Ee & Hq & Ec & Eb & Er & Et & Ep & Ecap) end.
  simpl in *. apply transfer_spec in Ht as [_ Hbal]. rewrite Hd in *.
  match goal with Hc : pl_config (h_data h) = Some ?c |- _ => exists c, evs; rewrite Hc in Ec end.
  unfold in_u64, in_i128 in *. split_and!; try (done || lia || (by apply negb_true_iff)).
  - rewrite Eb in *. simpl in *. lia.
  - by rewrite Eb.
  - by rewrite Ee, <-app_assoc.
  - intros s a. by rewrite Et, Hbal.
Qed.

Lemma deposit_ok env depositor value commitment expected h i h' :
  env_contract env = self → env_auth env self = false → pool_ok h →
  deposit env depositor value commitment expected h = Return (i, h') → pool_ok h'.
Proof.
  intros He Ha Hok (config & evs & Hc & Hc' & Had & Hv & _ & _ & -> & -> & Hw1 & Hw2 & Eb & Ee & Hq & _ & _ & _ & Hbal)%deposit_return.
  destruct (leaf_ok h h' (EvDeposit commitment (bk_dep_count (pl_book (h_data h))) value (pc_scope config)) commitment
      (bk_dep_count (pl_book (h_data h))) evs Hok) as (L1 & L2 & L3 & L4); [done|done|by rewrite Eb|done|done|].
  simpl in *. rewrite app_nil_r in L2. destruct Hok as [Hl Hcn Hs Ho [Htd Htw] Hcu Hb]. rewrite Hc in Hb.
  assert (depositor ≠ self) by congruence. split; rewrite ?L2, ?Eb; simpl; try (done || lia).
  - by rewrite Eb in L1.
  - rewrite Hc', Hbal. repeat case_decide; naive_solver lia.
Qed.

Lemma pay_if_return env sac to amount (h : World) u h' :
  pay_if env sac to amount h = Return (u, h') →
  h_data h' = h_data h ∧ ∀ s a, balance (h_tok h') s a = balance (h_tok h) s a
    - (if decide (s = sac ∧ a = env_contract env) then Z.max 0 amount else 0) + (if decide (s = sac ∧ a = to) then Z.max 0 amount else 0).
Proof.
  unfold pay_if. destruct (Z.ltb_spec 0 amount) as [Hp|Hn].
  - intros (Hd & _ & Ht)%transfer_return. split; [done|]. intros s a. apply transfer_spec in Ht as [_ ->]. by rewrite Z.max_r by lia.
  - intros [_ ->]%ret_return. split; [done|]. intros s a. rewrite Z.max_l by lia. repeat case_decide; lia.
Qed.

Definition fresh_root (env : Env) (config : PoolConfig) (kind : bool) (root : list byte) (s : Store) : Prop :=
  ∃ e, ro_entries (pl_roots s) !! (kind, root) = Some e ∧ u32_saturating_sub (env_sequence env) (re_ledger e) <= pc_root_expiry_ledgers config.

(** Everything a withdrawal that returned has checked, and everything it did. *)
Lemma withdraw_return env c (h : World) u h' :
  withdraw keccak256 address_to_xdr verify env c h = Return (u, h') →
  ∃ config, pl_config (h_data h) = Some config ∧
    withdrawals_pause_active env (pl_limits (h_data h)) = false ∧
    0 < wc_withdrawn_value c ∧ 0 <= wc_fee c <= wc_withdrawn_value c ∧
    fresh_root env config STATE (wc_state_root c) (h_data h) ∧ fresh_root env config ASP (wc_asp_root c) (h_data h) ∧
    wc_nullifier_hash c ∉ bk_nullifiers (pl_book (h_data h)) ∧
    verify (pc_groth16_verifier config) (wc_proof_a c, wc_proof_b c, wc_proof_c c) (public_inputs keccak256 address_to_xdr config c) = Some true ∧
    bk_tot_wd (pl_book (h_data h)) + wc_withdrawn_value c <= bk_tot_dep (pl_book (h_data h)) ∧
    bk_dep_count (pl_book (h_data h)) + 1 < 2 ^ 64 ∧
    h_data h' = (let s := h_data h in let b := pl_book s in
      mkStore (pl_config s) (mkBook (bk_dep_count b + 1) (bk_tot_dep b) (bk_tot_wd b + wc_withdrawn_value c)
          ({[ wc_nullifier_hash c ]} ∪ bk_nullifiers b) (<[wc_new_commitment c := bk_dep_count b]> (bk_commits b)))
        (pl_roots s) (pl_limits s)
        (pl_events s ++ [EvWithdraw (wc_nullifier_hash c) (wc_new_commitment c) (bk_dep_count b) (wc_withdrawn_value c)])) ∧
    ∀ s a, balance (h_tok h') s a = balance (h_tok h) s a
      - (if decide (s = pc_native_sac config ∧ a = env_contract env) then wc_withdrawn_value c else 0)
      + (if decide (s = pc_native_sac config ∧ a = wc_recipient c) then wc_withdrawn_value c - wc_fee c else 0)
      + (if decide (s = pc_native_sac config ∧ a = wc_relayer c) then wc_fee c else 0).
Proof.
  intros H. unfold withdraw, require_fresh_root in H. pool_steps.
  repeat match goal with H : pay_if _ _ _ _ _ = Return _ |- _ =>
    let Hd := fresh "Hdata" in let Hb := fresh "Hbal" in apply pay_if_return in H as [Hd Hb]; simpl in Hd, Hb end.
  match goal with Hc : pl_config (h_data h) = Some ?cf |- _ => exists cf; rename cf into config end. simplify_eq.
  repeat match goal with H : negb (bool_decide _) = true |- _ => apply negb_true_iff, bool_decide_eq_false in H end.
  unfold in_u64 in *. split_and!; try (done || lia || (by apply negb_true_iff)).
  1, 2: eexists; split; [done|lia].
  - simpl. repeat match goal with Hd : h_data _ = _ |- _ => rewrite Hd end. done.
  - intros s a. simpl. repeat match goal with Hb : ∀ s a, balance _ s a = _ |- _ => rewrite Hb; clear Hb end. repeat case_decide; naive_solver lia.
Qed.

Lemma withdraw_ok env c h u h' :
  env_contract env = self → pool_ok h → withdraw keccak256 address_to_xdr verify env c h = Return (u, h') → pool_ok h'.
Proof.
  intros He Hok (config & Hc & _ & Hv & Hf & _ & _ & Hn & _ & Hcu' & Hw1 & Hd & Hbal)%withdraw_return. simpl in Hd.
  destruct (leaf_ok h h' (EvWithdraw (wc_nullifier_hash c) (wc_new_commitment c) (bk_dep_count (pl_book (h_data h))) (wc_withdrawn_value c))
    (wc_new_commitment c) (bk_dep_count (pl_book (h_data h))) [] Hok) as (L1 & L2 & L3 & L4); [done|done|by rewrite Hd|by rewrite Hd|done|].
  destruct Hok as [Hl Hcn Hs Ho [Htd Htw] Hcu Hb]. rewrite Hc in Hb. simpl in L2, L3, L4. split; rewrite ?L2, ?L3, ?L4.
  - exact L1.
  - rewrite Hd. simpl. lia.
  - intros n. rewrite elem_of_app, <-Hs, list_elem_of_singleton, Hd. simpl. set_solver.
  - apply NoDup_app. split; [done|]. split; [|apply NoDup_singleton]. intros n Hin ->%list_elem_of_singleton. by apply Hn, Hs.
  - rewrite Hd. simpl. lia.
  - rewrite Hd. simpl. lia.
  - rewrite Hd. simpl. rewrite Hc, Hbal. repeat case_decide; naive_solver lia.
Qed.

(** ** Runs of the contract *)
Inductive Call : Type :=
  | Initialize (admin verifier sac : Address) (scope : Z)
  | Deposit (depositor : Address) (value : Z) (commitment : list byte) (expected_index : Z)
  | Withdraw (c : WithdrawCall)
  | UpdateRoot (admin : Address) (root dataset_hash : list byte) (kind : bool)
  | SetRootExpiry (admin : Address) (expiry_ledgers : Z)
  | TransferAdmin (admin new_admin : Address)
  | PauseDeposits (admin : Address)
  | UnpauseDeposits (admin : Address)
  | RequestPauseWithdrawals (admin : Address)
  | UnpauseWithdrawals (admin : Address)
  | SetWithdrawalMinimum (admin : Address) (new_minimum : Z).
Definition run_call (env : Env) (c : Call) : C World PoolError unit :=
  match c with
  | Initialize admin verifier sac scope => initialize env admin verifier sac scope
  | Deposit d v cm i => deposit env d v cm i;; mret tt
  | Withdraw c => withdraw keccak256 address_to_xdr verify env c
  | UpdateRoot admin root hash kind => publish_root env admin root hash kind
  | SetRootExpiry admin e => set_root_expiry env admin e
  | TransferAdmin admin new_admin => transfer_admin env admin new_admin
  | PauseDeposits admin => pause_deposits env admin
  | UnpauseDeposits admin => unpause_deposits env admin
  | RequestPauseWithdrawals admin => request_pause_withdrawals env admin
  | UnpauseWithdrawals admin => unpause_withdrawals env admin
  | SetWithdrawalMinimum admin m => set_withdrawal_minimum env admin m
  end.

Inductive step (h : World) : World → Prop :=
  | step_call env c h' :
      env_contract env = self → env_auth env self = false → run_call env c h = Return (tt, h') → step h h'
  | step_other t : (∀ sac, balance (h_tok h) sac self <= balance t sac self) → step h (mkHost (h_data h) t).
Definition reachable (h : World) : Prop := ∃ t, rtc step (mkHost empty_store t) h.

Definition is_money (c : Call) : bool := match c with Deposit _ _ _ _ | Withdraw _ => true | _ => false end.

(** The other calls leave the book and the tokens alone. *)
Lemma admin_call env c h h' :
  is_money c = false → pool_ok h → run_call env c h = Return (tt, h') →
  h_tok h' = h_tok h ∧ pl_book (h_data h') = pl_book (h_data h) ∧
  (∃ evs, pl_events (h_data h') = pl_events (h_data h) ++ evs ∧ Forall quiet_event evs) ∧
  ∃ c', pl_config (h_data h') = Some c' ∧ ∀ c, pl_config (h_data h) = Some c → pc_native_sac c' = pc_native_sac c ∧ pc_scope c' = pc_scope c.
Proof.
  intros Hm Hok H. destruct c; try done; simpl in H;
    unfold initialize, publish_root, set_root_expiry, transfer_admin, pause_deposits, unpause_deposits, request_pause_withdrawals,
      unpause_withdrawals, set_withdrawal_minimum, update_minimum_withdrawal_amount in H; pool_steps.
  { destruct Hok as [_ _ _ _ _ _ Hb]. destruct (pl_config (h_data h)); [done|]. destruct Hb as (E1 & E2 & E3).
    split; [done|]. split; [destruct (pl_book (h_data h)); simpl in *; by subst|]. split; [|by eexists].
    exists [EvCapInit MAX_COMMITMENTS; EvWdConfig 0]. rewrite <-app_assoc. split; [done|]. by repeat constructor. }
  6: match goal with H : (if negb ?b then _ else _) _ = Return _ |- _ => destruct (negb b) end; pool_steps.
  all: split; [done|]; split; [done|]; split; [|eexists; split; [eassumption || reflexivity|intros cc Hcc; simplify_eq; by rewrite ?Hcc]].
  all: first [eexists [_]; split; [reflexivity|by repeat constructor]|exists []; split; [by rewrite app_nil_r|done]].
Qed.

Lemma pool_call_ok env c h h' :
  env_contract env = self → env_auth env self = false → pool_ok h → run_call env c h = Return (tt, h') → pool_ok h'.
Proof.
  intros He Ha Hok H. destruct (is_money c) eqn:Hm.
  - destruct c; try done; simpl in H; [|by eapply withdraw_ok]. pool_steps. by eapply deposit_ok.
  - destruct (admin_call _ _ _ _ Hm Hok H) as (Et & Eb & (evs & Ee & Hq) & c' & Ec & Hs). eapply quiet_ok; [done|done|done|done|done|done|]. intros cc Hcc. by apply Hs.
Qed.

Lemma pool_step_ok h h' : step h h' → pool_ok h → pool_ok h'.
Proof.
  intros [env c h1 He Ha H|t Hb] Hok; [by eapply pool_call_ok|]. destruct Hok as [Hl Hc Hs Ho Ht Hcu Hba]. split; simpl; try done.
  destruct (pl_config (h_data h)) as [c|]; [|done]. specialize (Hb (pc_native_sac c)). lia.
Qed.
Lemma pool_reachable_ok h : reachable h → pool_ok h.
Proof.
  intros (t & Hrtc). eapply (rtc_ind_r pool_ok); [|eauto using pool_step_ok|exact Hrtc].
  split; simpl; try done; [|by constructor]. intros n. split; intros Hn; [by apply elem_of_empty in Hn|by apply elem_of_nil in Hn].
Qed.

(** C1 (invariant): The pool is always backed and its counters are the truth: whatever is
    called by anybody in any order, the tokens it holds cover everything deposited and not
    withdrawn, withdrawals never exceed deposits, and both counters are the sums the events
    announce. *)
Theorem pool_custody h c (Hr : reachable h) (Hc : pl_config (h_data h) = Some c) :
  let '(deposited, withdrawn) := get_custody (h_data h) in
  0 <= withdrawn <= deposited ∧ deposited - withdrawn <= balance (h_tok h) (pc_native_sac c) self ∧
  deposited = sum_events deposited_of (pl_events (h_data h)) ∧ withdrawn = sum_events withdrawn_of (pl_events (h_data h)).
Proof. apply pool_reachable_ok in Hr as [_ _ _ _ [Hd Hw] Hcu Hb]. rewrite Hc in Hb. simpl. auto. Qed.

(** Events are never taken back. *)
Lemma step_events h h' : step h h' → pool_ok h → ∃ evs, pl_events (h_data h') = pl_events (h_data h) ++ evs.
Proof.
  intros [env c h1 He Ha H|t _] Hok; [|exists []; by rewrite app_nil_r]. destruct (is_money c) eqn:Hm.
  - destruct c; try done; simpl in H; [|apply withdraw_return in H as (?&?&?&?&?&?&?&?&?&?&?&Hd&_); rewrite Hd; by eexists].
    pool_steps. match goal with H : deposit _ _ _ _ _ _ = _ |- _ => apply deposit_return in H as (?&?&?&?&?&?&?&?&?&?&?&?&?&Ee&_) end.
    rewrite Ee. by eexists.
  - destruct (admin_call _ _ _ _ Hm Hok H) as (_ & _ & (evs & Ee & _) & _). by exists evs.
Qed.
Lemma run_events h h' : pool_ok h → rtc step h h' → ∃ evs, pl_events (h_data h') = pl_events (h_data h) ++ evs.
Proof.
  intros Hok Hrun. revert Hok. induction Hrun as [h|h h1 h2 Hs _ IH]; intros Hok; [exists []; by rewrite app_nil_r|].
  destruct (step_events _ _ Hs Hok) as [e1 E1]. destruct (IH (pool_step_ok _ _ Hs Hok)) as [e2 E2].
  exists (e1 ++ e2). by rewrite E2, E1, app_assoc.
Qed.

(** C2 (safety): No nullifier is spent twice: in every run the nullifiers of the withdrawals
    are pairwise different, the pool reports a nullifier spent exactly when a withdrawal
    announced it, and it never forgets one. *)
Theorem nullifier_spent_once h h' n (Hr : reachable h) (Hrun : rtc step h h') :
  NoDup (omap spent_of (pl_events (h_data h'))) ∧
  (is_spent n (h_data h') = true ↔ n ∈ omap spent_of (pl_events (h_data h'))) ∧
  (is_spent n (h_data h) = true → is_spent n (h_data h') = true).
Proof.
  assert (Hr' : reachable h') by (destruct Hr as [t Ht]; exists t; by etrans).
  apply pool_reachable_ok in Hr as Hok. apply pool_reachable_ok in Hr' as Hok'. destruct (run_events _ _ Hok Hrun) as [evs Ee].
  assert (Hiff : ∀ w, pool_ok w → is_spent n (h_data w) = true ↔ n ∈ omap spent_of (pl_events (h_data w))).
  { intros w Hw. unfold is_spent. rewrite bool_decide_eq_true. apply (ok_spent w Hw). }
  split; [apply (ok_once _ Hok')|]. split; [by apply Hiff|]. rewrite !Hiff by done. rewrite Ee, omap_app, elem_of_app. auto.
Qed.

(** ** Pausing withdrawals *)

(** The events that request and lift a pause: the ledger of the request, or none. *)
Definition pause_of (e : Event) : option (option Z) :=
  match e with
  | EvWithdrawalPauseRequested r _ => Some (Some r)
  | EvWithdrawalsUnpaused _ => Some None
  | _ => None
  end.
Definition pause_logged (h : World) : Prop :=
  li_wd_pause_req (pl_limits (h_data h)) ≠ NO_PAUSE_REQUEST →
  last (omap pause_of (pl_events (h_data h))) = Some (Some (li_wd_pause_req (pl_limits (h_data h)))).

Lemma last_omap_snoc evs e : last (omap pause_of (evs ++ [e])) =
  match pause_of e with Some r => Some r | None => last (omap pause_of evs) end.
Proof. rewrite omap_app. simpl. destruct (pause_of e); [apply last_snoc|by rewrite app_nil_r]. Qed.

Lemma pause_logged_keeps h h' e :
  pause_logged h → pl_events (h_data h') = pl_events (h_data h) ++ [e] → pause_of e = None →
  li_wd_pause_req (pl_limits (h_data h')) = li_wd_pause_req (pl_limits (h_data h)) → pause_logged h'.
Proof. unfold pause_logged. intros Hl Ee He Er. by rewrite Er, Ee, last_omap_snoc, He. Qed.

Lemma increment_pause env (h : World) u h' :
  increment_commitment_count env h = Return (u, h') → pause_logged h → pause_logged h'.
Proof.
  unfold increment_commitment_count, check_and_emit_capacity_alert. intros H Hl. pool_steps.
  destruct (should_emit _ _); pool_steps; [|exact Hl]. by eapply (pause_logged_keeps h).
Qed.

Lemma call_pause env c h h' : run_call env c h = Return (tt, h') → pause_logged h → pause_logged h'.
Proof.
  intros H Hl. destruct c; simpl in H.
  - unfold initialize in H. pool_steps. intros Hn. simpl in *. rewrite !last_omap_snoc. by apply Hl.
  - unfold deposit in H. pool_steps. match goal with H : transfer _ _ _ _ _ _ = Return _ |- _ => apply transfer_return in H as (Hd & _) end.
    match goal with H : increment_commitment_count _ _ = Return _ |- _ => apply increment_pause in H as Hinc end.
    + by eapply (pause_logged_keeps _ _ _ Hinc).
    + unfold pause_logged in *. simpl. by rewrite Hd.
  - apply withdraw_return in H as (?&?&?&?&?&?&?&?&?&?&?&Hd&_). eapply (pause_logged_keeps h _ _ Hl); [rewrite Hd; reflexivity|done|by rewrite Hd].
  - unfold publish_root in H. pool_steps. by eapply (pause_logged_keeps h).
  - unfold set_root_expiry in H. by pool_steps.
  - unfold transfer_admin in H. by pool_steps.
  - unfold pause_deposits in H. pool_steps. by eapply (pause_logged_keeps h).
  - unfold unpause_deposits in H. pool_steps. by eapply (pause_logged_keeps h).
  - unfold request_pause_withdrawals in H. pool_steps.
    match goal with H : (if negb ?b then _ else _) _ = Return _ |- _ => destruct (negb b) end; pool_steps; [done|].
    intros _. simpl. by rewrite last_omap_snoc.
  - unfold unpause_withdrawals in H. pool_steps. by intros [].
  - unfold set_withdrawal_minimum, update_minimum_withdrawal_amount in H. pool_steps. by eapply (pause_logged_keeps h).
Qed.

(** C28 (safety): Withdrawals are never frozen without notice: whenever they are paused, a
    request was announced at least 17280 ledgers earlier and has not been lifted since;
    repeating the request does not move it. *)
Theorem pause_needs_notice h env (Hr : reachable h) (Hp : withdrawals_pause_active env (pl_limits (h_data h)) = true) :
  ∃ r, last (omap pause_of (pl_events (h_data h))) = Some (Some r) ∧ r + WITHDRAWAL_PAUSE_TIMELOCK_LEDGERS <= env_sequence env.
Proof.
  destruct Hr as [t Hrun]. assert (Hl : pause_logged h).
  { eapply (rtc_ind_r pause_logged); [| |exact Hrun]; [by intros Hn; destruct Hn|].
    intros h1 h2 _ [env' c h3 _ _ H|t' _] Hl; [by eapply call_pause|exact Hl]. }
  unfold withdrawals_pause_active in Hp. apply andb_true_iff in Hp as [Hn Hs]. eexists. split; [apply Hl; by intros E; rewrite E in Hn|].
  unfold u32_saturating_sub, WITHDRAWAL_PAUSE_TIMELOCK_LEDGERS in *. lia.
Qed.

(** ** Limits that do not hold *)

(** Handing over the administration freezes the withdrawal minimum: the pool
    checks its own admin, the withdrawal settings still know the first one, so after the
    hand-over no caller can change the minimum any more. *)
Theorem handover_freezes_minimum env admin new_admin h h'
    (Hh : run_call env (TransferAdmin admin new_admin) h = Return (tt, h'))
    (Hfirst : li_wd_admin (pl_limits (h_data h)) = Some admin) (Hne : new_admin ≠ admin) :
  ∀ env' caller m h2, run_call env' (SetWithdrawalMinimum caller m) h' ≠ Return (tt, h2).
Proof.
  intros env' caller m h2 H. simpl in *. unfold transfer_admin in Hh. pool_steps.
  unfold set_withdrawal_minimum, update_minimum_withdrawal_amount in H. pool_steps.
  repeat match goal with H : String.eqb _ _ = true |- _ => apply String.eqb_eq in H end. simplify_eq.
Qed.

(** The counter behind the capacity guard counts deposits; [get_deposit_count] counts leaves. *)
Definition is_deposit (e : Event) : option unit := match e with EvDeposit _ _ _ _ => Some tt | _ => None end.

Lemma withdraw_limits env c h u h' : withdraw keccak256 address_to_xdr verify env c h = Return (u, h') →
  pl_limits (h_data h') = pl_limits (h_data h) ∧ bk_dep_count (pl_book (h_data h')) = bk_dep_count (pl_book (h_data h)) + 1.
Proof. intros (?&?&?&?&?&?&?&?&?&?&?&Hd&_)%withdraw_return. by rewrite Hd. Qed.

Lemma fresh_root_run env config kind root unknown (h : World) :
  fresh_root env config kind root (h_data h) → require_fresh_root env config kind root unknown h = Return (tt, h).
Proof.
  intros (e & He & Hl). unfold require_fresh_root. call_run. simpl. lia.
Qed.
Lemma pay_if_run env sac to amount d t :
  0 <= amount <= balance t sac (env_contract env) → receives t sac to = true →
  ∃ t', pay_if env sac to amount (mkHost d t) = Return (tt, mkHost d t') ∧
    ∀ s a, balance t' s a = balance t s a
      - (if decide (s = sac ∧ a = env_contract env) then amount else 0) + (if decide (s = sac ∧ a = to) then amount else 0).
Proof.
  intros Ha Hr. unfold pay_if, transfer. destruct (Z.ltb_spec 0 amount) as [Hp|Hn].
  - destruct (transfer_pays t sac (env_contract env) to amount Ha Hr) as [t' Ht]. exists t'. rewrite String.eqb_refl. cbn [orb h_tok]. rewrite Ht.
    split; [done|]. apply (transfer_spec _ _ _ _ _ _ Ht).
  - exists t. split; [done|]. intros s a. repeat case_decide; lia.
Qed.

(** When a withdrawal goes through: nothing but the listed conditions is needed, and
    everybody who can receive is paid. *)
Lemma withdraw_runs env config c h :
  pool_ok h → pl_config (h_data h) = Some config → env_contract env = self →
  withdrawals_pause_active env (pl_limits (h_data h)) = false →
  0 < wc_withdrawn_value c < 2 ^ 127 → 0 <= wc_fee c <= wc_withdrawn_value c →
  get_minimum_withdrawal_amount (pl_limits (h_data h)) <= wc_withdrawn_value c →
  fresh_root env config STATE (wc_state_root c) (h_data h) → fresh_root env config ASP (wc_asp_root c) (h_data h) →
  wc_nullifier_hash c ∉ bk_nullifiers (pl_book (h_data h)) →
  verify (pc_groth16_verifier config) (wc_proof_a c, wc_proof_b c, wc_proof_c c) (public_inputs keccak256 address_to_xdr config c) = Some true →
  bk_tot_wd (pl_book (h_data h)) + wc_withdrawn_value c <= bk_tot_dep (pl_book (h_data h)) →
  bk_dep_count (pl_book (h_data h)) + 1 < 2 ^ 64 →
  (∀ t, receives t (pc_native_sac config) (wc_recipient c) = true ∧ receives t (pc_native_sac config) (wc_relayer c) = true) →
  ∃ h', withdraw keccak256 address_to_xdr verify env c h = Return (tt, h').
Proof.
  intros Hok Hc He Hp Hv Hf Hm Hs Ha Hn Hver Hcu Hcnt Hrec. destruct (ok_width h Hok) as [Hc0 Hw]. pose proof (ok_custody h Hok) as Hcu0.
  pose proof (ok_backed h Hok) as Hb. rewrite Hc in Hb. set (sac := pc_native_sac config) in *. set (v := wc_withdrawn_value c) in *.
  set (d := let s := h_data h in let b := pl_book s in
      mkStore (pl_config s) (mkBook (bk_dep_count b + 1) (bk_tot_dep b) (bk_tot_wd b + v)
          ({[ wc_nullifier_hash c ]} ∪ bk_nullifiers b) (<[wc_new_commitment c := bk_dep_count b]> (bk_commits b)))
        (pl_roots s) (pl_limits s) (pl_events s)).
  destruct (pay_if_run env sac (wc_recipient c) (v - wc_fee c) d (h_tok h)) as (t1 & R1 & B1); [rewrite He; lia|apply Hrec|].
  destruct (pay_if_run env sac (wc_relayer c) (wc_fee c) d t1) as (t2 & R2 & _).
  { rewrite B1, He. pose proof (balance_nonneg (h_tok h) sac self). repeat case_decide; naive_solver lia. }
  { apply Hrec. }
  pose proof (fresh_root_run _ _ _ _ UnknownStateRoot _ Hs) as F1. pose proof (fresh_root_run _ _ _ _ UnknownAspRoot _ Ha) as F2.
  eexists. unfold withdraw, cfg, on_book, publish.
  repeat (call_run_step || lazymatch goal with
    | |- require_fresh_root _ _ STATE _ _ _ = _ => exact F1
    | |- require_fresh_root _ _ ASP _ _ _ = _ => exact F2
    | |- pay_if _ _ (wc_recipient _) _ _ = _ => exact R1
    | |- pay_if _ _ (wc_relayer _) _ _ = _ => exact R2
    end); simpl; fold v; unfold in_i128, in_u64, validate_withdrawal_amount, as_u128; try (done || lia).
  all: rewrite ?Hp, ?Z.mod_small by lia; try (done || lia). by rewrite bool_decide_eq_false_2.
Qed.
End custody.

(** ** The pools as the contracts the registry calls *)
Section calls.
Context `{SC : Sac}.
Context (keccak256 : list byte → list byte) (address_to_xdr : Address → list byte).
Context (verify : Address → list byte * list byte * list byte → VerifyPublicInputsV3 → option bool).

(** [withdraw] of the pool deployed at an address; it asks for nobody's authorization. *)
Definition call_withdraw (seq ts : Z) (addr : Address) (c : WithdrawCall) (w : gmap Address Store * Tok) : option (gmap Address Store * Tok) :=
  s ← w.1 !! addr;
  match withdraw keccak256 address_to_xdr verify (mkEnv seq ts addr (λ _, false)) c (mkHost s w.2) with
  | Return (_, h) => Some (<[addr := h_data h]> w.1, h_tok h)
  | _ => None
  end.

Lemma call_withdraw_frame seq ts addr c p t p' t' :
  call_withdraw seq ts addr c (p, t) = Some (p', t') → ∀ sac a, a ≠ addr → balance t sac a <= balance t' sac a.
Proof.
  unfold call_withdraw. cbn [fst snd]. destruct (p !! addr) as [s|]; [|done]. cbn [mbind option_bind].
  destruct (withdraw _ _ _ _ _ _) as [[u h]| |] eqn:E; try done. intros [= _ <-] sac a Ha.
  apply withdraw_return in E as (config & _ & _ & Hv & Hf & _ & _ & _ & _ & _ & _ & _ & Hbal). rewrite Hbal. simpl.
  repeat case_decide; naive_solver lia.
Qed.
Definition pool_calls : PoolCall (gmap Address Store) :=
  {| pool_withdraw_call := call_withdraw; pool_withdraw_frame := call_withdraw_frame |}.
End calls.

(** ** Running a list of calls *)
Section runs.
Context `{SC : Sac}.
Context (keccak256 : list byte → list byte) (address_to_xdr : Address → list byte).
Context (verify : Address → list byte * list byte * list byte → VerifyPublicInputsV3 → option bool).

Fixpoint run_pool (calls : list (Env * Call)) (h : Host Store) : option (Host Store) :=
  match calls with
  | [] => Some h
  | (env, c) :: rest =>
      match run_call keccak256 address_to_xdr verify env c h with
      | Return (_, h') => run_pool rest h'
      | _ => None
      end
  end.
Lemma run_pool_rtc self calls h h' :
  Forall (λ x, env_contract x.1 = self ∧ env_auth x.1 self = false) calls → run_pool calls h = Some h' →
  rtc (step keccak256 address_to_xdr verify self) h h'.
Proof.
  intros Hc. revert h. induction Hc as [|[env c] calls (He & Ha) _ IH]; intros h H; simpl in H; [by simplify_eq|].
  destruct (run_call _ _ _ env c h) as [[[] h1]| |] eqn:E; try done. eapply rtc_l; [by eapply step_call|by apply IH].
Qed.
End runs.

(** ** A small pool *)
#[local] Existing Instance ledger_sac.
Definition accept_all (_ : Address) (_ : list byte * list byte * list byte) (_ : VerifyPublicInputsV3) : option bool := Some true.
Definition at_seq (seq : Z) (who : list Address) : Env := mkEnv seq 1000 "CPOOL" (λ a, bool_decide (a ∈ who)).
Definition bytes32 (b : byte) : list byte := repeat b 32.
Definition small_call : WithdrawCall :=
  mkWithdrawCall (repeat Byte.x01 64) (repeat Byte.x02 128) (repeat Byte.x03 64) 400 (bytes32 Byte.x04) (bytes32 Byte.x05)
    (bytes32 Byte.x06) (bytes32 Byte.x07) "GREC" 3 "GREL".
Definition small_calls : list (Env * Call) :=
  [(at_seq 10 ["GADM"], Initialize "GADM" "CVER" "CSAC" 7);
   (at_seq 11 ["GDEP"], Deposit "GDEP" 1000 (bytes32 Byte.x0a) 0);
   (at_seq 12 ["GADM"], UpdateRoot "GADM" (bytes32 Byte.x04) (bytes32 Byte.x00) STATE);
   (at_seq 12 ["GADM"], UpdateRoot "GADM" (bytes32 Byte.x05) (bytes32 Byte.x00) ASP);
   (at_seq 13 [], Withdraw small_call);
   (at_seq 14 ["GADM"], RequestPauseWithdrawals "GADM")].
Definition small_start : Host Store := mkHost empty_store (<[("CSAC", "GDEP") := 5000%N]> ∅).
Definition small_pool : Host Store := default small_start (run_pool (λ b, b) utf8 accept_all small_calls small_start).

Lemma small_pool_runs : run_pool (λ b, b) utf8 accept_all small_calls small_start = Some small_pool.
Proof. apply present_default. vm_compute. reflexivity. Qed.
Lemma small_pool_reachable : reachable (λ b, b) utf8 accept_all "CPOOL" small_pool.
Proof.
  exists (h_tok small_start). apply (run_pool_rtc _ _ _ "CPOOL" small_calls small_start small_pool); [repeat constructor|exact small_pool_runs].
Qed.
Definition small_config : PoolConfig := mkConfig "GADM" "CVER" "CSAC" 7 17280.
Lemma small_config_ok : pl_config (h_data small_pool) = Some small_config.
Proof. vm_compute. reflexivity. Qed.
Lemma small_custody : get_custody (h_data small_pool) = (1000, 400).
Proof. vm_compute. reflexivity. Qed.
Lemma small_spent : omap spent_of (pl_events (h_data small_pool)) = [bytes32 Byte.x06].
Proof. vm_compute. reflexivity. Qed.
Lemma small_pause : withdrawals_pause_active (at_seq 17294 []) (pl_limits (h_data small_pool)) = true.
Proof. vm_compute. reflexivity. Qed.
Lemma small_wd_admin : li_wd_admin (pl_limits (h_data small_pool)) = Some "GADM".
Proof. vm_compute. reflexivity. Qed.
Definition handed_over : Host Store :=
  default small_start (snd <$> returned (run_call (λ b, b) utf8 accept_all (at_seq 20 ["GADM"]) (TransferAdmin "GADM" "GNEW") small_pool)).
Lemma handed_over_runs :
  run_call (λ b, b) utf8 accept_all (at_seq 20 ["GADM"]) (TransferAdmin "GADM" "GNEW") small_pool = Return (tt, handed_over).
Proof. apply returned_unit. vm_compute. reflexivity. Qed.
#[local] Opaque small_pool handed_over.

Lemma pool_custody_witness :
  get_custody (h_data small_pool) = (1000, 400) ∧ 1000 - 400 <= balance (h_tok small_pool) "CSAC" "CPOOL".
Proof.
  pose proof (pool_custody (λ b, b) utf8 accept_all "CPOOL" small_pool small_config small_pool_reachable small_config_ok) as H.
  rewrite small_custody in H. split; [exact small_custody|]. exact (proj1 (proj2 H)).
Defined.

Lemma nullifier_spent_once_witness :
  is_spent (bytes32 Byte.x06) (h_data small_pool) = true ∧ NoDup (omap spent_of (pl_events (h_data small_pool))).
Proof.
  destruct (nullifier_spent_once (λ b, b) utf8 accept_all "CPOOL" small_pool small_pool (bytes32 Byte.x06) small_pool_reachable (rtc_refl _ _))
    as (H1 & H2 & _).
  split; [apply H2; rewrite small_spent; left|exact H1].
Defined.

Lemma pause_needs_notice_witness :
  withdrawals_pause_active (at_seq 17294 []) (pl_limits (h_data small_pool)) = true ∧
  ∃ r, last (omap pause_of (pl_events (h_data small_pool))) = Some (Some r) ∧ r + WITHDRAWAL_PAUSE_TIMELOCK_LEDGERS <= 17294.
Proof.
  split; [exact small_pause|].
  exact (pause_needs_notice (λ b, b) utf8 accept_all "CPOOL" small_pool (at_seq 17294 []) small_pool_reachable small_pause).
Defined.

Lemma handover_freezes_minimum_witness :
  run_call (λ b, b) utf8 accept_all (at_seq 20 ["GADM"]) (TransferAdmin "GADM" "GNEW") small_pool = Return (tt, handed_over) ∧
  ∀ h2, run_call (λ b, b) utf8 accept_all (at_seq 21 ["GNEW"]) (SetWithdrawalMinimum "GNEW" 5) handed_over ≠ Return (tt, h2).
Proof.
  split; [exact handed_over_runs|]. intros h2.
  apply (handover_freezes_minimum (λ b, b) utf8 accept_all (at_seq 20 ["GADM"]) "GADM" "GNEW" small_pool handed_over handed_over_runs small_wd_admin).
  discriminate.
Defined.
