(* ===== verification/PoolEndToEnd.v ===== *)
(** * From the SDK's prover to the contracts

    The pool contract behind the SDK and the relayer: a withdrawal the SDK proved is paid by
    the pool, directly and through the relayer registry, and the leaves the SDK rebuilds from
    the pool's events are the leaves the pool recorded. *)
From stdpp Require Import countable.
From stdpp Require Import base tactics list sets gmap strings relations.
From Stdlib Require Import ZArith Lia Sorted.
From S2P Require Import Prelude JsString JsMap Bytes Merkle Json PubValidate RelPayload RelMessages.
From S2P Require Import SdkCodec SdkWorkerPool SdkPool SdkGateway SdkRpc SdkChain SdkPoolService.
From S2P Require Import Soroban RegContract RegProofs PoolContract PoolProofs.
Import NoteCodec.
Open Scope string_scope.
Open Scope list_scope.
Open Scope Z_scope.

(** ** Bytes of numbers *)
Lemma be_bytes_mod n v : be_bytes n (v mod 2 ^ (8 * Z.of_nat n)) = be_bytes n v.
Proof. rewrite <-be_val_be_bytes. rewrite <-(be_bytes_length n v) at 1. apply be_bytes_be_val. Qed.
Lemma i128_be32_spec v : 0 <= v < 2 ^ 127 → Pool.i128_be32 v = bigIntToBytes32 v.
Proof.
  intros Hv. unfold Pool.i128_be32, bigIntToBytes32. set (l := repeat Byte.x00 16 ++ be_bytes 16 (as_u128 v)).
  assert (Hl : length l = 32%nat) by (unfold l; by rewrite length_app, be_bytes_length).
  rewrite <-(be_bytes_be_val l), Hl. f_equal. unfold l. rewrite be_val_app. change (be_val 0 (repeat Byte.x00 16)) with 0.
  rewrite be_val_be_bytes. unfold as_u128. rewrite !Z.mod_small by (change (8 * Z.of_nat 16) with 128; rewrite ?Z.mod_small; lia). done.
Qed.
Lemma scalar_field : be_val 0 Pool.SCALAR_FIELD = BN254_R.
Proof. by vm_compute. Qed.

(** The contract and the prover compute one context. *)
Lemma context_agrees keccak_256 addressXdr address_to_xdr recipient withdrawn fee relayer scope c :
  (∀ a b, addressXdr a = Ok b → address_to_xdr a = b) →
  computeWithdrawContext addressXdr keccak_256 recipient withdrawn fee relayer scope = Ok c →
  Pool.compute_context keccak_256 address_to_xdr recipient withdrawn fee relayer scope = bigIntToBytes32 c.
Proof.
  intros Hx (pre & (r & Hr%Hx & (rl & Hrl%Hx & <-%Ok_inj)%bind_ok)%bind_ok & <-%Ok_inj)%bind_ok.
  unfold Pool.compute_context, bigIntToBytes32, as_u128. rewrite scalar_field, Hr, Hrl.
  change 128 with (8 * Z.of_nat 16). by rewrite !be_bytes_mod.
Qed.

(** ** The public signals *)
Definition public_of (g : Signals) : list Z :=
  [sg_withdrawnValue g; sg_stateRoot g; sg_aspRoot g; sg_nullifierHash g; sg_newCommitment g; sg_context g].
(** The contract verifier's view of a list of public signals. *)
Definition inputs_of (l : list Z) : Pool.VerifyPublicInputsV3 :=
  let b i := bigIntToBytes32 (nth i l 0) in Pool.mkInputs (b 0%nat) (b 1%nat) (b 2%nat) (b 3%nat) (b 4%nat) (b 5%nat).

Lemma signals_public a b c d e f v l n sc nn ns ss si as' ai g :
  let s := bigint_toString 10 in
  signals_of (mkInput (s a) (s b) (s c) (s d) (s e) (s f) v l n sc nn ns ss si as' ai) = Ok g →
  public_of g = fmod <$> [a; b; c; d; e; f].
Proof.
  intros s Hg. unfold signals_of in Hg. cbn [in_withdrawnValue in_stateRoot in_aspRoot in_nullifierHash in_newCommitment in_context] in Hg.
  unfold s in Hg. rewrite !signal_toString in Hg. cbn [mbind res_bind] in Hg.
  repeat match goal with H : _ ≫= _ = Ok _ |- _ => apply bind_ok in H as (? & _ & H) end. by apply Ok_inj in Hg as <-.
Qed.

Section proved.
Context (poseidon : list Z → Z) {CL : Circomlib} (addressXdr : string → res (list byte)) (keccak_256 : list byte → list byte).
Context (Hrange : ∀ l, 0 <= poseidon l < BN254_R) (Hmod : ∀ l, poseidon (fmod <$> l) = poseidon l).

(** What the witness shows in public, and that it is in the field. *)
Lemma witness_public draws opts w value i nullifier secret g :
  buildPoolWithdrawWitness poseidon addressXdr keccak_256 draws opts = Ok w →
  spendable poseidon opts value i nullifier secret → signals_of (pww_input w) = Ok g →
  ∃ ctx, computeWithdrawContext addressXdr keccak_256 (wo_recipient opts) (pww_withdrawnValue w) (wo_fee opts) (wo_relayer opts) (wo_scope opts) = Ok ctx ∧
    public_of g = [pww_withdrawnValue w; pww_stateRoot w; pww_aspRoot w; pww_nullifierHash w; pww_newCommitment w; ctx].
Proof using CL Hrange Hmod.
  intros Hw Hn Hg. destruct Hn as [Hv Hi Hnl Hs Hbits Hc [Hlt Hcap] Hpos Hasp]. unfold buildPoolWithdrawWitness in Hw.
  rewrite Hv in Hw. cbn [mbind res_bind] in Hw. set (wv := default value (wo_withdrawnValue opts)) in *.
  destruct (Z.leb_spec wv 0), (Z.ltb_spec value wv); try done. cbn [orb] in Hw.
  rewrite Hi in Hw. cbn [mbind res_bind] in Hw. apply bind_ok in Hw as (path & Hp & Hw).
  destruct Hlt as [Hi0 Hlt]. destruct (Z.ltb_spec i 0) as [|_]; [lia|].
  destruct (wo_stateLeaves opts !! Z.to_nat i) as [leaf|] eqn:Hleaf; [|apply lookup_ge_None in Hleaf; lia].
  assert (Hl0 : 0 <= leaf) by by eapply Forall_lookup_1.
  destruct (String.eqb_spec (toLowerCase (toHex32 leaf)) (toLowerCase (pn_commitment (wo_note opts)))) as [Heq|]; [|done].
  rewrite (proj1 (toHex32_lower leaf Hl0)), Hc in Heq. apply toHex32_inj in Heq; [|done|apply Hrange].
  cbn [negb] in Hw. apply bind_ok in Hw as ([[aroot sibs] dirs] & Ha & Hw).
  apply bind_ok in Hw as (nn & Hnn & Hw). apply bind_ok in Hw as (sn & Hsn & Hw). rewrite Hnl in Hw. cbn [mbind res_bind] in Hw.
  apply bind_ok in Hw as (ctx & Hctx & Hw). apply Ok_inj in Hw as <-. exists ctx.
  cbn [pww_withdrawnValue pww_stateRoot pww_aspRoot pww_nullifierHash pww_newCommitment pww_input] in *. split; [exact Hctx|].
  destruct (tree_inclusion poseidon Hmod _ _ _ _ Hcap Hi0 Hleaf Hp) as [Hplen Hinc].
  destruct (asp_inclusion poseidon Hmod opts i aroot sibs dirs Hasp Ha) as (es & ds & He & Hd & Hel & Hdl & Hainc).
  assert (Hlr : 0 <= leaf < BN254_R) by (subst leaf; apply Hrange).
  pose proof (inclusion_range poseidon Hrange _ _ _ _ Hlr Hinc) as Hsr. pose proof (inclusion_range poseidon Hrange _ _ _ _ (Hrange _) Hainc) as Har.
  assert (Hcr : 0 <= ctx < BN254_R).
  { apply bind_ok in Hctx as (pre & _ & <-%Ok_inj). apply Z.mod_pos_bound. done. }
  apply signals_public in Hg. rewrite Hg. assert (Hr : 2 ^ 64 < BN254_R) by (by vm_compute).
  cbn [fmap list_fmap]. unfold hashFields.
  rewrite (fmod_small wv), (fmod_small (poolRoot _ _)), (fmod_small aroot), (fmod_small ctx), !(fmod_poseidon poseidon Hrange) by (done || lia).
  reflexivity.
Qed.

Context {A V : Type} (snarkjs : SnarkjsLike A V) (resolve : string → string → res A).

(** A proof the SDK hands out is a finished proof of a witness. *)
Lemma prove_inv aborted draws opts s0 p s1 :
  provePoolWithdraw poseidon addressXdr keccak_256 snarkjs resolve aborted draws opts s0 = (Ok p, s1) →
  ∃ w wasm zkey proof public, buildPoolWithdrawWitness poseidon addressXdr keccak_256 draws opts = Ok w ∧
    resolve "pool-v3" "wasm" = Ok wasm ∧ resolve "pool-v3" "zkey" = Ok zkey ∧
    fullProve snarkjs (pww_input w) wasm zkey = Ok (proof, public) ∧ finishPoolWithdrawProof w proof = Ok p.
Proof using.
  unfold provePoolWithdraw. intros H.
  repeat (apply M_bind_ok in H as (? & ? & ? & H)).
  repeat match goal with H : lift_res ?r _ = (Ok _, _) |- _ => destruct r eqn:?; [injection H as -> _|by cbv in H] end.
  match goal with x : Groth16ProofLike * list string |- _ => destruct x as [proof public] end. by eexists _, _, _, proof, public.
Qed.

Context `{SC : Sac} (address_to_xdr : Address → list byte).
Context (accepts : Address → list byte * list byte * list byte → Pool.VerifyPublicInputsV3 → option bool).
Context (Hxdr : ∀ a b, addressXdr a = Ok b → address_to_xdr a = b).

(** The verifier contract at an address accepts what the prover proves: a serialized proof
    of a satisfied circuit, with the public signals as 32-byte numbers. *)
Definition verifier_of (addr : Address) (wasm zkey : A) : Prop :=
  ∀ input g proof public sp, signals_of input = Ok g → PrivacyPoolWithdraw poseidon POOL_TREE_DEPTH 64 g = true →
    fullProve snarkjs input wasm zkey = Ok (proof, public) → serializeGroth16Proof proof = Ok sp →
    accepts addr (sp_a sp, sp_b sp, sp_c sp) (inputs_of (public_of g)) = Some true.

(** The arguments of the withdrawal a proof is submitted with. *)
Definition call_of_proof (p : PoolWithdrawProof) (recipient : string) (fee : Z) (relayer : string) : WithdrawCall :=
  mkWithdrawCall (pp_proofA p) (pp_proofB p) (pp_proofC p) (pp_withdrawnValue p) (pp_stateRoot p) (pp_aspRoot p)
    (pp_nullifierHash p) (pp_newCommitment p) recipient fee relayer.

Lemma proof_accepted aborted draws opts value i nullifier secret s0 p s1 config :
  provePoolWithdraw poseidon addressXdr keccak_256 snarkjs resolve aborted draws opts s0 = (Ok p, s1) →
  spendable poseidon opts value i nullifier secret →
  (∀ wasm zkey, resolve "pool-v3" "wasm" = Ok wasm → resolve "pool-v3" "zkey" = Ok zkey →
     verifier_of (Pool.pc_groth16_verifier config) wasm zkey) →
  Pool.pc_scope config = wo_scope opts →
  let c := call_of_proof p (wo_recipient opts) (wo_fee opts) (wo_relayer opts) in
  0 < wc_withdrawn_value c < 2 ^ 64 ∧
  accepts (Pool.pc_groth16_verifier config) (wc_proof_a c, wc_proof_b c, wc_proof_c c)
    (Pool.public_inputs keccak_256 address_to_xdr config c) = Some true.
Proof using CL Hrange Hmod Hxdr.
  intros (w & wasm & zkey & proof & public & Hw & Hwasm & Hzkey & Hfp & Hfin)%prove_inv Hn Hver Hscope c.
  destruct (witness_satisfies poseidon addressXdr keccak_256 Hrange Hmod draws opts w _ _ _ _ Hw Hn)
    as (_ & Hwv & Hch & Hval & (g & Hg & Hsat) & _).
  destruct (witness_public _ _ _ _ _ _ _ _ Hw Hn Hg) as (ctx & Hctx & Hpub). pose proof (sp_bits _ _ _ _ _ _ Hn) as Hbits.
  apply bind_ok in Hfin as (sp & Hs & <-%Ok_inj). subst c. unfold call_of_proof, Pool.public_inputs.
  cbn [wc_withdrawn_value wc_proof_a wc_proof_b wc_proof_c wc_state_root wc_asp_root wc_nullifier_hash wc_new_commitment wc_recipient wc_fee wc_relayer
    pp_proofA pp_proofB pp_proofC pp_withdrawnValue pp_stateRoot pp_aspRoot pp_nullifierHash pp_newCommitment].
  split; [lia|]. rewrite i128_be32_spec by lia. rewrite Hscope, (context_agrees _ _ _ _ _ _ _ _ _ Hxdr Hctx).
  pose proof (Hver wasm zkey Hwasm Hzkey _ _ _ _ _ Hg Hsat Hfp Hs) as H. rewrite Hpub in H. exact H.
Qed.

(** ** Withdrawing *)

(** What the pool has to agree to: it is open, the roots of the proof are published and
    fresh, the note is unspent, the minimum is met and the deposits cover the amount. *)
Record pool_ready (env : Env) (config : Pool.PoolConfig) (s : Pool.Store) (c : WithdrawCall) : Prop := {
  rd_config : Pool.pl_config s = Some config;
  rd_open : Pool.withdrawals_pause_active env (Pool.pl_limits s) = false;
  rd_minimum : Pool.get_minimum_withdrawal_amount (Pool.pl_limits s) <= wc_withdrawn_value c;
  rd_state : fresh_root env config Pool.STATE (wc_state_root c) s;
  rd_asp : fresh_root env config Pool.ASP (wc_asp_root c) s;
  rd_unspent : Pool.is_spent (wc_nullifier_hash c) s = false;
  rd_backed : Pool.bk_tot_wd (Pool.pl_book s) + wc_withdrawn_value c <= Pool.bk_tot_dep (Pool.pl_book s);
  rd_room : Pool.bk_dep_count (Pool.pl_book s) + 1 < 2 ^ 64;
  rd_receive t : receives t (Pool.pc_native_sac config) (wc_recipient c) = true ∧ receives t (Pool.pc_native_sac config) (wc_relayer c) = true;
}.

Lemma pool_pays aborted draws opts value i nullifier secret s0 p s1 config self env h :
  provePoolWithdraw poseidon addressXdr keccak_256 snarkjs resolve aborted draws opts s0 = (Ok p, s1) →
  spendable poseidon opts value i nullifier secret →
  (∀ wasm zkey, resolve "pool-v3" "wasm" = Ok wasm → resolve "pool-v3" "zkey" = Ok zkey →
     verifier_of (Pool.pc_groth16_verifier config) wasm zkey) →
  Pool.pc_scope config = wo_scope opts → 0 <= wo_fee opts <= pp_withdrawnValue p →
  PoolProofs.reachable keccak_256 address_to_xdr accepts self h → env_contract env = self →
  let c := call_of_proof p (wo_recipient opts) (wo_fee opts) (wo_relayer opts) in
  pool_ready env config (h_data h) c →
  ∃ h', Pool.withdraw keccak_256 address_to_xdr accepts env c h = Return (tt, h') ∧
    Pool.is_spent (pp_nullifierHash p) (h_data h') = true ∧
    omap leaf_of (Pool.pl_events (h_data h')) =
      omap leaf_of (Pool.pl_events (h_data h)) ++ [(pp_newCommitment p, Pool.bk_dep_count (Pool.pl_book (h_data h)))] ∧
    ∀ s a, a ≠ self → balance (h_tok h') s a = balance (h_tok h) s a
      + (if decide (s = Pool.pc_native_sac config ∧ a = wo_recipient opts) then pp_withdrawnValue p - wo_fee opts else 0)
      + (if decide (s = Pool.pc_native_sac config ∧ a = wo_relayer opts) then wo_fee opts else 0).
Proof using CL Hrange Hmod Hxdr.
  intros Hp Hn Hver Hscope Hfee Hr He c [Hc Hopen Hmin Hst Hasp Hun Hb Hroom Hrec].
  destruct (proof_accepted _ _ _ _ _ _ _ _ _ _ config Hp Hn Hver Hscope) as [Hv Hacc]. fold c in Hv, Hacc.
  apply pool_reachable_ok in Hr as Hok.
  destruct (withdraw_runs keccak_256 address_to_xdr accepts self env config c h Hok Hc He Hopen) as [h' Hrun]; try done; [lia| |].
  { unfold Pool.is_spent in Hun. by apply bool_decide_eq_false in Hun. }
  exists h'. split; [exact Hrun|]. apply withdraw_return in Hrun as (config' & Hc' & _ & _ & _ & _ & _ & _ & _ & _ & _ & Hd & Hbal).
  rewrite Hc in Hc'. injection Hc' as <-. rewrite Hd. simpl. split; [apply bool_decide_eq_true; set_solver|].
  split; [by rewrite omap_app|]. intros s a Ha. rewrite Hbal, He. simpl. repeat case_decide; naive_solver lia.
Qed.

(** C4 (functional): What the SDK proves, the pool pays.  A withdrawal proof the SDK hands
    out for a note of the pool, submitted with the recipient, fee and relayer it was made
    for, is accepted by the contract whenever the pool is open, the proof's roots are
    published and fresh and the note is unspent: the public inputs the contract computes
    are the ones that were proved.  The recipient gets the amount less the fee, the relayer
    the fee, the nullifier is spent, and the change commitment is announced as the next
    leaf. *)
Theorem proved_withdrawal_is_paid aborted draws opts value i nullifier secret s0 p s1 config self env h
    (Hp : provePoolWithdraw poseidon addressXdr keccak_256 snarkjs resolve aborted draws opts s0 = (Ok p, s1))
    (Hn : spendable poseidon opts value i nullifier secret)
    (Hver : ∀ wasm zkey, resolve "pool-v3" "wasm" = Ok wasm → resolve "pool-v3" "zkey" = Ok zkey →
       verifier_of (Pool.pc_groth16_verifier config) wasm zkey)
    (Hscope : Pool.pc_scope config = wo_scope opts) (Hfee : 0 <= wo_fee opts <= pp_withdrawnValue p)
    (Hr : PoolProofs.reachable keccak_256 address_to_xdr accepts self h) (He : env_contract env = self)
    (Hready : pool_ready env config (h_data h) (call_of_proof p (wo_recipient opts) (wo_fee opts) (wo_relayer opts))) :
  ∃ h', Pool.withdraw keccak_256 address_to_xdr accepts env (call_of_proof p (wo_recipient opts) (wo_fee opts) (wo_relayer opts)) h = Return (tt, h') ∧
    Pool.is_spent (pp_nullifierHash p) (h_data h') = true ∧
    omap leaf_of (Pool.pl_events (h_data h')) =
      omap leaf_of (Pool.pl_events (h_data h)) ++ [(pp_newCommitment p, Pool.bk_dep_count (Pool.pl_book (h_data h)))] ∧
    ∀ s a, a ≠ self → balance (h_tok h') s a = balance (h_tok h) s a
      + (if decide (s = Pool.pc_native_sac config ∧ a = wo_recipient opts) then pp_withdrawnValue p - wo_fee opts else 0)
      + (if decide (s = Pool.pc_native_sac config ∧ a = wo_relayer opts) then wo_fee opts else 0).
Proof using CL Hrange Hmod Hxdr. by eapply pool_pays. Qed.

(** ** Through the relayer registry *)
#[local] Instance deployed_pools : PoolCall (gmap Address Pool.Store) := pool_calls keccak_256 address_to_xdr accepts.
Context (symbolXdr : string → list byte).

(** C5 (functional): A relayed withdrawal reaches its recipient.  The job the SDK drafts
    from a proof, created with the draft's payload hash and accepted by a relayer, can be
    submitted by that relayer before the deadline: the registry recomputes the drafted
    hash, the pool accepts the proof, the recipient gets the whole amount, the relayer its
    fee, and the job is done. *)
Theorem relayed_withdrawal_is_paid aborted draws opts value i nullifier secret s0 p s1 pconfig
    registry poolId randomJobId fee deadline jobId d h c env j op r s
    (Hp : provePoolWithdraw poseidon addressXdr keccak_256 snarkjs resolve aborted draws opts s0 = (Ok p, s1))
    (Hn : spendable poseidon opts value i nullifier secret)
    (Hver : ∀ wasm zkey, resolve "pool-v3" "wasm" = Ok wasm → resolve "pool-v3" "zkey" = Ok zkey →
       verifier_of (Pool.pc_groth16_verifier pconfig) wasm zkey)
    (Hscope : Pool.pc_scope pconfig = wo_scope opts) (Hzero : wo_fee opts = 0) (Hrelayer : wo_relayer opts = registry)
    (Hd : buildRelayerJobDraft addressXdr symbolXdr keccak_256 randomJobId
            (buildRelayedWithdrawPayload poolId registry p (wo_recipient opts)) fee deadline jobId = Ok d)
    (Hreg : RegProofs.reached_unreported keccak_256 address_to_xdr symbolXdr registry h)
    (Hc : Registry.rg_config (h_data h) = Some c) (Hpool : Registry.rc_privacy_pool c = poolId)
    (Hmax : balance (h_tok h) (Registry.rc_native_sac c) registry < 2 ^ 127)
    (Hj : Registry.rg_jobs (h_data h) !! jd_jobId d = Some j) (Hhash : Registry.jr_payload_hash j = jd_payloadHash d)
    (Hst : Registry.jr_status j = Registry.STATUS_ACCEPTED) (Hop : Registry.jr_accepted_relayer j = Some op)
    (Hr : Registry.rg_relayers (h_data h) !! op = Some r)
    (He : env_contract env = registry) (Hauth : env_auth env op = true) (Hdl : env_sequence env < Registry.jr_deadline_ledger j)
    (Hs : Registry.rg_pools (h_data h) !! poolId = Some s)
    (Hps : PoolProofs.reachable keccak_256 address_to_xdr accepts poolId (mkHost s (h_tok h)))
    (Hready : pool_ready (mkEnv (env_sequence env) (env_timestamp env) poolId (λ _, false)) pconfig s
                (call_of_proof p (wo_recipient opts) 0 registry))
    (Hrec : ∀ t, receives t (Registry.rc_native_sac c) op = true)
    (Hdis : NoDup [registry; poolId; op; wo_recipient opts]) :
  ∃ h' j', Registry.submit_pool_withdraw keccak_256 address_to_xdr symbolXdr env op (jd_jobId d) (call_of (jd_payload d)) h = Return (tt, h') ∧
    balance (h_tok h') (Pool.pc_native_sac pconfig) (wo_recipient opts) =
      balance (h_tok h) (Pool.pc_native_sac pconfig) (wo_recipient opts) + pp_withdrawnValue p ∧
    balance (h_tok h') (Registry.rc_native_sac c) op = balance (h_tok h) (Registry.rc_native_sac c) op + Registry.jr_fee j ∧
    Registry.rg_jobs (h_data h') !! jd_jobId d = Some j' ∧ Registry.jr_status j' = Registry.STATUS_SUBMITTED.
Proof using CL Hrange Hmod Hxdr.
  rewrite !NoDup_cons, !elem_of_cons in Hdis. apply RegProofs.unreported_ok in Hreg as Hok.
  apply bind_ok in Hd as (jid & [-> _]%RelayBytes.assertLength_ok & (hash & Hh & (advert & _ & <-%Ok_inj)%bind_ok)%bind_ok).
  cbn [jd_jobId jd_payload jd_payloadHash] in *.
  pose proof (contract_hash keccak_256 addressXdr symbolXdr address_to_xdr _ _ Hxdr Hh) as Hch.
  destruct (proof_accepted _ _ _ _ _ _ _ _ _ _ pconfig Hp Hn Hver Hscope) as [Hv _]. cbn [call_of_proof wc_withdrawn_value] in Hv.
  destruct (pool_pays _ _ _ _ _ _ _ _ _ _ pconfig poolId (mkEnv (env_sequence env) (env_timestamp env) poolId (λ _, false)) (mkHost s (h_tok h))
    Hp Hn Hver Hscope ltac:(lia) Hps eq_refl) as (ph & Hrun & _ & _ & Hbal); [by rewrite Hzero, Hrelayer|].
  rewrite Hzero, Hrelayer in Hrun.
  destruct (submit_pays keccak_256 address_to_xdr symbolXdr registry h c env (default randomJobId jobId) j op r
    (call_of (buildRelayedWithdrawPayload poolId registry p (wo_recipient opts))) (<[poolId := h_data ph]> (Registry.rg_pools (h_data h))) (h_tok ph))
    as (h' & Hsub & _ & Hbal' & j' & Hj' & Hst'); try done.
  - naive_solver.
  - rewrite Hpool. naive_solver.
  - rewrite Hpool, Hhash. exact Hch.
  - unfold pool_withdraw_call, deployed_pools, pool_calls, call_withdraw. rewrite Hpool. cbn [fst snd]. 
    match goal with |- ?x ≫= _ = _ => replace x with (Some s) by (symmetry; exact Hs) end. cbn [mbind option_bind].
    change (call_of _) with (call_of_proof p (wo_recipient opts) 0 registry). by rewrite Hrun.
  - exists h', j'. split; [exact Hsub|]. rewrite !Hbal', !Hbal by naive_solver. simpl. rewrite Hzero, Hrelayer.
    split; [|split; [|done]]; repeat case_decide; naive_solver lia.
Qed.
End proved.

(** ** The tree behind the events *)
Section rebuilt.
Context `{SC : Sac} (keccak_256 : list byte → list byte) (address_to_xdr : Address → list byte).
Context (accepts : Address → list byte * list byte * list byte → Pool.VerifyPublicInputsV3 → option bool).
Context (getEvents : bool → nat → EventsRequest → res (@EventsResponse PoolEvent)) (oldest_of_error : jserr → option Z) (latest : res Z).

(** The leaf at position [i] of the announced ones is announced with index [i]. *)
Lemma announced_index self h k x :
  PoolProofs.reachable keccak_256 address_to_xdr accepts self h →
  omap leaf_of (Pool.pl_events (h_data h)) !! k = Some x → x.2 = Z.of_nat k.
Proof.
  intros Hr%pool_reachable_ok Hk. pose proof (ok_leaves _ _ Hr) as Hl. apply (f_equal (.!! k)) in Hl.
  rewrite list_lookup_fmap, Hk in Hl. simpl in Hl. symmetry in Hl. apply lookup_seqZ in Hl. lia.
Qed.

(** C26 (refinement): The tree the SDK rebuilds is the pool's.  When the events it read are the
    deposits and withdrawals of a pool in any reachable state, the leaves it reconstructs are
    the commitments the pool recorded, each at the index the contract gave it, as many as the
    contract counts. *)
Theorem rebuilt_tree_is_the_pools self h opts st
    (Hr : PoolProofs.reachable keccak_256 address_to_xdr accepts self h)
    (Hlen : Forall (λ x, length x.1 = 32%nat) (omap leaf_of (Pool.pl_events (h_data h))))
    (Hread : ∀ c i, (c, i) ∈ omap leaf_of (Pool.pl_events (h_data h)) ↔
       ∃ ev, ev ∈ all_events getEvents oldest_of_error latest opts ∧ pe_commitment ev = c ∧ pe_index ev = i)
    (Hst : reconstructState getEvents oldest_of_error latest opts = Ok st) :
  st_stateLeaves st = (λ x, bytesToBigInt x.1) <$> omap leaf_of (Pool.pl_events (h_data h)) ∧
  Z.of_nat (length (st_stateLeaves st)) = Pool.bk_dep_count (Pool.pl_book (h_data h)) ∧
  ∀ c i, (c, i) ∈ omap leaf_of (Pool.pl_events (h_data h)) → st_stateLeaves st !! Z.to_nat i = Some (bytesToBigInt c).
Proof.
  set (leaves := omap leaf_of (Pool.pl_events (h_data h))) in *.
  assert (Hat : ∀ c i, (c, i) ∈ leaves → 0 <= i ∧ ((λ x, bytesToBigInt x.1) <$> leaves) !! Z.to_nat i = Some (bytesToBigInt c)).
  { intros c i [k Hk]%list_elem_of_lookup. apply (announced_index self) in Hk as Hi; [|done]. simpl in Hi. subst i.
    split; [lia|]. by rewrite Nat2Z.id, list_lookup_fmap, Hk. }
  assert (Hleaves : st_stateLeaves st = (λ x, bytesToBigInt x.1) <$> leaves).
  { eapply (reconstruct_is_the_tree getEvents oldest_of_error latest opts st _ Hst).
    - intros ev Hev. destruct (Hat (pe_commitment ev) (pe_index ev)) as [Hi Hl]; [apply Hread; by exists ev|]. split; [done|].
      eexists. split; [|exact Hl]. unfold leaf_value. apply SdkStealth.hex_scalar_val. intros E.
      assert (Hin : (pe_commitment ev, pe_index ev) ∈ leaves) by (apply Hread; by exists ev).
      rewrite Forall_forall in Hlen. apply Hlen in Hin. simpl in Hin. by rewrite E in Hin.
    - intros k Hk. rewrite length_fmap in Hk. destruct (lookup_lt_is_Some_2 leaves k Hk) as [[c i] Hx].
      apply (announced_index self) in Hx as Hi; [|done]. simpl in Hi. subst i.
      destruct (proj1 (Hread c (Z.of_nat k))) as (ev & Hev & _ & Hix); [by eapply list_elem_of_lookup_2|]. by exists ev. }
  rewrite Hleaves. split; [done|]. split; [|intros c i Hin; by apply Hat].
  rewrite length_fmap. apply pool_reachable_ok in Hr. pose proof (ok_leaves _ _ Hr) as Hl. apply (f_equal length) in Hl.
  rewrite length_fmap, length_seqZ in Hl. fold leaves in Hl. destruct (ok_width _ _ Hr) as [Hw _]. lia.
Qed.
End rebuilt.

(** ** A withdrawal from end to end *)
#[local] Existing Instance ledger_sac.
#[local] Existing Instance toy_circomlib.
Definition first32 (b : list byte) : list byte := take 32 b.
Definition toy_xdr (a : Address) : list byte := match toy_address a with Ok b => b | Err _ => [] end.
Lemma toy_xdr_agrees a b : toy_address a = Ok b → toy_xdr a = b.
Proof. unfold toy_xdr. by intros ->. Qed.

Lemma toy_verifier addr : verifier_of pool_hash toy_snarkjs accept_all addr tt tt.
Proof. by intros input g proof public sp _ _ _ _. Qed.

(** The note of [sample_withdraw], taken out through the registry at address "CREG" and
    without it. *)
Definition sample_relayed : WithdrawOpts :=
  mkOpts sample_note "GREC" "CREG" 0 7 [5; sample_commitment; 9] [0; 1; 2] (Some 400) None.
Lemma sample_relayed_spendable : spendable pool_hash sample_relayed 1000 1 11 22.
Proof. destruct sample_spendable. by split. Qed.

Definition toy_prove (opts : WithdrawOpts) :=
  provePoolWithdraw pool_hash toy_address first32 toy_snarkjs (λ _ _, Ok tt) (λ _, false) sample_draws opts (mkPS [] 0).
Definition toy_proof (opts : WithdrawOpts) : PoolWithdrawProof :=
  match fst (toy_prove opts) with Ok p => p | Err _ => mkPWProof [] [] [] 0 [] [] [] [] (mkChange (mkSecrets "" "") 0) end.

(** The pool holds the three leaves the prover used and has published the proof's roots. *)
Definition pool_tokens : Tok :=
  <[("CSAC", "GDEP") := 5000%N]> (<[("CSAC", "GOP") := 5000000%N]> (<[("CSAC", "GCRE") := 1000%N]> ∅)).
Definition funding (p : PoolWithdrawProof) : list (Env * PoolProofs.Call) :=
  [(at_seq 10 ["GADM"], PoolProofs.Initialize "GADM" "CVER" "CSAC" 7);
   (at_seq 11 ["GDEP"], PoolProofs.Deposit "GDEP" 500 (bigIntToBytes32 5) 0);
   (at_seq 12 ["GDEP"], PoolProofs.Deposit "GDEP" 1000 (bigIntToBytes32 sample_commitment) 1);
   (at_seq 13 ["GDEP"], PoolProofs.Deposit "GDEP" 700 (bigIntToBytes32 9) 2);
   (at_seq 14 ["GADM"], PoolProofs.UpdateRoot "GADM" (pp_stateRoot p) (bytes32 Byte.x00) Pool.STATE);
   (at_seq 14 ["GADM"], PoolProofs.UpdateRoot "GADM" (pp_aspRoot p) (bytes32 Byte.x00) Pool.ASP)].
Definition pool_start : Host Pool.Store := mkHost Pool.empty_store pool_tokens.
Definition funded (opts : WithdrawOpts) : Host Pool.Store :=
  default pool_start (run_pool first32 toy_xdr accept_all (funding (toy_proof opts)) pool_start).
Definition funded_config : Pool.PoolConfig := Pool.mkConfig "GADM" "CVER" "CSAC" 7 17280.

Lemma funding_sound opts : Forall (λ x, env_contract x.1 = "CPOOL" ∧ env_auth x.1 "CPOOL" = false) (funding (toy_proof opts)).
Proof. repeat constructor. Qed.

Lemma funded_reachable opts h :
  run_pool first32 toy_xdr accept_all (funding (toy_proof opts)) pool_start = Some h →
  PoolProofs.reachable first32 toy_xdr accept_all "CPOOL" h.
Proof. intros H. exists pool_tokens. exact (run_pool_rtc _ _ _ "CPOOL" _ _ _ (funding_sound opts) H). Qed.

Lemma funded_direct : run_pool first32 toy_xdr accept_all (funding (toy_proof sample_withdraw)) pool_start = Some (funded sample_withdraw).
Proof. apply (present_default pool_start). vm_compute. reflexivity. Qed.
Lemma funded_relayed : run_pool first32 toy_xdr accept_all (funding (toy_proof sample_relayed)) pool_start = Some (funded sample_relayed).
Proof. apply (present_default pool_start). vm_compute. reflexivity. Qed.
Lemma proves opts : (if fst (toy_prove opts) then true else false) = true → toy_prove opts = (Ok (toy_proof opts), snd (toy_prove opts)).
Proof. unfold toy_proof. by destruct (toy_prove opts) as [[p|e] s]. Qed.
Lemma toy_prove_direct : toy_prove sample_withdraw = (Ok (toy_proof sample_withdraw), snd (toy_prove sample_withdraw)).
Proof. apply proves. vm_compute. reflexivity. Qed.
Lemma toy_prove_relayed : toy_prove sample_relayed = (Ok (toy_proof sample_relayed), snd (toy_prove sample_relayed)).
Proof. apply proves. vm_compute. reflexivity. Qed.

Definition direct_call : WithdrawCall := call_of_proof (toy_proof sample_withdraw) "GREC" 3 "GREL".
Lemma direct_ready : pool_ready (at_seq 20 []) funded_config (h_data (funded sample_withdraw)) direct_call.
Proof.
  split; [..|intros t; done]; try by vm_compute.
  all: eexists; split; [vm_compute; reflexivity|by vm_compute].
Qed.

Lemma proved_withdrawal_is_paid_witness :
  ∃ h', Pool.withdraw first32 toy_xdr accept_all (at_seq 20 []) direct_call (funded sample_withdraw) = Return (tt, h') ∧
    balance (h_tok h') "CSAC" "GREC" = 397 ∧ balance (h_tok h') "CSAC" "GREL" = 3.
Proof.
  destruct (proved_withdrawal_is_paid pool_hash toy_address first32 pool_hash_range pool_hash_mod toy_snarkjs (λ _ _, Ok tt)
    toy_xdr accept_all toy_xdr_agrees _ _ sample_withdraw 1000 1 11 22 _ _ _ funded_config "CPOOL" (at_seq 20 []) (funded sample_withdraw)
    toy_prove_direct sample_spendable) as (h' & H1 & _ & _ & H2).
  - intros [] [] _ _. apply toy_verifier.
  - reflexivity.
  - split; by vm_compute.
  - exact (funded_reachable _ _ funded_direct).
  - reflexivity.
  - exact direct_ready.
  - exists h'. split; [exact H1|]. rewrite !H2 by done. split; by vm_compute.
Defined.

(** The tokens of one account only grew. *)
Definition grew (t t' : ledger) (a : Address) : bool :=
  forallb (λ '((s, b), n), negb (String.eqb b a) || (n <=? default 0%N (t' !! (s, b)))%N) (map_to_list t).
Lemma grew_spec t t' a sac : grew t t' a = true → balance t sac a <= balance t' sac a.
Proof.
  unfold grew. rewrite forallb_forall. intros H. change (ledger_balance t sac a <= ledger_balance t' sac a). unfold ledger_balance.
  destruct (t !! (sac, a)) as [n|] eqn:E; cbn [default from_option]; [|lia].
  apply elem_of_map_to_list, list_elem_of_In, H in E. rewrite String.eqb_refl in E. cbn [negb orb] in E. apply N.leb_le, N2Z.inj_le in E. exact E.
Qed.

(** The job drafted from the proof, created by "GCRE" and accepted by "GOP". *)
Definition toy_drafted : res RelayerJobDraft :=
  buildRelayerJobDraft toy_address utf8 first32 job_a (buildRelayedWithdrawPayload "CPOOL" "CREG" (toy_proof sample_relayed) "GREC") 10 500 None.
Definition toy_draft : RelayerJobDraft :=
  match toy_drafted with
  | Ok d => d
  | Err _ => mkDraft [] "" (buildRelayedWithdrawPayload "CPOOL" "CREG" (toy_proof sample_relayed) "GREC") [] "" (mkAdvert "" JNull "" JNull "") 0 0
  end.
Lemma toy_draft_ok : toy_drafted = Ok toy_draft.
Proof.
  assert (H : (if toy_drafted then true else false) = true) by (vm_compute; reflexivity).
  unfold toy_draft. by destruct toy_drafted.
Qed.

Definition hiring : list (Env * RegProofs.Call) :=
  [(at_ledger 15 ["GADM"], RegProofs.Initialize "GADM" "CSAC" "CPOOL" 0 0 0);
   (at_ledger 16 ["GOP"], RegProofs.Register "GOP" (repeat Byte.x01 32) "https://relayer" 2000000);
   (at_ledger 17 ["GCRE"], RegProofs.CreateJob "GCRE" (jd_jobId toy_draft) (jd_payloadHash toy_draft) 500 10);
   (at_ledger 18 ["GOP"], RegProofs.AcceptJob "GOP" (jd_jobId toy_draft))].
#[local] Instance toy_pools : PoolCall (gmap Address Pool.Store) := pool_calls first32 toy_xdr accept_all.
Definition hired_start (s : Pool.Store) : Host (Registry.Store (gmap Address Pool.Store)) :=
  mkHost (Registry.mkStore None ∅ ∅ ∅ ∅ [] {["CPOOL" := s]}) (h_tok (funded sample_relayed)).
Definition hired_by (s : Pool.Store) : Host (Registry.Store (gmap Address Pool.Store)) :=
  default (hired_start s) (run_calls first32 toy_xdr utf8 hiring (hired_start s)).
Definition hired : Host (Registry.Store (gmap Address Pool.Store)) := hired_by (h_data (funded sample_relayed)).
Definition hired_config : Registry.RegistryConfig := Registry.mkConfig "GADM" "CSAC" "CPOOL" 1000000 720 17280.
Lemma hired_runs s : run_calls first32 toy_xdr utf8 hiring (hired_start s) = Some (hired_by s).
Proof. unfold hired_by. apply present_default. vm_compute. reflexivity. Qed.
Lemma hired_reachable : RegProofs.reached_unreported first32 toy_xdr utf8 "CREG" hired.
Proof.
  exists (hired_start (h_data (funded sample_relayed))). split; [by eexists _, _|].
  apply (run_calls_rtc _ _ _ "CREG" hiring); [repeat constructor|]. apply hired_runs.
Qed.
Lemma hired_pool : PoolProofs.reachable first32 toy_xdr accept_all "CPOOL" (mkHost (h_data (funded sample_relayed)) (h_tok hired)).
Proof.
  destruct (funded_reachable _ _ funded_relayed) as [t Ht]. exists t. eapply rtc_r; [exact Ht|].
  apply PoolProofs.step_other. intros sac. apply grew_spec. vm_compute. reflexivity.
Qed.
Definition relayed_call : WithdrawCall := call_of_proof (toy_proof sample_relayed) "GREC" 0 "CREG".
Lemma relayed_ready : pool_ready (mkEnv 20 1000 "CPOOL" (λ _, false)) funded_config (h_data (funded sample_relayed)) relayed_call.
Proof.
  split; [..|intros t; done]; try by vm_compute.
  all: eexists; split; [vm_compute; reflexivity|by vm_compute].
Qed.
Definition hired_job : Registry.JobRecord :=
  Registry.mkJob "GCRE" (jd_payloadHash toy_draft) 10 500 (Some "GOP") Registry.STATUS_ACCEPTED 17 0.
Definition hired_relayer : Registry.RelayerRecord := Registry.mkRelayer "GOP" (repeat Byte.x01 32) "https://relayer" 1999990 10 0 0.
Lemma hired_job_ok : Registry.rg_jobs (h_data hired) !! jd_jobId toy_draft = Some hired_job.
Proof. vm_compute. reflexivity. Qed.
Lemma hired_relayer_ok : Registry.rg_relayers (h_data hired) !! "GOP" = Some hired_relayer.
Proof. vm_compute. reflexivity. Qed.
Lemma hired_config_ok : Registry.rg_config (h_data hired) = Some hired_config.
Proof. vm_compute. reflexivity. Qed.
Lemma hired_keeps s : Registry.rg_pools (h_data (hired_by s)) !! "CPOOL" = Some s.
Proof. vm_compute. reflexivity. Qed.
Lemma hired_deployed : Registry.rg_pools (h_data hired) !! "CPOOL" = Some (h_data (funded sample_relayed)).
Proof. apply hired_keeps. Qed.

Lemma relayed_withdrawal_is_paid_witness :
  ∃ h', Registry.submit_pool_withdraw first32 toy_xdr utf8 (at_ledger 20 ["GOP"]) "GOP" (jd_jobId toy_draft) (call_of (jd_payload toy_draft)) hired = Return (tt, h') ∧
    balance (h_tok h') "CSAC" "GREC" = 400 ∧ balance (h_tok h') "CSAC" "GOP" = 3000010.
Proof.
  destruct (relayed_withdrawal_is_paid pool_hash toy_address first32 pool_hash_range pool_hash_mod toy_snarkjs (λ _ _, Ok tt)
    toy_xdr accept_all toy_xdr_agrees utf8 _ _ sample_relayed 1000 1 11 22 _ _ _ funded_config "CREG" "CPOOL" job_a 10 500 None toy_draft
    hired hired_config (at_ledger 20 ["GOP"]) hired_job "GOP" hired_relayer (h_data (funded sample_relayed))
    toy_prove_relayed sample_relayed_spendable) as (h' & j' & H1 & H2 & H3 & _).
  - intros [] [] _ _. apply toy_verifier.
  - reflexivity.
  - reflexivity.
  - reflexivity.
  - exact toy_draft_ok.
  - exact hired_reachable.
  - exact hired_config_ok.
  - reflexivity.
  - by vm_compute.
  - exact hired_job_ok.
  - reflexivity.
  - reflexivity.
  - reflexivity.
  - exact hired_relayer_ok.
  - reflexivity.
  - reflexivity.
  - done.
  - exact hired_deployed.
  - exact hired_pool.
  - exact relayed_ready.
  - done.
  - by apply (bool_decide_unpack _); vm_compute.
  - exists h'. split; [exact H1|]. split.
    + etrans; [exact H2|]. by vm_compute.
    + etrans; [exact H3|]. by vm_compute.
Defined.

(** The events of the funded pool, as the SDK reads them. *)
Definition funded_events (d : bool) (n : nat) (r : EventsRequest) : res (@EventsResponse PoolEvent) :=
  Ok (mkResponse (Some (if d then (λ x, mkPoolEvent 11 x.1 x.2) <$> omap leaf_of (Pool.pl_events (h_data (funded sample_withdraw))) else []))
        (Some 15) None).
Lemma funded_events_all : all_events funded_events (λ _, None) (Ok 15) no_options =
  (λ x, mkPoolEvent 11 x.1 x.2) <$> omap leaf_of (Pool.pl_events (h_data (funded sample_withdraw))).
Proof. vm_cast_no_check (eq_refl (all_events funded_events (λ _, None) (Ok 15) no_options)). Qed.

Lemma rebuilt_tree_is_the_pools_witness :
  ∃ st, reconstructState funded_events (λ _, None) (Ok 15) no_options = Ok st ∧
    st_stateLeaves st = (λ x, bytesToBigInt x.1) <$> omap leaf_of (Pool.pl_events (h_data (funded sample_withdraw))) ∧
    length (st_stateLeaves st) = 3%nat.
Proof.
  destruct (reconstructState funded_events (λ _, None) (Ok 15) no_options) as [st|] eqn:E; [|exfalso; vm_compute in E; discriminate E].
  exists st. split; [done|].
  destruct (rebuilt_tree_is_the_pools first32 toy_xdr accept_all funded_events (λ _, None) (Ok 15) "CPOOL" (funded sample_withdraw) no_options st
    (funded_reachable _ _ funded_direct)) as (H1 & H2 & _); [| |exact E|].
  - vm_compute. repeat constructor.
  - intros c i. rewrite funded_events_all. split.
    + intros H. exists (mkPoolEvent 11 c i). split; [|split; reflexivity]. apply list_elem_of_fmap. exists (c, i). split; [reflexivity|exact H].
    + intros (ev & H & <- & <-). apply list_elem_of_fmap in H as ([c i] & -> & H). exact H.
  - split; [exact H1|]. apply Nat2Z.inj. rewrite H2. by vm_compute.
Defined.
