(* ===== verification/WebErrors.v ===== *)
(** * Web application: typed errors and the retry policy of its network reads

    [frontend/src/lib/errors.ts] and [frontend/src/lib/retryPolicy.ts].  What is thrown is a
    [thrown]: any value, a plain [Error] with its own fields, or an error of the typed
    hierarchy.  A request is a function of the attempt that takes some time and changes a
    world; numbers of the policy are rationals, a random draw is an argument, and the text of
    a number in a message is a parameter. *)
From Stdlib Require Import Ascii.
From stdpp Require Import base tactics list strings.
From Stdlib Require Import ZArith Lia QArith Qround Qpower Lqa.
From S2P Require Import Prelude JsString JsMap Json AspPolicy.
Open Scope string_scope.
Open Scope list_scope.
Open Scope Z_scope.

(** ** The error hierarchy *)
Inductive OpaqueErrorStage : Type := StConfig | StProof | StVerification | StSubmission | StRpc | StRelayer.
Inductive OpaqueErrorCode : Type :=
  | POOL_NOT_DEPLOYED | RELAYER_NOT_CONFIGURED
  | NOTE_NOT_INDEXED | NOTE_COMMITMENT_MISMATCH | POOL_ROOTS_UNPUBLISHED | POOL_ROOTS_STALE
  | PROOF_ARTIFACT_UNAVAILABLE | PROOF_GENERATION_FAILED
  | SIMULATION_FAILED | PROOF_REJECTED
  | TX_REJECTED | TX_FAILED | TX_TIMEOUT
  | RPC_REQUEST_FAILED | RPC_RETRIES_EXHAUSTED
  | RELAYER_GATEWAY_REJECTED | RELAYER_NO_BIDS | RELAYER_JOB_FAILED
  | UNKNOWN.
Global Instance stage_eq_dec : EqDecision OpaqueErrorStage.
Proof. solve_decision. Defined.
Global Instance code_eq_dec : EqDecision OpaqueErrorCode.
Proof. solve_decision. Defined.

(** What an instance of [OpaqueError] carries; [oe_own] are the fields its class adds. *)
Record OpaqueFields : Type := mkOpaque {
  oe_name : string;
  oe_code : OpaqueErrorCode;
  oe_stage : OpaqueErrorStage;
  oe_retryable : bool;
  oe_message : string;
  oe_context : list (string * jval);
  oe_own : list (string * jval);
}.
Inductive thrown : Type :=
  | TValue (v : jval)
  | TError (message : string) (fields : list (string * jval)) (cause : option thrown)
  | TOpaque (e : OpaqueFields) (cause : option thrown).

Record OpaqueErrorInit : Type := mkInit {
  in_message : string;
  in_cause : option thrown;
  in_ctx : list (string * jval);
}.
(** [{ ...o, ...kvs }] *)
Definition spread (o kvs : list (string * jval)) : list (string * jval) := foldl (λ m kv, JMap.set kv.1 kv.2 m) o kvs.
Definition num_or_null (o : option Z) : jval := match o with Some z => JNum z | None => JNull end.
Definition str_or_null (o : option string) : jval := match o with Some s => JStr s | None => JNull end.

Definition OpaqueError (init : OpaqueErrorInit) (name : string) (code : OpaqueErrorCode) (stage : OpaqueErrorStage)
    (retryable : bool) (context own : list (string * jval)) : thrown :=
  TOpaque (mkOpaque name code stage retryable (in_message init) (spread (in_ctx init) context) own) (in_cause init).

Definition PoolNotDeployedError init (network : string) : thrown :=
  OpaqueError init "PoolNotDeployedError" POOL_NOT_DEPLOYED StConfig false [("network", JStr network)] [("network", JStr network)].
Definition RelayerNotConfiguredError init (network : string) : thrown :=
  OpaqueError init "RelayerNotConfiguredError" RELAYER_NOT_CONFIGURED StConfig false
    [("network", JStr network)] [("network", JStr network)].
Definition NoteNotIndexedError init (leafIndex : Z) (indexedLeafIndices : list Z) : thrown :=
  OpaqueError init "NoteNotIndexedError" NOTE_NOT_INDEXED StProof false
    [("leafIndex", JNum leafIndex); ("indexedCount", JNum (Z.of_nat (length indexedLeafIndices)))]
    [("leafIndex", JNum leafIndex); ("indexedLeafIndices", JArr (JNum <$> indexedLeafIndices))].
Definition NoteCommitmentMismatchError init (leafIndex : Z) (expectedCommitment onChainCommitment : string) : thrown :=
  OpaqueError init "NoteCommitmentMismatchError" NOTE_COMMITMENT_MISMATCH StProof false [("leafIndex", JNum leafIndex)]
    [("leafIndex", JNum leafIndex); ("expectedCommitment", JStr expectedCommitment); ("onChainCommitment", JStr onChainCommitment)].
Definition PoolRootsUnpublishedError init (poolId : string) (hasStateRoot hasAspRoot : bool) : thrown :=
  let f := [("poolId", JStr poolId); ("hasStateRoot", JBool hasStateRoot); ("hasAspRoot", JBool hasAspRoot)] in
  OpaqueError init "PoolRootsUnpublishedError" POOL_ROOTS_UNPUBLISHED StProof true f f.
Definition PoolRootsStaleError init (poolId : string) (stateRootMatches aspRootMatches : bool) : thrown :=
  let f := [("poolId", JStr poolId); ("stateRootMatches", JBool stateRootMatches); ("aspRootMatches", JBool aspRootMatches)] in
  OpaqueError init "PoolRootsStaleError" POOL_ROOTS_STALE StProof true f f.
Definition ProofArtifactUnavailableError init (artifact : string) : thrown :=
  OpaqueError init "ProofArtifactUnavailableError" PROOF_ARTIFACT_UNAVAILABLE StProof true
    [("artifact", JStr artifact)] [("artifact", JStr artifact)].
Definition ProofGenerationError init (circuit : string) : thrown :=
  OpaqueError init "ProofGenerationError" PROOF_GENERATION_FAILED StProof false [("circuit", JStr circuit)] [("circuit", JStr circuit)].
Definition SimulationFailedError init (contractId method : string) (contractError : option string) : thrown :=
  let f := [("contractId", JStr contractId); ("method", JStr method); ("contractError", str_or_null contractError)] in
  OpaqueError init "SimulationFailedError" SIMULATION_FAILED StVerification false f f.
Definition ProofRejectedError init (contractId : string) (nullifierHash : option string) : thrown :=
  OpaqueError init "ProofRejectedError" PROOF_REJECTED StVerification false [("contractId", JStr contractId)]
    [("contractId", JStr contractId); ("nullifierHash", str_or_null nullifierHash)].
Definition TransactionRejectedError init (status : string) (txHash : option string) : thrown :=
  OpaqueError init "TransactionRejectedError" TX_REJECTED StSubmission false [("status", JStr status)]
    [("status", JStr status); ("txHash", str_or_null txHash)].
Definition TransactionFailedError init (txHash status : string) (diagnostics : option string) : thrown :=
  OpaqueError init "TransactionFailedError" TX_FAILED StSubmission false [("txHash", JStr txHash); ("status", JStr status)]
    [("txHash", JStr txHash); ("status", JStr status); ("diagnostics", str_or_null diagnostics)].
Definition TransactionTimeoutError init (txHash : string) (waitedMs : Z) : thrown :=
  let f := [("txHash", JStr txHash); ("waitedMs", JNum waitedMs)] in
  OpaqueError init "TransactionTimeoutError" TX_TIMEOUT StSubmission false f f.
Definition RpcRequestError init (provider method : string) (status : option Z) (retryable : bool) : thrown :=
  let f := [("provider", JStr provider); ("method", JStr method); ("status", num_or_null status)] in
  OpaqueError init "RpcRequestError" RPC_REQUEST_FAILED StRpc retryable f f.
(** [lastError] is [cause]. *)
Definition RpcRetriesExhaustedError init (method : string) (attempts providersTried elapsedMs : Z) : thrown :=
  let f := [("method", JStr method); ("attempts", JNum attempts); ("providersTried", JNum providersTried); ("elapsedMs", JNum elapsedMs)] in
  OpaqueError init "RpcRetriesExhaustedError" RPC_RETRIES_EXHAUSTED StRpc false f f.
Definition RelayerGatewayError init (gateway operation : string) (status : Z) : thrown :=
  OpaqueError init "RelayerGatewayError" RELAYER_GATEWAY_REJECTED StRelayer ((500 <=? status) || (status =? 429))
    [("operation", JStr operation); ("status", JNum status)]
    [("gateway", JStr gateway); ("operation", JStr operation); ("status", JNum status)].
Definition RelayerNoBidsError init (jobIdHex : string) (receivedBids : Z) : thrown :=
  OpaqueError init "RelayerNoBidsError" RELAYER_NO_BIDS StRelayer true [("receivedBids", JNum receivedBids)]
    [("jobIdHex", JStr jobIdHex); ("receivedBids", JNum receivedBids)].
Definition RelayerJobFailedError init (jobIdHex jobStatus : string) : thrown :=
  OpaqueError init "RelayerJobFailedError" RELAYER_JOB_FAILED StRelayer false [("jobStatus", JStr jobStatus)]
    [("jobIdHex", JStr jobIdHex); ("jobStatus", JStr jobStatus)].
Definition UnknownOpaqueError init (stage : option OpaqueErrorStage) : thrown :=
  OpaqueError init "UnknownOpaqueError" UNKNOWN (default StRpc stage) false [] [].

Definition isOpaqueError (e : thrown) : bool := match e with TOpaque _ _ => true | _ => false end.
Definition hasErrorCode (e : thrown) (code : OpaqueErrorCode) : bool :=
  match e with TOpaque f _ => bool_decide (oe_code f = code) | _ => false end.
Definition isRetryable (e : thrown) : bool := match e with TOpaque f _ => oe_retryable f | _ => false end.
(** [err instanceof Error ? err.message : String(err)] *)
Definition errorMessage (e : thrown) : string :=
  match e with
  | TValue v => js_String v
  | TError m _ _ => m
  | TOpaque f _ => oe_message f
  end.
Definition toOpaqueError (e : thrown) (message : option string) (stage : option OpaqueErrorStage) : thrown :=
  if isOpaqueError e then e
  else UnknownOpaqueError (mkInit (default (errorMessage e) message) (Some e) []) stage.

Definition nullish (o : option thrown) : bool :=
  match o with None => true | Some (TValue v) => is_nullish v | Some _ => false end.
(** [current.cause] *)
Definition cause_of (e : thrown) : option thrown :=
  match e with
  | TValue v => Some (TValue (prop v "cause"))
  | TError _ _ c | TOpaque _ c => c
  end.
Definition is_a (name : string) (e : thrown) : bool := match e with TOpaque f _ => String.eqb (oe_name f) name | _ => false end.
Fixpoint find_cause_loop (n : nat) (name : string) (current : option thrown) : option thrown :=
  match n, current with
  | S n', Some e => if nullish current then None else if is_a name e then Some e else find_cause_loop n' name (cause_of e)
  | _, _ => None
  end.
Definition findCause (e : thrown) (name : string) : option thrown := find_cause_loop 8 name (Some e).

(** ** The retry policy *)
Module Retry.
Record RetryPolicy : Type := mkPolicy {
  rp_attempts : Z;
  rp_initialDelayMs : Q;
  rp_maxDelayMs : Q;
  rp_backoffFactor : Q;
  rp_jitter : bool;
  rp_retryableStatuses : list Z;
  rp_retryableMessagePattern : string → bool;
  rp_timeoutMs : Q;
}.
(** A number of an option: finite, or one of the others. *)
Inductive jsnum : Type := Fin (q : Q) | NotFinite.
Record RetryPolicyOptions : Type := mkOptions {
  ro_attempts : option jsnum;
  ro_initialDelayMs : option jsnum;
  ro_maxDelayMs : option jsnum;
  ro_backoffFactor : option jsnum;
  ro_jitter : option bool;
  ro_retryableStatuses : option (list Z);
  ro_retryableMessagePattern : option (string → bool);
  ro_timeoutMs : option jsnum;
}.

(** /rate.?limit/ *)
Fixpoint rate_limit (s : string) : bool :=
  startsWith "ratelimit" s ||
  match s with
  | String _ (String _ (String _ (String _ (String c rest)))) =>
      startsWith "rate" s && negb (code c =? 10) && negb (code c =? 13) && startsWith "limit" rest
  | _ => false
  end ||
  match s with EmptyString => false | String _ s' => rate_limit s' end.
Definition default_pattern (message : string) : bool :=
  let m := toLowerCase message in
  includes "timeout" m || includes "timed out" m || rate_limit m || includes "too many requests" m || includes "network" m ||
  includes "fetch failed" m || includes "socket hang up" m || includes "econnreset" m || includes "eai_again" m.

Definition DEFAULT_RETRY_POLICY : RetryPolicy :=
  mkPolicy 3 350 4000 2 true [408; 425; 429; 500; 502; 503; 504] default_pattern 12000.
Definition NO_RETRY_POLICY : RetryPolicy :=
  let d := DEFAULT_RETRY_POLICY in
  mkPolicy 1 (rp_initialDelayMs d) (rp_maxDelayMs d) (rp_backoffFactor d) false (rp_retryableStatuses d) (rp_retryableMessagePattern d) (rp_timeoutMs d).
Definition NON_IDEMPOTENT_METHODS : list string :=
  ["sendTransaction"; "_sendTransaction"; "submitTransaction"; "submitAsyncTransaction"; "_submitTransaction"].

Definition positiveInt (value : option jsnum) (fallback : Z) : Z :=
  match value with Some (Fin q) => Z.max 1 (Qfloor q) | _ => fallback end.
Definition nonNegative (value : option jsnum) (fallback : Q) : Q :=
  match value with Some (Fin q) => if Qle_bool 0 q then q else fallback | _ => fallback end.
Definition Qmax' (x y : Q) : Q := if Qle_bool x y then y else x.

Definition resolveRetryPolicy (options : option RetryPolicyOptions) (base : RetryPolicy) : RetryPolicy :=
  match options with
  | None => base
  | Some o =>
      let maxDelayMs := nonNegative (ro_maxDelayMs o) (rp_maxDelayMs base) in
      mkPolicy (positiveInt (ro_attempts o) (rp_attempts base))
        (Qmin' (nonNegative (ro_initialDelayMs o) (rp_initialDelayMs base)) maxDelayMs)
        maxDelayMs
        (Qmax' 1 (nonNegative (ro_backoffFactor o) (rp_backoffFactor base)))
        (default (rp_jitter base) (ro_jitter o))
        (default (rp_retryableStatuses base) (ro_retryableStatuses o))
        (default (rp_retryableMessagePattern base) (ro_retryableMessagePattern o))
        (nonNegative (ro_timeoutMs o) (rp_timeoutMs base))
  end.

(** The process-wide default. *)
Definition setDefaultRetryPolicy (options : option RetryPolicyOptions) : M RetryPolicy RetryPolicy :=
  let p := resolveRetryPolicy options DEFAULT_RETRY_POLICY in modify (λ _, p);; mret p.
Definition getDefaultRetryPolicy : M RetryPolicy RetryPolicy := gets id.
Definition resetDefaultRetryPolicy : M RetryPolicy unit := modify (λ _, DEFAULT_RETRY_POLICY).

Definition policyForMethod (method : string) (policy : RetryPolicy) : RetryPolicy :=
  if bool_decide (method ∈ NON_IDEMPOTENT_METHODS) then NO_RETRY_POLICY else policy.

(** *** Classification *)
Definition own_fields (e : thrown) : jval :=
  match e with TValue v => v | TError _ f _ => JObj f | TOpaque f _ => JObj (oe_own f) end.
Fixpoint first_number (l : list jval) : option Z :=
  match l with [] => None | JNum z :: _ => Some z | _ :: l' => first_number l' end.
Definition extractStatus (e : thrown) : option Z :=
  let v := own_fields e in
  match v with
  | JArr _ | JObj _ => first_number [prop v "status"; prop v "statusCode"; prop (prop v "response") "status"]
  | _ => None
  end.
Definition messageOf (e : thrown) : string :=
  match e with TValue (JStr s) => s | TValue _ => "" | TError m _ _ => m | TOpaque f _ => oe_message f end.
Definition underlyingError (e : thrown) : thrown :=
  if is_a "RpcRetriesExhaustedError" e then
    match cause_of e with Some c => if nullish (Some c) then e else c | None => e end
  else e.
Definition isNotFoundError (e : thrown) : bool := bool_decide (extractStatus (underlyingError e) = Some 404).
Definition isRetryableRpcError (e : thrown) (policy : RetryPolicy) : bool :=
  match extractStatus e with
  | Some status => bool_decide (status ∈ rp_retryableStatuses policy)
  | None => rp_retryableMessagePattern policy (messageOf e)
  end.
Definition asRpcError (e : thrown) (label : string) : thrown := toOpaqueError e (Some (label +:+ " failed")) (Some StRpc).

(** *** Delays

    A non-negative double: finite, [Infinity] or [NaN].  A result from [DOUBLE_OVERFLOW] on
    rounds to [Infinity]; below it the rounding of doubles is left out.  It is monotone and
    keeps the policy's own numbers, so no bound below depends on it. *)
Inductive jsdouble : Type := DFin (q : Q) | DInf | DNaN.
Definition DOUBLE_OVERFLOW : Q := inject_Z (2 ^ 1024 - 2 ^ 970).
Definition double (q : Q) : jsdouble := if Qle_bool DOUBLE_OVERFLOW q then DInf else DFin q.
Definition double_times (a : Q) (x : jsdouble) : jsdouble :=
  match x with
  | DFin q => double (a * q)
  | DInf => if Qeq_bool a 0 then DNaN else DInf
  | DNaN => DNaN
  end.
Definition double_min (x : jsdouble) (m : Q) : jsdouble :=
  match x with DFin q => DFin (Qmin' q m) | DInf => DFin m | DNaN => DNaN end.
(** [None] is [NaN], which [setTimeout] treats as no delay. *)
Definition backoffDelayMs (attempt : Z) (policy : RetryPolicy) (random : Q) : option Z :=
  let raw := double_times (rp_initialDelayMs policy) (double (Qpower (rp_backoffFactor policy) attempt)) in
  match double_min raw (rp_maxDelayMs policy) with
  | DFin capped => Some (if rp_jitter policy then js_round (capped * ((1 # 2) + random * (1 # 2))) else js_round capped)
  | _ => None
  end.

(** *** Execution

    A request of attempt [n] answers or fails after some milliseconds; one that never does is
    a request that takes longer than the timeout, and has no counterpart when the timeout is
    switched off with 0, where the code waits for ever.  The log lists what each attempt ended
    with, the sleeps the delays between them.  [onRetry], which its one caller uses to count
    an error, is left out. *)
Section run.
Context {W A : Type} (num_text : Q → string).
Definition Request : Type := Z → W → (A + thrown) * Q * W.

(** [Promise.race] of the work and the timer. *)
Definition withTimeout (work : A + thrown) (elapsed timeoutMs : Q) (label : string) : A + thrown :=
  if Qle_bool timeoutMs 0 then work
  else if Qle_bool timeoutMs elapsed then inr (TError (label +:+ " timed out after " +:+ num_text timeoutMs +:+ "ms") [] None)
  else work.

Inductive loop_end : Type := Returned (a : A) | Threw (e : thrown) | Broke (last : option thrown).
Record run : Type := mkRun { rn_end : loop_end; rn_log : list (A + thrown); rn_sleeps : list (option Z); rn_world : W }.
Definition then_run (x : A + thrown) (sleeps : list (option Z)) (r : run) : run :=
  mkRun (rn_end r) (x :: rn_log r) (sleeps ++ rn_sleeps r) (rn_world r).

Fixpoint attempts_loop (n : nat) (fn : Request) (label : string) (policy : RetryPolicy) (random : Z → Q)
    (attempt : Z) (lastError : option thrown) (w : W) : run :=
  match n with
  | O => mkRun (Broke lastError) [] [] w
  | S n' =>
      let '(work, elapsed, w1) := fn attempt w in
      match withTimeout work elapsed (rp_timeoutMs policy) label with
      | inl a => mkRun (Returned a) [inl a] [] w1
      | inr e =>
          if negb (isRetryableRpcError e policy) then mkRun (Threw e) [inr e] [] w1
          else if rp_attempts policy <=? attempt + 1 then mkRun (Broke (Some e)) [inr e] [] w1
          else then_run (inr e) [backoffDelayMs attempt policy (random attempt)]
                 (attempts_loop n' fn label policy random (attempt + 1) (Some e) w1)
      end
  end.

Definition runWithRetryPolicy (fn : Request) (label method : string) (policy : RetryPolicy) (providersTried elapsedMs : Z)
    (random : Z → Q) (w : W) : (A + thrown) * run :=
  let policy := policyForMethod method policy in
  let r := attempts_loop (Z.to_nat (rp_attempts policy)) fn label policy random 0 None w in
  let text e := match messageOf e with "" => "unknown error" | m => m end in
  (match rn_end r with
   | Returned a => inl a
   | Threw e => inr e
   | Broke last =>
       inr (RpcRetriesExhaustedError
         (mkInit (label +:+ " failed after " +:+ bigint_toString 10 (rp_attempts policy) +:+ " attempt(s): "
                    +:+ match last with Some e => text e | None => "unknown error" end) last [])
         method (rp_attempts policy) providersTried elapsedMs)
   end, r).
End run.
Arguments run : clear implicits.
Arguments Request : clear implicits.
End Retry.
Import Retry.

(** ** The wrapper of an exhausted policy *)
Lemma wrapper_status init method a t ms : extractStatus (RpcRetriesExhaustedError init method a t ms) = None.
Proof. done. Qed.
Lemma underlying_status init method a t ms n :
  extractStatus (underlyingError (RpcRetriesExhaustedError init method a t ms)) = Some n →
  ∃ c, in_cause init = Some c ∧ extractStatus c = Some n.
Proof.
  unfold underlyingError. cbn [is_a RpcRetriesExhaustedError OpaqueError oe_name String.eqb Ascii.eqb Bool.eqb cause_of].
  destruct (in_cause init) as [c|]; [|by rewrite wrapper_status]. destruct (nullish (Some c)); [by rewrite wrapper_status|eauto].
Qed.

(** ** Well-formed policies *)
Record policy_wf (p : RetryPolicy) : Prop := {
  wf_attempts : 1 <= rp_attempts p;
  wf_initial : (0 <= rp_initialDelayMs p <= rp_maxDelayMs p)%Q;
  wf_factor : (1 <= rp_backoffFactor p)%Q;
  wf_timeout : (0 <= rp_timeoutMs p)%Q;
}.

Lemma nonNegative_ge v d : (0 <= d)%Q → (0 <= nonNegative v d)%Q.
Proof. intros Hd. destruct v as [[q|]|]; simpl; try done. destruct (Qle_bool 0 q) eqn:E; [by apply Qle_bool_iff in E|done]. Qed.
Lemma Qle_bool_false x y : Qle_bool x y = false → (y < x)%Q.
Proof. intros H. apply Qnot_le_lt. intros Hle%Qle_bool_iff. congruence. Qed.
Lemma Qmin'_le x y : (Qmin' x y <= x ∧ Qmin' x y <= y)%Q.
Proof. destruct (Qmin'_cases x y) as [[-> ?]|[-> ?]]; split; lra. Qed.
Lemma Qmin'_ge z x y : (z <= x → z <= y → z <= Qmin' x y)%Q.
Proof. by destruct (Qmin'_cases x y) as [[-> ?]|[-> ?]]. Qed.

Lemma default_policy_wf : policy_wf DEFAULT_RETRY_POLICY.
Proof. split; simpl; [lia|lra|lra|lra]. Qed.
Lemma no_retry_policy_wf : policy_wf NO_RETRY_POLICY.
Proof. split; simpl; [lia|lra|lra|lra]. Qed.
Lemma resolve_wf o base : policy_wf base → policy_wf (resolveRetryPolicy o base).
Proof.
  intros [Ha [Hi Him] Hf Ht]. destruct o as [o|]; [|by split]. simpl.
  assert (Hm : (0 <= nonNegative (ro_maxDelayMs o) (rp_maxDelayMs base))%Q) by (apply nonNegative_ge; lra).
  split; simpl.
  - destruct (ro_attempts o) as [[q|]|]; simpl; lia.
  - split; [apply Qmin'_ge; [by apply nonNegative_ge|done]|apply Qmin'_le].
  - unfold Qmax'. destruct (Qle_bool 1 _) eqn:E; [by apply Qle_bool_iff in E|lra].
  - by apply nonNegative_ge.
Qed.
Lemma policyForMethod_wf m p : policy_wf p → policy_wf (policyForMethod m p).
Proof. intros H. unfold policyForMethod. case_bool_decide; [apply no_retry_policy_wf|done]. Qed.

Lemma js_round_mono x y : (x <= y)%Q → js_round x <= js_round y.
Proof. intros H. unfold js_round. apply Qfloor_resp_le. lra. Qed.

Lemma js_round_half x : (inject_Z (js_round x) <= x + (1 # 2))%Q.
Proof. apply Qfloor_le. Qed.

(** A delay is [NaN] exactly when zero is multiplied by an overflow. *)
Lemma delay_nan n p random :
  backoffDelayMs n p random = None ↔ (rp_initialDelayMs p == 0)%Q ∧ (DOUBLE_OVERFLOW <= Qpower (rp_backoffFactor p) n)%Q.
Proof.
  unfold backoffDelayMs. unfold double. rewrite <-(Qle_bool_iff _ (Qpower _ _)), <-Qeq_bool_iff.
  destruct (Qle_bool DOUBLE_OVERFLOW (Qpower (rp_backoffFactor p) n)); cbn [double_times].
  - destruct (Qeq_bool (rp_initialDelayMs p) 0); cbn [double_min]; split; [done|done|done|by intros [? _]].
  - unfold double. destruct (Qle_bool _ _); cbn [double_min]; split; (done || by intros [_ ?]).
Qed.

Lemma delay_bounds n p random d : policy_wf p → 0 <= n → (0 <= random <= 1)%Q →
  backoffDelayMs n p random = Some d → 0 <= d <= js_round (rp_maxDelayMs p).
Proof.
  intros [_ [Hi Him] Hf _] Hn [Hr0 Hr1]. unfold backoffDelayMs.
  assert (Hpow : (0 <= Qpower (rp_backoffFactor p) n)%Q) by (apply Qpower_0_le; lra).
  set (pow := Qpower (rp_backoffFactor p) n) in *. set (raw := double_times _ _).
  assert (Hraw : match raw with DFin q => (0 <= q)%Q | _ => True end).
  { assert (Hd : ∀ x, (0 <= x)%Q → match double x with DFin q => (0 <= q)%Q | _ => True end) by (intros x Hx; unfold double; by destruct (Qle_bool _ _)).
    unfold raw. pose proof (Hd pow Hpow) as Hp. destruct (double pow) as [q| |]; cbn [double_times]; [|by destruct (Qeq_bool _ _)|done].
    by apply Hd, Qmult_le_0_compat. }
  destruct raw as [q| |]; cbn [double_min]; intros [= <-].
  - assert (Hc : (0 <= Qmin' q (rp_maxDelayMs p) <= rp_maxDelayMs p)%Q) by (split; [apply Qmin'_ge; lra|apply Qmin'_le]).
    set (c := Qmin' q (rp_maxDelayMs p)) in *. assert (Hfac : (0 <= c * ((1 # 2) + random * (1 # 2)) <= c)%Q) by nra.
    destruct (rp_jitter p); (split; [transitivity (js_round 0); [done|]|]); apply js_round_mono; lra.
  - assert (Hfac : (0 <= rp_maxDelayMs p * ((1 # 2) + random * (1 # 2)) <= rp_maxDelayMs p)%Q) by nra.
    destruct (rp_jitter p); (split; [transitivity (js_round 0); [done|]|]); apply js_round_mono; lra.
Qed.

(** C35 (type): Whatever finite or non-finite numbers are configured, the retry policy in force
    is well formed: nonsense values are clamped, so there is at least one attempt, the first
    delay is not negative and not above the maximum, the factor is at least one and the
    timeout is not negative.  A delay it yields is a number between zero and the maximum
    rounded to milliseconds, which is at most half a millisecond above the maximum itself, or
    [NaN]; it is [NaN] exactly when the first delay is zero and the power of the factor
    overflows. *)
Theorem resolved_policy_is_wellformed options base method n random
    (Hb : policy_wf base) (Hn : 0 <= n) (Hr : (0 <= random <= 1)%Q) :
  let p := policyForMethod method (resolveRetryPolicy options base) in
  policy_wf p ∧
  (∀ d, backoffDelayMs n p random = Some d → 0 <= d <= js_round (rp_maxDelayMs p) ∧ (inject_Z d <= rp_maxDelayMs p + (1 # 2))%Q) ∧
  (backoffDelayMs n p random = None ↔ (rp_initialDelayMs p == 0)%Q ∧ (DOUBLE_OVERFLOW <= Qpower (rp_backoffFactor p) n)%Q).
Proof.
  intros p. assert (Hp : policy_wf p) by (apply policyForMethod_wf, resolve_wf, Hb). split; [done|]. split; [|apply delay_nan].
  intros d Hd. pose proof (delay_bounds n p random d Hp Hn Hr Hd) as Hbd. split; [done|].
  eapply Qle_trans; [|apply js_round_half]. rewrite <-Zle_Qle. apply Hbd.
Qed.

(** ** Runs of a request *)
Section runs.
Context {W A : Type} (num_text : Q → string).

(** What a run of at most [n] attempts looks like. *)
Record fair_run (policy : RetryPolicy) (n : nat) (r : run W A) : Prop := {
  fr_some : (1 <= length (rn_log r) <= n)%nat;
  fr_sleeps : S (length (rn_sleeps r)) = length (rn_log r);
  fr_retried k x : rn_log r !! k = Some x → (S k < length (rn_log r))%nat → ∃ e, x = inr e ∧ isRetryableRpcError e policy = true;
  fr_end : match rn_end r with
           | Returned a => last (rn_log r) = Some (inl a)
           | Threw e => last (rn_log r) = Some (inr e) ∧ isRetryableRpcError e policy = false
           | Broke o => ∃ e, o = Some e ∧ last (rn_log r) = Some (inr e) ∧ isRetryableRpcError e policy = true ∧ length (rn_log r) = n
           end;
}.

Lemma attempts_loop_fair fn label policy random n attempt lastError w :
  Z.of_nat (S n) = rp_attempts policy - attempt →
  fair_run policy (S n) (attempts_loop num_text (S n) fn label policy random attempt lastError w).
Proof.
  revert attempt lastError w. induction n as [|n IH]; intros attempt lastError w Hn; [|remember (S n) as m]; cbn [attempts_loop].
  all: destruct (fn attempt w) as [[work elapsed] w1].
  all: destruct (withTimeout num_text work elapsed (rp_timeoutMs policy) label) as [a|e].
  1,3: split; simpl; [lia|done| |done]; intros [|k] x Hk Hl; [lia|done].
  all: destruct (isRetryableRpcError e policy) eqn:Hre; cbn [negb].
  2,4: split; simpl; [lia|done| |done]; intros [|k] x Hk Hl; [lia|done].
  - destruct (Z.leb_spec (rp_attempts policy) (attempt + 1)); [|lia].
    split; simpl; [lia|done| |by exists e]. intros [|k] x Hk Hl; [lia|done].
  - destruct (Z.leb_spec (rp_attempts policy) (attempt + 1)); [lia|].
    destruct (IH (attempt + 1) (Some e) w1) as [Hs Hsl Hret Hend]; [lia|].
    set (r := attempts_loop _ _ _ _ _ _ _ _ _) in *. split; simpl; [lia|lia| |].
    + intros [|k] x Hk Hl; simpl in Hk; [injection Hk as <-; by exists e|]. eapply Hret; [exact Hk|lia].
    + destruct (rn_log r) as [|y l] eqn:El; [simpl in Hs; lia|]. rewrite last_cons_cons.
      destruct (rn_end r) as [a|e'|o]; [done|done|]. destruct Hend as (e' & -> & Hl & Hr & Hlen). exists e'. simpl in *. auto with lia.
Qed.

Lemma run_fair fn label method policy tried elapsed random w x r :
  policy_wf policy →
  runWithRetryPolicy num_text fn label method policy tried elapsed random w = (x, r) →
  let p := policyForMethod method policy in
  fair_run p (Z.to_nat (rp_attempts p)) r ∧
  match x with
  | inl a => last (rn_log r) = Some (inl a)
  | inr e => ∃ e', last (rn_log r) = Some (inr e') ∧
      (e = e' ∧ isRetryableRpcError e' p = false ∨
       isRetryableRpcError e' p = true ∧ length (rn_log r) = Z.to_nat (rp_attempts p) ∧
       ∃ msg, e = RpcRetriesExhaustedError (mkInit msg (Some e') []) method (rp_attempts p) tried elapsed)
  end.
Proof.
  intros Hwf H p. assert (Hp : policy_wf p) by by apply policyForMethod_wf. pose proof (wf_attempts _ Hp) as Ha.
  unfold runWithRetryPolicy in H. fold p in H. injection H as <- <-.
  destruct (Z.to_nat (rp_attempts p)) as [|n] eqn:En; [lia|].
  pose proof (attempts_loop_fair fn label p random n 0 None w ltac:(lia)) as Hf. split; [exact Hf|].
  destruct Hf as [_ _ _ Hend]. set (r := attempts_loop _ _ _ _ _ _ _ _ _) in *.
  destruct (rn_end r) as [a|e|o]; [done| |].
  - destruct Hend as [Hl Hr]. exists e. split; [done|]. by left.
  - destruct Hend as (e & -> & Hl & Hr & Hlen). exists e. split; [done|]. right. split; [done|]. split; [done|]. by eexists.
Qed.
End runs.

(** ** An account service that is down twice *)
Definition flaky (status : Z) : thrown := TError "busy" [("status", JNum status)] None.
Definition recovering : Request nat string := λ attempt n,
  (if (2 <=? n)%nat then inl "account" else inr (flaky 503), 10%Q, S n).

Definition nonsense : RetryPolicyOptions :=
  mkOptions (Some (Fin (-7 # 2))) (Some (Fin 0)) (Some (Fin (1 # 2))) (Some (Fin (inject_Z (10 ^ 200)))) (Some false) None None (Some NotFinite).
(** The first retry waits 0, the third [NaN] because the power overflows. *)
Lemma resolved_policy_is_wellformed_witness :
  let p := policyForMethod "getEvents" (resolveRetryPolicy (Some nonsense) DEFAULT_RETRY_POLICY) in
  policy_wf p ∧ rp_attempts p = 1 ∧ backoffDelayMs 1 p (1 # 2) = Some 0 ∧ backoffDelayMs 2 p (1 # 2) = None.
Proof.
  destruct (resolved_policy_is_wellformed (Some nonsense) DEFAULT_RETRY_POLICY "getEvents" 2 (1 # 2) default_policy_wf ltac:(lia) ltac:(split; lra)) as (Hp & _ & Hn).
  split; [exact Hp|]. split; [reflexivity|]. split; [vm_compute; reflexivity|]. apply Hn. split; [reflexivity|].
  apply Qle_bool_iff. vm_compute. reflexivity.
Defined.
