(* ===== verification/WebSoroban.v ===== *)
(** * Web application: reading simulation errors and checking the wallet's network

    [frontend/src/lib/sorobanErrors.ts] and [frontend/src/services/networkValidation.ts].
    A simulation response is any JSON object; the SDK's guard [isSimulationError] is a
    parameter. *)
From Stdlib Require Import Ascii.
From stdpp Require Import base tactics list strings.
From Stdlib Require Import ZArith Lia QArith.
From S2P Require Import Prelude JsString JsMap Json WebErrors.
Open Scope string_scope.
Open Scope list_scope.
Open Scope Z_scope.

(** ** Simulation errors *)
Definition ERROR_MESSAGES : list (string * string) :=
  [("Contract#1", "Insufficient balance"); ("Contract#2", "Unauthorized access"); ("Contract#3", "Invalid input");
   ("Contract#4", "Operation not allowed"); ("Contract#5", "Resource not found"); ("Contract#6", "Already exists");
   ("Contract#7", "Expired"); ("Contract#8", "Invalid signature");
   ("HostError", "Contract execution failed"); ("InvokeHostFunctionTrapped", "Contract execution trapped");
   ("InvokeHostFunctionResourceLimitExceeded", "Resource limit exceeded");
   ("InvokeHostFunctionInsufficientRefundableFee", "Insufficient fee");
   ("ExceededLimit", "Transaction exceeded resource limits"); ("InsufficientBudget", "Insufficient computational budget");
   ("StorageError", "Contract storage error"); ("MissingValue", "Required value not found in storage");
   ("InvalidAction", "Invalid authorization action"); ("MissingAuth", "Missing required authorization")].

(** The first match of [/Contract#(\d+)/] *)
Fixpoint take_digits (s : string) : string :=
  match s with String c s' => if is_dec c then String c (take_digits s') else EmptyString | EmptyString => EmptyString end.
Fixpoint contract_number (s : string) : option string :=
  match s with
  | EmptyString => None
  | String _ s' =>
      if startsWith "Contract#" s
      then match take_digits (drop_string 9 s) with EmptyString => contract_number s' | d => Some d end
      else contract_number s'
  end.

(** [sim.error] when it is there and not empty, else [sim.results?.[0]?.error ?? ""] *)
Definition first_result (sim : jval) : jval := match prop sim "results" with JArr (r :: _) => r | _ => JUndef end.
Definition error_field (v : jval) : res string :=
  match v with JStr s => Ok s | JUndef | JNull => Ok "" | _ => Err (TypeError "errorStr.match is not a function") end.

Definition extractErrorCode (sim : jval) : res (option string) :=
  errorStr ← error_field (if truthy (prop sim "error") then prop sim "error" else prop (first_result sim) "error");
  if String.eqb errorStr "" then Ok None
  else match contract_number errorStr with
       | Some n => Ok (Some ("Contract#" +:+ n))
       | None => Ok (fst <$> List.find (λ kv, includes (fst kv) errorStr) ERROR_MESSAGES)
       end.

Fixpoint take_string (n : nat) (s : string) : string :=
  match n, s with S n', String c s' => String c (take_string n' s') | _, _ => EmptyString end.
Definition known_message (error : string) : option string := snd <$> List.find (λ kv, includes (fst kv) error) ERROR_MESSAGES.
Definition decodeResultError (error : string) : string :=
  match known_message error with Some m => m | None => take_string 200 error end.

Definition decodeSimulationError (sim : jval) : res string :=
  if truthy (prop sim "error") then
    errorStr ← error_field (prop sim "error");
    Ok (match known_message errorStr with
        | Some m => m
        | None =>
            match contract_number errorStr with
            | Some n => "Contract error #" +:+ n
            | None => take_string 200 (if startsWith "Error: " errorStr then drop_string 7 errorStr else errorStr)
            end
        end)
  else match prop (first_result sim) "error" with
       | JStr "" => Ok "Transaction simulation failed"
       | JStr e => Ok (decodeResultError e)
       | v => if truthy v then Err (TypeError "error.includes is not a function") else Ok "Transaction simulation failed"
       end.

(** [(Number(fee) / 1e7).toFixed(7)], exact below [2^53] *)
Definition fee_text (fee : Z) : string :=
  bigint_toString 10 (fee / 10000000) +:+ "." +:+ padStart0 7 (bigint_toString 10 (fee mod 10000000)).
Definition extractEstimatedFee (sim : jval) : res string :=
  match prop sim "minResourceFee" with
  | JStr "" => Ok "0"
  | JStr s => fee ← BigInt s; Ok (fee_text fee)
  | JNum z => if z =? 0 then Ok "0" else Ok (fee_text z)
  | _ => Ok "0"
  end.

Record SimulationResult : Type := mkSim { si_success : bool; si_estimatedFee : option string; si_error : option string; si_errorCode : option string }.
Section simulate.
Context (isSimulationError : jval → bool).
Definition isSimulationSuccess (sim : jval) : bool := negb (isSimulationError sim).

(** [answer] is what [server.simulateTransaction(tx)] gave. *)
Definition simulateAndDecode (answer : jval + thrown) : SimulationResult :=
  match answer with
  | inr (TValue _) => mkSim false None (Some "Simulation failed") None
  | inr e => mkSim false None (Some (errorMessage e)) None
  | inl sim =>
      match (if isSimulationSuccess sim then fee ← extractEstimatedFee sim; Ok (mkSim true (Some fee) None None)
             else
               message ← decodeSimulationError sim;
               code ← extractErrorCode sim;
               Ok (mkSim false None (Some message) code)) with
      | Ok r => r
      | Err e => mkSim false None (Some (err_message e)) None
      end
  end.
End simulate.

(** ** The wallet's network *)
Module NetworkValidation.
Definition NETWORK_ALIASES : list (string * string) :=
  [("public", "mainnet"); ("public network", "mainnet"); ("test net", "testnet"); ("futurenet", "futurenet");
   ("standalone", "local"); ("standalone network", "local")].
Definition normalizeNetworkName (raw : string) : string :=
  let lower := trim (toLowerCase raw) in
  match JMap.get lower NETWORK_ALIASES with
  | Some name => name
  | None =>
      if includes "public" lower then "mainnet"
      else if includes "testnet" lower || includes "test net" lower then "testnet"
      else if includes "futurenet" lower || includes "future" lower then "futurenet"
      else if includes "standalone" lower || includes "local" lower then "local"
      else lower
  end.

(** What Freighter answers: whether the site is allowed, and the network or an error. *)
Record Wallet : Type := mkWallet { wl_allowed : option bool; wl_network : option (option string) }.
Definition getWalletNetwork (w : Wallet) : string :=
  match wl_allowed w with
  | Some true =>
      match wl_network w with
      | Some (Some "") | Some None | None => "unknown"
      | Some (Some n) => toLowerCase n
      end
  | _ => "unknown"
  end.
Record Validation : Type := mkValidation { va_valid : bool; va_expected : string; va_actual : string }.
Definition validateWalletContext (expectedNetwork : string) (w : Wallet) : Validation :=
  let rawActual := getWalletNetwork w in
  mkValidation (String.eqb (normalizeNetworkName rawActual) expectedNetwork) expectedNetwork rawActual.
Definition requireValidNetwork (expectedNetwork : string) (w : Wallet) : res unit :=
  let v := validateWalletContext expectedNetwork w in
  if va_valid v then Ok tt
  else Err (JsError ("Network mismatch detected. Expected: " +:+ va_expected v +:+ ", Wallet: " +:+ va_actual v)).
End NetworkValidation.

(** ** Contract errors above nine *)
Lemma startsWith_refl p s : startsWith p (p +:+ s) = true.
Proof. induction p as [|c p IH]; [done|]. simpl. by rewrite Ascii.eqb_refl. Qed.
Lemma includes_app p a b : includes p (a +:+ p +:+ b) = true.
Proof.
  induction a as [|c a IH].
  - cbn [String.append]. pose proof (startsWith_refl p b). destruct (p +:+ b); simpl; by rewrite H.
  - cbn [String.append includes]. by rewrite IH, orb_true_r.
Qed.

Lemma find_first {A} (f : A → bool) x l : f x = true → List.find f (x :: l) = Some x.
Proof. simpl. by intros ->. Qed.

Definition sim_error (e : string) : jval := JObj [("error", JStr e)].

(** A contract error of two digits is shown as the error of its first digit.  The
    message table is searched by substring before the number is read, so every error 10 to 19
    of a contract reads "Insufficient balance", whatever surrounds it, while the code returned
    beside the message is the right one. *)
Theorem two_digit_error_is_misread n before after (Hn : 10 <= n <= 19) :
  decodeSimulationError (sim_error (before +:+ "Contract#" +:+ bigint_toString 10 n +:+ after)) = Ok "Insufficient balance" ∧
  extractErrorCode (sim_error ("Contract#" +:+ bigint_toString 10 n)) = Ok (Some ("Contract#" +:+ bigint_toString 10 n)).
Proof.
  assert (Hd : ∃ d, bigint_toString 10 n = String "1" (String d "") ∧
     extractErrorCode (sim_error ("Contract#" +:+ bigint_toString 10 n)) = Ok (Some ("Contract#" +:+ bigint_toString 10 n))).
  { assert (n = 10 ∨ n = 11 ∨ n = 12 ∨ n = 13 ∨ n = 14 ∨ n = 15 ∨ n = 16 ∨ n = 17 ∨ n = 18 ∨ n = 19) as Hc by lia.
    destruct_or! Hc; subst n; eexists; split; vm_compute; reflexivity. }
  destruct Hd as (d & Hd & Hcode). split; [|done]. rewrite Hd.
  set (e := before +:+ "Contract#" +:+ String "1" (String d "") +:+ after).
  assert (Hin : includes "Contract#1" e = true) by exact (includes_app "Contract#1" before (String d after)).
  assert (He : e ≠ "") by (unfold e; by destruct before).
  assert (Hk : known_message e = Some "Insufficient balance") by (unfold known_message, ERROR_MESSAGES; by rewrite find_first).
  unfold decodeSimulationError. assert (prop (sim_error e) "error" = JStr e) as -> by done. cbn [truthy error_field].
  rewrite (proj2 (String.eqb_neq e "") He). cbn [negb mbind res_bind]. by rewrite Hk.
Qed.
Lemma two_digit_error_is_misread_witness :
  decodeSimulationError (sim_error ("HostError: " +:+ "Contract#" +:+ bigint_toString 10 12 +:+ "!")) = Ok "Insufficient balance".
Proof. exact (proj1 (two_digit_error_is_misread 12 "HostError: " "!" ltac:(lia))). Defined.
