(* ===== verification/WebChain.v ===== *)
(** * Web application: reads over several providers, quotes, payments and contract calls

    [frontend/src/lib/stellar.ts].  The network is a class: what each provider answers, how
    long it takes and what it changes are arbitrary.  What is submitted, what is signed and
    the metrics of contract calls are logged.  Amounts stay in stroops: their decimal text
    and the assembly of a transaction by the RPC server are not modelled. *)
From Stdlib Require Import Ascii.
From stdpp Require Import base tactics list strings.
From Stdlib Require Import ZArith Lia QArith.
From S2P Require Import Prelude JsString JsMap Json Bytes PubValidate AspPolicy SdkCodec WebErrors WebSoroban.
Import Retry.
Open Scope string_scope.
Open Scope list_scope.
Open Scope Z_scope.

(** ** Computations that throw any value *)
Definition T (W A : Type) : Type := W → (A + thrown) * W.
Global Instance T_ret {W} : MRet (T W) := λ A a w, (inl a, w).
Global Instance T_bind {W} : MBind (T W) := λ A B f m w,
  match m w with (inl a, w') => f a w' | (inr e, w') => (inr e, w') end.
Section effects.
Context {W : Type}.
Definition raise {A} (e : thrown) : T W A := λ w, (inr e, w).
Definition attempt {A} (m : T W A) (h : thrown → T W A) : T W A := λ w,
  match m w with (inl a, w') => (inl a, w') | (inr e, w') => h e w' end.
Definition thrown_of (e : jserr) : thrown := TError (err_message e) [] None.
Definition of_res {A} (r : res A) : T W A := match r with Ok a => mret a | Err e => raise (thrown_of e) end.

Lemma T_bind_ok {A B} (m : T W A) (f : A → T W B) w b w' :
  (m ≫= f) w = (inl b, w') ↔ ∃ a w1, m w = (inl a, w1) ∧ f a w1 = (inl b, w').
Proof.
  unfold mbind, T_bind. split; [|by intros (a & w1 & -> & Hf)]. destruct (m w) as [[a|e] w1]; [eauto|done].
Qed.
Lemma T_bind_err {A B} (m : T W A) (f : A → T W B) w e w' :
  (m ≫= f) w = (inr e, w') → m w = (inr e, w') ∨ ∃ a w1, m w = (inl a, w1) ∧ f a w1 = (inr e, w').
Proof. unfold mbind, T_bind. destruct (m w) as [[a|e'] w1]; [eauto|intros [= -> ->]; auto]. Qed.
Lemma T_bind_case {A B} (m : T W A) (f : A → T W B) w x w' :
  (m ≫= f) w = (x, w') → (∃ e, m w = (inr e, w') ∧ x = inr e) ∨ ∃ a w1, m w = (inl a, w1) ∧ f a w1 = (x, w').
Proof. unfold mbind, T_bind. destruct (m w) as [[a|e'] w1]; [eauto|intros [= <- <-]; eauto]. Qed.
Lemma of_res_run {A} (r : res A) w x w' : of_res r w = (x, w') → w' = w ∧ match r with Ok a => x = inl a | Err e => x = inr (thrown_of e) end.
Proof. destruct r; by intros [= <- <-]. Qed.
End effects.

(** ** Transactions and the network *)
Inductive Operation : Type :=
  | CreateAccount (destination : string) (startingStroops : Z)
  | Payment (destination : string) (stroops : Z)
  | AccountMerge (destination : string)
  | Invoke (contractId method : string) (args : list jval).
Record Tx : Type := mkTx { tx_source : string; tx_fee : Z; tx_memo : option string; tx_op : Operation }.
Record SendResult : Type := mkSend { sr_status : string; sr_hash : option string; sr_text : string }.
(** [tr_events]: the diagnostic events, already read, [None] for one that cannot be;
    [tr_result]: the base64 of the result; [tr_text]: the whole response as JSON. *)
Record TxResponse : Type := mkResponse { tr_status : string; tr_events : option (list (option string)); tr_result : option string; tr_text : string }.

Class Network (W : Type) : Type := {
  num_text : Q → string;
  random : Z → Q;
  elapsedMs : Z;
  policy : RetryPolicy;                                     (** of the clients *)
  default_policy : RetryPolicy;                             (** [getDefaultRetryPolicy()] *)
  loadAccount_primary : string → Request W jval;
  loadAccount_others : list (string → Request W jval);
  ledgers : list (Request W (list jval));                   (** one per Horizon URL *)
  submitTransaction : Tx → T W string;
  getAccount : string → T W unit;
  prepareTransaction : Tx → T W unit;
  simulateTransaction : Tx → T W jval;
  sendTransaction : Tx → T W SendResult;
  getTransaction : string → W → (TxResponse + thrown) * Z * W;    (** and the time it took *)
  isSimulationError : jval → bool;
}.
Arguments mkResponse : clear implicits.

Section chain.
Context {W : Type} `{!Network W}.

(** ** Reads over several providers *)
Section fallback.
Context {A : Type}.
(** The answers of each provider that was asked, attempt by attempt. *)
Record read : Type := mkRead { rd_result : A + thrown; rd_logs : list (list (A + thrown)); rd_world : W }.

(** A provider without the method is skipped. *)
Fixpoint providers_loop (providers : list (option (Request W A))) (label method : string) (tried : Z) (lastError : option thrown) (w : W) : read :=
  match providers with
  | [] =>
      let cause := underlyingError <$> lastError in
      mkRead (inr (RpcRetriesExhaustedError
        (mkInit (label +:+ "." +:+ method +:+ " failed across " +:+ bigint_toString 10 tried +:+ " provider(s): "
                   +:+ match match cause with Some e => errorMessage e | None => "undefined" end with "" => "unknown error" | m => m end) cause [])
        method (rp_attempts policy * Z.max tried 1) tried elapsedMs)) [] w
  | None :: rest => providers_loop rest label method tried lastError w
  | Some fn :: rest =>
      let '(x, r) := runWithRetryPolicy num_text fn (label +:+ "." +:+ method) method policy (tried + 1) elapsedMs random w in
      match x with
      | inl a => mkRead (inl a) [rn_log r] (rn_world r)
      | inr e =>
          if is_a "RpcRetriesExhaustedError" e then
            let rest := providers_loop rest label method (tried + 1) (Some e) (rn_world r) in
            mkRead (rd_result rest) (rn_log r :: rd_logs rest) (rd_world rest)
          else mkRead (inr e) [rn_log r] (rn_world r)
      end
  end.

Definition withReadFallback (primary : Request W A) (others : list (option (Request W A))) (label : string)
    (noRetryMethods : list string) (retryMethods : option (list string)) (method : string) (w : W) : read :=
  if bool_decide (method ∈ noRetryMethods) || match retryMethods with Some l => bool_decide (method ∉ l) | None => false end
  then let '(x, _, w') := primary 0 w in mkRead x [[x]] w'
  else providers_loop (Some primary :: others) label method 0 None w.
End fallback.

(** ** Accounts *)
Definition loadAccount (publicKey : string) (w : W) : read (A := jval) :=
  withReadFallback (loadAccount_primary publicKey) ((λ f, Some (f publicKey)) <$> loadAccount_others) "Horizon"
    ["submitTransaction"] (Some ["loadAccount"]) "loadAccount" w.
Definition run_read {A} (f : W → read (A := A)) : T W A := λ w, (rd_result (f w), rd_world (f w)).

Definition accountExists (publicKey : string) : T W bool :=
  attempt (run_read (loadAccount publicKey);; mret true)
    (λ e, if isNotFoundError e then mret false
          else let cause := underlyingError e in
               raise (RpcRequestError (mkInit "Horizon.loadAccount failed" (Some e) []) "Horizon" "loadAccount"
                        (extractStatus cause) (isRetryableRpcError cause default_policy))).

(** ** Quotes *)
Definition NEW_ACCOUNT_MIN_RESERVE_STROOPS : Z := 10000000.
Definition BASE_FEE : Z := 100.
Definition horizonInt (value : jval) : res Z :=
  match value with
  | JNum z => Ok z
  | JFlt _ => Err (RangeError "The number cannot be converted to a BigInt because it is not an integer")
  | JStr s => if String.eqb (trim s) "" then Ok 0 else BigInt s
  | _ => Ok 0
  end.
Definition or_default (v d : Z) : Z := if v =? 0 then d else v.

Record LedgerRules : Type := mkRules { lr_baseFee : Z; lr_baseReserve : Z }.
Definition rules_of (records : list jval) : res LedgerRules :=
  let record := default JUndef (head records) in
  fee ← horizonInt (prop record "base_fee_in_stroops");
  reserve ← horizonInt (prop record "base_reserve_in_stroops");
  Ok (mkRules (or_default fee BASE_FEE) (or_default reserve 5000000)).
Fixpoint ledger_rules (urls : list (Request W (list jval))) : T W LedgerRules :=
  match urls with
  | [] => mret (mkRules BASE_FEE 5000000)
  | fn :: rest => λ w,
      let '(x, r) := runWithRetryPolicy num_text fn "Horizon.ledgers" "ledgers" default_policy 1 elapsedMs random w in
      match (match x with
             | inl records => match rules_of records with Ok rules => inl rules | Err e => inr (thrown_of e) end
             | inr e => inr e
             end) with
      | inl rules => (inl rules, rn_world r)
      | inr e => if isRetryableRpcError (underlyingError e) default_policy then ledger_rules rest (rn_world r)
                 else (inl (mkRules BASE_FEE 5000000), rn_world r)
      end
  end.
Definition getLatestLedgerRules : T W LedgerRules := ledger_rules ledgers.

Definition minimumBalanceForAccount (account : jval) (baseReserveStroops : Z) : res Z :=
  sub ← horizonInt (prop account "subentry_count");
  sponsoring ← horizonInt (prop account "num_sponsoring");
  sponsored ← horizonInt (prop account "num_sponsored");
  let reserveUnits := 2 + sub + sponsoring - sponsored in
  Ok ((if 0 <? reserveUnits then reserveUnits else 0) * baseReserveStroops).

(** [account.balances.find(b => b.asset_type === "native")?.balance] *)
Definition native_balance (account : jval) : res (option string) :=
  match prop account "balances" with
  | JArr l =>
      Ok (match List.find (λ b, match prop b "asset_type" with JStr s => String.eqb s "native" | _ => false end) l with
          | Some b => match prop b "balance" with JStr s => Some s | _ => None end
          | None => None
          end)
  | _ => Err (TypeError "balances.find is not a function")
  end.

Record NativeWithdrawalQuote : Type := mkQuote {
  nq_balanceStroops : Z;
  nq_feeStroops : Z;
  nq_minimumBalanceStroops : Z;
  nq_spendableStroops : Z;
  nq_destinationExists : bool;
}.
Definition getNativeWithdrawalQuote (source destination : string) : T W NativeWithdrawalQuote :=
  account ← run_read (loadAccount source);
  rules ← getLatestLedgerRules;
  native ← of_res (native_balance account);
  let balance := Amount.parseHorizonBalanceToStroops native in
  destinationExists ← accountExists destination;
  minimum ← of_res (minimumBalanceForAccount account (lr_baseReserve rules));
  let retained := minimum + lr_baseFee rules in
  let available := if retained <? balance then balance - retained else 0 in
  let spendable := if negb destinationExists && (available <? NEW_ACCOUNT_MIN_RESERVE_STROOPS) then 0 else available in
  mret (mkQuote balance (lr_baseFee rules) minimum spendable destinationExists).

(** ** What was done *)
Record World : Type := mkWorld {
  wo_env : W;
  wo_sent : list Tx;                                        (** handed to a node *)
  wo_asked : list Tx;                                       (** handed to the wallet to sign *)
  wo_calls : list (string * string * bool);                 (** [recordContractCall] *)
}.
Definition on_env {A} (m : T W A) : T World A := λ w,
  let '(x, e) := m (wo_env w) in (x, mkWorld e (wo_sent w) (wo_asked w) (wo_calls w)).
Definition sending {A} (tx : Tx) (m : T W A) : T World A := λ w,
  let '(x, e) := m (wo_env w) in (x, mkWorld e (wo_sent w ++ [tx]) (wo_asked w) (wo_calls w)).
Definition asking {A} (tx : Tx) (m : T W A) : T World A := λ w,
  let '(x, e) := m (wo_env w) in (x, mkWorld e (wo_sent w) (wo_asked w ++ [tx]) (wo_calls w)).
Definition recordContractCall (contractId method : string) (success : bool) : T World unit := λ w,
  (inl tt, mkWorld (wo_env w) (wo_sent w) (wo_asked w) (wo_calls w ++ [(contractId, method, success)])).

(** ** Payments *)
Definition buildNativeTransferOperation (destination : string) (amountStroops : Z) (destinationExists : option bool) : T World Operation :=
  destExists ← (match destinationExists with Some b => mret b | None => on_env (accountExists destination) end : T World bool);
  if negb destExists then
    if amountStroops <? NEW_ACCOUNT_MIN_RESERVE_STROOPS
    then raise (TError "Destination account does not exist; create-account requires at least 1 XLM." [] None)
    else mret (CreateAccount destination amountStroops)
  else mret (Payment destination amountStroops).

(** Signed with the source's own key pair, as every caller in the sources does. *)
Definition sendNativePayment (source destination : string) (amountStroops : Z) (destinationExists : option bool)
    (feeStroops : option Z) (memo : option string) : T World string :=
  on_env (run_read (loadAccount source));;
  op ← buildNativeTransferOperation destination amountStroops destinationExists;
  let tx := mkTx source (default BASE_FEE feeStroops) (match memo with Some "" => None | m => m end) op in
  sending tx (submitTransaction tx).

Definition sendAccountMerge (source destination : string) : T World string :=
  on_env (run_read (loadAccount source));;
  let tx := mkTx source BASE_FEE None (AccountMerge destination) in
  sending tx (submitTransaction tx).

(** ** Contract calls *)
Definition TX_POLL_TIMEOUT_MS : Z := 60000.
Definition TX_POLL_INTERVAL_MS : Z := 1000.
Definition poll_timeout (txHash : string) (timeoutMs now : Z) : thrown :=
  TransactionTimeoutError
    (mkInit ("Transaction polling timed out after " +:+ bigint_toString 10 timeoutMs +:+ "ms. Hash: " +:+ txHash
               +:+ ". Check status manually or retry later.") None []) txHash now.
(** [now] is the time since the polling started; each turn takes at least the interval. *)
Fixpoint poll_loop (n : nat) (txHash : string) (timeoutMs now : Z) : T W TxResponse := λ w,
  match n with
  | O => raise (poll_timeout txHash timeoutMs now) w
  | S n' =>
      if now <? timeoutMs then
        let '(x, took, w1) := getTransaction txHash w in
        match x with
        | inr e => (inr e, w1)
        | inl r => if negb (String.eqb (tr_status r) "NOT_FOUND") then (inl r, w1)
                   else poll_loop n' txHash timeoutMs (now + Z.max 0 took + TX_POLL_INTERVAL_MS) w1
        end
      else raise (poll_timeout txHash timeoutMs now) w
  end.
Definition poll_fuel (timeoutMs : Z) : nat := S (Z.to_nat (timeoutMs / TX_POLL_INTERVAL_MS + 1)).
Definition pollTransactionStatus (txHash : string) (timeoutMs : Z) : T W TxResponse := poll_loop (poll_fuel timeoutMs) txHash timeoutMs 0.

(** [Array.from(new Set(parts)).join(" | ").slice(0, 1500)] *)
Definition decodeDiagnostics (events : list (option string)) : string :=
  take_string 1500 (join " | " (JSet.of_list (omap id events))).

Definition simulate (tx : Tx) : T W SimulationResult := λ w,
  let '(x, w') := simulateTransaction tx w in (inl (simulateAndDecode isSimulationError x), w').

(** The transaction, assembled and simulated. *)
Definition prepared (source contractId method : string) (args : list jval) (wanted : bool) : T World Tx :=
  let tx := mkTx source BASE_FEE None (Invoke contractId method args) in
  on_env (getAccount source);;
  on_env (prepareTransaction tx);;
  (if wanted then
     sim ← on_env (simulate tx);
     if si_success sim then mret tt
     else raise (SimulationFailedError (mkInit ("Simulation failed: " +:+ default "undefined" (si_error sim)) None [])
                   contractId method (si_errorCode sim))
   else mret tt : T World unit);;
  mret tx.
(** Sent, and polled until it is final. *)
Definition confirmed (contractId method : string) (explain : TxResponse → string * option string) (tx : Tx) : T World string :=
  send ← sending tx (sendTransaction tx);
  let context := [("contractId", JStr contractId); ("method", JStr method)] in
  if String.eqb (sr_status send) "ERROR" then
    raise (TransactionRejectedError (mkInit ("Transaction rejected by the RPC node: " +:+ sr_text send) None context) (sr_status send) (sr_hash send))
  else
    let hash := default "" (sr_hash send) in
    r ← on_env (pollTransactionStatus hash TX_POLL_TIMEOUT_MS);
    if negb (String.eqb (tr_status r) "SUCCESS") then
      raise (TransactionFailedError (mkInit ("Transaction " +:+ tr_status r +:+ " (" +:+ hash +:+ ")" +:+ (explain r).1) None context) hash (tr_status r) (explain r).2)
    else mret hash.
Definition counted (contractId method : string) (m : T World string) : T World string :=
  attempt (hash ← m; recordContractCall contractId method true;; mret hash)
    (λ e, recordContractCall contractId method false;; raise e).

Definition failure_reason (r : TxResponse) : string :=
  let reason := match tr_events r with Some (_ :: _ as l) => decodeDiagnostics l | _ => "" end in
  match reason with
  | "" => match tr_result r with Some x => "resultXdr " +:+ x | None => "" end
  | x => x
  end.
(** [signTransaction] is the wallet's: what it returns is what is sent. *)
Definition invokeContractMethod (source contractId method : string) (args : list jval) (wanted : bool)
    (expectedNetwork : string) (wallet : W → NetworkValidation.Wallet) (signTransaction : Tx → T W Tx) : T World string :=
  counted contractId method
    (tx ← prepared source contractId method args wanted;
     wl ← on_env (λ w, (inl (wallet w), w) : (NetworkValidation.Wallet + thrown) * W);
     of_res (NetworkValidation.requireValidNetwork expectedNetwork wl);;
     signed ← asking tx (signTransaction tx);
     confirmed contractId method
       (λ r, match failure_reason r with "" => (": " +:+ tr_text r, None) | x => (": " +:+ x, Some x) end) signed).
Definition invokeContractWithKeypair (source contractId method : string) (args : list jval) (wanted : bool) : T World string :=
  counted contractId method
    (tx ← prepared source contractId method args wanted;
     confirmed contractId method (λ _, ("", None)) tx).
End chain.
Arguments World : clear implicits.

(** ** What a failed read says *)
Definition says_absent (e : thrown) : Prop := extractStatus e = Some 404 ∨ extractStatus (underlyingError e) = Some 404.
Definition answered {A} (logs : list (list (A + thrown))) (P : A + thrown → Prop) : Prop :=
  ∃ log x, log ∈ logs ∧ last log = Some x ∧ P x.

#[local] Opaque runWithRetryPolicy.
Section reads.
Context {W A : Type} `{!Network W} (Hwf : policy_wf policy).
Implicit Types (providers : list (option (Request W A))).

Lemma providers_loop_ok providers label method tried lastError w a :
  rd_result (providers_loop providers label method tried lastError w) = inl a →
  answered (rd_logs (providers_loop providers label method tried lastError w)) (λ x, x = inl a).
Proof using Hwf.
  revert tried lastError w. induction providers as [|[fn|] rest IH]; intros tried lastError w; simpl; [done| |apply IH].
  destruct (runWithRetryPolicy _ _ _ _ _ _ _ _ _) as [[b|e] r] eqn:E; simpl.
  - intros [= ->]. apply run_fair in E as [_ Hl]; [|done]. eexists _, _. split; [by left|done].
  - destruct (is_a _ e); [|done]. simpl. intros (log & x & Hin & Hx)%IH. exists log, x. split; [by right|done].
Qed.

Lemma providers_loop_absent providers label method tried lastError w e :
  rd_result (providers_loop providers label method tried lastError w) = inr e → isNotFoundError e = true →
  answered (rd_logs (providers_loop providers label method tried lastError w)) (λ x, ∃ e', x = inr e' ∧ says_absent e') ∨
  ∃ e0, lastError = Some e0 ∧ extractStatus (underlyingError e0) = Some 404.
Proof using Hwf.
  unfold isNotFoundError. intros He Hn%bool_decide_eq_true_1. revert tried lastError w He.
  induction providers as [|[fn|] rest IH]; intros tried lastError w He; simpl in *; [| |by eapply IH].
  - injection He as <-. right. apply underlying_status in Hn as (c & Hc & Hs). destruct lastError as [e0|]; [|done].
    exists e0. split; [done|]. by injection Hc as ->.
  - destruct (runWithRetryPolicy _ _ _ _ _ _ _ _ _) as [[b|e1] r] eqn:E; [done|].
    apply run_fair in E as [_ (e' & Hl & He')]; [|done].
    assert (Hs : extractStatus (underlyingError e1) = Some 404 → says_absent e').
    { destruct He' as [[-> _]|(_ & _ & msg & ->)]; [by right|]. intros (c & [= <-] & Hc)%underlying_status. by left. }
    destruct (is_a _ e1); simpl in *.
    + left. destruct (IH _ _ _ He) as [(log & x & Hin & Hx)|(e0 & [= <-] & H0)].
      * exists log, x. split; [by right|done].
      * exists (rn_log r), (inr e'). split; [by left|]. split; [done|]. eauto.
    + injection He as ->. left. exists (rn_log r), (inr e'). split; [by left|]. split; [done|]. eauto.
Qed.
End reads.

Section accounts.
Context {W : Type} `{!Network W}.

(** An account is reported absent only on a definitive answer: some provider's
    last attempt ended in a 404; it is reported present only when some provider returned it.
    A timeout, a rate limit, a server error or providers that are all down raise an error
    that says whether trying again can help, never "absent". *)
Theorem account_absent_only_if_told pk w x w' (Hwf : policy_wf policy) (Hrun : accountExists pk w = (x, w')) :
  match x with
  | inl true => answered (rd_logs (loadAccount pk w)) (λ y, ∃ account, y = inl account)
  | inl false => answered (rd_logs (loadAccount pk w)) (λ y, ∃ e, y = inr e ∧ says_absent e)
  | inr e => hasErrorCode e RPC_REQUEST_FAILED = true ∧
      ∃ e0, rd_result (loadAccount pk w) = inr e0 ∧ isNotFoundError e0 = false ∧ isRetryable e = isRetryableRpcError (underlyingError e0) default_policy
  end.
Proof.
  unfold accountExists, attempt, run_read, mbind, T_bind in Hrun.
  assert (Hload : loadAccount pk w = providers_loop (Some (loadAccount_primary pk) :: ((λ f, Some (f pk)) <$> loadAccount_others)) "Horizon" "loadAccount" 0 None w)
    by done.
  destruct (rd_result (loadAccount pk w)) as [a|e] eqn:E.
  - injection Hrun as <- <-. rewrite Hload in E |- *. apply providers_loop_ok in E as (log & y & Hin & Hl & ->); [|done]. exists log, (inl a). eauto.
  - destruct (isNotFoundError e) eqn:Hn; injection Hrun as <- <-.
    + rewrite Hload in E |- *. apply providers_loop_absent in E as [?|(? & ? & _)]; done.
    + split; [done|]. by exists e.
Qed.
End accounts.

(** ** What is submitted *)
Section spending.
Context {W : Type} `{!Network W}.

Lemma on_env_run {A} (m : T W A) (w w' : World W) x : on_env m w = (x, w') →
  wo_sent w' = wo_sent w ∧ wo_asked w' = wo_asked w ∧ wo_calls w' = wo_calls w ∧ m (wo_env w) = (x, wo_env w').
Proof. unfold on_env. destruct (m (wo_env w)). by intros [= <- <-]. Qed.
Lemma sending_run {A} tx (m : T W A) (w w' : World W) x : sending tx m w = (x, w') →
  wo_sent w' = wo_sent w ++ [tx] ∧ wo_asked w' = wo_asked w ∧ wo_calls w' = wo_calls w ∧ m (wo_env w) = (x, wo_env w').
Proof. unfold sending. destruct (m (wo_env w)). by intros [= <- <-]. Qed.

Definition transfer_op (exists_ : bool) (destination : string) (amount : Z) : Operation :=
  if exists_ then Payment destination amount else CreateAccount destination amount.
Definition payment_tx (src dst : string) (amount : Z) (b : bool) (fee : option Z) (memo : option string) : Tx :=
  mkTx src (default BASE_FEE fee) (match memo with Some "" => None | m => m end) (transfer_op b dst amount).

(** Nothing is submitted, or exactly the transfer. *)
Lemma pay_sent src dst amount b fee memo (w w' : World W) x : sendNativePayment src dst amount (Some b) fee memo w = (x, w') →
  (wo_sent w' = wo_sent w ∧ ∃ e, x = inr e) ∨
  (b = false → NEW_ACCOUNT_MIN_RESERVE_STROOPS <= amount) ∧ wo_sent w' = wo_sent w ++ [payment_tx src dst amount b fee memo].
Proof.
  intros H. apply T_bind_case in H as [(e & (H & _)%on_env_run & ->)|(account & w1 & (H1 & _)%on_env_run & H)]; [by left; eauto|].
  unfold buildNativeTransferOperation in H. destruct b; cbn [negb] in H.
  - right. split; [done|]. apply (sending_run _ _ _ _ _) in H as [H _]. by rewrite H, H1.
  - unfold mbind, T_bind, mret, T_ret in H. cbn [negb] in H.
    destruct (Z.ltb_spec amount NEW_ACCOUNT_MIN_RESERVE_STROOPS); [injection H as <- <-; left; eauto|].
    right. split; [done|]. apply (sending_run _ _ _ _ _) in H as [H _]. by rewrite H, H1.
Qed.
Lemma merge_sent src dst (w w' : World W) x : sendAccountMerge src dst w = (x, w') →
  (wo_sent w' = wo_sent w ∧ ∃ e, x = inr e) ∨ wo_sent w' = wo_sent w ++ [mkTx src BASE_FEE None (AccountMerge dst)].
Proof.
  intros H. apply T_bind_case in H as [(e & (H & _)%on_env_run & ->)|(account & w1 & (H1 & _)%on_env_run & (H & _)%sending_run)]; [by left; eauto|].
  right. by rewrite H, H1.
Qed.

(** What a quote promises. *)
Record quote_ok (q : NativeWithdrawalQuote) : Prop := {
  qo_spendable : 0 <= nq_spendableStroops q;
  qo_balance : 0 < nq_spendableStroops q →
    nq_spendableStroops q + nq_feeStroops q + nq_minimumBalanceStroops q = nq_balanceStroops q;
  qo_new : nq_destinationExists q = false → nq_spendableStroops q = 0 ∨ NEW_ACCOUNT_MIN_RESERVE_STROOPS <= nq_spendableStroops q;
}.
Lemma quote_is_ok src dst w q w' : getNativeWithdrawalQuote src dst w = (inl q, w') → quote_ok q.
Proof.
  unfold getNativeWithdrawalQuote. intros H. repeat (apply T_bind_ok in H as (? & ? & _ & H)).
  injection H as <- _. split; simpl.
  all: match goal with |- context [if ?b <? ?a then _ else 0] => destruct (Z.ltb_spec b a) end.
  all: match goal with |- context [negb ?b] => destruct b end; simpl; unfold NEW_ACCOUNT_MIN_RESERVE_STROOPS.
  all: repeat match goal with |- context [?a <? ?b] => destruct (Z.ltb_spec a b) end; intros; try done; lia.
Qed.

(** ** Polling ends *)
(** Once the fuel covers the time that is left, more fuel changes nothing. *)
Lemma poll_enough n k txHash timeoutMs now w : timeoutMs <= now + TX_POLL_INTERVAL_MS * Z.of_nat n →
  poll_loop (n + k) txHash timeoutMs now w = poll_loop n txHash timeoutMs now w.
Proof.
  unfold TX_POLL_INTERVAL_MS. revert now w. induction n as [|n IH]; intros now w Hn.
  - destruct k; [done|]. simpl. destruct (Z.ltb_spec now timeoutMs); [lia|done].
  - cbn [Nat.add poll_loop]. destruct (now <? timeoutMs); [|done]. destruct (getTransaction txHash w) as [[[r|e] took] w1]; [|done].
    destruct (negb _); [done|]. apply IH. unfold TX_POLL_INTERVAL_MS. lia.
Qed.
Lemma poll_total k txHash timeoutMs w : 0 <= timeoutMs →
  poll_loop (poll_fuel timeoutMs + k) txHash timeoutMs 0 w = pollTransactionStatus txHash timeoutMs w.
Proof.
  intros Ht. apply poll_enough. unfold poll_fuel, TX_POLL_INTERVAL_MS. pose proof (Z.div_mod timeoutMs 1000). pose proof (Z.mod_pos_bound timeoutMs 1000).
  pose proof (Z.div_pos timeoutMs 1000). lia.
Qed.
Lemma poll_final n txHash timeoutMs now w r w' : poll_loop n txHash timeoutMs now w = (inl r, w') → tr_status r ≠ "NOT_FOUND".
Proof.
  revert now w. induction n as [|n IH]; intros now w; [done|]. cbn [poll_loop]. destruct (now <? timeoutMs); [|done].
  destruct (getTransaction txHash w) as [[[r'|e] took] w1]; [|done].
  destruct (String.eqb_spec (tr_status r') "NOT_FOUND"); simpl; [apply IH|by intros [= -> _]].
Qed.

(** ** Contract calls *)
Definition call_tx (source contractId method : string) (args : list jval) : Tx := mkTx source BASE_FEE None (Invoke contractId method args).
Definition same_log (w w' : World W) : Prop := wo_sent w' = wo_sent w ∧ wo_asked w' = wo_asked w ∧ wo_calls w' = wo_calls w.
Lemma same_log_trans w1 w2 w3 : same_log w1 w2 → same_log w2 w3 → same_log w1 w3.
Proof. unfold same_log. intros (-> & -> & ->) (-> & -> & ->). done. Qed.
Lemma on_env_log {A} (m : T W A) (w w' : World W) x : on_env m w = (x, w') → same_log w w' ∧ m (wo_env w) = (x, wo_env w').
Proof. intros (? & ? & ? & ?)%on_env_run. done. Qed.

(** Some simulation of the transaction was read as a success. *)
Definition simulated (tx : Tx) : Prop := ∃ e e' sim, simulate tx e = (inl sim, e') ∧ si_success sim = true.

Lemma prepared_run source contractId method args wanted (w w' : World W) x :
  prepared source contractId method args wanted w = (x, w') →
  same_log w w' ∧ (∀ tx, x = inl tx → tx = call_tx source contractId method args ∧ (wanted = true → simulated tx)).
Proof.
  unfold prepared. fold (call_tx source contractId method args). set (tx := call_tx _ _ _ _). intros H.
  apply T_bind_case in H as [(e & [H _]%on_env_log & ->)|(u1 & w1 & [H1 _]%on_env_log & H)]; [by split|].
  apply T_bind_case in H as [(e & [H _]%on_env_log & ->)|(u2 & w2 & [H2 _]%on_env_log & H)]; [split; [by eapply same_log_trans|done]|].
  pose proof (same_log_trans _ _ _ H1 H2) as H12. destruct wanted.
  - apply T_bind_case in H as [(e & H & ->)|(u3 & w3 & H & [= <- <-])]; apply T_bind_case in H as [(e' & [H3 _]%on_env_log & He)|(sim & w4 & [H3 Hs]%on_env_log & H)];
      try discriminate He; try (split; [by eapply same_log_trans|done]).
    + destruct (si_success sim); [done|]. injection H as <- <-. split; [by eapply same_log_trans|done].
    + destruct (si_success sim) eqn:Es; [|done]. injection H as _ <-. split; [by eapply same_log_trans|].
      intros t [= <-]. split; [done|]. intros _. by eexists _, _, _.
  - injection H as <- <-. split; [done|]. by intros t [= <-].
Qed.

(** The hash was polled until the ledger reported success. *)
Definition succeeded (hash : string) : Prop := ∃ e e' r, pollTransactionStatus hash TX_POLL_TIMEOUT_MS e = (inl r, e') ∧ tr_status r = "SUCCESS".

Lemma confirmed_run contractId method explain tx (w w' : World W) x : confirmed contractId method explain tx w = (x, w') →
  wo_sent w' = wo_sent w ++ [tx] ∧ wo_asked w' = wo_asked w ∧ wo_calls w' = wo_calls w ∧ (∀ hash, x = inl hash → succeeded hash).
Proof.
  unfold confirmed. intros H. apply T_bind_case in H as [(e & (Hs & Ha & Hc & _)%sending_run & ->)|(send & w1 & (Hs & Ha & Hc & _)%sending_run & H)]; [done|].
  destruct (String.eqb (sr_status send) "ERROR"); [injection H as <- <-; done|].
  apply T_bind_case in H as [(e & (Hs' & Ha' & Hc' & _)%on_env_run & ->)|(r & w2 & (Hs' & Ha' & Hc' & Hp)%on_env_run & H)]; [split_and!; congruence|].
  destruct (String.eqb_spec (tr_status r) "SUCCESS") as [Hok|]; injection H as <- <-; (split_and!; [congruence|congruence|congruence|]); [|done].
  intros h [= <-]. by eexists _, _, _.
Qed.

Lemma counted_run contractId method (m : T (World W) string) (w w' : World W) x : counted contractId method m w = (x, w') →
  ∃ w1, m w = (x, w1) ∧ wo_sent w' = wo_sent w1 ∧ wo_asked w' = wo_asked w1 ∧
    wo_calls w' = wo_calls w1 ++ [(contractId, method, match x with inl _ => true | inr _ => false end)].
Proof.
  unfold counted, attempt, mbind, T_bind. destruct (m w) as [[h|e] w1]; simpl; intros [= <- <-]; eauto.
Qed.

(** C14 (safety): A contract call through the wallet.  Every call is counted once, as a success
    exactly when it returns.  The wallet is asked to sign at most once, the transaction that
    was built for this call, only on the expected network and, unless simulation is switched
    off, only after a successful simulation.  What is sent is what the wallet returned, once;
    a hash is returned only when the ledger reported that transaction's success. *)
Theorem wallet_call_is_guarded source contractId method args wanted expectedNetwork wallet signTransaction (w w' : World W) x
    (Hrun : invokeContractMethod source contractId method args wanted expectedNetwork wallet signTransaction w = (x, w')) :
  let tx := call_tx source contractId method args in
  wo_calls w' = wo_calls w ++ [(contractId, method, match x with inl _ => true | inr _ => false end)] ∧
  ((wo_asked w' = wo_asked w ∧ wo_sent w' = wo_sent w ∧ ∃ e, x = inr e) ∨
   wo_asked w' = wo_asked w ++ [tx] ∧ (wanted = true → simulated tx) ∧
   (∃ env, NetworkValidation.normalizeNetworkName (NetworkValidation.getWalletNetwork (wallet env)) = expectedNetwork) ∧
   ((wo_sent w' = wo_sent w ∧ ∃ e, x = inr e) ∨
    ∃ signed env env', signTransaction tx env = (inl signed, env') ∧ wo_sent w' = wo_sent w ++ [signed] ∧
      ∀ hash, x = inl hash → succeeded hash)).
Proof.
  intros tx. unfold invokeContractMethod in Hrun. apply counted_run in Hrun as (w1 & H & -> & -> & ->).
  apply T_bind_case in H as [(e & [(Hs & Ha & Hc) _]%prepared_run & ->)|(t & w2 & [(Hs & Ha & Hc) Ht]%prepared_run & H)].
  { rewrite Hs, Ha, Hc. split; [done|]. left. eauto. }
  destruct (Ht t eq_refl) as [-> Hsim]. fold tx in H, Hsim.
  apply T_bind_case in H as [(e & H & ->)|(wl & w3 & H & H')]; [discriminate H|].
  apply on_env_run in H as (Hs3 & Ha3 & Hc3 & [= Hw _]). subst wl.
  apply T_bind_case in H' as [(e & [-> _]%of_res_run & ->)|(u & w4 & [-> Hnet]%of_res_run & H)].
  { rewrite Hs3, Ha3, Hc3, Hs, Ha, Hc. split; [done|]. left. eauto. }
  assert (Hn : NetworkValidation.normalizeNetworkName (NetworkValidation.getWalletNetwork (wallet (wo_env w2))) = expectedNetwork).
  { unfold NetworkValidation.requireValidNetwork, NetworkValidation.validateWalletContext in Hnet. cbn [NetworkValidation.va_valid] in Hnet.
    destruct (String.eqb_spec (NetworkValidation.normalizeNetworkName (NetworkValidation.getWalletNetwork (wallet (wo_env w2)))) expectedNetwork); done. }
  assert (Hask : ∀ y w5, asking tx (signTransaction tx) w3 = (y, w5) → wo_asked w5 = wo_asked w ++ [tx] ∧ wo_sent w5 = wo_sent w ∧ wo_calls w5 = wo_calls w ∧
     signTransaction tx (wo_env w3) = (y, wo_env w5)).
  { intros y w5. unfold asking. destruct (signTransaction tx (wo_env w3)) as [y' e']. intros [= <- <-]. simpl. split_and!; congruence. }
  apply T_bind_case in H as [(e & (Ha5 & Hs5 & Hc5 & _)%Hask & ->)|(signed & w5 & (Ha5 & Hs5 & Hc5 & Hsig)%Hask & H)].
  { rewrite Hs5, Ha5, Hc5. split; [done|]. right. eauto 10. }
  apply confirmed_run in H as (Hs6 & Ha6 & Hc6 & Hok). rewrite Hs6, Ha6, Hc6, Hs5, Ha5, Hc5. split; [done|]. right.
  split; [done|]. split; [done|]. split; [by eexists|]. right. by eexists _, _, _.
Qed.

(** The same call with a key pair: nobody is asked. *)
Lemma keypair_call_sent source contractId method args wanted (w w' : World W) x :
  invokeContractWithKeypair source contractId method args wanted w = (x, w') →
  (wo_sent w' = wo_sent w ∧ ∃ e, x = inr e) ∨ wo_sent w' = wo_sent w ++ [call_tx source contractId method args] ∧ ∀ hash, x = inl hash → succeeded hash.
Proof.
  intros (w1 & H & -> & _)%counted_run.
  apply T_bind_case in H as [(e & [(Hs & _) _]%prepared_run & ->)|(t & w2 & [(Hs & _) Ht]%prepared_run & H)]; [left; eauto|].
  destruct (Ht t eq_refl) as [-> _]. apply confirmed_run in H as (Hs6 & _ & _ & Hok). right. by rewrite Hs6, Hs.
Qed.
End spending.

(** ** A network that is busy at first and knows one account *)
Definition toy_account : jval :=
  JObj [("balances", JArr [JObj [("asset_type", JStr "native"); ("balance", JStr "25.5000000")]]); ("subentry_count", JNum 0)].
Definition toy_load (pk : string) : Request nat jval := λ _ n,
  (if (n <? 1)%nat then inr (TError "busy" [("status", JNum 503)] None)
   else if String.eqb pk "GONE" then inr (TError "not found" [("status", JNum 404)] None) else inl toy_account, 10%Q, S n).
#[export] Instance toy_network : Network nat := {|
  num_text := λ _, ""; random := λ _, 0%Q; elapsedMs := 0; policy := DEFAULT_RETRY_POLICY; default_policy := DEFAULT_RETRY_POLICY;
  loadAccount_primary := toy_load; loadAccount_others := [];
  ledgers := [λ _ n, (inl [JObj [("base_fee_in_stroops", JNum 100); ("base_reserve_in_stroops", JNum 5000000)]], 10%Q, n)];
  submitTransaction := λ _ n, (inl "hash", n); getAccount := λ _ n, (inl tt, n); prepareTransaction := λ _ n, (inl tt, n);
  simulateTransaction := λ _ n, (inl (JObj [("minResourceFee", JStr "1234")]), n);
  sendTransaction := λ _ n, (inl (mkSend "PENDING" (Some "hash") "{}"), n);
  getTransaction := λ _ n, (inl (mkResponse (if (n <? 3)%nat then "NOT_FOUND" else "SUCCESS") None None "{}"), 5, S n);
  isSimulationError := λ v, has_prop v "error";
|}.

Lemma account_absent_only_if_told_witness :
  (accountExists "GONE" 0%nat).1 = inl false ∧ answered (rd_logs (loadAccount "GONE" 0%nat)) (λ y, ∃ e, y = inr e ∧ says_absent e).
Proof.
  destruct (accountExists "GONE" 0%nat) as [x w'] eqn:E.
  assert (x = inl false) as -> by (apply (f_equal fst) in E; vm_compute in E; congruence).
  split; [reflexivity|]. exact (account_absent_only_if_told "GONE" 0%nat (inl false) w' default_policy_wf E).
Defined.

Definition toy_wallet : nat → NetworkValidation.Wallet := λ _, NetworkValidation.mkWallet (Some true) (Some (Some "TESTNET")).
Definition toy_call : T (World nat) string :=
  invokeContractMethod "GUSER" "CPOOL" "deposit" [] true "testnet" toy_wallet (λ tx n, (inl tx, n)).
Lemma wallet_call_is_guarded_witness :
  ∃ w', toy_call (mkWorld 0%nat [] [] []) = (inl "hash", w') ∧ wo_sent w' = [call_tx "GUSER" "CPOOL" "deposit" []] ∧
    wo_calls w' = [("CPOOL", "deposit", true)].
Proof.
  destruct (toy_call (mkWorld 0%nat [] [] [])) as [x w'] eqn:E.
  assert (x = inl "hash") as -> by (apply (f_equal fst) in E; vm_compute in E; congruence).
  exists w'. split; [reflexivity|].
  destruct (wallet_call_is_guarded _ _ _ _ _ _ _ _ _ _ _ E) as [Hc H]. split; [|exact Hc].
  destruct H as [(_ & _ & e & He)|(_ & _ & _ & [(_ & e & He)|(signed & env & env' & [= <- _] & Hs & _)])]; try discriminate He. exact Hs.
Defined.
