(* ===== verification/WebStealth.v ===== *)
(** * Web application: stealth addresses and the compiled scanner

    [frontend/src/lib/stealth.ts] (module [Dksap]), the second implementation of the protocol
    of [SdkStealth.v], and the recipient's side the web application runs as WebAssembly:
    [scanner/src/scanner.rs] with its wrappers in [scanner/src/lib.rs] (module [Scanner]).
    The three share the classes of the curve and hash libraries; functions whose text is the
    SDK's are the SDK's definitions. *)
From Stdlib Require Import Ascii.
From stdpp Require Import base tactics list strings.
From Stdlib Require Import ZArith Lia.
From S2P Require Import Prelude JsString JsMap Bytes PubValidate RelPayload SdkPool SdkSchema SdkStealth.
Open Scope string_scope.
Open Scope list_scope.
Open Scope Z_scope.

Module Dksap.
(** Unlike the SDK's, this one does not look at the characters. *)
Definition hexToBytes (hex : string) : res (list byte) :=
  let h := strip0x hex in
  if negb (Nat.even (String.length h)) then Err (JsError "Invalid hex length") else Ok (parse_hex_pairs h).
Definition bytesToHex (b : list byte) : string := hex_of_bytes b.
Definition buildDomainSeparatedMessage : DomainSeparationOpts → string := SdkStealth.buildDomainSeparatedMessage.
Definition LEGACY_SETUP_MESSAGE : string :=
  "Sign this message to derive your Opaque Cash stealth keys on Stellar. This is not a transaction and does not move funds.".

Section dksap.
Context {EC : Secp256k1} {SP : StealthPrims}.

Definition deriveKeysFromSignature (signatureHex : string) : res (list byte * list byte) :=
  sig ← hexToBytes (strip0x signatureHex);
  let okm := hkdf sig DOMAIN 64 in
  Ok (take 32 okm, take 32 (drop 32 okm)).
Definition keysToStealthMetaAddress := SdkStealth.keysToStealthMetaAddress.
Definition stealthMetaAddressToHex (metaAddress : list byte) : string := "0x" +:+ bytesToHex metaAddress.
Definition isValidCompressedSecp256k1PublicKey := SdkStealth.isValidCompressedSecp256k1PublicKey.
Definition assertValidStealthMetaAddress := SdkStealth.assertValidStealthMetaAddress.

Definition parseStealthMetaAddress (metaHex : string) : res (list byte * list byte) :=
  bytes ← hexToBytes (strip0x metaHex);
  if (length bytes <? 66)%nat then Err (JsError "Invalid stealth meta-address: expected 66 bytes")
  else Ok (take 33 bytes, take 33 (drop 33 bytes)).

Definition sharedSecretSender (ephemeralPriv viewPubKey : list byte) : res (list byte) :=
  P ← fromHex viewPubKey;
  let scalar := bytesToBigInt ephemeralPriv mod curve_n in
  if scalar =? 0 then Err (JsError "Invalid ephemeral key") else toRawBytes true (multiply scalar P).
Definition hashSharedSecret := SdkStealth.hashSharedSecret.
Definition stealthPointAndAddress := SdkStealth.stealthPointAndAddress.
Definition deriveStealthStellarKeypair := SdkStealth.deriveStealthStellarKeypair.
Definition deriveStealthStellarAddress := SdkStealth.deriveStealthStellarAddress.
Definition deriveStealthStellarAddressFromStealthPrivKey := SdkStealth.deriveStealthStellarAddressFromStealthPrivKey.
Definition deriveStealthStellarKeypairFromStealthPrivKey := SdkStealth.deriveStealthStellarKeypairFromStealthPrivKey.

Definition computeStealthAddressAndViewTag (ephemeralPriv : list byte) (recipientMetaAddressHex : string) : res StealthTransfer :=
  keys ← parseStealthMetaAddress recipientMetaAddressHex;
  let '(viewPubKey, spendPubKey) := keys in
  ephemeralPubKey ← getPublicKey ephemeralPriv true;
  shared ← sharedSecretSender ephemeralPriv viewPubKey;
  let '(sH, viewTag) := hashSharedSecret shared in
  point ← stealthPointAndAddress spendPubKey sH;
  Ok (mkTransfer ephemeralPriv ephemeralPubKey point.1 (deriveStealthStellarAddress point.2) viewTag [to_byte viewTag]).

Definition buildGhostAnnouncementPayload (recipientMetaAddressHex ephemeralPrivKeyHex : string) : res GhostAnnouncement :=
  keys ← parseStealthMetaAddress recipientMetaAddressHex;
  let '(viewPubKey, spendPubKey) := keys in
  ephemeralPriv ← hexToBytes (strip0x ephemeralPrivKeyHex);
  if negb (length ephemeralPriv =? 32)%nat then Err (JsError "Ephemeral private key must be 32 bytes.")
  else
    ephemeralPubKey ← getPublicKey ephemeralPriv true;
    shared ← sharedSecretSender ephemeralPriv viewPubKey;
    let '(sH, viewTag) := hashSharedSecret shared in
    point ← stealthPointAndAddress spendPubKey sH;
    Ok (mkGhost point.1 ephemeralPubKey [to_byte viewTag] viewTag).

(** An absent or empty entropy is the old derivation, the same for every announcement. *)
Definition deriveAnnouncerEphemeralKey (metaAddressHex : string) (perAnnouncementEntropy : option string) : list byte :=
  let entropyInput := strip0x metaAddressHex +:+ default "" perAnnouncementEntropy +:+ ANNOUNCER_SALT in
  let scalar := bytesToBigInt (hkdf (utf8 entropyInput) "opaque-announcer-ephemeral" 32) mod curve_n in
  bigIntToBytes32 (if scalar =? 0 then 1 else scalar).
End dksap.
End Dksap.

(** ** The compiled scanner *)
Module Scanner.
Inductive StealthAddressError : Type := InvalidScalar | InvalidPoint.
Definition error_text (e : StealthAddressError) : string :=
  match e with
  | InvalidScalar => "hashed shared secret out of curve order"
  | InvalidPoint => "invalid stealth public key point"
  end.
Inductive ViewTagCheck : Type := NoMatch | PossibleMatch.

Section scanner.
Context {EC : Secp256k1} {SP : StealthPrims}.

(** The scalar of a signing key is neither zero nor too large. *)
Definition bytes_to_signing_key (bytes : list byte) : res Z :=
  if negb (length bytes =? 32)%nat then Err (JsError "SigningKey must be 32 bytes")
  else if (0 <? be_val 0 bytes) && (be_val 0 bytes <? curve_n) then Ok (be_val 0 bytes)
  else Err (JsError "Invalid signing key: signature error").

Definition parse_compressed_pubkey (bytes : list byte) : res Point :=
  if negb (length bytes =? 33)%nat then Err (JsError "PublicKey must be 33 bytes (compressed)")
  else if negb (match bytes with b :: _ => (byte_val b =? 2) || (byte_val b =? 3) | [] => false end)
  then Err (JsError "compressed PublicKey must start with 0x02 or 0x03")
  else match fromHex bytes with
       | Ok P => Ok P
       | Err _ => Err (JsError "Invalid public key: not a canonical secp256k1 point")
       end.

Definition hex_to_address (hex : string) : res (list byte) :=
  let h := strip0x hex in
  if (String.length h =? 40)%nat && all_chars is_hex h
  then ok_or (bytes_of_hex h) (JsError "Invalid address hex")
  else Err (JsError "Invalid address hex").
Definition address_to_hex (address : list byte) : string := "0x" +:+ hex_of_bytes address.

(** A shared point is never the identity: copying its encoding would panic. *)
Definition shared_secret_bytes (view_scalar : Z) (ephemeral : Point) : res (list byte) := toRawBytes true (multiply view_scalar ephemeral).
Definition hash_shared_secret (shared_secret : list byte) : list byte := keccak_256 shared_secret.
Definition view_tag_from_hashed_secret (secret_hash : list byte) : Z := byte_val (hd Byte.x00 secret_hash).
(** [Scalar::from_repr] *)
Definition scalar_from_repr (repr : list byte) : option Z := if be_val 0 repr <? curve_n then Some (be_val 0 repr) else None.

Definition pubkey_to_address (uncompressed : list byte) : list byte := take 20 (drop 12 (keccak_256 (drop 1 uncompressed))).

Definition derive_stealth_address (view_scalar : Z) (spend ephemeral : Point) : res ((list byte * Z) + StealthAddressError) :=
  s ← shared_secret_bytes view_scalar ephemeral;
  let s_h := hash_shared_secret s in
  let view_tag := view_tag_from_hashed_secret s_h in
  match scalar_from_repr s_h with
  | None => Ok (inr InvalidScalar)
  | Some s_h_scalar =>
      match toRawBytes false (point_add spend (multiply s_h_scalar BASE)) with
      | Err _ => Ok (inr InvalidPoint)
      | Ok uncompressed => Ok (inl (pubkey_to_address uncompressed, view_tag))
      end
  end.

Definition derive_stealth_signing_key (view_scalar spend_scalar : Z) (ephemeral : Point) : res (list byte + StealthAddressError) :=
  s ← shared_secret_bytes view_scalar ephemeral;
  let s_h := hash_shared_secret s in
  match scalar_from_repr s_h with
  | None => Ok (inr InvalidScalar)
  | Some s_h_scalar => Ok (inl (be_bytes 32 ((spend_scalar + s_h_scalar) mod curve_n)))
  end.

Definition check_announcement_view_tag (view_tag view_scalar : Z) (ephemeral : Point) : res ViewTagCheck :=
  s ← shared_secret_bytes view_scalar ephemeral;
  let local_view_tag := view_tag_from_hashed_secret (hash_shared_secret s) in
  Ok (if negb (view_tag =? local_view_tag) then NoMatch else PossibleMatch).

Definition check_announcement (announced : list byte) (view_tag view_scalar : Z) (spend ephemeral : Point) : res (bool + StealthAddressError) :=
  c ← check_announcement_view_tag view_tag view_scalar ephemeral;
  match c with
  | NoMatch => Ok (inl false)
  | PossibleMatch =>
      d ← derive_stealth_address view_scalar spend ephemeral;
      match d with
      | inl (derived, _) => Ok (inl (bool_decide (derived = announced)))
      | inr e => Ok (inr e)
      end
  end.

(** [map_err(|e| format!(..))] *)
Definition told {A} (what : string) (x : A + StealthAddressError) : res A :=
  match x with inl a => Ok a | inr e => Err (JsError (what +:+ ": " +:+ error_text e)) end.

Definition derive_stealth_address_wasm (view spend ephemeral : list byte) : res (string * Z) :=
  v ← bytes_to_signing_key view;
  S ← parse_compressed_pubkey spend;
  E ← parse_compressed_pubkey ephemeral;
  d ← derive_stealth_address v S E;
  a ← told "Stealth address error" d;
  Ok (address_to_hex a.1, a.2).
(** The tag is a [u8]: the binding keeps the low byte of the number it is given. *)
Definition check_announcement_wasm (address : string) (view_tag : Z) (view spend ephemeral : list byte) : res bool :=
  a ← hex_to_address address;
  v ← bytes_to_signing_key view;
  S ← parse_compressed_pubkey spend;
  E ← parse_compressed_pubkey ephemeral;
  c ← check_announcement a (view_tag mod 256) v S E;
  told "Check announcement error" c.
Definition check_announcement_view_tag_wasm (view_tag : Z) (view ephemeral : list byte) : res string :=
  v ← bytes_to_signing_key view;
  E ← parse_compressed_pubkey ephemeral;
  c ← check_announcement_view_tag (view_tag mod 256) v E;
  Ok (match c with NoMatch => "NoMatch" | PossibleMatch => "PossibleMatch" end).
Definition check_announcement_view_only_wasm (address : string) (view_tag : Z) (view spend ephemeral : list byte) : res bool :=
  a ← hex_to_address address;
  v ← bytes_to_signing_key view;
  S ← parse_compressed_pubkey spend;
  E ← parse_compressed_pubkey ephemeral;
  c ← check_announcement a (view_tag mod 256) v S E;
  told "View-only check error" c.
Definition reconstruct_signing_key_wasm (spend_priv view_priv ephemeral : list byte) : res (list byte) :=
  s ← bytes_to_signing_key spend_priv;
  v ← bytes_to_signing_key view_priv;
  E ← parse_compressed_pubkey ephemeral;
  k ← derive_stealth_signing_key v s E;
  told "Reconstruct signing key error" k.
End scanner.
End Scanner.

(** ** The two implementations agree *)
Lemma parse_hex_pairs_hex h : all_chars is_hex h = true → Nat.even (String.length h) = true → bytes_of_hex h = Some (parse_hex_pairs h).
Proof.
  induction h as [h IH] using (induction_ltof1 _ String.length); unfold ltof in IH.
  destruct h as [|c1 [|c2 h]]; simpl; [done|done|]. intros [H1 [H2 Hh]%andb_prop]%andb_prop Hev.
  unfold is_hex in H1, H2. unfold parse_byte. destruct (digit_val c1), (digit_val c2); try done.
  rewrite IH by (simpl; done || lia). done.
Qed.
Lemma strip0x_hex h : all_chars is_hex h = true → strip0x h = h.
Proof.
  intros Hh. unfold strip0x. destruct (startsWith "0x" h) eqn:E; [|done]. exfalso.
  apply startsWith_app in E as Hr. by rewrite Hr, all_chars_app in Hh.
Qed.
Lemma hexToBytes_agree h : all_chars is_hex (strip0x h) = true → Dksap.hexToBytes (strip0x h) = CryptoBytes.hexToBytes (strip0x h).
Proof.
  intros Hh. unfold Dksap.hexToBytes, CryptoBytes.hexToBytes. rewrite (strip0x_hex (strip0x h)), Hh by done.
  destruct (Nat.even (String.length (strip0x h))) eqn:Hev; [|done]. simpl. by rewrite parse_hex_pairs_hex.
Qed.
Lemma hexToBytes_bytes l : Dksap.hexToBytes (hex_of_bytes l) = Ok l.
Proof.
  unfold Dksap.hexToBytes. rewrite strip0x_hex by apply hex_of_bytes_hex.
  rewrite hex_of_bytes_length, Nat.even_mul, parse_hex_pairs_bytes. done.
Qed.

Lemma be_val_nonneg l acc : 0 <= acc → 0 <= be_val acc l.
Proof. revert acc. induction l as [|b l IH]; intros acc Ha; simpl; [done|]. apply IH. pose proof (byte_val_range b). lia. Qed.

Section agreement.
Context {EC : Secp256k1} {SP : StealthPrims}.

Lemma parse_agree meta : all_chars is_hex (strip0x meta) = true → Dksap.parseStealthMetaAddress meta = parseStealthMetaAddress meta.
Proof. intros Hm. unfold Dksap.parseStealthMetaAddress, parseStealthMetaAddress. by rewrite hexToBytes_agree. Qed.
Lemma shared_agree e V x : Dksap.sharedSecretSender e V = Ok x ↔ sharedSecretFromScalarAndPoint e V = Ok x.
Proof.
  unfold Dksap.sharedSecretSender, sharedSecretFromScalarAndPoint. destruct (fromHex V); [|done]. cbn [mbind res_bind].
  by destruct (_ =? 0).
Qed.
Lemma bind_agree {A B} (m m' : res A) (f : A → res B) b : (∀ a, m = Ok a ↔ m' = Ok a) → (m ≫= f) = Ok b ↔ (m' ≫= f) = Ok b.
Proof. intros H. rewrite !bind_ok. by setoid_rewrite H. Qed.
Lemma compute_agree e meta st : all_chars is_hex (strip0x meta) = true →
  Dksap.computeStealthAddressAndViewTag e meta = Ok st ↔ computeStealthAddressAndViewTag e meta = Ok st.
Proof.
  intros Hm. unfold Dksap.computeStealthAddressAndViewTag, computeStealthAddressAndViewTag. rewrite parse_agree by done.
  destruct (parseStealthMetaAddress meta) as [[V S]|]; [|done]. cbn [mbind res_bind].
  destruct (getPublicKey e true); [|done]. cbn [mbind res_bind]. apply bind_agree. intros x. apply shared_agree.
Qed.

(** C36 (equivalence): On meta-addresses and keys written in hexadecimal, the web application
    and the SDK derive the same one-time address, Stellar account, ephemeral key and view tag
    for a payment, and the same announcement of a ghost address: each succeeds exactly when
    the other does. *)
Theorem web_and_sdk_derive_the_same meta (Hm : all_chars is_hex (strip0x meta) = true) :
  (∀ e st, Dksap.computeStealthAddressAndViewTag e meta = Ok st ↔ computeStealthAddressAndViewTag e meta = Ok st) ∧
  (∀ ek g, all_chars is_hex (strip0x ek) = true →
     Dksap.buildGhostAnnouncementPayload meta ek = Ok g ↔ buildGhostAnnouncementPayload meta ek = Ok g).
Proof.
  split; [intros e st; by apply compute_agree|].
  intros ek g Hek. unfold Dksap.buildGhostAnnouncementPayload, buildGhostAnnouncementPayload. rewrite parse_agree, hexToBytes_agree by done.
  destruct (parseStealthMetaAddress meta) as [[V S]|]; [|done]. cbn [mbind res_bind].
  destruct (CryptoBytes.hexToBytes _) as [k|]; [|done]. cbn [mbind res_bind].
  destruct (negb _); [done|]. destruct (getPublicKey k true); [|done]. cbn [mbind res_bind]. apply bind_agree. intros x. apply shared_agree.
Qed.

(** ** The scanner finds what the web application sends *)
Definition sec1_prefix : Prop := ∀ P b, toRawBytes true P = Ok b →
  match b with c :: _ => (byte_val c =? 2) || (byte_val c =? 3) | [] => false end = true.
Context (Hsec1 : sec1_prefix).

Lemma scanner_key k : valid_key k → Scanner.bytes_to_signing_key k = Ok (be_val 0 k).
Proof.
  intros [Hl Hr]. unfold Scanner.bytes_to_signing_key. rewrite Hl. simpl.
  destruct (Z.ltb_spec 0 (be_val 0 k)), (Z.ltb_spec (be_val 0 k) curve_n); lia || done.
Qed.
Lemma scanner_pubkey k K : getPublicKey k true = Ok K → Scanner.parse_compressed_pubkey K = Ok (multiply (be_val 0 k) BASE).
Proof.
  intros (_ & Hb & Hf)%getPublicKey_ok. unfold Scanner.parse_compressed_pubkey.
  rewrite (toRawBytes_compressed _ _ Hb), (Hsec1 _ _ Hb), Hf. done.
Qed.
Lemma stealth_id_address unc : Scanner.hex_to_address (stealth_id unc) = Ok (Scanner.pubkey_to_address unc).
Proof.
  unfold Scanner.hex_to_address, stealth_id, CryptoBytes.bytesToHex. rewrite strip0x_0x.
  assert (Hl : length (drop 12 (keccak_256 (drop 1 unc))) = 20%nat) by (by rewrite length_drop, keccak_length).
  rewrite hex_of_bytes_length, Hl, hex_of_bytes_hex, bytes_of_hex_of_bytes. simpl.
  unfold Scanner.pubkey_to_address. by rewrite take_ge by lia.
Qed.

Lemma transfer_ephemeral v s V S meta e st : keysToStealthMetaAddress v s = Ok (V, S, meta) →
  computeStealthAddressAndViewTag e (stealthMetaAddressToHex meta) = Ok st → getPublicKey e true = Ok (st_ephemeralPubKey st).
Proof.
  intros (_ & _ & Hp)%meta_parses H. unfold computeStealthAddressAndViewTag in H. rewrite Hp in H. cbn [mbind res_bind] in H.
  apply bind_ok in H as (E & HE & (sh & _ & H)%bind_ok). cbn [hashSharedSecret] in H. apply bind_ok in H as (pt & _ & H).
  apply Ok_inj in H. by subst st.
Qed.
Lemma meta_hex meta : all_chars is_hex (strip0x (stealthMetaAddressToHex meta)) = true.
Proof. unfold stealthMetaAddressToHex. rewrite strip0x_0x. apply hex_of_bytes_hex. Qed.

(** What the recipient's scanner says of an announcement of the sender. *)
Lemma scanner_of_transfer v s V S meta e st :
  keysToStealthMetaAddress v s = Ok (V, S, meta) →
  computeStealthAddressAndViewTag e (stealthMetaAddressToHex meta) = Ok st →
  ∃ sH unc,
    recipientSharedSecretHash v (st_ephemeralPubKey st) = Ok (sH, st_viewTag st) ∧
    st_stealthAddress st = stealth_id unc ∧ st_stealthStellarAddress st = deriveStealthStellarAddress unc ∧
    Scanner.check_announcement_view_tag_wasm (st_viewTag st) v (st_ephemeralPubKey st) = Ok "PossibleMatch" ∧
    Scanner.check_announcement_wasm (st_stealthAddress st) (st_viewTag st) v S (st_ephemeralPubKey st) =
      (if be_val 0 sH <? curve_n then Ok true
       else Err (JsError "Check announcement error: hashed shared secret out of curve order")) ∧
    (be_val 0 sH < curve_n → ∃ k, Scanner.reconstruct_signing_key_wasm s v (st_ephemeralPubKey st) = Ok k ∧ getPublicKey k false = Ok unc).
Proof using Hsec1.
  intros Hkeys Hsent. destruct (transfer_reconstructed v s V S meta e st Hkeys Hsent) as (sH & unc & k & Hh & Hpt & Hid & Hst & Hk & _ & Hpub).
  pose proof (transfer_ephemeral _ _ _ _ _ _ _ Hkeys Hsent) as HE.
  apply meta_parses in Hkeys as (HV & HS & Hp). pose proof HV as (Hvv & _)%getPublicKey_ok. pose proof HS as (Hsv & _)%getPublicKey_ok.
  pose proof HE as (_ & _ & HfE)%getPublicKey_ok.
  pose proof Hh as Hh'. unfold recipientSharedSecretHash in Hh'. apply bind_ok in Hh' as (shared & Hsh & Hh').
  apply Ok_inj in Hh'. unfold hashSharedSecret in Hh'. injection Hh' as Hsh2 Htag.
  rewrite (shared_by_point _ _ _ Hvv HfE) in Hsh. pose proof (byte_val_range (hd Byte.x00 (keccak_256 shared))) as Hrange.
  assert (Hview : Scanner.check_announcement_view_tag (st_viewTag st mod 256) (be_val 0 v) (multiply (be_val 0 e) BASE) = Ok Scanner.PossibleMatch).
  { unfold Scanner.check_announcement_view_tag, Scanner.shared_secret_bytes. rewrite Hsh. cbn [mbind res_bind].
    unfold Scanner.view_tag_from_hashed_secret, Scanner.hash_shared_secret. by rewrite Htag, Z.mod_small, Z.eqb_refl by lia. }
  exists sH, unc. split_and!; [done|done|done| | |].
  - unfold Scanner.check_announcement_view_tag_wasm. rewrite (scanner_key _ Hvv), (scanner_pubkey _ _ HE). cbn [mbind res_bind]. by rewrite Hview.
  - unfold Scanner.check_announcement_wasm. rewrite Hid, stealth_id_address, (scanner_key _ Hvv), (scanner_pubkey _ _ HS), (scanner_pubkey _ _ HE).
    cbn [mbind res_bind]. unfold Scanner.check_announcement. rewrite Hview. cbn [mbind res_bind].
    unfold Scanner.derive_stealth_address, Scanner.shared_secret_bytes. rewrite Hsh. cbn [mbind res_bind].
    unfold Scanner.hash_shared_secret, Scanner.scalar_from_repr. rewrite Hsh2.
    destruct (Z.ltb_spec (be_val 0 sH) curve_n) as [Hlt|]; [|done].
    unfold stealthPointAndAddress in Hpt. unfold bytesToBigInt in Hpt. 
    assert (0 <= be_val 0 sH) by (rewrite <-Hsh2; by apply be_val_nonneg).
    rewrite Z.mod_small in Hpt by lia. destruct (be_val 0 sH =? 0); [done|].
    pose proof HS as (_ & _ & HfS)%getPublicKey_ok. rewrite HfS in Hpt. cbn [mbind res_bind] in Hpt.
    apply bind_ok in Hpt as (u & -> & Hu). apply Ok_inj in Hu as [= _ ->]. cbn [mbind res_bind Scanner.told].
    by rewrite bool_decide_eq_true_2.
  - intros Hlt. exists k. split; [|done]. unfold Scanner.reconstruct_signing_key_wasm.
    rewrite (scanner_key _ Hvv), (scanner_key _ Hsv), (scanner_pubkey _ _ HE). cbn [mbind res_bind].
    unfold Scanner.derive_stealth_signing_key, Scanner.shared_secret_bytes. rewrite Hsh. cbn [mbind res_bind].
    unfold Scanner.hash_shared_secret, Scanner.scalar_from_repr. rewrite Hsh2, (proj2 (Z.ltb_lt _ _) Hlt). cbn [mbind res_bind Scanner.told].
    unfold reconstructStealthPrivateKey in Hk. rewrite Hh in Hk. cbn [mbind res_bind fst] in Hk.
    rewrite (valid_mod s Hsv) in Hk. assert (0 <= be_val 0 sH) by (rewrite <-Hsh2; by apply be_val_nonneg).
    unfold bytesToBigInt in Hk. rewrite (Z.mod_small (be_val 0 sH)) in Hk by lia.
    destruct (_ =? 0); [done|]. exact Hk.
Qed.

(** C12 (refinement): The web application's sender and the compiled scanner implement the same
    protocol.  For the announcement of a payment the tag filter answers "possible match";
    the full check accepts it and the reconstructed key is the key of the Stellar account the
    sender paid, unless the hashed secret is not below the curve order, in which case the
    full check fails and the payment is not found (the sender reduces, the scanner refuses). *)
Theorem scanner_finds_web_payment v s V S meta e st
    (Hkeys : Dksap.keysToStealthMetaAddress v s = Ok (V, S, meta))
    (Hsent : Dksap.computeStealthAddressAndViewTag e (Dksap.stealthMetaAddressToHex meta) = Ok st) :
  ∃ sH, recipientSharedSecretHash v (st_ephemeralPubKey st) = Ok (sH, st_viewTag st) ∧
    Scanner.check_announcement_view_tag_wasm (st_viewTag st) v (st_ephemeralPubKey st) = Ok "PossibleMatch" ∧
    if be_val 0 sH <? curve_n then
      Scanner.check_announcement_wasm (st_stealthAddress st) (st_viewTag st) v S (st_ephemeralPubKey st) = Ok true ∧
      ∃ k kp, Scanner.reconstruct_signing_key_wasm s v (st_ephemeralPubKey st) = Ok k ∧
        Dksap.deriveStealthStellarKeypairFromStealthPrivKey k = Ok kp ∧ publicKey kp = st_stealthStellarAddress st
    else
      Scanner.check_announcement_wasm (st_stealthAddress st) (st_viewTag st) v S (st_ephemeralPubKey st) =
        Err (JsError "Check announcement error: hashed shared secret out of curve order").
Proof using Hsec1.
  pose proof (meta_hex meta) as Hm.
  assert (Hsdk : computeStealthAddressAndViewTag e (stealthMetaAddressToHex meta) = Ok st) by (by apply compute_agree).
  destruct (scanner_of_transfer v s V S meta e st Hkeys Hsdk) as (sH & unc & Hh & _ & Hst & Hv & Hc & Hk).
  exists sH. split; [done|]. split; [done|]. destruct (Z.ltb_spec (be_val 0 sH) curve_n) as [Hlt|]; [|done].
  split; [done|]. destruct (Hk Hlt) as (k & Hr & Hpub). exists k, (deriveStealthStellarKeypair unc). split; [done|].
  unfold Dksap.deriveStealthStellarKeypairFromStealthPrivKey, deriveStealthStellarKeypairFromStealthPrivKey. by rewrite Hpub, Hst.
Qed.
End agreement.

(** ** On the curve of seven points *)
Definition small_digest (l : list byte) : list byte := be_bytes 32 (1 + be_val 0 l mod 3).
Definition small_prims : StealthPrims.
Proof.
  refine {| keccak_256 := small_digest; sha256 := small_digest; hkdf sig info n := be_bytes n (be_val 0 sig);
            Keypair := list byte; fromRawEd25519Seed seed := seed; publicKey k := "G" +:+ hex_of_bytes k |}.
  intros l. apply be_bytes_length.
Defined.
Lemma toy_sec1 : sec1_prefix (EC := toy_curve).
Proof. intros P b. cbn. unfold toy_encode. destruct (P =? 0); [done|]. by intros <-%Ok_inj. Qed.

#[local] Existing Instance toy_curve.
#[local] Existing Instance small_prims.
Definition sent_on_toy : res StealthTransfer := Dksap.computeStealthAddressAndViewTag toy_ephemeral (Dksap.stealthMetaAddressToHex toy_meta).

Lemma web_and_sdk_derive_the_same_witness :
  computeStealthAddressAndViewTag toy_ephemeral (Dksap.stealthMetaAddressToHex toy_meta) = sent_on_toy ∧ is_ok sent_on_toy = true.
Proof.
  assert (Ho : is_ok sent_on_toy = true) by (vm_compute; reflexivity). split; [|exact Ho].
  destruct sent_on_toy as [st|] eqn:E; [|discriminate Ho].
  assert (Hm : all_chars is_hex (strip0x (Dksap.stealthMetaAddressToHex toy_meta)) = true) by (vm_compute; reflexivity).
  exact (proj1 (proj1 (web_and_sdk_derive_the_same _ Hm) toy_ephemeral st) E).
Defined.

Lemma scanner_finds_web_payment_witness :
  ∃ st k, sent_on_toy = Ok st ∧ Scanner.reconstruct_signing_key_wasm toy_spend toy_view (st_ephemeralPubKey st) = Ok k.
Proof.
  assert (Ho : is_ok sent_on_toy = true) by (vm_compute; reflexivity).
  assert (Hk : Dksap.keysToStealthMetaAddress toy_view toy_spend = Ok (Byte.x02 :: be_bytes 32 2, Byte.x02 :: be_bytes 32 3, toy_meta)) by (vm_compute; reflexivity).
  destruct sent_on_toy as [st|] eqn:E; [|discriminate Ho]. exists st.
  destruct (scanner_finds_web_payment toy_sec1 _ _ _ _ _ _ _ Hk E) as (sH & Hh & _ & H).
  assert (Hsmall : be_val 0 sH < curve_n).
  { unfold recipientSharedSecretHash in Hh. apply bind_ok in Hh as (sh & _ & Hh). apply Ok_inj, (f_equal fst) in Hh. cbn [fst hashSharedSecret] in Hh.
    rewrite <-Hh. change (be_val 0 (small_digest sh) < 7). unfold small_digest. rewrite be_val_be_bytes, Z.mod_small; pose proof (Z.mod_pos_bound (be_val 0 sh) 3); lia. }
  rewrite (proj2 (Z.ltb_lt _ _) Hsmall) in H. destruct H as (_ & k & kp & Hr & _). exists k. split; [reflexivity|exact Hr].
Defined.
