(* ===== verification/WebSpend.v ===== *)
(** * Web application: sweeping one-time accounts and announcing ghost addresses

    The spending half of [frontend/src/lib/stealthLifecycle.ts], over the payments of
    [WebChain.v] and the two stealth implementations of [WebStealth.v].  The status callbacks
    of the interface are left out. *)
From Stdlib Require Import Ascii.
From stdpp Require Import base tactics list strings.
From Stdlib Require Import ZArith Lia.
From S2P Require Import Prelude JsString JsMap Json Bytes PubValidate RelPayload SdkCodec SdkPool SdkSchema SdkStealth WebErrors WebSoroban WebChain WebStealth.
Import Retry.
Open Scope string_scope.
Open Scope list_scope.
Open Scope Z_scope.

(** The fields of a ghost entry that spending reads. *)
Record GhostEntry : Type := mkGhostEntry {
  ge_cluster : string;
  ge_stealthAddress : string;
  ge_ephemeralPrivKeyHex : option string;
}.
Record MasterKeys : Type := mkKeys { mk_viewPrivKey : list byte; mk_spendPrivKey : list byte; mk_spendPubKey : list byte }.

Section spend.
Context {EC : Secp256k1} {SP : StealthPrims} {W : Type} `{!Network W}.

Definition keypair_address (stealthPrivKey : list byte) : res string :=
  kp ← Dksap.deriveStealthStellarKeypairFromStealthPrivKey stealthPrivKey; Ok (publicKey kp).

(** ** Sweeping *)
Definition executeStealthWithdrawal (stealthPrivKeyHex destination : string) (memo : option string) : T (World W) string :=
  priv ← of_res (Dksap.hexToBytes (strip0x stealthPrivKeyHex));
  from ← of_res (keypair_address priv);
  quote ← attempt (on_env (getNativeWithdrawalQuote from (trim destination)))
            (λ _, raise (TError "Stealth account has zero balance or does not exist." [] None));
  if nq_spendableStroops quote <=? 0 then
    raise (TError ("Insufficient balance. Retained " +:+ Amount.formatStroopsToXlm (nq_minimumBalanceStroops quote) +:+ " XLM reserve and "
                     +:+ Amount.formatStroopsToXlm (nq_feeStroops quote) +:+ " XLM fee.") [] None)
  else
    sendNativePayment from (trim destination) (nq_spendableStroops quote) (Some (nq_destinationExists quote))
      (Some (nq_feeStroops quote)) (match trim <$> memo with Some "" => None | m => m end).

(** ** Keys of ghosts and announcers *)
Definition deriveStealthPrivateKeyFromEphemeral (ephemeralPrivKeyHex : string) (keys : MasterKeys) : res string :=
  e ← Dksap.hexToBytes ephemeralPrivKeyHex;
  E ← getPublicKey e true;
  k ← Scanner.reconstruct_signing_key_wasm (mk_spendPrivKey keys) (mk_viewPrivKey keys) E;
  Ok ("0x" +:+ Dksap.bytesToHex k).
Definition deriveStealthPrivateKeyFromGhostEntry (entry : GhostEntry) (keys : MasterKeys) : res string :=
  match ge_ephemeralPrivKeyHex entry with
  | None | Some "" => Err (JsError "Ghost entry has no ephemeral private key.")
  | Some ek => deriveStealthPrivateKeyFromEphemeral ek keys
  end.
(** the address and the private key *)
Definition getAnnouncerAccount (keys : MasterKeys) (metaAddressHex : string) (entropy : option string) : res (string * string) :=
  E ← getPublicKey (Dksap.deriveAnnouncerEphemeralKey metaAddressHex entropy) true;
  k ← Scanner.reconstruct_signing_key_wasm (mk_spendPrivKey keys) (mk_viewPrivKey keys) E;
  address ← keypair_address k;
  Ok (address, "0x" +:+ Dksap.bytesToHex k).
Definition ANNOUNCER_FUNDING_STROOPS : Z := NEW_ACCOUNT_MIN_RESERVE_STROOPS + 5000000.
Definition getGhostStellarAccount (keys : MasterKeys) (ephemeralPrivKeyHex : string) : res string :=
  k ← deriveStealthPrivateKeyFromEphemeral ephemeralPrivKeyHex keys;
  b ← Dksap.hexToBytes (drop_string 2 k);
  keypair_address b.

(** ** Announcing a ghost *)
Record GhostAnnouncementResult : Type := mkAnnounced { gr_announceSignature : string; gr_reserveReturnSignature : option string }.
Definition announce_args (announcer : string) (stealth ephemeral metadata : list byte) : list jval :=
  [JStr announcer; JNum 1; JStr (hex_of_bytes stealth); JStr (hex_of_bytes ephemeral); JStr (hex_of_bytes metadata)].
Definition executeGhostOnchainAnnouncement (contract : string) (keys : MasterKeys)
    (metaAddressHex ghostStealthAddress ephemeralPrivKeyHex : string) : T (World W) GhostAnnouncementResult :=
  payload ← of_res (Dksap.buildGhostAnnouncementPayload metaAddressHex ephemeralPrivKeyHex);
  ghost ← of_res (getGhostStellarAccount keys ephemeralPrivKeyHex);
  acc ← of_res (getAnnouncerAccount keys metaAddressHex (Some ephemeralPrivKeyHex));
  announcer ← of_res (b ← Dksap.hexToBytes (drop_string 2 acc.2); keypair_address b);
  funded ← on_env (accountExists announcer);
  (if (funded : bool) then mret ""
   else sendNativePayment ghost announcer ANNOUNCER_FUNDING_STROOPS (Some false) None None : T (World W) string);;
  stealth ← of_res (Dksap.hexToBytes (strip0x ghostStealthAddress));
  hash ← invokeContractWithKeypair announcer contract "announce" (announce_args announcer stealth (ga_ephemeralPubKey payload) (ga_metadata payload)) true;
  attempt (back ← sendAccountMerge announcer ghost; mret (mkAnnounced hash (Some back)))
    (λ _, mret (mkAnnounced hash None)).

(** ** Withdrawing from a ghost *)
Inductive NativeOrToken : Type := Native | Token (tokenAddress : string).
Definition is_ghost (network ghostAddress : string) (e : GhostEntry) : bool :=
  String.eqb (ge_cluster e) network && String.eqb (toLowerCase (ge_stealthAddress e)) (toLowerCase ghostAddress).
Definition withdrawFromGhostAddress (entries : list GhostEntry) (ghostAddress network destination : string) (asset : NativeOrToken)
    (keys : MasterKeys) (memo : option string) : T (World W) string :=
  match asset with
  | Token _ => raise (TError "Only native XLM ghost withdrawals are supported." [] None)
  | Native =>
      match List.find (is_ghost network ghostAddress) entries with
      | Some (mkGhostEntry _ _ (Some (String _ _)) as entry) =>
          k ← of_res (deriveStealthPrivateKeyFromGhostEntry entry keys);
          executeStealthWithdrawal k destination memo
      | _ => raise (TError "Ghost address not found or missing ephemeral key." [] None)
      end
  end.
End spend.

(** ** What a sweep sends *)
Section sweeps.
Context {EC : Secp256k1} {SP : StealthPrims} {W : Type} `{!Network W}.

(** One payment from the account of the key: all it held but its reserve and the fee. *)
Definition sweeps (from destination : string) (w w' : World W) : Prop :=
  ∃ q tx, quote_ok q ∧ wo_sent w' = wo_sent w ++ [tx] ∧ tx_source tx = from ∧ tx_fee tx = nq_feeStroops q ∧ 0 < nq_spendableStroops q ∧
    tx_op tx = transfer_op (nq_destinationExists q) (trim destination) (nq_spendableStroops q) ∧
    nq_spendableStroops q + tx_fee tx + nq_minimumBalanceStroops q = nq_balanceStroops q ∧
    (nq_destinationExists q = false → NEW_ACCOUNT_MIN_RESERVE_STROOPS <= nq_spendableStroops q).
Definition failed_clean (w w' : World W) (x : string + thrown) : Prop := wo_sent w' = wo_sent w ∧ ∃ e, x = inr e.

Lemma sweep_run privHex destination memo (w w' : World W) x :
  executeStealthWithdrawal privHex destination memo w = (x, w') →
  failed_clean w w' x ∨ ∃ priv from, Dksap.hexToBytes (strip0x privHex) = Ok priv ∧ keypair_address priv = Ok from ∧ sweeps from destination w w'.
Proof.
  unfold executeStealthWithdrawal. intros Hrun.
  apply T_bind_case in Hrun as [(e & [-> _]%of_res_run & ->)|(priv & w1 & [-> Hp]%of_res_run & Hrun)]; [left; split; eauto|].
  destruct (Dksap.hexToBytes (strip0x privHex)) as [priv'|] eqn:Epriv; [injection Hp as ->|done].
  apply T_bind_case in Hrun as [(e & [-> _]%of_res_run & ->)|(from & w1 & [-> Hf]%of_res_run & Hrun)]; [left; split; eauto|].
  destruct (keypair_address priv') as [from'|] eqn:Efrom; [injection Hf as ->|done].
  assert (Hq : ∀ y w2, attempt (on_env (getNativeWithdrawalQuote from' (trim destination)))
      (λ _, raise (TError "Stealth account has zero balance or does not exist." [] None)) w = (y, w2) →
      wo_sent w2 = wo_sent w ∧ match y with inl q => quote_ok q | inr _ => True end).
  { intros y w2 H. unfold attempt, on_env in H. destruct (getNativeWithdrawalQuote _ _ (wo_env w)) as [[q|e] env] eqn:Eq; injection H as <- <-; [|done].
    split; [done|]. by eapply quote_is_ok. }
  apply T_bind_case in Hrun as [(e & H & ->)|(q & w2 & H & Hrun)]; apply Hq in H as [Hs Hok]; [left; split; eauto|].
  destruct (Z.leb_spec (nq_spendableStroops q) 0) as [|Hpos]; [injection Hrun as <- <-; left; split; eauto|].
  apply pay_sent in Hrun as [[H He]|[Hn H]]; [left; split; [by rewrite H|done]|right].
  exists priv', from'. split; [done|]. split; [done|]. exists q. eexists. rewrite H, Hs. cbn [payment_tx tx_source tx_fee tx_op default].
  pose proof (qo_balance q Hok Hpos). split_and!; try done; lia.
Qed.

(** Sweeping a one-time account.  At most one transaction leaves the account.
    When one does, it pays the destination everything the account held except its reserve and
    the fee, and creates the destination only when it was reported absent and then with at
    least the reserve of a new account; a sweep that fails earlier has sent nothing. *)
Theorem sweep_pays_all_but_reserve privHex destination memo (w w' : World W) x
    (Hrun : executeStealthWithdrawal privHex destination memo w = (x, w')) :
  failed_clean w w' x ∨ ∃ priv from, Dksap.hexToBytes (strip0x privHex) = Ok priv ∧ keypair_address priv = Ok from ∧ sweeps from destination w w'.
Proof. by apply sweep_run in Hrun. Qed.

Lemma hex_back k : Dksap.hexToBytes (drop_string 2 ("0x" +:+ Dksap.bytesToHex k)) = Ok k.
Proof. exact (hexToBytes_bytes k). Qed.
Lemma hex_back_0x k : Dksap.hexToBytes (strip0x ("0x" +:+ Dksap.bytesToHex k)) = Ok k.
Proof. rewrite strip0x_0x. exact (hexToBytes_bytes k). Qed.

(** C13 (functional): A payment to a ghost address can be withdrawn.  The web application derived
    the address with the ephemeral key it stored; withdrawing from that entry then spends
    from the Stellar account the sender was told to pay, and from no other, for every
    destination and network answer (when the hashed secret is below the curve order). *)
Theorem ghost_funds_are_withdrawable (Hsec1 : sec1_prefix) keys V S meta e st entries entry network destination memo
    (w w' : World W) x sH
    (Hkeys : Dksap.keysToStealthMetaAddress (mk_viewPrivKey keys) (mk_spendPrivKey keys) = Ok (V, S, meta))
    (Hst : Dksap.computeStealthAddressAndViewTag e (Dksap.stealthMetaAddressToHex meta) = Ok st)
    (Hh : recipientSharedSecretHash (mk_viewPrivKey keys) (st_ephemeralPubKey st) = Ok (sH, st_viewTag st)) (Hsmall : be_val 0 sH < curve_n)
    (Hfind : List.find (is_ghost network (st_stealthAddress st)) entries = Some entry)
    (Hent : ge_ephemeralPrivKeyHex entry = Some ("0x" +:+ Dksap.bytesToHex e))
    (Hrun : withdrawFromGhostAddress entries (st_stealthAddress st) network destination Native keys memo w = (x, w')) :
  (∃ k, deriveStealthPrivateKeyFromGhostEntry entry keys = Ok ("0x" +:+ Dksap.bytesToHex k) ∧ keypair_address k = Ok (st_stealthStellarAddress st)) ∧
  (failed_clean w w' x ∨ sweeps (st_stealthStellarAddress st) destination w w').
Proof.
  pose proof (meta_hex meta) as Hm.
  assert (Hsdk : computeStealthAddressAndViewTag e (stealthMetaAddressToHex meta) = Ok st) by (by apply compute_agree).
  destruct (scanner_of_transfer Hsec1 _ _ _ _ _ _ _ Hkeys Hsdk) as (sH' & unc & Hh' & _ & Haddr & _ & _ & Hk).
  rewrite Hh in Hh'. apply Ok_inj in Hh'. injection Hh' as <-. destruct (Hk Hsmall) as (k & Hr & Hpub).
  pose proof (transfer_ephemeral _ _ _ _ _ _ _ Hkeys Hsdk) as HE.
  assert (Haddr' : keypair_address k = Ok (st_stealthStellarAddress st)).
  { unfold keypair_address, Dksap.deriveStealthStellarKeypairFromStealthPrivKey, deriveStealthStellarKeypairFromStealthPrivKey. by rewrite Hpub, Haddr. }
  assert (Hpriv : deriveStealthPrivateKeyFromGhostEntry entry keys = Ok ("0x" +:+ Dksap.bytesToHex k)).
  { unfold deriveStealthPrivateKeyFromGhostEntry. rewrite Hent. cbn [String.append]. unfold deriveStealthPrivateKeyFromEphemeral.
    change (String "0" (String "x" (Dksap.bytesToHex e))) with ("0x" +:+ Dksap.bytesToHex e).
    assert (Dksap.hexToBytes ("0x" +:+ Dksap.bytesToHex e) = Ok e) as ->.
    { unfold Dksap.hexToBytes. rewrite strip0x_0x. unfold Dksap.bytesToHex. rewrite hex_of_bytes_length, Nat.even_mul, parse_hex_pairs_bytes. done. }
    cbn [mbind res_bind]. rewrite HE. cbn [mbind res_bind]. by rewrite Hr. }
  split; [by exists k|]. unfold withdrawFromGhostAddress in Hrun. rewrite Hfind in Hrun.
  destruct entry as [c a o]. cbn [ge_ephemeralPrivKeyHex] in Hent. subst o. cbn [String.append] in Hrun.
  apply T_bind_case in Hrun as [(e' & [-> He]%of_res_run & ->)|(kh & w1 & [-> He]%of_res_run & Hrun)]; [left; split; eauto|].
  cbn [String.append] in Hpriv. rewrite Hpriv in He. injection He as ->.
  apply sweep_run in Hrun as [?|(p & from & Hp & Hf & Hs)]; [by left|right].
  pose proof (hex_back_0x k) as Hb. cbn [String.append] in Hb. rewrite Hb in Hp. apply Ok_inj in Hp as <-. rewrite Haddr' in Hf. apply Ok_inj in Hf as <-. done.
Qed.

(** ** What announcing a ghost sends *)
Definition reserve_tx (announcer ghost : string) : Tx := mkTx announcer BASE_FEE None (AccountMerge ghost).

Lemma returned_reserve announcer ghost hash (w w' : World W) x :
  attempt (back ← sendAccountMerge announcer ghost; mret (mkAnnounced hash (Some back))) (λ _, mret (mkAnnounced hash None)) w = (x, w') →
  ∃ back merge, x = inl (mkAnnounced hash back) ∧ wo_sent w' = wo_sent w ++ merge ∧ (merge = [] ∨ merge = [reserve_tx announcer ghost]).
Proof.
  unfold attempt, mbind, T_bind. destruct (sendAccountMerge announcer ghost w) as [[b|e] w1] eqn:E; apply merge_sent in E.
  all: intros [= <- <-]; destruct E as [[-> _]| ->]; eexists; [exists []|exists [reserve_tx announcer ghost]];
    rewrite ?app_nil_r; auto.
Qed.

(** How the announcement call, made in [w1], and the flow end: an error of the call is the
    flow's; a call that returned is the flow's result, whatever becomes of the reserve. *)
Definition announce_outcome (contract ghost announcer : string) (args : list jval) (w1 w' : World W) (x : GhostAnnouncementResult + thrown) : Prop :=
  ∃ y w2, invokeContractWithKeypair announcer contract "announce" args true w1 = (y, w2) ∧
    match y with
    | inr e => x = inr e ∧ w' = w2 ∧ (wo_sent w2 = wo_sent w1 ∨ wo_sent w2 = wo_sent w1 ++ [call_tx announcer contract "announce" args])
    | inl hash =>
        succeeded hash ∧ wo_sent w2 = wo_sent w1 ++ [call_tx announcer contract "announce" args] ∧
        ∃ back merge, x = inl (mkAnnounced hash back) ∧ wo_sent w' = wo_sent w2 ++ merge ∧ (merge = [] ∨ merge = [reserve_tx announcer ghost])
    end.

Lemma announce_outcome_run contract ghost announcer args (w1 w' : World W) x :
  (hash ← invokeContractWithKeypair announcer contract "announce" args true;
   attempt (back ← sendAccountMerge announcer ghost; mret (mkAnnounced hash (Some back))) (λ _, mret (mkAnnounced hash None))) w1 = (x, w') →
  announce_outcome contract ghost announcer args w1 w' x.
Proof.
  intros [(e & H & ->)|(hash & w2 & H & Hrun)]%T_bind_case; (eexists _, _; split; [exact H|]); apply keypair_call_sent in H as [[Hs He]|[Hs Hok]]; try (by destruct He).
  - auto.
  - auto.
  - split; [by apply Hok|]. split; [done|]. by apply returned_reserve.
Qed.

(** C24 (safety): Announcing a ghost address never touches the connected wallet.  The flow sends,
    in this order and nothing else: at most one payment that creates the one-time announcer
    from the ghost's own account, the announcement signed by that announcer, and at most one
    merge that returns the announcer's reserve to the ghost.  Once the announcement is
    called, its answer decides: the flow returns exactly when the call returned, which it
    does only with a confirmed transaction, and a reserve that cannot be returned does not
    fail it; it throws exactly the error of the call, which may be a time-out of a
    transaction that lands, and then leaves the reserve where it is.  The address announced
    is the caller's, whether or not it belongs to the ephemeral key. *)
Theorem announcement_spends_ghost_only contract keys meta stealth ek (w w' : World W) x
    (Hrun : executeGhostOnchainAnnouncement contract keys meta stealth ek w = (x, w')) :
  (wo_sent w' = wo_sent w ∧ ∃ e, x = inr e) ∨
  ∃ payload ghost announcer key fund w1,
    Dksap.buildGhostAnnouncementPayload meta ek = Ok payload ∧ getGhostStellarAccount keys ek = Ok ghost ∧
    getAnnouncerAccount keys meta (Some ek) = Ok (announcer, key) ∧
    wo_sent w1 = wo_sent w ++ fund ∧ (fund = [] ∨ fund = [payment_tx ghost announcer ANNOUNCER_FUNDING_STROOPS false None None]) ∧
    ((w' = w1 ∧ ∃ e, x = inr e) ∨
     ∃ sb, Dksap.hexToBytes (strip0x stealth) = Ok sb ∧
       announce_outcome contract ghost announcer (announce_args announcer sb (ga_ephemeralPubKey payload) (ga_metadata payload)) w1 w' x).
Proof.
  unfold executeGhostOnchainAnnouncement in Hrun.
  apply T_bind_case in Hrun as [(e & [-> _]%of_res_run & ->)|(payload & w1 & [-> Hp]%of_res_run & Hrun)]; [left; eauto|].
  apply T_bind_case in Hrun as [(e & [-> _]%of_res_run & ->)|(ghost & w1 & [-> Hg]%of_res_run & Hrun)]; [left; eauto|].
  apply T_bind_case in Hrun as [(e & [-> _]%of_res_run & ->)|(acc & w1 & [-> Ha]%of_res_run & Hrun)]; [left; eauto|].
  destruct (Dksap.buildGhostAnnouncementPayload meta ek) as [payload'|] eqn:Ep; [injection Hp as <-|done].
  destruct (getGhostStellarAccount keys ek) as [ghost'|] eqn:Eg; [injection Hg as <-|done].
  destruct (getAnnouncerAccount keys meta (Some ek)) as [acc'|] eqn:Ea; [injection Ha as <-|done].
  assert (Hkey : (b ← Dksap.hexToBytes (drop_string 2 acc.2); keypair_address b) = Ok acc.1).
  { unfold getAnnouncerAccount in Ea. apply bind_ok in Ea as (E & _ & (k & _ & (ad & Had & H)%bind_ok)%bind_ok). apply Ok_inj in H. subst acc.
    cbn [fst snd]. rewrite hex_back. exact Had. }
  rewrite Hkey in Hrun. destruct acc as [announcer key]. cbn [fst snd] in *.
  apply T_bind_case in Hrun as [(e & [-> He]%of_res_run & ->)|(a & w1 & [-> Ha']%of_res_run & Hrun)]; [done|]. injection Ha' as ->.
  apply T_bind_case in Hrun as [(e & (H & _)%on_env_run & ->)|(funded & w1 & (H1 & _)%on_env_run & Hrun)]; [left; eauto|].
  assert (Hfund : ∀ y w2, (if funded then mret "" else sendNativePayment ghost announcer ANNOUNCER_FUNDING_STROOPS (Some false) None None : T (World W) string) w1 = (y, w2) →
    ∃ fund, wo_sent w2 = wo_sent w ++ fund ∧ (fund = [] ∨ fund = [payment_tx ghost announcer ANNOUNCER_FUNDING_STROOPS false None None])).
  { intros y w2 H. rewrite <-H1. destruct funded; [injection H as _ <-; exists []; rewrite app_nil_r; auto|].
    apply pay_sent in H as [[-> _]|[_ ->]]; [exists []; rewrite app_nil_r; auto|eexists; auto]. }
  right. exists payload, ghost, announcer, key.
  apply T_bind_case in Hrun as [(e & H & ->)|(h0 & w2 & H & Hrun)]; apply Hfund in H as (fund & Hs & Hf); exists fund; eexists; (split_and!; [done|done|done|exact Hs|done|]).
  { left. eauto. }
  apply T_bind_case in Hrun as [(e & [-> _]%of_res_run & ->)|(sb & w3 & [-> Hsb]%of_res_run & Hrun)]; [left; eauto|right].
  destruct (Dksap.hexToBytes (strip0x stealth)) as [sb'|] eqn:Esb; [injection Hsb as <-|done].
  exists sb. split; [done|]. by apply announce_outcome_run.
Qed.
End sweeps.

(** ** On the curve of seven points and the network of one account *)
#[local] Existing Instance toy_curve.
#[local] Existing Instance small_prims.
Definition toy_mk : MasterKeys := mkKeys toy_view toy_spend (Byte.x02 :: be_bytes 32 3).
Definition toy_world : World nat := mkWorld 0%nat [] [] [].
Definition toy_ek : string := "0x" +:+ Dksap.bytesToHex toy_ephemeral.
Definition toy_sweep : T (World nat) string := executeStealthWithdrawal (hex_of_bytes (be_bytes 32 3)) " GDEST " None.

Lemma sweep_pays_all_but_reserve_witness :
  ∃ w' from q, toy_sweep toy_world = (inl "hash", w') ∧ keypair_address (be_bytes 32 3) = Ok from ∧
    0 < nq_spendableStroops q ∧ exists tx, wo_sent w' = [tx] ∧ tx_source tx = from.
Proof.
  destruct (toy_sweep toy_world) as [x w'] eqn:E.
  assert (x = inl "hash") as -> by (apply (f_equal fst) in E; vm_compute in E; congruence).
  destruct (sweep_pays_all_but_reserve (hex_of_bytes (be_bytes 32 3)) " GDEST " None toy_world w' (inl "hash") E) as [(_ & e & He)|(priv & from & Hp & Hf & q & tx & Hq & Hs & Hsrc & _ & Hpos & _)]; [discriminate He|].
  assert (priv = be_bytes 32 3) as -> by (apply Ok_inj; rewrite <-Hp; vm_compute; reflexivity).
  exists w', from, q. split; [reflexivity|]. split; [exact Hf|]. split; [exact Hpos|]. exists tx. split; [exact Hs|exact Hsrc].
Defined.

Definition toy_entries (st : StealthTransfer) : list GhostEntry := [mkGhostEntry "testnet" (st_stealthAddress st) (Some toy_ek)].
Definition toy_withdraw (st : StealthTransfer) : T (World nat) string :=
  withdrawFromGhostAddress (toy_entries st) (st_stealthAddress st) "testnet" "GDEST" Native toy_mk None.
Lemma ghost_funds_are_withdrawable_witness :
  ∃ st w' k, sent_on_toy = Ok st ∧ toy_withdraw st toy_world = (inl "hash", w') ∧
    keypair_address k = Ok (st_stealthStellarAddress st) ∧ sweeps (st_stealthStellarAddress st) "GDEST" toy_world w'.
Proof.
  assert (Hr : match sent_on_toy with Ok st => (toy_withdraw st toy_world).1 | Err _ => inl "" end = inl "hash") by (vm_compute; reflexivity).
  assert (Hs : match sent_on_toy with
               | Ok st => match recipientSharedSecretHash toy_view (st_ephemeralPubKey st) with
                          | Ok (sH, t) => (be_val 0 sH <? 7) && (t =? st_viewTag st) | Err _ => false end
               | Err _ => false end = true) by (vm_compute; reflexivity).
  destruct sent_on_toy as [st|] eqn:E; [|discriminate Hs].
  destruct (recipientSharedSecretHash toy_view (st_ephemeralPubKey st)) as [[sH t]|] eqn:Hh; [|discriminate Hs].
  apply andb_prop in Hs as [Hlt Ht]. apply Z.ltb_lt in Hlt. apply Z.eqb_eq in Ht. subst t.
  destruct (toy_withdraw st toy_world) as [x w'] eqn:Ew. cbn [fst] in Hr. subst x.
  assert (Hf : List.find (is_ghost "testnet" (st_stealthAddress st)) (toy_entries st) = Some (mkGhostEntry "testnet" (st_stealthAddress st) (Some toy_ek))).
  { unfold toy_entries, is_ghost. cbn [List.find ge_cluster ge_stealthAddress]. rewrite !String.eqb_refl. reflexivity. }
  assert (Hk : Dksap.keysToStealthMetaAddress toy_view toy_spend = Ok (Byte.x02 :: be_bytes 32 2, Byte.x02 :: be_bytes 32 3, toy_meta)) by (vm_compute; reflexivity).
  destruct (ghost_funds_are_withdrawable toy_sec1 toy_mk _ _ toy_meta toy_ephemeral st (toy_entries st) _ "testnet" "GDEST" None toy_world w' (inl "hash") sH
    Hk E Hh Hlt Hf eq_refl Ew) as [(k & _ & Ha) [[_ [e He]]|Hsw]]; [discriminate He|].
  exists st, w', k. split; [reflexivity|]. split; [exact Ew|]. split; [exact Ha|exact Hsw].
Defined.

Definition toy_announce : T (World nat) GhostAnnouncementResult :=
  executeGhostOnchainAnnouncement "CANNOUNCER" toy_mk (Dksap.stealthMetaAddressToHex toy_meta) "0x00" toy_ek.
Lemma announcement_spends_ghost_only_witness :
  ∃ r w' ghost announcer args w1, toy_announce toy_world = (inl r, w') ∧ announce_outcome "CANNOUNCER" ghost announcer args w1 w' (inl r).
Proof.
  assert (Ho : match (toy_announce toy_world).1 with inl _ => true | inr _ => false end = true) by (vm_compute; reflexivity).
  destruct (toy_announce toy_world) as [[r|e] w'] eqn:E; [|discriminate Ho].
  destruct (announcement_spends_ghost_only "CANNOUNCER" toy_mk (Dksap.stealthMetaAddressToHex toy_meta) "0x00" toy_ek toy_world w' (inl r) E)
    as [(_ & e & He)|(pl & ghost & announcer & key & fund & w1 & _ & _ & _ & _ & _ & [(_ & e & He)|(sb & _ & Ha)])]; [discriminate He|discriminate He|].
  exists r, w', ghost, announcer. eexists _, w1. split; [reflexivity|exact Ha].
Defined.
