(* ===== verification/WebScan.v ===== *)
(** * Web application: the vault and the announcement scanner

    [frontend/src/store/vaultStore.ts], the [StealthScanner] class and [refreshBalances] of
    [frontend/src/lib/stealthLifecycle.ts], and [frontend/src/lib/horizonBackoff.ts].  The RPC
    server, the browser's [Buffer] and the clock are parameters; the encrypted persistence of
    the vault, the progress listeners and the console are left out.  Timers are explicit: a
    poll runs when its step is taken. *)
From Stdlib Require Import Ascii.
From stdpp Require Import base tactics list sets strings relations.
From Stdlib Require Import ZArith Lia QArith Qround Qpower Lqa.
From S2P Require Import Prelude JsString JsMap Json Bytes PubValidate RelPayload AspPolicy SdkCodec SdkPool SdkSchema SdkStealth SdkChain WebErrors WebSoroban WebChain WebStealth WebSpend.
Import Retry.
Open Scope string_scope.
Open Scope list_scope.
Open Scope Z_scope.

(** ** Adaptive backoff *)
Module Backoff.
Definition BASE_BACKOFF_FACTOR : Q := 2.
Definition MAX_BACKOFF_EXPONENT : Z := 6.
Definition JITTER_RANGE : Q := 3 # 10.
Record t : Type := mkBackoff { bo_base : Z; bo_failures : Z; bo_lastFailureAt : option Z; bo_lastSuccessAt : option Z }.
Definition new (baseIntervalMs : Z) : t := mkBackoff baseIntervalMs 0 None None.
Record State : Type := mkState {
  bs_currentIntervalMs : Z; bs_baseIntervalMs : Z; bs_consecutiveFailures : Z;
  bs_lastRequestSucceeded : bool; bs_lastFailureAt : option Z; bs_lastSuccessAt : option Z;
}.
Definition getState (random : Q) (b : t) : State :=
  let exponent := Z.min (bo_failures b) MAX_BACKOFF_EXPONENT in
  let multiplier := Qpower BASE_BACKOFF_FACTOR exponent in
  let jitter := (1 + (random * 2 - 1) * JITTER_RANGE)%Q in
  let currentIntervalMs := js_round (inject_Z (bo_base b) * multiplier * jitter) in
  mkState (if 0 <? bo_failures b then currentIntervalMs else bo_base b) (bo_base b) (bo_failures b)
    (match bo_lastSuccessAt b with Some s => default 0 (bo_lastFailureAt b) <? s | None => false end)
    (bo_lastFailureAt b) (bo_lastSuccessAt b).
Definition recordSuccess (now : Z) (b : t) : t := mkBackoff (bo_base b) 0 (bo_lastFailureAt b) (Some now).
Definition recordFailure (now : Z) (b : t) : t := mkBackoff (bo_base b) (bo_failures b + 1) (Some now) (bo_lastSuccessAt b).
Definition reset (b : t) : t := mkBackoff (bo_base b) 0 None None.
(** The shared instance is replaced when another base is asked for. *)
Definition getPollingBackoff (baseIntervalMs : Z) (global : option t) : t :=
  match global with Some b => if bo_base b =? baseIntervalMs then b else new baseIntervalMs | None => new baseIntervalMs end.
Definition resetPollingBackoff (global : option t) : option t := reset <$> global.
End Backoff.

(** ** The vault *)
Record StealthVaultEntry : Type := mkVaultEntry {
  ve_stealthAddress : string;
  ve_ephemeralPubKeyHex : string;
  ve_blockNumber : Z;
  ve_txHash : string;
  ve_stellarAddress : option string;
  ve_amountStroops : Z;
  ve_isSpent : bool;
}.
Record Vault : Type := mkVault { va_entries : list StealthVaultEntry; va_lastSyncedBlock : option Z }.
Definition empty_vault : Vault := mkVault [] None.

Definition same_address (a : string) (e : StealthVaultEntry) : bool := String.eqb (toLowerCase (ve_stealthAddress e)) (toLowerCase a).
(** [{ ...old, ...e }]: a present field of the new entry wins. *)
Definition merge_entry (old e : StealthVaultEntry) : StealthVaultEntry :=
  mkVaultEntry (ve_stealthAddress e) (ve_ephemeralPubKeyHex e) (ve_blockNumber e) (ve_txHash e)
    (match ve_stellarAddress e with Some a => Some a | None => ve_stellarAddress old end) (ve_amountStroops e) (ve_isSpent e).
Fixpoint upsert_list (e : StealthVaultEntry) (l : list StealthVaultEntry) : list StealthVaultEntry :=
  match l with
  | [] => [e]
  | x :: rest => if same_address (ve_stealthAddress e) x then merge_entry x e :: rest else x :: upsert_list e rest
  end.
Definition upsertEntry (e : StealthVaultEntry) (v : Vault) : Vault := mkVault (upsert_list e (va_entries v)) (va_lastSyncedBlock v).
Definition set_spent (e : StealthVaultEntry) : StealthVaultEntry :=
  mkVaultEntry (ve_stealthAddress e) (ve_ephemeralPubKeyHex e) (ve_blockNumber e) (ve_txHash e) (ve_stellarAddress e) (ve_amountStroops e) true.
Definition set_amount (z : Z) (e : StealthVaultEntry) : StealthVaultEntry :=
  mkVaultEntry (ve_stealthAddress e) (ve_ephemeralPubKeyHex e) (ve_blockNumber e) (ve_txHash e) (ve_stellarAddress e) z (ve_isSpent e).
Definition markSpent (stealthAddress : string) (v : Vault) : Vault :=
  mkVault ((λ e, if same_address stealthAddress e then set_spent e else e) <$> va_entries v) (va_lastSyncedBlock v).
Definition setBalances (updates : list (string * Z)) (v : Vault) : Vault :=
  let map := foldl (λ m u, JMap.set (toLowerCase u.1) u.2 m) [] updates in
  mkVault ((λ e, match JMap.get (toLowerCase (ve_stealthAddress e)) map with Some z => set_amount z e | None => e end) <$> va_entries v)
    (va_lastSyncedBlock v).
Definition setLastSyncedBlock (b : option Z) (v : Vault) : Vault := mkVault (va_entries v) b.
Definition getEntry (stealthAddress : string) (v : Vault) : option StealthVaultEntry := List.find (same_address stealthAddress) (va_entries v).
Definition clear (v : Vault) : Vault := empty_vault.

(** ** Announcement events *)
Inductive EvBytes : Type := EBytes (b : list byte) | EString (s : string) | EArray (l : list Z) | EOther.
(** The value's fields under both spellings; [None] is null or undefined. *)
Record EvValue : Type := mkEvValue {
  ev_scheme_id : option string; ev_schemeId : option string;
  ev_stealth_address : option EvBytes; ev_stealthAddress : option EvBytes;
  ev_ephemeral_pub_key : option EvBytes; ev_ephemeralPubKey : option EvBytes;
  ev_metadata : option EvBytes;
}.
(** What [ev.value] can be: the stellar-sdk's [getEvents] decodes every value into an object of
    its [ScVal] class, whose properties are the accessors of the union; [EvFields] is an object
    with the fields this code looks for.  The announcer's value is a vector of five parts. *)
Inductive EvRaw : Type := EvScVal (vec : list ScVal) | EvFields (v : EvValue).
Definition no_fields : EvValue := mkEvValue None None None None None None None.
(** [raw as Record<string, unknown>]: the class of [ScVal] has none of the names read. *)
Definition fields_of (raw : EvRaw) : EvValue := match raw with EvScVal _ => no_fields | EvFields v => v end.
(** [None] is a value that is missing or no object. *)
Record Ev : Type := mkEv { ev_txHash : option string; ev_ledger : option Z; ev_value : option EvRaw }.
Record EvPage : Type := mkPage { ep_events : option (list Ev); ep_cursor : option string }.
Inductive EvRequest : Type := ByLedger (startLedger endLedger : Z) | ByCursor (cursor : string).

Definition nullish_or {A} (a b : option A) : option A := match a with Some x => Some x | None => b end.

Inductive ScanStatus : Type := Idle | Syncing | Watching | SError.
Record ScanningProgress : Type := mkProgress { sp_status : ScanStatus; sp_lastProcessedLedger : option Z; sp_error : option string }.
Record ScannerState : Type := mkScanner { sc_polling : bool; sc_lastLedger : Z; sc_backoff : Backoff.t; sc_progress : ScanningProgress }.
Definition POLL_MS : Z := 12000.
Definition EVENT_PAGE : Z := 200.
Definition MAX_PAGES : nat := 20.

Record ScanWorld (W : Type) : Type := mkScan { sw_env : W; sw_vault : Vault; sw_scanner : ScannerState; sw_log : list (EvRequest * option EvPage) }.
Arguments mkScan {W} _ _ _ _.
Arguments sw_env {W} _.
Arguments sw_vault {W} _.
Arguments sw_scanner {W} _.
Arguments sw_log {W} _.

Section scan.
Context {EC : Secp256k1} {SP : StealthPrims} {W : Type} `{!Network W}.
Context (buffer_from_base64 : string → list byte) (getLatestLedger : T W Z) (getEvents : EvRequest → T W EvPage).

(** [Buffer.from(val, "base64")] does not throw, so the hex branch is never taken. *)
Definition decodeEventBytes (val : option EvBytes) : option (list byte) :=
  match val with
  | Some (EBytes b) => Some b
  | Some (EString s) => Some (buffer_from_base64 s)
  | Some (EArray l) => Some (to_byte <$> l)
  | Some EOther | None => None
  end.

(** The entry an event stands for; [None] when it is not the recipient's or not readable. *)
Definition entry_of_event (keys : MasterKeys) (viewPrivKey spendPubKey : list byte) (ev : Ev) : res (option StealthVaultEntry) :=
  match ev_value ev with
  | None => Ok None
  | Some raw =>
      let v := fields_of raw in
      schemeId ← BigInt (default "0" (nullish_or (ev_scheme_id v) (ev_schemeId v)));
      if negb (schemeId =? 1) then Ok None
      else
        match decodeEventBytes (nullish_or (ev_stealth_address v) (ev_stealthAddress v)),
              decodeEventBytes (nullish_or (ev_ephemeral_pub_key v) (ev_ephemeralPubKey v)) with
        | Some stealthBytes, Some ephemeralPubKey =>
            if negb (length ephemeralPubKey =? 33)%nat then Ok None
            else
              let viewTag := match decodeEventBytes (ev_metadata v) with Some (b :: _) => byte_val b | _ => 0 end in
              let stealthAddress := "0x" +:+ Dksap.bytesToHex stealthBytes in
              tag ← Scanner.check_announcement_view_tag_wasm viewTag viewPrivKey ephemeralPubKey;
              if String.eqb tag "NoMatch" then Ok None
              else
                mine ← Scanner.check_announcement_wasm stealthAddress viewTag viewPrivKey spendPubKey ephemeralPubKey;
                if negb mine then Ok None
                else
                  stealthPriv ← Scanner.reconstruct_signing_key_wasm (mk_spendPrivKey keys) viewPrivKey ephemeralPubKey;
                  stellarAddress ← keypair_address stealthPriv;
                  Ok (Some (mkVaultEntry stealthAddress ("0x" +:+ Dksap.bytesToHex ephemeralPubKey) (default 0 (ev_ledger ev))
                              (default "" (ev_txHash ev)) (Some stellarAddress) 0 false))
        | _, _ => Ok None
        end
  end.
Definition tryParseEvent (keys : MasterKeys) (viewPrivKey spendPubKey : list byte) (ev : Ev) (v : Vault) : Vault :=
  match entry_of_event keys viewPrivKey spendPubKey ev with Ok (Some e) => upsertEntry e v | _ => v end.

(** ** The scanner *)
Notation ST := (T (ScanWorld W)).
Definition on_net {A} (m : T W A) : ST A := λ w,
  let '(x, e) := m (sw_env w) in (x, mkScan e (sw_vault w) (sw_scanner w) (sw_log w)).
Definition on_vault (f : Vault → Vault) : ST unit := λ w, (inl tt, mkScan (sw_env w) (f (sw_vault w)) (sw_scanner w) (sw_log w)).
Definition on_scanner (f : ScannerState → ScannerState) : ST unit := λ w, (inl tt, mkScan (sw_env w) (sw_vault w) (f (sw_scanner w)) (sw_log w)).
Definition scanner : ST ScannerState := λ w, (inl (sw_scanner w), w).
Definition ask (r : EvRequest) : ST EvPage := λ w,
  let '(x, e) := getEvents r (sw_env w) in
  (x, mkScan e (sw_vault w) (sw_scanner w) (sw_log w ++ [(r, match x with inl p => Some p | inr _ => None end)])).

(** [n] pages are left of the twenty. *)
Fixpoint fetch_loop (n : nat) (keys : MasterKeys) (request : EvRequest) : ST unit :=
  match n with
  | O => mret tt
  | S n' =>
      page ← ask request;
      on_vault (λ v, foldl (λ v ev, tryParseEvent keys (mk_viewPrivKey keys) (mk_spendPubKey keys) ev v) v (default [] (ep_events page)));;
      match ep_cursor page with
      | None | Some "" => mret tt
      | Some cursor =>
          match ep_events page with
          | None => raise (TError "Cannot read properties of undefined (reading 'length')" [] None)
          | Some l => if Z.of_nat (length l) <? EVENT_PAGE then mret tt else fetch_loop n' keys (ByCursor cursor)
          end
      end
  end.
Definition fetchEvents (startLedger endLedger : Z) (keys : MasterKeys) : ST unit := fetch_loop MAX_PAGES keys (ByLedger startLedger endLedger).

Definition with_progress (f : ScanningProgress → ScanningProgress) (s : ScannerState) : ScannerState :=
  mkScanner (sc_polling s) (sc_lastLedger s) (sc_backoff s) (f (sc_progress s)).
Definition set_last (l : Z) (s : ScannerState) : ScannerState := mkScanner (sc_polling s) l (sc_backoff s) (sc_progress s).
Definition set_polling (b : bool) (s : ScannerState) : ScannerState := mkScanner b (sc_lastLedger s) (sc_backoff s) (sc_progress s).
Definition set_backoff (f : Backoff.t → Backoff.t) (s : ScannerState) : ScannerState := mkScanner (sc_polling s) (sc_lastLedger s) (f (sc_backoff s)) (sc_progress s).
Definition new_scanner (backoff : Backoff.t) : ScannerState := mkScanner false 0 backoff (mkProgress Idle None None).

Definition updateVault (keys : MasterKeys) : ST unit :=
  on_scanner (with_progress (λ p, mkProgress Syncing (sp_lastProcessedLedger p) None));;
  attempt
    (latest ← on_net getLatestLedger;
     fetchEvents (Z.max 1 (latest - 17280)) latest keys;;
     on_scanner (set_last latest);;
     on_scanner (with_progress (λ _, mkProgress Watching (Some latest) None)))
    (λ e, on_scanner (with_progress (λ p, mkProgress SError (sp_lastProcessedLedger p) (Some (errorMessage e))));; raise e).

Definition startWatching : ST unit :=
  s ← scanner;
  if sc_polling s then mret tt
  else on_scanner (set_polling true);; on_scanner (with_progress (λ p, mkProgress Watching (sp_lastProcessedLedger p) None)).
Definition stopWatching : ST unit :=
  on_scanner (set_polling false);; on_scanner (with_progress (λ p, mkProgress Idle (sp_lastProcessedLedger p) (sp_error p))).

(** The next poll is scheduled exactly when the timer was not cleared meanwhile. *)
Definition pollOnce (now : Z) (keys : MasterKeys) : ST unit :=
  attempt
    (latest ← on_net getLatestLedger;
     s ← scanner;
     (if sc_lastLedger s <? latest then
        fetchEvents (sc_lastLedger s + 1) latest keys;;
        on_scanner (set_last latest);;
        on_scanner (with_progress (λ p, mkProgress (sp_status p) (Some latest) (sp_error p)))
      else mret tt : ST unit);;
     on_scanner (set_backoff (Backoff.recordSuccess now)))
    (λ e, on_scanner (set_backoff (Backoff.recordFailure now));;
          on_scanner (with_progress (λ p, mkProgress SError (sp_lastProcessedLedger p) (Some (errorMessage e))))).
Definition next_poll_ms (random : Q) (s : ScannerState) : option Z :=
  if sc_polling s then Some (Backoff.bs_currentIntervalMs (Backoff.getState random (sc_backoff s))) else None.

(** ** Balances *)
Definition refresh_one (entry : StealthVaultEntry) : ST unit :=
  match ve_stellarAddress entry with
  | None | Some "" => mret tt
  | Some addr =>
      attempt (account ← on_net (run_read (loadAccount addr));
               native ← of_res (native_balance account);
               on_vault (upsertEntry (set_amount (Amount.parseHorizonBalanceToStroops native) entry)))
        (λ _, mret tt)
  end.
(** The entries are those of the vault when the refresh starts. *)
Fixpoint refresh_loop (entries : list StealthVaultEntry) : ST unit :=
  match entries with [] => mret tt | e :: rest => refresh_one e;; refresh_loop rest end.
Definition refreshBalances : ST unit := λ w, refresh_loop (va_entries (sw_vault w)) w.
End scan.

(** ** The vault has one entry per address *)
Definition addresses (v : Vault) : list string := (λ e, toLowerCase (ve_stealthAddress e)) <$> va_entries v.
Definition vault_wf (v : Vault) : Prop := NoDup (addresses v).

Inductive vault_step : Vault → Vault → Prop :=
  | step_upsert e v : vault_step v (upsertEntry e v)
  | step_spent a v : vault_step v (markSpent a v)
  | step_balances us v : vault_step v (setBalances us v)
  | step_synced b v : vault_step v (setLastSyncedBlock b v)
  | step_clear v : vault_step v (clear v).

Lemma upsert_addresses e l : let k := toLowerCase (ve_stealthAddress e) in let ks := (λ x, toLowerCase (ve_stealthAddress x)) <$> l in
  (λ x, toLowerCase (ve_stealthAddress x)) <$> upsert_list e l = if bool_decide (k ∈ ks) then ks else ks ++ [k].
Proof.
  intros k ks. subst ks. induction l as [|x l IH]; [done|]. cbn [upsert_list]. unfold same_address.
  destruct (String.eqb_spec (toLowerCase (ve_stealthAddress x)) (toLowerCase (ve_stealthAddress e))) as [He|Hne]; cbn [fmap list_fmap].
  - rewrite bool_decide_eq_true_2 by (rewrite He; left). cbn [merge_entry ve_stealthAddress]. by rewrite He.
  - rewrite IH. fold k in Hne |- *. repeat case_bool_decide; try done; exfalso; set_solver.
Qed.
Lemma map_addresses (f : StealthVaultEntry → StealthVaultEntry) v b :
  (∀ e, ve_stealthAddress (f e) = ve_stealthAddress e) → addresses (mkVault (f <$> va_entries v) b) = addresses v.
Proof. intros Hf. unfold addresses. simpl. rewrite <-list_fmap_compose. apply list_fmap_ext. intros i e _. simpl. by rewrite Hf. Qed.

(** Whatever sequence of store operations runs, the vault keeps at most one
    entry per stealth address, upper and lower case being the same address, and only [clear]
    removes one. *)
Theorem vault_one_entry_per_address v v' (Hwf : vault_wf v) (Hsteps : rtc vault_step v v') :
  vault_wf v' ∧ (∀ v1 v2, rtc vault_step v v1 → vault_step v1 v2 → v2 ≠ empty_vault → addresses v1 ⊆ addresses v2).
Proof.
  assert (Hstep : ∀ v1 v2, vault_step v1 v2 → (vault_wf v1 → vault_wf v2) ∧ (v2 ≠ empty_vault → addresses v1 ⊆ addresses v2)).
  { intros v1 v2 [e u|a u|us u|b u|u].
    - unfold vault_wf, addresses. simpl. rewrite upsert_addresses. case_bool_decide as Hin; [done|]. split; [|set_solver].
      intros Hn. apply NoDup_app. split; [done|]. split; [set_solver|apply NoDup_singleton].
    - unfold vault_wf, markSpent. rewrite map_addresses; [done|]. intros x. by destruct (same_address a x).
    - unfold vault_wf, setBalances. rewrite map_addresses; [done|]. intros x. by destruct (JMap.get _ _).
    - done.
    - split; [intros _; constructor|done]. }
  split; [|intros v1 v2 _ H; by apply Hstep]. induction Hsteps as [|v1 v2 v3 H1 _ IH]; [done|]. apply IH. by eapply Hstep.
Qed.

(** ** Entries found by address *)
Lemma find_upsert_same a e l : toLowerCase (ve_stealthAddress e) = toLowerCase a →
  ∃ x, List.find (same_address a) (upsert_list e l) = Some x ∧ ve_isSpent x = ve_isSpent e ∧ ve_amountStroops x = ve_amountStroops e ∧
    (ve_stellarAddress e ≠ None → ve_stellarAddress x = ve_stellarAddress e).
Proof.
  intros Ha. assert (Hself : ∀ x, ve_stealthAddress x = ve_stealthAddress e → same_address a x = true).
  { intros x Hx. unfold same_address. by rewrite Hx, Ha, String.eqb_refl. }
  induction l as [|x l IH]; cbn [upsert_list List.find].
  - rewrite Hself by done. by exists e.
  - assert (Hsame : same_address (ve_stealthAddress e) x = same_address a x) by (unfold same_address; by rewrite Ha).
    rewrite Hsame. destruct (same_address a x) eqn:E; cbn [List.find].
    + rewrite Hself by done. eexists. split; [done|]. simpl. split_and!; [done..|]. by destruct (ve_stellarAddress e).
    + by rewrite E.
Qed.
Lemma find_upsert_other a e l : toLowerCase (ve_stealthAddress e) ≠ toLowerCase a →
  List.find (same_address a) (upsert_list e l) = List.find (same_address a) l.
Proof.
  intros Ha. assert (Hno : ∀ x, ve_stealthAddress x = ve_stealthAddress e → same_address a x = false).
  { intros x Hx. unfold same_address. rewrite Hx. by destruct (String.eqb_spec (toLowerCase (ve_stealthAddress e)) (toLowerCase a)). }
  induction l as [|x l IH]; cbn [upsert_list List.find]; [by rewrite Hno|].
  unfold same_address at 2. destruct (String.eqb_spec (toLowerCase (ve_stealthAddress x)) (toLowerCase (ve_stealthAddress e))) as [He|]; cbn [List.find].
  - rewrite Hno by done. assert (same_address a x = false) as ->; [|done]. unfold same_address. rewrite He.
    by destruct (String.eqb_spec (toLowerCase (ve_stealthAddress e)) (toLowerCase a)).
  - by rewrite IH.
Qed.

(** ** What a scan puts into the vault *)
Section scans.
Context {EC : Secp256k1} {SP : StealthPrims} {W : Type} `{!Network W}.
Context (buffer_from_base64 : string → list byte) (getLatestLedger : T W Z) (getEvents : EvRequest → T W EvPage).
Abbreviation entry_of := (entry_of_event buffer_from_base64).
Abbreviation parse := (tryParseEvent buffer_from_base64).

Lemma entry_inv keys viewKey spendPub ev en : entry_of keys viewKey spendPub ev = Ok (Some en) →
  ∃ sb E tag k account,
    Scanner.check_announcement_wasm ("0x" +:+ Dksap.bytesToHex sb) tag viewKey spendPub E = Ok true ∧
    Scanner.reconstruct_signing_key_wasm (mk_spendPrivKey keys) viewKey E = Ok k ∧ keypair_address k = Ok account ∧
    en = mkVaultEntry ("0x" +:+ Dksap.bytesToHex sb) ("0x" +:+ Dksap.bytesToHex E) (default 0 (ev_ledger ev)) (default "" (ev_txHash ev))
           (Some account) 0 false.
Proof.
  unfold entry_of_event. intros H. destruct (ev_value ev) as [raw|]; [|done]. set (val := fields_of raw) in H. cbn zeta in H. apply bind_ok in H as (sid & _ & H). destruct (negb _); [done|].
  destruct (decodeEventBytes _ (nullish_or (ev_stealth_address val) _)) as [sb|]; [|done].
  destruct (decodeEventBytes _ (nullish_or (ev_ephemeral_pub_key val) _)) as [E|]; [|done].
  destruct (negb _); [done|]. apply bind_ok in H as (tag & _ & H). destruct (String.eqb _ _); [done|].
  apply bind_ok in H as (mine & Hm & H). destruct mine; [|done]. cbn [negb] in H.
  apply bind_ok in H as (k & Hk & (ad & Had & H)%bind_ok). apply Ok_inj in H. injection H as <-. by eexists sb, E, _, k, ad.
Qed.

(** Marking an entry as spent does not last.  Seeing the announcement again, as every
    new session does for the last day of ledgers, puts the entry back as unspent with a
    balance of zero; so does a balance refresh that read the entry before it was marked. *)
Theorem spent_mark_is_lost keys viewKey spendPub ev en e z a v
    (Hev : entry_of keys viewKey spendPub ev = Ok (Some en)) (Ha : toLowerCase (ve_stealthAddress en) = toLowerCase a)
    (He : toLowerCase (ve_stealthAddress e) = toLowerCase a) (Hu : ve_isSpent e = false) :
  (∃ x, getEntry a (parse keys viewKey spendPub ev (markSpent a v)) = Some x ∧ ve_isSpent x = false ∧ ve_amountStroops x = 0) ∧
  (∃ x, getEntry a (upsertEntry (set_amount z e) (markSpent a v)) = Some x ∧ ve_isSpent x = false ∧ ve_amountStroops x = z).
Proof.
  split.
  - unfold tryParseEvent. rewrite Hev. destruct (find_upsert_same a en (va_entries (markSpent a v)) Ha) as (x & Hx & Hs & Hz & _).
    exists x. split; [done|]. rewrite Hs, Hz. apply entry_inv in Hev as (? & ? & ? & ? & ? & _ & _ & _ & ->). done.
  - destruct (find_upsert_same a (set_amount z e) (va_entries (markSpent a v)) He) as (x & Hx & Hs & Hz & _).
    exists x. split; [done|]. by rewrite Hs, Hz.
Qed.

Context (Hsec1 : sec1_prefix).

(** The entry of an address and its account. *)
Definition holds (v : Vault) (a account : string) : Prop := ∃ x, getEntry a v = Some x ∧ ve_stellarAddress x = Some account.
(** The vault after a list of events *)
Definition parse_all (keys : MasterKeys) (evs : list Ev) (v : Vault) : Vault :=
  foldl (λ v ev, parse keys (mk_viewPrivKey keys) (mk_spendPubKey keys) ev v) v evs.

(** Another event has an entry under this address, of another account: the id of twenty bytes
    is shared by two stealth accounts of the user, and the later entry takes its place. *)
Definition overwrites (keys : MasterKeys) (a account : string) (ev : Ev) : Prop :=
  ∃ en, entry_of keys (mk_viewPrivKey keys) (mk_spendPubKey keys) ev = Ok (Some en) ∧
    toLowerCase (ve_stealthAddress en) = toLowerCase a ∧ ve_stellarAddress en ≠ Some account.

Lemma parse_all_keeps keys evs v a account : holds v a account →
  holds (parse_all keys evs v) a account ∨ ∃ ev, ev ∈ evs ∧ overwrites keys a account ev.
Proof.
  revert v. induction evs as [|ev evs IH]; intros v Hv; [by left|]. cbn [parse_all foldl].
  enough (holds (parse keys (mk_viewPrivKey keys) (mk_spendPubKey keys) ev v) a account ∨ overwrites keys a account ev) as [H|H].
  { destruct (IH _ H) as [?|(ev' & Hin & Ho)]; [by left|]. right. exists ev'. split; [by right|done]. }
  { right. exists ev. split; [by left|done]. }
  unfold tryParseEvent. destruct (entry_of keys _ _ ev) as [[en|]|] eqn:E; [|by left..].
  destruct (decide (toLowerCase (ve_stealthAddress en) = toLowerCase a)) as [Hl|Hl].
  - destruct (decide (ve_stellarAddress en = Some account)) as [Hs|Hs]; [left|right; by exists en].
    destruct (find_upsert_same a en (va_entries v) Hl) as (x & Hx & _ & _ & Hsx). exists x. split; [done|]. by rewrite Hsx, Hs by by rewrite Hs.
  - left. destruct Hv as (x & Hx & Hs). exists x. split; [|done]. unfold getEntry, upsertEntry. simpl. by rewrite find_upsert_other.
Qed.
(** Events whose values are objects of [ScVal] leave the vault as it is. *)
Definition as_returned (ev : Ev) : Prop := ∃ vec, ev_value ev = Some (EvScVal vec).
Lemma parse_all_returned keys evs v : (∀ ev, ev ∈ evs → as_returned ev) → parse_all keys evs v = v.
Proof.
  revert v. induction evs as [|ev evs IH]; intros v H; [done|]. cbn [parse_all foldl].
  destruct (H ev ltac:(by left)) as [vec Hv]. unfold tryParseEvent, entry_of_event at 2. rewrite Hv. apply IH. set_solver.
Qed.

(** [ev] has the fields of an announcement of the payment [st], in any encoding the scanner reads. *)
Definition announces (ev : Ev) (st : StealthTransfer) : Prop :=
  ∃ v sb b rest, ev_value ev = Some (EvFields v) ∧
    BigInt (default "0" (nullish_or (ev_scheme_id v) (ev_schemeId v))) = Ok 1 ∧
    decodeEventBytes buffer_from_base64 (nullish_or (ev_stealth_address v) (ev_stealthAddress v)) = Some sb ∧
    "0x" +:+ Dksap.bytesToHex sb = st_stealthAddress st ∧
    decodeEventBytes buffer_from_base64 (nullish_or (ev_ephemeral_pub_key v) (ev_ephemeralPubKey v)) = Some (st_ephemeralPubKey st) ∧
    decodeEventBytes buffer_from_base64 (ev_metadata v) = Some (b :: rest) ∧ byte_val b = st_viewTag st.
(** A payment of the web application to these keys, with a secret the scanner accepts. *)
Definition paid_to (keys : MasterKeys) (st : StealthTransfer) : Prop :=
  ∃ V meta e sH, Dksap.keysToStealthMetaAddress (mk_viewPrivKey keys) (mk_spendPrivKey keys) = Ok (V, mk_spendPubKey keys, meta) ∧
    Dksap.computeStealthAddressAndViewTag e (Dksap.stealthMetaAddressToHex meta) = Ok st ∧
    recipientSharedSecretHash (mk_viewPrivKey keys) (st_ephemeralPubKey st) = Ok (sH, st_viewTag st) ∧ be_val 0 sH < curve_n.

Lemma announced_entry keys ev st : paid_to keys st → announces ev st →
  ∃ en, entry_of keys (mk_viewPrivKey keys) (mk_spendPubKey keys) ev = Ok (Some en) ∧ ve_stealthAddress en = st_stealthAddress st ∧
    ve_stellarAddress en = Some (st_stealthStellarAddress st).
Proof using Hsec1.
  intros (V & meta & e & sH & Hkeys & Hsent & Hh & Hlt) (v & sb & b & rest & Hv & Hsch & Hsb & Haddr & HE & Hm & Htag).
  apply (compute_agree _ _ _ (meta_hex meta)) in Hsent.
  pose proof (transfer_ephemeral _ _ _ _ _ _ _ Hkeys Hsent) as Heph. apply getPublicKey_ok in Heph as (_ & H33%toRawBytes_compressed & _).
  destruct (scanner_of_transfer Hsec1 _ _ _ _ _ _ _ Hkeys Hsent) as (sH' & unc & Hh' & _ & Hst & Hview & Hcheck & Hk).
  rewrite Hh in Hh'. apply Ok_inj in Hh'. injection Hh' as <-. destruct (Hk Hlt) as (k & Hr & Hpub). rewrite (proj2 (Z.ltb_lt _ _) Hlt) in Hcheck.
  unfold entry_of_event. rewrite Hv. cbn [fields_of]. rewrite Hsch. cbn [mbind res_bind Z.eqb negb Pos.eqb]. rewrite Hsb, HE, H33. cbn [Nat.eqb negb]. rewrite Hm, Htag, Haddr, Hview.
  cbn [mbind res_bind String.eqb Ascii.eqb Bool.eqb]. rewrite Hcheck. cbn [mbind res_bind negb]. rewrite Hr. cbn [mbind res_bind].
  unfold keypair_address, Dksap.deriveStealthStellarKeypairFromStealthPrivKey, deriveStealthStellarKeypairFromStealthPrivKey. rewrite Hpub. cbn [mbind res_bind].
  eexists. split; [done|]. cbn [ve_stealthAddress ve_stellarAddress]. by rewrite Hst.
Qed.

Lemma parse_all_holds keys evs v ev st : paid_to keys st → announces ev st → ev ∈ evs →
  holds (parse_all keys evs v) (st_stealthAddress st) (st_stealthStellarAddress st) ∨
  ∃ ev', ev' ∈ evs ∧ overwrites keys (st_stealthAddress st) (st_stealthStellarAddress st) ev'.
Proof using Hsec1.
  intros Hpaid Hann Hin. destruct (announced_entry _ _ _ Hpaid Hann) as (en & Hen & Ha & Hs).
  apply list_elem_of_split in Hin as (l1 & l2 & ->). unfold parse_all. rewrite foldl_app. cbn [foldl]. fold (parse_all keys l1 v).
  set (v1 := parse keys _ _ ev _).
  destruct (parse_all_keeps keys l2 v1 (st_stealthAddress st) (st_stealthStellarAddress st)) as [?|(ev' & Hin & Ho)]; [|by left|right; exists ev'; set_solver].
  unfold v1, tryParseEvent. rewrite Hen.
  destruct (find_upsert_same (st_stealthAddress st) en (va_entries (parse_all keys l1 v))) as (x & Hx & _ & _ & Hsx); [congruence|].
  exists x. split; [done|]. rewrite Hsx; congruence.
Qed.

(** ** Fetching pages *)
Definition page_events (p : EvRequest * option EvPage) : list Ev := match p.2 with Some q => default [] (ep_events q) | None => [] end.
(** The server has nothing more, as the code reads it. *)
Definition final_page (p : EvRequest * option EvPage) : Prop :=
  ∃ q, p.2 = Some q ∧ (ep_cursor q = None ∨ ep_cursor q = Some "" ∨ ∃ l, ep_events q = Some l ∧ Z.of_nat (length l) < EVENT_PAGE).
Record fetched (n : nat) (keys : MasterKeys) (req : EvRequest) (w w' : ScanWorld W) (x : unit + thrown) (pages : list (EvRequest * option EvPage)) : Prop := {
  fe_log : sw_log w' = sw_log w ++ pages;
  fe_bound : (length pages <= n)%nat;
  fe_scanner : sw_scanner w' = sw_scanner w;
  fe_vault : sw_vault w' = parse_all keys (concat (page_events <$> pages)) (sw_vault w);
  fe_first : n ≠ 0%nat → fst <$> head pages = Some req;
  fe_end : x = inl tt → length pages = n ∨ ∃ p, last pages = Some p ∧ final_page p;
}.

Lemma fetch_run n keys req w x w' : fetch_loop buffer_from_base64 getEvents n keys req w = (x, w') → ∃ pages, fetched n keys req w w' x pages.
Proof.
  revert req w. induction n as [|n IH]; intros req w.
  { intros [= <- <-]. exists []. split; simpl; [by rewrite app_nil_r|lia|done|done|done|by left]. }
  cbn [fetch_loop]. intros H. apply T_bind_case in H as [(e & H & ->)|(page & w1 & H & H')]; unfold ask in H; destruct (getEvents req (sw_env w)) as [y env].
  - injection H as -> <-. exists [(req, None)]. split; simpl; [done|lia|done|done|done|done].
  - injection H as -> <-. set (w2 := mkScan _ _ _ _) in H'. set (w3 := mkScan env (parse_all keys (page_events (req, Some page)) (sw_vault w)) (sw_scanner w) (sw_log w ++ [(req, Some page)])).
    assert (Hstop : ∀ y, (y = inl tt → final_page (req, Some page)) → fetched (S n) keys req w w3 y [(req, Some page)]).
    { intros y Hy. split; simpl; [done|lia|done|by rewrite app_nil_r|done|]. intros ->. right. eexists. split; [done|by apply Hy]. }
    apply T_bind_case in H' as [(e & H & ->)|(u & w4 & H & H')]; [discriminate H|]. injection H as _ <-. change (mkScan _ _ _ _) with w3 in H'.
    destruct (ep_cursor page) as [[|c0 cs]|] eqn:Ec; [injection H' as <- <-; exists [(req, Some page)]; apply Hstop; intros _; exists page; auto| |
      injection H' as <- <-; exists [(req, Some page)]; apply Hstop; intros _; exists page; auto].
    destruct (ep_events page) as [l|] eqn:El; [|injection H' as <- <-; exists [(req, Some page)]; by apply Hstop].
    destruct (Z.ltb_spec (Z.of_nat (length l)) EVENT_PAGE) as [Hlt|]; [injection H' as <- <-; exists [(req, Some page)]; apply Hstop; intros _; exists page; split; [done|]; eauto|].
    apply IH in H' as (pages & [Hlog Hb Hsc Hv Hf Hend]). exists ((req, Some page) :: pages). split.
    + rewrite Hlog. simpl. by rewrite <-app_assoc.
    + simpl. lia.
    + by rewrite Hsc.
    + rewrite Hv. unfold parse_all. simpl. by rewrite foldl_app.
    + done.
    + intros ->. destruct (Hend eq_refl) as [Hn|(p & Hp & Hfin)]; [left; simpl; lia|right]. exists p. split; [|done]. by destruct pages.
Qed.

(** What one poll that reached the events did. *)
Definition scanned (keys : MasterKeys) (latest : Z) (w w' : ScanWorld W) : Prop :=
  ∃ pages, let evs := concat (page_events <$> pages) in
    sw_log w' = sw_log w ++ pages ∧ (length pages <= MAX_PAGES)%nat ∧
    fst <$> head pages = Some (ByLedger (sc_lastLedger (sw_scanner w) + 1) latest) ∧
    (length pages = MAX_PAGES ∨ ∃ p, last pages = Some p ∧ final_page p) ∧
    ((∀ ev, ev ∈ evs → as_returned ev) → sw_vault w' = sw_vault w) ∧
    (∀ ev st, ev ∈ evs → announces ev st → paid_to keys st →
       holds (sw_vault w') (st_stealthAddress st) (st_stealthStellarAddress st) ∨
       ∃ ev', ev' ∈ evs ∧ overwrites keys (st_stealthAddress st) (st_stealthStellarAddress st) ev').

End scans.

(** ** Polling intervals *)
Lemma Qmult_mono_l a x y : (0 <= a → x <= y → a * x <= a * y)%Q.
Proof. intros Ha Hxy. rewrite !(Qmult_comm a). by apply Qmult_le_compat_r. Qed.

(** The polling interval adapts within limits: the base after a success, and after
    [n] failures within thirty percent of the base times two to the [n], never above the
    rounded 83.2 times the base. *)
Theorem backoff_is_bounded random b (Hb : 0 <= Backoff.bo_base b) (Hf : 0 <= Backoff.bo_failures b) (Hr : (0 <= random <= 1)%Q) :
  let interval := Backoff.bs_currentIntervalMs (Backoff.getState random b) in
  let spread := (λ q : Q, js_round (inject_Z (Backoff.bo_base b) * Qpower 2 (Z.min (Backoff.bo_failures b) 6) * q)) in
  (Backoff.bo_failures b = 0 → interval = Backoff.bo_base b) ∧
  (Backoff.bo_failures b ≠ 0 → spread (7 # 10) <= interval <= spread (13 # 10)) ∧
  interval <= Z.max (Backoff.bo_base b) (js_round (inject_Z (Backoff.bo_base b) * (832 # 10))) ∧
  ∀ now, Backoff.bs_currentIntervalMs (Backoff.getState random (Backoff.recordSuccess now b)) = Backoff.bo_base b.
Proof.
  intros interval spread. set (base := inject_Z (Backoff.bo_base b)) in *.
  assert (Hbase : (0 <= base)%Q) by (unfold base; by rewrite <-(Zle_Qle 0)).
  set (m := Qpower 2 (Z.min (Backoff.bo_failures b) 6)).
  assert (Hm0 : (0 <= m)%Q) by (apply Qpower_0_le; lra).
  assert (Hm64 : (m <= 64)%Q).
  { assert (Hc : Z.min (Backoff.bo_failures b) 6 = 0 ∨ Z.min (Backoff.bo_failures b) 6 = 1 ∨ Z.min (Backoff.bo_failures b) 6 = 2 ∨ Z.min (Backoff.bo_failures b) 6 = 3 ∨
        Z.min (Backoff.bo_failures b) 6 = 4 ∨ Z.min (Backoff.bo_failures b) 6 = 5 ∨ Z.min (Backoff.bo_failures b) 6 = 6) by lia.
    unfold m. destruct_or! Hc; rewrite Hc; by vm_compute. }
  assert (Hbm : (0 <= base * m)%Q) by (by apply Qmult_le_0_compat).
  assert (Hjit : (7 # 10 <= 1 + (random * 2 - 1) * (3 # 10) <= 13 # 10)%Q) by lra.
  assert (Hint : Backoff.bo_failures b ≠ 0 → interval = js_round (base * m * (1 + (random * 2 - 1) * (3 # 10)))).
  { intros Hn. unfold interval, Backoff.getState. simpl. destruct (Z.ltb_spec 0 (Backoff.bo_failures b)); [done|lia]. }
  split; [intros H0; unfold interval, Backoff.getState; simpl; by rewrite H0|]. split; [|split; [|done]].
  - intros Hn. rewrite Hint by done. split; apply js_round_mono, Qmult_mono_l; done || apply Hjit.
  - destruct (decide (Backoff.bo_failures b = 0)) as [H0|Hn]; [unfold interval, Backoff.getState; simpl; rewrite H0; simpl; lia|].
    rewrite Hint by done. transitivity (js_round (base * (832 # 10))); [|lia]. apply js_round_mono. rewrite <-Qmult_assoc.
    set (j := (1 + (random * 2 - 1) * (3 # 10))%Q) in *. assert (Hmj : (m * j <= 832 # 10)%Q) by (pose proof (Qmult_mono_l m j (13 # 10) Hm0 ltac:(apply Hjit)); lra).
    by apply Qmult_mono_l.
Qed.
Lemma backoff_is_bounded_witness :
  Backoff.bs_currentIntervalMs (Backoff.getState 0 (Backoff.mkBackoff 12000 9 (Some 5) None)) <= 998400.
Proof. exact (proj1 (proj2 (proj2 (backoff_is_bounded 0 (Backoff.mkBackoff 12000 9 (Some 5) None) ltac:(done) ltac:(done) ltac:(split; lra))))). Defined.

(** ** A scan on the curve of seven points *)
Definition wide_digest (l : list byte) : list byte := be_bytes 32 (be_val 0 l / 2 ^ 256).
Definition wide_prims : StealthPrims.
Proof.
  refine {| keccak_256 := wide_digest; sha256 := wide_digest; hkdf sig info n := be_bytes n (be_val 0 sig);
            Keypair := list byte; fromRawEd25519Seed seed := seed; publicKey k := "G" +:+ hex_of_bytes k |}.
  intros l. apply be_bytes_length.
Defined.
#[local] Existing Instance toy_curve.
#[local] Existing Instance wide_prims.

Definition wide_sent : res StealthTransfer := Dksap.computeStealthAddressAndViewTag toy_ephemeral (Dksap.stealthMetaAddressToHex toy_meta).
Definition event_of (st : StealthTransfer) : Ev :=
  mkEv (Some "tx") (Some 90) (Some (EvFields (mkEvValue (Some "1") None (Some (EBytes (parse_hex_pairs (strip0x (st_stealthAddress st))))) None
    None (Some (EBytes (st_ephemeralPubKey st))) (Some (EBytes (st_metadata st)))))).
(** The same announcement the way the contract publishes it and the stellar-sdk returns it. *)
Definition returned_event (st : StealthTransfer) : Ev :=
  mkEv (Some "tx") (Some 90) (Some (EvScVal [ScvU64 1; ScvBytes (parse_hex_pairs (strip0x (st_stealthAddress st))); ScvAddress "GCALLER";
    ScvBytes (st_ephemeralPubKey st); ScvBytes (st_metadata st)])).
Definition page_of (ev : Ev) : EvRequest → T nat EvPage := λ _ n, (inl (mkPage (Some [ev]) (Some "c1")), n).
Definition scan_start : ScanWorld nat := mkScan 0%nat empty_vault (new_scanner (Backoff.mkBackoff 12000 2 (Some 1) None)) [].

Lemma wide_facts st : wide_sent = Ok st → announces (λ _, []) (event_of st) st ∧ paid_to toy_mk st.
Proof.
  intros E.
  assert (Hk : Dksap.keysToStealthMetaAddress toy_view toy_spend = Ok (Byte.x02 :: be_bytes 32 2, Byte.x02 :: be_bytes 32 3, toy_meta)) by (vm_compute; reflexivity).
  assert (Hs : match wide_sent with
               | Ok st => match recipientSharedSecretHash toy_view (st_ephemeralPubKey st) with
                          | Ok (sH, t) => (be_val 0 sH <? 7) && (t =? st_viewTag st) && String.eqb ("0x" +:+ Dksap.bytesToHex (parse_hex_pairs (strip0x (st_stealthAddress st)))) (st_stealthAddress st)
                                            && match st_metadata st with [b] => byte_val b =? st_viewTag st | _ => false end
                          | Err _ => false end
               | Err _ => false end = true) by (vm_compute; reflexivity).
  rewrite E in Hs. destruct (recipientSharedSecretHash toy_view (st_ephemeralPubKey st)) as [[sH t]|] eqn:Hh; [|discriminate Hs].
  apply andb_prop in Hs as [Hs Hm]. apply andb_prop in Hs as [Hs Ha]. apply andb_prop in Hs as [Hlt Ht].
  apply Z.ltb_lt in Hlt. apply Z.eqb_eq in Ht. subst t. apply String.eqb_eq in Ha.
  destruct (st_metadata st) as [|b [|]] eqn:Em; try discriminate Hm. apply Z.eqb_eq in Hm. split.
  - eexists _, (parse_hex_pairs (strip0x (st_stealthAddress st))), b, []. split; [reflexivity|].
    split; [vm_compute; reflexivity|]. split; [reflexivity|]. split; [exact Ha|]. split; [reflexivity|]. split; [|exact Hm].
    cbn [event_of ev_metadata decodeEventBytes ev_value fields_of]. by rewrite Em.
  - eexists _, toy_meta, toy_ephemeral, sH. split; [exact Hk|]. split; [exact E|]. split; [exact Hh|exact Hlt].
Qed.

Lemma scan_page ev x w' : pollOnce (λ _, []) (λ n, (inl 100, n)) (page_of ev) 7 toy_mk scan_start = (x, w') →
  sc_lastLedger (sw_scanner w') = 100 ∧ sw_log w' = [(ByLedger 1 100, Some (mkPage (Some [ev]) (Some "c1")))].
Proof. intros Er. apply (f_equal snd) in Er. cbn [snd] in Er. rewrite <-Er. split; reflexivity. Qed.


Lemma spent_mark_is_lost_witness :
  ∃ st x, wide_sent = Ok st ∧
    getEntry (st_stealthAddress st) (tryParseEvent (λ _, []) toy_mk toy_view (mk_spendPubKey toy_mk) (event_of st) (markSpent (st_stealthAddress st) empty_vault)) = Some x ∧
    ve_isSpent x = false.
Proof.
  assert (Ho : is_ok wide_sent = true) by (vm_compute; reflexivity).
  destruct wide_sent as [st|] eqn:E; [|discriminate Ho]. destruct (wide_facts st E) as [Ha Hp].
  destruct (announced_entry (λ _, []) toy_sec1 toy_mk (event_of st) st Hp Ha) as (en & Hen & Hea & _).
  destruct (spent_mark_is_lost (λ _, []) toy_mk toy_view (mk_spendPubKey toy_mk) (event_of st) en (mkVaultEntry (st_stealthAddress st) "" 0 "" None 0 false) 5
    (st_stealthAddress st) empty_vault Hen (f_equal toLowerCase Hea) eq_refl eq_refl) as [(x & Hx & Hs & _) _].
  exists st, x. split; [reflexivity|]. split; [exact Hx|exact Hs].
Defined.

Lemma vault_one_entry_per_address_witness :
  vault_wf (markSpent "0xAB" (upsertEntry (mkVaultEntry "0xab" "" 1 "" None 0 false) (upsertEntry (mkVaultEntry "0xAB" "" 1 "" None 0 false) empty_vault))).
Proof.
  apply (vault_one_entry_per_address empty_vault); [constructor|].
  eapply rtc_l; [apply step_upsert|]. eapply rtc_l; [apply step_upsert|]. eapply rtc_l; [apply step_spent|]. apply rtc_refl.
Defined.
