(* ===== verification/WebTx.v ===== *)
(** * Web application: pending transactions and transaction history

    [frontend/src/store/pendingTxStore.ts], [frontend/src/lib/pending-tx-poller.ts],
    [frontend/src/lib/txTracking.ts], [frontend/src/store/txHistoryStore.ts],
    [frontend/src/lib/history-reconciliation.ts] and the reconciliation of
    [frontend/src/hooks/useHistoryReconciliation.ts].  The clock and the random part of row
    identifiers are arguments; storage in the browser is left out.  A poll is two steps, the
    tick that starts it and the answer that ends it, so that anything may happen between. *)
From Stdlib Require Import Ascii.
From stdpp Require Import base tactics list sets strings relations.
From Stdlib Require Import ZArith Lia Sorted.
From S2P Require Import Prelude JsString JsMap Bytes PubValidate RelPayload SdkSchema SdkStealth.
Open Scope string_scope.
Open Scope list_scope.
Open Scope Z_scope.

(** ** History *)
Inductive TxHistoryKind : Type := KSent | KReceived | KGhost | KTrait.
Inductive TxHistoryChainStatus : Type := CConfirmed | CFailed | CPending | CUnknown.
Global Instance kind_eq_dec : EqDecision TxHistoryKind.
Proof. solve_decision. Defined.
Global Instance chain_status_eq_dec : EqDecision TxHistoryChainStatus.
Proof. solve_decision. Defined.

(** [TxHistoryEntry] without the identifier and the time the store adds *)
Record TxHistoryPushInput : Type := mkPush {
  hp_cluster : string;
  hp_kind : TxHistoryKind;
  hp_counterparty : string;
  hp_amountStroops : string;
  hp_tokenSymbol : option string;
  hp_tokenAddress : option string;
  hp_amount : option string;
  hp_txHash : option string;
  hp_stealthAddress : option string;
  hp_chainStatus : option TxHistoryChainStatus;
}.
Record TxHistoryEntry : Type := mkRow {
  th_id : string;
  th_cluster : string;
  th_kind : TxHistoryKind;
  th_counterparty : string;
  th_amountStroops : string;
  th_tokenSymbol : string;
  th_tokenAddress : option string;
  th_amount : string;
  th_txHash : option string;
  th_stealthAddress : option string;
  th_timestamp : Z;
  th_chainStatus : option TxHistoryChainStatus;
}.
Definition set_chain (s : option TxHistoryChainStatus) (e : TxHistoryEntry) : TxHistoryEntry :=
  mkRow (th_id e) (th_cluster e) (th_kind e) (th_counterparty e) (th_amountStroops e) (th_tokenSymbol e) (th_tokenAddress e) (th_amount e)
    (th_txHash e) (th_stealthAddress e) (th_timestamp e) s.
Definition set_stealth (s : option string) (e : TxHistoryEntry) : TxHistoryEntry :=
  mkRow (th_id e) (th_cluster e) (th_kind e) (th_counterparty e) (th_amountStroops e) (th_tokenSymbol e) (th_tokenAddress e) (th_amount e)
    (th_txHash e) s (th_timestamp e) (th_chainStatus e).
(** A hash that is there and not empty *)
Definition hash_of (o : option string) : option string := match o with Some "" => None | o => o end.

Module History.
Definition MAX_ITEMS_PER_CLUSTER : nat := 50.
Definition RECIPIENT_REFERENCE_PREFIX : string := "rcpt:".
Record t : Type := mkHistory { hi_byChain : list (string * list TxHistoryEntry); hi_activeAccount : option string }.
Definition empty : t := mkHistory [] None.

Definition scopeKey (account : option string) (cluster : string) : string :=
  match account with None | Some "" => cluster | Some a => a +:+ ":" +:+ cluster end.
Definition setActiveAccount (account : option string) (h : t) : t := mkHistory (hi_byChain h) account.

(** [now] and [random] make the row's identifier. *)
Definition push (now : Z) (random : string) (entry : TxHistoryPushInput) (h : t) : t :=
  let key := scopeKey (hi_activeAccount h) (hp_cluster entry) in
  let list := default [] (JMap.get key (hi_byChain h)) in
  if match hash_of (hp_txHash entry) with
     | Some hash => bool_decide (hash ∈ omap (λ e, hash_of (th_txHash e)) list)
     | None => false
     end
  then h
  else
    let newEntry := mkRow ("tx-" +:+ key +:+ "-" +:+ bigint_toString 10 now +:+ "-" +:+ random) (hp_cluster entry) (hp_kind entry)
      (hp_counterparty entry) (hp_amountStroops entry) (default "XLM" (hp_tokenSymbol entry)) (hp_tokenAddress entry)
      (default "" (hp_amount entry)) (hp_txHash entry) (hp_stealthAddress entry) now (hp_chainStatus entry) in
    mkHistory (JMap.set key (take MAX_ITEMS_PER_CLUSTER (newEntry :: list)) (hi_byChain h)) (hi_activeAccount h).

Definition getForCluster (cluster : string) (h : t) : list TxHistoryEntry :=
  match JMap.get (scopeKey (hi_activeAccount h) cluster) (hi_byChain h) with
  | Some l => l
  | None => default [] (JMap.get cluster (hi_byChain h))
  end.
Definition replaceForCluster (cluster : string) (entries : list TxHistoryEntry) (h : t) : t :=
  mkHistory (JMap.set (scopeKey (hi_activeAccount h) cluster) (take MAX_ITEMS_PER_CLUSTER entries) (hi_byChain h)) (hi_activeAccount h).
Definition map_rows (f : TxHistoryEntry → TxHistoryEntry) (m : list (string * list TxHistoryEntry)) : list (string * list TxHistoryEntry) :=
  (λ kl : string * list TxHistoryEntry, (kl.1, f <$> kl.2)) <$> m.
Definition mark_row (txHash : string) (status : TxHistoryChainStatus) (e : TxHistoryEntry) : TxHistoryEntry :=
  if bool_decide (th_txHash e = Some txHash) then set_chain (Some status) e else e.
Definition setChainStatus (txHash : string) (status : TxHistoryChainStatus) (h : t) : t :=
  mkHistory (map_rows (mark_row txHash status) (hi_byChain h)) (hi_activeAccount h).
Definition clearForCluster (cluster : string) (h : t) : t :=
  mkHistory (JMap.set (scopeKey (hi_activeAccount h) cluster) [] (hi_byChain h)) (hi_activeAccount h).
Definition clear (allAccounts : bool) (h : t) : t :=
  match allAccounts, hi_activeAccount h with
  | true, _ | false, None | false, Some "" => mkHistory [] (hi_activeAccount h)
  | false, Some acct => mkHistory (JMap.retain (λ k _, negb (startsWith (acct +:+ ":") k)) (hi_byChain h)) (hi_activeAccount h)
  end.

(** Version 0 stored the recipient of an attestation; [recipientReference] hashes it. *)
Section migrate.
Context {SP : StealthPrims}.
Definition recipientReference (recipient : string) : string :=
  let normalized := toLowerCase (strip_0x_ci (trim recipient)) in
  RECIPIENT_REFERENCE_PREFIX +:+ hex_of_bytes (take 6 (sha256 (utf8 normalized))).
Definition reduce_row (e : TxHistoryEntry) : TxHistoryEntry :=
  if bool_decide (th_kind e = KTrait) && negb (startsWith RECIPIENT_REFERENCE_PREFIX (th_counterparty e))
  then mkRow (th_id e) (th_cluster e) (th_kind e) (recipientReference (th_counterparty e)) (th_amountStroops e) (th_tokenSymbol e) (th_tokenAddress e)
         (th_amount e) (th_txHash e) (th_stealthAddress e) (th_timestamp e) (th_chainStatus e)
  else e.
Definition reduceTraitCounterparties (h : t) : t :=
  mkHistory (map_rows reduce_row (hi_byChain h)) (hi_activeAccount h).
Definition migrate (version : Z) (h : t) : t := if version <? 1 then reduceTraitCounterparties h else h.
End migrate.
End History.

(** ** Reconciliation with the chain *)
Record ChainHistoryItem : Type := mkItem {
  ci_txHash : string;
  ci_cluster : string;
  ci_kind : TxHistoryKind;
  ci_counterparty : string;
  ci_amountStroops : string;
  ci_amount : string;
  ci_tokenSymbol : string;
  ci_tokenAddress : option string;
  ci_stealthAddress : option string;
  ci_timestamp : Z;
  ci_status : TxHistoryChainStatus;
}.
Record ReconciledHistory : Type := mkReconciled { rh_entries : list TxHistoryEntry; rh_addedCount : Z; rh_dedupedCount : Z }.

Definition row_of_item (i : ChainHistoryItem) : TxHistoryEntry :=
  mkRow ("chain-" +:+ ci_cluster i +:+ "-" +:+ ci_txHash i) (ci_cluster i) (ci_kind i) (ci_counterparty i) (ci_amountStroops i) (ci_tokenSymbol i)
    (ci_tokenAddress i) (ci_amount i) (Some (ci_txHash i)) (ci_stealthAddress i) (ci_timestamp i) (Some (ci_status i)).
Definition refreshed (e : TxHistoryEntry) (i : ChainHistoryItem) : TxHistoryEntry :=
  set_stealth (match th_stealthAddress e with Some s => Some s | None => ci_stealthAddress i end) (set_chain (Some (ci_status i)) e).
Definition seed (local : list TxHistoryEntry) : list (string * TxHistoryEntry) :=
  foldl (λ m e, match hash_of (th_txHash e) with
                | Some h => JMap.set h (set_chain (Some (default CConfirmed (th_chainStatus e))) e) m
                | None => m
                end) [] local.
Definition merge_item (st : list (string * TxHistoryEntry) * Z * Z) (i : ChainHistoryItem) : list (string * TxHistoryEntry) * Z * Z :=
  let '(m, added, deduped) := st in
  match JMap.get (ci_txHash i) m with
  | Some existing => (JMap.set (ci_txHash i) (refreshed existing i) m, added, deduped + 1)
  | None => (JMap.set (ci_txHash i) (row_of_item i) m, added + 1, deduped)
  end.
(** [sort((a, b) => b.timestamp - a.timestamp)], which is stable *)
Definition newest_first (l : list TxHistoryEntry) : list TxHistoryEntry := sort_by (λ e, - th_timestamp e) l.
Definition reconcileHistory (local : list TxHistoryEntry) (chain : list ChainHistoryItem) : ReconciledHistory :=
  let '(m, added, deduped) := foldl merge_item (seed local, 0, 0) chain in
  mkReconciled (newest_first (JMap.vals m)) added deduped.
(** The hook: rows without a hash are kept beside the reconciled ones. *)
Definition reconcile (cluster : string) (chain : list ChainHistoryItem) (h : History.t) : History.t :=
  let local := History.getForCluster cluster h in
  let result := reconcileHistory local chain in
  let hashless := List.filter (λ e, match hash_of (th_txHash e) with None => true | Some _ => false end) local in
  History.replaceForCluster cluster (newest_first (rh_entries result ++ hashless)) h.

(** ** Pending transactions *)
Inductive PendingTxStatus : Type := PPending | PConfirmed | PFailed | PTimedOut.
Global Instance pending_status_eq_dec : EqDecision PendingTxStatus.
Proof. solve_decision. Defined.
Inductive PendingKind : Type := PSend | PWithdraw | PTrait | PVault.
Record PendingTxEntry : Type := mkPending {
  pt_txHash : string;
  pt_cluster : string;
  pt_kind : PendingKind;
  pt_submittedAt : Z;
  pt_status : PendingTxStatus;
  pt_message : option string;
  pt_resolvedAt : option Z;
  pt_history : option TxHistoryPushInput;
}.
Definition isTerminalStatus (s : PendingTxStatus) : bool := match s with PPending => false | _ => true end.

Module Pending.
Definition TERMINAL_CLEANUP_MS : Z := 60000.
Definition t : Type := list (string * PendingTxEntry).
Definition add (now : Z) (txHash cluster : string) (kind : PendingKind) (history : option TxHistoryPushInput) (p : t) : bool * t :=
  match JMap.get txHash p with
  | Some _ => (false, p)
  | None => (true, JMap.set txHash (mkPending txHash cluster kind now PPending None None history) p)
  end.
Definition with_status (now : Z) (status : PendingTxStatus) (message : option string) (e : PendingTxEntry) : PendingTxEntry :=
  mkPending (pt_txHash e) (pt_cluster e) (pt_kind e) (pt_submittedAt e) status message
    (if isTerminalStatus status then Some (default now (pt_resolvedAt e)) else None) (pt_history e).
Definition setStatus (now : Z) (txHash : string) (status : PendingTxStatus) (message : option string) (p : t) : t :=
  match JMap.get txHash p with Some prev => JMap.set txHash (with_status now status message prev) p | None => p end.
Definition remove (txHash : string) (p : t) : t := JMap.del txHash p.
Definition list_ (cluster : option string) (p : t) : list PendingTxEntry :=
  match cluster with
  | None | Some "" => JMap.vals p
  | Some c => List.filter (λ e, String.eqb (pt_cluster e) c) (JMap.vals p)
  end.
Definition prune (now : Z) (p : t) : t :=
  JMap.retain (λ _ e, negb (isTerminalStatus (pt_status e) && (TERMINAL_CLEANUP_MS <? now - default (pt_submittedAt e) (pt_resolvedAt e)))) p.
End Pending.

(** ** Tracking: submissions, the poller and the mirror into history *)
Record Tracker : Type := mkTracker {
  tk_pending : Pending.t;
  tk_history : History.t;
  tk_polls : list PendingTxEntry;                           (** answers the poller still waits for *)
}.
(** The clock and the random text of a new row, at each step *)
Record Moment : Type := mkMoment { mo_now : Z; mo_random : string }.

Definition chain_status (s : PendingTxStatus) : TxHistoryChainStatus :=
  match s with PPending => CPending | PConfirmed => CConfirmed | PFailed => CFailed | PTimedOut => CUnknown end.
Definition with_hash (txHash : string) (status : TxHistoryChainStatus) (i : TxHistoryPushInput) : TxHistoryPushInput :=
  mkPush (hp_cluster i) (hp_kind i) (hp_counterparty i) (hp_amountStroops i) (hp_tokenSymbol i) (hp_tokenAddress i) (hp_amount i) (Some txHash)
    (hp_stealthAddress i) (Some status).
Definition syncEntryToHistory (mo : Moment) (entry : PendingTxEntry) (h : History.t) : History.t :=
  if bool_decide (pt_status entry = PPending) then h
  else
    let chainStatus := chain_status (pt_status entry) in
    let h1 := match pt_history entry with
              | Some i => History.push (mo_now mo) (mo_random mo) (with_hash (pt_txHash entry) chainStatus i) h
              | None => h
              end in
    History.setChainStatus (pt_txHash entry) chainStatus h1.
(** The subscriber: entries whose status changed are mirrored, in the store's order. *)
Definition mirror (mo : Moment) (prev next : Pending.t) (h : History.t) : History.t :=
  foldl (λ h e, if bool_decide (pt_status <$> JMap.get (pt_txHash e) prev = Some (pt_status e)) then h else syncEntryToHistory mo e h) h (JMap.vals next).
Definition set_pending (mo : Moment) (next : Pending.t) (t : Tracker) : Tracker :=
  mkTracker next (mirror mo (tk_pending t) next (tk_history t)) (tk_polls t).

Definition markPendingTx (mo : Moment) (txHash cluster : string) (kind : PendingKind) (history : option TxHistoryPushInput) (t : Tracker) : Tracker :=
  let t1 := set_pending mo (Pending.add (mo_now mo) txHash cluster kind history (tk_pending t)).2 t in
  match history with
  | Some i => mkTracker (tk_pending t1) (History.push (mo_now mo) (mo_random mo) (with_hash txHash CPending i) (tk_history t1)) (tk_polls t1)
  | None => t1
  end.
Definition resolvePendingTx (mo : Moment) (txHash : string) (status : PendingTxStatus) (message : option string) (t : Tracker) : Tracker :=
  set_pending mo (Pending.setStatus (mo_now mo) txHash status message (tk_pending t)) t.

(** What a submission ended in: its result, the rejection of the network, or any other error. *)
Inductive Submitted : Type := Included | Rejected | OutcomeUnknown.
Definition submission_end (mo : Moment) (txHash : string) (r : Submitted) (t : Tracker) : Tracker :=
  match r with
  | Included => resolvePendingTx mo txHash PConfirmed None t
  | Rejected => resolvePendingTx mo txHash PFailed (Some "Rejected by the network") t
  | OutcomeUnknown => t
  end.

Inductive ChainStatusResult : Type := CSConfirmed (message : option string) | CSFailed (message : option string) | CSNotFound.
(** One poll tick up to the requests it sends; a tick waits for the answers of the last. *)
Definition tick (mo : Moment) (t : Tracker) : Tracker :=
  match tk_polls t with
  | [] =>
      let t1 := set_pending mo (Pending.prune (mo_now mo) (tk_pending t)) t in
      mkTracker (tk_pending t1) (tk_history t1) (List.filter (λ e, bool_decide (pt_status e = PPending)) (JMap.vals (tk_pending t)))
  | _ => t
  end.
(** What [pollOne] does with the answer; [None] when the request failed. *)
Definition pollOne (mo : Moment) (timeoutMs : Z) (entry : PendingTxEntry) (r : option ChainStatusResult) (t : Tracker) : Tracker :=
  match r with
  | None => t
  | Some (CSConfirmed m) => resolvePendingTx mo (pt_txHash entry) PConfirmed m t
  | Some (CSFailed m) => resolvePendingTx mo (pt_txHash entry) PFailed m t
  | Some CSNotFound =>
      if timeoutMs <? mo_now mo - pt_submittedAt entry
      then resolvePendingTx mo (pt_txHash entry) PTimedOut (Some "Polling timed out before chain confirmation") t
      else t
  end.
Definition answer (mo : Moment) (timeoutMs : Z) (k : nat) (r : option ChainStatusResult) (t : Tracker) : Tracker :=
  match tk_polls t !! k with
  | Some entry => let t1 := pollOne mo timeoutMs entry r t in mkTracker (tk_pending t1) (tk_history t1) (delete k (tk_polls t1))
  | None => t
  end.

Inductive track_step (timeoutMs : Z) : Tracker → Tracker → Prop :=
  | step_submit mo txHash cluster kind history t : track_step timeoutMs t (markPendingTx mo txHash cluster kind history t)
  | step_end mo txHash r t : track_step timeoutMs t (submission_end mo txHash r t)
  | step_tick mo t : track_step timeoutMs t (tick mo t)
  | step_answer mo k r t : track_step timeoutMs t (answer mo timeoutMs k r t)
  | step_reconcile cluster chain t : track_step timeoutMs t (mkTracker (tk_pending t) (reconcile cluster chain (tk_history t)) (tk_polls t))
  | step_account a t : track_step timeoutMs t (mkTracker (tk_pending t) (History.setActiveAccount a (tk_history t)) (tk_polls t))
  | step_clear b t : track_step timeoutMs t (mkTracker (tk_pending t) (History.clear b (tk_history t)) (tk_polls t))
  | step_clear_cluster c t : track_step timeoutMs t (mkTracker (tk_pending t) (History.clearForCluster c (tk_history t)) (tk_polls t)).

(** ** Well-formed history *)
Definition hashes (l : list TxHistoryEntry) : list string := omap (λ e, hash_of (th_txHash e)) l.
Definition rows_ok (l : list TxHistoryEntry) : Prop := (length l <= History.MAX_ITEMS_PER_CLUSTER)%nat ∧ NoDup (hashes l).
Definition hist_wf (h : History.t) : Prop := JMap.wf (History.hi_byChain h) ∧ ∀ k l, (k, l) ∈ History.hi_byChain h → rows_ok l.

Lemma rows_ok_nil : rows_ok [].
Proof. split; [simpl; lia|constructor]. Qed.
Lemma rows_ok_take l : NoDup (hashes l) → rows_ok (take History.MAX_ITEMS_PER_CLUSTER l).
Proof.
  intros Hn. split; [rewrite length_take; lia|]. rewrite <-(take_drop History.MAX_ITEMS_PER_CLUSTER l) in Hn. unfold hashes in Hn. rewrite omap_app in Hn.
  by apply NoDup_app in Hn as [? _].
Qed.
Lemma get_rows_ok h k : hist_wf h → rows_ok (default [] (JMap.get k (History.hi_byChain h))).
Proof. intros [_ Hr]. destruct (JMap.get k _) as [l|] eqn:E; [|apply rows_ok_nil]. eapply Hr, JMap.get_Some_elem, E. Qed.
Lemma hist_wf_set h a k l : hist_wf h → rows_ok l → hist_wf (History.mkHistory (JMap.set k l (History.hi_byChain h)) a).
Proof.
  intros [Hw Hr] Hl. split; simpl; [by apply JMap.wf_set|]. intros k' l' [[= -> ->]|H]%JMap.elem_of_set; [done|by eapply Hr].
Qed.
Lemma map_rows_keys f m : JMap.keys (History.map_rows f m) = JMap.keys m.
Proof. unfold JMap.keys, History.map_rows. rewrite <-list_fmap_compose. by apply list_fmap_ext. Qed.
Lemma hashes_map f l : (∀ e, th_txHash (f e) = th_txHash e) → hashes (f <$> l) = hashes l.
Proof. intros Hf. unfold hashes. induction l as [|e l IH]; [done|]. cbn. rewrite Hf. destruct (hash_of _); [f_equal|]; exact IH. Qed.
Lemma hist_wf_map f h a : (∀ e, th_txHash (f e) = th_txHash e) → hist_wf h → hist_wf (History.mkHistory (History.map_rows f (History.hi_byChain h)) a).
Proof.
  intros Hf [Hw Hr]. split; simpl; [unfold JMap.wf; by rewrite map_rows_keys|].
  intros k l ([k0 l0] & [= -> ->] & Hin)%list_elem_of_fmap. destruct (Hr _ _ Hin) as [Hl Hn].
  split; [by rewrite length_fmap|by rewrite hashes_map].
Qed.
Lemma mark_row_hash txHash s e : th_txHash (History.mark_row txHash s e) = th_txHash e.
Proof. unfold History.mark_row. by case_bool_decide. Qed.

Lemma push_wf now rnd i h : hist_wf h → hist_wf (History.push now rnd i h).
Proof.
  intros Hh. unfold History.push. set (l := default [] _). pose proof (get_rows_ok h (History.scopeKey (History.hi_activeAccount h) (hp_cluster i)) Hh) as [_ Hn]. fold l in Hn.
  destruct (hash_of (hp_txHash i)) as [x|] eqn:Ex; [case_bool_decide as Hin; [done|]|]; (apply hist_wf_set; [done|]); apply rows_ok_take;
    unfold hashes; simpl; rewrite Ex; [constructor|]; done.
Qed.
Lemma setChainStatus_wf x s h : hist_wf h → hist_wf (History.setChainStatus x s h).
Proof. intros H. apply hist_wf_map; [apply mark_row_hash|done]. Qed.
Lemma sync_wf mo e h : hist_wf h → hist_wf (syncEntryToHistory mo e h).
Proof.
  intros H. unfold syncEntryToHistory. case_bool_decide; [done|]. apply setChainStatus_wf. destruct (pt_history e); [by apply push_wf|done].
Qed.
Lemma mirror_wf mo prev next h : hist_wf h → hist_wf (mirror mo prev next h).
Proof.
  unfold mirror. revert h. induction (JMap.vals next) as [|e l IH]; intros h Hh; simpl; [done|]. apply IH. case_bool_decide; [done|]. by apply sync_wf.
Qed.

(** ** Reconciliation *)
(** A row is filed under its own hash. *)
Definition filed (m : list (string * TxHistoryEntry)) : Prop := JMap.wf m ∧ ∀ k e, (k, e) ∈ m → th_txHash e = Some k.
Lemma filed_set m k e : filed m → th_txHash e = Some k → filed (JMap.set k e m).
Proof. intros [Hw Hf] He. split; [by apply JMap.wf_set|]. intros k' e' [[= -> ->]|H]%JMap.elem_of_set; [done|by apply Hf]. Qed.
Lemma seed_filed local : filed (seed local).
Proof.
  unfold seed. assert (Hnil : filed []) by (split; [apply JMap.wf_nil|by intros k e ?%elem_of_nil]). revert Hnil. generalize ([] : list (string * TxHistoryEntry)).
  induction local as [|e l IH]; intros m Hm; simpl; [done|]. apply IH. destruct (hash_of (th_txHash e)) as [x|] eqn:E; [|done].
  apply filed_set; [done|]. simpl. destruct (th_txHash e) as [[|c s]|]; simpl in E; try done.
Qed.
Lemma merge_filed m a d i : filed m → filed (merge_item (m, a, d) i).1.1.
Proof.
  intros Hm. unfold merge_item. destruct (JMap.get (ci_txHash i) m) as [e|] eqn:E; simpl; (apply filed_set; [done|]); [|done].
  destruct Hm as [_ Hf]. by apply JMap.get_Some_elem, Hf in E.
Qed.
Lemma fold_filed chain st : filed st.1.1 → filed (foldl merge_item st chain).1.1.
Proof. revert st. induction chain as [|i l IH]; intros [[m a] d] Hm; simpl; [done|]. apply IH. by apply merge_filed. Qed.
Lemma filed_hashes m : filed m → NoDup (hashes (JMap.vals m)).
Proof.
  intros [Hw Hf]. unfold hashes, JMap.vals. induction m as [|[k e] m IH]; simpl; [constructor|].
  unfold JMap.wf in Hw. simpl in Hw. apply NoDup_cons in Hw as [Hk Hw].
  assert (Hrest : NoDup (omap (λ e, hash_of (th_txHash e)) m.*2)) by (apply IH; [done|]; intros k' e' H; apply Hf; by right).
  rewrite (Hf k e) by left. destruct (hash_of (Some k)) as [x|] eqn:E; [|done].
  assert (x = k) as -> by (destruct k; simpl in E; congruence). apply NoDup_cons. split; [|done].
  intros (e' & He' & Hh)%list_elem_of_omap. apply list_elem_of_fmap in He' as ([k' e''] & -> & Hin). simpl in Hh.
  rewrite (Hf k' e'') in Hh by (by right). apply Hk. unfold JMap.keys. apply list_elem_of_fmap. exists (k', e''). split; [|done].
  destruct k'; simpl in *; congruence.
Qed.
Lemma hashes_perm l l' : l ≡ₚ l' → hashes l ≡ₚ hashes l'.
Proof. intros H. unfold hashes. by rewrite H. Qed.

Lemma reconcile_wf cluster chain h : hist_wf h → hist_wf (reconcile cluster chain h).
Proof.
  intros Hh. unfold reconcile, History.replaceForCluster. apply hist_wf_set; [done|]. apply rows_ok_take.
  set (less := List.filter _ _). eapply NoDup_Permutation_proper; [apply hashes_perm, sort_by_perm|]. unfold hashes. rewrite omap_app.
  assert (omap (λ e, hash_of (th_txHash e)) less = []) as ->.
  { subst less. induction (History.getForCluster cluster h) as [|e l IH]; simpl; [done|]. destruct (hash_of (th_txHash e)) eqn:E; simpl; [done|]. by rewrite E. }
  rewrite app_nil_r. unfold reconcileHistory. pose proof (fold_filed chain (seed (History.getForCluster cluster h), 0, 0) (seed_filed _)) as Hf.
  destruct (foldl merge_item _ chain) as [[m a] d]. simpl in *. eapply NoDup_Permutation_proper; [apply hashes_perm, sort_by_perm|]. by apply filed_hashes.
Qed.

(** ** Well-formed trackers *)
Definition entry_ok (k : string) (e : PendingTxEntry) : Prop :=
  pt_txHash e = k ∧ (is_Some (pt_resolvedAt e) ↔ isTerminalStatus (pt_status e) = true).
Definition pend_wf (p : Pending.t) : Prop := JMap.wf p ∧ ∀ k e, (k, e) ∈ p → entry_ok k e.
Definition track_wf (t : Tracker) : Prop := pend_wf (tk_pending t) ∧ hist_wf (tk_history t).

Lemma pend_get p h e : pend_wf p → JMap.get h p = Some e → entry_ok h e.
Proof. intros [_ Hp] He. by apply Hp, JMap.get_Some_elem. Qed.
Lemma pend_set p h e : pend_wf p → entry_ok h e → pend_wf (JMap.set h e p).
Proof. intros [Hw Hp] He. split; [by apply JMap.wf_set|]. intros k x [[= -> ->]|H]%JMap.elem_of_set; [done|by apply Hp]. Qed.
Lemma add_wf now h c k hi p : pend_wf p → pend_wf (Pending.add now h c k hi p).2.
Proof. intros Hp. unfold Pending.add. destruct (JMap.get h p); [done|]. apply pend_set; [done|]. split; [done|]. simpl. split; [by intros [? ?]|done]. Qed.
Lemma setStatus_wf now h s m p : pend_wf p → pend_wf (Pending.setStatus now h s m p).
Proof.
  intros Hp. unfold Pending.setStatus. destruct (JMap.get h p) as [e|] eqn:E; [|done]. apply pend_set; [done|].
  destruct (pend_get _ _ _ Hp E) as [Hh _]. split; [done|]. simpl. destruct (isTerminalStatus s); split; intros; done.
Qed.
Lemma prune_wf now p : pend_wf p → pend_wf (Pending.prune now p).
Proof. intros [Hw Hp]. split; [by apply JMap.wf_retain|]. intros k e [H _]%JMap.elem_of_retain. by apply Hp. Qed.
Lemma set_pending_wf mo p t : track_wf t → pend_wf p → track_wf (set_pending mo p t).
Proof. intros [_ Hh] Hp. split; [done|]. by apply mirror_wf. Qed.
Lemma resolvePending_wf mo h s m t : track_wf t → track_wf (resolvePendingTx mo h s m t).
Proof. intros Ht. apply set_pending_wf; [done|]. apply setStatus_wf, Ht. Qed.
Lemma polls_wf p h ps ps' : track_wf (mkTracker p h ps) → track_wf (mkTracker p h ps').
Proof. done. Qed.
#[local] Hint Resolve set_pending_wf resolvePending_wf add_wf setStatus_wf prune_wf push_wf reconcile_wf : core.

Lemma step_wf timeoutMs t t' : track_step timeoutMs t t' → track_wf t → track_wf t'.
Proof.
  intros Hs Ht. pose proof Ht as [Hp Hh]. destruct Hs as [mo h c k hi t|mo h r t|mo t|mo k r t|c ch t|a t|b t|c t].
  - unfold markPendingTx. assert (H1 : track_wf (set_pending mo (Pending.add (mo_now mo) h c k hi (tk_pending t)).2 t)) by auto.
    destruct hi; [|done]. destruct H1. split; [done|]. simpl. auto.
  - destruct r; simpl; auto.
  - unfold tick. destruct (tk_polls t); [|done]. assert (H1 : track_wf (set_pending mo (Pending.prune (mo_now mo) (tk_pending t)) t)) by auto. by destruct H1.
  - unfold answer. destruct (tk_polls t !! k) as [e|]; [|done]. assert (H1 : track_wf (pollOne mo timeoutMs e r t)); [|by destruct H1].
    destruct r as [[m|m|]|]; simpl; auto. destruct (_ <? _); auto.
  - split; simpl; auto.
  - done.
  - split; [done|]. simpl. unfold History.clear. destruct Hh as [Hw Hr].
    destruct b, (History.hi_activeAccount (tk_history t)) as [[|c s]|]; try (split; simpl; [apply JMap.wf_nil|by intros k l ?%elem_of_nil]).
    split; simpl; [by apply JMap.wf_retain|]. intros k l [H _]%JMap.elem_of_retain. by eapply Hr.
  - split; [done|]. simpl. apply hist_wf_set; [done|apply rows_ok_nil].
Qed.

(** C25 (invariant): Whatever interleaving of submissions, their ends, poll ticks, late poll
    answers, reconciliations, account switches and clears, the tracker stays well formed:
    pending entries are filed under their hash and carry a resolution time exactly when their
    status is final; every history list holds at most fifty rows and never two rows of one
    transaction. *)
Theorem tracking_stays_wellformed timeoutMs t t' (Hwf : track_wf t) (Hsteps : rtc (track_step timeoutMs) t t') : track_wf t'.
Proof. induction Hsteps as [|t1 t2 t3 H _ IH]; [done|]. apply IH. by eapply step_wf. Qed.

(** ** Nothing that is unresolved is dropped *)
Lemma setStatus_get now h s m p k e : JMap.get k p = Some e →
  ∃ e', JMap.get k (Pending.setStatus now h s m p) = Some e' ∧ pt_history e' = pt_history e ∧ pt_submittedAt e' = pt_submittedAt e ∧
    (k ≠ h → e' = e) ∧ (k = h → e' = Pending.with_status now s m e).
Proof.
  intros He. unfold Pending.setStatus. destruct (decide (k = h)) as [->|Hne].
  - rewrite He, JMap.get_set_eq. eexists. split; [done|]. done.
  - destruct (JMap.get h p); [rewrite JMap.get_set_ne by done|]; exists e; done.
Qed.
Definition tracked (t : Tracker) (h : string) (e : PendingTxEntry) : Prop :=
  ∃ e', JMap.get h (tk_pending t) = Some e' ∧ pt_history e' = pt_history e ∧ pt_submittedAt e' = pt_submittedAt e.
Lemma tracked_same t h e : JMap.get h (tk_pending t) = Some e → tracked t h e.
Proof. intros H. by exists e. Qed.
Lemma resolve_tracked mo x s m t h e : JMap.get h (tk_pending t) = Some e → tracked (resolvePendingTx mo x s m t) h e.
Proof. intros H. destruct (setStatus_get (mo_now mo) x s m _ _ _ H) as (e' & Hg & Hh & Hs & _). by exists e'. Qed.

(** A submitted transaction is tracked until its outcome is known, and for another
    minute: a step drops an entry only when it is a poll tick more than sixty seconds after
    the entry reached a final status.  Its history row to be and its submission time never
    change. *)
Theorem unresolved_stays_tracked timeoutMs t t' h e (Hwf : track_wf t)
    (Hstep : track_step timeoutMs t t') (He : JMap.get h (tk_pending t) = Some e) :
  tracked t' h e ∨
  JMap.get h (tk_pending t') = None ∧ isTerminalStatus (pt_status e) = true ∧
    ∃ mo, t' = tick mo t ∧ ∃ since, pt_resolvedAt e = Some since ∧ Pending.TERMINAL_CLEANUP_MS < mo_now mo - since.
Proof.
  destruct Hwf as [Hp _]. destruct Hstep as [mo x c k hi t|mo x r t|mo t|mo k r t|c ch t|a t|b t|c t]; try (left; by apply tracked_same).
  - left. exists e. split; [|done]. assert (JMap.get h (Pending.add (mo_now mo) x c k hi (tk_pending t)).2 = Some e).
    { unfold Pending.add. destruct (JMap.get x (tk_pending t)) eqn:Ex; [done|]. simpl. rewrite JMap.get_set_ne; [done|]. intros ->. congruence. }
    unfold markPendingTx. by destruct hi.
  - left. destruct r; simpl; by apply resolve_tracked || apply tracked_same.
  - unfold tick. destruct (tk_polls t) as [|]; [|left; by apply tracked_same].
    assert (Hg : JMap.get h (Pending.prune (mo_now mo) (tk_pending t)) = (v ← JMap.get h (tk_pending t);
       if negb (isTerminalStatus (pt_status v) && (Pending.TERMINAL_CLEANUP_MS <? mo_now mo - default (pt_submittedAt v) (pt_resolvedAt v))) then Some v else None))
      by (apply JMap.get_retain, Hp).
    rewrite He in Hg. cbn in Hg. destruct (isTerminalStatus (pt_status e)) eqn:Et; [|left; by exists e].
    destruct (Z.ltb_spec Pending.TERMINAL_CLEANUP_MS (mo_now mo - default (pt_submittedAt e) (pt_resolvedAt e))); [|left; by exists e].
    right. split; [done|]. split; [done|]. exists mo. split; [done|].
    destruct (pend_get _ _ _ Hp He) as [_ Hr]. destruct (proj2 Hr Et) as [since Hs]. exists since. by rewrite Hs in *.
  - left. unfold answer. destruct (tk_polls t !! k) as [x|]; [|by apply tracked_same].
    assert (H : tracked (pollOne mo timeoutMs x r t) h e) by (destruct r as [[m|m|]|]; simpl; [..|destruct (_ <? _)|]; by apply resolve_tracked || apply tracked_same).
    exact H.
Qed.

(** ** What the mirror does when one status changes *)
Lemma get_split {V} (h : string) (e e' : V) p : JMap.get h p = Some e →
  ∃ p1 p2, p = p1 ++ (h, e) :: p2 ∧ JMap.set h e' p = p1 ++ (h, e') :: p2.
Proof.
  induction p as [|[k v] p IH]; simpl; [done|]. destruct (decide (h = k)) as [->|].
  - intros [= ->]. by exists [], p.
  - intros (p1 & p2 & -> & ->)%IH. by exists ((k, v) :: p1), p2.
Qed.
Lemma mirror_set mo p h e e' H : pend_wf p → JMap.get h p = Some e → pt_txHash e' = h → pt_status e' ≠ pt_status e →
  mirror mo p (JMap.set h e' p) H = syncEntryToHistory mo e' H.
Proof.
  intros [Hw Hp] He Hh Hne. destruct (get_split h e e' p He) as (p1 & p2 & Hsplit & Hset).
  set (f := λ (H : History.t) (e : PendingTxEntry), if bool_decide (pt_status <$> JMap.get (pt_txHash e) p = Some (pt_status e)) then H else syncEntryToHistory mo e H).
  assert (Hskip : ∀ l H, (∀ k x, (k, x) ∈ l → (k, x) ∈ p) → foldl f H (JMap.vals l) = H).
  { induction l as [|[k x] l IH]; intros H' Hl; [done|]. cbn [JMap.vals fmap list_fmap foldl snd]. unfold f at 2.
    assert (Hx : (k, x) ∈ p) by (apply Hl; left). destruct (Hp k x Hx) as [Hk _]. rewrite Hk, (JMap.elem_get k x p Hw Hx). simpl.
    rewrite bool_decide_eq_true_2 by done. apply IH. intros k' x' Hin. apply Hl. by right. }
  unfold mirror. fold f. rewrite Hset. unfold JMap.vals. rewrite fmap_app, foldl_app. cbn [fmap list_fmap foldl snd].
  change (foldl f H p1.*2) with (foldl f H (JMap.vals p1)). rewrite Hskip by (intros k x Hin; rewrite Hsplit; set_solver).
  unfold f at 2. rewrite Hh, He. simpl. rewrite bool_decide_eq_false_2 by congruence.
  apply (Hskip p2). intros k x Hin. rewrite Hsplit. set_solver.
Qed.

(** ** What history says of a transaction *)
Definition rows_say (H : History.t) (h : string) (s : TxHistoryChainStatus) : Prop :=
  ∀ k l r, (k, l) ∈ History.hi_byChain H → r ∈ l → th_txHash r = Some h → th_chainStatus r = Some s.
Definition has_row (H : History.t) (k h : string) : Prop :=
  ∃ l r, JMap.get k (History.hi_byChain H) = Some l ∧ r ∈ l ∧ th_txHash r = Some h.

Lemma marked_rows H h s : rows_say (History.setChainStatus h s H) h s.
Proof.
  intros k l r ([k0 l0] & [= -> ->] & _)%list_elem_of_fmap (r0 & -> & _)%list_elem_of_fmap. unfold History.mark_row. by case_bool_decide.
Qed.
Lemma get_map_rows f m k : JMap.get k (History.map_rows f m) = (λ l : list TxHistoryEntry, f <$> l) <$> JMap.get k m.
Proof. induction m as [|[k0 l0] m IH]; simpl; [done|]. by destruct (decide (k = k0)). Qed.
Lemma marked_has_row H h s k h' : has_row H k h' → has_row (History.setChainStatus h s H) k h'.
Proof.
  intros (l & r & Hl & Hr & Hh). exists (History.mark_row h s <$> l), (History.mark_row h s r). simpl. rewrite get_map_rows, Hl.
  split; [done|]. split; [by apply list_elem_of_fmap_2|by rewrite mark_row_hash].
Qed.
Lemma push_has_row now rnd i H h : hp_txHash i = Some h → h ≠ "" → has_row (History.push now rnd i H) (History.scopeKey (History.hi_activeAccount H) (hp_cluster i)) h.
Proof.
  intros Hi Hne. unfold History.push. set (k := History.scopeKey _ _). rewrite Hi. assert (hash_of (Some h) = Some h) as -> by (by destruct h).
  case_bool_decide as Hin.
  - apply list_elem_of_omap in Hin as (r & Hr & Hh). destruct (JMap.get k (History.hi_byChain H)) as [l|] eqn:E; simpl in Hr; [|by apply elem_of_nil in Hr].
    exists l, r. split; [done|]. split; [done|]. destruct (th_txHash r) as [[|]|]; simpl in Hh; congruence.
  - eexists _, _. cbn [History.hi_byChain]. rewrite JMap.get_set_eq. split; [done|]. unfold History.MAX_ITEMS_PER_CLUSTER. split; [left|done].
Qed.
Lemma sync_says mo e H : pt_status e ≠ PPending →
  rows_say (syncEntryToHistory mo e H) (pt_txHash e) (chain_status (pt_status e)) ∧
  (∀ i, pt_history e = Some i → pt_txHash e ≠ "" → has_row (syncEntryToHistory mo e H) (History.scopeKey (History.hi_activeAccount H) (hp_cluster i)) (pt_txHash e)).
Proof.
  intros Hs. unfold syncEntryToHistory. rewrite bool_decide_eq_false_2 by done. split; [apply marked_rows|].
  intros i -> Hne. apply marked_has_row. exact (push_has_row _ _ (with_hash _ _ i) H _ eq_refl Hne).
Qed.

(** A status that changes is mirrored at once. *)
Lemma resolved_says mo h s m t e : track_wf t → JMap.get h (tk_pending t) = Some e → s ≠ PPending → pt_status e ≠ s →
  let t' := resolvePendingTx mo h s m t in
  (pt_status <$> JMap.get h (tk_pending t') = Some s) ∧ rows_say (tk_history t') h (chain_status s) ∧
  (∀ i, pt_history e = Some i → h ≠ "" → has_row (tk_history t') (History.scopeKey (History.hi_activeAccount (tk_history t)) (hp_cluster i)) h).
Proof.
  intros [Hp _] He Hs Hne t'. destruct (pend_get _ _ _ Hp He) as [Hh _]. unfold t', resolvePendingTx, set_pending. cbn [tk_pending tk_history].
  unfold Pending.setStatus. rewrite He. set (e' := Pending.with_status _ _ _ e).
  rewrite (mirror_set mo _ h e e' _ Hp He Hh) by (simpl; congruence). rewrite JMap.get_set_eq. split; [done|].
  destruct (sync_says mo e' (tk_history t) Hs) as [Hr Hi]. change (pt_txHash e') with (pt_txHash e) in Hr, Hi. rewrite Hh in Hr, Hi. done.
Qed.

(** A submission that ends is recorded.  When the network included it, the
    pending entry is confirmed and every history row of that hash says confirmed; when the
    network rejected it, failed; the row is in the list of the active account even if it was
    never pushed or was cleared meanwhile.  An error without a verdict leaves everything as
    it was, for the poller. *)
Theorem submission_end_is_recorded mo t h e i r (Hwf : track_wf t) (He : JMap.get h (tk_pending t) = Some e)
    (Hst : pt_status e = PPending) (Hi : pt_history e = Some i) (Hne : h ≠ "") :
  let t' := submission_end mo h r t in
  let key := History.scopeKey (History.hi_activeAccount (tk_history t)) (hp_cluster i) in
  match r with
  | Included => pt_status <$> JMap.get h (tk_pending t') = Some PConfirmed ∧ rows_say (tk_history t') h CConfirmed ∧ has_row (tk_history t') key h
  | Rejected => pt_status <$> JMap.get h (tk_pending t') = Some PFailed ∧ rows_say (tk_history t') h CFailed ∧ has_row (tk_history t') key h
  | OutcomeUnknown => t' = t
  end.
Proof.
  destruct r; simpl; [..|done].
  - destruct (resolved_says mo h PConfirmed None t e Hwf He) as (H1 & H2 & H3); [done|by rewrite Hst|]. auto.
  - destruct (resolved_says mo h PFailed (Some "Rejected by the network") t e Hwf He) as (H1 & H2 & H3); [done|by rewrite Hst|]. auto.
Qed.

(** A poll answer that arrives late overrides a known outcome.  The poller does not
    look at the entry again when the answer comes: one request that was under way when the
    submission was confirmed (or failed) and says "not found" past the deadline turns the entry
    into timed out and every history row of the transaction into unknown. *)
Theorem late_answer_overrides_outcome mo timeoutMs t k entry e
    (Hwf : track_wf t) (Hpoll : tk_polls t !! k = Some entry)
    (He : JMap.get (pt_txHash entry) (tk_pending t) = Some e) (Hs : pt_status e = PConfirmed ∨ pt_status e = PFailed)
    (Hlate : timeoutMs < mo_now mo - pt_submittedAt entry) :
  let t' := answer mo timeoutMs k (Some CSNotFound) t in
  pt_status <$> JMap.get (pt_txHash entry) (tk_pending t') = Some PTimedOut ∧ rows_say (tk_history t') (pt_txHash entry) CUnknown.
Proof.
  unfold answer. rewrite Hpoll. cbn [pollOne]. rewrite (proj2 (Z.ltb_lt _ _) Hlate). cbn [tk_pending tk_history].
  destruct (resolved_says mo (pt_txHash entry) PTimedOut (Some "Polling timed out before chain confirmation") t e Hwf He) as (H1 & H2 & _); [done| |done].
  destruct Hs as [-> | ->]; done.
Qed.

(** ** What reconciliation keeps *)
Definition last_local (h : string) (local : list TxHistoryEntry) : option TxHistoryEntry :=
  List.find (λ e, bool_decide (hash_of (th_txHash e) = Some h)) (rev local).
Definition last_item (h : string) (chain : list ChainHistoryItem) : option ChainHistoryItem := List.find (λ i, bool_decide (ci_txHash i = h)) (rev chain).
Definition first_item (h : string) (chain : list ChainHistoryItem) : option ChainHistoryItem := List.find (λ i, bool_decide (ci_txHash i = h)) chain.
Definition seeded (e : TxHistoryEntry) : TxHistoryEntry := set_chain (Some (default CConfirmed (th_chainStatus e))) e.

Lemma get_seed h local : JMap.get h (seed local) = seeded <$> last_local h local.
Proof.
  unfold seed, last_local. induction local as [|e l IH] using rev_ind; [done|]. rewrite foldl_app, rev_app_distr. cbn [foldl rev app List.find].
  case_bool_decide as Hh; [rewrite Hh, JMap.get_set_eq; done|]. destruct (hash_of (th_txHash e)) as [x|]; [|done].
  rewrite JMap.get_set_ne by congruence. exact IH.
Qed.
Definition merge_at (h : string) (o : option TxHistoryEntry) (i : ChainHistoryItem) : option TxHistoryEntry :=
  if bool_decide (ci_txHash i = h) then Some (match o with Some e => refreshed e i | None => row_of_item i end) else o.
Lemma merge_at_hit h o i : ci_txHash i = h → merge_at h o i = Some (match o with Some e => refreshed e i | None => row_of_item i end).
Proof. intros Hh. unfold merge_at. by rewrite bool_decide_eq_true_2. Qed.
Lemma merge_at_miss h o i : ci_txHash i ≠ h → merge_at h o i = o.
Proof. intros Hh. unfold merge_at. by rewrite bool_decide_eq_false_2. Qed.
Lemma get_merged h chain st : JMap.get h (foldl merge_item st chain).1.1 = foldl (merge_at h) (JMap.get h st.1.1) chain.
Proof.
  revert st. induction chain as [|i l IH]; intros [[m a] d]; [done|]. cbn [foldl]. rewrite IH. f_equal. unfold merge_at, merge_item. simpl.
  case_bool_decide as Hh.
  - subst h. destruct (JMap.get (ci_txHash i) m); simpl; by rewrite JMap.get_set_eq.
  - destruct (JMap.get (ci_txHash i) m); simpl; rewrite JMap.get_set_ne; done.
Qed.
(** The row is the base's, with the last status the chain reports. *)
Definition is_update (e : TxHistoryEntry) (i : ChainHistoryItem) (x : TxHistoryEntry) : Prop := ∃ s, x = set_stealth s (set_chain (Some (ci_status i)) e).
Lemma merged_present h e chain :
  match last_item h chain with
  | None => foldl (merge_at h) (Some e) chain = Some e
  | Some i => ∃ x, foldl (merge_at h) (Some e) chain = Some x ∧ is_update e i x
  end.
Proof.
  unfold last_item. induction chain as [|i l IH] using rev_ind; [done|]. rewrite foldl_app, rev_app_distr. cbn [rev app List.find foldl].
  case_bool_decide as Hh.
  - rewrite (merge_at_hit _ _ _ Hh). destruct (List.find _ (rev l)) as [j|]; [destruct IH as (x & -> & s & ->)|rewrite IH]; (eexists; split; [done|]; by eexists).
  - rewrite (merge_at_miss _ _ _ Hh). exact IH.
Qed.
Lemma find_app_r {A} (f : A → bool) l1 l2 : List.find f (l1 ++ l2) = match List.find f l1 with Some x => Some x | None => List.find f l2 end.
Proof. induction l1 as [|x l1 IH]; simpl; [done|]. by destruct (f x). Qed.
Lemma merged_absent h chain :
  match first_item h chain, last_item h chain with
  | Some i0, Some i => ∃ x, foldl (merge_at h) None chain = Some x ∧ is_update (row_of_item i0) i x
  | _, _ => foldl (merge_at h) None chain = None ∧ first_item h chain = None ∧ last_item h chain = None
  end.
Proof.
  induction chain as [|i l IH]; [done|]. cbn [foldl]. unfold first_item at 1 2. cbn [List.find]. case_bool_decide as Hh.
  - rewrite (merge_at_hit _ _ _ Hh). pose proof (merged_present h (row_of_item i) l) as Hp. unfold last_item in *. cbn [rev].
    rewrite (find_app_r _ (rev l)). destruct (List.find _ (rev l)) as [j|]; [exact Hp|]. cbn [List.find]. rewrite bool_decide_eq_true_2 by done.
    exists (row_of_item i). split; [done|]. by exists (ci_stealthAddress i).
  - rewrite (merge_at_miss _ _ _ Hh). unfold first_item, last_item in *. cbn [rev]. rewrite (find_app_r _ (rev l)). cbn [List.find]. rewrite bool_decide_eq_false_2 by done.
    destruct (List.find _ l) as [i0|], (List.find _ (rev l)) as [j|]; exact IH.
Qed.

Lemma merged_counts chain m a d : let '(_, a', d') := foldl merge_item (m, a, d) chain in a' + d' = a + d + Z.of_nat (length chain).
Proof.
  revert m a d. induction chain as [|i l IH]; intros m a d; cbn [foldl length]; [lia|]. unfold merge_item at 2.
  destruct (JMap.get (ci_txHash i) m) as [e|]; match goal with |- context [foldl merge_item (?m', ?a', ?d') l] => pose proof (IH m' a' d') as H end;
    destruct (foldl merge_item _ l) as [[? ?] ?]; lia.
Qed.

Lemma newest_first_sorted l : Sorted (λ a b, th_timestamp b <= th_timestamp a) (newest_first l).
Proof.
  pose proof (sort_by_sorted (λ e, - th_timestamp e) l) as H. fold (newest_first l) in H.
  induction H as [|x k Hs IH Hx]; constructor; [done|]. destruct Hx; constructor. lia.
Qed.

(** Reconciliation rebuilds history from the chain.  The result is sorted with
    the newest first and has one row per transaction: a local row keeps all its fields and
    takes the last status the chain reports, a transaction only the chain knows becomes a row
    with the fields of its first item and its last status, a row the chain does not report is
    kept with its own status, and nothing else appears.  Added and merged items are counted. *)
Theorem reconcile_rebuilds_history local chain h (Hne : h ≠ "") :
  let r := reconcileHistory local chain in
  NoDup (hashes (rh_entries r)) ∧ Sorted (λ a b, th_timestamp b <= th_timestamp a) (rh_entries r) ∧
  rh_addedCount r + rh_dedupedCount r = Z.of_nat (length chain) ∧
  match last_local h local, last_item h chain with
  | Some e, None => seeded e ∈ rh_entries r
  | Some e, Some i => ∃ x, x ∈ rh_entries r ∧ is_update e i x
  | None, Some i => ∃ i0 x, first_item h chain = Some i0 ∧ x ∈ rh_entries r ∧ is_update (row_of_item i0) i x
  | None, None => h ∉ hashes (rh_entries r)
  end.
Proof.
  unfold reconcileHistory. pose proof (fold_filed chain (seed local, 0, 0) (seed_filed local)) as Hf. pose proof (merged_counts chain (seed local) 0 0) as Hc.
  pose proof (get_merged h chain (seed local, 0, 0)) as Hg. cbn [fst] in Hg. rewrite get_seed in Hg.
  destruct (foldl merge_item (seed local, 0, 0) chain) as [[m a] d]. cbn [fst] in Hf, Hg. cbn [rh_entries rh_addedCount rh_dedupedCount].
  assert (Hin : ∀ x, JMap.get h m = Some x → x ∈ newest_first (JMap.vals m)).
  { intros x Hx%JMap.get_Some_elem. unfold newest_first. rewrite sort_by_perm. apply list_elem_of_fmap. by exists (h, x). }
  split; [eapply NoDup_Permutation_proper; [apply hashes_perm, sort_by_perm|]; by apply filed_hashes|].
  split; [apply newest_first_sorted|]. split; [lia|].
  destruct (last_local h local) as [e|]; cbn [fmap option_fmap option_map] in Hg.
  - pose proof (merged_present h (seeded e) chain) as Hp. destruct (last_item h chain) as [i|]; [|rewrite Hp in Hg; by apply Hin].
    destruct Hp as (x & Hx & s & ->). rewrite Hx in Hg. apply Hin in Hg. eexists. split; [exact Hg|]. by exists s.
  - pose proof (merged_absent h chain) as Hp. destruct (first_item h chain) as [i0|], (last_item h chain) as [i|]; try (by destruct Hp as (_ & ? & ?)).
    + destruct Hp as (x & Hx & Hu). rewrite Hx in Hg. exists i0, x. auto.
    + destruct Hp as (Hx & _). rewrite Hx in Hg. intros Hh. unfold newest_first in Hh. rewrite (hashes_perm _ _ (sort_by_perm _ _)) in Hh.
      apply list_elem_of_omap in Hh as (x & ([k y] & -> & Hxin)%list_elem_of_fmap & Hhx). destruct Hf as [Hw Hf]. pose proof (Hf k y Hxin) as Hk. simpl in Hhx. rewrite Hk in Hhx.
      assert (k = h) as -> by (destruct k; simpl in Hhx; congruence). apply (JMap.elem_get h y m Hw) in Hxin. congruence.
Qed.

(** ** One payment, submitted and polled *)
Definition toy_push : TxHistoryPushInput := mkPush "testnet" KSent "GDEST" "10" None None None None None None.
Definition toy_m (now : Z) : Moment := mkMoment now "r".
Definition toy_empty : Tracker := mkTracker [] History.empty [].
Definition toy_submitted : Tracker := markPendingTx (toy_m 0) "aa" "testnet" PSend (Some toy_push) toy_empty.
Definition toy_polled : Tracker := tick (toy_m 5) toy_submitted.
Definition toy_confirmed : Tracker := submission_end (toy_m 10) "aa" Included toy_polled.

Lemma toy_empty_wf : track_wf toy_empty.
Proof. split; (split; [apply JMap.wf_nil|by intros ? ? ?%elem_of_nil]). Qed.
Lemma toy_steps : rtc (track_step 300000) toy_empty toy_confirmed.
Proof.
  apply (rtc_l _ _ toy_submitted); [apply step_submit|]. apply (rtc_l _ _ toy_polled); [apply step_tick|].
  apply (rtc_l _ _ toy_confirmed); [exact (step_end 300000 (toy_m 10) "aa" Included toy_polled)|]. apply rtc_refl.
Qed.

Lemma tracking_stays_wellformed_witness : track_wf toy_confirmed ∧ length (tk_pending toy_confirmed) = 1%nat.
Proof. split; [exact (tracking_stays_wellformed 300000 toy_empty toy_confirmed toy_empty_wf toy_steps)|reflexivity]. Defined.

Definition toy_entry : PendingTxEntry := mkPending "aa" "testnet" PSend 0 PPending None None (Some toy_push).
Lemma toy_submitted_wf : track_wf toy_submitted.
Proof. eapply (step_wf 300000); [apply step_submit|apply toy_empty_wf]. Qed.
Lemma unresolved_stays_tracked_witness : tracked toy_polled "aa" toy_entry.
Proof.
  destruct (unresolved_stays_tracked 300000 toy_submitted toy_polled "aa" toy_entry toy_submitted_wf (step_tick _ _ _) eq_refl) as [H|(_ & H & _)]; [exact H|discriminate H].
Defined.
Lemma submission_end_is_recorded_witness :
  rows_say (tk_history (submission_end (toy_m 10) "aa" Included toy_submitted)) "aa" CConfirmed.
Proof. exact (proj1 (proj2 (submission_end_is_recorded (toy_m 10) toy_submitted "aa" toy_entry toy_push Included toy_submitted_wf eq_refl eq_refl eq_refl ltac:(discriminate)))). Defined.
Lemma toy_confirmed_wf : track_wf toy_confirmed.
Proof.
  apply (step_wf 300000 toy_polled); [exact (step_end 300000 (toy_m 10) "aa" Included toy_polled)|].
  apply (step_wf 300000 toy_submitted); [apply step_tick|apply toy_submitted_wf].
Qed.
Lemma late_answer_overrides_outcome_witness :
  pt_status <$> JMap.get "aa" (tk_pending toy_confirmed) = Some PConfirmed ∧
  pt_status <$> JMap.get "aa" (tk_pending (answer (toy_m 300001) 300000 0 (Some CSNotFound) toy_confirmed)) = Some PTimedOut.
Proof.
  split; [reflexivity|].
  exact (proj1 (late_answer_overrides_outcome (toy_m 300001) 300000 toy_confirmed 0 toy_entry _ toy_confirmed_wf eq_refl eq_refl (or_introl eq_refl) eq_refl)).
Defined.
Definition toy_item (s : TxHistoryChainStatus) : ChainHistoryItem := mkItem "bb" "testnet" KReceived "G…" "5" "0" "XLM" None None 7 s.
Lemma reconcile_rebuilds_history_witness :
  ∃ x, x ∈ rh_entries (reconcileHistory [] [toy_item CPending; toy_item CFailed]) ∧ is_update (row_of_item (toy_item CPending)) (toy_item CFailed) x.
Proof.
  destruct (reconcile_rebuilds_history [] [toy_item CPending; toy_item CFailed] "bb" ltac:(discriminate)) as (_ & _ & _ & H). cbn in H.
  destruct H as (i0 & x & [= <-] & Hx & Hu). exists x. split; [exact Hx|exact Hu].
Defined.
