(* ===== verification/WebNotes.v ===== *)
(** * Web application: pool notes, their store and the guards around them

    [frontend/src/lib/decimalParser.ts], [frontend/src/lib/poolNotes.ts],
    [frontend/src/store/poolNoteStore.ts],
    [frontend/src/lib/depositBackupGate.ts] and [frontend/src/lib/proofRateLimiter.ts].  Random
    bytes and the clock are arguments; encryption of the persisted store and the browser's
    session storage beyond its one value are left out. *)
From Stdlib Require Import Ascii.
From stdpp Require Import base tactics list sets strings relations.
From Stdlib Require Import ZArith Lia.
From S2P Require Import Prelude JsString JsMap Json Bytes Merkle PubValidate RelPayload SdkCodec SdkPool.
Open Scope string_scope.
Open Scope list_scope.
Open Scope Z_scope.

(** ** Amounts: the browser's copy of the SDK's parser, statement by statement *)
Module DecimalParser.
Definition MAX_DECIMALS : nat := Amount.MAX_DECIMALS.
Definition parseXlmToStroops : string → res Z := Amount.parseXlmToStroops.
Definition parseHorizonBalanceToStroops : option string → Z := Amount.parseHorizonBalanceToStroops.
Definition formatStroopsToXlm : Z → string := Amount.formatStroopsToXlm.
End DecimalParser.

(** ** Notes *)
Module WebNote.
(** Scope, index and creation time are JavaScript numbers: a restored note may hold any. *)
Record PoolNote : Type := mkNote {
  cluster : string;
  poolId : option string;
  account : option string;
  value : string;
  scope : jval;
  leafIndex : jval;
  nullifier : string;
  secret : string;
  commitment : string;
  spent : bool;
  createdAt : jval;
}.
Definition with_account (a : option string) (n : PoolNote) : PoolNote :=
  mkNote (cluster n) (poolId n) a (value n) (scope n) (leafIndex n) (nullifier n) (secret n) (commitment n) (spent n) (createdAt n).
Definition as_spent (n : PoolNote) : PoolNote :=
  mkNote (cluster n) (poolId n) (account n) (value n) (scope n) (leafIndex n) (nullifier n) (secret n) (commitment n) true (createdAt n).

(** [hashFields(poseidon, inputs)], [toHex32], [randomFieldElement], ... of the browser's copy *)
Definition hashFields (poseidon : list Z → Z) (inputs : list Z) : Z := poseidon inputs.
Definition toHex32 (v : Z) : string := "0x" +:+ padStart0 64 (bigint_toString 16 v).
Definition shift_in (v : Z) (b : byte) : Z := Z.shiftl v 8 + Z.of_N (Byte.to_N b).
Definition randomFieldElement (bytes : list byte) : string := bigint_toString 10 (foldl shift_in 0 bytes mod BN254_R).
Definition newNoteSecrets (draw1 draw2 : list byte) : string * string := (randomFieldElement draw1, randomFieldElement draw2).
Record DerivedDeposit : Type := mkDerived { de_label : Z; de_precommitment : Z; de_commitment : Z; de_nullifierHash : Z }.
Definition deriveDeposit (poseidon : list Z → Z) (value scope leafIndex nullifier secret : Z) : DerivedDeposit :=
  let h := hashFields poseidon in
  let label := h [scope; leafIndex] in
  let precommitment := h [nullifier; secret] in
  mkDerived label precommitment (h [value; label; precommitment]) (h [nullifier]).
Fixpoint sum_from (sum : Z) (notes : list PoolNote) : res Z :=
  match notes with
  | [] => Ok sum
  | n :: rest => v ← BigInt (value n); sum_from (sum + v) rest
  end.
Definition unspentTotal (notes : list PoolNote) : res Z := sum_from 0 (List.filter (λ n, negb (spent n)) notes).
End WebNote.

(** ** The store *)
Module NoteStore.
Import WebNote.
Record PoolNoteState : Type := mkState { notes : list PoolNote; activeAccount : option string }.
Definition initial : PoolNoteState := mkState [] None.
Record ImportConflict : Type := mkConflict { spentPreserved : Z; imported : Z }.
(** [a === b] of two numbers *)
Definition num_eq (a b : jval) : bool :=
  match a, b with
  | JNum x, JNum y => x =? y
  | JFlt x, JFlt y => String.eqb x y && negb (String.eqb x "NaN")
  | _, _ => false
  end.
Definition or_empty (o : option string) : string := default "" o.
Definition nullish (a b : option string) : option string := match a with Some x => Some x | None => b end.

Definition noteKey (n : PoolNote) : string := cluster n +:+ ":" +:+ or_empty (poolId n) +:+ ":" +:+ js_String (leafIndex n).
Definition setActiveAccount (a : option string) (s : PoolNoteState) : PoolNoteState := mkState (notes s) a.
Definition same_note (e n : PoolNote) : bool :=
  String.eqb (cluster n) (cluster e) && String.eqb (or_empty (poolId n)) (or_empty (poolId e)) &&
  num_eq (leafIndex n) (leafIndex e) && String.eqb (or_empty (account n)) (or_empty (account e)).
Definition addNote (note : PoolNote) (s : PoolNoteState) : PoolNoteState :=
  let enriched := with_account (nullish (account note) (activeAccount s)) note in
  let without := List.filter (λ n, negb (same_note enriched n)) (notes s) in
  mkState (without ++ [enriched]) (activeAccount s).
Definition spends (c : string) (pool : option string) (leaf : jval) (active : option string) (n : PoolNote) : bool :=
  String.eqb (cluster n) c && String.eqb (or_empty (poolId n)) (or_empty pool) && num_eq (leafIndex n) leaf &&
  String.eqb (or_empty (account n)) (or_empty active).
Definition markSpent (c : string) (pool : option string) (leaf : jval) (s : PoolNoteState) : PoolNoteState :=
  mkState ((λ n, if spends c pool leaf (activeAccount s) n then as_spent n else n) <$> notes s) (activeAccount s).
(** [!acct || !n.account || n.account === acct] *)
Definition visible (acct : option string) (n : PoolNote) : bool :=
  String.eqb (or_empty acct) "" || String.eqb (or_empty (account n)) "" || String.eqb (or_empty (account n)) (or_empty acct).
Definition getForCluster (c : string) (s : PoolNoteState) : list PoolNote :=
  List.filter (λ n, String.eqb (cluster n) c && visible (activeAccount s) n) (notes s).
Definition exportNotes (s : PoolNoteState) : list PoolNote := List.filter (visible (activeAccount s)) (notes s).

(** One turn of the merge *)
Definition merge (acct : option string) (st : list (string * PoolNote) * ImportConflict) (raw : PoolNote) : list (string * PoolNote) * ImportConflict :=
  let '(byKey, counts) := st in
  let incoming := with_account (nullish (account raw) acct) raw in
  let key := noteKey incoming in
  let existing := JMap.get key byKey in
  let was_spent := match existing with Some e => spent e | None => false end in
  if was_spent && negb (spent incoming) then (byKey, mkConflict (spentPreserved counts + 1) (imported counts))
  else (JMap.set key (match existing with Some e => if spent e then e else incoming | None => incoming end) byKey,
        mkConflict (spentPreserved counts) (imported counts + 1)).
Definition seeded (l : list PoolNote) : list (string * PoolNote) := foldl (λ m n, JMap.set (noteKey n) n m) [] l.
Definition importNotes (incoming : list PoolNote) (s : PoolNoteState) : ImportConflict * PoolNoteState :=
  let '(byKey, counts) := foldl (merge (activeAccount s)) (seeded (notes s), mkConflict 0 0) incoming in
  (counts, mkState (JMap.vals byKey) (activeAccount s)).
(** [cluster]: only the notes of one; an empty text counts as absent. *)
Definition clear (onlyCluster : option string) (allAccounts : bool) (s : PoolNoteState) : PoolNoteState :=
  if allAccounts then mkState [] (activeAccount s)
  else mkState (List.filter (λ n, negb (visible (activeAccount s) n) ||
                   (negb (String.eqb (or_empty onlyCluster) "") && negb (String.eqb (cluster n) (or_empty onlyCluster)))) (notes s)) (activeAccount s).

(** *** Identity *)
Definition note_id (n : PoolNote) : string * string * jval * string := (cluster n, or_empty (poolId n), leafIndex n, or_empty (account n)).
Definition numeric (n : PoolNote) : Prop := NoteCodec.is_finite (leafIndex n) = true.

Lemma num_eq_spec a b : NoteCodec.is_finite a = true → num_eq a b = true ↔ b = a.
Proof.
  destruct a as [| | |x|t| | |]; try done; intros Ht; destruct b as [| | |y|u| | |]; simpl; try (split; [done|congruence]).
  - rewrite Z.eqb_eq. split; congruence.
  - unfold NoteCodec.is_finite in Ht. rewrite andb_true_iff, negb_true_iff, String.eqb_eq, String.eqb_neq. split; [by intros [-> _]|].
    intros [= ->]. split; [done|]. intros ->. done.
Qed.
Lemma same_note_spec e n : numeric e → same_note e n = true ↔ note_id n = note_id e.
Proof.
  intros He. unfold same_note, note_id. rewrite !andb_true_iff, !String.eqb_eq. destruct (num_eq (leafIndex n) (leafIndex e)) eqn:E.
  - assert (Hx : leafIndex n = leafIndex e); [|rewrite Hx; split; [by intros [[[-> ->] _] ->]|by intros [= -> -> ->]]].
    unfold numeric in He. destruct (leafIndex n) as [| | |x|t| | |], (leafIndex e) as [| | |y|u| | |]; try done; simpl in E.
    + apply Z.eqb_eq in E. congruence.
    + apply andb_true_iff in E as [E%String.eqb_eq _]. congruence.
  - split; [by intros [[_ ?] _]|]. intros [= H1 H2 H3 H4]. rewrite H3 in E. by rewrite (proj2 (num_eq_spec _ _ He) eq_refl) in E.
Qed.
Lemma note_id_key n m : note_id n = note_id m → noteKey n = noteKey m.
Proof. unfold note_id, noteKey. by intros [= -> -> -> _]. Qed.
(** Distinct under a function of the identity, distinct. *)
Lemma NoDup_finer {A B D} (f : A → B) (g : A → D) (l : list A) : (∀ x y, g x = g y → f x = f y) → NoDup (f <$> l) → NoDup (g <$> l).
Proof.
  intros Hfg. induction l as [|x l IH]; simpl; [by constructor|]. intros [Hx Hl]%NoDup_cons. apply NoDup_cons. split; [|by apply IH].
  intros (y & Hy & Hin)%list_elem_of_fmap. apply Hx, list_elem_of_fmap. eauto.
Qed.
Lemma NoDup_fmap_filter {A B} (f : A → B) (P : A → bool) (l : list A) : NoDup (f <$> l) → NoDup (f <$> List.filter P l).
Proof.
  induction l as [|x l IH]; simpl; [done|]. intros [Hx Hl]%NoDup_cons. destruct (P x); [|by apply IH]. simpl. apply NoDup_cons. split; [|by apply IH].
  intros (y & Hy & Hin)%list_elem_of_fmap. apply Hx, list_elem_of_fmap. exists y. split; [done|].
  apply list_elem_of_In in Hin. apply filter_In in Hin as [Hin _]. by apply list_elem_of_In.
Qed.

(** *** The merge *)
Record merged (local done : list PoolNote) (acct : option string) (byKey : list (string * PoolNote)) (counts : ImportConflict) : Prop := {
  mg_wf : JMap.wf byKey;
  mg_keyed k v : (k, v) ∈ byKey → k = noteKey v;
  mg_counts : spentPreserved counts + imported counts = Z.of_nat (length done);
  mg_spent n : n ∈ local → spent n = true → NoDup (noteKey <$> local) → JMap.get (noteKey n) byKey = Some n;
  mg_local n : n ∈ local → noteKey n ∈ JMap.keys byKey;
  mg_done r : r ∈ done → ∃ v, JMap.get (noteKey r) byKey = Some v ∧ (spent r = true → spent v = true);
  mg_source k v : (k, v) ∈ byKey → v ∈ local ∨ ∃ r, r ∈ done ∧ v = with_account (nullish (account r) acct) r;
}.
Lemma seed_merged l acct : merged l [] acct (seeded l) (mkConflict 0 0).
Proof.
  unfold seeded. induction l as [|n l IH] using rev_ind; [split; try done; try (by intros ? ?%elem_of_nil); try (by intros ? ? ?%elem_of_nil); by constructor|].
  rewrite foldl_app. simpl. destruct IH as [Hwf Hk Hc Hs Hl Hd Hsrc]. split; [by apply JMap.wf_set| | | | | |].
  - intros k v [[= -> ->]|Hin]%JMap.elem_of_set; eauto.
  - done.
  - intros m Hm Hsp Hnd. rewrite fmap_app in Hnd. apply NoDup_app in Hnd as (Hnd & Hdis & _).
    apply elem_of_app in Hm as [Hm| ->%list_elem_of_singleton]; [|apply JMap.get_set_eq].
    rewrite JMap.get_set_ne; [by apply Hs|]. intros Hkey. apply (Hdis (noteKey m)); [by apply list_elem_of_fmap_2|]. rewrite Hkey. by apply list_elem_of_singleton.
  - intros m Hm. apply JMap.elem_of_keys_set. apply elem_of_app in Hm as [Hm| ->%list_elem_of_singleton]; auto.
  - by intros r ?%elem_of_nil.
  - intros k v [[= -> ->]|Hin]%JMap.elem_of_set; [left; set_solver|]. destruct (Hsrc _ _ Hin) as [?|(r & ?%elem_of_nil & _)]; [left; set_solver|done].
Qed.
Lemma merge_merged l done' acct st r :
  merged l done' acct st.1 st.2 → let st' := merge acct st r in merged l (done' ++ [r]) acct st'.1 st'.2.
Proof.
  destruct st as [byKey counts]. simpl. intros [Hwf Hk Hc Hs Hl Hd Hsrc]. change (noteKey (with_account _ r)) with (noteKey r).
  destruct (match JMap.get (noteKey r) byKey with Some e => spent e | None => false end && negb (spent r)) eqn:E; simpl.
  - apply andb_true_iff in E as [E1 E2%negb_true_iff]. destruct (JMap.get (noteKey r) byKey) as [e|] eqn:Hg; [|done].
    split; simpl; try done; [rewrite length_app; simpl; lia| |].
    + intros r' [Hr'| ->%list_elem_of_singleton]%elem_of_app; [by apply Hd|]. exists e. rewrite E2. done.
    + intros k v Hin. destruct (Hsrc k v Hin) as [?|(r' & ? & ?)]; [by left|]. right. exists r'. split; [set_solver|done].
  - set (v := match JMap.get (noteKey r) byKey with Some e => if spent e then e else _ | None => _ end).
    assert (Hv : noteKey v = noteKey r ∧ (spent r = true → spent v = true) ∧
      (v ∈ l ∨ ∃ r', r' ∈ done' ++ [r] ∧ v = with_account (nullish (account r') acct) r') ∧
      (∀ e, JMap.get (noteKey r) byKey = Some e → spent e = true → v = e)).
    { subst v. destruct (JMap.get (noteKey r) byKey) as [e|] eqn:Hg; [destruct (spent e) eqn:Es|].
      - apply JMap.get_Some_elem in Hg. split; [symmetry; by apply Hk|]. split; [done|]. split; [|intros e' [= ->]; done].
        destruct (Hsrc _ _ Hg) as [?|(r' & ? & ?)]; [by left|]. right. exists r'. split; [set_solver|done].
      - split; [done|]. split; [done|]. split; [right; exists r; split; [set_solver|done]|]. intros e' [= ->] ?. congruence.
      - split; [done|]. split; [done|]. split; [right; exists r; split; [set_solver|done]|done]. }
    destruct Hv as (Hkey & Hsp & Hfrom & Hkeep). clearbody v. split; simpl.
    + by apply JMap.wf_set.
    + intros k u [[= -> ->]|Hin]%JMap.elem_of_set; eauto.
    + rewrite length_app. simpl. lia.
    + intros n Hn Hns Hnd. specialize (Hs n Hn Hns Hnd). destruct (decide (noteKey n = noteKey r)) as [Heq|]; [|by rewrite JMap.get_set_ne].
      rewrite Heq in *. rewrite JMap.get_set_eq. f_equal. by apply Hkeep.
    + intros n Hn. apply JMap.elem_of_keys_set. right. by apply Hl.
    + intros r' Hr'. destruct (decide (noteKey r' = noteKey r)) as [Heq|Hne].
      * rewrite Heq. exists v. rewrite JMap.get_set_eq. split; [done|]. intros Hr's. apply elem_of_app in Hr' as [Hr'| ->%list_elem_of_singleton]; [|by apply Hsp].
        destruct (Hd _ Hr') as (e & He & Hes). rewrite Heq in He. specialize (Hes Hr's). by rewrite (Hkeep e He Hes).
      * rewrite JMap.get_set_ne by done. apply elem_of_app in Hr' as [Hr'| ->%list_elem_of_singleton]; [by apply Hd|done].
    + intros k u [[= -> ->]|Hin]%JMap.elem_of_set; [done|]. destruct (Hsrc k u Hin) as [?|(r' & ? & ?)]; [by left|]. right. exists r'. split; [set_solver|done].
Qed.
Lemma import_merged incoming s :
  let '(byKey, counts) := foldl (merge (activeAccount s)) (seeded (notes s), mkConflict 0 0) incoming in
  merged (notes s) incoming (activeAccount s) byKey counts.
Proof.
  assert (H : ∀ d st, merged (notes s) d (activeAccount s) st.1 st.2 →
    let st' := foldl (merge (activeAccount s)) st incoming in merged (notes s) (d ++ incoming) (activeAccount s) st'.1 st'.2).
  { induction incoming as [|r l IH]; intros d st Hst; simpl; [by rewrite app_nil_r|]. rewrite (cons_middle r d l), app_assoc.
    apply IH. by apply merge_merged. }
  specialize (H [] (seeded (notes s), mkConflict 0 0) (seed_merged _ _)). simpl in H. by destruct (foldl _ _ _).
Qed.

(** A restored backup is merged without losing anything: when no two local notes
    share a key, every note marked spent here stays exactly as it is, every local and every
    imported key is in the store, an imported note that is spent is spent afterwards, every
    note comes from here or from the import, and the two counts account for every note. *)
Theorem import_is_conservative incoming s (Hnd : NoDup (noteKey <$> notes s)) :
  let '(counts, s') := importNotes incoming s in
  spentPreserved counts + imported counts = Z.of_nat (length incoming) ∧
  NoDup (noteKey <$> notes s') ∧
  (∀ n, n ∈ notes s → spent n = true → n ∈ notes s') ∧
  (∀ n, n ∈ notes s ∨ n ∈ incoming → ∃ v, v ∈ notes s' ∧ noteKey v = noteKey n ∧ (spent n = true → spent v = true)) ∧
  (∀ v, v ∈ notes s' → v ∈ notes s ∨ ∃ r, r ∈ incoming ∧ v = with_account (nullish (account r) (activeAccount s)) r).
Proof.
  unfold importNotes. pose proof (import_merged incoming s) as H. destruct (foldl _ _ _) as [byKey counts].
  destruct H as [Hwf Hk Hc Hs Hl Hd Hsrc]. simpl. assert (Hin : ∀ v, v ∈ JMap.vals byKey ↔ (noteKey v, v) ∈ byKey).
  { intros v. unfold JMap.vals. rewrite list_elem_of_fmap. split; [intros ([k u] & -> & Hu); simpl; by rewrite <-(Hk _ _ Hu)|intros Hv; by exists (noteKey v, v)]. }
  assert (Hget : ∀ k v, JMap.get k byKey = Some v → v ∈ JMap.vals byKey ∧ noteKey v = k).
  { intros k v Hg%JMap.get_Some_elem. rewrite Hin, <-(Hk _ _ Hg). done. }
  split_and!; [done| | | |].
  - replace (noteKey <$> JMap.vals byKey) with (JMap.keys byKey); [done|]. unfold JMap.keys, JMap.vals. rewrite <-list_fmap_compose.
    apply list_fmap_ext. intros i [k v] Hkv. simpl. eapply Hk, list_elem_of_lookup_2, Hkv.
  - intros n Hn Hns. by apply (Hget (noteKey n)), Hs.
  - intros n [Hn|Hn].
    + destruct (JMap.get (noteKey n) byKey) as [v|] eqn:Hg; [|by apply JMap.get_None_keys in Hg; destruct Hg; apply Hl].
      exists v. destruct (Hget _ _ Hg) as [? ?]. split_and!; [done|done|]. intros Hns. rewrite (Hs n Hn Hns Hnd) in Hg. by injection Hg as <-.
    + destruct (Hd n Hn) as (v & Hg & Hsp). exists v. destruct (Hget _ _ Hg). done.
  - intros v Hv%Hin. by apply (Hsrc (noteKey v)).
Qed.

(** *** Runs of the store *)
Inductive Op : Type :=
  | OSetAccount (a : option string)
  | OAdd (n : PoolNote)
  | OSpend (c : string) (pool : option string) (leaf : jval)
  | OImport (l : list PoolNote)
  | OClear (onlyCluster : option string) (allAccounts : bool).
Definition run_op (s : PoolNoteState) (o : Op) : PoolNoteState :=
  match o with
  | OSetAccount a => setActiveAccount a s
  | OAdd n => addNote n s
  | OSpend c pool leaf => markSpent c pool leaf s
  | OImport l => (importNotes l s).2
  | OClear c all => clear c all s
  end.
(** The notes an operation brings have an index that is a number. *)
Definition op_numeric (o : Op) : Prop :=
  match o with OAdd n => numeric n | OImport l => Forall numeric l | _ => True end.
Definition store_ok (s : PoolNoteState) : Prop := NoDup (note_id <$> notes s) ∧ Forall numeric (notes s).

Lemma filter_ok (P : PoolNote → bool) s a : store_ok s → store_ok (mkState (List.filter P (notes s)) a).
Proof.
  intros [Hn Hf]. split; simpl; [by apply NoDup_fmap_filter|]. rewrite Forall_forall in *.
  intros n Hin. apply list_elem_of_In, filter_In in Hin as [Hin _]. apply Hf. by apply list_elem_of_In.
Qed.
Lemma addNote_ok n s : numeric n → store_ok s → store_ok (addNote n s).
Proof.
  intros Hnum Hs. unfold addNote. set (e := with_account _ n). assert (He : numeric e) by done.
  destruct (filter_ok (λ m, negb (same_note e m)) s (activeAccount s) Hs) as [Hn Hf]. simpl in Hn, Hf. split; simpl.
  - rewrite fmap_app. apply NoDup_app. split; [done|]. split; [|apply NoDup_singleton].
    intros i (m & -> & Hm)%list_elem_of_fmap Heq%list_elem_of_singleton. apply list_elem_of_In, filter_In in Hm as [_ Hm%negb_true_iff].
    apply (same_note_spec e m He) in Heq. congruence.
  - apply Forall_app. auto.
Qed.
Lemma import_ok l s : Forall numeric l → store_ok s → store_ok (importNotes l s).2.
Proof.
  intros Hl [Hn Hf]. unfold importNotes. pose proof (import_merged l s) as H. destruct (foldl _ _ _) as [byKey counts].
  destruct H as [Hwf Hk _ _ _ _ Hsrc]. simpl. split; simpl.
  - apply (NoDup_finer noteKey); [apply note_id_key|]. replace (noteKey <$> JMap.vals byKey) with (JMap.keys byKey); [done|].
    unfold JMap.keys, JMap.vals. rewrite <-list_fmap_compose. apply list_fmap_ext. intros i [k v] Hkv. simpl. eapply Hk, list_elem_of_lookup_2, Hkv.
  - apply Forall_forall. intros v Hv. unfold JMap.vals in Hv. apply list_elem_of_fmap in Hv as ([k u] & -> & Hu).
    rewrite Forall_forall in Hf, Hl. destruct (Hsrc _ _ Hu) as [?|(r & Hr & ->)]; [by apply Hf|]. by apply Hl in Hr.
Qed.
Lemma markSpent_ok c pool leaf s : store_ok s → store_ok (markSpent c pool leaf s).
Proof.
  intros [Hn Hf]. unfold markSpent. split; simpl.
  - replace (note_id <$> _) with (note_id <$> notes s); [done|]. rewrite <-list_fmap_compose. apply list_fmap_ext. intros i n _. simpl. by destruct (spends _ _ _ _ _).
  - apply Forall_fmap. eapply Forall_impl; [exact Hf|]. intros n Hnum. simpl. by destruct (spends _ _ _ _ _).
Qed.
Lemma run_op_ok s o : op_numeric o → store_ok s → store_ok (run_op s o).
Proof.
  destruct o; simpl; intros Ho Hs; [done|by apply addNote_ok|by apply markSpent_ok|by apply import_ok|].
  unfold clear. destruct allAccounts; [split; by constructor|]. by apply filter_ok.
Qed.

(** Whatever the application does, no note is stored twice for one account. *)
Lemma store_ok_always ops : Forall op_numeric ops → store_ok (foldl run_op initial ops).
Proof.
  intros H. assert (Hi : store_ok initial) by (split; by constructor). revert Hi. generalize initial.
  induction H as [|o ops Ho _ IH]; intros s Hs; simpl; [done|]. by apply IH, run_op_ok.
Qed.

(** *** Accounts *)
Definition owned_by (b : string) (n : PoolNote) : bool := String.eqb (or_empty (account n)) b.
(** What the interface does for the active account: notes it brings are nobody's yet or its own. *)
Definition for_account (a : string) (o : Op) : Prop :=
  match o with
  | OSetAccount _ | OImport _ => False
  | OAdd n => account n = None ∨ account n = Some a
  | OSpend _ _ _ => True
  | OClear _ all => all = false
  end.
Lemma filter_filter_owned b (P : PoolNote → bool) l :
  (∀ n, owned_by b n = true → P n = true) → List.filter (owned_by b) (List.filter P l) = List.filter (owned_by b) l.
Proof.
  intros HP. induction l as [|n l IH]; simpl; [done|]. destruct (owned_by b n) eqn:E; [rewrite (HP n E); simpl; by rewrite E, IH|].
  destruct (P n); simpl; [by rewrite E|done].
Qed.
Lemma other_account_kept a b s o :
  activeAccount s = Some a → b ≠ a → b ≠ "" → a ≠ "" → for_account a o →
  activeAccount (run_op s o) = Some a ∧ List.filter (owned_by b) (notes (run_op s o)) = List.filter (owned_by b) (notes s).
Proof.
  intros Ha Hba Hb Ha0. unfold owned_by. destruct o as [?|n|c pool leaf|l|c all]; simpl; intros Ho; try done.
  - split; [done|]. rewrite List.filter_app. simpl. assert (Hacc : nullish (account n) (activeAccount s) = Some a) by (rewrite Ha; by destruct Ho as [-> | ->]).
    rewrite Hacc. simpl. rewrite (proj2 (String.eqb_neq a b)) by done. rewrite app_nil_r. apply filter_filter_owned.
    intros m Hm%String.eqb_eq. apply negb_true_iff, andb_false_iff. right. apply String.eqb_neq. unfold or_empty in *. simpl. congruence.
  - split; [done|]. rewrite Ha. induction (notes s) as [|n l IH]; simpl; [done|]. cbv beta in IH. destruct (spends c pool leaf (Some a) n) eqn:E; cbn [account as_spent].
    + apply andb_true_iff in E as [_ E%String.eqb_eq]. simpl in E. rewrite E, (proj2 (String.eqb_neq a b)) by done. exact IH.
    + destruct (String.eqb (or_empty (account n)) b); [|exact IH]. f_equal. exact IH.
  - subst all. split; [done|]. simpl. apply filter_filter_owned. intros m Hm%String.eqb_eq. rewrite Ha.
    apply orb_true_iff. left. unfold visible. apply negb_true_iff, orb_false_iff. change (or_empty (Some a)) with a. rewrite Hm, !orb_false_iff, !String.eqb_neq. done.
Qed.


Definition sample_note (acct : option string) (leaf : Z) : PoolNote :=
  mkNote "testnet" (Some "CPOOL") acct "1000000" (JNum 1) (JNum leaf) "7" "8" "0x01" false (JNum 0).

(** *** Notes from before accounts and pools were recorded *)
Definition legacy_note (c : string) (leaf : Z) (value nullifier : string) : PoolNote :=
  mkNote c None None value (JNum 1) (JNum leaf) nullifier "5" "0x01" false (JNum 0).
(** A note without an account is offered to every account and can be marked spent by none. *)
Lemma legacy_note_never_spent a n s c pool leaf :
  activeAccount s = Some a → a ≠ "" → account n = None → n ∈ notes s →
  n ∈ exportNotes s ∧ n ∈ notes (markSpent c pool leaf s) ∧ n ∈ getForCluster (cluster n) (markSpent c pool leaf s).
Proof.
  intros Ha Ha0 Hn Hin. assert (Hv : visible (Some a) n = true) by (unfold visible; rewrite Hn; simpl; by rewrite orb_true_r).
  assert (Hin' : n ∈ notes (markSpent c pool leaf s)).
  { simpl. apply list_elem_of_fmap. exists n. split; [|done]. assert (spends c pool leaf (activeAccount s) n = false) as ->; [|done].
    unfold spends. rewrite Ha, Hn. apply andb_false_iff. right. apply String.eqb_neq. simpl. congruence. }
  split_and!; [|done|]; apply list_elem_of_In, filter_In; (split; [by apply list_elem_of_In|]).
  - by rewrite Ha.
  - rewrite String.eqb_refl. simpl. by rewrite Ha.
Qed.
(** An import of nothing drops a note: two accounts, old notes with the same index. *)
Lemma import_drops_a_note :
  let s := mkState [with_account (Some "GA") (legacy_note "testnet" 3 "10" "7"); with_account (Some "GB") (legacy_note "testnet" 3 "20" "8")] (Some "GB") in
  store_ok s ∧ notes (importNotes [] s).2 = [with_account (Some "GB") (legacy_note "testnet" 3 "20" "8")].
Proof.
  split; [|reflexivity]. split; [|by repeat constructor]. cbn. apply NoDup_cons. split; [|apply NoDup_singleton]. intros H%list_elem_of_singleton. discriminate H.
Qed.
End NoteStore.

(** ** The backup gate before a deposit *)
Module DepositGate.
Definition upper_char (c : Ascii.ascii) : Ascii.ascii :=
  let n := code c in if (97 <=? n) && (n <=? 122) then char (n - 32) else c.
(** [toUpperCase] of text below 128 *)
Definition toUpperCase (s : string) : string := map_string upper_char s.
Record DepositBackupSession : Type := mkSession {
  id : string;
  cluster : string;
  depositor : string;
  amountXlm : string;
  valueStroops : string;
  commitmentHex : string;
  nullifierHex : string;
  secretHex : string;
  challengePrompt : string;
  expectedFragment : string;
  verified : bool;
  createdAt : Z;
}.
(** The session storage: the one item, [None] when it is absent or cannot be read back. *)
Definition Storage : Type := option DepositBackupSession.
Definition strip (p s : string) : string := if startsWith p s then drop_string (String.length p) s else s.
Definition slice_last (n : nat) (s : string) : string := drop_string (String.length s - n) s.
Definition saveDepositBackupSession (session : option DepositBackupSession) (st : Storage) : Storage := session.
Definition loadDepositBackupSession (st : Storage) : option DepositBackupSession := st.
Definition clearDepositBackupSession (st : Storage) : Storage := saveDepositBackupSession None st.
Definition createDepositBackupSession (cluster depositor amountXlm valueStroops commitmentHex nullifierHex secretHex rnd : string) (now : Z) (st : Storage) :
    DepositBackupSession * Storage :=
  let secretClean := strip "0x" secretHex in
  let session := mkSession ("dep_gate_" +:+ bigint_toString 10 now +:+ "_" +:+ rnd) cluster depositor amountXlm valueStroops commitmentHex nullifierHex secretHex
    "Enter the last 6 characters of your Note Secret" (toUpperCase (slice_last 6 secretClean)) false now in
  (session, saveDepositBackupSession (Some session) st).
Definition set_verified (s : DepositBackupSession) : DepositBackupSession :=
  mkSession (id s) (cluster s) (depositor s) (amountXlm s) (valueStroops s) (commitmentHex s) (nullifierHex s) (secretHex s) (challengePrompt s) (expectedFragment s) true (createdAt s).
(** The session object is changed in place: the new one is returned. *)
Definition verifyDepositFragment (session : DepositBackupSession) (inputFragment : string) (st : Storage) : bool * DepositBackupSession * Storage :=
  let normalizedInput := strip "0X" (toUpperCase (trim inputFragment)) in
  let normalizedExpected := strip "0X" (toUpperCase (trim (expectedFragment session))) in
  let isMatch := String.eqb normalizedInput normalizedExpected in
  if isMatch then (true, set_verified session, saveDepositBackupSession (Some (set_verified session)) st)
  else (false, session, st).

(** *** The gate opens for the end of the secret only *)
Definition attempt_one (p : DepositBackupSession * Storage) (input : string) : DepositBackupSession * Storage :=
  let '(_, s', st') := verifyDepositFragment p.1 input p.2 in (s', st').
Definition attempts (session : DepositBackupSession) (st : Storage) (inputs : list string) : DepositBackupSession * Storage :=
  foldl attempt_one (session, st) inputs.
Definition normal (s : string) : string := strip "0X" (toUpperCase (trim s)).
Definition matches (secretHex input : string) : Prop := normal input = normal (toUpperCase (slice_last 6 (strip "0x" secretHex))).
Lemma attempt_one_run s i : attempt_one (s, Some s) i = (if String.eqb (normal i) (normal (expectedFragment s)) then (set_verified s, Some (set_verified s)) else (s, Some s)).
Proof. unfold attempt_one, verifyDepositFragment, normal. cbn [fst snd]. by destruct (String.eqb _ _). Qed.
Lemma attempts_run secret l s :
  expectedFragment s = toUpperCase (slice_last 6 (strip "0x" secret)) →
  let '(s', st') := attempts s (Some s) l in st' = Some s' ∧ (verified s' = true ↔ verified s = true ∨ Exists (matches secret) l).
Proof.
  unfold attempts. revert s. induction l as [|i l IH]; intros s He; cbn [foldl].
  - split; [done|]. rewrite Exists_nil. tauto.
  - rewrite attempt_one_run. destruct (String.eqb_spec (normal i) (normal (expectedFragment s))) as [Hm|Hm]; rewrite He in Hm.
    + specialize (IH (set_verified s) He). destruct (foldl _ _ l) as [s' st']. destruct IH as [-> Hv]. split; [done|]. rewrite Hv, Exists_cons. simpl. unfold matches. tauto.
    + specialize (IH s He). destruct (foldl _ _ l) as [s' st']. destruct IH as [-> Hv]. split; [done|]. rewrite Hv, Exists_cons. unfold matches at 2. tauto.
Qed.
(** Whatever is typed, the session is open exactly when something typed was the end of the
    secret, and the stored session says so after a reload. *)
Lemma gate_opens_only_for_secret cluster depositor amount value commitment nullifier secret rnd now st inputs :
  let '(s0, st0) := createDepositBackupSession cluster depositor amount value commitment nullifier secret rnd now st in
  let '(s, st') := attempts s0 st0 inputs in
  loadDepositBackupSession st' = Some s ∧ (verified s = true ↔ Exists (matches secret) inputs).
Proof.
  unfold createDepositBackupSession. cbv zeta. unfold saveDepositBackupSession at 1. set (s0 := mkSession _ _ _ _ _ _ _ _ _ _ _ _).
  pose proof (attempts_run secret inputs s0 eq_refl) as H. destruct (attempts s0 (Some s0) inputs) as [s st']. destruct H as [-> Hv].
  split; [done|]. rewrite Hv. simpl. split; [by intros [?|?]|by right].
Qed.
Lemma gate_example : let '(s, st) := createDepositBackupSession "testnet" "GA" "1" "10000000" "0x01" "7" "0x00abcdef" "r" 5 None in
  let '(s1, st1) := attempts s st ["abcdee"; " ABCdef "] in verified s = false ∧ verified s1 = true.
Proof. vm_compute. done. Qed.
End DepositGate.

(** ** The limit on proofs *)
Module ProofLimiter.
Record ProofRateLimitConfig : Type := mkConfig { maxConcurrentProofs : Z; maxRetriesPerSession : Z; retryWindowMs : Z }.
Definition DEFAULT_PROOF_RATE_LIMIT : ProofRateLimitConfig := mkConfig 2 5 60000.
Record t : Type := mkLimiter { concurrentCount : Z; retries : list Z; config : ProofRateLimitConfig }.
Definition new (c : ProofRateLimitConfig) : t := mkLimiter 0 [] c.
Definition acquireSlot (l : t) : res t :=
  if maxConcurrentProofs (config l) <=? concurrentCount l
  then Err (JsError ("Too many concurrent proofs (max " +:+ bigint_toString 10 (maxConcurrentProofs (config l)) +:+ "). Please wait for current proofs to complete."))
  else Ok (mkLimiter (concurrentCount l + 1) (retries l) (config l)).
Definition release (l : t) : t := mkLimiter (concurrentCount l - 1) (retries l) (config l).
Definition prune (now : Z) (l : t) : t := mkLimiter (concurrentCount l) (List.filter (λ t, now - t <? retryWindowMs (config l)) (retries l)) (config l).
(** The retries are pruned also when the retry is refused. *)
Definition recordRetry (now : Z) (l : t) : res unit * t :=
  let l := prune now l in
  if maxRetriesPerSession (config l) <=? Z.of_nat (length (retries l))
  then (Err (JsError ("Too many proof retries (" +:+ bigint_toString 10 (Z.of_nat (length (retries l))) +:+ " in " +:+ bigint_toString 10 (retryWindowMs (config l))
                        +:+ "ms). Please clear the throttle from settings.")), l)
  else (Ok tt, mkLimiter (concurrentCount l) (retries l ++ [now]) (config l)).
Definition getPendingCount (l : t) : Z := concurrentCount l.
Definition getRetriesInWindow (now : Z) (l : t) : Z * t := let l := prune now l in (Z.of_nat (length (retries l)), l).
Definition clearThrottle (l : t) : t := mkLimiter 0 [] (config l).
Record State : Type := mkState { concurrent : Z; maxConcurrent : Z; retriesInWindow : Z; maxRetries : Z; isThrottled : bool }.
Definition getState (now : Z) (l : t) : State * t :=
  let '(n, l) := getRetriesInWindow now l in
  (mkState (concurrentCount l) (maxConcurrentProofs (config l)) n (maxRetriesPerSession (config l))
     ((maxConcurrentProofs (config l) <=? concurrentCount l) || (maxRetriesPerSession (config l) <=? n)), l).
(** The shared instance *)
Definition getProofRateLimiter (global : option t) : t := default (new DEFAULT_PROOF_RATE_LIMIT) global.
Definition resetProofRateLimiter (c : ProofRateLimitConfig) (global : option t) : option t := Some (new c).
Definition getProofThrottleState (now : Z) (global : option t) : State * option t := let '(s, l) := getState now (getProofRateLimiter global) in (s, Some l).
Definition clearProofThrottle (global : option t) : option t := Some (clearThrottle (getProofRateLimiter global)).

(** *** Runs: proofs that start and end, retries, looks at the state and clears *)
Inductive Act : Type := Start | Finish | Retry (now : Z) | Look (now : Z) | Clear.
(** The proofs running and the retries admitted since the last clear, beside the limiter. *)
Record Run : Type := mkRun { limiter : t; running : Z; admitted : list Z }.
Definition act (r : Run) (a : Act) : Run :=
  match a with
  | Start => match acquireSlot (limiter r) with Ok l => mkRun l (running r + 1) (admitted r) | Err _ => r end
  | Finish => if 0 <? running r then mkRun (release (limiter r)) (running r - 1) (admitted r) else r
  | Retry now => let '(x, l) := recordRetry now (limiter r) in mkRun l (running r) (match x with Ok _ => admitted r ++ [now] | Err _ => admitted r end)
  | Look now => mkRun (getState now (limiter r)).2 (running r) (admitted r)
  | Clear => mkRun (clearThrottle (limiter r)) (running r) []
  end.
Definition clear_when_idle (r : Run) (a : Act) : Prop := a = Clear → running r = 0.
Definition time_of (a : Act) : option Z := match a with Retry n | Look n => Some n | _ => None end.
(** Clocks do not go back, and the throttle is cleared while no proof runs. *)
Fixpoint orderly (last : Z) (r : Run) (acts : list Act) : Prop :=
  match acts with
  | [] => True
  | a :: rest => clear_when_idle r a ∧ last <= default last (time_of a) ∧ orderly (default last (time_of a)) (act r a) rest
  end.
Definition within (w now : Z) (l : list Z) : list Z := List.filter (λ t, now - t <? w) l.

Definition last_time (last : Z) (acts : list Act) : Z := foldl (λ l a, default l (time_of a)) last acts.
Record run_ok (c : ProofRateLimitConfig) (last : Z) (r : Run) : Prop := {
  ro_config : config (limiter r) = c;
  ro_running : running r = concurrentCount (limiter r) ∧ 0 <= running r <= Z.max 0 (maxConcurrentProofs c);
  ro_window now : last <= now → within (retryWindowMs c) now (admitted r) = within (retryWindowMs c) now (retries (limiter r));
  ro_retries : Z.of_nat (length (retries (limiter r))) <= Z.max 0 (maxRetriesPerSession c);
}.
Lemma within_within w now now' l : now <= now' → within w now' (within w now l) = within w now' l.
Proof.
  intros Hn. induction l as [|t l IH]; simpl; [done|]. destruct (Z.ltb_spec (now - t) w), (Z.ltb_spec (now' - t) w); simpl; try lia.
  - destruct (Z.ltb_spec (now' - t) w); [by rewrite IH|lia].
  - destruct (Z.ltb_spec (now' - t) w); [lia|done].
  - done.
Qed.
Lemma within_length w now l : (length (within w now l) <= length l)%nat.
Proof. induction l as [|t l IH]; simpl; [lia|]. destruct (now - t <? w); simpl; lia. Qed.
Lemma within_app w now l1 l2 : within w now (l1 ++ l2) = within w now l1 ++ within w now l2.
Proof. unfold within. apply List.filter_app. Qed.
Lemma prune_ok c last now r : last <= now → run_ok c last r → run_ok c now (mkRun (prune now (limiter r)) (running r) (admitted r)).
Proof.
  intros Hl [Hc Hr Hw Hn]. split; simpl; try done.
  - intros now' Hn'. rewrite Hw by lia. rewrite Hc. fold (within (retryWindowMs c) now (retries (limiter r))). by rewrite within_within.
  - pose proof (within_length (retryWindowMs (config (limiter r))) now (retries (limiter r))). unfold within in *. lia.
Qed.
Lemma act_ok c last r a : clear_when_idle r a → last <= default last (time_of a) → run_ok c last r → run_ok c (default last (time_of a)) (act r a).
Proof.
  intros Hi Hl Hok. pose proof Hok as [Hc [Hr Hb] Hw Hn]. destruct a as [| |now|now|]; simpl in *.
  - unfold acquireSlot. destruct (Z.leb_spec (maxConcurrentProofs (config (limiter r))) (concurrentCount (limiter r))); [done|]. rewrite Hc in *. split; simpl; try done. lia.
  - destruct (Z.ltb_spec 0 (running r)); [|done]. split; simpl; try done. lia.
  - destruct (prune_ok c last now r Hl Hok) as [Hc' Hr' Hw' Hn']. unfold recordRetry. generalize dependent (prune now (limiter r)). intros l Hc' Hr' Hw' Hn'. simpl in Hc', Hr', Hw', Hn'.
    destruct (Z.leb_spec (maxRetriesPerSession (config l)) (Z.of_nat (length (retries l)))); [by split|]. rewrite Hc' in *. split; simpl; try done.
    + intros now' Hn''. rewrite !within_app. f_equal. by apply Hw'.
    + rewrite length_app. simpl. lia.
  - by apply (prune_ok c last now r).
  - assert (running r = 0) by by apply Hi. split; simpl; try done; lia.
Qed.

(** The limit on proofs holds in every run whose clock does not go back and whose
    throttle is cleared only while no proof runs: the number running is the limiter's count
    and never exceeds the maximum, and of the retries admitted since the last clear no more
    than the maximum lie within the window. *)
Theorem proofs_are_limited c acts last (Hord : orderly last (mkRun (new c) 0 []) acts) now (Hnow : last_time last acts <= now) :
  let r := foldl act (mkRun (new c) 0 []) acts in
  getPendingCount (limiter r) = running r ∧ 0 <= running r <= Z.max 0 (maxConcurrentProofs c) ∧
  Z.of_nat (length (within (retryWindowMs c) now (admitted r))) <= Z.max 0 (maxRetriesPerSession c).
Proof.
  assert (H0 : run_ok c last (mkRun (new c) 0 [])) by (split; simpl; try done; [split; lia|lia]).
  revert Hord Hnow. generalize dependent (mkRun (new c) 0 []). revert last. induction acts as [|a acts IH]; intros last r Hok Hord Hnow.
  - destruct Hok as [_ [Hr Hb] Hw Hn]. simpl in *. split; [done|]. split; [done|]. rewrite Hw by done.
    pose proof (within_length (retryWindowMs c) now (retries (limiter r))). lia.
  - simpl in Hord. destruct Hord as (Hi & Hl & Hord). apply (IH (default last (time_of a))); [by apply act_ok|done|done].
Qed.
(** Cleared during a proof, the count goes below zero when the proof ends and three proofs
    run at once under a limit of two. *)
Lemma clear_lifts_the_limit :
  let r := foldl act (mkRun (new DEFAULT_PROOF_RATE_LIMIT) 0 []) [Start; Clear; Finish; Start; Start; Start] in
  running r = 3 ∧ maxConcurrentProofs DEFAULT_PROOF_RATE_LIMIT = 2.
Proof. vm_compute. done. Qed.
End ProofLimiter.
