(* ===== verification/WebSweep.v ===== *)
(** * Web application: sweeping a one-time account into the privacy pool

    [frontend/src/lib/poolSweep.ts] with what it calls of [frontend/src/contracts/poolConfig.ts],
    [frontend/src/lib/poolProver.ts] and [frontend/src/lib/programs.ts], over the note store of
    [WebNotes.v], and the same sweep against the pool contract of [PoolContract.v] while
    anybody else uses the pool.  Poseidon, the random bytes and the clock are parameters. *)
From Stdlib Require Import Ascii.
From stdpp Require Import base tactics list sets gmap strings relations.
From Stdlib Require Import ZArith Lia Sorted.
From S2P Require Import Prelude JsString JsMap Json Bytes Merkle PubValidate RelPayload SdkCodec SdkPool SdkSchema SdkStealth.
From S2P Require Import Soroban RegContract PoolContract PoolProofs WebErrors WebSoroban WebChain WebStealth WebSpend WebNotes.
Open Scope string_scope.
Open Scope list_scope.
Open Scope Z_scope.

(** ** The deployment *)
Record PoolDeployment : Type := mkDeployment { po_poolId : string; po_nativeSac : string; po_scope : jval; po_depositPresetsXlm : list jval }.
(** [typeof v === "number" && v > 0] *)
Definition positive_number (v : jval) : bool :=
  match v with
  | JNum z => 0 <? z
  | JFlt t => negb (startsWith "-" t || String.eqb t "NaN")
  | _ => false
  end.
Definition getPoolConfig (manifest : option jval) : option PoolDeployment :=
  match manifest with
  | None => None
  | Some m =>
      let poolId := prop (prop (prop m "contracts") "privacyPool") "id" in
      let wiring := prop (prop m "wiring") "privacyPool" in
      if negb (truthy poolId) || negb (truthy (prop wiring "nativeSac")) then None
      else Some (mkDeployment (js_String poolId) (js_String (prop wiring "nativeSac"))
                   (if is_nullish (prop wiring "scope") then JNum 1 else prop wiring "scope")
                   (match prop wiring "depositPresetsXlm" with JArr l => List.filter positive_number l | _ => [] end))
  end.
Definition isPoolDeployed (manifest : option jval) : bool := match getPoolConfig manifest with Some _ => true | None => false end.

(** ** Planning *)
Definition DEPOSIT_FEE_BUFFER_STROOPS : Z := 2000000.
Definition MIN_DEPOSIT_STROOPS : Z := 1000000.
Definition STROOPS_PER_XLM : Z := 10000000.
(** [[...new Set(l)]] of numbers *)
Definition same_value (a b : jval) : bool :=
  NoteStore.num_eq a b || match a, b with JFlt x, JFlt y => String.eqb x "NaN" && String.eqb y "NaN" | _, _ => false end.
Definition add_number (s : list jval) (v : jval) : list jval := if existsb (same_value v) s then s else s ++ [v].
Definition whole_xlm (v : jval) : option Z := match v with JNum z => if 0 <? z then Some z else None | _ => None end.
Definition presetChunkStroops (presetsXlm : list jval) : list Z :=
  let whole := omap whole_xlm (foldl add_number [] presetsXlm) in
  (λ xlm, xlm * STROOPS_PER_XLM) <$> sort_by id whole.

Record PoolSweepPlan : Type := mkPlan {
  pp_spendableStroops : Z;
  pp_minimumBalanceStroops : Z;
  pp_chunkStroops : Z;
  pp_chunkCount : Z;
  pp_totalDepositStroops : Z;
  pp_remainderStroops : Z;
}.
(** Division of big integers truncates; the count is below 2^53 for any balance of the ledger. *)
Definition planPoolSweep (spendableStroops minimumBalanceStroops : Z) (chunkStroops : option Z) : PoolSweepPlan :=
  let base := mkPlan spendableStroops minimumBalanceStroops 0 0 0 spendableStroops in
  match chunkStroops with
  | None =>
      let value := spendableStroops - DEPOSIT_FEE_BUFFER_STROOPS in
      if value <? MIN_DEPOSIT_STROOPS then base
      else mkPlan spendableStroops minimumBalanceStroops value 1 value (spendableStroops - value)
  | Some chunk =>
      if chunk <? MIN_DEPOSIT_STROOPS then base
      else
        let perChunkCost := chunk + DEPOSIT_FEE_BUFFER_STROOPS in
        let chunkCount := Z.quot spendableStroops perChunkCost in
        if chunkCount <? 1 then base
        else mkPlan spendableStroops minimumBalanceStroops chunk chunkCount (chunkCount * chunk) (spendableStroops - chunkCount * perChunkCost)
  end.
(** [be32] *)
Fixpoint be_loop (n : nat) (v : Z) (out : list byte) : list byte :=
  match n with
  | O => out
  | S n' => be_loop n' (Z.shiftr v 8) (to_byte (Z.land v 255) :: out)
  end.
Definition be32 (v : Z) : list byte := be_loop 32 v [].

(** ** The pool as the browser reaches it *)
Class PoolAccess (W : Type) : Type := {
  fetchNextLeafIndex : string → T W Z;
  (** source and depositor, value, commitment and expected index *)
  invokePoolDepositWithKeypair : string → Z → list byte → Z → T W string;
  clock : W → Z;
}.

Record SweepWorld (W : Type) : Type := mkSweep { sp_env : W; sp_store : NoteStore.PoolNoteState; sp_draws : nat }.
Arguments mkSweep {W} _ _ _.
Arguments sp_env {W} _.
Arguments sp_store {W} _.
Arguments sp_draws {W} _.
Record PoolSweepResult : Type := mkResult { sr_hashes : list string; sr_notesAdded : Z; sr_totalDepositStroops : Z }.

Section sweep.
Context {W : Type} `{PA : !PoolAccess W} (poseidon : list Z → Z) (getRandomValues : nat → list byte).
Abbreviation ST := (T (SweepWorld W)).
Definition on_access {A} (m : T W A) : ST A := λ w,
  let '(x, e) := m (sp_env w) in (x, mkSweep e (sp_store w) (sp_draws w)).
Definition draw : ST (list byte) := λ w, (inl (getRandomValues (sp_draws w)), mkSweep (sp_env w) (sp_store w) (S (sp_draws w))).
Definition now : ST Z := λ w, (inl (clock (sp_env w)), w).
Definition on_store (f : NoteStore.PoolNoteState → NoteStore.PoolNoteState) : ST unit := λ w,
  (inl tt, mkSweep (sp_env w) (f (sp_store w)) (sp_draws w)).

(** [/IndexMismatch|ContractError/i] *)
Definition is_race (message : string) : bool :=
  let m := toLowerCase message in includes "indexmismatch" m || includes "contracterror" m.

(** One attempt: the index read, the secrets drawn, the deposit made. *)
Definition deposit_once (from : string) (value : Z) (scope : jval) (poolId cluster : string) : ST (thrown + string * WebNote.PoolNote) :=
  leafIndex ← on_access (fetchNextLeafIndex from);
  draw1 ← draw; draw2 ← draw;
  let '(nullifier, secret) := WebNote.newNoteSecrets draw1 draw2 in
  sc ← of_res (js_BigInt scope); n ← of_res (BigInt nullifier); s ← of_res (BigInt secret);
  let derived := WebNote.deriveDeposit poseidon value sc leafIndex n s in
  attempt
    (hash ← on_access (invokePoolDepositWithKeypair from value (be32 (WebNote.de_commitment derived)) leafIndex);
     at_time ← now;
     mret (inr (hash, WebNote.mkNote cluster (Some poolId) None (bigint_toString 10 value) scope (JNum leafIndex) nullifier secret
                        (WebNote.toHex32 (WebNote.de_commitment derived)) false (JNum at_time))))
    (λ err, mret (inl err)).
(** [left] attempts remain, this one included. *)
Fixpoint chunk_loop (left : nat) (lastErr : option thrown) (from : string) (value : Z) (scope : jval) (poolId cluster : string) : ST (string * WebNote.PoolNote) :=
  match left with
  | O => raise (match lastErr with Some (TError _ _ _ as e) | Some (TOpaque _ _ as e) => e | _ => TError "Pool deposit failed." [] None end)
  | S left' =>
      r ← deposit_once from value scope poolId cluster;
      match r with
      | inr done => mret done
      | inl err => if negb (is_race (errorMessage err)) || (left' =? 0)%nat then raise err
                   else chunk_loop left' (Some err) from value scope poolId cluster
      end
  end.
Definition depositChunk := chunk_loop 3 None.

Fixpoint sweep_loop (n : nat) (from : string) (value : Z) (cfg : PoolDeployment) (cluster : string) (hashes : list string) : ST (list string) :=
  match n with
  | O => mret hashes
  | S n' =>
      r ← depositChunk from value (po_scope cfg) (po_poolId cfg) cluster;
      let '(hash, note) := r in
      on_store (NoteStore.addNote note);;
      sweep_loop n' from value cfg cluster (hashes ++ [hash])
  end.
Definition sweepStealthIntoPool {EC : Secp256k1} {SP : StealthPrims} (cfg : option PoolDeployment) (stealthPrivKeyHex cluster : string) (plan : PoolSweepPlan) : ST PoolSweepResult :=
  match cfg with
  | None => raise (TError "Privacy pool is not deployed on this network." [] None)
  | Some cfg =>
      if (pp_chunkCount plan <? 1) || (pp_chunkStroops plan <? MIN_DEPOSIT_STROOPS)
      then raise (TError "Balance is too small to deposit into the pool." [] None)
      else
        stealthPrivBytes ← of_res (Dksap.hexToBytes (if startsWith "0x" stealthPrivKeyHex then stealthPrivKeyHex else "0x" +:+ stealthPrivKeyHex));
        from ← of_res (keypair_address stealthPrivBytes);
        hashes ← sweep_loop (Z.to_nat (pp_chunkCount plan)) from (pp_chunkStroops plan) cfg cluster [];
        mret (mkResult hashes (pp_chunkCount plan) (pp_chunkStroops plan * pp_chunkCount plan))
  end.
End sweep.

(** *** Over the application's network *)
Section access.
Context {W : Type} `{!Network W} (cfg : option PoolDeployment) (network : string) (native_number : jval → Z) (wall : W → Z).
Definition quoteStealthSpendable (stealthStellarAddress : string) : T W (Z * Z) :=
  quote ← getNativeWithdrawalQuote stealthStellarAddress stealthStellarAddress;
  mret (nq_spendableStroops quote, nq_minimumBalanceStroops quote).
Definition not_deployed : thrown := PoolNotDeployedError (mkInit "Privacy pool is not deployed on this network." None []) network.
(** [native_number]: [Number(scValToNative(retval))] *)
Definition read_next_index (caller : string) : T W Z :=
  match cfg with
  | None => raise not_deployed
  | Some c =>
      getAccount caller;;
      let tx := mkTx caller BASE_FEE None (Invoke (po_poolId c) "get_deposit_count" []) in
      sim ← simulateTransaction tx;
      let retval := prop (prop sim "result") "retval" in
      if isSimulationError sim || negb (truthy retval)
      then raise (SimulationFailedError (mkInit "Could not read pool deposit count." None []) (po_poolId c) "get_deposit_count"
                    (if isSimulationError sim then Some (js_String (prop sim "error")) else None))
      else mret (native_number retval)
  end.
Definition requirePoolId : T (World W) string := match cfg with Some c => mret (po_poolId c) | None => raise not_deployed end.
Definition deposit_args (from : string) (value : Z) (commitment : list byte) (expectedIndex : Z) : list jval :=
  [JStr from; JNum value; JStr (hex_of_bytes commitment); JNum expectedIndex].
Definition deposit_call (from : string) (value : Z) (commitment : list byte) (expectedIndex : Z) : T (World W) string :=
  poolId ← requirePoolId;
  invokeContractWithKeypair from poolId "deposit" (deposit_args from value commitment expectedIndex) true.
Definition web_access : PoolAccess (World W) := {|
  fetchNextLeafIndex := λ from, on_env (read_next_index from);
  invokePoolDepositWithKeypair := deposit_call;
  clock := λ w, wall (wo_env w);
|}.
End access.

(** ** What a plan promises *)

(** A sweep is never planned beyond the balance: what a plan deposits, with a fee
    buffer for every deposit, fits in the spendable balance; in chunks the rest is smaller
    than another chunk with its buffer.  A plan with deposits makes each at least the
    minimum, and there is no plan only when not even one deposit fits. *)
Theorem plan_fits_balance spendable minimum chunk (Hs : 0 <= spendable) :
  let p := planPoolSweep spendable minimum chunk in
  pp_totalDepositStroops p = pp_chunkCount p * pp_chunkStroops p ∧ 0 <= pp_chunkCount p ∧
  pp_totalDepositStroops p + pp_chunkCount p * DEPOSIT_FEE_BUFFER_STROOPS <= spendable ∧
  (1 <= pp_chunkCount p → MIN_DEPOSIT_STROOPS <= pp_chunkStroops p) ∧
  match chunk with
  | None => pp_chunkCount p = 0 ↔ spendable < MIN_DEPOSIT_STROOPS + DEPOSIT_FEE_BUFFER_STROOPS
  | Some c => MIN_DEPOSIT_STROOPS <= c →
      spendable = pp_chunkCount p * (c + DEPOSIT_FEE_BUFFER_STROOPS) + pp_remainderStroops p ∧ 0 <= pp_remainderStroops p < c + DEPOSIT_FEE_BUFFER_STROOPS
  end.
Proof.
  unfold planPoolSweep, MIN_DEPOSIT_STROOPS, DEPOSIT_FEE_BUFFER_STROOPS. destruct chunk as [c|]; cbv zeta.
  - destruct (Z.ltb_spec c 1000000); [cbn; lia|]. pose proof (Z.quot_pos spendable (c + 2000000)). pose proof (Z.mul_quot_le spendable (c + 2000000)).
    pose proof (Z.mul_succ_quot_gt spendable (c + 2000000)). destruct (Z.ltb_spec (Z.quot spendable (c + 2000000)) 1); cbn -[Z.quot Z.mul Z.add]; split_and!; try nia.
  - destruct (Z.ltb_spec (spendable - 2000000) 1000000); cbn -[Z.mul Z.add Z.sub]; lia.
Qed.
Lemma plan_fits_balance_witness :
  let p := planPoolSweep 250000000 10000000 (Some 100000000) in
  pp_chunkCount p = 2 ∧ pp_totalDepositStroops p + pp_chunkCount p * DEPOSIT_FEE_BUFFER_STROOPS <= 250000000.
Proof. split; [reflexivity|]. exact (proj1 (proj2 (proj2 (plan_fits_balance 250000000 10000000 (Some 100000000) ltac:(lia))))). Defined.

(** Sizes come in ascending order and each can be planned with. *)
Lemma preset_sizes l : Sorted Z.le (presetChunkStroops l) ∧ Forall (λ c, STROOPS_PER_XLM <= c) (presetChunkStroops l).
Proof.
  unfold presetChunkStroops. set (ws := omap whole_xlm _). split.
  - pose proof (sort_by_sorted id ws) as H. induction H as [|x l' Hs IH Hx]; simpl; constructor; [done|].
    destruct Hx as [|y l' Hy]; simpl; constructor. unfold STROOPS_PER_XLM, id in *. lia.
  - apply Forall_fmap. assert (H : Forall (λ x, 1 <= x) (sort_by id ws)).
    { rewrite sort_by_perm. apply Forall_forall. intros x (v & _ & Hv)%list_elem_of_omap. destruct v; simpl in Hv; try done.
      destruct (Z.ltb_spec 0 z); [|done]. injection Hv as <-. lia. }
    eapply Forall_impl; [exact H|]. unfold STROOPS_PER_XLM. simpl. lia.
Qed.
Lemma be_loop_app n v out : be_loop n v out = be_bytes n v ++ out.
Proof. revert v out. induction n as [|n IH]; intros v out; cbn [be_loop be_bytes]; [done|]. rewrite IH. change (be_bytes (S n) v) with (be_bytes n (Z.shiftr v 8) ++ [to_byte (Z.land v 255)]). by rewrite <-app_assoc. Qed.
Lemma be32_bytes v : be32 v = bigIntToBytes32 v.
Proof. unfold be32. by rewrite be_loop_app, app_nil_r. Qed.

(** ** The ledger below *)
Section ledger.
Context `{SC : Sac} (keccak256 : list byte → list byte) (address_to_xdr : Address → list byte).
Context (verify : Address → list byte * list byte * list byte → Pool.VerifyPublicInputsV3 → option bool) (self : Address).
Abbreviation Led := (Host Pool.Store).
Abbreviation sound := (PoolProofs.pool_ok self).

(** What others do: calls the account did not authorize, and payments that take nothing from
    it or from the pool. *)
Inductive foreign (from : Address) (h : Led) : Led → Prop :=
  | foreign_call env c h' :
      env_contract env = self → env_auth env self = false → env_auth env from = false →
      PoolProofs.run_call keccak256 address_to_xdr verify env c h = Return (tt, h') → foreign from h h'
  | foreign_tokens t :
      (∀ s, balance (h_tok h) s self <= balance t s self) → (∀ s, balance (h_tok h) s from <= balance t s from) →
      foreign from h (mkHost (h_data h) t).
(** The fee of a transaction of the account *)
Definition charged (from : Address) (fee : Z) (h h' : Led) : Prop :=
  h_data h' = h_data h ∧ (∀ s, balance (h_tok h) s self <= balance (h_tok h') s self) ∧ ∀ s, balance (h_tok h) s from - fee <= balance (h_tok h') s from.
(** The deposit itself, if it was applied *)
Inductive own_call (from : Address) (v : Z) (c : list byte) (i : Z) : bool → Led → Led → Prop :=
  | own_not_applied h : own_call from v c i false h h
  | own_applied env h j h' :
      env_contract env = self → env_auth env self = false → Pool.deposit env from v c i h = Return (j, h') → own_call from v c i true h h'.

(** The browser's access leads to that ledger: reading changes nothing for the account, and a
    deposit that is reported to have succeeded was applied.  One that is reported to have
    failed may have been. *)
Class PoolLedger (W : Type) {PA : PoolAccess W} : Type := {
  ledger : W → Led;
  max_fee : Z;
  max_fee_nonneg : 0 <= max_fee;
  fetch_law from w x w' : fetchNextLeafIndex from w = (x, w') → rtc (foreign from) (ledger w) (ledger w');
  deposit_law from v c i w x w' : invokePoolDepositWithKeypair from v c i w = (x, w') →
    ∃ applied h1 h2 h3, rtc (foreign from) (ledger w) h1 ∧ charged from max_fee h1 h2 ∧ own_call from v c i applied h2 h3 ∧
      rtc (foreign from) h3 (ledger w') ∧ (∀ hash, x = inl hash → applied = true);
}.

(** *** What the account loses *)
Record kept (from : Address) (paid : Z) (h h' : Led) : Prop := {
  kp_sound : sound h';
  kp_events : ∃ evs, Pool.pl_events (h_data h') = Pool.pl_events (h_data h) ++ evs;
  kp_count : Pool.bk_dep_count (Pool.pl_book (h_data h)) <= Pool.bk_dep_count (Pool.pl_book (h_data h'));
  kp_funds s : balance (h_tok h) s from - paid <= balance (h_tok h') s from;
}.
Lemma kept_refl from h : sound h → kept from 0 h h.
Proof. intros H. split; [done|exists []; by rewrite app_nil_r|lia|lia]. Qed.
Lemma kept_trans from p q h1 h2 h3 : kept from p h1 h2 → kept from q h2 h3 → kept from (p + q) h1 h3.
Proof.
  intros [_ [e1 E1] C1 F1] [S2 [e2 E2] C2 F2]. split; [done|exists (e1 ++ e2); by rewrite E2, E1, app_assoc|lia|].
  intros s. specialize (F1 s). specialize (F2 s). lia.
Qed.
Lemma kept_weaken from p q h h' : p <= q → kept from p h h' → kept from q h h'.
Proof. intros Hpq [S E C F]. split; [done|done|done|]. intros s. specialize (F s). lia. Qed.

Lemma foreign_kept from h h' : from ≠ self → sound h → foreign from h h' → kept from 0 h h'.
Proof.
  intros Hne Hok [env c h1 He Ha Hf H|t Ht1 Ht2].
  - pose proof (step_call _ _ _ _ h env c h1 He Ha H) as Hst. split; [by eapply pool_step_ok|by eapply step_events| |].
    + destruct (PoolProofs.is_money c) eqn:Hm.
      * destruct c; try done; simpl in H.
        -- apply C_bind_return in H as (j & s1 & H & [= ->]). apply deposit_return in H as (cf & evs & ? & ? & ? & ? & ? & ? & -> & -> & ? & ? & -> & _). simpl. lia.
        -- apply withdraw_return in H as (cf & ? & ? & ? & ? & ? & ? & ? & ? & ? & ? & -> & _). simpl. lia.
      * destruct (PoolProofs.admin_call _ _ _ _ _ _ _ _ Hm Hok H) as (_ & -> & _). lia.
    + intros s. destruct (PoolProofs.is_money c) eqn:Hm.
      * destruct c; try done; simpl in H.
        -- apply C_bind_return in H as (j & s1 & H & [= ->]). apply deposit_return in H as (cf & evs & ? & ? & Had & Hv & ? & ? & ? & ? & ? & ? & ? & ? & ? & ? & ? & ? & Hb).
           rewrite Hb. assert (from ≠ depositor) by congruence. repeat case_decide; naive_solver lia.
        -- apply withdraw_return in H as (cf & ? & ? & ? & ? & ? & ? & ? & ? & ? & ? & ? & Hb). rewrite Hb. repeat case_decide; naive_solver lia.
      * destruct (PoolProofs.admin_call _ _ _ _ _ _ _ _ Hm Hok H) as (-> & _). lia.
  - split; simpl; [|exists []; by rewrite app_nil_r|lia|]. { eapply (pool_step_ok keccak256 address_to_xdr verify); [|exact Hok]. by apply step_other. }
    intros s. specialize (Ht2 s). lia.
Qed.
Lemma foreign_star_kept from h h' : from ≠ self → sound h → rtc (foreign from) h h' → kept from 0 h h'.
Proof.
  intros Hne Hok H. induction H as [h|h h1 h2 H1 _ IH]; [by apply kept_refl|]. pose proof (foreign_kept _ _ _ Hne Hok H1) as K.
  apply (kept_trans from 0 0 h h1 h2); [done|]. apply IH, K.
Qed.
Lemma charged_kept from fee h h' : sound h → charged from fee h h' → kept from fee h h'.
Proof.
  intros Hok (Hd & Hs & Hf). split; [|exists []; by rewrite Hd, app_nil_r|by rewrite Hd|done].
  destruct h' as [d t]. simpl in *. subst d. eapply (pool_step_ok keccak256 address_to_xdr verify); [|exact Hok]. by apply step_other.
Qed.
Lemma own_call_kept from v c i b h h' : from ≠ self → sound h → own_call from v c i b h h' →
  kept from (if b then v else 0) h h' ∧
  (b = true → (∃ s, Pool.EvDeposit c i v s ∈ Pool.pl_events (h_data h')) ∧ i = Pool.bk_dep_count (Pool.pl_book (h_data h)) ∧ i < Pool.bk_dep_count (Pool.pl_book (h_data h'))).
Proof.
  intros Hne Hok Hcall. destruct Hcall as [h|env h j h1 He Ha H]; [split; [by apply kept_refl|done]|].
  pose proof (deposit_ok keccak256 address_to_xdr verify self env from v c i h j h1 He Ha Hok H) as Hok'.
  apply deposit_return in H as (cf & evs & ? & ? & ? & Hv & ? & ? & -> & -> & ? & ? & Hbk & Hev & _ & _ & _ & _ & Hb). split.
  - split; [done|by eexists|rewrite Hbk; simpl; lia|]. intros s. rewrite Hb. clear -Hv Hne He. rewrite He. repeat case_decide; lia || (exfalso; naive_solver).
  - intros _. rewrite Hbk, Hev. simpl. split; [|lia]. eexists. apply elem_of_app. right. apply elem_of_app. right. by apply list_elem_of_singleton.
Qed.

Section runs.
Context {W : Type} {PA : PoolAccess W} {PL : PoolLedger W}.
Context (poseidon : list Z → Z) (getRandomValues : nat → list byte).
(** A deposit reported to have failed was not applied. *)
Definition failures_are_told : Prop := ∀ from v c i w e w',
  invokePoolDepositWithKeypair from v c i w = (inr e, w') → ∃ h1 h2, rtc (foreign from) (ledger w) h1 ∧ charged from max_fee h1 h2 ∧ rtc (foreign from) h2 (ledger w').

(** The ledger announced the note's commitment at its index, and the note opens it. *)
Definition recorded (h : Led) (v : Z) (n : WebNote.PoolNote) : Prop :=
  ∃ i s sc nul sec, WebNote.leafIndex n = JNum i ∧ WebNote.value n = bigint_toString 10 v ∧ WebNote.spent n = false ∧
    js_BigInt (WebNote.scope n) = Ok sc ∧ BigInt (WebNote.nullifier n) = Ok nul ∧ BigInt (WebNote.secret n) = Ok sec ∧
    let c := WebNote.de_commitment (WebNote.deriveDeposit poseidon v sc i nul sec) in
    WebNote.commitment n = WebNote.toHex32 c ∧ Pool.EvDeposit (bigIntToBytes32 c) i v s ∈ Pool.pl_events (h_data h).
Definition index_in (lo hi : Z) (n : WebNote.PoolNote) : Prop := ∃ i, WebNote.leafIndex n = JNum i ∧ lo <= i < hi.
Abbreviation count w := (Pool.bk_dep_count (Pool.pl_book (h_data (ledger (sp_env w))))).
Lemma recorded_kept from p h h' v n : kept from p h h' → recorded h v n → recorded h' v n.
Proof.
  intros [_ [evs E] _ _] (i & s & sc & nul & sec & H1 & H2 & H3 & H4 & H5 & H6 & H7 & H8). exists i, s, sc, nul, sec. split_and!; try done. split; [done|].
  rewrite E. apply elem_of_app. by left.
Qed.

Context (told : bool) (Htold : told = true → failures_are_told).
Lemma deposit_kept from v c i w x w' : from ≠ self → sound (ledger w) → 0 <= v → invokePoolDepositWithKeypair from v c i w = (x, w') →
  match x with
  | inl _ => kept from (max_fee + v) (ledger w) (ledger w') ∧ (∃ s, Pool.EvDeposit c i v s ∈ Pool.pl_events (h_data (ledger w'))) ∧
      Pool.bk_dep_count (Pool.pl_book (h_data (ledger w))) <= i < Pool.bk_dep_count (Pool.pl_book (h_data (ledger w')))
  | inr _ => kept from (max_fee + (if told then 0 else v)) (ledger w) (ledger w')
  end.
Proof using Htold.
  intros Hne Hok Hv H. destruct (deposit_law from v c i w x w' H) as (b & h1 & h2 & h3 & H1 & H2 & H3 & H4 & Hb).
  apply foreign_star_kept in H1; [|done|done]. apply charged_kept in H2; [|apply H1]. apply own_call_kept in H3 as [H3 H3']; [|done|apply H2].
  apply foreign_star_kept in H4; [|done|apply H3].
  assert (K : kept from (max_fee + (if b then v else 0)) (ledger w) (ledger w')).
  { eapply (kept_weaken from (0 + max_fee + (if b then v else 0) + 0)); [lia|]. by repeat (eapply kept_trans; [|eassumption]). }
  destruct x as [hash|e].
  - assert (b = true) as -> by by eapply Hb. split; [done|]. destruct (H3' eq_refl) as ((s & Hs) & Hi1 & Hi2).
    destruct H4 as [_ [evs E] C4 _]. pose proof (kp_count _ _ _ _ H1). pose proof (kp_count _ _ _ _ H2). split; [|lia].
    exists s. rewrite E. apply elem_of_app. by left.
  - destruct told eqn:Et; [|by eapply kept_weaken, K; destruct b; lia].
    destruct (Htold eq_refl from v c i w e w' H) as (g1 & g2 & G1 & G2 & G3). apply foreign_star_kept in G1; [|done|done].
    apply charged_kept in G2; [|apply G1]. apply foreign_star_kept in G3; [|done|apply G2].
    eapply (kept_weaken from (0 + max_fee + 0)); [lia|]. by repeat (eapply kept_trans; [|eassumption]).
Qed.

(** *** One attempt, one chunk, the sweep *)
Lemma on_access_run {A} (m : T W A) (w w' : SweepWorld W) x : on_access m w = (x, w') →
  m (sp_env w) = (x, sp_env w') ∧ sp_store w' = sp_store w.
Proof. unfold on_access. destruct (m (sp_env w)) as [y e] eqn:E. by intros [= <- <-]. Qed.
Abbreviation led w := (ledger (sp_env w)).
Lemma deposit_once_run from v scope poolId cluster (w w' : SweepWorld W) x :
  from ≠ self → sound (led w) → 0 <= v → deposit_once poseidon getRandomValues from v scope poolId cluster w = (x, w') →
  sp_store w' = sp_store w ∧
  match x with
  | inr _ => kept from 0 (led w) (led w')
  | inl (inl _) => kept from (max_fee + (if told then 0 else v)) (led w) (led w')
  | inl (inr (_, n)) => kept from (max_fee + v) (led w) (led w') ∧ recorded (led w') v n ∧ index_in (count w) (count w') n
  end.
Proof using Htold.
  intros Hne Hok Hv H. unfold deposit_once in H.
  apply T_bind_case in H as [(e & [H Hst]%on_access_run & ->)|(leaf & w1 & [H1 Hst]%on_access_run & H)].
  { split; [done|]. apply fetch_law in H. by apply foreign_star_kept. }
  apply fetch_law in H1. apply foreign_star_kept in H1; [|done|done].
  apply T_bind_case in H as [(e & H & ->)|(d1 & w2 & H2 & H)]; [discriminate H|]. injection H2 as <- <-.
  apply T_bind_case in H as [(e & H & ->)|(d2 & w3 & H2 & H)]; [discriminate H|]. injection H2 as <- <-. unfold WebNote.newNoteSecrets in H.
  set (nul := WebNote.randomFieldElement _) in H. set (sec := WebNote.randomFieldElement _) in H.
  apply T_bind_case in H as [(e & [-> _]%of_res_run & ->)|(sc & w4 & [-> Hsc]%of_res_run & H)]; [done|].
  apply T_bind_case in H as [(e & [-> _]%of_res_run & ->)|(n & w5 & [-> Hn]%of_res_run & H)]; [done|].
  apply T_bind_case in H as [(e & [-> _]%of_res_run & ->)|(s & w6 & [-> Hs]%of_res_run & H)]; [done|].
  unfold attempt in H. set (c := WebNote.de_commitment _) in H.
  destruct ((_ ← on_access (invokePoolDepositWithKeypair from v (be32 c) leaf); _) _) as [y w7] eqn:E.
  apply T_bind_case in E as [(e & [E Hst']%on_access_run & ->)|(hash & w8 & [E Hst']%on_access_run & E')]; simpl in *.
  - injection H as <- <-. split; [congruence|]. apply deposit_kept in E; [|done|apply H1|done]. eapply (kept_weaken from (0 + _)); [|by eapply kept_trans]. lia.
  - injection E' as <- <-. injection H as <- <-. split; [congruence|]. apply deposit_kept in E as (K & (s' & Hev) & Hi); [|done|apply H1|done].
    split; [eapply (kept_weaken from (0 + _)); [|by eapply kept_trans]; lia|]. pose proof (kp_count _ _ _ _ H1).
    split; [|exists leaf; split; [done|lia]]. exists leaf, s', sc, n, s. rewrite be32_bytes in Hev.
    destruct (js_BigInt scope) eqn:E1; [|done]. injection Hsc as <-.
    destruct (BigInt nul) eqn:E2; [|done]. injection Hn as <-. destruct (BigInt sec) eqn:E3; [|done]. injection Hs as <-. done.
Qed.
(** [tries] transactions were paid for, and [lost] deposits were applied and reported failed. *)
Definition spent_on (from : Address) (v most tries lost added : Z) (w w' : SweepWorld W) : Prop :=
  0 <= lost ∧ lost + added <= tries <= most ∧ (told = true → lost = 0) ∧ kept from (tries * max_fee + v * (added + lost)) (led w) (led w').
Lemma spent_on_trans from v m1 t1 l1 a1 m2 t2 l2 a2 w1 w2 w3 :
  spent_on from v m1 t1 l1 a1 w1 w2 → spent_on from v m2 t2 l2 a2 w2 w3 → spent_on from v (m1 + m2) (t1 + t2) (l1 + l2) (a1 + a2) w1 w3.
Proof.
  intros (H1 & H2 & H3 & H4) (H5 & H6 & H7 & H8). split; [lia|]. split; [lia|]. split; [intros Ht; rewrite H3, H7 by done; lia|].
  eapply kept_weaken; [|by eapply kept_trans]. lia.
Qed.
Lemma spent_on_refl from v w : sound (led w) → spent_on from v 0 0 0 0 w w.
Proof. intros H. split; [lia|]. split; [lia|]. split; [done|]. eapply (kept_weaken from 0); [lia|]. by apply kept_refl. Qed.
Lemma spent_on_sound from v m t l a w w' : spent_on from v m t l a w w' → sound (led w').
Proof. intros (_ & _ & _ & K). apply K. Qed.

Lemma chunk_run left lastErr from v scope poolId cluster (w w' : SweepWorld W) x :
  from ≠ self → sound (led w) → 0 <= v → chunk_loop poseidon getRandomValues left lastErr from v scope poolId cluster w = (x, w') →
  sp_store w' = sp_store w ∧ ∃ tries lost,
  match x with
  | inr _ => spent_on from v (Z.of_nat left) tries lost 0 w w'
  | inl (_, n) => spent_on from v (Z.of_nat left) tries lost 1 w w' ∧ recorded (led w') v n ∧ index_in (count w) (count w') n
  end.
Proof using Htold.
  intros Hne. revert lastErr w. induction left as [|left IH]; intros lastErr w Hok Hv H.
  { injection H as <- <-. split; [done|]. exists 0, 0. by apply spent_on_refl. }
  cbn [chunk_loop] in H. apply T_bind_case in H as [(e & H & ->)|(r & w1 & H1 & H)].
  { apply deposit_once_run in H as [Hst K]; [|done..]. split; [done|]. exists 0, 0. split; [lia|]. split; [lia|]. split; [done|].
    eapply kept_weaken, K. lia. }
  apply deposit_once_run in H1 as [Hst K]; [|done..]. pose proof max_fee_nonneg. destruct r as [err|[hash n]].
  - assert (Hf : spent_on from v 1 1 (if told then 0 else 1) 0 w w1).
    { split; [by destruct told|]. split; [by destruct told|]. split; [by intros ->|]. eapply kept_weaken, K. destruct told; lia. }
    destruct (negb (is_race (errorMessage err)) || (left =? 0)%nat).
    + injection H as <- <-. split; [done|]. exists 1, (if told then 0 else 1). destruct Hf as (F1 & F2 & F3 & F4). split; [done|]. split; [lia|]. done.
    + apply IH in H as [Hst' (tries & lost & Hx)]; [|by eapply spent_on_sound|done]. split; [congruence|].
      exists (1 + tries), ((if told then 0 else 1) + lost). replace (Z.of_nat (S left)) with (1 + Z.of_nat left) by lia.
      destruct x as [[h n]|e]; [|by eapply (spent_on_trans _ _ _ _ _ 0 _ _ _ 0)]. destruct Hx as (Hx & Hr & Hi).
      split; [by eapply (spent_on_trans _ _ _ _ _ 0 _ _ _ 1)|]. split; [done|]. destruct Hi as (i & ? & ?). exists i. split; [done|].
      destruct Hf as (_ & _ & _ & Kf). pose proof (kp_count _ _ _ _ Kf). lia.
  - injection H as <- <-. split; [done|]. destruct K as (K & Hr & Hi). exists 1, 0. split; [|done]. split; [lia|]. split; [lia|]. split; [done|].
    eapply kept_weaken, K. lia.
Qed.

Definition add_all (s : NoteStore.PoolNoteState) (l : list WebNote.PoolNote) : NoteStore.PoolNoteState := foldl (λ s n, NoteStore.addNote n s) s l.
Definition as_stored (s : NoteStore.PoolNoteState) (n : WebNote.PoolNote) : WebNote.PoolNote :=
  WebNote.with_account (NoteStore.nullish (WebNote.account n) (NoteStore.activeAccount s)) n.
Lemma addNote_last n s : as_stored s n ∈ NoteStore.notes (NoteStore.addNote n s).
Proof. unfold NoteStore.addNote. simpl. apply elem_of_app. right. by apply list_elem_of_singleton. Qed.
Lemma addNote_keeps m n s i j : m ∈ NoteStore.notes s → WebNote.leafIndex m = JNum i → WebNote.leafIndex n = JNum j → i ≠ j →
  m ∈ NoteStore.notes (NoteStore.addNote n s).
Proof.
  intros Hm Hi Hj Hne. unfold NoteStore.addNote. simpl. apply elem_of_app. left. apply list_elem_of_In, filter_In. split; [by apply list_elem_of_In|].
  apply negb_true_iff. unfold NoteStore.same_note. simpl. rewrite Hi, Hj. simpl. rewrite (proj2 (Z.eqb_neq i j)) by done. by rewrite andb_false_r.
Qed.
Lemma add_all_keeps m l s i lo hi : m ∈ NoteStore.notes s → WebNote.leafIndex m = JNum i → i < lo → Forall (index_in lo hi) l → m ∈ NoteStore.notes (add_all s l).
Proof.
  intros Hm Hi Hlo H. revert s Hm. induction H as [|n l (j & Hj & ?) _ IH]; intros s Hm; simpl; [done|]. apply IH. eapply addNote_keeps; [done|done|done|lia].
Qed.
Lemma index_in_weaken lo lo' hi n : lo' <= lo → index_in lo hi n → index_in lo' hi n.
Proof. intros H (i & ? & ?). exists i. split; [done|lia]. Qed.

Lemma pool_sweep_run n from v cfg cluster hashes (w w' : SweepWorld W) x :
  from ≠ self → sound (led w) → 0 <= v → sweep_loop poseidon getRandomValues n from v cfg cluster hashes w = (x, w') →
  ∃ added tries lost, spent_on from v (3 * Z.of_nat n) tries lost (Z.of_nat (length added)) w w' ∧ (length added <= n)%nat ∧
    sp_store w' = add_all (sp_store w) added ∧ Forall (recorded (led w') v) added ∧ Forall (index_in (count w) (count w')) added ∧
    (∀ m, m ∈ added → as_stored (sp_store w) m ∈ NoteStore.notes (sp_store w')) ∧
    (∀ hs, x = inl hs → length added = n ∧ length hs = (length hashes + n)%nat).
Proof using Htold.
  intros Hne. revert hashes w. induction n as [|n IH]; intros hashes w Hok Hv H.
  { injection H as <- <-. exists [], 0, 0. split; [by apply spent_on_refl|]. repeat (split; [done|]). split; [by intros m ?%elem_of_nil|]. intros hs [= <-]. split; [done|lia]. }
  cbn [sweep_loop] in H. apply T_bind_case in H as [(e & H & ->)|([hash note] & w1 & H1 & H)].
  { apply chunk_run in H as [Hst (tries & lost & F1 & F2 & F3 & F4)]; [|done..]. exists [], tries, lost. split; [split; [done|]; split; [simpl; lia|done]|].
    split; [simpl; lia|]. repeat (split; [done|]). by split; [intros m ?%elem_of_nil|]. }
  apply chunk_run in H1 as [Hst (t1 & l1 & F & Hr & Hi)]; [|done..].
  apply T_bind_case in H as [(e & H & ->)|(u & w2 & H2 & H)]; [discriminate H|]. injection H2 as _ <-.
  apply IH in H as (added & tries & lost & S & Hlen & Hsto & Hrec & Hidx & Hin & Hx); [|by eapply spent_on_sound|done].
  cbn [sp_env sp_store] in *. pose proof F as (_ & _ & _ & K1). pose proof S as (_ & _ & _ & K2). cbn [sp_env] in K2.
  exists (note :: added), (t1 + tries), (l1 + lost).
  split; [replace (3 * Z.of_nat (Datatypes.S n)) with (3 + 3 * Z.of_nat n) by lia; replace (Z.of_nat (length (note :: added))) with (1 + Z.of_nat (length added)) by (simpl; lia);
    by eapply spent_on_trans|].
  split; [simpl; lia|]. split; [simpl; by rewrite <-Hst|]. split; [constructor; [by eapply recorded_kept|done]|].
  destruct Hi as (i & Hni & Hib). pose proof (kp_count _ _ _ _ K1) as C1. pose proof (kp_count _ _ _ _ K2) as C2. split; [|split].
  - constructor; [exists i; split; [done|lia]|]. eapply Forall_impl; [exact Hidx|]. intros m Hm. by eapply index_in_weaken, Hm.
  - intros m [->|Hm]%elem_of_cons.
    + rewrite Hsto. eapply add_all_keeps; [rewrite <-Hst; apply addNote_last|exact Hni| |exact Hidx]. cbn. lia.
    + specialize (Hin m Hm). unfold as_stored in *. cbn in Hin. by rewrite Hst in Hin.
  - intros hs Hhs. destruct (Hx hs Hhs) as [E1 E2]. simpl. rewrite E1, E2, length_app. simpl. split; lia.
Qed.

Ltac nothing_swept := exists [], 0, 0; simpl; split_and!; try lia; [by intros ? ?%elem_of_nil|done].
(** The account a key in hexadecimal opens *)
Definition swept_account {EC : Secp256k1} {SP : StealthPrims} (stealthPrivKeyHex : string) : res string :=
  priv ← Dksap.hexToBytes (if startsWith "0x" stealthPrivKeyHex then stealthPrivKeyHex else "0x" +:+ stealthPrivKeyHex); keypair_address priv.

(** C19 (safety): A sweep into the pool accounts for every stroop, however it ends and whatever
    others do in the pool meanwhile.  Every note it made is in the store and opens the
    commitment the contract announced at the note's index.  The account loses at most the
    value of those notes, the fees of the transactions tried, at most three for each
    chunk, and the deposits that were applied although they were reported to have failed, of
    which there are none if failures are told.  A sweep that returns has stored one note for
    every chunk of the plan. *)
Theorem sweep_accounts_for_funds {EC : Secp256k1} {SP : StealthPrims} cfg key cluster plan from (w w' : SweepWorld W) x
    (Hkey : swept_account key = Ok from) (Hne : from ≠ self)
    (Hr : PoolProofs.reachable keccak256 address_to_xdr verify self (led w))
    (Hrun : sweepStealthIntoPool poseidon getRandomValues cfg key cluster plan w = (x, w')) :
  ∃ added tries lost, 0 <= lost ∧ lost + Z.of_nat (length added) <= tries <= 3 * Z.max 0 (pp_chunkCount plan) ∧ (told = true → lost = 0) ∧
    (∀ n, n ∈ added → as_stored (sp_store w) n ∈ NoteStore.notes (sp_store w') ∧ recorded (led w') (pp_chunkStroops plan) n) ∧
    (∀ s, balance (h_tok (led w)) s from - pp_chunkStroops plan * (Z.of_nat (length added) + lost) - tries * max_fee <= balance (h_tok (led w')) s from) ∧
    (∀ r, x = inl r → Z.of_nat (length added) = pp_chunkCount plan ∧ length (sr_hashes r) = length added ∧
       sr_totalDepositStroops r = pp_chunkStroops plan * Z.of_nat (length added)).
Proof using Htold.
  apply PoolProofs.pool_reachable_ok in Hr as Hok. clear Hr. pose proof max_fee_nonneg.
  unfold sweepStealthIntoPool in Hrun. destruct cfg as [cfg|]; [|injection Hrun as <- <-; nothing_swept].
  destruct (Z.ltb_spec (pp_chunkCount plan) 1); [injection Hrun as <- <-; nothing_swept|].
  destruct (Z.ltb_spec (pp_chunkStroops plan) MIN_DEPOSIT_STROOPS) as [|Hmin]; [injection Hrun as <- <-; nothing_swept|]. cbn [orb] in Hrun. unfold MIN_DEPOSIT_STROOPS in Hmin.
  unfold swept_account in Hkey. destruct (Dksap.hexToBytes _) as [priv|] eqn:Eh in Hkey; [|done]. cbn [mbind res_bind] in Hkey.
  apply T_bind_case in Hrun as [(e & [-> He]%of_res_run & ->)|(b & w1 & [-> Hb]%of_res_run & Hrun)]; [nothing_swept|].
  rewrite Eh in Hb. injection Hb as ->.
  apply T_bind_case in Hrun as [(e & [-> He]%of_res_run & ->)|(a & w1 & [-> Ha]%of_res_run & Hrun)]; [nothing_swept|].
  rewrite Hkey in Ha. injection Ha as ->.
  assert (Hloop : ∃ y, sweep_loop poseidon getRandomValues (Z.to_nat (pp_chunkCount plan)) from (pp_chunkStroops plan) cfg cluster [] w = (y, w') ∧
    (∀ r, x = inl r → ∃ hs, y = inl hs ∧ r = mkResult hs (pp_chunkCount plan) (pp_chunkStroops plan * pp_chunkCount plan))).
  { apply T_bind_case in Hrun as [(e & H1 & ->)|(hs & w1 & H1 & [= <- <-])]; [by eexists; split|]. eexists. split; [exact H1|]. intros r [= <-]. eauto. }
  destruct Hloop as (y & Hl & Hy). apply pool_sweep_run in Hl as (added & tries & lost & (F1 & F2 & F3 & F4) & Hlen & Hsto & Hrec & _ & Hin & Hx); [|done|done|lia].
  exists added, tries, lost. split; [done|]. split; [lia|]. split; [done|]. split; [|split].
  - intros n Hn. split; [by apply Hin|]. rewrite Forall_forall in Hrec. by apply Hrec.
  - intros s. pose proof (kp_funds _ _ _ _ F4 s). lia.
  - intros r Hxr. destruct (Hy r Hxr) as (hs & -> & ->). destruct (Hx hs eq_refl) as [E1 E2]. simpl in *. rewrite E1, E2. split_and!; lia.
Qed.
End runs.
End ledger.

(** ** A pool with a rival, and a network that loses an answer *)
#[local] Existing Instance ledger_sac.
#[local] Existing Instance toy_curve.
#[local] Existing Instance small_prims.
Definition toy_key : string := hex_of_bytes (be_bytes 32 3).
Definition toy_from : string := match swept_account toy_key with Ok a => a | Err _ => "" end.
Lemma toy_from_ok : swept_account toy_key = Ok toy_from.
Proof.
  assert (H : (if swept_account toy_key then true else false) = true) by (vm_compute; reflexivity). unfold toy_from. by destruct (swept_account toy_key).
Qed.
Lemma toy_from_ne : toy_from ≠ "CPOOL" ∧ toy_from ≠ "GDEP".
Proof. split; vm_compute; discriminate. Qed.
Definition opening_calls : list (Env * PoolProofs.Call) := [(at_seq 10 ["GADM"], PoolProofs.Initialize "GADM" "CVER" "CSAC" 7)].
Definition open_start : Host Pool.Store := mkHost Pool.empty_store (<[("CSAC", toy_from) := 9000000%N]> (<[("CSAC", "GDEP") := 5000%N]> ∅)).
Definition open_pool : Host Pool.Store := default open_start (run_pool (λ b, b) utf8 accept_all opening_calls open_start).
Lemma open_pool_runs : run_pool (λ b, b) utf8 accept_all opening_calls open_start = Some open_pool.
Proof. apply present_default. vm_compute. reflexivity. Qed.
Lemma open_pool_reachable : PoolProofs.reachable (λ b, b) utf8 accept_all "CPOOL" open_pool.
Proof. exists (h_tok open_start). apply (run_pool_rtc _ _ _ "CPOOL" opening_calls open_start open_pool); [repeat constructor|exact open_pool_runs]. Qed.

Abbreviation run_toy := (PoolProofs.run_call (λ b, b) utf8 accept_all).
(** The flag: another depositor is about to get in first. *)
Definition rival_env : Env := at_seq 29 ["GDEP"].
Definition rival_call (h : Host Pool.Store) : PoolProofs.Call := PoolProofs.Deposit "GDEP" 500 (bytes32 Byte.x0b) (Pool.bk_dep_count (Pool.pl_book (h_data h))).
Definition after_rival (from : string) (w : Host Pool.Store * bool) : Host Pool.Store :=
  if w.2 && negb (String.eqb from "GDEP") then match run_toy rival_env (rival_call w.1) w.1 with Return (_, h) => h | _ => w.1 end else w.1.
Definition toy_deposit (answers : bool) (from : string) (v : Z) (c : list byte) (i : Z) : T (Host Pool.Store * bool) string := λ w,
  if String.eqb from "CPOOL" then (inr (TError "no key" [] None), w)
  else
    let h := after_rival from w in
    match Pool.deposit (at_seq 30 [from]) from v c i h with
    | Return (_, h') => (if answers then inl "hash" else inr (TError "timed out" [] None), (h', false))
    | Fail Pool.IndexMismatch => (inr (TError "HostError: ContractError IndexMismatch" [] None), (h, false))
    | _ => (inr (TError "trapped" [] None), (h, false))
    end.
Definition toy_access (answers : bool) : PoolAccess (Host Pool.Store * bool) := {|
  fetchNextLeafIndex := λ _ w, (inl (Pool.bk_dep_count (Pool.pl_book (h_data w.1))), w);
  invokePoolDepositWithKeypair := toy_deposit answers;
  clock := λ _, 0;
|}.
Lemma rival_foreign from w : rtc (foreign (λ b, b) utf8 accept_all "CPOOL" from) w.1 (after_rival from w).
Proof.
  unfold after_rival. destruct (w.2 && negb (String.eqb from "GDEP")) eqn:E; [|done]. apply andb_true_iff in E as [_ E%negb_true_iff%String.eqb_neq].
  destruct (run_toy rival_env (rival_call w.1) w.1) as [[[] h]| |] eqn:Er; [|done|done]. apply rtc_once. eapply foreign_call; [| | |exact Er]; [done|done|].
  apply bool_decide_eq_false. by intros ?%list_elem_of_singleton.
Qed.
Lemma charged_refl from h : charged "CPOOL" from 0 h h.
Proof. split; [done|]. split; [done|]. intros s. lia. Qed.
Definition explained (answers : bool) (from : string) (v : Z) (c : list byte) (i : Z) (w : Host Pool.Store * bool) (x : string + thrown) (w' : Host Pool.Store * bool) : Prop :=
  ∃ applied h1 h2 h3, rtc (foreign (λ b, b) utf8 accept_all "CPOOL" from) w.1 h1 ∧ charged "CPOOL" from 0 h1 h2 ∧ own_call "CPOOL" from v c i applied h2 h3 ∧
    rtc (foreign (λ b, b) utf8 accept_all "CPOOL" from) h3 w'.1 ∧ (∀ hash, x = inl hash → applied = true) ∧ (answers = true → ∀ e, x = inr e → applied = false).
Lemma toy_deposit_law answers from v c i w x w' : toy_deposit answers from v c i w = (x, w') → explained answers from v c i w x w'.
Proof.
  unfold toy_deposit. destruct (String.eqb_spec from "CPOOL") as [->|Hne].
  { intros [= <- <-]. exists false, w.1, w.1, w.1. split; [done|]. split; [apply charged_refl|]. split; [constructor|done]. }
  pose proof (rival_foreign from w) as Hr. set (h := after_rival from w) in *.
  assert (Hno : ∀ y, (inr y, (h, false)) = (x, w') → explained answers from v c i w x w').
  { intros y [= <- <-]. exists false, h, h, h. split; [done|]. split; [apply charged_refl|]. split; [constructor|done]. }
  destruct (Pool.deposit (at_seq 30 [from]) from v c i h) as [[j h']|[]|] eqn:E; try (apply Hno).
  intros [= <- <-]. exists true, h, h, h'. split; [done|]. split; [apply charged_refl|]. split.
  - eapply own_applied; [| |exact E]; [done|]. apply bool_decide_eq_false. by intros ?%list_elem_of_singleton.
  - split; [done|]. split; [done|]. intros -> e. done.
Qed.
Definition toy_ledger (answers : bool) : PoolLedger (λ b, b) utf8 accept_all "CPOOL" (Host Pool.Store * bool) (PA := toy_access answers).
Proof.
  refine {| ledger := fst; max_fee := 0 |}; [done| |].
  - by intros from w x w' [= _ <-].
  - intros from v c i w x w' (applied & h1 & h2 & h3 & ? & ? & ? & ? & ? & _)%toy_deposit_law. by exists applied, h1, h2, h3.
Defined.
Lemma toy_told : failures_are_told (λ b, b) utf8 accept_all "CPOOL" (PL := toy_ledger true).
Proof.
  intros from v c i w e w' (applied & h1 & h2 & h3 & H1 & H2 & H3 & H4 & _ & Ha)%toy_deposit_law. rewrite (Ha eq_refl e eq_refl) in H3. inversion H3; subst.
  by exists h1, h3.
Qed.

Definition toy_draws (n : nat) : list byte := repeat (to_byte (Z.of_nat n + 1)) 31.
Definition toy_deployment : PoolDeployment := mkDeployment "CPOOL" "CSAC" (JNum 7) [JNum 1].
Definition toy_plan : PoolSweepPlan := planPoolSweep 7000000 10000000 (Some 1000000).
Definition sweep_start : SweepWorld (Host Pool.Store * bool) := mkSweep (open_pool, true) (NoteStore.mkState [] (Some "GME")) 0.
Definition toy_sum (l : list Z) : Z := foldl Z.add 1 l.
Definition toy_run (answers : bool) : (PoolSweepResult + thrown) * SweepWorld (Host Pool.Store * bool) :=
  sweepStealthIntoPool (PA := toy_access answers) toy_sum toy_draws (Some toy_deployment) toy_key "testnet" toy_plan sweep_start.
Definition swept_notes (r : (PoolSweepResult + thrown) * SweepWorld (Host Pool.Store * bool)) : list (string * jval) :=
  (λ n, (WebNote.value n, WebNote.leafIndex n)) <$> NoteStore.notes (sp_store r.2).
Definition hashes_of (r : (PoolSweepResult + thrown) * SweepWorld (Host Pool.Store * bool)) : option nat :=
  match r.1 with inl s => Some (length (sr_hashes s)) | inr _ => None end.

Lemma sweep_accounts_for_funds_witness :
  hashes_of (toy_run true) = Some 2%nat ∧ swept_notes (toy_run true) = [("1000000", JNum 1); ("1000000", JNum 2)] ∧
  9000000 - 2000000 <= balance (h_tok (sp_env (toy_run true).2).1) "CSAC" toy_from.
Proof.
  assert (H1 : hashes_of (toy_run true) = Some 2%nat) by (vm_compute; reflexivity). split; [exact H1|]. split; [vm_compute; reflexivity|].
  assert (Hb : balance (h_tok open_pool) "CSAC" toy_from = 9000000) by (vm_compute; reflexivity).
  destruct (toy_run true) as [x w'] eqn:E. unfold hashes_of in H1. cbn [fst] in H1. destruct x as [r|e]; [|discriminate H1].
  destruct (sweep_accounts_for_funds (λ b, b) utf8 accept_all "CPOOL" (PL := toy_ledger true) toy_sum toy_draws true (λ _, toy_told)
    (Some toy_deployment) toy_key "testnet" toy_plan toy_from sweep_start w' (inl r) toy_from_ok (proj1 toy_from_ne) open_pool_reachable E)
    as (added & tries & lost & _ & _ & Hl & _ & Hf & Hx).
  destruct (Hx r eq_refl) as (Hn & _). specialize (Hf "CSAC"). rewrite (Hl eq_refl), Hn in Hf.
  change (pp_chunkStroops toy_plan) with 1000000 in Hf. change (pp_chunkCount toy_plan) with 2 in Hf. cbn [ledger toy_ledger max_fee sp_env sweep_start fst] in Hf.
  rewrite Hb in Hf. cbn [snd]. clear -Hf. lia.
Defined.
(** The answer to the first deposit is lost: the money is in the pool, its note nowhere. *)
Lemma unanswered_deposit_is_lost :
  hashes_of (toy_run false) = None ∧ swept_notes (toy_run false) = [] ∧
  balance (h_tok (sp_env (toy_run false).2).1) "CSAC" toy_from = 9000000 - 1000000 ∧
  Pool.get_custody (h_data (sp_env (toy_run false).2).1) = (1000500, 0).
Proof. vm_compute. done. Qed.
