(* ===== verification/WebBackup.v ===== *)
(** * Web application: encrypted backups of pool notes

    [frontend/src/lib/poolNoteBackup.ts] (with the iteration count of
    [frontend/src/lib/kdfConfig.ts]), and a backup restored into the store of [WebNotes.v].
    Web Crypto, JSON, UTF-8 decoding and the ZIP library are a class with their documented
    laws; the file download is left out. *)
From Stdlib Require Import Ascii.
From stdpp Require Import countable.
From stdpp Require Import base tactics list sets strings.
From Stdlib Require Import ZArith Lia.
From S2P Require Import Prelude JsString JsMap Json Bytes PubValidate RelPayload SdkCodec WebNotes.
Import WebNote.
Open Scope string_scope.
Open Scope list_scope.
Open Scope Z_scope.

(** ** Values JSON writes and reads back *)
Fixpoint plain (v : jval) : bool :=
  match v with
  | JUndef => false
  | JNull | JBool _ | JNum _ | JStr _ => true
  | JFlt t => NoteCodec.is_finite (JFlt t)
  | JArr l => forallb plain l
  | JObj fs => forallb (λ kv, plain kv.2) fs
  end.

Class BackupEnv : Type := {
  Key : Type;
  pbkdf2 : string → list byte → jval → Key;                       (** pin, salt and iterations *)
  aes_encrypt : Key → list byte → list byte → list byte;
  aes_decrypt : Key → list byte → list byte → option (list byte);
  sha256 : list byte → list byte;
  JSON_stringify : jval → string;
  JSON_parse : string → option jval;
  TextDecoder_decode : list byte → string;
  zip_generate : list (string * list byte) → list byte;
  zip_load : list byte → option (list (string * list byte));
  below_one : string → bool;                                       (** of a number that is no integer *)
  decrypt_encrypt k iv p : aes_decrypt k iv (aes_encrypt k iv p) = Some p;
  encrypt_nonempty k iv p : aes_encrypt k iv p ≠ [];                (** it ends with the tag *)
  parse_stringify v : plain v = true → JSON_parse (JSON_stringify v) = Some v;
  decode_utf8 s : TextDecoder_decode (utf8 s) = s;
  load_generate l : zip_load (zip_generate l) = Some l;
}.

Definition bytesToBase64 : list byte → string := RelayBytes.bytesToBase64.
Definition base64ToBytes : string → res (list byte) := RelayBytes.base64ToBytes.

(** ** Errors *)
Inductive backup_error : Type :=
  | CorruptedBackupError (message : string)
  | InvalidPasswordError (message : string)
  | OtherError (e : jserr).
Definition B (A : Type) : Type := A + backup_error.
Global Instance B_ret : MRet B := λ A a, inl a.
Global Instance B_bind : MBind B := λ A B f m, match m with inl a => f a | inr e => inr e end.
Definition corrupted {A} (m : string) : B A := inr (CorruptedBackupError m).
Definition plainly {A} (r : res A) : B A := match r with Ok a => inl a | Err e => inr (OtherError e) end.

Definition BACKUP_FORMAT_VERSION : Z := 2.
Definition BACKUP_SCHEMA_URI : string := "https://opaque.cash/schemas/pool-notes-backup-v2.json".
Definition KDF_ITERATIONS : Z := 600000.

Record DecryptedNoteBackupPayload : Type := mkPayload {
  py_version : Z;
  py_createdAt : string;
  py_cluster : string;
  py_poolId : option string;
  py_notes : list PoolNote;
}.
Definition opt_field (k : string) (o : option string) : list (string * jval) := match o with Some s => [(k, JStr s)] | None => [] end.
Definition str_or_null (o : option string) : jval := match o with Some s => JStr s | None => JNull end.
(** A note as it is written; absent fields are left out. *)
Definition note_json (n : PoolNote) : jval :=
  JObj ([("cluster", JStr (cluster n))] ++ opt_field "poolId" (poolId n) ++ opt_field "account" (account n) ++
        [("value", JStr (value n)); ("scope", scope n); ("leafIndex", leafIndex n); ("nullifier", JStr (nullifier n)); ("secret", JStr (secret n));
         ("commitment", JStr (commitment n)); ("spent", JBool (spent n)); ("createdAt", createdAt n)]).

(** ** Migration *)
Definition str_field (o : jval) (k d : string) : string := match prop o k with JStr s => s | _ => d end.
Definition num_field (o : jval) (k : string) (d : Z) : jval := if String.eqb (typeof (prop o k)) "number" then prop o k else JNum d.
Definition migrate_note (fallbackCluster : string) (now : Z) (index : nat) (item : jval) : B PoolNote :=
  if negb (truthy item) || negb (String.eqb (typeof item) "object")
  then corrupted ("Corrupted note item at index " +:+ bigint_toString 10 (Z.of_nat index) +:+ ".")
  else if negb (truthy (prop item "nullifier")) || negb (truthy (prop item "secret")) || negb (truthy (prop item "value"))
  then corrupted ("Note at index " +:+ bigint_toString 10 (Z.of_nat index) +:+ " is missing essential cryptographic parameters.")
  else mret (mkNote (str_field item "cluster" fallbackCluster) (Some (str_field item "poolId" "default")) None (js_String (prop item "value"))
               (num_field item "scope" 0) (num_field item "leafIndex" 0) (js_String (prop item "nullifier")) (js_String (prop item "secret"))
               (str_field item "commitment" "") (truthy (prop item "spent")) (num_field item "createdAt" now)).
Fixpoint migrate_items (fallbackCluster : string) (now : Z) (index : nat) (items : list jval) : B (list PoolNote) :=
  match items with
  | [] => mret []
  | item :: rest =>
      n ← migrate_note fallbackCluster now index item;
      l ← migrate_items fallbackCluster now (S index) rest;
      mret (n :: l)
  end.
Definition migrateDecryptedNotes (payload : jval) (fallbackCluster : string) (now : Z) (nowISO : string) : B DecryptedNoteBackupPayload :=
  if negb (truthy payload) || negb (String.eqb (typeof payload) "object") then corrupted "Decrypted note payload is malformed."
  else
    let rawNotes := match prop payload "notes" with JArr l => l | _ => match payload with JArr l => l | _ => [] end end in
    notes ← migrate_items fallbackCluster now 0 rawNotes;
    mret (mkPayload BACKUP_FORMAT_VERSION (str_field payload "createdAt" nowISO) (str_field payload "cluster" fallbackCluster)
            (match prop payload "poolId" with JStr s => Some s | _ => None end) notes).

Section backup.
Context `{BE : BackupEnv}.

(** ** Writing *)
Definition computeSha256Hex (data : list byte) : string := hex_of_bytes (sha256 data).
Definition payload_json (createdAt cluster : string) (poolId : option string) (notes : list PoolNote) : jval :=
  JObj [("version", JNum BACKUP_FORMAT_VERSION); ("createdAt", JStr createdAt); ("cluster", JStr cluster); ("poolId", str_or_null poolId); ("notes", JArr (note_json <$> notes))].
(** [salt] and [iv] are the bytes drawn; the envelope and the ciphertext *)
Definition createVersionedNoteBackupEnvelope (salt iv : list byte) (createdAt : string) (notes : list PoolNote) (pin cluster : string)
    (poolId appVersion : option string) : jval * list byte :=
  let key := pbkdf2 pin salt (JNum KDF_ITERATIONS) in
  let ciphertext := aes_encrypt key iv (utf8 (JSON_stringify (payload_json createdAt cluster poolId notes))) in
  (JObj [("$schema", JStr BACKUP_SCHEMA_URI); ("formatVersion", JNum BACKUP_FORMAT_VERSION); ("appVersion", JStr (default "1.0.0" appVersion));
         ("createdAt", JStr createdAt); ("cluster", JStr cluster); ("poolId", str_or_null poolId); ("noteCount", JNum (Z.of_nat (length notes)));
         ("integrityChecksum", JStr (computeSha256Hex ciphertext)); ("cipher", JStr "AES-256-GCM"); ("kdf", JStr "PBKDF2-SHA256");
         ("iterations", JNum KDF_ITERATIONS); ("salt", JStr (bytesToBase64 salt)); ("iv", JStr (bytesToBase64 iv));
         ("encryptedPayload", JStr (bytesToBase64 ciphertext))], ciphertext).
Definition readme_text (envelope : jval) : string :=
  join (String "010"%char "")
    ["Opaque Privacy-Pool Note Backup (Version 2)"; "========================================="; "";
     "This archive contains encrypted pool note spending material.";
     "The encrypted JSON cannot be recovered without the PIN used at export time.";
     "Anyone with the decrypted notes can withdraw the matching pool funds."; "";
     "Format Version: " +:+ js_String (prop envelope "formatVersion"); "Created At: " +:+ js_String (prop envelope "createdAt");
     "Note Count: " +:+ js_String (prop envelope "noteCount");
     "Integrity Checksum (SHA-256): " +:+ js_String (prop envelope "integrityChecksum"); ""].
Definition buildEncryptedPoolNoteBackup (salt iv : list byte) (createdAt : string) (notes : list PoolNote) (pin cluster : string) (poolId : option string) : list byte :=
  let '(envelope, ciphertext) := createVersionedNoteBackupEnvelope salt iv createdAt notes pin cluster poolId None in
  zip_generate [("manifest.json", utf8 (JSON_stringify envelope)); ("pool-notes.json.enc", ciphertext); ("README.txt", utf8 (readme_text envelope))].

(** ** Reading *)
Inductive BackupInput : Type := FromText (s : string) | FromBytes (b : list byte).
(** What the text holds, if it is an envelope *)
Definition read_text (input : string) : B (option (jval * list byte)) :=
  match JSON_parse input with
  | None => corrupted "Invalid backup JSON format."
  | Some parsed =>
      if truthy parsed && truthy (prop parsed "encryptedPayload") && truthy (prop parsed "salt") && truthy (prop parsed "iv") then
        match base64ToBytes (js_String (prop parsed "encryptedPayload")) with
        | Ok b => mret (Some (parsed, b))
        | Err _ => corrupted "Invalid backup JSON format."
        end
      else mret None
  end.
Fixpoint zip_file (name : string) (files : list (string * list byte)) : option (list byte) :=
  match files with
  | [] => None
  | (n, b) :: rest => if String.eqb n name then Some b else zip_file name rest
  end.
Definition read_zip (bytes : list byte) : B (jval * list byte) :=
  match zip_load bytes with
  | None => corrupted "Failed to parse backup ZIP archive. File may be corrupted."
  | Some files =>
      match zip_file "manifest.json" files, zip_file "pool-notes.json.enc" files with
      | Some manifest, Some enc =>
          match JSON_parse (TextDecoder_decode manifest) with
          | Some envelope => mret (envelope, enc)
          | None => corrupted "Failed to parse backup ZIP archive. File may be corrupted."
          end
      | _, _ => corrupted "Backup ZIP is missing manifest or encrypted notes payload."
      end
  end.
Definition read_envelope (input : BackupInput) : B (jval * list byte) :=
  match input with
  | FromText s =>
      r ← read_text s;
      match r with Some p => mret p | None => corrupted "Unrecognized backup file contents." end
  | FromBytes b =>
      r ← read_zip b;
      if truthy r.1 then mret r else corrupted "Unable to locate encrypted payload in backup."
  end.
Definition nullish_val (a b : jval) : jval := if is_nullish a then b else a.
Definition check_version (envelope : jval) : B unit :=
  let formatVersion := nullish_val (prop envelope "formatVersion") (nullish_val (prop envelope "version") (JNum 1)) in
  let bad := corrupted ("Unsupported backup format version: " +:+ js_String formatVersion) in
  match formatVersion with
  | JNum z => if z <? 1 then bad else mret tt
  | JFlt t => if below_one t then bad else mret tt
  | _ => bad
  end.
Definition check_integrity (envelope : jval) (ciphertext : list byte) : B unit :=
  let want := prop envelope "integrityChecksum" in
  if truthy want then
    match want with
    | JStr s => if String.eqb (toLowerCase (computeSha256Hex ciphertext)) (toLowerCase s) then mret tt
                else corrupted "Backup integrity check failed: payload checksum mismatch."
    | _ => inr (OtherError (TypeError "toLowerCase is not a function"))
    end
  else mret tt.
Definition iterations_of (envelope : jval) : jval :=
  match prop envelope "iterations" with
  | JNum z => if 0 <? z then JNum z else JNum KDF_ITERATIONS
  | JFlt t => if startsWith "-" t || String.eqb t "NaN" then JNum KDF_ITERATIONS else JFlt t
  | _ => JNum KDF_ITERATIONS
  end.
Definition importEncryptedPoolNoteBackup (input : BackupInput) (pin : string) (now : Z) (nowISO : string) : B DecryptedNoteBackupPayload :=
  r ← read_envelope input;
  let '(envelope, ciphertext) := r in
  check_version envelope;;
  check_integrity envelope ciphertext;;
  if negb (truthy (prop envelope "salt")) || negb (truthy (prop envelope "iv"))
  then corrupted "Backup manifest is missing cryptographic salt or IV parameters."
  else
    salt ← plainly (base64ToBytes (js_String (prop envelope "salt")));
    iv ← plainly (base64ToBytes (js_String (prop envelope "iv")));
    match aes_decrypt (pbkdf2 pin salt (iterations_of envelope)) iv ciphertext with
    | None => inr (InvalidPasswordError "Invalid PIN or corrupted backup payload.")
    | Some plaintext =>
        match JSON_parse (TextDecoder_decode plaintext) with
        | None => corrupted "Decrypted note payload is not valid JSON."
        | Some raw => migrateDecryptedNotes raw (match nullish_val (prop envelope "cluster") (JStr "testnet") with JStr s => s | v => js_String v end) now nowISO
        end
    end.

(** ** Round trips *)
Definition restored (n : PoolNote) : PoolNote :=
  mkNote (cluster n) (Some (default "default" (poolId n))) None (value n) (scope n) (leafIndex n) (nullifier n) (secret n) (commitment n) (spent n) (createdAt n).
(** A note with its secrets and its numbers *)
Definition complete (n : PoolNote) : Prop :=
  nullifier n ≠ "" ∧ secret n ≠ "" ∧ value n ≠ "" ∧ NoteCodec.is_finite (scope n) = true ∧ NoteCodec.is_finite (leafIndex n) = true ∧ NoteCodec.is_finite (createdAt n) = true.
Lemma finite_plain v : NoteCodec.is_finite v = true → plain v = true ∧ typeof v = "number".
Proof. destruct v; try done. Qed.
Lemma truthy_str s : s ≠ "" → truthy (JStr s) = true.
Proof. intros H. simpl. by rewrite (proj2 (String.eqb_neq s "") H). Qed.
Lemma note_json_plain n : complete n → plain (note_json n) = true.
Proof.
  intros (_ & _ & _ & [H1 _]%finite_plain & [H2 _]%finite_plain & [H3 _]%finite_plain).
  unfold note_json. destruct (poolId n), (account n); cbn [plain forallb app opt_field snd]; by rewrite H1, H2, H3.
Qed.
Lemma note_json_props n :
  (prop (note_json n) "cluster" = JStr (cluster n) ∧ prop (note_json n) "poolId" = match poolId n with Some s => JStr s | None => JUndef end ∧
   prop (note_json n) "value" = JStr (value n) ∧ prop (note_json n) "scope" = scope n ∧ prop (note_json n) "leafIndex" = leafIndex n) ∧
  prop (note_json n) "nullifier" = JStr (nullifier n) ∧ prop (note_json n) "secret" = JStr (secret n) ∧ prop (note_json n) "commitment" = JStr (commitment n) ∧
  prop (note_json n) "spent" = JBool (spent n) ∧ prop (note_json n) "createdAt" = createdAt n.
Proof. unfold note_json. destruct (poolId n), (account n); by repeat split. Qed.
Lemma migrate_note_json fb now i n : complete n → migrate_note fb now i (note_json n) = inl (restored n).
Proof.
  intros (Hn & Hs & Hv & [_ H1]%finite_plain & [_ H2]%finite_plain & [_ H3]%finite_plain).
  destruct (note_json_props n) as ((E1 & E2 & E3 & E4 & E5) & E6 & E7 & E8 & E9 & E10).
  unfold migrate_note, str_field, num_field. rewrite E1, E2, E3, E4, E5, E6, E7, E8, E9, E10, (truthy_str _ Hn), (truthy_str _ Hs), (truthy_str _ Hv), H1, H2, H3.
  cbn [truthy note_json typeof negb orb String.eqb Ascii.eqb Bool.eqb js_String]. unfold restored. by destruct (poolId n), (spent n).
Qed.
Lemma migrate_items_json fb now i l : Forall complete l → migrate_items fb now i (note_json <$> l) = inl (restored <$> l).
Proof.
  intros H. revert i. induction H as [|n l Hn _ IH]; intros i; [done|]. cbn [fmap list_fmap migrate_items]. fold (note_json <$> l).
  rewrite (migrate_note_json fb now i n Hn). cbn [mbind B_bind]. by rewrite IH.
Qed.
Lemma payload_migrates createdAt cl pool l fb now nowISO : Forall complete l →
  JSON_parse (JSON_stringify (payload_json createdAt cl pool l)) = Some (payload_json createdAt cl pool l) ∧
  migrateDecryptedNotes (payload_json createdAt cl pool l) fb now nowISO = inl (mkPayload BACKUP_FORMAT_VERSION createdAt cl pool (restored <$> l)).
Proof.
  intros Hl. split.
  - apply parse_stringify. assert (forallb plain (note_json <$> l) = true) as E; [|destruct pool; cbn; by rewrite E].
    apply forallb_forall. intros v Hv%list_elem_of_In. apply list_elem_of_fmap in Hv as (n & -> & Hn). rewrite Forall_forall in Hl. by apply note_json_plain, Hl.
  - unfold migrateDecryptedNotes. cbn [payload_json truthy typeof negb orb String.eqb Ascii.eqb Bool.eqb].
    change (prop (payload_json createdAt cl pool l) "notes") with (JArr (note_json <$> l)). cbv beta iota zeta. rewrite (migrate_items_json fb now 0 l Hl). by destruct pool.
Qed.

Lemma base64_truthy b : b ≠ [] → truthy (JStr (bytesToBase64 b)) = true.
Proof. intros H. apply truthy_str. intros E. apply (f_equal base64ToBytes) in E. unfold bytesToBase64, base64ToBytes in E.
  rewrite RelayBytes.base64ToBytes_bytesToBase64 in E. cbv in E. congruence. Qed.
Lemma base64_back b : base64ToBytes (bytesToBase64 b) = Ok b.
Proof. apply RelayBytes.base64ToBytes_bytesToBase64. Qed.

Section roundtrip.
Context (salt iv : list byte) (createdAt pin cl : string) (pool : option string) (l : list PoolNote) (Hsalt : salt ≠ []) (Hiv : iv ≠ []) (Hl : Forall complete l).
Context (appVersion : option string).
Abbreviation created := (createVersionedNoteBackupEnvelope salt iv createdAt l pin cl pool appVersion).
Abbreviation opened := (mkPayload BACKUP_FORMAT_VERSION createdAt cl pool (restored <$> l)).
Lemma envelope_plain : plain created.1 = true.
Proof. by destruct pool. Qed.
Lemma import_created input now nowISO : read_envelope input = inl created → importEncryptedPoolNoteBackup input pin now nowISO = inl opened.
Proof using Hsalt Hiv Hl.
  intros Hin. unfold importEncryptedPoolNoteBackup. rewrite Hin. cbn [mbind B_bind].
  destruct (payload_migrates createdAt cl pool l cl now nowISO Hl) as [Hp Hm].
  unfold createVersionedNoteBackupEnvelope. set (ct := aes_encrypt _ _ _). cbv zeta. set (e := JObj _).
  assert (E1 : prop e "formatVersion" = JNum 2 ∧ prop e "integrityChecksum" = JStr (computeSha256Hex ct) ∧ prop e "salt" = JStr (bytesToBase64 salt) ∧
    prop e "iv" = JStr (bytesToBase64 iv) ∧ prop e "iterations" = JNum KDF_ITERATIONS ∧ prop e "cluster" = JStr cl) by done.
  destruct E1 as (E1 & E2 & E3 & E4 & E5 & E6). clearbody e. unfold check_version. rewrite E1. cbn [nullish_val is_nullish Z.ltb Z.compare Pos.compare Pos.compare_cont mbind B_bind mret B_ret].
  assert (check_integrity e ct = inl tt) as ->. { unfold check_integrity. rewrite E2. destruct (truthy _); [by rewrite String.eqb_refl|done]. }
  cbn [mbind B_bind]. rewrite E3, E4, (base64_truthy salt Hsalt), (base64_truthy iv Hiv). cbn [negb orb js_String]. rewrite !base64_back. cbn [plainly mbind B_bind].
  unfold iterations_of. rewrite E5. change (0 <? KDF_ITERATIONS) with true. cbv iota. unfold ct. rewrite decrypt_encrypt, decode_utf8, Hp, E6. cbn [nullish_val is_nullish]. exact Hm.
Qed.
Lemma read_created_text : read_envelope (FromText (JSON_stringify created.1)) = inl created.
Proof using Hsalt Hiv.
  unfold read_envelope, read_text. rewrite parse_stringify by apply envelope_plain. unfold createVersionedNoteBackupEnvelope. cbn [fst]. set (ct := aes_encrypt _ _ _).
  assert (Hct : ct ≠ []) by apply encrypt_nonempty. clearbody ct. set (e := JObj _).
  assert (E : prop e "encryptedPayload" = JStr (bytesToBase64 ct) ∧ prop e "salt" = JStr (bytesToBase64 salt) ∧ prop e "iv" = JStr (bytesToBase64 iv) ∧ truthy e = true) by done.
  destruct E as (-> & -> & -> & ->). rewrite !base64_truthy by done. cbn [andb js_String]. by rewrite base64_back.
Qed.
Lemma read_built_zip : appVersion = None → read_envelope (FromBytes (buildEncryptedPoolNoteBackup salt iv createdAt l pin cl pool)) = inl created.
Proof.
  intros E. rewrite E. pose proof envelope_plain as Hp. rewrite E in Hp. unfold read_envelope, buildEncryptedPoolNoteBackup, read_zip.
  destruct (createVersionedNoteBackupEnvelope _ _ _ _ _ _ _ _) as [e ct] eqn:Ec. rewrite load_generate. cbn [zip_file String.eqb Ascii.eqb Bool.eqb].
  rewrite decode_utf8, parse_stringify by exact Hp. cbn [mbind B_bind mret B_ret fst]. unfold createVersionedNoteBackupEnvelope in Ec. injection Ec as <- _. done.
Qed.
End roundtrip.

(** *** Restored into a store *)
Lemma import_into_empty acct l (Hnd : NoDup (NoteStore.noteKey <$> l)) :
  NoteStore.importNotes l (NoteStore.mkState [] acct) =
  (NoteStore.mkConflict 0 (Z.of_nat (length l)), NoteStore.mkState ((λ n, with_account (NoteStore.nullish (account n) acct) n) <$> l) acct).
Proof.
  unfold NoteStore.importNotes, NoteStore.seeded. cbn [foldl NoteStore.notes NoteStore.activeAccount]. set (g := λ n, with_account _ n).
  assert (H : foldl (NoteStore.merge acct) ([], NoteStore.mkConflict 0 0) l = ((λ n, (NoteStore.noteKey n, g n)) <$> l, NoteStore.mkConflict 0 (Z.of_nat (length l)))).
  { induction l as [|n l IH] using rev_ind; [done|]. rewrite fmap_app in Hnd. apply NoDup_app in Hnd as (Hnd & Hdis & _).
    rewrite foldl_app, IH by done. cbn [foldl]. unfold NoteStore.merge. change (NoteStore.noteKey (with_account _ n)) with (NoteStore.noteKey n).
    assert (Hk : NoteStore.noteKey n ∉ JMap.keys ((λ n, (NoteStore.noteKey n, g n)) <$> l)).
    { unfold JMap.keys. rewrite <-list_fmap_compose. intros Hin. apply (Hdis (NoteStore.noteKey n)); [exact Hin|]. by apply list_elem_of_singleton. }
    rewrite (proj2 (JMap.get_None_keys _ _) Hk). cbn [andb]. rewrite JMap.set_absent by done. rewrite fmap_app, length_app. cbn. f_equal. f_equal. lia. }
  rewrite H. f_equal. f_equal. unfold JMap.vals. by rewrite <-list_fmap_compose.
Qed.
Lemma sum_from_ext {A} (f g : A → PoolNote) l : (∀ n, value (f n) = value (g n)) → ∀ z, sum_from z (f <$> l) = sum_from z (g <$> l).
Proof. intros H. induction l as [|n l IH]; intros z; [done|]. cbn [fmap list_fmap sum_from]. rewrite (H n). destruct (BigInt _); [apply IH|done]. Qed.
Lemma unspent_ext (f : PoolNote → PoolNote) l : (∀ n, value (f n) = value n ∧ spent (f n) = spent n) → unspentTotal (f <$> l) = unspentTotal l.
Proof.
  intros H. unfold unspentTotal. assert (E : List.filter (λ n, negb (spent n)) (f <$> l) = f <$> List.filter (λ n, negb (spent n)) l).
  { induction l as [|n l IH]; [done|]. cbn [fmap list_fmap List.filter]. destruct (H n) as [_ ->]. destruct (negb (spent n)); cbn [fmap list_fmap]; by rewrite <-IH. }
  rewrite E. rewrite <-(list_fmap_id (List.filter _ l)) at 2. apply sum_from_ext. intros n. apply H.
Qed.

(** C21 (roundtrip): A backup restores the notes.  Read back with its pin from the text of the
    envelope or from the archive, a backup of complete notes gives every one of them with its
    secrets, value and spent flag; imported into an empty store, with no two under one key,
    they are all there, for the active account and with the same unspent total. *)
Theorem backup_restores_notes salt iv createdAt pin cl pool l acct now nowISO
    (Hsalt : salt ≠ []) (Hiv : iv ≠ []) (Hl : Forall complete l) (Hnd : NoDup (NoteStore.noteKey <$> (restored <$> l))) :
  let envelope := (createVersionedNoteBackupEnvelope salt iv createdAt l pin cl pool None).1 in
  let opened := importEncryptedPoolNoteBackup (FromText (JSON_stringify envelope)) pin now nowISO in
  importEncryptedPoolNoteBackup (FromBytes (buildEncryptedPoolNoteBackup salt iv createdAt l pin cl pool)) pin now nowISO = opened ∧
  ∃ payload, opened = inl payload ∧ py_notes payload = restored <$> l ∧ py_cluster payload = cl ∧ py_poolId payload = pool ∧
    let '(counts, s) := NoteStore.importNotes (py_notes payload) (NoteStore.mkState [] acct) in
    NoteStore.imported counts = Z.of_nat (length l) ∧ NoteStore.spentPreserved counts = 0 ∧
    NoteStore.notes s = (λ n, with_account acct (restored n)) <$> l ∧ unspentTotal (NoteStore.notes s) = unspentTotal l.
Proof.
  cbv zeta. rewrite (import_created salt iv createdAt pin cl pool l Hsalt Hiv Hl None (FromBytes _) now nowISO) by by apply read_built_zip.
  rewrite (import_created salt iv createdAt pin cl pool l Hsalt Hiv Hl None (FromText _) now nowISO) by by apply read_created_text. split; [done|].
  eexists. split; [done|]. split; [done|]. split; [done|]. split; [done|]. cbn [py_notes]. rewrite (import_into_empty acct (restored <$> l) Hnd).
  cbn [NoteStore.imported NoteStore.spentPreserved NoteStore.notes]. rewrite length_fmap, <-list_fmap_compose. split; [done|]. split; [done|].
  split; [done|]. by apply unspent_ext.
Qed.

(** What was changed on the way is refused. *)
Lemma changed_ciphertext_refused envelope ct checksum :
  prop envelope "integrityChecksum" = JStr checksum → checksum ≠ "" → toLowerCase (computeSha256Hex ct) ≠ toLowerCase checksum →
  check_integrity envelope ct = corrupted "Backup integrity check failed: payload checksum mismatch.".
Proof. intros E Hne Hd. unfold check_integrity. rewrite E, (truthy_str _ Hne). by rewrite (proj2 (String.eqb_neq _ _) Hd). Qed.
End backup.

(** A note from before pools were recorded, backed up, then spent: restored, it is there a
    second time, unspent. *)
Lemma legacy_note_reappears :
  let n := NoteStore.legacy_note "testnet" 3 "10" "7" in
  let '(counts, s) := NoteStore.importNotes [restored n] (NoteStore.mkState [as_spent n] None) in
  NoteStore.spentPreserved counts = 0 ∧ (λ m, (nullifier m, spent m)) <$> NoteStore.notes s = [("7", true); ("7", false)].
Proof. vm_compute. done. Qed.

(** ** A toy environment: values and archives written as numbers *)
Fixpoint tree_of (v : jval) : gen_tree (string + Z) :=
  match v with
  | JUndef => GenNode 0 []
  | JNull => GenNode 1 []
  | JBool false => GenNode 2 []
  | JBool true => GenNode 3 []
  | JNum z => GenLeaf (inr z)
  | JFlt t => GenNode 4 [GenLeaf (inl t)]
  | JStr s => GenLeaf (inl s)
  | JArr l => GenNode 5 (map tree_of l)
  | JObj fs => GenNode 6 (map (λ kv, GenNode 7 [GenLeaf (inl kv.1); tree_of kv.2]) fs)
  end.
Fixpoint of_tree (t : gen_tree (string + Z)) : jval :=
  match t with
  | GenNode 1 [] => JNull
  | GenNode 2 [] => JBool false
  | GenNode 3 [] => JBool true
  | GenLeaf (inr z) => JNum z
  | GenNode 4 [GenLeaf (inl s)] => JFlt s
  | GenLeaf (inl s) => JStr s
  | GenNode 5 l => JArr (map of_tree l)
  | GenNode 6 l => JObj (map (λ e, match e with GenNode 7 [GenLeaf (inl k); v] => (k, of_tree v) | _ => ("", JUndef) end) l)
  | _ => JUndef
  end.
Lemma of_tree_of : ∀ v, of_tree (tree_of v) = v.
Proof.
  fix go 1. intros [| |[]|z|t|s|l|fs]; try reflexivity; cbn [tree_of of_tree]; f_equal.
  - induction l as [|v l IH]; [reflexivity|]. cbn [map]. f_equal; [apply go|exact IH].
  - induction fs as [|[k v] fs IH]; [reflexivity|]. cbn [map fst snd]. f_equal; [|exact IH]. f_equal. apply go.
Qed.
Fixpoint bits (p : positive) : string :=
  match p with
  | xH => ""
  | xO p => String "0" (bits p)
  | xI p => String "1" (bits p)
  end.
Fixpoint unbits (s : string) : positive :=
  match s with
  | EmptyString => xH
  | String c s => if Ascii.eqb c "0" then xO (unbits s) else xI (unbits s)
  end.
Lemma unbits_bits p : unbits (bits p) = p.
Proof. induction p as [p IH|p IH|]; simpl; [by rewrite IH..|done]. Qed.
Fixpoint unutf8 (l : list byte) : string :=
  match l with
  | [] => ""
  | a :: rest =>
      if byte_val a <? 128 then String (char (byte_val a)) (unutf8 rest)
      else match rest with b :: rest' => String (char ((byte_val a - 192) * 64 + (byte_val b - 128))) (unutf8 rest') | [] => "" end
  end.
Lemma unutf8_utf8 s : unutf8 (utf8 s) = s.
Proof.
  induction s as [|c s IH]; [done|]. assert (E : utf8 (String c s) = map to_byte (utf8_char c) ++ utf8 s) by done. rewrite E. clear E.
  assert (H : ∀ r, unutf8 (map to_byte (utf8_char c) ++ r) = String c (unutf8 r)) by (intros r; by_cases_char c; reflexivity). by rewrite H, IH.
Qed.
Definition as_numbers (f : string * list byte) : string * list Z := (f.1, map byte_val f.2).
Definition as_bytes (f : string * list Z) : string * list byte := (f.1, map to_byte f.2).
Definition toy_backup : BackupEnv.
Proof.
  refine {|
    Key := unit; pbkdf2 := λ _ _ _, tt; aes_encrypt := λ _ _ p, Byte.x00 :: p; aes_decrypt := λ _ _ c, tail <$> Some c; sha256 := λ b, b;
    JSON_stringify := λ v, bits (encode (tree_of v)); JSON_parse := λ s, of_tree <$> decode (unbits s);
    TextDecoder_decode := unutf8; zip_generate := λ l, utf8 (bits (encode (map as_numbers l)));
    zip_load := λ b, match decode (A := list (string * list Z)) (unbits (unutf8 b)) with Some l => Some (map as_bytes l) | None => None end; below_one := λ _, false |}.
  - done.
  - done.
  - intros v _. rewrite unbits_bits, decode_encode. simpl. by rewrite of_tree_of.
  - apply unutf8_utf8.
  - intros l. rewrite unutf8_utf8, unbits_bits, decode_encode. f_equal. rewrite map_map. rewrite <-(map_id l) at 2. apply map_ext. intros [n b].
    unfold as_bytes, as_numbers. simpl. f_equal. rewrite map_map. rewrite <-(map_id b) at 2. apply map_ext. apply to_byte_val.
Defined.

#[local] Existing Instance toy_backup.
Definition toy_note (leaf : Z) (sp : bool) : PoolNote :=
  mkNote "testnet" (Some "CPOOL") (Some "GA") "1000000" (JNum 7) (JNum leaf) "11" "22" "0x01" sp (JNum 5).
Definition toy_salt : list byte := repeat Byte.x01 16.
Definition toy_iv : list byte := repeat Byte.x02 12.
Lemma backup_restores_notes_witness :
  ∃ payload, importEncryptedPoolNoteBackup (FromBytes (buildEncryptedPoolNoteBackup toy_salt toy_iv "t" [toy_note 3 true; toy_note 4 false] "1234" "testnet" (Some "CPOOL"))) "1234" 0 "" = inl payload ∧
    (λ n, (leafIndex n, spent n)) <$> py_notes payload = [(JNum 3, true); (JNum 4, false)].
Proof.
  destruct (backup_restores_notes toy_salt toy_iv "t" "1234" "testnet" (Some "CPOOL") [toy_note 3 true; toy_note 4 false] (Some "GB") 0 ""
    ltac:(discriminate) ltac:(discriminate)) as (H1 & payload & H2 & H3 & _).
  - repeat constructor; discriminate.
  - cbn. apply NoDup_cons. split; [|apply NoDup_singleton]. intros H%list_elem_of_singleton. discriminate H.
  - exists payload. split; [rewrite H1; exact H2|]. rewrite H3. reflexivity.
Defined.
