(* ===== verification/WebPrograms.v ===== *)
(** * Web application: contract calls and what the contracts make of them

    [frontend/src/lib/programs.ts] over [WebChain.v], and the pool and registry calls read by
    the contracts' own parameters.  A contract value keeps its content and not its type tag:
    addresses, symbols and bytes (in hexadecimal) are text.  Strkeys are a parameter. *)
From Stdlib Require Import Ascii.
From stdpp Require Import base tactics list sets gmap strings relations.
From Stdlib Require Import ZArith Lia.
From S2P Require Import Prelude JsString JsMap Json Bytes PubValidate RelPayload SdkCodec SdkPool SdkSchema SdkStealth.
From S2P Require Import Soroban RegContract RegProofs PoolContract PoolProofs WebErrors WebSoroban WebChain WebStealth WebSpend WebNotes WebSweep.
Open Scope string_scope.
Open Scope list_scope.
Open Scope Z_scope.

Definition bytesToScVal (b : list byte) : jval := JStr (hex_of_bytes b).
Definition encodeBytesNScVal (value : list byte) : jval := JStr (hex_of_bytes value).
Definition bytesToHex (b : list byte) : string := hex_of_bytes b.
Definition hexPubkeyToBase58 (hexOrAddr : string) : string := hexOrAddr.

Section programs.
Context {W : Type} `{!Network W}.
Context (isValidEd25519PublicKey : string → bool) (decodeEd25519PublicKey : string → res (list byte)).
(** The contracts of the deployment *)
Context (schemaRegistry attestationEngineV2 groth16Verifier : string) (pool : option PoolDeployment) (registryId : option string) (network : string).
(** The wallet *)
Context (wallet : W → NetworkValidation.Wallet) (signTransaction : Tx → T W Tx).
Abbreviation call source contractId method args := (invokeContractMethod source contractId method args true network wallet signTransaction).

(** ** Schemas and attestations *)
Definition invokeRegisterSchema (authority : string) (schemaId : list byte) (name fieldDefinitions : string) (revocable : bool) (version : option Z)
    (resolver : option string) (schemaExpiryLedger : Z) : T (World W) string :=
  authorityKey ← of_res (decodeEd25519PublicKey authority);
  call authority schemaRegistry "register_schema"
    [JStr authority; bytesToScVal authorityKey; bytesToScVal schemaId; JStr name; JStr fieldDefinitions; JBool revocable; JNum (default 1 version);
     match resolver with Some "" | None => JNull | Some r => JStr r end; JNum schemaExpiryLedger].
Definition invokeAttest (issuer : string) (schemaId stealthAddressHash data : list byte) (expirationLedger : Z) (refUid : list byte) : T (World W) string :=
  call issuer attestationEngineV2 "attest"
    [JStr issuer; bytesToScVal schemaId; bytesToScVal stealthAddressHash; bytesToScVal data; JNum expirationLedger; bytesToScVal refUid].
Definition invokeRevokeAttestation (revoker : string) (uid : list byte) : T (World W) string :=
  call revoker attestationEngineV2 "revoke_attestation" [JStr revoker; bytesToScVal uid].
Definition invokeDeprecateSchema (authority : string) (schemaId : list byte) : T (World W) string :=
  call authority schemaRegistry "deprecate_schema" [JStr authority; bytesToScVal schemaId].
Definition bad_delegate : thrown := TError "Delegate must be a valid Stellar account address (G…)." [] None.
Definition invokeAddDelegate (authority : string) (schemaId : list byte) (delegate : string) : T (World W) string :=
  if negb (isValidEd25519PublicKey delegate) then raise bad_delegate
  else call authority schemaRegistry "add_delegate" [JStr authority; bytesToScVal schemaId; JStr delegate].
Definition invokeRemoveDelegate (authority : string) (schemaId : list byte) (delegate : string) : T (World W) string :=
  if negb (isValidEd25519PublicKey delegate) then raise bad_delegate
  else call authority schemaRegistry "remove_delegate" [JStr authority; bytesToScVal schemaId; JStr delegate].
Definition invokeVerifyProofV2 (caller : string) (proofA proofB proofC merkleRoot attestationId externalNullifier nullifierHash : list byte) : T (World W) string :=
  call caller groth16Verifier "verify_proof_v2"
    [bytesToScVal proofA; bytesToScVal proofB; bytesToScVal proofC;
     JObj [("merkle_root", bytesToScVal merkleRoot); ("attestation_id", bytesToScVal attestationId);
           ("external_nullifier", bytesToScVal externalNullifier); ("nullifier_hash", bytesToScVal nullifierHash)]].

(** ** The pool *)
Definition requireRelayerRegistryId : T (World W) string :=
  match registryId with
  | Some r => mret r
  | None => raise (RelayerNotConfiguredError (mkInit "Relayer market is not deployed on this network." None []) network)
  end.
Definition invokePoolDeposit (depositor : string) (value : Z) (commitment : list byte) (expectedIndex : Z) : T (World W) string :=
  poolId ← requirePoolId pool network;
  call depositor poolId "deposit" (deposit_args depositor value commitment expectedIndex).
Definition withdraw_args (c : WithdrawCall) : list jval :=
  [bytesToScVal (wc_proof_a c); bytesToScVal (wc_proof_b c); bytesToScVal (wc_proof_c c); JNum (wc_withdrawn_value c); bytesToScVal (wc_state_root c);
   bytesToScVal (wc_asp_root c); bytesToScVal (wc_nullifier_hash c); bytesToScVal (wc_new_commitment c); JStr (wc_recipient c); JNum (wc_fee c); JStr (wc_relayer c)].
(** The options of the call are the fields of the contract's. *)
Definition invokePoolWithdraw (caller : string) (opts : WithdrawCall) : T (World W) string :=
  poolId ← requirePoolId pool network;
  call caller poolId "withdraw" (withdraw_args opts).
Definition invokePoolRoot (admin : string) (state : bool) (root datasetHash : list byte) : T (World W) string :=
  poolId ← requirePoolId pool network;
  call admin poolId (if state then "update_state_root" else "update_asp_root") [JStr admin; bytesToScVal root; bytesToScVal datasetHash].
Definition invokeUpdateAspRoot (admin : string) (root datasetHash : list byte) : T (World W) string := invokePoolRoot admin false root datasetHash.
Definition invokeUpdateStateRoot (admin : string) (root datasetHash : list byte) : T (World W) string := invokePoolRoot admin true root datasetHash.

(** ** The relayer market *)
Definition invokeRelayerCreateJob (creator : string) (jobId payloadHash : list byte) (deadlineLedger fee : Z) : T (World W) string :=
  registry ← requireRelayerRegistryId;
  call creator registry "create_job" [JStr creator; bytesToScVal jobId; bytesToScVal payloadHash; JNum deadlineLedger; JNum fee].
Definition invokeRelayerCancelJob (creator : string) (jobId : list byte) : T (World W) string :=
  registry ← requireRelayerRegistryId;
  call creator registry "cancel_job" [JStr creator; bytesToScVal jobId].
Definition invokeRelayerSlashJob (creator : string) (jobId : list byte) : T (World W) string :=
  registry ← requireRelayerRegistryId;
  call creator registry "slash_job" [JStr creator; bytesToScVal jobId].
End programs.

(** ** Read by the contracts

    Arguments go to parameters by position, at the parameters' widths. *)
Definition bytesN (n : nat) (v : jval) : option (list byte) :=
  match v with JStr s => b ← bytes_of_hex s; if (length b =? n)%nat then Some b else None | _ => None end.
Definition at_width (fits : Z → bool) (v : jval) : option Z := match v with JNum z => if fits z then Some z else None | _ => None end.
Definition text (v : jval) : option string := match v with JStr s => Some s | _ => None end.
Definition pool_call (method : string) (args : list jval) : option PoolProofs.Call :=
  if String.eqb method "deposit" then
    match args with
    | [d; v; c; i] => d ← text d; v ← at_width in_i128 v; c ← bytesN 32 c; i ← at_width in_u64 i; Some (PoolProofs.Deposit d v c i)
    | _ => None
    end
  else if String.eqb method "withdraw" then
    match args with
    | [a; b; c; v; sr; ar; nh; nc; r; f; rl] =>
        a ← bytesN 64 a; b ← bytesN 128 b; c ← bytesN 64 c; v ← at_width in_i128 v; sr ← bytesN 32 sr; ar ← bytesN 32 ar; nh ← bytesN 32 nh; nc ← bytesN 32 nc;
        r ← text r; f ← at_width in_i128 f; rl ← text rl; Some (PoolProofs.Withdraw (mkWithdrawCall a b c v sr ar nh nc r f rl))
    | _ => None
    end
  else if String.eqb method "update_state_root" || String.eqb method "update_asp_root" then
    match args with
    | [ad; r; h] => ad ← text ad; r ← bytesN 32 r; h ← bytesN 32 h; Some (PoolProofs.UpdateRoot ad r h (if String.eqb method "update_state_root" then Pool.STATE else Pool.ASP))
    | _ => None
    end
  else None.
Definition registry_call (method : string) (args : list jval) : option RegProofs.Call :=
  if String.eqb method "create_job" then
    match args with
    | [c; i; h; d; f] => c ← text c; i ← bytesN 32 i; h ← bytesN 32 h; d ← at_width in_u32 d; f ← at_width in_i128 f; Some (RegProofs.CreateJob c i h d f)
    | _ => None
    end
  else if String.eqb method "cancel_job" || String.eqb method "slash_job" then
    match args with
    | [c; i] => c ← text c; i ← bytesN 32 i; Some (if String.eqb method "cancel_job" then RegProofs.CancelJob c i else RegProofs.SlashJob c i)
    | _ => None
    end
  else None.

Lemma bytesN_back n b : length b = n → bytesN n (bytesToScVal b) = Some b.
Proof. intros Hl. unfold bytesN, bytesToScVal. rewrite bytes_of_hex_of_bytes. simpl. by rewrite Hl, Nat.eqb_refl. Qed.
Lemma at_width_back fits z : fits z = true → at_width fits (JNum z) = Some z.
Proof. intros H. simpl. by rewrite H. Qed.

Section reached.
Context {W : Type} `{!Network W} (pool : option PoolDeployment) (registryId : option string) (network : string).
Context (wallet : W → NetworkValidation.Wallet) (signTransaction : Tx → T W Tx).

(** The wallet was asked to sign nothing, or one call to the contract by the source. *)
Definition asks_only (source contractId : string) (P : string → list jval → Prop) (w w' : World W) : Prop :=
  wo_asked w' = wo_asked w ∨ ∃ method args, wo_asked w' = wo_asked w ++ [call_tx source contractId method args] ∧ P method args.
Lemma wallet_call_asks source contractId method args wanted (P : string → list jval → Prop) (w w' : World W) x : P method args →
  invokeContractMethod source contractId method args wanted network wallet signTransaction w = (x, w') → asks_only source contractId P w w'.
Proof.
  intros HP (w1 & H & _ & Ea & _)%counted_run. unfold asks_only. rewrite Ea. clear Ea.
  apply T_bind_case in H as [(e & [(_ & Ha & _) _]%prepared_run & _)|(t & w2 & [(_ & Ha & _) Ht]%prepared_run & H)]; [by left|].
  destruct (Ht t eq_refl) as [-> _]. rewrite <-Ha. clear Ha Ht.
  apply T_bind_case in H as [(e & H & _)|(wl & w3 & (_ & Ha & _)%on_env_run & H)]; [discriminate H|]. rewrite <-Ha. clear Ha.
  apply T_bind_case in H as [(e & [-> _]%of_res_run & _)|(u & w4 & [-> _]%of_res_run & H)]; [by left|]. right. exists method, args. split; [|done].
  assert (Hask : ∀ y w5, asking (call_tx source contractId method args) (signTransaction (call_tx source contractId method args)) w3 = (y, w5) →
    wo_asked w5 = wo_asked w3 ++ [call_tx source contractId method args]).
  { intros y w5. unfold asking. destruct (signTransaction _ _) as [y' e']. by intros [= _ <-]. }
  apply T_bind_case in H as [(e & Hs%Hask & _)|(signed & w5 & Hs%Hask & (_ & Ha & _)%confirmed_run)]; [done|by rewrite Ha].
Qed.

(** What the contract reads is what was asked for. *)
Definition deposits (source : string) (value : Z) (commitment : list byte) (index : Z) (m : string) (args : list jval) : Prop :=
  pool_call m args = Some (PoolProofs.Deposit source value commitment index).
Definition pays_out (c : WithdrawCall) (m : string) (args : list jval) : Prop := pool_call m args = Some (PoolProofs.Withdraw c).
Definition withdrawal_fits (c : WithdrawCall) : Prop :=
  length (wc_proof_a c) = 64%nat ∧ length (wc_proof_b c) = 128%nat ∧ length (wc_proof_c c) = 64%nat ∧ in_i128 (wc_withdrawn_value c) = true ∧
  length (wc_state_root c) = 32%nat ∧ length (wc_asp_root c) = 32%nat ∧ length (wc_nullifier_hash c) = 32%nat ∧ length (wc_new_commitment c) = 32%nat ∧ in_i128 (wc_fee c) = true.
Lemma deposit_args_read d v c i : in_i128 v = true → length c = 32%nat → in_u64 i = true → deposits d v c i "deposit" (deposit_args d v c i).
Proof. intros Hv Hc Hi. unfold deposits, deposit_args, pool_call. cbn -[bytesN at_width]. rewrite (at_width_back _ _ Hv). cbn -[bytesN at_width]. fold (bytesToScVal c). by rewrite (bytesN_back 32 c Hc), (at_width_back _ _ Hi). Qed.
Lemma withdraw_args_read c : withdrawal_fits c → pays_out c "withdraw" (withdraw_args c).
Proof.
  intros (H1 & H2 & H3 & H4 & H5 & H6 & H7 & H8 & H9). unfold pays_out, withdraw_args, pool_call. cbn -[bytesN at_width].
  rewrite (bytesN_back 64 _ H1), (bytesN_back 128 _ H2), (bytesN_back 64 _ H3), (at_width_back _ _ H4), (bytesN_back 32 _ H5), (bytesN_back 32 _ H6), (bytesN_back 32 _ H7),
    (bytesN_back 32 _ H8). cbn -[bytesN at_width]. rewrite (at_width_back _ _ H9). by destruct c.
Qed.

(** Pool calls of the web application mean what they say: whatever a deposit or a
    withdrawal through the wallet ends in, the only thing the wallet was asked to sign is a
    call to the deployed pool that the contract reads as that deposit by the depositor, or
    that withdrawal, every parameter in its place and width. *)
Theorem pool_calls_are_read caller c depositor v cm i cfg (Hpool : pool = Some cfg) (Hc : withdrawal_fits c)
    (Hv : in_i128 v = true) (Hcm : length cm = 32%nat) (Hi : in_u64 i = true) (w : World W) :
  (∀ x w', invokePoolDeposit pool network wallet signTransaction depositor v cm i w = (x, w') → asks_only depositor (po_poolId cfg) (deposits depositor v cm i) w w') ∧
  (∀ x w', invokePoolWithdraw pool network wallet signTransaction caller c w = (x, w') → asks_only caller (po_poolId cfg) (pays_out c) w w').
Proof.
  split; intros x w' H.
  - unfold invokePoolDeposit in H. rewrite Hpool in H. eapply wallet_call_asks, H. by apply deposit_args_read.
  - unfold invokePoolWithdraw in H. rewrite Hpool in H. eapply wallet_call_asks, H. by apply withdraw_args_read.
Qed.

(** The same for the jobs of the relayer market. *)
Definition names (c : RegProofs.Call) (m : string) (args : list jval) : Prop := registry_call m args = Some c.
Lemma market_calls_are_read creator id hash deadline fee registry (w : World W) : registryId = Some registry →
  length id = 32%nat → length hash = 32%nat → in_u32 deadline = true → in_i128 fee = true →
  (∀ x w', invokeRelayerCreateJob registryId network wallet signTransaction creator id hash deadline fee w = (x, w') →
     asks_only creator registry (names (RegProofs.CreateJob creator id hash deadline fee)) w w') ∧
  (∀ x w', invokeRelayerCancelJob registryId network wallet signTransaction creator id w = (x, w') → asks_only creator registry (names (RegProofs.CancelJob creator id)) w w') ∧
  (∀ x w', invokeRelayerSlashJob registryId network wallet signTransaction creator id w = (x, w') → asks_only creator registry (names (RegProofs.SlashJob creator id)) w w').
Proof.
  intros Hr Hid Hh Hd Hf. split_and!; intros x w' H;
    unfold invokeRelayerCreateJob, invokeRelayerCancelJob, invokeRelayerSlashJob, requireRelayerRegistryId in H; rewrite Hr in H;
    eapply wallet_call_asks, H; unfold names, registry_call; cbn -[bytesN at_width].
  - by rewrite (bytesN_back 32 _ Hid), (bytesN_back 32 _ Hh), (at_width_back _ _ Hd), (at_width_back _ _ Hf).
  - by rewrite (bytesN_back 32 _ Hid).
  - by rewrite (bytesN_back 32 _ Hid).
Qed.
End reached.
