(* ===== verification/WebProver.v ===== *)
(** * Web application: the withdrawal prover

    [frontend/src/lib/poolProver.ts], and its agreement with the SDK's prover of [SdkPool.v].
    The event server and the worker that proves are a class: what they answer and change is
    arbitrary.  Poseidon, Keccak-256, the XDR encoder of addresses and the conversion of
    contract values are parameters; progress reports are left out. *)
From Stdlib Require Import Ascii.
From stdpp Require Import base tactics list sets strings.
From Stdlib Require Import ZArith Lia QArith.
From S2P Require Import Prelude JsString JsMap Json Bytes Merkle PubValidate RelPayload SdkCodec SdkPool SdkSchema SdkStealth.
From S2P Require Import WebErrors WebSoroban WebChain WebNotes WebSweep.
Open Scope string_scope.
Open Scope list_scope.
Open Scope Z_scope.

Definition WASM_PATH : string := "circuits/v3/privacy_pool_withdraw.wasm".
Definition ZKEY_PATH : string := "circuits/v3/privacy_pool_withdraw_final.zkey".
Definition EVENT_LOOKBACK : Z := 16000.

(** ** The server *)
(** The data of a [Deposit] or a [Withdraw]: the leaf and its index *)
Record PoolEv : Type := mkPoolEv { pv_commitment : list byte; pv_index : Z }.
Record PoolPage : Type := mkPoolPage { pg_events : option (list PoolEv); pg_cursor : option string }.
Inductive PageFrom : Type := FromCursor (c : string) | FromLedger (l : Z).
Class ProverServer (W : Type) : Type := {
  getLatestLedger : T W Z;
  oldestLedger : T W Z;                                      (** of [getHealth] *)
  getEvents : bool → PageFrom → T W PoolPage;                (** deposits or withdrawals *)
  proveInWorker : CircuitInput → T W Groth16ProofLike;
}.

(** ** Text of an error about the ledger range *)
Fixpoint leading_digits (s : string) : string :=
  match s with String c s' => if is_dec c then String c (leading_digits s') else "" | EmptyString => "" end.
(** [\s*(\d+)\s*-\s*(\d+)] at the start *)
Definition range_start (s : string) : option Z :=
  let s := trimStart s in
  let d := leading_digits s in
  let s := trimStart (drop_string (String.length d) s) in
  if negb (String.eqb d "") && startsWith "-" s && negb (String.eqb (leading_digits (trimStart (drop_string 1 s))) "")
  then bigint_of_string d else None.
Fixpoint range_in (s : string) : option Z :=
  match s with
  | EmptyString => None
  | String _ s' =>
      if startsWith "ledger range:" s
      then match range_start (drop_string 13 s) with Some z => Some z | None => range_in s' end
      else range_in s'
  end.
Definition parseOldestLedgerFromRangeError (err : thrown) : option Z :=
  range_in (match err with
            | TValue (JStr s) => s
            | TValue v => match prop v "message" with JStr s => s | _ => "" end
            | e => errorMessage e
            end).

Section prover.
Context {W : Type} `{!ProverServer W}.
Definition poolEventStartLedger (deploymentLedger : option Z) : T W Z :=
  latest ← getLatestLedger;
  let start := match deploymentLedger with Some d => if 0 <? d then d else Z.max 1 (latest - EVENT_LOOKBACK) | None => Z.max 1 (latest - EVENT_LOOKBACK) end in
  attempt (oldest ← oldestLedger; mret (if start <? oldest then oldest else start)) (λ _, mret start).

(** ** The events *)
Record Scan : Type := mkScan { sn_byIndex : list (Z * Z); sn_depositIndices : list Z; sn_startLedger : Z }.
Definition on_event (isDeposit : bool) (ev : PoolEv) (s : Scan) : res Scan :=
  commitment ← BigInt ("0x" +:+ hex_of_bytes (pv_commitment ev));
  Ok (mkScan (JMap.set (pv_index ev) commitment (sn_byIndex s))
        (if isDeposit then sn_depositIndices s ++ [pv_index ev] else sn_depositIndices s) (sn_startLedger s)).
Fixpoint on_events (isDeposit : bool) (evs : list PoolEv) (s : Scan) : res Scan :=
  match evs with [] => Ok s | ev :: rest => s' ← on_event isDeposit ev s; on_events isDeposit rest s' end.
(** One page, asked for again from the oldest ledger the server names; the page and the start *)
Definition ask_page (isDeposit : bool) (cursor : option string) (startLedger : Z) : T W (PoolPage * Z) :=
  match cursor with
  | Some c => res ← getEvents isDeposit (FromCursor c); mret (res, startLedger)
  | None =>
      attempt (res ← getEvents isDeposit (FromLedger startLedger); mret (res, startLedger))
        (λ err, match parseOldestLedgerFromRangeError err with
                | Some oldest => if startLedger <? oldest then res ← getEvents isDeposit (FromLedger oldest); mret (res, oldest) else raise err
                | None => raise err
                end)
  end.
Definition nonempty (c : option string) : option string := match c with Some "" => None | o => o end.
(** At most [pages] pages; then the scan stops as if it were complete. *)
Fixpoint topic_loop (pages : nat) (isDeposit : bool) (cursor prevCursor : option string) (s : Scan) : T W Scan :=
  match pages with
  | O => mret s
  | S pages' =>
      r ← ask_page isDeposit cursor (sn_startLedger s);
      let '(page, start) := r in
      s' ← of_res (on_events isDeposit (default [] (pg_events page)) (mkScan (sn_byIndex s) (sn_depositIndices s) start));
      match nonempty (pg_cursor page) with
      | None => mret s'
      | Some c => if match prevCursor with Some p => String.eqb c p | None => false end then mret s'
                  else topic_loop pages' isDeposit (Some c) (Some c) s'
      end
  end.
Record PoolEvents : Type := mkEvents { ev_stateLeaves : list Z; ev_depositIndices : list Z }.
Definition readPoolEvents (deploymentLedger : option Z) : T W PoolEvents :=
  startLedger ← poolEventStartLedger deploymentLedger;
  s1 ← topic_loop 200 true None None (mkScan [] [] startLedger);
  s2 ← topic_loop 200 false None None s1;
  let max := foldl Z.max (-1) (JMap.keys (sn_byIndex s2)) in
  mret (mkEvents ((λ i, default 0 (JMap.get (Z.of_nat i) (sn_byIndex s2))) <$> seq 0 (Z.to_nat (max + 1)))
          (sort_by (λ i, i) (sn_depositIndices s2))).

(** ** Published roots *)
Context `{!Network W} (native_bytes : jval → list byte) (native_number native_BigInt : jval → Z) (network : string).
Definition latestRoot (poolId sourcePublicKey : string) (state : bool) : T W (option (list byte)) :=
  attempt
    (getAccount sourcePublicKey;;
     let tx := mkTx sourcePublicKey BASE_FEE None (Invoke poolId "get_latest_root" [JBool state]) in
     sim ← simulateTransaction tx;
     let retval := prop (prop sim "result") "retval" in
     if isSimulationError sim || negb (truthy retval) then mret None else mret (Some (native_bytes retval)))
    (λ _, mret None).
Definition fetchPoolRoots (cfg : option PoolDeployment) (caller : string) : T W (option string * option string) :=
  match cfg with
  | None => mret (None, None)
  | Some c =>
      let toHex := fmap (λ u : list byte, "0x" +:+ hex_of_bytes u) in
      s ← latestRoot (po_poolId c) caller true;
      a ← latestRoot (po_poolId c) caller false;
      mret (toHex s, toHex a)
  end.
Definition fetchPoolBalance (cfg : option PoolDeployment) (caller : string) : T W Z :=
  match cfg with
  | None => mret 0
  | Some c =>
      getAccount caller;;
      sim ← simulateTransaction (mkTx caller BASE_FEE None (Invoke (po_nativeSac c) "balance" [JStr (po_poolId c)]));
      let retval := prop (prop sim "result") "retval" in
      if isSimulationError sim || negb (truthy retval) then mret 0 else mret (native_BigInt retval)
  end.

(** ** The proof *)
Context (poseidon : list Z → Z) (addressXdr : string → res (list byte)) (keccak_256 : list byte → list byte).
Context (isAbort : thrown → bool).
Definition toBE32 (v : Z) : list byte := be_loop 32 v [].
Definition beBytes (v : Z) (len : nat) : list byte := be_loop len v [].
Definition computeContext (recipient : string) (withdrawn fee : Z) (relayer : string) (scope : Z) : res Z :=
  recXdr ← addressXdr recipient;
  relXdr ← addressXdr relayer;
  let parts := [recXdr; beBytes withdrawn 16; beBytes fee 16; relXdr; beBytes scope 8] in
  let digest := keccak_256 (concat parts) in
  Ok (foldl WebNote.shift_in 0 digest mod BN254_R).
(** [MerkleTree] and [serializeProof] are the SDK's classes and functions, line by line. *)
Definition newMerkleTree (leaves : list Z) : MerkleTree := PoolMerkleTree poseidon leaves.
Definition tree_root (t : MerkleTree) : Z := poolRoot poseidon t.
Definition tree_proof (t : MerkleTree) (index : Z) : res (list (Z * Z)) := poolProof poseidon t index.
Definition serializeProof (proof : Groth16ProofLike) : res SerializedProof := serializeGroth16Proof proof.

Record WithdrawProof : Type := mkProof {
  wp_proofA : list byte;
  wp_proofB : list byte;
  wp_proofC : list byte;
  wp_withdrawnValue : Z;
  wp_stateRoot : list byte;
  wp_aspRoot : list byte;
  wp_nullifierHash : list byte;
  wp_newCommitment : list byte;
}.
(** [/fetch|network|404|not found|unexpected end|invalid|magic/i] *)
Definition is_artifact_error (message : string) : bool :=
  let m := toLowerCase message in
  existsb (λ p, includes p m) ["fetch"; "network"; "404"; "not found"; "unexpected end"; "invalid"; "magic"].
Definition prove_error (poolId : string) (leafIndex : jval) (err : thrown) : thrown :=
  if isAbort err then err
  else
    let message := errorMessage err in
    if is_artifact_error message
    then ProofArtifactUnavailableError (mkInit ("Could not load the withdrawal circuit artifacts: " +:+ message) (Some err) [])
           (if includes "zkey" (toLowerCase message) then ZKEY_PATH else WASM_PATH)
    else ProofGenerationError (mkInit ("Withdrawal proof generation failed: " +:+ message) (Some err) [("poolId", JStr poolId); ("leafIndex", leafIndex)]) "privacy_pool_withdraw".

(** [depositIndices.indexOf(note.leafIndex)] *)
Definition index_of_leaf (leafIndex : jval) (depositIndices : list Z) : Z :=
  match leafIndex with JNum i => indexOf i 0 depositIndices | _ => -1 end.
Definition stale_note (poolId : string) (leafIndex : Z) (depositIndices : list Z) : thrown :=
  let indexed := match depositIndices with [] => "none" | l => join ", " (bigint_toString 10 <$> l) end in
  NoteNotIndexedError
    (mkInit ("Leaf #" +:+ bigint_toString 10 leafIndex +:+ " is not a current pool Deposit event. Indexed deposits: " +:+ indexed
               +:+ ". Select the note created by your latest deposit, or clear/import notes if this one is stale.") None [("poolId", JStr poolId)])
    leafIndex depositIndices.
Definition wrong_pool (poolId : string) (leafIndex : Z) (expected onChain : string) : thrown :=
  NoteCommitmentMismatchError
    (mkInit ("Leaf #" +:+ bigint_toString 10 leafIndex +:+ " exists, but this note's commitment does not match the current pool. This note is probably from an older deposit or pool deployment.")
       None [("poolId", JStr poolId)]) leafIndex expected onChain.
(** The two published roots, when they are the roots of the two trees *)
Definition checked_roots (poolId caller : string) (stateRoot aspRoot : Z) : T W (list byte * list byte) :=
  publishedState ← latestRoot poolId caller true;
  publishedAsp ← latestRoot poolId caller false;
  match publishedState, publishedAsp with
  | Some s, Some a =>
      let stateRootMatches := bool_decide (toBE32 stateRoot = s) in
      let aspRootMatches := bool_decide (toBE32 aspRoot = a) in
      if negb stateRootMatches || negb aspRootMatches
      then raise (PoolRootsStaleError (mkInit "Published roots don't yet cover your deposit (ASP indexer is behind). Try again shortly." None []) poolId stateRootMatches aspRootMatches)
      else mret (s, a)
  | _, _ =>
      raise (PoolRootsUnpublishedError (mkInit "No published pool roots yet — the ASP indexer must publish first." None []) poolId
               (match publishedState with Some _ => true | None => false end) (match publishedAsp with Some _ => true | None => false end))
  end.
(** [draws] are the random bytes of the throw-away change note. *)
Definition generateWithdrawProof (cfg : option PoolDeployment) (deploymentLedger : option Z) (draws : list byte * list byte) (note : WebNote.PoolNote)
    (recipient : string) (fee : Z) (relayer caller : string) : T W WithdrawProof :=
  match cfg with
  | None => raise (not_deployed network)
  | Some cfg =>
      value ← of_res (BigInt (WebNote.value note));
      let h := WebNote.hashFields poseidon in
      events ← readPoolEvents deploymentLedger;
      let '(mkEvents stateLeaves depositIndices) := events in
      scope ← of_res (js_BigInt (po_scope cfg));
      leafIndex ← of_res (js_BigInt (WebNote.leafIndex note));
      let label := h [scope; leafIndex] in
      let aspLeaves := (λ i, h [scope; i]) <$> depositIndices in
      let aspLeafIndex := index_of_leaf (WebNote.leafIndex note) depositIndices in
      if aspLeafIndex <? 0 then raise (stale_note (po_poolId cfg) leafIndex depositIndices)
      else
      let onChain := (λ c, toLowerCase (WebNote.toHex32 c)) <$> (if leafIndex <? 0 then None else stateLeaves !! Z.to_nat leafIndex) in
      let expected := toLowerCase (WebNote.commitment note) in
      match onChain with
      | Some c => if negb (String.eqb c expected) then raise (wrong_pool (po_poolId cfg) leafIndex expected c) else mret tt
      | None => mret tt
      end;;
      let stateTree := newMerkleTree stateLeaves in
      let aspTree := newMerkleTree aspLeaves in
      statePath ← of_res (tree_proof stateTree leafIndex);
      aspPath ← of_res (tree_proof aspTree aspLeafIndex);
      published ← checked_roots (po_poolId cfg) caller (tree_root stateTree) (tree_root aspTree);
      let change := WebNote.newNoteSecrets draws.1 draws.2 in
      newNullifier ← of_res (BigInt change.1);
      newSecret ← of_res (BigInt change.2);
      let newCommitment := h [0; label; h [newNullifier; newSecret]] in
      nullifier ← of_res (BigInt (WebNote.nullifier note));
      let nullifierHash := h [nullifier] in
      context ← of_res (computeContext recipient value fee relayer scope);
      let s := bigint_toString 10 in
      let input := mkInput (s value) (s (tree_root stateTree)) (s (tree_root aspTree)) (s nullifierHash) (s newCommitment) (s context) (s value) (s label)
        (WebNote.nullifier note) (WebNote.secret note) change.1 change.2 (s <$> statePath.*1) (s <$> statePath.*2) (s <$> aspPath.*1) (s <$> aspPath.*2) in
      proof ← attempt (proveInWorker input) (λ err, raise (prove_error (po_poolId cfg) (WebNote.leafIndex note) err));
      bytes ← of_res (serializeProof proof);
      mret (mkProof (sp_a bytes) (sp_b bytes) (sp_c bytes) value published.1 published.2 (toBE32 nullifierHash) (toBE32 newCommitment))
  end.

(** ** One prover in two places *)
Lemma shift_in_val acc l : foldl WebNote.shift_in acc l = be_val acc l.
Proof. revert acc. induction l as [|b l IH]; intros acc; simpl; [done|]. rewrite IH. f_equal. unfold WebNote.shift_in. rewrite Z.shiftl_mul_pow2 by lia. done. Qed.
Lemma web_secrets d1 d2 : WebNote.newNoteSecrets d1 d2 = (ns_nullifier (newNoteSecrets d1 d2), ns_secret (newNoteSecrets d1 d2)).
Proof. unfold WebNote.newNoteSecrets, WebNote.randomFieldElement, newNoteSecrets, randomFieldElement. by rewrite !shift_in_val. Qed.
Lemma be_bytes_loop n v : be_loop n v [] = be_bytes n v.
Proof. by rewrite be_loop_app, app_nil_r. Qed.
Lemma web_context recipient withdrawn fee relayer scope :
  computeContext recipient withdrawn fee relayer scope = computeWithdrawContext addressXdr keccak_256 recipient withdrawn fee relayer scope.
Proof.
  unfold computeContext, computeWithdrawContext, context_preimage, beBytes. rewrite !be_bytes_loop.
  destruct (addressXdr recipient); [|done]. cbn [mbind res_bind]. destruct (addressXdr relayer); [|done]. cbn [mbind res_bind]. by rewrite shift_in_val.
Qed.
(** The note in the SDK's form *)
Definition sdk_note (n : WebNote.PoolNote) : NoteCodec.PoolNote :=
  NoteCodec.mkNote (WebNote.cluster n) (WebNote.poolId n) (WebNote.value n) (WebNote.scope n) (WebNote.leafIndex n) (WebNote.nullifier n) (WebNote.secret n)
    (WebNote.commitment n) (WebNote.spent n) (WebNote.createdAt n).
Definition sdk_opts (note : WebNote.PoolNote) (recipient relayer : string) (fee scope : Z) (events : PoolEvents) : WithdrawOpts :=
  mkOpts (sdk_note note) recipient relayer fee scope (ev_stateLeaves events) (ev_depositIndices events) None None.

Lemma checked_roots_run poolId caller st asp (w w' : W) r : checked_roots poolId caller st asp w = (inl r, w') → r = (bigIntToBytes32 st, bigIntToBytes32 asp).
Proof.
  unfold checked_roots. intros H. apply T_bind_ok in H as (ps & w1 & _ & H). apply T_bind_ok in H as (pa & w2 & _ & H).
  destruct ps as [s|], pa as [a|]; try discriminate H. unfold toBE32 in H. rewrite !be_bytes_loop in H.
  destruct (bool_decide (be_bytes 32 st = s)) eqn:E1; [|discriminate H]. destruct (bool_decide (be_bytes 32 asp = a)) eqn:E2; [|discriminate H].
  apply bool_decide_eq_true in E1 as <-. apply bool_decide_eq_true in E2 as <-. by injection H as <- _.
Qed.
Lemma of_res_ok {A} (r : res A) (w w' : W) a : of_res r w = (inl a, w') → r = Ok a ∧ w' = w.
Proof. intros [-> H]%of_res_run. destruct r as [a'|e]; [|done]. injection H as ->. done. Qed.
Lemma attempt_raise_ok {A} (m : T W A) (f : thrown → thrown) (w w' : W) a : attempt m (λ e, raise (f e)) w = (inl a, w') → m w = (inl a, w').
Proof. unfold attempt. destruct (m w) as [[b|e] w1]; [by intros [= -> ->]|done]. Qed.
#[local] Opaque poolRoot poolProof PoolMerkleTree be_bytes be_loop bigint_toString toHex32.
(** A proof of the SDK without its change, which is worth nothing in a full withdrawal *)
Definition web_form (q : PoolWithdrawProof) : WithdrawProof :=
  mkProof (pp_proofA q) (pp_proofB q) (pp_proofC q) (pp_withdrawnValue q) (pp_stateRoot q) (pp_aspRoot q) (pp_nullifierHash q) (pp_newCommitment q).
Lemma generated_run cfg deploymentLedger draws note recipient fee relayer caller (w w' : W) p v :
  generateWithdrawProof (Some cfg) deploymentLedger draws note recipient fee relayer caller w = (inl p, w') → BigInt (WebNote.value note) = Ok v → 0 < v →
  ∃ events w1 scope sw groth w2 w3 q, readPoolEvents deploymentLedger w = (inl events, w1) ∧ js_BigInt (po_scope cfg) = Ok scope ∧
    buildPoolWithdrawWitness poseidon addressXdr keccak_256 draws (sdk_opts note recipient relayer fee scope events) = Ok sw ∧
    proveInWorker (pww_input sw) w2 = (inl groth, w3) ∧ finishPoolWithdrawProof sw groth = Ok q ∧ p = web_form q ∧
    (∃ w4 w5, checked_roots (po_poolId cfg) caller (pww_stateRoot sw) (pww_aspRoot sw) w4 = (inl (wp_stateRoot p, wp_aspRoot p), w5)).
Proof.
  intros H Hv Hpos. unfold generateWithdrawProof in H.
  apply T_bind_ok in H as (value & wa & [Ev ->]%of_res_ok & H). assert (value = v) as -> by congruence.
  apply T_bind_ok in H as ([leaves indices] & w1 & Hread & H).
  apply T_bind_ok in H as (scope & wa & [Esc ->]%of_res_ok & H). apply T_bind_ok in H as (leaf & wa & [El ->]%of_res_ok & H).
  destruct (Z.ltb_spec (index_of_leaf (WebNote.leafIndex note) indices) 0) as [|Hasp]; [discriminate H|].
  destruct (WebNote.leafIndex note) as [| | |i| | | |] eqn:Eli; try (simpl in Hasp; lia). simpl in El. injection El as <-. simpl in Hasp.
  apply T_bind_ok in H as (u & wa & Hchk & H).
  apply T_bind_ok in H as (statePath & wb & [Esp ->]%of_res_ok & H). apply T_bind_ok in H as (aspPath & wb & [Eap ->]%of_res_ok & H).
  apply T_bind_ok in H as (published & wr & Hroots & H).
  apply T_bind_ok in H as (nn & wb & [Enn ->]%of_res_ok & H). apply T_bind_ok in H as (ns & wb & [Ens ->]%of_res_ok & H).
  apply T_bind_ok in H as (nul & wb & [Enul ->]%of_res_ok & H). apply T_bind_ok in H as (ctx & wb & [Ectx ->]%of_res_ok & H).
  apply T_bind_ok in H as (groth & w3 & Hprove%attempt_raise_ok & H). apply T_bind_ok in H as (bytes & wb & [Eser ->]%of_res_ok & H).
  injection H as <- _. pose proof (checked_roots_run _ _ _ _ _ _ _ Hroots) as ->. rewrite web_secrets in Enn, Ens, Hprove. cbn [fst snd] in Enn, Ens, Hprove.
  exists (mkEvents leaves indices), w1, scope. unfold buildPoolWithdrawWitness, sdk_opts. cbn [wo_note wo_recipient wo_relayer wo_fee wo_scope wo_stateLeaves wo_depositIndices wo_withdrawnValue wo_aspInclusion
    sdk_note NoteCodec.pn_value NoteCodec.pn_leafIndex NoteCodec.pn_commitment NoteCodec.pn_nullifier NoteCodec.pn_secret ev_stateLeaves ev_depositIndices].
  rewrite Ev. cbn [mbind res_bind default]. destruct (Z.leb_spec v 0); [lia|]. rewrite Z.ltb_irrefl. cbn [orb]. rewrite Eli. cbn [js_BigInt mbind res_bind]. unfold tree_proof, newMerkleTree in Esp.
  rewrite Esp. cbn [mbind res_bind].
  assert (Hc : match (if i <? 0 then None else leaves !! Z.to_nat i) with Some c => negb (String.eqb (toLowerCase (toHex32 c)) (toLowerCase (WebNote.commitment note))) | None => false end = false).
  { destruct (if i <? 0 then None else leaves !! Z.to_nat i) as [c|]; [|done]. cbn [fmap option_fmap option_map] in Hchk. change (WebNote.toHex32 c) with (toHex32 c) in Hchk.
    destruct (String.eqb (toLowerCase (toHex32 c)) (toLowerCase (WebNote.commitment note))); [done|discriminate Hchk]. }
  rewrite Hc. unfold asp_witness. destruct (Z.ltb_spec (indexOf i 0 indices) 0); [lia|]. unfold tree_proof, newMerkleTree, WebNote.hashFields in Eap.
  cbn [index_of_leaf] in Eap. unfold hashFields. rewrite Eap. cbn [mbind res_bind]. rewrite Enn. cbn [mbind res_bind]. rewrite Ens. cbn [mbind res_bind]. rewrite Enul. cbn [mbind res_bind].
  rewrite <-web_context, Ectx. cbn [mbind res_bind]. rewrite Z.sub_diag.
  eexists _, groth, _, w3, _. split; [exact Hread|]. split; [exact Esc|]. split; [reflexivity|].
  unfold tree_root, newMerkleTree, WebNote.hashFields in Hprove, Hroots. split; [cbn [pww_input]; exact Hprove|].
  unfold finishPoolWithdrawProof. unfold serializeProof in Eser. rewrite Eser. cbn [mbind res_bind]. split; [reflexivity|].
  split.
  { unfold web_form, toBE32, bigIntToBytes32, WebNote.hashFields, tree_root, newMerkleTree. rewrite !be_bytes_loop.
    cbn [pp_proofA pp_proofB pp_proofC pp_withdrawnValue pp_stateRoot pp_aspRoot pp_nullifierHash pp_newCommitment pww_withdrawnValue pww_stateRoot pww_aspRoot pww_nullifierHash pww_newCommitment fst snd].
    reflexivity. } cbn [pww_stateRoot pww_aspRoot wp_stateRoot wp_aspRoot fst snd]. eexists _, _. exact Hroots.
Qed.

(** C20 (refinement): The web application's prover is the SDK's.  When it returns a proof for a
    note of positive value, what it gave to the worker is the circuit input the SDK builds
    for a full withdrawal from the same leaves and deposits, read from the pool's events; the
    proof it returns is the one the SDK finishes, and its roots are the ones the pool
    published last.  For a spendable note the input satisfies the withdrawal circuit. *)
Theorem web_prover_is_the_sdks `{!Circomlib} (Hrange : ∀ l, 0 <= poseidon l < BN254_R) (Hmod : ∀ l, poseidon (fmod <$> l) = poseidon l)
    cfg deploymentLedger draws note recipient fee relayer caller (w w' : W) p v
    (Hrun : generateWithdrawProof (Some cfg) deploymentLedger draws note recipient fee relayer caller w = (inl p, w'))
    (Hv : BigInt (WebNote.value note) = Ok v) (Hpos : 0 < v) :
  ∃ events w1 scope sw groth w2 w3 q, readPoolEvents deploymentLedger w = (inl events, w1) ∧ js_BigInt (po_scope cfg) = Ok scope ∧
    buildPoolWithdrawWitness poseidon addressXdr keccak_256 draws (sdk_opts note recipient relayer fee scope events) = Ok sw ∧
    proveInWorker (pww_input sw) w2 = (inl groth, w3) ∧ finishPoolWithdrawProof sw groth = Ok q ∧ p = web_form q ∧
    (∃ w4 w5, checked_roots (po_poolId cfg) caller (pww_stateRoot sw) (pww_aspRoot sw) w4 = (inl (wp_stateRoot p, wp_aspRoot p), w5)) ∧
    ∀ i nul sec, spendable poseidon (sdk_opts note recipient relayer fee scope events) v i nul sec →
      ∃ g, signals_of (pww_input sw) = Ok g ∧ PrivacyPoolWithdraw poseidon POOL_TREE_DEPTH 64 g = true.
Proof.
  destruct (generated_run _ _ _ _ _ _ _ _ _ _ _ _ Hrun Hv Hpos) as (events & w1 & scope & sw & groth & w2 & w3 & q & H1 & H2 & H3 & H4 & H5 & H6 & H7).
  exists events, w1, scope, sw, groth, w2, w3, q. split_and!; try assumption. intros i nul sec Hs.
  destruct (witness_satisfies poseidon addressXdr keccak_256 Hrange Hmod _ _ _ _ _ _ _ H3 Hs) as (_ & _ & _ & _ & Hg & _). exact Hg.
Qed.

(** While the published association set leaves out one deposit, its root is another and
    nobody's withdrawal is proved. *)
Lemma unapproved_deposit_blocks_all poolId caller st asp s a (w w1 w2 : W) :
  latestRoot poolId caller true w = (inl (Some s), w1) → latestRoot poolId caller false w1 = (inl (Some a), w2) → bigIntToBytes32 asp ≠ a →
  ∃ e, checked_roots poolId caller st asp w = (inr e, w2) ∧ is_a "PoolRootsStaleError" e = true.
Proof.
  intros H1 H2 Hne. unfold checked_roots. unfold mbind, T_bind. rewrite H1, H2. unfold toBE32. rewrite !be_bytes_loop.
  rewrite (bool_decide_eq_false_2 (be_bytes 32 asp = a) Hne). rewrite orb_true_r. eexists. split; [done|]. by destruct (bool_decide _).
Qed.
End prover.

(** ** A withdrawal on the toy network *)
#[local] Existing Instance toy_circomlib.
Definition all_deposits : list Z := [0; 1; 2].
Definition web_sample : WebNote.PoolNote :=
  WebNote.mkNote "testnet" (Some "CPOOL") None "1000" (JNum 7) (JNum 1) "11" "22" (toHex32 sample_commitment) false (JNum 0).
Definition sample_state : Z := poolRoot pool_hash (PoolMerkleTree pool_hash [5; sample_commitment; 9]).
Definition sample_asp : Z := poolRoot pool_hash (PoolMerkleTree pool_hash ((λ i, pool_hash [7; i]) <$> all_deposits)).
#[local] Instance prover_network : Network nat := {|
  num_text := λ _, ""; random := λ _, 0%Q; elapsedMs := 0%Z; policy := Retry.DEFAULT_RETRY_POLICY; default_policy := Retry.DEFAULT_RETRY_POLICY;
  loadAccount_primary := toy_load; loadAccount_others := []; ledgers := [];
  submitTransaction := λ _ n, (inl "hash", n); getAccount := λ _ n, (inl tt, n); prepareTransaction := λ _ n, (inl tt, n);
  simulateTransaction := λ tx n, (inl (JObj [("result", JObj [("retval",
    match tx_op tx with Invoke _ _ [JBool true] => JStr "state" | _ => JStr "asp" end)])]), n);
  sendTransaction := λ _ n, (inl (mkSend "PENDING" (Some "hash") "{}"), n);
  getTransaction := λ _ n, (inl (mkResponse "SUCCESS" None None "{}"), 5, n);
  isSimulationError := λ v, has_prop v "error";
|}.
Definition root_bytes (v : jval) : list byte := match v with JStr "state" => bigIntToBytes32 sample_state | _ => bigIntToBytes32 sample_asp end.
#[local] Instance prover_server : ProverServer nat := {|
  getLatestLedger := λ n, (inl 100, n);
  oldestLedger := λ n, (inr (TError "no health" [] None), n);
  getEvents := λ isDeposit _ n, (inl (mkPoolPage (Some (if isDeposit : bool then
    [mkPoolEv (bigIntToBytes32 5) 0; mkPoolEv (bigIntToBytes32 sample_commitment) 1; mkPoolEv (bigIntToBytes32 9) 2] else [])) None), n);
  proveInWorker := λ _ n, (inl toy_groth, n);
|}.
Definition toy_generate : T nat WithdrawProof :=
  generateWithdrawProof root_bytes "testnet" pool_hash toy_address (λ b, b) (λ _, false) (Some (mkDeployment "CPOOL" "CSAC" (JNum 7) [])) None sample_draws web_sample "GREC" 3 "GREL" "GUSER".
Definition toy_read : list Z * list Z :=
  match (readPoolEvents None 0%nat : (PoolEvents + thrown) * nat).1 with inl e => (ev_stateLeaves e, ev_depositIndices e) | inr _ => ([], []) end.

Lemma web_prover_is_the_sdks_witness :
  toy_read = ([5; sample_commitment; 9], [0; 1; 2]) ∧
  ∃ p w' sw, toy_generate 0%nat = (inl p, w') ∧ wp_stateRoot p = bigIntToBytes32 (pww_stateRoot sw) ∧ wp_withdrawnValue p = pww_withdrawnValue sw.
Proof.
  split; [vm_compute; reflexivity|].
  destruct (toy_generate 0%nat) as [x w'] eqn:E.
  assert (Hx : (if x then true else false) = true) by (apply (f_equal fst) in E; cbn [fst] in E; rewrite <-E; vm_compute; reflexivity).
  destruct x as [p|e]; [|discriminate Hx].
  destruct (web_prover_is_the_sdks root_bytes "testnet" pool_hash toy_address (λ b, b) (λ _, false) pool_hash_range pool_hash_mod
    (mkDeployment "CPOOL" "CSAC" (JNum 7) []) None sample_draws web_sample "GREC" 3 "GREL" "GUSER" 0%nat w' p 1000 E eq_refl eq_refl)
    as (events & w1 & scope & sw & groth & w2 & w3 & q & _ & _ & _ & _ & H5 & H6 & _).
  exists p, w', sw. split; [reflexivity|]. unfold finishPoolWithdrawProof in H5. destruct (serializeGroth16Proof groth); [|discriminate H5].
  injection H5 as <-. rewrite H6. split; reflexivity.
Defined.
